(* ===== verification/_CoqProject ===== *)
-Q . S2P
Prelude.v
Strings.v
Base32.v
ByteQueue.v
Buffer.v
HttpResponse.v
HttpMessages.v
Inet.v
Hash.v
Tiger.v
Merkle.v
Url.v
Proxy.v
Socks5.v
Heap.v
Timer.v
Xml.v
XmlTree.v
XmlPrint.v
UpnpSoap.v
UpnpDescription.v
Ssdp.v
Gateway.v
PortMapper.v
GatewayService.v
HttpClient.v
Socket.v
ResolverPool.v
MonitorBackends.v
Monitor.v
Bandwidth.v
MessageHandler.v
SocksResolver.v
AddressLookup.v
Path.v
File.v
Tls.v
Blocking.v
Kqueue.v
MonitorChoice.v
SocketAddress.v
SocketBase.v
Server.v
Datagram.v
Interface.v
Multicast.v
Codec.v
Util.v
Notifier.v
PoolShutdown.v
PoolNotifier.v
Logging.v
