(* ===== verification/Prelude.v ===== *)
(** * Samurai: a verification of the protocol core

    Samurai is a C++ networking library driven by one event loop: a socket monitor that
    dispatches readiness, sockets that turn it into events (through TLS and SOCKS5
    proxies), timers, a pool of resolver threads, and on top of these an HTTP client and
    a UPnP port mapper, with the parsers, codecs and digests they need. This development
    models those parts as executable definitions translated from the sources under
    [src/src] and [src/include/samurai], and proves what makes each correct, alone and
    composed.

    ** How the parts are modelled

    Each file models one part of the program; a definition has the name of the function
    it translates, and the comment above it ([@src]) the file and the lines. State is a
    record passed through functions; what the C++ leaves undefined - a dangling pointer,
    an access out of bounds, an empty [back()] - and what never returns is [None], and the
    theorems show that it does not come up. Machine integers are [Z] with their
    wrap-around written out ([u16], [u32], [u64] below). Handlers of an application are
    arbitrary: a parameter, a script of what they call back, or further inputs where the
    code calls them last. What is not under [src/] is a parameter with its documented
    behaviour as named hypotheses: the allocator, [inet_pton]/[inet_ntop], the system's
    sockets and polls, OpenSSL, the resolver's [getaddrinfo], the C++ library's heap.

    - Foundations. This file: bytes, words, searching, list lemmas, little-endian words.
      [Strings] ([util/string.cpp], [stdc.cpp]), [Base32] ([util/base32.cpp]).
    - Buffers and HTTP. [Buffer] is [IO::Buffer] ([io/buffer.cpp]), which implements the
      interface [ByteQueue]; [HttpResponse] ([io/net/http/response.cpp]) is the incremental
      parser over any [ByteQueue]; [HttpMessages] a printer of responses and its round trip;
      [HttpClient] ([io/net/http/client.cpp]) the client over sockets and timers.
    - Names and addresses. [Inet] ([io/net/inetaddress.cpp]), [Url] ([io/net/url.cpp]),
      [Proxy] ([io/net/proxy.cpp]), [ResolverPool] ([io/net/dns/resolver-pool.cpp]) with
      its threads as interleaved steps, [PoolNotifier] it and its notifier together,
      [PoolShutdown] its destructor, [SocksResolver]
      ([dns/resolver-socks.cpp] and the choice of [dns/resolver.cpp]) the lookup through a
      proxy, [AddressLookup] the lookups of [inetaddress.cpp] with the handlers they tell.
      [SocketAddress] ([io/net/socketaddress.cpp]) the addresses the system is given, byte
      by byte, [Interface] ([io/net/interface.cpp], [hardwareaddress.cpp]) the host's
      interfaces.
    - The event loop. [MonitorBackends] has the interface of a back end ([Backend],
      [BackendLaws]) and its instances poll, select and epoll
      ([io/net/socketmonitor-*.cpp]), [Kqueue] the back end of BSD hosts, which reports
      filters apart, [MonitorChoice] which of them the process gets; [Monitor]
      ([io/net/socketmonitor.cpp], and the registration of [io/net/socketbase.cpp]) the
      registry and the pass over any of them.
      [Notifier] ([io/net/notifier.cpp]) wakes it from other threads, a step being one call
      of the system. [Heap] states what the heap algorithms of the C++ library promise, [Timer]
      ([timer.cpp]) the timers over it; [MessageHandler] ([messagehandler.cpp]) the queue
      of messages and its listeners.
    - Sockets. [Socks5] ([io/net/socks5.cpp]) the proxy handshake and its pump; [Socket]
      ([io/net/socket.cpp]) the stream socket as a state machine over what the system,
      TLS, the resolver and the handshake answer. [Bandwidth] ([util/bwestimation.cpp],
      [io/net/bandwidth.cpp]) accounts for what they transfer. [Tls] ([io/net/tlsfactory.cpp],
      [tlsfactory-openssl.cpp]) is what OpenSSL is told and asked, over an OpenSSL that
      answers as it likes. [SocketBase] ([io/net/socketbase.cpp]) is what the other sockets
      share, over the trace of what was called, and on it [Server] ([serversocket.cpp]),
      [Datagram] ([datagram.cpp]) and [Multicast] ([multicast.cpp]) are step relations in
      which a handler calls back.
    - Files. [Path] the names of [io/file.cpp] and the parts of [std::filesystem::path] they
      use, [File] ([io/file.cpp], [io/dir.cpp]) files and directories over an interface of
      system calls.
    - The rest. [Codec] ([io/codec.h], [compression.cpp], [unicode.cpp]) the loop that drives
      a codec and the codecs over libraries with the laws of streams; [Util]
      ([util/random.cpp], [util/format.cpp], [timestamp.cpp], [os.cpp]) numbers, sizes,
      times and limits; [Logging] ([debug/dbg.cpp]) the logs.
    - XML and UPnP. [Xml] ([io/xml.cpp]) the parser over any [XmlSink], [XmlTree] the two
      sinks of the source and the tree, [XmlPrint] a printer and its round trip;
      [UpnpSoap] ([upnp/soap.cpp], [upnp/error.cpp]), [UpnpDescription]
      ([upnp/description.cpp]), [Ssdp] ([upnp/ssdp.cpp]), [Gateway] ([upnp/gateway.cpp]);
      [PortMapper] ([upnp/portmapper.cpp]) is over the interface [ActionService], which
      [GatewayService] shows the gateway to provide, and composes the two; [Blocking]
      ([upnp/portmap.cpp]) the blocking calls that run this composition until it answers.
    - Digests. [Hash] ([crypto/digest/hash.cpp]) the block accumulator, with the interface
      [Hasher]; [Tiger] ([tiger.cpp]) an instance; [Merkle] ([merkletree.cpp]) the hash tree
      over any [Hasher].

    ** What is proved

    - Parsers: how the input is cut does not matter ([HttpResponse.parse_segmentation],
      [Tiger.tiger_digest_spec], [Merkle.merkle_digest_spec]); they always return, and keep
      within their limits ([parse_total], [parser_within_limits], [document_within_limits]);
      what is written reads back ([message_roundtrip], [xml_roundtrip], [request_reads_back],
      [url_roundtrip]); both ways of reading XML agree ([reader_document_agree]).
    - Protocols: credentials and requests leave in order only ([Socks5.exchange_order]);
      a proxied socket says nothing outside its proxy ([Socket.proxied_stays_inside]); data
      comes between a connection and its end and never unencrypted while TLS is negotiated
      or in use ([socket_in_order]); a handshake that is done verified the peer it was asked to
      ([handshake_verifies]); https is never followed to http, and a client writes nothing
      before its socket says that TLS is established or that there is room
      ([client_stays_secure]); a search hears each believable reply that is the first of its
      location ([search_protocol]); a lookup through a proxy never asks the system ([proxied_lookup_reports]).
    - Bookkeeping, by invariants over every reachable state and every behaviour of the
      environment: each request, action, mapping and lookup is reported once, under way or
      given up by the application
      ([client_reports_once], [gateway_safe], [mapper_reports_once], [stack_accounts],
      [lookups_accounted]); what the monitor watches is what it took and did not give back, and
      what counts as monitored and is not watched was refused ([monitor_watches]); a buffer is a FIFO list ([buffer_refines_fifo]); the mappings
      held are those reported ([held_matches_reports]); what a file says of itself is what
      the system says, unless it could not be opened again ([answers_are_current]); a listener is watched or in a pause that
      ends with it watched ([listener_resumes]); a multicast socket remembers the groups it
      is in ([memberships_recorded]); datagrams are told once and leave once
      ([datagrams_told], [packet_sent_once]); random bytes are all the kernel's or none
      ([random_all_or_nothing]); the logs are complete and in order ([logs_complete]).
    - Progress: timers that are due fire once and in order ([process_fires]), leases are
      renewed in time ([renewal_in_time]), answers are passed on ([gateway_answers]), the
      pool comes to rest with every lookup reported ([lookups_end]) and its destruction ends
      ([shutdown_ends]), no wakeup of the loop is lost ([wakeups_kept]) and so no result of the pool is left
      ([results_delivered]), compressing ends
      with the whole stream ([gzip_compresses]), the blocking fetch
      returns ([fetch_answers]), so do the blocking calls on port mappings
      ([blocking_answers]), messages are handled once and in order
      ([messages_once_in_order]).
    - Equivalences: what each of the three back ends reports, and where they report the
      same ([backends_agree]), kqueue has the
      filters its sockets want ([kqueue_registers]), dot segments
      are removed as RFC 3986 has it ([remove_dot_segments_spec]), the rate reported is
      the average of three seconds ([rates_are_averages]), a name resolves as entering its
      directories one by one, but for what is erased at its end ([resolve_enters]), an address given to the system is read back
      as it was ([sockaddr_roundtrip]), a size is shown to half a hundredth
      ([size_shown]), and a comparison of secrets looks at all of them
      ([secrets_compared]).
    - Where a theorem needs something of the application - handlers that do not destroy the
      gateway that calls them, timers that are not armed for the past, no open of an open
      file that fails - its comment says so and names the lemma that shows what happens
      otherwise.
    - Lemmas at the end of the files show by evaluation where the code does not do what
      its comments say.

    ** Bounds and fuel

    Recursion that is not structural has fuel, and the theorems prove that what is given
    is enough: the HTTP parser gets one round more than there are bytes, since every
    further round takes a byte ([parse_total]); the XML parser one turn per byte of what is
    left; [socks5_pump] 270 turns, since a reply has at most 262 bytes ([pump_spec]); a timer pass
    one per entry of the heap; scripts of handlers one more than their length, since a
    nested call takes a reaction of the script ([Socket.performs_enough],
    [Monitor.perform_ok]). Pool and gateway have no fuel: they are step relations.

    ** Not modelled, and why

    Configuration macros, texts that only explain an error, [strftime], and the code of other hosts (Winsock, the Windows branches of files,
    interfaces and random numbers). What lies behind the parameters is not modelled either:
    compression, conversion, OpenSSL, the kernel. *)

From Stdlib Require Export Ascii ZArith Lia.
From stdpp Require Export base tactics option list numbers sets strings.

#[global] Open Scope Z_scope.

(** ** Bytes and byte strings *)

(** A C++ [char]/[uint8_t] is an [ascii]; [code] is its value as an unsigned
    integer and [chr] the conversion [(char) z], which keeps the low 8 bits. *)
Abbreviation byte := ascii.
Abbreviation bytes := (list ascii).

Definition code (c : byte) : Z := Z.of_N (N_of_ascii c).
Definition chr (z : Z) : byte := ascii_of_N (Z.to_N (z mod 256)).

(** A string literal of the source. *)
Definition lit (s : String.string) : bytes := String.list_ascii_of_string s.
Arguments lit _%_string_scope.

Definition ch_tab : byte := chr 9.
Definition ch_lf : byte := chr 10.
Definition ch_cr : byte := chr 13.
Definition ch_dquote : byte := chr 34.
Definition crlf : bytes := [ch_cr; ch_lf].

(** ** Machine integers *)

Definition u8 (z : Z) : Z := z mod 2 ^ 8.
Definition u16 (z : Z) : Z := z mod 2 ^ 16.
Definition u32 (z : Z) : Z := z mod 2 ^ 32.
Definition u64 (z : Z) : Z := z mod 2 ^ 64.

(** [SIZE_MAX] of a 64-bit host. *)
Definition SIZE_MAX : Z := 2 ^ 64 - 1.

(** The size of a string as a [size_t]. *)
Definition zlen {A} (l : list A) : Z := Z.of_nat (length l).

(** [take] and [drop] at a [size_t]. *)
Abbreviation ztake n l := (take (Z.to_nat n) l).
Abbreviation zdrop n l := (drop (Z.to_nat n) l).

(** What the [find] family returns when there is no match. *)
Definition npos : Z := SIZE_MAX.
Definition pos_or_npos (r : option nat) : Z :=
  match r with Some i => Z.of_nat i | None => npos end.

(** ** Searching a string *)

(** [find_if]: the position of the first character satisfying [p]. *)
Fixpoint find_if (p : byte -> bool) (s : bytes) : option nat :=
  match s with
  | [] => None
  | c :: s' => if p c then Some 0%nat else S <$> find_if p s'
  end.

(** [find], [find] from a position, [rfind] of one character. *)
Definition find_char (c : byte) (s : bytes) : option nat := find_if (Ascii.eqb c) s.
Definition find_char_from (c : byte) (pos : nat) (s : bytes) : option nat :=
  (fun i => (pos + i)%nat) <$> find_char c (drop pos s).
Definition rfind_char (c : byte) (s : bytes) : option nat :=
  (fun i => (length s - 1 - i)%nat) <$> find_char c (rev s).

(** [str.compare(0, token.size(), token) == 0]. *)
Definition starts_with (token s : bytes) : bool := bool_decide (take (length token) s = token).

(** [find] of a substring. *)
Fixpoint find_sub (token s : bytes) : option nat :=
  if starts_with token s then Some 0%nat
  else match s with
       | [] => None
       | _ :: s' => S <$> find_sub token s'
       end.

(** ** Quantifying over all 256 bytes by evaluation *)

Definition all_bytes : bytes := map (fun n => ascii_of_nat n) (seq 0 256).

Lemma in_all_bytes (c : byte) : c ∈ all_bytes.
Proof.
  unfold all_bytes. apply list_elem_of_In, in_map_iff.
  exists (nat_of_ascii c). split; [apply ascii_nat_embedding|].
  apply in_seq. pose proof (nat_ascii_bounded c). lia.
Qed.

#[global] Instance forall_byte_dec (P : byte -> Prop) `{forall c, Decision (P c)} :
  Decision (forall c, P c).
Proof.
  refine (cast_if (decide (Forall P all_bytes))).
  - abstract (intros c; rewrite Forall_forall in *; auto using in_all_bytes).
  - abstract (intros HP; apply n, Forall_forall; auto).
Defined.

(** Solves a decidable statement that quantifies over bytes only. *)
Ltac byte_decide := cbv zeta; refine (bool_decide_unpack _ _); vm_compute; exact I.

Lemma code_range c : 0 <= code c < 256.
Proof. revert c. byte_decide. Qed.

Lemma chr_code c : chr (code c) = c.
Proof. revert c. byte_decide. Qed.

Lemma code_chr z : code (chr z) = z mod 256.
Proof.
  unfold code, chr. pose proof (Z.mod_pos_bound z 256 ltac:(lia)).
  rewrite N_ascii_embedding; lia.
Qed.

Lemma code_chr_small z : 0 <= z < 256 -> code (chr z) = z.
Proof. intros. rewrite code_chr. apply Z.mod_small. lia. Qed.

Lemma chr_mod z : chr (z mod 256) = chr z.
Proof. unfold chr. rewrite Z.mod_mod by lia. done. Qed.

#[global] Instance code_inj : Inj (=) (=) code.
Proof. intros c d H. rewrite <- (chr_code c), <- (chr_code d). by rewrite H. Qed.

(** ** Lemmas on searching *)

Section find_if_lemmas.
Variable p : byte -> bool.

Lemma find_if_None s : find_if p s = None <-> Forall (fun c => p c = false) s.
Proof.
  induction s as [|c s IH]; simpl; [split; auto|].
  destruct (p c) eqn:E.
  - split; [done|]. inversion 1. congruence.
  - rewrite fmap_None, IH, Forall_cons. tauto.
Qed.

Lemma find_if_Some s i :
  find_if p s = Some i <->
  exists l c r, s = l ++ c :: r /\ length l = i /\ p c = true /\ Forall (fun d => p d = false) l.
Proof.
  split.
  - revert i. induction s as [|c s IH]; simpl; intros i H; [done|].
    destruct (p c) eqn:E.
    + inversion H; subst. exists [], c, s. auto.
    + apply fmap_Some in H as (j & Hj & ->).
      apply IH in Hj as (l & d & r & -> & <- & Hd & Hl).
      exists (c :: l), d, r. auto.
  - intros (l & c & r & -> & <- & Hc & Hl).
    induction Hl as [|d l Hd Hl IH]; simpl; [by rewrite Hc|].
    by rewrite Hd, IH.
Qed.

Lemma find_if_app a b :
  find_if p (a ++ b) =
  match find_if p a with
  | Some i => Some i
  | None => Nat.add (length a) <$> find_if p b
  end.
Proof.
  induction a as [|c a IH]; simpl.
  - destruct (find_if p b); done.
  - destruct (p c); [done|]. rewrite IH.
    destruct (find_if p a); simpl; [done|].
    destruct (find_if p b); done.
Qed.

Lemma find_if_lt s i : find_if p s = Some i -> (i < length s)%nat.
Proof.
  intros (l & c & r & -> & <- & _)%find_if_Some. rewrite length_app; simpl; lia.
Qed.
End find_if_lemmas.

Lemma find_char_None c s : find_char c s = None <-> c ∉ s.
Proof.
  unfold find_char. rewrite find_if_None, Forall_forall. split.
  - intros H Hin. specialize (H c Hin). by rewrite Ascii.eqb_refl in H.
  - intros H d Hd. apply Ascii.eqb_neq. naive_solver.
Qed.

Lemma find_char_Some c s i :
  find_char c s = Some i <-> exists l r, s = l ++ c :: r /\ length l = i /\ c ∉ l.
Proof.
  unfold find_char. rewrite find_if_Some. split.
  - intros (l & d & r & -> & Hi & Hd%Ascii.eqb_eq & Hl). subst d.
    exists l, r. repeat split; auto. by apply find_char_None, find_if_None.
  - intros (l & r & -> & Hi & Hl). exists l, c, r. repeat split; auto.
    + apply Ascii.eqb_refl.
    + by apply find_if_None, find_char_None.
Qed.

Lemma find_char_app_here c l r : c ∉ l -> find_char c (l ++ c :: r) = Some (length l).
Proof. intros. apply find_char_Some. eauto. Qed.

Lemma find_char_lt c s i : find_char c s = Some i -> (i < length s)%nat.
Proof. apply find_if_lt. Qed.

Lemma rfind_char_None c s : rfind_char c s = None <-> c ∉ s.
Proof.
  unfold rfind_char. rewrite fmap_None, find_char_None.
  rewrite !list_elem_of_In, <- in_rev. done.
Qed.

Lemma rfind_char_Some c s i :
  rfind_char c s = Some i <-> exists l r, s = l ++ c :: r /\ length l = i /\ c ∉ r.
Proof.
  unfold rfind_char. rewrite fmap_Some. split.
  - intros (j & (l & r & Hs & <- & Hl)%find_char_Some & ->).
    assert (s = rev r ++ c :: rev l) as ->.
    { rewrite <- (rev_involutive s), Hs, rev_app_distr. simpl. by rewrite <- app_assoc. }
    exists (rev r), (rev l). rewrite length_app. simpl. rewrite !length_rev.
    repeat split; [lia|]. by rewrite list_elem_of_In, <- in_rev, <- list_elem_of_In.
  - intros (l & r & -> & <- & Hr). exists (length r). split.
    + apply find_char_Some. exists (rev r), (rev l).
      rewrite rev_app_distr. simpl. rewrite <- app_assoc, length_rev. repeat split; auto.
      by rewrite list_elem_of_In, <- in_rev, <- list_elem_of_In.
    + rewrite length_app. simpl. lia.
Qed.

Lemma starts_with_spec t s : starts_with t s = true <-> exists r, s = t ++ r.
Proof.
  unfold starts_with. rewrite bool_decide_eq_true. split.
  - intros H. exists (drop (length t) s). rewrite <- H at 1. by rewrite take_drop.
  - intros [r ->]. by rewrite take_app_length.
Qed.

Lemma find_sub_Some t s i :
  find_sub t s = Some i <->
  (exists l r, s = l ++ t ++ r /\ length l = i) /\
  (forall j, (j < i)%nat -> starts_with t (drop j s) = false).
Proof.
  revert i. induction s as [|c s IH]; intros i.
  - simpl. destruct (starts_with t []) eqn:E.
    + split.
      * intros [= <-]. apply starts_with_spec in E as [r E]. split; [|lia].
        exists [], r. auto.
      * intros [(l & r & Hs & <-) _]. by destruct l.
    + split; [done|]. intros [(l & r & Hs & <-) _].
      destruct l; [|done]. assert (starts_with t [] = true); [|congruence].
      apply starts_with_spec. by exists r.
  - simpl. destruct (starts_with t (c :: s)) eqn:E.
    + split.
      * intros [= <-]. apply starts_with_spec in E as [r E]. split; [|lia].
        exists [], r. auto.
      * intros [(l & r & Hs & Hl) Hmin]. destruct i; [done|].
        specialize (Hmin 0%nat ltac:(lia)). simpl in Hmin. congruence.
    + rewrite fmap_Some. split.
      * intros (j & (( l & r & -> & <-) & Hmin)%IH & ->). split.
        -- exists (c :: l), r. auto.
        -- intros [|k] Hk; [done|]. simpl. apply Hmin. lia.
      * intros [(l & r & Hs & <-) Hmin]. destruct l as [|c' l].
        -- simpl in Hs. assert (starts_with t (c :: s) = true); [|congruence].
           apply starts_with_spec. by exists r.
        -- simpl in Hs. injection Hs as -> ->. exists (length l). split; [|done].
           apply IH. split; [eauto|]. intros j Hj. apply (Hmin (S j)). simpl. lia.
Qed.

Lemma find_sub_lt t s i : find_sub t s = Some i -> (i + length t <= length s)%nat.
Proof. intros [(l & r & -> & <-) _]%find_sub_Some. rewrite !length_app. lia. Qed.

Lemma find_sub_short t s : (length s < length t)%nat -> find_sub t s = None.
Proof.
  intros H. destruct (find_sub t s) eqn:E; [|done]. apply find_sub_lt in E. lia.
Qed.

(** Searching a substring by searching its first character. *)
Lemma find_sub_by_char c t s :
  find_sub (c :: t) s =
  match find_char c s with
  | None => None
  | Some i => if starts_with (c :: t) (drop i s) then Some i
              else Nat.add (S i) <$> find_sub (c :: t) (drop (S i) s)
  end.
Proof.
  induction s as [|d s IH]; [done|]. cbn [find_sub]. unfold find_char in *. cbn [find_if].
  destruct (Ascii.eqb_spec c d) as [<-|Hne]; [done|].
  assert (starts_with (c :: t) (d :: s) = false) as ->.
  { apply bool_decide_eq_false. cbn. congruence. }
  rewrite IH. destruct (find_if (Ascii.eqb c) s) as [i|]; [|done]. cbn [fmap option_fmap option_map drop].
  destruct (starts_with (c :: t) (drop i s)); [done|]. by destruct (find_sub (c :: t) (drop (S i) s)).
Qed.

Lemma rfind_char_snoc c l d :
  rfind_char c (l ++ [d]) = if Ascii.eqb d c then Some (length l) else rfind_char c l.
Proof.
  unfold rfind_char. rewrite rev_app_distr. cbn [rev app]. unfold find_char. cbn [find_if].
  rewrite Ascii.eqb_sym, length_app. cbn [length].
  destruct (Ascii.eqb d c); cbn [fmap option_fmap option_map]; [f_equal; lia|].
  destruct (find_if (Ascii.eqb c) (rev l)); cbn; [f_equal; lia|done].
Qed.

Create HintDb samurai.
Create Rewrite HintDb samurai_len.

(** ** Lemmas on [zlen] *)

Lemma zlen_nonneg {A} (l : list A) : 0 <= zlen l.
Proof. unfold zlen. lia. Qed.

Lemma zlen_app {A} (a b : list A) : zlen (a ++ b) = zlen a + zlen b.
Proof. unfold zlen. rewrite length_app. lia. Qed.

Lemma zlen_cons {A} (x : A) l : zlen (x :: l) = 1 + zlen l.
Proof. unfold zlen. simpl length. lia. Qed.

Lemma zlen_nil {A} : zlen (@nil A) = 0.
Proof. done. Qed.

Lemma zlen_take {A} (l : list A) n : zlen (take n l) = Z.min (Z.of_nat n) (zlen l).
Proof. unfold zlen. rewrite length_take. lia. Qed.

Lemma zlen_drop {A} (l : list A) n : zlen (drop n l) = Z.max 0 (zlen l - Z.of_nat n).
Proof. unfold zlen. rewrite length_drop. lia. Qed.

Lemma zlen_prefix {A} (a b c : list A) n : zlen (a ++ b ++ c) < n -> zlen (a ++ b) < n.
Proof. rewrite app_assoc, (zlen_app (a ++ b)). pose proof (zlen_nonneg c). lia. Qed.

Lemma ztake_app_ge {A} (a b : list A) n :
  zlen a <= n -> ztake n (a ++ b) = a ++ ztake (n - zlen a) b.
Proof.
  unfold zlen. intros. rewrite take_app, take_ge by lia. do 2 f_equal. lia.
Qed.

Lemma zdrop_app_ge {A} (a b : list A) n :
  zlen a <= n -> zdrop n (a ++ b) = zdrop (n - zlen a) b.
Proof.
  unfold zlen. intros. rewrite drop_app, drop_ge by lia. cbn. f_equal. lia.
Qed.

Lemma zlen_replicate {A} n (x : A) : zlen (replicate n x) = Z.of_nat n.
Proof. unfold zlen. by rewrite length_replicate. Qed.

#[export] Hint Rewrite @zlen_app @zlen_cons @zlen_nil @zlen_take @zlen_drop @zlen_replicate
  @length_app @length_take @length_drop @length_replicate : samurai_len.
#[export] Hint Resolve zlen_nonneg code_range : samurai.

(** Normalises list lengths everywhere and calls [lia]. *)
Ltac zlen_lia := unfold zlen in *; autorewrite with samurai_len in *; simpl length in *; lia.

(** Splits conjunctions only, never a record. *)
Ltac splits := repeat match goal with |- _ /\ _ => split end.

(** ** Arithmetic automation *)

(** [lia] with division and modulus by constants turned into equations. *)
Ltac div_lia := first [ lia | Z.div_mod_to_equations; lia ].

(** Rewrites every comparison of the goal that arithmetic decides. *)
Ltac zcmp :=
  repeat match goal with
  | |- context [?a <? ?b] =>
      first [ rewrite (proj2 (Z.ltb_lt a b)) by div_lia | rewrite (proj2 (Z.ltb_ge a b)) by div_lia ]
  | |- context [?a <=? ?b] =>
      first [ rewrite (proj2 (Z.leb_le a b)) by div_lia | rewrite (proj2 (Z.leb_gt a b)) by div_lia ]
  | |- context [?a =? ?b] =>
      first [ rewrite (proj2 (Z.eqb_eq a b)) by div_lia | rewrite (proj2 (Z.eqb_neq a b)) by div_lia ]
  end; cbn [andb orb negb].

(** A union of disjoint bit fields is their sum. *)
Lemma lor_shift_add a b k : 0 <= k -> 0 <= b < 2 ^ k -> Z.lor (Z.shiftl a k) b = a * 2 ^ k + b.
Proof.
  intros Hk Hb. rewrite Z.shiftl_mul_pow2 by lia.
  pose proof (Z.add_lor_land (a * 2 ^ k) b) as H.
  enough (Z.land (a * 2 ^ k) b = 0) by lia.
  apply Z.bits_inj'. intros n Hn. rewrite Z.land_spec, Z.bits_0.
  destruct (Z.lt_ge_cases n k).
  - by rewrite Z.mul_pow2_bits_low by lia.
  - rewrite <- (Z.mod_small b (2 ^ k)), Z.mod_pow2_bits_high by lia. apply andb_false_r.
Qed.

(** ** Integers as bytes *)

(** The bytes of a [w]-byte integer, least significant first, and back. *)
Fixpoint le_bytes (w : nat) (v : Z) : bytes :=
  match w with O => [] | S w => chr v :: le_bytes w (v / 256) end.
Fixpoint le_value (l : bytes) : Z :=
  match l with [] => 0 | c :: l => code c + 256 * le_value l end.

Lemma pow256_S n : 2 ^ (8 * Z.of_nat (S n)) = 256 * 2 ^ (8 * Z.of_nat n).
Proof.
  replace (8 * Z.of_nat (S n)) with (8 + 8 * Z.of_nat n) by lia. by rewrite Z.pow_add_r by lia.
Qed.

Lemma length_le_bytes w v : length (le_bytes w v) = w.
Proof. revert v. induction w; intros; simpl; auto. Qed.

Lemma le_value_le_bytes w v : le_value (le_bytes w v) = v mod 2 ^ (8 * Z.of_nat w).
Proof.
  revert v. induction w as [|w IH]; intros v; [by rewrite Z.mod_1_r|].
  cbn [le_bytes le_value]. rewrite IH, pow256_S, code_chr.
  rewrite Z.rem_mul_r by lia. done.
Qed.

Lemma le_bytes_le_value l : le_bytes (length l) (le_value l) = l.
Proof.
  induction l as [|c l IH]; [done|]. cbn [length le_bytes le_value]. pose proof (code_range c).
  assert ((code c + 256 * le_value l) / 256 = le_value l) as -> by div_lia.
  rewrite <- chr_mod.
  assert ((code c + 256 * le_value l) mod 256 = code c) as -> by div_lia.
  by rewrite IH, chr_code.
Qed.

Lemma le_value_app a b :
  le_value (a ++ b) = le_value a + 2 ^ (8 * Z.of_nat (length a)) * le_value b.
Proof.
  induction a as [|c a IH]; [by rewrite Z.mul_1_l|]. cbn [app le_value length].
  rewrite IH, pow256_S. lia.
Qed.

Lemma le_value_range l : 0 <= le_value l < 2 ^ (8 * Z.of_nat (length l)).
Proof.
  induction l as [|c l IH]; [done|]. cbn [le_value length]. rewrite pow256_S.
  pose proof (code_range c). lia.
Qed.

Lemma le_value_zero l : le_value l = 0 <-> l = replicate (length l) (chr 0).
Proof.
  induction l as [|c l IH]; [done|]. cbn [le_value length replicate].
  pose proof (code_range c). pose proof (le_value_range l). split.
  - intros H'. assert (code c = 0) as Hc by lia. rewrite <- (chr_code c), Hc. f_equal. apply IH. lia.
  - intros [= -> Hl]. change (code (chr 0)) with 0. apply IH in Hl. lia.
Qed.
