(* ===== verification/Strings.v ===== *)
(** * Strings: the string helpers of [src/util/string.cpp] and [src/stdc.cpp]

    Trimming, splitting, percent coding, XML escaping, UTF-8 encoding, ASCII
    case-insensitive comparison and the decimal converters, each as the loop
    the source runs, with their reference specifications. *)

From S2P Require Import Prelude.

(** ** Character classes and trimming *)

(* @src src/src/util/string.cpp:10-13 is_space *)
Definition is_space (c : byte) : bool :=
  Ascii.eqb c " " || Ascii.eqb c ch_tab || Ascii.eqb c ch_cr || Ascii.eqb c ch_lf.

(* @src src/src/util/string.cpp:15-20 is_unreserved *)
Definition is_unreserved (c : byte) : bool :=
  let v := code c in
  ((code "A" <=? v) && (v <=? code "Z")) || ((code "a" <=? v) && (v <=? code "z")) ||
  ((code "0" <=? v) && (v <=? code "9")) ||
  Ascii.eqb c "-" || Ascii.eqb c "." || Ascii.eqb c "_" || Ascii.eqb c "~".

(* @src src/src/util/string.cpp:23-29 hex_value *)
Definition hex_value (c : byte) : Z :=
  let v := code c in
  if (code "0" <=? v) && (v <=? code "9") then v - code "0"
  else if (code "a" <=? v) && (v <=? code "f") then v - code "a" + 10
  else if (code "A" <=? v) && (v <=? code "F") then v - code "A" + 10
  else -1.

(** The first loop of [trim]: advance [begin] over whitespace. *)
(* @src src/src/util/string.cpp:39-39 trim *)
Fixpoint skip_while (p : byte -> bool) (s : bytes) : bytes :=
  match s with
  | c :: s' => if p c then skip_while p s' else s
  | [] => []
  end.

(** Both loops: the second runs the same scan from the back. *)
(* @src src/src/util/string.cpp:34-43 Samurai::Util::trim *)
Definition trim (text : bytes) : bytes :=
  rev (skip_while is_space (rev (skip_while is_space text))).

(** ** Splitting *)

(** The [for(;;)] of [split]: [begin] is the start of the current field. The
    fuel bounds the number of fields; [split_total] shows [length text + 1]
    is always enough. *)
(* @src src/src/util/string.cpp:50-62 Samurai::Util::split *)
Fixpoint split_loop (fuel : nat) (text : bytes) (sep : byte) (begin : nat)
    (fields : list bytes) : option (list bytes) :=
  match fuel with
  | O => None
  | S fuel =>
      match find_char_from sep begin text with
      | None => Some (fields ++ [drop begin text])
      | Some pos =>
          split_loop fuel text sep (pos + 1)
            (fields ++ [take (pos - begin) (drop begin text)])
      end
  end.

(* @src src/src/util/string.cpp:46-63 Samurai::Util::split *)
Definition split (text : bytes) (sep : byte) : list bytes :=
  default [] (split_loop (S (length text)) text sep 0 []).

(* @src src/src/util/string.cpp:66-75 Samurai::Util::split_once *)
Definition split_once (text : bytes) (sep : byte) : option (bytes * bytes) :=
  match find_char sep text with
  | None => None
  | Some pos => Some (take pos text, drop (pos + 1) text)
  end.

(** ** Percent coding *)

(** The decoding loop over the remaining text. The flag is the value the
    function returns; the bytes are what [out] holds when it does. *)
(* @src src/src/util/string.cpp:83-99 Samurai::Util::percent_decode *)
Fixpoint percent_decode_loop (text out : bytes) : bool * bytes :=
  match text with
  | [] => (true, out)
  | c :: rest =>
      if negb (Ascii.eqb c "%") then percent_decode_loop rest (out ++ [c])
      else match rest with
           | h :: l :: rest' =>
               let hi := hex_value h in
               let lo := hex_value l in
               if (hi <? 0) || (lo <? 0) then (false, out)
               else percent_decode_loop rest' (out ++ [chr (Z.lor (Z.shiftl hi 4) lo)])
           | _ => (false, out)
           end
  end.

(* @src src/src/util/string.cpp:78-102 Samurai::Util::percent_decode *)
Definition percent_decode (text : bytes) : bool * bytes := percent_decode_loop text [].

(* @src src/src/util/string.cpp:107-107 digits *)
Definition hex_digits : bytes := lit "0123456789ABCDEF".

(* @src src/src/util/string.cpp:112-124 Samurai::Util::percent_encode *)
Definition percent_encode_char (c : byte) : bytes :=
  if is_unreserved c then [c]
  else ["%"%char;
        nth (Z.to_nat (Z.shiftr (code c) 4)) hex_digits "0"%char;
        nth (Z.to_nat (Z.land (code c) 15)) hex_digits "0"%char].

(* @src src/src/util/string.cpp:105-127 Samurai::Util::percent_encode *)
Definition percent_encode (text : bytes) : bytes :=
  fold_left (fun out c => out ++ percent_encode_char c) text [].

(** ** XML escaping *)

(* @src src/src/util/string.cpp:135-146 Samurai::Util::xml_escape *)
Definition xml_escape_char (c : byte) : bytes :=
  if Ascii.eqb c "&" then lit "&amp;"
  else if Ascii.eqb c "<" then lit "&lt;"
  else if Ascii.eqb c ">" then lit "&gt;"
  else if Ascii.eqb c ch_dquote then lit "&quot;"
  else if Ascii.eqb c "'" then lit "&apos;"
  else [c].

(* @src src/src/util/string.cpp:130-149 Samurai::Util::xml_escape *)
Definition xml_escape (text : bytes) : bytes :=
  fold_left (fun out c => out ++ xml_escape_char c) text [].

(** ** UTF-8 *)

(** [codepoint] is a [uint32_t]; the pair is the returned flag and [out]. *)
(* @src src/src/util/string.cpp:152-182 Samurai::Util::append_utf8 *)
Definition append_utf8 (codepoint : Z) (out : bytes) : bool * bytes :=
  if 0x10ffff <? codepoint then (false, out)
  else if (0xd800 <=? codepoint) && (codepoint <=? 0xdfff) then (false, out)
  else if codepoint <? 0x80 then (true, out ++ [chr codepoint])
  else if codepoint <? 0x800 then
    (true, out ++ [chr (Z.lor 0xc0 (Z.shiftr codepoint 6));
                   chr (Z.lor 0x80 (Z.land codepoint 0x3f))])
  else if codepoint <? 0x10000 then
    (true, out ++ [chr (Z.lor 0xe0 (Z.shiftr codepoint 12));
                   chr (Z.lor 0x80 (Z.land (Z.shiftr codepoint 6) 0x3f));
                   chr (Z.lor 0x80 (Z.land codepoint 0x3f))])
  else
    (true, out ++ [chr (Z.lor 0xf0 (Z.shiftr codepoint 18));
                   chr (Z.lor 0x80 (Z.land (Z.shiftr codepoint 12) 0x3f));
                   chr (Z.lor 0x80 (Z.land (Z.shiftr codepoint 6) 0x3f));
                   chr (Z.lor 0x80 (Z.land codepoint 0x3f))]).

(** ** ASCII case-insensitive comparison *)

(* @src src/src/stdc.cpp:17-20 samurai_ascii_lower *)
Definition samurai_ascii_lower (ch : byte) : byte :=
  let c := code ch in
  if (code "A" <=? c) && (c <=? code "Z") then chr (c - code "A" + code "a") else ch.

(** The comparison loop, both strings having the same size. *)
(* @src src/src/stdc.cpp:25-28 Samurai::Util::iequals *)
Fixpoint iequals_loop (a b : bytes) : bool :=
  match a, b with
  | x :: a', y :: b' =>
      if negb (Ascii.eqb (samurai_ascii_lower x) (samurai_ascii_lower y)) then false
      else iequals_loop a' b'
  | _, _ => true
  end.

(* @src src/src/stdc.cpp:22-29 Samurai::Util::iequals *)
Definition iequals (a b : bytes) : bool :=
  if negb (Nat.eqb (length a) (length b)) then false else iequals_loop a b.

(* @src src/src/stdc.cpp:31-34 Samurai::Util::istarts_with *)
Definition istarts_with (str prefix : bytes) : bool :=
  if Nat.ltb (length str) (length prefix) then false
  else iequals (take (length prefix) str) prefix.

(** The search loop, [at] running over the positions still to be tried. *)
(* @src src/src/stdc.cpp:42-44 Samurai::Util::ifind *)
Fixpoint ifind_loop (haystack needle : bytes) (positions : list nat) : option nat :=
  match positions with
  | [] => None
  | at_ :: more =>
      if iequals (take (length needle) (drop at_ haystack)) needle then Some at_
      else ifind_loop haystack needle more
  end.

(* @src src/src/stdc.cpp:36-47 Samurai::Util::ifind *)
Definition ifind (haystack needle : bytes) : option nat :=
  match needle with
  | [] => Some 0%nat
  | _ =>
      if Nat.ltb (length haystack) (length needle) then None
      else let last := (length haystack - length needle)%nat in
           ifind_loop haystack needle (seq 0 (S last))
  end.

(* @src src/include/samurai/stdc.h:58-59 Samurai::Util::icontains *)
Definition icontains (haystack needle : bytes) : bool :=
  match ifind haystack needle with Some _ => true | None => false end.

(** ** Decimal conversion

    A [const char*] is an [option bytes]: [None] is the null pointer, and the
    end of the list is the terminating NUL (an embedded NUL stops every loop
    below the same way, since it is neither a space, a sign nor a digit). *)

Definition ch_vt : byte := chr 11.
Definition ch_ff : byte := chr 12.

Definition is_digit (c : byte) : bool := (code "0" <=? code c) && (code c <=? code "9").

(** The value of a digit, [*p - '0']. *)
Definition digit_of (c : byte) : Z := code c - code "0".

(* @src src/src/stdc.cpp:53-55 samurai_skip_ws_sign *)
Definition is_ws (c : byte) : bool :=
  Ascii.eqb c " " || Ascii.eqb c ch_tab || Ascii.eqb c ch_lf ||
  Ascii.eqb c ch_cr || Ascii.eqb c ch_vt || Ascii.eqb c ch_ff.

(** Returns the pointer past blanks and sign, and [*negative]. *)
(* @src src/src/stdc.cpp:49-61 samurai_skip_ws_sign *)
Definition samurai_skip_ws_sign (value : option bytes) : option (bytes * bool) :=
  match value with
  | None => None
  | Some s =>
      match skip_while is_ws s with
      | c :: r =>
          if Ascii.eqb c "-" then Some (r, true)
          else if Ascii.eqb c "+" then Some (r, false)
          else Some (c :: r, false)
      | [] => Some ([], false)
      end
  end.

(** The accumulation loop of [to_int64], on a [uint64_t]. *)
(* @src src/src/stdc.cpp:76-80 Samurai::Util::Convert::to_int64 *)
Fixpoint to_int64_loop (limit : Z) (p : bytes) (val : Z) : Z :=
  match p with
  | [] => val
  | c :: p' =>
      if is_digit c then
        let digit := digit_of c in
        if (limit - digit) / 10 <? val then limit
        else to_int64_loop limit p' (u64 (u64 (val * 10) + digit))
      else val
  end.

(* @src src/src/stdc.cpp:67-86 Samurai::Util::Convert::to_int64 *)
Definition to_int64 (value : option bytes) : Z :=
  match samurai_skip_ws_sign value with
  | None => 0
  | Some (p, negative) =>
      let limit := if negative then 9223372036854775808 else 9223372036854775807 in
      let val := to_int64_loop limit p 0 in
      if (negative : bool) then
        if val =? 9223372036854775808 then -9223372036854775807 - 1 else - val
      else val
  end.

(* @src src/src/stdc.cpp:97-101 Samurai::Util::Convert::to_uint64 *)
Fixpoint to_uint64_loop (p : bytes) (val : Z) : Z :=
  match p with
  | [] => val
  | c :: p' =>
      if is_digit c then
        let digit := digit_of c in
        if (18446744073709551615 - digit) / 10 <? val then 18446744073709551615
        else to_uint64_loop p' (u64 (u64 (val * 10) + digit))
      else val
  end.

(* @src src/src/stdc.cpp:91-103 Samurai::Util::Convert::to_uint64 *)
Definition to_uint64 (value : option bytes) : Z :=
  match samurai_skip_ws_sign value with
  | None => 0
  | Some (p, negative) => if (negative : bool) then 0 else to_uint64_loop p 0
  end.

(* @src src/src/stdc.cpp:108-113 Samurai::Util::Convert::to_int32 *)
Definition to_int32 (value : option bytes) : Z :=
  let val := to_int64 value in
  if 2147483647 <? val then 2147483647
  else if val <? -2147483648 then -2147483647 - 1
  else val.

(* @src src/src/stdc.cpp:159-169 Samurai::Util::Convert::to_uint16 *)
Definition to_uint16 (str : bytes) : Z :=
  match str with
  | [] => 0
  | _ =>
      if negb (forallb is_digit str) then 0
      else let n := to_int64 (Some str) in
           if (n <? 0) || (65535 <? n) then 0 else u16 n
  end.

(** What a [const char*] into a text points to: up to the first terminator. *)
Fixpoint c_str (s : bytes) : bytes :=
  match s with
  | c :: s => if code c =? 0 then [] else c :: c_str s
  | [] => []
  end.

(** The forms that take a [std::string] pass its characters on as a C string. *)
(* @src src/src/stdc.cpp:115-117 Samurai::Util::Convert::to_uint64 *)
Definition to_uint64_string (str : bytes) : Z := to_uint64 (Some (c_str str)).
(* @src src/src/stdc.cpp:119-121 Samurai::Util::Convert::to_int64 *)
Definition to_int64_string (str : bytes) : Z := to_int64 (Some (c_str str)).
(* @src src/src/stdc.cpp:123-125 Samurai::Util::Convert::to_int32 *)
Definition to_int32_string (str : bytes) : Z := to_int32 (Some (c_str str)).

(** The magnitude of an [int], as an [unsigned int]. *)
(* @src src/src/stdc.cpp:127-129 Samurai::Util::abs *)
Definition uabs (n : Z) : Z := if n <? 0 then u32 (0 - u32 n) else u32 n.

(** [std::to_string] of an unsigned value: the decimal digits, no leading
    zero. The fuel is the number of digits of the largest [uint64_t]. *)
Fixpoint to_string_loop (fuel : nat) (n : Z) (acc : bytes) : bytes :=
  match fuel with
  | O => acc
  | S fuel =>
      let acc := chr (code "0" + n mod 10) :: acc in
      if n / 10 =? 0 then acc else to_string_loop fuel (n / 10) acc
  end.
Definition to_string (n : Z) : bytes := to_string_loop 20 n [].

(** ** Reference specifications *)

(** The exact value of a digit string, and the digit prefix of a string. *)
Definition dec_value (l : bytes) : Z := fold_left (fun v c => v * 10 + digit_of c) l 0.

Fixpoint digit_prefix (s : bytes) : bytes :=
  match s with
  | c :: s' => if is_digit c then c :: digit_prefix s' else []
  | [] => []
  end.

(** What a blank- and sign-prefixed numeral denotes. *)
Definition numeral (s : bytes) : Z :=
  match samurai_skip_ws_sign (Some s) with
  | Some (p, true) => - dec_value (digit_prefix p)
  | Some (p, false) => dec_value (digit_prefix p)
  | None => 0
  end.

Definition clamp (lo hi z : Z) : Z := Z.max lo (Z.min hi z).

(** Joining fields with a separator, the inverse of [split]. *)
Fixpoint join (sep : byte) (fields : list bytes) : bytes :=
  match fields with
  | [] => []
  | [f] => f
  | f :: fs => f ++ sep :: join sep fs
  end.

(** A UTF-8 decoder for one character: RFC 3629, by lead byte. *)
Definition utf8_cont (c : byte) : option Z :=
  if (0x80 <=? code c) && (code c <? 0xc0) then Some (code c - 0x80) else None.

Definition utf8_decode (s : bytes) : option (Z * bytes) :=
  match s with
  | [] => None
  | c :: r =>
      let b := code c in
      if b <? 0x80 then Some (b, r)
      else if (0xc0 <=? b) && (b <? 0xe0) then
        match r with
        | c1 :: r => x ← utf8_cont c1; Some ((b - 0xc0) * 64 + x, r)
        | _ => None
        end
      else if (0xe0 <=? b) && (b <? 0xf0) then
        match r with
        | c1 :: c2 :: r =>
            x ← utf8_cont c1; y ← utf8_cont c2;
            Some ((b - 0xe0) * 4096 + x * 64 + y, r)
        | _ => None
        end
      else if (0xf0 <=? b) && (b <? 0xf8) then
        match r with
        | c1 :: c2 :: c3 :: r =>
            x ← utf8_cont c1; y ← utf8_cont c2; z ← utf8_cont c3;
            Some ((b - 0xf0) * 262144 + x * 4096 + y * 64 + z, r)
        | _ => None
        end
      else None
  end.

(** The characters of XML 1.0's five predefined entities, undone. *)
Definition scalar_value (z : Z) : Prop := 0 <= z <= 0x10ffff /\ ~ (0xd800 <= z <= 0xdfff).

(** ** Trimming *)

Lemma skip_while_app_l p a b : Forall (fun c => p c = true) a -> skip_while p (a ++ b) = skip_while p b.
Proof. induction 1 as [|c a Hc _ IH]; simpl; [done|]. by rewrite Hc. Qed.

Lemma skip_while_stop p s :
  (forall c, head s = Some c -> p c = false) -> skip_while p s = s.
Proof. destruct s as [|c s]; simpl; [done|]. intros H. by rewrite H. Qed.

Lemma skip_while_split p s :
  exists a, s = a ++ skip_while p s /\ Forall (fun c => p c = true) a /\
            (forall c, head (skip_while p s) = Some c -> p c = false).
Proof.
  induction s as [|c s (a & Hs & Ha & Hh)]; simpl.
  - by exists [].
  - destruct (p c) eqn:E.
    + exists (c :: a). split; [by simpl; f_equal|]. split; [by constructor|done].
    + exists []. split; [done|]. split; [auto|]. intros d [= ->]. done.
Qed.

(** Neither end of [m] is whitespace. *)
Definition trimmed (m : bytes) : Prop :=
  (forall c, head m = Some c -> is_space c = false) /\
  (forall c, head (rev m) = Some c -> is_space c = false).

Definition all_space (s : bytes) : Prop := Forall (fun c => is_space c = true) s.

Lemma head_app_ne {A} (a b : list A) : a <> [] -> head (a ++ b) = head a.
Proof. by destruct a. Qed.

Lemma trim_of_parts a m b : all_space a -> all_space b -> trimmed m -> trim (a ++ m ++ b) = m.
Proof.
  intros Ha Hb [Hh Hl]. unfold trim. rewrite skip_while_app_l by done.
  destruct m as [|c m]; simpl app.
  - replace (skip_while is_space b) with (@nil byte); [done|].
    rewrite <- (app_nil_r b), skip_while_app_l by done. done.
  - rewrite (skip_while_stop _ (c :: m ++ b)) by (intros d [= <-]; by apply Hh).
    rewrite app_comm_cons, rev_app_distr.
    rewrite skip_while_app_l by (apply Forall_rev, Hb).
    rewrite skip_while_stop by done. apply rev_involutive.
Qed.

Lemma trim_parts text :
  exists a b, text = a ++ trim text ++ b /\ all_space a /\ all_space b /\ trimmed (trim text).
Proof.
  destruct (skip_while_split is_space text) as (a & Ha & Hsa & Hh).
  destruct (skip_while_split is_space (rev (skip_while is_space text))) as (b & Hb & Hsb & Hl).
  assert (skip_while is_space text = trim text ++ rev b) as E.
  { unfold trim. rewrite <- rev_app_distr, <- Hb. by rewrite rev_involutive. }
  exists a, (rev b). split; [by rewrite <- E|]. split; [done|]. split; [by apply Forall_rev|].
  split.
  - intros c Hc. apply Hh. rewrite E. destruct (trim text); done.
  - intros c. unfold trim. rewrite rev_involutive. apply Hl.
Qed.

Lemma trim_id m : trimmed m -> trim m = m.
Proof.
  intros H. rewrite <- (app_nil_r m) at 1. by apply (trim_of_parts [] m []); [constructor..|].
Qed.

(** [trim] is characterised: it returns the middle [m] exactly when the
    text is whitespace, [m], whitespace, and [m] neither begins nor ends with
    whitespace. *)
Theorem trim_spec (text m : bytes) :
  trim text = m <->
  exists a b, text = a ++ m ++ b /\ all_space a /\ all_space b /\ trimmed m.
Proof.
  split.
  - intros <-. apply trim_parts.
  - intros (a & b & -> & Ha & Hb & Hm). by apply trim_of_parts.
Qed.

(** ** Splitting *)

Lemma find_char_from_Some c pos s i :
  find_char_from c pos s = Some i <->
  exists l r, drop pos s = l ++ c :: r /\ i = (pos + length l)%nat /\ c ∉ l.
Proof.
  unfold find_char_from. rewrite fmap_Some. split.
  - intros (j & (l & r & H & <- & Hl)%find_char_Some & ->). eauto 6.
  - intros (l & r & H & -> & Hl). exists (length l). split; [|done].
    apply find_char_Some. eauto 6.
Qed.

Lemma find_char_from_None c pos s : find_char_from c pos s = None <-> c ∉ drop pos s.
Proof. unfold find_char_from. by rewrite fmap_None, find_char_None. Qed.

Lemma split_loop_spec fuel text sep begin fields :
  (length text - begin < fuel)%nat -> (begin <= length text)%nat ->
  exists fs, split_loop fuel text sep begin fields = Some (fields ++ fs) /\ fs <> [] /\
             join sep fs = drop begin text /\ Forall (fun f => sep ∉ f) fs.
Proof.
  revert begin fields. induction fuel as [|fuel IH]; intros begin fields Hf Hb; [lia|].
  simpl. destruct (find_char_from sep begin text) as [pos|] eqn:E.
  - apply find_char_from_Some in E as (l & r & Hd & -> & Hl).
    assert (length (drop begin text) = (length l + S (length r))%nat) as Hlen.
    { rewrite Hd, length_app. done. }
    rewrite length_drop in Hlen.
    destruct (IH (begin + length l + 1)%nat
      (fields ++ [take (begin + length l - begin) (drop begin text)]))
      as (fs & -> & Hne & Hj & Hall); [lia..|].
    exists (l :: fs). rewrite Hd. replace (begin + length l - begin)%nat with (length l) by lia.
    rewrite take_app_length. rewrite <- app_assoc. split; [done|]. split; [done|].
    split; [|by constructor].
    replace (begin + length l + 1)%nat with (begin + (length l + 1))%nat in Hj by lia.
    rewrite <- drop_drop, Hd in Hj.
    replace (length l + 1)%nat with (length (l ++ [sep])) in Hj by (rewrite length_app; done).
    change (l ++ sep :: r) with (l ++ [sep] ++ r) in Hj.
    rewrite app_assoc, drop_app_length in Hj.
    destruct fs; [done|]. simpl in *. by rewrite Hj.
  - apply find_char_from_None in E. exists [drop begin text]. repeat split; auto.
Qed.

Lemma join_cons sep f fs : fs <> [] -> join sep (f :: fs) = f ++ sep :: join sep fs.
Proof. by destruct fs. Qed.

(** Two strings cut at the first separator agree when their wholes do. *)
Lemma cut_inj (sep : byte) l r l' r' :
  sep ∉ l -> sep ∉ l' -> l ++ sep :: r = l' ++ sep :: r' -> l = l' /\ r = r'.
Proof.
  intros Hl Hl' E.
  pose proof (find_char_app_here sep l r Hl) as H1.
  rewrite E, (find_char_app_here sep l' r' Hl') in H1. injection H1 as Hlen.
  apply app_inj_1 in E as [-> E]; [|done]. by injection E.
Qed.

Lemma join_inj sep fs gs :
  fs <> [] -> gs <> [] -> Forall (fun f => sep ∉ f) fs -> Forall (fun g => sep ∉ g) gs ->
  join sep fs = join sep gs -> fs = gs.
Proof.
  intros Hf. revert gs. induction fs as [|f fs IH]; [done|]. intros gs Hg Hfs Hgs Hj.
  destruct gs as [|g gs]; [done|]. clear Hg Hf.
  apply Forall_cons in Hfs as [Hf1 Hfs]. apply Forall_cons in Hgs as [Hg1 Hgs].
  destruct (decide (fs = [])) as [->|Hf], (decide (gs = [])) as [->|Hg];
    try rewrite (join_cons sep f) in Hj by done; try rewrite (join_cons sep g) in Hj by done;
    simpl in Hj.
  - by subst.
  - exfalso. apply Hf1. rewrite Hj, elem_of_app, elem_of_cons. auto.
  - exfalso. apply Hg1. rewrite <- Hj, elem_of_app, elem_of_cons. auto.
  - apply cut_inj in Hj as [-> Hj]; [|done..]. f_equal. by apply IH.
Qed.

(** [split] is characterised: the fields it returns are the one nonempty
    list of separator-free strings that joins back to the text; in particular
    the loop always terminates within [length text + 1] rounds, empty fields
    are kept and the empty text has exactly one field. *)
Theorem split_spec (text : bytes) (sep : byte) (fs : list bytes) :
  split text sep = fs <-> fs <> [] /\ join sep fs = text /\ Forall (fun f => sep ∉ f) fs.
Proof.
  unfold split.
  destruct (split_loop_spec (S (length text)) text sep 0 []) as (gs & E & Hne & Hj & Hall); [lia..|].
  rewrite E. cbn. change (drop 0 text) with text in Hj. split.
  - intros <-. auto.
  - intros (Hne' & Hj' & Hall'). apply (join_inj sep); auto. congruence.
Qed.

Lemma take_drop_cut {A} (l : list A) x r :
  take (length l) (l ++ x :: r) = l /\ drop (length l + 1) (l ++ x :: r) = r.
Proof.
  split; [apply take_app_length|].
  rewrite drop_app_ge by lia. replace (length l + 1 - length l)%nat with 1%nat by lia. done.
Qed.

Lemma split_once_Some text sep before after :
  split_once text sep = Some (before, after) <-> text = before ++ sep :: after /\ sep ∉ before.
Proof.
  unfold split_once. destruct (find_char sep text) as [pos|] eqn:E.
  - apply find_char_Some in E as (l & r & -> & <- & Hl).
    destruct (take_drop_cut l sep r) as [-> ->]. split.
    + intros [= <- <-]. done.
    + intros [Heq Hb]. by apply cut_inj in Heq as [-> ->].
  - apply find_char_None in E. split; [done|]. intros [-> _].
    rewrite elem_of_app, elem_of_cons in E. tauto.
Qed.

(** ** Percent coding *)

Lemma fold_left_app_acc (f : byte -> bytes) text out :
  fold_left (fun o c => o ++ f c) text out = out ++ concat (map f text).
Proof.
  revert out. induction text as [|c text IH]; intros out; simpl.
  - by rewrite app_nil_r.
  - rewrite IH. by rewrite <- app_assoc.
Qed.

Lemma percent_encode_concat text : percent_encode text = concat (map percent_encode_char text).
Proof. apply fold_left_app_acc. Qed.

Lemma percent_encode_char_shape : forall c,
  (is_unreserved c = true /\ c <> "%"%char) \/
  (is_unreserved c = false /\
   let h := nth (Z.to_nat (Z.shiftr (code c) 4)) hex_digits "0"%char in
   let l := nth (Z.to_nat (Z.land (code c) 15)) hex_digits "0"%char in
   0 <= hex_value h /\ 0 <= hex_value l /\
   chr (Z.lor (Z.shiftl (hex_value h) 4) (hex_value l)) = c).
Proof. byte_decide. Qed.

Lemma percent_decode_loop_encode c rest out :
  percent_decode_loop (percent_encode_char c ++ rest) out = percent_decode_loop rest (out ++ [c]).
Proof.
  unfold percent_encode_char. destruct (percent_encode_char_shape c) as [[-> Hc]|[-> H]].
  - simpl. apply Ascii.eqb_neq in Hc. by rewrite Hc.
  - cbv zeta in H. destruct H as (Hh & Hl & Hc).
    set (h := nth _ _ _) in *. set (l := nth _ _ _) in *.
    cbn [app percent_decode_loop negb Ascii.eqb Bool.eqb].
    cbv zeta. rewrite Hc.
    rewrite (proj2 (Z.ltb_ge _ _) Hh), (proj2 (Z.ltb_ge _ _) Hl). done.
Qed.

Lemma percent_decode_loop_concat text rest out :
  percent_decode_loop (concat (map percent_encode_char text) ++ rest) out =
  percent_decode_loop rest (out ++ text).
Proof.
  revert out. induction text as [|c text IH]; intros out; simpl.
  - by rewrite app_nil_r.
  - rewrite <- app_assoc, percent_decode_loop_encode, IH. by rewrite <- app_assoc.
Qed.

(** Percent coding round trips: decoding an encoded string succeeds and
    gives the string back, and an encoded string holds only unreserved
    characters and [%] escapes. *)
Theorem percent_roundtrip (text : bytes) :
  percent_decode (percent_encode text) = (true, text) /\
  Forall (fun c => is_unreserved c = true \/ c = "%"%char) (percent_encode text).
Proof.
  split.
  - unfold percent_decode. rewrite percent_encode_concat.
    rewrite <- (app_nil_r (concat _)). rewrite percent_decode_loop_concat. done.
  - rewrite percent_encode_concat.
    assert (forall c, Forall (fun d => is_unreserved d = true \/ d = "%"%char)
                             (percent_encode_char c)) as H by byte_decide.
    induction text as [|c text IH]; simpl; [constructor|]. by apply Forall_app.
Qed.

(** ** UTF-8 *)

Lemma lor_disjoint_small (k : Z) (hi m : Z) :
  (hi = 0x80 \/ hi = 0xc0 \/ hi = 0xe0 \/ hi = 0xf0) ->
  m = (if hi =? 0x80 then 64 else if hi =? 0xc0 then 32 else if hi =? 0xe0 then 16 else 8) ->
  0 <= k < m -> code (chr (Z.lor hi k)) = hi + k.
Proof.
  intros Hhi -> Hk.
  rewrite <- (code_chr_small k); [|destruct Hhi as [-> | [-> | [-> | ->]]]; simpl in Hk; lia].
  assert (code (chr k) < if hi =? 0x80 then 64 else if hi =? 0xc0 then 32 else if hi =? 0xe0 then 16 else 8) as H.
  { rewrite code_chr_small; [lia|]. destruct Hhi as [-> | [-> | [-> | ->]]]; simpl in Hk; lia. }
  revert H. generalize (chr k). clear Hk.
  destruct Hhi as [-> | [-> | [-> | ->]]]; byte_decide.
Qed.

(** What a lead or continuation byte built by [append_utf8] is worth. *)
Lemma utf8_bytes (k : Z) :
  (0 <= k < 64 -> code (chr (Z.lor 0x80 k)) = 0x80 + k) /\
  (0 <= k < 32 -> code (chr (Z.lor 0xc0 k)) = 0xc0 + k) /\
  (0 <= k < 16 -> code (chr (Z.lor 0xe0 k)) = 0xe0 + k) /\
  (0 <= k < 8 -> code (chr (Z.lor 0xf0 k)) = 0xf0 + k).
Proof. repeat split; intros; eapply lor_disjoint_small; eauto; lia. Qed.

Lemma utf8_cont_ok k : 0 <= k < 64 -> utf8_cont (chr (Z.lor 0x80 k)) = Some k.
Proof.
  intros H. unfold utf8_cont. rewrite (proj1 (utf8_bytes k) H).
  rewrite (proj2 (Z.leb_le _ _)), (proj2 (Z.ltb_lt _ _)) by lia. simpl. f_equal. lia.
Qed.

Lemma land_3f z : Z.land z 0x3f = z mod 64.
Proof. change 0x3f with (Z.ones 6). by rewrite Z.land_ones. Qed.

(** [append_utf8] accepts exactly the Unicode scalar values - it refuses a
    surrogate and anything above U+10FFFF, appending nothing - and what it
    appends is a UTF-8 sequence of one to four bytes that decodes back to the
    code point whatever follows it. *)
Theorem append_utf8_spec (cp : Z) (out : bytes) :
  0 <= cp < 2 ^ 32 ->
  match append_utf8 cp out with
  | (true, out') => scalar_value cp /\
      exists e, out' = out ++ e /\ (1 <= length e <= 4)%nat /\
                forall rest, utf8_decode (e ++ rest) = Some (cp, rest)
  | (false, out') => ~ scalar_value cp /\ out' = out
  end.
Proof.
  intros Hcp. unfold append_utf8, scalar_value. rewrite !land_3f, !Z.shiftr_div_pow2 by lia.
  change (2 ^ 6) with 64. change (2 ^ 12) with 4096. change (2 ^ 18) with 262144.
  destruct (Z.ltb_spec 0x10ffff cp); [split; [lia|done]|].
  destruct (Z.leb_spec 0xd800 cp), (Z.leb_spec cp 0xdfff); cbn [andb]; try (split; [lia|done]).
  all: destruct (Z.ltb_spec cp 0x80); [|destruct (Z.ltb_spec cp 0x800);
        [|destruct (Z.ltb_spec cp 0x10000)]].
  all: try lia.
  all: split; [lia|]; eexists; split; [reflexivity|]; split; [simpl; lia|]; intros rest.
  all: unfold utf8_decode; cbn [app].
  all: rewrite ?utf8_cont_ok by (Z.div_mod_to_equations; lia).
  all: rewrite ?(proj1 (proj2 (utf8_bytes _))), ?(proj1 (proj2 (proj2 (utf8_bytes _)))),
               ?(proj2 (proj2 (proj2 (utf8_bytes _)))), ?code_chr_small
         by (Z.div_mod_to_equations; lia).
  all: cbv zeta; cbn [mbind option_bind]; zcmp.
  all: f_equal; f_equal; div_lia.
Qed.

Lemma append_utf8_spec_witness : 0 <= 0x20ac < 2 ^ 32 /\ append_utf8 0x20ac [] = (true, [chr 0xe2; chr 0x82; chr 0xac]) /\
  scalar_value 0x20ac.
Proof.
  split; [lia|]. split; [vm_compute; reflexivity|].
  pose proof (append_utf8_spec 0x20ac [] ltac:(lia)) as H.
  change (append_utf8 0x20ac []) with (true, [chr 0xe2; chr 0x82; chr 0xac]) in H.
  exact (proj1 H).
Defined.

(** ** Case-insensitive comparison *)

Lemma iequals_iff a b : iequals a b = true <-> map samurai_ascii_lower a = map samurai_ascii_lower b.
Proof.
  unfold iequals. destruct (Nat.eqb_spec (length a) (length b)) as [Hl|Hl]; cbn [negb].
  - revert b Hl. induction a as [|x a IH]; intros [|y b] Hl; simpl in *; try done.
    destruct (Ascii.eqb_spec (samurai_ascii_lower x) (samurai_ascii_lower y)) as [->|Hne]; simpl.
    + rewrite IH by congruence. split; [congruence|]. by intros [= ->].
    + split; [done|]. congruence.
  - split; [done|]. intros H%(f_equal length). rewrite !length_map in H. done.
Qed.

Lemma iequals_refl a : iequals a a = true.
Proof. by apply iequals_iff. Qed.

Lemma iequals_sym a b : iequals a b = iequals b a.
Proof. apply eq_true_iff_eq. rewrite !iequals_iff. done. Qed.

Lemma iequals_trans a b c : iequals a b = true -> iequals b c = true -> iequals a c = true.
Proof. rewrite !iequals_iff. congruence. Qed.

Lemma istarts_with_iff str prefix :
  istarts_with str prefix = true <->
  exists m r, str = m ++ r /\ map samurai_ascii_lower m = map samurai_ascii_lower prefix.
Proof.
  unfold istarts_with. destruct (Nat.ltb_spec (length str) (length prefix)) as [Hl|Hl].
  - split; [done|]. intros (m & r & -> & H%(f_equal length)).
    rewrite !length_map in H. rewrite length_app in Hl. lia.
  - rewrite iequals_iff. split.
    + intros H. exists (take (length prefix) str), (drop (length prefix) str).
      by rewrite take_drop.
    + intros (m & r & -> & H). pose proof (f_equal length H) as Hm.
      rewrite !length_map in Hm. by rewrite <- Hm, take_app_length.
Qed.

(** [needle] occurs in [haystack] at position [i], up to ASCII case. *)
Definition ioccurs (haystack needle : bytes) (i : nat) : Prop :=
  exists l m r, haystack = l ++ m ++ r /\ length l = i /\
                map samurai_ascii_lower m = map samurai_ascii_lower needle.

Lemma ioccurs_iff haystack needle i :
  ioccurs haystack needle i <->
  (i + length needle <= length haystack)%nat /\
  iequals (take (length needle) (drop i haystack)) needle = true.
Proof.
  rewrite iequals_iff. split.
  - intros (l & m & r & -> & <- & H). pose proof (f_equal length H) as Hm.
    rewrite !length_map in Hm. rewrite <- Hm, drop_app_length, take_app_length.
    rewrite !length_app. split; [lia|done].
  - intros [Hl H]. exists (take i haystack), (take (length needle) (drop i haystack)),
      (drop (length needle) (drop i haystack)).
    rewrite take_drop, take_drop, length_take. repeat split; [lia|done].
Qed.

Lemma ifind_loop_spec haystack needle positions :
  match ifind_loop haystack needle positions with
  | Some i => exists before after, positions = before ++ i :: after /\
      iequals (take (length needle) (drop i haystack)) needle = true /\
      Forall (fun j => iequals (take (length needle) (drop j haystack)) needle = false) before
  | None => Forall (fun j => iequals (take (length needle) (drop j haystack)) needle = false) positions
  end.
Proof.
  induction positions as [|p ps IH]; simpl; [constructor|].
  destruct (iequals (take (length needle) (drop p haystack)) needle) eqn:E.
  - exists [], ps. auto.
  - destruct (ifind_loop haystack needle ps).
    + destruct IH as (b & a & -> & H1 & H2). exists (p :: b), a. auto.
    + by constructor.
Qed.

(** [ifind] returns the first case-insensitive occurrence: the position it
    reports holds one and no earlier position does, and it reports nothing
    exactly when there is no occurrence at all. *)
Theorem ifind_spec (haystack needle : bytes) :
  match ifind haystack needle with
  | Some i => ioccurs haystack needle i /\ forall j, (j < i)%nat -> ~ ioccurs haystack needle j
  | None => forall j, ~ ioccurs haystack needle j
  end.
Proof.
  destruct needle as [|n needle'].
  { cbn. split; [|lia]. exists [], [], haystack. auto. }
  set (needle := n :: needle').
  change (ifind haystack needle) with
    (if Nat.ltb (length haystack) (length needle) then None
     else ifind_loop haystack needle (seq 0 (S (length haystack - length needle)))).
  clearbody needle. clear n needle'.
  destruct (Nat.ltb_spec (length haystack) (length needle)) as [Hl|Hl].
  { intros j [Hj _]%ioccurs_iff. lia. }
  pose proof (ifind_loop_spec haystack needle (seq 0 (S (length haystack - length needle)))) as H.
  destruct (ifind_loop _ _ _) as [i|].
  - destruct H as (b & a & Hseq & Hi & Hb).
    assert (i = length b) as ->.
    { pose proof (f_equal (fun l => nth (length b) l 0%nat) Hseq) as E. cbv beta in E.
      rewrite app_nth2, Nat.sub_diag in E by lia. cbn [nth] in E. rewrite <- E.
      apply seq_nth. apply (f_equal length) in Hseq.
      rewrite length_seq, length_app in Hseq. cbn [length] in Hseq. lia. }
    assert (length b < S (length haystack - length needle))%nat as Hlen.
    { apply (f_equal length) in Hseq. rewrite length_seq, length_app in Hseq. cbn [length] in Hseq. lia. }
    split; [apply ioccurs_iff; split; [lia|done]|].
    intros j Hj [_ E]%ioccurs_iff.
    assert (j ∈ b) as Hin.
    { assert (j ∈ take (length b) (seq 0 (S (length haystack - length needle)))) as Hin.
      { apply (list_elem_of_lookup_2 _ j). rewrite lookup_take_lt by done. by rewrite lookup_seq_lt by (etransitivity; eauto). }
      by rewrite Hseq, take_app_length in Hin. }
    rewrite Forall_forall in Hb. rewrite (Hb j Hin) in E. done.
  - intros j [Hj E]%ioccurs_iff. rewrite Forall_forall in H.
    rewrite H in E; [done|]. apply elem_of_seq. lia.
Qed.

(** ** Decimal conversion *)

Lemma is_digit_of c : is_digit c = true -> 0 <= digit_of c <= 9.
Proof. revert c. byte_decide. Qed.

(** The exact value accumulated from [v] over the digits [l]. *)
Definition dec_acc (v : Z) (l : bytes) : Z := fold_left (fun v c => v * 10 + digit_of c) l v.

Lemma dec_acc_ge v l : 0 <= v -> Forall (fun c => is_digit c = true) l -> v <= dec_acc v l.
Proof.
  intros Hv Hl. revert v Hv. induction Hl as [|c l Hc Hl IH]; intros v Hv; simpl; [lia|].
  apply is_digit_of in Hc. specialize (IH (v * 10 + digit_of c)). lia.
Qed.

Lemma digit_prefix_digits s : Forall (fun c => is_digit c = true) (digit_prefix s).
Proof. induction s as [|c s IH]; simpl; [constructor|]. destruct (is_digit c) eqn:E; auto. Qed.

Lemma digit_prefix_all s : forallb is_digit s = true -> digit_prefix s = s.
Proof.
  induction s as [|c s IH]; simpl; [done|]. intros [-> H]%andb_true_iff. by rewrite IH.
Qed.

(** The guard of both loops is exactly "the next value would pass the limit". *)
Lemma saturation_guard limit val digit :
  0 <= digit <= 9 -> ((limit - digit) / 10 <? val) = (limit <? val * 10 + digit).
Proof.
  intros. apply eq_true_iff_eq. rewrite !Z.ltb_lt. split; intros; div_lia.
Qed.

Lemma to_int64_loop_spec limit p val :
  0 <= val <= limit -> limit < 2 ^ 64 ->
  to_int64_loop limit p val = Z.min limit (dec_acc val (digit_prefix p)).
Proof.
  intros Hv Hlim. revert val Hv. induction p as [|c p IH]; intros val Hv; simpl.
  { unfold dec_acc. simpl. lia. }
  destruct (is_digit c) eqn:E; [|unfold dec_acc; simpl; lia].
  pose proof (is_digit_of c E) as Hd. rewrite saturation_guard by done.
  pose proof (dec_acc_ge (val * 10 + digit_of c) (digit_prefix p) ltac:(lia)
                (digit_prefix_digits p)) as Hge.
  unfold dec_acc in *. cbn [fold_left].
  destruct (Z.ltb_spec limit (val * 10 + digit_of c)); [lia|].
  unfold u64. rewrite (Z.mod_small (val * 10)), Z.mod_small by lia.
  apply IH. lia.
Qed.

Lemma to_uint64_loop_eq p val :
  to_uint64_loop p val = to_int64_loop 18446744073709551615 p val.
Proof. revert val. induction p as [|c p IH]; intros; simpl; [done|]. by rewrite IH. Qed.

Lemma dec_value_nonneg l : Forall (fun c => is_digit c = true) l -> 0 <= dec_value l.
Proof. apply (dec_acc_ge 0). lia. Qed.

Lemma converters_clamp (s : bytes) :
  to_int64 (Some s) = clamp (- 2 ^ 63) (2 ^ 63 - 1) (numeral s) /\
  to_int32 (Some s) = clamp (- 2 ^ 31) (2 ^ 31 - 1) (numeral s) /\
  to_uint64 (Some s) = clamp 0 (2 ^ 64 - 1) (numeral s) /\
  to_int64 None = 0 /\ to_int32 None = 0 /\ to_uint64 None = 0.
Proof.
  assert (to_int64 (Some s) = clamp (- 2 ^ 63) (2 ^ 63 - 1) (numeral s)) as H64.
  { unfold to_int64, numeral. destruct (samurai_skip_ws_sign (Some s)) as [[p neg]|]; [|done].
    pose proof (dec_value_nonneg _ (digit_prefix_digits p)).
    destruct neg; rewrite to_int64_loop_spec by lia; fold (dec_value (digit_prefix p));
      unfold clamp.
    - destruct (Z.eqb_spec (9223372036854775808 `min` dec_acc 0 (digit_prefix p)) 9223372036854775808);
        unfold dec_acc in *; fold (dec_value (digit_prefix p)) in *; lia.
    - unfold dec_acc. fold (dec_value (digit_prefix p)). lia. }
  split; [done|]. split; [|split; [|done]].
  - unfold to_int32. rewrite H64. unfold clamp.
    destruct (Z.ltb_spec 2147483647 ((- 2 ^ 63) `max` ((2 ^ 63 - 1) `min` numeral s))); [lia|].
    destruct (Z.ltb_spec ((- 2 ^ 63) `max` ((2 ^ 63 - 1) `min` numeral s)) (-2147483648)); lia.
  - unfold to_uint64, numeral. destruct (samurai_skip_ws_sign (Some s)) as [[p neg]|]; [|done].
    pose proof (dec_value_nonneg _ (digit_prefix_digits p)).
    destruct neg; unfold clamp; [lia|].
    rewrite to_uint64_loop_eq, to_int64_loop_spec by lia.
    unfold dec_acc. fold (dec_value (digit_prefix p)). lia.
Qed.

Lemma to_uint64_range s : 0 <= to_uint64 (Some s) < 2 ^ 64.
Proof. destruct (converters_clamp s) as (_ & _ & -> & _). unfold clamp. lia. Qed.

(** The decimal converters are exact with saturation: after blanks and an
    optional sign, [to_int64], [to_int32] and [to_uint64] return the value of
    the leading digits clamped to the range of their type, whatever the length
    of the input - no input overflows - and the null pointer converts to 0. *)
Theorem converters_saturate (s : bytes) :
  to_int64 (Some s) = clamp (- 2 ^ 63) (2 ^ 63 - 1) (numeral s) /\
  to_int32 (Some s) = clamp (- 2 ^ 31) (2 ^ 31 - 1) (numeral s) /\
  to_uint64 (Some s) = clamp 0 (2 ^ 64 - 1) (numeral s) /\
  to_int64 None = 0 /\ to_int32 None = 0 /\ to_uint64 None = 0.
Proof. apply converters_clamp. Qed.

(** A terminator is no digit, blank or sign, so what follows it never counted. *)
Lemma nul_is_nothing : forall c, (code c =? 0) = true -> is_ws c = false /\ is_digit c = false /\ Ascii.eqb c "-" = false /\ Ascii.eqb c "+" = false.
Proof. byte_decide. Qed.

Lemma digit_prefix_c_str s : digit_prefix (c_str s) = digit_prefix s.
Proof.
  induction s as [|c s IH]; cbn; [done|]. destruct (code c =? 0) eqn:E; cbn.
  - destruct (nul_is_nothing c E) as (_ & -> & _). done.
  - by rewrite IH.
Qed.

Lemma skip_while_c_str s : skip_while is_ws (c_str s) = c_str (skip_while is_ws s).
Proof.
  induction s as [|c s IH]; cbn; [done|]. destruct (code c =? 0) eqn:E; cbn.
  - destruct (nul_is_nothing c E) as (-> & _). cbn. by rewrite E.
  - destruct (is_ws c); [done|]. cbn. by rewrite E.
Qed.

Lemma numeral_c_str s : numeral (c_str s) = numeral s.
Proof.
  unfold numeral, samurai_skip_ws_sign. rewrite skip_while_c_str.
  destruct (skip_while is_ws s) as [|c r]; [done|]. cbn [c_str]. destruct (code c =? 0) eqn:E.
  - destruct (nul_is_nothing c E) as (_ & Hd & -> & ->). cbn. by rewrite Hd.
  - destruct (Ascii.eqb c "-"); [by rewrite digit_prefix_c_str|]. destruct (Ascii.eqb c "+"); [by rewrite digit_prefix_c_str|].
    cbn. destruct (is_digit c); [by rewrite digit_prefix_c_str|done].
Qed.

(** Both forms of a converter agree, whatever bytes the string holds, and the magnitude
    of an [int] is exact, that of the smallest one included. *)
Lemma converters_of_strings s n :
  to_int64_string s = to_int64 (Some s) /\ to_int32_string s = to_int32 (Some s) /\ to_uint64_string s = to_uint64 (Some s) /\
  (- 2 ^ 31 <= n < 2 ^ 31 -> uabs n = Z.abs n).
Proof.
  unfold to_int64_string, to_int32_string, to_uint64_string.
  destruct (converters_clamp s) as (-> & -> & -> & _), (converters_clamp (c_str s)) as (-> & -> & -> & _). rewrite numeral_c_str.
  split; [done|]. split; [done|]. split; [done|]. intros Hn. unfold uabs, u32. destruct (Z.ltb_spec n 0).
  - rewrite Zminus_mod_idemp_r, Z.mod_small by lia. lia.
  - rewrite Z.mod_small by lia. lia.
Qed.

Lemma digit_not_ws_sign : forall c, is_digit c = true ->
  is_ws c = false /\ Ascii.eqb c "-" = false /\ Ascii.eqb c "+" = false.
Proof. byte_decide. Qed.

Lemma numeral_digits s : forallb is_digit s = true -> numeral s = dec_value s.
Proof.
  intros H. unfold numeral. cbn [samurai_skip_ws_sign].
  destruct s as [|c s]; [done|]. pose proof H as [Hc _]%andb_true_iff.
  destruct (digit_not_ws_sign c Hc) as (Hw & Hm & Hp).
  cbn [skip_while]. rewrite Hw, Hm, Hp. by rewrite digit_prefix_all.
Qed.

Lemma to_uint16_value (s : bytes) :
  to_uint16 s = if bool_decide (s <> []) && forallb is_digit s && (dec_value s <=? 65535)
                then dec_value s else 0.
Proof.
  destruct s as [|c s']; [done|]. set (s := c :: s').
  change (to_uint16 s) with
    (if negb (forallb is_digit s) then 0
     else let n := to_int64 (Some s) in if (n <? 0) || (65535 <? n) then 0 else u16 n).
  rewrite (bool_decide_true (s <> [])) by done. clearbody s.
  destruct (forallb is_digit s) eqn:E; cbn [negb andb]; [|done].
  cbv zeta. rewrite (proj1 (converters_clamp s)), numeral_digits by done.
  assert (0 <= dec_value s) as Hnn.
  { rewrite <- (digit_prefix_all s E). apply dec_value_nonneg, digit_prefix_digits. }
  unfold clamp.
  destruct (Z.leb_spec (dec_value s) 65535).
  - zcmp. unfold u16. rewrite Z.mod_small by lia. lia.
  - zcmp. done.
Qed.

(** [to_uint16] accepts exactly the nonempty all-digit strings whose value
    fits 16 bits, returning that value; anything else is 0. *)
Theorem to_uint16_spec (s : bytes) :
  to_uint16 s = if bool_decide (s <> []) && forallb is_digit s && (dec_value s <=? 65535)
                then dec_value s else 0.
Proof. apply to_uint16_value. Qed.

Lemma to_string_loop_spec fuel n acc :
  0 <= n < 10 ^ Z.of_nat fuel ->
  exists l, to_string_loop fuel n acc = l ++ acc /\ forallb is_digit l = true /\
            (forall v, dec_acc v l = v * 10 ^ zlen l + n) /\ (length l <= fuel)%nat /\
            (0 < fuel -> l <> [])%nat.
Proof.
  revert n acc. induction fuel as [|fuel IH]; intros n acc Hn.
  { exists []. split; [done|]. split; [done|]. change (10 ^ Z.of_nat 0) with 1 in Hn.
    split; [|simpl; split; lia]. intros v. change (v = v * 1 + n). lia. }
  cbn [to_string_loop]. set (d := chr (code "0" + n mod 10)).
  assert (is_digit d = true /\ digit_of d = n mod 10) as [Hd Hv].
  { unfold is_digit, digit_of, d. change (code "0") with 48. change (code "9") with 57.
    pose proof (Z.mod_pos_bound n 10 ltac:(lia)).
    rewrite code_chr_small by lia. split; [|lia]. zcmp. done. }
  destruct (Z.eqb_spec (n / 10) 0) as [E|E].
  - exists [d]. split; [done|]. cbn [forallb]. rewrite Hd. split; [done|].
    split; [|simpl; split; [lia|done]].
    intros v. change (v * 10 + digit_of d = v * 10 + n). rewrite Hv. div_lia.
  - assert (0 <= n / 10 < 10 ^ Z.of_nat fuel) as Hn'.
    { rewrite Nat2Z.inj_succ, Z.pow_succ_r in Hn by lia.
      split; [div_lia|]. apply Z.div_lt_upper_bound; lia. }
    destruct (IH (n / 10) (d :: acc) Hn') as (l & -> & Hl & Hval & Hlen & Hne).
    exists (l ++ [d]). rewrite <- app_assoc. split; [done|].
    rewrite forallb_app, Hl. simpl. rewrite Hd. split; [done|].
    split; [|rewrite length_app; simpl; split; [lia|by destruct l]].
    intros v. unfold dec_acc in *. rewrite fold_left_app. cbn [fold_left].
    rewrite Hval, Hv, zlen_app, Z.pow_add_r by (unfold zlen; lia).
    change (zlen [d]) with 1. div_lia.
Qed.

Lemma to_string_spec n :
  0 <= n < 2 ^ 64 ->
  forallb is_digit (to_string n) = true /\ to_string n <> [] /\ dec_value (to_string n) = n.
Proof.
  intros Hn. unfold to_string.
  destruct (to_string_loop_spec 20 n []) as (l & -> & H1 & H2 & _ & H3).
  { split; [lia|]. change (10 ^ Z.of_nat 20) with 100000000000000000000. lia. }
  rewrite app_nil_r. split; [done|]. split; [by apply H3; lia|].
  change (dec_value l) with (dec_acc 0 l). rewrite H2. lia.
Qed.

(** Printing and reading a number round trips: a [uint64_t] written in
    decimal reads back as itself through [to_uint64], and a port through
    [to_uint16]. *)
Theorem decimal_roundtrip (n : Z) :
  0 <= n < 2 ^ 64 ->
  to_uint64 (Some (to_string n)) = n /\ (n <= 65535 -> to_uint16 (to_string n) = n).
Proof.
  intros Hn. destruct (to_string_spec n Hn) as (Hd & Hne & Hv). split.
  - rewrite (proj1 (proj2 (proj2 (converters_clamp _)))), numeral_digits, Hv by done.
    unfold clamp. lia.
  - intros H16. rewrite to_uint16_value, Hd, Hv. rewrite bool_decide_true by done. zcmp. done.
Qed.

Lemma decimal_roundtrip_witness :
  to_uint64 (Some (to_string 1800)) = 1800 /\ (1800 <= 65535 -> to_uint16 (to_string 1800) = 1800).
Proof. apply (decimal_roundtrip 1800). lia. Defined.
