(* ===== verification/Base32.v ===== *)
(** * Base32: the coder of [src/util/base32.cpp]

    Both loops as the source runs them, on bytes and bit positions, against a
    specification on bit strings: the encoder cuts the bits of its input into
    groups of five, the decoder concatenates groups of five and cuts bytes. *)

From S2P Require Import Prelude.

(** ** The coder *)

(* @src src/src/util/base32.cpp:14-14 ALPHABET *)
Definition ALPHABET : bytes := lit "ABCDEFGHIJKLMNOPQRSTUVWXYZ234567".

Definition alpha (word : Z) : byte := nth (Z.to_nat word) ALPHABET "A"%char.

(** [buffer[i]] *)
Definition at_ (buffer : bytes) (i : nat) : Z := code (nth i buffer (chr 0)).

(* @src src/include/samurai/util/base32.h:29-32 base32_encode_size *)
Definition base32_encode_size (len : Z) : Z := u64 (len * 8 + 4) / 5 + 1.

(** One round of the encoding loop: the word to emit, and the next [i] and
    [index]. *)
(* @src src/src/util/base32.cpp:29-41 Samurai::Util::base32_encode *)
Definition encode_step (buffer : bytes) (i : nat) (index : Z) : Z * nat * Z :=
  if 3 <? index then
    let word := Z.land (at_ buffer i) (Z.shiftr 0xFF index) in
    let index := (index + 5) mod 8 in
    let word := u8 (Z.shiftl word index) in
    let word := if Nat.ltb i (length buffer - 1)
                then u8 (Z.lor word (Z.shiftr (at_ buffer (i + 1)) (8 - index))) else word in
    (word, S i, index)
  else
    let word := Z.land (Z.shiftr (at_ buffer i) (8 - (index + 5))) 0x1F in
    let index := (index + 5) mod 8 in
    (word, if index =? 0 then S i else i, index).

(* @src src/src/util/base32.cpp:27-43 Samurai::Util::base32_encode *)
Fixpoint encode_loop (fuel : nat) (buffer : bytes) (i : nat) (index : Z) (result : bytes)
    : option bytes :=
  if negb (Nat.ltb i (length buffer)) then Some result
  else match fuel with
       | O => None
       | S fuel =>
           let '(word, i', index') := encode_step buffer i index in
           encode_loop fuel buffer i' index' (result ++ [alpha word])
       end.

(** [result_len] is [out.size()]; the result is the return value and the bytes
    written at the front of [out]. *)
(* @src src/src/util/base32.cpp:17-46 Samurai::Util::base32_encode *)
Definition base32_encode (input : bytes) (result_len : Z) : Z * bytes :=
  if result_len =? 0 then (0, [])
  else if result_len <? base32_encode_size (zlen input) then (0, [chr 0])
  else if zlen input =? 0 then (0, [chr 0])
  else match encode_loop (2 * length input) input 0 0 [] with
       | Some result => (zlen result, result ++ [chr 0])
       | None => (0, [])
       end.

(** [dst[offset] |= v] *)
Definition or_at (dst : bytes) (offset : nat) (v : Z) : bytes :=
  alter (fun c => chr (Z.lor (code c) v)) offset dst.

(** The decoding loop: [index] bits of [dst[offset]] are already filled. The
    early exits are the two [break]s. *)
(* @src src/src/util/base32.cpp:60-79 Samurai::Util::base32_decode *)
Fixpoint decode_loop (src dst : bytes) (offset : nat) (index : Z) : bytes * nat :=
  match src with
  | [] => (dst, offset)
  | c :: src' =>
      match find_char c ALPHABET with
      | None => decode_loop src' dst offset index
      | Some pos =>
          let n := Z.of_nat pos in
          if index <=? 3 then
            let index := (index + 5) mod 8 in
            if index =? 0 then
              let dst := or_at dst offset n in
              if Nat.eqb (S offset) (length dst) then (dst, S offset)
              else decode_loop src' dst (S offset) index
            else decode_loop src' (or_at dst offset (u8 (Z.shiftl n (8 - index)))) offset index
          else
            let index := (index + 5) mod 8 in
            let dst := or_at dst offset (Z.shiftr n index) in
            if Nat.eqb (S offset) (length dst) then (dst, S offset)
            else decode_loop src' (or_at dst (S offset) (u8 (Z.shiftl n (8 - index)))) (S offset) index
      end
  end.

(** [len] is [out.size()]; the result is the return value and the whole of
    [out] afterwards. *)
(* @src src/src/util/base32.cpp:48-81 Samurai::Util::base32_decode *)
Definition base32_decode (source : bytes) (len : nat) : Z * bytes :=
  match source, len with
  | _, O => (0, [])
  | _, _ => let '(dst, offset) := decode_loop source (replicate len (chr 0)) 0 0 in
            (Z.of_nat offset, dst)
  end.

(** ** The specification on bits *)

(** The bits of a byte and of a five-bit word, most significant first. *)
Definition bits8 (c : byte) : list bool := map (Z.testbit (code c)) [7; 6; 5; 4; 3; 2; 1; 0].
Definition bits5 (n : Z) : list bool := map (Z.testbit n) [4; 3; 2; 1; 0].

Definition bits_of (l : bytes) : list bool := concat (map bits8 l).
Definition quintets (ws : list Z) : list bool := concat (map bits5 ws).

(** The five-bit values of the characters of the alphabet in a string, the
    others being skipped. *)
Definition values (source : bytes) : list Z :=
  omap (fun c => Z.of_nat <$> find_char c ALPHABET) source.

Lemma bits_of_cons c l : bits_of (c :: l) = bits8 c ++ bits_of l.
Proof. done. Qed.

Lemma quintets_cons w ws : quintets (w :: ws) = bits5 w ++ quintets ws.
Proof. done. Qed.

Lemma length_bits_of l : length (bits_of l) = (8 * length l)%nat.
Proof. induction l; [done|]. rewrite bits_of_cons, length_app, IHl. simpl. lia. Qed.

Lemma length_quintets ws : length (quintets ws) = (5 * length ws)%nat.
Proof. induction ws; [done|]. rewrite quintets_cons, length_app, IHws. simpl. lia. Qed.

Lemma bits_of_app a b : bits_of (a ++ b) = bits_of a ++ bits_of b.
Proof. unfold bits_of. by rewrite map_app, concat_app. Qed.

Lemma quintets_app a b : quintets (a ++ b) = quintets a ++ quintets b.
Proof. unfold quintets. by rewrite map_app, concat_app. Qed.

(** The byte a list of eight bits denotes. *)
Definition byte_of_bits (l : list bool) : byte :=
  chr (fold_left (fun v b => 2 * v + Z.b2z b) l 0).

Lemma byte_of_bits8 c : byte_of_bits (bits8 c) = c.
Proof. revert c. byte_decide. Qed.

Lemma bits8_inj c d : bits8 c = bits8 d -> c = d.
Proof. intros H. by rewrite <- (byte_of_bits8 c), <- (byte_of_bits8 d), H. Qed.

Lemma bits_of_inj a b : bits_of a = bits_of b -> a = b.
Proof.
  revert b. induction a as [|x a IH]; intros [|y b] H; try done.
  rewrite !bits_of_cons in H.
  apply app_inj_1 in H as [H1 H2]; [|done]. by rewrite (bits8_inj x y), (IH b).
Qed.

(** ** Encoding *)

(** The eight values [index] takes, case by case. *)
Lemma index_cases (index : Z) (P : Z -> Prop) :
  0 <= index < 8 -> P 0 -> P 1 -> P 2 -> P 3 -> P 4 -> P 5 -> P 6 -> P 7 -> P index.
Proof.
  intros Hi P0 P1 P2 P3 P4 P5 P6 P7.
  assert (index = 0 \/ index = 1 \/ index = 2 \/ index = 3 \/ index = 4 \/
    index = 5 \/ index = 6 \/ index = 7) as Hc by lia.
  repeat destruct Hc as [->|Hc]; [done..|]. by subst.
Qed.

(** A byte has no bit above the eighth. *)
Lemma code_high_bit c n : 8 <= n -> Z.testbit (code c) n = false.
Proof.
  intros Hn. pose proof (code_range c). destruct (Z.eq_dec (code c) 0) as [->|H0].
  - apply Z.testbit_0_l.
  - apply Z.bits_above_log2; [lia|]. apply Z.log2_lt_pow2; [lia|].
    apply Z.lt_le_trans with (2 ^ 8); [lia|]. apply Z.pow_le_mono_r; lia.
Qed.

(** Computes a bit of an expression of shifts, masks and unions. *)
Ltac testbits :=
  unfold u8; cbn [map bits8 bits5];
  repeat (first
    [ rewrite Z.mod_pow2_bits_low by lia
    | rewrite Z.lor_spec
    | rewrite Z.land_spec
    | rewrite Z.shiftr_spec by lia
    | rewrite Z.shiftl_spec by lia ]);
  repeat match goal with
  | |- context [Z.testbit ?a ?n] =>
      let n' := eval cbv in n in progress change (Z.testbit a n) with (Z.testbit a n')
  | |- context [Z.testbit (code ?c) (Z.neg ?n)] => rewrite (Z.testbit_neg_r (code c)) by lia
  | |- context [Z.testbit (code ?c) ?n] => rewrite (code_high_bit c n) by lia
  | |- context [Z.testbit (Zpos ?a) ?n] =>
      let b := eval cbv in (Z.testbit (Zpos a) n) in change (Z.testbit (Zpos a) n) with b
  end;
  rewrite ?andb_true_r, ?andb_false_r, ?orb_false_r, ?orb_false_l.

(** Evaluates the closed subterms that control a step. *)
Ltac zconst t := let t' := eval cbv in t in progress change t with t'.
Ltac zconsts :=
  repeat match goal with
  | |- context [Zpos ?a + Zpos ?b] => zconst (Zpos a + Zpos b)
  | |- context [0 + Zpos ?b] => zconst (0 + Zpos b)
  | |- context [Zpos ?a - Zpos ?b] => zconst (Zpos a - Zpos b)
  | |- context [Zpos ?a mod Zpos ?b] => zconst (Zpos a mod Zpos b)
  | |- context [Zpos ?a <? ?b] => zconst (Zpos a <? b)
  | |- context [Zpos ?a <=? Zpos ?b] => zconst (Zpos a <=? Zpos b)
  | |- context [Zpos ?a =? ?b] => zconst (Zpos a =? b)
  | |- context [0 <=? ?b] => zconst (0 <=? b)
  | |- context [0 =? 0] => zconst (0 =? 0)
  | |- context [Z.to_nat (Zpos ?a)] => zconst (Z.to_nat (Zpos a))
  | |- context [Z.to_nat 0] => zconst (Z.to_nat 0)
  | |- context [Z.shiftr (Zpos ?a) ?b] => zconst (Z.shiftr (Zpos a) b)
  end; cbv iota zeta.

(** A byte-sized word whose top three bits are clear is a five-bit word. *)
Lemma five_bit_range : forall c,
  Z.testbit (code c) 5 = false -> Z.testbit (code c) 6 = false -> Z.testbit (code c) 7 = false ->
  code c < 32.
Proof. byte_decide. Qed.

Lemma u8_five_bits z :
  Z.testbit (u8 z) 5 = false -> Z.testbit (u8 z) 6 = false -> Z.testbit (u8 z) 7 = false ->
  0 <= u8 z < 32.
Proof.
  unfold u8. pose proof (Z.mod_pos_bound z (2 ^ 8) ltac:(lia)) as H.
  rewrite <- (code_chr_small (z mod 2 ^ 8)) by lia.
  intros H5 H6 H7. split; [apply code_range|by apply five_bit_range].
Qed.

(** One encoding step emits the five bits at the current position, reading
    zeros past the end, and moves five bits on. *)
Lemma encode_step_bits c rest index (pre : bytes) :
  0 <= index < 8 ->
  exists word i' index',
    encode_step (pre ++ c :: rest) (length pre) index = (word, i', index') /\
    bits5 word = take 5 (drop (Z.to_nat index) (bits8 c ++
                   match rest with [] => replicate 8 false | d :: _ => bits8 d end)) /\
    0 <= word < 32 /\ 0 <= index' < 8 /\
    8 * Z.of_nat i' + index' = 8 * zlen pre + index + 5.
Proof.
  intros Hi. unfold encode_step.
  assert (at_ (pre ++ c :: rest) (length pre) = code c) as ->.
  { unfold at_. by rewrite app_nth2, Nat.sub_diag by lia. }
  set (last := Nat.ltb _ _). set (next := at_ _ _).
  assert (match rest with [] => last = false | d :: _ => last = true /\ next = code d end) as Hr.
  { unfold last, next, at_. rewrite length_app. destruct rest as [|d rest]; simpl length.
    - apply Nat.ltb_ge. lia.
    - split; [apply Nat.ltb_lt; lia|]. rewrite app_nth2 by lia.
      by replace (length pre + 1 - length pre)%nat with 1%nat by lia. }
  clearbody last next. unfold zlen.
  destruct rest as [|d rest]; [subst last|destruct Hr as [-> ->]].
  all: pattern index; apply index_cases; [exact Hi|..]; clear Hi index; zconsts.
  all: do 3 eexists; split; [reflexivity|]; split; [|split; [|lia]].
  all: try (rewrite (Z.land_ones _ 5) by lia; div_lia).
  all: try (apply u8_five_bits; testbits; done).
  all: cbn [app bits8 map drop take replicate]; testbits; done.
Qed.

(** The same, on the bits of the whole buffer: a step at bit [p] emits the next
    five bits, zeros standing in for those past the end. *)
Lemma encode_step_at buffer i index :
  0 <= index < 8 -> (i < length buffer)%nat ->
  exists word i' index',
    encode_step buffer i index = (word, i', index') /\
    bits5 word = take 5 (drop (8 * i + Z.to_nat index) (bits_of buffer) ++ replicate 8 false) /\
    0 <= word < 32 /\ 0 <= index' < 8 /\
    8 * Z.of_nat i' + index' = 8 * Z.of_nat i + index + 5.
Proof.
  intros Hi Hlt. destruct (lookup_lt_is_Some_2 buffer i Hlt) as [c Hc].
  apply list_elem_of_split_length in Hc as (pre & rest & -> & ->).
  destruct (encode_step_bits c rest index pre Hi) as (w & i' & index' & E & Hw & Hrest).
  exists w, i', index'. split; [done|]. split; [|done]. rewrite Hw.
  rewrite bits_of_app, bits_of_cons, drop_app_add' by (by rewrite length_bits_of).
  destruct rest as [|d rest].
  - rewrite (drop_app_le (bits8 c)) by (simpl; lia).
    change (bits_of []) with (@nil bool). by rewrite app_nil_r.
  - rewrite bits_of_cons, app_assoc, (drop_app_le (bits8 c ++ bits8 d)) by (simpl; lia).
    rewrite <- app_assoc, take_app_le; [done|]. rewrite length_drop. simpl. lia.
Qed.

Lemma encode_loop_spec fuel buffer i index result :
  0 <= index < 8 -> (i <= length buffer)%nat -> (i = length buffer -> index <= 4) ->
  8 * zlen buffer - 8 * Z.of_nat i - index <= 5 * Z.of_nat fuel ->
  exists ws pad, encode_loop fuel buffer i index result = Some (result ++ map alpha ws) /\
    Forall (fun w => 0 <= w < 32) ws /\ (pad < 5)%nat /\
    quintets ws = drop (8 * i + Z.to_nat index) (bits_of buffer) ++ replicate pad false.
Proof.
  unfold zlen. revert i index result. induction fuel as [|fuel IH]; intros i index result Hi Hle He Hf.
  all: cbn [encode_loop]; destruct (Nat.ltb_spec i (length buffer)) as [Hlt|Hge]; cbn [negb].
  all: try (exists [], 0%nat; rewrite app_nil_r; split; [done|]; split; [constructor|];
    split; [lia|]; simpl; rewrite app_nil_r, drop_ge; [done|]; rewrite length_bits_of; lia).
  - lia.
  - destruct (encode_step_at buffer i index Hi Hlt) as (w & i' & index' & -> & Hw & Hr & Hi' & Hpos).
    destruct (IH i' index' (result ++ [alpha w]) Hi' ltac:(lia) ltac:(lia) ltac:(lia))
      as (ws & pad & -> & Hws & Hpad & Hq).
    replace (8 * i' + Z.to_nat index')%nat with (8 * i + Z.to_nat index + 5)%nat in Hq by lia.
    rewrite <- drop_drop in Hq. set (D := drop (8 * i + Z.to_nat index) (bits_of buffer)) in *.
    exists (w :: ws), (if Nat.leb 5 (length D) then pad else 5 - length D)%nat.
    rewrite <- app_assoc. split; [done|]. split; [by constructor|].
    assert (0 < length D)%nat as HD.
    { unfold D. rewrite length_drop, length_bits_of. lia. }
    rewrite quintets_cons, Hw. destruct (Nat.leb_spec 5 (length D)) as [H5|H5].
    + split; [done|]. rewrite Hq, take_app_le by done. by rewrite app_assoc, take_drop.
    + split; [lia|]. rewrite (drop_ge D) in Hq by lia.
      assert (ws = []) as ->.
      { apply (f_equal length) in Hq. rewrite length_quintets in Hq. cbn [app] in Hq.
        rewrite length_replicate in Hq. destruct ws; [done|]. simpl in Hq. lia. }
      rewrite app_nil_r, take_app_ge by lia. f_equal.
      assert (5 - length D <= 8)%nat by lia.
      rewrite take_replicate. f_equal. lia.
Qed.

(** ** Decoding *)

Lemma alpha_value : Forall (fun w => find_char (alpha w) ALPHABET = Some (Z.to_nat w))
  [0;1;2;3;4;5;6;7;8;9;10;11;12;13;14;15;16;17;18;19;20;21;22;23;24;25;26;27;28;29;30;31].
Proof. refine (bool_decide_unpack _ _). vm_compute. exact I. Qed.

Lemma alpha_find w : 0 <= w < 32 -> find_char (alpha w) ALPHABET = Some (Z.to_nat w).
Proof.
  intros Hw. pose proof alpha_value as H. rewrite Forall_forall in H. apply H.
  repeat (rewrite elem_of_cons). lia.
Qed.

Lemma values_alpha ws : Forall (fun w => 0 <= w < 32) ws -> values (map alpha ws) = ws.
Proof.
  induction 1 as [|w ws Hw _ IH]; [done|]. unfold values in *. cbn [map omap list_omap].
  rewrite alpha_find by done. cbn [fmap option_fmap option_map]. rewrite IH.
  f_equal. lia.
Qed.

(** The state of the decoder: the bits [bs] have been stored, whole bytes
    below [offset] and [index] bits of the byte at [offset]; all later bits are
    clear. *)
Definition dec_state (dst : bytes) (offset : nat) (index : Z) (bs : list bool) : Prop :=
  exists pre cur k, dst = pre ++ cur :: replicate k (chr 0) /\
    length pre = offset /\ 0 <= index < 8 /\
    drop (Z.to_nat index) (bits8 cur) = replicate (8 - Z.to_nat index) false /\
    bs = bits_of pre ++ take (Z.to_nat index) (bits8 cur).

Lemma or_at_app pre cur post v :
  or_at (pre ++ cur :: post) (length pre) v = pre ++ chr (Z.lor (code cur) v) :: post.
Proof. unfold or_at. rewrite <- (Nat.add_0_r (length pre)). by rewrite alter_app_r. Qed.

Lemma or_at_length dst i v : length (or_at dst i v) = length dst.
Proof. apply length_alter. Qed.

Lemma five_high_bit n k : 0 <= n < 32 -> 5 <= k -> Z.testbit n k = false.
Proof.
  intros Hn Hk. destruct (Z.eq_dec n 0) as [->|H0]; [apply Z.testbit_0_l|].
  apply Z.bits_above_log2; [lia|]. apply Z.log2_lt_pow2; [lia|].
  apply Z.lt_le_trans with (2 ^ 5); [lia|]. apply Z.pow_le_mono_r; lia.
Qed.

Lemma cons_bits (x y : bool) l m : x :: l = y :: m -> x = y /\ l = m.
Proof. by intros [= -> ->]. Qed.

(** Reads the bits of a byte assembled from [cur], whose low bits are clear by
    [Hc], and a five-bit word. *)
Ltac dec_bits Hn Hc :=
  cbv [bits8 bits5 map take drop app replicate Z.to_nat Pos.to_nat Pos.iter_op Nat.add Nat.sub] in Hc |- *;
  repeat (let H := fresh in apply cons_bits in Hc as [H Hc]);
  rewrite ?code_chr; change 256 with (2 ^ 8); testbits;
  repeat match goal with
  | H : Z.testbit _ _ = false |- _ => rewrite H
  | |- context [Z.testbit ?n (Zneg ?k)] => rewrite (Z.testbit_neg_r n (Zneg k)) by lia
  | |- context [Z.testbit ?n ?k] => is_var n; rewrite (five_high_bit n k) by (exact Hn || lia)
  end; rewrite ?orb_false_r, ?orb_false_l; try done.

(** Five bits that fit in the current byte. *)
Lemma dec_fit cur index n :
  0 <= index <= 3 -> 0 <= n < 32 ->
  drop (Z.to_nat index) (bits8 cur) = replicate (8 - Z.to_nat index) false ->
  bits8 (chr (Z.lor (code cur) (u8 (Z.shiftl n (3 - index))))) =
    take (Z.to_nat index) (bits8 cur) ++ bits5 n ++ replicate (3 - Z.to_nat index) false.
Proof.
  intros Hi Hn. assert (0 <= index < 8) as Hi8 by lia. revert Hi.
  pattern index; apply index_cases; [exact Hi8|..]; intros Hi Hc; try lia; clear Hi Hi8.
  all: dec_bits Hn Hc.
Qed.

(** Five bits cut between the current byte and the next one. *)
Lemma dec_cut cur index n :
  4 <= index < 8 -> 0 <= n < 32 ->
  drop (Z.to_nat index) (bits8 cur) = replicate (8 - Z.to_nat index) false ->
  bits8 (chr (Z.lor (code cur) (Z.shiftr n (index - 3)))) =
    take (Z.to_nat index) (bits8 cur) ++ take (8 - Z.to_nat index) (bits5 n) /\
  bits8 (chr (Z.lor (code (chr 0)) (u8 (Z.shiftl n (11 - index))))) =
    drop (8 - Z.to_nat index) (bits5 n) ++ replicate (11 - Z.to_nat index) false.
Proof.
  intros Hi Hn. assert (0 <= index < 8) as Hi8 by lia. revert Hi.
  pattern index; apply index_cases; [exact Hi8|..]; intros Hi Hc; try lia; clear Hi Hi8.
  all: change (code (chr 0)) with 0; split; dec_bits Hn Hc.
Qed.

Lemma find_alpha_range c pos : find_char c ALPHABET = Some pos -> 0 <= Z.of_nat pos < 32.
Proof. intros H%find_char_lt. change (length ALPHABET) with 32%nat in H. lia. Qed.

(** The next state after five more bits, in the three ways they can fall. *)
Section dec_steps.
Variables (dst : bytes) (offset : nat) (index n : Z) (bs : list bool).
Hypothesis Hn : 0 <= n < 32.
Hypothesis Hst : dec_state dst offset index bs.

Lemma dec_step_fit :
  index <= 2 ->
  dec_state (or_at dst offset (u8 (Z.shiftl n (3 - index)))) offset (index + 5) (bs ++ bits5 n).
Proof.
  destruct Hst as (pre & cur & k & -> & <- & Hi & Hc & ->). intros Hle.
  rewrite or_at_app. eexists pre, _, k. split; [done|]. split; [done|]. split; [lia|].
  rewrite (dec_fit cur index n) by (done || lia).
  assert (length (take (Z.to_nat index) (bits8 cur) ++ bits5 n) = Z.to_nat (index + 5)) as Hl.
  { rewrite length_app, length_take. simpl length. lia. }
  rewrite (app_assoc (take _ _) (bits5 n)). rewrite take_app_length', drop_app_length' by done.
  rewrite app_assoc. split; [f_equal; lia|done].
Qed.

Lemma dec_step_full :
  index = 3 ->
  let dst' := or_at dst offset n in
  (S offset = length dst -> bits_of dst' = bs ++ bits5 n) /\
  (S offset <> length dst -> dec_state dst' (S offset) 0 (bs ++ bits5 n)).
Proof.
  destruct Hst as (pre & cur & k & -> & <- & Hi & Hc & ->). intros -> dst'.
  assert (bits8 (chr (Z.lor (code cur) n)) = take (Z.to_nat 3) (bits8 cur) ++ bits5 n) as E.
  { pose proof (dec_fit cur 3 n ltac:(lia) Hn Hc) as E. rewrite app_nil_r in E.
    unfold u8 in E. rewrite Z.shiftl_0_r, Z.mod_small in E by lia. done. }
  unfold dst'. rewrite or_at_app, length_app. simpl length. rewrite length_replicate.
  split; intros HL.
  - assert (k = 0%nat) as -> by lia. rewrite bits_of_app, bits_of_cons, E.
    by rewrite app_nil_r, app_assoc.
  - destruct k as [|k]; [lia|]. exists (pre ++ [chr (Z.lor (code cur) n)]), (chr 0), k.
    rewrite <- app_assoc. split; [done|]. rewrite length_app. split; [simpl; lia|].
    split; [lia|]. split; [done|]. rewrite app_nil_r, bits_of_app, bits_of_cons, E.
    by rewrite app_nil_r, app_assoc.
Qed.

Lemma dec_step_cut :
  4 <= index ->
  let dst' := or_at dst offset (Z.shiftr n (index - 3)) in
  (S offset = length dst ->
    bits_of dst' = bs ++ take (8 - Z.to_nat index) (bits5 n)) /\
  (S offset <> length dst ->
    dec_state (or_at dst' (S offset) (u8 (Z.shiftl n (11 - index)))) (S offset) (index - 3)
      (bs ++ bits5 n)).
Proof.
  destruct Hst as (pre & cur & k & -> & <- & Hi & Hc & ->). intros Hge dst'.
  destruct (dec_cut cur index n ltac:(lia) Hn Hc) as [E1 E2].
  unfold dst'. rewrite or_at_app, length_app. simpl length. rewrite length_replicate.
  split; intros HL.
  - assert (k = 0%nat) as -> by lia. rewrite bits_of_app, bits_of_cons, E1.
    by rewrite app_nil_r, <- app_assoc.
  - destruct k as [|k]; [lia|]. cbn [replicate].
    set (c1 := chr (Z.lor (code cur) _)) in *. rewrite (cons_middle c1), app_assoc.
    replace (S (length pre)) with (length (pre ++ [c1])) by (rewrite length_app; simpl; lia).
    rewrite or_at_app. eexists (pre ++ [c1]), _, k. split; [done|]. split; [done|].
    split; [lia|]. rewrite E2.
    assert (length (drop (8 - Z.to_nat index) (bits5 n)) = Z.to_nat (index - 3)) as Hl.
    { rewrite length_drop. simpl length. lia. }
    rewrite take_app_length', drop_app_length' by done.
    rewrite bits_of_app, bits_of_cons, E1, app_nil_r, <- !app_assoc, take_drop.
    split; [f_equal; lia|done].
Qed.
End dec_steps.

Lemma dec_state_bits dst offset index bs :
  dec_state dst offset index bs ->
  bits_of dst = resize (8 * length dst) false bs /\
  length bs = (8 * offset + Z.to_nat index)%nat /\ (offset < length dst)%nat /\ 0 <= index < 8.
Proof.
  intros (pre & cur & k & -> & <- & Hi & Hc & ->).
  assert (length (take (Z.to_nat index) (bits8 cur)) = Z.to_nat index) as Hl.
  { rewrite length_take. simpl length. lia. }
  rewrite !length_app, length_bits_of, Hl. cbn [length]. rewrite length_replicate.
  split; [|lia]. rewrite bits_of_app, bits_of_cons.
  rewrite <- (take_drop (Z.to_nat index) (bits8 cur)) at 1. rewrite Hc.
  rewrite resize_ge by (rewrite length_app, length_bits_of, Hl; lia).
  rewrite length_app, length_bits_of, Hl, <- !app_assoc. do 2 f_equal.
  assert (bits_of (replicate k (chr 0)) = replicate (8 * k) false) as ->.
  { clear. induction k as [|k IH]; [done|]. cbn [replicate]. rewrite bits_of_cons, IH.
    by replace (8 * S k)%nat with (8 + 8 * k)%nat by lia. }
  rewrite <- replicate_add. f_equal. lia.
Qed.

Lemma values_cons c s :
  values (c :: s) = match find_char c ALPHABET with
                    | Some pos => Z.of_nat pos :: values s
                    | None => values s
                    end.
Proof. unfold values. simpl. by destruct (find_char c ALPHABET). Qed.

(** What the loop leaves behind once [bs] is known to be all it stored. *)
Lemma dec_done dst offset index bs :
  dec_state dst offset index bs ->
  offset = Nat.min (length dst) (length bs / 8) /\ bits_of dst = resize (8 * length dst) false bs.
Proof.
  intros (Hb & Hlen & Hlt & Hi)%dec_state_bits. split; [|done].
  rewrite Hlen, Nat.mul_comm, Nat.div_add_l, Nat.div_small by lia. lia.
Qed.

(** The two early exits: the buffer is full and the rest is dropped. *)
Lemma dec_full dst bs rest :
  bits_of dst = take (8 * length dst) bs -> (8 * length dst <= length bs)%nat ->
  length dst = Nat.min (length dst) (length (bs ++ rest) / 8) /\
  bits_of dst = resize (8 * length dst) false (bs ++ rest).
Proof.
  intros Hb Hl. split.
  - rewrite length_app. symmetry. apply Nat.min_l, Nat.div_le_lower_bound; lia.
  - rewrite resize_le by (rewrite length_app; lia). by rewrite take_app_le.
Qed.

Lemma decode_loop_spec src dst offset index bs :
  dec_state dst offset index bs ->
  exists dst' offset', decode_loop src dst offset index = (dst', offset') /\
    length dst' = length dst /\
    offset' = Nat.min (length dst') (length (bs ++ quintets (values src)) / 8) /\
    bits_of dst' = resize (8 * length dst') false (bs ++ quintets (values src)).
Proof.
  revert dst offset index bs. induction src as [|c src IH]; intros dst offset index bs Hst.
  { exists dst, offset. change (quintets (values [])) with (@nil bool). rewrite app_nil_r.
    split; [done|]. split; [done|]. by apply dec_done in Hst. }
  rewrite values_cons. cbn [decode_loop].
  destruct (find_char c ALPHABET) as [pos|] eqn:Hf; [|by apply IH].
  apply find_alpha_range in Hf. set (n := Z.of_nat pos) in *. clearbody n.
  destruct (dec_state_bits _ _ _ _ Hst) as (Hb & Hlen & Hlt & Hi).
  rewrite quintets_cons, app_assoc.
  destruct (Z.leb_spec index 3) as [Hle|Hgt].
  - destruct (decide (index = 3)) as [->|Hne].
    + destruct (dec_step_full dst offset 3 n bs Hf Hst eq_refl) as [Hfull Hmore].
      zconsts. rewrite or_at_length. destruct (Nat.eqb_spec (S offset) (length dst)) as [He|He].
      * do 2 eexists. split; [done|]. rewrite He. split; [apply or_at_length|].
        rewrite <- (or_at_length dst offset n) at 1. apply dec_full.
        -- rewrite Hfull by done. rewrite or_at_length, take_ge; [done|].
           rewrite length_app. simpl length. lia.
        -- rewrite or_at_length, length_app. simpl length. lia.
      * destruct (IH _ _ _ _ (Hmore He)) as (d & o & E & Hd & Hrest).
        rewrite or_at_length in Hd. eauto.
    + assert ((index + 5) mod 8 = index + 5) as -> by (apply Z.mod_small; lia). zcmp.
      replace (8 - (index + 5)) with (3 - index) by lia.
      destruct (IH _ _ _ _ (dec_step_fit dst offset index n bs Hf Hst ltac:(lia)))
        as (d & o & E & Hd & Hrest). rewrite or_at_length in Hd. eauto.
  - assert ((index + 5) mod 8 = index - 3) as -> by div_lia.
    replace (8 - (index - 3)) with (11 - index) by lia.
    destruct (dec_step_cut dst offset index n bs Hf Hst ltac:(lia)) as [Hfull Hmore].
    rewrite or_at_length. destruct (Nat.eqb_spec (S offset) (length dst)) as [He|He].
    + do 2 eexists. split; [done|]. rewrite He. split; [apply or_at_length|].
      rewrite <- (or_at_length dst offset (Z.shiftr n (index - 3))) at 1. apply dec_full.
      * rewrite Hfull by done. rewrite or_at_length, take_app, (take_ge bs) by lia.
        do 2 f_equal. lia.
      * rewrite or_at_length, length_app. simpl length. lia.
    + destruct (IH _ _ _ _ (Hmore He)) as (d & o & E & Hd & Hrest).
      rewrite !or_at_length in Hd. eauto.
Qed.

(** The buffer starts as an empty decoder state. *)
Lemma base32_decode_bits source len :
  length (snd (base32_decode source len)) = len /\
  fst (base32_decode source len) = Z.min (Z.of_nat len) (5 * zlen (values source) / 8) /\
  bits_of (snd (base32_decode source len)) = resize (8 * len) false (quintets (values source)).
Proof.
  destruct len as [|len].
  { assert (base32_decode source 0 = (0, [])) as -> by (by destruct source).
    pose proof (zlen_nonneg (values source)). split; [done|]. split; [|by rewrite resize_0].
    cbn [fst]. div_lia. }
  assert (dec_state (replicate (S len) (chr 0)) 0 0 []) as Hst.
  { exists [], (chr 0), len. by repeat split. }
  destruct (decode_loop_spec source _ _ _ _ Hst) as (d & o & E & Hd & Ho & Hb).
  rewrite length_replicate in Hd. rewrite Hd in *.
  assert (base32_decode source (S len) = (Z.of_nat o, d)) as ->.
  { unfold base32_decode. rewrite E. by destruct source. }
  cbn [fst snd app] in *. split; [done|]. split; [|done]. rewrite Ho, length_quintets. unfold zlen.
  rewrite Nat2Z.inj_min, Nat2Z.inj_div, Nat2Z.inj_mul. done.
Qed.

(** The encoding of a non-empty input into a buffer that is large enough. *)
Lemma base32_encode_large input result_len :
  8 * zlen input + 4 < 2 ^ 64 -> input <> [] -> base32_encode_size (zlen input) <= result_len ->
  exists ws pad, base32_encode input result_len = (zlen ws, map alpha ws ++ [chr 0]) /\
     Forall (fun w => 0 <= w < 32) ws /\ (pad < 5)%nat /\
     quintets ws = bits_of input ++ replicate pad false.
Proof.
  intros Hsize Hne. unfold base32_encode, base32_encode_size, u64.
  pose proof (zlen_nonneg input). rewrite Z.mod_small by lia. intros Hge.
  assert (0 < zlen input) by (destruct input; [done|zlen_lia]).
  assert (1 <= result_len) by div_lia. zcmp.
  destruct (encode_loop_spec (2 * length input) input 0 0 []) as
    (ws & pad & E & Hws & Hpad & Hq); [lia|lia|lia|zlen_lia|].
  rewrite E. cbn [app]. exists ws, pad. unfold zlen at 1. rewrite length_map. done.
Qed.

(** ** Properties *)

(** [base32_encode] writes exactly the alphabet letters of the input's bits
    taken five at a time, the last group padded with zero bits, terminated by a
    NUL, and returns their number, the ceiling of 8n/5; it writes within
    [result_len]. It refuses an empty input or a buffer smaller than
    [base32_encode_size], writing only an empty string. *)
Theorem base32_encode_spec input result_len (Hsize : 8 * zlen input + 4 < 2 ^ 64) :
  (input = [] \/ result_len < base32_encode_size (zlen input) ->
   base32_encode input result_len = (0, if result_len =? 0 then [] else [chr 0])) /\
  (input <> [] -> base32_encode_size (zlen input) <= result_len ->
   exists ws pad, base32_encode input result_len = (zlen ws, map alpha ws ++ [chr 0]) /\
     Forall (fun w => 0 <= w < 32) ws /\ (pad < 5)%nat /\
     quintets ws = bits_of input ++ replicate pad false /\
     zlen ws = (8 * zlen input + 4) / 5 /\ zlen ws < result_len).
Proof.
  split.
  - unfold base32_encode. intros H. destruct (result_len =? 0); [done|].
    destruct (result_len <? _) eqn:Hlt; [done|]. apply Z.ltb_ge in Hlt.
    destruct H as [->|H]; [done|lia].
  - intros Hne Hge. destruct (base32_encode_large input result_len) as (ws & pad & E & Hws & Hpad & Hq);
      [done..|]. exists ws, pad. do 4 (split; [done|]).
    assert (zlen ws = (8 * zlen input + 4) / 5) as Hn.
    { apply (f_equal length) in Hq. rewrite length_quintets, length_app, length_bits_of,
        length_replicate in Hq. unfold zlen. div_lia. }
    split; [done|]. unfold base32_encode_size, u64 in Hge.
    rewrite Z.mod_small in Hge by (pose proof (zlen_nonneg input); lia).
    rewrite Hn. replace (8 * zlen input) with (zlen input * 8) by lia. lia.
Qed.

Lemma base32_encode_spec_witness :
  8 * zlen (lit "fo") + 4 < 2 ^ 64 /\ zlen (snd (base32_encode (lit "fo") 5)) <= 5.
Proof.
  split; [done|].
  destruct (proj2 (base32_encode_spec (lit "fo") 5 ltac:(done)) ltac:(done) ltac:(by vm_compute))
    as (ws & pad & -> & _ & _ & _ & _ & Hlt).
  cbn [snd]. rewrite zlen_app. unfold zlen in *. rewrite length_map. simpl length. lia.
Defined.

(** [base32_decode] ignores every character outside the alphabet, and stores
    the concatenated five-bit values of the others as whole bytes: the buffer
    holds their bits cut to its size, zeros after them, and the returned count
    is the number of whole bytes, never more than the buffer's size. *)
Theorem base32_decode_spec source len :
  length (snd (base32_decode source len)) = len /\
  fst (base32_decode source len) = Z.min (Z.of_nat len) (5 * zlen (values source) / 8) /\
  bits_of (snd (base32_decode source len)) = resize (8 * len) false (quintets (values source)).
Proof. apply base32_decode_bits. Qed.

(** Decoding an encoding gives the input back: every non-empty input,
    encoded into a large enough buffer and decoded into a buffer of the input's
    size, is returned in full. *)
Theorem base32_roundtrip input result_len (Hsize : 8 * zlen input + 4 < 2 ^ 64)
    (Hne : input <> []) (Hlen : base32_encode_size (zlen input) <= result_len) :
  let '(n, out) := base32_encode input result_len in
  base32_decode (take (Z.to_nat n) out) (length input) = (zlen input, input).
Proof.
  destruct (base32_encode_large input result_len) as (ws & pad & -> & Hws & Hpad & Hq); [done..|].
  rewrite take_app_length' by (unfold zlen; rewrite length_map; lia).
  destruct (base32_decode_bits (map alpha ws) (length input)) as (Hd & Hn & Hb).
  rewrite values_alpha in Hn, Hb by done. rewrite Hq in Hb.
  destruct (base32_decode _ _) as [k d]. cbn [fst snd] in *. f_equal.
  - apply (f_equal length) in Hq. rewrite length_quintets, length_app, length_bits_of,
      length_replicate in Hq. unfold zlen in *. div_lia.
  - apply bits_of_inj. rewrite Hb, resize_le by (rewrite length_app, length_bits_of; lia).
    rewrite take_app_length' by (by rewrite length_bits_of). done.
Qed.

Lemma base32_roundtrip_witness :
  8 * zlen (lit "foobar") + 4 < 2 ^ 64 /\ base32_encode_size (zlen (lit "foobar")) <= 16 /\
  let '(n, out) := base32_encode (lit "foobar") 16 in
  base32_decode (take (Z.to_nat n) out) 6 = (6, lit "foobar").
Proof.
  split; [done|]. split; [by vm_compute|].
  apply (base32_roundtrip (lit "foobar") 16); [done|done|by vm_compute].
Defined.
