(* ===== verification/ByteQueue.v ===== *)
(** * ByteQueue: what a stream parser may assume of its input buffer

    The interface between [Samurai::IO::Buffer] and the parsers that consume it
    ([HttpResponse.v]): the readers only look at and discard the front
    of a queue of bytes. [Buffer.v] gives the instance for the source's class;
    the instance for plain lists below is the specification itself, so that a
    parser's theorem about any queue can be read on lists. *)

From S2P Require Import Prelude.

Class ByteQueue (Q : Type) := {
  q_live : Q -> bytes;
  q_ok : Q -> Prop;
  q_size : Q -> Z;
  q_find : byte -> Z -> Q -> Z;
  q_at : Q -> Z -> byte;
  q_copyRange : Q -> Z -> Z -> bytes;
  q_remove : Z -> Q -> Q;

  q_size_ok q : q_ok q -> q_size q = zlen (q_live q);
  q_find_ok c off q : q_ok q -> 0 <= off ->
    q_find c off q = pos_or_npos (find_char_from c (Z.to_nat off) (q_live q));
  q_at_ok q off : q_ok q -> 0 <= off ->
    q_at q off = nth (Z.to_nat off) (q_live q) (chr 0);
  q_copyRange_ok q a b : q_ok q -> 0 <= a ->
    q_copyRange q a b = if (b <? a) || (zlen (q_live q) <? b) then []
                        else ztake (b - a) (zdrop a (q_live q));
  q_remove_ok n q : q_ok q -> 0 <= n ->
    q_ok (q_remove n q) /\ q_live (q_remove n q) = zdrop n (q_live q);
  q_small q : q_ok q -> zlen (q_live q) < 2 ^ 63
}.

(** The reference implementation: a string short enough to be a [vector<char>]. *)
#[export] Program Instance bytes_ByteQueue : ByteQueue bytes := {
  q_live q := q;
  q_ok q := zlen q < 2 ^ 63;
  q_size q := zlen q;
  q_find c off q := pos_or_npos (find_char_from c (Z.to_nat off) q);
  q_at q off := nth (Z.to_nat off) q (chr 0);
  q_copyRange q a b := if (b <? a) || (zlen q <? b) then [] else ztake (b - a) (zdrop a q);
  q_remove n q := zdrop n q
}.
Next Obligation. done. Qed.
Next Obligation. done. Qed.
Next Obligation. done. Qed.
Next Obligation. done. Qed.
Next Obligation. intros n q Hq Hn. cbv beta in *. split; [|done]. rewrite zlen_drop. lia. Qed.
Next Obligation. done. Qed.
