(* ===== verification/Buffer.v ===== *)
(** * Buffer: [Samurai::IO::Buffer] of [src/io/buffer.cpp]

    The growable FIFO with its two cursors, the storage vector kept as a list
    whose length is the vector's size, [size_t] arithmetic with its wrap-around
    and the allocator as a parameter. Its live bytes refine a plain list. *)

From S2P Require Import Prelude ByteQueue Strings.

Definition INITBUFSIZE : Z := 8192.

(** [std::vector<char>::max_size()] of a 64-bit host. *)
Definition max_size : Z := 2 ^ 63 - 1.

(* @src src/include/samurai/io/buffer.h:178-189 Samurai::IO::Buffer *)
Record Buffer := mkBuffer {
  buf : bytes;
  head : Z;
  len : Z;
  initialCapasity : Z
}.

(* @src src/src/io/buffer.cpp:27-28 Samurai::IO::Buffer::Buffer *)
Definition new_Buffer (bufsize : Z) : Buffer :=
  mkBuffer (replicate (Z.to_nat bufsize) (chr 0)) 0 0 bufsize.

(** The moved-to buffer and what is left of the other one. *)
(* @src src/src/io/buffer.cpp:37-41 Samurai::IO::Buffer::Buffer *)
Definition move_Buffer (other : Buffer) : Buffer * Buffer :=
  (mkBuffer (buf other) (head other) (len other) (initialCapasity other),
   mkBuffer [] 0 0 (initialCapasity other)).

(* @src src/src/io/buffer.cpp:30-35 Samurai::IO::Buffer::Buffer *)
Definition copy_Buffer (b : Buffer) : Buffer := mkBuffer (buf b) (head b) (len b) (initialCapasity b).

(** Assigning; [self] is whether both are one object, which nothing is done to. *)
(* @src src/src/io/buffer.cpp:44-51 Samurai::IO::Buffer::operator= *)
Definition assign_copy (self : bool) (copy b : Buffer) : Buffer := if self then b else copy_Buffer copy.
(* @src src/src/io/buffer.cpp:54-63 Samurai::IO::Buffer::operator= *)
Definition move_assign (self : bool) (other b : Buffer) : Buffer * Buffer := if self then (b, b) else move_Buffer other.

(* @src src/include/samurai/io/buffer.h:132-132 Samurai::IO::Buffer::size *)
Definition size (b : Buffer) : Z := len b - head b.

(* @src src/include/samurai/io/buffer.h:147-147 Samurai::IO::Buffer::capasity *)
Definition capasity (b : Buffer) : Z := zlen (buf b).

(** [memcpy(&buf[pos], data, data.size())] *)
Definition write_at (l : bytes) (pos : Z) (data : bytes) : bytes :=
  ztake pos l ++ data ++ zdrop (pos + zlen data) l.

(** [memcpy(data, &buf[pos], n)] *)
Definition read_at (l : bytes) (pos n : Z) : bytes := ztake n (zdrop pos l).

(* @src src/src/io/buffer.cpp:184-191 Samurai::IO::Buffer::compact *)
Definition compact (b : Buffer) : Buffer :=
  if head b =? 0 then b
  else
    let live := len b - head b in
    mkBuffer (if live =? 0 then buf b else write_at (buf b) 0 (read_at (buf b) (head b) live))
      0 live (initialCapasity b).

(** The doubling loop of [resize]; [None] is the fuel running out. *)
(* @src src/src/io/buffer.cpp:209-217 Samurai::IO::Buffer::resize *)
Fixpoint grow (fuel : nat) (nsize required : Z) : option Z :=
  if nsize <? required then
    match fuel with
    | O => None
    | S fuel =>
        let next := u64 (nsize * 2) in
        if next <=? nsize then Some required else grow fuel next required
    end
  else Some nsize.

Definition grow_fuel : nat := 65.

Section alloc.
(** Whether the allocator grants a vector of the given size; it throws
    [bad_alloc] otherwise. *)
Variable alloc : Z -> bool.

(* @src src/src/io/buffer.cpp:199-231 Samurai::IO::Buffer::resize *)
Definition resize (needed : Z) (b : Buffer) : bool * Buffer :=
  let b := if negb (head b =? 0) && (capasity b <? u64 (len b + needed)) then compact b else b in
  let required := u64 (len b + needed) in
  if required <? len b then (false, b)
  else if required <=? capasity b then (true, b)
  else
    match grow grow_fuel (if capasity b =? 0 then INITBUFSIZE else capasity b) required with
    | None => (false, b)
    | Some nsize =>
        if max_size <? nsize then (false, b)
        else if negb (alloc nsize) then (false, b)
        else (true, mkBuffer (buf b ++ replicate (Z.to_nat (nsize - capasity b)) (chr 0))
                      (head b) (len b) (initialCapasity b))
    end.

(* @src src/src/io/buffer.cpp:69-81 Samurai::IO::Buffer::append *)
Definition append (data : bytes) (b : Buffer) : bool * Buffer :=
  let len_ := zlen data in
  let overflows := SIZE_MAX - len b <? len_ in
  if overflows then (false, b)
  else
    let '(fits, b) := if capasity b <? u64 (len b + len_) then resize len_ b else (true, b) in
    if negb fits then (false, b)
    else (true, mkBuffer (write_at (buf b) (len b) data) (head b) (len b + len_)
                  (initialCapasity b)).

(* @src src/src/io/buffer.cpp:97-104 Samurai::IO::Buffer::append *)
Definition append_char (c : byte) (b : Buffer) : bool * Buffer :=
  let '(fits, b) := if capasity b <? u64 (len b + 1) then resize 1 b else (true, b) in
  if negb fits then (false, b)
  else (true, mkBuffer (<[Z.to_nat (len b) := c]> (buf b)) (head b) (len b + 1)
                (initialCapasity b)).

(* @src src/src/io/buffer.cpp:106-114 Samurai::IO::Buffer::append *)
Definition append_int (n : Z) (b : Buffer) : bool * Buffer := append (to_string n) b.

(** [buffer] is another object than [b]. *)
(* @src src/src/io/buffer.cpp:116-131 Samurai::IO::Buffer::append *)
Definition append_buffer (buffer : Buffer) (n : Z) (b : Buffer) : bool * Buffer :=
  let mylen := if size buffer <? n then size buffer else n in
  if mylen =? 0 then (true, b) else append (read_at (buf buffer) (head buffer) mylen) b.

(* @src src/src/io/buffer.cpp:194-196 Samurai::IO::Buffer::reserve *)
Definition reserve (n : Z) (b : Buffer) : Buffer :=
  if n =? 0 then b else snd (resize n b).
End alloc.

(* @src src/src/io/buffer.cpp:171-182 Samurai::IO::Buffer::remove *)
Definition remove (count : Z) (b : Buffer) : Buffer :=
  let live := len b - head b in
  let cnt := if live <? count then live else count in
  let b := mkBuffer (buf b) (head b + cnt) (len b) (initialCapasity b) in
  if head b =? len b then mkBuffer (buf b) 0 0 (initialCapasity b)
  else if capasity b / 2 <=? head b then compact b else b.

(* @src src/src/io/buffer.cpp:233-237 Samurai::IO::Buffer::clear *)
Definition clear (b : Buffer) : Buffer :=
  mkBuffer (replicate (Z.to_nat (initialCapasity b)) (chr 0)) 0 0 (initialCapasity b).

(* @src src/src/io/buffer.cpp:164-169 Samurai::IO::Buffer::pop *)
Definition pop (len_ : Z) (b : Buffer) : bytes :=
  let live := len b - head b in
  if live =? 0 then []
  else let mylen := if live <? len_ then live else len_ in read_at (buf b) (head b) mylen.

(** [pop] into an array: what is stored there. *)
(* @src src/src/io/buffer.cpp:134-140 Samurai::IO::Buffer::pop *)
Definition pop_array (len_ : Z) (b : Buffer) : bytes :=
  let live := len b - head b in
  if live =? 0 then [] else read_at (buf b) (head b) (if live <? len_ then live else len_).

(** Where [ptr] points into the storage; null where there is none. *)
(* @src src/src/io/buffer.cpp:292-295 Samurai::IO::Buffer::ptr *)
Definition ptr (b : Buffer) : option Z := if bool_decide (buf b = []) then None else Some (head b).

(** Without a check: [None] is outside the storage. *)
(* @src src/src/io/buffer.cpp:297-299 Samurai::IO::Buffer::operator[] *)
Definition index (offset : Z) (b : Buffer) : option byte := buf b !! Z.to_nat (head b + offset).

(** [pop] into an array: the bytes stored at its front; their number is the
    result. *)
(* @src src/src/io/buffer.cpp:142-149 Samurai::IO::Buffer::pop *)
Definition pop_from (offset len_ : Z) (b : Buffer) : bytes :=
  let live := len b - head b in
  if live <=? offset then []
  else
    let available := live - offset in
    let mylen := if available <? len_ then available else len_ in
    read_at (buf b) (head b + offset) mylen.

(* @src src/src/io/buffer.cpp:156-161 Samurai::IO::Buffer::copyRange *)
Definition copyRange (offset end_ : Z) (b : Buffer) : bytes :=
  let live := len b - head b in
  if (end_ <? offset) || (live <? end_) then []
  else read_at (buf b) (head b + offset) (end_ - offset).

(* @src src/src/io/buffer.cpp:239-246 Samurai::IO::Buffer::find *)
Definition find (achar : byte) (offset : Z) (b : Buffer) : Z :=
  let live := len b - head b in
  if live <=? offset then npos
  else match find_char achar (read_at (buf b) (head b + offset) (live - offset)) with
       | None => npos
       | Some pos => offset + Z.of_nat pos
       end.

(* @src src/src/io/buffer.cpp:256-260 Samurai::IO::Buffer::rfind *)
Fixpoint rfind_loop (x : nat) (achar : byte) (b : Buffer) : Z :=
  match x with
  | O => npos
  | S x => if Ascii.eqb (nth (Z.to_nat (head b) + x) (buf b) (chr 0)) achar then Z.of_nat x
           else rfind_loop x achar b
  end.

(* @src src/src/io/buffer.cpp:248-262 Samurai::IO::Buffer::rfind *)
Definition rfind (achar : byte) (b : Buffer) : Z :=
  let live := len b - head b in
  if live =? 0 then npos else rfind_loop (Z.to_nat live) achar b.

(** The portable search: [find] of the first character, then a comparison. *)
(* @src src/src/io/buffer.cpp:277-288 Samurai::IO::Buffer::find *)
Fixpoint find_str_loop (fuel : nat) (str : bytes) (p : Z) (b : Buffer) : option Z :=
  match fuel with
  | O => None
  | S fuel =>
      let found := find (nth 0 str (chr 0)) p b in
      if found =? npos then Some npos
      else if len b - head b - found <? zlen str then Some npos
      else if bool_decide (read_at (buf b) (head b + found) (zlen str) = str) then Some found
      else find_str_loop fuel str (found + 1) b
  end.

(** [str] is the C string's characters before its terminator. *)
(* @src src/src/io/buffer.cpp:264-290 Samurai::IO::Buffer::find *)
Definition find_str (str : bytes) (offset : Z) (b : Buffer) : option Z :=
  let n := zlen str in
  let live := len b - head b in
  if n =? 0 then Some (if offset <=? live then offset else npos)
  else if live <=? offset then Some npos
  else if live - offset <? n then Some npos
  else find_str_loop (S (Z.to_nat live)) str offset b.

(* @src src/src/io/buffer.cpp:301-304 Samurai::IO::Buffer::at *)
Definition at_ (offset : Z) (b : Buffer) : byte :=
  if len b - head b <=? offset then chr 0
  else nth (Z.to_nat (head b + offset)) (buf b) (chr 0).

(** ** Binary values *)

Inductive BinaryMode := BigEndian | LittleEndian | NativeEndian.

(* @src src/src/io/buffer.cpp:326-330 byteswap *)
Fixpoint byteswap_loop (w n : nat) (swapped value : Z) : Z :=
  match n with
  | O => swapped
  | S n => byteswap_loop w n
             (Z.lor (Z.shiftl swapped 8) (Z.land value 0xff) mod 2 ^ (8 * Z.of_nat w))
             (Z.shiftr value 8)
  end.
(* @src src/src/io/buffer.cpp:322-332 byteswap *)
Definition byteswap (w : nat) (value : Z) : Z := byteswap_loop w w 0 value.

(* @src src/src/io/buffer.cpp:380-385 Samurai::IO::Buffer::popBinary *)
Definition popBinary8 (offset : Z) (b : Buffer) : option Z :=
  if (size b <? offset) || (size b - offset <? 1) then None
  else Some (le_value (read_at (buf b) (head b + offset) 1)).

Section host.
(** [std::endian::native == std::endian::big] *)
Variable host_is_big_endian : bool.

(** [std::bit_cast] of an integer to an array of chars, and the [memcpy] of
    the array over an integer. *)
Definition to_array (w : nat) (v : Z) : bytes :=
  if host_is_big_endian then rev (le_bytes w v) else le_bytes w v.
Definition of_array (l : bytes) : Z :=
  if host_is_big_endian then le_value (rev l) else le_value l.

(* @src src/src/io/buffer.cpp:335-347 reorder *)
Definition reorder (w : nat) (value : Z) (mode : BinaryMode) : Z :=
  match mode with
  | BigEndian => if host_is_big_endian then value else byteswap w value
  | LittleEndian => if host_is_big_endian then byteswap w value else value
  | NativeEndian => value
  end.

(** [w] is [sizeof(T)]: 2, 4 or 8. *)
(* @src src/src/io/buffer.cpp:351-370 appendValue *)
Definition appendBinary (alloc : Z -> bool) (w : nat) (number : Z) (mode : BinaryMode)
    (b : Buffer) : bool * Buffer :=
  append alloc (to_array w (reorder w number mode)) b.

(* @src src/src/io/buffer.cpp:387-412 Samurai::IO::Buffer::popBinary *)
Definition popBinary (w : nat) (offset : Z) (endianness : BinaryMode) (b : Buffer) : option Z :=
  if (size b <? offset) || (size b - offset <? Z.of_nat w) then None
  else
    let wire := of_array (read_at (buf b) (head b + offset) (Z.of_nat w)) in
    Some (reorder w wire endianness).
End host.

(** ** The invariant and the abstraction *)

(** The live bytes, oldest first. *)
Definition live (b : Buffer) : bytes := read_at (buf b) (head b) (size b).

(** The cursors are ordered and inside the storage, and the dead prefix never
    reaches half of it. *)
Record wf (b : Buffer) : Prop := {
  wf_head : 0 <= head b <= len b;
  wf_len : len b <= capasity b;
  wf_cap : capasity b <= max_size;
  wf_init : 0 <= initialCapasity b <= max_size;
  wf_dead : head b = 0 \/ head b < capasity b / 2
}.

Lemma max_size_lt : 2 * max_size < SIZE_MAX.
Proof. done. Qed.

Lemma SIZE_MAX_u64 z : 0 <= z <= SIZE_MAX -> u64 z = z.
Proof. intros. unfold u64, SIZE_MAX in *. apply Z.mod_small. lia. Qed.

(** Opens the invariant of [b] with the numeric facts [lia] needs. *)
Ltac open_wf H :=
  let H1 := fresh "Hh" in let H2 := fresh "Hl" in let H3 := fresh "Hc" in
  let H4 := fresh "Hi" in let H5 := fresh "Hd" in
  pose proof (wf_head _ H) as H1; pose proof (wf_len _ H) as H2; pose proof (wf_cap _ H) as H3;
  pose proof (wf_init _ H) as H4; pose proof (wf_dead _ H) as H5;
  unfold capasity, size, max_size in *; cbn [buf head len initialCapasity] in *.

Lemma read_at_length l pos n :
  0 <= pos -> 0 <= n -> pos + n <= zlen l -> zlen (read_at l pos n) = n.
Proof. intros. unfold read_at. zlen_lia. Qed.

Lemma live_length b : wf b -> zlen (live b) = size b.
Proof. intros H. open_wf H. apply read_at_length; lia. Qed.

Lemma read_at_read_at l pos n off k :
  0 <= pos -> 0 <= off -> 0 <= k -> off + k <= n ->
  read_at l (pos + off) k = ztake k (zdrop off (read_at l pos n)).
Proof.
  intros. unfold read_at. rewrite skipn_firstn_comm, drop_drop, take_take.
  f_equal; [lia|]. f_equal. lia.
Qed.

(** A window of the storage is a window of the live bytes. *)
Lemma read_live b off k :
  wf b -> 0 <= off -> 0 <= k -> off + k <= size b ->
  read_at (buf b) (head b + off) k = ztake k (zdrop off (live b)).
Proof. intros H. open_wf H. intros. apply read_at_read_at; unfold size; lia. Qed.

Lemma nth_live b off :
  wf b -> 0 <= off < size b ->
  nth (Z.to_nat (head b + off)) (buf b) (chr 0) = nth (Z.to_nat off) (live b) (chr 0).
Proof.
  intros H Ho. open_wf H. rewrite !nth_lookup. unfold live, read_at.
  rewrite lookup_take_lt by (unfold size; lia). rewrite lookup_drop. do 2 f_equal. lia.
Qed.

Lemma write_at_length l pos data :
  0 <= pos -> pos + zlen data <= zlen l -> zlen (write_at l pos data) = zlen l.
Proof. intros. unfold write_at. zlen_lia. Qed.

(** What lies before a write is unchanged, and the written bytes follow it. *)
Lemma read_at_write_at l h n data :
  0 <= h -> 0 <= n -> h + n + zlen data <= zlen l ->
  read_at (write_at l (h + n) data) h (n + zlen data) = read_at l h n ++ data.
Proof.
  intros. pose proof (zlen_nonneg data). unfold read_at, write_at.
  rewrite drop_app_le by zlen_lia. rewrite skipn_firstn_comm.
  rewrite take_app, take_take.
  replace (Z.to_nat (n + zlen data) `min` (Z.to_nat (h + n) - Z.to_nat h))%nat with (Z.to_nat n) by lia.
  f_equal. rewrite take_app_length'; [done|]. zlen_lia.
Qed.

Lemma read_at_app l l' pos n :
  0 <= pos -> 0 <= n -> pos + n <= zlen l -> read_at (l ++ l') pos n = read_at l pos n.
Proof.
  intros. unfold read_at. rewrite drop_app_le by zlen_lia. rewrite take_app_le; [done|]. zlen_lia.
Qed.

Lemma read_at_whole l data : read_at (write_at l 0 data) 0 (zlen data) = data.
Proof.
  unfold read_at, write_at. change (Z.to_nat 0) with 0%nat. rewrite take_0, drop_0. simpl.
  apply take_app_length'. zlen_lia.
Qed.

(** ** Storage management *)

Lemma new_Buffer_wf n : 0 <= n <= max_size -> wf (new_Buffer n) /\ live (new_Buffer n) = [].
Proof.
  intros. split; [|done]. constructor; unfold capasity; cbn; try lia.
  - rewrite zlen_replicate. lia.
  - rewrite zlen_replicate. lia.
Qed.

(** Compaction needs no more than ordered cursors, and re-establishes the bound
    on the dead prefix. *)
Lemma compact_cursors b :
  0 <= head b <= len b -> len b <= capasity b -> capasity b <= max_size ->
  0 <= initialCapasity b <= max_size ->
  wf (compact b) /\ live (compact b) = live b /\ head (compact b) = 0 /\
    capasity (compact b) = capasity b /\ len (compact b) = size b /\
    initialCapasity (compact b) = initialCapasity b.
Proof.
  intros Hh Hl Hc Hi. unfold compact, live, capasity, size, max_size in *.
  destruct (Z.eqb_spec (head b) 0) as [H0|H0].
  { split; [constructor; unfold capasity, max_size; lia|]. splits; lia || done. }
  cbn [buf head len initialCapasity]. rewrite !Z.sub_0_r.
  pose proof (read_at_length (buf b) (head b) (len b - head b)) as Hr.
  destruct (Z.eqb_spec (len b - head b) 0) as [E|E].
  - rewrite E. split; [|by splits]. constructor; unfold capasity, max_size; cbn; lia.
  - rewrite write_at_length by lia.
    split; [constructor; unfold capasity, max_size; cbn; rewrite ?write_at_length; lia|].
    split; [|by splits]. rewrite <- Hr at 2 by lia. apply read_at_whole.
Qed.

Lemma compact_spec b :
  wf b -> wf (compact b) /\ live (compact b) = live b /\ head (compact b) = 0 /\
    capasity (compact b) = capasity b /\ len (compact b) = size b /\
    initialCapasity (compact b) = initialCapasity b.
Proof. intros H. apply compact_cursors; apply H. Qed.

Lemma grow_step fuel nsize required :
  0 < nsize <= max_size -> required <= SIZE_MAX ->
  required <= nsize * 2 ^ Z.of_nat fuel ->
  exists n, grow fuel nsize required = Some n /\ required <= n /\ nsize <= n /\
    (n = nsize \/ n < 2 * required).
Proof.
  revert nsize. induction fuel as [|fuel IH]; intros nsize Hn Hr Hf; cbn [grow].
  - destruct (Z.ltb_spec nsize required); [lia|]. eauto with lia.
  - destruct (Z.ltb_spec nsize required) as [Hlt|Hge]; [|eauto with lia].
    rewrite SIZE_MAX_u64 by (pose proof max_size_lt; lia). cbn zeta. zcmp.
    destruct (Z.le_gt_cases (nsize * 2) max_size) as [Hs|Hs].
    + destruct (IH (nsize * 2)) as (n & -> & ? & ? & ?); [lia|lia| |].
      * rewrite Nat2Z.inj_succ, Z.pow_succ_r in Hf by lia. lia.
      * eexists. split; [done|]. lia.
    + destruct fuel as [|fuel]; cbn [grow].
      * rewrite Z.mul_1_r in Hf || cbn in Hf. zcmp. eauto with lia.
      * destruct (Z.ltb_spec (nsize * 2) required) as [Hlt'|?]; [|eauto with lia].
        assert (u64 (nsize * 2 * 2) = nsize * 2 * 2 - 2 ^ 64) as ->.
        { unfold u64. symmetry. apply (Z.mod_unique _ _ 1); unfold max_size, SIZE_MAX in *; lia. }
        cbn zeta. unfold max_size, SIZE_MAX in *. zcmp. eauto with lia.
Qed.

(** The doubling terminates within the fuel at a size that fits. *)
Lemma grow_spec nsize required :
  0 < nsize <= max_size -> required <= SIZE_MAX ->
  exists n, grow grow_fuel nsize required = Some n /\ required <= n /\ nsize <= n /\
    (n = nsize \/ n < 2 * required).
Proof.
  intros Hn Hr. apply grow_step; [done..|].
  apply Z.le_trans with (1 * 2 ^ Z.of_nat grow_fuel).
  - unfold SIZE_MAX in Hr. apply Z.le_trans with (2 ^ 64 - 1); [lia|]. by vm_compute.
  - apply Z.mul_le_mono_nonneg_r; [by vm_compute|lia].
Qed.

Lemma live_grow b n :
  wf b -> 0 <= n -> capasity b + n <= max_size ->
  let b' := mkBuffer (buf b ++ replicate (Z.to_nat n) (chr 0)) (head b) (len b) (initialCapasity b) in
  wf b' /\ live b' = live b.
Proof.
  intros H Hn Hm. open_wf H. split.
  - constructor; unfold capasity, max_size; cbn; rewrite ?zlen_app, ?zlen_replicate; try div_lia.
  - unfold live, size. cbn. apply read_at_app; lia.
Qed.

Section alloc_lemmas.
Variable alloc : Z -> bool.

(** [resize] keeps the live bytes whatever happens; on success there is room. *)
Lemma resize_spec needed b :
  wf b -> 0 <= needed <= SIZE_MAX ->
  exists ok b', resize alloc needed b = (ok, b') /\ wf b' /\ live b' = live b /\
    size b' = size b /\ initialCapasity b' = initialCapasity b /\
    (ok = true -> len b' + needed <= capasity b') /\
    (size b + needed < 2 ^ 62 -> (forall n, n <= max_size -> alloc n = true) -> ok = true).
Proof.
  intros H Hn. unfold resize.
  set (b1 := if negb (head b =? 0) && (capasity b <? u64 (len b + needed)) then compact b else b).
  assert (wf b1 /\ live b1 = live b /\ size b1 = size b /\ initialCapasity b1 = initialCapasity b /\
    (size b + needed < 2 ^ 62 -> len b1 + needed <= capasity b1 \/ len b1 = size b)) as
    (H1 & Hl1 & Hs1 & Hi1 & Hroom).
  { destruct (compact_spec b H) as (Hw & Hl & Hh & Hc & Hs & Hi). unfold b1.
    destruct (Z.eqb_spec (head b) 0) as [E|E]; cbn [negb andb].
    - splits; auto. unfold size. lia.
    - destruct (Z.ltb_spec (capasity b) (u64 (len b + needed))) as [E'|E'].
      + unfold size in *. rewrite Hh, Hc, Hs. splits; auto; lia.
      + splits; auto. open_wf H. intros Hsm. left.
        rewrite SIZE_MAX_u64 in E' by (unfold SIZE_MAX; lia). lia. }
  clearbody b1. open_wf H1. unfold SIZE_MAX in *.
  destruct (Z.ltb_spec (u64 (len b1 + needed)) (len b1)) as [Ho|Ho].
  { do 2 eexists. split; [done|]. splits; auto; try done.
    intros Hsm _. rewrite SIZE_MAX_u64 in Ho by (unfold SIZE_MAX; lia). lia. }
  assert (u64 (len b1 + needed) = len b1 + needed) as Hu.
  { unfold u64 in *. div_lia. }
  rewrite Hu. destruct (Z.leb_spec (len b1 + needed) (zlen (buf b1))) as [Hf|Hf].
  { do 2 eexists. split; [done|]. splits; auto. }
  set (n0 := if zlen (buf b1) =? 0 then INITBUFSIZE else zlen (buf b1)).
  assert (0 < n0 <= max_size /\ zlen (buf b1) <= n0 /\ (n0 <= 2 ^ 62 \/ n0 = zlen (buf b1))) as
    (Hn0 & Hn1 & Hn2).
  { unfold n0, INITBUFSIZE, max_size. destruct (Z.eqb_spec (zlen (buf b1)) 0); lia. }
  assert (len b1 + needed <= SIZE_MAX) as Hreq.
  { unfold u64, SIZE_MAX in *. pose proof (Z.mod_pos_bound (len b1 + needed) (2 ^ 64)). lia. }
  destruct (grow_spec n0 (len b1 + needed) Hn0 Hreq) as (n & -> & Hgn & Hg0 & Hgb).
  unfold max_size in *. destruct (Z.ltb_spec (2 ^ 63 - 1) n) as [Hbig|Hbig].
  { do 2 eexists. split; [done|]. splits; auto; try done. lia. }
  destruct (alloc n) eqn:Ha; cbn [negb].
  - destruct (live_grow b1 (n - zlen (buf b1)) H1) as [Hw HL];
      [lia|unfold capasity, max_size; lia|].
    do 2 eexists. split; [done|]. split; [done|]. split; [by rewrite HL|].
    split; [exact Hs1|]. split; [done|]. split; [|done].
    cbn. rewrite zlen_app, zlen_replicate. lia.
  - do 2 eexists. split; [done|]. splits; auto; try done.
    intros _ Hall. rewrite Hall in Ha; [done|lia].
Qed.

(** Storing [data] behind the live bytes. *)
Lemma live_store b data :
  wf b -> len b + zlen data <= capasity b ->
  let b' := mkBuffer (write_at (buf b) (len b) data) (head b) (len b + zlen data)
              (initialCapasity b) in
  wf b' /\ live b' = live b ++ data.
Proof.
  intros H Hf. open_wf H. pose proof (zlen_nonneg data). split.
  - constructor; unfold capasity, max_size; cbn; rewrite ?write_at_length by lia; lia.
  - unfold live, size. cbn [buf head len].
    replace (len b + zlen data - head b) with (len b - head b + zlen data) by lia.
    replace (len b) with (head b + (len b - head b)) at 1 by lia.
    apply read_at_write_at; lia.
Qed.

(** [append]: all of the data or none of it. *)
Lemma append_all_or_nothing data b :
  wf b ->
  exists ok b', append alloc data b = (ok, b') /\ wf b' /\
    live b' = live b ++ (if ok then data else []) /\ initialCapasity b' = initialCapasity b /\
    (size b + zlen data < 2 ^ 62 -> (forall n, n <= max_size -> alloc n = true) -> ok = true).
Proof.
  intros H. open_wf H. unfold append. pose proof (zlen_nonneg data). unfold SIZE_MAX, capasity in *.
  destruct (Z.ltb_spec (2 ^ 64 - 1 - len b) (zlen data)) as [Ho|Ho].
  { do 2 eexists. split; [done|]. rewrite app_nil_r. unfold size. splits; auto. lia. }
  rewrite SIZE_MAX_u64 by (unfold SIZE_MAX; lia).
  destruct (Z.ltb_spec (zlen (buf b)) (len b + zlen data)) as [Hg|Hg].
  - destruct (resize_spec (zlen data) b H) as (ok & b' & -> & Hw & HL & Hs & HI & Hok & Hlive).
    { unfold SIZE_MAX. lia. }
    destruct ok; cbn [negb].
    + destruct (live_store b' data Hw (Hok eq_refl)) as [Hw' Hl'].
      do 2 eexists. split; [done|]. rewrite Hl', HL. splits; auto.
    + do 2 eexists. split; [done|]. rewrite app_nil_r. splits; auto.
  - destruct (live_store b data H) as [Hw' Hl']; [done|]. cbn [negb].
    do 2 eexists. split; [done|]. rewrite Hl'. splits; auto.
Qed.
End alloc_lemmas.

(** ** Consuming and reading *)

Lemma remove_live count b :
  wf b -> 0 <= count ->
  wf (remove count b) /\ live (remove count b) = zdrop count (live b) /\
    capasity (remove count b) = capasity b /\ initialCapasity (remove count b) = initialCapasity b.
Proof.
  intros H Hc. pose proof (live_length b H) as Hlen. open_wf H. unfold remove, capasity.
  set (cnt := if len b - head b <? count then len b - head b else count).
  assert (0 <= cnt <= len b - head b /\ (cnt = count \/ cnt = len b - head b /\ cnt <= count))
    as [Hcnt Hcases].
  { unfold cnt. destruct (Z.ltb_spec (len b - head b) count); lia. }
  assert (zdrop count (live b) = zdrop cnt (live b)) as ->.
  { destruct Hcases as [->|[-> ?]]; [done|]. rewrite !drop_ge; [done|zlen_lia..]. }
  clearbody cnt. cbn [buf head len initialCapasity].
  assert (read_at (buf b) (head b + cnt) (len b - (head b + cnt)) = zdrop cnt (live b)) as HL0.
  { unfold live, read_at, size. rewrite skipn_firstn_comm, drop_drop. f_equal; [lia|]. f_equal; lia. }
  destruct (Z.eqb_spec (head b + cnt) (len b)) as [E|E].
  - split; [constructor; unfold capasity, max_size; cbn; lia|].
    split; [|done]. rewrite <- HL0, E, Z.sub_diag. done.
  - destruct (Z.leb_spec (zlen (buf b) / 2) (head b + cnt)) as [Hd'|Hd'].
    + edestruct compact_cursors as (Hw & HL & _ & HC & _ & HI);
        [..|split; [exact Hw|rewrite HL, HI]]; unfold capasity, max_size in *; cbn; try lia.
      split; [exact HL0|]. split; [exact HC|done].
    + split; [constructor; unfold capasity, max_size; cbn; lia|]. split; [exact HL0|done].
Qed.

Lemma clear_live b : wf b -> wf (clear b) /\ live (clear b) = [].
Proof. intros H. open_wf H. apply (new_Buffer_wf (initialCapasity b)). unfold max_size. lia. Qed.

Lemma pop_from_live offset n b :
  wf b -> 0 <= offset -> 0 <= n -> pop_from offset n b = ztake n (zdrop offset (live b)).
Proof.
  intros H Ho Hn. pose proof (live_length b H) as Hlen. pose proof H as H'. open_wf H.
  unfold pop_from. destruct (Z.leb_spec (len b - head b) offset) as [E|E].
  { rewrite drop_ge by zlen_lia. by rewrite take_nil. }
  destruct (Z.ltb_spec (len b - head b - offset) n) as [E'|E'].
  - rewrite read_live by (auto; unfold size; lia). rewrite !take_ge; [done|zlen_lia..].
  - rewrite read_live by (auto; unfold size; lia). done.
Qed.

Lemma pop_live n b : wf b -> 0 <= n -> pop n b = ztake n (live b).
Proof.
  intros H Hn. pose proof (pop_from_live 0 n b H ltac:(lia) Hn) as E.
  change (Z.to_nat 0) with 0%nat in E. rewrite drop_0 in E. rewrite <- E. clear E.
  open_wf H. unfold pop, pop_from. rewrite Z.add_0_r, Z.sub_0_r.
  destruct (Z.eqb_spec (len b - head b) 0), (Z.leb_spec (len b - head b) 0); done || lia.
Qed.

(** A copy holds the same bytes; a move takes them and leaves an empty buffer that can be
    used again, which keeps the size it clears to; assigning an object to itself is nothing. *)
Lemma copies_and_moves other b : wf b -> wf other ->
  (let c := assign_copy false other b in wf c /\ live c = live other) /\
  (let '(c, rest) := move_assign false other b in wf c /\ live c = live other /\ wf rest /\ live rest = [] /\
     clear rest = clear other) /\
  assign_copy true b b = b /\ move_assign true b b = (b, b).
Proof.
  intros H Ho. pose proof Ho as Hm. destruct other as [l h n i]. split; [by split|]. cbn.
  split; [|done]. split; [done|]. split; [done|]. split; [|done].
  open_wf Ho. constructor; unfold capasity; cbn; change (zlen []) with 0; unfold max_size in *; lia.
Qed.

(** The unchecked ways to the front agree with the others as long as there is something. *)
Lemma front_reads n off b : wf b -> 0 <= n -> 0 <= off ->
  pop_array n b = ztake n (live b) /\
  (off < size b -> index off b = live b !! Z.to_nat off /\ ptr b = Some (head b)) /\
  popBinary8 off b = code <$> live b !! Z.to_nat off.
Proof.
  intros H Hn Ho. pose proof (live_length b H) as Hlen.
  assert (Hi : forall o, 0 <= o < size b -> buf b !! Z.to_nat (head b + o) = live b !! Z.to_nat o).
  { intros o Hlt. pose proof (wf_head _ H). unfold live, read_at, size in *. rewrite lookup_take_lt by lia. rewrite lookup_drop. f_equal. lia. }
  split; [by apply pop_live|]. split.
  - intros Hlt. split; [by apply Hi|]. unfold ptr. rewrite bool_decide_eq_false_2; [done|].
    intros E. specialize (Hi off ltac:(lia)). rewrite E in Hi. symmetry in Hi. rewrite lookup_nil, lookup_ge_None in Hi. unfold zlen in Hlen. lia.
  - unfold popBinary8. destruct (Z.ltb_spec (size b) off), (Z.ltb_spec (size b - off) 1); cbn [orb]; try lia.
    1, 2: rewrite lookup_ge_None_2; [done|unfold zlen in Hlen; lia].
    rewrite read_live by (done || lia). destruct (live b !! Z.to_nat off) as [c|] eqn:E; [|apply lookup_ge_None in E; unfold zlen in Hlen; lia].
    rewrite (drop_S _ _ _ E). change (Z.to_nat 1) with 1%nat. cbn -[Z.mul]. f_equal. rewrite take_0. cbn [le_value]. lia.
Qed.

Lemma copyRange_live a e b :
  wf b -> 0 <= a ->
  copyRange a e b = if (e <? a) || (zlen (live b) <? e) then [] else ztake (e - a) (zdrop a (live b)).
Proof.
  intros H Ha. rewrite live_length by done. unfold copyRange. fold (size b).
  destruct (Z.ltb_spec e a), (Z.ltb_spec (size b) e); cbn [orb]; try done.
  apply read_live; auto; lia.
Qed.

Lemma find_live c off b :
  wf b -> 0 <= off -> find c off b = pos_or_npos (find_char_from c (Z.to_nat off) (live b)).
Proof.
  intros H Ho. pose proof (live_length b H) as Hlen. unfold find. fold (size b).
  destruct (Z.leb_spec (size b) off) as [E|E].
  { unfold find_char_from. rewrite drop_ge by zlen_lia. done. }
  rewrite read_live by (auto; lia). rewrite take_ge by zlen_lia. unfold find_char_from.
  destruct (find_char c (zdrop off (live b))); cbn; [lia|done].
Qed.

Lemma at_live off b : wf b -> 0 <= off -> at_ off b = nth (Z.to_nat off) (live b) (chr 0).
Proof.
  intros H Ho. pose proof (live_length b H). unfold at_. fold (size b).
  destruct (Z.leb_spec (size b) off).
  - rewrite nth_overflow; [done|zlen_lia].
  - apply nth_live; auto.
Qed.

Lemma live_small b : wf b -> zlen (live b) < 2 ^ 63.
Proof. intros H. rewrite live_length by done. open_wf H. lia. Qed.

(** The buffer as the queue the parsers read. *)
#[export] Program Instance Buffer_ByteQueue : ByteQueue Buffer := {
  q_live := live; q_ok := wf; q_size := size; q_find := find; q_at q off := at_ off q;
  q_copyRange q a e := copyRange a e q; q_remove := remove
}.
Next Obligation. intros. by rewrite live_length. Qed.
Next Obligation. intros. by apply find_live. Qed.
Next Obligation. intros. by apply at_live. Qed.
Next Obligation. intros. by apply copyRange_live. Qed.
Next Obligation. intros n q H Hn. destruct (remove_live n q H Hn) as (? & ? & _). done. Qed.
Next Obligation. apply live_small. Qed.

Lemma rfind_loop_live x c b :
  wf b -> (x <= length (live b))%nat ->
  rfind_loop x c b = pos_or_npos (rfind_char c (take x (live b))).
Proof.
  intros H. pose proof (live_length b H) as Hlen. induction x as [|x IH]; intros Hx; [done|].
  cbn [rfind_loop].
  destruct (lookup_lt_is_Some_2 (live b) x ltac:(lia)) as [d Hd].
  rewrite (take_S_r _ _ d Hd), rfind_char_snoc, length_take, Nat.min_l by lia.
  open_wf H. pose proof (nth_live b (Z.of_nat x) H ltac:(unfold zlen, size in *; lia)) as Hn.
  rewrite Nat2Z.id, (nth_lookup_Some _ _ _ _ Hd) in Hn.
  replace (Z.to_nat (head b + Z.of_nat x)) with (Z.to_nat (head b) + x)%nat in Hn by lia.
  rewrite Hn. destruct (Ascii.eqb d c); [done|]. apply IH. lia.
Qed.

Lemma rfind_live c b : wf b -> rfind c b = pos_or_npos (rfind_char c (live b)).
Proof.
  intros H. pose proof (live_length b H) as Hlen. unfold rfind. fold (size b).
  assert (length (live b) = Z.to_nat (size b)) as Hl by (unfold zlen in Hlen; lia).
  destruct (Z.eqb_spec (size b) 0) as [E|E].
  - rewrite E in Hl. destruct (live b); done.
  - rewrite rfind_loop_live by (done || lia). rewrite take_ge by lia. done.
Qed.

Lemma find_str_loop_live fuel c t p b :
  wf b -> 0 <= p -> (Z.to_nat (size b - p) < fuel)%nat ->
  find_str_loop fuel (c :: t) p b =
    Some (pos_or_npos (Nat.add (Z.to_nat p) <$> find_sub (c :: t) (zdrop p (live b)))).
Proof.
  intros H. pose proof (live_length b H) as Hlen. pose proof (live_small b H) as Hsm.
  revert p. induction fuel as [|fuel IH]; intros p Hp Hf; [lia|]. cbn [find_str_loop nth].
  rewrite find_live by done. fold (size b). rewrite find_sub_by_char. unfold find_char_from.
  destruct (find_char c (zdrop p (live b))) as [i|] eqn:Hi; [|done]. cbn [fmap option_fmap option_map].
  pose proof (find_char_lt _ _ _ Hi) as Hlt. rewrite length_drop in Hlt. cbn [pos_or_npos].
  set (found := Z.of_nat (Z.to_nat p + i)).
  assert (found < size b) as Hfound by (unfold found, zlen in *; lia).
  destruct (Z.eqb_spec found npos) as [E|_]; [unfold npos, SIZE_MAX in E; lia|].
  rewrite !drop_drop.
  replace (Z.to_nat p + i)%nat with (Z.to_nat found) by lia.
  replace (Z.to_nat p + S i)%nat with (Z.to_nat (found + 1)) by lia.
  destruct (Z.ltb_spec (size b - found) (zlen (c :: t))) as [Hs|Hs].
  { assert (starts_with (c :: t) (zdrop found (live b)) = false) as ->.
    { destruct (starts_with _ _) eqn:E; [|done]. apply starts_with_spec in E as [r E].
      apply (f_equal zlen) in E. rewrite zlen_drop, zlen_app in E. pose proof (zlen_nonneg r). lia. }
    rewrite find_sub_short; [done|]. rewrite length_drop. unfold zlen in *. lia. }
  rewrite read_live by (auto using zlen_nonneg; lia).
  assert (bool_decide (ztake (zlen (c :: t)) (zdrop found (live b)) = c :: t) =
    starts_with (c :: t) (zdrop found (live b))) as ->.
  { unfold starts_with, zlen. by rewrite Nat2Z.id. }
  destruct (starts_with (c :: t) (zdrop found (live b))).
  - done.
  - rewrite IH by lia. f_equal. f_equal.
    destruct (find_sub (c :: t) (zdrop (found + 1) (live b))); cbn; [f_equal; lia|done].
Qed.

(** ** Binary values *)

Lemma byteswap_loop_spec w n swapped value :
  (n <= w)%nat -> 0 <= swapped < 2 ^ (8 * Z.of_nat (w - n)) -> 0 <= value ->
  byteswap_loop w n swapped value =
    swapped * 2 ^ (8 * Z.of_nat n) + le_value (rev (le_bytes n value)).
Proof.
  revert swapped value. induction n as [|n IH]; intros swapped value Hn Hs Hv; cbn [byteswap_loop].
  { cbn. lia. }
  assert (Z.lor (Z.shiftl swapped 8) (Z.land value 255) = swapped * 256 + value mod 256) as ->.
  { change 255 with (Z.ones 8). rewrite Z.land_ones by lia. apply lor_shift_add; [lia|].
    apply Z.mod_pos_bound. lia. }
  assert (2 ^ (8 * Z.of_nat (w - n)) = 256 * 2 ^ (8 * Z.of_nat (w - S n))) as Hp.
  { rewrite <- pow256_S. do 2 f_equal. lia. }
  assert (2 ^ (8 * Z.of_nat (w - n)) <= 2 ^ (8 * Z.of_nat w)) by (apply Z.pow_le_mono_r; lia).
  pose proof (Z.mod_pos_bound value 256 ltac:(lia)).
  rewrite Z.mod_small by lia. rewrite IH by (lia || (apply Z.shiftr_nonneg; lia)).
  cbn [le_bytes rev]. rewrite le_value_app, length_rev, length_le_bytes, pow256_S.
  rewrite Z.shiftr_div_pow2 by lia. change (2 ^ 8) with 256. cbn [le_value]. rewrite code_chr. lia.
Qed.

(** [byteswap] reverses the order of the bytes. *)
Lemma byteswap_rev w v : 0 <= v -> byteswap w v = le_value (rev (le_bytes w v)).
Proof.
  intros. unfold byteswap. rewrite byteswap_loop_spec; [lia|lia| |lia].
  rewrite Nat.sub_diag. cbn. lia.
Qed.

(** The bytes of a value on the wire. *)
Definition wire (host : bool) (w : nat) (mode : BinaryMode) (v : Z) : bytes :=
  match mode with
  | BigEndian => rev (le_bytes w v)
  | LittleEndian => le_bytes w v
  | NativeEndian => to_array host w v
  end.

Lemma byteswap_bytes w v : 0 <= v -> le_bytes w (byteswap w v) = rev (le_bytes w v).
Proof.
  intros. rewrite byteswap_rev by done.
  pose proof (le_bytes_le_value (rev (le_bytes w v))) as E.
  by rewrite length_rev, length_le_bytes in E.
Qed.

Lemma to_array_reorder host w v mode :
  0 <= v -> to_array host w (reorder host w v mode) = wire host w mode v.
Proof.
  intros. unfold to_array, reorder, wire. destruct host, mode; try done.
  - by rewrite byteswap_bytes, rev_involutive.
  - by apply byteswap_bytes.
Qed.

Lemma of_array_wire host w v mode :
  0 <= v < 2 ^ (8 * Z.of_nat w) ->
  reorder host w (of_array host (wire host w mode v)) mode = v.
Proof.
  intros Hv. unfold wire, reorder, of_array, to_array.
  assert (le_value (le_bytes w v) = v) as E.
  { rewrite le_value_le_bytes. by apply Z.mod_small. }
  assert (byteswap w (le_value (rev (le_bytes w v))) = v) as E'.
  { rewrite byteswap_rev by apply le_value_range.
    pose proof (le_bytes_le_value (rev (le_bytes w v))) as E'.
    rewrite length_rev, length_le_bytes in E'. by rewrite E', rev_involutive. }
  destruct host, mode; rewrite ?rev_involutive; done.
Qed.

Lemma wire_length host w mode v : length (wire host w mode v) = w.
Proof.
  unfold wire, to_array. destruct mode, host; rewrite ?length_rev; apply length_le_bytes.
Qed.

Lemma popBinary_live host w off mode b :
  wf b -> 0 <= off ->
  popBinary host w off mode b =
    if zlen (live b) <? off + Z.of_nat w then None
    else Some (reorder host w (of_array host (take w (zdrop off (live b)))) mode).
Proof.
  intros H Ho. rewrite live_length by done. unfold popBinary.
  destruct (Z.ltb_spec (size b) off), (Z.ltb_spec (size b - off) (Z.of_nat w)),
    (Z.ltb_spec (size b) (off + Z.of_nat w)); cbn [orb]; try lia; try done.
  rewrite read_live by (done || lia). by rewrite Nat2Z.id.
Qed.

(** ** Sequences of operations *)

Inductive op :=
  | OpAppend (data : bytes)
  | OpAppendChar (c : byte)
  | OpAppendBuffer (buffer : Buffer) (n : Z)
  | OpReserve (n : Z)
  | OpRemove (n : Z)
  | OpClear.

(** What the operations take: counts are [size_t], other buffers well formed. *)
Definition op_ok (o : op) : Prop :=
  match o with
  | OpAppendBuffer buffer n => wf buffer /\ 0 <= n
  | OpReserve n | OpRemove n => 0 <= n <= SIZE_MAX
  | _ => True
  end.

Section run.
Variable alloc : Z -> bool.

Definition apply_op (o : op) (b : Buffer) : bool * Buffer :=
  match o with
  | OpAppend data => append alloc data b
  | OpAppendChar c => append_char alloc c b
  | OpAppendBuffer buffer n => append_buffer alloc buffer n b
  | OpReserve n => (true, reserve alloc n b)
  | OpRemove n => (true, remove n b)
  | OpClear => (true, clear b)
  end.

(** The reported successes, and the final buffer. *)
Fixpoint run (ops : list op) (b : Buffer) : list bool * Buffer :=
  match ops with
  | [] => ([], b)
  | o :: ops =>
      let '(ok, b) := apply_op o b in
      let '(oks, b) := run ops b in (ok :: oks, b)
  end.

Lemma append_char_live c b :
  wf b -> exists ok b', append_char alloc c b = (ok, b') /\ wf b' /\
    live b' = live b ++ (if ok then [c] else []).
Proof.
  intros H. unfold append_char.
  assert (exists ok b', (if capasity b <? u64 (len b + 1) then resize alloc 1 b else (true, b)) =
    (ok, b') /\ wf b' /\ live b' = live b /\ (ok = true -> len b' + 1 <= capasity b'))
    as (ok & b' & -> & Hw & Hl & Hok).
  { open_wf H. rewrite SIZE_MAX_u64 by (unfold SIZE_MAX; lia).
    destruct (Z.ltb_spec (zlen (buf b)) (len b + 1)).
    - destruct (resize_spec alloc 1 b H) as (ok & b' & -> & ? & ? & _ & _ & ? & _); [done|]. by exists ok, b'.
    - exists true, b. splits; done || lia. }
  destruct ok; cbn [negb]; [|exists false, b'; by rewrite app_nil_r].
  specialize (Hok eq_refl). destruct (live_store b' [c] Hw Hok) as [Hw' Hl'].
  assert (write_at (buf b') (len b') [c] = <[Z.to_nat (len b') := c]> (buf b')) as E.
  { open_wf Hw. unfold write_at. rewrite insert_take_drop by (unfold zlen in *; lia).
    cbn [app]. do 3 f_equal. unfold zlen. simpl. lia. }
  rewrite E in Hw', Hl'. do 2 eexists. split; [done|]. rewrite <- Hl. done.
Qed.

Lemma reserve_live n b :
  wf b -> 0 <= n <= SIZE_MAX -> wf (reserve alloc n b) /\ live (reserve alloc n b) = live b.
Proof.
  intros H Hn. unfold reserve. destruct (n =? 0); [done|].
  destruct (resize_spec alloc n b H Hn) as (ok & b' & -> & ? & ? & _). done.
Qed.

Lemma append_buffer_live buffer n b :
  wf b -> wf buffer -> 0 <= n ->
  exists ok b', append_buffer alloc buffer n b = (ok, b') /\ wf b' /\
    live b' = live b ++ (if ok then ztake n (live buffer) else []).
Proof.
  intros H Hb Hn. unfold append_buffer. pose proof (live_length _ Hb) as Hlen. open_wf Hb.
  set (k := if len buffer - head buffer <? n then len buffer - head buffer else n).
  assert (0 <= k <= len buffer - head buffer /\ ztake n (live buffer) = ztake k (live buffer))
    as [Hk ->].
  { unfold k. destruct (Z.ltb_spec (len buffer - head buffer) n); [|split; [lia|done]].
    split; [lia|]. rewrite !take_ge; [done|unfold zlen in *; lia..]. }
  destruct (Z.eqb_spec k 0) as [->|H0].
  - do 2 eexists. split; [done|]. by rewrite app_nil_r.
  - pose proof (read_live buffer 0 k Hb) as Hr. rewrite Z.add_0_r in Hr.
    unfold size in Hr. rewrite Hr by lia. clear Hr. rewrite drop_0.
    destruct (append_all_or_nothing alloc (ztake k (live buffer)) b H)
      as (ok & b' & -> & ? & ? & _). eauto.
Qed.
End run.

(** The abstract queue: a plain list, to which a refused append adds nothing. *)
Definition fifo_op (o : op) (ok : bool) (l : bytes) : bytes :=
  match o with
  | OpAppend data => l ++ (if ok then data else [])
  | OpAppendChar c => l ++ (if ok then [c] else [])
  | OpAppendBuffer buffer n => l ++ (if ok then ztake n (live buffer) else [])
  | OpReserve _ => l
  | OpRemove n => zdrop n l
  | OpClear => []
  end.

Fixpoint fifo_run (ops : list op) (oks : list bool) (l : bytes) : bytes :=
  match ops, oks with
  | o :: ops, ok :: oks => fifo_run ops oks (fifo_op o ok l)
  | _, _ => l
  end.

Lemma apply_op_fifo alloc o b :
  wf b -> op_ok o ->
  exists ok b', apply_op alloc o b = (ok, b') /\ wf b' /\ live b' = fifo_op o ok (live b).
Proof.
  intros H Ho. destruct o; cbn [apply_op fifo_op op_ok] in *.
  - destruct (append_all_or_nothing alloc data b H) as (ok & b' & -> & ? & ? & _). eauto.
  - by apply append_char_live.
  - apply append_buffer_live; tauto.
  - do 2 eexists. split; [done|]. by apply reserve_live.
  - destruct (remove_live n b H) as (? & ? & _); [lia|]. eauto.
  - destruct (clear_live b H). eauto.
Qed.

Lemma run_fifo alloc ops b :
  wf b -> Forall op_ok ops ->
  let '(oks, b') := run alloc ops b in
  wf b' /\ length oks = length ops /\ live b' = fifo_run ops oks (live b).
Proof.
  intros H Ho. revert b H. induction Ho as [|o ops Ho _ IH]; intros b H; [done|]. cbn [run].
  destruct (apply_op_fifo alloc o b H Ho) as (ok & b' & -> & Hw & Hl).
  specialize (IH b' Hw). destruct (run alloc ops b') as [oks b'']. cbn [fifo_run length].
  rewrite <- Hl. destruct IH as (? & ? & ?). auto.
Qed.

(** ** Properties *)

(** C25. The buffer refines a FIFO queue of bytes: any sequence of appends,
    reservations, removals and clears, from a new buffer and under any
    allocator, keeps the invariant and leaves exactly the bytes of the list
    model, in which a refused append adds nothing at all. *)
Theorem buffer_refines_fifo alloc ops n (Hn : 0 <= n <= max_size) (Hops : Forall op_ok ops) :
  let '(oks, b) := run alloc ops (new_Buffer n) in
  wf b /\ length oks = length ops /\ live b = fifo_run ops oks [].
Proof.
  destruct (new_Buffer_wf n Hn) as [Hw Hl]. rewrite <- Hl. by apply run_fifo.
Qed.

Definition demo_ops : list op :=
  [OpAppend (lit "hello"); OpRemove 2; OpAppendChar "!"%char; OpReserve 100; OpRemove 1;
   OpAppend (lit "world")].

Lemma buffer_refines_fifo_witness :
  0 <= 4 <= max_size /\ Forall op_ok demo_ops /\
  live (snd (run (fun n => n <? 64) demo_ops (new_Buffer 4))) = lit "lo!world".
Proof.
  split; [done|]. assert (Forall op_ok demo_ops) as Ho by (repeat constructor; done).
  split; [exact Ho|].
  pose proof (buffer_refines_fifo (fun n => n <? 64) demo_ops 4 ltac:(done) Ho) as H.
  destruct (run _ _ _) as [oks b] eqn:E. cbn [snd]. destruct H as (_ & _ & ->).
  assert (oks = fst (run (fun n => n <? 64) demo_ops (new_Buffer 4))) as -> by (by rewrite E).
  vm_compute. reflexivity.
Defined.

(** [append] adds all of its data or none of it: it keeps the invariant and
    the queued bytes, its result says whether the data follows them, and it
    succeeds whenever the allocator grants every size a vector may have and the
    data stays under a quarter of the address space (so the doubling loop
    terminates at a size that fits). *)
Theorem append_spec alloc data b (Hwf : wf b) :
  exists ok b', append alloc data b = (ok, b') /\ wf b' /\
    live b' = live b ++ (if ok then data else []) /\
    (size b + zlen data < 2 ^ 62 -> (forall n, n <= max_size -> alloc n = true) -> ok = true).
Proof.
  destruct (append_all_or_nothing alloc data b Hwf) as (ok & b' & ? & ? & ? & _ & ?).
  by exists ok, b'.
Qed.

Lemma append_spec_witness :
  wf (new_Buffer 2) /\ live (snd (append (fun _ => true) (lit "abcdef") (new_Buffer 2))) = lit "abcdef".
Proof.
  destruct (new_Buffer_wf 2) as [Hw Hl]; [done|]. split; [done|].
  destruct (append_spec (fun _ => true) (lit "abcdef") (new_Buffer 2) Hw) as (ok & b' & -> & _ & E & Hok).
  rewrite Hok in E by done. rewrite Hl in E. exact E.
Defined.

(** The searches and copies of the buffer compute on its live bytes what
    [find], [rfind], substring search, slicing and indexing compute on a
    string, with [npos] for a miss: wherever the live bytes lie in the storage,
    and never reading outside them. *)
Theorem buffer_reads_spec b (Hwf : wf b) :
  zlen (live b) = size b /\
  (forall c off, 0 <= off -> find c off b = pos_or_npos (find_char_from c (Z.to_nat off) (live b))) /\
  (forall c, rfind c b = pos_or_npos (rfind_char c (live b))) /\
  (forall t off, t <> [] -> 0 <= off ->
     find_str t off b =
     Some (pos_or_npos (Nat.add (Z.to_nat off) <$> find_sub t (zdrop off (live b))))) /\
  (forall off, 0 <= off -> at_ off b = nth (Z.to_nat off) (live b) (chr 0)) /\
  (forall off n, 0 <= off -> 0 <= n -> pop_from off n b = ztake n (zdrop off (live b))) /\
  (forall n, 0 <= n -> pop n b = ztake n (live b)) /\
  (forall a e, 0 <= a <= e -> e <= size b -> copyRange a e b = ztake (e - a) (zdrop a (live b))).
Proof.
  pose proof (live_length b Hwf) as Hlen.
  split; [done|]. split; [intros; by apply find_live|]. split; [intros; by apply rfind_live|].
  split; [|split; [intros; by apply at_live|]; split; [intros; by apply pop_from_live|];
    split; [intros; by apply pop_live|]].
  - intros [|c t] off Ht Ho; [done|]. unfold find_str. fold (size b). pose proof (zlen_nonneg t).
    rewrite zlen_cons. zcmp.
    assert (size b - off < zlen (c :: t) -> find_sub (c :: t) (zdrop off (live b)) = None) as Hs.
    { intros Hs. apply find_sub_short. rewrite length_drop. unfold zlen in *. simpl length in *. lia. }
    rewrite zlen_cons in Hs.
    destruct (Z.leb_spec (size b) off) as [E|E]; [by rewrite Hs by lia|].
    destruct (Z.ltb_spec (size b - off) (1 + zlen t)) as [E'|E']; [by rewrite Hs by lia|].
    apply find_str_loop_live; auto; lia.
  - intros a e Ha He. rewrite copyRange_live by (done || lia). zcmp. done.
Qed.

Lemma buffer_reads_spec_witness :
  let b := snd (append (fun _ => true) (lit "GET / HTTP") (new_Buffer 4)) in
  wf b /\ find_str (lit "HTTP") 1 b = Some 6.
Proof.
  cbv zeta. destruct (new_Buffer_wf 4) as [Hw Hl]; [done|].
  destruct (append_all_or_nothing (fun _ => true) (lit "GET / HTTP") _ Hw)
    as (ok & b' & -> & Hw' & E & _ & Hok).
  rewrite Hok, Hl in E by done. split; [exact Hw'|]. cbn [snd].
  destruct (buffer_reads_spec b' Hw') as (_ & _ & _ & Hs & _). rewrite Hs by done.
  rewrite E. vm_compute. reflexivity.
Defined.

(** [appendBinary] puts a 16, 32 or 64-bit number on the wire in the byte
    order asked for, whatever the order of the host, and [popBinary] at its
    position reads it back; [popBinary] fails exactly when fewer bytes than the
    number needs are available at the offset. *)
Theorem binary_roundtrip host alloc w number mode b (Hwf : wf b) (Hw : (w = 2 \/ w = 4 \/ w = 8)%nat)
    (Hnum : 0 <= number < 2 ^ (8 * Z.of_nat w)) :
  exists ok b', appendBinary host alloc w number mode b = (ok, b') /\ wf b' /\
    live b' = live b ++ (if ok then wire host w mode number else []) /\
    (ok = true -> popBinary host w (size b) mode b' = Some number) /\
    (forall off, 0 <= off ->
      (popBinary host w off mode b' = None <-> zlen (live b') < off + Z.of_nat w)).
Proof.
  unfold appendBinary. rewrite to_array_reorder by lia.
  destruct (append_all_or_nothing alloc (wire host w mode number) b Hwf)
    as (ok & b' & -> & Hw' & Hl & _). exists ok, b'. do 3 (split; [done|]). split.
  - intros ->. pose proof (live_length b Hwf) as Hlen. pose proof (zlen_nonneg (live b)).
    rewrite popBinary_live by (done || lia). rewrite Hl, zlen_app, Hlen. unfold zlen at 1.
    rewrite wire_length. zcmp. rewrite drop_app_length' by (unfold zlen in Hlen; lia).
    rewrite take_ge by (by rewrite wire_length). by rewrite of_array_wire.
  - intros off Ho. rewrite popBinary_live by done.
    destruct (Z.ltb_spec (zlen (live b')) (off + Z.of_nat w)); split; done || lia.
Qed.

Lemma binary_roundtrip_witness :
  live (snd (appendBinary false (fun _ => true) 4 0x01020304 BigEndian (new_Buffer 2))) =
    [chr 1; chr 2; chr 3; chr 4] /\
  popBinary false 4 0 BigEndian
    (snd (appendBinary false (fun _ => true) 4 0x01020304 BigEndian (new_Buffer 2))) = Some 0x01020304.
Proof.
  destruct (new_Buffer_wf 2) as [Hw _]; [done|].
  destruct (binary_roundtrip false (fun _ => true) 4 0x01020304 BigEndian (new_Buffer 2) Hw
    ltac:(lia) ltac:(by vm_compute)) as (ok & b' & E & _ & Hl & Hp & _).
  assert (ok = true) as ->.
  { assert (ok = fst (ok, b')) as -> by done. rewrite <- E. vm_compute. reflexivity. }
  rewrite E. cbn [snd]. split; [by rewrite Hl|]. exact (Hp eq_refl).
Defined.

(** ** What the model shows beside the properties *)

(** A [resize] that fails has moved the live bytes to the front already. *)
Lemma failed_resize_compacts :
  let b := mkBuffer (lit "abcdefgh") 3 8 8 in
  let '(ok, b') := resize (fun _ => false) 10 b in
  ok = false /\ head b' = 0 /\ live b' = live b.
Proof. vm_compute. repeat split. Qed.
