(* ===== verification/HttpResponse.v ===== *)
(** * HttpResponse: the incremental parser of [src/io/net/http/response.cpp]

    [Headers], [Response] and [ResponseParser] with its nine states, over any
    [ByteQueue]. The main results are that [parse] always returns, that how the
    stream is cut into reads does not matter, that the configured limits bound
    what is kept, and that well-formed messages come back in full. *)

From S2P Require Import Prelude Strings ByteQueue Buffer.

(** ** Data *)

(* @src src/include/samurai/io/net/http/response.h:36-50 Samurai::IO::Net::HTTP::Status *)
Inductive Status :=
  | Ok | InvalidUrl | ConnectFailed | ConnectTimeout | RequestTimeout | Disconnected
  | MalformedResponse | ResponseTooLarge | TlsFailed | TooManyRedirects | InsecureRedirect
  | Aborted.

(* @src src/include/samurai/io/net/http/response.h:131-131 Samurai::IO::Net::HTTP::ResponseParser::Result *)
Inductive Result := NeedMore | Complete | Error.

(* @src src/include/samurai/io/net/http/response.h:179-190 Samurai::IO::Net::HTTP::ResponseParser::State *)
Inductive State :=
  | StatusLine | HeaderBlock | BodyLength | BodyChunkSize | BodyChunkData | BodyChunkCrlf
  | BodyTrailers | BodyUntilClose | Done.

#[export] Instance Status_eq_dec : EqDecision Status.
Proof. solve_decision. Defined.
#[export] Instance Result_eq_dec : EqDecision Result.
Proof. solve_decision. Defined.
#[export] Instance State_eq_dec : EqDecision State.
Proof. solve_decision. Defined.

(* @src src/include/samurai/io/net/http/response.h:133-139 Samurai::IO::Net::HTTP::ResponseParser::Limits *)
Record Limits := mkLimits {
  maxHeaderBlock : Z;
  maxHeaderCount : Z;
  maxBody : Z;
  maxChunkSize : Z
}.

(* @src src/include/samurai/io/net/http/response.h:135-138 Samurai::IO::Net::HTTP::ResponseParser::Limits *)
Definition default_Limits : Limits := mkLimits (32 * 1024) 100 (1024 * 1024) (1024 * 1024).

(* @src src/include/samurai/io/net/http/response.h:60-91 Samurai::IO::Net::HTTP::Headers *)
Definition Headers : Type := list (bytes * bytes).

(* @src src/include/samurai/io/net/http/response.h:94-118 Samurai::IO::Net::HTTP::Response *)
Record Response := mkResponse {
  status_code : Z;
  reason : bytes;
  headers : Headers;
  body : bytes
}.

(* @src src/include/samurai/io/net/http/response.h:211-220 Samurai::IO::Net::HTTP::ResponseParser *)
Record ResponseParser := mkParser {
  limits : Limits;
  state : State;
  status : Status;
  response : Response;
  header_bytes : Z;
  body_remaining : Z;
  chunk_remaining : Z;
  no_body : bool;
  closed : bool
}.

(** ** Headers *)

Module Headers.
(* @src src/src/io/net/http/response.cpp:100-103 Samurai::IO::Net::HTTP::Headers::add *)
Definition add (name value : bytes) (fields : Headers) : Headers := fields ++ [(name, value)].

(* @src src/src/io/net/http/response.cpp:118-129 Samurai::IO::Net::HTTP::Headers::remove *)
Fixpoint remove (name : bytes) (fields : Headers) : Z * Headers :=
  match fields with
  | [] => (0, [])
  | it :: fields =>
      let '(dropped, kept) := remove name fields in
      if iequals it.1 name then (dropped + 1, kept) else (dropped, it :: kept)
  end.

(* @src src/src/io/net/http/response.cpp:106-115 Samurai::IO::Net::HTTP::Headers::set *)
Definition set (name value : bytes) (fields : Headers) : Headers :=
  add name value (snd (remove name fields)).

(* @src src/src/io/net/http/response.cpp:132-139 Samurai::IO::Net::HTTP::Headers::get *)
Fixpoint get (name : bytes) (fields : Headers) : option bytes :=
  match fields with
  | [] => None
  | (key, value) :: fields => if iequals key name then Some value else get name fields
  end.

(* @src src/src/io/net/http/response.cpp:142-145 Samurai::IO::Net::HTTP::Headers::has *)
Definition has (name : bytes) (fields : Headers) : bool :=
  match get name fields with Some _ => true | None => false end.

(* @src src/src/io/net/http/response.cpp:148-155 Samurai::IO::Net::HTTP::Headers::count *)
Fixpoint count (name : bytes) (fields : Headers) : Z :=
  match fields with
  | [] => 0
  | (key, _) :: fields => (if iequals key name then 1 else 0) + count name fields
  end.
End Headers.

(** ** Numbers *)

(** The loops of [parse_size] and [parse_chunk_size]: [None] is [false]. *)
(* @src src/src/io/net/http/response.cpp:23-30 parse_size *)
Fixpoint parse_size_loop (text : bytes) (value : Z) : option Z :=
  match text with
  | [] => Some value
  | digit :: text =>
      if negb (is_digit digit) then None
      else if (SIZE_MAX - 9) / 10 <? value then None
      else parse_size_loop text (value * 10 + (code digit - code "0"))
  end.

(* @src src/src/io/net/http/response.cpp:18-34 parse_size *)
Definition parse_size (text : bytes) : option Z :=
  match text with [] => None | _ => parse_size_loop text 0 end.

(* @src src/src/io/net/http/response.cpp:47-58 parse_chunk_size *)
Fixpoint parse_hex_loop (text : bytes) (value : Z) : option Z :=
  match text with
  | [] => Some value
  | digit :: text =>
      let c := code digit in
      let d := if (code "0" <=? c) && (c <=? code "9") then c - code "0"
               else if (code "a" <=? c) && (c <=? code "f") then c - code "a" + 10
               else if (code "A" <=? c) && (c <=? code "F") then c - code "A" + 10
               else -1 in
      if d <? 0 then None
      else if (SIZE_MAX - 15) / 16 <? value then None
      else parse_hex_loop text (value * 16 + d)
  end.

(* @src src/src/io/net/http/response.cpp:37-62 parse_chunk_size *)
Definition parse_chunk_size (text : bytes) : option Z :=
  let text := match find_char ";" text with Some semi => take semi text | None => text end in
  let text := trim text in
  match text with [] => None | _ => parse_hex_loop text 0 end.

(** ** Changing one field of the parser *)

Definition with_state (p : ResponseParser) (s : State) : ResponseParser :=
  mkParser (limits p) s (status p) (response p) (header_bytes p) (body_remaining p)
    (chunk_remaining p) (no_body p) (closed p).
Definition with_status (p : ResponseParser) (s : Status) : ResponseParser :=
  mkParser (limits p) (state p) s (response p) (header_bytes p) (body_remaining p)
    (chunk_remaining p) (no_body p) (closed p).
Definition with_response (p : ResponseParser) (r : Response) : ResponseParser :=
  mkParser (limits p) (state p) (status p) r (header_bytes p) (body_remaining p)
    (chunk_remaining p) (no_body p) (closed p).
Definition with_header_bytes (p : ResponseParser) (n : Z) : ResponseParser :=
  mkParser (limits p) (state p) (status p) (response p) n (body_remaining p)
    (chunk_remaining p) (no_body p) (closed p).
Definition with_body_remaining (p : ResponseParser) (n : Z) : ResponseParser :=
  mkParser (limits p) (state p) (status p) (response p) (header_bytes p) n
    (chunk_remaining p) (no_body p) (closed p).
Definition with_chunk_remaining (p : ResponseParser) (n : Z) : ResponseParser :=
  mkParser (limits p) (state p) (status p) (response p) (header_bytes p) (body_remaining p)
    n (no_body p) (closed p).

Definition add_body (p : ResponseParser) (data : bytes) : ResponseParser :=
  let r := response p in
  with_response p (mkResponse (status_code r) (reason r) (headers r) (body r ++ data)).
Definition with_headers (p : ResponseParser) (h : Headers) : ResponseParser :=
  let r := response p in with_response p (mkResponse (status_code r) (reason r) h (body r)).

(* @src src/src/io/net/http/response.cpp:158-164 Samurai::IO::Net::HTTP::Response::clear *)
Definition empty_Response : Response := mkResponse 0 [] [] [].

(* @src src/src/io/net/http/response.cpp:172-175 Samurai::IO::Net::HTTP::ResponseParser::ResponseParser *)
Definition new_ResponseParser (bounds : Limits) : ResponseParser :=
  mkParser bounds StatusLine Ok empty_Response 0 0 0 false false.

(* @src src/src/io/net/http/response.cpp:178-188 Samurai::IO::Net::HTTP::ResponseParser::reset *)
Definition reset (p : ResponseParser) : ResponseParser :=
  mkParser (limits p) StatusLine Ok empty_Response 0 0 0 false false.

(* @src src/include/samurai/io/net/http/response.h:168-168 Samurai::IO::Net::HTTP::ResponseParser::expectNoBody *)
Definition expectNoBody (p : ResponseParser) : ResponseParser :=
  mkParser (limits p) (state p) (status p) (response p) (header_bytes p) (body_remaining p)
    (chunk_remaining p) true (closed p).

(* @src src/src/io/net/http/response.cpp:191-196 Samurai::IO::Net::HTTP::ResponseParser::fail *)
Definition fail (p : ResponseParser) (why : Status) : Result * ResponseParser :=
  (Error, with_status p why).

(* @src src/src/io/net/http/response.cpp:530-546 Samurai::IO::Net::HTTP::ResponseParser::finish *)
Definition finish (p : ResponseParser) : Result * ResponseParser :=
  if negb (bool_decide (status p = Ok)) then (Error, p)
  else if bool_decide (state p = Done) then (Complete, p)
  else
    let p := mkParser (limits p) (state p) (status p) (response p) (header_bytes p)
               (body_remaining p) (chunk_remaining p) (no_body p) true in
    if bool_decide (state p = BodyUntilClose) then (Complete, with_state p Done)
    else fail p Disconnected.

(** The loop over the fields in [chooseBodyFraming]: [None] is a conflict, and
    otherwise the last value seen. *)
(* @src src/src/io/net/http/response.cpp:341-348 Samurai::IO::Net::HTTP::ResponseParser::chooseBodyFraming *)
Fixpoint agreed_length (fields : Headers) (seen : option bytes) : option (option bytes) :=
  match fields with
  | [] => Some seen
  | (key, value) :: fields =>
      if negb (iequals key (lit "Content-Length")) then agreed_length fields seen
      else match seen with
           | Some s => if negb (bool_decide (trim s = trim value)) then None
                       else agreed_length fields (Some value)
           | None => agreed_length fields (Some value)
           end
  end.

(* @src src/src/io/net/http/response.cpp:307-372 Samurai::IO::Net::HTTP::ResponseParser::chooseBodyFraming *)
Definition chooseBodyFraming (p : ResponseParser) : Result * ResponseParser :=
  let code := status_code (response p) in
  let fields := headers (response p) in
  let identity :=
    if Headers.has (lit "Content-Length") fields then
      match agreed_length fields None with
      | None => fail p MalformedResponse
      | Some seen =>
          match parse_size (trim (default [] seen)) with
          | None => fail p MalformedResponse
          | Some length =>
              if maxBody (limits p) <? length then fail p ResponseTooLarge
              else
                let p := with_body_remaining p length in
                if length =? 0 then (Complete, with_state p Done)
                else (NeedMore, with_state p BodyLength)
          end
      end
    else (NeedMore, with_state p BodyUntilClose) in
  if no_body p || ((100 <=? code) && (code <? 200)) || (code =? 204) || (code =? 304)
  then (Complete, with_state p Done)
  else
    match Headers.get (lit "Transfer-Encoding") fields with
    | Some encoding =>
        if iequals (trim encoding) (lit "chunked") then (NeedMore, with_state p BodyChunkSize)
        else if negb (iequals (trim encoding) (lit "identity")) then fail p MalformedResponse
        else identity
    | None => identity
    end.

(** ** The states *)

Section parser.
Context {Q : Type} `{!ByteQueue Q}.

Definition outcome : Type := Result * ResponseParser * Q.

(** The line when [true] is returned, and [too_long]. *)
(* @src src/src/io/net/http/response.cpp:199-226 Samurai::IO::Net::HTTP::ResponseParser::takeLine *)
Definition takeLine (p : ResponseParser) (input : Q) : option bytes * bool * ResponseParser * Q :=
  let lf := q_find ch_lf 0 input in
  if lf =? npos then (None, maxHeaderBlock (limits p) <? q_size input, p, input)
  else if maxHeaderBlock (limits p) <? lf then (None, true, p, input)
  else
    let end_ := if (0 <? lf) && Ascii.eqb (q_at input (lf - 1)) ch_cr then lf - 1 else lf in
    let line := q_copyRange input 0 end_ in
    let input := q_remove (lf + 1) input in
    let p := with_header_bytes p (u64 (header_bytes p + (lf + 1))) in
    (Some line, maxHeaderBlock (limits p) <? header_bytes p, p, input).

(** What the line-based states do around [takeLine]. *)
Definition on_line (p : ResponseParser) (input : Q)
    (k : bytes -> ResponseParser -> Q -> outcome) : outcome :=
  match takeLine p input with
  | (None, too_long, p, input) =>
      if too_long then (fail p ResponseTooLarge, input) else (NeedMore, p, input)
  | (Some line, too_long, p, input) =>
      if too_long then (fail p ResponseTooLarge, input) else k line p input
  end.

(** Skips the spaces from [after] on. *)
(* @src src/src/io/net/http/response.cpp:247-248 Samurai::IO::Net::HTTP::ResponseParser::parseStatusLine *)
Definition skip_spaces (line : bytes) (after : nat) : nat :=
  (length line - length (skip_while (Ascii.eqb " ") (drop after line)))%nat.

(* @src src/src/io/net/http/response.cpp:238-266 Samurai::IO::Net::HTTP::ResponseParser::parseStatusLine *)
Definition read_status_line (line : bytes) (p : ResponseParser) : Result * ResponseParser :=
  if negb (istarts_with line (lit "HTTP/")) then fail p MalformedResponse
  else
    match find_char " " line with
    | None => fail p MalformedResponse
    | Some first =>
        let version := take (first - 5) (drop 5 line) in
        if negb (bool_decide (version = lit "1.0")) && negb (bool_decide (version = lit "1.1"))
        then fail p MalformedResponse
        else
          let after := skip_spaces line first in
          let second := find_char_from " " after line in
          let code := match second with
                      | None => drop after line
                      | Some second => take (second - after) (drop after line)
                      end in
          if negb (length code =? 3)%nat then fail p MalformedResponse
          else match parse_size code with
               | None => fail p MalformedResponse
               | Some value =>
                   if (value <? 100) || (599 <? value) then fail p MalformedResponse
                   else
                     let r := response p in
                     let phrase := match second with
                                   | None => reason r
                                   | Some second => trim (drop (second + 1) line)
                                   end in
                     (NeedMore,
                      with_state (with_response p (mkResponse value phrase (headers r) (body r)))
                        HeaderBlock)
               end
    end.

(* @src src/src/io/net/http/response.cpp:229-267 Samurai::IO::Net::HTTP::ResponseParser::parseStatusLine *)
Definition parseStatusLine (p : ResponseParser) (input : Q) : outcome :=
  on_line p input (fun line p input => (read_status_line line p, input)).

(** One header line that is not empty: [None] in the first place when the
    field was added, and the loop goes on. *)
(* @src src/src/io/net/http/response.cpp:289-302 Samurai::IO::Net::HTTP::ResponseParser::parseHeaderBlock *)
Definition read_header_line (line : bytes) (p : ResponseParser) : option Status * ResponseParser :=
  if Ascii.eqb (nth 0 line (chr 0)) " " || Ascii.eqb (nth 0 line (chr 0)) ch_tab
  then (Some MalformedResponse, p)
  else
    match split_once line ":" with
    | None => (Some MalformedResponse, p)
    | Some (name, value) =>
        if bool_decide (name = []) || negb (bool_decide (trim name = name))
        then (Some MalformedResponse, p)
        else if maxHeaderCount (limits p) <=? zlen (headers (response p))
        then (Some ResponseTooLarge, p)
        else (None, with_headers p (Headers.add name (trim value) (headers (response p))))
    end.

(** The [for(;;)] loops consume a line a round; [None] is the fuel running
    out, which [parse_ok] excludes. *)
(* @src src/src/io/net/http/response.cpp:271-304 Samurai::IO::Net::HTTP::ResponseParser::parseHeaderBlock *)
Fixpoint parseHeaderBlock (fuel : nat) (p : ResponseParser) (input : Q) : option outcome :=
  match fuel with
  | O => None
  | S fuel =>
      match takeLine p input with
      | (None, too_long, p, input) =>
          Some (if too_long then (fail p ResponseTooLarge, input) else (NeedMore, p, input))
      | (Some _, true, p, input) => Some (fail p ResponseTooLarge, input)
      | (Some [], false, p, input) => Some (chooseBodyFraming p, input)
      | (Some line, false, p, input) =>
          match read_header_line line p with
          | (Some why, p) => Some (fail p why, input)
          | (None, p) => parseHeaderBlock fuel p input
          end
      end
  end.

(* @src src/src/io/net/http/response.cpp:376-389 Samurai::IO::Net::HTTP::ResponseParser::parseBodyLength *)
Definition parseBodyLength (p : ResponseParser) (input : Q) : outcome :=
  if q_size input =? 0 then (NeedMore, p, input)
  else
    let take := if q_size input <? body_remaining p then q_size input else body_remaining p in
    let p := add_body p (q_copyRange input 0 take) in
    let input := q_remove take input in
    let p := with_body_remaining p (body_remaining p - take) in
    if negb (body_remaining p =? 0) then (NeedMore, p, input)
    else (Complete, with_state p Done, input).

(* @src src/src/io/net/http/response.cpp:401-414 Samurai::IO::Net::HTTP::ResponseParser::parseChunkSize *)
Definition read_chunk_size (line : bytes) (p : ResponseParser) : Result * ResponseParser :=
  match parse_chunk_size line with
  | None => fail p MalformedResponse
  | Some size =>
      if maxChunkSize (limits p) <? size then fail p ResponseTooLarge
      else if maxBody (limits p) <? u64 (zlen (body (response p)) + size)
      then fail p ResponseTooLarge
      else if size =? 0 then (NeedMore, with_state p BodyTrailers)
      else (NeedMore, with_state (with_chunk_remaining p size) BodyChunkData)
  end.

(* @src src/src/io/net/http/response.cpp:393-415 Samurai::IO::Net::HTTP::ResponseParser::parseChunkSize *)
Definition parseChunkSize (p : ResponseParser) (input : Q) : outcome :=
  on_line p input (fun line p input => (read_chunk_size line p, input)).

(* @src src/src/io/net/http/response.cpp:419-432 Samurai::IO::Net::HTTP::ResponseParser::parseChunkData *)
Definition parseChunkData (p : ResponseParser) (input : Q) : outcome :=
  if q_size input =? 0 then (NeedMore, p, input)
  else
    let take := if q_size input <? chunk_remaining p then q_size input else chunk_remaining p in
    let p := add_body p (q_copyRange input 0 take) in
    let input := q_remove take input in
    let p := with_chunk_remaining p (chunk_remaining p - take) in
    if negb (chunk_remaining p =? 0) then (NeedMore, p, input)
    else (NeedMore, with_state p BodyChunkCrlf, input).

(* @src src/src/io/net/http/response.cpp:436-449 Samurai::IO::Net::HTTP::ResponseParser::parseChunkCrlf *)
Definition parseChunkCrlf (p : ResponseParser) (input : Q) : outcome :=
  on_line p input (fun line p input =>
    (if negb (bool_decide (line = [])) then fail p MalformedResponse
     else (NeedMore, with_state p BodyChunkSize), input)).

(* @src src/src/io/net/http/response.cpp:454-470 Samurai::IO::Net::HTTP::ResponseParser::parseTrailers *)
Fixpoint parseTrailers (fuel : nat) (p : ResponseParser) (input : Q) : option outcome :=
  match fuel with
  | O => None
  | S fuel =>
      match takeLine p input with
      | (None, too_long, p, input) =>
          Some (if too_long then (fail p ResponseTooLarge, input) else (NeedMore, p, input))
      | (Some _, true, p, input) => Some (fail p ResponseTooLarge, input)
      | (Some [], false, p, input) => Some (Complete, with_state p Done, input)
      | (Some _, false, p, input) => parseTrailers fuel p input
      end
  end.

(* @src src/src/io/net/http/response.cpp:474-489 Samurai::IO::Net::HTTP::ResponseParser::parseBodyUntilClose *)
Definition parseBodyUntilClose (p : ResponseParser) (input : Q) : outcome :=
  let size := q_size input in
  if negb (size =? 0) && (maxBody (limits p) <? u64 (zlen (body (response p)) + size))
  then (fail p ResponseTooLarge, input)
  else
    let '(p, input) := if negb (size =? 0)
                       then (add_body p (q_copyRange input 0 size), q_remove size input)
                       else (p, input) in
    if negb (closed p) then (NeedMore, p, input) else (Complete, with_state p Done, input).

(** The [switch]. *)
(* @src src/src/io/net/http/response.cpp:510-521 Samurai::IO::Net::HTTP::ResponseParser::parse *)
Definition dispatch (p : ResponseParser) (input : Q) : option outcome :=
  let fuel := S (length (q_live input)) in
  match state p with
  | StatusLine => Some (parseStatusLine p input)
  | HeaderBlock => parseHeaderBlock fuel p input
  | BodyLength => Some (parseBodyLength p input)
  | BodyChunkSize => Some (parseChunkSize p input)
  | BodyChunkData => Some (parseChunkData p input)
  | BodyChunkCrlf => Some (parseChunkCrlf p input)
  | BodyTrailers => parseTrailers fuel p input
  | BodyUntilClose => Some (parseBodyUntilClose p input)
  | Done => Some (Complete, p, input)
  end.

(* @src src/src/io/net/http/response.cpp:497-526 Samurai::IO::Net::HTTP::ResponseParser::parse *)
Fixpoint parse_loop (fuel : nat) (p : ResponseParser) (input : Q) : option outcome :=
  match fuel with
  | O => None
  | S fuel =>
      let before := state p in
      let available := q_size input in
      match dispatch p input with
      | None => None
      | Some (result, p, input) =>
          if negb (bool_decide (result = NeedMore)) then Some (result, p, input)
          else if bool_decide (state p = before) && (q_size input =? available)
          then Some (NeedMore, p, input)
          else parse_loop fuel p input
      end
  end.

(** Every further round of the loop has consumed a byte. *)
(* @src src/src/io/net/http/response.cpp:493-527 Samurai::IO::Net::HTTP::ResponseParser::parse *)
Definition parse (p : ResponseParser) (input : Q) : option outcome :=
  if negb (bool_decide (status p = Ok)) then Some (Error, p, input)
  else parse_loop (S (length (q_live input))) p input.
End parser.

(** ** Any queue behaves as the list of its bytes *)

Section lower.
Context {Q : Type} `{!ByteQueue Q}.

Definition lowers (o : option (outcome (Q := Q))) (ob : option (outcome (Q := bytes))) : Prop :=
  match o with
  | None => ob = None
  | Some (r, p, q) => ob = Some (r, p, q_live q) /\ q_ok q
  end.

Lemma takeLine_lower p q :
  q_ok q -> exists l tl p' q', takeLine p q = (l, tl, p', q') /\
    takeLine p (q_live q) = (l, tl, p', q_live q') /\ q_ok q'.
Proof.
  intros H. pose proof (q_small q H) as Hs. unfold takeLine.
  rewrite q_find_ok by (done || lia). rewrite (q_find_ok (Q := bytes)) by (done || lia).
  rewrite (q_size_ok q) by done. cbn [q_live q_size q_remove q_at q_copyRange bytes_ByteQueue].
  set (lf := pos_or_npos _).
  assert (0 <= lf) by (unfold lf, pos_or_npos, npos, SIZE_MAX; destruct (find_char_from _ _ _); lia).
  destruct (lf =? npos); [by do 4 eexists|].
  destruct (maxHeaderBlock (limits p) <? lf); [by do 4 eexists|].
  destruct (q_remove_ok (lf + 1) q H ltac:(lia)) as [Hok Hl]. rewrite <- Hl.
  assert ((0 <? lf) && Ascii.eqb (q_at q (lf - 1)) ch_cr =
    (0 <? lf) && Ascii.eqb (nth (Z.to_nat (lf - 1)) (q_live q) (chr 0)) ch_cr) as ->.
  { destruct (Z.ltb_spec 0 lf); [|done]. by rewrite q_at_ok by (done || lia). }
  rewrite q_copyRange_ok by (done || lia). by do 4 eexists.
Qed.

Ltac lower_line p q H :=
  let l := fresh "l" in let tl := fresh "tl" in let p' := fresh "p'" in
  let q' := fresh "q'" in let E1 := fresh in let E2 := fresh in
  destruct (takeLine_lower p q H) as (l & tl & p' & q' & E1 & E2 & ?);
  rewrite E1, E2; clear E1 E2.

Lemma on_line_lower p q (f : bytes -> ResponseParser -> Result * ResponseParser) :
  q_ok q ->
  lowers (Some (on_line p q (fun line p q => (f line p, q))))
    (Some (on_line p (q_live q) (fun line p q => (f line p, q)))).
Proof.
  intros H. unfold on_line. lower_line p q H.
  destruct l as [line|], tl; cbn; try done. by destruct (f line p').
Qed.

(** Consuming [n] bytes off the front. *)
Lemma consume_lower q n :
  q_ok q -> 0 <= n <= zlen (q_live q) ->
  q_copyRange q 0 n = ztake n (q_live q) /\ q_live (q_remove n q) = zdrop n (q_live q) /\
  q_ok (q_remove n q) /\ q_copyRange (q_live q) 0 n = ztake n (q_live q).
Proof.
  intros H Hn. destruct (q_remove_ok n q H) as [? ?]; [lia|].
  rewrite q_copyRange_ok by (done || lia). cbn [q_copyRange bytes_ByteQueue].
  zcmp. rewrite Z.sub_0_r, drop_0. done.
Qed.

Lemma header_lower fuel p q :
  q_ok q -> lowers (parseHeaderBlock fuel p q) (parseHeaderBlock fuel p (q_live q)).
Proof.
  revert p q. induction fuel as [|fuel IH]; intros p q H; [done|]. cbn [parseHeaderBlock].
  lower_line p q H. destruct l as [[|c l]|], tl; try done.
  - cbn. by destruct (chooseBodyFraming p').
  - destruct (read_header_line (c :: l) p') as [[why|] p'']; [done|]. by apply IH.
Qed.

Lemma trailers_lower fuel p q :
  q_ok q -> lowers (parseTrailers fuel p q) (parseTrailers fuel p (q_live q)).
Proof.
  revert p q. induction fuel as [|fuel IH]; intros p q H; [done|]. cbn [parseTrailers].
  lower_line p q H. destruct l as [[|c l]|], tl; try done. by apply IH.
Qed.

Lemma dispatch_lower p q :
  q_ok q -> 0 <= body_remaining p -> 0 <= chunk_remaining p ->
  lowers (dispatch p q) (dispatch p (q_live q)).
Proof.
  intros H Hb Hc. unfold dispatch. pose proof (zlen_nonneg (q_live q)).
  destruct (state p); try (by apply on_line_lower).
  - by apply header_lower.
  - unfold parseBodyLength. rewrite (q_size_ok q) by done. cbn [q_size bytes_ByteQueue q_remove].
    destruct (zlen (q_live q) =? 0); [done|].
    set (n := if _ <? _ then _ else _).
    destruct (consume_lower q n H) as (-> & E & ? & ->).
    { unfold n. destruct (Z.ltb_spec (zlen (q_live q)) (body_remaining p)); lia. }
    rewrite <- E. destruct (negb _); done.
  - unfold parseChunkData. rewrite (q_size_ok q) by done. cbn [q_size bytes_ByteQueue q_remove].
    destruct (zlen (q_live q) =? 0); [done|].
    set (n := if _ <? _ then _ else _).
    destruct (consume_lower q n H) as (-> & E & ? & ->).
    { unfold n. destruct (Z.ltb_spec (zlen (q_live q)) (chunk_remaining p)); lia. }
    rewrite <- E. destruct (negb _); done.
  - by apply trailers_lower.
  - unfold parseBodyUntilClose. rewrite (q_size_ok q) by done.
    cbn [q_size bytes_ByteQueue q_remove].
    destruct (negb (zlen (q_live q) =? 0) && _); [done|].
    destruct (consume_lower q (zlen (q_live q)) H) as (-> & E & ? & ->); [lia|].
    rewrite <- E. destruct (negb (_ =? 0)); [set (p' := add_body p _)|set (p' := p)];
      destruct (negb (closed p')); done.
  - done.
Qed.
End lower.

(** ** Rounds on lists

    One round of [parse] as a small step: it waits for input, stops with a
    result, or goes on having consumed something. *)

Inductive round :=
  | Wait
  | Stop (r : Result) (p : ResponseParser) (a : bytes)
  | Go (p : ResponseParser) (a : bytes).

(** The line of a line feed: what precedes it, less one carriage return. *)
Definition strip_cr (l : bytes) : bytes :=
  match rev l with c :: m => if Ascii.eqb c ch_cr then rev m else l | [] => [] end.

Definition is_line_state (s : State) : bool :=
  match s with
  | StatusLine | HeaderBlock | BodyChunkSize | BodyChunkCrlf | BodyTrailers => true
  | _ => false
  end.

(** What each line-based state makes of a line. *)
Definition read_line (line : bytes) (p : ResponseParser) : Result * ResponseParser :=
  match state p with
  | StatusLine => read_status_line line p
  | HeaderBlock =>
      match line with
      | [] => chooseBodyFraming p
      | _ => match read_header_line line p with
             | (Some why, p) => fail p why
             | (None, p) => (NeedMore, p)
             end
      end
  | BodyChunkSize => read_chunk_size line p
  | BodyChunkCrlf => if negb (bool_decide (line = [])) then fail p MalformedResponse
                     else (NeedMore, with_state p BodyChunkSize)
  | _ => match line with [] => (Complete, with_state p Done) | _ => (NeedMore, p) end
  end.

Definition as_round (o : outcome (Q := bytes)) : round :=
  match o with
  | (NeedMore, p, a) => Go p a
  | (r, p, a) => Stop r p a
  end.

Definition one (p : ResponseParser) (a : bytes) : round :=
  if is_line_state (state p) then
    match takeLine p a with
    | (None, too_long, p, a) =>
        if too_long then Stop Error (with_status p ResponseTooLarge) a else Wait
    | (Some line, true, p, a) => Stop Error (with_status p ResponseTooLarge) a
    | (Some line, false, p, a) => let '(r, p) := read_line line p in as_round (r, p, a)
    end
  else
    match state p with
    | BodyLength => if zlen a =? 0 then Wait else as_round (parseBodyLength p a)
    | BodyChunkData => if zlen a =? 0 then Wait else as_round (parseChunkData p a)
    | BodyUntilClose =>
        if (zlen a =? 0) && negb (closed p) then Wait else as_round (parseBodyUntilClose p a)
    | _ => Stop Complete p a
    end.

(** Rounds up to the end of a call of [parse]. *)
Inductive rounds : ResponseParser -> bytes -> Result -> ResponseParser -> bytes -> Prop :=
  | rounds_wait p a : one p a = Wait -> rounds p a NeedMore p a
  | rounds_stop p a r p' a' : one p a = Stop r p' a' -> rounds p a r p' a'
  | rounds_go p a p1 a1 r p' a' :
      one p a = Go p1 a1 -> rounds p1 a1 r p' a' -> rounds p a r p' a'.

Lemma rounds_det p a r p' a' r2 p2 a2 :
  rounds p a r p' a' -> rounds p a r2 p2 a2 -> (r2, p2, a2) = (r, p', a').
Proof.
  intros H. revert r2 p2 a2. induction H as [p a E|p a r p' a' E|p a p1 a1 r p' a' E _ IH];
    intros r2 p2 a2 H2; inversion H2; subst; try congruence.
  apply IH. congruence.
Qed.

(** [takeLine] on a list, by the position of the line feed. *)
Lemma takeLine_none p a :
  zlen a < 2 ^ 63 -> ch_lf ∉ a -> takeLine p a = (None, maxHeaderBlock (limits p) <? zlen a, p, a).
Proof.
  intros Hs H. unfold takeLine. cbn [q_find q_size bytes_ByteQueue]. unfold find_char_from.
  change (Z.to_nat 0) with 0%nat. rewrite drop_0, (proj2 (find_char_None _ _) H). cbn.
  by destruct (npos =? npos) eqn:E.
Qed.

Lemma strip_cr_spec l :
  ztake (if (0 <? zlen l) && Ascii.eqb (nth (Z.to_nat (zlen l - 1)) l (chr 0)) ch_cr
         then zlen l - 1 else zlen l) l = strip_cr l.
Proof.
  unfold strip_cr. destruct l as [|c l _] using rev_ind; [done|].
  rewrite rev_app_distr, zlen_app. cbn [rev app]. change (zlen [c]) with 1.
  pose proof (zlen_nonneg l). zcmp.
  replace (Z.to_nat (zlen l + 1 - 1)) with (length l + 0)%nat by (unfold zlen; lia).
  rewrite app_nth2_plus. cbn [nth]. destruct (Ascii.eqb c ch_cr).
  - rewrite rev_involutive, take_app_le by (unfold zlen; lia). apply take_ge. unfold zlen. lia.
  - apply take_ge. rewrite length_app. unfold zlen. simpl. lia.
Qed.

Lemma takeLine_some p l r :
  zlen (l ++ ch_lf :: r) < 2 ^ 63 -> ch_lf ∉ l ->
  takeLine p (l ++ ch_lf :: r) =
    if maxHeaderBlock (limits p) <? zlen l then (None, true, p, l ++ ch_lf :: r)
    else let p' := with_header_bytes p (u64 (header_bytes p + (zlen l + 1))) in
         (Some (strip_cr l), maxHeaderBlock (limits p) <? header_bytes p', p', r).
Proof.
  intros Hs H. rewrite zlen_app, zlen_cons in Hs. pose proof (zlen_nonneg l). pose proof (zlen_nonneg r).
  unfold takeLine. cbn [q_find q_size q_remove q_at q_copyRange bytes_ByteQueue].
  unfold find_char_from. change (Z.to_nat 0) with 0%nat.
  rewrite drop_0, find_char_app_here by done. cbn [fmap option_fmap option_map pos_or_npos Nat.add].
  fold (zlen l). unfold npos, SIZE_MAX. zcmp.
  destruct (maxHeaderBlock (limits p) <? zlen l); [done|]. cbv zeta.
  assert ((0 <? zlen l) && Ascii.eqb (nth (Z.to_nat (zlen l - 1)) (l ++ ch_lf :: r) (chr 0)) ch_cr =
    (0 <? zlen l) && Ascii.eqb (nth (Z.to_nat (zlen l - 1)) l (chr 0)) ch_cr) as ->.
  { destruct (Z.ltb_spec 0 (zlen l)); [|done]. by rewrite app_nth1 by (unfold zlen in *; lia). }
  pose proof (strip_cr_spec l) as E. revert E.
  set (e := if _ && _ then _ else _).
  assert (0 <= e <= zlen l) as He.
  { unfold e. destruct (Z.ltb_spec 0 (zlen l)); cbn [andb]; [|lia]. destruct (Ascii.eqb _ _); lia. }
  clearbody e. intros <-. rewrite zlen_app, zlen_cons. zcmp.
  rewrite Z.sub_0_r, take_app_le by (unfold zlen in *; lia).
  replace (Z.to_nat (zlen l + 1)) with (length l + 1)%nat by (unfold zlen; lia).
  by rewrite <- drop_drop, drop_app_length.
Qed.

(** A list either has a line or has none. *)
Lemma line_cases a : ch_lf ∉ a \/ exists l r, a = l ++ ch_lf :: r /\ ch_lf ∉ l.
Proof.
  destruct (find_char ch_lf a) as [i|] eqn:E.
  - right. apply find_char_Some in E as (l & r & -> & _ & Hl). eauto.
  - left. by apply find_char_None.
Qed.

(** Case analysis on whether [a] holds a line, with [takeLine] computed. *)
Ltac line_cases p a Hs :=
  let l := fresh "l" in let r := fresh "rest" in let Hl := fresh "Hl" in
  destruct (line_cases a) as [Hl|(l & r & -> & Hl)];
  [rewrite (takeLine_none p a Hs Hl)|rewrite (takeLine_some p l r Hs Hl)].

(** ** The parser's invariant *)

Record limits_ok (l : Limits) : Prop := {
  lim_block : 0 <= maxHeaderBlock l < 2 ^ 62;
  lim_count : 0 <= maxHeaderCount l;
  lim_body : 0 <= maxBody l < 2 ^ 62;
  lim_chunk : 0 <= maxChunkSize l < 2 ^ 62
}.

(** What is kept is within the limits, and what is still promised will be. *)
Record inv (p : ResponseParser) : Prop := {
  inv_limits : limits_ok (limits p);
  inv_block : status p = Ok -> 0 <= header_bytes p <= maxHeaderBlock (limits p);
  inv_count : zlen (headers (response p)) <= maxHeaderCount (limits p);
  inv_body : zlen (body (response p)) <= maxBody (limits p);
  inv_remaining : 0 <= body_remaining p /\ 0 <= chunk_remaining p;
  inv_length : state p = BodyLength ->
    0 < body_remaining p /\ zlen (body (response p)) + body_remaining p <= maxBody (limits p);
  inv_chunk : state p = BodyChunkData ->
    0 < chunk_remaining p /\ zlen (body (response p)) + chunk_remaining p <= maxBody (limits p);
  inv_empty : state p = StatusLine \/ state p = HeaderBlock -> body (response p) = [];
  inv_closed : status p = Ok -> closed p = true -> state p = Done
}.

(** A result and the parser it leaves. *)
Definition settled (r : Result) (p p' : ResponseParser) : Prop :=
  inv p' /\ limits p' = limits p /\
  match r with
  | NeedMore => status p' = Ok
  | Complete => status p' = Ok /\ state p' = Done
  | Error => status p' <> Ok
  end.

Definition settled_pair (p : ResponseParser) (o : Result * ResponseParser) : Prop :=
  settled (fst o) p (snd o).

(** Proves the invariant of a parser built by [with_] functions. *)
Ltac solve_inv H :=
  let Hl := fresh "Hl" in
  pose proof (inv_limits _ H) as Hl; pose proof (lim_block _ Hl); pose proof (lim_body _ Hl);
  pose proof (inv_count _ H); pose proof (inv_body _ H); pose proof (inv_remaining _ H);
  pose proof (inv_block _ H); pose proof (inv_length _ H); pose proof (inv_chunk _ H);
  pose proof (inv_empty _ H); pose proof (inv_closed _ H);
  constructor; cbn in *; intros; try congruence; try tauto; try lia;
  intuition (congruence || lia).

Lemma inv_fail p why :
  inv p -> why <> Ok -> settled_pair p (fail p why).
Proof. intros H Hw. split; [|done]. solve_inv H. Qed.

Lemma inv_done p : inv p -> status p = Ok -> settled_pair p (Complete, with_state p Done).
Proof.
  intros H Hs. split; [|done]. solve_inv H.
Qed.

(** Moving to a state that promises nothing. *)
Lemma inv_to p s :
  inv p -> status p = Ok -> closed p = false ->
  s = BodyChunkSize \/ s = BodyChunkCrlf \/ s = BodyTrailers \/ s = BodyUntilClose ->
  settled_pair p (NeedMore, with_state p s).
Proof.
  intros H Hs Hc Hn. split; [|done].
  destruct Hn as [-> | [-> | [-> | ->]]]; solve_inv H.
Qed.

Lemma parse_size_loop_nonneg text v n : 0 <= v -> parse_size_loop text v = Some n -> 0 <= n.
Proof.
  revert v. induction text as [|c text IH]; cbn; intros v Hv H; [by simplify_eq|].
  destruct (is_digit c) eqn:Hc; cbn in H; [|done]. destruct (_ <? v); [done|].
  apply IH in H; [done|]. apply is_digit_of in Hc. unfold digit_of in Hc.
  change (code "0") with 48 in *. lia.
Qed.

Lemma parse_size_nonneg text n : parse_size text = Some n -> 0 <= n.
Proof. destruct text; [done|]. by apply parse_size_loop_nonneg. Qed.

Lemma parse_hex_loop_nonneg text v n : 0 <= v -> parse_hex_loop text v = Some n -> 0 <= n.
Proof.
  revert v. induction text as [|c text IH]; cbn [parse_hex_loop]; intros v Hv H; [by simplify_eq|].
  cbv zeta in H. destruct (_ <? 0) eqn:Hd in H; [done|]. destruct (_ <? v); [done|].
  apply Z.ltb_ge in Hd. apply IH in H; [done|]. lia.
Qed.

Lemma parse_chunk_size_nonneg text n : parse_chunk_size text = Some n -> 0 <= n.
Proof.
  unfold parse_chunk_size. destruct (trim _); [done|]. by apply parse_hex_loop_nonneg.
Qed.

Lemma chooseBodyFraming_settled p :
  inv p -> status p = Ok -> closed p = false -> state p = HeaderBlock ->
  settled_pair p (chooseBodyFraming p).
Proof.
  intros H Hs Hc Hst. pose proof (inv_empty p H (or_intror Hst)) as Hb.
  pose proof (lim_body _ (inv_limits p H)) as Hmax.
  unfold chooseBodyFraming. cbv zeta.
  set (identity := if Headers.has _ _ then _ else _).
  assert (settled_pair p identity) as Hid.
  { unfold identity. destruct (Headers.has _ _); [|by apply inv_to; auto].
    destruct (agreed_length _ _) as [seen|]; [|by apply inv_fail].
    destruct (parse_size _) as [n|] eqn:En; [|by apply inv_fail].
    apply parse_size_nonneg in En.
    destruct (Z.ltb_spec (maxBody (limits p)) n); [by apply inv_fail|].
    destruct (Z.eqb_spec n 0); (split; [|done]).
    - solve_inv H.
    - cbn [fst snd]. assert (zlen (body (response p)) = 0) by (by rewrite Hb). solve_inv H. }
  clearbody identity. destruct (_ || _ || _); [by apply inv_done|].
  destruct (Headers.get _ _) as [e|]; [|done].
  destruct (iequals _ _); [by apply inv_to; auto|].
  destruct (negb _); [by apply inv_fail|done].
Qed.

Lemma read_header_line_settled line p :
  inv p -> status p = Ok ->
  match read_header_line line p with
  | (Some why, p') => settled_pair p (fail p' why)
  | (None, p') => settled_pair p (NeedMore, p') /\ state p' = state p /\ closed p' = closed p
  end.
Proof.
  intros H Hs. unfold read_header_line. destruct (_ || _); [by apply inv_fail|].
  destruct (split_once line ":") as [[name value]|]; [|by apply inv_fail].
  destruct (_ || _); [by apply inv_fail|].
  destruct (Z.leb_spec (maxHeaderCount (limits p)) (zlen (headers (response p)))); [by apply inv_fail|].
  split; [|done]. split; [|done]. cbn [snd].
  assert (zlen (Headers.add name (trim value) (headers (response p))) =
    zlen (headers (response p)) + 1).
  { unfold Headers.add. by rewrite zlen_app. }
  solve_inv H.
Qed.

Lemma read_status_line_settled line p :
  inv p -> status p = Ok -> state p = StatusLine -> settled_pair p (read_status_line line p).
Proof.
  intros H Hs Hst. unfold read_status_line. cbv zeta.
  destruct (negb _); [by apply inv_fail|].
  destruct (find_char _ _); [|by apply inv_fail].
  destruct (_ && _); [by apply inv_fail|].
  destruct (negb _); [by apply inv_fail|].
  destruct (parse_size _); [|by apply inv_fail].
  destruct (_ || _); [by apply inv_fail|].
  split; [|done]. solve_inv H.
Qed.

Lemma read_chunk_size_settled line p :
  inv p -> status p = Ok -> closed p = false -> settled_pair p (read_chunk_size line p).
Proof.
  intros H Hs Hc. unfold read_chunk_size.
  pose proof (lim_chunk _ (inv_limits p H)). pose proof (lim_body _ (inv_limits p H)).
  pose proof (inv_body p H). pose proof (zlen_nonneg (body (response p))).
  destruct (parse_chunk_size line) as [n|] eqn:En; [|by apply inv_fail].
  apply parse_chunk_size_nonneg in En.
  destruct (Z.ltb_spec (maxChunkSize (limits p)) n); [by apply inv_fail|].
  unfold u64. rewrite Z.mod_small by lia.
  destruct (Z.ltb_spec (maxBody (limits p)) (zlen (body (response p)) + n)); [by apply inv_fail|].
  destruct (Z.eqb_spec n 0); [by apply inv_to; auto|].
  split; [|done]. cbn [fst snd]. solve_inv H.
Qed.

Lemma read_line_settled line p :
  inv p -> status p = Ok -> is_line_state (state p) = true -> settled_pair p (read_line line p).
Proof.
  intros H Hs Hl. assert (closed p = false) as Hc.
  { destruct (closed p) eqn:E; [|done]. by rewrite (inv_closed p H Hs E) in Hl. }
  unfold read_line. destruct (state p) eqn:Hst; try done.
  - by apply read_status_line_settled.
  - destruct line as [|c line]; [by apply chooseBodyFraming_settled|].
    pose proof (read_header_line_settled (c :: line) p H Hs) as Hr.
    destruct (read_header_line (c :: line) p) as [[why|] p']; [done|]. by destruct Hr as [Hr _].
  - by apply read_chunk_size_settled.
  - destruct (negb _); [by apply inv_fail|]. apply inv_to; auto.
  - destruct line; [by apply inv_done|]. by split.
Qed.

(** ** The rounds that copy data *)

Lemma one_body_length p a :
  state p = BodyLength -> 0 < body_remaining p -> a <> [] ->
  one p a =
    if zlen a <? body_remaining p
    then Go (with_body_remaining (add_body p a) (body_remaining p - zlen a)) []
    else Stop Complete (with_state (with_body_remaining (add_body p (ztake (body_remaining p) a)) 0) Done)
           (zdrop (body_remaining p) a).
Proof.
  intros Hst Hr Ha. unfold one, parseBodyLength. rewrite Hst. cbn [is_line_state].
  cbn [q_size q_copyRange q_remove bytes_ByteQueue].
  assert (0 < zlen a) by (destruct a; [done|zlen_lia]). zcmp.
  destruct (Z.ltb_spec (zlen a) (body_remaining p)).
  - zcmp. rewrite Z.sub_0_r, drop_0, take_ge, drop_ge by (unfold zlen; lia). cbn. zcmp. done.
  - zcmp. rewrite Z.sub_0_r, drop_0. cbn. rewrite Z.sub_diag. done.
Qed.

Lemma one_chunk_data p a :
  state p = BodyChunkData -> 0 < chunk_remaining p -> a <> [] ->
  one p a =
    if zlen a <? chunk_remaining p
    then Go (with_chunk_remaining (add_body p a) (chunk_remaining p - zlen a)) []
    else Go (with_state (with_chunk_remaining (add_body p (ztake (chunk_remaining p) a)) 0) BodyChunkCrlf)
           (zdrop (chunk_remaining p) a).
Proof.
  intros Hst Hr Ha. unfold one, parseChunkData. rewrite Hst. cbn [is_line_state].
  cbn [q_size q_copyRange q_remove bytes_ByteQueue].
  assert (0 < zlen a) by (destruct a; [done|zlen_lia]). zcmp.
  destruct (Z.ltb_spec (zlen a) (chunk_remaining p)).
  - zcmp. rewrite Z.sub_0_r, drop_0, take_ge, drop_ge by (unfold zlen; lia). cbn. zcmp. done.
  - zcmp. rewrite Z.sub_0_r, drop_0. cbn. rewrite Z.sub_diag. done.
Qed.

Lemma one_until_close p a :
  inv p -> state p = BodyUntilClose -> status p = Ok -> a <> [] -> zlen a < 2 ^ 63 ->
  one p a =
    if maxBody (limits p) <? zlen (body (response p)) + zlen a
    then Stop Error (with_status p ResponseTooLarge) a
    else Go (add_body p a) [].
Proof.
  intros H Hst Hok Ha Hs. unfold one, parseBodyUntilClose. rewrite Hst. cbn [is_line_state].
  cbn [q_size q_copyRange q_remove bytes_ByteQueue].
  assert (closed p = false) as Hc.
  { destruct (closed p) eqn:E; [|done]. by rewrite (inv_closed p H Hok E) in Hst. }
  pose proof (lim_body _ (inv_limits p H)). pose proof (inv_body p H).
  pose proof (zlen_nonneg (body (response p))).
  assert (0 < zlen a) by (destruct a; [done|zlen_lia]). zcmp.
  unfold u64. rewrite Z.mod_small by lia.
  destruct (Z.ltb_spec (maxBody (limits p)) (zlen (body (response p)) + zlen a)); [done|].
  zcmp. rewrite Z.sub_0_r, drop_0, take_ge, drop_ge by (unfold zlen; lia). cbn. by rewrite Hc.
Qed.

Lemma one_nil_data p :
  inv p -> status p = Ok -> is_line_state (state p) = false -> state p <> Done -> one p [] = Wait.
Proof.
  intros H Hok Hl Hd. unfold one. rewrite Hl. destruct (state p) eqn:Hst; try done.
  destruct (closed p) eqn:E; [|done]. rewrite (inv_closed p H Hok E) in Hst. done.
Qed.

(** The rounds that read a line. *)
Lemma one_line p a :
  is_line_state (state p) = true -> zlen a < 2 ^ 63 ->
  (ch_lf ∉ a ->
   one p a = if maxHeaderBlock (limits p) <? zlen a
             then Stop Error (with_status p ResponseTooLarge) a else Wait) /\
  (forall l r, a = l ++ ch_lf :: r -> ch_lf ∉ l ->
   let p1 := with_header_bytes p (u64 (header_bytes p + (zlen l + 1))) in
   one p a = if maxHeaderBlock (limits p) <? zlen l
             then Stop Error (with_status p ResponseTooLarge) a
             else if maxHeaderBlock (limits p) <? header_bytes p1
             then Stop Error (with_status p1 ResponseTooLarge) r
             else as_round (read_line (strip_cr l) p1, r)).
Proof.
  intros Hl Hs. unfold one. rewrite Hl. split.
  - intros H. rewrite takeLine_none by done. done.
  - intros l r -> H. rewrite takeLine_some by done. cbv zeta.
    destruct (_ <? zlen l); [done|]. set (p1 := with_header_bytes _ _).
    destruct (_ <? header_bytes p1); [done|]. by destruct (read_line _ _).
Qed.

(** What one round does to the invariant and to the input. *)
Definition round_ok (p : ResponseParser) (a : bytes) (m : round) : Prop :=
  match m with
  | Wait => zlen a <= maxHeaderBlock (limits p)
  | Stop r p' a' => r <> NeedMore /\ settled r p p' /\ exists c, a = c ++ a'
  | Go p' a' => settled NeedMore p p' /\ exists c, a = c ++ a' /\ c <> []
  end.

Lemma as_round_ok p a r p' a' c :
  settled r p p' -> a = c ++ a' -> c <> [] -> round_ok p a (as_round (r, p', a')).
Proof. intros H -> Hc. destruct r; cbn; eauto. Qed.

Lemma inv_add_body p d :
  inv p -> zlen (body (response p)) + zlen d <= maxBody (limits p) ->
  state p = BodyUntilClose -> inv (add_body p d).
Proof.
  intros H Hd Hst. pose proof (zlen_app (body (response p)) d). solve_inv H.
Qed.

Lemma one_ok p a :
  inv p -> status p = Ok -> zlen a < 2 ^ 63 -> round_ok p a (one p a).
Proof.
  intros H Hok Hs. pose proof (inv_limits p H) as HL. pose proof (lim_block _ HL).
  destruct (is_line_state (state p)) eqn:Hl.
  { destruct (one_line p a Hl Hs) as [Hno Hyes].
    destruct (line_cases a) as [Hn|(l & r & -> & Hn)].
    - rewrite (Hno Hn). destruct (Z.ltb_spec (maxHeaderBlock (limits p)) (zlen a)); [|done].
      split; [done|]. split; [by apply inv_fail|]. by exists [].
    - rewrite (Hyes l r eq_refl Hn). set (p1 := with_header_bytes _ _).
      destruct (Z.ltb_spec (maxHeaderBlock (limits p)) (zlen l)).
      { split; [done|]. split; [by apply inv_fail|]. by exists []. }
      destruct (Z.ltb_spec (maxHeaderBlock (limits p)) (header_bytes p1)) as [Hb|Hb].
      { split; [done|]. split; [|exists (l ++ [ch_lf]); by rewrite <- app_assoc].
        split; [|done]. solve_inv H. }
      assert (inv p1) as Hp1.
      { assert (0 <= header_bytes p1) by (unfold p1, u64; cbn [header_bytes with_header_bytes];
          by apply Z.mod_pos_bound).
        unfold p1 in *. cbn in Hb. solve_inv H. }
      pose proof (read_line_settled (strip_cr l) p1 Hp1 Hok Hl) as (? & ? & ?).
      destruct (read_line (strip_cr l) p1) as [res p2].
      apply as_round_ok with (l ++ [ch_lf]); [by split|by rewrite <- app_assoc|by destruct l]. }
  destruct (decide (state p = Done)) as [Hd|Hd].
  { unfold one. rewrite Hd. cbn. split; [done|]. split; [by split|]. by exists []. }
  destruct (decide (a = [])) as [->|Ha].
  { rewrite one_nil_data by done. cbn. change (zlen []) with 0. lia. }
  assert (0 < zlen a) by (destruct a; [done|zlen_lia]).
  destruct (state p) eqn:Hst; try done.
  - destruct (inv_length p H Hst) as [Hr Hrb]. rewrite one_body_length by done.
    assert (forall d, zlen (body (response p) ++ d) = zlen (body (response p)) + zlen d) as Hz
      by (intros; apply zlen_app).
    destruct (Z.ltb_spec (zlen a) (body_remaining p)).
    + split; [|by exists a; rewrite app_nil_r]. split; [|done]. specialize (Hz a). solve_inv H.
    + split; [done|]. split; [|by exists (ztake (body_remaining p) a); rewrite take_drop].
      split; [|done]. specialize (Hz (ztake (body_remaining p) a)).
      rewrite zlen_take in Hz. solve_inv H.
  - destruct (inv_chunk p H Hst) as [Hr Hrb]. rewrite one_chunk_data by done.
    assert (forall d, zlen (body (response p) ++ d) = zlen (body (response p)) + zlen d) as Hz
      by (intros; apply zlen_app).
    destruct (Z.ltb_spec (zlen a) (chunk_remaining p)).
    + split; [|by exists a; rewrite app_nil_r]. split; [|done]. specialize (Hz a). solve_inv H.
    + split; [|exists (ztake (chunk_remaining p) a); rewrite take_drop; split; [done|]].
      * split; [|done]. specialize (Hz (ztake (chunk_remaining p) a)).
        rewrite zlen_take in Hz. solve_inv H.
      * intros E. apply (f_equal zlen) in E. rewrite zlen_take in E. change (zlen []) with 0 in E. lia.
  - rewrite one_until_close by done.
    destruct (Z.ltb_spec (maxBody (limits p)) (zlen (body (response p)) + zlen a)).
    + split; [done|]. split; [by apply inv_fail|]. by exists [].
    + split; [|by exists a; rewrite app_nil_r]. split; [|done]. by apply inv_add_body.
Qed.

(** ** [parse] performs rounds until it waits or stops *)

(** What one pass through the [switch] achieves: it waits where it was, or
    returns what the rounds return, or has gone some rounds ahead. *)
Definition advanced (p : ResponseParser) (a : bytes) (o : outcome (Q := bytes)) : Prop :=
  match o with
  | (NeedMore, p1, a1) =>
      (p1 = p /\ a1 = a /\ one p a = Wait) \/
      ((length a1 < length a)%nat /\ inv p1 /\ status p1 = Ok /\
       forall r p' a', rounds p1 a1 r p' a' -> rounds p a r p' a')
  | (r, p1, a1) => rounds p a r p1 a1
  end.

Lemma round_shorter p a p1 a1 :
  round_ok p a (Go p1 a1) -> (length a1 < length a)%nat /\ inv p1 /\ status p1 = Ok.
Proof.
  intros ((Hi & _ & Hok) & c & -> & Hc). rewrite length_app. destruct c; [done|]. simpl.
  split; [lia|done].
Qed.

Lemma advanced_round p a o :
  round_ok p a (one p a) -> one p a = as_round o -> advanced p a o.
Proof.
  intros Hr E. destruct o as [[r p1] a1]. destruct r; cbn in *; try (by apply rounds_stop).
  right. rewrite E in Hr. destruct (round_shorter _ _ _ _ Hr) as (? & ? & ?).
  split; [done|]. split; [done|]. split; [done|]. intros. by eapply rounds_go.
Qed.

Lemma advanced_wait p a : one p a = Wait -> advanced p a (NeedMore, p, a).
Proof. intros. by left. Qed.

Lemma advanced_go p a p2 a2 o :
  round_ok p a (one p a) -> one p a = Go p2 a2 -> advanced p2 a2 o -> advanced p a o.
Proof.
  intros Hr E H. rewrite E in Hr. destruct (round_shorter _ _ _ _ Hr) as (? & ? & ?).
  destruct o as [[r p1] a1]. destruct r; cbn in *; try (by eapply rounds_go).
  right. destruct H as [(-> & -> & ?)|(? & ? & ? & Hn)].
  - split; [done|]. split; [done|]. split; [done|]. intros. by eapply rounds_go.
  - split; [lia|]. split; [done|]. split; [done|]. intros. eapply rounds_go; eauto.
Qed.

(** A state whose pass is a single round. *)
Lemma advanced_line p a (f : bytes -> ResponseParser -> Result * ResponseParser) :
  inv p -> status p = Ok -> zlen a < 2 ^ 63 -> is_line_state (state p) = true ->
  (forall line p', state p' = state p -> f line p' = read_line line p') ->
  advanced p a (on_line p a (fun line p a => (f line p, a))).
Proof.
  intros H Hok Hs Hl Hf. pose proof (one_ok p a H Hok Hs) as Hr.
  destruct (one_line p a Hl Hs) as [Hno Hyes]. unfold on_line.
  destruct (line_cases a) as [Hn|(l & r & -> & Hn)].
  - rewrite takeLine_none by done. specialize (Hno Hn). destruct (_ <? _).
    + apply advanced_round; [done|]. by rewrite Hno.
    + by apply advanced_wait.
  - rewrite takeLine_some by done. specialize (Hyes l r eq_refl Hn). cbv zeta in *.
    destruct (_ <? zlen l).
    { apply advanced_round; [done|]. by rewrite Hyes. }
    destruct (_ <? header_bytes _).
    { apply advanced_round; [done|]. by rewrite Hyes. }
    rewrite Hf by done. by apply advanced_round.
Qed.

Lemma header_advanced fuel p a :
  inv p -> status p = Ok -> zlen a < 2 ^ 63 -> state p = HeaderBlock -> (length a < fuel)%nat ->
  exists o, parseHeaderBlock fuel p a = Some o /\ advanced p a o.
Proof.
  revert p a. induction fuel as [|fuel IH]; intros p a H Hok Hs Hst Hf; [lia|].
  cbn [parseHeaderBlock]. pose proof (one_ok p a H Hok Hs) as Hr.
  destruct (one_line p a ltac:(by rewrite Hst) Hs) as [Hno Hyes].
  destruct (line_cases a) as [Hn|(l & r & -> & Hn)].
  - rewrite takeLine_none by done. specialize (Hno Hn). eexists. split; [done|]. destruct (_ <? _).
    + apply advanced_round; [done|]. by rewrite Hno.
    + by apply advanced_wait.
  - rewrite takeLine_some by done. specialize (Hyes l r eq_refl Hn). cbv zeta in *.
    set (p1 := with_header_bytes _ _) in *.
    destruct (_ <? zlen l).
    { eexists. split; [done|]. apply advanced_round; [done|]. by rewrite Hyes. }
    destruct (_ <? header_bytes _).
    { eexists. split; [by destruct (strip_cr l)|]. apply advanced_round; [done|]. by rewrite Hyes. }
    unfold read_line in Hyes. assert (state p1 = HeaderBlock) as Hst1 by done. rewrite Hst1 in Hyes.
    destruct (strip_cr l) as [|c line] eqn:El.
    { eexists. split; [done|]. by apply advanced_round. }
    pose proof (read_header_line_settled (c :: line) p1) as Hh.
    destruct (read_header_line (c :: line) p1) as [[why|] p2] eqn:Eh.
    { eexists. split; [done|]. by apply advanced_round. }
    cbn in Hyes. pose proof Hr as Hr'. rewrite Hyes in Hr'.
    destruct (round_shorter _ _ _ _ Hr') as (Hlen & Hi2 & Hok2).
    assert (state p2 = HeaderBlock) as Hst2.
    { clear -Eh Hst1. unfold read_header_line in Eh. repeat case_match; simplify_eq; done. }
    rewrite zlen_app, zlen_cons in Hs. pose proof (zlen_nonneg l).
    destruct (IH p2 r Hi2 Hok2 ltac:(lia) Hst2 ltac:(lia)) as (o & -> & Ho).
    exists o. split; [done|]. by eapply advanced_go.
Qed.

Lemma trailers_advanced fuel p a :
  inv p -> status p = Ok -> zlen a < 2 ^ 63 -> state p = BodyTrailers -> (length a < fuel)%nat ->
  exists o, parseTrailers fuel p a = Some o /\ advanced p a o.
Proof.
  revert p a. induction fuel as [|fuel IH]; intros p a H Hok Hs Hst Hf; [lia|].
  cbn [parseTrailers]. pose proof (one_ok p a H Hok Hs) as Hr.
  destruct (one_line p a ltac:(by rewrite Hst) Hs) as [Hno Hyes].
  destruct (line_cases a) as [Hn|(l & r & -> & Hn)].
  - rewrite takeLine_none by done. specialize (Hno Hn). eexists. split; [done|]. destruct (_ <? _).
    + apply advanced_round; [done|]. by rewrite Hno.
    + by apply advanced_wait.
  - rewrite takeLine_some by done. specialize (Hyes l r eq_refl Hn). cbv zeta in *.
    set (p1 := with_header_bytes _ _) in *.
    destruct (_ <? zlen l).
    { eexists. split; [done|]. apply advanced_round; [done|]. by rewrite Hyes. }
    destruct (_ <? header_bytes _).
    { eexists. split; [by destruct (strip_cr l)|]. apply advanced_round; [done|]. by rewrite Hyes. }
    unfold read_line in Hyes. assert (state p1 = BodyTrailers) as Hst1 by done. rewrite Hst1 in Hyes.
    destruct (strip_cr l) as [|c line] eqn:El.
    { eexists. split; [done|]. by apply advanced_round. }
    cbn in Hyes. pose proof Hr as Hr'. rewrite Hyes in Hr'.
    destruct (round_shorter _ _ _ _ Hr') as (Hlen & Hi2 & Hok2).
    rewrite zlen_app, zlen_cons in Hs. pose proof (zlen_nonneg l).
    destruct (IH p1 r Hi2 Hok2 ltac:(lia) Hst1 ltac:(lia)) as (o & -> & Ho).
    exists o. split; [done|]. by eapply advanced_go.
Qed.

Lemma dispatch_advanced p a :
  inv p -> status p = Ok -> zlen a < 2 ^ 63 ->
  exists o, dispatch p a = Some o /\ advanced p a o.
Proof.
  intros H Hok Hs. pose proof (one_ok p a H Hok Hs) as Hr. unfold dispatch.
  destruct (state p) eqn:Hst; cbn [q_live bytes_ByteQueue].
  - eexists. split; [done|]. apply advanced_line; try done; [by rewrite Hst|].
    intros line p' E. unfold read_line. by rewrite E, Hst.
  - apply header_advanced; auto.
  - eexists. split; [done|]. destruct (decide (a = [])) as [->|Ha].
    + apply advanced_wait. unfold one. by rewrite Hst.
    + apply advanced_round; [done|]. unfold one. rewrite Hst. cbn [is_line_state].
      assert (0 < zlen a) by (destruct a; [done|zlen_lia]). by zcmp.
  - eexists. split; [done|]. apply advanced_line; try done; [by rewrite Hst|].
    intros line p' E. unfold read_line. by rewrite E, Hst.
  - eexists. split; [done|]. destruct (decide (a = [])) as [->|Ha].
    + apply advanced_wait. unfold one. by rewrite Hst.
    + apply advanced_round; [done|]. unfold one. rewrite Hst. cbn [is_line_state].
      assert (0 < zlen a) by (destruct a; [done|zlen_lia]). by zcmp.
  - eexists. split; [done|].
    apply (advanced_line p a (fun line p => if negb (bool_decide (line = [])) then
      fail p MalformedResponse else (NeedMore, with_state p BodyChunkSize))); try done; [by rewrite Hst|].
    intros line p' E. unfold read_line. by rewrite E, Hst.
  - apply trailers_advanced; auto.
  - eexists. split; [done|]. destruct (decide (a = [])) as [->|Ha].
    + assert (one p [] = Wait) as Hw by (apply one_nil_data; rewrite ?Hst; done).
      assert (closed p = false) as Hc.
      { destruct (closed p) eqn:E; [|done]. by rewrite (inv_closed p H Hok E) in Hst. }
      assert (parseBodyUntilClose p [] = (NeedMore, p, [])) as ->
        by (unfold parseBodyUntilClose; change (q_size []) with 0; cbn; by rewrite Hc).
      by apply advanced_wait.
    + apply advanced_round; [done|]. unfold one. rewrite Hst. cbn [is_line_state].
      assert (0 < zlen a) by (destruct a; [done|zlen_lia]). by zcmp.
  - eexists. split; [done|]. apply advanced_round; [done|]. unfold one. by rewrite Hst.
Qed.

Lemma parse_loop_rounds fuel p a :
  inv p -> status p = Ok -> zlen a < 2 ^ 63 -> (length a < fuel)%nat ->
  exists r p' a', parse_loop fuel p a = Some (r, p', a') /\ rounds p a r p' a'.
Proof.
  revert p a. induction fuel as [|fuel IH]; intros p a H Hok Hs Hf; [lia|]. cbn [parse_loop].
  destruct (dispatch_advanced p a H Hok Hs) as ([[r p1] a1] & -> & Ho).
  destruct r; cbn [bool_decide negb decide].
  - cbn in Ho. rewrite (bool_decide_eq_true_2 (NeedMore = NeedMore)) by done. cbn [negb].
    destruct Ho as [(-> & -> & Hw)|(Hlt & Hi & Hk & Hn)].
    + rewrite bool_decide_eq_true_2, Z.eqb_refl by done. do 3 eexists. split; [done|].
      by apply rounds_wait.
    + cbn [q_size bytes_ByteQueue]. assert (zlen a1 <> zlen a) by (unfold zlen; lia). zcmp.
      rewrite andb_false_r. destruct (IH p1 a1 Hi Hk ltac:(unfold zlen in *; lia) ltac:(lia))
        as (r & p' & a' & -> & Hr). eauto 6.
  - rewrite bool_decide_eq_false_2 by done. eauto 6.
  - rewrite bool_decide_eq_false_2 by done. eauto 6.
Qed.

(** The rounds keep the invariant, and return a suffix of the input. *)
Lemma rounds_ok p a r p' a' :
  rounds p a r p' a' -> inv p -> status p = Ok -> zlen a < 2 ^ 63 ->
  settled r p p' /\ (exists c, a = c ++ a') /\
  (r = NeedMore -> zlen a' <= maxHeaderBlock (limits p)).
Proof.
  induction 1 as [p a E|p a r p' a' E|p a p1 a1 r p' a' E _ IH]; intros H Hok Hs;
    pose proof (one_ok p a H Hok Hs) as Hr; rewrite E in Hr; cbn in Hr.
  - split; [by split|]. split; [by exists []|done].
  - destruct Hr as (Hn & Hst & Hc). split; [done|]. split; [done|]. done.
  - destruct Hr as ((Hi & Hl & Hk) & c & -> & Hc). rewrite zlen_app in Hs.
    pose proof (zlen_nonneg c). destruct (IH Hi Hk ltac:(lia)) as ((? & ? & ?) & (d & ->) & ?).
    rewrite Hl in *. split; [by split; [|split; [congruence|]]|].
    split; [exists (c ++ d); by rewrite app_assoc|done].
Qed.

(** ** The seams of the input do not show *)

(** Two outcomes a client cannot tell apart: the same, but for how much of the
    body was kept before an error. *)
Definition same_outcome (o1 o2 : outcome (Q := bytes)) : Prop :=
  match o1, o2 with
  | (Error, p1, _), (Error, p2, _) => status p1 = status p2
  | _, _ => o1 = o2
  end.

#[export] Instance same_outcome_equiv : Equivalence same_outcome.
Proof.
  split.
  - intros [[[] p] a]; done.
  - intros [[[] p] a] [[[] q] b] H; cbn in *; congruence || done.
  - intros [[[] p] a] [[[] q] b] [[[] s] c] H1 H2; cbn in *; congruence || done.
Qed.

Definition same_round (m1 m2 : round) : Prop :=
  match m1, m2 with
  | Stop r1 p1 a1, Stop r2 p2 a2 => same_outcome (r1, p1, a1) (r2, p2, a2)
  | _, _ => m1 = m2
  end.

#[export] Instance same_round_refl : Reflexive same_round.
Proof. intros [|r p a|p a]; [done| |done]. apply (reflexivity (R := same_outcome)). Qed.

(** [a ++ b] against [a] then [b], for one round on [a]. *)
Definition seam (p : ResponseParser) (a b : bytes) : Prop :=
  match one p a with
  | Wait => True
  | Stop r p1 a1 => same_round (one p (a ++ b)) (Stop r p1 (a1 ++ b))
  | Go p1 a1 => one p (a ++ b) = Go p1 (a1 ++ b) \/
                one p (a ++ b) <> Wait /\ same_round (one p (a ++ b)) (one p1 (a1 ++ b))
  end.

Lemma add_body_app p a b : add_body (add_body p a) b = add_body p (a ++ b).
Proof. unfold add_body, with_response. cbn. by rewrite app_assoc. Qed.

Lemma seam_line p a b :
  is_line_state (state p) = true -> zlen (a ++ b) < 2 ^ 63 -> seam p a b.
Proof.
  intros Hl Hs. unfold seam. rewrite zlen_app in Hs. pose proof (zlen_nonneg b).
  destruct (one_line p a Hl ltac:(lia)) as [Hno Hyes].
  destruct (one_line p (a ++ b) Hl ltac:(rewrite zlen_app; lia)) as [Hno' Hyes'].
  destruct (line_cases a) as [Hn|(l & r & -> & Hn)].
  - rewrite (Hno Hn). destruct (Z.ltb_spec (maxHeaderBlock (limits p)) (zlen a)) as [Hb|]; [|done].
    destruct (line_cases b) as [Hn'|(l & r & -> & Hn')].
    + rewrite Hno' by (rewrite elem_of_app; tauto). rewrite zlen_app. zcmp. done.
    + rewrite (Hyes' (a ++ l) r) by (rewrite ?app_assoc, ?elem_of_app; tauto).
      rewrite zlen_app. pose proof (zlen_nonneg l). zcmp. done.
  - rewrite (Hyes l r eq_refl Hn). rewrite (Hyes' l (r ++ b)) by (by rewrite <- ?app_assoc).
    destruct (_ <? zlen l); [done|]. cbv zeta.
    destruct (_ <? header_bytes _); [done|].
    destruct (read_line _ _) as [[] p1]; cbn; auto.
Qed.

Lemma seam_nil p a : seam p a [].
Proof.
  unfold seam. rewrite app_nil_r. destruct (one p a); [done| |by rewrite app_nil_r; left].
  rewrite app_nil_r. reflexivity.
Qed.

Lemma seam_body_length p a b :
  inv p -> state p = BodyLength -> a <> [] -> b <> [] -> seam p a b.
Proof.
  intros H Hst Ha Hb. destruct (inv_length p H Hst) as [Hr _]. unfold seam.
  rewrite one_body_length by done. pose proof (zlen_app a b).
  assert (0 < zlen b) by (destruct b; [done|zlen_lia]).
  rewrite (one_body_length p (a ++ b)) by (done || by destruct a).
  destruct (Z.ltb_spec (zlen a) (body_remaining p)).
  - right. rewrite one_body_length by (done || cbn; lia). cbn [app body_remaining with_body_remaining].
    split; [by destruct (_ <? _)|].
    replace (zlen b <? body_remaining p - zlen a) with (zlen (a ++ b) <? body_remaining p) by
      (destruct (Z.ltb_spec (zlen (a ++ b)) (body_remaining p)),
         (Z.ltb_spec (zlen b) (body_remaining p - zlen a)); lia || done).
    destruct (Z.ltb_spec (zlen (a ++ b)) (body_remaining p)).
    + rewrite <- add_body_app. cbn. f_equal. unfold with_body_remaining. cbn. f_equal. lia.
    + rewrite ztake_app_ge, zdrop_app_ge by lia. by rewrite <- add_body_app.
  - zcmp. cbn. rewrite take_app_le, drop_app_le by (unfold zlen in *; lia). done.
Qed.

Lemma seam_chunk_data p a b :
  inv p -> state p = BodyChunkData -> a <> [] -> b <> [] -> seam p a b.
Proof.
  intros H Hst Ha Hb. destruct (inv_chunk p H Hst) as [Hr _]. unfold seam.
  rewrite one_chunk_data by done. pose proof (zlen_app a b).
  assert (0 < zlen b) by (destruct b; [done|zlen_lia]).
  rewrite (one_chunk_data p (a ++ b)) by (done || by destruct a).
  destruct (Z.ltb_spec (zlen a) (chunk_remaining p)).
  - right. rewrite one_chunk_data by (done || cbn; lia). cbn [app chunk_remaining with_chunk_remaining].
    split; [by destruct (_ <? _)|].
    replace (zlen b <? chunk_remaining p - zlen a) with (zlen (a ++ b) <? chunk_remaining p) by
      (destruct (Z.ltb_spec (zlen (a ++ b)) (chunk_remaining p)),
         (Z.ltb_spec (zlen b) (chunk_remaining p - zlen a)); lia || done).
    destruct (Z.ltb_spec (zlen (a ++ b)) (chunk_remaining p)).
    + rewrite <- add_body_app. cbn. f_equal. unfold with_chunk_remaining. cbn. f_equal. lia.
    + rewrite ztake_app_ge, zdrop_app_ge by lia. by rewrite <- add_body_app.
  - left. zcmp. rewrite take_app_le, drop_app_le by (unfold zlen in *; lia). done.
Qed.

Lemma seam_until_close p a b :
  inv p -> status p = Ok -> state p = BodyUntilClose -> a <> [] -> b <> [] ->
  zlen (a ++ b) < 2 ^ 63 -> seam p a b.
Proof.
  intros H Hok Hst Ha Hb Hs. unfold seam. pose proof (zlen_app a b) as Hz.
  pose proof (zlen_nonneg a). pose proof (zlen_nonneg b).
  rewrite one_until_close by (done || lia).
  rewrite (one_until_close p (a ++ b)) by (done || by destruct a).
  destruct (Z.ltb_spec (maxBody (limits p)) (zlen (body (response p)) + zlen a)).
  - zcmp. done.
  - right. split; [by destruct (_ <? _)|].
    rewrite (one_until_close (add_body p a)) by (done || (cbn [app]; lia) || by apply inv_add_body).
    cbn [app]. cbn [limits add_body with_response]. cbn [body response add_body with_response].
    rewrite zlen_app, Z.add_assoc, (zlen_app (body _)), add_body_app. by destruct (_ <? _).
Qed.

Lemma seam_ok p a b : inv p -> status p = Ok -> zlen (a ++ b) < 2 ^ 63 -> seam p a b.
Proof.
  intros H Hok Hs. destruct (decide (b = [])) as [->|Hb]; [apply seam_nil|].
  destruct (is_line_state (state p)) eqn:Hl; [by apply seam_line|].
  destruct (decide (state p = Done)) as [Hd|Hd].
  { unfold seam, one. rewrite Hd. cbn. reflexivity. }
  destruct (decide (a = [])) as [->|Ha].
  { unfold seam. by rewrite one_nil_data. }
  destruct (state p) eqn:Hst; try done.
  - by apply seam_body_length.
  - by apply seam_chunk_data.
  - by apply seam_until_close.
Qed.

Lemma same_round_rounds p a p2 a2 r p' a' :
  same_round (one p a) (one p2 a2) -> one p a <> Wait -> rounds p a r p' a' ->
  exists r2 p2' a2', rounds p2 a2 r2 p2' a2' /\ same_outcome (r, p', a') (r2, p2', a2').
Proof.
  intros Hm Hw H. inversion H as [? ? E|? ? ? ? ? E|? ? p1 a1 ? ? ? E H1]; subst; rewrite E in Hm.
  - done.
  - destruct (one p2 a2) as [|r2 p2' a2'|] eqn:E2; try done.
    exists r2, p2', a2'. split; [by apply rounds_stop|done].
  - cbn in Hm. exists r, p', a'. split; [|reflexivity]. by eapply rounds_go.
Qed.

(** Stopping after [a] and resuming with [b] is the same as going through
    [a ++ b]. *)
Lemma rounds_seam p a b r p' a' r2 p2 a2 :
  rounds p a r p' a' -> inv p -> status p = Ok -> zlen (a ++ b) < 2 ^ 63 ->
  rounds p (a ++ b) r2 p2 a2 ->
  match r with
  | NeedMore => exists r3 p3 a3, rounds p' (a' ++ b) r3 p3 a3 /\
                  same_outcome (r2, p2, a2) (r3, p3, a3)
  | _ => same_outcome (r2, p2, a2) (r, p', a' ++ b)
  end.
Proof.
  intros H. revert r2 p2 a2.
  induction H as [p a E|p a r p' a' E|p a p1 a1 r p' a' E H IH]; intros r2 p2 a2 Hi Hok Hs H2;
    pose proof (zlen_app a b) as Hz; pose proof (zlen_nonneg b);
    pose proof (one_ok p a Hi Hok ltac:(lia)) as Hr; rewrite E in Hr; cbn in Hr;
    pose proof (seam_ok p a b Hi Hok Hs) as Hseam; unfold seam in Hseam; rewrite E in Hseam.
  - do 3 eexists. split; [exact H2|reflexivity].
  - destruct Hr as (Hn & _ & _).
    destruct (one p (a ++ b)) as [|r3 p3 a3|] eqn:E3; try done.
    apply (rounds_stop p (a ++ b)) in E3. pose proof (rounds_det _ _ _ _ _ _ _ _ E3 H2) as Eq.
    simplify_eq. by destruct r.
  - destruct Hr as ((Hi1 & Hl1 & Hok1) & c & -> & Hc).
    assert (zlen (a1 ++ b) < 2 ^ 63) as Hs1.
    { rewrite <- app_assoc, zlen_app in Hs. pose proof (zlen_nonneg c). lia. }
    destruct Hseam as [Hgo|[Hw Hsame]].
    + apply IH; try done. inversion H2; congruence.
    + destruct (same_round_rounds _ _ _ _ _ _ _ Hsame Hw H2) as (r3 & p3 & a3 & H3 & Hs3).
      specialize (IH r3 p3 a3 Hi1 Hok1 Hs1 H3). destruct r.
      * destruct IH as (r4 & p4 & a4 & H4 & Hs4). exists r4, p4, a4. split; [done|].
        by transitivity (r3, p3, a3).
      * by transitivity (r3, p3, a3).
      * by transitivity (r3, p3, a3).
Qed.

(** ** [parse] on lists, and on any queue *)

Lemma parse_rounds p a :
  inv p -> status p = Ok -> zlen a < 2 ^ 63 ->
  exists r p' a', parse p a = Some (r, p', a') /\ rounds p a r p' a'.
Proof.
  intros H Hok Hs. unfold parse. rewrite bool_decide_eq_true_2 by done. cbn [negb].
  apply parse_loop_rounds; auto.
Qed.

Lemma parse_failed {Q} `{!ByteQueue Q} p (q : Q) :
  status p <> Ok -> parse p q = Some (Error, p, q).
Proof. intros H. unfold parse. by rewrite bool_decide_eq_false_2. Qed.

Section any_queue.
Context {Q : Type} `{!ByteQueue Q}.

Lemma parse_loop_lower fuel p q :
  inv p -> status p = Ok -> q_ok q -> (length (q_live q) < fuel)%nat ->
  lowers (parse_loop fuel p q) (parse_loop fuel p (q_live q)).
Proof.
  revert p q. induction fuel as [|fuel IH]; intros p q H Hok Hq Hf; [lia|]. cbn [parse_loop].
  pose proof (q_small q Hq) as Hs.
  pose proof (dispatch_lower p q Hq (proj1 (inv_remaining p H)) (proj2 (inv_remaining p H))) as Hl.
  destruct (dispatch_advanced p (q_live q) H Hok Hs) as ([[r p1] a1] & Hd & Ha).
  destruct (dispatch p q) as [[[r' p1'] q1]|]; cbn in Hl; [|congruence].
  destruct Hl as [Hl Hq1]. rewrite Hl in *. injection Hd as -> -> <-.
  rewrite (q_size_ok q1), (q_size_ok q) by done. cbn [q_size bytes_ByteQueue].
  destruct r; [|by rewrite bool_decide_eq_false_2..].
  rewrite (bool_decide_eq_true_2 (NeedMore = NeedMore)) by done. cbn [negb].
  destruct Ha as [(-> & E & _)|(Hlt & Hi & Hk & _)].
  - assert (zlen (q_live q1) = zlen (q_live q)) by (by rewrite E).
    rewrite bool_decide_eq_true_2 by done. by zcmp.
  - assert (zlen (q_live q1) <> zlen (q_live q)) by (unfold zlen; lia). zcmp.
    rewrite andb_false_r. apply IH; auto. lia.
Qed.

Lemma parse_lower p q :
  inv p -> q_ok q -> lowers (parse p q) (parse p (q_live q)).
Proof.
  intros H Hq. destruct (decide (status p = Ok)) as [Hok|Hok].
  - unfold parse. rewrite bool_decide_eq_true_2 by done. cbn [negb].
    apply parse_loop_lower; auto.
  - rewrite !parse_failed by done. by split.
Qed.

(** [parse] always returns; it keeps the invariant and leaves a suffix. *)
Lemma parse_ok p q :
  inv p -> q_ok q ->
  exists r p' q', parse p q = Some (r, p', q') /\ q_ok q' /\ settled r p p' /\
    (exists c, q_live q = c ++ q_live q') /\
    (r = NeedMore -> zlen (q_live q') <= maxHeaderBlock (limits p)).
Proof.
  intros H Hq. pose proof (q_small q Hq) as Hs. pose proof (parse_lower p q H Hq) as Hl.
  destruct (decide (status p = Ok)) as [Hok|Hok].
  - destruct (parse_rounds p (q_live q) H Hok Hs) as (r & p' & a' & E & Hr). rewrite E in Hl.
    destruct (parse p q) as [[[r' p1] q1]|]; [|done]. destruct Hl as [Hl Hq1]. simplify_eq.
    destruct (rounds_ok _ _ _ _ _ Hr H Hok Hs) as (? & ? & ?). by exists r', p1, q1.
  - rewrite parse_failed by done. exists Error, p, q. split; [done|]. split; [done|].
    split; [by split|]. split; [by exists []|done].
Qed.

Definition lower (o : outcome (Q := Q)) : outcome (Q := bytes) :=
  let '(r, p, q) := o in (r, p, q_live q).

(** Resuming on a queue that has received [b] meanwhile. *)
Lemma parse_resume p q b r p1 q1 q2 q12 :
  inv p -> q_ok q -> q_ok q12 -> parse p q = Some (r, p1, q1) ->
  q_live q12 = q_live q ++ b ->
  (r = NeedMore -> q_ok q2 /\ q_live q2 = q_live q1 ++ b) ->
  exists o12, parse p q12 = Some o12 /\
    match r with
    | NeedMore => exists o2, parse p1 q2 = Some o2 /\ same_outcome (lower o12) (lower o2)
    | _ => same_outcome (lower o12) (r, p1, q_live q1 ++ b)
    end.
Proof.
  intros H Hq Hq12 E E12 Hq2. pose proof (q_small q12 Hq12) as Hs. rewrite E12 in Hs.
  assert (zlen (q_live q) < 2 ^ 63) as Hsa
    by (rewrite zlen_app in Hs; pose proof (zlen_nonneg b); lia).
  pose proof (parse_lower p q H Hq) as Hl. rewrite E in Hl. destruct Hl as [Hl Hq1].
  pose proof (parse_lower p q12 H Hq12) as Hl12. rewrite E12 in Hl12.
  destruct (decide (status p = Ok)) as [Hok|Hok].
  2:{ rewrite (parse_failed p q) in E by done. rewrite (parse_failed p q12) by done.
      simplify_eq. by eexists. }
  destruct (parse_rounds p (q_live q) H Hok Hsa) as (r' & p' & a' & Er & Hr).
  rewrite Er in Hl. simplify_eq.
  destruct (parse_rounds p (q_live q ++ b) H Hok Hs) as (r3 & p3 & a3 & Er3 & Hr3).
  rewrite Er3 in Hl12. destruct (parse p q12) as [[[r12 p12] q12']|]; [|done].
  destruct Hl12 as [Hl12 _]. simplify_eq. eexists. split; [done|].
  pose proof (rounds_seam _ _ _ _ _ _ _ _ _ Hr H Hok Hs Hr3) as Hseam.
  destruct (rounds_ok _ _ _ _ _ Hr H Hok Hsa) as ((Hi1 & _ & Hok1) & (c & Hc) & _).
  destruct r; [|done|done].
  destruct Hseam as (r4 & p4 & a4 & Hr4 & Hs4). destruct (Hq2 eq_refl) as [Hq2' E2].
  assert (zlen (q_live q1 ++ b) < 2 ^ 63) as Hs2.
  { rewrite Hc, <- app_assoc, zlen_app in Hs. pose proof (zlen_nonneg c). lia. }
  destruct (parse_rounds p1 (q_live q1 ++ b) Hi1 Hok1 Hs2) as (r5 & p5 & a5 & Er5 & Hr5).
  pose proof (rounds_det _ _ _ _ _ _ _ _ Hr4 Hr5) as Eq. simplify_eq.
  pose proof (parse_lower p1 q2 Hi1 Hq2') as Hl2. rewrite E2, Er5 in Hl2.
  destruct (parse p1 q2) as [[[r2 p2] q2']|]; [|done]. destruct Hl2 as [Hl2 _]. simplify_eq.
  eexists. split; [done|]. done.
Qed.
End any_queue.

(** ** Clients *)

(** Every parser a client can hold. *)
Inductive reachable (bounds : Limits) : ResponseParser -> Prop :=
  | reach_new : reachable bounds (new_ResponseParser bounds)
  | reach_reset p : reachable bounds p -> reachable bounds (reset p)
  | reach_no_body p : reachable bounds p -> reachable bounds (expectNoBody p)
  | reach_finish p : reachable bounds p -> reachable bounds (snd (finish p))
  | reach_parse {Q} `{!ByteQueue Q} p (q : Q) r p' q' :
      reachable bounds p -> q_ok q -> parse p q = Some (r, p', q') -> reachable bounds p'.

Lemma inv_new bounds : limits_ok bounds -> inv (new_ResponseParser bounds).
Proof.
  intros H. pose proof (lim_block _ H). pose proof (lim_body _ H). pose proof (lim_count _ H).
  constructor; cbn; rewrite ?zlen_nil; try done; lia.
Qed.

Lemma finish_settled p : inv p -> inv (snd (finish p)) /\ limits (snd (finish p)) = limits p.
Proof.
  intros H. unfold finish. destruct (negb _); [done|].
  destruct (bool_decide (state p = Done)) eqn:E; [done|]. cbn [state].
  destruct (bool_decide (state p = BodyUntilClose)); cbn; (split; [|done]); solve_inv H.
Qed.

Lemma reachable_inv bounds p : limits_ok bounds -> reachable bounds p -> inv p /\ limits p = bounds.
Proof.
  intros HL. induction 1 as [|p _ [IH E]|p _ [IH E]|p _ [IH E]|Q ? p q r p' q' _ [IH E] Hq Hp].
  - split; [by apply inv_new|done].
  - split; [|done]. unfold reset. apply (inv_new (limits p)), IH.
  - split; [|done]. solve_inv IH.
  - destruct (finish_settled p IH) as [? ->]. done.
  - destruct (parse_ok p q IH Hq) as (r2 & p2 & q2 & E2 & _ & (? & ? & _) & _).
    simplify_eq. split; [done|congruence].
Qed.

Section feed.
Context {Q : Type} `{!ByteQueue Q} (push : Q -> bytes -> Q).

(** A client's loop: append what was read, parse, stop on a verdict. What is
    read after that is appended all the same. *)
Fixpoint feed (p : ResponseParser) (q : Q) (segs : list bytes) : option (outcome (Q := Q)) :=
  match segs with
  | [] => Some (NeedMore, p, q)
  | s :: segs =>
      match parse p (push q s) with
      | Some (NeedMore, p, q) => feed p q segs
      | Some (r, p, q) => Some (r, p, fold_left push segs q)
      | None => None
      end
  end.

Hypothesis push_live : forall q s,
  q_ok q -> zlen (q_live q ++ s) < 2 ^ 62 -> q_ok (push q s) /\ q_live (push q s) = q_live q ++ s.

Lemma push_all segs q :
  q_ok q -> zlen (q_live q ++ concat segs) < 2 ^ 62 ->
  q_ok (fold_left push segs q) /\ q_live (fold_left push segs q) = q_live q ++ concat segs.
Proof.
  revert q. induction segs as [|s segs IH]; cbn [fold_left concat]; intros q Hq Hs.
  { by rewrite app_nil_r. }
  rewrite app_assoc in *. rewrite zlen_app in Hs. pose proof (zlen_nonneg (concat segs)).
  destruct (push_live q s Hq ltac:(lia)) as [Hq' E]. rewrite <- E. apply IH; [done|].
  rewrite zlen_app, E. lia.
Qed.

Lemma feed_spec segs s p q :
  inv p -> q_ok q -> zlen (q_live q ++ s ++ concat segs) < 2 ^ 62 ->
  exists o1 o2, feed p q (s :: segs) = Some o1 /\
    parse p (fold_left push (s :: segs) q) = Some o2 /\ same_outcome (lower o2) (lower o1).
Proof.
  revert s p q. induction segs as [|s2 segs IH]; intros s p q H Hq Hs.
  all: destruct (push_live q s Hq (zlen_prefix _ _ _ _ Hs)) as [Hqs Es].
  - cbn [fold_left feed]. destruct (parse_ok p (push q s) H Hqs) as (r & p1 & q1 & -> & _).
    do 2 eexists. split; [by destruct r|]. split; [done|reflexivity].
  - change (fold_left push (s :: s2 :: segs) q) with (fold_left push (s2 :: segs) (push q s)).
    assert (zlen (q_live (push q s) ++ concat (s2 :: segs)) < 2 ^ 62) as Hlen
      by (by rewrite Es, <- app_assoc).
    destruct (push_all (s2 :: segs) (push q s) Hqs Hlen) as [Hok12 E12].
    destruct (parse_ok p (push q s) H Hqs) as (r & p1 & q1 & Ep & Hq1 & (Hi1 & _) & (c & Hc) & _).
    assert (zlen (q_live q1 ++ concat (s2 :: segs)) < 2 ^ 62) as Hlen1.
    { rewrite Hc, <- app_assoc, zlen_app in Hlen. pose proof (zlen_nonneg c). lia. }
    destruct (push_all (s2 :: segs) q1 Hq1 Hlen1) as [Hok2 E2].
    destruct (parse_resume p (push q s) (concat (s2 :: segs)) r p1 q1
      (fold_left push (s2 :: segs) q1) (fold_left push (s2 :: segs) (push q s))
      H Hqs Hok12 Ep E12 ltac:(done)) as (o12 & Eo12 & Hres).
    change (feed p q (s :: s2 :: segs)) with
      (match parse p (push q s) with
       | Some (NeedMore, p, q) => feed p q (s2 :: segs)
       | Some (r, p, q) => Some (r, p, fold_left push (s2 :: segs) q)
       | None => None
       end).
    rewrite Ep. destruct r.
    + destruct Hres as (o2 & Eo2 & Hsame).
      destruct (IH s2 p1 q1 Hi1 Hq1) as (o1 & o2' & Ef & Ep2 & Hsame2); [exact Hlen1|].
      exists o1, o12. split; [done|]. split; [done|]. rewrite Ep2 in Eo2. simplify_eq.
      by transitivity (lower o2).
    + do 2 eexists. split; [done|]. split; [done|]. cbn [lower]. by rewrite E2.
    + do 2 eexists. split; [done|]. split; [done|]. cbn [lower]. by rewrite E2.
Qed.
End feed.

(** ** Header fields *)

Section header_lemmas.
Variables (name : bytes).

Lemma remove_spec (fields : list (bytes * bytes)) :
  Headers.remove name fields =
    (Headers.count name fields, filter (fun f => iequals f.1 name = false) fields).
Proof.
  induction fields as [|[k v] fields IH]; [done|]. cbn [Headers.remove Headers.count]. rewrite IH.
  rewrite filter_cons. cbn [fst]. destruct (iequals k name).
  - rewrite decide_False by done. f_equal. lia.
  - rewrite decide_True by done. done.
Qed.

Lemma count_nonneg fields : 0 <= Headers.count name fields.
Proof.
  induction fields as [|[k v] fields IH]; cbn [Headers.count]; [done|]. destruct (iequals k name); lia.
Qed.

Lemma count_filter (fields : list (bytes * bytes)) :
  Headers.count name (filter (fun f => iequals f.1 name = false) fields) = 0.
Proof.
  induction fields as [|[k v] fields IH]; [done|]. rewrite filter_cons. cbn [fst].
  destruct (iequals k name) eqn:E; [by rewrite decide_False|].
  rewrite decide_True by done. cbn [Headers.count]. rewrite E, IH. done.
Qed.

Lemma has_count fields : Headers.has name fields = (0 <? Headers.count name fields).
Proof.
  unfold Headers.has. induction fields as [|[k v] fields IH]; [done|]. cbn [Headers.get Headers.count].
  pose proof (count_nonneg fields).
  destruct (iequals k name); [by zcmp|]. by rewrite IH.
Qed.

Lemma get_iequals n fields : iequals n name = true -> Headers.get n fields = Headers.get name fields.
Proof.
  intros Hn. induction fields as [|[k v] fields IH]; [done|]. cbn [Headers.get]. rewrite IH.
  assert (iequals k n = iequals k name) as ->; [|done].
  apply eq_true_iff_eq. split; intros; eapply iequals_trans; eauto. by rewrite iequals_sym.
Qed.

Lemma get_app n f1 f2 :
  Headers.get n (f1 ++ f2) =
  match Headers.get n f1 with Some v => Some v | None => Headers.get n f2 end.
Proof.
  induction f1 as [|[k v] f1 IH]; [done|]. cbn [app Headers.get]. by destruct (iequals k n).
Qed.

Lemma get_filter n (fields : list (bytes * bytes)) :
  Headers.get n (filter (fun f => iequals f.1 name = false) fields) =
  if iequals n name then None else Headers.get n fields.
Proof.
  induction fields as [|[k v] fields IH]; [by destruct (iequals n name)|].
  rewrite filter_cons. cbn [fst]. destruct (iequals k name) eqn:E.
  - rewrite decide_False, IH by done. cbn [Headers.get].
    destruct (iequals n name) eqn:En; [done|]. destruct (iequals k n) eqn:Ekn; [|done].
    assert (iequals n name = true); [|congruence].
    eapply iequals_trans; [|exact E]. by rewrite iequals_sym.
  - rewrite decide_True by done. cbn [Headers.get]. rewrite IH.
    destruct (iequals k n) eqn:Ekn; [|done]. destruct (iequals n name) eqn:En; [|done].
    assert (iequals k name = true); [|congruence]. by eapply iequals_trans.
Qed.

Lemma count_app f1 f2 : Headers.count name (f1 ++ f2) = Headers.count name f1 + Headers.count name f2.
Proof.
  induction f1 as [|[k v] f1 IH]; [done|]. cbn [app Headers.count]. rewrite IH.
  destruct (iequals k name); lia.
Qed.
End header_lemmas.

(** ** Properties *)

(** C2. How the stream is cut into reads does not matter: appending and parsing
    segment by segment gives what parsing everything at once gives - the same
    verdict, the same parser (state, headers, body, counters) and the same
    unconsumed bytes - for any queue, any non-empty sequence of segments and
    any parser in a valid state. On an error the same error is reported (only
    how much of the body was kept before it may differ). *)
Theorem parse_segmentation {Q} `{!ByteQueue Q} (push : Q -> bytes -> Q) p q s segs
    (Hpush : forall q s, q_ok q -> zlen (q_live q ++ s) < 2 ^ 62 ->
       q_ok (push q s) /\ q_live (push q s) = q_live q ++ s)
    (Hinv : inv p) (Hq : q_ok q) (Hs : zlen (q_live q ++ s ++ concat segs) < 2 ^ 62) :
  exists o1 o2, feed push p q (s :: segs) = Some o1 /\
    parse p (fold_left push (s :: segs) q) = Some o2 /\ same_outcome (lower o2) (lower o1).
Proof. by apply feed_spec. Qed.

Definition buffer_push (b : Buffer) (s : bytes) : Buffer := snd (append (fun _ => true) s b).


Definition demo_reply : bytes :=
  lit "HTTP/1.1 200 OK" ++ crlf ++ lit "Content-Length: 5" ++ crlf ++ crlf ++ lit "hello" ++ lit "rest".

Lemma parse_segmentation_witness :
  exists o1 o2,
    feed buffer_push (new_ResponseParser default_Limits) (new_Buffer 16) [take 20 demo_reply; drop 20 demo_reply] =
      Some o1 /\
    parse (new_ResponseParser default_Limits)
      (fold_left buffer_push [take 20 demo_reply; drop 20 demo_reply] (new_Buffer 16)) = Some o2 /\
    lower o2 = lower o1 /\ q_live (snd o2) = lit "rest".
Proof.
  assert (inv (new_ResponseParser default_Limits)) as Hi by (by apply inv_new).
  destruct (new_Buffer_wf 16 ltac:(done)) as [Hw Hl].
  edestruct (parse_segmentation buffer_push (new_ResponseParser default_Limits) (new_Buffer 16)
    (take 20 demo_reply) [drop 20 demo_reply]) as (o1 & o2 & E1 & E2 & Hsame);
    [|exact Hi|exact Hw|by vm_compute|].
  - intros b s Hb Hs. unfold buffer_push.
    destruct (append_all_or_nothing (fun _ => true) s b Hb) as (ok & b' & -> & ? & E & _ & Hok).
    rewrite Hok in E; [done| |done]. rewrite <- live_length by done. by rewrite <- zlen_app.
  - exists o1, o2. split; [exact E1|]. split; [exact E2|].
    assert (o2 = default o2 (parse (new_ResponseParser default_Limits)
      (fold_left buffer_push [take 20 demo_reply; drop 20 demo_reply] (new_Buffer 16)))) as Eo
      by (by rewrite E2).
    assert (q_live (snd o2) = lit "rest" /\ fst (fst o2) = Complete) as [Hr Hc].
    { rewrite Eo. vm_compute. by split. }
    split; [|done]. destruct o2 as [[r2 p2] q2]. cbn in Hc. subst r2.
    destruct o1 as [[r1 p1] q1]. exact Hsame.
Defined.

(** C26. [parse] always returns, whatever the input: its loops end, because a
    round that changes nothing stops them and every other round consumes a
    byte. It consumes a prefix of the queue, its verdict agrees with the
    parser's status, and when it asks for more, no more than the header-block
    limit is left unconsumed. *)
Theorem parse_total {Q} `{!ByteQueue Q} bounds p (q : Q) (HL : limits_ok bounds)
    (Hp : reachable bounds p) (Hq : q_ok q) :
  exists r p' q' consumed, parse p q = Some (r, p', q') /\ q_ok q' /\
    q_live q = consumed ++ q_live q' /\
    match r with
    | NeedMore => status p' = Ok /\ zlen (q_live q') <= maxHeaderBlock bounds
    | Complete => status p' = Ok /\ state p' = Done
    | Error => status p' <> Ok
    end.
Proof.
  destruct (reachable_inv bounds p HL Hp) as [H E].
  destruct (parse_ok p q H Hq) as (r & p' & q' & Ep & Hq' & (_ & _ & Hr) & (c & Hc) & Hb).
  exists r, p', q', c. do 3 (split; [done|]). destruct r; try done. split; [done|].
  rewrite <- E. by apply Hb.
Qed.

Lemma parse_total_witness :
  limits_ok default_Limits /\
  fst <$> (fst <$> parse (new_ResponseParser default_Limits) (lit "HTTP/1.1 200 OK")) = Some NeedMore.
Proof.
  assert (limits_ok default_Limits) as HL by (constructor; done). split; [exact HL|].
  assert (q_ok (lit "HTTP/1.1 200 OK")) as Hq by (by vm_compute).
  destruct (parse_total default_Limits (new_ResponseParser default_Limits) (lit "HTTP/1.1 200 OK") HL
    (reach_new _) Hq) as (r & p' & q' & c & E & _).
  vm_compute. reflexivity.
Defined.

(** C27. The limits hold for every parser a client can reach by any sequence of
    [parse], [finish], [reset] and [expectNoBody]: the body, the number of
    header fields and the header bytes counted never exceed them, and a body
    length or chunk that is still awaited fits in what is left. *)
Theorem parser_within_limits bounds p (HL : limits_ok bounds) (Hp : reachable bounds p) :
  zlen (body (response p)) <= maxBody bounds /\
  zlen (headers (response p)) <= maxHeaderCount bounds /\
  (status p = Ok -> 0 <= header_bytes p <= maxHeaderBlock bounds) /\
  (state p = BodyLength -> zlen (body (response p)) + body_remaining p <= maxBody bounds) /\
  (state p = BodyChunkData -> zlen (body (response p)) + chunk_remaining p <= maxBody bounds).
Proof.
  destruct (reachable_inv bounds p HL Hp) as [H <-].
  split; [apply H|]. split; [apply H|]. split; [apply H|].
  split; intros Hs; [apply (inv_length p H Hs)|apply (inv_chunk p H Hs)].
Qed.

Definition tiny_Limits : Limits := mkLimits 64 2 3 8.

Lemma parser_within_limits_witness :
  limits_ok tiny_Limits /\
  forall p', (snd <$> (fst <$> parse (new_ResponseParser tiny_Limits)
    (lit "HTTP/1.0 200" ++ crlf ++ crlf ++ lit "toolong"))) = Some p' -> zlen (body (response p')) <= 3.
Proof.
  assert (limits_ok tiny_Limits) as HL by (constructor; done). split; [exact HL|]. intros p' E.
  destruct (parse (new_ResponseParser tiny_Limits) _) as [[[r p2] q2]|] eqn:Ep; [|done].
  cbn in E. injection E as ->.
  refine (proj1 (parser_within_limits tiny_Limits p' HL _)).
  eapply (@reach_parse tiny_Limits bytes _); [apply reach_new| |exact Ep]. done.
Defined.

(** What the end of the stream means: [finish] completes a finished message
    and a body that runs to the close, and turns every other state into a
    [Disconnected] error; an error is final, later calls repeating it without
    touching the input, until [reset], which gives a parser as new. *)
Theorem finish_spec {Q} `{!ByteQueue Q} p (q : Q) :
  let '(r, p') := finish p in
  match status p with
  | Ok =>
      (r = Complete <-> state p = Done \/ state p = BodyUntilClose) /\
      (r = Complete -> state p' = Done /\ status p' = Ok /\ response p' = response p) /\
      (r <> Complete -> r = Error /\ status p' = Disconnected /\ response p' = response p)
  | _ => r = Error /\ p' = p
  end /\
  (status p' <> Ok -> parse p' q = Some (Error, p', q) /\ finish p' = (Error, p')) /\
  reset p' = new_ResponseParser (limits p).
Proof.
  assert (forall p', status p' <> Ok -> parse p' q = Some (Error, p', q) /\ finish p' = (Error, p')) as Hf.
  { intros p' Hn. split; [by apply parse_failed|]. unfold finish. by rewrite bool_decide_eq_false_2. }
  assert (reset (snd (finish p)) = new_ResponseParser (limits p)) as Hr.
  { unfold finish. repeat case_match; done. }
  destruct (finish p) as [r p'] eqn:Ef. split; [|split; [apply Hf|exact Hr]].
  unfold finish in Ef. destruct (status p) eqn:Es.
  2-12: rewrite bool_decide_eq_false_2 in Ef by done; cbn [negb] in Ef; by simplify_eq.
  rewrite bool_decide_eq_true_2 in Ef by done. cbn [negb state status] in Ef.
  destruct (bool_decide_reflect (state p = Done)) as [Ed|Ed]; simplify_eq.
  { by split; [split; [by left|]|]. }
  destruct (bool_decide_reflect (state p = BodyUntilClose)) as [Eu|Eu]; unfold fail in Ef; simplify_eq.
  - by split; [split; [by right|]|].
  - split; [split; [done|by intros [?|?]]|]. by split.
Qed.

(** [Headers] is a multimap keyed without regard to case that keeps the
    order of its fields: [remove] drops exactly the fields of the name and
    counts them, [set] leaves one field with the name and changes no other
    lookup, and lookups do not distinguish the case of their argument. *)
Theorem headers_spec name value (fields : list (bytes * bytes)) :
  Headers.remove name fields =
    (Headers.count name fields, filter (fun f => iequals f.1 name = false) fields) /\
  Headers.count name (Headers.set name value fields) = 1 /\
  (forall n, Headers.get n (Headers.set name value fields) =
     if iequals n name then Some value else Headers.get n fields) /\
  (forall n, iequals n name = true -> Headers.get n fields = Headers.get name fields) /\
  Headers.has name fields = (0 <? Headers.count name fields).
Proof.
  split; [apply remove_spec|]. split; [|split; [|split; [|apply has_count]]].
  - unfold Headers.set, Headers.add. rewrite remove_spec. cbn [snd].
    rewrite count_app, count_filter. cbn [Headers.count]. by rewrite iequals_refl.
  - intros n. unfold Headers.set, Headers.add. rewrite remove_spec. cbn [snd].
    rewrite get_app, get_filter. cbn [Headers.get]. rewrite (iequals_sym name n).
    destruct (iequals n name); [done|]. by destruct (Headers.get n fields).
  - intros n. apply get_iequals.
Qed.

(** ** What the model shows beside the properties *)

(** The lines that frame chunks count against the limit of the header block: ten
    chunks of a byte are too large where the header block and the body fit. *)
Lemma chunk_framing_counts_as_header :
  let bounds := mkLimits 80 4 1000 8 in
  let head := lit "HTTP/1.1 200 OK" ++ crlf ++ lit "Transfer-Encoding: chunked" ++ crlf ++ crlf in
  let chunks := concat (replicate 10 (lit "1" ++ crlf ++ lit "a" ++ crlf)) in
  zlen head <= 80 /\
  (fun o => (o.1.1, status o.1.2, zlen (body (response o.1.2)))) <$>
    parse (new_ResponseParser bounds) (head ++ chunks) = Some (Error, ResponseTooLarge, 7).
Proof. vm_compute. split; [discriminate|reflexivity]. Qed.
