(* ===== verification/HttpMessages.v ===== *)
(** * HttpMessages: well-formed responses read back in full

    A printer for responses in the three framings of HTTP/1.1, and the proof
    that [ResponseParser] recovers the message from what it prints. *)

From S2P Require Import Prelude Strings ByteQueue Buffer HttpResponse.

(** ** Printing *)

(** How the end of the body is told. *)
Inductive Framing :=
  | ByLength (body : bytes)
  | ByChunks (chunks : list bytes)
  | ByClose (body : bytes).

Record Message := mkMessage {
  m_code : Z;
  m_reason : bytes;
  m_fields : list (bytes * bytes);
  m_framing : Framing
}.

Definition hex_char (d : Z) : byte := nth (Z.to_nat d) (lit "0123456789abcdef") "0"%char.

Fixpoint to_hex_loop (fuel : nat) (n : Z) (acc : bytes) : bytes :=
  match fuel with
  | O => acc
  | S fuel =>
      let acc := hex_char (n mod 16) :: acc in
      if n / 16 =? 0 then acc else to_hex_loop fuel (n / 16) acc
  end.
Definition to_hex (n : Z) : bytes := to_hex_loop 16 n [].

Definition status_line (m : Message) : bytes :=
  lit "HTTP/1.1" ++ (" "%char :: (to_string (m_code m) ++ (" "%char :: m_reason m))).

Definition field_line (f : bytes * bytes) : bytes := f.1 ++ (":"%char :: " "%char :: f.2).

(** The field that announces the framing. *)
Definition framing_fields (f : Framing) : list (bytes * bytes) :=
  match f with
  | ByLength body => [(lit "Content-Length", to_string (zlen body))]
  | ByChunks _ => [(lit "Transfer-Encoding", lit "chunked")]
  | ByClose _ => []
  end.

Definition chunk (c : bytes) : bytes := to_hex (zlen c) ++ crlf ++ c ++ crlf.

Definition framed_body (f : Framing) : bytes :=
  match f with
  | ByLength body => body
  | ByChunks chunks => concat (map chunk chunks) ++ lit "0" ++ crlf ++ crlf
  | ByClose body => body
  end.

Definition body_of (f : Framing) : bytes :=
  match f with ByLength body => body | ByChunks chunks => concat chunks | ByClose body => body end.

Definition lines (ls : list bytes) : bytes := concat (map (fun l => l ++ crlf) ls).

Definition all_fields (m : Message) : list (bytes * bytes) :=
  m_fields m ++ framing_fields (m_framing m).

Definition head_lines (m : Message) : list bytes := status_line m :: map field_line (all_fields m).

Definition render (m : Message) : bytes :=
  lines (head_lines m) ++ crlf ++ framed_body (m_framing m).

(** What the parser counts against the header limit: every line it reads. *)
Definition line_bytes (m : Message) : Z :=
  zlen (lines (head_lines m)) + 2 +
  match m_framing m with
  | ByChunks chunks => zlen (concat (map chunk chunks)) - zlen (concat chunks) + 5
  | _ => 0
  end.

(** ** What may be printed *)

Definition plain (l : bytes) : Prop := (ch_lf ∉ l) /\ trim l = l.

Definition field_ok (f : bytes * bytes) : Prop :=
  f.1 <> [] /\ plain f.1 /\ (":"%char ∉ f.1) /\ plain f.2 /\
  iequals f.1 (lit "Content-Length") = false /\ iequals f.1 (lit "Transfer-Encoding") = false.

(** A status that has a body, within the limits of the parser. *)
Record message_ok (L : Limits) (m : Message) : Prop := {
  ok_code : 200 <= m_code m <= 599 /\ m_code m <> 204 /\ m_code m <> 304;
  ok_reason : plain (m_reason m);
  ok_fields : Forall field_ok (m_fields m);
  ok_count : zlen (all_fields m) <= maxHeaderCount L;
  ok_lines : line_bytes m <= maxHeaderBlock L;
  ok_body : zlen (body_of (m_framing m)) <= maxBody L;
  ok_chunks : match m_framing m with
              | ByChunks chunks => Forall (fun c => c <> [] /\ zlen c <= maxChunkSize L) chunks
              | _ => True
              end
}.

(** ** Numbers *)

Lemma forallb_digits l : forallb is_digit l = true -> Forall (fun c => is_digit c = true) l.
Proof. intros H. rewrite <- (digit_prefix_all l H). apply digit_prefix_digits. Qed.

Lemma parse_size_loop_digits text v :
  forallb is_digit text = true -> 0 <= v -> dec_acc v text < 2 ^ 62 ->
  parse_size_loop text v = Some (dec_acc v text).
Proof.
  revert v. induction text as [|c text IH]; cbn [parse_size_loop forallb]; intros v Hd Hv Hs; [done|].
  apply andb_true_iff in Hd as [Hc Ht]. rewrite Hc. cbn [negb].
  pose proof (is_digit_of c Hc) as Hr. unfold dec_acc in *. cbn [fold_left] in *. fold (digit_of c).
  pose proof (dec_acc_ge (v * 10 + digit_of c) text ltac:(lia) (forallb_digits _ Ht)) as Hge.
  unfold dec_acc in Hge. change ((SIZE_MAX - 9) / 10) with 1844674407370955160. zcmp.
  apply IH; auto. lia.
Qed.

Lemma parse_size_to_string n : 0 <= n < 2 ^ 62 -> parse_size (to_string n) = Some n.
Proof.
  intros Hn. destruct (to_string_spec n) as (Hd & Hne & Hv); [lia|].
  change (dec_value (to_string n)) with (dec_acc 0 (to_string n)) in Hv. unfold parse_size.
  destruct (to_string n) as [|c l] eqn:E; [done|]. rewrite <- E in *.
  rewrite parse_size_loop_digits by (done || lia). by rewrite Hv.
Qed.

(** The value of hexadecimal digits read after [v]. *)
Definition hex_acc (v : Z) (ds : list Z) : Z := fold_left (fun v d => v * 16 + d) ds v.

Lemma hex_acc_ge v ds : 0 <= v -> Forall (fun d => 0 <= d < 16) ds -> v <= hex_acc v ds.
Proof.
  intros Hv H. revert v Hv. induction H as [|d ds Hd _ IH]; intros v Hv; cbn; [lia|].
  specialize (IH (v * 16 + d)). unfold hex_acc in IH. lia.
Qed.

Lemma to_hex_loop_spec fuel n acc :
  0 <= n < 16 ^ Z.of_nat fuel ->
  exists ds, to_hex_loop fuel n acc = map hex_char ds ++ acc /\ Forall (fun d => 0 <= d < 16) ds /\
    (forall v, hex_acc v ds = v * 16 ^ zlen ds + n) /\ (0 < fuel -> ds <> [])%nat.
Proof.
  revert n acc. induction fuel as [|fuel IH]; intros n acc Hn.
  { exists []. split; [done|]. split; [constructor|]. change (16 ^ Z.of_nat 0) with 1 in Hn.
    split; [|lia]. intros v. change (v = v * 1 + n). lia. }
  cbn [to_hex_loop]. pose proof (Z.mod_pos_bound n 16 ltac:(lia)).
  destruct (Z.eqb_spec (n / 16) 0) as [E|E].
  - exists [n mod 16]. split; [done|]. split; [by constructor|]. split; [|done].
    intros v. change (v * 16 + n mod 16 = v * 16 + n). div_lia.
  - assert (0 <= n / 16 < 16 ^ Z.of_nat fuel) as Hn'.
    { rewrite Nat2Z.inj_succ, Z.pow_succ_r in Hn by lia.
      split; [div_lia|]. apply Z.div_lt_upper_bound; lia. }
    destruct (IH (n / 16) (hex_char (n mod 16) :: acc) Hn') as (ds & -> & Hd & Hv & _).
    exists (ds ++ [n mod 16]). rewrite map_app, <- app_assoc. split; [done|].
    split; [rewrite Forall_app; by split; [|constructor]|]. split; [|by destruct ds].
    intros v. unfold hex_acc in *. rewrite fold_left_app. cbn [fold_left].
    rewrite Hv, zlen_app, Z.pow_add_r by (unfold zlen; lia). change (zlen [n mod 16]) with 1. div_lia.
Qed.

Lemma hex_char_facts d :
  0 <= d < 16 -> let c := code (hex_char d) in
  (if (code "0" <=? c) && (c <=? code "9") then c - code "0"
   else if (code "a" <=? c) && (c <=? code "f") then c - code "a" + 10
   else if (code "A" <=? c) && (c <=? code "F") then c - code "A" + 10 else -1) = d /\
  is_space (hex_char d) = false /\ hex_char d <> ";"%char /\ hex_char d <> ch_lf.
Proof.
  intros Hd. assert (d = 0 \/ d = 1 \/ d = 2 \/ d = 3 \/ d = 4 \/ d = 5 \/ d = 6 \/ d = 7 \/ d = 8 \/
    d = 9 \/ d = 10 \/ d = 11 \/ d = 12 \/ d = 13 \/ d = 14 \/ d = 15) as H by lia.
  repeat destruct H as [->|H]; [vm_compute; by splits..|]. subst. vm_compute. by splits.
Qed.

Lemma parse_hex_loop_digits ds v :
  Forall (fun d => 0 <= d < 16) ds -> 0 <= v -> hex_acc v ds < 2 ^ 62 ->
  parse_hex_loop (map hex_char ds) v = Some (hex_acc v ds).
Proof.
  intros H. revert v. induction H as [|d ds Hd Hds IH]; intros v Hv Hs; [done|].
  cbn [map parse_hex_loop]. cbv zeta. rewrite (proj1 (hex_char_facts d Hd)).
  unfold hex_acc in *. cbn [fold_left] in *.
  pose proof (hex_acc_ge (v * 16 + d) ds ltac:(lia) Hds) as Hge. unfold hex_acc in Hge.
  change ((SIZE_MAX - 15) / 16) with 1152921504606846975. zcmp. apply IH; lia.
Qed.

(** ** Plain text *)

(** Text without spaces of any kind is plain. *)
Lemma plain_no_space l : Forall (fun c => is_space c = false) l -> plain l.
Proof.
  intros H. split.
  - intros Hin. rewrite Forall_forall in H. by apply H in Hin.
  - apply trim_id. split; intros c Hc.
    + destruct l; [done|]. cbn in Hc. simplify_eq. by inversion H.
    + apply Forall_rev in H. destruct (rev l); [done|]. cbn in Hc. simplify_eq. by inversion H.
Qed.

Lemma digit_not_space : forall c, is_digit c = true -> is_space c = false /\ Ascii.eqb " " c = false.
Proof. byte_decide. Qed.

Lemma digits_plain l : forallb is_digit l = true -> plain l.
Proof.
  intros H%forallb_digits. apply plain_no_space. eapply Forall_impl; [exact H|].
  intros c Hc. by apply digit_not_space.
Qed.

Lemma to_hex_spec n :
  0 <= n < 2 ^ 62 -> plain (to_hex n) /\ parse_chunk_size (to_hex n) = Some n.
Proof.
  intros Hn. unfold to_hex.
  destruct (to_hex_loop_spec 16 n []) as (ds & -> & Hd & Hv & Hne).
  { split; [lia|]. change (16 ^ Z.of_nat 16) with (2 ^ 64). lia. }
  rewrite app_nil_r. specialize (Hne ltac:(lia)).
  assert (plain (map hex_char ds)) as Hp.
  { apply plain_no_space. apply Forall_fmap. eapply Forall_impl; [exact Hd|].
    intros d Hr. by apply hex_char_facts. }
  split; [done|]. unfold parse_chunk_size.
  assert (find_char ";" (map hex_char ds) = None) as ->.
  { apply find_char_None. intros Hin. apply list_elem_of_In, in_map_iff in Hin as (d & Hc & Hin).
    rewrite Forall_forall in Hd. specialize (Hd d (proj2 (list_elem_of_In _ _) Hin)).
    destruct (hex_char_facts d Hd) as (_ & _ & Hc' & _). congruence. }
  rewrite (proj2 Hp). destruct (map hex_char ds) as [|c l] eqn:E; [by destruct ds|]. rewrite <- E.
  rewrite parse_hex_loop_digits by (done || (rewrite ?Hv; lia)). by rewrite Hv.
Qed.

(** A plain line keeps its content through the line reader. *)
Lemma strip_cr_crlf l : strip_cr (l ++ [ch_cr]) = l.
Proof. unfold strip_cr. rewrite rev_app_distr. cbn. apply rev_involutive. Qed.

Lemma lf_not_cr l : ch_lf ∉ l -> ch_lf ∉ l ++ [ch_cr].
Proof. intros H. rewrite elem_of_app, list_elem_of_singleton. intros [?|?]; done. Qed.

(** One round on a line that ends in CR LF, within the header budget. *)
Lemma one_crlf p l r :
  is_line_state (state p) = true -> zlen (l ++ crlf ++ r) < 2 ^ 63 -> ch_lf ∉ l ->
  maxHeaderBlock (limits p) < 2 ^ 62 -> 0 <= header_bytes p ->
  header_bytes p + zlen (l ++ crlf) <= maxHeaderBlock (limits p) ->
  one p (l ++ crlf ++ r) =
    as_round (read_line l (with_header_bytes p (header_bytes p + zlen (l ++ crlf))), r).
Proof.
  intros Hl Hs Hlf Hm H0 Hb. pose proof (zlen_nonneg l).
  assert (zlen (l ++ [ch_cr]) + 1 = zlen (l ++ crlf)) as Hz 
    by (rewrite !zlen_app; change (zlen crlf) with 2; change (zlen [ch_cr]) with 1; lia).
  assert (l ++ crlf ++ r = (l ++ [ch_cr]) ++ ch_lf :: r) as E by (by rewrite <- app_assoc).
  destruct (one_line p _ Hl Hs) as [_ Hyes].
  rewrite (Hyes _ _ E (lf_not_cr l Hlf)). rewrite Hz.
  assert (0 <= zlen (l ++ crlf)) by apply zlen_nonneg.
  unfold u64. rewrite Z.mod_small by lia. cbn [header_bytes with_header_bytes]. zcmp.
  by rewrite strip_cr_crlf.
Qed.

(** ** The lines of the head *)

Lemma find_space_status rest : find_char " " (lit "HTTP/1.1" ++ " "%char :: rest) = Some 8%nat.
Proof. reflexivity. Qed.

Lemma to_string_code n : 200 <= n <= 599 -> length (to_string n) = 3%nat.
Proof.
  intros Hn.
  assert (forallb (fun k => length (to_string (200 + Z.of_nat k)) =? 3)%nat (seq 0 400) = true) as H
    by (vm_compute; reflexivity).
  rewrite forallb_forall in H. specialize (H (Z.to_nat (n - 200))).
  rewrite in_seq in H. specialize (H ltac:(lia)). apply Nat.eqb_eq in H. by rewrite Z2Nat.id, Zplus_minus in H by lia.
Qed.

Lemma skip_spaces_status rest c :
  Ascii.eqb " " c = false -> skip_spaces (lit "HTTP/1.1" ++ " "%char :: c :: rest) 8 = 9%nat.
Proof.
  intros Hc. unfold skip_spaces. change (drop 8 (lit "HTTP/1.1" ++ " "%char :: c :: rest)) with
    (" "%char :: c :: rest). cbn [skip_while]. rewrite Ascii.eqb_refl, Hc. rewrite length_app.
  cbn [length]. change (length (lit "HTTP/1.1")) with 8%nat. lia.
Qed.

Lemma read_status_line_ok m p :
  200 <= m_code m <= 599 -> trim (m_reason m) = m_reason m ->
  read_status_line (status_line m) p =
    (NeedMore, with_state (with_response p
       (mkResponse (m_code m) (m_reason m) (headers (response p)) (body (response p)))) HeaderBlock).
Proof.
  intros Hc Hr. pose proof (to_string_code _ Hc) as Hlen.
  destruct (to_string_spec (m_code m)) as (Hd & _ & _); [lia|].
  pose proof (parse_size_to_string (m_code m) ltac:(lia)) as Hp.
  unfold status_line. destruct (to_string (m_code m)) as [|a [|b [|c [|? ?]]]]; try done.
  cbn [forallb] in Hd. apply andb_true_iff in Hd as [Ha Hd]. apply andb_true_iff in Hd as [Hb Hd].
  apply andb_true_iff in Hd as [Hc' _].
  cbn [app]. unfold read_status_line. cbv zeta.
  rewrite find_space_status, skip_spaces_status by (by apply digit_not_space).
  assert (istarts_with (lit "HTTP/1.1" ++ " "%char :: a :: b :: c :: " "%char :: m_reason m) (lit "HTTP/") = true)
    as -> by reflexivity.
  assert (find_char_from " " 9 (lit "HTTP/1.1" ++ " "%char :: a :: b :: c :: " "%char :: m_reason m) = Some 12%nat)
    as ->.
  { unfold find_char_from. change (drop 9 _) with (a :: b :: c :: " "%char :: m_reason m).
    unfold find_char. cbn [find_if]. rewrite (proj2 (digit_not_space a Ha)), (proj2 (digit_not_space b Hb)),
      (proj2 (digit_not_space c Hc')). done. }
  cbn [negb]. rewrite (bool_decide_eq_true_2 (_ = lit "1.1")) by done.
  rewrite andb_false_r. change (drop 9 _) with (a :: b :: c :: " "%char :: m_reason m).
  cbn [take Nat.sub length Nat.eqb negb]. rewrite Hp. zcmp.
  change (drop (12 + 1) _) with (m_reason m). by rewrite Hr.
Qed.

Lemma trim_space_prefix v : trim v = v -> trim (" "%char :: v) = v.
Proof.
  intros H. destruct (trim_parts v) as (a & b & _ & _ & _ & Ht). rewrite H in Ht.
  rewrite <- (app_nil_r v) at 1. apply (trim_of_parts [" "%char]); [by constructor|constructor|done].
Qed.

Lemma read_header_line_ok f p :
  f.1 <> [] -> plain f.1 -> ":"%char ∉ f.1 -> plain f.2 ->
  zlen (headers (response p)) < maxHeaderCount (limits p) ->
  read_header_line (field_line f) p =
    (None, with_headers p (headers (response p) ++ [f])).
Proof.
  destruct f as [n v]. cbn [fst snd]. intros Hne Hn Hcolon Hv Hcount. unfold read_header_line, field_line.
  cbn [fst snd]. destruct n as [|c n]; [done|]. cbn [app nth].
  assert (Ascii.eqb c " " = false /\ Ascii.eqb c ch_tab = false) as [-> ->].
  { destruct (trim_parts (c :: n)) as (a & b & _ & _ & _ & Ht & _). rewrite (proj2 Hn) in Ht.
    specialize (Ht c eq_refl). unfold is_space in Ht.
    destruct (Ascii.eqb c " "), (Ascii.eqb c ch_tab); done. }
  cbn [orb]. unfold split_once. rewrite app_comm_cons, find_char_app_here by done.
  rewrite take_app_length, <- drop_drop, drop_app_length. cbn [drop].
  rewrite (bool_decide_eq_false_2 (c :: n = [])) by done.
  rewrite bool_decide_eq_true_2 by apply Hn. zcmp. by rewrite trim_space_prefix by apply Hv.
Qed.

(** ** Sequences of rounds *)

(** A parser in the middle of a message that nobody has declared bodiless. *)
Definition parser_is (L : Limits) (s : State) (resp : Response) (hb : Z) (p : ResponseParser) : Prop :=
  limits p = L /\ state p = s /\ status p = Ok /\ response p = resp /\ header_bytes p = hb /\
  no_body p = false /\ closed p = false.

(** Rounds lead from one configuration to the other. *)
Definition leads (p : ResponseParser) (a : bytes) (p' : ResponseParser) (a' : bytes) : Prop :=
  forall r p2 a2, rounds p' a' r p2 a2 -> rounds p a r p2 a2.

Lemma leads_refl p a : leads p a p a.
Proof. by intros r p2 a2. Qed.

Lemma leads_trans p1 a1 p2 a2 p3 a3 : leads p1 a1 p2 a2 -> leads p2 a2 p3 a3 -> leads p1 a1 p3 a3.
Proof. intros H1 H2 r p a H. by apply H1, H2. Qed.

Lemma leads_go p a p' a' : one p a = Go p' a' -> leads p a p' a'.
Proof. intros E r p2 a2 H. by eapply rounds_go. Qed.

(** Framing only adds bytes. *)
Lemma chunk_longer c : zlen c <= zlen (chunk c).
Proof.
  unfold chunk. rewrite !zlen_app. pose proof (zlen_nonneg (to_hex (zlen c))).
  change (zlen crlf) with 2. lia.
Qed.

Lemma chunks_longer cs : zlen (concat cs) <= zlen (concat (map chunk cs)).
Proof.
  induction cs as [|c cs IH]; cbn [map concat]; [done|]. rewrite !zlen_app.
  pose proof (chunk_longer c). lia.
Qed.

Section messages.
Variable L : Limits.
Hypothesis HL : limits_ok L.

(** A line the state accepts without finishing. *)
Lemma line_leads s resp hb p l rest (P : ResponseParser -> Prop) :
  parser_is L s resp hb p -> is_line_state s = true -> ch_lf ∉ l -> 0 <= hb ->
  hb + zlen (l ++ crlf) <= maxHeaderBlock L -> zlen (l ++ crlf ++ rest) < 2 ^ 63 ->
  (forall q, parser_is L s resp (hb + zlen (l ++ crlf)) q ->
     exists q', read_line l q = (NeedMore, q') /\ P q') ->
  exists p', leads p (l ++ crlf ++ rest) p' rest /\ P p'.
Proof.
  intros (<- & <- & Hok & <- & <- & Hn & Hc) Hl Hlf H0 Hb Hs Hread.
  pose proof (lim_block _ HL).
  edestruct (Hread (with_header_bytes p (header_bytes p + zlen (l ++ crlf)))) as (q & E & Hq).
  { by split; [|split; [|split; [|split; [|split]]]]. }
  exists q. split; [|done]. apply leads_go. rewrite one_crlf by (done || lia). by rewrite E.
Qed.

Lemma fields_lead fs resp hb p rest :
  parser_is L HeaderBlock resp hb p -> 0 <= hb ->
  Forall (fun f => f.1 <> [] /\ plain f.1 /\ (":"%char ∉ f.1) /\ plain f.2) fs ->
  zlen (headers resp) + zlen fs <= maxHeaderCount L ->
  hb + zlen (lines (map field_line fs)) <= maxHeaderBlock L ->
  zlen (lines (map field_line fs) ++ rest) < 2 ^ 63 ->
  exists p', leads p (lines (map field_line fs) ++ rest) p' rest /\
    parser_is L HeaderBlock
      (mkResponse (status_code resp) (reason resp) (headers resp ++ fs) (body resp))
      (hb + zlen (lines (map field_line fs))) p'.
Proof.
  intros Hp H0 Hfs. revert resp hb p Hp H0.
  induction Hfs as [|f fs (Hne & Hn & Hcol & Hv) Hfs IH]; intros resp hb p Hp H0 Hc Hb Hs.
  { exists p. split; [apply leads_refl|]. cbn. rewrite app_nil_r, Z.add_0_r. by destruct resp. }
  unfold lines in *. cbn [map concat] in *. rewrite <- !app_assoc in Hs |- *.
  rewrite !zlen_app, zlen_cons in *. rewrite <- zlen_app in Hb.
  pose proof (zlen_nonneg (concat (map (fun l => l ++ crlf) (map field_line fs)))).
  pose proof (zlen_nonneg fs). pose proof (zlen_nonneg (field_line f ++ crlf)).
  destruct (line_leads HeaderBlock resp hb p (field_line f)
    (concat (map (fun l => l ++ crlf) (map field_line fs)) ++ rest)
    (parser_is L HeaderBlock
      (mkResponse (status_code resp) (reason resp) (headers resp ++ [f]) (body resp))
      (hb + zlen (field_line f ++ crlf))))
    as (p1 & Hl1 & Hp1); try done.
  - unfold field_line. rewrite elem_of_app, !elem_of_cons.
    intros [?|[?|[?|?]]]; [by apply Hn|done|done|by apply Hv].
  - lia.
  - rewrite !zlen_app. lia.
  - intros q (E1 & E2 & E3 & E4 & E5 & E6 & E7). unfold read_line. rewrite E2.
    destruct (field_line f) as [|c0 l0] eqn:Ef; [by destruct f as [[|? ?] ?]|]. rewrite <- Ef.
    rewrite read_header_line_ok by (done || (rewrite E1, E4; lia)).
    eexists. split; [done|]. unfold parser_is. cbn. rewrite E1, E2, E3, E4, E5, E6, E7, Ef. by splits.
  - rewrite zlen_app in Hb, Hp1. change (zlen crlf) with 2 in *. pose proof (zlen_nonneg (field_line f)).
    destruct (IH _ _ _ Hp1) as (p2 & Hl2 & Hp2); cbn [headers]; rewrite ?zlen_app;
      change (zlen [f]) with 1; try lia.
    exists p2. split; [by eapply leads_trans|]. cbn [status_code reason headers body] in Hp2.
    rewrite <- app_assoc, <- Z.add_assoc in Hp2. exact Hp2.
Qed.

(** One chunk: its size, its data and the line end after them. *)
Lemma chunk_leads resp hb p c rest :
  parser_is L BodyChunkSize resp hb p -> 0 <= hb -> c <> [] -> zlen c <= maxChunkSize L ->
  zlen (body resp) + zlen c <= maxBody L ->
  hb + (zlen (chunk c) - zlen c) <= maxHeaderBlock L -> zlen (chunk c ++ rest) < 2 ^ 63 ->
  exists p', leads p (chunk c ++ rest) p' rest /\
    parser_is L BodyChunkSize
      (mkResponse (status_code resp) (reason resp) (headers resp) (body resp ++ c))
      (hb + (zlen (chunk c) - zlen c)) p'.
Proof.
  intros Hp H0 Hc Hcs Hbody Hb Hs. pose proof (lim_chunk _ HL). pose proof (lim_body _ HL).
  assert (0 < zlen c) as Hpos by (destruct c; [done|zlen_lia]).
  destruct (to_hex_spec (zlen c)) as [Hplain Hhex]; [lia|].
  assert (zlen (chunk c) = zlen (to_hex (zlen c) ++ crlf) + zlen c + 2) as Hz.
  { unfold chunk. rewrite app_assoc, !zlen_app. change (zlen crlf) with 2. lia. }
  rewrite Hz in *. pose proof (zlen_nonneg (body resp)). set (hb1 := hb + zlen (to_hex (zlen c) ++ crlf)) in *.
  assert (0 <= hb1) by (unfold hb1; pose proof (zlen_nonneg (to_hex (zlen c) ++ crlf)); lia).
  assert (chunk c ++ rest = to_hex (zlen c) ++ crlf ++ (c ++ crlf ++ rest)) as Ech
    by (unfold chunk; by rewrite <- !app_assoc).
  rewrite Ech in *.
  destruct (line_leads BodyChunkSize resp hb p (to_hex (zlen c)) (c ++ crlf ++ rest)
    (fun q => parser_is L BodyChunkData resp hb1 q /\ chunk_remaining q = zlen c))
    as (p1 & Hl1 & Hp1 & Hr1); try done; [by apply Hplain|lia| |].
  { intros q (E1 & E2 & E3 & E4 & E5 & E6 & E7). unfold read_line. rewrite E2.
    unfold read_chunk_size. rewrite Hhex, E1, E4. unfold u64. rewrite Z.mod_small by lia. zcmp.
    eexists. split; [done|]. split; [|done]. unfold parser_is. cbn. rewrite E1, E3, E4, E5, E6, E7. done. }
  destruct Hp1 as (E1 & E2 & E3 & E4 & E5 & E6 & E7).
  assert (exists p2, leads p1 (c ++ crlf ++ rest) p2 (crlf ++ rest) /\
    parser_is L BodyChunkCrlf
      (mkResponse (status_code resp) (reason resp) (headers resp) (body resp ++ c)) hb1 p2) as (p2 & Hl2 & Hp2).
  { eexists. split.
    - apply leads_go. rewrite one_chunk_data by (rewrite ?Hr1; done || (by destruct c)).
      rewrite Hr1, (zlen_app c). pose proof (zlen_nonneg (crlf ++ rest)). zcmp.
      rewrite drop_app_length', take_app_length' by (unfold zlen; lia). reflexivity.
    - unfold parser_is. cbn. rewrite E1, E3, E4, E5, E6, E7. done. }
  destruct (line_leads BodyChunkCrlf _ hb1 p2 [] rest
    (parser_is L BodyChunkSize (mkResponse (status_code resp) (reason resp) (headers resp) (body resp ++ c))
       (hb1 + 2)) Hp2) as (p3 & Hl3 & Hp3); try done.
  - apply not_elem_of_nil.
  - cbn [app]. change (zlen crlf) with 2. lia.
  - rewrite !app_assoc in Hs. rewrite <- !app_assoc, !zlen_app in Hs. rewrite !zlen_app.
    pose proof (zlen_nonneg (to_hex (zlen c))). change (zlen crlf) with 2 in *. change (zlen []) with 0. lia.
  - intros q (F1 & F2 & F3 & F4 & F5 & F6 & F7). unfold read_line. rewrite F2.
    eexists. split; [done|]. unfold parser_is. cbn. rewrite F1, F3, F4, F5, F6, F7. done.
  - exists p3. split; [|replace (hb + _) with (hb1 + 2) by lia; done].
    eapply leads_trans; [exact Hl1|]. eapply leads_trans; [exact Hl2|exact Hl3].
Qed.

Lemma chunks_lead cs resp hb p rest :
  parser_is L BodyChunkSize resp hb p -> 0 <= hb ->
  Forall (fun c => c <> [] /\ zlen c <= maxChunkSize L) cs ->
  zlen (body resp) + zlen (concat cs) <= maxBody L ->
  hb + (zlen (concat (map chunk cs)) - zlen (concat cs)) <= maxHeaderBlock L ->
  zlen (concat (map chunk cs) ++ rest) < 2 ^ 63 ->
  exists p', leads p (concat (map chunk cs) ++ rest) p' rest /\
    parser_is L BodyChunkSize
      (mkResponse (status_code resp) (reason resp) (headers resp) (body resp ++ concat cs))
      (hb + (zlen (concat (map chunk cs)) - zlen (concat cs))) p'.
Proof.
  intros Hp H0 Hcs. revert resp hb p Hp H0.
  induction Hcs as [|c cs [Hne Hc] Hcs IH]; intros resp hb p Hp H0 Hbody Hb Hs.
  { exists p. split; [apply leads_refl|]. cbn. rewrite app_nil_r, Z.add_0_r. by destruct resp. }
  cbn [map concat] in *. rewrite <- app_assoc in Hs |- *. rewrite (zlen_app c), (zlen_app (chunk c)) in *.
  pose proof (chunk_longer c) as Hcc. pose proof (chunks_longer cs) as Hccs.
  pose proof (zlen_nonneg (concat cs)). pose proof (zlen_nonneg (chunk c)).
  destruct (chunk_leads resp hb p c (concat (map chunk cs) ++ rest)) as (p1 & Hl1 & Hp1);
    try done; [lia|lia|rewrite !zlen_app in *; lia|].
  destruct (IH _ _ _ Hp1) as (p2 & Hl2 & Hp2); cbn [body]; rewrite ?(zlen_app (body resp)); try lia.
  exists p2. split; [by eapply leads_trans|]. cbn [status_code reason headers body] in Hp2.
  rewrite <- app_assoc in Hp2. replace (hb + _) with
    (hb + (zlen (chunk c) - zlen c) + (zlen (concat (map chunk cs)) - zlen (concat cs))) by lia. done.
Qed.

(** The fields of the message itself say nothing about its framing. *)
Lemma get_framing n fs ff :
  Forall field_ok fs -> n = lit "Content-Length" \/ n = lit "Transfer-Encoding" ->
  Headers.get n (fs ++ ff) = Headers.get n ff.
Proof.
  intros H Hn. rewrite get_app. induction H as [|[k v] fs Hf _ IH]; [done|]. cbn [Headers.get].
  destruct Hf as (_ & _ & _ & _ & H1 & H2). cbn [fst] in *.
  assert (iequals k n = false) as -> by (destruct Hn as [-> | ->]; done). exact IH.
Qed.

Lemma agreed_framing fs ff seen :
  Forall field_ok fs -> agreed_length (fs ++ ff) seen = agreed_length ff seen.
Proof.
  induction 1 as [|[k v] fs Hf _ IH]; [done|]. cbn [app agreed_length].
  destruct Hf as (_ & _ & _ & _ & H1 & _). cbn [fst] in *. by rewrite H1.
Qed.

Lemma choose_skip_no_body p resp hb (m : Message) :
  parser_is L HeaderBlock resp hb p -> message_ok L m -> status_code resp = m_code m ->
  (no_body p || ((100 <=? status_code (response p)) && (status_code (response p) <? 200)) ||
   (status_code (response p) =? 204) || (status_code (response p) =? 304)) = false.
Proof.
  intros (_ & _ & _ & -> & _ & -> & _) Hm ->. destruct (ok_code _ _ Hm) as (? & ? & ?). zcmp. done.
Qed.

(** What the blank line leads to, per framing. *)
Lemma choose_framing p hb (m : Message) (resp : Response) :
  message_ok L m -> resp = mkResponse (m_code m) (m_reason m) (all_fields m) [] ->
  parser_is L HeaderBlock resp hb p ->
  chooseBodyFraming p =
    match m_framing m with
    | ByLength b => if zlen b =? 0 then (Complete, with_state (with_body_remaining p 0) Done)
                    else (NeedMore, with_state (with_body_remaining p (zlen b)) BodyLength)
    | ByChunks _ => (NeedMore, with_state p BodyChunkSize)
    | ByClose _ => (NeedMore, with_state p BodyUntilClose)
    end.
Proof.
  intros Hm -> Hp. pose proof (choose_skip_no_body _ _ _ _ Hp Hm eq_refl) as Hskip.
  destruct Hp as (E1 & E2 & E3 & E4 & E5 & E6 & E7). unfold chooseBodyFraming. cbv zeta.
  rewrite Hskip. rewrite E4. cbn [headers]. unfold all_fields, Headers.has.
  rewrite !get_framing, agreed_framing by (auto; apply (ok_fields _ _ Hm)).
  pose proof (ok_body _ _ Hm) as Hb. pose proof (lim_body _ HL).
  destruct (m_framing m) as [b|cs|b]; cbn [framing_fields body_of] in *; [|reflexivity..].
  pose proof (zlen_nonneg b).
  change (Headers.get (lit "Transfer-Encoding") [(lit "Content-Length", to_string (zlen b))]) with
    (@None bytes).
  change (Headers.get (lit "Content-Length") [(lit "Content-Length", to_string (zlen b))]) with
    (Some (to_string (zlen b))).
  change (agreed_length [(lit "Content-Length", to_string (zlen b))] None) with
    (Some (Some (to_string (zlen b)))).
  cbn [default from_option id]. destruct (to_string_spec (zlen b)) as (Hd & _ & _); [lia|].
  rewrite (proj2 (digits_plain _ Hd)), parse_size_to_string, E1 by lia. zcmp.
  by destruct (Z.eqb_spec (zlen b) 0) as [->|].
Qed.

Lemma framing_fields_plain f :
  zlen (body_of f) < 2 ^ 62 ->
  Forall (fun f => f.1 <> [] /\ plain f.1 /\ (":"%char ∉ f.1) /\ plain f.2) (framing_fields f).
Proof.
  intros Hb. destruct f as [b|cs|b]; cbn [framing_fields body_of] in *; [| |constructor].
  - pose proof (zlen_nonneg b). destruct (to_string_spec (zlen b)) as (Hd & _ & _); [lia|].
    repeat constructor; cbn [fst snd]; try done; try (by apply digits_plain);
      try (apply find_char_None; reflexivity).
  - repeat constructor; cbn [fst snd]; try done; apply find_char_None; reflexivity.
Qed.

(** The head of a message, up to the blank line. *)
Lemma head_leads m rest :
  message_ok L m -> zlen (lines (head_lines m) ++ rest) < 2 ^ 63 ->
  exists p, leads (new_ResponseParser L) (lines (head_lines m) ++ rest) p rest /\
    parser_is L HeaderBlock (mkResponse (m_code m) (m_reason m) (all_fields m) [])
      (zlen (lines (head_lines m))) p.
Proof.
  intros Hm Hs. pose proof (lim_body _ HL) as HLb. pose proof (ok_lines _ _ Hm) as Hlines.
  pose proof (ok_body _ _ Hm) as Hbody. destruct (ok_code _ _ Hm) as (Hcode & _).
  pose proof (ok_reason _ _ Hm) as [Hrlf Hrt].
  assert (zlen (lines (head_lines m)) <= maxHeaderBlock L) as Hb.
  { unfold line_bytes in Hlines. destruct (m_framing m) as [b|cs|b]; try lia.
    pose proof (chunks_longer cs). lia. }
  unfold head_lines, lines in *. cbn [map concat] in *.
  fold (lines (map field_line (all_fields m))) in *. rewrite <- !app_assoc in Hs |- *.
  rewrite (zlen_app (status_line m ++ crlf)) in *.
  pose proof (zlen_nonneg (status_line m ++ crlf)).
  pose proof (zlen_nonneg (lines (map field_line (all_fields m)))).
  destruct (line_leads StatusLine empty_Response 0 (new_ResponseParser L) (status_line m)
    (lines (map field_line (all_fields m)) ++ rest)
    (parser_is L HeaderBlock (mkResponse (m_code m) (m_reason m) [] [])
      (zlen (status_line m ++ crlf)))) as (p1 & Hl1 & Hp1); try done; try lia.
  - destruct (to_string_spec (m_code m)) as (Hd & _ & _); [lia|]. apply digits_plain in Hd as [Hd _].
    unfold status_line. rewrite elem_of_app, elem_of_cons, elem_of_app, elem_of_cons.
    intros [Hin|[?|[?|[?|?]]]]; try done. revert Hin. apply find_char_None. reflexivity.
  - intros q (E1 & E2 & E3 & E4 & E5 & E6 & E7). unfold read_line. rewrite E2.
    rewrite read_status_line_ok by done. eexists. split; [done|].
    unfold parser_is. cbn. rewrite E1, E3, E4, E5, E6, E7. done.
  - destruct (fields_lead (all_fields m) _ _ _ rest Hp1) as (p2 & Hl2 & Hp2); try done.
    + unfold all_fields. apply Forall_app. split; [|by apply framing_fields_plain; lia].
      eapply Forall_impl; [apply (ok_fields _ _ Hm)|]. intros f (? & ? & ? & ? & _). done.
    + cbn [headers]. rewrite zlen_nil. pose proof (ok_count _ _ Hm). lia.
    + rewrite !app_assoc, <- app_assoc, zlen_app in Hs.
      pose proof (zlen_nonneg ((status_line m ++ crlf))). lia.
    + exists p2. split; [by eapply leads_trans|]. exact Hp2.
Qed.

(** The response a message must read back as. *)
Definition response_of (m : Message) : Response :=
  mkResponse (m_code m) (m_reason m) (all_fields m) (body_of (m_framing m)).

(** An empty line, whatever the state makes of it. *)
Lemma blank_line p rest :
  is_line_state (state p) = true -> zlen (crlf ++ rest) < 2 ^ 63 -> limits p = L ->
  0 <= header_bytes p -> header_bytes p + 2 <= maxHeaderBlock L ->
  one p (crlf ++ rest) = as_round (read_line [] (with_header_bytes p (header_bytes p + 2)), rest).
Proof.
  intros Hl Hs <- H0 Hb. pose proof (lim_block _ HL). apply (one_crlf p [] rest); try done.
  - apply not_elem_of_nil.
  - lia.
Qed.

Lemma blank_leads m p hb rest :
  message_ok L m ->
  parser_is L HeaderBlock (mkResponse (m_code m) (m_reason m) (all_fields m) []) hb p ->
  0 <= hb -> hb + 2 <= maxHeaderBlock L -> zlen (crlf ++ rest) < 2 ^ 63 ->
  exists p1, parser_is L HeaderBlock (mkResponse (m_code m) (m_reason m) (all_fields m) []) (hb + 2) p1 /\
    one p (crlf ++ rest) = as_round (
    match m_framing m with
    | ByLength b => if zlen b =? 0 then (Complete, with_state (with_body_remaining p1 0) Done)
                    else (NeedMore, with_state (with_body_remaining p1 (zlen b)) BodyLength)
    | ByChunks _ => (NeedMore, with_state p1 BodyChunkSize)
    | ByClose _ => (NeedMore, with_state p1 BodyUntilClose)
    end, rest).
Proof.
  intros Hm Hp H0 Hb Hs. pose proof Hp as (E1 & E2 & E3 & E4 & E5 & E6 & E7).
  exists (with_header_bytes p (hb + 2)).
  assert (parser_is L HeaderBlock (mkResponse (m_code m) (m_reason m) (all_fields m) []) (hb + 2)
    (with_header_bytes p (hb + 2))) as Hp1 by (unfold parser_is; cbn; rewrite E1, E2, E3, E4, E6, E7; done).
  split; [done|]. rewrite blank_line by (rewrite ?E2, ?E5; done || lia).
  unfold read_line. cbn [state with_header_bytes]. rewrite E2, E5.
  by rewrite (choose_framing _ _ m _ Hm eq_refl Hp1).
Qed.

(** The last chunk and the empty trailer. *)
Lemma last_chunk resp hb p rest :
  parser_is L BodyChunkSize resp hb p -> 0 <= hb -> hb + 5 <= maxHeaderBlock L ->
  zlen (body resp) <= maxBody L -> zlen (lit "0" ++ crlf ++ crlf ++ rest) < 2 ^ 63 ->
  exists p', rounds p (lit "0" ++ crlf ++ crlf ++ rest) Complete p' rest /\
    response p' = resp /\ status p' = Ok.
Proof.
  intros Hp H0 Hb Hbody Hs. pose proof (lim_chunk _ HL). pose proof (lim_body _ HL).
  rewrite !zlen_app in Hs. change (zlen (lit "0")) with 1 in Hs. change (zlen crlf) with 2 in Hs.
  destruct (line_leads BodyChunkSize resp hb p (lit "0") (crlf ++ rest)
    (parser_is L BodyTrailers resp (hb + 3)) Hp) as (p1 & Hl1 & Hp1); try done.
  - apply find_char_None. reflexivity.
  - change (zlen (lit "0" ++ crlf)) with 3. lia.
  - rewrite !zlen_app. change (zlen (lit "0")) with 1. change (zlen crlf) with 2. lia.
  - intros q (E1 & E2 & E3 & E4 & E5 & E6 & E7). unfold read_line. rewrite E2.
    unfold read_chunk_size. change (parse_chunk_size (lit "0")) with (Some 0). rewrite E1, E4.
    pose proof (zlen_nonneg (body resp)). unfold u64. rewrite Z.mod_small by lia. zcmp.
    eexists. split; [done|]. unfold parser_is. cbn. rewrite E1, E3, E4, E5, E6, E7. done.
  - destruct Hp1 as (E1 & E2 & E3 & E4 & E5 & E6 & E7). eexists. split; [apply Hl1, rounds_stop|].
    + rewrite blank_line by (rewrite ?E2, ?E5, ?zlen_app; done || (change (zlen crlf) with 2; lia)).
      unfold read_line. cbn [state with_header_bytes]. rewrite E2. reflexivity.
    + split; [exact E4|exact E3].
Qed.

Lemma close_leads p a :
  state p = BodyUntilClose -> closed p = false -> body (response p) = [] -> limits p = L ->
  a <> [] -> zlen a <= maxBody L -> one p a = Go (add_body p a) [].
Proof.
  intros Hst Hc Hb HLp Ha Hmax. unfold one, parseBodyUntilClose. rewrite Hst. cbn [is_line_state].
  cbn [q_size q_copyRange q_remove bytes_ByteQueue].
  pose proof (lim_body _ HL). assert (0 < zlen a) by (destruct a; [done|zlen_lia]).
  rewrite Hb, HLp. change (zlen (@nil byte)) with 0. unfold u64. rewrite Z.mod_small by lia. zcmp.
  rewrite Z.sub_0_r, drop_0, take_ge, drop_ge by (unfold zlen; lia). cbn. by rewrite Hc.
Qed.

Lemma message_rounds m rest :
  message_ok L m -> zlen (render m ++ rest) < 2 ^ 63 ->
  match m_framing m with ByClose _ => rest = [] | _ => True end ->
  exists p', response p' = response_of m /\ status p' = Ok /\
    match m_framing m with
    | ByClose _ => rounds (new_ResponseParser L) (render m ++ rest) NeedMore p' rest /\
                   state p' = BodyUntilClose
    | _ => rounds (new_ResponseParser L) (render m ++ rest) Complete p' rest
    end.
Proof.
  intros Hm Hs Hrest. pose proof (ok_lines _ _ Hm) as Hlines. pose proof (ok_body _ _ Hm) as Hbody.
  pose proof (ok_chunks _ _ Hm) as Hchunks. unfold line_bytes, render, response_of in *.
  rewrite <- !app_assoc in Hs |- *.
  pose proof (zlen_nonneg (lines (head_lines m))) as Hh0.
  destruct (head_leads m (crlf ++ framed_body (m_framing m) ++ rest) Hm Hs) as (p1 & Hl1 & Hp1).
  rewrite zlen_app in Hs. set (hb := zlen (lines (head_lines m))) in *.
  assert (zlen (crlf ++ framed_body (m_framing m) ++ rest) < 2 ^ 63) as Hs1 by lia.
  destruct (blank_leads m p1 hb (framed_body (m_framing m) ++ rest) Hm Hp1 Hh0)
    as (p2 & Hp2 & E2); [|done|].
  { destruct (m_framing m) as [b|cs|b]; try lia. pose proof (chunks_longer cs). lia. }
  pose proof Hp2 as (F1 & F2 & F3 & F4 & F5 & F6 & F7).
  rewrite zlen_app in Hs1. change (zlen crlf) with 2 in Hs1.
  destruct (m_framing m) as [b|cs|b]; cbn [framed_body body_of] in *.
  - destruct (Z.eqb_spec (zlen b) 0) as [E0|E0]; cbn [as_round] in E2.
    + assert (b = []) as -> by (by apply length_zero_iff_nil; unfold zlen in E0; lia).
      eexists. split; [|split; [|apply Hl1, rounds_stop; exact E2]]; cbn; [|done]. by rewrite F4.
    + eexists. split; [|split; [|apply Hl1; eapply rounds_go; [exact E2|apply rounds_stop]]].
      3:{ rewrite one_body_length; [|done|cbn; pose proof (zlen_nonneg b); lia|by destruct b].
          cbn [body_remaining with_body_remaining with_state]. rewrite (zlen_app b).
          pose proof (zlen_nonneg rest). zcmp.
          rewrite take_app_length', drop_app_length' by (unfold zlen; lia). reflexivity. }
      * cbn. by rewrite F4.
      * done.
  - assert (parser_is L BodyChunkSize (mkResponse (m_code m) (m_reason m) (all_fields m) []) (hb + 2)
      (with_state p2 BodyChunkSize)) as Hp3 by (by splits).
    rewrite <- !app_assoc in *.
    pose proof (chunks_longer cs) as Hcc.
    destruct (chunks_lead cs _ _ _ (lit "0" ++ crlf ++ crlf ++ rest) Hp3) as (p4 & Hl4 & Hp4);
      cbn [body]; rewrite ?zlen_nil; try done; try lia.
    cbn [status_code reason headers body app] in Hp4.
    destruct (last_chunk _ _ _ rest Hp4) as (p5 & Hr5 & E5 & Eok5); cbn [body]; try lia.
    { rewrite zlen_app in Hs1. pose proof (zlen_nonneg (concat (map chunk cs))). lia. }
    exists p5. split; [done|]. split; [done|].
    apply Hl1. eapply rounds_go; [exact E2|]. by apply Hl4.
  - subst rest. rewrite app_nil_r in *. cbn [as_round] in E2.
    destruct (decide (b = [])) as [->|Hne].
    + exists (with_state p2 BodyUntilClose). split; [cbn; by rewrite F4|]. split; [done|].
      split; [|done]. apply Hl1. eapply rounds_go; [exact E2|].
      apply rounds_wait. unfold one. cbn. by rewrite F7.
    + exists (add_body (with_state p2 BodyUntilClose) b). split; [cbn; by rewrite F4|]. split; [done|].
      split; [|done]. apply Hl1. eapply rounds_go; [exact E2|].
      eapply rounds_go; [apply close_leads; cbn; rewrite ?F4; done|].
      apply rounds_wait. unfold one. cbn. by rewrite F7.
Qed.
End messages.

(** ** Properties *)

(** C3. A well-formed response within the limits reads back in full: whatever
    its status, reason, header fields and framing - a Content-Length, any
    sequence of chunks, or a body that runs to the close - and whatever follows
    it in the queue, [parse] completes with exactly its status code, reason,
    fields in order and body, and leaves exactly what follows unconsumed. A
    body that runs to the close is completed by [finish]. *)
Theorem message_roundtrip {Q} `{!ByteQueue Q} L m (q : Q) rest (HL : limits_ok L)
    (Hm : message_ok L m) (Hq : q_ok q) (Hlive : q_live q = render m ++ rest)
    (Hclose : match m_framing m with ByClose _ => rest = [] | _ => True end) :
  exists r p' q', parse (new_ResponseParser L) q = Some (r, p', q') /\ q_live q' = rest /\
    response p' = response_of m /\
    match m_framing m with
    | ByClose _ => r = NeedMore /\ fst (finish p') = Complete /\ response (snd (finish p')) = response_of m
    | _ => r = Complete
    end.
Proof.
  pose proof (q_small q Hq) as Hs. rewrite Hlive in Hs.
  pose proof (inv_new L HL) as Hinv.
  destruct (message_rounds L HL m rest Hm Hs Hclose) as (p' & Hresp & Hok & Hr).
  destruct (parse_rounds (new_ResponseParser L) _ Hinv eq_refl Hs) as (r2 & p2 & a2 & E2 & Hr2).
  pose proof (parse_lower (new_ResponseParser L) q Hinv Hq) as Hl. rewrite Hlive, E2 in Hl.
  destruct (parse (new_ResponseParser L) q) as [[[r3 p3] q3]|]; [|done]. destruct Hl as [Hl _].
  simplify_eq. exists r3, p3, q3. split; [done|].
  destruct (m_framing m).
  - pose proof (rounds_det _ _ _ _ _ _ _ _ Hr Hr2). by simplify_eq.
  - pose proof (rounds_det _ _ _ _ _ _ _ _ Hr Hr2). by simplify_eq.
  - destruct Hr as [Hr Hst]. pose proof (rounds_det _ _ _ _ _ _ _ _ Hr Hr2). simplify_eq.
    splits; try done; unfold finish; rewrite Hok, Hst; done.
Qed.

Definition demo_message : Message :=
  mkMessage 200 (lit "OK") [(lit "Server", lit "samurai 1.0")] (ByChunks [lit "hello "; lit "world"]).

Lemma demo_message_ok : message_ok default_Limits demo_message.
Proof.
  constructor.
  - cbn. lia.
  - split; [apply find_char_None|]; reflexivity.
  - repeat constructor; cbn [fst snd]; try done; try (apply find_char_None); reflexivity.
  - by apply Z.leb_le.
  - by apply Z.leb_le.
  - by apply Z.leb_le.
  - repeat constructor; done.
Qed.

Lemma message_roundtrip_witness :
  message_ok default_Limits demo_message /\
  exists p' q', parse (new_ResponseParser default_Limits) (render demo_message ++ lit "next") =
      Some (Complete, p', q') /\ q' = lit "next" /\ body (response p') = lit "hello world".
Proof.
  split; [exact demo_message_ok|].
  assert (limits_ok default_Limits) as HL by (constructor; done).
  assert (q_ok (render demo_message ++ lit "next")) as Hq by (by vm_compute).
  destruct (message_roundtrip default_Limits demo_message (render demo_message ++ lit "next") (lit "next")
    HL demo_message_ok Hq eq_refl I) as (r & p' & q' & E & El & Er & ->).
  exists p', q'. split; [exact E|]. split; [exact El|]. by rewrite Er.
Defined.
