(* ===== verification/Inet.v ===== *)
(** * Inet: [InetAddress] of [src/io/net/inetaddress.cpp]

    Addresses as their version and raw bytes, the classification predicates,
    and the parsing of literals. The conversion itself is the system's
    [inet_pton], a parameter here; what the code adds around it - brackets, and
    the refusal of dotted quads with leading zeros - is modelled. *)

From S2P Require Import Prelude Strings.

(* @src src/include/samurai/io/net/inetaddress.h:30-30 Samurai::IO::Net::InetAddress::Version *)
Inductive Version := Unspecified | IPv4 | IPv6.
(* @src src/include/samurai/io/net/inetaddress.h:31-31 Samurai::IO::Net::InetAddress::ResolveState *)
Inductive ResolveState := Unresolved | Resolving | ResolveError | Resolved.

#[export] Instance Version_eq_dec : EqDecision Version.
Proof. solve_decision. Defined.
#[export] Instance ResolveState_eq_dec : EqDecision ResolveState.
Proof. solve_decision. Defined.

(** [data] is the union of [in_addr] and [in6_addr]: sixteen bytes, zero where
    the address does not reach. *)
(* @src src/include/samurai/io/net/inetaddress.h:127-133 Samurai::IO::Net::InetAddress *)
Record InetAddress := mkInetAddress {
  version : Version;
  data : bytes;
  hostname : bytes;
  resolveState : ResolveState
}.

Definition zero_data : bytes := replicate 16 (chr 0).

(** Copying raw bytes over cleared storage. *)
Definition fill_data (raw : bytes) : bytes := raw ++ replicate (16 - length raw) (chr 0).

(** ** Numbers in the address *)

(** [ntohl] of the first four bytes in memory. *)
(* @src src/src/io/net/inetaddress.cpp:229-233 Samurai::IO::Net::InetAddress::getIPv4HostOrder *)
Definition getIPv4HostOrder (a : InetAddress) : Z :=
  if bool_decide (version a = IPv4) then le_value (rev (take 4 (data a))) else 0.

(** The accessors of the IPv6 form; words and shorts are only compared with
    zero, so the host's byte order does not show. *)
(* @src src/include/samurai/io/net/socketglue.h:353-359 Samurai::IO::Net::__InternalAddress *)
Definition ipv6_32 (a : InetAddress) (i : nat) : Z := le_value (take 4 (drop (4 * i) (data a))).
(* @src src/include/samurai/io/net/socketglue.h:353-359 Samurai::IO::Net::__InternalAddress *)
Definition ipv6_16 (a : InetAddress) (i : nat) : Z := le_value (take 2 (drop (2 * i) (data a))).
(* @src src/include/samurai/io/net/socketglue.h:353-359 Samurai::IO::Net::__InternalAddress *)
Definition ipv6_08 (a : InetAddress) (i : nat) : Z := code (nth i (data a) (chr 0)).

(** ** Printing *)

(** [inet_ntop] is the system's: the text of raw bytes, or null. *)
(* @src src/src/io/net/inetaddress.cpp:331-349 Samurai::IO::Net::InetAddress::getAddress *)
Definition getAddress (inet_ntop : Version -> bytes -> option bytes) (a : InetAddress) : bytes :=
  if negb (bool_decide (resolveState a = Resolved)) then hostname a
  else
    let ret := match version a with
               | IPv4 => inet_ntop IPv4 (take 4 (data a))
               | IPv6 => inet_ntop IPv6 (data a)
               | Unspecified => None
               end in
    default [] ret.

(* @src src/src/io/net/inetaddress.cpp:352-359 Samurai::IO::Net::InetAddress::toString *)
Definition toString (inet_ntop : Version -> bytes -> option bytes) (a : InetAddress) : bytes := getAddress inet_ntop a.

(** ** Classification *)

(* @src src/src/io/net/inetaddress.cpp:236-253 Samurai::IO::Net::InetAddress::isValid *)
Definition isValid (a : InetAddress) : bool :=
  match version a with
  | IPv4 =>
      let host_order := getIPv4HostOrder a in
      if host_order =? 0 then false
      else if Z.land host_order 0xf0000000 =? 0xf0000000 then false
      else true
  | IPv6 => negb (ipv6_32 a 0 =? 0) || negb (ipv6_32 a 1 =? 0) ||
            negb (ipv6_32 a 2 =? 0) || negb (ipv6_32 a 3 =? 0)
  | Unspecified => false
  end.

(* @src src/src/io/net/inetaddress.cpp:256-270 Samurai::IO::Net::InetAddress::isMulticast *)
Definition isMulticast (a : InetAddress) : bool :=
  match version a with
  | IPv4 => let host_order := getIPv4HostOrder a in
            (0xe0000000 <=? host_order) && (host_order <? 0xf0000000)
  | IPv6 => ipv6_08 a 0 =? 0xff
  | Unspecified => false
  end.

(* @src src/src/io/net/inetaddress.cpp:273-290 Samurai::IO::Net::InetAddress::isPrivate *)
Definition isPrivate (a : InetAddress) : bool :=
  match version a with
  | IPv4 =>
      let host_order := getIPv4HostOrder a in
      if Z.land host_order 0xff000000 =? 0x0a000000 then true
      else if Z.land host_order 0xfff00000 =? 0xac100000 then true
      else if Z.land host_order 0xffff0000 =? 0xc0a80000 then true
      else false
  | IPv6 => Z.land (ipv6_08 a 0) 0xfe =? 0xfc
  | Unspecified => false
  end.

(* @src src/src/io/net/inetaddress.cpp:293-307 Samurai::IO::Net::InetAddress::isLinkLocal *)
Definition isLinkLocal (a : InetAddress) : bool :=
  match version a with
  | IPv4 => Z.land (getIPv4HostOrder a) 0xffff0000 =? 0xa9fe0000
  | IPv6 => (ipv6_08 a 0 =? 0xfe) && (Z.land (ipv6_08 a 1) 0xc0 =? 0x80)
  | Unspecified => false
  end.

(* @src src/src/io/net/inetaddress.cpp:310-326 Samurai::IO::Net::InetAddress::isLoopback *)
Definition isLoopback (a : InetAddress) : bool :=
  match version a with
  | IPv4 => Z.land (getIPv4HostOrder a) 0xff000000 =? 0x7f000000
  | IPv6 => (ipv6_32 a 0 =? 0) && (ipv6_32 a 1 =? 0) && (ipv6_32 a 2 =? 0) &&
            (ipv6_16 a 6 =? 0) && (ipv6_08 a 14 =? 0) && (ipv6_08 a 15 =? 1)
  | Unspecified => false
  end.

(* @src src/src/io/net/inetaddress.cpp:452-456 Samurai::IO::Net::InetAddress::isResolved *)
Definition isResolved (a : InetAddress) : bool :=
  isValid a && bool_decide (resolveState a = Resolved).

(** The sixteen bytes of storage are compared, whatever the family uses of them; neither
    the name nor how far a lookup has come takes part. *)
(* @src src/src/io/net/inetaddress.cpp:367-374 Samurai::IO::Net::InetAddress::operator== *)
Definition same_address (a b : InetAddress) : bool :=
  bool_decide (version a = version b) && bool_decide (data a = data b).

(** An address of a version, and copying: a lookup under way is not copied, and the one of
    an address that is assigned to is abandoned. *)
(* @src src/src/io/net/inetaddress.cpp:103-107 Samurai::IO::Net::InetAddress::InetAddress *)
Definition new_of_version (ip_version : Version) : InetAddress := mkInetAddress ip_version zero_data [] Unresolved.
(* @src src/src/io/net/inetaddress.cpp:183-200 Samurai::IO::Net::InetAddress::InetAddress *)
Definition copy_address (address : InetAddress) : InetAddress :=
  mkInetAddress (version address) (data address) (hostname address) (resolveState address).
(* @src src/src/io/net/inetaddress.cpp:433-448 Samurai::IO::Net::InetAddress::operator= *)
Definition assign_copy (self : bool) (copy a : InetAddress) : InetAddress := if self then a else copy_address copy.
(* @src src/src/io/net/inetaddress.cpp:362-364 Samurai::IO::Net::InetAddress::getType *)
Definition getType (a : InetAddress) : Version := version a.

(** A copy is the address it was made of; nothing of the one assigned to is left. *)
Lemma copies_are_same self a b :
  copy_address a = a /\ same_address (assign_copy false a b) a = true /\ assign_copy self a a = a /\
  getType (assign_copy false a b) = version a.
Proof.
  destruct a. split; [done|]. split; [|by destruct self].
  unfold same_address, assign_copy. cbn. by rewrite !bool_decide_eq_true_2.
Qed.

(** [None] is [false], which leaves the address as it was. *)
(* @src src/src/io/net/inetaddress.cpp:216-226 Samurai::IO::Net::InetAddress::setRawAddress *)
Definition setRawAddress (raw : bytes) (ip_version : Version) (a : InetAddress) : option InetAddress :=
  if bool_decide (ip_version = IPv4) && (zlen raw <? 4) then None
  else if bool_decide (ip_version = IPv6) && (zlen raw <? 16) then None
  else Some (mkInetAddress ip_version (fill_data raw) (hostname a) Resolved).

(** ** Literals *)

(** The loop of [is_canonical_dotted_quad]: [prev] is the character before. *)
(* @src src/src/io/net/inetaddress.cpp:523-541 is_canonical_dotted_quad *)
Fixpoint canonical_loop (p : bytes) (prev : byte) (digits octets : Z) : bool :=
  match p with
  | [] => (0 <? digits) && (octets =? 4)
  | c :: p =>
      if Ascii.eqb c "." then
        if digits =? 0 then false else canonical_loop p c 0 (octets + 1)
      else if (code c <? code "0") || (code "9" <? code c) then false
      else if (digits =? 1) && Ascii.eqb prev "0" then false
      else if 3 <? digits + 1 then false
      else canonical_loop p c (digits + 1) octets
  end.

(* @src src/src/io/net/inetaddress.cpp:518-542 is_canonical_dotted_quad *)
Definition is_canonical_dotted_quad (text : bytes) : bool := canonical_loop text (chr 0) 0 1.

(* @src src/src/io/net/inetaddress.cpp:548-554 has_canonical_embedded_ipv4 *)
Definition has_canonical_embedded_ipv4 (text : bytes) : bool :=
  match find_char "." text with
  | None => true
  | Some _ =>
      match rfind_char ":" text with
      | None => is_canonical_dotted_quad text
      | Some colon => is_canonical_dotted_quad (drop (colon + 1) text)
      end
  end.

(** [text] between square brackets, or [text] itself. *)
(* @src src/src/io/net/inetaddress.cpp:562-564 Samurai::IO::Net::InetAddress::stringToAddress *)
Definition unbracket (text : bytes) : bytes :=
  if (2 <? zlen text) && Ascii.eqb (nth 0 text (chr 0)) "[" &&
     Ascii.eqb (nth (length text - 1) text (chr 0)) "]"
  then take (length text - 2) (drop 1 text) else text.

Section pton.
(** [inet_pton]: the raw bytes of a literal of the family, 4 or 16 of them. It is given a
    C string: what comes before the first terminator of a text. *)
Variable inet_pton : Version -> bytes -> option bytes.

(* @src src/src/io/net/inetaddress.cpp:556-579 Samurai::IO::Net::InetAddress::stringToAddress *)
Definition stringToAddress (v : Version) (address : bytes) : option bytes :=
  match c_str address with
  | [] => None
  | address =>
      let text := unbracket address in
      match v with
      | IPv4 => if negb (is_canonical_dotted_quad text) then None else inet_pton IPv4 text
      | IPv6 => if negb (has_canonical_embedded_ipv4 text) then None else inet_pton IPv6 text
      | Unspecified => None
      end
  end.

(** The constructor from text with a requested version. *)
(* @src src/src/io/net/inetaddress.cpp:109-180 Samurai::IO::Net::InetAddress::InetAddress *)
Definition new_InetAddress_version (address : bytes) (ip_version : Version) : InetAddress :=
  let unresolved := mkInetAddress Unspecified zero_data address Unresolved in
  let resolved v raw := mkInetAddress v (fill_data raw) address Resolved in
  match address with
  | [] => resolved IPv4 []
  | _ =>
      match ip_version with
      | Unspecified =>
          match stringToAddress IPv4 address with
          | Some raw => resolved IPv4 raw
          | None => match stringToAddress IPv6 address with
                    | Some raw => resolved IPv6 raw
                    | None => unresolved
                    end
          end
      | v => match stringToAddress v address with
             | Some raw => resolved v raw
             | None => unresolved
             end
      end
  end.

(* @src src/include/samurai/io/net/inetaddress.h:36-36 Samurai::IO::Net::InetAddress::InetAddress *)
Definition new_InetAddress (address : bytes) : InetAddress :=
  new_InetAddress_version address Unspecified.

(** [operator=] from text: its own order of attempts, without the canonical
    check. *)
(* @src src/src/io/net/inetaddress.cpp:376-431 Samurai::IO::Net::InetAddress::operator= *)
Definition assign_text (address : bytes) : InetAddress :=
  let resolved v raw literal := mkInetAddress v (fill_data raw) literal Resolved in
  match address with
  | [] => mkInetAddress Unspecified zero_data [] Unresolved
  | _ =>
      match inet_pton IPv4 (c_str address) with
      | Some raw => resolved IPv4 raw address
      | None =>
          match inet_pton IPv6 (c_str address) with
          | Some raw => resolved IPv6 raw address
          | None =>
              let addr2 := take (length address - 2) (drop 1 address) in
              match (if (2 <? zlen address) && Ascii.eqb (nth 0 address (chr 0)) "[" &&
                        Ascii.eqb (nth (length address - 1) address (chr 0)) "]"
                     then inet_pton IPv6 (c_str addr2) else None) with
              | Some raw => resolved IPv6 raw addr2
              | None => mkInetAddress Unspecified zero_data address Unresolved
              end
          end
      end
  end.
End pton.

(** ** Masks *)

Lemma land_mask n k :
  0 <= n < 2 ^ 32 -> 0 <= k <= 32 -> Z.land n (2 ^ 32 - 2 ^ k) = n / 2 ^ k * 2 ^ k.
Proof.
  intros Hn Hk.
  assert (2 ^ 32 - 2 ^ k = Z.shiftl (Z.ones (32 - k)) k) as ->.
  { rewrite Z.shiftl_mul_pow2, Z.ones_equiv, <- Z.sub_1_r, Z.mul_sub_distr_r by lia.
    rewrite <- Z.pow_add_r by lia. replace (32 - k + k) with 32 by lia. lia. }
  rewrite <- Z.shiftr_div_pow2, <- Z.shiftl_mul_pow2 by lia.
  apply Z.bits_inj'. intros i Hi. rewrite Z.land_spec, !Z.shiftl_spec by lia.
  destruct (Z.lt_ge_cases i k) as [Hik|Hik].
  - rewrite !(Z.testbit_neg_r _ (i - k)) by lia. apply andb_false_r.
  - rewrite Z.shiftr_spec by lia. replace (i - k + k) with i by lia.
    destruct (Z.lt_ge_cases i 32) as [H32|H32].
    + rewrite Z.ones_spec_low by lia. apply andb_true_r.
    + rewrite Z.ones_spec_high by lia. rewrite andb_false_r. symmetry.
      destruct (Z.eq_dec n 0) as [->|]; [apply Z.testbit_0_l|].
      apply Z.bits_above_log2; [lia|]. apply Z.log2_lt_pow2; [lia|].
      apply Z.lt_le_trans with (2 ^ 32); [lia|]. apply Z.pow_le_mono_r; lia.
Qed.

(** The address 'a.b.c.d'. *)
Definition ipv4 (a b c d : Z) : InetAddress :=
  mkInetAddress IPv4 (fill_data [chr a; chr b; chr c; chr d]) [] Resolved.

Definition octet (z : Z) : Prop := 0 <= z < 256.

Lemma host_order_ipv4 a b c d :
  octet a -> octet b -> octet c -> octet d ->
  getIPv4HostOrder (ipv4 a b c d) = a * 2 ^ 24 + b * 2 ^ 16 + c * 2 ^ 8 + d.
Proof.
  unfold octet. intros. unfold getIPv4HostOrder, ipv4, fill_data. cbn [version data].
  rewrite bool_decide_eq_true_2 by done. cbn. rewrite !code_chr_small by lia. lia.
Qed.

(** Decides the classification of a host-order value by its masks. *)
Ltac masks :=
  repeat match goal with
  | |- context [Z.land ?n ?m] =>
      let k := match m with
               | 0xff000000 => constr:(24) | 0xfff00000 => constr:(20)
               | 0xffff0000 => constr:(16) | 0xf0000000 => constr:(28) end in
      change (Z.land n m) with (Z.land n (2 ^ 32 - 2 ^ k)); rewrite (land_mask n k) by lia
  end.

(** Two boolean tests agree when they say the same in arithmetic. *)
Ltac bool_arith :=
  apply eq_true_iff_eq; rewrite ?andb_true_iff, ?orb_true_iff, ?negb_true_iff, ?andb_true_iff,
    ?Z.eqb_eq, ?Z.leb_le, ?Z.ltb_lt, ?Z.eqb_neq, ?andb_false_iff, ?Z.eqb_neq; div_lia.

(** ** Canonical dotted quads *)

(** An octet of a dotted quad: one to three digits, and no leading zero. *)
Definition octet_text (f : bytes) : Prop :=
  forallb is_digit f = true /\ (1 <= length f <= 3)%nat /\
  ((1 < length f)%nat -> head f <> Some "0"%char).

(** The part of an octet read so far. *)
Definition octet_prefix (cur : bytes) : Prop :=
  forallb is_digit cur = true /\ (length cur <= 3)%nat /\
  ((1 < length cur)%nat -> head cur <> Some "0"%char).

Lemma octet_prefix_snoc cur c :
  octet_prefix cur -> is_digit c = true -> cur <> ["0"%char] -> (length cur < 3)%nat ->
  octet_prefix (cur ++ [c]).
Proof.
  intros (Hd & Hl & Hz) Hc H0 Hlt. split; [rewrite forallb_app, Hd; cbn; by rewrite Hc|].
  rewrite length_app. cbn [length]. split; [lia|]. intros H1.
  destruct cur as [|d [|e cur]]; [by cbn in *; lia| |].
  - cbn. congruence.
  - apply Hz. cbn. lia.
Qed.

Lemma join_cons_field sep f fs : fs <> [] -> join sep (f :: fs) = f ++ sep :: join sep fs.
Proof. by destruct fs. Qed.

(** A field without the separator is the first field of a join. *)
Lemma join_first sep f r fs :
  fs <> [] -> Forall (fun g => sep ∉ g) fs -> sep ∉ f -> f ++ sep :: r = join sep fs ->
  exists fs', fs = f :: fs' /\ fs' <> [] /\ r = join sep fs'.
Proof.
  intros Hne Hall Hf E. destruct fs as [|g fs]; [done|]. apply Forall_cons in Hall as [Hg Hall].
  destruct fs as [|h fs].
  - exfalso. apply Hg. cbn in E. rewrite <- E. apply elem_of_app. right. left.
  - rewrite join_cons_field in E by done. apply cut_inj in E as [-> ->]; [|done..]. eauto.
Qed.

Lemma octet_text_nodot f : octet_text f -> "."%char ∉ f.
Proof.
  intros (Hd & _) Hin. apply list_elem_of_In in Hin. rewrite forallb_forall in Hd.
  by specialize (Hd _ Hin).
Qed.

Lemma octet_prefix_text cur : octet_prefix cur -> cur <> [] -> octet_text cur.
Proof. intros (? & ? & ?) Hne. split; [done|]. split; [|done]. destruct cur; [done|]. cbn in *. lia. Qed.

Lemma octet_prefix_nodot cur : octet_prefix cur -> "."%char ∉ cur.
Proof.
  intros H. destruct (decide (cur = [])) as [->|]; [apply not_elem_of_nil|].
  by apply octet_text_nodot, octet_prefix_text.
Qed.

Lemma octet_prefix_nil : octet_prefix [].
Proof. split; [done|]. cbn. split; lia. Qed.

(** The previous character, as the loop sees it. *)
Definition last_char (cur : bytes) (prev : byte) : Prop :=
  match rev cur with [] => True | c :: _ => prev = c end.

Lemma not_digit_octet c cur r fs :
  is_digit c = false -> c <> "."%char -> Forall octet_text fs -> cur ++ c :: r <> join "." fs.
Proof.
  intros Hc Hdot Hfs E.
  assert (Forall (fun d => is_digit d = true \/ d = "."%char) (join "." fs)) as Hall.
  { clear E. induction Hfs as [|f fs (Hd & _) _ IH]; [constructor|].
    assert (Forall (fun d => is_digit d = true \/ d = "."%char) f) as Hf.
    { apply Forall_forall. intros d Hin. left. rewrite forallb_forall in Hd. by apply Hd, list_elem_of_In. }
    destruct fs as [|g fs]; [exact Hf|]. rewrite join_cons_field by done.
    apply Forall_app. split; [exact Hf|]. constructor; [by right|exact IH]. }
  rewrite <- E in Hall. apply Forall_app in Hall as [_ Hall]. apply Forall_cons in Hall as [[?|?] _]; congruence.
Qed.

Lemma join_prefix sep cur p fs :
  fs <> [] -> sep ∉ cur -> cur ++ p = join sep fs ->
  exists f fs' rest, fs = f :: fs' /\ f = cur ++ rest.
Proof.
  intros Hne Hcur E. destruct fs as [|f fs]; [done|]. exists f, fs.
  destruct fs as [|g fs]; [by exists p|]. rewrite join_cons_field in E by done.
  apply app_eq_inv in E as [(k & -> & E)|(k & -> & E)]; [|by exists k].
  destruct k as [|c k]; [exists []; by rewrite !app_nil_r|].
  exfalso. apply Hcur. injection E as <- _. apply elem_of_app. right. left.
Qed.

Lemma canonical_loop_spec p prev cur octets :
  octet_prefix cur -> last_char cur prev ->
  canonical_loop p prev (zlen cur) octets = true <->
  exists fs, cur ++ p = join "." fs /\ Forall octet_text fs /\ octets + zlen fs = 5 /\ fs <> [].
Proof.
  revert prev cur octets. induction p as [|c p IH]; intros prev cur octets Hcur Hlast.
  { cbn [canonical_loop]. rewrite app_nil_r, andb_true_iff, Z.ltb_lt, Z.eqb_eq. split.
    - intros [Hl ->]. exists [cur]. split; [done|]. split; [|done]. constructor; [|constructor].
      apply octet_prefix_text; [done|]. by destruct cur.
    - intros (fs & E & Hfs & Hn & Hne). destruct fs as [|f [|g fs]]; [done| |].
      + cbn in E. subst f. apply Forall_cons in Hfs as [(_ & Hf & _) _].
        change (zlen [cur]) with 1 in Hn. unfold zlen in *. lia.
      + exfalso. apply (octet_prefix_nodot cur Hcur). rewrite E, join_cons_field by done.
        apply elem_of_app. right. left. }
  cbn [canonical_loop]. destruct (Ascii.eqb_spec c ".") as [->|Hdot].
  { destruct (Z.eqb_spec (zlen cur) 0) as [E0|E0].
    - split; [done|]. intros (fs & E & Hfs & _ & Hne). exfalso.
      assert (cur = []) as -> by (apply length_zero_iff_nil; unfold zlen in E0; lia).
      apply (join_first "."%char) in E as (fs' & -> & _); try done.
      + by apply Forall_cons in Hfs as [(_ & ? & _) _]; cbn in *; lia.
      + eapply Forall_impl; [exact Hfs|apply octet_text_nodot].
      + apply not_elem_of_nil.
    - assert (octet_text cur) as Hct by (apply octet_prefix_text; [done|by intros ->]).
      etransitivity; [exact (IH "."%char [] (octets + 1) octet_prefix_nil I)|]. cbn [app]. split.
      + intros (fs & -> & Hfs & Hn & Hne). exists (cur :: fs). rewrite join_cons_field by done.
        split; [done|]. split; [by constructor|]. rewrite zlen_cons. split; [lia|done].
      + intros (fs & E & Hfs & Hn & Hne).
        apply (join_first "."%char) in E as (fs' & -> & Hne' & ->); try done.
        * apply Forall_cons in Hfs as [_ Hfs]. exists fs'. rewrite zlen_cons in Hn.
          split; [done|]. split; [done|]. split; [lia|done].
        * eapply Forall_impl; [exact Hfs|apply octet_text_nodot].
        * by apply octet_text_nodot. }
  assert ((code c <? code "0") || (code "9" <? code c) = negb (is_digit c)) as ->.
  { unfold is_digit. rewrite negb_andb, !Z.leb_antisym, !negb_involutive. done. }
  destruct (is_digit c) eqn:Hc; cbn [negb].
  2:{ split; [done|]. intros (fs & E & Hfs & _). by apply not_digit_octet in E. }
  replace (cur ++ c :: p) with ((cur ++ [c]) ++ p) by (by rewrite <- app_assoc).
  assert (forall fs, (cur ++ [c]) ++ p = join "." fs -> Forall octet_text fs -> fs <> [] ->
    exists rest, octet_text ((cur ++ [c]) ++ rest)) as Hfield.
  { intros fs E Hfs Hne. apply join_prefix in E as (f & fs' & rest & -> & ->); [|done|].
    - exists rest. by apply Forall_cons in Hfs as [? _].
    - rewrite elem_of_app, list_elem_of_singleton. intros [?|?]; [|congruence].
      by apply (octet_prefix_nodot cur). }
  assert ((zlen cur =? 1) && Ascii.eqb prev "0" = bool_decide (cur = ["0"%char])) as ->.
  { destruct cur as [|d [|e cur]]; [done| |].
    - change (zlen [d]) with 1. cbn in Hlast. subst prev. cbn [andb Z.eqb Pos.eqb].
      destruct (Ascii.eqb_spec d "0") as [->|]; [done|]. rewrite bool_decide_eq_false_2; congruence.
    - assert (zlen (d :: e :: cur) <> 1) by zlen_lia. zcmp. by rewrite bool_decide_eq_false_2. }
  destruct (bool_decide_reflect (cur = ["0"%char])) as [->|H0].
  { split; [done|]. intros (fs & E & Hfs & _ & Hne).
    destruct (Hfield fs E Hfs Hne) as (rest & _ & _ & Hz). exfalso. apply Hz; [|done].
    cbn. lia. }
  destruct (Z.ltb_spec 3 (zlen cur + 1)) as [H3|H3].
  { split; [done|]. intros (fs & E & Hfs & _ & Hne).
    destruct (Hfield fs E Hfs Hne) as (rest & _ & Hl & _). exfalso.
    rewrite !length_app in Hl. cbn in Hl. unfold zlen in H3. lia. }
  assert (zlen cur + 1 = zlen (cur ++ [c])) as -> by (by rewrite zlen_app).
  apply IH.
  - apply octet_prefix_snoc; try done. unfold zlen in *. rewrite zlen_app in H3 || idtac. lia.
  - unfold last_char. by rewrite rev_app_distr.
Qed.

(** ** Properties *)

(** [is_canonical_dotted_quad] accepts exactly four fields separated by
    dots, each of one to three digits and none with a leading zero: the
    notations that other readers take as octal never reach [inet_pton]. *)
Theorem dotted_quad_spec text :
  is_canonical_dotted_quad text = true <->
  exists f1 f2 f3 f4, text = join "." [f1; f2; f3; f4] /\
    octet_text f1 /\ octet_text f2 /\ octet_text f3 /\ octet_text f4.
Proof.
  unfold is_canonical_dotted_quad.
  etransitivity; [exact (canonical_loop_spec text (chr 0) [] 1 octet_prefix_nil I)|].
  cbn [app]. split.
  - intros (fs & -> & Hfs & Hn & _).
    destruct fs as [|f1 [|f2 [|f3 [|f4 [|? ?]]]]]; try (exfalso; zlen_lia).
    rewrite !Forall_cons in Hfs. exists f1, f2, f3, f4. tauto.
  - intros (f1 & f2 & f3 & f4 & -> & ? & ? & ? & ?). exists [f1; f2; f3; f4].
    split; [done|]. rewrite !Forall_cons. done.
Qed.

(** The IPv4 predicates test the address blocks they name, on the octets in
    network order: 10/8, 172.16/12 and 192.168/16 are private, 127/8 is
    loopback, 169.254/16 link local, 224/4 multicast, and every address but
    0.0.0.0 and 240/4 is valid. *)
Theorem ipv4_classification a b c d
    (Ha : octet a) (Hb : octet b) (Hc : octet c) (Hd : octet d) :
  isPrivate (ipv4 a b c d) =
    ((a =? 10) || ((a =? 172) && (16 <=? b) && (b <? 32)) || ((a =? 192) && (b =? 168))) /\
  isLoopback (ipv4 a b c d) = (a =? 127) /\
  isLinkLocal (ipv4 a b c d) = ((a =? 169) && (b =? 254)) /\
  isMulticast (ipv4 a b c d) = ((224 <=? a) && (a <? 240)) /\
  isValid (ipv4 a b c d) =
    (negb ((a =? 0) && (b =? 0) && (c =? 0) && (d =? 0)) && (a <? 240)).
Proof.
  unfold isPrivate, isLoopback, isLinkLocal, isMulticast, isValid. cbn [version ipv4].
  rewrite !host_order_ipv4 by done. unfold octet in *.
  set (n := a * 2 ^ 24 + b * 2 ^ 16 + c * 2 ^ 8 + d).
  assert (0 <= n < 2 ^ 32) as Hn by (unfold n; lia).
  assert (n / 2 ^ 24 * 2 ^ 24 = a * 2 ^ 24) as E24 by (unfold n; div_lia).
  assert (n / 2 ^ 16 * 2 ^ 16 = a * 2 ^ 24 + b * 2 ^ 16) as E16 by (unfold n; div_lia).
  assert (n / 2 ^ 20 * 2 ^ 20 = a * 2 ^ 24 + b / 16 * 2 ^ 20) as E20 by (unfold n; div_lia).
  assert (n / 2 ^ 28 * 2 ^ 28 = a / 16 * 2 ^ 28) as E28 by (unfold n; div_lia).
  masks. rewrite E24, E16, E20, E28. splits.
  - destruct (Z.eqb_spec (a * 2 ^ 24) 0x0a000000), (Z.eqb_spec a 10); try lia.
    destruct (Z.eqb_spec (a * 2 ^ 24 + b / 16 * 2 ^ 20) 0xac100000).
    { assert (a = 172 /\ 16 <= b < 32) as (-> & ? & ?) by div_lia. by zcmp. }
    destruct (Z.eqb_spec (a * 2 ^ 24 + b * 2 ^ 16) 0xc0a80000).
    { assert (a = 192 /\ b = 168) as (-> & ->) by lia. by zcmp. }
    symmetry. cbn [orb]. rewrite orb_false_iff, !andb_false_iff, !Z.eqb_neq, Z.leb_gt, Z.ltb_ge. div_lia.
  - bool_arith.
  - bool_arith.
  - unfold n. bool_arith.
  - destruct (Z.eqb_spec n 0) as [E0|E0].
    { assert (a = 0 /\ b = 0 /\ c = 0 /\ d = 0) as (-> & -> & -> & ->) by (unfold n in E0; lia). done. }
    assert ((a =? 0) && (b =? 0) && (c =? 0) && (d =? 0) = false) as ->.
    { rewrite !andb_false_iff, !Z.eqb_neq. unfold n in E0. lia. }
    cbn [negb andb]. destruct (Z.eqb_spec (a / 16 * 2 ^ 28) 0xf0000000), (Z.ltb_spec a 240); done || div_lia.
Qed.

Lemma ipv4_classification_witness :
  octet 172 /\ octet 31 /\ isPrivate (ipv4 172 31 0 1) = true /\ isPrivate (ipv4 172 32 0 1) = false.
Proof.
  assert (forall z, 0 <= z < 256 -> octet z) as H by done.
  split; [apply H; lia|]. split; [apply H; lia|]. split.
  - rewrite (proj1 (ipv4_classification 172 31 0 1 (H 172 ltac:(lia)) (H 31 ltac:(lia)) (H 0 ltac:(lia)) (H 1 ltac:(lia)))).
    reflexivity.
  - rewrite (proj1 (ipv4_classification 172 32 0 1 (H 172 ltac:(lia)) (H 32 ltac:(lia)) (H 0 ltac:(lia)) (H 1 ltac:(lia)))).
    reflexivity.
Defined.

(** An IPv6 address from its sixteen bytes. *)
Definition ipv6 (raw : bytes) : InetAddress := mkInetAddress IPv6 (fill_data raw) [] Resolved.

Definition loopback6 : bytes := replicate 15 (chr 0) ++ [chr 1].

Lemma low_mask_cases : forall c,
  (Z.land (code c) 0xfe =? 0xfc) = ((code c =? 0xfc) || (code c =? 0xfd)) /\
  (Z.land (code c) 0xc0 =? 0x80) = ((0x80 <=? code c) && (code c <? 0xc0)).
Proof. byte_decide. Qed.

(** The IPv6 predicates test the blocks they name: fc00::/7 is private, ::1
    alone is loopback, fe80::/10 link local, ff00::/8 multicast, and every
    address but :: is valid. *)
Theorem ipv6_classification raw (Hlen : length raw = 16%nat) :
  let b i := code (nth i raw (chr 0)) in
  isPrivate (ipv6 raw) = ((b 0%nat =? 0xfc) || (b 0%nat =? 0xfd)) /\
  (isLoopback (ipv6 raw) = true <-> raw = loopback6) /\
  isLinkLocal (ipv6 raw) = ((b 0%nat =? 0xfe) && ((0x80 <=? b 1%nat) && (b 1%nat <? 0xc0))) /\
  isMulticast (ipv6 raw) = (b 0%nat =? 0xff) /\
  (isValid (ipv6 raw) = true <-> raw <> zero_data).
Proof.
  assert (fill_data raw = raw) as Hf by (unfold fill_data; rewrite Hlen; cbn; by rewrite app_nil_r).
  unfold isPrivate, isLoopback, isLinkLocal, isMulticast, isValid, ipv6_08, ipv6_16, ipv6_32.
  cbn [version data ipv6]. rewrite Hf. cbv zeta.
  destruct (low_mask_cases (nth 0 raw (chr 0))) as [-> _].
  destruct (low_mask_cases (nth 1 raw (chr 0))) as [_ ->].
  split; [done|]. split; [|split; [done|split; [done|]]].
  all: do 16 (destruct raw as [|? raw]; [done|]); destruct raw; [|done].
  all: cbn [take drop Nat.mul Nat.add nth].
  - rewrite !andb_true_iff, !Z.eqb_eq, !le_value_zero. cbn [length replicate]. split.
    + intros (((((H0 & H1) & H2) & H3) & H4) & H5). injection H0; injection H1; injection H2; injection H3.
      intros. subst. unfold loopback6. cbn [replicate app].
      rewrite <- (chr_code a13), H4, <- (chr_code a14), H5. done.
    + unfold loopback6. cbn [replicate app]. intros H. injection H. intros. subst. done.
  - rewrite !orb_true_iff, !negb_true_iff, !Z.eqb_neq, !le_value_zero. cbn [length replicate].
    unfold zero_data. cbn [replicate]. split.
    + intros [[[H|H]|H]|H] E; apply H; injection E; intros; subst; done.
    + intros H. destruct (decide ([a; a0; a1; a2] = [chr 0; chr 0; chr 0; chr 0])) as [E0|]; [|tauto].
      destruct (decide ([a3; a4; a5; a6] = [chr 0; chr 0; chr 0; chr 0])) as [E1|]; [|tauto].
      destruct (decide ([a7; a8; a9; a10] = [chr 0; chr 0; chr 0; chr 0])) as [E2|]; [|tauto].
      destruct (decide ([a11; a12; a13; a14] = [chr 0; chr 0; chr 0; chr 0])) as [E3|]; [|tauto].
      exfalso. apply H. injection E0; injection E1; injection E2; injection E3. intros. subst. done.
Qed.

Definition link_local6 : bytes := [chr 0xfe; chr 0x80] ++ replicate 13 (chr 0) ++ [chr 1].

Lemma ipv6_classification_witness :
  length link_local6 = 16%nat /\ isLinkLocal (ipv6 link_local6) = true.
Proof.
  split; [done|].
  destruct (ipv6_classification link_local6 eq_refl) as (_ & _ & -> & _). reflexivity.
Defined.

(** Whatever the system's [inet_pton] accepts, text becomes an IPv4 address
    in the constructor only as a canonical dotted quad (in brackets or not) that
    [inet_pton] converts - or as the empty string, the any address - and an IPv6
    address only when a dotted tail it may have is canonical too; anything else
    stays an unresolved name. *)
Theorem literal_spec inet_pton text :
  let a := new_InetAddress inet_pton text in
  hostname a = text /\
  (version a = IPv4 -> resolveState a = Resolved /\
     (text = [] \/ exists raw, is_canonical_dotted_quad (unbracket (c_str text)) = true /\
        inet_pton IPv4 (unbracket (c_str text)) = Some raw /\ data a = fill_data raw)) /\
  (version a = IPv6 -> resolveState a = Resolved /\
     exists raw, has_canonical_embedded_ipv4 (unbracket (c_str text)) = true /\
        inet_pton IPv6 (unbracket (c_str text)) = Some raw /\ data a = fill_data raw) /\
  (version a = Unspecified -> resolveState a = Unresolved /\ data a = zero_data /\ isValid a = false).
Proof.
  cbv zeta. unfold new_InetAddress, new_InetAddress_version. destruct text as [|c text].
  { split; [done|]. split; [|done]. intros _. split; [done|by left]. }
  unfold stringToAddress. destruct (c_str (c :: text)) as [|c' text'] eqn:Ec; [by splits|]. set (t := unbracket (c' :: text')).
  destruct (is_canonical_dotted_quad t) eqn:E4; cbn [negb];
    [destruct (inet_pton IPv4 t) as [raw|] eqn:P4; [split; [done|]; split; [|done]; eauto 6|]|].
  all: destruct (has_canonical_embedded_ipv4 t) eqn:E6; cbn [negb]; [|by splits].
  all: destruct (inet_pton IPv6 t) as [raw|] eqn:P6; [|by splits].
  all: split; [done|]; split; [done|]; split; [eauto 6|done].
Qed.

(** Assignment from text leaves the notation to [inet_pton]: where the system
    reads a leading zero as decimal, the two ways to make an address from the
    same text disagree. *)
Lemma assignment_not_canonical inet_pton raw :
  inet_pton IPv4 (lit "010.1.1.1") = Some raw ->
  version (assign_text inet_pton (lit "010.1.1.1")) = IPv4 /\
  version (new_InetAddress inet_pton (lit "010.1.1.1")) = Unspecified.
Proof.
  intros H4. split; [|done]. unfold assign_text. change (c_str (lit "010.1.1.1")) with (lit "010.1.1.1").
  cbv [lit String.list_ascii_of_string] in *. by rewrite H4.
Qed.

(** The mapped form of 10.0.0.1 is none of the local kinds. *)
Definition mapped_private : bytes :=
  replicate 10 (chr 0) ++ [chr 0xff; chr 0xff; chr 10; chr 0; chr 0; chr 1].

Lemma mapped_not_local :
  isValid (ipv6 mapped_private) = true /\ isLoopback (ipv6 mapped_private) = false /\
  isPrivate (ipv6 mapped_private) = false /\ isLinkLocal (ipv6 mapped_private) = false /\
  isMulticast (ipv6 mapped_private) = false.
Proof. by vm_compute. Qed.
