(* ===== verification/Hash.v ===== *)
(** * Hash: the accumulator of [src/crypto/digest/hash.cpp], and [HashValue]

    [Hash] collects its input into blocks and hands each full one to the virtual
    [hash] of the algorithm. [update] is modelled as it stands, over the block
    vector it overwrites in place; the main result is that how the input is cut
    into calls does not matter, and that padding appends what the algorithm's
    description says. [Hasher] is what a hash promises to the Merkle tree. *)

From S2P Require Import Prelude Strings.
From S2P Require Base32.

(** ** Bytes of words *)

(* @src src/include/samurai/crypto/digest/hash.h:123-126 get_byte *)
Definition get_byte (offset : Z) (input : Z) : byte :=
  chr (Z.shiftr input (Z.shiftl (7 - Z.land offset 7) 3)).

(* @src src/include/samurai/crypto/digest/hash.h:113-121 make_uint64_t *)
Definition make_uint64_t (u0 u1 u2 u3 u4 u5 u6 u7 : byte) : Z :=
  Z.lor (Z.lor (Z.lor (Z.lor (Z.lor (Z.lor (Z.lor
    (Z.shiftl (code u0) 56) (Z.shiftl (code u1) 48)) (Z.shiftl (code u2) 40)) (Z.shiftl (code u3) 32))
    (Z.shiftl (code u4) 24)) (Z.shiftl (code u5) 16)) (Z.shiftl (code u6) 8)) (code u7).

(** ** HashValue *)

(** The bytes of a digest; the size is that of the vector. *)
(* @src src/include/samurai/crypto/digest/hashvalue.h:69-69 Samurai::Crypto::Digest::HashValue *)
Definition HashValue : Type := bytes.

(* @src src/src/crypto/digest/hashvalue.cpp:22-25 Samurai::Crypto::Digest::HashValue::HashValue *)
Definition new_HashValue (size : Z) : HashValue := replicate (Z.to_nat size) (chr 0).

(** The returned flag and the value. *)
(* @src src/src/crypto/digest/hashvalue.cpp:27-34 Samurai::Crypto::Digest::HashValue::setData *)
Definition setData (data : bytes) (v : HashValue) : bool * HashValue :=
  if negb (Nat.eqb (length data) (length v)) then (false, v) else (true, data).

(* @src src/include/samurai/crypto/digest/hashvalue.h:25-25 Samurai::Crypto::Digest::HashValue::Format *)
Inductive Format := Hex | Base32.

Definition lower_hex_digits : bytes := lit "0123456789abcdef".
(** [format_to] with two hexadecimal digits. *)
Definition hex_byte (c : byte) : bytes :=
  [nth (Z.to_nat (Z.shiftr (code c) 4)) lower_hex_digits (chr 0);
   nth (Z.to_nat (Z.land (code c) 15)) lower_hex_digits (chr 0)].

(** [buf] is the contents of the caller's buffer, null when absent; the result is
    the flag and its contents, the terminator included. *)
(* @src src/src/crypto/digest/hashvalue.cpp:51-84 Samurai::Crypto::Digest::HashValue::getFormattedString *)
Definition getFormattedString (v : HashValue) (format : Format) (buf : option bytes) : bool * option bytes :=
  match buf with
  | None | Some [] => (false, buf)
  | Some (_ :: buf') =>
      let cleared := chr 0 :: buf' in
      let size := zlen v in
      let buflen := zlen cleared in
      match format with
      | Hex =>
          if buflen <? u64 (size * 2) + 1 then (false, Some cleared)
          else
            let out := concat (map hex_byte v) ++ [chr 0] in
            (true, Some (out ++ drop (length out) cleared))
      | Base32 =>
          if buflen <? u64 (size * 8 + 4) / 5 + 1 then (false, Some cleared)
          else
            let '(n, out) := Base32.base32_encode v buflen in
            (negb (n =? 0), Some (out ++ drop (length out) cleared))
      end
  end.

(** ** The accumulator *)

Section Hash.
(** What the algorithm keeps beside the accumulator, and its virtual [hash]. *)
Context {S : Type}.
Variable hash : S -> bytes -> S.

(* @src src/include/samurai/crypto/digest/hash.h:95-108 Samurai::Crypto::Digest::Hash *)
Record Hash := mkHash {
  m_size : Z;
  m_block_size : Z;
  m_current_block : bytes;
  m_current_block_index : Z;
  m_file_size : Z;
  m_big_bit_endian : bool;
  m_big_byte_endian : bool;
  m_finalized : bool;
  m_finalized_value : HashValue;
  m_count_size : Z;
  algorithm : S
}.

(* @src src/src/crypto/digest/hash.cpp:11-25 Samurai::Crypto::Digest::Hash::Hash *)
Definition new_Hash (result_size block_size : Z) (big_bit_endian big_byte_endian : bool)
    (count_size : Z) (s : S) : Hash :=
  mkHash result_size block_size (replicate (Z.to_nat block_size) (chr 0)) 0 0
    big_bit_endian big_byte_endian false (new_HashValue result_size) count_size s.

Definition with_block (block : bytes) (index : Z) (s : S) (h : Hash) : Hash :=
  mkHash (m_size h) (m_block_size h) block index (m_file_size h) (m_big_bit_endian h)
    (m_big_byte_endian h) (m_finalized h) (m_finalized_value h) (m_count_size h) s.
Definition with_file_size (n : Z) (h : Hash) : Hash :=
  mkHash (m_size h) (m_block_size h) (m_current_block h) (m_current_block_index h) n
    (m_big_bit_endian h) (m_big_byte_endian h) (m_finalized h) (m_finalized_value h)
    (m_count_size h) (algorithm h).
Definition with_value (finalized : bool) (v : HashValue) (h : Hash) : Hash :=
  mkHash (m_size h) (m_block_size h) (m_current_block h) (m_current_block_index h) (m_file_size h)
    (m_big_bit_endian h) (m_big_byte_endian h) finalized v (m_count_size h) (algorithm h).

(** [memcpy] into the block at [at_]. *)
Definition write_at (block : bytes) (at_ : Z) (data : bytes) : bytes :=
  ztake at_ block ++ data ++ zdrop (at_ + zlen data) block.

(** The loop of [update]; [None] is the fuel running out. *)
(* @src src/src/crypto/digest/hash.cpp:43-60 Samurai::Crypto::Digest::Hash::update *)
Fixpoint update_loop (fuel : nat) (data : bytes) (offset : Z) (h : Hash) : option Hash :=
  if negb (offset <? zlen data) then Some h
  else
    match fuel with
    | O => None
    | Datatypes.S fuel =>
        let blocklen := zlen data - offset in
        let room := m_block_size h - m_current_block_index h in
        let blocklen := if room <? blocklen then room else blocklen in
        let block := write_at (m_current_block h) (m_current_block_index h)
                       (ztake blocklen (zdrop offset data)) in
        let index := m_current_block_index h + blocklen in
        let h := if index =? m_block_size h
                 then with_block block 0 (hash (algorithm h) block) h
                 else with_block block index (algorithm h) h in
        update_loop fuel data (offset + blocklen) h
    end.

(* @src src/src/crypto/digest/hash.cpp:29-62 Samurai::Crypto::Digest::Hash::update *)
Definition update (input : bytes) (h : Hash) : option Hash :=
  if bool_decide (input = []) || m_finalized h then Some h
  else if m_block_size h <=? m_current_block_index h then Some h
  else
    h ← update_loop (length input) input 0 h;
    Some (with_file_size (u64 (m_file_size h + zlen input)) h).

(* @src src/src/crypto/digest/hash.cpp:85-96 Samurai::Crypto::Digest::Hash::finalize_count *)
Definition finalize_count (h : Hash) : Hash :=
  if m_block_size h <? 8 then h
  else
    let count := u64 (8 * m_file_size h) in
    let choose j := if m_big_byte_endian h then j else 7 - j in
    let field := map (fun j => get_byte (choose j) count) [0; 1; 2; 3; 4; 5; 6; 7] in
    with_block (write_at (m_current_block h) (m_block_size h - 8) field)
      (m_current_block_index h) (algorithm h) h.

(* @src src/src/crypto/digest/hash.cpp:65-83 Samurai::Crypto::Digest::Hash::finalize *)
Definition finalize (h : Hash) : Hash :=
  if m_finalized h then h
  else
    let index := m_current_block_index h in
    let block := ztake index (m_current_block h) ++
                 (if m_big_bit_endian h then chr 0x80 else chr 0x01) ::
                 replicate (Z.to_nat (m_block_size h - index - 1)) (chr 0) in
    let h := with_block block index (algorithm h) h in
    let h := if u64 (m_block_size h - m_count_size h) <=? index
             then with_block (replicate (Z.to_nat (m_block_size h)) (chr 0)) index (hash (algorithm h) block) h
             else h in
    let h := finalize_count h in
    with_block (m_current_block h) (m_current_block_index h) (hash (algorithm h) (m_current_block h)) h.

(** The returned flag and the hash. *)
(* @src src/src/crypto/digest/hash.cpp:98-103 Samurai::Crypto::Digest::Hash::set_finalized_value *)
Definition set_finalized_value (data : bytes) (h : Hash) : bool * Hash :=
  if m_finalized h then (false, h)
  else let '(ok, v) := setData data (m_finalized_value h) in (ok, with_value (m_finalized h) v h).
End Hash.

Arguments Hash S : clear implicits.
Arguments new_Hash {S}.
Arguments with_block {S}.
Arguments with_value {S}.
Arguments set_finalized_value {S}.
Arguments finalize_count {S}.

(** ** Blocks and padding *)

(** The full blocks of a message. *)
Fixpoint blocks_loop (fuel : nat) (B : nat) (m : bytes) : list bytes :=
  match fuel with
  | O => []
  | S fuel => if (length m <? B)%nat then [] else take B m :: blocks_loop fuel B (drop B m)
  end.
Definition blocks (B : Z) (m : bytes) : list bytes := blocks_loop (length m) (Z.to_nat B) m.

(** The padding of a message: the marker byte, zeros up to the count field, and
    the number of bits in it. *)
Definition count_field (big : bool) (bits : Z) : bytes :=
  if big then rev (le_bytes 8 bits) else le_bytes 8 bits.
Definition padded (B : Z) (big_bit big_byte : bool) (m : bytes) : bytes :=
  m ++ (if big_bit then chr 0x80 else chr 0x01) ::
  replicate (Z.to_nat ((B - 9 - zlen m) mod B)) (chr 0) ++ count_field big_byte (u64 (8 * zlen m)).

Lemma blocks_concat B bs r :
  0 < B -> Forall (fun b => zlen b = B) bs -> zlen r < B -> blocks B (concat bs ++ r) = bs.
Proof.
  intros HB Hbs Hr. unfold blocks.
  assert (forall fuel, (length bs <= fuel)%nat -> blocks_loop fuel (Z.to_nat B) (concat bs ++ r) = bs) as H.
  { induction Hbs as [|b bs Hb Hbs IH]; intros fuel Hf.
    - destruct fuel; [done|]. cbn [blocks_loop concat app]. destruct (Nat.ltb_spec (length r) (Z.to_nat B)); [done|unfold zlen in *; lia].
    - destruct fuel; [cbn in Hf; lia|]. cbn [blocks_loop concat]. rewrite <- app_assoc.
      assert (Z.to_nat B = length b) as -> by (unfold zlen in Hb; lia).
      destruct (Nat.ltb_spec (length (b ++ concat bs ++ r)) (length b)); [rewrite length_app in *; lia|].
      rewrite take_app_length, drop_app_length. f_equal.
      assert (length b = Z.to_nat B) as -> by (unfold zlen in Hb; lia). apply IH. cbn in Hf. lia. }
  apply H. rewrite length_app.
  assert (length bs <= length (concat bs))%nat; [|lia]. clear -Hbs HB.
  induction Hbs as [|b bs Hb Hbs IH]; [done|]. cbn. rewrite length_app. unfold zlen in Hb. lia.
Qed.

Section update.
Context {S : Type}.
Variable hash : S -> bytes -> S.
Implicit Types h : Hash S.

(** Ready to take input. *)
Definition ready h : Prop :=
  m_finalized h = false /\ 0 <= m_current_block_index h < m_block_size h /\
  zlen (m_current_block h) = m_block_size h /\ zlen (m_current_block h) < 2 ^ 32.

Lemma write_at_size block i d :
  0 <= i -> i + zlen d <= zlen block -> zlen (write_at block i d) = zlen block.
Proof.
  intros Hi Hd. unfold write_at. pose proof (zlen_nonneg d). rewrite !zlen_app, zlen_take, zlen_drop. lia.
Qed.

Lemma write_at_front block i d :
  0 <= i -> i + zlen d <= zlen block -> ztake (i + zlen d) (write_at block i d) = ztake i block ++ d.
Proof.
  intros Hi Hd. unfold write_at. pose proof (zlen_nonneg d).
  assert (zlen (ztake i block ++ d) = i + zlen d) as Hz by (rewrite zlen_app, zlen_take; lia).
  rewrite app_assoc. rewrite <- Hz. unfold zlen at 1. rewrite Nat2Z.id. apply take_app_length.
Qed.

(** Writing twice in a row is writing once. *)
Lemma write_at_app block i a b :
  0 <= i -> i + zlen a + zlen b <= zlen block ->
  write_at (write_at block i a) (i + zlen a) b = write_at block i (a ++ b).
Proof.
  intros Hi Hd. pose proof (zlen_nonneg a). pose proof (zlen_nonneg b).
  unfold write_at at 1. rewrite write_at_front by lia.
  unfold write_at. rewrite <- !app_assoc. do 3 f_equal. rewrite zlen_app.
  rewrite app_assoc, drop_app_ge by (rewrite length_app, length_take; unfold zlen in *; lia).
  rewrite drop_drop. f_equal. rewrite length_app, length_take. unfold zlen in *. lia.
Qed.

(** One byte. *)
Definition absorb h (c : byte) : Hash S :=
  let block := write_at (m_current_block h) (m_current_block_index h) [c] in
  let index := m_current_block_index h + 1 in
  let h' := if index =? m_block_size h
            then with_block block 0 (hash (algorithm h) block) h
            else with_block block index (algorithm h) h in
  with_file_size (u64 (m_file_size h + 1)) h'.

Lemma absorb_ready h c : ready h -> ready (absorb h c) /\ m_block_size (absorb h c) = m_block_size h.
Proof.
  intros (Hf & Hi & Hl & Hb). unfold absorb, ready. change (zlen [c]) with 1 in *.
  pose proof (write_at_size (m_current_block h) (m_current_block_index h) [c]) as Hw.
  change (zlen [c]) with 1 in Hw.
  destruct (Z.eqb_spec (m_current_block_index h + 1) (m_block_size h)); cbn; rewrite Hw by lia; (split; [|done]);
    splits; lia || done.
Qed.

Lemma absorb_all_ready m h :
  ready h -> ready (fold_left absorb m h) /\ m_block_size (fold_left absorb m h) = m_block_size h.
Proof.
  revert h. induction m as [|c m IH]; intros h H; [done|]. cbn [fold_left].
  destruct (absorb_ready h c H) as [H1 H2]. destruct (IH _ H1) as [H3 H4]. split; [done|congruence].
Qed.

(** Bytes that fit the block land in it together. *)
Lemma absorb_chunk d h :
  ready h -> d <> [] -> zlen d <= m_block_size h - m_current_block_index h ->
  let block := write_at (m_current_block h) (m_current_block_index h) d in
  let index := m_current_block_index h + zlen d in
  fold_left absorb d h =
    with_file_size (u64 (m_file_size h + zlen d))
      (if index =? m_block_size h then with_block block 0 (hash (algorithm h) block) h
       else with_block block index (algorithm h) h).
Proof.
  intros (Hf & Hi & Hl & Hb) Hne Hd. cbv zeta. induction d as [|c d IH] using rev_ind; [done|].
  rewrite fold_left_app. cbn [fold_left]. rewrite zlen_app in *. change (zlen [c]) with 1 in *.
  pose proof (zlen_nonneg d). destruct (decide (d = [])) as [->|Hdne].
  { cbn [fold_left app]. unfold absorb. done. }
  rewrite IH by (done || lia). rewrite (proj2 (Z.eqb_neq _ _)) by lia.
  unfold absorb. cbn [m_current_block m_current_block_index m_block_size m_file_size algorithm with_file_size with_block].
  rewrite write_at_app by (change (zlen [c]) with 1; lia). rewrite !Z.add_assoc.
  replace (u64 (u64 (m_file_size h + zlen d) + 1)) with (u64 (m_file_size h + zlen d + 1))
    by (unfold u64; by rewrite Zplus_mod_idemp_l).
  destruct (m_current_block_index h + zlen d + 1 =? m_block_size h); reflexivity.
Qed.

(** The count is of the bytes absorbed, and the rest does not depend on it. *)
Lemma absorb_file_size d k n h :
  with_file_size n (fold_left absorb d (with_file_size k h)) = with_file_size n (fold_left absorb d h).
Proof.
  revert k h. induction d as [|c d IH]; intros k h; [done|]. cbn [fold_left].
  assert (forall k h, absorb (with_file_size k h) c = with_file_size (u64 (k + 1)) (absorb h c)) as Ha.
  { intros k' h'. unfold absorb. cbn.
    destruct (m_current_block_index h' + 1 =? m_block_size h'); reflexivity. }
  rewrite Ha. apply IH.
Qed.

Lemma absorb_count d h :
  d <> [] -> with_file_size (u64 (m_file_size h + zlen d)) (fold_left absorb d h) = fold_left absorb d h.
Proof.
  assert (forall h c, m_file_size (absorb h c) = u64 (m_file_size h + 1)) as H1.
  { intros h' c. done. }
  assert (forall h, d <> [] -> m_file_size (fold_left absorb d h) = u64 (m_file_size h + zlen d)) as H2.
  { clear h. induction d as [|c d IH]; intros h Hd; [done|]. cbn [fold_left]. rewrite zlen_cons.
    destruct (decide (d = [])) as [->|Hne]; [done|]. rewrite IH, H1 by done.
    unfold u64. rewrite Zplus_mod_idemp_l. f_equal. lia. }
  intros Hd. rewrite <- (H2 h Hd). by destruct (fold_left absorb d h).
Qed.

Lemma update_loop_fold fuel data offset h :
  ready h -> 0 <= offset <= zlen data -> zlen data - offset <= Z.of_nat fuel ->
  exists h', update_loop hash fuel data offset h = Some h' /\ m_file_size h' = m_file_size h /\
    forall n, with_file_size n (fold_left absorb (zdrop offset data) h) = with_file_size n h'.
Proof.
  revert offset h. induction fuel as [|fuel IH]; intros offset h Hr Ho Hf; cbn [update_loop].
  all: destruct (Z.ltb_spec offset (zlen data)) as [Hlt|Hge]; cbn [negb].
  all: try (exists h; split; [done|]; split; [done|]; intros n; by rewrite drop_ge by (unfold zlen in *; lia)).
  { lia. }
  pose proof Hr as (Hfin & Hi & Hl & Hb). cbv zeta.
  set (room := m_block_size h - m_current_block_index h).
  set (n := if room <? zlen data - offset then room else zlen data - offset).
  assert (0 < n <= zlen data - offset /\ n <= room) as [Hn Hnr].
  { unfold n, room. destruct (Z.ltb_spec (m_block_size h - m_current_block_index h) (zlen data - offset)); lia. }
  clearbody n. set (d := ztake n (zdrop offset data)).
  assert (zlen d = n) as Hd by (unfold d; rewrite zlen_take, zlen_drop; lia).
  assert (zdrop offset data = d ++ zdrop (offset + n) data) as ->.
  { unfold d. rewrite Z2Nat.inj_add, <- drop_drop by lia. by rewrite take_drop. }
  assert (d <> []) as Hdne by (intros E; rewrite E in Hd; change (zlen []) with 0 in Hd; lia).
  pose proof (absorb_chunk d h Hr Hdne ltac:(lia)) as Hc. cbv zeta in Hc. rewrite Hd in Hc.
  pose proof (absorb_all_ready d h Hr) as [Hr1 Hbs].
  set (h1 := if _ =? m_block_size h then _ else _) in *.
  assert (m_file_size h1 = m_file_size h) as Hfs by (unfold h1; by destruct (_ =? m_block_size h)).
  assert (ready h1) as Hr1'.
  { rewrite Hc in Hr1. exact Hr1. }
  clearbody h1.
  destruct (IH (offset + n) h1 Hr1' ltac:(lia) ltac:(lia)) as (h' & -> & Hfs' & Hall).
  exists h'. split; [done|]. split; [congruence|]. intros k.
  rewrite fold_left_app, Hc, <- Hall. apply absorb_file_size.
Qed.

(** [update] is byte by byte: it always returns, and how its input is cut into
    calls cannot matter. *)
Lemma update_fold data h : ready h -> update hash data h = Some (fold_left absorb data h).
Proof.
  intros Hr. pose proof Hr as (Hfin & Hi & Hl & Hb). unfold update. rewrite Hfin, orb_false_r.
  destruct (bool_decide_reflect (data = [])) as [->|Hne]; [done|].
  destruct (Z.leb_spec (m_block_size h) (m_current_block_index h)); [lia|].
  destruct (update_loop_fold (length data) data 0 h Hr) as (h' & -> & Hfs & Hall);
    [pose proof (zlen_nonneg data); lia|unfold zlen; lia|].
  cbn [mbind option_bind]. f_equal. change (Z.to_nat 0) with 0%nat in Hall. rewrite drop_0 in Hall.
  rewrite Hfs, <- Hall. by apply absorb_count.
Qed.

(** ** The stream behind a hash *)

(** [h] has absorbed [m] since it was in the state [s]. *)
Definition absorbed (s : S) (m : bytes) h : Prop :=
  ready h /\ m_file_size h = u64 (zlen m) /\
  exists bs r, m = concat bs ++ r /\ Forall (fun b => zlen b = m_block_size h) bs /\
    zlen r = m_current_block_index h /\ ztake (zlen r) (m_current_block h) = r /\
    algorithm h = fold_left hash bs s.

Lemma absorbed_byte s m c h :
  absorbed s m h -> absorbed s (m ++ [c]) (absorb h c) /\ m_block_size (absorb h c) = m_block_size h.
Proof.
  intros (Hr & Hfs & bs & r & -> & Hbs & Hi & Ht & Ha). pose proof (absorb_ready h c Hr) as [Hr' HB].
  split; [|done]. split; [done|]. split.
  { assert (m_file_size (absorb h c) = u64 (m_file_size h + 1)) as -> by done.
    rewrite Hfs, (zlen_app _ [c]). change (zlen [c]) with 1. unfold u64. by rewrite Zplus_mod_idemp_l. }
  destruct Hr as (Hfin & Hix & Hl & Hb).
  pose proof (write_at_front (m_current_block h) (m_current_block_index h) [c]) as Hw.
  change (zlen [c]) with 1 in Hw. specialize (Hw ltac:(lia) ltac:(lia)). rewrite <- Hi, Ht in Hw.
  rewrite HB. unfold absorb. cbv zeta. rewrite <- Hi.
  assert (zlen (r ++ [c]) = zlen r + 1) as Hrc by (rewrite zlen_app; done).
  destruct (Z.eqb_spec (zlen r + 1) (m_block_size h)) as [E|E].
  - exists (bs ++ [r ++ [c]]), []. cbn [m_current_block_index m_current_block algorithm with_file_size with_block].
    split; [by rewrite concat_app, app_nil_r; cbn; rewrite app_nil_r, <- app_assoc|].
    split; [apply Forall_app; split; [done|]; constructor; [lia|done]|]. split; [done|]. split; [done|].
    rewrite fold_left_app. cbn [fold_left]. rewrite <- Ha. f_equal. rewrite <- Hw.
    symmetry. apply take_ge.
    pose proof (write_at_size (m_current_block h) (zlen r) [c]) as Hws. change (zlen [c]) with 1 in Hws.
    unfold zlen in *. lia.
  - exists bs, (r ++ [c]). cbn [m_current_block_index m_current_block algorithm with_file_size with_block].
    rewrite <- app_assoc. split_and!; try done. by rewrite Hrc.
Qed.

Lemma absorbed_all s m d h :
  absorbed s m h -> absorbed s (m ++ d) (fold_left absorb d h) /\
  m_block_size (fold_left absorb d h) = m_block_size h.
Proof.
  revert m h. induction d as [|c d IH]; intros m h H; [by rewrite app_nil_r|]. cbn [fold_left].
  destruct (absorbed_byte s m c h H) as [H1 H2]. destruct (IH _ _ H1) as [H3 H4].
  rewrite <- app_assoc in H3. split; [done|congruence].
Qed.

(** [update] returns, and absorbs its input. *)
Lemma update_absorbs s m d h :
  absorbed s m h ->
  exists h', update hash d h = Some h' /\ absorbed s (m ++ d) h' /\ m_block_size h' = m_block_size h.
Proof.
  intros H. pose proof H as [Hr _]. rewrite update_fold by done.
  exists (fold_left absorb d h). split; [done|]. by apply absorbed_all.
Qed.

Lemma count_bytes count :
  map (fun j => get_byte (7 - j) count) [0; 1; 2; 3; 4; 5; 6; 7] = le_bytes 8 count /\
  map (fun j => get_byte j count) [0; 1; 2; 3; 4; 5; 6; 7] = rev (le_bytes 8 count).
Proof.
  assert (forall k, 0 <= k < 8 -> get_byte (7 - k) count = chr (count / 256 ^ k)) as Hb.
  { intros k Hk. unfold get_byte. assert (Z.land (7 - k) 7 = 7 - k) as ->.
    { change 7 with (Z.ones 3) at 2. rewrite Z.land_ones by lia. apply Z.mod_small. lia. }
    rewrite Z.shiftl_mul_pow2 by lia. replace ((7 - (7 - k)) * 2 ^ 3) with (8 * k) by lia.
    rewrite Z.shiftr_div_pow2 by lia. by rewrite Z.pow_mul_r by lia. }
  assert (le_bytes 8 count = map (fun k => chr (count / 256 ^ k)) [0; 1; 2; 3; 4; 5; 6; 7]) as ->.
  { cbn [le_bytes map]. rewrite !Z.div_div by lia. cbn. by rewrite Z.div_1_r. }
  split; [|cbn [rev map app]].
  - apply map_ext_in. intros k Hk. apply Hb. cbn in Hk. lia.
  - rewrite <- !Hb by lia. reflexivity.
Qed.

Lemma finalize_count_field h :
  8 <= m_block_size h -> zlen (m_current_block h) = m_block_size h ->
  finalize_count h =
    with_block (ztake (m_block_size h - 8) (m_current_block h) ++
                count_field (m_big_byte_endian h) (u64 (8 * m_file_size h)))
      (m_current_block_index h) (algorithm h) h.
Proof.
  intros HB Hl. unfold finalize_count. rewrite (proj2 (Z.ltb_ge _ _)) by lia. cbv zeta. f_equal.
  destruct (count_bytes (u64 (8 * m_file_size h))) as [H1 H2].
  assert (map (fun j => get_byte (if m_big_byte_endian h then j else 7 - j) (u64 (8 * m_file_size h)))
    [0; 1; 2; 3; 4; 5; 6; 7] = count_field (m_big_byte_endian h) (u64 (8 * m_file_size h))) as ->.
  { unfold count_field. destruct (m_big_byte_endian h); [exact H2|exact H1]. }
  unfold write_at. assert (zlen (count_field (m_big_byte_endian h) (u64 (8 * m_file_size h))) = 8) as ->.
  { unfold count_field. by destruct (m_big_byte_endian h). }
  rewrite drop_ge; [by rewrite app_nil_r|unfold zlen in *; lia].
Qed.

(** The blocks an absorbed message and its padding make are what the algorithm
    has hashed. *)
Lemma finalize_absorbed s m h :
  absorbed s m h -> m_count_size h = 8 -> 9 <= m_block_size h ->
  algorithm (finalize hash h) =
    fold_left hash (blocks (m_block_size h)
      (padded (m_block_size h) (m_big_bit_endian h) (m_big_byte_endian h) m)) s.
Proof.
  intros ((Hfin & Hix & Hl & Hb) & Hfs & bs & r & Hm & Hbs & Hi & Ht & Ha) Hcs HB.
  set (B := m_block_size h) in *. set (marker := if m_big_bit_endian h then chr 0x80 else chr 0x01).
  set (count := count_field (m_big_byte_endian h) (u64 (8 * zlen m))).
  assert (zlen count = 8) as Hcount by (unfold count, count_field; by destruct (m_big_byte_endian h)).
  assert (u64 (8 * m_file_size h) = u64 (8 * zlen m)) as Hbits.
  { rewrite Hfs. unfold u64. by rewrite Zmult_mod_idemp_r. }
  assert (exists k, zlen m = k * B + zlen r) as [k Hk].
  { subst m. clear -Hbs. induction Hbs as [|b bs E Hbs [k IH]]; [exists 0; cbn; lia|].
    exists (k + 1). cbn [concat]. rewrite <- app_assoc, zlen_app. lia. }
  unfold finalize. rewrite Hfin. cbv zeta.
  cbn [m_count_size m_block_size m_current_block m_current_block_index algorithm with_block]. rewrite Hcs. fold B. rewrite <- Hi, Ht. fold marker.
  set (tail_ := marker :: replicate (Z.to_nat (B - zlen r - 1)) (chr 0)).
  assert (zlen (r ++ tail_) = B) as Hblock.
  { unfold tail_. rewrite zlen_app, zlen_cons, zlen_replicate. lia. }
  assert (u64 (B - 8) = B - 8) as -> by (apply Z.mod_small; lia).
  unfold padded. fold B marker count.
  destruct (Z.leb_spec (B - 8) (zlen r)) as [Hle|Hgt].
  - rewrite finalize_count_field; cbn [m_block_size m_current_block with_block]; [|lia|rewrite zlen_replicate; lia].
    cbn [algorithm with_block m_current_block m_big_byte_endian m_file_size]. fold B. rewrite Hbits. fold count.
    assert ((B - 9 - zlen m) mod B = (B - zlen r - 1) + (B - 8)) as ->.
    { rewrite Hk. symmetry. apply (Z.mod_unique_pos _ _ (- k - 1)); lia. }
    rewrite Z2Nat.inj_add, replicate_add, <- app_assoc by lia.
    assert (m ++ marker :: replicate (Z.to_nat (B - zlen r - 1)) (chr 0) ++
      replicate (Z.to_nat (B - 8)) (chr 0) ++ count =
      concat (bs ++ [r ++ tail_; replicate (Z.to_nat (B - 8)) (chr 0) ++ count]) ++ []) as ->.
    { rewrite Hm, concat_app, app_nil_r. unfold tail_. cbn [concat]. by rewrite app_nil_r, <- !app_assoc. }
    rewrite blocks_concat; [|lia| |rewrite zlen_nil; lia].
    + rewrite fold_left_app. cbn [fold_left]. rewrite <- Ha. do 2 f_equal.
      rewrite take_replicate. do 2 f_equal. lia.
    + apply Forall_app. split; [done|]. constructor; [done|]. constructor; [|done].
      rewrite zlen_app, zlen_replicate. lia.
  - rewrite finalize_count_field; cbn [m_block_size m_current_block with_block]; [|lia|done].
    cbn [algorithm with_block m_current_block m_big_byte_endian m_file_size]. fold B. rewrite Hbits. fold count.
    assert ((B - 9 - zlen m) mod B = B - 9 - zlen r) as ->.
    { rewrite Hk. symmetry. apply (Z.mod_unique_pos _ _ (- k)); [|lia]. pose proof (zlen_nonneg r). lia. }
    set (last_ := r ++ marker :: replicate (Z.to_nat (B - 9 - zlen r)) (chr 0) ++ count).
    assert (ztake (B - 8) (r ++ tail_) ++ count = last_) as ->.
    { unfold last_, tail_.
      assert (Z.to_nat (B - zlen r - 1) = (Z.to_nat (B - 9 - zlen r) + 8)%nat) as -> by lia.
      rewrite replicate_add. change (marker :: ?a ++ ?b) with ((marker :: a) ++ b). rewrite app_assoc.
      assert (Z.to_nat (B - 8) = length (r ++ marker :: replicate (Z.to_nat (B - 9 - zlen r)) (chr 0))) as ->.
      { rewrite length_app. cbn [length]. rewrite length_replicate. unfold zlen in *. lia. }
      rewrite take_app_length, <- app_assoc. done. }
    assert (m ++ marker :: replicate (Z.to_nat (B - 9 - zlen r)) (chr 0) ++ count = concat (bs ++ [last_]) ++ []) as ->.
    { rewrite Hm, concat_app, app_nil_r. unfold last_. cbn [concat]. by rewrite app_nil_r, <- !app_assoc. }
    rewrite blocks_concat; [|lia| |rewrite zlen_nil; lia].
    + rewrite fold_left_app. cbn [fold_left]. by rewrite <- Ha.
    + apply Forall_app. split; [done|]. constructor; [|done]. unfold last_.
      rewrite zlen_app, zlen_cons, zlen_app, zlen_replicate. lia.
Qed.
End update.

(** ** What a hash promises *)

(** The interface a client of a [Hash] object uses, and its contract: it computes
    one function of the bytes absorbed since the last [reset], however they were
    cut. *)
Class Hasher (A : Type) := {
  hs_reset : A -> A;
  hs_update : bytes -> A -> option A;
  hs_digest : A -> HashValue * A;
  hs_size : A -> Z;
  hs_digest_size : Z;
  hs_function : bytes -> HashValue;
  hs_ok : A -> Prop;
  hs_absorbed : A -> bytes -> Prop;
  hs_reset_spec : forall a, hs_ok a -> hs_absorbed (hs_reset a) [];
  hs_update_spec : forall a m d, hs_absorbed a m ->
    exists a', hs_update d a = Some a' /\ hs_absorbed a' (m ++ d);
  hs_digest_spec : forall a m, hs_absorbed a m ->
    fst (hs_digest a) = hs_function m /\ hs_ok (snd (hs_digest a));
  hs_absorbed_ok : forall a m, hs_absorbed a m -> hs_ok a;
  hs_size_spec : forall a, hs_ok a -> hs_size a = hs_digest_size;
  hs_function_size : forall m, zlen (hs_function m) = hs_digest_size
}.
