(* ===== verification/Merkle.v ===== *)
(** * Merkle: the hash tree of [src/crypto/digest/merkletree.cpp]

    [MerkleWorkStack], a growing array of owned nodes with empty slots, and
    [MerkleTree] over any [Hasher]. The tree keeps a bounded number of leaves,
    doubling the blocks each stands for when they run out. An access out of the
    array or through an empty slot is [None], which a theorem excludes. The main
    result: the digest is the root of the hash tree over the message's blocks, as
    a level by level reference computes it, whatever the cuts and however often
    the tree has been compacted. *)

From S2P Require Import Prelude Hash.
From S2P Require Buffer Base32.
From S2P Require Tiger.
#[local] Existing Instance Tiger.Tiger_Hasher.

(** ** The work stack *)

(** A slot may be empty. *)
(* @src src/include/samurai/crypto/digest/merkletree.h:164-166 Samurai::Crypto::Digest::MerkleWorkStack *)
Record MerkleWorkStack := mkStack {
  nodes : list (option HashValue);
  st_size : Z;
  pos : nat
}.

(* @src src/src/crypto/digest/merkletree.cpp:128-134 Samurai::Crypto::Digest::MerkleWorkStack::clear *)
Definition clear (st : MerkleWorkStack) : MerkleWorkStack :=
  mkStack (map (fun _ => None) (nodes st)) 0 0.

(* @src src/src/crypto/digest/merkletree.cpp:62-66 Samurai::Crypto::Digest::MerkleWorkStack::MerkleWorkStack *)
Definition new_MerkleWorkStack (capacity : Z) : MerkleWorkStack :=
  clear (mkStack (replicate (Z.to_nat capacity) None) 0 0).

(* @src src/src/crypto/digest/merkletree.cpp:70-73 Samurai::Crypto::Digest::MerkleWorkStack::grow *)
Definition grow (st : MerkleWorkStack) : MerkleWorkStack :=
  mkStack (nodes st ++ replicate (length (nodes st)) None) (st_size st) (pos st).

(* @src src/src/crypto/digest/merkletree.cpp:145-148 Samurai::Crypto::Digest::MerkleWorkStack::isFull *)
Definition isFull (st : MerkleWorkStack) : bool := Nat.eqb (pos st) (length (nodes st)).

(** Writing a slot, which must exist. *)
Definition set_slot (i : nat) (x : option HashValue) (l : list (option HashValue))
    : option (list (option HashValue)) :=
  if (i <? length l)%nat then Some (<[i := x]> l) else None.

(* @src src/src/crypto/digest/merkletree.cpp:76-81 Samurai::Crypto::Digest::MerkleWorkStack::add *)
Definition add (node : HashValue) (st : MerkleWorkStack) : option MerkleWorkStack :=
  let st := if isFull st then grow st else st in
  l ← set_slot (pos st) (Some node) (nodes st);
  Some (mkStack l (u64 (st_size st + 1)) (S (pos st))).

(** The node handed over and the stack with its slot empty. *)
(* @src src/src/crypto/digest/merkletree.cpp:84-87 Samurai::Crypto::Digest::MerkleWorkStack::release *)
Definition release (apos : nat) (st : MerkleWorkStack) : option (option HashValue * MerkleWorkStack) :=
  x ← nodes st !! apos;
  l ← set_slot apos None (nodes st);
  Some (x, mkStack l (st_size st) (pos st)).

(* @src src/src/crypto/digest/merkletree.cpp:90-95 Samurai::Crypto::Digest::MerkleWorkStack::releaseFirst *)
Definition releaseFirst (st : MerkleWorkStack) : option (option HashValue * MerkleWorkStack) :=
  match pos st with
  | O => None
  | S p => '(node, st) ← release p st; Some (node, mkStack (nodes st) (st_size st) p)
  end.

(* @src src/src/crypto/digest/merkletree.cpp:98-101 Samurai::Crypto::Digest::MerkleWorkStack::destroy *)
Definition destroy (apos : nat) (st : MerkleWorkStack) : option MerkleWorkStack :=
  l ← set_slot apos None (nodes st); Some (mkStack l (st_size st) (pos st)).

(** [get], dereferenced. *)
(* @src src/src/crypto/digest/merkletree.cpp:104-107 Samurai::Crypto::Digest::MerkleWorkStack::get *)
Definition get (apos : nat) (st : MerkleWorkStack) : option HashValue := mjoin (nodes st !! apos).

(* @src src/src/crypto/digest/merkletree.cpp:116-119 Samurai::Crypto::Digest::MerkleWorkStack::getFirst *)
Definition getFirst (st : MerkleWorkStack) : option HashValue :=
  match pos st with O => None | S p => get p st end.

(* @src src/src/crypto/digest/merkletree.cpp:122-125 Samurai::Crypto::Digest::MerkleWorkStack::set *)
Definition set_ (node : option HashValue) (npos : nat) (st : MerkleWorkStack) : option MerkleWorkStack :=
  l ← set_slot npos node (nodes st); Some (mkStack l (st_size st) (pos st)).

(* @src src/src/crypto/digest/merkletree.cpp:137-142 Samurai::Crypto::Digest::MerkleWorkStack::setPosition *)
Definition setPosition (npos : nat) (st : MerkleWorkStack) : MerkleWorkStack :=
  mkStack (take npos (nodes st) ++ replicate (length (nodes st) - npos) None) (st_size st) npos.

(** ** The tree *)

(* @src src/src/crypto/digest/merkletree.cpp:14-14 leaf_hash_prefix *)
Definition leaf_hash_prefix : bytes := [chr 0x00].
(* @src src/src/crypto/digest/merkletree.cpp:15-15 node_hash_prefix *)
Definition node_hash_prefix : bytes := [chr 0x01].
(* @src src/include/samurai/crypto/digest/merkletree.h:108-108 DEFAULT_MERKLE_BLOCK_SIZE *)
Definition DEFAULT_MERKLE_BLOCK_SIZE : Z := 1024.

Fixpoint double (n : nat) (level : Z) : Z :=
  match n with O => level | S n => double n (u64 (level * 2)) end.
(* @src src/src/crypto/digest/merkletree.cpp:38-47 calcMaxNumLeaves *)
Definition calcMaxNumLeaves (depth : Z) : Z := if depth <? 1 then 1 else double (Z.to_nat (depth - 1)) 1.

Section Merkle.
Context {A : Type} `{Hasher A}.

(** What [MerkleTree] keeps beside the accumulator. *)
(* @src src/include/samurai/crypto/digest/merkletree.h:259-265 Samurai::Crypto::Digest::MerkleTree *)
Record State := mkState {
  m_hasher : A;
  m_nodes : MerkleWorkStack;
  m_work : MerkleWorkStack;
  m_count : Z;
  m_max_levels : Z;
  m_max_leaves : Z;
  m_blocks_per_leaf : Z
}.

Definition with_hasher (h : A) (s : State) : State :=
  mkState h (m_nodes s) (m_work s) (m_count s) (m_max_levels s) (m_max_leaves s) (m_blocks_per_leaf s).
Definition with_nodes (n : MerkleWorkStack) (s : State) : State :=
  mkState (m_hasher s) n (m_work s) (m_count s) (m_max_levels s) (m_max_leaves s) (m_blocks_per_leaf s).
Definition with_work (w : MerkleWorkStack) (s : State) : State :=
  mkState (m_hasher s) (m_nodes s) w (m_count s) (m_max_levels s) (m_max_leaves s) (m_blocks_per_leaf s).
Definition with_count (c : Z) (s : State) : State :=
  mkState (m_hasher s) (m_nodes s) (m_work s) c (m_max_levels s) (m_max_leaves s) (m_blocks_per_leaf s).
Definition with_blocks_per_leaf (b : Z) (s : State) : State :=
  mkState (m_hasher s) (m_nodes s) (m_work s) (m_count s) (m_max_levels s) (m_max_leaves s) b.

(** The hasher and the new contents of [a]. *)
(* @src src/src/crypto/digest/merkletree.cpp:331-338 Samurai::Crypto::Digest::MerkleTree::combine *)
Definition combine (a b : HashValue) (h : A) : option (A * HashValue) :=
  let h := hs_reset h in
  h ← hs_update node_hash_prefix h;
  h ← hs_update (ztake (hs_size h) a) h;
  h ← hs_update (ztake (hs_size h) b) h;
  let '(v, h) := hs_digest h in
  Some (h, snd (setData v a)).

(* @src src/src/crypto/digest/merkletree.cpp:347-357 Samurai::Crypto::Digest::MerkleTree::compact *)
Fixpoint compact_loop (fuel : nat) (i j : nat) (h : A) (stack : MerkleWorkStack)
    : option (A * MerkleWorkStack * nat) :=
  if negb (i <? pos stack)%nat then Some (h, stack, j)
  else
    match fuel with
    | O => None
    | S fuel =>
        a ← get i stack;
        b ← get (i + 1) stack;
        '(h, v) ← combine a b h;
        stack ← set_ (Some v) i stack;
        '(combined, stack) ← release i stack;
        stack ← destroy (i + 1) stack;
        stack ← set_ combined j stack;
        compact_loop fuel (i + 2) (j + 1) h stack
    end.

(** [None] also where the assertion fails. *)
(* @src src/src/crypto/digest/merkletree.cpp:341-359 Samurai::Crypto::Digest::MerkleTree::compact *)
Definition compact (h : A) (stack : MerkleWorkStack) : option (A * MerkleWorkStack) :=
  if negb (Nat.even (pos stack)) then None
  else
    '(h, stack, j) ← compact_loop (pos stack) 0 0 h stack;
    Some (h, setPosition j stack).

(* @src src/src/crypto/digest/merkletree.cpp:362-374 Samurai::Crypto::Digest::MerkleTree::compact_all *)
Fixpoint compact_all (fuel : nat) (h : A) (stack : MerkleWorkStack) : option (A * MerkleWorkStack) :=
  if negb (1 <? pos stack)%nat then Some (h, stack)
  else
    match fuel with
    | O => None
    | S fuel =>
        '(spare, stack) ← (if Nat.odd (pos stack) then releaseFirst stack else Some (None, stack));
        '(h, stack) ← compact h stack;
        stack ← match spare with Some node => add node stack | None => Some stack end;
        compact_all fuel h stack
    end.

(** A full leaf's worth of work becomes a node. *)
(* @src src/src/crypto/digest/merkletree.cpp:392-399 Samurai::Crypto::Digest::MerkleTree::hash *)
Definition promote (s : State) : option State :=
  '(h, work) ← compact_all (pos (m_work s)) (m_hasher s) (m_work s);
  '(node, work) ← releaseFirst work;
  node ← node;
  nodes ← add node (m_nodes s);
  Some (with_work (clear work) (with_nodes nodes (with_hasher h s))).

(* @src src/src/crypto/digest/merkletree.cpp:377-403 Samurai::Crypto::Digest::MerkleTree::hash *)
Definition hash_block (data : bytes) (s : State) : option State :=
  s ← (if isFull (m_nodes s) then
         '(h, nodes) ← compact (m_hasher s) (m_nodes s);
         Some (with_blocks_per_leaf (u64 (Z.shiftl (m_blocks_per_leaf s) 1)) (with_nodes nodes (with_hasher h s)))
       else Some s);
  let h := hs_reset (m_hasher s) in
  h ← hs_update leaf_hash_prefix h;
  h ← hs_update data h;
  let '(v, h) := hs_digest h in
  work ← add v (m_work s);
  let s := with_work work (with_hasher h s) in
  s ← (if st_size (m_work s) =? m_blocks_per_leaf s then promote s else Some s);
  Some (with_count (u64 (m_count s + 1)) s).

(** The virtual [hash] that [update] calls, on a tree that may be broken. Its own
    test of [m_finalized] repeats that of [update] and [finalize]. *)
Definition hash (s : option State) (data : bytes) : option State := s ≫= hash_block data.

Definition MerkleTree : Type := Hash (option State).

(* @src src/src/crypto/digest/merkletree.cpp:152-163 Samurai::Crypto::Digest::MerkleTree::MerkleTree *)
Definition new_MerkleTree (hasher : A) (block_size max_levels : Z) : MerkleTree :=
  let max_leaves := calcMaxNumLeaves max_levels in
  new_Hash (hs_size hasher) (if block_size =? 0 then DEFAULT_MERKLE_BLOCK_SIZE else block_size)
    false false 0
    (Some (mkState (hs_reset hasher) (new_MerkleWorkStack max_leaves) (new_MerkleWorkStack max_leaves) 0
             max_levels max_leaves 1)).

(* @src src/src/crypto/digest/merkletree.cpp:264-280 Samurai::Crypto::Digest::MerkleTree::reset *)
Definition reset (t : MerkleTree) : MerkleTree :=
  let reset_state s :=
    mkState (hs_reset (m_hasher s)) (new_MerkleWorkStack (m_max_leaves s))
      (new_MerkleWorkStack (m_max_leaves s)) 0 (m_max_levels s) (m_max_leaves s) 1 in
  mkHash (m_size t) (m_block_size t) (m_current_block t) 0 0 (m_big_bit_endian t) (m_big_byte_endian t)
    false (m_finalized_value t) (m_count_size t) (reset_state <$> algorithm t).

(** The copies of the nodes below [n], added to [work]. *)
(* @src src/src/crypto/digest/merkletree.cpp:304-305 Samurai::Crypto::Digest::MerkleTree::finalize *)
Fixpoint copy_nodes (count n : nat) (from work : MerkleWorkStack) : option MerkleWorkStack :=
  match count with
  | O => Some work
  | S count => v ← get n from; work ← add v work; copy_nodes count (S n) from work
  end.
(* @src src/src/crypto/digest/merkletree.cpp:314-315 Samurai::Crypto::Digest::MerkleTree::finalize *)
Fixpoint move_nodes (count n : nat) (from to : MerkleWorkStack) : option (MerkleWorkStack * MerkleWorkStack) :=
  match count with
  | O => Some (from, to)
  | S count =>
      '(v, from) ← release n from; v ← v; to ← add v to; move_nodes count (S n) from to
  end.

(** The tree's part of [finalize], after the last block: the root and the state. *)
(* @src src/src/crypto/digest/merkletree.cpp:294-317 Samurai::Crypto::Digest::MerkleTree::finalize *)
Definition finish (s : State) : option (HashValue * State) :=
  s ← (if negb (st_size (m_work s) =? 0) then promote s else Some s);
  work ← copy_nodes (pos (m_nodes s)) 0 (m_nodes s) (m_work s);
  '(h, nodes) ← compact_all (pos (m_nodes s)) (m_hasher s) (m_nodes s);
  root ← getFirst nodes;
  '(work, nodes) ← move_nodes (pos work) 0 work (clear nodes);
  Some (root, with_work (clear work) (with_nodes nodes (with_hasher h s))).

(* @src src/src/crypto/digest/merkletree.cpp:282-321 Samurai::Crypto::Digest::MerkleTree::finalize *)
Definition finalize (t : MerkleTree) : option MerkleTree :=
  if m_finalized t then Some t
  else
    s ← algorithm t;
    s ← (if (0 <? m_current_block_index t) || (m_count s =? 0)
         then hash_block (ztake (m_current_block_index t) (m_current_block t)) s else Some s);
    '(root, s) ← finish s;
    let t := with_block (m_current_block t) (m_current_block_index t) (Some s) t in
    let t := snd (set_finalized_value root t) in
    Some (with_value true (m_finalized_value t) t).

(* @src src/src/crypto/digest/merkletree.cpp:324-328 Samurai::Crypto::Digest::MerkleTree::digest *)
Definition digest (t : MerkleTree) : option (HashValue * MerkleTree) :=
  t ← finalize t; Some (m_finalized_value t, t).

(** ** Leaves *)

(* @src src/src/crypto/digest/merkletree.cpp:165-168 Samurai::Crypto::Digest::MerkleTree::countLeaves *)
Definition countLeaves (s : State) : nat := pos (m_nodes s).
(* @src src/src/crypto/digest/merkletree.cpp:246-249 Samurai::Crypto::Digest::MerkleTree::maxLeaves *)
Definition maxLeaves (s : State) : nat := length (nodes (m_nodes s)).
(* @src src/src/crypto/digest/merkletree.cpp:252-258 Samurai::Crypto::Digest::MerkleTree::getLevels *)
Definition getLevels (s : State) : Z :=
  if m_max_levels s <? m_blocks_per_leaf s then m_max_levels s else m_blocks_per_leaf s.

Section leaves.
Variable alloc : Z -> bool.

Fixpoint append_nodes (indices : list nat) (leaf_size : Z) (st : MerkleWorkStack) (b : Buffer.Buffer)
    : option Buffer.Buffer :=
  match indices with
  | [] => Some b
  | n :: indices =>
      v ← get n st;
      append_nodes indices leaf_size st (snd (Buffer.append alloc (ztake leaf_size v) b))
  end.
(* @src src/src/crypto/digest/merkletree.cpp:219-228 Samurai::Crypto::Digest::MerkleTree::copyLeavesLTR *)
Definition copyLeavesLTR (size : Z) (s : State) (b : Buffer.Buffer) : option Buffer.Buffer :=
  append_nodes (seq 0 (pos (m_nodes s))) size (m_nodes s) b.
(* @src src/src/crypto/digest/merkletree.cpp:233-242 Samurai::Crypto::Digest::MerkleTree::copyLeavesRTL *)
Definition copyLeavesRTL (size : Z) (s : State) (b : Buffer.Buffer) : option Buffer.Buffer :=
  append_nodes (rev (seq 0 (pos (m_nodes s)))) size (m_nodes s) b.
End leaves.

(** Reading a leaf into [buf], which keeps what is not overwritten. *)
Fixpoint read_leaves (indices : list nat) (leaf_size : Z) (b : Buffer.Buffer) (buf : bytes)
    (value : HashValue) (st : MerkleWorkStack) : option MerkleWorkStack :=
  match indices with
  | [] => Some st
  | n :: indices =>
      let got := Buffer.pop_from (Z.of_nat n * leaf_size) leaf_size b in
      let buf := got ++ drop (length got) buf in
      let value := snd (setData buf value) in
      st ← add value st;
      read_leaves indices leaf_size b buf value st
  end.
Definition setLeaves (indices : list nat) (b : Buffer.Buffer) (leaves : nat) (file_size : Z)
    (t : MerkleTree) : option MerkleTree :=
  let leaf_size := m_size t in
  if negb (Z.of_nat leaves * leaf_size =? Buffer.size b) then None
  else
    let t := reset t in
    let blank := replicate (Z.to_nat leaf_size) (chr 0) in
    s ← algorithm t;
    nodes ← read_leaves indices leaf_size b blank blank (m_nodes s);
    Some (with_block (m_current_block t) (m_current_block_index t)
            (Some (with_count file_size (with_nodes nodes s))) t).
(* @src src/src/crypto/digest/merkletree.cpp:173-190 Samurai::Crypto::Digest::MerkleTree::setLeavesLTR *)
Definition setLeavesLTR (b : Buffer.Buffer) (leaves : nat) : Z -> MerkleTree -> option MerkleTree :=
  setLeaves (seq 0 leaves) b leaves.
(* @src src/src/crypto/digest/merkletree.cpp:195-212 Samurai::Crypto::Digest::MerkleTree::setLeavesRTL *)
Definition setLeavesRTL (b : Buffer.Buffer) (leaves : nat) : Z -> MerkleTree -> option MerkleTree :=
  setLeaves (rev (seq 0 leaves)) b leaves.
End Merkle.

Arguments State A : clear implicits.
Arguments MerkleTree A : clear implicits.

(** ** Stacks holding a list *)

(** The stack holds [l] in [cap] slots. *)
Definition holds (st : MerkleWorkStack) (l : list HashValue) (cap : nat) : Prop :=
  nodes st = map Some l ++ replicate (cap - length l) None /\ pos st = length l /\ (length l <= cap)%nat.

Lemma set_slot_app (a b : list (option HashValue)) x y :
  set_slot (length a) y (a ++ x :: b) = Some (a ++ y :: b).
Proof.
  unfold set_slot. destruct (Nat.ltb_spec (length a) (length (a ++ x :: b))); [|rewrite length_app in *; cbn in *; lia].
  by rewrite insert_app_r_alt, Nat.sub_diag by lia.
Qed.

Lemma set_slot_after (l : list HashValue) b x y :
  set_slot (length l) y (map Some l ++ x :: b) = Some (map Some l ++ y :: b).
Proof. rewrite <- (length_map Some l). apply set_slot_app. Qed.

Lemma holds_length st l cap : holds st l cap -> length (nodes st) = cap.
Proof. intros (-> & _ & Hc). rewrite length_app, length_map, length_replicate. lia. Qed.

Lemma holds_full st l cap : holds st l cap -> isFull st = Nat.eqb (length l) cap.
Proof. intros Hh. pose proof (holds_length _ _ _ Hh) as Hl. destruct Hh as (_ & Hp & _). unfold isFull. by rewrite Hp, Hl. Qed.

Lemma holds_new n : holds (new_MerkleWorkStack n) [] (Z.to_nat n).
Proof.
  unfold holds, new_MerkleWorkStack, clear. cbn. split; [|split; [done|lia]].
  rewrite Nat.sub_0_r. generalize (Z.to_nat n). intros m. induction m; cbn; by f_equal.
Qed.

Lemma holds_clear st l cap : holds st l cap -> holds (clear st) [] cap.
Proof.
  intros Hh. pose proof (holds_length _ _ _ Hh) as Hl. unfold holds, clear. cbn. rewrite Nat.sub_0_r.
  split; [|split; [done|lia]]. rewrite <- Hl. generalize (nodes st). intros m. induction m; cbn; by f_equal.
Qed.

Lemma holds_add st l cap v :
  holds st l cap -> (0 < cap)%nat ->
  exists st' cap', add v st = Some st' /\ holds st' (l ++ [v]) cap' /\ (cap <= cap')%nat /\
    ((length l < cap)%nat -> cap' = cap) /\ st_size st' = u64 (st_size st + 1).
Proof.
  intros Hh Hc. pose proof (holds_full _ _ _ Hh) as Hf. pose proof (holds_length _ _ _ Hh) as Hl.
  destruct Hh as (Hn & Hp & Hle). unfold add. rewrite Hf.
  set (cap' := if Nat.eqb (length l) cap then (cap + cap)%nat else cap).
  set (st1 := if Nat.eqb (length l) cap then grow st else st).
  assert (nodes st1 = map Some l ++ None :: replicate (cap' - length l - 1) None /\ pos st1 = length l /\
    st_size st1 = st_size st) as (H1 & H2 & H3).
  { unfold st1, cap'. destruct (Nat.eqb_spec (length l) cap) as [E|E].
    - cbn [grow nodes pos st_size]. rewrite Hl, Hn, Hp, E, Nat.sub_diag, app_nil_r. split; [|done].
      assert (cap + cap - cap - 1 = pred cap)%nat as -> by lia. destruct cap; [lia|done].
    - rewrite Hn. split; [|done]. destruct (cap - length l)%nat eqn:Ec; [lia|].
      cbn. by rewrite Nat.sub_0_r. }
  rewrite H1, H2, H3, set_slot_after. cbn [mbind option_bind].
  exists (mkStack (map Some l ++ Some v :: replicate (cap' - length l - 1) None) (u64 (st_size st + 1)) (S (length l))), cap'.
  split; [done|]. split; [|split; [|split; [|done]]].
  - unfold holds. cbn. rewrite map_app, length_app. cbn. rewrite <- app_assoc. cbn.
    split; [do 3 f_equal; lia|]. split; [lia|]. unfold cap'. destruct (Nat.eqb_spec (length l) cap); lia.
  - unfold cap'. destruct (Nat.eqb _ _); lia.
  - unfold cap'. destruct (Nat.eqb_spec (length l) cap); lia.
Qed.

Lemma holds_releaseFirst st l v cap :
  holds st (l ++ [v]) cap ->
  exists st', releaseFirst st = Some (Some v, st') /\ holds st' l cap /\ st_size st' = st_size st.
Proof.
  intros (Hn & Hp & Hle). rewrite length_app in *. cbn [length] in *. rewrite map_app, <- app_assoc in Hn.
  unfold releaseFirst. rewrite Hp. replace (length l + 1)%nat with (S (length l)) by lia.
  unfold release. rewrite Hn.
  assert ((map Some l ++ map Some [v] ++ replicate (cap - (length l + 1)) None) !! length l = Some (Some v)) as Hlk.
  { rewrite lookup_app_r by (by rewrite length_map). by rewrite length_map, Nat.sub_diag. }
  rewrite Hlk. cbn [mbind option_bind].
  change (map Some [v] ++ ?x) with (Some v :: x). rewrite set_slot_after. cbn.
  eexists. split; [done|]. split; [|done]. unfold holds. cbn. split; [|split; [done|lia]].
  f_equal. replace (cap - length l)%nat with (S (cap - (length l + 1))) by lia. done.
Qed.

(** ** The reference tree *)

Section Tree.
Context {A : Type} `{Hasher A}.

Definition leaf (m : bytes) : HashValue := hs_function (leaf_hash_prefix ++ m).
Definition node (a b : HashValue) : HashValue := hs_function (node_hash_prefix ++ a ++ b).

(** One level up: neighbours are combined, a spare last one moves up as it is. *)
Fixpoint pairs (l : list HashValue) : list HashValue :=
  match l with
  | a :: b :: l => node a b :: pairs l
  | l => l
  end.

(** The root, level by level. *)
Fixpoint levels (fuel : nat) (l : list HashValue) : list HashValue :=
  match fuel with
  | O => l
  | S fuel => if (1 <? length l)%nat then levels fuel (pairs l) else l
  end.
Definition root (l : list HashValue) : option HashValue := head (levels (length l) l).

Definition digests (l : list HashValue) : Prop := Forall (fun v => zlen v = hs_digest_size) l.

Lemma pairs_ind (P : list HashValue -> Prop) :
  P [] -> (forall a, P [a]) -> (forall a b l, P l -> P (a :: b :: l)) -> forall l, P l.
Proof.
  intros H0 H1 H2. fix IH 1. intros [|a [|b l]]; [done|apply H1|apply H2, IH].
Qed.

Lemma pairs_length l : length (pairs l) = (length l - length l / 2)%nat.
Proof.
  induction l as [| |a b l IH] using pairs_ind; [done|done|]. cbn [pairs length]. rewrite IH.
  replace (S (S (length l)))%nat with (length l + 1 * 2)%nat by lia. rewrite Nat.div_add by lia.
  pose proof (Nat.Div0.div_le_mono (length l) (length l) 2). pose proof (Nat.Div0.div_le_upper_bound (length l) 2 (length l)). lia.
Qed.

Lemma pairs_digests l : digests l -> digests (pairs l).
Proof.
  induction l as [| |a b l IH] using pairs_ind; [done|done|]. intros [_ [_ Hl]%Forall_cons]%Forall_cons.
  constructor; [apply hs_function_size|by apply IH].
Qed.

Lemma pairs_app a b : Nat.even (length a) = true -> pairs (a ++ b) = pairs a ++ pairs b.
Proof.
  induction a as [| |x y a IH] using pairs_ind; [done|done|]. intros He. cbn. by rewrite IH.
Qed.

Lemma pairs_spare a v : Nat.even (length a) = true -> pairs (a ++ [v]) = pairs a ++ [v].
Proof. intros. by rewrite pairs_app. Qed.

Lemma pairs_even l : Nat.even (length l) = true -> length l = (length (pairs l) + length (pairs l))%nat.
Proof.
  induction l as [| |a b l IH] using pairs_ind; [done|done|]. intros He. cbn [pairs length]. rewrite (IH He) at 1. lia.
Qed.

Lemma pairs_shorter l : (1 < length l)%nat -> (length (pairs l) < length l)%nat /\ pairs l <> [].
Proof.
  intros Hl. rewrite pairs_length. pose proof (Nat.div_str_pos (length l) 2 ltac:(lia)).
  split; [lia|]. destruct l as [|a [|b l]]; [cbn in Hl; lia|cbn in Hl; lia|done].
Qed.

Lemma levels_enough fuel l : (length l <= fuel)%nat -> levels fuel l = levels (length l) l.
Proof.
  revert fuel. induction l as [l IH] using (Nat.measure_induction _ length). intros fuel Hf.
  destruct fuel as [|fuel]; [destruct l; [done|cbn in Hf; lia]|]. cbn [levels].
  destruct (Nat.ltb_spec 1 (length l)) as [Hl|Hl].
  - destruct (pairs_shorter l Hl) as [Hs _]. rewrite IH by lia.
    destruct (length l) as [|n] eqn:El; [lia|]. cbn [levels]. rewrite El.
    rewrite (proj2 (Nat.ltb_lt _ _)) by lia. symmetry. apply IH; lia.
  - destruct l as [|a [|b l]]; [done|done|cbn in Hl; lia].
Qed.

Lemma root_pairs l : root (pairs l) = root l.
Proof.
  destruct (Nat.ltb_spec 1 (length l)) as [Hl|Hl].
  - destruct (pairs_shorter l Hl) as [Hs _]. unfold root at 2.
    destruct (length l) as [|n] eqn:El; [lia|]. cbn [levels]. rewrite El.
    rewrite (proj2 (Nat.ltb_lt _ _)) by lia. rewrite levels_enough by lia. done.
  - destruct l as [|a [|b l]]; [done|done|cbn in Hl; lia].
Qed.

Lemma combine_spec a b h :
  hs_ok h -> zlen a = hs_digest_size -> zlen b = hs_digest_size ->
  exists h', combine a b h = Some (h', node a b) /\ hs_ok h'.
Proof.
  intros Hok Ha Hb. unfold combine. pose proof (hs_reset_spec h Hok) as H0.
  destruct (hs_update_spec _ _ node_hash_prefix H0) as (h1 & -> & H1). cbn [mbind option_bind].
  rewrite (hs_size_spec h1) by (by eapply hs_absorbed_ok).
  assert (forall v : bytes, zlen v = hs_digest_size -> ztake hs_digest_size v = v) as Ht.
  { intros v Hv. apply take_ge. unfold zlen in Hv. lia. }
  rewrite (Ht a Ha). destruct (hs_update_spec _ _ a H1) as (h2 & -> & H2). cbn [mbind option_bind].
  rewrite (hs_size_spec h2) by (by eapply hs_absorbed_ok).
  rewrite (Ht b Hb). destruct (hs_update_spec _ _ b H2) as (h3 & -> & H3). cbn [mbind option_bind].
  destruct (hs_digest_spec _ _ H3) as [Hv Hok3]. destruct (hs_digest h3) as [v h4]. cbn [fst snd] in *.
  exists h4. split; [|done]. unfold setData. rewrite Hv.
  assert (length (hs_function ((([] ++ node_hash_prefix) ++ a) ++ b)) = length a) as ->.
  { pose proof (hs_function_size ((([] ++ node_hash_prefix) ++ a) ++ b)). unfold zlen in *. lia. }
  rewrite Nat.eqb_refl. cbn [negb snd app]. unfold node. by rewrite <- app_assoc.
Qed.

(** One pass over pairs: [D] is done, [R] is left. *)
Lemma compact_loop_spec R : forall fuel D T h st,
  nodes st = map Some D ++ replicate (length D) None ++ map Some R ++ T ->
  pos st = (2 * length D + length R)%nat -> Nat.even (length R) = true -> digests R -> hs_ok h ->
  (length R <= fuel)%nat ->
  exists h' st', compact_loop fuel (2 * length D) (length D) h st =
      Some (h', st', length (D ++ pairs R)) /\
    nodes st' = map Some (D ++ pairs R) ++ replicate (length (D ++ pairs R)) None ++ T /\
    pos st' = pos st /\ st_size st' = st_size st /\ hs_ok h'.
Proof.
  induction R as [| |a b R IH] using pairs_ind; intros fuel D T h st Hn Hp He Hd Hok Hf.
  - exists h, st. rewrite app_nil_r. cbn in Hp. split; [|done].
    destruct fuel; cbn [compact_loop]; by rewrite (proj2 (Nat.ltb_ge _ _)) by lia.
  - done.
  - destruct fuel as [|fuel]; [cbn in Hf; lia|]. cbn [compact_loop length] in *.
    rewrite (proj2 (Nat.ltb_lt _ _)) by lia. cbn [negb].
    apply Forall_cons in Hd as [Ha Hd]. apply Forall_cons in Hd as [Hb Hd].
    set (pre := map Some D ++ replicate (length D) None).
    assert (length pre = 2 * length D)%nat as Hpre.
    { unfold pre. rewrite length_app, length_map, length_replicate. lia. }
    assert (nodes st = pre ++ Some a :: Some b :: map Some R ++ T) as Hn'.
    { rewrite Hn. unfold pre. by rewrite <- app_assoc. }
    assert (forall x y (l : list (option HashValue)), set_slot (2 * length D) y (pre ++ x :: l) = Some (pre ++ y :: l)) as Hset.
    { intros x y l. rewrite <- Hpre. apply set_slot_app. }
    assert (forall x x' y (l : list (option HashValue)),
      set_slot (2 * length D + 1) y (pre ++ x :: x' :: l) = Some (pre ++ x :: y :: l)) as Hset1.
    { intros x x' y l. change (pre ++ x :: x' :: l) with (pre ++ [x] ++ x' :: l).
      rewrite app_assoc. replace (2 * length D + 1)%nat with (length (pre ++ [x])) by (rewrite length_app; cbn; lia).
      rewrite set_slot_app. by rewrite <- app_assoc. }
    assert (forall x (l : list (option HashValue)), (pre ++ x :: l) !! (2 * length D)%nat = Some x) as Hlk.
    { intros x l. rewrite lookup_app_r by lia. by rewrite Hpre, Nat.sub_diag. }
    assert (forall x x' (l : list (option HashValue)), (pre ++ x :: x' :: l) !! (2 * length D + 1)%nat = Some x') as Hlk1.
    { intros x x' l. rewrite lookup_app_r by lia. rewrite Hpre.
      by replace (2 * length D + 1 - 2 * length D)%nat with 1%nat by lia. }
    destruct (combine_spec a b h Hok Ha Hb) as (h1 & Hc & Hok1).
    unfold get, set_, release, destroy. rewrite Hn', Hlk, Hlk1. cbn [mjoin option_join mbind option_bind].
    rewrite Hc. cbn [mbind option_bind]. rewrite Hset. cbn [mbind option_bind nodes pos st_size].
    rewrite Hlk. cbn [mbind option_bind]. rewrite Hset. cbn [mbind option_bind nodes pos st_size].
    rewrite Hset1. cbn [mbind option_bind nodes pos st_size].
    assert (pre ++ None :: None :: map Some R ++ T =
      map Some D ++ None :: replicate (S (length D)) None ++ map Some R ++ T) as ->.
    { unfold pre. rewrite <- app_assoc. f_equal.
      change (None :: replicate (S (length D)) None ++ map Some R ++ T) with
        (replicate (S (S (length D))) None ++ map Some R ++ T).
      replace (S (S (length D))) with (length D + 2)%nat by lia. rewrite replicate_add. by rewrite <- app_assoc. }
    rewrite set_slot_after. cbn [mbind option_bind].
    destruct (IH fuel (D ++ [node a b]) T h1 (mkStack (map Some D ++ Some (node a b) ::
      replicate (S (length D)) None ++ map Some R ++ T) (st_size st) (pos st))) as (h' & st' & Hl & H1 & H2 & H3 & H4).
    + cbn [nodes]. rewrite map_app, length_app. cbn [map length]. rewrite <- app_assoc.
      by replace (length D + 1)%nat with (S (length D)) by lia.
    + cbn [pos]. rewrite length_app. cbn. lia.
    + done.
    + done.
    + done.
    + lia.
    + exists h', st'. rewrite length_app in Hl. cbn [length] in Hl.
      replace (2 * (length D + 1))%nat with (2 * length D + 2)%nat in Hl by lia.
      rewrite Hl. cbn [pairs]. rewrite <- app_assoc in *. cbn [app] in *. done.
Qed.

Lemma tree_compact_spec h st l cap :
  holds st l cap -> Nat.even (length l) = true -> digests l -> hs_ok h ->
  exists h' st', compact h st = Some (h', st') /\ holds st' (pairs l) cap /\ hs_ok h' /\ st_size st' = st_size st.
Proof.
  intros (Hn & Hp & Hle) He Hd Hok. unfold compact. rewrite Hp, He. cbn [negb].
  destruct (compact_loop_spec l (length l) [] (replicate (cap - length l) None) h st Hn Hp He Hd Hok ltac:(lia))
    as (h' & st' & Hl & H1 & H2 & H3 & H4).
  cbn [length Nat.mul Nat.add] in Hl. rewrite Hl. cbn [mbind option_bind app].
  exists h', (setPosition (length (pairs l)) st'). split; [done|]. split; [|done].
  pose proof (pairs_even l He) as Hlen. cbn [app] in H1.
  unfold holds, setPosition. cbn. rewrite H1. split; [|split; [done|lia]].
  rewrite take_app_length' by (by rewrite length_map). f_equal. f_equal.
  rewrite !length_app, length_map, !length_replicate. lia.
Qed.

Lemma compact_all_spec l : forall fuel h st cap,
  holds st l cap -> l <> [] -> digests l -> hs_ok h -> (length l <= fuel)%nat ->
  exists h' st' r, compact_all fuel h st = Some (h', st') /\ root l = Some r /\ holds st' [r] cap /\
    hs_ok h' /\ zlen r = hs_digest_size.
Proof.
  induction l as [l IH] using (Nat.measure_induction _ length). intros fuel h st cap Hh Hne Hd Hok Hf.
  pose proof Hh as (Hn & Hp & Hle). destruct (Nat.ltb_spec 1 (length l)) as [Hl|Hl].
  2:{ destruct l as [|r [|b l]]; [done| |cbn in Hl; lia]. exists h, st, r.
      split; [|by apply Forall_cons in Hd as [Hr _]]. destruct fuel; cbn [compact_all]; rewrite Hp; done. }
  destruct fuel as [|fuel]; [lia|]. cbn [compact_all]. rewrite Hp, (proj2 (Nat.ltb_lt _ _)) by done. cbn [negb].
  destruct (pairs_shorter l Hl) as [Hs Hpne]. rewrite <- Nat.negb_even.
  assert (exists h1 st1, (
    '(spare, stack) ← (if negb (Nat.even (length l)) then releaseFirst st else Some (None, st));
    '(h, stack) ← compact h stack;
    stack ← match spare with Some node => add node stack | None => Some stack end;
    Some (h, stack)) = Some (h1, st1) /\ holds st1 (pairs l) cap /\ hs_ok h1) as (h1 & st1 & Hround & Hh1 & Hok1).
  { destruct (Nat.even (length l)) eqn:He; cbn [negb].
    - destruct (tree_compact_spec h st l cap Hh He Hd Hok) as (h1 & st1 & E & H1 & H2 & _).
      cbn [mbind option_bind]. rewrite E. cbn. by exists h1, st1.
    - destruct l as [|v a _] using rev_ind; [done|]. rewrite length_app in *. cbn [length] in *.
      rewrite Nat.even_add in He. assert (Nat.even (length a) = true) as Hea by (by destruct (Nat.even (length a))).
      destruct (holds_releaseFirst st a v cap Hh) as (st0 & E0 & H0 & _). rewrite E0. cbn [mbind option_bind].
      apply Forall_app in Hd as [Hda Hdv].
      destruct (tree_compact_spec h st0 a cap H0 Hea Hda Hok) as (h1 & st1 & E & H1 & H2 & _). rewrite E. cbn [mbind option_bind].
      destruct (holds_add st1 (pairs a) cap v H1 ltac:(lia)) as (st2 & cap' & E2 & H3 & _ & Hcap & _).
      rewrite E2. cbn. exists h1, st2. split; [done|].
      rewrite pairs_spare by done. pose proof (pairs_even a Hea). rewrite Hcap in H3 by lia. done. }
  destruct (IH (pairs l) Hs fuel h1 st1 cap Hh1 Hpne (pairs_digests l Hd) Hok1 ltac:(lia))
    as (h' & st' & r & E & Hr & H1 & H2 & H3).
  exists h', st', r. rewrite root_pairs in Hr. split; [|done]. rewrite <- E. clear -Hround.
  destruct (if negb (Nat.even (length l)) then releaseFirst st else Some (None, st)) as [[spare s1]|]; [|done].
  cbn [mbind option_bind] in *. destruct (compact h s1) as [[h2 s2]|]; [|done]. cbn [mbind option_bind] in *.
  destruct (match spare with Some node => add node s2 | None => Some s2 end); [|done].
  cbn in *. by injection Hround as -> ->.
Qed.

(** *** Several levels up *)

Fixpoint ups (k : nat) (l : list HashValue) : list HashValue :=
  match k with O => l | S k => ups k (pairs l) end.

Lemma ups_pairs k l : ups k (pairs l) = pairs (ups k l).
Proof. revert l. induction k as [|k IH]; intros l; [done|]. cbn. apply IH. Qed.

Lemma ups_root k l : root (ups k l) = root l.
Proof. revert l. induction k as [|k IH]; intros l; [done|]. cbn. by rewrite IH, root_pairs. Qed.

Lemma ups_digests k l : digests l -> digests (ups k l).
Proof. revert l. induction k as [|k IH]; intros l Hl; [done|]. cbn. by apply IH, pairs_digests. Qed.

Lemma ups_app k n a b : length a = (n * 2 ^ k)%nat -> ups k (a ++ b) = ups k a ++ ups k b.
Proof.
  revert a b. induction k as [|k IH]; intros a b Ha; [done|]. cbn [ups].
  assert (Nat.even (length a) = true) as He.
  { rewrite Ha, Nat.pow_succ_r', Nat.mul_assoc, (Nat.mul_comm n 2), <- Nat.mul_assoc. apply Nat.even_mul. }
  rewrite pairs_app by done. apply IH. pose proof (pairs_even a He). rewrite Nat.pow_succ_r' in Ha. nia.
Qed.

Lemma ups_single k l : l <> [] -> (length l <= 2 ^ k)%nat -> exists r, ups k l = [r] /\ root l = Some r.
Proof.
  revert l. induction k as [|k IH]; intros l Hne Hl.
  - destruct l as [|r [|b l]]; [done|by exists r|cbn in Hl; lia].
  - cbn [ups]. assert (pairs l <> [] /\ (length (pairs l) <= 2 ^ k)%nat) as [Hp Hpl].
    { rewrite pairs_length. split; [by destruct l as [|a [|b l]]|].
      rewrite Nat.pow_succ_r' in Hl. pose proof (Nat.div_mod_eq (length l) 2).
      pose proof (Nat.mod_upper_bound (length l) 2 ltac:(lia)). lia. }
    destruct (IH _ Hp Hpl) as (r & Hr & Hroot). exists r. split; [done|]. by rewrite root_pairs in Hroot.
Qed.

(** ** The invariant of the tree *)

(** After the leaves [L]: the nodes stand for [2 ^ k] leaves each, the rest of
    the leaves is at work. *)
Record tree_inv (s : State A) (L : list HashValue) (cap : nat) : Prop := mkTreeInv {
  ti_ok : hs_ok (m_hasher s);
  ti_digests : digests L;
  ti_cap : (0 < cap)%nat /\ Nat.even cap = true;
  ti_count : m_count s = zlen L;
  ti_parts : exists k N W L1 wcap,
    m_blocks_per_leaf s = 2 ^ Z.of_nat k /\
    holds (m_nodes s) N cap /\ holds (m_work s) W wcap /\ (0 < wcap)%nat /\ st_size (m_work s) = zlen W /\
    L = L1 ++ W /\ length L1 = (length N * 2 ^ k)%nat /\ N = ups k L1 /\
    (length W < 2 ^ k)%nat /\ (length N = cap -> W = [])
}.

Lemma promote_spec s N W cap wcap :
  hs_ok (m_hasher s) -> holds (m_nodes s) N cap -> (length N < cap)%nat ->
  holds (m_work s) W wcap -> W <> [] -> digests W ->
  exists s' r, promote s = Some s' /\ root W = Some r /\ hs_ok (m_hasher s') /\
    holds (m_nodes s') (N ++ [r]) cap /\ holds (m_work s') [] wcap /\ st_size (m_work s') = 0 /\
    m_count s' = m_count s /\ m_blocks_per_leaf s' = m_blocks_per_leaf s.
Proof.
  intros Hok Hn Hlt Hw Hne Hd. unfold promote.
  assert (pos (m_work s) = length W) as -> by apply Hw.
  destruct (compact_all_spec W (length W) (m_hasher s) (m_work s) wcap Hw Hne Hd Hok ltac:(lia))
    as (h' & st' & r & E & Hr & H1 & H2 & _). rewrite E. cbn [mbind option_bind].
  destruct (holds_releaseFirst st' [] r wcap H1) as (st2 & E2 & H3 & _). rewrite E2. cbn [mbind option_bind].
  destruct (holds_add (m_nodes s) N cap r Hn ltac:(lia)) as (st3 & cap' & E3 & H4 & _ & Hcap & _).
  rewrite E3. cbn [mbind option_bind]. rewrite (Hcap Hlt) in H4.
  eexists _, r. split; [done|]. split; [done|]. cbn. split; [done|]. split; [done|].
  split; [by eapply holds_clear|done].
Qed.

(** Hashing one leaf. *)
Lemma leaf_spec (h : A) data :
  hs_ok h ->
  exists h1 h2 h3, hs_update leaf_hash_prefix (hs_reset h) = Some h1 /\ hs_update data h1 = Some h2 /\
    hs_digest h2 = (leaf data, h3) /\ hs_ok h3.
Proof.
  intros Hok. pose proof (hs_reset_spec h Hok) as H0.
  destruct (hs_update_spec _ _ leaf_hash_prefix H0) as (h1 & E1 & H1).
  destruct (hs_update_spec _ _ data H1) as (h2 & E2 & H2).
  destruct (hs_digest_spec _ _ H2) as [Hv Hok3]. destruct (hs_digest h2) as [v h3] eqn:E3. cbn in *.
  exists h1, h2, h3. split; [done|]. split; [done|]. by rewrite E3, Hv.
Qed.

(** Making room: afterwards there is a free slot for a node. *)
Lemma make_room s L cap :
  tree_inv s L cap -> zlen L < 2 ^ 60 ->
  exists s', (if isFull (m_nodes s) then
         '(h, nodes) ← compact (m_hasher s) (m_nodes s);
         Some (with_blocks_per_leaf (u64 (Z.shiftl (m_blocks_per_leaf s) 1)) (with_nodes nodes (with_hasher h s)))
       else Some s) = Some s' /\ tree_inv s' L cap /\ isFull (m_nodes s') = false.
Proof.
  intros [Hok Hd [Hc Hce] Hcount (k & N & W & L1 & wcap & Hb & Hn & Hw & Hwc & Hws & HL & HL1 & HN & HW & Hfull)] Hlen.
  rewrite (holds_full _ _ _ Hn). destruct (Nat.eqb_spec (length N) cap) as [E|E].
  2:{ exists s. split; [done|]. split; [|rewrite (holds_full _ _ _ Hn); by apply Nat.eqb_neq].
      constructor; try done. by exists k, N, W, L1, wcap. }
  specialize (Hfull E). subst W. rewrite app_nil_r in HL. subst L1.
  assert (Nat.even (length N) = true) as He by (by rewrite E).
  assert (digests N) as HdN by (rewrite HN; by apply ups_digests).
  destruct (tree_compact_spec (m_hasher s) (m_nodes s) N cap Hn He HdN Hok) as (h' & st' & Ec & H1 & H2 & _).
  rewrite Ec. cbn [mbind option_bind]. eexists. split; [done|].
  pose proof (pairs_even N He) as Hp.
  split; [|cbn; rewrite (holds_full _ _ _ H1); apply Nat.eqb_neq; lia].
  constructor; try done. exists (S k), (pairs N), [], L, wcap. cbn [m_blocks_per_leaf with_blocks_per_leaf].
  assert (2 * 2 ^ Z.of_nat k <= zlen L) as Hpow.
  { unfold zlen. rewrite HL1. rewrite Nat2Z.inj_mul, Nat2Z.inj_pow. change (Z.of_nat 2) with 2.
    assert (2 <= Z.of_nat (length N)) by (destruct (length N) as [|[|n]]; [lia|done|lia]).
    pose proof (Z.pow_pos_nonneg 2 (Z.of_nat k)). nia. }
  split; [|split; [done|split; [done|split; [done|split; [done|split; [by rewrite app_nil_r|]]]]]].
  { rewrite Hb, Z.shiftl_mul_pow2, Nat2Z.inj_succ, Z.pow_succ_r by lia. unfold u64. rewrite Z.mod_small; lia. }
  split; [rewrite Nat.pow_succ_r'; nia|]. split; [rewrite HN; cbn; by rewrite ups_pairs|].
  split; [|done]. cbn [length]. pose proof (Nat.pow_nonzero 2 (S k)). lia.
Qed.

Lemma hash_block_spec s L cap data :
  tree_inv s L cap -> zlen L < 2 ^ 60 ->
  exists s', hash_block data s = Some s' /\ tree_inv s' (L ++ [leaf data]) cap.
Proof.
  intros Hinv Hlen. unfold hash_block. destruct (make_room s L cap Hinv Hlen) as (s0 & -> & Hinv0 & Hroom).
  clear s Hinv. cbn [mbind option_bind].
  destruct Hinv0 as [Hok Hd Hcap Hcount (k & N & W & L1 & wcap & Hb & Hn & Hw & Hwc & Hws & HL & HL1 & HN & HW & Hfull)].
  rewrite (holds_full _ _ _ Hn) in Hroom. apply Nat.eqb_neq in Hroom. pose proof Hn as (_ & _ & Hle).
  destruct (leaf_spec (m_hasher s0) data Hok) as (h1 & h2 & h3 & -> & E2 & E3 & Hok3). cbn [mbind option_bind].
  rewrite E2. cbn [mbind option_bind]. rewrite E3.
  destruct (holds_add (m_work s0) W wcap (leaf data) Hw Hwc) as (work & wcap' & -> & Hw' & Hwc' & _ & Hws').
  cbn [mbind option_bind]. cbn [m_work with_work].
  assert (digests (L ++ [leaf data])) as Hd'.
  { apply Forall_app. split; [done|]. constructor; [apply hs_function_size|done]. }
  assert (digests (W ++ [leaf data])) as HdW.
  { rewrite HL, <- app_assoc in Hd'. by apply Forall_app in Hd' as [_ ?]. }
  assert (zlen W <= zlen L) as HWL by (rewrite HL, zlen_app; pose proof (zlen_nonneg L1); lia).
  assert (st_size work = zlen (W ++ [leaf data])) as Hsz.
  { rewrite Hws', Hws, zlen_app. change (zlen [leaf data]) with 1. apply Z.mod_small. pose proof (zlen_nonneg W). lia. }
  set (s1 := with_work work (with_hasher h3 s0)).
  assert (u64 (zlen L + 1) = zlen (L ++ [leaf data])) as Hc1.
  { rewrite zlen_app. change (zlen [leaf data]) with 1. apply Z.mod_small. pose proof (zlen_nonneg L). lia. }
  change (m_blocks_per_leaf s1) with (m_blocks_per_leaf s0). rewrite Hb, Hsz.
  assert (Z.of_nat (2 ^ k) = 2 ^ Z.of_nat k) as Hpow by (rewrite Nat2Z.inj_pow; done).
  destruct (Z.eqb_spec (zlen (W ++ [leaf data])) (2 ^ Z.of_nat k)) as [Efull|Enot].
  - assert (length (W ++ [leaf data]) = (2 ^ k)%nat) as HWk by (unfold zlen in Efull; lia).
    destruct (promote_spec s1 N (W ++ [leaf data]) cap wcap' Hok3 Hn ltac:(lia) Hw' ltac:(by destruct W) HdW)
      as (s2 & r & -> & Hr & Hok2 & Hn2 & Hw2 & Hs2 & Hc2 & Hb2).
    cbn [mbind option_bind]. eexists. split; [done|]. constructor; cbn; try done.
    { rewrite Hc2. cbn. by rewrite Hcount. }
    exists k, (N ++ [r]), [], (L ++ [leaf data]), wcap'.
    destruct (ups_single k (W ++ [leaf data]) ltac:(by destruct W) ltac:(lia)) as (r' & Hup & Hr').
    rewrite Hr in Hr'. injection Hr' as <-.
    split; [by rewrite Hb2|]. split; [done|]. split; [done|]. split; [lia|]. split; [done|].
    split; [by rewrite app_nil_r|]. split.
    { rewrite HL, !length_app in *. cbn [length] in *. lia. }
    split; [by rewrite HL, <- app_assoc, (ups_app k (length N)), Hup, <- HN|].
    split; [|done]. pose proof (Nat.pow_nonzero 2 k). cbn. lia.
  - cbn [mbind option_bind]. eexists. split; [done|]. constructor; cbn; try done.
    { by rewrite Hcount. }
    exists k, N, (W ++ [leaf data]), L1, wcap'.
    assert (length (W ++ [leaf data]) <> 2 ^ k)%nat as Hne by (unfold zlen in Enot; lia).
    rewrite length_app in *. cbn [length] in *.
    split_and!; try done; [lia|by rewrite HL, <- app_assoc|lia].
Qed.

(** ** Finishing *)

Lemma copy_nodes_spec R : forall n from work acc cap T P,
  nodes from = P ++ map Some R ++ T -> length P = n -> holds work acc cap -> (0 < cap)%nat ->
  exists work' cap', copy_nodes (length R) n from work = Some work' /\ holds work' (acc ++ R) cap' /\ (0 < cap')%nat.
Proof.
  induction R as [|v R IH]; intros n from work acc cap T P Hn HP Hw Hc.
  - exists work, cap. by rewrite app_nil_r.
  - cbn [length copy_nodes]. unfold get. rewrite Hn.
    assert ((P ++ map Some (v :: R) ++ T) !! n = Some (Some v)) as ->.
    { rewrite lookup_app_r by lia. by rewrite HP, Nat.sub_diag. }
    cbn [mjoin option_join mbind option_bind].
    destruct (holds_add work acc cap v Hw Hc) as (w1 & c1 & -> & H1 & Hle & _ & _). cbn [mbind option_bind].
    destruct (IH (S n) from w1 (acc ++ [v]) c1 T (P ++ [Some v])) as (w2 & c2 & E & H2 & H3); [| |done|lia|].
    + rewrite Hn. cbn. by rewrite <- app_assoc.
    + rewrite length_app. cbn. lia.
    + exists w2, c2. by rewrite <- app_assoc in H2.
Qed.

Lemma move_nodes_spec R : forall n from to acc cap T P,
  nodes from = P ++ map Some R ++ T -> length P = n -> holds to acc cap ->
  (0 < cap)%nat -> (length acc + length R <= cap)%nat ->
  exists from' to', move_nodes (length R) n from to = Some (from', to') /\ holds to' (acc ++ R) cap /\
    length (nodes from') = length (nodes from).
Proof.
  induction R as [|v R IH]; intros n from to acc cap T P Hn HP Ht Hc Hle.
  - exists from, to. by rewrite app_nil_r.
  - cbn [length move_nodes map] in *. unfold release. rewrite Hn.
    assert ((P ++ (Some v :: map Some R) ++ T) !! n = Some (Some v)) as ->.
    { rewrite lookup_app_r by lia. by rewrite HP, Nat.sub_diag. }
    cbn [mbind option_bind]. rewrite <- HP. change ((Some v :: ?x) ++ T) with (Some v :: x ++ T).
    rewrite set_slot_app. cbn [mbind option_bind].
    destruct (holds_add to acc cap v Ht Hc) as (t1 & c1 & -> & H1 & _ & Hcap & _). rewrite Hcap in H1 by lia.
    cbn [mbind option_bind].
    set (from1 := mkStack (P ++ None :: map Some R ++ T) (st_size from) (pos from)).
    destruct (IH (S (length P)) from1 t1 (acc ++ [v]) cap T (P ++ [None])) as (f2 & t2 & E & H2 & H3); [| |done|done| |].
    + cbn. by rewrite <- app_assoc.
    + rewrite length_app. cbn. lia.
    + rewrite length_app. cbn. lia.
    + exists f2, t2. split; [done|]. rewrite <- app_assoc in H2. split; [done|]. rewrite H3. cbn.
      rewrite !length_app. done.
Qed.

Lemma holds_cleared st : holds (clear st) [] (length (nodes st)).
Proof.
  unfold holds, clear. cbn. rewrite Nat.sub_0_r.
  split; [|split; [done|lia]]. generalize (nodes st). intros m. induction m; cbn; by f_equal.
Qed.

Lemma ups_nonempty k l : l <> [] -> ups k l <> [].
Proof.
  revert l. induction k as [|k IH]; intros l Hl; [done|]. cbn. apply IH. by destruct l as [|a [|b l]].
Qed.

(** The last, incomplete group of leaves becomes a node. *)
Lemma gather s L cap :
  tree_inv s L cap -> zlen L < 2 ^ 60 ->
  exists s' k wcap, (if negb (st_size (m_work s) =? 0) then promote s else Some s) = Some s' /\
    hs_ok (m_hasher s') /\ holds (m_nodes s') (ups k L) cap /\ holds (m_work s') [] wcap /\ (0 < wcap)%nat.
Proof.
  intros [Hok Hd Hcap Hcount (k & N & W & L1 & wcap & Hb & Hn & Hw & Hwc & Hws & HL & HL1 & HN & HW & Hfull)] Hlen.
  pose proof Hn as (_ & _ & Hle). rewrite Hws. destruct (decide (W = [])) as [->|Hne].
  - exists s, k, wcap. split; [done|]. rewrite app_nil_r in HL. subst L1. by rewrite <- HN.
  - assert ((zlen W =? 0) = false) as -> by (destruct W; [done|]; rewrite zlen_cons; pose proof (zlen_nonneg W); lia).
    cbn [negb]. assert (length N < cap)%nat as Hlt.
    { destruct (Nat.eq_dec (length N) cap) as [E|]; [by specialize (Hfull E)|lia]. }
    assert (digests W) as HdW by (rewrite HL in Hd; by apply Forall_app in Hd as [_ ?]).
    destruct (promote_spec s N W cap wcap Hok Hn Hlt Hw Hne HdW) as (s' & r & E & Hr & H1 & H2 & H3 & _ & _ & _).
    exists s', k, wcap. split; [done|]. split; [done|]. split; [|done].
    destruct (ups_single k W Hne ltac:(lia)) as (r' & Hup & Hr'). rewrite Hr in Hr'. injection Hr' as <-.
    by rewrite HL, (ups_app k (length N)), Hup, <- HN.
Qed.

Lemma tree_finish_spec s L cap :
  tree_inv s L cap -> L <> [] -> zlen L < 2 ^ 60 ->
  exists s' r k, finish s = Some (r, s') /\ root L = Some r /\ zlen r = hs_digest_size /\
    hs_ok (m_hasher s') /\ holds (m_nodes s') (ups k L) cap.
Proof.
  intros Hinv Hne Hlen. pose proof Hinv as [_ Hd [Hc _] _ _]. unfold finish.
  destruct (gather s L cap Hinv Hlen) as (s1 & k & wcap & -> & Hok & Hn & Hw & Hwc). cbn [mbind option_bind].
  set (N := ups k L) in *. pose proof Hn as (Hnn & Hnp & Hnle). rewrite Hnp.
  destruct (copy_nodes_spec N 0 (m_nodes s1) (m_work s1) [] wcap (replicate (cap - length N) None) []) as
    (work & wcap' & -> & Hw' & Hwc'); [done|done|done|done|]. cbn [mbind option_bind app] in *.
  assert (N <> []) as HNne by (by apply ups_nonempty). assert (digests N) as HdN by (by apply ups_digests).
  destruct (compact_all_spec N (length N) (m_hasher s1) (m_nodes s1) cap Hn HNne HdN Hok ltac:(lia))
    as (h' & st' & r & -> & Hr & Hst & Hok' & Hrs). cbn [mbind option_bind].
  assert (getFirst st' = Some r) as ->.
  { destruct Hst as (Hs1 & Hs2 & _). unfold getFirst, get. by rewrite Hs2, Hs1. }
  cbn [mbind option_bind]. pose proof Hw' as (Hwn & Hwp & Hwl). rewrite Hwp.
  destruct (move_nodes_spec N 0 work (clear st') [] cap (replicate (wcap' - length N) None) []) as
    (from' & to' & -> & Hto & Hfrom); [done|done|by eapply holds_clear|done|cbn; lia|].
  cbn [mbind option_bind]. eexists _, r, k. split; [done|]. split; [|split; [done|]].
  - rewrite <- Hr. symmetry. apply ups_root.
  - cbn. done.
Qed.

(** ** The digest of a message *)

(** The blocks that become leaves: the full ones and what is left, or one empty
    block for the empty message. *)
Definition leaf_blocks (B : Z) (m : bytes) : list bytes :=
  let full := blocks B m in
  let rest := drop (length (concat full)) m in
  if bool_decide (rest = []) && negb (bool_decide (full = [])) then full else full ++ [rest].

Lemma option_bind_Some {X Y} (f : X -> option Y) o y : o ≫= f = Some y -> exists x, o = Some x /\ f x = Some y.
Proof. destruct o as [x|]; [by exists x|done]. Qed.

Lemma promote_static s s' : promote s = Some s' -> m_max_leaves s' = m_max_leaves s.
Proof.
  unfold promote. intros E. apply option_bind_Some in E as ([h w] & _ & E).
  apply option_bind_Some in E as ([v w'] & _ & E). apply option_bind_Some in E as (n & _ & E).
  apply option_bind_Some in E as (ns & _ & E). by injection E as <-.
Qed.

Lemma hash_block_static d s s' : hash_block d s = Some s' -> m_max_leaves s' = m_max_leaves s.
Proof.
  unfold hash_block. intros E. apply option_bind_Some in E as (s0 & E0 & E).
  assert (m_max_leaves s0 = m_max_leaves s) as <-.
  { destruct (isFull _); [|by injection E0 as <-]. apply option_bind_Some in E0 as ([h n] & _ & E0). by injection E0 as <-. }
  apply option_bind_Some in E as (h1 & _ & E). apply option_bind_Some in E as (h2 & _ & E).
  destruct (hs_digest h2) as [v h3]. apply option_bind_Some in E as (w & _ & E).
  apply option_bind_Some in E as (s1 & E1 & E). injection E as <-. cbn.
  destruct (_ =? _); [by apply promote_static in E1|by injection E1 as <-].
Qed.

Lemma finish_static s r s' : finish s = Some (r, s') -> m_max_leaves s' = m_max_leaves s.
Proof.
  unfold finish. intros E. apply option_bind_Some in E as (s0 & E0 & E).
  assert (m_max_leaves s0 = m_max_leaves s) as <-.
  { destruct (negb _); [by apply promote_static|by injection E0 as <-]. }
  apply option_bind_Some in E as (w & _ & E). apply option_bind_Some in E as ([h n] & _ & E).
  apply option_bind_Some in E as (r' & _ & E). apply option_bind_Some in E as ([w' n'] & _ & E).
  by injection E as <- <-.
Qed.

(** A tree that can be used, with [cap] leaves kept. *)
Definition tree_ok (t : MerkleTree A) (cap : nat) : Prop :=
  m_size t = hs_digest_size /\ 0 < m_block_size t < 2 ^ 32 /\
  zlen (m_current_block t) = m_block_size t /\ zlen (m_finalized_value t) = hs_digest_size /\
  (0 < cap)%nat /\ Nat.even cap = true /\
  exists s, algorithm t = Some s /\ hs_ok (m_hasher s) /\ Z.to_nat (m_max_leaves s) = cap.

(** The tree has absorbed [m] since a reset. *)
Definition tree_absorbed (t : MerkleTree A) (m : bytes) (cap : nat) : Prop :=
  m_size t = hs_digest_size /\ 0 < m_block_size t < 2 ^ 32 /\ zlen (m_finalized_value t) = hs_digest_size /\
  exists s0, tree_inv s0 [] cap /\ Z.to_nat (m_max_leaves s0) = cap /\ absorbed hash (Some s0) m t.

Lemma reset_absorbed t cap : tree_ok t cap -> tree_absorbed (reset t) [] cap.
Proof.
  intros (Hs & HB & Hl & Hv & Hc & Hce & s & Ha & Hok & Hm).
  split; [exact Hs|]. split; [exact HB|]. split; [exact Hv|].
  unfold reset. rewrite Ha. cbn [fmap option_fmap option_map].
  set (s0 := mkState (hs_reset (m_hasher s)) _ _ _ _ _ _). exists s0. split; [|split; [|split; [|split]]].
  3:{ unfold ready. cbn. split; [done|]. split; [lia|]. split; [done|]. lia. }
  2: exact Hm.
  2: reflexivity.
  2:{ exists [], []. split; [reflexivity|]. split; [constructor|]. split; [reflexivity|]. split; reflexivity. }
  constructor; cbn; try done.
  - eapply hs_absorbed_ok. by apply hs_reset_spec.
  - constructor.
  - pose proof (holds_new (m_max_leaves s)) as Hnew. rewrite Hm in Hnew.
    exists 0%nat, [], [], [], cap. split; [done|]. split; [exact Hnew|]. split; [exact Hnew|].
    split; [exact Hc|]. splits; reflexivity || (cbn; lia).
Qed.

(** Feeding pieces one after another. *)
Fixpoint updates (ds : list bytes) (t : MerkleTree A) : option (MerkleTree A) :=
  match ds with [] => Some t | d :: ds => t ← update hash d t; updates ds t end.

Lemma update_keeps d (t t' : MerkleTree A) :
  ready t -> update hash d t = Some t' ->
  m_size t' = m_size t /\ m_block_size t' = m_block_size t /\ m_finalized_value t' = m_finalized_value t.
Proof.
  intros Hr. rewrite update_fold by done. intros [= <-]. clear Hr. revert t.
  induction d as [|c d IH]; intros t; [done|]. cbn [fold_left]. destruct (IH (absorb hash t c)) as (-> & -> & ->).
  unfold absorb. by destruct (_ =? m_block_size t).
Qed.

Lemma tree_updates_absorbed ds : forall t m cap,
  tree_absorbed t m cap -> exists t', updates ds t = Some t' /\ tree_absorbed t' (m ++ concat ds) cap /\
    m_block_size t' = m_block_size t.
Proof.
  induction ds as [|d ds IH]; intros t m cap H0; [exists t; by rewrite app_nil_r|].
  destruct H0 as (Hs & HB & Hv & s0 & Hi & Hm & Ha). pose proof Ha as [Hr _].
  destruct (update_absorbs _ _ _ d _ Ha) as (t1 & Hu & Ha1 & Hbs).
  destruct (update_keeps d t t1 Hr Hu) as (K1 & _ & K3). cbn [updates]. rewrite Hu. cbn [mbind option_bind].
  assert (tree_absorbed t1 (m ++ d) cap) as H1.
  { unfold tree_absorbed. rewrite K1, Hbs, K3. split; [exact Hs|]. split; [exact HB|]. split; [exact Hv|]. exists s0.
    split; [exact Hi|]. split; [exact Hm|exact Ha1]. }
  destruct (IH t1 _ cap H1) as (t2 & E & H2 & Hb2). exists t2. cbn [concat]. rewrite <- app_assoc in H2.
  split; [done|]. split; [done|congruence].
Qed.

Lemma hash_all_spec bs : forall s L cap,
  tree_inv s L cap -> zlen L + zlen bs < 2 ^ 60 ->
  exists s', fold_left hash bs (Some s) = Some s' /\ tree_inv s' (L ++ map leaf bs) cap /\
    m_max_leaves s' = m_max_leaves s.
Proof.
  induction bs as [|b bs IH]; intros s L cap Hi Hl.
  - exists s. by rewrite app_nil_r.
  - rewrite zlen_cons in Hl. pose proof (zlen_nonneg bs).
    destruct (hash_block_spec s L cap b Hi ltac:(lia)) as (s1 & E1 & Hi1). cbn [fold_left].
    pose proof (hash_block_static b s s1 E1) as Hm1.
    assert (hash (Some s) b = Some s1) as -> by exact E1.
    destruct (IH s1 _ cap Hi1) as (s2 & E2 & Hi2 & Hm2).
    { rewrite zlen_app. change (zlen [leaf b]) with 1. lia. }
    exists s2. rewrite <- app_assoc in Hi2. split; [done|]. split; [done|congruence].
Qed.

Lemma finalize_spec t m cap :
  tree_absorbed t m cap -> zlen m < 2 ^ 59 ->
  exists t' s r k, finalize t = Some t' /\ algorithm t' = Some s /\ m_finalized_value t' = r /\
    root (map leaf (leaf_blocks (m_block_size t) m)) = Some r /\
    holds (m_nodes s) (ups k (map leaf (leaf_blocks (m_block_size t) m))) cap /\
    tree_ok t' cap /\ m_finalized t' = true.
Proof.
  intros (Hs & HB & Hv & s0 & Hi & Hmx & ((Hfin & Hix & Hl & _) & _ & bs & r & -> & Hbs & Hr & Ht & Ha)) Hlen.
  assert (zlen bs <= zlen (concat bs)) as Hbl.
  { clear -Hbs HB. induction Hbs as [|b bs E Hbs IH]; [done|]. cbn [concat]. rewrite zlen_cons, zlen_app. lia. }
  rewrite zlen_app in Hlen. pose proof (zlen_nonneg r).
  assert (leaf_blocks (m_block_size t) (concat bs ++ r) =
    if bool_decide (r = []) && negb (bool_decide (bs = [])) then bs else bs ++ [r]) as ->.
  { unfold leaf_blocks. rewrite blocks_concat by (done || lia). cbv zeta. by rewrite drop_app_length. }
  destruct (hash_all_spec bs s0 [] cap Hi) as (s1 & E1 & Hi1 & Hm1); [change (zlen []) with 0; lia|].
  rewrite E1 in Ha. cbn [app] in Hi1. unfold finalize. rewrite Hfin, Ha. cbn [mbind option_bind].
  rewrite <- Hr, Ht.
  assert (zlen (map leaf bs) = zlen bs) as Hml by (unfold zlen; by rewrite length_map).
  assert (zlen (map leaf bs) < 2 ^ 60) as Hsmall by lia.
  pose proof (ti_count _ _ _ Hi1) as Hcnt.
  set (L := map leaf (if bool_decide (r = []) && negb (bool_decide (bs = [])) then bs else bs ++ [r])).
  assert (exists s2, (if (0 <? zlen r) || (m_count s1 =? 0) then hash_block r s1 else Some s1) = Some s2 /\
    tree_inv s2 L cap /\ m_max_leaves s2 = m_max_leaves s1) as (s2 & -> & Hi2 & Hm2).
  { rewrite Hcnt, Hml. unfold L. destruct (bool_decide_reflect (r = [])) as [->|Hrne].
    - change (0 <? zlen []) with false. cbn [orb andb].
      destruct (bool_decide_reflect (bs = [])) as [->|Hbne]; cbn [negb].
      + change (zlen [] =? 0) with true. cbn [map app] in *.
        destruct (hash_block_spec s1 [] cap [] Hi1 Hsmall) as (s2 & E2 & Hi2). exists s2.
        split; [done|]. split; [done|]. by eapply hash_block_static.
      + assert ((zlen bs =? 0) = false) as -> by (destruct bs; [done|]; rewrite zlen_cons; pose proof (zlen_nonneg bs); lia).
        by exists s1.
    - assert ((0 <? zlen r) = true) as -> by (destruct r; [done|]; rewrite zlen_cons; pose proof (zlen_nonneg r); lia).
      cbn [orb andb]. destruct (hash_block_spec s1 _ cap r Hi1 Hsmall) as (s2 & E2 & Hi2). exists s2.
      rewrite map_app. split; [done|]. split; [done|]. by eapply hash_block_static. }
  cbn [mbind option_bind].
  assert (L <> [] /\ zlen L < 2 ^ 60) as [HLne HLs].
  { unfold L. destruct (bool_decide_reflect (r = [])); cbn [andb];
      [destruct (bool_decide_reflect (bs = [])); cbn [negb]|].
    all: rewrite ?map_app; split; try (by destruct bs); rewrite ?zlen_app, ?Hml; change (zlen (map leaf [_])) with 1; lia. }
  destruct (tree_finish_spec s2 L cap Hi2 HLne HLs) as (s3 & v & k & E3 & Hroot & Hvl & Hok3 & Hn3). rewrite E3.
  cbn [mbind option_bind]. unfold set_finalized_value, setData.
  cbn [m_finalized m_finalized_value with_block].
  rewrite Hfin. assert (Nat.eqb (length v) (length (m_finalized_value t)) = true) as ->.
  { apply Nat.eqb_eq. unfold zlen in *. lia. }
  cbn [negb snd]. eexists _, s3, v, k. split; [done|]. cbn. split; [done|]. split; [done|]. split; [done|].
  split; [done|]. split; [|done]. unfold tree_ok. cbn.
  pose proof (ti_cap _ _ _ Hi2) as [? ?]. split_and!; try done || lia. exists s3. split; [done|]. split; [done|].
  rewrite (finish_static _ _ _ E3), Hm2, Hm1. done.
Qed.

(** C28. The digest of a tree: from any usable tree, whatever it was used for
    before, a reset followed by any sequence of updates returns, no access leaves
    the stacks, and the digest is the root of the hash tree over the message's
    blocks - combined level by level, a spare node moving up as it is - however
    the message was cut and however often the tree was compacted on the way. At
    most the configured number of leaves is kept, each the root of the same power
    of two of blocks; asking again gives the same digest. *)
Theorem merkle_digest_spec t cap ds (Hok : tree_ok t cap) (Hlen : zlen (concat ds) < 2 ^ 59) :
  let leaves := map leaf (leaf_blocks (m_block_size t) (concat ds)) in
  exists t' v t'', updates ds (reset t) = Some t' /\ digest t' = Some (v, t'') /\
    root leaves = Some v /\ digest t'' = Some (v, t'') /\ tree_ok t'' cap /\
    exists s k, algorithm t'' = Some s /\ holds (m_nodes s) (ups k leaves) cap /\ (countLeaves s <= cap)%nat.
Proof.
  cbv zeta. destruct (tree_updates_absorbed ds (reset t) [] cap (reset_absorbed t cap Hok)) as (t' & Hu & Ha & HB).
  cbn [app] in Ha. destruct (finalize_spec t' _ cap Ha Hlen) as (t'' & s & r & k & Hf & Hs & Hv & Hr & Hn & Hok' & Hfin).
  rewrite HB in Hr, Hn. change (m_block_size (reset t)) with (m_block_size t) in Hr, Hn.
  exists t', r, t''. unfold digest. rewrite Hf. cbn [mbind option_bind]. rewrite Hv. split; [done|]. split; [done|].
  split; [done|]. split.
  { unfold finalize. rewrite Hfin. cbn. by rewrite Hv. }
  split; [done|]. exists s, k. split; [done|]. split; [done|]. destruct Hn as (_ & Hp & Hle).
  unfold countLeaves. by rewrite Hp.
Qed.

Lemma double_pow n l : 0 <= l -> l * 2 ^ Z.of_nat n < 2 ^ 64 -> double n l = l * 2 ^ Z.of_nat n.
Proof.
  revert l. induction n as [|n IH]; intros l Hl Hb; cbn [double]; [lia|].
  rewrite Nat2Z.inj_succ, Z.pow_succ_r in * by lia. pose proof (Z.pow_pos_nonneg 2 (Z.of_nat n)).
  assert (u64 (l * 2) = l * 2) as -> by (apply Z.mod_small; nia). rewrite IH; lia.
Qed.

(** A new tree of two levels or more is usable. *)
Lemma new_tree_ok hasher block_size levels :
  hs_ok hasher -> 0 <= block_size < 2 ^ 32 -> 2 <= levels <= 32 -> 0 <= hs_digest_size ->
  tree_ok (new_MerkleTree hasher block_size levels) (Z.to_nat (2 ^ (levels - 1))).
Proof.
  intros Hok HB Hlv Hds.
  assert (calcMaxNumLeaves levels = 2 ^ (levels - 1)) as Hmax.
  { unfold calcMaxNumLeaves. rewrite (proj2 (Z.ltb_ge _ _)) by lia.
    rewrite double_pow; rewrite ?Z2Nat.id by lia; [lia|lia|].
    pose proof (Z.pow_le_mono_r 2 (levels - 1) 63). lia. }
  assert (2 ^ (levels - 1) = 2 * 2 ^ (levels - 2)) as Hp.
  { rewrite <- Z.pow_succ_r by lia. f_equal. lia. }
  pose proof (Z.pow_pos_nonneg 2 (levels - 2)).
  unfold tree_ok, new_MerkleTree, new_HashValue. cbn. rewrite !zlen_replicate, (hs_size_spec _ Hok).
  unfold DEFAULT_MERKLE_BLOCK_SIZE. split; [done|].
  split; [destruct (Z.eqb_spec block_size 0); lia|].
  split; [destruct (Z.eqb_spec block_size 0); lia|].
  split; [unfold new_HashValue; rewrite zlen_replicate; lia|]. split; [lia|]. split.
  { rewrite Hp, Z2Nat.inj_mul by lia. apply Nat.even_mul. }
  eexists. split; [done|]. cbn. rewrite Hmax. split; [|done].
  eapply hs_absorbed_ok. by apply hs_reset_spec.
Qed.
End Tree.

(** ** Tiger tree hashes *)

Definition tth (ds : list bytes) : option bytes :=
  t ← updates ds (new_MerkleTree Tiger.new_Tiger 0 7);
  '(v, _) ← digest t;
  Some (snd (Base32.base32_encode v 64)).

Example tth_empty : tth [] = Some (lit "LWPNACQDBZRYXW3VHJVCJ64QBZNGHOHHHZWCLNQ" ++ [chr 0]).
Proof. vm_compute. reflexivity. Qed.

Lemma merkle_digest_spec_witness :
  exists t' v t'', updates [lit "a"; lit "bc"] (reset (new_MerkleTree Tiger.new_Tiger 0 7)) = Some t' /\
    digest t' = Some (v, t'') /\ root (map leaf (leaf_blocks 1024 (lit "abc"))) = Some v.
Proof.
  assert (hs_ok Tiger.new_Tiger) as Hok by exact Tiger.new_Tiger_ok.
  pose proof (new_tree_ok Tiger.new_Tiger 0 7 Hok ltac:(lia) ltac:(lia) ltac:(by vm_compute)) as Ht.
  destruct (merkle_digest_spec _ _ [lit "a"; lit "bc"] Ht ltac:(by vm_compute)) as (t' & v & t'' & H1 & H2 & H3 & _).
  exists t', v, t''. split; [exact H1|]. split; [exact H2|exact H3].
Defined.

(** ** What the model shows beside the properties *)

(** [getLevels], documented as the number of levels, is the number of blocks a
    leaf stands for: one, for a tree of four leaves and so of three levels. *)
Lemma levels_count_blocks :
  (s ← fold_left hash [lit "a"; lit "b"; lit "c"; lit "d"] (algorithm (new_MerkleTree Tiger.new_Tiger 0 7));
   Some (countLeaves s, getLevels s)) = Some (4%nat, 1).
Proof. vm_compute. reflexivity. Qed.

(** A tree of one level keeps one leaf, and breaks at the second: the only node
    is an odd one to combine, which the assertion refuses. *)
Lemma one_level_breaks :
  fold_left hash [lit "a"; lit "b"] (algorithm (new_MerkleTree Tiger.new_Tiger 0 1)) = None.
Proof. vm_compute. reflexivity. Qed.
