(* ===== verification/Url.v ===== *)
(** * Url: [URL] of [src/io/net/url.cpp]

    [parse] as it stands - each rejection leaving behind the members set so far -
    and [resolve] with its [remove_dot_segments] and [merge_paths]. The main
    results: a URL assembled from its parts parses back into them; every valid
    URL has a well-formed scheme, path and port; [remove_dot_segments] leaves no
    dot segment and climbs no further than the root; a relative reference keeps
    the scheme and the authority of its base - provided the base has no zone
    identifier or one that is safe to write back, which [resolve] does not
    ensure. *)

From S2P Require Import Prelude Strings Inet.

(** ** Characters, in the C locale *)

Definition is_alpha (c : byte) : bool :=
  ((code "A" <=? code c) && (code c <=? code "Z")) || ((code "a" <=? code c) && (code c <=? code "z")).
Definition is_alnum (c : byte) : bool := is_alpha c || is_digit c.
(** [tolower]. *)
Definition to_lower (c : byte) : byte := samurai_ascii_lower c.

(* @src src/src/io/net/url.cpp:103-103 Samurai::IO::Net::URL::parse *)
Definition scheme_char (c : byte) : bool :=
  is_alnum c || Ascii.eqb c "+" || Ascii.eqb c "-" || Ascii.eqb c ".".

(** [find_first_of("/?#")]. *)
Definition is_delim (c : byte) : bool := Ascii.eqb c "/" || Ascii.eqb c "?" || Ascii.eqb c "#".

(** ** Data *)

(* @src src/include/samurai/io/net/url.h:86-102 Samurai::IO::Net::URL *)
Record URL := mkURL {
  url : bytes;
  scheme : bytes;
  host : InetAddress;
  hostname : bytes;
  zone : bytes;
  port : Z;
  path : bytes;
  username : bytes;
  password : bytes;
  file : bytes;
  query : bytes;
  valid : bool
}.

(** A host, as [parse] reads it from the authority: the flag is [false] where
    [parse] returns, with the members set by then. *)
Record HostPart := mkHostPart {
  hp_ok : bool;
  hp_hostname : bytes;
  hp_zone : bytes;
  hp_port : option bytes
}.

(** [userinfo]: the username, the password and the rest of the authority. *)
(* @src src/src/io/net/url.cpp:117-134 Samurai::IO::Net::URL::parse *)
Definition parse_userinfo (authority : bytes) : bytes * bytes * bytes :=
  match rfind_char "@" authority with
  | None => ([], [], authority)
  | Some at_ =>
      let userinfo := take at_ authority in
      let authority := drop (at_ + 1) authority in
      match find_char ":" userinfo with
      | None => (userinfo, [], authority)
      | Some colon => (take colon userinfo, drop (colon + 1) userinfo, authority)
      end
  end.

(* @src src/src/io/net/url.cpp:158-168 Samurai::IO::Net::URL::parse *)
Definition parse_zone (hostname : bytes) : bool * bytes * bytes :=
  match find_char "%" hostname with
  | None => (true, hostname, [])
  | Some pct =>
      let encoded := drop (pct + 1) hostname in
      let hostname := take pct hostname in
      if bool_decide (hostname = []) then (false, [], [])
      else
        let encoded := if starts_with (lit "25") encoded then drop 2 encoded else encoded in
        let '(ok, zone) := percent_decode encoded in
        if negb ok then (false, hostname, zone)
        else if bool_decide (zone = []) then (false, hostname, [])
        else (true, hostname, zone)
  end.

(* @src src/src/io/net/url.cpp:136-193 Samurai::IO::Net::URL::parse *)
Definition parse_host (authority : bytes) : HostPart :=
  if negb (bool_decide (authority = [])) && Ascii.eqb (nth 0 authority (chr 0)) "[" then
    match find_char "]" authority with
    | None => mkHostPart false [] [] None
    | Some close =>
        let '(ok, hostname, zone) := parse_zone (take (close - 1) (drop 1 authority)) in
        if negb ok then mkHostPart false hostname zone None
        else if (close + 1 <? length authority)%nat then
          if negb (Ascii.eqb (nth (close + 1) authority (chr 0)) ":")
          then mkHostPart false hostname zone None
          else mkHostPart true hostname zone (Some (drop (close + 2) authority))
        else mkHostPart true hostname zone None
    end
  else
    match find_char ":" authority with
    | None => mkHostPart true authority [] None
    | Some colon =>
        let portstr := drop (colon + 1) authority in
        match find_char ":" portstr with
        | Some _ => mkHostPart false (take colon authority) [] (Some portstr)
        | None => mkHostPart true (take colon authority) [] (Some portstr)
        end
    end.

(** The path and the query of what follows the authority. *)
(* @src src/src/io/net/url.cpp:208-225 Samurai::IO::Net::URL::parse *)
Definition parse_tail (rest : bytes) : bytes * bytes :=
  let rest := match find_char "#" rest with Some frag => take frag rest | None => rest end in
  let '(path, query) := match find_char "?" rest with
                        | Some q => (take q rest, drop (q + 1) rest)
                        | None => (rest, [])
                        end in
  (if bool_decide (path = []) then lit "/" else path, query).

Section pton.
Variable inet_pton : Version -> bytes -> option bytes.

(* @src src/src/io/net/inetaddress.cpp:97-101 Samurai::IO::Net::InetAddress::InetAddress *)
Definition no_address : InetAddress := mkInetAddress Unspecified zero_data [] Unresolved.

(* @src src/src/io/net/url.cpp:75-233 Samurai::IO::Net::URL::parse *)
Definition parse (u : bytes) : URL :=
  let rejected scheme hostname zone port username password :=
    mkURL u scheme no_address hostname zone port [] username password [] [] false in
  match find_char ":" u with
  | None | Some O => rejected [] [] [] 0 [] []
  | Some pos =>
      let scheme := map to_lower (take pos u) in
      if negb (is_alpha (nth 0 scheme (chr 0))) then rejected scheme [] [] 0 [] []
      else if negb (forallb scheme_char scheme) then rejected scheme [] [] 0 [] []
      else if negb (starts_with (lit "//") (drop (pos + 1) u)) then rejected scheme [] [] 0 [] []
      else
        let after := drop (pos + 3) u in
        let auth_end := default (length after) (find_if is_delim after) in
        let '(username, password, authority) := parse_userinfo (take auth_end after) in
        let h := parse_host authority in
        if negb (hp_ok h) then rejected scheme (hp_hostname h) (hp_zone h) 0 username password
        else
          let port := match hp_port h with Some portstr => to_uint16 portstr | None => 0 end in
          if bool_decide (hp_port h <> None) && (port =? 0)
          then rejected scheme (hp_hostname h) (hp_zone h) 0 username password
          else
            let host := if bool_decide (hp_hostname h = []) then no_address
                        else assign_text inet_pton (hp_hostname h) in
            let rest := drop auth_end after in
            let '(path, query) := parse_tail rest in
            let file := if bool_decide (rest = []) then lit "/" else rest in
            mkURL u scheme host (hp_hostname h) (hp_zone h) port path username password file query true
  end.

(** Comparison is by the text. *)
(* @src src/src/io/net/url.cpp:47-51 Samurai::IO::Net::URL::operator== *)
Definition url_eqb (a b : URL) : bool := bool_decide (url b = url a).
(* @src src/src/io/net/url.cpp:53-56 Samurai::IO::Net::URL::operator!= *)
Definition url_neqb (a b : URL) : bool := negb (bool_decide (url b = url a)).
(* @src src/src/io/net/url.cpp:63-66 Samurai::IO::Net::URL::toString *)
Definition toString (u : URL) : bytes := url u.
(** Assignment and copying parse the text again. *)
(* @src src/src/io/net/url.cpp:40-45 Samurai::IO::Net::URL::operator= *)
Definition assign (u : URL) : URL := parse (url u).

(** ** Ports *)

(* @src src/src/io/net/url.cpp:251-257 scheme_ports *)
Definition scheme_ports : list (bytes * Z) :=
  [(lit "http", 80); (lit "https", 443); (lit "ftp", 21); (lit "ws", 80); (lit "wss", 443)].

(* @src src/src/io/net/url.cpp:341-347 Samurai::IO::Net::URL::getDefaultPort *)
Definition getDefaultPort (scheme_name : bytes) : Z :=
  match list_find (fun e => iequals (fst e) scheme_name = true) scheme_ports with
  | Some (_, entry) => snd entry
  | None => 0
  end.

(* @src src/src/io/net/url.cpp:350-355 Samurai::IO::Net::URL::getEffectivePort *)
Definition getEffectivePort (u : URL) : Z :=
  if negb (valid u) then 0
  else if negb (port u =? 0) then port u
  else getDefaultPort (scheme u).

(** ** Dot segments *)

(** One segment: the segments kept so far and [trailing_slash]. *)
(* @src src/src/io/net/url.cpp:282-299 remove_dot_segments *)
Definition dot_step (st : list bytes * bool) (segment : bytes) : list bytes * bool :=
  let '(out, trailing_slash) := st in
  if bool_decide (segment = lit ".") then (out, true)
  else if bool_decide (segment = lit "..") then
    (if bool_decide (out = []) then out else removelast out, true)
  else if bool_decide (segment = []) then (out, true)
  else (out ++ [segment], false).

(* @src src/src/io/net/url.cpp:275-303 remove_dot_segments *)
Fixpoint dots_loop (fuel : nat) (path : bytes) (pos : nat) (st : list bytes * bool) : list bytes * bool :=
  match fuel with
  | O => st
  | S fuel =>
      if negb (pos <=? length path)%nat then st
      else
        match find_char_from "/" pos path with
        | None => dot_step st (drop pos path)
        | Some slash => dots_loop fuel path (slash + 1) (dot_step st (take (slash - pos) (drop pos path)))
        end
  end.

(* @src src/src/io/net/url.cpp:268-317 remove_dot_segments *)
Definition remove_dot_segments (path : bytes) : bytes :=
  let absolute := negb (bool_decide (path = [])) && Ascii.eqb (nth 0 path (chr 0)) "/" in
  let '(out, trailing_slash) :=
    dots_loop (S (length path)) path (if absolute then 1 else 0)%nat ([], false) in
  (if absolute then lit "/" else []) ++ join "/" out ++
  (if trailing_slash && negb (absolute && bool_decide (out = [])) then lit "/" else []).

(* @src src/src/io/net/url.cpp:320-336 merge_paths *)
Definition merge_paths (base_path : bytes) (base_has_authority : bool) (reference : bytes) : bytes :=
  if base_has_authority && bool_decide (base_path = []) then lit "/" ++ reference
  else
    match rfind_char "/" base_path with
    | None => reference
    | Some slash => take (slash + 1) base_path ++ reference
    end.

(** ** Resolution *)

(* @src src/src/io/net/url.cpp:385-402 Samurai::IO::Net::URL::resolve *)
Definition has_scheme (rest : bytes) : bool :=
  match find_char ":" rest with
  | None => false
  | Some colon =>
      if match find_if is_delim rest with None => true | Some delim => (colon <? delim)%nat end then
        (0 <? colon)%nat && is_alpha (nth 0 rest (chr 0)) && forallb scheme_char (drop 1 (take colon rest))
      else false
  end.

(* @src src/src/io/net/url.cpp:426-453 Samurai::IO::Net::URL::resolve *)
Definition base_authority (u : URL) : bytes :=
  (if negb (bool_decide (username u = [])) || negb (bool_decide (password u = []))
   then username u ++
        (if negb (bool_decide (password u = [])) then lit ":" ++ password u else []) ++ lit "@"
   else []) ++
  match find_char ":" (hostname u) with
  | Some _ => lit "[" ++ hostname u ++
              (if negb (bool_decide (zone u = [])) then lit "%25" ++ zone u else []) ++ lit "]"
  | None => hostname u
  end ++
  (if negb (port u =? 0) then lit ":" ++ to_string (port u) else []).

(** The reference without its fragment, and its query. *)
(* @src src/src/io/net/url.cpp:405-421 Samurai::IO::Net::URL::resolve *)
Definition reference_parts (reference : bytes) : bytes * option bytes :=
  let rest := match find_char "#" reference with Some hash => take hash reference | None => reference end in
  match find_char "?" rest with
  | Some q => (take q rest, Some (drop (q + 1) rest))
  | None => (rest, None)
  end.

(** The authority, if there is one, the path and the query of the target. *)
(* @src src/src/io/net/url.cpp:455-498 Samurai::IO::Net::URL::resolve *)
Definition resolve_parts (u : URL) (rest : bytes) (ref_query : option bytes)
    : option bytes * bytes * option bytes :=
  let base_has_authority := negb (bool_decide (hostname u = [])) in
  if starts_with (lit "//") rest then
    let authority_and_path := drop 2 rest in
    match find_char "/" authority_and_path with
    | None => (Some authority_and_path, [], ref_query)
    | Some slash => (Some (take slash authority_and_path),
                     remove_dot_segments (drop slash authority_and_path), ref_query)
    end
  else
    let authority := if base_has_authority then Some (base_authority u) else None in
    if bool_decide (rest = []) then
      (authority, path u,
       match ref_query with
       | None => if bool_decide (query u = []) then None else Some (query u)
       | Some _ => ref_query
       end)
    else if Ascii.eqb (nth 0 rest (chr 0)) "/" then (authority, remove_dot_segments rest, ref_query)
    else (authority, remove_dot_segments (merge_paths (path u) base_has_authority rest), ref_query).

(* @src src/src/io/net/url.cpp:364-516 Samurai::IO::Net::URL::resolve *)
Definition resolve (u : URL) (reference : bytes) : URL :=
  if negb (valid u) then parse []
  else if has_scheme reference then parse reference
  else
    let '(rest, ref_query) := reference_parts reference in
    let '(authority, path, query) := resolve_parts u rest ref_query in
    parse (scheme u ++ lit ":" ++
           match authority with Some a => lit "//" ++ a | None => [] end ++
           path ++
           match query with Some q => lit "?" ++ q | None => [] end).
End pton.

(** ** Dot segments *)

(** ** Copies *)

Section copies.
Variable inet_pton : Version -> bytes -> option bytes.
Local Abbreviation parse := (parse inet_pton).

Lemma url_text t : url (parse t) = t.
Proof. unfold Url.parse. repeat (case_match; try done). Qed.

Lemma assign_parsed t : assign inet_pton (parse t) = parse t.
Proof. unfold assign. by rewrite url_text. Qed.

Lemma assign_resolved u r : assign inet_pton (resolve inet_pton u r) = resolve inet_pton u r.
Proof.
  unfold resolve. destruct (negb (valid u)); [apply assign_parsed|]. destruct (has_scheme r); [apply assign_parsed|].
  destruct (reference_parts r) as [rest q]. destruct (resolve_parts u rest q) as [[a p] q']. apply assign_parsed.
Qed.

End copies.

Lemma dots_loop_fold fs fuel p pos st :
  fs <> [] -> Forall (fun f => "/"%char ∉ f) fs -> join "/" fs = drop pos p -> (pos <= length p)%nat ->
  (length p - pos < fuel)%nat -> dots_loop fuel p pos st = fold_left dot_step fs st.
Proof.
  revert fuel pos st. induction fs as [|f fs IH]; [done|]. intros fuel pos st _ Hall Hj Hp Hf.
  destruct fuel as [|fuel]; [lia|]. cbn [dots_loop fold_left].
  destruct (Nat.leb_spec pos (length p)); [cbn [negb]|lia]. apply Forall_cons in Hall as [Hf1 Hall].
  destruct fs as [|g fs].
  - cbn [join] in Hj. rewrite (proj2 (find_char_from_None _ _ _)) by (by rewrite <- Hj). by rewrite Hj.
  - rewrite join_cons in Hj by done.
    rewrite (proj2 (find_char_from_Some "/" pos p (pos + length f))).
    2:{ exists f, (join "/" (g :: fs)). done. }
    replace (pos + length f - pos)%nat with (length f) by lia.
    rewrite <- Hj at 1. rewrite take_app_length.
    assert (length (drop pos p) = (length f + S (length (join "/" (g :: fs))))%nat) as Hlen.
    { rewrite <- Hj, length_app. done. }
    rewrite length_drop in Hlen.
    apply IH; [done|done| |lia|lia].
    replace (pos + length f + 1)%nat with (pos + (length f + 1))%nat by lia.
    rewrite <- drop_drop, <- Hj. symmetry. apply take_drop_cut.
Qed.

(** Every path is a list of segments. *)
Lemma segments_exist (p : bytes) : exists fs, fs <> [] /\ join "/" fs = p /\ Forall (fun f => "/"%char ∉ f) fs.
Proof.
  destruct (split_loop_spec (S (length p)) p "/" 0 []) as (gs & _ & Hne & Hj & Hall); [lia..|]. by exists gs.
Qed.

Definition dotless (f : bytes) : Prop := f <> [] /\ f <> lit "." /\ f <> lit ".." /\ "/"%char ∉ f.

Lemma dot_fold_dotless fs out t :
  Forall (fun f => "/"%char ∉ f) fs -> Forall dotless out ->
  Forall dotless (fst (fold_left dot_step fs (out, t))).
Proof.
  revert out t. induction fs as [|f fs IH]; intros out t Hfs Ho; [done|].
  apply Forall_cons in Hfs as [Hf Hfs]. cbn [fold_left]. unfold dot_step at 2.
  case_bool_decide; [by apply IH|]. case_bool_decide.
  { apply IH; [done|]. case_bool_decide; [done|]. destruct out as [|x out _] using rev_ind; [done|].
    rewrite removelast_last. by apply Forall_app in Ho as [Ho _]. }
  case_bool_decide; [by apply IH|]. apply IH; [done|]. apply Forall_app. split; [done|].
  constructor; [|done]. by split_and!.
Qed.

Lemma remove_dot_relative p fs :
  fs <> [] -> Forall (fun f => "/"%char ∉ f) fs -> join "/" fs = p -> head p <> Some "/"%char ->
  remove_dot_segments p =
    let '(out, t) := fold_left dot_step fs ([], false) in join "/" out ++ (if t then lit "/" else []).
Proof.
  intros Hne Hall Hj Hh. unfold remove_dot_segments.
  assert (negb (bool_decide (p = [])) && Ascii.eqb (nth 0 p (chr 0)) "/" = false) as ->.
  { destruct p as [|c p]; [done|]. cbn. apply Ascii.eqb_neq. intros ->. by apply Hh. }
  rewrite (dots_loop_fold fs) by (done || lia). destruct (fold_left _ _ _) as [out []]; done.
Qed.

Lemma remove_dot_absolute fs :
  fs <> [] -> Forall (fun f => "/"%char ∉ f) fs ->
  remove_dot_segments ("/"%char :: join "/" fs) =
    let '(out, t) := fold_left dot_step fs ([], false) in
    "/"%char :: join "/" out ++ (if t && negb (bool_decide (out = [])) then lit "/" else []).
Proof.
  intros Hne Hall. unfold remove_dot_segments.
  change (negb (bool_decide (("/"%char :: join "/" fs) = [])) && _) with true. cbv iota.
  rewrite (dots_loop_fold fs); [|done|done|done|cbn; lia|cbn; lia].
  by destruct (fold_left _ _ _) as [out []].
Qed.

(** *** RFC 3986, section 5.2.4 *)

(** The algorithm as the RFC words it, on the input and the output buffer. *)
Definition rfc_remove_last (output : bytes) : bytes :=
  match rfind_char "/" output with Some i => take i output | None => [] end.
Fixpoint rfc_dots (fuel : nat) (input output : bytes) : option bytes :=
  match fuel with
  | O => None
  | S fuel =>
      if bool_decide (input = []) then Some output
      else if starts_with (lit "../") input then rfc_dots fuel (drop 3 input) output
      else if starts_with (lit "./") input then rfc_dots fuel (drop 2 input) output
      else if starts_with (lit "/./") input then rfc_dots fuel (drop 2 input) output
      else if bool_decide (input = lit "/.") then rfc_dots fuel (lit "/") output
      else if starts_with (lit "/../") input then rfc_dots fuel (drop 3 input) (rfc_remove_last output)
      else if bool_decide (input = lit "/..") then rfc_dots fuel (lit "/") (rfc_remove_last output)
      else if bool_decide (input = lit ".") || bool_decide (input = lit "..") then rfc_dots fuel [] output
      else
        let n := match find_char "/" (drop 1 input) with Some i => S i | None => length input end in
        rfc_dots fuel (drop n input) (output ++ take n input)
  end.

Definition slashed (fs : list bytes) : bytes := concat (map (cons "/"%char) fs).

Lemma slashed_join f fs : slashed (f :: fs) = "/"%char :: join "/" (f :: fs).
Proof.
  revert f. induction fs as [|g fs IH]; intros f; [cbn; by rewrite app_nil_r|].
  change (slashed (f :: g :: fs)) with ("/"%char :: f ++ slashed (g :: fs)). rewrite IH.
  reflexivity.
Qed.

Lemma slashed_snoc fs f : slashed (fs ++ [f]) = slashed fs ++ "/"%char :: f.
Proof. unfold slashed. rewrite map_app, concat_app. cbn. by rewrite app_nil_r. Qed.

Lemma rfc_remove_last_slashed fs :
  Forall (fun f => "/"%char ∉ f) fs -> rfc_remove_last (slashed fs) = slashed (removelast fs).
Proof.
  intros H. destruct fs as [|f fs _] using rev_ind; [done|]. rewrite removelast_last, slashed_snoc.
  apply Forall_app in H as [_ H]. apply Forall_cons in H as [H _]. unfold rfc_remove_last.
  rewrite (proj2 (rfind_char_Some "/" _ (length (slashed fs)))); [by rewrite take_app_length|]. by exists (slashed fs), f.
Qed.

(** Whether the input begins with a whole segment [m] followed by more. *)
Lemma starts_segment m s fs :
  "/"%char ∉ m -> "/"%char ∉ s ->
  starts_with ("/"%char :: m ++ lit "/") ("/"%char :: s ++ slashed fs) =
  bool_decide (s = m) && negb (bool_decide (fs = [])).
Proof.
  intros Hm Hs. apply eq_true_iff_eq. rewrite starts_with_spec, andb_true_iff, negb_true_iff,
    bool_decide_eq_true, bool_decide_eq_false. split.
  - intros [r E]. injection E as E. rewrite <- app_assoc in E. change (lit "/" ++ r) with ("/"%char :: r) in E.
    destruct fs as [|g fs].
    + exfalso. cbn in E. rewrite app_nil_r in E. apply Hs. rewrite E, elem_of_app, elem_of_cons. auto.
    + change (slashed (g :: fs)) with ("/"%char :: g ++ slashed fs) in E. by apply cut_inj in E as [-> _].
  - intros [-> Hne]. destruct fs as [|g fs]; [done|]. exists (g ++ slashed fs).
    change (slashed (g :: fs)) with ("/"%char :: g ++ slashed fs). cbn. by rewrite <- app_assoc.
Qed.

Lemma eq_segment m s fs :
  "/"%char ∉ m -> "/"%char ∉ s ->
  bool_decide ("/"%char :: s ++ slashed fs = "/"%char :: m) = bool_decide (s = m) && bool_decide (fs = []).
Proof.
  intros Hm Hs. apply eq_true_iff_eq. rewrite andb_true_iff, !bool_decide_eq_true. split.
  - intros E. injection E as E. destruct fs as [|g fs]; [by rewrite app_nil_r in E|].
    exfalso. apply Hm. rewrite <- E. change (slashed (g :: fs)) with ("/"%char :: g ++ slashed fs).
    rewrite elem_of_app, elem_of_cons. auto.
  - intros [-> ->]. by rewrite app_nil_r.
Qed.

(** One turn of the RFC's loop on whole segments. *)
Lemma rfc_turn fuel s fs output :
  "/"%char ∉ s ->
  rfc_dots (S fuel) ("/"%char :: s ++ slashed fs) output =
    let next := if bool_decide (fs = []) then lit "/" else slashed fs in
    if bool_decide (s = lit ".") then rfc_dots fuel next output
    else if bool_decide (s = lit "..") then rfc_dots fuel next (rfc_remove_last output)
    else rfc_dots fuel (slashed fs) (output ++ "/"%char :: s).
Proof.
  intros Hs. cbn [rfc_dots]. rewrite bool_decide_eq_false_2 by done.
  change (starts_with (lit "../") (_ :: _)) with false. change (starts_with (lit "./") (_ :: _)) with false.
  pose proof (starts_segment (lit ".") s fs) as H1. change ("/"%char :: lit "." ++ lit "/") with (lit "/./") in H1.
  pose proof (starts_segment (lit "..") s fs) as H2. change ("/"%char :: lit ".." ++ lit "/") with (lit "/../") in H2.
  pose proof (eq_segment (lit ".") s fs) as H3. change ("/"%char :: lit ".") with (lit "/.") in H3.
  pose proof (eq_segment (lit "..") s fs) as H4. change ("/"%char :: lit "..") with (lit "/..") in H4.
  assert (("/"%char ∉ lit ".") /\ ("/"%char ∉ lit "..")) as [Hd Hdd].
  { split; apply find_char_None; reflexivity. }
  rewrite H1, H2, H3, H4 by done. clear H1 H2 H3 H4. cbv zeta.
  rewrite (bool_decide_eq_false_2 (("/"%char :: s ++ slashed fs) = lit ".")) by done.
  rewrite (bool_decide_eq_false_2 (("/"%char :: s ++ slashed fs) = lit "..")) by done. cbn [orb].
  destruct (bool_decide_reflect (s = lit ".")) as [->|Hs1].
  { cbn [andb]. by destruct (bool_decide (fs = [])). }
  destruct (bool_decide_reflect (s = lit "..")) as [->|Hs2].
  { cbn [andb]. by destruct (bool_decide (fs = [])). }
  cbn [andb]. change (drop 1 ("/"%char :: s ++ slashed fs)) with (s ++ slashed fs).
  assert (match find_char "/" (s ++ slashed fs) with Some i => S i | None => length ("/"%char :: s ++ slashed fs) end
          = S (length s)) as ->.
  { destruct fs as [|g fs].
    - rewrite app_nil_r, (proj2 (find_char_None _ _)) by done. done.
    - change (slashed (g :: fs)) with ("/"%char :: g ++ slashed fs). by rewrite find_char_app_here. }
  cbn [take drop]. by rewrite take_app_length, drop_app_length.
Qed.

Lemma rfc_end fuel output : rfc_dots (S (S fuel)) (lit "/") output = Some (output ++ lit "/").
Proof. reflexivity. Qed.

Lemma rfc_segments fs fuel outs t :
  fs <> [] -> Forall (fun f => "/"%char ∉ f) fs -> Forall (fun f => f <> []) (removelast fs) ->
  Forall (fun f => "/"%char ∉ f) outs -> (2 * length fs + 2 <= fuel)%nat ->
  rfc_dots fuel (slashed fs) (slashed outs) =
    let '(o, t) := fold_left dot_step fs (outs, t) in Some (slashed o ++ (if t then lit "/" else [])).
Proof.
  revert fuel outs t. induction fs as [|s fs IH]; [done|]. intros fuel outs t _ Hall Hne Ho Hf.
  apply Forall_cons in Hall as [Hs Hall]. destruct fuel as [|fuel]; [lia|]. cbn [length] in Hf.
  change (slashed (s :: fs)) with ("/"%char :: s ++ slashed fs). rewrite rfc_turn by done. cbv zeta.
  assert (forall outs' t', Forall (fun f => "/"%char ∉ f) outs' ->
    (fs = [] -> t' = true) ->
    rfc_dots fuel (if bool_decide (fs = []) then lit "/" else slashed fs) (slashed outs') =
    let '(o, t) := fold_left dot_step fs (outs', t') in Some (slashed o ++ (if t then lit "/" else []))) as Hnext.
  { intros outs' t' Ho' Ht. destruct (bool_decide_reflect (fs = [])) as [->|Hfs].
    - rewrite (Ht eq_refl). cbn [fold_left]. destruct fuel as [|[|fuel]]; [cbn in Hf; lia..|]. apply rfc_end.
    - apply IH; [done|done| |done|lia]. destruct fs; [done|]. by apply Forall_cons in Hne as [_ ?]. }
  assert (Forall (fun f => "/"%char ∉ f) (removelast outs)) as Ho'.
  { destruct outs as [|x outs _] using rev_ind; [done|]. rewrite removelast_last. by apply Forall_app in Ho as [Ho _]. }
  cbn [fold_left]. unfold dot_step at 2.
  destruct (bool_decide_reflect (s = lit ".")) as [|Hd]; [by apply Hnext|].
  destruct (bool_decide_reflect (s = lit "..")) as [|Hdd].
  { rewrite rfc_remove_last_slashed by done. destruct (bool_decide_reflect (outs = [])) as [->|]; by apply Hnext. }
  destruct (bool_decide_reflect (s = [])) as [->|Hnil].
  - destruct fs as [|g fs]; [|by apply Forall_cons in Hne as [Hne _]].
    destruct fuel as [|fuel]; [cbn in Hf; lia|]. cbn. done.
  - rewrite <- slashed_snoc. destruct fs as [|g fs].
    + destruct fuel as [|fuel]; [cbn in Hf; lia|]. cbn [fold_left slashed map concat rfc_dots].
      rewrite bool_decide_eq_true_2 by done. by rewrite app_nil_r.
    + apply IH; [done|done|by apply Forall_cons in Hne as [_ ?]|apply Forall_app; by repeat constructor|lia].
Qed.

(** The fold ends with something kept or with a trailing slash. *)
Lemma dot_fold_some fs outs t o t' :
  fold_left dot_step fs (outs, t) = (o, t') -> fs <> [] -> o = [] -> t' = true.
Proof.
  destruct fs as [|f fs _] using rev_ind; [done|]. rewrite fold_left_app. cbn [fold_left].
  destruct (fold_left dot_step fs (outs, t)) as [o1 t1]. unfold dot_step.
  repeat case_bool_decide; intros [= <- <-] _; try done. by destruct o1.
Qed.

Lemma dot_fold_id out o t :
  Forall dotless out -> fold_left dot_step out (o, t) = (o ++ out, if bool_decide (out = []) then t else false).
Proof.
  revert o t. induction out as [|f out IH]; intros o t H; [by rewrite app_nil_r|].
  apply Forall_cons in H as [(H1 & H2 & H3 & _) H]. cbn [fold_left]. unfold dot_step at 2.
  rewrite !bool_decide_eq_false_2 by done. rewrite IH, <- app_assoc by done. cbn [app].
  by destruct (bool_decide (out = [])).
Qed.

Lemma remove_dot_again out t :
  Forall dotless out -> (t = true -> out <> []) ->
  remove_dot_segments ("/"%char :: join "/" out ++ (if t : bool then lit "/" else [])) =
  "/"%char :: join "/" out ++ (if t then lit "/" else []).
Proof.
  intros Hd Ht. destruct (decide (out = [])) as [->|Hne].
  { destruct t; [by specialize (Ht eq_refl)|]. reflexivity. }
  assert (Forall (fun f => "/"%char ∉ f) out) as Hns by (eapply Forall_impl; [exact Hd|by intros f (_ & _ & _ & ?)]).
  destruct t.
  - assert (join "/" out ++ lit "/" = join "/" (out ++ [[]])) as Hj.
    { clear -Hne. induction out as [|f out IH]; [done|]. destruct out as [|g out]; [done|].
      rewrite join_cons by done. rewrite <- app_assoc. cbn [app].
      change (f ++ "/"%char :: (join "/" (g :: out) ++ lit "/") = join "/" (f :: (g :: out) ++ [[]])).
      rewrite IH by done. by rewrite join_cons. }
    rewrite Hj, remove_dot_absolute; [|by destruct out|apply Forall_app; split; [done|by repeat constructor; apply not_elem_of_nil]].
    rewrite fold_left_app, dot_fold_id by done. cbn [fold_left].
    change (dot_step ([] ++ out, ?t) []) with (out, true). rewrite <- Hj.
    by rewrite bool_decide_eq_false_2.
  - rewrite app_nil_r, remove_dot_absolute by done. rewrite dot_fold_id by done.
    rewrite bool_decide_eq_false_2 by done. cbn. by rewrite app_nil_r.
Qed.

(** [remove_dot_segments] never leaves a dot segment or climbs above the
    root: an absolute path becomes a slash, kept segments none of which is
    empty, [.] or [..], and possibly a final slash; it is its own normal form.
    On every absolute path without empty inner segments it is RFC 3986's
    algorithm. *)
Theorem remove_dot_segments_spec fs
    (Hne : fs <> []) (Hseg : Forall (fun f => "/"%char ∉ f) fs) :
  let p := "/"%char :: join "/" fs in
  (exists out t, remove_dot_segments p = "/"%char :: join "/" out ++ (if t : bool then lit "/" else []) /\
     Forall dotless out /\ (t = true -> out <> [])) /\
  remove_dot_segments (remove_dot_segments p) = remove_dot_segments p /\
  (Forall (fun f => f <> []) (removelast fs) ->
   rfc_dots (2 * length fs + 2) p [] = Some (remove_dot_segments p)).
Proof.
  cbv zeta. rewrite remove_dot_absolute by done.
  pose proof (dot_fold_dotless fs [] false Hseg ltac:(constructor)) as Hdl.
  pose proof (rfc_segments fs (2 * length fs + 2) [] false Hne Hseg) as Hrfc.
  pose proof (dot_fold_some fs [] false) as Hsome.
  destruct (fold_left dot_step fs ([], false)) as [out t]. cbn [fst] in Hdl. split; [|split].
  - exists out, (t && negb (bool_decide (out = []))). split; [done|]. split; [done|].
    destruct t; [|done]. cbn. by case_bool_decide.
  - apply remove_dot_again; [done|]. destruct t; [|done]. cbn. by case_bool_decide.
  - intros Hin. destruct fs as [|f fs]; [done|]. rewrite <- slashed_join.
    change [] with (slashed []) at 1. rewrite (Hrfc Hin ltac:(constructor) ltac:(lia)). f_equal.
    destruct out as [|x out].
    + by rewrite (Hsome [] t eq_refl Hne eq_refl).
    + rewrite slashed_join. cbn [app]. by destruct t.
Qed.

(** ** Assembling and parsing *)

Definition no_delim (l : bytes) : Prop := Forall (fun c => is_delim c = false) l.
Definition scheme_ok (s : bytes) : Prop :=
  s <> [] /\ is_alpha (nth 0 s (chr 0)) = true /\ forallb scheme_char s = true.
(** What may follow an authority. *)
Definition tail_ok (rest : bytes) : Prop := rest = [] \/ exists c r, rest = c :: r /\ is_delim c = true.

Lemma lower_kind : forall c, is_alpha (to_lower c) = is_alpha c /\ scheme_char (to_lower c) = scheme_char c /\
  to_lower (to_lower c) = to_lower c /\ (scheme_char c = true -> c <> ":"%char /\ is_delim c = false).
Proof. byte_decide. Qed.

Lemma forallb_lower s : forallb scheme_char (map to_lower s) = forallb scheme_char s.
Proof.
  induction s as [|c s IH]; [done|]. cbn. by rewrite (proj1 (proj2 (lower_kind c))), IH.
Qed.

Lemma scheme_lower s : scheme_ok s -> scheme_ok (map to_lower s).
Proof.
  intros (Hne & Ha & Hs). split; [by destruct s|]. split.
  - destruct s as [|c s]; [done|]. cbn in *. by rewrite (proj1 (lower_kind c)).
  - by rewrite forallb_lower.
Qed.

Lemma scheme_no_colon s : forallb scheme_char s = true -> ":"%char ∉ s.
Proof.
  intros H Hin. apply forallb_forall with (x := ":"%char) in H; [done|]. by apply list_elem_of_In.
Qed.

Lemma auth_end_app a rest :
  no_delim a -> tail_ok rest -> default (length (a ++ rest)) (find_if is_delim (a ++ rest)) = length a.
Proof.
  intros Ha Hr. rewrite find_if_app. rewrite (proj2 (find_if_None _ _)) by done.
  destruct Hr as [->|(c & r & -> & Hc)].
  - cbn. rewrite app_nil_r. done.
  - cbn [find_if]. rewrite Hc. cbn. lia.
Qed.

Section parse_lemmas.
Variable inet_pton : Version -> bytes -> option bytes.

(** The URL a scheme, an authority and a tail make when the authority is good. *)
Definition assembled (u sch user pass rest : bytes) (h : HostPart) : URL :=
  let '(path, query) := parse_tail rest in
  mkURL u (map to_lower sch)
    (if bool_decide (hp_hostname h = []) then no_address else assign_text inet_pton (hp_hostname h))
    (hp_hostname h) (hp_zone h) (match hp_port h with Some p => to_uint16 p | None => 0 end)
    path user pass (if bool_decide (rest = []) then lit "/" else rest) query true.

(** The port is absent or usable. *)
Definition port_ok (h : HostPart) : Prop := forall p, hp_port h = Some p -> to_uint16 p <> 0.

Lemma parse_assembled sch auth rest user pass text h :
  scheme_ok sch -> no_delim auth -> tail_ok rest ->
  parse_userinfo auth = (user, pass, text) -> parse_host text = h -> hp_ok h = true -> port_ok h ->
  parse inet_pton (sch ++ lit "://" ++ auth ++ rest) =
    assembled (sch ++ lit "://" ++ auth ++ rest) sch user pass rest h.
Proof.
  intros Hs Ha Hr Hu Hh Hok Hp. set (u := sch ++ lit "://" ++ auth ++ rest).
  pose proof (scheme_lower sch Hs) as (_ & Hl1 & Hl2). destruct Hs as (Hne & _ & Hsc).
  assert (find_char ":" u = Some (length sch)) as Hf by (apply find_char_app_here, scheme_no_colon, Hsc).
  assert (take (length sch) u = sch /\ drop (length sch + 1) u = lit "//" ++ auth ++ rest /\
    drop (length sch + 3) u = auth ++ rest) as (H1 & H2 & H3).
  { unfold u. split; [apply take_app_length|]. split; rewrite drop_app_ge by lia.
    - by replace (length sch + 1 - length sch)%nat with 1%nat by lia.
    - by replace (length sch + 3 - length sch)%nat with 3%nat by lia. }
  unfold parse. rewrite Hf, H1, H2, H3. destruct (length sch) eqn:El; [by destruct sch|].
  rewrite Hl1, Hl2. cbn [negb]. change (starts_with (lit "//") (lit "//" ++ _)) with true. cbn [negb].
  rewrite auth_end_app, take_app_length, drop_app_length by done. rewrite Hu, Hh, Hok. cbn [negb].
  assert (bool_decide (hp_port h <> None) &&
    (match hp_port h with Some portstr => to_uint16 portstr | None => 0 end =? 0) = false) as ->.
  { destruct (hp_port h) as [p|] eqn:E; [|done].
    rewrite (proj2 (Z.eqb_neq _ _)) by (by apply Hp). apply andb_false_r. }
  unfold assembled. by destruct (parse_tail rest).
Qed.

(** Every valid URL is assembled. *)
Lemma parse_valid u :
  valid (parse inet_pton u) = true ->
  exists sch auth rest user pass text h, u = sch ++ lit "://" ++ auth ++ rest /\
    scheme_ok sch /\ no_delim auth /\ tail_ok rest /\ parse_userinfo auth = (user, pass, text) /\
    parse_host text = h /\ hp_ok h = true /\ port_ok h.
Proof.
  unfold parse. destruct (find_char ":" u) as [pos|] eqn:Hf; [|done].
  apply find_char_Some in Hf as (sch & r & -> & <- & Hc). destruct (length sch) eqn:El; [done|].
  rewrite <- El in *. clear El n. rewrite take_app_length.
  destruct (is_alpha (nth 0 (map to_lower sch) (chr 0))) eqn:Hal; [cbn [negb]|done].
  destruct (forallb scheme_char (map to_lower sch)) eqn:Hsc; [cbn [negb]|done].
  destruct (take_drop_cut sch ":"%char r) as [_ ->].
  destruct (starts_with (lit "//") r) eqn:Hss; [cbn [negb]|done].
  apply starts_with_spec in Hss as [after ->].
  assert (drop (length sch + 3) (sch ++ ":"%char :: lit "//" ++ after) = after) as ->.
  { rewrite drop_app_ge by lia. by replace (length sch + 3 - length sch)%nat with 3%nat by lia. }
  set (n := default (length after) (find_if is_delim after)).
  destruct (parse_userinfo (take n after)) as [[user pass] text] eqn:Hu.
  destruct (hp_ok (parse_host text)) eqn:Hok; [cbn [negb]|done].
  destruct (_ && _) eqn:Hp; [done|]. intros _.
  exists sch, (take n after), (drop n after), user, pass, text, (parse_host text).
  rewrite take_drop. split; [done|]. split; [|split; [|split; [|split; [done|]]]].
  - split; [by destruct sch|]. split.
    + destruct sch as [|c sch]; [done|]. cbn in *. by rewrite (proj1 (lower_kind c)) in Hal.
    + by rewrite forallb_lower in Hsc.
  - unfold n, no_delim. destruct (find_if is_delim after) as [i|] eqn:Hd; cbn [default from_option id].
    + apply find_if_Some in Hd as (l & c & r' & -> & <- & _ & Hl). by rewrite take_app_length.
    + rewrite take_ge by done. by apply find_if_None.
  - unfold n, tail_ok. destruct (find_if is_delim after) as [i|] eqn:Hd; cbn [default from_option id].
    + apply find_if_Some in Hd as (l & c & r' & -> & <- & Hd & _). rewrite drop_app_length. right. by exists c, r'.
    + left. by apply drop_ge.
  - split; [done|]. split; [done|]. intros p Hp' E. by rewrite Hp', E in Hp.
Qed.

End parse_lemmas.

(** ** Authorities *)

(** What can be written back: no character of a part is a delimiter of the next. *)
Record writable (u : URL) : Prop := mkWritable {
  w_user : ":"%char ∉ username u;
  w_user_delim : no_delim (username u);
  w_pass_delim : no_delim (password u);
  w_name : hostname u <> [];
  w_name_delim : no_delim (hostname u);
  w_name_at : "@"%char ∉ hostname u;
  w_form :
    if bool_decide (":"%char ∈ hostname u)
    then ("]"%char ∉ hostname u) /\ ("%"%char ∉ hostname u) /\ no_delim (zone u) /\
         ("]"%char ∉ zone u) /\ ("%"%char ∉ zone u) /\ ("@"%char ∉ zone u)
    else head (hostname u) <> Some "["%char /\ zone u = [];
  w_port : 0 <= port u <= 65535
}.

(** The parts of [base_authority]. *)
Definition userinfo_text (u : URL) : bytes :=
  username u ++ (if negb (bool_decide (password u = [])) then lit ":" ++ password u else []).
Definition zone_text (u : URL) : bytes := if negb (bool_decide (zone u = [])) then lit "%25" ++ zone u else [].
Definition host_text (u : URL) : bytes :=
  match find_char ":" (hostname u) with
  | Some _ => lit "[" ++ hostname u ++ zone_text u ++ lit "]"
  | None => hostname u
  end.
Definition port_text (u : URL) : bytes := if negb (port u =? 0) then lit ":" ++ to_string (port u) else [].

Lemma base_authority_parts u :
  base_authority u =
    (if negb (bool_decide (username u = [])) || negb (bool_decide (password u = []))
     then userinfo_text u ++ lit "@" else []) ++ host_text u ++ port_text u.
Proof.
  unfold base_authority, userinfo_text, host_text, zone_text. destruct (_ || _); [|done].
  by rewrite <- !app_assoc.
Qed.

Lemma digits_clean c n : 0 <= n < 2 ^ 64 -> is_digit c = false -> c ∉ to_string n.
Proof.
  intros Hn Hc Hin. destruct (to_string_spec n Hn) as (Hd & _ & _).
  apply list_elem_of_In in Hin. apply (proj1 (forallb_forall _ _) Hd) in Hin. congruence.
Qed.

Lemma not_elem_app {A} (x : A) a b : x ∉ a -> x ∉ b -> x ∉ a ++ b.
Proof. intros. rewrite elem_of_app. tauto. Qed.

Lemma port_text_at u : writable u -> "@"%char ∉ port_text u.
Proof.
  intros Hw. pose proof (w_port u Hw). unfold port_text. destruct (negb _); [|apply not_elem_of_nil].
  apply not_elem_app; [|by apply digits_clean; [lia|]]. by apply find_char_None.
Qed.

Lemma host_text_at u : writable u -> "@"%char ∉ host_text u.
Proof.
  intros Hw. pose proof (w_form u Hw) as Hf. unfold host_text.
  destruct (find_char ":" (hostname u)) eqn:E; [|apply (w_name_at u Hw)].
  rewrite bool_decide_eq_true_2 in Hf.
  2:{ destruct (decide (":"%char ∈ hostname u)) as [|Hn]; [done|]. apply find_char_None in Hn. congruence. }
  destruct Hf as (_ & _ & _ & _ & _ & Hz).
  apply not_elem_app; [by apply find_char_None|]. apply not_elem_app; [apply (w_name_at u Hw)|].
  apply not_elem_app; [|by apply find_char_None]. unfold zone_text. destruct (negb _); [|apply not_elem_of_nil].
  apply not_elem_app; [by apply find_char_None|done].
Qed.

Lemma userinfo_written u :
  writable u ->
  parse_userinfo (base_authority u) = (username u, password u, host_text u ++ port_text u).
Proof.
  intros Hw. rewrite base_authority_parts.
  assert ("@"%char ∉ host_text u ++ port_text u) as Hat.
  { apply not_elem_app; [by apply host_text_at|by apply port_text_at]. }
  set (text := host_text u ++ port_text u) in *. clearbody text. unfold parse_userinfo.
  destruct (negb (bool_decide (username u = [])) || negb (bool_decide (password u = []))) eqn:E.
  - rewrite <- app_assoc. change (lit "@" ++ text) with ("@"%char :: text).
    rewrite (proj2 (rfind_char_Some "@" _ (length (userinfo_text u)))) by (by exists (userinfo_text u), text).
    destruct (take_drop_cut (userinfo_text u) "@"%char text) as [-> ->].
    unfold userinfo_text. destruct (bool_decide_reflect (password u = [])) as [Hp|Hp]; cbn [negb].
    + rewrite app_nil_r, (proj2 (find_char_None _ _)) by apply (w_user u Hw). by rewrite Hp.
    + change (lit ":" ++ password u) with (":"%char :: password u).
      rewrite find_char_app_here by apply (w_user u Hw).
      by destruct (take_drop_cut (username u) ":"%char (password u)) as [-> ->].
  - cbn [app]. rewrite (proj2 (rfind_char_None _ _)) by done.
    apply orb_false_iff in E as [E1%negb_false_iff%bool_decide_eq_true E2%negb_false_iff%bool_decide_eq_true].
    by rewrite E1, E2.
Qed.

Lemma no_percent_decode z : "%"%char ∉ z -> percent_decode z = (true, z).
Proof.
  intros H. unfold percent_decode. assert (forall out, percent_decode_loop z out = (true, out ++ z)) as Hl.
  { induction z as [|c z IH]; intros out; cbn [percent_decode_loop]; [by rewrite app_nil_r|].
    apply not_elem_of_cons in H as [Hc H].
    rewrite (proj2 (Ascii.eqb_neq c "%")) by congruence. cbn [negb]. rewrite IH by done. by rewrite <- app_assoc. }
  by rewrite Hl.
Qed.

Lemma zone_written u :
  hostname u <> [] -> "%"%char ∉ hostname u -> "%"%char ∉ zone u ->
  parse_zone (hostname u ++ zone_text u) = (true, hostname u, zone u).
Proof.
  intros Hne Hn Hz. unfold parse_zone, zone_text. destruct (bool_decide_reflect (zone u = [])) as [Hzn|Hzn]; cbn [negb].
  - rewrite app_nil_r, (proj2 (find_char_None _ _)) by done. by rewrite Hzn.
  - change (lit "%25" ++ zone u) with ("%"%char :: lit "25" ++ zone u). rewrite find_char_app_here by done.
    destruct (take_drop_cut (hostname u) "%"%char (lit "25" ++ zone u)) as [-> ->].
    rewrite bool_decide_eq_false_2 by done. change (starts_with (lit "25") (lit "25" ++ _)) with true.
    change (drop 2 (lit "25" ++ zone u)) with (zone u). rewrite no_percent_decode by done. cbn [negb].
    by rewrite bool_decide_eq_false_2.
Qed.

Definition port_field (p : Z) : option bytes := if p =? 0 then None else Some (to_string p).

Lemma port_text_field u :
  port_text u = match port_field (port u) with Some s => ":"%char :: s | None => [] end.
Proof. unfold port_text, port_field. by destruct (port u =? 0). Qed.

Lemma host_written u :
  writable u ->
  parse_host (host_text u ++ port_text u) = mkHostPart true (hostname u) (zone u) (port_field (port u)).
Proof.
  intros Hw. pose proof (w_form u Hw) as Hf. pose proof (w_name u Hw) as Hne. pose proof (w_port u Hw) as Hp.
  assert (forall s, port_field (port u) = Some s -> ":"%char ∉ s) as Hcol.
  { unfold port_field. intros s. destruct (port u =? 0); [done|]. intros [= <-]. by apply digits_clean; [lia|]. }
  rewrite port_text_field. unfold host_text.
  destruct (find_char ":" (hostname u)) as [i|] eqn:E.
  - rewrite bool_decide_eq_true_2 in Hf.
    2:{ destruct (decide (":"%char ∈ hostname u)) as [|Hn]; [done|]. apply find_char_None in Hn. congruence. }
    destruct Hf as (Hb & Hpc & _ & Hzb & Hzp & _).
    set (inner := hostname u ++ zone_text u).
    assert ("]"%char ∉ inner) as Hin.
    { apply not_elem_app; [done|]. unfold zone_text. destruct (negb _); [|apply not_elem_of_nil].
      apply not_elem_app; [by apply find_char_None|done]. }
    set (pt := match port_field (port u) with Some s => _ | None => _ end).
    assert ((lit "[" ++ hostname u ++ zone_text u ++ lit "]") ++ pt = ("["%char :: inner) ++ "]"%char :: pt) as ->.
    { unfold inner. cbn. by rewrite <- !app_assoc. }
    unfold parse_host. change (negb (bool_decide ((("["%char :: inner) ++ _) = [])) && _) with true. cbv iota.
    rewrite find_char_app_here by (by apply not_elem_of_cons).
    change (drop 1 (("["%char :: inner) ++ "]"%char :: pt)) with (inner ++ "]"%char :: pt).
    replace (length ("["%char :: inner) - 1)%nat with (length inner) by (cbn; lia).
    rewrite take_app_length. unfold inner at 1. rewrite zone_written by done. cbn [negb].
    rewrite length_app. cbn [length]. unfold pt. destruct (port_field (port u)) as [s|] eqn:Es.
    + destruct (Nat.ltb_spec (S (length inner) + 1) (S (length inner) + S (length (":"%char :: s)))); [|cbn in *; lia].
      rewrite app_nth2 by (cbn; lia). cbn [length].
      replace (S (length inner) + 1 - S (length inner))%nat with 1%nat by lia. cbn [nth Ascii.eqb negb Bool.eqb].
      rewrite drop_app_ge by (cbn; lia). cbn [length].
      by replace (S (length inner) + 2 - S (length inner))%nat with 2%nat by lia.
    + destruct (Nat.ltb_spec (S (length inner) + 1) (S (length inner) + S (length (@nil byte)))); [cbn in *; lia|done].
  - rewrite bool_decide_eq_false_2 in Hf by (by apply find_char_None). destruct Hf as [Hh Hz]. rewrite Hz.
    apply find_char_None in E. unfold parse_host.
    assert (forall pt, negb (bool_decide (hostname u ++ pt = [])) &&
      Ascii.eqb (nth 0 (hostname u ++ pt) (chr 0)) "[" = false) as Hb.
    { intros pt. destruct (hostname u) as [|c n]; [done|]. cbn. apply Ascii.eqb_neq. intros ->. by apply Hh. }
    rewrite Hb. destruct (port_field (port u)) as [s|] eqn:Es.
    + rewrite find_char_app_here by done. destruct (take_drop_cut (hostname u) ":"%char s) as [-> ->].
      rewrite (proj2 (find_char_None _ _)) by (by apply Hcol). done.
    + rewrite app_nil_r, (proj2 (find_char_None _ _)) by done. done.
Qed.

Lemma not_elem_take {A} (x : A) n l : x ∉ l -> x ∉ take n l.
Proof. intros H Hin. apply H. rewrite <- (take_drop n l), elem_of_app. auto. Qed.
Lemma not_elem_drop {A} (x : A) n l : x ∉ l -> x ∉ drop n l.
Proof. intros H Hin. apply H. rewrite <- (take_drop n l), elem_of_app. auto. Qed.

Lemma port_reads_back p : 0 <= p <= 65535 -> to_uint16 (to_string p) = p.
Proof.
  intros Hp. destruct (to_string_spec p ltac:(lia)) as (Hd & Hne & Hv).
  rewrite to_uint16_value, Hd, Hv. rewrite bool_decide_eq_true_2 by done. by zcmp.
Qed.

Lemma base_authority_no_delim u : writable u -> no_delim (base_authority u).
Proof.
  intros Hw. pose proof (w_form u Hw) as Hf. pose proof (w_name_delim u Hw) as Hn. rewrite base_authority_parts.
  assert (no_delim (lit ":") /\ no_delim (lit "@") /\ no_delim (lit "[") /\ no_delim (lit "]") /\
    no_delim (lit "%25")) as (H1 & H2 & H3 & H4 & H5) by (repeat split; by repeat constructor).
  unfold no_delim in *. rewrite !Forall_app. split; [|split].
  - destruct (_ || _); [|done]. unfold userinfo_text. rewrite !Forall_app. split; [split|done]; [apply (w_user_delim u Hw)|].
    destruct (negb _); [|done]. rewrite Forall_app. split; [done|apply (w_pass_delim u Hw)].
  - unfold host_text. destruct (find_char ":" (hostname u)) eqn:E; [|done].
    rewrite bool_decide_eq_true_2 in Hf.
    2:{ destruct (decide (":"%char ∈ hostname u)) as [|Hc]; [done|]. apply find_char_None in Hc. congruence. }
    destruct Hf as (_ & _ & Hz & _). rewrite !Forall_app. split; [done|]. split; [done|]. split; [|done].
    unfold zone_text. destruct (negb _); [|done]. by rewrite Forall_app.
  - unfold port_text. destruct (negb _); [|done]. rewrite Forall_app. split; [done|].
    pose proof (w_port u Hw). destruct (to_string_spec (port u) ltac:(lia)) as (Hd & _ & _).
    assert (forall c, is_digit c = true -> is_delim c = false) as Hdd by byte_decide.
    apply Forall_forall. intros c Hc. apply Hdd. apply list_elem_of_In in Hc.
    by apply (proj1 (forallb_forall _ _) Hd).
Qed.

Lemma base_authority_nonempty u : writable u -> base_authority u <> [].
Proof.
  intros Hw E. rewrite base_authority_parts in E. apply app_nil in E as [_ E]. apply app_nil in E as [E _].
  unfold host_text in E. destruct (find_char ":" (hostname u)); [done|]. by apply (w_name u Hw).
Qed.

(** ** Tails *)

Definition query_text (q : option bytes) : bytes := match q with Some q => "?"%char :: q | None => [] end.
Definition fragment_text (f : option bytes) : bytes := match f with Some f => "#"%char :: f | None => [] end.
(** A path as it stands in a URL. *)
Definition path_ok (p : bytes) : Prop :=
  (p = [] \/ head p = Some "/"%char) /\ ("?"%char ∉ p) /\ ("#"%char ∉ p).
Definition query_ok (q : option bytes) : Prop := forall t, q = Some t -> "#"%char ∉ t.

Lemma parse_tail_written p q f :
  path_ok p -> query_ok q ->
  parse_tail (p ++ query_text q ++ fragment_text f) = (if bool_decide (p = []) then lit "/" else p, default [] q).
Proof.
  intros (_ & Hq & Hh) Hqok. unfold parse_tail.
  assert ("#"%char ∉ p ++ query_text q) as Hn.
  { apply not_elem_app; [done|]. destruct q as [t|]; [|apply not_elem_of_nil]. apply not_elem_of_cons.
    split; [done|]. by apply Hqok. }
  rewrite app_assoc. assert (match find_char "#" ((p ++ query_text q) ++ fragment_text f) with
    | Some frag => take frag ((p ++ query_text q) ++ fragment_text f)
    | None => (p ++ query_text q) ++ fragment_text f end = p ++ query_text q) as ->.
  { destruct f as [f|]; cbn [fragment_text].
    - rewrite find_char_app_here by done. apply take_app_length.
    - by rewrite app_nil_r, (proj2 (find_char_None _ _)). }
  destruct q as [t|]; cbn [query_text].
  - rewrite find_char_app_here by done. by destruct (take_drop_cut p "?"%char t) as [-> ->].
  - rewrite app_nil_r, (proj2 (find_char_None _ _)) by done. done.
Qed.

Lemma tail_written p q f : path_ok p -> tail_ok (p ++ query_text q ++ fragment_text f).
Proof.
  intros ([->|Hp] & _). 2:{ destruct p as [|c p]; [done|]. injection Hp as ->. right. by eexists _, _. }
  destruct q as [q|]; [right; by eexists _, _|]. destruct f as [f|]; [right; by eexists _, _|]. by left.
Qed.

Lemma parse_tail_facts rest :
  tail_ok rest ->
  let '(p, q) := parse_tail rest in head p = Some "/"%char /\ path_ok p /\ ("#"%char ∉ q).
Proof.
  intros Hr. unfold parse_tail.
  set (r := match find_char "#" rest with Some frag => take frag rest | None => rest end).
  assert (("#"%char ∉ r) /\ (r = [] \/ head r = Some "/"%char \/ head r = Some "?"%char)) as [Hh Hhd].
  { unfold r. destruct (find_char "#" rest) as [i|] eqn:E.
    - apply find_char_Some in E as (l & r' & -> & <- & Hl). rewrite take_app_length. split; [done|].
      destruct l as [|c l]; [by left|]. destruct Hr as [|(d & r2 & [= -> _] & Hd)]; [done|].
      right. apply not_elem_of_cons in Hl as [Hne _]. unfold is_delim in Hd.
      destruct (Ascii.eqb_spec d "/") as [->|]; [by left|]. destruct (Ascii.eqb_spec d "?") as [->|]; [by right|].
      destruct (Ascii.eqb_spec d "#"); [congruence|done].
    - apply find_char_None in E. split; [done|]. destruct Hr as [->|(d & r2 & -> & Hd)]; [by left|]. right.
      apply not_elem_of_cons in E as [Hne _]. unfold is_delim in Hd.
      destruct (Ascii.eqb_spec d "/") as [->|]; [by left|]. destruct (Ascii.eqb_spec d "?") as [->|]; [by right|].
      destruct (Ascii.eqb_spec d "#"); [congruence|done]. }
  clearbody r. assert (forall p, (p = [] \/ head p = Some "/"%char) -> "?"%char ∉ p -> "#"%char ∉ p ->
    head (if bool_decide (p = []) then lit "/" else p) = Some "/"%char /\
    path_ok (if bool_decide (p = []) then lit "/" else p)) as Hp.
  { intros p Hp1 Hp2 Hp3. destruct (bool_decide_reflect (p = [])) as [->|].
    - split; [done|]. split; [by right|]. split; by apply find_char_None.
    - destruct Hp1 as [|Hp1]; [done|]. split; [done|]. split; [by right|done]. }
  destruct (find_char "?" r) as [i|] eqn:E.
  - apply find_char_Some in E as (l & r' & -> & <- & Hl). destruct (take_drop_cut l "?"%char r') as [-> ->].
    assert (("#"%char ∉ l) /\ ("#"%char ∉ r')) as [H1 H2].
    { rewrite elem_of_app, elem_of_cons in Hh. tauto. }
    destruct (Hp l) as [Hp1 Hp2]; [|done|done|done]. destruct l as [|c l]; [by left|].
    right. destruct Hhd as [|[|E]]; [done|done|]. injection E as ->. by apply not_elem_of_cons in Hl as [? _].
  - apply find_char_None in E. destruct (Hp r) as [Hp1 Hp2]; [|done|done|].
    + destruct Hhd as [|[|E']]; [by left|by right|]. destruct r as [|c r]; [done|]. injection E' as ->.
      by apply not_elem_of_cons in E as [? _].
    + split; [done|]. split; [done|apply not_elem_of_nil].
Qed.

(** ** What parsing yields *)

Lemma parse_userinfo_facts auth :
  no_delim auth ->
  let '(user, pass, text) := parse_userinfo auth in
  (":"%char ∉ user) /\ no_delim user /\ no_delim pass /\ no_delim text /\ ("@"%char ∉ text).
Proof.
  intros Ha. unfold parse_userinfo, no_delim in *. destruct (rfind_char "@" auth) as [i|] eqn:E.
  - apply rfind_char_Some in E as (l & r & -> & <- & Hr). destruct (take_drop_cut l "@"%char r) as [-> ->].
    apply Forall_app in Ha as [Hl Hr2]. apply Forall_cons in Hr2 as [_ Hr2].
    destruct (find_char ":" l) as [j|] eqn:Ec.
    + apply find_char_Some in Ec as (a & b & -> & <- & Hab). destruct (take_drop_cut a ":"%char b) as [-> ->].
      apply Forall_app in Hl as [Hl1 Hl2]. by apply Forall_cons in Hl2 as [_ Hl2].
    + apply find_char_None in Ec. done.
  - apply rfind_char_None in E. split; [apply not_elem_of_nil|]. done.
Qed.

Lemma parse_zone_facts n :
  let '(ok, name, zone) := parse_zone n in ok = true -> (exists m, name = take m n) /\ ("%"%char ∉ name).
Proof.
  unfold parse_zone. destruct (find_char "%" n) as [i|] eqn:E.
  - apply find_char_Some in E as (l & r & -> & <- & Hl). rewrite take_app_length.
    destruct (bool_decide (l = [])); [done|].
    destruct (percent_decode _) as [ok z]. destruct ok; cbn [negb]; [|done].
    destruct (bool_decide (z = [])); [done|]. intros _. split; [|done]. exists (length l). by rewrite take_app_length.
  - apply find_char_None in E. intros _. split; [|done]. exists (length n). by rewrite take_ge.
Qed.

(** The host of an authority without userinfo. *)
Lemma parse_host_facts text :
  no_delim text -> "@"%char ∉ text -> hp_ok (parse_host text) = true ->
  let h := parse_host text in
  no_delim (hp_hostname h) /\ ("@"%char ∉ hp_hostname h) /\
  (":"%char ∈ hp_hostname h -> ("]"%char ∉ hp_hostname h) /\ ("%"%char ∉ hp_hostname h)).
Proof.
  intros Hd Hat. unfold parse_host. destruct (_ && _).
  - destruct (find_char "]" text) as [close|] eqn:E; [|done].
    apply find_char_Some in E as (l & r & Ht & <- & Hl).
    set (n := take (length l - 1) (drop 1 text)).
    assert (no_delim n /\ ("@"%char ∉ n) /\ ("]"%char ∉ n)) as (Hn1 & Hn2 & Hn3).
    { split; [by apply Forall_take, Forall_drop|]. split; [by apply not_elem_take, not_elem_drop|].
      unfold n. destruct l as [|c l]; [by apply not_elem_of_nil|]. rewrite Ht. cbn [length app drop].
      replace (S (length l) - 1)%nat with (length l) by lia. rewrite drop_0, take_app_length.
      by apply not_elem_of_cons in Hl as [_ ?]. }
    pose proof (parse_zone_facts n) as Hz. clearbody n. destruct (parse_zone n) as [[ok name] zone].
    assert (ok = true -> no_delim name /\ ("@"%char ∉ name) /\ ("]"%char ∉ name) /\ ("%"%char ∉ name)) as Hname.
    { intros Hok. destruct (Hz Hok) as [[m ->] Hp]. split; [by apply Forall_take|].
      split; [by apply not_elem_take|]. split; [by apply not_elem_take|done]. }
    destruct ok; cbn [negb]; [|done]. destruct (Hname eq_refl) as (? & ? & ? & ?).
    destruct (_ <? _)%nat; [destruct (negb _)|]; done.
  - destruct (find_char ":" text) as [i|] eqn:E.
    + apply find_char_Some in E as (l & r & Ht & <- & Hl).
      destruct (find_char ":" (drop (length l + 1) text)); [done|]. intros _. cbn [hp_hostname].
      split; [by apply Forall_take|]. split; [by apply not_elem_take|].
      intros Hin. exfalso. apply Hl. rewrite Ht, take_app_length in Hin. done.
    + apply find_char_None in E. intros _. cbn [hp_hostname]. split; [done|]. split; [done|]. done.
Qed.

(** A port that was read is a [uint16_t]. *)
Lemma to_uint16_range s : 0 <= to_uint16 s <= 65535.
Proof.
  rewrite to_uint16_value. destruct (bool_decide (s <> []) && forallb is_digit s) eqn:E; cbn [andb]; [|lia].
  apply andb_true_iff in E as [_ E]. destruct (Z.leb_spec (dec_value s) 65535); [|lia].
  split; [|done]. apply dec_value_nonneg. apply Forall_forall. intros c Hc.
  apply list_elem_of_In in Hc. by apply (proj1 (forallb_forall _ _) E).
Qed.

(** What holds of every valid URL. *)
Record well_formed (u : URL) : Prop := mkWellFormed {
  wf_scheme : scheme_ok (scheme u);
  wf_lower : map to_lower (scheme u) = scheme u;
  wf_port : 0 <= port u <= 65535;
  wf_path : head (path u) = Some "/"%char /\ path_ok (path u);
  wf_query : "#"%char ∉ query u;
  wf_user : (":"%char ∉ username u) /\ no_delim (username u) /\ no_delim (password u);
  wf_name : no_delim (hostname u) /\ ("@"%char ∉ hostname u) /\
    (":"%char ∈ hostname u -> ("]"%char ∉ hostname u) /\ ("%"%char ∉ hostname u))
}.

Lemma parse_well_formed inet_pton t :
  valid (parse inet_pton t) = true ->
  well_formed (parse inet_pton t) /\ url (parse inet_pton t) = t.
Proof.
  intros Hv. apply parse_valid in Hv as (sch & auth & rest & user & pass & text & h & -> & Hs & Ha & Hr & Hu & Hh & Hok & Hp).
  rewrite (parse_assembled inet_pton sch auth rest user pass text h) by done.
  pose proof (parse_userinfo_facts auth Ha) as Hui. rewrite Hu in Hui. destruct Hui as (U1 & U2 & U3 & U4 & U5).
  subst h. pose proof (parse_host_facts text U4 U5 Hok) as Hhf.
  pose proof (parse_tail_facts rest Hr) as Ht. unfold assembled. destruct (parse_tail rest) as [p q].
  destruct Ht as (T1 & T2 & T3). split; [|done]. constructor; cbn; try done.
  - by apply scheme_lower.
  - rewrite map_map. apply map_ext. intros c. apply (lower_kind c).
  - destruct (hp_port (parse_host text)); [apply to_uint16_range|lia].
Qed.

(** C40. Every URL that is valid is well-formed, whatever text it was made from:
    its scheme is a lowercase scheme name, its path begins with a slash and holds
    no query or fragment, its query no fragment, its port fits 16 bits, and no
    delimiter is left in its host and credentials. Its effective port is the one
    stated or the scheme's. *)
Theorem valid_url_well_formed inet_pton t (Hv : valid (parse inet_pton t) = true) :
  let u := parse inet_pton t in
  well_formed u /\ toString u = t /\
  getEffectivePort u = (if port u =? 0 then getDefaultPort (scheme u) else port u) /\
  0 <= getEffectivePort u <= 65535.
Proof.
  cbv zeta. destruct (parse_well_formed inet_pton t Hv) as [Hw Ht].
  assert (getEffectivePort (parse inet_pton t) =
    if port (parse inet_pton t) =? 0 then getDefaultPort (scheme (parse inet_pton t)) else port (parse inet_pton t)) as E.
  { unfold getEffectivePort. rewrite Hv. by destruct (port _ =? 0). }
  split; [done|]. split; [done|]. split; [done|]. rewrite E.
  destruct (Z.eqb_spec (port (parse inet_pton t)) 0); [|apply (wf_port _ Hw)].
  unfold getDefaultPort. destruct (list_find _ _) as [[i entry]|] eqn:Hf; [|lia].
  apply list_find_Some in Hf as (Hin & _ & _). apply list_elem_of_lookup_2 in Hin.
  unfold scheme_ports in Hin. rewrite !elem_of_cons in Hin.
  destruct Hin as [->|[->|[->|[->|[->|Hin]]]]]; cbn; try lia. by apply not_elem_of_nil in Hin.
Qed.

Lemma valid_url_well_formed_witness :
  getEffectivePort (parse (fun _ _ => None) (lit "HTTP://me@example.com/a?b#c")) = 80.
Proof.
  pose proof (valid_url_well_formed (fun _ _ => None) (lit "HTTP://me@example.com/a?b#c")
    ltac:(vm_compute; reflexivity)) as (_ & _ & H & _).
  rewrite H. vm_compute. reflexivity.
Defined.

(** A URL written from its parts parses back into them. *)
Lemma parse_written inet_pton sch w p q f :
  scheme_ok sch -> writable w -> path_ok p -> query_ok q ->
  let rest := p ++ query_text q ++ fragment_text f in
  let text := sch ++ lit "://" ++ base_authority w ++ rest in
  parse inet_pton text =
    mkURL text (map to_lower sch) (assign_text inet_pton (hostname w)) (hostname w) (zone w) (port w)
      (if bool_decide (p = []) then lit "/" else p) (username w) (password w)
      (if bool_decide (rest = []) then lit "/" else rest) (default [] q) true.
Proof.
  intros Hs Hw Hp Hq. cbv zeta.
  pose proof (userinfo_written w Hw) as Hu. pose proof (host_written w Hw) as Hh. pose proof (w_port w Hw) as Hpt.
  erewrite parse_assembled; [|done|by apply base_authority_no_delim|by apply tail_written|exact Hu|exact Hh|done|].
  - unfold assembled. rewrite parse_tail_written by done. cbn [hp_hostname hp_zone hp_port].
    rewrite bool_decide_eq_false_2 by apply (w_name w Hw). f_equal.
    unfold port_field. destruct (Z.eqb_spec (port w) 0) as [->|]; [done|]. by apply port_reads_back.
  - intros s. cbn [hp_port]. unfold port_field. destruct (Z.eqb_spec (port w) 0) as [_|]; [done|].
    intros [= <-]. by rewrite port_reads_back.
Qed.

(** C39. Round trip: a URL assembled from a scheme, credentials, a host (an IPv6
    literal in brackets, with its zone identifier), a port, a path, a query and a
    fragment parses, back into exactly those parts. *)
Theorem url_roundtrip inet_pton sch w p q f
    (Hs : scheme_ok sch) (Hw : writable w) (Hp : path_ok p) (Hq : query_ok q) :
  let rest := p ++ query_text q ++ fragment_text f in
  let u := parse inet_pton (sch ++ lit "://" ++ base_authority w ++ rest) in
  valid u = true /\ scheme u = map to_lower sch /\ host u = assign_text inet_pton (hostname w) /\
  hostname u = hostname w /\ zone u = zone w /\ port u = port w /\ username u = username w /\
  password u = password w /\ path u = (if bool_decide (p = []) then lit "/" else p) /\
  query u = default [] q /\ file u = (if bool_decide (rest = []) then lit "/" else rest).
Proof. cbv zeta. by rewrite parse_written. Qed.

(** ** Resolution *)

Lemma join_avoids c sep fs : c <> sep -> (c ∉ join sep fs) <-> Forall (fun f => c ∉ f) fs.
Proof.
  intros Hc. induction fs as [|f fs IH]; [split; [constructor|intros; apply not_elem_of_nil]|].
  rewrite Forall_cons, <- IH. destruct fs as [|g fs]; [cbn; split; [intros; split; [done|apply not_elem_of_nil]|tauto]|].
  rewrite join_cons, elem_of_app, elem_of_cons by done. tauto.
Qed.

Lemma dot_fold_avoids c fs out t :
  Forall (fun f : bytes => c ∉ f) fs -> Forall (fun f : bytes => c ∉ f) out ->
  Forall (fun f => c ∉ f) (fst (fold_left dot_step fs (out, t))).
Proof.
  revert out t. induction fs as [|f fs IH]; intros out t Hfs Ho; [done|].
  apply Forall_cons in Hfs as [Hf Hfs]. cbn [fold_left]. unfold dot_step at 2.
  case_bool_decide; [by apply IH|]. case_bool_decide.
  { apply IH; [done|]. case_bool_decide; [done|]. destruct out as [|x out _] using rev_ind; [done|].
    rewrite removelast_last. by apply Forall_app in Ho as [Ho _]. }
  case_bool_decide; [by apply IH|]. apply IH; [done|]. apply Forall_app. split; [done|]. by constructor.
Qed.

Lemma remove_dot_path p :
  head p = Some "/"%char -> path_ok p ->
  head (remove_dot_segments p) = Some "/"%char /\ path_ok (remove_dot_segments p).
Proof.
  intros Hh (_ & Hq & Hf). destruct p as [|c p]; [done|]. injection Hh as ->.
  destruct (segments_exist p) as (fs & Hne & <- & Hseg). rewrite remove_dot_absolute by done.
  assert (forall c, c <> "/"%char -> c ∉ "/"%char :: join "/" fs ->
    c ∉ (let '(out, t) := fold_left dot_step fs ([], false) in
         "/"%char :: join "/" out ++ (if t && negb (bool_decide (out = [])) then lit "/" else []))) as Hav.
  { intros c Hc Hin. apply not_elem_of_cons in Hin as [_ Hin]. apply join_avoids in Hin; [|done].
    pose proof (dot_fold_avoids c fs [] false Hin ltac:(constructor)) as Ho.
    destruct (fold_left dot_step fs ([], false)) as [out t]. cbn [fst] in Ho.
    apply not_elem_of_cons. split; [done|]. apply not_elem_app; [by apply join_avoids|].
    destruct (_ && _); [|apply not_elem_of_nil]. apply not_elem_of_cons. split; [done|apply not_elem_of_nil]. }
  pose proof (Hav "?"%char ltac:(done) Hq) as H1. pose proof (Hav "#"%char ltac:(done) Hf) as H2.
  destruct (fold_left dot_step fs ([], false)) as [out t]. split; [done|]. split; [by right|done].
Qed.

Lemma reference_parts_facts r :
  let '(rest, q) := reference_parts r in ("#"%char ∉ rest) /\ ("?"%char ∉ rest) /\ query_ok q.
Proof.
  unfold reference_parts.
  set (s := match find_char "#" r with Some hash => take hash r | None => r end).
  assert ("#"%char ∉ s) as Hs.
  { unfold s. destruct (find_char "#" r) as [i|] eqn:E; [|by apply find_char_None].
    apply find_char_Some in E as (l & r' & -> & <- & Hl). by rewrite take_app_length. }
  clearbody s. destruct (find_char "?" s) as [i|] eqn:E.
  - apply find_char_Some in E as (l & r' & -> & <- & Hl). destruct (take_drop_cut l "?"%char r') as [-> ->].
    rewrite elem_of_app, elem_of_cons in Hs. split; [tauto|]. split; [done|]. intros t [= <-]. tauto.
  - apply find_char_None in E. by split.
Qed.

Lemma parse_host_of inet_pton t :
  valid (parse inet_pton t) = true -> hostname (parse inet_pton t) <> [] ->
  host (parse inet_pton t) = assign_text inet_pton (hostname (parse inet_pton t)).
Proof.
  intros Hv. apply parse_valid in Hv as (sch & auth & rest & user & pass & text & h & -> & Hs & Ha & Hr & Hu & Hh & Hok & Hp).
  rewrite (parse_assembled inet_pton sch auth rest user pass text h) by done.
  unfold assembled. destruct (parse_tail rest). cbn. intros. by rewrite bool_decide_eq_false_2.
Qed.

(** The host and the zone identifier can be written back as they are: always so
    for a name or an address without a zone. *)
Definition rewritable (u : URL) : Prop :=
  hostname u <> [] /\
  if bool_decide (":"%char ∈ hostname u)
  then no_delim (zone u) /\ ("]"%char ∉ zone u) /\ ("%"%char ∉ zone u) /\ ("@"%char ∉ zone u)
  else head (hostname u) <> Some "["%char /\ zone u = [].

Lemma rewritable_writable u : well_formed u -> rewritable u -> writable u.
Proof.
  intros Hw [Hne Hf]. destruct (wf_user u Hw) as (? & ? & ?). destruct (wf_name u Hw) as (? & ? & Hn).
  constructor; try done; [|apply (wf_port u Hw)].
  case_bool_decide as Hc; [|done]. destruct (Hn Hc). tauto.
Qed.

(** The path of the target of a reference with the path [rest]. *)
Definition target_path (u : URL) (rest : bytes) : bytes :=
  if bool_decide (rest = []) then path u
  else if Ascii.eqb (nth 0 rest (chr 0)) "/" then remove_dot_segments rest
  else remove_dot_segments (merge_paths (path u) true rest).

Lemma target_path_ok u rest :
  well_formed u -> "?"%char ∉ rest -> "#"%char ∉ rest ->
  head (target_path u rest) = Some "/"%char /\ path_ok (target_path u rest).
Proof.
  intros Hw Hq Hh. destruct (wf_path u Hw) as (Hp & Hpo & Hpq & Hph). unfold target_path.
  destruct (bool_decide_reflect (rest = [])) as [|Hne]; [done|].
  destruct (Ascii.eqb_spec (nth 0 rest (chr 0)) "/") as [E|E].
  - assert (head rest = Some "/"%char) as Hhd by (destruct rest; [done|by rewrite <- E]).
    apply remove_dot_path; [done|]. split; [by right|done].
  - unfold merge_paths. destruct (path u) as [|c p]; [done|]. injection Hp as ->.
    rewrite bool_decide_eq_false_2 by done. cbn [andb].
    destruct (rfind_char "/" ("/"%char :: p)) as [i|] eqn:Ei.
    + apply rfind_char_Some in Ei as (l & r & El & <- & _).
      assert (take (length l + 1) ("/"%char :: p) = l ++ lit "/") as Ht.
      { rewrite El. change (l ++ "/"%char :: r) with (l ++ lit "/" ++ r). rewrite app_assoc.
        replace (length l + 1)%nat with (length (l ++ lit "/")) by (rewrite length_app; done). apply take_app_length. }
      assert (head ((l ++ lit "/") ++ rest) = Some "/"%char) as Hhd.
      { destruct l as [|d l]; [done|]. by injection El as <- _. }
      rewrite Ht. apply remove_dot_path; [done|]. split; [by right|]. rewrite <- Ht.
      split; (apply not_elem_app; [by apply not_elem_take|done]).
    + apply rfind_char_None in Ei. exfalso. apply Ei. apply elem_of_cons. by left.
Qed.

(** A relative reference stays where it is relative to: resolved against a
    valid URL with a host whose zone identifier, if any, can be written as it is,
    a reference with neither a scheme nor an authority gives a valid URL with the
    same scheme, host, port and credentials; its path is the reference's, made
    absolute against the base's directory and free of dot segments, and its query
    the reference's - the base's when the reference is empty. *)
Theorem relative_keeps_origin inet_pton t reference
    (Hv : valid (parse inet_pton t) = true) (Hr : rewritable (parse inet_pton t))
    (Hs : has_scheme reference = false)
    (Ha : starts_with (lit "//") (fst (reference_parts reference)) = false) :
  let u := parse inet_pton t in
  let v := resolve inet_pton u reference in
  let '(rest, ref_query) := reference_parts reference in
  valid v = true /\ scheme v = scheme u /\ host v = host u /\ hostname v = hostname u /\ zone v = zone u /\
  port v = port u /\ username v = username u /\ password v = password u /\
  path v = target_path u rest /\
  query v = default (if bool_decide (rest = []) then query u else []) ref_query.
Proof.
  cbv zeta. destruct (parse_well_formed inet_pton t Hv) as [Hw _].
  pose proof (parse_host_of inet_pton t Hv) as Hhost.
  pose proof (rewritable_writable _ Hw Hr) as Hwr. destruct Hr as [Hne _].
  set (u := parse inet_pton t) in *. clearbody u. unfold resolve. rewrite Hv, Hs. cbn [negb].
  pose proof (reference_parts_facts reference) as Hrf.
  destruct (reference_parts reference) as [rest rq]. cbn [fst] in Ha. destruct Hrf as (Hh & Hq & Hqo).
  destruct (target_path_ok u rest Hw Hq Hh) as [Hp Hpo].
  set (q := if bool_decide (rest = []) then (match rq with
      None => if bool_decide (query u = []) then None else Some (query u) | Some _ => rq end) else rq).
  assert (resolve_parts u rest rq = (Some (base_authority u), target_path u rest, q)) as ->.
  { unfold resolve_parts, target_path, q. rewrite Ha. rewrite (bool_decide_eq_false_2 (hostname u = [])) by done.
    cbn [negb]. destruct (bool_decide (rest = [])); [done|]. by destruct (Ascii.eqb _ _). }
  assert (query_ok q) as Hqok.
  { unfold q. destruct (bool_decide (rest = [])); [|done]. destruct rq; [done|].
    destruct (bool_decide (query u = [])); [done|]. intros s [= <-]. apply (wf_query u Hw). }
  assert (default [] q = default (if bool_decide (rest = []) then query u else []) rq) as Hqd.
  { unfold q. destruct (bool_decide (rest = [])); [|done]. destruct rq; [done|].
    destruct (bool_decide_reflect (query u = [])) as [->|]; done. }
  pose proof (parse_written inet_pton (scheme u) u (target_path u rest) q None (wf_scheme u Hw) Hwr Hpo Hqok) as Hpw.
  cbv zeta in Hpw.
  assert (scheme u ++ lit ":" ++ (lit "//" ++ base_authority u) ++ target_path u rest ++
      match q with Some q0 => lit "?" ++ q0 | None => [] end =
    scheme u ++ lit "://" ++ base_authority u ++ target_path u rest ++ query_text q ++ fragment_text None) as ->.
  { cbn [fragment_text]. rewrite app_nil_r. by rewrite <- !app_assoc. }
  rewrite Hpw. cbn. rewrite (wf_lower u Hw), Hqd.
  assert (bool_decide (target_path u rest = []) = false) as ->.
  { apply bool_decide_eq_false. intros E. by rewrite E in Hp. }
  by rewrite Hhost by done.
Qed.

Lemma relative_keeps_origin_witness :
  let u := parse (fun _ _ => None) (lit "http://me:pw@example.com:8080/a/b/c?q") in
  let v := resolve (fun _ _ => None) u (lit "../d?r#s") in
  valid v = true /\ hostname v = lit "example.com" /\ port v = 8080 /\ path v = lit "/a/d" /\ query v = lit "r".
Proof.
  pose proof (relative_keeps_origin (fun _ _ => None) (lit "http://me:pw@example.com:8080/a/b/c?q")
    (lit "../d?r#s") ltac:(vm_compute; reflexivity)) as H.
  assert (rewritable (parse (fun _ _ => None) (lit "http://me:pw@example.com:8080/a/b/c?q"))) as Hr.
  { assert (find_char ":" (hostname (parse (fun _ _ => None) (lit "http://me:pw@example.com:8080/a/b/c?q"))) = None)
      as Hc by (vm_compute; reflexivity).
    unfold rewritable. rewrite bool_decide_eq_false_2 by (apply find_char_None; exact Hc).
    split; [vm_compute; discriminate|]. split; [vm_compute; discriminate|vm_compute; reflexivity]. }
  specialize (H Hr ltac:(vm_compute; reflexivity) ltac:(vm_compute; reflexivity)).
  cbv zeta in H. destruct (reference_parts (lit "../d?r#s")) as [rest rq] eqn:E.
  vm_compute in E. injection E as <- <-.
  destruct H as (H1 & _ & _ & H2 & _ & H3 & _ & _ & H4 & H5).
  cbv zeta. rewrite H1, H2, H3, H4, H5. clear. splits; vm_compute; reflexivity.
Defined.

Lemma remove_dot_segments_spec_witness :
  rfc_dots 12 (lit "/a/./b/../c") [] = Some (remove_dot_segments (lit "/a/./b/../c")).
Proof.
  destruct (remove_dot_segments_spec [lit "a"; lit "."; lit "b"; lit ".."; lit "c"] ltac:(done)) as (_ & _ & H).
  { repeat constructor; apply find_char_None; reflexivity. }
  apply H. repeat constructor; done.
Defined.

Definition demo_parts : URL :=
  mkURL [] [] no_address (lit "fe80::1") (lit "eth0") 8080 [] (lit "me") (lit "p@ss") [] [] true.

Lemma demo_parts_writable : writable demo_parts.
Proof.
  constructor; cbn [demo_parts username password hostname zone port].
  - by apply find_char_None.
  - by repeat constructor.
  - by repeat constructor.
  - done.
  - by repeat constructor.
  - by apply find_char_None.
  - rewrite bool_decide_eq_true_2.
    2:{ unfold lit. cbn. repeat (apply elem_of_cons; (by left) || right). }
    split_and!; try (by apply find_char_None). by repeat constructor.
  - lia.
Qed.

Lemma url_roundtrip_witness :
  path (parse (fun _ _ => None) (lit "HTTP://me:p@ss@[fe80::1%25eth0]:8080/x?y=1#z")) = lit "/x".
Proof.
  destruct (url_roundtrip (fun _ _ => None) (lit "HTTP") demo_parts (lit "/x") (Some (lit "y=1")) (Some (lit "z")))
    as (_ & _ & _ & _ & _ & _ & _ & _ & H & _).
  - done.
  - exact demo_parts_writable.
  - split; [by right|]. split; by apply find_char_None.
  - intros t [= <-]. by apply find_char_None.
  - exact H.
Defined.

(** *** Where the code departs from what it says *)

(** [resolve] writes a decoded zone identifier back undecoded: one that holds a
    delimiter moves the authority, and a relative reference leaves its host. *)
Lemma zone_escapes_authority :
  let u := parse (fun _ _ => None) (lit "http://[fe80::1%25x%5D%40evil.example%2F]/a") in
  let v := resolve (fun _ _ => None) u (lit "b") in
  valid u = true /\ hostname u = lit "fe80::1" /\ valid v = true /\ hostname v = lit "evil.example".
Proof. by vm_compute. Qed.

(** Empty segments are dropped, which RFC 3986's algorithm keeps. *)
Lemma empty_segments_collapse :
  remove_dot_segments (lit "/a//b") = lit "/a/b" /\
  rfc_dots 10 (lit "/a//b") [] = Some (lit "/a//b").
Proof. by vm_compute. Qed.

(** A base without a host, which [parse] accepts, resolves to an invalid URL. *)
Lemma hostless_base_unresolvable :
  let u := parse (fun _ _ => None) (lit "file:///etc/a") in
  valid u = true /\ valid (resolve (fun _ _ => None) u (lit "b")) = false.
Proof. by vm_compute. Qed.
