(* ===== verification/Proxy.v ===== *)
(** * Proxy: [ProxySettings] of [src/io/net/proxy.cpp] *)

From S2P Require Import Prelude Strings Inet Url.

(* @src src/include/samurai/io/net/proxy.h:49-49 Samurai::IO::Net::ProxySettings::Kind *)
Inductive Kind := KindNone | KindSocks5.

#[export] Instance Kind_eq_dec : EqDecision Kind.
Proof. solve_decision. Defined.

(* @src src/include/samurai/io/net/proxy.h:142-149 Samurai::IO::Net::ProxySettings *)
Record ProxySettings := mkProxySettings {
  kind : Kind;
  host : bytes;
  port : Z;
  username : bytes;
  password : bytes;
  tor_extensions : bool;
  allow_private : bool
}.

(* @src src/include/samurai/io/net/proxy.h:52-52 Samurai::IO::Net::ProxySettings::ProxySettings *)
Definition no_ProxySettings : ProxySettings := mkProxySettings KindNone [] 0 [] [] false false.

(* @src src/src/io/net/proxy.cpp:14-14 SOCKS5_MAX_CREDENTIAL *)
Definition SOCKS5_MAX_CREDENTIAL : Z := 255.
(* @src src/src/io/net/proxy.cpp:19-19 SOCKS5_DEFAULT_PORT *)
Definition SOCKS5_DEFAULT_PORT : Z := 1080.

(* @src src/src/io/net/proxy.cpp:35-48 Samurai::IO::Net::ProxySettings::ProxySettings *)
Definition new_ProxySettings (host_ : bytes) (port_ : Z) : ProxySettings :=
  let kind := if bool_decide (host_ = []) || (port_ =? 0) then KindNone else KindSocks5 in
  if bool_decide (kind = KindNone) then mkProxySettings kind [] 0 [] [] false false
  else mkProxySettings kind host_ port_ [] [] false false.

(* @src src/src/io/net/proxy.cpp:51-54 Samurai::IO::Net::ProxySettings::tor *)
Definition tor : ProxySettings := new_ProxySettings (lit "127.0.0.1") 9050.

(* @src src/include/samurai/io/net/proxy.h:73-73 Samurai::IO::Net::ProxySettings::isEnabled *)
Definition isEnabled (p : ProxySettings) : bool := negb (bool_decide (kind p = KindNone)).

(** The returned flag, and the settings, unchanged when it is [false]. *)
(* @src src/src/io/net/proxy.cpp:100-108 Samurai::IO::Net::ProxySettings::setCredentials *)
Definition setCredentials (user pass : bytes) (p : ProxySettings) : bool * ProxySettings :=
  if SOCKS5_MAX_CREDENTIAL <? zlen user then (false, p)
  else if SOCKS5_MAX_CREDENTIAL <? zlen pass then (false, p)
  else (true, mkProxySettings (kind p) (host p) (port p) user pass (tor_extensions p) (allow_private p)).

(* @src src/include/samurai/io/net/proxy.h:92-92 Samurai::IO::Net::ProxySettings::hasCredentials *)
Definition hasCredentials (p : ProxySettings) : bool :=
  negb (bool_decide (username p = [])) || negb (bool_decide (password p = [])).

(* @src src/include/samurai/io/net/proxy.h:106-106 Samurai::IO::Net::ProxySettings::setTorExtensions *)
Definition setTorExtensions (toggle : bool) (p : ProxySettings) : ProxySettings :=
  mkProxySettings (kind p) (host p) (port p) (username p) (password p) toggle (allow_private p).

(* @src src/include/samurai/io/net/proxy.h:125-125 Samurai::IO::Net::ProxySettings::setAllowPrivateTargets *)
Definition setAllowPrivateTargets (toggle : bool) (p : ProxySettings) : ProxySettings :=
  mkProxySettings (kind p) (host p) (port p) (username p) (password p) (tor_extensions p) toggle.

(* @src src/src/io/net/proxy.cpp:111-133 Samurai::IO::Net::ProxySettings::toString *)
Definition toString (p : ProxySettings) : bytes :=
  if bool_decide (kind p = KindNone) then lit "none"
  else
    let out := match find_char ":" (host p) with
               | Some _ => lit "[" ++ host p ++ lit "]"
               | None => host p
               end in
    out ++ lit ":" ++ to_string (port p).

(** Field by field. *)
(* @src src/src/io/net/proxy.cpp:136-145 Samurai::IO::Net::ProxySettings::operator== *)
Definition settings_eqb (a b : ProxySettings) : bool :=
  bool_decide (kind a = kind b) && bool_decide (host a = host b) && (port a =? port b) &&
  bool_decide (username a = username b) && bool_decide (password a = password b) &&
  Bool.eqb (tor_extensions a) (tor_extensions b) && Bool.eqb (allow_private a) (allow_private b).

(** The process-wide default is one cell; these are its three accessors. *)
(* @src src/src/io/net/proxy.cpp:148-151 Samurai::IO::Net::ProxySettings::getDefault *)
Definition getDefault (cell : ProxySettings) : ProxySettings := cell.
(* @src src/src/io/net/proxy.cpp:154-157 Samurai::IO::Net::ProxySettings::setDefault *)
Definition setDefault (proxy cell : ProxySettings) : ProxySettings := proxy.
(* @src src/src/io/net/proxy.cpp:160-163 Samurai::IO::Net::ProxySettings::clearDefault *)
Definition clearDefault (cell : ProxySettings) : ProxySettings := no_ProxySettings.

(* @src src/src/io/net/proxy.cpp:57-80 Samurai::IO::Net::ProxySettings::fromURL *)
Definition fromURL (url : URL) : ProxySettings :=
  if negb (valid url) then no_ProxySettings
  else
    let scheme := Url.scheme url in
    if negb (iequals scheme (lit "socks5")) && negb (iequals scheme (lit "socks5h")) then no_ProxySettings
    else
      let port := if negb (Url.port url =? 0) then Url.port url else SOCKS5_DEFAULT_PORT in
      let settings := new_ProxySettings (Url.hostname url) port in
      if negb (isEnabled settings) then settings
      else if negb (bool_decide (Url.username url = [])) || negb (bool_decide (Url.password url = [])) then
        let '(ok, settings) := setCredentials (Url.username url) (Url.password url) settings in
        if negb ok then no_ProxySettings else settings
      else settings.

Section pton.
Variable inet_pton : Version -> bytes -> option bytes.

(* @src src/src/io/net/proxy.cpp:84-97 Samurai::IO::Net::ProxySettings::fromString *)
Definition fromString (spec : bytes) : ProxySettings :=
  if bool_decide (spec = []) then no_ProxySettings
  else
    match find_sub (lit "://") spec with
    | Some _ => fromURL (parse inet_pton spec)
    | None => fromURL (parse inet_pton (lit "socks5://" ++ spec))
    end.
End pton.

(** ** Properties *)

Lemma settings_eqb_eq a b : settings_eqb a b = true <-> a = b.
Proof.
  unfold settings_eqb. rewrite !andb_true_iff, !bool_decide_eq_true, Z.eqb_eq, !Bool.eqb_true_iff.
  destruct a, b; cbn. split; [intros; f_equal; tauto|]. intros [= -> -> -> -> -> -> ->]. tauto.
Qed.

(** What every set of settings the class can produce satisfies: enabled ones have
    a host and a usable port, disabled ones nothing. *)
Definition consistent (p : ProxySettings) : Prop :=
  match kind p with
  | KindNone => host p = [] /\ port p = 0
  | KindSocks5 => host p <> [] /\ port p <> 0
  end.

Lemma new_consistent h p : consistent (new_ProxySettings h p).
Proof.
  unfold new_ProxySettings, consistent. destruct (bool_decide_reflect (h = [])); [done|].
  destruct (Z.eqb_spec p 0); [done|]. done.
Qed.

Lemma fromURL_facts u :
  (valid u = true -> 0 <= Url.port u <= 65535) ->
  let s := fromURL u in
  consistent s /\ 0 <= port s <= 65535 /\
  zlen (username s) <= SOCKS5_MAX_CREDENTIAL /\ zlen (password s) <= SOCKS5_MAX_CREDENTIAL /\
  tor_extensions s = false /\ allow_private s = false.
Proof.
  intros Hport. cbv zeta. unfold fromURL.
  assert (forall h q, 0 <= q <= 65535 -> let s := new_ProxySettings h q in
    consistent s /\ 0 <= port s <= 65535 /\
    username s = [] /\ password s = [] /\ tor_extensions s = false /\ allow_private s = false) as Hnew.
  { intros h q Hq s. split; [apply new_consistent|]. unfold s, new_ProxySettings.
    destruct (bool_decide (h = []) || (q =? 0)); cbn; done || (splits; lia || done). }
  assert (consistent no_ProxySettings /\ 0 <= port no_ProxySettings <= 65535 /\
    zlen (username no_ProxySettings) <= SOCKS5_MAX_CREDENTIAL /\
    zlen (password no_ProxySettings) <= SOCKS5_MAX_CREDENTIAL /\
    tor_extensions no_ProxySettings = false /\ allow_private no_ProxySettings = false) as Hno by (by vm_compute).
  destruct (valid u) eqn:Hv; cbn [negb]; [|done]. specialize (Hport eq_refl).
  destruct (_ && _); [done|].
  set (q := if negb (Url.port u =? 0) then Url.port u else SOCKS5_DEFAULT_PORT).
  assert (0 <= q <= 65535) as Hq by (unfold q, SOCKS5_DEFAULT_PORT; destruct (_ =? _); cbn [negb]; lia).
  clearbody q. destruct (Hnew (Url.hostname u) q Hq) as (Hc & Hp & Hu & Hpw & Ht & Hap).
  set (s := new_ProxySettings (Url.hostname u) q) in *. clearbody s.
  assert (zlen (@nil byte) <= SOCKS5_MAX_CREDENTIAL) as Hz by (by vm_compute).
  destruct (isEnabled s); cbn [negb]; [|by rewrite Hu, Hpw].
  destruct (_ || _); [|by rewrite Hu, Hpw]. unfold setCredentials.
  destruct (Z.ltb_spec SOCKS5_MAX_CREDENTIAL (zlen (Url.username u))); [done|].
  destruct (Z.ltb_spec SOCKS5_MAX_CREDENTIAL (zlen (Url.password u))); [done|]. done.
Qed.

(** Settings read from text are usable or absent, whatever the text: an
    enabled proxy has a host and a 16-bit port other than 0, a disabled one
    neither; credentials always fit the length octet the protocol gives them, and
    nothing turns on Tor's commands or private targets. *)
Theorem proxy_from_text_safe inet_pton spec :
  let s := fromString inet_pton spec in
  consistent s /\ 0 <= port s <= 65535 /\
  zlen (username s) <= SOCKS5_MAX_CREDENTIAL /\ zlen (password s) <= SOCKS5_MAX_CREDENTIAL /\
  tor_extensions s = false /\ allow_private s = false.
Proof.
  cbv zeta. unfold fromString. case_bool_decide; [by vm_compute|].
  assert (forall t, valid (parse inet_pton t) = true -> 0 <= Url.port (parse inet_pton t) <= 65535) as Hp.
  { intros t Ht. apply parse_well_formed in Ht as [Hw _]. apply (wf_port _ Hw). }
  destruct (find_sub _ _); apply fromURL_facts, Hp.
Qed.

(** A host and a port as a URL holds them. *)
Definition endpoint (h : bytes) (p : Z) : URL :=
  mkURL [] [] no_address h [] p [] [] [] [] [] true.

Lemma find_sub_absent c t s : c ∈ t -> c ∉ s -> find_sub t s = None.
Proof.
  intros Hc Hs. destruct (find_sub t s) as [i|] eqn:E; [|done].
  apply find_sub_Some in E as [(l & r & -> & _) _]. exfalso. apply Hs. rewrite !elem_of_app. auto.
Qed.

(** Settings without credentials round trip through text: [toString] writes
    them, bracketing an IPv6 literal, and [fromString] reads the same settings
    back. Credentials are never written. *)
Theorem proxy_text_roundtrip inet_pton h p
    (Hw : writable (endpoint h p)) (Hp : p <> 0) :
  let s := new_ProxySettings h p in
  fromString inet_pton (toString s) = s /\
  forall user pass, toString (snd (setCredentials user pass s)) = toString s.
Proof.
  cbv zeta. pose proof (w_name _ Hw) as Hne. cbn in Hne.
  assert (new_ProxySettings h p = mkProxySettings KindSocks5 h p [] [] false false) as Hs.
  { unfold new_ProxySettings. rewrite (bool_decide_eq_false_2 (h = [])) by done. by rewrite (proj2 (Z.eqb_neq p 0)). }
  assert (toString (new_ProxySettings h p) = base_authority (endpoint h p)) as Ht.
  { rewrite Hs. unfold toString, base_authority. cbn. rewrite (proj2 (Z.eqb_neq p 0)) by done.
    by destruct (find_char ":" h). }
  split.
  - rewrite Ht. unfold fromString.
    assert ("/"%char ∉ base_authority (endpoint h p)) as Hsl.
    { intros Hin. pose proof (base_authority_no_delim _ Hw) as Hd. unfold no_delim in Hd.
      by apply (proj1 (Forall_forall _ _) Hd) in Hin. }
    rewrite (find_sub_absent "/"); [|apply elem_of_cons; right; apply elem_of_cons; by left|exact Hsl].
    rewrite (bool_decide_eq_false_2 (base_authority _ = [])) by (by apply base_authority_nonempty).
    pose proof (parse_written inet_pton (lit "socks5") (endpoint h p) [] None None) as Hpw.
    assert (scheme_ok (lit "socks5") /\ path_ok [] /\ query_ok None) as (H1 & H2 & H3).
    { split_and!; try done. split; [by left|]. split; apply not_elem_of_nil. }
    specialize (Hpw H1 Hw H2 H3). cbv zeta in Hpw. cbn [query_text fragment_text app] in Hpw.
    rewrite app_nil_r in Hpw.
    change (lit "socks5://" ++ base_authority (endpoint h p)) with
      (lit "socks5" ++ lit "://" ++ base_authority (endpoint h p)).
    rewrite Hpw. unfold fromURL. cbn [valid negb Url.scheme Url.port Url.hostname Url.username Url.password].
    change (iequals (map to_lower (lit "socks5")) (lit "socks5")) with true. cbn [negb andb].
    change (Url.port (endpoint h p)) with p. change (Url.hostname (endpoint h p)) with h.
    rewrite (proj2 (Z.eqb_neq p 0)) by done. cbn [negb]. by rewrite Hs.
  - intros user pass. rewrite Hs. unfold setCredentials.
    destruct (_ <? zlen user); [done|]. by destruct (_ <? zlen pass).
Qed.

Lemma proxy_text_roundtrip_witness :
  fromString (fun _ _ => None) (lit "[::1]:9050") = new_ProxySettings (lit "::1") 9050.
Proof.
  assert (writable (endpoint (lit "::1") 9050)) as Hw.
  { constructor; cbn [endpoint username password hostname zone port Url.username Url.password Url.hostname Url.zone Url.port].
    - apply not_elem_of_nil.
    - constructor.
    - constructor.
    - done.
    - by repeat constructor.
    - by apply find_char_None.
    - rewrite bool_decide_eq_true_2 by (apply elem_of_cons; by left).
      split_and!; try apply not_elem_of_nil; try (by apply find_char_None). constructor.
    - lia. }
  apply (proxy_text_roundtrip (fun _ _ => None) (lit "::1") 9050 Hw ltac:(lia)).
Defined.

(** The zone identifier of a link-local proxy is lost: [fromURL] takes the
    hostname, which does not hold it. *)
Lemma proxy_zone_lost :
  fromString (fun _ _ => None) (lit "[fe80::1%25eth0]:1080") =
  fromString (fun _ _ => None) (lit "[fe80::1]:1080").
Proof. by vm_compute. Qed.
