(* ===== verification/Socks5.v ===== *)
(** * Socks5: the SOCKS5 client handshake of [src/io/net/socks5.cpp]

    [Socks5Handshake] as the codec it is - bytes in, bytes out - and
    [socks5_pump], which moves it over a descriptor, against a scripted socket.
    The main results: how the proxy's bytes are cut into reads does not matter,
    nothing beyond the reply is consumed, the peer's name leaves only after the
    proxy has accepted a method that was offered, and a local peer is refused
    before anything is sent. *)

From S2P Require Import Prelude Strings Inet Proxy.

(** ** Constants *)

(* @src src/src/io/net/socks5.cpp:16-16 SOCKS5_VERSION *)
Definition SOCKS5_VERSION : Z := 0x05.
(* @src src/src/io/net/socks5.cpp:17-17 SOCKS5_AUTH_VERSION *)
Definition SOCKS5_AUTH_VERSION : Z := 0x01.
(* @src src/src/io/net/socks5.cpp:19-19 METHOD_NONE *)
Definition METHOD_NONE : Z := 0x00.
(* @src src/src/io/net/socks5.cpp:20-20 METHOD_USERPASS *)
Definition METHOD_USERPASS : Z := 0x02.
(* @src src/src/io/net/socks5.cpp:21-21 METHOD_NONE_ACCEPTABLE *)
Definition METHOD_NONE_ACCEPTABLE : Z := 0xFF.
(* @src src/src/io/net/socks5.cpp:23-23 ATYP_IPV4 *)
Definition ATYP_IPV4 : Z := 0x01.
(* @src src/src/io/net/socks5.cpp:24-24 ATYP_DOMAIN *)
Definition ATYP_DOMAIN : Z := 0x03.
(* @src src/src/io/net/socks5.cpp:25-25 ATYP_IPV6 *)
Definition ATYP_IPV6 : Z := 0x04.
(* @src src/src/io/net/socks5.cpp:28-28 MAX_OCTET_LENGTH *)
Definition MAX_OCTET_LENGTH : Z := 255.
(* @src src/include/samurai/io/net/socks5.h:162-162 Samurai::IO::Net::Socks5Handshake::MAX_STEP *)
Definition MAX_STEP : Z := 256.

(** ** Data *)

(* @src src/include/samurai/io/net/socketbase.h:44-64 Samurai::IO::Net::SocketError *)
Inductive SocketError :=
  | ConnectionTimeout | ConnectionRefused | HostUnreachable | HostDown | HostNotFound
  | NetDown | NetUnreachable | SocketRead | SocketWrite | SocketAccept
  | ProxyAuthFailed | ProxyRefused | ProxyProtocol | SocketUnknown.

(* @src src/include/samurai/io/net/socks5.h:59-64 Samurai::IO::Net::Socks5Handshake::Command *)
Inductive Command := Connect | Resolve | ResolvePtr.

(* @src src/include/samurai/io/net/socks5.h:59-64 Samurai::IO::Net::Socks5Handshake::Command *)
Definition command_code (c : Command) : Z :=
  match c with Connect => 0x01 | Resolve => 0xF0 | ResolvePtr => 0xF1 end.

(* @src src/include/samurai/io/net/socks5.h:66-72 Samurai::IO::Net::Socks5Handshake::Status *)
Inductive Status := NeedWrite | NeedRead | Done | Failed.

(* @src src/include/samurai/io/net/socks5.h:165-173 Samurai::IO::Net::Socks5Handshake::Step *)
Inductive Step := MethodReply | AuthReply | ReplyHead | ReplyAddrLen | ReplyAddr | ReplyPort.

#[export] Instance Command_eq_dec : EqDecision Command.
Proof. solve_decision. Defined.
#[export] Instance Status_eq_dec : EqDecision Status.
Proof. solve_decision. Defined.
#[export] Instance Step_eq_dec : EqDecision Step.
Proof. solve_decision. Defined.

(* @src src/include/samurai/io/net/socks5.h:121-138 Samurai::IO::Net::Socks5Handshake::Result *)
Record Result := mkResult {
  reply : Z;
  address : InetAddress;
  name : bytes;
  r_port : Z
}.

(* @src src/include/samurai/io/net/socks5.h:183-217 Samurai::IO::Net::Socks5Handshake *)
Record Socks5Handshake := mkHandshake {
  settings : ProxySettings;
  command : Command;
  target : bytes;
  target_port : Z;
  status : Status;
  step : Step;
  out : bytes;
  out_sent : Z;
  request : bytes;
  in_ : bytes;
  need : Z;
  method : Z;
  reply_atyp : Z;
  result : Result;
  error : SocketError;
  error_message : bytes
}.

(** ** Classification *)

(* @src src/src/io/net/socks5.cpp:40-74 classify_reply *)
Definition classify_reply (reply : Z) : SocketError * bytes :=
  match reply with
  | 0x01 => (SocketUnknown, lit "Proxy reported a general failure")
  | 0x02 => (ProxyRefused, lit "Proxy policy does not allow this connection")
  | 0x03 => (NetUnreachable, lit "Network is unreachable from the proxy")
  | 0x04 => (HostUnreachable, lit "Host is unreachable from the proxy")
  | 0x05 => (ConnectionRefused, lit "Connection refused")
  | 0x06 => (ConnectionTimeout, lit "TTL expired")
  | 0x07 => (ProxyRefused, lit "Proxy does not support the requested command")
  | 0x08 => (ProxyRefused, lit "Proxy does not support the requested address type")
  | _ => (ProxyRefused, lit "Proxy refused the request")
  end.

(* @src src/src/io/net/socks5.cpp:88-95 is_local_address *)
Definition is_local_address (a : InetAddress) : bool :=
  negb (isValid a) || isLoopback a || isPrivate a || isLinkLocal a || isMulticast a.

(* @src src/src/io/net/socks5.cpp:106-116 is_local_name *)
Definition is_local_name (name : bytes) : bool :=
  if iequals name (lit "localhost") then true
  else
    match rfind_char "." name with
    | None => false
    | Some dot =>
        let suffix := drop dot name in
        iequals suffix (lit ".local") || iequals suffix (lit ".localhost")
    end.

(** ** Changing the state *)

(* @src src/src/io/net/socks5.cpp:158-166 Samurai::IO::Net::Socks5Handshake::fail *)
Definition fail (code : SocketError) (message : bytes) (h : Socks5Handshake) : Socks5Handshake :=
  mkHandshake (settings h) (command h) (target h) (target_port h) Failed (step h) [] 0 (request h)
    (in_ h) 0 (method h) (reply_atyp h) (result h) code message.

(* @src src/src/io/net/socks5.cpp:169-175 Samurai::IO::Net::Socks5Handshake::expect *)
Definition expect (next : Step) (n : Z) (h : Socks5Handshake) : Socks5Handshake :=
  mkHandshake (settings h) (command h) (target h) (target_port h) NeedRead next (out h) (out_sent h)
    (request h) [] n (method h) (reply_atyp h) (result h) (error h) (error_message h).

(* @src src/src/io/net/socks5.cpp:178-183 Samurai::IO::Net::Socks5Handshake::queue *)
Definition queue (data : bytes) (h : Socks5Handshake) : Socks5Handshake :=
  mkHandshake (settings h) (command h) (target h) (target_port h) NeedWrite (step h) data 0
    (request h) (in_ h) (need h) (method h) (reply_atyp h) (result h) (error h) (error_message h).

Definition with_step (s : Step) (h : Socks5Handshake) : Socks5Handshake :=
  mkHandshake (settings h) (command h) (target h) (target_port h) (status h) s (out h) (out_sent h)
    (request h) (in_ h) (need h) (method h) (reply_atyp h) (result h) (error h) (error_message h).
Definition with_method (m : Z) (h : Socks5Handshake) : Socks5Handshake :=
  mkHandshake (settings h) (command h) (target h) (target_port h) (status h) (step h) (out h)
    (out_sent h) (request h) (in_ h) (need h) m (reply_atyp h) (result h) (error h) (error_message h).
Definition with_request (r : bytes) (h : Socks5Handshake) : Socks5Handshake :=
  mkHandshake (settings h) (command h) (target h) (target_port h) (status h) (step h) (out h)
    (out_sent h) r (in_ h) (need h) (method h) (reply_atyp h) (result h) (error h) (error_message h).
Definition with_in (d : bytes) (n : Z) (h : Socks5Handshake) : Socks5Handshake :=
  mkHandshake (settings h) (command h) (target h) (target_port h) (status h) (step h) (out h)
    (out_sent h) (request h) d n (method h) (reply_atyp h) (result h) (error h) (error_message h).
Definition with_reply (atyp : Z) (r : Result) (h : Socks5Handshake) : Socks5Handshake :=
  mkHandshake (settings h) (command h) (target h) (target_port h) (status h) (step h) (out h)
    (out_sent h) (request h) (in_ h) (need h) (method h) atyp r (error h) (error_message h).
Definition with_status (s : Status) (h : Socks5Handshake) : Socks5Handshake :=
  mkHandshake (settings h) (command h) (target h) (target_port h) s (step h) (out h)
    (out_sent h) (request h) (in_ h) (need h) (method h) (reply_atyp h) (result h) (error h)
    (error_message h).
Definition with_out_sent (n : Z) (h : Socks5Handshake) : Socks5Handshake :=
  mkHandshake (settings h) (command h) (target h) (target_port h) (status h) (step h) (out h)
    n (request h) (in_ h) (need h) (method h) (reply_atyp h) (result h) (error h) (error_message h).

(** ** Encoding *)

(* @src src/src/io/net/socks5.cpp:194-207 Samurai::IO::Net::Socks5Handshake::encodeGreeting *)
Definition greeting (s : ProxySettings) : bytes :=
  if hasCredentials s then [chr SOCKS5_VERSION; chr 2; chr METHOD_NONE; chr METHOD_USERPASS]
  else [chr SOCKS5_VERSION; chr 1; chr METHOD_NONE].

(* @src src/src/io/net/socks5.cpp:186-210 Samurai::IO::Net::Socks5Handshake::encodeGreeting *)
Definition encodeGreeting (h : Socks5Handshake) : Socks5Handshake := queue (greeting (settings h)) h.

(* @src src/src/io/net/socks5.cpp:217-222 Samurai::IO::Net::Socks5Handshake::encodeAuth *)
Definition auth (s : ProxySettings) : bytes :=
  [chr SOCKS5_AUTH_VERSION; chr (zlen (username s))] ++ username s ++
  [chr (zlen (password s))] ++ password s.

(* @src src/src/io/net/socks5.cpp:213-225 Samurai::IO::Net::Socks5Handshake::encodeAuth *)
Definition encodeAuth (h : Socks5Handshake) : Socks5Handshake := queue (auth (settings h)) h.

(** [htons] of the port, as the two bytes in memory. *)
Definition net_port (p : Z) : bytes := rev (le_bytes 2 p).

Section pton.
Variable inet_pton : Version -> bytes -> option bytes.

(** The returned flag and the handshake: failed, or with its request. *)
(* @src src/src/io/net/socks5.cpp:228-303 Samurai::IO::Net::Socks5Handshake::encodeRequest *)
Definition encodeRequest (h : Socks5Handshake) : bool * Socks5Handshake :=
  let encoded := [chr SOCKS5_VERSION; chr (command_code (command h)); chr 0x00] in
  let address := new_InetAddress inet_pton (target h) in
  let is_literal := negb (bool_decide (version address = Unspecified)) in
  let refusal := lit "Refusing to ask a proxy for a peer on the local network" in
  if negb (allow_private (settings h)) && (is_literal && is_local_address address)
  then (false, fail ProxyRefused refusal h)
  else if negb (allow_private (settings h)) && (negb is_literal && is_local_name (target h))
  then (false, fail ProxyRefused refusal h)
  else
    match version address with
    | IPv4 =>
        (true, with_request (encoded ++ [chr ATYP_IPV4] ++ take 4 (data address) ++
                             net_port (target_port h)) h)
    | IPv6 =>
        (true, with_request (encoded ++ [chr ATYP_IPV6] ++ take 16 (data address) ++
                             net_port (target_port h)) h)
    | Unspecified =>
        if bool_decide (command h = ResolvePtr)
        then (false, fail ProxyProtocol (lit "A reverse lookup needs an address, not a name") h)
        else (true, with_request (encoded ++ [chr ATYP_DOMAIN; chr (zlen (target h))] ++ target h ++
                                  net_port (target_port h)) h)
    end.

Definition empty_Result : Result := mkResult 0 (mkInetAddress Unspecified zero_data [] Unresolved) [] 0.

(* @src src/src/io/net/socks5.cpp:121-155 Samurai::IO::Net::Socks5Handshake::Socks5Handshake *)
Definition new_Socks5Handshake (proxy : ProxySettings) (command_ : Command) (target_ : bytes)
    (port_ : Z) : Socks5Handshake :=
  let h := mkHandshake proxy command_ target_ port_ NeedWrite MethodReply [] 0 [] [] 0 0 0
             empty_Result SocketUnknown [] in
  if bool_decide (target_ = []) then fail ProxyProtocol (lit "No peer to ask the proxy for") h
  else if MAX_OCTET_LENGTH <? zlen target_
  then fail ProxyProtocol (lit "Peer name is too long for SOCKS5") h
  else if (MAX_OCTET_LENGTH <? zlen (username proxy)) || (MAX_OCTET_LENGTH <? zlen (password proxy))
  then fail ProxyProtocol (lit "Proxy credential is too long for SOCKS5") h
  else
    let '(ok, h) := encodeRequest h in
    if negb ok then h else encodeGreeting h.
End pton.

(** ** The exchange *)

(* @src src/src/io/net/socks5.cpp:306-310 Samurai::IO::Net::Socks5Handshake::outgoing *)
Definition outgoing (h : Socks5Handshake) : bytes :=
  if zlen (out h) <=? out_sent h then [] else zdrop (out_sent h) (out h).

(* @src src/src/io/net/socks5.cpp:313-338 Samurai::IO::Net::Socks5Handshake::consumeOutgoing *)
Definition consumeOutgoing (length : Z) (h : Socks5Handshake) : Socks5Handshake :=
  if negb (bool_decide (status h = NeedWrite)) then h
  else
    let sent := u64 (out_sent h + length) in
    let sent := if zlen (out h) <? sent then zlen (out h) else sent in
    let h := with_out_sent sent h in
    if sent <? zlen (out h) then h
    else
      match step h with
      | MethodReply => expect MethodReply 2 h
      | AuthReply => expect AuthReply 2 h
      | _ => expect ReplyHead 4 h
      end.

(* @src src/src/io/net/socks5.cpp:341-346 Samurai::IO::Net::Socks5Handshake::wanted *)
Definition wanted (h : Socks5Handshake) : Z :=
  if negb (bool_decide (status h = NeedRead)) then 0
  else if need h <=? zlen (in_ h) then 0
  else need h - zlen (in_ h).

(** [bytes[i]] of what has been read. *)
Definition octet_at (l : bytes) (i : nat) : Z := code (nth i l (chr 0)).

(** A complete step: the returned flag and the handshake. *)
(* @src src/src/io/net/socks5.cpp:371-540 Samurai::IO::Net::Socks5Handshake::consumeStep *)
Definition consumeStep (l : bytes) (h : Socks5Handshake) : bool * Socks5Handshake :=
  match step h with
  | MethodReply =>
      if zlen l <? 2 then (false, h)
      else if negb (octet_at l 0 =? SOCKS5_VERSION)
      then (false, fail ProxyProtocol (lit "Proxy is not a SOCKS5 proxy") h)
      else
        let h := with_method (octet_at l 1) h in
        if method h =? METHOD_NONE_ACCEPTABLE
        then (false, fail ProxyAuthFailed (lit "Proxy accepts no authentication method we offered") h)
        else if method h =? METHOD_NONE then (true, with_step ReplyHead (queue (request h) h))
        else if (method h =? METHOD_USERPASS) && hasCredentials (settings h)
        then (true, with_step AuthReply (encodeAuth h))
        else (false, fail ProxyProtocol
                (lit "Proxy chose an authentication method that was not offered") h)
  | AuthReply =>
      if zlen l <? 2 then (false, h)
      else if negb (octet_at l 0 =? SOCKS5_AUTH_VERSION)
      then (false, fail ProxyProtocol
              (lit "Proxy answered the credentials with the wrong version") h)
      else if negb (octet_at l 1 =? 0)
      then (false, fail ProxyAuthFailed (lit "Proxy rejected the credentials") h)
      else (true, with_step ReplyHead (queue (request h) h))
  | ReplyHead =>
      if zlen l <? 4 then (false, h)
      else if negb (octet_at l 0 =? SOCKS5_VERSION)
      then (false, fail ProxyProtocol (lit "Proxy reply is not SOCKS5") h)
      else
        let r := result h in
        let h := with_reply (octet_at l 3) (mkResult (octet_at l 1) (address r) (name r) (r_port r)) h in
        if reply_atyp h =? ATYP_IPV4 then (true, expect ReplyAddr 4 h)
        else if reply_atyp h =? ATYP_IPV6 then (true, expect ReplyAddr 16 h)
        else if reply_atyp h =? ATYP_DOMAIN then (true, expect ReplyAddrLen 1 h)
        else (false, fail ProxyProtocol (lit "Proxy reply has an unknown address type") h)
  | ReplyAddrLen =>
      if zlen l <? 1 then (false, h)
      else if octet_at l 0 =? 0
      then (false, fail ProxyProtocol (lit "Proxy reply has an empty name") h)
      else (true, expect ReplyAddr (octet_at l 0) h)
  | ReplyAddr =>
      let r := result h in
      let raw n v := default (address r) (setRawAddress (take n l) v (address r)) in
      if reply_atyp h =? ATYP_IPV4 then
        if zlen l <? 4 then (false, h)
        else (true, expect ReplyPort 2
                (with_reply (reply_atyp h) (mkResult (reply r) (raw 4%nat IPv4) (name r) (r_port r)) h))
      else if reply_atyp h =? ATYP_IPV6 then
        if zlen l <? 16 then (false, h)
        else (true, expect ReplyPort 2
                (with_reply (reply_atyp h) (mkResult (reply r) (raw 16%nat IPv6) (name r) (r_port r)) h))
      else (true, expect ReplyPort 2
              (with_reply (reply_atyp h) (mkResult (reply r) (address r) l (r_port r)) h))
  | ReplyPort =>
      if zlen l <? 2 then (false, h)
      else
        let r := result h in
        let p := le_value (rev (take 2 l)) in
        let h := with_in [] 0 (with_reply (reply_atyp h) (mkResult (reply r) (address r) (name r) p) h) in
        if negb (reply r =? 0) then
          let '(code, message) := classify_reply (reply r) in (false, fail code message h)
        else (false, with_status Done h)
  end.

(** The loop of [feed] over [data]; the result is the handshake and the number
    of bytes consumed. [None] is the fuel running out. *)
(* @src src/src/io/net/socks5.cpp:354-365 Samurai::IO::Net::Socks5Handshake::feed *)
Fixpoint feed_loop (fuel : nat) (data : bytes) (consumed : Z) (h : Socks5Handshake)
    : option (Socks5Handshake * Z) :=
  if negb (bool_decide (status h = NeedRead) && (consumed <? zlen data)) then Some (h, consumed)
  else
    match fuel with
    | O => None
    | S fuel =>
        let missing := need h - zlen (in_ h) in
        let take := if zlen data - consumed <? missing then zlen data - consumed else missing in
        let h := with_in (in_ h ++ ztake take (zdrop consumed data)) (need h) h in
        let consumed := consumed + take in
        if zlen (in_ h) <? need h then Some (h, consumed)
        else
          let '(more, h) := consumeStep (in_ h) h in
          if negb more then Some (h, consumed) else feed_loop fuel data consumed h
    end.

(* @src src/src/io/net/socks5.cpp:349-368 Samurai::IO::Net::Socks5Handshake::feed *)
Definition feed (data : bytes) (h : Socks5Handshake) : option (Socks5Handshake * Z) :=
  feed_loop (length data) data 0 h.

(* @src src/src/io/net/socks5.cpp:550-554 Samurai::IO::Net::Socks5Handshake::closed *)
Definition closed (h : Socks5Handshake) : Socks5Handshake :=
  if bool_decide (status h = Done) || bool_decide (status h = Failed) then h
  else fail ProxyProtocol (lit "Proxy closed the connection during the handshake") h.

(** ** The invariant *)

(** How many bytes each step waits for. *)
Definition step_need (h : Socks5Handshake) : Prop :=
  match step h with
  | MethodReply | AuthReply | ReplyPort => need h = 2
  | ReplyHead => need h = 4
  | ReplyAddrLen => need h = 1 /\ reply_atyp h = ATYP_DOMAIN
  | ReplyAddr => (reply_atyp h = ATYP_IPV4 /\ need h = 4) \/ (reply_atyp h = ATYP_IPV6 /\ need h = 16) \/
                 (reply_atyp h = ATYP_DOMAIN /\ 1 <= need h <= MAX_OCTET_LENGTH)
  end.

(** What can be queued. *)
Definition sendable (h : Socks5Handshake) : Prop :=
  request h <> [] /\ zlen (request h) < 2 ^ 32 /\
  zlen (username (settings h)) <= MAX_OCTET_LENGTH /\ zlen (password (settings h)) <= MAX_OCTET_LENGTH.

Definition inv (h : Socks5Handshake) : Prop :=
  match status h with
  | NeedRead => sendable h /\ step_need h /\ zlen (in_ h) < need h
  | NeedWrite => sendable h /\ 0 <= out_sent h < zlen (out h) /\ zlen (out h) < 2 ^ 32 /\
                 (step h = MethodReply \/ step h = AuthReply \/ step h = ReplyHead)
  | Done | Failed => True
  end.

Lemma step_need_range h : step_need h -> 1 <= need h <= MAX_OCTET_LENGTH.
Proof. unfold step_need, MAX_OCTET_LENGTH. destruct (step h); lia. Qed.

Lemma inv_queue h data :
  sendable h -> data <> [] -> zlen data < 2 ^ 32 ->
  step h = MethodReply \/ step h = AuthReply \/ step h = ReplyHead -> inv (queue data h).
Proof.
  intros Hs Hd Hl Hst. unfold inv. cbn. assert (0 < zlen data) by (destruct data; [done|zlen_lia]).
  split; [exact Hs|]. split; [lia|]. split; done.
Qed.

Lemma auth_size s :
  zlen (username s) <= MAX_OCTET_LENGTH -> zlen (password s) <= MAX_OCTET_LENGTH ->
  auth s <> [] /\ zlen (auth s) < 2 ^ 32.
Proof.
  unfold auth, MAX_OCTET_LENGTH. intros. split; [done|]. rewrite !zlen_app.
  change (zlen [chr (zlen (password s))]) with 1.
  change (zlen [chr SOCKS5_AUTH_VERSION; chr (zlen (username s))]) with 2. lia.
Qed.

(** A complete step: it fails, finishes, or leaves something to do. *)
Lemma consumeStep_inv l h :
  sendable h -> status h = NeedRead -> step_need h -> zlen l = need h ->
  let '(more, h') := consumeStep l h in
  inv h' /\ (if more then status h' = NeedRead \/ status h' = NeedWrite
             else status h' = Done \/ status h' = Failed).
Proof.
  intros Hs Hst Hn Hl. unfold consumeStep, step_need in *.
  destruct Hs as (Hr & Hr2 & Hu & Hp). pose proof (auth_size (settings h) Hu Hp) as [Ha Ha2].
  destruct (step h).
  - rewrite Hl, Hn. cbn [Z.ltb Z.compare Pos.compare Pos.compare_cont].
    destruct (negb _); [split; [done|by right]|]. cbn [method with_method].
    destruct (_ =? METHOD_NONE_ACCEPTABLE); [split; [done|by right]|].
    destruct (_ =? METHOD_NONE).
    { split; [|by right]. apply (inv_queue (with_step ReplyHead (with_method _ h))); auto. by repeat split. }
    destruct (_ && _); [|split; [done|by right]].
    split; [|by right]. apply (inv_queue (with_step AuthReply (with_method _ h))); auto. by repeat split.
  - rewrite Hl, Hn. cbn [Z.ltb Z.compare Pos.compare Pos.compare_cont].
    destruct (negb _); [split; [done|by right]|]. destruct (negb _); [split; [done|by right]|].
    split; [|by right]. apply (inv_queue (with_step ReplyHead h)); auto. by repeat split.
  - rewrite Hl, Hn. cbn [Z.ltb Z.compare Pos.compare Pos.compare_cont].
    destruct (negb _); [split; [done|by right]|]. cbn [reply_atyp with_reply].
    destruct (Z.eqb_spec (octet_at l 3) ATYP_IPV4) as [E|_].
    { split; [|by left]. split; [by repeat split|]. split; [left; by split|done]. }
    destruct (Z.eqb_spec (octet_at l 3) ATYP_IPV6) as [E|_].
    { split; [|by left]. split; [by repeat split|]. split; [right; left; by split|done]. }
    destruct (Z.eqb_spec (octet_at l 3) ATYP_DOMAIN) as [E|_]; [|split; [done|by right]].
    split; [|by left]. split; [by repeat split|]. by split.
  - destruct Hn as [Hn Hat]. rewrite Hl, Hn. cbn [Z.ltb Z.compare Pos.compare Pos.compare_cont].
    destruct (Z.eqb_spec (octet_at l 0) 0) as [E|E]; [split; [done|by right]|].
    split; [|by left]. split; [by repeat split|].
    unfold octet_at in *. pose proof (code_range (nth 0 l (chr 0))).
    split; [right; right|]; cbn [need expect in_ reply_atyp]; [|rewrite zlen_nil; lia].
    split; [done|unfold MAX_OCTET_LENGTH; lia].
  - assert (reply_atyp h = ATYP_IPV4 /\ zlen l = 4 \/ reply_atyp h = ATYP_IPV6 /\ zlen l = 16 \/
      reply_atyp h = ATYP_DOMAIN /\ 1 <= zlen l) as Hcases by (rewrite Hl; tauto).
    clear Hn Hl. destruct Hcases as [[-> ->]|[[-> ->]|[-> Hl]]]; cbn;
      (split; [|by left]; split; [by repeat split|by split]).
  - rewrite Hl, Hn. cbn [Z.ltb Z.compare Pos.compare Pos.compare_cont].
    destruct (negb _); [|split; [done|by left]].
    destruct (classify_reply _). split; [done|by right].
Qed.

(** ** One byte at a time *)

(** What the handshake does with one byte while it wants some. *)
Definition eat (c : byte) (h : Socks5Handshake) : Socks5Handshake :=
  let h := with_in (in_ h ++ [c]) (need h) h in
  if zlen (in_ h) <? need h then h else snd (consumeStep (in_ h) h).

(** ... and with several: the handshake, and how many it took. *)
Fixpoint eats (data : bytes) (h : Socks5Handshake) : Socks5Handshake * Z :=
  match data with
  | [] => (h, 0)
  | c :: data =>
      if bool_decide (status h = NeedRead)
      then let '(h, n) := eats data (eat c h) in (h, n + 1) else (h, 0)
  end.

Lemma with_in_id h : with_in (in_ h) (need h) h = h.
Proof. by destruct h. Qed.

Lemma eats_idle data h : status h <> NeedRead -> eats data h = (h, 0).
Proof. intros H. destruct data; [done|]. cbn. by rewrite bool_decide_eq_false_2. Qed.

Lemma eats_app a b h :
  eats (a ++ b) h = let '(h1, n1) := eats a h in
                    if n1 =? zlen a then let '(h2, n2) := eats b h1 in (h2, n1 + n2) else (h1, n1).
Proof.
  revert h. induction a as [|c a IH]; intros h.
  { cbn. by destruct (eats b h). }
  cbn [app eats]. destruct (bool_decide (status h = NeedRead)).
  - rewrite IH. destruct (eats a (eat c h)) as [h1 n1]. rewrite zlen_cons.
    destruct (Z.eqb_spec n1 (zlen a)) as [->|]; zcmp; [|done].
    destruct (eats b h1). f_equal. lia.
  - pose proof (zlen_nonneg a). rewrite zlen_cons. zcmp. done.
Qed.

Lemma eats_range data h : 0 <= snd (eats data h) <= zlen data.
Proof.
  revert h. induction data as [|c data IH]; intros h; [done|]. cbn [eats]. rewrite zlen_cons.
  specialize (IH (eat c h)). destruct (bool_decide _); cbn [snd]; [|pose proof (zlen_nonneg data); lia].
  destruct (eats data (eat c h)). cbn [snd] in *. lia.
Qed.

(** Bytes that do not complete the step only accumulate. *)
Lemma eats_partial data h :
  status h = NeedRead -> zlen (in_ h) + zlen data < need h ->
  eats data h = (with_in (in_ h ++ data) (need h) h, zlen data).
Proof.
  revert h. induction data as [|c data IH]; intros h Hst Hn.
  { cbn. by rewrite app_nil_r, with_in_id. }
  rewrite zlen_cons in *. pose proof (zlen_nonneg data). cbn [eats].
  rewrite bool_decide_eq_true_2 by done.
  assert (eat c h = with_in (in_ h ++ [c]) (need h) h) as ->.
  { unfold eat. cbn [in_ need with_in]. rewrite zlen_app. change (zlen [c]) with 1. by zcmp. }
  rewrite IH; [|done|cbn; rewrite zlen_app; change (zlen [c]) with 1; lia].
  cbn. rewrite <- app_assoc. f_equal. lia.
Qed.

(** The bytes that complete it run the step. *)
Lemma eats_complete data rest h :
  status h = NeedRead -> zlen (in_ h) + zlen data = need h -> data <> [] ->
  eats (data ++ rest) h =
    let h' := snd (consumeStep (in_ h ++ data) (with_in (in_ h ++ data) (need h) h)) in
    let '(h2, n) := eats rest h' in (h2, zlen data + n).
Proof.
  intros Hst Hn Hd. destruct data as [|c data _] using rev_ind; [done|].
  rewrite zlen_app in Hn. change (zlen [c]) with 1 in Hn.
  rewrite <- app_assoc, eats_app, eats_partial by (done || lia).
  rewrite Z.eqb_refl. cbn [app eats]. rewrite bool_decide_eq_true_2 by done.
  assert (eat c (with_in (in_ h ++ data) (need h) h) =
    snd (consumeStep (in_ h ++ data ++ [c]) (with_in (in_ h ++ data ++ [c]) (need h) h))) as ->.
  { unfold eat. cbn [in_ need with_in]. rewrite <- app_assoc, !zlen_app. change (zlen [c]) with 1. by zcmp. }
  cbv zeta. destruct (eats rest _). rewrite zlen_app. change (zlen [c]) with 1. f_equal. lia.
Qed.

Lemma consumeStep_more l h :
  sendable h -> status h = NeedRead -> step_need h -> zlen l = need h ->
  let '(more, h') := consumeStep l h in more = false -> status h' <> NeedRead.
Proof.
  intros Hs Hst Hn Hl. pose proof (consumeStep_inv l h Hs Hst Hn Hl) as H.
  destruct (consumeStep l h) as [more h']. intros ->. destruct H as [_ [-> | ->]]; done.
Qed.

Lemma feed_loop_eats fuel data consumed h :
  inv h -> 0 <= consumed <= zlen data -> zlen data - consumed <= Z.of_nat fuel ->
  feed_loop fuel data consumed h =
    let '(h', n) := eats (zdrop consumed data) h in Some (h', consumed + n).
Proof.
  revert consumed h. induction fuel as [|fuel IH]; intros consumed h Hinv Hc Hf; cbn [feed_loop].
  all: destruct (bool_decide_reflect (status h = NeedRead)) as [Hst|Hst]; cbn [andb].
  all: try (rewrite eats_idle by done; cbn [negb]; by rewrite Z.add_0_r).
  all: destruct (Z.ltb_spec consumed (zlen data)) as [Hlt|Hge]; cbn [negb].
  all: try (rewrite drop_ge by (unfold zlen in *; lia); cbn [eats]; by rewrite Z.add_0_r).
  { lia. }
  unfold inv in Hinv. rewrite Hst in Hinv. destruct Hinv as (Hs & Hn & Hin).
  pose proof (step_need_range h Hn). cbv zeta.
  set (take := if zlen data - consumed <? need h - zlen (in_ h)
               then zlen data - consumed else need h - zlen (in_ h)).
  set (rest := zdrop consumed data).
  assert (zlen rest = zlen data - consumed) as Hrest by (unfold rest; rewrite zlen_drop; lia).
  assert (0 < take <= zlen rest /\ take <= need h - zlen (in_ h) /\
    (take = zlen rest \/ take = need h - zlen (in_ h))) as (Ht & Ht2 & Hcase).
  { unfold take. destruct (Z.ltb_spec (zlen data - consumed) (need h - zlen (in_ h))); lia. }
  clearbody take. cbn [in_ need with_in].
  assert (zlen (ztake take rest) = take) as Hzt by (rewrite zlen_take; lia).
  assert (zlen (in_ h ++ ztake take rest) = zlen (in_ h) + take) as Hzi by (rewrite zlen_app; lia).
  rewrite Hzi. destruct (Z.ltb_spec (zlen (in_ h) + take) (need h)) as [Hpart|Hfull].
  - assert (take = zlen rest) as -> by lia.
    rewrite take_ge by (unfold zlen; lia). rewrite eats_partial by (done || lia). done.
  - assert (eats rest h = eats (ztake take rest ++ zdrop take rest) h) as -> by (by rewrite take_drop).
    rewrite eats_complete; [|done|lia|intros E; rewrite E in Hzt; change (zlen []) with 0 in Hzt; lia].
    rewrite Hzt. cbv zeta. set (h1 := with_in _ _ h).
    assert (status h1 = NeedRead /\ step_need h1 /\ sendable h1) as (Hst1 & Hn1 & Hs1) by done.
    pose proof (consumeStep_inv (in_ h ++ ztake take rest) h1 Hs1 Hst1 Hn1) as Hci.
    pose proof (consumeStep_more (in_ h ++ ztake take rest) h1 Hs1 Hst1 Hn1) as Hcm.
    destruct (consumeStep _ h1) as [more h2]. cbn [snd].
    assert (zlen (in_ h ++ ztake take rest) = need h1) as Hfl by (cbn; lia).
    destruct (Hci Hfl) as [Hinv2 _]. specialize (Hcm Hfl).
    destruct more; cbn [negb].
    + rewrite IH by (done || lia).
      replace (Z.to_nat (consumed + take)) with (Z.to_nat consumed + Z.to_nat take)%nat by lia.
      rewrite <- drop_drop. fold rest. destruct (eats (zdrop take rest) h2). f_equal. f_equal. lia.
    + rewrite eats_idle by auto. f_equal. f_equal. lia.
Qed.

Lemma feed_eats data h : inv h -> feed data h = Some (eats data h).
Proof.
  intros H. unfold feed. rewrite feed_loop_eats; [|done|pose proof (zlen_nonneg data); lia|unfold zlen; lia].
  change (Z.to_nat 0) with 0%nat. rewrite drop_0. by destruct (eats data h).
Qed.

Lemma eat_inv c h : inv h -> status h = NeedRead -> inv (eat c h).
Proof.
  intros H Hst. pose proof H as H'. unfold inv in H'. rewrite Hst in H'. destruct H' as (Hs & Hn & Hin).
  unfold eat. set (h1 := with_in _ _ h).
  assert (status h1 = NeedRead /\ step_need h1 /\ sendable h1) as (Hst1 & Hn1 & Hs1) by done.
  assert (zlen (in_ h1) = zlen (in_ h) + 1 /\ need h1 = need h) as [Hz Hnd].
  { cbn. by rewrite zlen_app. }
  destruct (Z.ltb_spec (zlen (in_ h1)) (need h1)) as [Hlt|Hge].
  - unfold inv. rewrite Hst1. auto.
  - pose proof (consumeStep_inv (in_ h1) h1 Hs1 Hst1 Hn1 ltac:(lia)) as Hci.
    destruct (consumeStep (in_ h1) h1). apply Hci.
Qed.

Lemma eats_inv data h : inv h -> inv (fst (eats data h)).
Proof.
  revert h. induction data as [|c data IH]; intros h H; [done|]. cbn [eats].
  destruct (bool_decide_reflect (status h = NeedRead)) as [Hst|]; [|done].
  specialize (IH (eat c h) (eat_inv c h H Hst)). by destruct (eats data (eat c h)).
Qed.

(** ** What goes over the wire *)

(** What has to be said before the request, and what has to be heard. *)
Inductive accepted (s : ProxySettings) : bytes -> bytes -> Prop :=
  | accepted_none : accepted s (greeting s) [chr SOCKS5_VERSION; chr METHOD_NONE]
  | accepted_userpass : hasCredentials s = true ->
      accepted s (greeting s ++ auth s)
        [chr SOCKS5_VERSION; chr METHOD_USERPASS; chr SOCKS5_AUTH_VERSION; chr 0].

(** What may have been sent once [got] has been received. *)
Inductive allowed (s : ProxySettings) (r : bytes) : bytes -> bytes -> Prop :=
  | allowed_greeting sent got : sent `prefix_of` greeting s -> allowed s r sent got
  | allowed_auth sent got : hasCredentials s = true -> sent `prefix_of` greeting s ++ auth s ->
      [chr SOCKS5_VERSION; chr METHOD_USERPASS] `prefix_of` got -> allowed s r sent got
  | allowed_request pre acc sent got : accepted s pre acc -> sent `prefix_of` pre ++ r ->
      acc `prefix_of` got -> allowed s r sent got.

(** The address of a reply on the wire: how long it is, and what precedes it. *)
Definition addr_fits (atyp : Z) (addr : bytes) : Prop :=
  (atyp = ATYP_IPV4 /\ zlen addr = 4) \/ (atyp = ATYP_IPV6 /\ zlen addr = 16) \/
  (atyp = ATYP_DOMAIN /\ 1 <= zlen addr <= MAX_OCTET_LENGTH).
Definition len_prefix (atyp n : Z) : bytes := if atyp =? ATYP_DOMAIN then [chr n] else [].

(** A reply up to its port, and what is made of it. *)
Definition reply_frame (rep rsv : byte) (atyp : Z) (addr : bytes) : bytes :=
  [chr SOCKS5_VERSION; rep; rsv; chr atyp] ++ len_prefix atyp (zlen addr) ++ addr.
Definition reply_result (rep atyp : Z) (addr : bytes) (p : Z) : Result :=
  let unset := address empty_Result in
  if atyp =? ATYP_IPV4 then mkResult rep (mkInetAddress IPv4 (fill_data addr) [] Resolved) [] p
  else if atyp =? ATYP_IPV6 then mkResult rep (mkInetAddress IPv6 (fill_data addr) [] Resolved) [] p
  else mkResult rep unset addr p.

(** How far into the reply [tail] the handshake is. *)
Definition replying (h : Socks5Handshake) (tail : bytes) : Prop :=
  let unset := address empty_Result in
  match step h with
  | ReplyAddrLen => exists rep rsv, tail = [chr SOCKS5_VERSION; rep; rsv; chr ATYP_DOMAIN] ++ in_ h /\
      result h = mkResult (code rep) unset [] 0
  | ReplyAddr => exists rep rsv,
      tail = [chr SOCKS5_VERSION; rep; rsv; chr (reply_atyp h)] ++
             len_prefix (reply_atyp h) (need h) ++ in_ h /\
      result h = mkResult (code rep) unset [] 0
  | ReplyPort => exists rep rsv addr, addr_fits (reply_atyp h) addr /\
      tail = reply_frame rep rsv (reply_atyp h) addr ++ in_ h /\
      result h = reply_result (code rep) (reply_atyp h) addr 0
  | _ => tail = in_ h /\ result h = empty_Result
  end.

(** A whole reply that grants the request, and its result. *)
Definition granted (res : Result) (tail : bytes) : Prop :=
  exists rsv atyp addr p, addr_fits atyp addr /\ 0 <= p < 2 ^ 16 /\
    tail = reply_frame (chr 0) rsv atyp addr ++ net_port p /\ res = reply_result 0 atyp addr p.

(** The handshake, what it has sent and what it has consumed. *)
Definition stage (h : Socks5Handshake) (sent got : bytes) : Prop :=
  let s := settings h in
  match status h, step h with
  | NeedWrite, MethodReply => out h = greeting s /\ sent = ztake (out_sent h) (greeting s) /\
                              got = [] /\ result h = empty_Result
  | NeedRead, MethodReply => sent = greeting s /\ got = in_ h /\ result h = empty_Result
  | NeedWrite, AuthReply => hasCredentials s = true /\ out h = auth s /\
      sent = greeting s ++ ztake (out_sent h) (auth s) /\
      got = [chr SOCKS5_VERSION; chr METHOD_USERPASS] /\ result h = empty_Result
  | NeedRead, AuthReply => hasCredentials s = true /\ sent = greeting s ++ auth s /\
      got = [chr SOCKS5_VERSION; chr METHOD_USERPASS] ++ in_ h /\ result h = empty_Result
  | NeedWrite, _ => exists pre, accepted s pre got /\ out h = request h /\
      sent = pre ++ ztake (out_sent h) (request h) /\ result h = empty_Result
  | NeedRead, _ => exists pre acc tail, accepted s pre acc /\ sent = pre ++ request h /\
      got = acc ++ tail /\ replying h tail
  | Done, _ => exists pre acc tail, accepted s pre acc /\ sent = pre ++ request h /\
      got = acc ++ tail /\ granted (result h) tail
  | Failed, _ => allowed s (request h) sent got
  end.

Lemma ztake_prefix {A} n (l : list A) : ztake n l `prefix_of` l.
Proof. apply prefix_take. Qed.

Lemma stage_allowed h sent got : stage h sent got -> allowed (settings h) (request h) sent got.
Proof.
  unfold stage. intros H.
  destruct (status h); [| | |done]; [destruct (step h)..|].
  all: try (destruct H as (pre & Ha & _ & -> & _); eapply allowed_request; [exact Ha| |done];
            apply prefix_app, ztake_prefix).
  all: try (destruct H as (pre & acc & tail & Ha & -> & -> & _); eapply allowed_request;
            [exact Ha|done|by apply prefix_app_r]).
  - destruct H as (_ & -> & _). apply allowed_greeting, ztake_prefix.
  - destruct H as (Hc & _ & -> & -> & _). apply allowed_auth; [done|apply prefix_app, ztake_prefix|done].
  - destruct H as (-> & _). by apply allowed_greeting.
  - destruct H as (Hc & -> & -> & _). apply allowed_auth; [done|done|by apply prefix_app_r].
Qed.

Lemma allowed_more s r sent got more : allowed s r sent got -> allowed s r sent (got ++ more).
Proof.
  intros [sent' got' H|sent' got' Hc H Hg|pre acc sent' got' Ha H Hg].
  - by apply allowed_greeting.
  - apply allowed_auth; [done|done|by apply prefix_app_r].
  - eapply allowed_request; [exact Ha|done|by apply prefix_app_r].
Qed.

(** ** The exchange keeps to its stages *)

Lemma code_is z c : code c = z -> c = chr z.
Proof. intros <-. by rewrite chr_code. Qed.

Lemma stage_with_in h sent got c :
  status h = NeedRead -> stage h sent got ->
  stage (with_in (in_ h ++ [c]) (need h) h) sent (got ++ [c]).
Proof.
  unfold stage, replying. cbn [with_in status step settings request in_ result need reply_atyp].
  intros ->. destruct (step h); cbn.
  1: intros (-> & -> & ->); done.
  1: intros (Hc & -> & -> & ->); done.
  all: intros (pre & acc & tail & Ha & -> & -> & Hr); exists pre, acc, (tail ++ [c]).
  all: rewrite <- app_assoc; do 3 (split; [done|]).
  - by destruct Hr as [-> ->].
  - destruct Hr as (rep & rsv & -> & ->). by exists rep, rsv.
  - destruct Hr as (rep & rsv & -> & ->). exists rep, rsv. split; [|done]. cbn. by rewrite <- app_assoc.
  - destruct Hr as (rep & rsv & addr & Hf & -> & ->). exists rep, rsv, addr.
    split; [exact Hf|]. split; [unfold reply_frame; cbn; by rewrite <- !app_assoc|done].
Qed.

Lemma stage_fail code message h sent got :
  stage h sent got -> stage (fail code message h) sent got.
Proof. intros H. apply stage_allowed in H. exact H. Qed.

(** The two method answers. *)
Lemma method_stage l h sent got :
  status h = NeedRead -> step h = MethodReply -> zlen l = 2 -> in_ h = l -> stage h sent got ->
  stage (snd (consumeStep l h)) sent got.
Proof.
  intros Hst Hs Hl Hin H. unfold consumeStep. rewrite Hs, Hl. cbn [Z.ltb Z.compare Pos.compare Pos.compare_cont].
  destruct (Z.eqb_spec (octet_at l 0) SOCKS5_VERSION) as [E0|]; [|by apply stage_fail]. cbn [negb].
  cbv zeta. set (h1 := with_method _ h).
  assert (stage h1 sent got) as H1 by exact H.
  destruct (_ =? METHOD_NONE_ACCEPTABLE); [by apply stage_fail|].
  unfold stage in H. rewrite Hst, Hs in H. destruct H as (Hsent & Hgot & Hres).
  destruct l as [|x [|y [|]]]; try (exfalso; unfold zlen in Hl; cbn in Hl; lia).
  unfold octet_at in E0. cbn [nth] in E0. apply code_is in E0. subst x.
  change (method h1) with (code y). rewrite Hin in Hgot. subst sent got.
  destruct (Z.eqb_spec (code y) METHOD_NONE) as [E1|_].
  { apply code_is in E1. subst y. cbn. exists (greeting (settings h)).
    splits; try done; [constructor|by rewrite app_nil_r]. }
  destruct (Z.eqb_spec (code y) METHOD_USERPASS) as [E1|]; cbn [andb]; [|by apply stage_fail].
  destruct (hasCredentials (settings h1)) eqn:Hc; [|by apply stage_fail].
  apply code_is in E1. subst y. cbn. splits; try done. by rewrite app_nil_r.
Qed.

Lemma auth_stage l h sent got :
  status h = NeedRead -> step h = AuthReply -> zlen l = 2 -> in_ h = l -> stage h sent got ->
  stage (snd (consumeStep l h)) sent got.
Proof.
  intros Hst Hs Hl Hin H. unfold consumeStep. rewrite Hs, Hl. cbn [Z.ltb Z.compare Pos.compare Pos.compare_cont].
  destruct (Z.eqb_spec (octet_at l 0) SOCKS5_AUTH_VERSION) as [E0|]; [|by apply stage_fail]. cbn [negb].
  destruct (Z.eqb_spec (octet_at l 1) 0) as [E1|]; [|by apply stage_fail]. cbn [negb].
  unfold stage in H. rewrite Hst, Hs in H. destruct H as (Hc & -> & -> & Hres).
  destruct l as [|x [|y [|]]]; try (exfalso; unfold zlen in Hl; cbn in Hl; lia).
  unfold octet_at in E0, E1. cbn [nth] in E0, E1. apply code_is in E0, E1. subst x y. rewrite Hin.
  cbn. exists (greeting (settings h) ++ auth (settings h)).
  splits; try done; [by constructor|by rewrite app_nil_r].
Qed.

Lemma head_stage l h sent got :
  status h = NeedRead -> step h = ReplyHead -> zlen l = 4 -> in_ h = l -> stage h sent got ->
  stage (snd (consumeStep l h)) sent got.
Proof.
  intros Hst Hs Hl Hin H. unfold consumeStep. rewrite Hs, Hl. cbn [Z.ltb Z.compare Pos.compare Pos.compare_cont].
  destruct (Z.eqb_spec (octet_at l 0) SOCKS5_VERSION) as [E0|]; [|by apply stage_fail]. cbn [negb].
  cbv zeta. set (h1 := with_reply _ _ h).
  pose proof (stage_allowed _ _ _ H) as Hal.
  unfold stage in H. rewrite Hst, Hs in H. destruct H as (pre & acc & tail & Ha & Hsent & Hgot & Hr).
  unfold replying in Hr. rewrite Hs in Hr. destruct Hr as [Ht Hres].
  destruct l as [|x [|rep [|rsv [|at_ [|]]]]]; try (exfalso; unfold zlen in Hl; cbn in Hl; lia).
  unfold octet_at in E0. cbn [nth] in E0. apply code_is in E0. subst x.
  change (reply_atyp h1) with (code at_).
  assert (result h1 = mkResult (code rep) (address empty_Result) [] 0) as Hr1.
  { unfold h1. cbn. by rewrite Hres. }
  assert (forall st n, st = ReplyAddr /\ code at_ <> ATYP_DOMAIN \/ st = ReplyAddrLen /\ code at_ = ATYP_DOMAIN ->
    stage (expect st n h1) sent got) as Hnext.
  { intros st n Hcase. subst sent got tail. rewrite Hin.
    assert (exists pre0 acc0 tail, accepted (settings h) pre0 acc0 /\ pre ++ request h = pre0 ++ request h /\
      acc ++ [chr SOCKS5_VERSION; rep; rsv; at_] = acc0 ++ tail /\ replying (expect st n h1) tail) as Hgoal.
    { exists pre, acc, [chr SOCKS5_VERSION; rep; rsv; at_]. splits; try done.
      unfold replying. destruct Hcase as [[-> Hd]|[-> Hd]].
      - change (step (expect ReplyAddr n h1)) with ReplyAddr. exists rep, rsv. split; [|exact Hr1].
        change (reply_atyp (expect ReplyAddr n h1)) with (code at_). cbn [expect need in_].
        unfold len_prefix. destruct (Z.eqb_spec (code at_) ATYP_DOMAIN); [done|]. by rewrite chr_code.
      - change (step (expect ReplyAddrLen n h1)) with ReplyAddrLen. exists rep, rsv. split; [|exact Hr1].
        apply code_is in Hd. subst at_. done. }
    unfold stage. destruct Hcase as [[-> _]|[-> _]]; exact Hgoal. }
  destruct (Z.eqb_spec (code at_) ATYP_IPV4) as [E|_]; [apply Hnext; left; by rewrite E|].
  destruct (Z.eqb_spec (code at_) ATYP_IPV6) as [E|_]; [apply Hnext; left; by rewrite E|].
  destruct (Z.eqb_spec (code at_) ATYP_DOMAIN) as [E|_]; [apply Hnext; by right|exact Hal].
Qed.

Lemma addrlen_stage l h sent got :
  status h = NeedRead -> step h = ReplyAddrLen -> reply_atyp h = ATYP_DOMAIN ->
  zlen l = 1 -> in_ h = l -> stage h sent got ->
  stage (snd (consumeStep l h)) sent got.
Proof.
  intros Hst Hs Hat Hl Hin H. unfold consumeStep. rewrite Hs, Hl. cbn [Z.ltb Z.compare Pos.compare Pos.compare_cont].
  destruct (Z.eqb_spec (octet_at l 0) 0) as [E0|]; [by apply stage_fail|].
  unfold stage in H. rewrite Hst, Hs in H. destruct H as (pre & acc & tail & Ha & -> & -> & Hr).
  unfold replying in Hr. rewrite Hs in Hr. destruct Hr as (rep & rsv & -> & Hres).
  unfold stage. cbn. exists pre, acc, ([chr SOCKS5_VERSION; rep; rsv; chr ATYP_DOMAIN] ++ in_ h).
  splits; try done. exists rep, rsv. cbn. rewrite Hat. split; [|done].
  unfold len_prefix. rewrite Z.eqb_refl, Hin.
  destruct l as [|x [|]]; try (exfalso; unfold zlen in Hl; cbn in Hl; lia).
  unfold octet_at. cbn. by rewrite chr_code.
Qed.

Lemma addr_stage l h sent got :
  status h = NeedRead -> step h = ReplyAddr -> addr_fits (reply_atyp h) l ->
  need h = zlen l -> in_ h = l -> stage h sent got ->
  stage (snd (consumeStep l h)) sent got.
Proof.
  intros Hst Hs Hfit Hl Hin H. unfold consumeStep. rewrite Hs. cbv zeta.
  unfold stage in H. rewrite Hst, Hs in H. destruct H as (pre & acc & tail & Ha & -> & -> & Hr).
  unfold replying in Hr. rewrite Hs in Hr. destruct Hr as (rep & rsv & -> & Hres).
  set (res := reply_result (code rep) (reply_atyp h) l 0).
  assert (stage (expect ReplyPort 2 (with_reply (reply_atyp h) res h)) (pre ++ request h)
    (acc ++ [chr SOCKS5_VERSION; rep; rsv; chr (reply_atyp h)] ++
     len_prefix (reply_atyp h) (need h) ++ in_ h)) as Hgoal.
  { unfold stage. cbn [status step expect with_reply settings request].
    eexists pre, acc, _. do 3 (split; [done|]). unfold replying. cbn [step expect].
    exists rep, rsv, l. split; [done|]. split; [|done].
    cbn [in_ expect]. rewrite app_nil_r, Hl, Hin. done. }
  revert Hgoal. unfold res, reply_result. rewrite Hres. unfold setRawAddress.
  assert (forall n, zlen l = n -> take (Z.to_nat n) l = l) as Htake by (intros n <-; apply take_ge; unfold zlen; lia).
  destruct Hfit as [[-> E]|[[-> E]|[-> E]]].
  - specialize (Htake 4 E). change (Z.to_nat 4) with 4%nat in Htake. cbn [Z.eqb]. rewrite E, Htake, E.
    cbn. done.
  - specialize (Htake 16 E). change (Z.to_nat 16) with 16%nat in Htake. cbn. rewrite E, Htake, E. cbn. done.
  - cbn. done.
Qed.

Lemma net_port_of x y : net_port (le_value (rev [x; y])) = [x; y].
Proof. unfold net_port. exact (f_equal (@rev byte) (le_bytes_le_value [y; x])). Qed.

Lemma port_stage l h sent got :
  status h = NeedRead -> step h = ReplyPort -> zlen l = 2 -> in_ h = l -> stage h sent got ->
  stage (snd (consumeStep l h)) sent got.
Proof.
  intros Hst Hs Hl Hin H. pose proof (stage_allowed _ _ _ H) as Hal.
  unfold consumeStep. rewrite Hs, Hl. cbn [Z.ltb Z.compare Pos.compare Pos.compare_cont]. cbv zeta.
  unfold stage in H. rewrite Hst, Hs in H. destruct H as (pre & acc & tail & Ha & Hsent & Hgot & Hr).
  unfold replying in Hr. rewrite Hs in Hr. destruct Hr as (rep & rsv & addr & Hfit & Htail & Hres).
  destruct l as [|x [|y [|]]]; try (exfalso; unfold zlen in Hl; cbn in Hl; lia).
  change (take 2 [x; y]) with [x; y]. set (p := le_value (rev [x; y])).
  cbn [result with_reply with_in]. cbn [reply].
  destruct (Z.eqb_spec (reply (result h)) 0) as [E|E]; cbn [negb].
  - unfold stage. cbn. exists pre, acc, tail. splits; try done.
    pose proof (le_value_range (rev [x; y])) as Hp. cbn [length rev app] in Hp.
    exists rsv, (reply_atyp h), addr, p. split; [done|]. split; [split; [apply Hp|]|].
    { destruct Hp as [_ Hp]. exact Hp. }
    assert (code rep = 0) as Hrep.
    { rewrite Hres in E. unfold reply_result in E. do 2 (destruct (_ =? _) in E; [done|]). done. }
    pose proof (code_is _ _ Hrep) as Hrep'. subst rep.
    split. { rewrite Htail, Hin. unfold p. by rewrite net_port_of. }
    rewrite Hres. unfold reply_result. destruct (_ =? _); [done|]. destruct (_ =? _); done.
  - destruct (classify_reply _). exact Hal.
Qed.

Lemma consumeStep_stage l h sent got :
  status h = NeedRead -> step_need h -> need h = zlen l -> in_ h = l -> stage h sent got ->
  stage (snd (consumeStep l h)) sent got.
Proof.
  intros Hst Hn Hl Hin H. unfold step_need in Hn. destruct (step h) eqn:Hs.
  - apply method_stage; auto; lia.
  - apply auth_stage; auto; lia.
  - apply head_stage; auto; lia.
  - apply addrlen_stage; auto; [apply Hn|lia].
  - apply addr_stage; auto. unfold addr_fits. rewrite <- Hl. tauto.
  - apply port_stage; auto; lia.
Qed.

Lemma consumeStep_keeps l h :
  settings (snd (consumeStep l h)) = settings h /\ request (snd (consumeStep l h)) = request h.
Proof.
  unfold consumeStep. destruct (step h); cbv zeta.
  all: repeat (match goal with |- context [if ?b then _ else _] => destruct b end; try done).
  destruct (classify_reply _). done.
Qed.

Lemma eat_stage c h sent got :
  inv h -> status h = NeedRead -> stage h sent got -> stage (eat c h) sent (got ++ [c]).
Proof.
  intros Hinv Hst H. pose proof Hinv as Hi. unfold inv in Hi. rewrite Hst in Hi. destruct Hi as (_ & Hn & Hin).
  pose proof (stage_with_in h sent got c Hst H) as H1. unfold eat. cbv zeta.
  set (h1 := with_in _ _ h) in *. destruct (Z.ltb_spec (zlen (in_ h1)) (need h1)) as [Hlt|Hge]; [done|].
  apply consumeStep_stage; auto. cbn in *. rewrite zlen_app in *. change (zlen [c]) with 1 in *. lia.
Qed.

Lemma eats_stage data h sent got :
  inv h -> stage h sent got ->
  let '(h', n) := eats data h in stage h' sent (got ++ ztake n data).
Proof.
  revert h got. induction data as [|c data IH]; intros h got Hinv H.
  { cbn. by rewrite app_nil_r. }
  cbn [eats]. destruct (bool_decide_reflect (status h = NeedRead)) as [Hst|]; [|by rewrite app_nil_r].
  pose proof (eats_range data (eat c h)) as Hr.
  specialize (IH _ _ (eat_inv c h Hinv Hst) (eat_stage c h sent got Hinv Hst H)).
  destruct (eats data (eat c h)) as [h' n]. cbn [snd] in Hr.
  replace (Z.to_nat (n + 1)) with (S (Z.to_nat n)) by lia. cbn [take]. by rewrite <- app_assoc in IH.
Qed.

(** ** Sending *)

Lemma outgoing_spec h : 0 <= out_sent h <= zlen (out h) -> outgoing h = zdrop (out_sent h) (out h).
Proof.
  intros H. unfold outgoing. destruct (Z.leb_spec (zlen (out h)) (out_sent h)); [|done].
  rewrite drop_ge; [done|unfold zlen in *; lia].
Qed.

(** Sending [n] bytes of what is pending: the rest stays pending, or the reply
    to it is what comes next. *)
Lemma consumeOutgoing_spec n h :
  inv h -> status h = NeedWrite -> 0 <= n <= zlen (outgoing h) ->
  consumeOutgoing n h =
    let h1 := with_out_sent (out_sent h + n) h in
    if out_sent h + n <? zlen (out h) then h1
    else expect (step h) (if bool_decide (step h = ReplyHead) then 4 else 2) h1.
Proof.
  intros Hinv Hst Hn. unfold inv in Hinv. rewrite Hst in Hinv. destruct Hinv as (_ & Ho & Hb & Hstep).
  rewrite outgoing_spec, zlen_drop in Hn by lia. unfold consumeOutgoing.
  rewrite bool_decide_eq_true_2 by done. cbn [negb]. cbv zeta.
  replace (u64 (out_sent h + n)) with (out_sent h + n)
    by (unfold u64; rewrite Z.mod_small; [done|lia]).
  assert ((zlen (out h) <? out_sent h + n) = false) as -> by lia.
  destruct (_ <? _); [done|]. cbn [step with_out_sent]. destruct Hstep as [-> |[-> | ->]]; done.
Qed.

Lemma consumeOutgoing_idle n h : status h <> NeedWrite -> consumeOutgoing n h = h.
Proof. intros H. unfold consumeOutgoing. by rewrite bool_decide_eq_false_2. Qed.

Lemma consumeOutgoing_inv n h : inv h -> 0 <= n <= zlen (outgoing h) -> inv (consumeOutgoing n h).
Proof.
  intros Hinv Hn. destruct (decide (status h = NeedWrite)) as [Hst|Hst]; [|by rewrite consumeOutgoing_idle].
  rewrite consumeOutgoing_spec by done. unfold inv in Hinv. rewrite Hst in Hinv.
  destruct Hinv as (Hs & Ho & Hb & Hstep). cbv zeta. unfold inv.
  destruct (Z.ltb_spec (out_sent h + n) (zlen (out h))) as [Hlt|Hge].
  - cbn. rewrite Hst. split; [done|]. split; [lia|done].
  - cbn. split; [done|]. unfold step_need. cbn. destruct Hstep as [-> |[-> | ->]]; cbn; done.
Qed.

Lemma ztake_more {A} (l : list A) i n :
  0 <= i -> 0 <= n -> ztake i l ++ ztake n (zdrop i l) = ztake (i + n) l.
Proof.
  intros. rewrite Z2Nat.inj_add by lia. rewrite <- (take_drop (Z.to_nat i) l) at 3.
  destruct (decide (Z.to_nat i <= length l)%nat) as [Hle|Hgt].
  - rewrite take_app_ge; rewrite length_take_le by done; [|lia]. do 2 f_equal. lia.
  - rewrite (drop_ge l) by lia. rewrite take_nil, !app_nil_r. rewrite (take_ge l) by lia.
    by rewrite take_ge by lia.
Qed.

Lemma consumeOutgoing_stage n h sent got :
  inv h -> status h = NeedWrite -> 0 <= n <= zlen (outgoing h) -> stage h sent got ->
  stage (consumeOutgoing n h) (sent ++ ztake n (outgoing h)) got.
Proof.
  intros Hinv Hst Hn H. rewrite consumeOutgoing_spec by done.
  unfold inv in Hinv. rewrite Hst in Hinv. destruct Hinv as (_ & Ho & _ & Hstep).
  rewrite outgoing_spec in * by lia. rewrite zlen_drop in Hn.
  assert (forall l, out h = l -> out_sent h + n < zlen (out h) \/ ztake (out_sent h + n) l = l) as Hfull.
  { intros l <-. destruct (Z.lt_ge_cases (out_sent h + n) (zlen (out h))); [by left|right].
    apply take_ge. unfold zlen in *. lia. }
  unfold stage in H. rewrite Hst in H. cbv zeta. unfold stage.
  destruct (Z.ltb_spec (out_sent h + n) (zlen (out h))) as [Hlt|Hge]; cbn; rewrite ?Hst.
  - destruct Hstep as [Hs|[Hs|Hs]]; rewrite Hs in *.
    + destruct H as (E & -> & -> & Hres). rewrite E, ztake_more by lia. done.
    + destruct H as (Hc & E & -> & -> & Hres). rewrite E, <- app_assoc, ztake_more by lia. done.
    + destruct H as (pre & Ha & E & -> & Hres). exists pre. rewrite E, <- app_assoc, ztake_more by lia. done.
  - destruct Hstep as [Hs|[Hs|Hs]]; rewrite Hs in *.
    + destruct H as (E & -> & -> & Hres). rewrite E, ztake_more by lia. destruct (Hfull _ E) as [| ->]; [lia|done].
    + destruct H as (Hc & E & -> & -> & Hres). rewrite E, <- app_assoc, ztake_more by lia.
      destruct (Hfull _ E) as [| ->]; [lia|done].
    + destruct H as (pre & Ha & E & -> & Hres). rewrite E, <- app_assoc, ztake_more by lia.
      destruct (Hfull _ E) as [| ->]; [lia|]. exists pre, got, []. rewrite app_nil_r. done.
Qed.

(** ** Construction *)

Section exchange.
Variable inet_pton : Version -> bytes -> option bytes.

Lemma encodeRequest_spec h :
  let '(ok, h') := encodeRequest inet_pton h in
  if ok then exists r, h' = with_request r h /\ r <> [] /\ zlen r <= zlen (target h) + 23
  else exists code message, h' = fail code message h.
Proof.
  unfold encodeRequest. cbv zeta.
  set (a := new_InetAddress inet_pton (target h)). clearbody a.
  assert (forall n l m, zlen (take n (data a)) <= Z.of_nat n /\
    zlen ([chr SOCKS5_VERSION; chr (command_code (command h)); chr 0] ++ m) = 3 + zlen m /\
    zlen (l ++ net_port (target_port h)) = zlen l + 2) as Hlen.
  { intros n l m. rewrite zlen_take. split; [lia|]. rewrite !zlen_app. done. }
  destruct (_ && _); [by eauto|]. destruct (_ && _); [by eauto|].
  pose proof (zlen_nonneg (target h)).
  destruct (version a); [destruct (bool_decide _); [by eauto|] | |];
    (eexists; split; [reflexivity|split; [done|]]).
  - destruct (Hlen O (target h) ([chr ATYP_DOMAIN; chr (zlen (target h))] ++
      target h ++ net_port (target_port h))) as (_ & -> & E).
    rewrite zlen_app, E. change (zlen [chr ATYP_DOMAIN; _]) with 2. lia.
  - destruct (Hlen 4%nat (take 4 (data a)) ([chr ATYP_IPV4] ++ take 4 (data a) ++ net_port (target_port h))) as (L & -> & E).
    rewrite zlen_app, E. change (zlen [chr ATYP_IPV4]) with 1. lia.
  - destruct (Hlen 16%nat (take 16 (data a)) ([chr ATYP_IPV6] ++ take 16 (data a) ++ net_port (target_port h))) as (L & -> & E).
    rewrite zlen_app, E. change (zlen [chr ATYP_IPV6]) with 1. lia.
Qed.

Lemma greeting_size s : greeting s <> [] /\ 0 < zlen (greeting s) <= 4.
Proof. unfold greeting. destruct (hasCredentials s); done. Qed.

Lemma failed_start h code message : inv (fail code message h) /\ stage (fail code message h) [] [].
Proof. split; [done|]. apply allowed_greeting, prefix_nil. Qed.

(** A handshake starts by greeting the proxy, or has failed. *)
Lemma new_spec proxy cmd tgt p :
  let h := new_Socks5Handshake inet_pton proxy cmd tgt p in
  settings h = proxy /\ inv h /\ stage h [] [] /\
  (status h = Failed /\ out h = [] \/ status h = NeedWrite /\ out h = greeting proxy /\ out_sent h = 0).
Proof.
  cbv zeta. unfold new_Socks5Handshake. set (h0 := mkHandshake _ _ _ _ _ _ _ _ _ _ _ _ _ _ _ _).
  assert (forall c m, settings (fail c m h0) = proxy /\ inv (fail c m h0) /\ stage (fail c m h0) [] [] /\
    (status (fail c m h0) = Failed /\ out (fail c m h0) = [] \/
     status (fail c m h0) = NeedWrite /\ out (fail c m h0) = greeting proxy /\ out_sent (fail c m h0) = 0))
    as Hfail.
  { intros c m. pose proof (failed_start h0 c m) as [? ?]. splits; try done. by left. }
  destruct (bool_decide _); [apply Hfail|]. destruct (Z.ltb_spec MAX_OCTET_LENGTH (zlen tgt)); [apply Hfail|].
  destruct (Z.ltb_spec MAX_OCTET_LENGTH (zlen (username proxy))); [apply Hfail|].
  destruct (Z.ltb_spec MAX_OCTET_LENGTH (zlen (password proxy))); [apply Hfail|]. cbn [orb].
  pose proof (encodeRequest_spec h0) as Hreq. destruct (encodeRequest inet_pton h0) as [[] h]; cbn [negb].
  2:{ destruct Hreq as (c & m & ->). apply Hfail. }
  destruct Hreq as (r & -> & Hr & Hl). change (target h0) with tgt in Hl. unfold MAX_OCTET_LENGTH in *.
  pose proof (greeting_size proxy) as [Hg1 Hg2].
  subst h0. split; [reflexivity|]. split; [|split; [by cbn|right; by cbn]].
  apply inv_queue; [unfold sendable, MAX_OCTET_LENGTH; cbn; splits; [done|lia..]|done|cbn; lia|by left].
Qed.
End exchange.

(** Bytes are left over only when nothing more is wanted. *)
Lemma eats_stop data h : snd (eats data h) < zlen data -> status (fst (eats data h)) <> NeedRead.
Proof.
  revert h. induction data as [|c data IH]; intros h; [done|]. cbn [eats]. rewrite zlen_cons.
  destruct (bool_decide_reflect (status h = NeedRead)); [|done]. specialize (IH (eat c h)).
  destruct (eats data (eat c h)). cbn [fst snd] in *. intros. apply IH. lia.
Qed.

(** All of what was wanted is taken. *)
Lemma eats_wanted data h :
  inv h -> status h = NeedRead -> zlen data <= need h - zlen (in_ h) -> snd (eats data h) = zlen data.
Proof.
  intros Hi Hst Hle. destruct (Z.eq_dec (zlen data) (need h - zlen (in_ h))) as [E|E].
  - assert (data <> []) as Hd.
    { intros ->. unfold inv in Hi. rewrite Hst in Hi. change (zlen []) with 0 in E. lia. }
    rewrite <- (app_nil_r data) at 1. rewrite eats_complete by (done || lia). cbn. lia.
  - rewrite eats_partial by (done || lia). done.
Qed.

(** ** An exchange with a proxy *)

(** A handshake, what it has sent and what it has consumed, after any
    interleaving of writes, reads and a hangup. *)
Inductive exchange (inet_pton : Version -> bytes -> option bytes) (proxy : ProxySettings)
    (cmd : Command) (tgt : bytes) (p : Z) : Socks5Handshake -> bytes -> bytes -> Prop :=
  | exchange_start : exchange inet_pton proxy cmd tgt p
      (new_Socks5Handshake inet_pton proxy cmd tgt p) [] []
  | exchange_write h sent got n : exchange inet_pton proxy cmd tgt p h sent got ->
      status h = NeedWrite -> 0 <= n <= zlen (outgoing h) ->
      exchange inet_pton proxy cmd tgt p (consumeOutgoing n h) (sent ++ ztake n (outgoing h)) got
  | exchange_read h sent got data h' n : exchange inet_pton proxy cmd tgt p h sent got ->
      feed data h = Some (h', n) -> exchange inet_pton proxy cmd tgt p h' sent (got ++ ztake n data)
  | exchange_closed h sent got : exchange inet_pton proxy cmd tgt p h sent got ->
      exchange inet_pton proxy cmd tgt p (closed h) sent got.

Lemma consumeOutgoing_keeps n h :
  settings (consumeOutgoing n h) = settings h /\ request (consumeOutgoing n h) = request h.
Proof.
  unfold consumeOutgoing. cbv zeta. by repeat case_match.
Qed.

Lemma eats_keeps data h :
  settings (fst (eats data h)) = settings h /\ request (fst (eats data h)) = request h.
Proof.
  revert h. induction data as [|c data IH]; intros h; [done|]. cbn [eats].
  destruct (bool_decide _); [|done]. specialize (IH (eat c h)).
  destruct (eats data (eat c h)). cbn [fst] in *. destruct IH as [-> ->].
  unfold eat. cbv zeta. destruct (_ <? _); [done|]. apply (consumeStep_keeps _ (with_in _ _ h)).
Qed.

Lemma closed_cases h : closed h = h \/ exists c m, closed h = fail c m h.
Proof. unfold closed. destruct (_ || _); [by left|right; eauto]. Qed.

Lemma exchange_stage inet_pton proxy cmd tgt p h sent got :
  exchange inet_pton proxy cmd tgt p h sent got ->
  settings h = proxy /\ request h = request (new_Socks5Handshake inet_pton proxy cmd tgt p) /\
  inv h /\ stage h sent got.
Proof.
  induction 1 as [|h sent got n H (Hp & Hr & Hi & Hs) Hst Hn
                 |h sent got data h' n H (Hp & Hr & Hi & Hs) Hf|h sent got H (Hp & Hr & Hi & Hs)].
  - pose proof (new_spec inet_pton proxy cmd tgt p) as (Hp & Hi & Hs & _). done.
  - pose proof (consumeOutgoing_keeps n h) as [-> ->]. splits; [done|done| |].
    + by apply consumeOutgoing_inv.
    + by apply consumeOutgoing_stage.
  - rewrite feed_eats in Hf by done. injection Hf as Hf.
    pose proof (eats_keeps data h) as Hk. pose proof (eats_inv data h Hi) as Hi'.
    pose proof (eats_stage data h sent got Hi Hs) as Hs'. rewrite Hf in *. cbn [fst] in *.
    destruct Hk as [-> ->]. done.
  - destruct (closed_cases h) as [-> |(c & m & ->)]; [done|]. splits; [done|done|done|by apply stage_fail].
Qed.

(** C1. The order of the exchange: whatever the schedule of writes, reads and
    hangups, and whatever the proxy sends, credentials leave only after the
    proxy has chosen them and the request - with the peer's name - only after
    the proxy has accepted; and a handshake that is done has sent exactly the
    greeting, the credentials if chosen and the request, and consumed exactly
    the acceptance and one granting reply, which its result is read from. *)
Theorem exchange_order inet_pton proxy cmd tgt p h sent got
    (H : exchange inet_pton proxy cmd tgt p h sent got) :
  let r := request (new_Socks5Handshake inet_pton proxy cmd tgt p) in
  allowed proxy r sent got /\
  (status h = Done -> exists pre acc tail, accepted proxy pre acc /\ sent = pre ++ r /\
    got = acc ++ tail /\ granted (result h) tail).
Proof.
  apply exchange_stage in H. destruct H as (<- & <- & _ & Hs).
  split; [by apply stage_allowed|]. intros Hd. unfold stage in Hs. by rewrite Hd in Hs.
Qed.

(** How the proxy's bytes are cut into reads is immaterial: at any point of
    any exchange, [feed] returns, takes no more than it is given - all of it when
    the caller reads no more than [wanted()], which fits [MAX_STEP] - and feeding
    two pieces is feeding their concatenation. *)
Theorem feed_segmentation inet_pton proxy cmd tgt p h sent got a b
    (H : exchange inet_pton proxy cmd tgt p h sent got) :
  0 <= wanted h < MAX_STEP /\
  (wanted h = 0 <-> status h <> NeedRead) /\
  exists h1 n1, feed a h = Some (h1, n1) /\ 0 <= n1 <= zlen a /\
    (zlen a <= wanted h -> n1 = zlen a) /\
    (n1 < zlen a -> status h1 <> NeedRead /\ feed (a ++ b) h = Some (h1, n1)) /\
    (n1 = zlen a -> exists h2 n2, feed b h1 = Some (h2, n2) /\ feed (a ++ b) h = Some (h2, n1 + n2)).
Proof.
  apply exchange_stage in H. destruct H as (_ & _ & Hi & _).
  assert (0 <= wanted h < MAX_STEP /\ (wanted h = 0 <-> status h <> NeedRead) /\
    (status h = NeedRead -> wanted h = need h - zlen (in_ h))) as (Hw & Hw2 & Hw3).
  { unfold wanted, inv in *. destruct (bool_decide_reflect (status h = NeedRead)) as [Hst|Hst]; cbn [negb].
    - rewrite Hst in *. destruct Hi as (_ & Hn & Hin). pose proof (step_need_range h Hn) as Hr.
      pose proof (zlen_nonneg (in_ h)). unfold MAX_OCTET_LENGTH, MAX_STEP in *. zcmp.
      split; [lia|]. split; [|done]. split; [lia|done].
    - split; [unfold MAX_STEP; lia|done]. }
  split; [done|]. split; [done|].
  pose proof (eats_range a h) as Hr. pose proof (eats_inv a h Hi) as Hi1.
  pose proof (eats_app a b h) as Happ. pose proof (eats_stop a h) as Hstop. pose proof (eats_wanted a h Hi) as Hall.
  rewrite !feed_eats by done. destruct (eats a h) as [h1 n1]. cbn [fst snd] in *.
  exists h1, n1. splits; try done; try lia.
  - intros Hle. destruct (decide (status h = NeedRead)) as [Hst|Hst].
    + apply Hall; [done|rewrite <- Hw3; done].
    + rewrite (proj2 Hw2 Hst) in Hle. lia.
  - intros Hlt. split; [by apply Hstop|]. rewrite Happ. by destruct (Z.eqb_spec n1 (zlen a)); [lia|].
  - intros ->. rewrite Z.eqb_refl in Happ. rewrite feed_eats by done.
    destruct (eats b h1) as [h2 n2]. exists h2, n2. by rewrite Happ.
Qed.

(** ** The request *)

(** Reading a request back, as RFC 1928 lays it out: the command, the address
    type, the address or name, and the port. *)
Definition decode_request (l : bytes) : option (Z * Z * bytes * Z) :=
  let fields c t n rest :=
    if zlen rest =? n + 2 then Some (code c, code t, ztake n rest, le_value (rev (zdrop n rest))) else None in
  match l with
  | v :: c :: z :: t :: rest =>
      if negb ((code v =? SOCKS5_VERSION) && (code z =? 0)) then None
      else if code t =? ATYP_IPV4 then fields c t 4 rest
      else if code t =? ATYP_IPV6 then fields c t 16 rest
      else if code t =? ATYP_DOMAIN then
        match rest with
        | n :: rest => fields c t (code n) rest
        | [] => None
        end
      else None
  | _ => None
  end.

(** The destination a target stands for. *)
Definition destination (a : InetAddress) (tgt : bytes) : Z * bytes :=
  match version a with
  | IPv4 => (ATYP_IPV4, take 4 (data a))
  | IPv6 => (ATYP_IPV6, take 16 (data a))
  | Unspecified => (ATYP_DOMAIN, tgt)
  end.

(** Whether a peer is on the local network, and why a handshake can be refused
    before it begins. *)
Definition local_peer (a : InetAddress) (tgt : bytes) : bool :=
  if bool_decide (version a = Unspecified) then is_local_name tgt else is_local_address a.
Definition refused (a : InetAddress) (proxy : ProxySettings) (cmd : Command) (tgt : bytes) : bool :=
  bool_decide (tgt = []) || (MAX_OCTET_LENGTH <? zlen tgt) ||
  (MAX_OCTET_LENGTH <? zlen (username proxy)) || (MAX_OCTET_LENGTH <? zlen (password proxy)) ||
  (negb (allow_private proxy) && local_peer a tgt) ||
  (bool_decide (cmd = ResolvePtr) && bool_decide (version a = Unspecified)).

Lemma net_port_value q p : 0 <= p < 2 ^ 16 -> le_value (rev (q ++ net_port p)) = p + 2 ^ 16 * le_value (rev q).
Proof.
  intros H. unfold net_port. rewrite rev_app_distr, rev_involutive, le_value_app, length_le_bytes, le_value_le_bytes.
  change (8 * Z.of_nat 2) with 16. by rewrite Z.mod_small by done.
Qed.

Lemma zlen_net_port p : zlen (net_port p) = 2.
Proof. done. Qed.

Lemma decode_fields (addr : bytes) p n :
  0 <= p < 2 ^ 16 -> zlen addr = n ->
  (zlen (addr ++ net_port p) =? n + 2) = true /\ ztake n (addr ++ net_port p) = addr /\
  le_value (rev (zdrop n (addr ++ net_port p))) = p.
Proof.
  intros Hp <-. rewrite zlen_app, zlen_net_port, Z.eqb_refl. unfold zlen. rewrite Nat2Z.id, take_app_length, drop_app_length.
  split; [done|]. split; [done|]. pose proof (net_port_value [] p Hp) as E. cbn [rev app] in E. rewrite E. cbn. lia.
Qed.

Lemma length_data inet_pton tgt : (16 <= length (data (new_InetAddress inet_pton tgt)))%nat.
Proof.
  assert (forall raw, (16 <= length (fill_data raw))%nat) as Hf.
  { intros raw. unfold fill_data. rewrite length_app, length_replicate. lia. }
  unfold new_InetAddress, new_InetAddress_version. destruct tgt as [|c tgt]; [apply Hf|].
  destruct (stringToAddress _ IPv4 _); [apply Hf|]. destruct (stringToAddress _ IPv6 _); [apply Hf|].
  cbn. lia.
Qed.

Definition request_bytes (cmd : Command) (dest : Z * bytes) (p : Z) : bytes :=
  [chr SOCKS5_VERSION; chr (command_code cmd); chr 0; chr (fst dest)] ++
  len_prefix (fst dest) (zlen (snd dest)) ++ snd dest ++ net_port p.

Lemma encodeRequest_cases inet_pton h :
  let a := new_InetAddress inet_pton (target h) in
  if (negb (allow_private (settings h)) && local_peer a (target h)) ||
     (bool_decide (command h = ResolvePtr) && bool_decide (version a = Unspecified))
  then exists code message, encodeRequest inet_pton h = (false, fail code message h)
  else encodeRequest inet_pton h =
    (true, with_request (request_bytes (command h) (destination a (target h)) (target_port h)) h).
Proof.
  cbv zeta. unfold encodeRequest, local_peer, destination. cbv zeta.
  set (a := new_InetAddress inet_pton (target h)). clearbody a.
  destruct (version a).
  all: change (bool_decide (Unspecified = Unspecified)) with true.
  all: change (bool_decide (IPv4 = Unspecified)) with false.
  all: change (bool_decide (IPv6 = Unspecified)) with false.
  all: cbn [negb andb orb].
  all: rewrite ?andb_false_r, ?andb_true_r, ?orb_false_r.
  all: destruct (negb (allow_private (settings h))); cbn [andb orb].
  all: try (destruct (is_local_name (target h)); cbn [orb]; [by eauto|]).
  all: try (destruct (is_local_address a); [by eauto|]).
  all: try (destruct (bool_decide (command h = ResolvePtr)); [by eauto|]).
  all: reflexivity.
Qed.

Lemma decode_request_bytes cmd atyp addr p :
  0 <= p < 2 ^ 16 -> addr_fits atyp addr ->
  decode_request (request_bytes cmd (atyp, addr) p) = Some (command_code cmd, atyp, addr, p).
Proof.
  intros Hp Hf. assert (code (chr (command_code cmd)) = command_code cmd) as Hcmd by (by destruct cmd).
  unfold request_bytes, decode_request. cbn [fst snd app].
  destruct Hf as [[-> E]|[[-> E]|[-> [E E']]]]; cbn [len_prefix Z.eqb ATYP_IPV4 ATYP_IPV6 ATYP_DOMAIN].
  - destruct (decode_fields addr p 4 Hp E) as (H1 & H2 & H3). cbn in *. by rewrite H1, H2, H3, Hcmd.
  - destruct (decode_fields addr p 16 Hp E) as (H1 & H2 & H3). cbn in *. by rewrite H1, H2, H3, Hcmd.
  - destruct (decode_fields addr p (zlen addr) Hp eq_refl) as (H1 & H2 & H3).
    unfold MAX_OCTET_LENGTH in E'. pose proof (code_chr_small (zlen addr) ltac:(lia)) as Hc.
    change (len_prefix ATYP_DOMAIN (zlen addr)) with [chr (zlen addr)]. cbn [app].
    change (code (chr ATYP_DOMAIN)) with 3. cbn [Z.eqb Pos.eqb]. rewrite Hc, H1, H2, H3, Hcmd. done.
Qed.

(** What a handshake asks for: it is refused exactly when the peer's name
    is missing or does not fit an octet, a credential does not fit, the peer is
    local and local peers are not allowed, or a reverse lookup is asked of a
    name; a refused one has nothing to send, and otherwise the greeting is
    pending and the request decodes to the command, the peer - as an address
    when it is a literal, as the name otherwise - and the port. *)
Theorem request_spec inet_pton proxy cmd tgt p (Hp : 0 <= p < 2 ^ 16) :
  let a := new_InetAddress inet_pton tgt in
  let h := new_Socks5Handshake inet_pton proxy cmd tgt p in
  if refused a proxy cmd tgt
  then status h = Failed /\ outgoing h = [] /\ wanted h = 0
  else status h = NeedWrite /\ outgoing h = greeting proxy /\
       decode_request (request h) =
         let '(atyp, addr) := destination a tgt in Some (command_code cmd, atyp, addr, p).
Proof.
  cbv zeta. pose proof (length_data inet_pton tgt) as Hdata.
  unfold refused, new_Socks5Handshake.
  destruct (bool_decide_reflect (tgt = [])) as [|Hne]; [done|].
  destruct (Z.ltb_spec MAX_OCTET_LENGTH (zlen tgt)) as [|Hlen]; [done|].
  destruct (MAX_OCTET_LENGTH <? zlen (username proxy)); [done|].
  destruct (MAX_OCTET_LENGTH <? zlen (password proxy)); [done|]. cbn [orb].
  set (h0 := mkHandshake _ _ _ _ _ _ _ _ _ _ _ _ _ _ _ _).
  pose proof (encodeRequest_cases inet_pton h0) as Henc.
  change (target h0) with tgt in Henc. change (settings h0) with proxy in Henc.
  change (command h0) with cmd in Henc. change (target_port h0) with p in Henc. cbv zeta in Henc.
  destruct (_ || _).
  { destruct Henc as (c & m & ->). done. }
  rewrite Henc. cbn [negb]. split; [done|]. split.
  { unfold outgoing. cbn. pose proof (greeting_size proxy). zcmp. apply drop_0. }
  change (request (encodeGreeting ?h)) with (request h). cbn [request with_request].
  destruct (destination _ tgt) as [atyp addr] eqn:Hd. apply decode_request_bytes; [done|].
  pose proof (zlen_nonneg tgt). assert (zlen tgt <> 0) by (destruct tgt; [done|zlen_lia]).
  unfold destination, addr_fits in *.
  destruct (version _); injection Hd as <- <-; rewrite ?zlen_take; [lia| |].
  - left. split; [done|]. unfold zlen. lia.
  - right. left. split; [done|]. unfold zlen. lia.
Qed.

(** What is on the local network: an address that is unusable, loopback, private,
    link-local or multicast; a name that is localhost or ends in .local or
    .localhost, in any case. *)
Definition on_local_network (a : InetAddress) (tgt : bytes) : Prop :=
  match version a with
  | Unspecified => iequals tgt (lit "localhost") = true \/
      exists host suffix, tgt = host ++ suffix /\
        (iequals suffix (lit ".local") = true \/ iequals suffix (lit ".localhost") = true)
  | _ => isValid a = false \/ isLoopback a = true \/ isPrivate a = true \/ isLinkLocal a = true \/
      isMulticast a = true
  end.

Lemma ascii_lower_dot c : samurai_ascii_lower c = "."%char <-> c = "."%char.
Proof. split; [|by intros ->]. destruct c as [[] [] [] [] [] [] [] []]; vm_compute; congruence. Qed.

(** A suffix equal, but for case, to a dot and a name without dots starts at the
    last dot. *)
Lemma last_dot host suffix t :
  iequals suffix ("."%char :: t) = true -> "."%char ∉ map samurai_ascii_lower t ->
  rfind_char "." (host ++ suffix) = Some (length host).
Proof.
  intros E Ht. apply iequals_iff in E. destruct suffix as [|c r]; [done|]. cbn [map] in E. injection E as Ec Er.
  apply ascii_lower_dot in Ec as ->. apply rfind_char_Some. exists host, r. split; [done|]. split; [done|].
  intros Hin. apply Ht. rewrite <- Er. apply list_elem_of_In, in_map_iff. exists "."%char.
  split; [done|by apply list_elem_of_In].
Qed.

Lemma on_local_network_local a tgt : on_local_network a tgt -> local_peer a tgt = true.
Proof.
  unfold on_local_network, local_peer, is_local_address. intros H.
  destruct (bool_decide_reflect (version a = Unspecified)) as [E|E].
  - rewrite E in H. unfold is_local_name. destruct (iequals tgt (lit "localhost")); [done|].
    destruct H as [H|(host & suffix & -> & H)]; [done|].
    rewrite (last_dot host suffix (if iequals suffix (lit ".local") then lit "local" else lit "localhost")).
    + rewrite drop_app_length. destruct H as [->| ->]; [done|apply orb_true_r].
    + destruct (iequals suffix (lit ".local")) eqn:El; [exact El|]. by destruct H as [H|H].
    + destruct (iequals _ _); apply (bool_decide_unpack _); vm_compute; exact I.
  - destruct (version a); [done| |]; rewrite !orb_true_iff, negb_true_iff; tauto.
Qed.

(** Unless private targets are allowed, a peer on the local network - by
    literal address or by name - is refused before anything is sent: no schedule
    of the exchange sends a byte. *)
Theorem local_peer_refused inet_pton proxy cmd tgt p h sent got
    (Hpriv : allow_private proxy = false)
    (Hnear : on_local_network (new_InetAddress inet_pton tgt) tgt)
    (H : exchange inet_pton proxy cmd tgt p h sent got) :
  status h = Failed /\ sent = [] /\ outgoing h = [].
Proof.
  pose proof (on_local_network_local _ _ Hnear) as Hlocal.
  induction H as [|h sent got n H (Hst & -> & Ho) Hw Hn|h sent got data h' n H (Hst & -> & Ho) Hfd
                 |h sent got H (Hst & -> & Ho)].
  - pose proof (encodeRequest_cases inet_pton (mkHandshake proxy cmd tgt p NeedWrite
      MethodReply [] 0 [] [] 0 0 0 empty_Result SocketUnknown [])) as Henc.
    cbn [target settings command target_port] in Henc. cbv zeta in Henc. rewrite Hpriv, Hlocal in Henc.
    destruct Henc as (c & m & Henc). unfold new_Socks5Handshake.
    destruct (bool_decide (tgt = [])); [done|]. destruct (_ <? zlen tgt); [done|].
    destruct (_ || _); [done|]. by rewrite Henc.
  - by rewrite Hst in Hw.
  - unfold feed in Hfd. destruct (length data); cbn [feed_loop] in Hfd; rewrite Hst in Hfd;
      injection Hfd as <- <-; done.
  - unfold closed. by rewrite Hst.
Qed.

(** ** [socks5_pump] *)

(** The descriptor: what [send] and [recv] answer is up to the system. [inl] is
    an [errno]; [inr] what was sent or received. *)
Section pump.
Context {S : Type}.
Variable send : S -> bytes -> S * (Z + Z).
Variable recv : S -> Z -> S * (Z + bytes).
Variables EAGAIN EWOULDBLOCK EINTR : Z.

(* @src src/src/io/net/socks5.cpp:577-577 socks5_pump *)
Definition transient (err : Z) : bool := (err =? EAGAIN) || (err =? EWOULDBLOCK) || (err =? EINTR).

(** The socket, the handshake, [want_write] and [ec] when the pump returns;
    [None] is the fuel running out. *)
(* @src src/src/io/net/socks5.cpp:557-634 Samurai::IO::Net::socks5_pump *)
Fixpoint socks5_pump (fuel : nat) (sd : S) (handshake : Socks5Handshake)
    : option (S * Socks5Handshake * bool * option Z) :=
  match fuel with
  | O => None
  | Datatypes.S fuel =>
      match status handshake with
      | NeedWrite =>
          let pending := outgoing handshake in
          match send sd pending with
          | (sd, inl err) =>
              if transient err then Some (sd, handshake, true, None)
              else Some (sd, handshake, false, Some err)
          | (sd, inr sent) =>
              let handshake := consumeOutgoing (u64 sent) handshake in
              if bool_decide (status handshake = NeedWrite) then Some (sd, handshake, true, None)
              else socks5_pump fuel sd handshake
          end
      | NeedRead =>
          let want := wanted handshake in
          if (want =? 0) || (MAX_STEP <? want) then Some (sd, closed handshake, false, None)
          else
            match recv sd want with
            | (sd, inl err) =>
                if transient err then Some (sd, handshake, false, None)
                else Some (sd, handshake, false, Some err)
            | (sd, inr []) => Some (sd, closed handshake, false, None)
            | (sd, inr got) =>
                match feed got handshake with
                | None => None
                | Some (handshake, _) => socks5_pump fuel sd handshake
                end
            end
      | Done | Failed => Some (sd, handshake, false, None)
      end
  end.
End pump.

(** A descriptor that keeps what went through it. *)
Definition logged_send {S} (send : S -> bytes -> S * (Z + Z)) (sd : S * bytes * bytes) (d : bytes) :=
  let '(s, sent, got) := sd in
  let '(s, r) := send s d in
  match r with
  | inl e => ((s, sent, got), inl e : Z + Z)
  | inr n => ((s, sent ++ ztake n d, got), inr n)
  end.
Definition logged_recv {S} (recv : S -> Z -> S * (Z + bytes)) (sd : S * bytes * bytes) (want : Z) :=
  let '(s, sent, got) := sd in
  let '(s, r) := recv s want in
  match r with
  | inl e => ((s, sent, got), inl e : Z + bytes)
  | inr d => ((s, sent, got ++ d), inr d)
  end.

(** How much may follow a step ... *)
Definition after_step (s : Step) : Z :=
  match s with
  | MethodReply => 266 | AuthReply => 263 | ReplyHead => 258 | ReplyAddrLen => 257
  | ReplyAddr => 2 | ReplyPort => 0
  end.

(** ... and the most there is left to move: every byte read and every write that
    completes makes it smaller. *)
Definition left_to_do (h : Socks5Handshake) : Z :=
  match status h with
  | Done | Failed => 0
  | NeedWrite => match step h with MethodReply => 269 | AuthReply => 266 | _ => 263 end
  | NeedRead =>
      need h - zlen (in_ h) + after_step (step h)
  end.

Lemma left_to_do_range h : inv h -> 0 <= left_to_do h <= 269.
Proof.
  unfold inv, left_to_do. destruct (status h); [destruct (step h); lia| |lia|lia].
  intros (_ & Hn & Hin). pose proof (zlen_nonneg (in_ h)). unfold step_need, MAX_OCTET_LENGTH in Hn.
  destruct (step h); cbn; lia.
Qed.

Lemma consumeStep_left l h :
  step_need h -> zlen l = need h -> left_to_do (snd (consumeStep l h)) <= after_step (step h).
Proof.
  unfold consumeStep, step_need, MAX_OCTET_LENGTH. intros Hn Hl.
  pose proof (code_range (nth 0 l (chr 0))). unfold octet_at.
  destruct (step h) eqn:Hs; cbv zeta.
  all: repeat case_match; cbn; change (zlen (@nil byte)) with 0; unfold ATYP_IPV4, ATYP_IPV6, ATYP_DOMAIN in *; lia.
Qed.

Lemma eat_left c h : inv h -> status h = NeedRead -> left_to_do (eat c h) < left_to_do h.
Proof.
  intros Hi Hst. unfold inv in Hi. rewrite Hst in Hi. destruct Hi as (Hs & Hn & Hin).
  unfold eat. cbv zeta. set (h1 := with_in _ _ h).
  assert (zlen (in_ h1) = zlen (in_ h) + 1 /\ need h1 = need h) as [Hz Hnd] by (cbn; by rewrite zlen_app).
  assert (left_to_do h = need h - zlen (in_ h) + after_step (step h)) as -> by (unfold left_to_do; by rewrite Hst).
  destruct (Z.ltb_spec (zlen (in_ h1)) (need h1)) as [Hlt|Hge].
  - assert (left_to_do h1 = need h1 - zlen (in_ h1) + after_step (step h)) as ->
      by (unfold left_to_do; change (status h1) with (status h); by rewrite Hst). lia.
  - assert (sendable h1 /\ status h1 = NeedRead /\ step_need h1) as (Hs1 & Hst1 & Hn1) by done.
    pose proof (consumeStep_left (in_ h1) h1 Hn1 ltac:(lia)) as H. change (step h1) with (step h) in H. lia.
Qed.

Lemma eats_left data h :
  inv h -> status h = NeedRead -> data <> [] -> left_to_do (fst (eats data h)) < left_to_do h.
Proof.
  intros Hi Hst Hd. assert (forall l h', inv h' -> left_to_do (fst (eats l h')) <= left_to_do h') as Hle.
  { induction l as [|c l IH]; intros h' Hi'; [done|]. cbn [eats].
    destruct (bool_decide_reflect (status h' = NeedRead)) as [Hst'|]; [|done].
    specialize (IH (eat c h') (eat_inv c h' Hi' Hst')). pose proof (eat_left c h' Hi' Hst').
    destruct (eats l (eat c h')). cbn [fst] in *. lia. }
  destruct data as [|c data]; [done|]. cbn [eats]. rewrite bool_decide_eq_true_2 by done.
  specialize (Hle data (eat c h) (eat_inv c h Hi Hst)). pose proof (eat_left c h Hi Hst).
  destruct (eats data (eat c h)). cbn [fst] in *. lia.
Qed.

Lemma consumeOutgoing_left n h :
  inv h -> status h = NeedWrite -> 0 <= n <= zlen (outgoing h) ->
  status (consumeOutgoing n h) <> NeedWrite -> left_to_do (consumeOutgoing n h) < left_to_do h.
Proof.
  intros Hi Hst Hn. rewrite consumeOutgoing_spec by done. cbv zeta.
  unfold inv in Hi. rewrite Hst in Hi. destruct Hi as (_ & _ & _ & Hstep).
  destruct (_ <? _); cbn; [by rewrite Hst|]. intros _. unfold left_to_do. rewrite Hst. cbn.
  by destruct Hstep as [-> |[-> | ->]].
Qed.

Lemma outgoing_size h : inv h -> status h = NeedWrite -> zlen (outgoing h) < 2 ^ 32.
Proof.
  intros Hi Hst. unfold inv in Hi. rewrite Hst in Hi. rewrite outgoing_spec, zlen_drop by lia. lia.
Qed.

Section pump_theorem.
Context {S : Type}.
Variable send : S -> bytes -> S * (Z + Z).
Variable recv : S -> Z -> S * (Z + bytes).
Variables EAGAIN EWOULDBLOCK EINTR : Z.
Hypothesis send_counts : forall s d s' n, send s d = (s', inr n) -> 0 <= n <= zlen d.
Hypothesis recv_bounded : forall s want s' d, 0 <= want -> recv s want = (s', inr d) -> zlen d <= want.
Variable inet_pton : Version -> bytes -> option bytes.
Variable proxy : ProxySettings.
Variable cmd : Command.
Variable tgt : bytes.
Variable p : Z.

(** How a pump may stop. *)
Definition pumped (r : option ((S * bytes * bytes) * Socks5Handshake * bool * option Z)) : Prop :=
  exists s sent got h ww ec, r = Some ((s, sent, got), h, ww, ec) /\
    exchange inet_pton proxy cmd tgt p h sent got /\
    match ec with
    | None => ww = bool_decide (status h = NeedWrite)
    | Some err => ww = false /\ transient EAGAIN EWOULDBLOCK EINTR err = false
    end.

Lemma pump_loop fuel s sent got h :
  exchange inet_pton proxy cmd tgt p h sent got -> left_to_do h < Z.of_nat fuel ->
  pumped (socks5_pump (logged_send send) (logged_recv recv) EAGAIN EWOULDBLOCK EINTR fuel (s, sent, got) h).
Proof.
  revert s sent got h. induction fuel as [|fuel IH]; intros s sent got h He Hf.
  { pose proof (exchange_stage _ _ _ _ _ _ _ _ He) as (_ & _ & Hi & _).
    pose proof (left_to_do_range h Hi). lia. }
  pose proof (exchange_stage _ _ _ _ _ _ _ _ He) as (_ & _ & Hi & _).
  cbn [socks5_pump]. destruct (status h) eqn:Hst.
  - unfold logged_send. destruct (send s (outgoing h)) as [s' [err|n]] eqn:Hs.
    { destruct (transient _ _ _ err) eqn:Ht; repeat eexists; try exact He; cbn; rewrite ?Hst; done. }
    pose proof (send_counts _ _ _ _ Hs) as Hn. pose proof (outgoing_size h Hi Hst).
    assert (u64 n = n) as -> by (apply Z.mod_small; lia).
    pose proof (exchange_write _ _ _ _ _ _ _ _ n He Hst Hn) as He'.
    case_bool_decide as Hd; [repeat eexists; [exact He'|by rewrite Hd]|].
    apply IH; [exact He'|]. pose proof (consumeOutgoing_left n h Hi Hst Hn Hd). lia.
  - assert (0 < wanted h <= MAX_STEP /\ wanted h = need h - zlen (in_ h)) as [Hw Hwn].
    { unfold wanted. rewrite Hst. change (negb (bool_decide (NeedRead = NeedRead))) with false. unfold inv in Hi. rewrite Hst in Hi. destruct Hi as (_ & Hneed & Hin).
      pose proof (step_need_range h Hneed). pose proof (zlen_nonneg (in_ h)).
      unfold MAX_STEP, MAX_OCTET_LENGTH in *. zcmp. lia. }
    assert ((wanted h =? 0) || (MAX_STEP <? wanted h) = false) as -> by lia.
    unfold logged_recv. destruct (recv s (wanted h)) as [s' [err|d]] eqn:Hr.
    { destruct (transient _ _ _ err) eqn:Ht; repeat eexists; try exact He; cbn; rewrite ?Hst; done. }
    pose proof (recv_bounded s (wanted h) _ _ ltac:(lia) Hr) as Hd.
    destruct d as [|c d].
    { rewrite app_nil_r. repeat eexists; [apply exchange_closed, He|]. unfold closed. by rewrite Hst. }
    set (data := c :: d) in *. pose proof (feed_eats data h Hi) as Hfeed.
    pose proof (eats_wanted data h Hi Hst ltac:(lia)) as Hn.
    pose proof (eats_left data h Hi Hst ltac:(done)) as Hl. rewrite Hfeed.
    destruct (eats data h) as [h' n]. cbn [fst snd] in *. subst n.
    pose proof (exchange_read _ _ _ _ _ _ _ _ _ _ _ He Hfeed) as He'.
    assert (ztake (zlen data) data = data) as Ht by (apply take_ge; unfold zlen; lia). rewrite Ht in He'.
    apply IH; [exact He'|lia].
  - repeat eexists; [exact He|by rewrite Hst].
  - repeat eexists; [exact He|by rewrite Hst].
Qed.

(** [socks5_pump] returns: over any descriptor whose [send] and [recv] report
    counts within what they were given, 270 turns of its loop always suffice.
    What it moved is a legal continuation of the exchange - every byte it took
    from the descriptor was consumed by the handshake, so none of the peer's was
    swallowed - and it stops with an [errno] that is not transient, or with
    [want_write] set exactly when bytes are still queued. *)
Theorem pump_spec s sent got h (H : exchange inet_pton proxy cmd tgt p h sent got) fuel (Hf : (270 <= fuel)%nat) :
  pumped (socks5_pump (logged_send send) (logged_recv recv) EAGAIN EWOULDBLOCK EINTR fuel (s, sent, got) h).
Proof.
  apply pump_loop; [done|]. apply exchange_stage in H. destruct H as (_ & _ & Hi & _).
  pose proof (left_to_do_range h Hi). lia.
Qed.
End pump_theorem.

(** ** A concrete exchange *)

Definition no_literal (v : Version) (text : bytes) : option bytes := None.
Definition demo_proxy : ProxySettings :=
  mkProxySettings KindSocks5 (lit "proxy") 1080 (lit "me") (lit "secret") false false.
Definition demo_target : bytes := lit "example.com".
Definition demo_start : Socks5Handshake :=
  new_Socks5Handshake no_literal demo_proxy Connect demo_target 80.
Definition demo_reply : bytes := reply_frame (chr 0) (chr 0) ATYP_IPV4 [chr 10; chr 0; chr 0; chr 1] ++ net_port 1080.

(** What the proxy says, in the pieces it arrives in; the last one also holds
    the peer's first bytes. *)
Definition demo_reads : list bytes :=
  [[chr 5]; [chr 2; chr 1]; [chr 1; chr 0]; take 6 demo_reply; drop 6 demo_reply ++ lit "SSH"].

(** Writing all that is pending, then reading. *)
Definition demo_turn (h : Socks5Handshake) (data : bytes) : Socks5Handshake :=
  let h := consumeOutgoing (zlen (outgoing h)) h in
  match feed data h with Some (h, _) => h | None => h end.

Definition demo_h1 : Socks5Handshake := demo_turn demo_start [chr 5].
Definition demo_h2 : Socks5Handshake := demo_turn demo_h1 [chr 2].
Definition demo_h3 : Socks5Handshake := demo_turn demo_h2 [chr 1; chr 0].
Definition demo_h4 : Socks5Handshake := demo_turn demo_h3 (demo_reply ++ lit "SSH").

Lemma demo_exchange :
  exchange no_literal demo_proxy Connect demo_target 80 demo_h4
    (greeting demo_proxy ++ auth demo_proxy ++ request demo_start)
    ([chr 5; chr 2; chr 1; chr 0] ++ demo_reply).
Proof.
  pose proof (exchange_start no_literal demo_proxy Connect demo_target 80) as H.
  apply (exchange_write _ _ _ _ _ _ _ _ 4) in H; [|reflexivity|by vm_compute].
  apply (exchange_read _ _ _ _ _ _ _ _ [chr 5] demo_h1 1) in H; [|vm_compute; reflexivity].
  apply (exchange_read _ _ _ _ _ _ _ _ [chr 2] demo_h2 1) in H; [|vm_compute; reflexivity].
  apply (exchange_write _ _ _ _ _ _ _ _ 11) in H; [|reflexivity|by vm_compute].
  apply (exchange_read _ _ _ _ _ _ _ _ [chr 1; chr 0] demo_h3 2) in H; [|vm_compute; reflexivity].
  apply (exchange_write _ _ _ _ _ _ _ _ 18) in H; [|reflexivity|by vm_compute].
  apply (exchange_read _ _ _ _ _ _ _ _ (demo_reply ++ lit "SSH") demo_h4 10) in H; [|vm_compute; reflexivity].
  revert H. match goal with |- exchange _ _ _ _ _ _ ?a ?b -> exchange _ _ _ _ _ _ ?c ?d =>
    replace a with c by (vm_compute; reflexivity); replace b with d by (vm_compute; reflexivity) end.
  done.
Qed.

Lemma exchange_order_witness :
  status demo_h4 = Done /\ exists pre acc tail, accepted demo_proxy pre acc /\
    greeting demo_proxy ++ auth demo_proxy ++ request demo_start = pre ++ request demo_start /\
    [chr 5; chr 2; chr 1; chr 0] ++ demo_reply = acc ++ tail /\ granted (result demo_h4) tail.
Proof.
  split; [vm_compute; reflexivity|].
  apply (exchange_order no_literal demo_proxy Connect demo_target 80 demo_h4 _ _ demo_exchange).
  vm_compute; reflexivity.
Defined.

Lemma feed_segmentation_witness :
  wanted demo_start = 0 /\ exists h1 n1, feed (lit "x") demo_start = Some (h1, n1).
Proof.
  destruct (feed_segmentation no_literal demo_proxy Connect demo_target 80 demo_start [] [] (lit "x") []
    (exchange_start _ _ _ _ _)) as (_ & Hw & h1 & n1 & Hf & _).
  split; [apply Hw; vm_compute; discriminate|]. exists h1, n1. exact Hf.
Defined.

Lemma request_spec_witness :
  decode_request (request demo_start) = Some (1, ATYP_DOMAIN, demo_target, 80).
Proof.
  destruct (request_spec no_literal demo_proxy Connect demo_target 80 ltac:(lia)) as (_ & _ & H). exact H.
Defined.

Lemma local_peer_refused_witness :
  status (new_Socks5Handshake no_literal demo_proxy Connect (lit "printer.local") 631) = Failed.
Proof.
  refine (proj1 (local_peer_refused no_literal demo_proxy Connect (lit "printer.local") 631 _ [] []
    eq_refl _ (exchange_start _ _ _ _ _))).
  right. exists (lit "printer"), (lit ".local"). split; [reflexivity|]. left. vm_compute. reflexivity.
Defined.

(** A descriptor that takes every write and answers reads from a script. *)
Definition script_send (sd : list bytes) (d : bytes) : list bytes * (Z + Z) := (sd, inr (zlen d)).
Definition script_recv (sd : list bytes) (want : Z) : list bytes * (Z + bytes) :=
  match sd with
  | [] => ([], inl 11)
  | d :: sd => if zlen d <=? want then (sd, inr d) else (zdrop want d :: sd, inr (ztake want d))
  end.

Lemma pump_spec_witness :
  pumped 11 11 4 no_literal demo_proxy Connect demo_target 80
    (socks5_pump (logged_send script_send) (logged_recv script_recv) 11 11 4 270
       (demo_reads, [], []) demo_start).
Proof.
  apply (pump_spec script_send script_recv 11 11 4).
  - intros s d s' n [= _ <-]. pose proof (zlen_nonneg d). lia.
  - intros s want s' d Hw H. destruct s as [|d0 s]; [done|]. unfold script_recv in H.
    destruct (Z.leb_spec (zlen d0) want); injection H as _ <-; [done|]. rewrite zlen_take. lia.
  - apply exchange_start.
  - lia.
Defined.

(** Names that mean this host and are not recognised as such: a trailing dot
    makes an absolute name of [localhost] or of a [.local] name. *)
Lemma trailing_dot_not_local :
  is_local_name (lit "localhost.") = false /\ is_local_name (lit "printer.local.") = false.
Proof. by vm_compute. Qed.
