(* ===== verification/Heap.v ===== *)
(** * Heap: the heap algorithms of the C++ library

    What [std::push_heap] and [std::pop_heap] promise of a vector of entries
    ordered so that the least key comes first, as an interface: clients are
    verified against the laws, whatever order a library leaves equal keys in. An
    instance shows that the laws can be met. *)

From S2P Require Import Prelude.
From stdpp Require Import sorting.
#[local] Open Scope Z_scope.

Section heap.
Context {E : Type} (key : E -> Z).

(** Every element but the first has a parent at half its index, which comes no
    later. *)
Definition is_heap (l : list E) : Prop :=
  forall i c, l !! S i = Some c -> exists p, l !! (i / 2)%nat = Some p /\ key p <= key c.

Lemma heap_front e l : is_heap (e :: l) -> Forall (fun c => key e <= key c) (e :: l).
Proof.
  intros Hh. apply Forall_lookup. intros i. induction i as [i IH] using lt_wf_ind. intros c Hc.
  destruct i as [|i]; [by injection Hc as <-|]. destruct (Hh i c Hc) as (p & Hp & Hle).
  assert (i / 2 < S i)%nat as Hlt by (pose proof (Nat.Div0.div_le_upper_bound i 2 i); lia).
  pose proof (IH _ Hlt p Hp). lia.
Qed.

(** [push_heap] takes in the last element of a vector that is a heap before it;
    [pop_heap] moves the first element of a heap to the end. *)
Class HeapAlgorithms := {
  push_heap : list E -> list E;
  pop_heap : list E -> list E;
  push_heap_spec l e : is_heap l -> is_heap (push_heap (l ++ [e])) /\ push_heap (l ++ [e]) ≡ₚ l ++ [e];
  pop_heap_spec e l : is_heap (e :: l) -> exists l', pop_heap (e :: l) = l' ++ [e] /\ is_heap l' /\ l' ≡ₚ l
}.

(** A sorted vector is a heap. *)
Definition earlier (a b : E) : Prop := key a <= key b.
#[local] Instance earlier_dec : RelDecision earlier.
Proof. intros a b. unfold earlier. apply _. Defined.
#[local] Instance earlier_total : Total earlier.
Proof. intros a b. unfold earlier. lia. Qed.

Lemma strongly_sorted_lookup l : StronglySorted earlier l ->
  forall i j p c, (i < j)%nat -> l !! i = Some p -> l !! j = Some c -> earlier p c.
Proof.
  induction 1 as [|a l Hs IH Ha]; intros i j p c Hij Hp Hc; [done|].
  destruct j as [|j]; [lia|]. cbn in Hc. destruct i as [|i]; [|by apply (IH i j p c); [lia|..]].
  injection Hp as <-. by apply (Forall_lookup_1 _ _ _ _ Ha Hc).
Qed.

Lemma sorted_heap l : Sorted earlier l -> is_heap l.
Proof.
  intros Hs. assert (Transitive earlier) as Ht by (intros a b c; unfold earlier; lia).
  apply Sorted_StronglySorted in Hs; [|done]. intros i c Hc.
  assert (i / 2 < S i)%nat as Hlt by (pose proof (Nat.Div0.div_le_upper_bound i 2 i); lia).
  destruct (lookup_lt_is_Some_2 l (i / 2)) as [p Hp].
  { apply lookup_lt_Some in Hc. lia. }
  exists p. split; [done|]. by apply (strongly_sorted_lookup l Hs (i / 2) (S i)).
Qed.

Program Definition sorting_algorithms : HeapAlgorithms := {|
  push_heap l := merge_sort earlier l;
  pop_heap l := match l with [] => [] | e :: l => merge_sort earlier l ++ [e] end
|}.
Next Obligation. intros l e _. split; [apply sorted_heap, Sorted_merge_sort; apply _|apply merge_sort_Permutation]. Qed.
Next Obligation.
  intros e l _. exists (merge_sort earlier l). split; [done|].
  split; [apply sorted_heap, Sorted_merge_sort; apply _|apply merge_sort_Permutation].
Qed.
End heap.

Arguments HeapAlgorithms {E} key.
Arguments push_heap {E key HeapAlgorithms} _.
Arguments pop_heap {E key HeapAlgorithms} _.
Arguments push_heap_spec {E key HeapAlgorithms} l e _.
Arguments pop_heap_spec {E key HeapAlgorithms} e l _.
Arguments heap_front {E key} e l _.
