(* ===== verification/Timer.v ===== *)
(** * Timer: the timers of [src/timer.cpp]

    [Timer] objects at addresses that are reused, the [TimerManager] with its
    heap of entries and its set of live timers, and callbacks that construct,
    destroy and reset timers while [process] runs. A pointer that is followed to
    an object that is gone is [None], which the theorems exclude. Times are
    nanoseconds of the steady clock, and every call of [clock::now()] is an
    argument. The heap algorithms are those of any library that keeps [Heap]'s
    laws. *)

From S2P Require Import Prelude Heap.
From stdpp Require Import gmap sorting.
#[local] Open Scope Z_scope.

(** ** Data *)

(** Who is told: the listener, if there is one. *)
(* @src src/include/samurai/timer.h:64-76 Samurai::Timer *)
Record Timer := mkTimer {
  callback : option Z;
  single_shot : bool;
  interval : Z;
  due : Z;
  serial : Z
}.

(** An address stands for the pointer. *)
(* @src src/include/samurai/timer.h:118-126 Samurai::TimerManager::Entry *)
Record Entry := mkEntry { e_due : Z; e_timer : Z; e_serial : Z }.

(** The manager, the objects in memory and the counter the serials come from. *)
(* @src src/include/samurai/timer.h:131-132 Samurai::TimerManager *)
Record System := mkSystem {
  heap : list Entry;
  live : gset Z;
  objects : gmap Z Timer;
  counter : Z
}.

#[export] Instance Timer_eq_dec : EqDecision Timer.
Proof. solve_decision. Defined.
#[export] Instance Entry_eq_dec : EqDecision Entry.
Proof. solve_decision. Defined.

(** [std::chrono::milliseconds] and [seconds] as nanoseconds. *)
Definition milliseconds (n : Z) : Z := n * 1000000.

(** The conversion to [int]. *)
Definition int_cast (z : Z) : Z := (z + 2 ^ 31) mod 2 ^ 32 - 2 ^ 31.

Definition with_heap (h : list Entry) (s : System) : System := mkSystem h (live s) (objects s) (counter s).
Definition with_live (l : gset Z) (s : System) : System := mkSystem (heap s) l (objects s) (counter s).
Definition with_objects (o : gmap Z Timer) (s : System) : System := mkSystem (heap s) (live s) o (counter s).
Definition with_due (d : Z) (t : Timer) : Timer :=
  mkTimer (callback t) (single_shot t) (interval t) d (serial t).

Section timers.
Context {algorithms : HeapAlgorithms e_due}.

(** ** The manager *)

(* @src src/src/timer.cpp:120-131 Samurai::TimerManager::schedule *)
Definition schedule (timer : Z) (s : System) : option System :=
  t ← objects s !! timer;
  Some (with_heap (push_heap (heap s ++ [mkEntry (due t) timer (serial t)])) s).

(* @src src/src/timer.cpp:99-105 Samurai::TimerManager::add *)
Definition add (timer : Z) (s : System) : option System :=
  schedule timer (with_live ({[timer]} ∪ live s) s).

(* @src src/src/timer.cpp:108-117 Samurai::TimerManager::remove *)
Definition remove (timer : Z) (s : System) : System := with_live (live s ∖ {[timer]}) s.

(* @src src/src/timer.cpp:140-146 Samurai::TimerManager::current *)
Definition current (e : Entry) (s : System) : option bool :=
  if negb (bool_decide (e_timer e ∈ live s)) then Some false
  else
    t ← objects s !! e_timer e;
    Some (if negb (serial t =? e_serial e) then false else due t =? e_due e).

(** ** Timers *)

(** The allocator hands out an address where no object is. *)
(* @src src/src/timer.cpp:39-48 Samurai::Timer::Timer *)
Definition construct (timer : Z) (listener : option Z) (timeout : Z) (singleShot : bool) (now : Z)
    (s : System) : option System :=
  match objects s !! timer with
  | Some _ => None
  | None =>
      let number := u64 (counter s + 1) in
      let t := mkTimer listener singleShot timeout (now + milliseconds timeout) number in
      add timer (mkSystem (heap s) (live s) (<[timer := t]> (objects s)) number)
  end.

(* @src src/src/timer.cpp:27-36 Samurai::Timer::Timer *)
Definition construct_seconds (timer : Z) (listener : option Z) (timeout_seconds : Z) (singleShot : bool)
    (now : Z) (s : System) : option System :=
  construct timer listener (1000 * timeout_seconds) singleShot now s.

(* @src src/src/timer.cpp:51-55 Samurai::Timer::~Timer *)
Definition destruct_ (timer : Z) (s : System) : option System :=
  _ ← objects s !! timer;
  let s := remove timer s in Some (with_objects (delete timer (objects s)) s).

(* @src src/src/timer.cpp:58-64 Samurai::Timer::reset *)
Definition reset (timer : Z) (now : Z) (s : System) : option System :=
  t ← objects s !! timer;
  schedule timer (with_objects (<[timer := with_due (now + milliseconds (interval t)) t]> (objects s)) s).

(** What a client, and so a callback, may do. *)
Inductive Action :=
  | Construct (timer : Z) (listener : option Z) (timeout : Z) (singleShot : bool) (now : Z)
  | Destruct (timer : Z)
  | Reset (timer now : Z).

Definition act (a : Action) (s : System) : option System :=
  match a with
  | Construct timer listener timeout singleShot now => construct timer listener timeout singleShot now s
  | Destruct timer => destruct_ timer s
  | Reset timer now => reset timer now s
  end.

Fixpoint acts (l : list Action) (s : System) : option System :=
  match l with [] => Some s | a :: l => s ← act a s; acts l s end.

(** ** Firing *)

Inductive Event := Fire (timer : Z) (t : Timer) | Did (a : Action).

Section process.
(** What the listener does when its timer fires: any code, with a state of its
    own and knowing which objects exist. *)
Context {W : Type}.
Variable EventTimeout : Z -> Z -> W -> System -> W * list Action.

(** The system, the client and what happened. *)
(* @src src/src/timer.cpp:67-86 Samurai::Timer::internal_fire *)
Definition internal_fire (now timer : Z) (w : W) (s : System) : option (System * W * list Event) :=
  t ← objects s !! timer;
  s ← (if single_shot t then Some (remove timer s)
       else schedule timer
              (with_objects (<[timer := with_due (now + milliseconds (interval t)) t]> (objects s)) s));
  match callback t with
  | None => Some (s, w, [Fire timer t])
  | Some listener =>
      let '(w, did) := EventTimeout listener timer w s in
      s ← acts did s;
      Some (s, w, Fire timer t :: map Did did)
  end.

(** [None] also where the fuel runs out. *)
(* @src src/src/timer.cpp:153-162 Samurai::TimerManager::process *)
Fixpoint process_loop (fuel : nat) (now : Z) (w : W) (s : System) : option (System * W * list Event) :=
  match heap s with
  | [] => Some (s, w, [])
  | front :: _ =>
      if negb (e_due front <=? now) then Some (s, w, [])
      else
        match fuel with
        | O => None
        | S fuel =>
            let popped := pop_heap (heap s) in
            e ← last popped;
            let s := with_heap (removelast popped) s in
            c ← current e s;
            if negb c then process_loop fuel now w s
            else
              '(s, w, events) ← internal_fire now (e_timer e) w s;
              '(s, w, events') ← process_loop fuel now w s;
              Some (s, w, events ++ events')
        end
  end.

(* @src src/src/timer.cpp:149-163 Samurai::TimerManager::process *)
Definition process (now : Z) (w : W) (s : System) : option (System * W * list Event) :=
  process_loop (length (heap s)) now w s.
End process.

(** ** The next deadline *)

(** The loop over the heap: the deadline found, or [inr 0] for the early return. *)
(* @src src/src/timer.cpp:174-186 Samurai::TimerManager::timeToNext *)
Fixpoint nearest (l : list Entry) (now : Z) (best : option Z) (s : System) : option (option Z + Z) :=
  match l with
  | [] => Some (inl best)
  | e :: l =>
      c ← current e s;
      if negb c then nearest l now best s
      else if e_due e <=? now then Some (inr 0)
      else nearest l now (match best with
                          | None => Some (e_due e)
                          | Some b => if e_due e <? b then Some (e_due e) else Some b
                          end) s
  end.

(** [std::chrono::ceil] to milliseconds. *)
Definition ceil_milliseconds (d : Z) : Z := - ((- d) / 1000000).

(* @src src/src/timer.cpp:166-198 Samurai::TimerManager::timeToNext *)
Definition timeToNext (now : Z) (s : System) : option Z :=
  r ← nearest (heap s) now None s;
  Some (match r with
        | inr z => z
        | inl None => -1
        | inl (Some best) => int_cast (ceil_milliseconds (best - now))
        end).
End timers.

(** No timer yet. *)
(* @src src/src/timer.cpp:89-91 Samurai::TimerManager::TimerManager *)
Definition new_System : System := mkSystem [] ∅ ∅ 0.

(** ** The invariant *)

Section theory.
Context {algorithms : HeapAlgorithms e_due}.

(** Outside the [hole], every live timer has its entry in the heap. *)
Record wf_except (hole : Z -> Prop) (s : System) : Prop := mkWf {
  wf_heap : is_heap e_due (heap s);
  wf_live a : a ∈ live s -> is_Some (objects s !! a);
  wf_armed a t : a ∈ live s -> objects s !! a = Some t -> ~ hole a -> mkEntry (due t) a (serial t) ∈ heap s;
  wf_serial a t : objects s !! a = Some t -> serial t <= counter s;
  wf_unique a b t u : objects s !! a = Some t -> objects s !! b = Some u -> serial t = serial u -> a = b;
  wf_entry e : e ∈ heap s -> e_serial e <= counter s;
  wf_repeats a t : objects s !! a = Some t -> single_shot t = false -> 0 < interval t;
  wf_counter : 0 <= counter s
}.
Definition wf : System -> Prop := wf_except (fun _ => False).

Lemma wf_weaken (P Q : Z -> Prop) s : wf_except P s -> (forall a, P a -> Q a) -> wf_except Q s.
Proof. intros [] HPQ. constructor; eauto. Qed.

Lemma new_System_wf : wf new_System.
Proof. by constructor; cbn; try set_solver. Qed.

Lemma schedule_spec a t s :
  objects s !! a = Some t -> is_heap e_due (heap s) ->
  exists h, schedule a s = Some (with_heap h s) /\ is_heap e_due h /\ h ≡ₚ mkEntry (due t) a (serial t) :: heap s.
Proof.
  intros Ht Hh. unfold schedule. rewrite Ht. cbn [mbind option_bind].
  destruct (push_heap_spec (heap s) (mkEntry (due t) a (serial t)) Hh) as [H1 H2].
  eexists. split; [done|]. split; [done|]. rewrite H2. by rewrite Permutation_app_comm.
Qed.

(** Arming: whatever timer is put at [a] and scheduled, the hole at [a] closes. *)
Lemma rearm_wf a t n s (hole : Z -> Prop) :
  wf_except hole s -> (forall x, hole x -> x = a) ->
  serial t <= n -> counter s <= n -> (single_shot t = false -> 0 < interval t) ->
  (forall b u, objects s !! b = Some u -> serial u = serial t -> b = a) ->
  forall l, (forall x, x ∈ l -> x ∈ live s \/ x = a) ->
  exists h, schedule a (mkSystem (heap s) l (<[a := t]> (objects s)) n) =
      Some (mkSystem h l (<[a := t]> (objects s)) n) /\
    wf (mkSystem h l (<[a := t]> (objects s)) n) /\ h ≡ₚ mkEntry (due t) a (serial t) :: heap s.
Proof.
  intros [] Hhole Hn Hc Hrep Huniq l Hl.
  destruct (schedule_spec a t (mkSystem (heap s) l (<[a := t]> (objects s)) n)) as (h & E & H1 & H2);
    [cbn; by rewrite lookup_insert_eq|done|].
  exists h. split; [exact E|]. split; [|exact H2]. cbn in H2. constructor; cbn.
  - done.
  - intros x Hx. destruct (decide (a = x)) as [->|]; [by rewrite lookup_insert_eq|].
    rewrite lookup_insert_ne by done. destruct (Hl x Hx); [auto|congruence].
  - intros x u Hx Hu _. rewrite H2. apply elem_of_cons.
    destruct (decide (a = x)) as [->|Hne].
    + rewrite lookup_insert_eq in Hu. injection Hu as <-. by left.
    + rewrite lookup_insert_ne in Hu by done. right.
      destruct (Hl x Hx) as [Hx'|]; [|congruence]. apply wf_armed0; try done. intros Hh%Hhole. congruence.
  - intros x u. destruct (decide (a = x)) as [->|Hne].
    + rewrite lookup_insert_eq. by intros [= <-].
    + rewrite lookup_insert_ne by done. intros Hu%wf_serial0. lia.
  - intros x y u v Hu Hv Hs.
    destruct (decide (x = a)) as [->|Hx], (decide (y = a)) as [->|Hy]; try done;
      rewrite ?lookup_insert_eq in *; rewrite ?lookup_insert_ne in * by done; simplify_eq.
    + symmetry. by apply (Huniq y v).
    + by apply (Huniq x u).
    + by apply (wf_unique0 x y u v).
  - intros e. rewrite H2. intros [->|He]%elem_of_cons; [done|]. pose proof (wf_entry0 e He). lia.
  - intros x u. destruct (decide (a = x)) as [->|Hne].
    + rewrite lookup_insert_eq. by intros [= <-].
    + rewrite lookup_insert_ne by done. apply wf_repeats0.
  - lia.
Qed.

(** ** What callbacks do *)

(** An allocator gives out free addresses and there are fewer than [2 ^ 64]
    timers; objects are destroyed and reset while they exist; a repeating timer
    has a positive interval. *)
Definition permitted (a : Action) (s : System) : Prop :=
  match a with
  | Construct timer _ timeout singleShot _ =>
      objects s !! timer = None /\ (singleShot = false -> 0 < timeout) /\ counter s + 1 < 2 ^ 64
  | Destruct timer | Reset timer _ => is_Some (objects s !! timer)
  end.

(** The action arms its timer, if any, for after [now]. *)
Definition later (now : Z) (a : Action) (s : System) : Prop :=
  match a with
  | Construct _ _ timeout _ t => now < t + milliseconds timeout
  | Destruct _ => True
  | Reset timer t => forall u, objects s !! timer = Some u -> now < t + milliseconds (interval u)
  end.

Fixpoint permitted_all (now : Z) (l : list Action) (s : System) : Prop :=
  match l with
  | [] => True
  | a :: l => permitted a s /\ later now a s /\ forall s', act a s = Some s' -> permitted_all now l s'
  end.

(** The timer an action takes from its old deadline. *)
Definition disturbs (a : Action) (timer : Z) : Prop :=
  match a with Construct _ _ _ _ _ => False | Destruct x | Reset x _ => x = timer end.

(** What is due at [now] after was due before, unchanged; what was armed still
    is, unless [touched]; entries are only added, for later. *)
Record evolves (now : Z) (touched : Z -> Prop) (s s' : System) : Prop := mkEvolves {
  ev_heap : exists new, heap s' ≡ₚ new ++ heap s /\ Forall (fun e => now < e_due e) new;
  ev_back a t : a ∈ live s' -> objects s' !! a = Some t -> due t <= now -> a ∈ live s /\ objects s !! a = Some t;
  ev_keep a t : a ∈ live s -> objects s !! a = Some t -> (a ∈ live s' /\ objects s' !! a = Some t) \/ touched a
}.

Lemma evolves_refl now P s : evolves now P s s.
Proof. constructor; [by exists []|done|by left]. Qed.

Lemma evolves_trans now (P Q R : Z -> Prop) s s' s'' :
  evolves now P s s' -> evolves now Q s' s'' -> (forall a, P a -> R a) -> (forall a, Q a -> R a) ->
  evolves now R s s''.
Proof.
  intros [(n1 & H1 & F1) B1 K1] [(n2 & H2 & F2) B2 K2] HP HQ. constructor.
  - exists (n2 ++ n1). split; [by rewrite H2, H1, app_assoc|by apply Forall_app].
  - intros a t Ha Ht Hd. destruct (B2 a t Ha Ht Hd). by apply B1.
  - intros a t Ha Ht. destruct (K1 a t Ha Ht) as [[Ha' Ht']|]; [|by right; auto].
    destruct (K2 a t Ha' Ht') as [?|]; [by left|by right; auto].
Qed.

(** Arming [a] for later. *)
Lemma evolves_rearm now a t n s h l (P : Z -> Prop) :
  h ≡ₚ mkEntry (due t) a (serial t) :: heap s -> now < due t -> live s ⊆ l ->
  (forall x, x ∈ l -> x ∈ live s \/ x = a) -> (is_Some (objects s !! a) -> P a) ->
  evolves now P s (mkSystem h l (<[a := t]> (objects s)) n).
Proof.
  intros Hh Hd Hs Hl HP. constructor; cbn.
  - exists [mkEntry (due t) a (serial t)]. split; [done|]. by constructor.
  - intros x u Hx Hu Hdu. destruct (decide (x = a)) as [->|Hne].
    + rewrite lookup_insert_eq in Hu. injection Hu as <-. lia.
    + rewrite lookup_insert_ne in Hu by done. destruct (Hl x Hx); done.
  - intros x u Hx Hu. destruct (decide (x = a)) as [->|Hne]; [right; by apply HP|].
    left. rewrite lookup_insert_ne by done. split; [by apply Hs|done].
Qed.

Lemma act_spec a s :
  wf s -> permitted a s ->
  exists s', act a s = Some s' /\ wf s' /\ forall now, later now a s -> evolves now (disturbs a) s s'.
Proof.
  intros Hwf Hp. pose proof Hwf as [Hh Hl Ha Hs Hu He Hr Hc]. destruct a as [x c ms single t|x|x t]; cbn in *.
  - destruct Hp as (Hx & Hms & Hn). unfold construct. rewrite Hx.
    assert (u64 (counter s + 1) = counter s + 1) as -> by (apply Z.mod_small; lia).
    set (u := mkTimer _ _ _ _ _). unfold add, with_live. cbn [live objects heap counter].
    destruct (rearm_wf x u (counter s + 1) s (fun _ => False) Hwf ltac:(done) ltac:(cbn; lia) ltac:(lia) Hms)
      with (l := {[x]} ∪ live s) as (h & E & Hwf' & Hperm).
    + intros b v Hv Hsv. pose proof (Hs b v Hv). cbn in Hsv. lia.
    + set_solver.
    + eexists. split; [exact E|]. split; [exact Hwf'|]. intros now Hlat.
      apply evolves_rearm; [exact Hperm|exact Hlat|set_solver|set_solver|].
      rewrite Hx. by intros [? ?].
  - destruct Hp as [t Ht]. unfold destruct_, remove, with_live, with_objects. rewrite Ht. cbn. eexists. split; [done|].
    split.
    + constructor; cbn; try done.
      * intros y Hy. rewrite lookup_delete_ne by set_solver. apply Hl. set_solver.
      * intros y u Hy Hyu _. apply lookup_delete_Some in Hyu as [_ Hyu]. apply Ha; [set_solver|exact Hyu|by intros []].
      * intros y u Hyu. apply lookup_delete_Some in Hyu as [_ Hyu]. by apply (Hs y).
      * intros y z u v Hyu Hzv. apply lookup_delete_Some in Hyu as [_ Hyu].
        apply lookup_delete_Some in Hzv as [_ Hzv]. by apply Hu.
      * intros y u Hyu. apply lookup_delete_Some in Hyu as [_ Hyu]. by apply (Hr y).
    + intros now _. constructor; cbn; [by exists []| |].
      * intros y u Hy Hyu _. apply lookup_delete_Some in Hyu as [_ Hyu]. split; [set_solver|done].
      * intros y u Hy Hyu. destruct (decide (x = y)) as [->|Hne]; [by right|]. left.
        rewrite lookup_delete_ne by done. split; [set_solver|done].
  - destruct Hp as [u Ht]. unfold reset. rewrite Ht. cbn [mbind option_bind].
    set (v := with_due _ u).
    destruct (rearm_wf x v (counter s) s (fun _ => False) Hwf ltac:(done) (Hs x u Ht) ltac:(lia) (Hr x u Ht))
      with (l := live s) as (h & E & Hwf' & Hperm).
    + intros b w Hw Hsw. by apply (Hu b x w u).
    + by left.
    + eexists. split; [exact E|]. split; [exact Hwf'|]. intros now Hlat.
      apply evolves_rearm; [exact Hperm|by apply (Hlat u)|done|by left|done].
Qed.

Definition disturbed (l : list Action) (timer : Z) : Prop := exists a, a ∈ l /\ disturbs a timer.

Lemma acts_spec now l : forall s,
  wf s -> permitted_all now l s ->
  exists s', acts l s = Some s' /\ wf s' /\ evolves now (disturbed l) s s'.
Proof.
  induction l as [|a l IH]; intros s Hwf Hp.
  - exists s. split; [done|]. split; [done|apply evolves_refl].
  - destruct Hp as (Hp & Hlat & Hrest). destruct (act_spec a s Hwf Hp) as (s1 & E1 & Hwf1 & Hev1).
    destruct (IH s1 Hwf1 (Hrest s1 E1)) as (s2 & E2 & Hwf2 & Hev2).
    exists s2. cbn [acts]. rewrite E1. split; [exact E2|]. split; [exact Hwf2|].
    eapply evolves_trans; [by apply Hev1|exact Hev2| |].
    + intros x Hx. exists a. split; [by left|done].
    + intros x (b & Hb & Hx). exists b. split; [by right|done].
Qed.

(** ** Firing *)

(** What [internal_fire] does before it calls: the timer is not due any more. *)
Lemma bookkeeping_spec now a t s :
  wf_except (fun x => x = a) s -> a ∈ live s -> objects s !! a = Some t ->
  exists s', (if single_shot t then Some (remove a s)
       else schedule a (with_objects (<[a := with_due (now + milliseconds (interval t)) t]> (objects s)) s)) = Some s' /\
    wf s' /\ evolves now (fun x => x = a) s s' /\
    (forall u, a ∈ live s' -> objects s' !! a = Some u -> now < due u).
Proof.
  intros Hwf Hlive Ht. pose proof Hwf as [Hh Hl Ha Hs Hu He Hr Hc]. destruct (single_shot t) eqn:Et.
  - exists (remove a s). split; [done|]. unfold remove, with_live. cbn. split; [|split].
    + constructor; cbn; try done.
      * intros x Hx. apply Hl. set_solver.
      * intros x u Hx Hxu _. apply Ha; [set_solver|exact Hxu|set_solver].
    + constructor; cbn; [by exists []| |].
      * intros x u Hx Hxu _. split; [set_solver|done].
      * intros x u Hx Hxu. destruct (decide (x = a)); [by right|left]. split; [set_solver|done].
    + intros u Hx. set_solver.
  - set (v := with_due _ t).
    assert (now < due v) as Hdue.
    { pose proof (Hr a t Ht Et). unfold v, with_due, milliseconds. cbn. lia. }
    destruct (rearm_wf a v (counter s) s (fun x => x = a) Hwf ltac:(done) (Hs a t Ht) ltac:(lia) (Hr a t Ht))
      with (l := live s) as (h & E & Hwf' & Hperm).
    + intros b w Hw Hsw. by apply (Hu b a w t).
    + by left.
    + eexists. split; [exact E|]. split; [exact Hwf'|]. split.
      * by apply evolves_rearm; [| |done|left|].
      * cbn. intros u _. rewrite lookup_insert_eq. by intros [= <-].
Qed.

Section process_spec.
Context {W : Type} (EventTimeout : Z -> Z -> W -> System -> W * list Action) (now : Z).
(** Listeners do what is permitted, and arm timers for later only. *)
Hypothesis client : forall listener a w s,
  wf s -> permitted_all now (snd (EventTimeout listener a w s)) s.

Lemma internal_fire_spec a t w s :
  wf_except (fun x => x = a) s -> a ∈ live s -> objects s !! a = Some t ->
  exists s' w' did, internal_fire EventTimeout now a w s = Some (s', w', Fire a t :: map Did did) /\ wf s' /\
    evolves now (fun x => x = a \/ disturbed did x) s s' /\
    (forall u, a ∈ live s' -> objects s' !! a = Some u -> now < due u).
Proof.
  intros Hwf Hlive Ht. unfold internal_fire. rewrite Ht. cbn [mbind option_bind].
  destruct (bookkeeping_spec now a t s Hwf Hlive Ht) as (s1 & -> & Hwf1 & Hev1 & Hlate). cbn [mbind option_bind].
  destruct (callback t) as [c|].
  - pose proof (client c a w s1 Hwf1) as Hp. destruct (EventTimeout c a w s1) as [w' did]. cbn [snd] in Hp.
    destruct (acts_spec now did s1 Hwf1 Hp) as (s2 & -> & Hwf2 & Hev2). cbn [mbind option_bind].
    exists s2, w', did. split; [done|]. split; [done|]. split.
    + eapply evolves_trans; [exact Hev1|exact Hev2|by left|by right].
    + intros u Hx Hu. destruct (Z.lt_ge_cases now (due u)) as [|Hge]; [done|].
      destruct (ev_back _ _ _ _ Hev2 a u Hx Hu Hge) as [H1 H2]. by apply Hlate.
  - exists s1, w, []. split; [done|]. split; [done|]. split; [|done].
    eapply evolves_trans; [exact Hev1|apply (evolves_refl now (fun _ => False))|by left|done].
Qed.

(** [current] follows no dangling pointer and tells whether the entry is that of
    a timer that lives, unchanged since. *)
Lemma current_spec (hole : Z -> Prop) e s :
  wf_except hole s -> exists c, current e s = Some c /\
    (c = true <-> e_timer e ∈ live s /\ exists t, objects s !! e_timer e = Some t /\
                    serial t = e_serial e /\ due t = e_due e).
Proof.
  intros [_ Hl _ _ _ _ _ _]. unfold current.
  destruct (bool_decide_reflect (e_timer e ∈ live s)) as [Hin|Hin]; cbn [negb].
  2:{ exists false. split; [done|]. split; [done|]. by intros [? _]. }
  destruct (Hl _ Hin) as [t Ht]. rewrite Ht. cbn [mbind option_bind]. eexists. split; [done|].
  destruct (Z.eqb_spec (serial t) (e_serial e)) as [E|E]; cbn [negb].
  - rewrite Z.eqb_eq. split; [|intros (_ & u & [= <-] & _ & ?); done]. intros Hd. split; [done|]. by exists t.
  - split; [done|]. intros (_ & u & [= <-] & ? & _). done.
Qed.

(** Popping the front leaves a hole only where its entry was current. *)
Lemma pop_spec e l s :
  wf s -> heap s = e :: l ->
  exists h, last (pop_heap (heap s)) = Some e /\ removelast (pop_heap (heap s)) = h /\ h ≡ₚ l /\
    wf_except (fun x => x = e_timer e /\ current e s = Some true) (with_heap h s).
Proof.
  intros Hwf El. pose proof Hwf as [Hh Hl Ha Hs Hu He Hr Hc]. rewrite El in *.
  destruct (pop_heap_spec e l Hh) as (h & E & H1 & H2). exists h. rewrite E.
  rewrite last_snoc, removelast_last. split; [done|]. split; [done|]. split; [done|].
  constructor; cbn; try done.
  - intros x t Hx Ht Hnot. rewrite H2. pose proof (Ha x t Hx Ht) as Hin. rewrite elem_of_cons in Hin.
    destruct Hin as [Eq|Hin]; [by intros []| |done]. destruct Hnot. rewrite <- Eq. split; [done|].
    destruct (current_spec (fun _ => False) (mkEntry (due t) x (serial t)) s Hwf) as (c & -> & Hcur). f_equal.
    apply Hcur. split; [done|]. by exists t.
  - intros e' He'. apply He. rewrite elem_of_cons. right. by rewrite <- H2.
Qed.

(** ** A pass *)

(** The timers that fired, as they were when they did, and what was done by
    their listeners. *)
Definition fires (events : list Event) : list (Z * Timer) :=
  omap (fun e => match e with Fire a t => Some (a, t) | Did _ => None end) events.
Definition done_by (events : list Event) : list Action :=
  omap (fun e => match e with Fire _ _ => None | Did a => Some a end) events.

Lemma fires_round a t l events : fires ((Fire a t :: map Did l) ++ events) = (a, t) :: fires events.
Proof. unfold fires. rewrite omap_app. cbn. f_equal. by induction l. Qed.

Lemma done_by_round a t l events : done_by ((Fire a t :: map Did l) ++ events) = l ++ done_by events.
Proof. unfold done_by. rewrite omap_app. cbn. f_equal. induction l as [|b l IH]; [done|]. cbn. by rewrite IH. Qed.

(** The entries that a pass has still to pop. *)
Definition pending (l : list Entry) : nat := length (filter (fun e => e_due e <= now) l).

Lemma pending_perm l l' : l ≡ₚ l' -> pending l = pending l'.
Proof. intros H. unfold pending. by rewrite H. Qed.

Lemma pending_app l l' : pending (l ++ l') = (pending l + pending l')%nat.
Proof. unfold pending. by rewrite filter_app, length_app. Qed.

Lemma pending_later l : Forall (fun e => now < e_due e) l -> pending l = 0%nat.
Proof.
  induction 1 as [|e l He _ IH]; [done|]. unfold pending in *. rewrite filter_cons_False by lia. done.
Qed.

Lemma pending_le l : (pending l <= length l)%nat.
Proof. apply length_filter. Qed.

(** What a pass over [s], none of whose deadlines is before [lo], comes to. *)
Record pass (lo : Z) (s s' : System) (events : list Event) : Prop := mkPass {
  pass_wf : wf s';
  pass_rest : Forall (fun e => now < e_due e) (heap s');
  pass_fired a t : (a, t) ∈ fires events -> a ∈ live s /\ objects s !! a = Some t /\ lo <= due t <= now;
  pass_sorted : StronglySorted (fun x y => due x.2 <= due y.2) (fires events);
  pass_once : NoDup (fires events).*1;
  pass_all a t : a ∈ live s -> objects s !! a = Some t -> due t <= now ->
    (a, t) ∈ fires events \/ disturbed (done_by events) a
}.

(** Nothing is due. *)
Lemma pass_none lo s : wf s -> Forall (fun e => now < e_due e) (heap s) -> pass lo s s [].
Proof.
  intros Hwf Hrest. constructor; cbn; [done|done| |constructor|constructor|].
  - intros a t Hin. set_solver.
  - intros a t Ha Ht Hd. pose proof (wf_armed _ s Hwf a t Ha Ht ltac:(by intros [])) as Hin.
    apply (proj1 (Forall_forall _ _) Hrest) in Hin. cbn in Hin. lia.
Qed.

Lemma pass_fire lo e h s s2 s' a t l events :
  wf s -> a ∈ live s -> objects s !! a = Some t -> due t = e_due e -> lo <= e_due e <= now ->
  evolves now (fun x => x = a \/ disturbed l x) (with_heap h s) s2 ->
  (forall u, a ∈ live s2 -> objects s2 !! a = Some u -> now < due u) ->
  pass (e_due e) s2 s' events ->
  pass lo s s' ((Fire a t :: map Did l) ++ events).
Proof.
  intros Hwf Ha Ht Hd Hlo [_ Hback Hkeep] Hlate [H1 H2 H3 H4 H5 H6].
  constructor; rewrite ?fires_round, ?done_by_round; [done|done| | | |].
  - intros x u [[= -> ->]|Hin]%elem_of_cons; [split; [done|]; split; [done|lia]|].
    destruct (H3 x u Hin) as (Hx & Hu & Hdu). destruct (Hback x u Hx Hu) as [Hx' Hu']; [lia|].
    split; [done|]. split; [done|lia].
  - constructor; [done|]. apply Forall_forall. intros [x u] Hin. cbn. destruct (H3 x u Hin) as (_ & _ & ?). lia.
  - cbn [fmap list_fmap fst]. constructor; [|done]. intros ([x u] & Hx & Hin)%list_elem_of_fmap. cbn in Hx. subst x.
    destruct (H3 a u Hin) as (Hx & Hu & ?). pose proof (Hlate u Hx Hu). lia.
  - intros x u Hx Hu Hdu. destruct (decide (x = a)) as [->|Hne].
    { left. rewrite Ht in Hu. injection Hu as <-. by left. }
    destruct (Hkeep x u Hx Hu) as [[Hx2 Hu2]|[?|(b & Hb & Hbx)]]; [|done|].
    + destruct (H6 x u Hx2 Hu2 Hdu) as [Hin|(b & Hb & Hbx)]; [left; by right|].
      right. exists b. split; [|done]. apply elem_of_app. by right.
    + right. exists b. split; [|done]. apply elem_of_app. by left.
Qed.

Lemma process_loop_spec fuel : forall lo w s,
  wf s -> Forall (fun e => lo <= e_due e) (heap s) -> (pending (heap s) <= fuel)%nat ->
  exists s' w' events, process_loop EventTimeout fuel now w s = Some (s', w', events) /\ pass lo s s' events.
Proof.
  induction fuel as [|fuel IH]; intros lo w s Hwf Hlo Hf.
  all: destruct (heap s) as [|e l] eqn:Eh; cbn [process_loop]; rewrite Eh;
    [exists s, w, []; split; [done|]; apply pass_none; [done|by rewrite Eh]|].
  all: pose proof (wf_heap _ _ Hwf) as Hheap; rewrite Eh in Hheap; pose proof (heap_front e l Hheap) as Hfront.
  all: destruct (Z.leb_spec (e_due e) now) as [Hdue|Hdue]; cbn [negb];
    [|exists s, w, []; split; [done|]; apply pass_none; [done|];
      rewrite Eh; apply (Forall_impl _ _ _ Hfront); intros; lia].
  { unfold pending in Hf. rewrite filter_cons_True in Hf by done. cbn in Hf. lia. }
  apply Forall_cons in Hlo as [Hloe Hlol].
  destruct (pop_spec e l s Hwf Eh) as (h & El & Er & Hperm & Hwf1). rewrite <- Eh, El, Er. cbn [mbind option_bind].
  assert (pending l <= fuel)%nat as Hfl.
  { unfold pending in *. rewrite filter_cons_True in Hf by done. cbn in Hf. lia. }
  change (current e (with_heap h s)) with (current e s).
  destruct (current_spec (fun _ => False) e s Hwf) as (c & Ec & Hc). rewrite Ec in Hwf1 |- *. cbn [mbind option_bind].
  destruct c; cbn [negb].
  - destruct (proj1 Hc eq_refl) as (Hlive & t & Ht & Hser & Hd).
    destruct (internal_fire_spec (e_timer e) t w (with_heap h s)) as (s2 & w2 & l2 & E2 & Hwf2 & Hev & Hlate); [|done|done|].
    { apply (wf_weaken _ _ _ Hwf1). by intros x [-> _]. }
    rewrite E2. cbn [mbind option_bind].
    destruct (ev_heap _ _ _ _ Hev) as (new & Hnew & Hnewd). cbn [heap with_heap] in Hnew.
    destruct (IH (e_due e) w2 s2 Hwf2) as (s' & w' & events & E' & Hpass).
    + rewrite Hnew, Hperm. apply Forall_app. split; [|by apply Forall_cons in Hfront as [_ ?]].
      apply (Forall_impl _ _ _ Hnewd). intros. lia.
    + rewrite (pending_perm _ _ Hnew), pending_app, (pending_later new Hnewd), (pending_perm _ _ Hperm). lia.
    + rewrite E'. cbn [mbind option_bind]. do 3 eexists. split; [done|]. by eapply pass_fire.
  - destruct (IH lo w (with_heap h s)) as (s' & w' & events & E' & Hpass).
    + apply (wf_weaken _ _ _ Hwf1). by intros x [_ ?].
    + cbn. by rewrite Hperm.
    + change (pending h <= fuel)%nat. by rewrite (pending_perm _ _ Hperm).
    + rewrite E'. do 3 eexists. split; [done|]. by destruct Hpass.
Qed.
End process_spec.

(** ** The next deadline *)

Definition is_current (s : System) (e : Entry) : Prop := current e s = Some true.

Lemma nearest_spec now s l : forall best,
  wf s -> exists r, nearest l now best s = Some r /\
  match r with
  | inr z => z = 0 /\ exists e, e ∈ l /\ is_current s e /\ e_due e <= now
  | inl found =>
      (forall e, e ∈ l -> is_current s e -> now < e_due e) /\
      match found with
      | None => best = None /\ forall e, e ∈ l -> ~ is_current s e
      | Some b => (best = Some b \/ exists e, e ∈ l /\ is_current s e /\ e_due e = b) /\
          (forall e, e ∈ l -> is_current s e -> b <= e_due e) /\ (forall b', best = Some b' -> b <= b')
      end
  end.
Proof.
  induction l as [|e l IH]; intros best Hwf.
  - exists (inl best). split; [done|]. split; [intros e He; set_solver|]. destruct best as [b|].
    + split; [by left|]. split; [intros e He; set_solver|]. by intros b' [= ->].
    + split; [done|]. intros e He. set_solver.
  - cbn [nearest]. destruct (current_spec (fun _ => False) e s Hwf) as (c & Ec & _). rewrite Ec. cbn [mbind option_bind].
    destruct c; cbn [negb].
    + destruct (Z.leb_spec (e_due e) now) as [Hd|Hd].
      { exists (inr 0). split; [done|]. split; [done|]. exists e. split; [by left|]. done. }
      set (best' := match best with None => _ | Some b => _ end).
      assert (exists b, best' = Some b /\ b <= e_due e /\ (best = Some b \/ b = e_due e) /\
        forall b', best = Some b' -> b <= b') as (b & Eb & Hb1 & Hb2 & Hb3).
      { unfold best'. destruct best as [b|]; [destruct (Z.ltb_spec (e_due e) b)|]; eexists; (split; [done|]);
          (split; [lia|]); (split; [by auto|]); intros b' [= ->]; lia. }
      destruct (IH best' Hwf) as (r & Er & Hr). exists r. split; [done|]. clear IH. rewrite Eb in Hr. clearbody best'.
      destruct r as [found|z].
      * destruct Hr as [Hlate Hr]. split; [intros e' [->|He']%elem_of_cons; auto|].
        destruct found as [b0|]; [|by destruct Hr]. destruct Hr as (Hsrc & Hmin & Hle). pose proof (Hle b eq_refl).
        split; [|split].
        -- destruct Hsrc as [[= <-]|(e' & He' & Hce & <-)].
           ++ destruct Hb2 as [?|Hb2]; [by left|]. right. exists e. split; [by left|]. by split.
           ++ right. exists e'. split; [by right|]. by split.
        -- intros e' [->|He']%elem_of_cons Hce; [lia|auto].
        -- intros b' Hb'. pose proof (Hb3 b' Hb'). lia.
      * destruct Hr as (-> & e' & He' & ?). split; [done|]. exists e'. split; [by right|done].
    + destruct (IH best Hwf) as (r & Er & Hr). exists r. split; [done|]. clear IH.
      assert (~ is_current s e) as Hn by (unfold is_current; congruence).
      destruct r as [found|z].
      * destruct Hr as [Hlate Hr]. split; [intros e' [->|He']%elem_of_cons; [done|auto]|].
        destruct found as [b0|].
        -- destruct Hr as (Hsrc & Hmin & Hle). split; [|split; [|done]].
           ++ destruct Hsrc as [?|(e' & He' & ?)]; [by left|]. right. exists e'. split; [by right|done].
           ++ intros e' [->|He']%elem_of_cons; [done|auto].
        -- destruct Hr as [-> Hr]. split; [done|]. intros e' [->|He']%elem_of_cons; [done|auto].
      * destruct Hr as (-> & e' & He' & ?). split; [done|]. exists e'. split; [by right|done].
Qed.

(** A timer that counts: it exists and is registered. *)
Definition armed (s : System) (a : Z) (t : Timer) : Prop := a ∈ live s /\ objects s !! a = Some t.

Lemma armed_current s a t : wf s -> armed s a t ->
  mkEntry (due t) a (serial t) ∈ heap s /\ is_current s (mkEntry (due t) a (serial t)).
Proof.
  intros Hwf [Ha Ht]. split; [apply (wf_armed _ s Hwf a t Ha Ht); by intros []|].
  destruct (current_spec (fun _ => False) (mkEntry (due t) a (serial t)) s Hwf) as (c & Ec & Hc).
  unfold is_current. rewrite Ec. f_equal. apply Hc. cbn. split; [done|]. by exists t.
Qed.

Lemma current_armed s e : wf s -> is_current s e -> exists t, armed s (e_timer e) t /\ due t = e_due e.
Proof.
  intros Hwf He. destruct (current_spec (fun _ => False) e s Hwf) as (c & Ec & Hc). unfold is_current in He.
  rewrite Ec in He. injection He as ->. destruct (proj1 Hc eq_refl) as (Ha & t & Ht & _ & Hd). by exists t.
Qed.

Lemma ceil_milliseconds_spec d :
  0 < d <= milliseconds (2 ^ 31 - 1) ->
  let r := int_cast (ceil_milliseconds d) in 0 < r /\ d <= milliseconds r /\ milliseconds (r - 1) < d.
Proof.
  unfold milliseconds, ceil_milliseconds. intros Hd. cbv zeta.
  assert (0 < - (- d / 1000000) <= 2 ^ 31 - 1) as Hr by div_lia.
  assert (int_cast (- (- d / 1000000)) = - (- d / 1000000)) as ->.
  { unfold int_cast. rewrite Z.mod_small by lia. lia. }
  div_lia.
Qed.

(** ** Reachable systems *)

(** Listeners that do what is permitted, and arm timers for later only. *)
Definition well_behaved {W : Type} (EventTimeout : Z -> Z -> W -> System -> W * list Action) (now : Z) : Prop :=
  forall listener a w s, wf s -> permitted_all now (snd (EventTimeout listener a w s)) s.

Inductive reachable : System -> Prop :=
  | reach_new : reachable new_System
  | reach_act a s s' : reachable s -> permitted a s -> act a s = Some s' -> reachable s'
  | reach_process {W : Type} (EventTimeout : Z -> Z -> W -> System -> W * list Action) now w s s' w' events :
      reachable s -> well_behaved EventTimeout now ->
      process EventTimeout now w s = Some (s', w', events) -> reachable s'.

Lemma reach_acts now l : forall s s', reachable s -> permitted_all now l s -> acts l s = Some s' -> reachable s'.
Proof.
  induction l as [|a l IH]; intros s s' Hs Hp E; [by injection E as <-|].
  destruct Hp as (Hp & _ & Hrest). cbn [acts] in E. destruct (act a s) as [s1|] eqn:E1; [|done].
  apply (IH s1); [by eapply reach_act|by apply Hrest|done].
Qed.

Lemma process_spec {W : Type} (EventTimeout : Z -> Z -> W -> System -> W * list Action) now w s :
  wf s -> well_behaved EventTimeout now ->
  exists s' w' events lo, process EventTimeout now w s = Some (s', w', events) /\ pass now lo s s' events.
Proof.
  intros Hwf Hb. assert (exists lo, Forall (fun e => lo <= e_due e) (heap s)) as [lo Hlo].
  { destruct (heap s) as [|e l] eqn:E; [by exists 0|]. exists (e_due e). apply heap_front. rewrite <- E. by apply Hwf. }
  destruct (process_loop_spec EventTimeout now Hb (length (heap s)) lo w s Hwf Hlo (pending_le _ _))
    as (s' & w' & events & E & Hp). by exists s', w', events, lo.
Qed.

Lemma reachable_wf s : reachable s -> wf s.
Proof.
  induction 1 as [|a s s' _ Hwf Hp E|W ET now w s s' w' events _ Hwf Hb E].
  - apply new_System_wf.
  - destruct (act_spec a s Hwf Hp) as (s1 & E1 & Hwf1 & _). congruence.
  - destruct (process_spec ET now w s Hwf Hb) as (s1 & w1 & ev & lo & E1 & Hp). rewrite E in E1.
    injection E1 as -> _ _. by apply Hp.
Qed.
End theory.

(** ** Properties *)

(** C29. A pass over the timers, with clients that keep to [permitted] - addresses of new
    timers are free, those that are destroyed or reset exist, a repeating timer has a
    positive interval ([zero_interval_never_returns] shows why), and fewer than 2^64 are
    ever made - and listeners that besides arm timers only for after the time of the pass
    ([later]). From any system that constructing, destroying and resetting timers and
    earlier passes lead to, with listeners that may meanwhile destroy or reset timers the
    pass has not come to, their own included, and put new ones at their addresses,
    [process] returns and follows no dangling pointer. Every timer that was due fires,
    unless a listener destroyed or reset it first; no other does, none does twice, and
    they fire in the order of their deadlines. Afterwards no registered timer is due. *)
Theorem process_fires {algorithms : HeapAlgorithms e_due} {W : Type}
    (EventTimeout : Z -> Z -> W -> System -> W * list Action) now w s
    (Hs : reachable s) (Hclient : well_behaved EventTimeout now) :
  exists s' w' events, process EventTimeout now w s = Some (s', w', events) /\
    (forall a t, armed s a t -> due t <= now -> (a, t) ∈ fires events \/ disturbed (done_by events) a) /\
    (forall a t, (a, t) ∈ fires events -> armed s a t /\ due t <= now) /\
    NoDup (fires events).*1 /\
    StronglySorted (fun x y => due x.2 <= due y.2) (fires events) /\
    (forall a t, armed s' a t -> now < due t) /\ reachable s'.
Proof.
  destruct (process_spec EventTimeout now w s (reachable_wf s Hs) Hclient) as (s' & w' & events & lo & E & Hp).
  exists s', w', events. split; [done|]. split; [|split; [|split; [|split; [|split]]]].
  - intros a t [Ha Ht]. by apply Hp.
  - intros a t Hin. destruct (pass_fired _ _ _ _ _ Hp a t Hin) as (? & ? & ? & ?). done.
  - apply Hp.
  - apply Hp.
  - intros a t Hat. destruct (armed_current s' a t (pass_wf _ _ _ _ _ Hp) Hat) as [Hin _].
    apply (proj1 (Forall_forall _ _) (pass_rest _ _ _ _ _ Hp)) in Hin. exact Hin.
  - by eapply reach_process.
Qed.

(** [timeToNext] is the time to wait: -1 when no timer is armed, 0 when one is
    due, and otherwise the time to the earliest deadline rounded up - a deadline
    less than 2^31 milliseconds off has passed after that wait, and not a
    millisecond earlier. *)
Theorem timeToNext_spec {algorithms : HeapAlgorithms e_due} now s (Hs : reachable s) :
  exists r, timeToNext now s = Some r /\
    ((r = -1 /\ forall a t, ~ armed s a t) \/
     (r = 0 /\ exists a t, armed s a t /\ due t <= now) \/
     (exists a t, armed s a t /\ (forall b u, armed s b u -> due t <= due u) /\ now < due t /\
        (due t - now <= milliseconds (2 ^ 31 - 1) ->
         0 < r /\ due t <= now + milliseconds r /\ now + milliseconds (r - 1) < due t))).
Proof.
  pose proof (reachable_wf s Hs) as Hwf. unfold timeToNext.
  destruct (nearest_spec now s (heap s) None Hwf) as (r & -> & Hr). cbn [mbind option_bind]. eexists. split; [done|].
  destruct r as [[b|]|z].
  - right. right. destruct Hr as (Hlate & [Hn|(e & He & Hc & <-)] & Hmin & _); [discriminate Hn|].
    destruct (current_armed s e Hwf Hc) as (t & Hat & Hd). exists (e_timer e), t.
    pose proof (Hlate e He Hc). rewrite <- Hd in *. split; [done|]. split; [|split; [lia|]].
    + intros a u Hau. destruct (armed_current s a u Hwf Hau) as [Hin Hcu]. by apply (Hmin _ Hin Hcu).
    + intros Hlim. destruct (ceil_milliseconds_spec (due t - now) ltac:(lia)) as (H1 & H2 & H3). splits; lia.
  - left. destruct Hr as (_ & _ & Hnone). split; [done|]. intros a t Hat.
    destruct (armed_current s a t Hwf Hat) as [Hin Hcu]. by apply (Hnone _ Hin).
  - right. left. destruct Hr as (-> & e & He & Hc & Hd). split; [done|].
    destruct (current_armed s e Hwf Hc) as (t & Hat & Hdt). exists (e_timer e), t. split; [done|lia].
Qed.

(** ** A run *)

#[local] Existing Instance sorting_algorithms.

(** Timer 10 destroys timer 20 when it fires; 30 repeats. *)
Definition demo_actions : list Action :=
  [Construct 10 (Some 1) 5 true 0; Construct 20 (Some 2) 7 true 0; Construct 30 None 3 false 0].
Definition demo_listener (listener a : Z) (w : unit) (s : System) : unit * list Action :=
  (w, match objects s !! 20 with Some _ => if listener =? 1 then [Destruct 20] else [] | None => [] end).

Lemma demo_listener_behaves now : well_behaved demo_listener now.
Proof.
  intros l a w s _. unfold demo_listener. cbn. destruct (objects s !! 20) eqn:E; [|done].
  destruct (l =? 1); [|done]. cbn. split; [by rewrite E|]. by split.
Qed.

Definition demo_system : System := default new_System (acts demo_actions new_System).

Lemma demo_reachable : reachable demo_system.
Proof.
  apply (reach_acts (-1) demo_actions new_System); [apply reach_new| |vm_compute; reflexivity].
  unfold demo_actions. cbn [permitted_all].
  do 3 (split; [by vm_compute|]; split; [by vm_compute|]; intros ? [= <-]). done.
Qed.

Example demo_pass :
  (fun r => map fst (fires (snd r))) <$> process demo_listener (milliseconds 10) tt demo_system = Some [30; 10] /\
  timeToNext (milliseconds 1) demo_system = Some 2.
Proof. vm_compute. split; reflexivity. Qed.

Lemma process_fires_witness :
  exists s' events, process demo_listener (milliseconds 10) tt demo_system = Some (s', tt, events) /\
    forall a t, armed s' a t -> milliseconds 10 < due t.
Proof.
  destruct (process_fires demo_listener (milliseconds 10) tt demo_system demo_reachable
    (demo_listener_behaves (milliseconds 10))) as (s' & [] & events & E & _ & _ & _ & _ & H & _).
  exists s', events. split; [exact E|exact H].
Defined.

Lemma timeToNext_spec_witness : exists r, timeToNext (milliseconds 1) demo_system = Some r.
Proof. destruct (timeToNext_spec (milliseconds 1) demo_system demo_reachable) as (r & E & _). exists r. exact E. Defined.

(** ** What the model shows beside the properties *)

(** A repeating timer of no interval is due again as soon as it has fired: the
    pass never ends. *)
Definition busy_system : System := default new_System (act (Construct 1 None 0 false 0) new_System).
Lemma zero_interval_never_returns fuel : process_loop demo_listener fuel 0 tt busy_system = None.
Proof.
  induction fuel as [|fuel IH]; [vm_compute; reflexivity|].
  assert (heap busy_system = [mkEntry 0 1 1]) as E by (vm_compute; reflexivity).
  cbn [process_loop]. rewrite E. cbn [e_due Z.leb Z.compare negb].
  change (pop_heap [mkEntry 0 1 1]) with [mkEntry 0 1 1]. cbn [last removelast mbind option_bind].
  assert (current (mkEntry 0 1 1) (with_heap [] busy_system) = Some true) as -> by (vm_compute; reflexivity).
  cbn [mbind option_bind negb].
  assert (internal_fire demo_listener 0 1 tt (with_heap [] busy_system) =
    Some (busy_system, tt, [Fire 1 (mkTimer None false 0 0 1)])) as Ef by (vm_compute; reflexivity).
  change (e_timer (mkEntry 0 1 1)) with 1. rewrite Ef. cbn [mbind option_bind]. by rewrite IH.
Qed.

(** A single-shot timer that has fired is not armed again by [reset]. *)
Lemma reset_does_not_rearm :
  (s ← act (Construct 1 None 5 true 0) new_System;
   '(s, _, _) ← process demo_listener (milliseconds 10) tt s;
   s ← act (Reset 1 (milliseconds 10)) s;
   timeToNext (milliseconds 10) s) = Some (-1).
Proof. vm_compute. reflexivity. Qed.

(** A deadline 2^32 - 1 milliseconds off reads as no timer at all. *)
Lemma far_deadline_unseen :
  (s ← act (Construct 1 None (2 ^ 32 - 1) true 0) new_System; timeToNext 0 s) = Some (-1).
Proof. vm_compute. reflexivity. Qed.
