(* ===== verification/Xml.v ===== *)
(** * Xml: the parser of [src/io/xml.cpp]

    One parser, driven by the text and an explicit stack of open elements, that
    reports what it finds to a sink. [pos] is kept as the text from [pos] on.
    [None] is the fuel running out or an access that the C++ leaves undefined
    ([back()] of an empty stack); the theorems exclude both. This file has the
    parser and what it guarantees over any sink; [XmlTree] has the two sinks of
    the source. *)

From S2P Require Import Prelude Strings.

(** ** Data *)

(* @src src/include/samurai/io/xml.h:28-37 Samurai::IO::XmlError *)
Inductive XmlError := Ok | Truncated | Syntax | Mismatch | DepthExceeded | SizeExceeded | Unsupported.

#[export] Instance XmlError_eq_dec : EqDecision XmlError.
Proof. solve_decision. Defined.

(* @src src/src/io/xml.cpp:615-628 Samurai::IO::toString *)
Definition error_text (error : XmlError) : bytes :=
  match error with
  | Ok => lit "ok"
  | Truncated => lit "document ended early"
  | Syntax => lit "malformed markup"
  | Mismatch => lit "mismatched end tag"
  | DepthExceeded => lit "nested too deeply"
  | SizeExceeded => lit "document too large"
  | Unsupported => lit "document type declarations are refused"
  end.

(** The text tells the errors apart. *)
Lemma error_text_inj e f : error_text e = error_text f -> e = f.
Proof. by destruct e, f. Qed.

(* @src src/include/samurai/io/xml.h:165-173 Samurai::IO::XmlDocument::Limits *)
Record Limits := mkLimits {
  maxDocumentSize : Z;
  maxDepth : Z;
  maxElements : Z;
  maxAttributes : Z;
  maxTextLength : Z;
  maxNameLength : Z
}.
(* @src src/include/samurai/io/xml.h:165-173 Samurai::IO::XmlDocument::Limits *)
Definition default_Limits : Limits := mkLimits (256 * 1024) 32 8192 32 (64 * 1024) 256.

(** Name and value. *)
(* @src src/include/samurai/io/xml.h:222-222 Samurai::IO::XmlContentHandler::Attributes *)
Definition Attributes : Type := list (bytes * bytes).

(* @src src/src/io/xml.cpp:48-59 Samurai::IO::XmlSink *)
Class XmlSink (S : Type) := {
  sink_open : bytes -> bytes -> Attributes -> S -> option (XmlError * S);
  sink_close : bytes -> bytes -> S -> option (XmlError * S);
  sink_characters : bytes -> S -> option (XmlError * S)
}.

(* @src src/src/io/xml.cpp:171-176 Samurai::IO::XmlParser::Open *)
Record Open := mkOpen { o_prefix : bytes; o_name : bytes; text_length : Z }.

(** The text from [pos] on; the top of the stack first. *)
(* @src src/src/io/xml.cpp:180-187 Samurai::IO::XmlParser *)
Record XmlParser (S : Type) := mkParser {
  text : bytes;
  sink : S;
  elements : Z;
  had_root : bool;
  stack : list Open
}.
Arguments mkParser {S} _ _ _ _ _.
Arguments text {S} _.
Arguments sink {S} _.
Arguments elements {S} _.
Arguments had_root {S} _.
Arguments stack {S} _.

(** What a function that only reads returns: a value, or an error, and where it
    left [pos]. *)
Inductive res (A : Type) := Good (a : A) (rest : bytes) | Bad (e : XmlError) (rest : bytes).
Arguments Good {A} _ _.
Arguments Bad {A} _ _.

Definition bind {A B} (r : res A) (f : A -> bytes -> res B) : res B :=
  match r with Good a rest => f a rest | Bad e rest => Bad e rest end.

(** ** Characters *)

(* @src src/src/io/xml.cpp:11-14 is_space *)
Definition is_space (c : byte) : bool :=
  Ascii.eqb c " " || Ascii.eqb c ch_tab || Ascii.eqb c ch_cr || Ascii.eqb c ch_lf.

(* @src src/src/io/xml.cpp:20-24 is_name_start *)
Definition is_name_start (c : byte) : bool :=
  ((code "A" <=? code c) && (code c <=? code "Z")) || ((code "a" <=? code c) && (code c <=? code "z")) ||
  Ascii.eqb c "_" || (0x80 <=? code c).

(* @src src/src/io/xml.cpp:26-29 is_name_char *)
Definition is_name_char (c : byte) : bool :=
  is_name_start c || ((code "0" <=? code c) && (code c <=? code "9")) || Ascii.eqb c "-" || Ascii.eqb c ".".

(** The characters from [pos] on that satisfy [p], and what follows them. *)
Fixpoint span (p : byte -> bool) (t : bytes) : bytes * bytes :=
  match t with
  | [] => ([], [])
  | c :: t' => if p c then let '(a, b) := span p t' in (c :: a, b) else ([], t)
  end.

(* @src src/src/io/xml.cpp:155-155 Samurai::IO::XmlParser::skip_space *)
Definition skip_space (t : bytes) : bytes := snd (span is_space t).

(** ** Text *)

Section parse.
Variable limits : Limits.

(** [reported] is what the open element has already. *)
(* @src src/src/io/xml.cpp:209-219 Samurai::IO::XmlParser::append_text *)
Definition append_text (reported : Z) (out chunk : bytes) : option bytes :=
  if maxTextLength limits <? reported + zlen out + zlen chunk then None else Some (out ++ chunk).

(* @src src/src/io/xml.cpp:248-259 Samurai::IO::XmlParser::append_reference *)
Fixpoint reference_value (hex : bool) (digits : bytes) (value : Z) : option Z :=
  match digits with
  | [] => Some value
  | digit :: digits =>
      let c := code digit in
      let d := if (code "0" <=? c) && (c <=? code "9") then c - code "0"
               else if hex && (code "a" <=? c) && (c <=? code "f") then c - code "a" + 10
               else if hex && (code "A" <=? c) && (c <=? code "F") then c - code "A" + 10
               else -1 in
      if d <? 0 then None
      else
        let value := u32 (value * (if hex then 16 else 10) + d) in
        if 0x10ffff <? value then None else reference_value hex digits value
  end.

(* @src src/src/io/xml.cpp:271-276 Samurai::IO::XmlParser::append_reference *)
Definition predefined (body : bytes) : option bytes :=
  if bool_decide (body = lit "amp") then Some (lit "&")
  else if bool_decide (body = lit "lt") then Some (lit "<")
  else if bool_decide (body = lit "gt") then Some (lit ">")
  else if bool_decide (body = lit "quot") then Some [ch_dquote]
  else if bool_decide (body = lit "apos") then Some (lit "'")
  else None.

(** [t] is at the ampersand. *)
(* @src src/src/io/xml.cpp:230-283 Samurai::IO::XmlParser::append_reference *)
Definition append_reference (reported : Z) (out t : bytes) : res bytes :=
  match find_char ";" t with
  | None => Bad Truncated t
  | Some semi =>
      let after := drop (S semi) t in
      if (32 <? semi)%nat then Bad Syntax t
      else
        let body := take (semi - 1) (drop 1 t) in
        match body with
        | [] => Bad Syntax t
        | c :: body' =>
            if Ascii.eqb c "#" then
              let hex := match body' with x :: _ => Ascii.eqb x "x" || Ascii.eqb x "X" | [] => false end in
              let digits := if hex then drop 1 body' else body' in
              if bool_decide (digits = []) then Bad Syntax t
              else
                match reference_value hex digits 0 with
                | None => Bad Syntax t
                | Some value =>
                    if value =? 0 then Bad Syntax t
                    else if maxTextLength limits <? zlen out + 4 then Bad SizeExceeded t
                    else
                      let '(ok, out) := append_utf8 value out in
                      if negb ok then Bad Syntax t else Good out after
                end
            else
              match predefined body with
              | None => Bad Syntax t
              | Some replacement =>
                  match append_text reported out replacement with
                  | None => Bad SizeExceeded t
                  | Some out => Good out after
                  end
              end
        end
  end.

(** The run of characters data up to the next [<], references expanded. *)
(* @src src/src/io/xml.cpp:409-423 Samurai::IO::XmlParser::parse_text *)
Fixpoint text_loop (fuel : nat) (reported : Z) (out t : bytes) : option (res bytes) :=
  match t with
  | [] => Some (Good out t)
  | c :: _ =>
      if Ascii.eqb c "<" then Some (Good out t)
      else
        match fuel with
        | O => None
        | S fuel =>
            if Ascii.eqb c "&" then
              match append_reference reported out t with
              | Bad e t => Some (Bad e t)
              | Good out t => text_loop fuel reported out t
              end
            else
              let '(chunk, t) := span (fun c => negb (Ascii.eqb c "<") && negb (Ascii.eqb c "&")) t in
              match append_text reported out chunk with
              | None => Some (Bad SizeExceeded t)
              | Some out => text_loop fuel reported out t
              end
        end
  end.

(** ** Names and attributes *)

(** The prefix and the local name. *)
(* @src src/src/io/xml.cpp:286-313 Samurai::IO::XmlParser::parse_name *)
Definition parse_name (t : bytes) : res (bytes * bytes) :=
  match t with
  | [] => Bad Syntax t
  | c :: _ =>
      if negb (is_name_start c) then Bad Syntax t
      else
        let '(full, t) := span (fun c => is_name_char c || Ascii.eqb c ":") t in
        if maxNameLength limits <? zlen full then Bad SizeExceeded t
        else
          match find_char ":" full with
          | None => Good ([], full) t
          | Some colon =>
              let prefix := take colon full in
              let name := drop (S colon) full in
              if bool_decide (name = []) || bool_decide (prefix = []) then Bad Syntax t
              else
                match find_char ":" name with
                | Some _ => Bad Syntax t
                | None => if negb (is_name_start (nth 0 name (chr 0))) then Bad Syntax t
                          else Good (prefix, name) t
                end
          end
  end.

(** The loop over a value, [t] being past the opening quote. *)
(* @src src/src/io/xml.cpp:357-379 Samurai::IO::XmlParser::parse_attributes *)
Fixpoint value_loop (fuel : nat) (reported : Z) (quote : byte) (value t : bytes) : option (res bytes) :=
  match t with
  | [] => Some (Bad Truncated t)
  | c :: t' =>
      if Ascii.eqb c quote then Some (Good value t')
      else if Ascii.eqb c "<" then Some (Bad Syntax t)
      else
        match fuel with
        | O => None
        | S fuel =>
            if Ascii.eqb c "&" then
              match append_reference reported value t with
              | Bad e t => Some (Bad e t)
              | Good value t => value_loop fuel reported quote value t
              end
            else
              let '(chunk, t) := span (fun c => negb (Ascii.eqb c quote) && negb (Ascii.eqb c "&") &&
                                               negb (Ascii.eqb c "<")) t in
              match append_text reported value chunk with
              | None => Some (Bad SizeExceeded t)
              | Some value => value_loop fuel reported quote value t
              end
        end
  end.

(** From the start of a name to the value: the name and the quote. *)
(* @src src/src/io/xml.cpp:337-356 Samurai::IO::XmlParser::parse_attributes *)
Definition attribute_head (t : bytes) : res (bytes * byte) :=
  bind (parse_name t) (fun '(prefix, name) t =>
    let name := if bool_decide (prefix = []) then name else prefix ++ lit ":" ++ name in
    match skip_space t with
    | [] => Bad Truncated []
    | c :: t' =>
        if negb (Ascii.eqb c "=") then Bad Syntax (c :: t')
        else
          match skip_space t' with
          | [] => Bad Truncated []
          | quote :: t'' =>
              if negb (Ascii.eqb quote ch_dquote) && negb (Ascii.eqb quote "'") then Bad Syntax (quote :: t'')
              else Good (name, quote) t''
          end
    end).

(** The attributes and whether the tag closes itself. *)
(* @src src/src/io/xml.cpp:316-382 Samurai::IO::XmlParser::parse_attributes *)
Fixpoint parse_attributes (fuel : nat) (reported : Z) (attributes : Attributes) (t : bytes)
    : option (res (Attributes * bool)) :=
  match skip_space t with
  | [] => Some (Bad Truncated [])
  | c :: t' =>
      if Ascii.eqb c ">" then Some (Good (attributes, false) t')
      else if starts_with (lit "/>") (c :: t') then Some (Good (attributes, true) (drop 2 (c :: t')))
      else
        match fuel with
        | O => None
        | S fuel =>
            match attribute_head (c :: t') with
            | Bad e t => Some (Bad e t)
            | Good (name, quote) t =>
                v ← value_loop (length t) reported quote [] t;
                match v with
                | Bad e t => Some (Bad e t)
                | Good value t =>
                    if maxAttributes limits <=? zlen attributes then Some (Bad SizeExceeded t)
                    else parse_attributes fuel reported (attributes ++ [(name, value)]) t
                end
            end
        end
  end.

(** ** Comments and processing instructions *)

(** Whether something was skipped. *)
(* @src src/src/io/xml.cpp:434-472 Samurai::IO::XmlParser::skip_misc *)
Definition skip_misc (t : bytes) : res bool :=
  if starts_with (lit "<!--") t then
    let t := drop 4 t in
    match find_sub (lit "-->") t with
    | None => Bad Truncated t
    | Some end_ =>
        match find_sub (lit "--") (take end_ t) with
        | Some _ => Bad Syntax t
        | None => Good true (drop (end_ + 3) t)
        end
    end
  else if starts_with (lit "<?") t then
    let t := drop 2 t in
    match find_sub (lit "?>") t with
    | None => Bad Truncated t
    | Some end_ => Good true (drop (end_ + 2) t)
    end
  else if starts_with (lit "<!") t then Bad Unsupported t
  else Good false t.

(** ** Elements *)

Context {S : Type} `{!XmlSink S}.
Local Abbreviation parser := (XmlParser S).

Definition at_ (t : bytes) (p : parser) : parser := mkParser t (sink p) (elements p) (had_root p) (stack p).
Definition with_sink (s : S) (p : parser) : parser := mkParser (text p) s (elements p) (had_root p) (stack p).
Definition with_stack (st : list Open) (p : parser) : parser :=
  mkParser (text p) (sink p) (elements p) (had_root p) st.

Definition reported (p : parser) : Z := match stack p with [] => 0 | o :: _ => text_length o end.

(** Continues where a function that reads left off. *)
Definition andThen {A} (r : res A) (p : parser) (f : A -> parser -> option (XmlError * parser))
    : option (XmlError * parser) :=
  match r with
  | Bad e t => Some (e, at_ t p)
  | Good a t => f a (at_ t p)
  end.

(** Tells the sink, and goes on if it is content. *)
Definition tell (r : option (XmlError * S)) (p : parser) (f : parser -> option (XmlError * parser))
    : option (XmlError * parser) :=
  '(e, s) ← r;
  if bool_decide (e = Ok) then f (with_sink s p) else Some (e, with_sink s p).

(* @src src/src/io/xml.cpp:192-198 Samurai::IO::XmlParser::emit *)
Definition emit (chunk : bytes) (p : parser) : option (XmlError * parser) :=
  if bool_decide (chunk = []) then Some (Ok, p)
  else
    match stack p with
    | [] => None
    | o :: st =>
        let p := with_stack (mkOpen (o_prefix o) (o_name o) (text_length o + zlen chunk) :: st) p in
        tell (sink_characters chunk (sink p)) p (fun p => Some (Ok, p))
    end.

(* @src src/src/io/xml.cpp:405-426 Samurai::IO::XmlParser::parse_text *)
Definition parse_text (p : parser) : option (XmlError * parser) :=
  r ← text_loop (length (text p)) (reported p) [] (text p);
  andThen r p emit.

(* @src src/src/io/xml.cpp:385-402 Samurai::IO::XmlParser::parse_cdata *)
Definition parse_cdata (p : parser) : option (XmlError * parser) :=
  let t := drop 9 (text p) in
  match find_sub (lit "]]>") t with
  | None => Some (Truncated, at_ t p)
  | Some end_ =>
      match append_text (reported p) [] (take end_ t) with
      | None => Some (SizeExceeded, at_ t p)
      | Some out =>
          '(e, p) ← emit out (at_ t p);
          if bool_decide (e = Ok) then Some (Ok, at_ (drop (end_ + 3) t) p) else Some (e, p)
      end
  end.

(* @src src/src/io/xml.cpp:475-518 Samurai::IO::XmlParser::parse_element *)
Definition parse_element (p : parser) : option (XmlError * parser) :=
  let p := mkParser (drop 1 (text p)) (sink p) (elements p + 1) (had_root p) (stack p) in
  if maxElements limits <? elements p then Some (SizeExceeded, p)
  else if maxDepth limits <=? zlen (stack p) then Some (DepthExceeded, p)
  else if bool_decide (stack p = []) && had_root p then Some (Syntax, p)
  else
    andThen (parse_name (text p)) p (fun '(prefix, name) (p : parser) =>
      r ← parse_attributes (length (text p)) (reported p) [] (text p);
      andThen r p (fun (tag : Attributes * bool) (p : parser) =>
        let '(attributes, empty) := tag in
        let p := mkParser (text p) (sink p) (elements p)
                   (if bool_decide (stack p = []) then true else had_root p)
                   (mkOpen prefix name 0 :: stack p) in
        tell (sink_open prefix name attributes (sink p)) p (fun p =>
          if empty then
            match stack p with
            | [] => None
            | closing :: st =>
                tell (sink_close (o_prefix closing) (o_name closing) (sink p)) p (fun p =>
                  Some (Ok, with_stack st p))
            end
          else Some (Ok, p)))).

(* @src src/src/io/xml.cpp:521-544 Samurai::IO::XmlParser::parse_end_tag *)
Definition parse_end_tag (p : parser) : option (XmlError * parser) :=
  andThen (parse_name (drop 2 (text p))) p (fun '(prefix, name) (p : parser) =>
    match skip_space (text p) with
    | [] => Some (Truncated, at_ [] p)
    | c :: t =>
        if negb (Ascii.eqb c ">") then Some (Syntax, at_ (c :: t) p)
        else
          let p := at_ t p in
          match stack p with
          | [] => Some (Mismatch, p)
          | o :: st =>
              if negb (bool_decide (o_name o = name)) then Some (Mismatch, p)
              else tell (sink_close prefix name (sink p)) p (fun p => Some (Ok, with_stack st p))
          end
    end).

(** ** The document *)

(* @src src/src/io/xml.cpp:547-553 Samurai::IO::XmlParser::parse_prolog *)
Definition parse_prolog (t : bytes) : bytes :=
  if starts_with [chr 0xef; chr 0xbb; chr 0xbf] t then drop 3 t else t.

(** One round of the loop of [run]. *)
(* @src src/src/io/xml.cpp:565-606 Samurai::IO::XmlParser::run *)
Definition round (p : parser) : option (XmlError * parser) :=
  match text p with
  | [] => Some (Ok, p)
  | c :: t =>
      if negb (Ascii.eqb c "<") then
        match stack p with
        | [] => if negb (is_space c) then Some (Syntax, p) else Some (Ok, at_ t p)
        | _ => parse_text p
        end
      else if starts_with (lit "<![CDATA[") (text p) then
        match stack p with
        | [] => Some (Syntax, p)
        | _ => parse_cdata p
        end
      else
        andThen (skip_misc (text p)) p (fun (skipped : bool) p =>
          if skipped then Some (Ok, p)
          else if starts_with (lit "</") (text p) then parse_end_tag p
          else if (length (text p) <=? 1)%nat then Some (Truncated, p)
          else parse_element p)
  end.

(* @src src/src/io/xml.cpp:563-606 Samurai::IO::XmlParser::run *)
Fixpoint run_loop (fuel : nat) (p : parser) : option (XmlError * parser) :=
  match text p with
  | [] => Some (Ok, p)
  | _ =>
      match fuel with
      | O => None
      | Datatypes.S fuel =>
          '(e, p) ← round p;
          if bool_decide (e = Ok) then run_loop fuel p else Some (e, p)
      end
  end.

Definition new_XmlParser (input : bytes) (target : S) : parser := mkParser input target 0 false [].

(* @src src/src/io/xml.cpp:556-612 Samurai::IO::XmlParser::run *)
Definition run (p : parser) : option (XmlError * parser) :=
  if maxDocumentSize limits <? zlen (text p) then Some (SizeExceeded, p)
  else
    let p := at_ (parse_prolog (text p)) p in
    '(e, p) ← run_loop (length (text p)) p;
    if negb (bool_decide (e = Ok)) then Some (e, p)
    else if negb (bool_decide (stack p = [])) then Some (Truncated, p)
    else if negb (had_root p) then Some (Truncated, p)
    else Some (Ok, p).

(** Where it stopped. *)
(* @src src/src/io/xml.cpp:147-147 Samurai::IO::XmlParser::offset *)
Definition offset (input : bytes) (p : parser) : Z := zlen input - zlen (text p).
End parse.

(** ** Reading shortens the text *)

Definition rest {A} (r : res A) : bytes := match r with Good _ t | Bad _ t => t end.

Lemma span_app p t : fst (span p t) ++ snd (span p t) = t.
Proof. induction t as [|c t IH]; [done|]. cbn. destruct (p c); [|done]. destruct (span p t). cbn in *. by rewrite IH. Qed.

Lemma span_suffix p t : snd (span p t) `suffix_of` t.
Proof. exists (fst (span p t)). by rewrite span_app. Qed.

Lemma span_first p c t : p c = true -> snd (span p (c :: t)) `suffix_of` t.
Proof. intros E. cbn. rewrite E. pose proof (span_suffix p t). by destruct (span p t). Qed.

Lemma skip_space_suffix t : skip_space t `suffix_of` t.
Proof. apply span_suffix. Qed.

Lemma drop_suffix (n : nat) (t : bytes) : drop n t `suffix_of` t.
Proof. exists (take n t). by rewrite take_drop. Qed.



Section reading.
Variable limits : Limits.

Lemma append_reference_suffix reported out c t :
  match append_reference limits reported out (c :: t) with
  | Good _ t' => t' `suffix_of` t
  | Bad _ t' => t' = c :: t
  end.
Proof.
  unfold append_reference. destruct (find_char ";" (c :: t)) as [semi|]; [|done].
  assert (drop (S semi) (c :: t) `suffix_of` t) as Ht by (cbn; apply drop_suffix).
  repeat case_match; simplify_eq; done.
Qed.

Lemma text_loop_total fuel : forall reported out t,
  (length t <= fuel)%nat -> exists r, text_loop limits fuel reported out t = Some r /\ rest r `suffix_of` t /\
    (match t with c :: t' => Ascii.eqb c "<" = false -> forall a u, r = Good a u -> u `suffix_of` t' | [] => True end) /\
    (forall a u, r = Good a u -> match u with c :: _ => c = "<"%char | [] => True end).
Proof.
  induction fuel as [|fuel IH]; intros reported out [|c t] Hf; try (cbn in Hf; lia).
  1,2: eexists; split; [reflexivity|]; split; [done|]; split; [done|]; by intros ? ? [= _ <-].
  cbn [text_loop]. destruct (Ascii.eqb_spec c "<") as [->|Hc].
  { eexists. split; [reflexivity|]. split; [done|]. split; [done|]. by intros ? ? [= _ <-]. }
  assert (forall reported out u, u `suffix_of` t -> exists r, text_loop limits fuel reported out u = Some r /\
    rest r `suffix_of` c :: t /\ (forall a v, r = Good a v -> v `suffix_of` t) /\
    (forall a v, r = Good a v -> match v with c :: _ => c = "<"%char | [] => True end)) as Hgo.
  { intros rep o u Hu. pose proof (suffix_length _ _ Hu). destruct (IH rep o u) as (r & E & Hs & Hd & He); [cbn in *; lia|].
    exists r. split; [exact E|]. split; [|split; [|exact He]].
    - apply suffix_cons_r. by trans u.
    - intros a v ->. cbn in Hs. by trans u. }
  assert (forall e u, u `suffix_of` (c :: t) -> exists r : res bytes, Some (Bad e u) = Some r /\ rest r `suffix_of` c :: t /\
    (false = false -> forall a v, r = Good a v -> v `suffix_of` t) /\
    (forall a v, r = Good a v -> match v with c :: _ => c = "<"%char | [] => True end)) as Hbad.
  { intros e u Hu. eexists. split; [reflexivity|]. done. }
  destruct (Ascii.eqb c "&") eqn:Ea.
  - pose proof (append_reference_suffix reported out c t) as Hr.
    destruct (append_reference limits reported out (c :: t)) as [o u|e u].
    + destruct (Hgo reported o u Hr) as (r & E & H1 & H2 & H3). exists r.
      split; [exact E|]. split; [exact H1|]. split; [intros _; exact H2|exact H3].
    + subst u. by apply Hbad.
  - set (p := fun c : byte => _). assert (p c = true) as Hp.
    { unfold p. rewrite Ea. by rewrite (proj2 (Ascii.eqb_neq _ _)). }
    pose proof (span_first p c t Hp) as Hs. destruct (span p (c :: t)) as [chunk u]. cbn [snd] in Hs.
    destruct (append_text limits reported out chunk) as [o|].
    + destruct (Hgo reported o u Hs) as (r & E & H1 & H2 & H3). exists r.
      split; [exact E|]. split; [exact H1|]. split; [intros _; exact H2|exact H3].
    + apply Hbad. by apply suffix_cons_r.
Qed.

Lemma value_loop_total fuel : forall reported quote value t,
  (length t <= fuel)%nat -> exists r, value_loop limits fuel reported quote value t = Some r /\ rest r `suffix_of` t.
Proof.
  induction fuel as [|fuel IH]; intros reported quote value [|c t] Hf; try (cbn in Hf; lia).
  1,2: eexists; split; [reflexivity|]; done.
  cbn [value_loop]. destruct (Ascii.eqb c quote) eqn:Eq; [eexists; split; [reflexivity|]; by apply suffix_cons_r|].
  destruct (Ascii.eqb c "<") eqn:El; [eexists; split; [reflexivity|]; done|].
  assert (forall reported value u, u `suffix_of` t -> exists r, value_loop limits fuel reported quote value u = Some r /\
    rest r `suffix_of` c :: t) as Hgo.
  { intros rep o u Hu. pose proof (suffix_length _ _ Hu). destruct (IH rep quote o u) as (r & E & Hs); [cbn in *; lia|].
    exists r. split; [exact E|]. apply suffix_cons_r. by trans u. }
  destruct (Ascii.eqb c "&") eqn:Ea.
  - pose proof (append_reference_suffix reported value c t) as Hr.
    destruct (append_reference limits reported value (c :: t)) as [o u|e u]; [by apply Hgo|].
    subst u. eexists. by split; [reflexivity|].
  - set (p := fun c : byte => _). assert (p c = true) as Hp by (unfold p; by rewrite Ea, Eq, El).
    pose proof (span_first p c t Hp) as Hs. destruct (span p (c :: t)) as [chunk u]. cbn [snd] in Hs.
    destruct (append_text limits reported value chunk); [by apply Hgo|].
    eexists. split; [reflexivity|]. by apply suffix_cons_r.
Qed.

Lemma parse_name_suffix t :
  rest (parse_name limits t) `suffix_of` t /\
  (forall n u, parse_name limits t = Good n u -> (length u < length t)%nat).
Proof.
  unfold parse_name. destruct t as [|c t]; [done|]. destruct (is_name_start c) eqn:Ec; cbn [negb]; [|done].
  set (p := fun c : byte => _). assert (p c = true) as Hp by (unfold p, is_name_char; by rewrite Ec).
  pose proof (span_first p c t Hp) as Hs. destruct (span p (c :: t)) as [full u]. cbn [snd] in Hs.
  assert (u `suffix_of` (c :: t)) as Hs' by (by apply suffix_cons_r).
  apply suffix_length in Hs. cbn [length].
  repeat case_match; (split; [done|]); intros ? ? [= ? ?]; subst; lia.
Qed.

Lemma attribute_head_suffix t :
  rest (attribute_head limits t) `suffix_of` t /\
  (forall n u, attribute_head limits t = Good n u -> (length u < length t)%nat).
Proof.
  unfold attribute_head. destruct (parse_name_suffix t) as [Hs Hl].
  destruct (parse_name limits t) as [[prefix name] u|e u]; [|done]. cbn [bind rest] in *.
  specialize (Hl _ _ eq_refl). pose proof (skip_space_suffix u) as H1.
  destruct (skip_space u) as [|c v]; [split; [apply suffix_nil|done]|].
  assert (c :: v `suffix_of` t) as Hcv by (by trans u).
  apply suffix_length in H1. cbn [length] in H1.
  destruct (negb _); [done|]. apply suffix_cons_l in Hcv. pose proof (skip_space_suffix v) as H2.
  destruct (skip_space v) as [|q w]; [split; [apply suffix_nil|done]|].
  assert (q :: w `suffix_of` t) as Hqw by (by trans v). apply suffix_length in H2. cbn [length] in H2.
  destruct (_ && _); [done|]. split; [by apply suffix_cons_l in Hqw|]. intros n x [= _ <-]. lia.
Qed.

Lemma parse_attributes_total fuel : forall reported attributes t,
  (length t <= fuel)%nat -> exists r, parse_attributes limits fuel reported attributes t = Some r /\ rest r `suffix_of` t.
Proof.
  induction fuel as [|fuel IH]; intros reported attributes t Hf.
  - destruct t; [|cbn in Hf; lia]. eexists. split; [reflexivity|done].
  - cbn [parse_attributes]. pose proof (skip_space_suffix t) as Hs.
    destruct (skip_space t) as [|c u]; [eexists; split; [reflexivity|apply suffix_nil]|].
    destruct (Ascii.eqb c ">"); [eexists; split; [reflexivity|by apply suffix_cons_l in Hs]|].
    destruct (starts_with (lit "/>") (c :: u)).
    { eexists. split; [reflexivity|]. trans (c :: u); [apply drop_suffix|done]. }
    destruct (attribute_head_suffix (c :: u)) as [H1 H2].
    destruct (attribute_head limits (c :: u)) as [[name quote] v|e v]; [|eexists; split; [reflexivity|by trans (c :: u)]].
    cbn [rest] in H1. specialize (H2 _ _ eq_refl).
    assert (v `suffix_of` t) as Hv by (by trans (c :: u)).
    destruct (value_loop_total (length v) reported quote [] v ltac:(lia)) as (r & -> & Hr). cbn [mbind option_bind].
    destruct r as [value w|e w]; cbn [rest] in Hr; [|eexists; split; [reflexivity|by trans v]].
    destruct (_ <=? _); [eexists; split; [reflexivity|by trans v]|].
    pose proof (suffix_length _ _ Hr). pose proof (suffix_length _ _ Hs).
    destruct (IH reported (attributes ++ [(name, value)]) w) as (r & E & Hw); [cbn [length] in *; lia|].
    exists r. split; [exact E|]. by trans w; [|trans v].
Qed.

Lemma skip_misc_suffix t :
  rest (skip_misc t) `suffix_of` t /\ (forall u, skip_misc t = Good false u -> u = t) /\
  (forall u, skip_misc t = Good true u -> (length u < length t)%nat).
Proof.
  unfold skip_misc. destruct (starts_with (lit "<!--") t) eqn:E1.
  - apply starts_with_spec in E1 as [r ->]. change (drop 4 (lit "<!--" ++ r)) with r.
    assert (r `suffix_of` lit "<!--" ++ r) as Hr by (by exists (lit "<!--")).
    destruct (find_sub _ r) as [i|]; [|done]. destruct (find_sub _ (take i r)); [done|]. cbn [rest].
    split; [trans r; [apply drop_suffix|done]|]. split; [done|]. intros u [= <-].
    rewrite length_drop, length_app. cbn. lia.
  - destruct (starts_with (lit "<?") t) eqn:E2.
    + apply starts_with_spec in E2 as [r ->]. change (drop 2 (lit "<?" ++ r)) with r.
      assert (r `suffix_of` lit "<?" ++ r) as Hr by (by exists (lit "<?")).
      destruct (find_sub _ r) as [i|]; [|done]. cbn [rest].
      split; [trans r; [apply drop_suffix|done]|]. split; [done|]. intros u [= <-].
      rewrite length_drop, length_app. cbn. lia.
    + destruct (starts_with (lit "<!") t); [by split; [exists []|split; intros ? [=]]|].
      split; [by exists []|]. split; [by intros u [= <-]|intros u [=]].
Qed.
End reading.

(** ** What a parse tells its sink *)

Inductive XmlEvent :=
  | StartElement (prefix name : bytes) (attributes : Attributes)
  | EndElement (prefix name : bytes)
  | Characters (chunk : bytes).

(** A sink that takes down everything. *)
#[export] Instance recorder : XmlSink (list XmlEvent) := {
  sink_open prefix name attributes s := Some (Ok, s ++ [StartElement prefix name attributes]);
  sink_close prefix name s := Some (Ok, s ++ [EndElement prefix name]);
  sink_characters chunk s := Some (Ok, s ++ [Characters chunk])
}.

(** Telling another sink the same; [None] when it is not content with all of it. *)
Definition replay1 {S} `{!XmlSink S} (e : XmlEvent) (s : S) : option (XmlError * S) :=
  match e with
  | StartElement prefix name attributes => sink_open prefix name attributes s
  | EndElement prefix name => sink_close prefix name s
  | Characters chunk => sink_characters chunk s
  end.
Fixpoint replay {S} `{!XmlSink S} (es : list XmlEvent) (s : S) : option S :=
  match es with
  | [] => Some s
  | e :: es =>
      match replay1 e s with
      | Some (Ok, s) => replay es s
      | _ => None
      end
  end.

Lemma replay_app {S} `{!XmlSink S} es1 : forall es2 (s s2 : S),
  replay (es1 ++ es2) s = Some s2 -> exists s1, replay es1 s = Some s1 /\ replay es2 s1 = Some s2.
Proof.
  induction es1 as [|e es1 IH]; intros es2 s s2 E; [by exists s|]. cbn in *.
  destruct (replay1 e s) as [[[] s1]|]; try done. by apply IH.
Qed.

Lemma replay_join {S} `{!XmlSink S} es1 : forall es2 (s s1 : S),
  replay es1 s = Some s1 -> replay (es1 ++ es2) s = replay es2 s1.
Proof.
  induction es1 as [|e es1 IH]; intros es2 s s1 E; [by injection E as ->|]. cbn in *.
  destruct (replay1 e s) as [[[] s']|]; try done. by apply IH.
Qed.

(** The names of the elements that are open after some events; [None] when an
    end tag does not name the innermost one, or text is outside. *)
Fixpoint opened (es : list XmlEvent) (st : list bytes) : option (list bytes) :=
  match es with
  | [] => Some st
  | StartElement _ name _ :: es => opened es (name :: st)
  | EndElement _ name :: es =>
      match st with n :: st => if bool_decide (n = name) then opened es st else None | [] => None end
  | Characters _ :: es => match st with [] => None | _ => opened es st end
  end.

Lemma opened_app es1 : forall es2 st st1, opened es1 st = Some st1 -> opened (es1 ++ es2) st = opened es2 st1.
Proof.
  induction es1 as [|[p n a|p n|c] es1 IH]; intros es2 st st1 E; cbn in *.
  - by injection E as ->.
  - by apply IH.
  - destruct st as [|x st]; [done|]. destruct (bool_decide _); [by apply IH|done].
  - destruct st as [|x st]; [done|]. by apply IH.
Qed.

(** Never more than [m] elements are open at once, [d] being so already. *)
Fixpoint shallow (m : Z) (es : list XmlEvent) (d : Z) : Prop :=
  match es with
  | [] => d <= m
  | StartElement _ _ _ :: es => d <= m /\ shallow m es (d + 1)
  | EndElement _ _ :: es => d <= m /\ shallow m es (d - 1)
  | Characters _ :: es => shallow m es d
  end.

Lemma shallow_app m es1 : forall es2 st st1, opened es1 st = Some st1 ->
  shallow m es1 (zlen st) -> shallow m es2 (zlen st1) -> shallow m (es1 ++ es2) (zlen st).
Proof.
  induction es1 as [|[p n a|p n|c] es1 IH]; intros es2 st st1 E H1 H2; cbn in *.
  - by injection E as ->.
  - destruct H1 as [Hd H1]. split; [done|].
    pose proof (zlen_cons n st) as Hz. replace (zlen st + 1) with (zlen (n :: st)) in * by lia. by eapply IH.
  - destruct st as [|x st]; [done|]. destruct (bool_decide _); [|done]. destruct H1 as [Hd H1]. split; [done|].
    rewrite zlen_cons in *. replace (1 + zlen st - 1) with (zlen st) in * by lia. by eapply IH.
  - destruct st as [|x st]; [done|]. by eapply IH.
Qed.

Definition is_start (e : XmlEvent) : bool := match e with StartElement _ _ _ => true | _ => false end.
Definition starts (es : list XmlEvent) : Z := zlen (List.filter is_start es).

Lemma starts_app a b : starts (a ++ b) = starts a + starts b.
Proof. unfold starts. by rewrite List.filter_app, zlen_app. Qed.

Section guarantees.
Variable limits : Limits.

(** An event within the limits. *)
Definition event_ok (e : XmlEvent) : Prop :=
  match e with
  | StartElement prefix name attributes =>
      zlen prefix + zlen name <= maxNameLength limits /\ name <> [] /\
      zlen attributes <= maxAttributes limits /\
      Forall (fun a => zlen a.1 <= maxNameLength limits /\ zlen a.2 <= maxTextLength limits) attributes
  | EndElement prefix name => zlen prefix + zlen name <= maxNameLength limits
  | Characters chunk => chunk <> [] /\ zlen chunk <= maxTextLength limits
  end.

Lemma utf8_size value out out' : append_utf8 value out = (true, out') -> zlen out' <= zlen out + 4.
Proof. unfold append_utf8. repeat case_match; intros [= <-]; rewrite zlen_app; zlen_lia. Qed.

Lemma append_text_size reported out chunk out' :
  0 <= reported -> append_text limits reported out chunk = Some out' ->
  out' = out ++ chunk /\ zlen out' <= maxTextLength limits.
Proof.
  unfold append_text. intros Hr. destruct (Z.ltb_spec (maxTextLength limits) (reported + zlen out + zlen chunk)); [done|].
  intros [= <-]. split; [done|]. rewrite zlen_app. lia.
Qed.

Lemma append_reference_size reported out t out' u :
  0 <= reported -> append_reference limits reported out t = Good out' u -> zlen out' <= maxTextLength limits.
Proof.
  intros Hr. unfold append_reference. destruct (find_char ";" t) as [semi|]; [|done].
  destruct (32 <? semi)%nat; [done|]. destruct (take (semi - 1) (drop 1 t)) as [|c body]; [done|].
  destruct (Ascii.eqb c "#").
  - destruct (bool_decide _); [done|]. destruct (reference_value _ _ _) as [value|]; [|done].
    destruct (value =? 0); [done|]. destruct (Z.ltb_spec (maxTextLength limits) (zlen out + 4)) as [|Hle]; [done|].
    destruct (append_utf8 value out) as [[] o] eqn:E; [|done]. intros [= <- _]. apply utf8_size in E. lia.
  - destruct (predefined _) as [r|]; [|done]. destruct (append_text limits reported out r) as [o|] eqn:E; [|done].
    intros [= <- _]. by apply append_text_size in E as [_ ?].
Qed.

Lemma text_loop_size fuel : forall reported out t out' u,
  0 <= reported -> zlen out <= maxTextLength limits -> text_loop limits fuel reported out t = Some (Good out' u) ->
  zlen out' <= maxTextLength limits.
Proof.
  induction fuel as [|fuel IH]; intros reported out [|c t] out' u Hr Ho E; cbn [text_loop] in E;
    try (destruct (Ascii.eqb c "<")); simplify_eq; try done.
  destruct (Ascii.eqb c "&").
  - destruct (append_reference limits reported out (c :: t)) as [o v|e v] eqn:Er; [|done].
    apply append_reference_size in Er; [|done]. by apply (IH _ _ _ _ _ Hr Er E).
  - destruct (span _ (c :: t)) as [chunk v]. destruct (append_text limits reported out chunk) as [o|] eqn:Ea; [|done].
    apply append_text_size in Ea as [_ Ha]; [|done]. by apply (IH _ _ _ _ _ Hr Ha E).
Qed.

Lemma value_loop_size fuel : forall reported quote out t out' u,
  0 <= reported -> zlen out <= maxTextLength limits -> value_loop limits fuel reported quote out t = Some (Good out' u) ->
  zlen out' <= maxTextLength limits.
Proof.
  induction fuel as [|fuel IH]; intros reported quote out [|c t] out' u Hr Ho E; cbn [value_loop] in E; try done;
    destruct (Ascii.eqb c quote); simplify_eq; try done; destruct (Ascii.eqb c "<"); try done.
  destruct (Ascii.eqb c "&").
  - destruct (append_reference limits reported out (c :: t)) as [o v|e v] eqn:Er; [|done].
    apply append_reference_size in Er; [|done]. by apply (IH _ _ _ _ _ _ Hr Er E).
  - destruct (span _ (c :: t)) as [chunk v]. destruct (append_text limits reported out chunk) as [o|] eqn:Ea; [|done].
    apply append_text_size in Ea as [_ Ha]; [|done]. by apply (IH _ _ _ _ _ _ Hr Ha E).
Qed.

Lemma parse_name_size t prefix name u :
  parse_name limits t = Good (prefix, name) u ->
  name <> [] /\ zlen prefix + zlen name <= maxNameLength limits /\
  (prefix <> [] -> zlen (prefix ++ lit ":" ++ name) <= maxNameLength limits).
Proof.
  unfold parse_name. destruct t as [|c t]; [done|]. destruct (is_name_start c) eqn:Ec; cbn [negb]; [|done].
  set (p := fun c : byte => _). assert (p c = true) as Hp by (unfold p, is_name_char; by rewrite Ec).
  destruct (span p (c :: t)) as [full v] eqn:Es.
  assert (full <> []) as Hne by (cbn in Es; rewrite Hp in Es; destruct (span p t); by injection Es as <- _).
  destruct (Z.ltb_spec (maxNameLength limits) (zlen full)); [done|].
  destruct (find_char ":" full) as [i|] eqn:Ei.
  - apply find_char_Some in Ei as (l & r & -> & <- & _). rewrite take_app_length.
    replace (drop (S (length l)) (l ++ ":"%char :: r)) with r.
    2:{ rewrite drop_app_ge by lia. by replace (S (length l) - length l)%nat with 1%nat by lia. }
    destruct (bool_decide_reflect (r = [])); [done|]. destruct (bool_decide_reflect (l = [])); [done|]. cbn [orb].
    destruct (find_char ":" r); [done|]. destruct (negb _); [done|]. intros [= <- <- _].
    rewrite !zlen_app in *. cbn in *. rewrite zlen_cons in *. split; [done|]. change (zlen (@nil byte)) with 0. split; [|intros _]; lia.
  - intros [= <- <- _]. split; [done|]. change (zlen (@nil byte)) with 0. split; [lia|done].
Qed.

Lemma parse_attributes_ok fuel : forall reported attributes t attributes' empty u,
  0 <= reported -> 0 <= maxTextLength limits ->
  zlen attributes <= maxAttributes limits ->
  Forall (fun a => zlen a.1 <= maxNameLength limits /\ zlen a.2 <= maxTextLength limits) attributes ->
  parse_attributes limits fuel reported attributes t = Some (Good (attributes', empty) u) ->
  zlen attributes' <= maxAttributes limits /\
  Forall (fun a => zlen a.1 <= maxNameLength limits /\ zlen a.2 <= maxTextLength limits) attributes'.
Proof.
  induction fuel as [|fuel IH]; intros reported attributes t attributes' empty u Hr Hm Hn Ha E; cbn [parse_attributes] in E;
    destruct (skip_space t) as [|c v]; try done;
    destruct (Ascii.eqb c ">"); simplify_eq; try done;
    destruct (starts_with (lit "/>") (c :: v)); simplify_eq; try done.
  unfold attribute_head in E. destruct (parse_name limits (c :: v)) as [[prefix name] w|e w] eqn:En; [|done].
  cbn [bind] in E. apply parse_name_size in En as (_ & Hs1 & Hs2).
  destruct (skip_space w) as [|c1 w1]; [done|]. destruct (negb _); [done|].
  destruct (skip_space w1) as [|q w2]; [done|]. destruct (_ && _); [done|].
  destruct (value_loop limits (length w2) reported q [] w2) as [[value w3|e w3]|] eqn:Ev; try done.
  cbn [mbind option_bind] in E. destruct (Z.leb_spec (maxAttributes limits) (zlen attributes)) as [|Hlt]; [done|].
  apply IH in E; [done|done|done| |].
  - rewrite zlen_app. change (zlen [_]) with 1. lia.
  - apply Forall_app. split; [done|]. constructor; [|done]. cbn. split.
    + destruct (bool_decide_reflect (prefix = [])) as [->|Hp]; [|by apply Hs2].
      change (zlen (@nil byte)) with 0 in Hs1. lia.
    + by apply value_loop_size in Ev.
Qed.
End guarantees.

(** ** One parser, any sink *)

Section advance.
Variable limits : Limits.
Context {S : Type} `{!XmlSink S}.
Local Abbreviation rparser := (XmlParser (list XmlEvent)).

(** The same parser in front of another sink. *)
Definition move {A} (s : A) (q : rparser) : XmlParser A := mkParser (text q) s (elements q) (had_root q) (stack q).

Definition names (q : rparser) : list bytes := map o_name (stack q).

(** The counts that hold all along. *)
Record inv (q : rparser) : Prop := mkInv {
  inv_lengths : Forall (fun o => 0 <= text_length o /\ zlen (o_prefix o) + zlen (o_name o) <= maxNameLength limits) (stack q);
  inv_depth : zlen (stack q) <= maxDepth limits;
  inv_root : stack q <> [] -> had_root q = true
}.

(** From [q] the parser went to [q'] with [es] told, and with any sink that is
    content with [es] it does the same. *)
Record advances (q : rparser) (other : S -> option (XmlError * XmlParser S)) (e : XmlError) (q' : rparser)
    (es : list XmlEvent) : Prop := mkAdvances {
  adv_sink : sink q' = sink q ++ es;
  adv_text : text q' `suffix_of` text q;
  adv_open : opened es (names q) = Some (names q');
  adv_shallow : shallow (maxDepth limits) es (zlen (stack q));
  adv_events : Forall (event_ok limits) es;
  adv_starts : e = Ok -> elements q' = elements q + starts es;
  adv_elements : e = Ok -> elements q <= maxElements limits -> elements q' <= maxElements limits;
  adv_root : e = Ok -> had_root q' = had_root q || (0 <? starts es);
  adv_inv : inv q';
  adv_other s s' : replay es s = Some s' -> other s = Some (e, move s' q')
}.

Lemma adv_at q t e : inv q -> t `suffix_of` text q -> advances q (fun s => Some (e, at_ t (move s q))) e (at_ t q) [].
Proof.
  intros [] Ht. constructor; cbn; try done.
  - by rewrite app_nil_r.
  - intros _. change (starts []) with 0. lia.
  - intros _. by rewrite orb_false_r.
  - intros s s' [= ->]. done.
Qed.

Lemma adv_text_trans q t other e q' es :
  t `suffix_of` text q -> advances (at_ t q) other e q' es -> advances q other e q' es.
Proof. intros Ht [H1 H2 H3 H10 H4 H5 H6 H7 H8 H9]. constructor; try done. by trans t. Qed.

Lemma adv_trans q run1 q1 es1 run2 e q2 es2 other :
  advances q run1 Ok q1 es1 -> advances q1 run2 e q2 es2 ->
  (forall s s1, run1 s = Some (Ok, move s1 q1) -> other s = run2 s1) ->
  advances q other e q2 (es1 ++ es2).
Proof.
  intros [A1 A2 A3 A10 A4 A5 A6 A7 A8 A9] [B1 B2 B3 B10 B4 B5 B6 B7 B8 B9] Ho. constructor.
  - by rewrite B1, A1, app_assoc.
  - by trans (text q1).
  - by rewrite (opened_app _ _ _ _ A3).
  - assert (zlen (stack q) = zlen (names q)) as Hz by (unfold names, zlen; by rewrite length_map).
    assert (zlen (stack q1) = zlen (names q1)) as Hz1 by (unfold names, zlen; by rewrite length_map).
    rewrite Hz, Hz1 in *. by eapply shallow_app.
  - by apply Forall_app.
  - intros He. rewrite (B5 He), (A5 eq_refl), starts_app. lia.
  - intros He Hq. by apply B6, A6.
  - intros He. rewrite (B7 He), (A7 eq_refl), starts_app, <- orb_assoc. f_equal.
    assert (0 <= starts es1 /\ 0 <= starts es2) as [? ?] by (unfold starts; split; apply zlen_nonneg).
    apply eq_true_iff_eq. rewrite orb_true_iff, !Z.ltb_lt. lia.
  - done.
  - intros s s' Hs. apply replay_app in Hs as (s1 & H1 & H2). rewrite (Ho s s1 (A9 s s1 H1)). by apply B9.
Qed.

(** Telling about a chunk. *)
Lemma emit_advances q chunk :
  inv q -> stack q <> [] -> zlen chunk <= maxTextLength limits ->
  exists q' es, emit chunk q = Some (Ok, q') /\ text q' = text q /\
    advances q (fun s => emit chunk (move s q)) Ok q' es.
Proof.
  intros Hinv Hne Hc. unfold emit. destruct (bool_decide_reflect (chunk = [])) as [->|Hch].
  { exists q, []. split; [done|]. split; [done|].
    pose proof (adv_at q (text q) Ok Hinv ltac:(done)) as Ha. by destruct q. }
  pose proof Hinv as [Hl Hd Hr]. change (stack (move ?s q)) with (stack q).
  destruct (stack q) as [|o st] eqn:Es; [done|].
  eexists _, [Characters chunk]. split; [reflexivity|]. split; [done|]. constructor; cbn.
  - done.
  - done.
  - unfold names. by rewrite Es.
  - by rewrite Es.
  - by constructor.
  - change (starts [Characters chunk]) with 0. lia.
  - done.
  - by rewrite orb_false_r.
  - constructor; cbn.
    + apply Forall_cons in Hl as [[Ho Hp] Hl]. constructor; [|done]. cbn. pose proof (zlen_nonneg chunk). split; [lia|done].
    + rewrite !zlen_cons in *. lia.
    + intros _. apply Hr. done.
  - intros s s'. unfold tell. destruct (sink_characters chunk s) as [[[] s1]|]; try done. by intros [= ->].
Qed.

(** Reading leaves the sink alone. *)
Lemma andThen_advances {A} (r : res A) q f g other (fs : A -> XmlParser S -> option (XmlError * XmlParser S)) :
  inv q -> rest r `suffix_of` text q ->
  (forall s, other s = andThen r (move s q) fs) -> g = andThen r q f ->
  (forall a t, r = Good a t -> exists e q' es, f a (at_ t q) = Some (e, q') /\
     (e = Ok -> (length (text q') < length (text q))%nat) /\
     advances (at_ t q) (fun s => fs a (move s (at_ t q))) e q' es) ->
  (forall e t, r = Bad e t -> e <> Ok) ->
  exists e q' es, g = Some (e, q') /\ (e = Ok -> (length (text q') < length (text q))%nat) /\ advances q other e q' es.
Proof.
  intros Hinv Hs Ho -> Hgood Hbad. destruct r as [a t|e t]; cbn [andThen rest] in *.
  - destruct (Hgood a t eq_refl) as (e & q' & es & E & Hsh & Ha). exists e, q', es. split; [exact E|]. split; [exact Hsh|].
    apply adv_text_trans with t; [done|]. destruct Ha as [H1 H2 H3 H10 H4 H5 H6 H7 H8 H9]. constructor; try done.
    intros s s' Hr. rewrite Ho. by apply H9.
  - exists e, (at_ t q), []. split; [reflexivity|]. split; [by intros He%(Hbad e t eq_refl)|].
    pose proof (adv_at q t e Hinv Hs) as [H1 H2 H3 H10 H4 H5 H6 H7 H8 H9]. constructor; try done.
    intros s s' Hr. rewrite Ho. by apply H9.
Qed.

(** ** Errors are errors *)

Definition refuses {A} (r : res A) : Prop := match r with Bad e _ => e <> Ok | Good _ _ => True end.

Lemma refuses_bad {A} (r : res A) : refuses r -> forall e t, r = Bad e t -> e <> Ok.
Proof. by intros H e t ->. Qed.

Lemma append_reference_refuses reported out t : refuses (append_reference limits reported out t).
Proof. unfold append_reference, refuses. repeat case_match; simplify_eq; done. Qed.

Lemma text_loop_refuses fuel : forall reported out t r,
  text_loop limits fuel reported out t = Some r -> refuses r.
Proof.
  induction fuel as [|fuel IH]; intros reported out [|c t] r E; cbn [text_loop] in E;
    try (destruct (Ascii.eqb c "<")); simplify_eq; try done.
  destruct (Ascii.eqb c "&").
  - pose proof (append_reference_refuses reported out (c :: t)) as Hr.
    destruct (append_reference limits reported out (c :: t)); [by eapply IH|]. by injection E as <-.
  - destruct (span _ (c :: t)) as [chunk v]. destruct (append_text _ _ _ _); [by eapply IH|]. by injection E as <-.
Qed.

Lemma value_loop_refuses fuel : forall reported quote out t r,
  value_loop limits fuel reported quote out t = Some r -> refuses r.
Proof.
  induction fuel as [|fuel IH]; intros reported quote out [|c t] r E; cbn [value_loop] in E; [by injection E as <-| |by injection E as <-|];
    (destruct (Ascii.eqb c quote); [by injection E as <-|]); (destruct (Ascii.eqb c "<"); [by injection E as <-|]); [done|].
  destruct (Ascii.eqb c "&").
  - pose proof (append_reference_refuses reported out (c :: t)) as Hr.
    destruct (append_reference limits reported out (c :: t)); [by eapply IH|]. by injection E as <-.
  - destruct (span _ (c :: t)) as [chunk v]. destruct (append_text _ _ _ _); [by eapply IH|]. by injection E as <-.
Qed.

Lemma parse_name_refuses t : refuses (parse_name limits t).
Proof. unfold parse_name, refuses. repeat case_match; simplify_eq; done. Qed.

Lemma attribute_head_refuses t : refuses (attribute_head limits t).
Proof.
  unfold attribute_head. pose proof (parse_name_refuses t) as Hn.
  destruct (parse_name limits t) as [[p n] u|]; [|done]. cbn [bind].
  destruct (skip_space u) as [|c v]; [done|]. destruct (negb _); [done|]. destruct (skip_space v); [done|].
  by destruct (_ && _).
Qed.

Lemma parse_attributes_refuses fuel : forall reported attributes t r,
  parse_attributes limits fuel reported attributes t = Some r -> refuses r.
Proof.
  induction fuel as [|fuel IH]; intros reported attributes t r E; cbn [parse_attributes] in E;
    (destruct (skip_space t) as [|c v]; [by injection E as <-|]);
    (destruct (Ascii.eqb c ">"); [by injection E as <-|]);
    (destruct (starts_with (lit "/>") (c :: v)); [by injection E as <-|]); [done|].
  pose proof (attribute_head_refuses (c :: v)) as Hh.
  destruct (attribute_head limits (c :: v)) as [[n q] w|]; [|by injection E as <-].
  destruct (value_loop limits (length w) reported q [] w) as [rv|] eqn:Ev; [|done]. cbn [mbind option_bind] in E.
  apply value_loop_refuses in Ev. destruct rv; [|by injection E as <-].
  destruct (_ <=? _); [by injection E as <-|by eapply IH].
Qed.

Lemma skip_misc_refuses t : refuses (skip_misc t).
Proof. unfold skip_misc, refuses. repeat case_match; simplify_eq; done. Qed.

(** ** Each construct *)

Hypothesis limits_ok : 0 <= maxTextLength limits /\ 0 <= maxAttributes limits /\ 0 <= maxDepth limits /\ 0 <= maxElements limits.

(** What each function is shown to do: return, and shorten the text if it found
    nothing wrong. *)
Definition proceeds (q : rparser) (other : S -> option (XmlError * XmlParser S))
    (own : option (XmlError * rparser)) : Prop :=
  exists e q' es, own = Some (e, q') /\ (e = Ok -> (length (text q') < length (text q))%nat) /\ advances q other e q' es.

Lemma proceeds_error q t e : inv q -> t `suffix_of` text q -> e <> Ok ->
  proceeds q (fun s => Some (e, at_ t (move s q))) (Some (e, at_ t q)).
Proof. intros Hi Ht He. exists e, (at_ t q), []. split; [done|]. split; [done|]. by apply adv_at. Qed.

Lemma proceeds_ext q f g own : (forall s, f s = g s) -> proceeds q g own -> proceeds q f own.
Proof.
  intros Hfg (e & q' & es & E & Hl & [H1 H2 H3 H10 H4 H5 H6 H7 H8 H9]). exists e, q', es. split; [done|]. split; [done|].
  constructor; try done. intros s s'. rewrite Hfg. apply H9.
Qed.

Lemma reported_nonneg q : inv q -> 0 <= reported q.
Proof.
  intros [Hl _ _]. unfold reported. destruct (stack q) as [|o st]; [done|]. by apply Forall_cons in Hl as [[? _] _].
Qed.

Lemma parse_text_proceeds q c t :
  inv q -> stack q <> [] -> text q = c :: t -> Ascii.eqb c "<" = false ->
  proceeds q (fun s => parse_text limits (move s q)) (parse_text limits q).
Proof.
  intros Hinv Hne Et Hc. unfold parse_text. change (text (move ?s q)) with (text q). change (reported (move ?s q)) with (reported q).
  pose proof (reported_nonneg q Hinv) as Hrep.
  destruct (text_loop_total limits (length (text q)) (reported q) [] (text q)) as (r & E & Hs & Hd & _); [done|].
  rewrite Et in Hd. specialize (Hd Hc). rewrite E. cbn [mbind option_bind].
  apply (andThen_advances r q emit _ _ emit); [done|done|done|done| |by eapply refuses_bad, text_loop_refuses].
  intros out u ->. pose proof (Hd out u eq_refl) as Hu. apply suffix_length in Hu.
  assert (zlen out <= maxTextLength limits) as Hout by (eapply text_loop_size; [exact Hrep| |exact E]; apply limits_ok).
  destruct (emit_advances (at_ u q) out) as (q' & es & Ee & Etx & Ha); [by destruct Hinv|done|done|].
  exists Ok, q', es. split; [exact Ee|]. split; [intros _; rewrite Etx, Et; cbn; lia|]. exact Ha.
Qed.

Lemma parse_cdata_proceeds q :
  inv q -> stack q <> [] -> starts_with (lit "<![CDATA[") (text q) = true ->
  proceeds q (fun s => parse_cdata limits (move s q)) (parse_cdata limits q).
Proof.
  intros Hinv Hne Hst. unfold parse_cdata. change (text (move ?s q)) with (text q). change (reported (move ?s q)) with (reported q).
  pose proof (reported_nonneg q Hinv) as Hrep. apply starts_with_spec in Hst as [t Et].
  assert (drop 9 (text q) = t) as -> by (by rewrite Et).
  assert (t `suffix_of` text q) as Hs by (rewrite Et; by exists (lit "<![CDATA[")).
  destruct (find_sub (lit "]]>") t) as [n|]; [|by apply proceeds_error].
  destruct (append_text limits (reported q) [] (take n t)) as [out|] eqn:Ea; [|by apply proceeds_error].
  apply append_text_size in Ea as [_ Hout]; [|done].
  destruct (emit_advances (at_ t q) out) as (q' & es & Ee & Etx & Ha); [by destruct Hinv|done|done|].
  rewrite Ee. cbn [mbind option_bind]. rewrite bool_decide_eq_true_2 by done.
  exists Ok, (at_ (drop (n + 3) t) q'), es. split; [done|]. split.
  { intros _. cbn. rewrite Et, length_app, length_drop. cbn. lia. }
  apply adv_text_trans with t; [done|]. destruct Ha as [H1 H2 H3 H10 H4 H5 H6 H7 H8 H9]. constructor; try done.
  - cbn. apply drop_suffix.
  - by destruct H8.
  - intros s s' Hr. cbn in *. change (at_ t (move s q)) with (move s (at_ t q)). by rewrite (H9 s s' Hr).
Qed.

Lemma proceeds_counted q t n e : inv q -> t `suffix_of` text q -> e <> Ok ->
  proceeds q (fun s => Some (e, mkParser t s n (had_root q) (stack q)))
    (Some (e, mkParser t (sink q) n (had_root q) (stack q))).
Proof.
  intros [] Ht He. eexists e, _, []. split; [done|]. split; [done|]. constructor; cbn; try done.
  - by rewrite app_nil_r.
  - intros s s' [= ->]. done.
Qed.

Lemma tell_content {A} `{!XmlSink A} (s : A) p f : tell (Some (Ok, s)) p f = f (with_sink s p).
Proof. reflexivity. Qed.

(** A start tag is told, and an end with it when the tag closes itself. *)
Lemma start_tag_proceeds q u prefix name attributes (empty : bool) :
  inv q -> u `suffix_of` text q -> (length u < length (text q))%nat ->
  zlen (stack q) < maxDepth limits -> elements q + 1 <= maxElements limits ->
  name <> [] -> zlen prefix + zlen name <= maxNameLength limits ->
  zlen attributes <= maxAttributes limits ->
  Forall (fun a => zlen a.1 <= maxNameLength limits /\ zlen a.2 <= maxTextLength limits) attributes ->
  let tag {A} `{!XmlSink A} (s : A) :=
    let p := mkParser u s (elements q + 1) (if bool_decide (stack q = []) then true else had_root q)
               (mkOpen prefix name 0 :: stack q) in
    tell (sink_open prefix name attributes s) p (fun p =>
      if empty then
        match stack p with
        | [] => None
        | closing :: st =>
            tell (sink_close (o_prefix closing) (o_name closing) (sink p)) p (fun p => Some (Ok, with_stack st p))
        end
      else Some (Ok, p)) in
  proceeds q (fun s => tag s) (tag (sink q)).
Proof.
  intros Hinv Hu Hlen Hd He Hne Hn Ha Hv tag. subst tag. pose proof Hinv as [Hl Hdep Hr].
  assert (Forall (event_ok limits) [StartElement prefix name attributes; EndElement prefix name]) as Hev.
  { by repeat constructor. }
  assert (forall es, starts es = 1 -> (if bool_decide (stack q = []) then true else had_root q) = had_root q || (0 <? starts es)) as Hroot.
  { intros es ->. destruct (bool_decide_reflect (stack q = [])); [by rewrite orb_true_r|]. by rewrite Hr. }
  cbv zeta. change (sink_open prefix name attributes (sink q)) with
    (Some (Ok, sink q ++ [StartElement prefix name attributes])). rewrite tell_content.
  destruct empty.
  - cbn [stack sink with_sink o_prefix o_name]. change (sink_close prefix name ?s) with (Some (Ok, s ++ [EndElement prefix name])).
    rewrite tell_content.
    eexists Ok, _, [StartElement prefix name attributes; EndElement prefix name]. split; [reflexivity|]. split; [done|].
    constructor; cbn; try done.
    + by rewrite <- app_assoc.
    + rewrite bool_decide_eq_true_2 by done. done.
    + lia.
    + intros _. by apply Hroot.
    + constructor; cbn; [done|done|]. intros Hs. by rewrite (bool_decide_eq_false_2 (stack q = [])), Hr.
    + intros s s'. unfold tell. destruct (sink_open prefix name attributes s) as [[[] s1]|]; try done. cbn.
      destruct (sink_close prefix name s1) as [[[] s2]|]; try done. by intros [= ->].
  - eexists Ok, _, [StartElement prefix name attributes]. split; [reflexivity|]. split; [done|].
    constructor; cbn; try done.
    + lia.
    + by apply Forall_cons in Hev as [? _]; constructor.
    + intros _. by apply Hroot.
    + constructor; cbn.
      * constructor; [|done]. cbn. pose proof (zlen_nonneg prefix). done.
      * rewrite zlen_cons. lia.
      * intros _. destruct (bool_decide_reflect (stack q = [])); [done|by apply Hr].
    + intros s s'. unfold tell. destruct (sink_open prefix name attributes s) as [[[] s1]|]; try done. by intros [= ->].
Qed.

Lemma parse_element_proceeds q c t :
  inv q -> text q = c :: t -> proceeds q (fun s => parse_element limits (move s q)) (parse_element limits q).
Proof.
  intros Hinv Et. unfold parse_element. cbn [text move sink elements had_root stack]. rewrite Et. change (drop 1 (c :: t)) with t.
  assert (t `suffix_of` text q) as Hs by (rewrite Et; by exists [c]).
  destruct (Z.ltb_spec (maxElements limits) (elements q + 1)) as [|He]; [by apply proceeds_counted|].
  destruct (Z.leb_spec (maxDepth limits) (zlen (stack q))) as [|Hd]; [by apply proceeds_counted|].
  destruct (bool_decide (stack q = []) && had_root q); [by apply proceeds_counted|].
  destruct (parse_name_suffix limits t) as [H1 H2]. pose proof (parse_name_refuses t) as H3.
  destruct (parse_name limits t) as [[prefix name] u|e u] eqn:En; cbn [andThen rest] in *.
  2:{ apply (proceeds_counted q u (elements q + 1) e); [done|by trans t|exact H3]. }
  apply parse_name_size in En as (Hne & Hn & _). specialize (H2 _ _ eq_refl).
  pose proof (reported_nonneg q Hinv) as Hrep.
  destruct (parse_attributes_total limits (length u) (reported q) [] u ltac:(done)) as (r & Er & Hru).
  change (reported (at_ u (mkParser t ?s ?n ?h (stack q)))) with (reported q).
  change (text (at_ u ?p)) with u. rewrite Er. cbn [mbind option_bind].
  destruct r as [[attributes empty] v|e v]; cbn [andThen rest] in *.
  - apply parse_attributes_ok in Er as [Ha Hv]; [|done|apply limits_ok|apply limits_ok|done].
    unfold at_. cbn [text sink elements had_root stack].
    apply (start_tag_proceeds q v prefix name attributes empty); try done.
    + by trans u; [|trans t].
    + apply suffix_length in Hru, H1. rewrite Et. cbn [length]. lia.
  - apply parse_attributes_refuses in Er. unfold at_. cbn [text sink elements had_root stack].
    apply (proceeds_counted q v (elements q + 1) e); [done|by trans u; [|trans t]|exact Er].
Qed.

Lemma parse_end_tag_proceeds q :
  inv q -> text q <> [] -> proceeds q (fun s => parse_end_tag limits (move s q)) (parse_end_tag limits q).
Proof.
  intros Hinv Htx. unfold parse_end_tag. change (text (move ?s q)) with (text q).
  destruct (parse_name_suffix limits (drop 2 (text q))) as [H1 H2]. pose proof (parse_name_refuses (drop 2 (text q))) as H3.
  pose proof (drop_suffix 2 (text q)) as H0. pose proof (suffix_length _ _ H0) as H0l.
  destruct (parse_name limits (drop 2 (text q))) as [[prefix name] u|e u] eqn:En; cbn [andThen rest] in *.
  2:{ apply proceeds_error; [done|by trans (drop 2 (text q))|exact H3]. }
  apply parse_name_size in En as (Hne & Hn & _). specialize (H2 _ _ eq_refl).
  assert (u `suffix_of` text q) as Hu by (by trans (drop 2 (text q))).
  change (text (at_ u ?p)) with u. pose proof (skip_space_suffix u) as H4.
  destruct (skip_space u) as [|c v]; [apply (proceeds_error q [] Truncated); [done|apply suffix_nil|done]|].
  assert (c :: v `suffix_of` text q) as Hcv by (by trans u).
  destruct (negb (Ascii.eqb c ">")); [by apply (proceeds_error q (c :: v) Syntax)|].
  apply suffix_cons_l in Hcv as Hv. change (stack (at_ v (at_ u ?p))) with (stack p). change (stack (move ?s q)) with (stack q).
  pose proof Hinv as [Hl Hd Hr].
  destruct (stack q) as [|o st] eqn:Est; [by apply (proceeds_error q v Mismatch)|].
  destruct (bool_decide_reflect (o_name o = name)) as [Eo|]; cbn [negb]; [|by apply (proceeds_error q v)].
  change (sink_close prefix name (sink (at_ v (at_ u q)))) with (Some (Ok, sink q ++ [EndElement prefix name])).
  rewrite tell_content. eexists Ok, _, [EndElement prefix name]. split; [reflexivity|]. split.
  { intros _. cbn. apply suffix_length in Hv, H4. cbn [length] in H4. destruct (text q); [done|]. cbn in *. lia. }
  constructor; cbn; try done.
  - unfold names. rewrite Est. cbn. by rewrite bool_decide_eq_true_2.
  - rewrite Est. lia.
  - by repeat constructor.
  - intros _. change (starts _) with 0. lia.
  - intros _. by rewrite orb_false_r.
  - apply Forall_cons in Hl as [_ Hl]. constructor; cbn; [done| |].
    + rewrite zlen_cons in Hd. lia.
    + intros _. by apply Hr.
  - intros s s'. change (sink (at_ v (at_ u (move s q)))) with s. unfold tell.
    destruct (sink_close prefix name s) as [[[] s1]|]; try done. by intros [= ->].
Qed.

Lemma round_proceeds q :
  inv q -> text q <> [] -> proceeds q (fun s => round limits (move s q)) (round limits q).
Proof.
  intros Hinv Htx. unfold round. change (text (move ?s q)) with (text q). change (stack (move ?s q)) with (stack q).
  destruct (text q) as [|c t] eqn:Et; [done|].
  destruct (Ascii.eqb c "<") eqn:Ec; cbn [negb].
  2:{ destruct (stack q) as [|o st] eqn:Es.
      - destruct (negb (is_space c)).
        + pose proof (proceeds_error q (text q) Syntax Hinv ltac:(done) ltac:(done)) as H. by destruct q.
        + exists Ok, (at_ t q), []. split; [done|]. split; [intros _; rewrite Et; cbn; lia|].
          apply adv_at; [done|]. rewrite Et. by exists [c].
      - apply (parse_text_proceeds q c t); [done|by rewrite Es|done|done]. }
  destruct (starts_with (lit "<![CDATA[") (c :: t)) eqn:Ecd.
  { destruct (stack q) as [|o st] eqn:Es.
    - pose proof (proceeds_error q (text q) Syntax Hinv ltac:(done) ltac:(done)) as H. by destruct q.
    - apply parse_cdata_proceeds; [done|by rewrite Es|by rewrite Et]. }
  destruct (skip_misc_suffix (c :: t)) as (H1 & H2 & H3). pose proof (skip_misc_refuses (c :: t)) as H4.
  destruct (skip_misc (c :: t)) as [[] u|e u]; cbn [andThen rest] in *.
  - exists Ok, (at_ u q), []. split; [done|]. split; [intros _; rewrite Et; by apply H3|]. apply adv_at; [done|by rewrite Et].
  - specialize (H2 u eq_refl). subst u. change (text (at_ (c :: t) ?p)) with (c :: t).
    assert (at_ (c :: t) q = q) as Eq by (rewrite <- Et; by destruct q).
    assert (forall s : S, at_ (c :: t) (move s q) = move s q) as Eqs by (intros s; rewrite <- Et; by destruct q).
    destruct (starts_with (lit "</") (c :: t)).
    { rewrite Eq. apply (proceeds_ext q _ (fun s => parse_end_tag limits (move s q))); [intros s; by rewrite Eqs|].
      apply parse_end_tag_proceeds; [done|by rewrite Et]. }
    destruct (_ <=? _)%nat.
    { apply proceeds_error; [done|by rewrite Et|done]. }
    rewrite Eq. apply (proceeds_ext q _ (fun s => parse_element limits (move s q))); [intros s; by rewrite Eqs|].
    by apply (parse_element_proceeds q c t).
  - apply proceeds_error; [done|by rewrite Et|exact H4].
Qed.

Lemma run_loop_advances fuel : forall q, inv q -> (length (text q) <= fuel)%nat ->
  exists e q' es, run_loop limits fuel q = Some (e, q') /\ (e = Ok -> text q' = []) /\
    advances q (fun s => run_loop limits fuel (move s q)) e q' es.
Proof.
  assert (forall q, inv q -> advances q (fun s => Some (Ok, move s q)) Ok q []) as Hstop.
  { intros q Hinv. pose proof (adv_at q (text q) Ok Hinv ltac:(done)) as H. by destruct q. }
  induction fuel as [|fuel IH]; intros q Hinv Hf; cbn [run_loop]; change (text (move ?s q)) with (text q).
  - destruct (text q) eqn:Et; [|cbn in Hf; lia]. exists Ok, q, []. split; [done|]. split; [done|by apply Hstop].
  - destruct (text q) as [|c t] eqn:Et; [exists Ok, q, []; split; [done|]; split; [done|by apply Hstop]|].
    destruct (round_proceeds q Hinv) as (e & q1 & es1 & E1 & Hl & Ha); [by rewrite Et|].
    rewrite E1. cbn [mbind option_bind]. destruct (bool_decide_reflect (e = Ok)) as [->|He].
    + specialize (Hl eq_refl). rewrite Et in Hl.
      destruct (IH q1) as (e & q2 & es2 & E2 & Hend & Ha2); [by eapply adv_inv|cbn in *; lia|].
      exists e, q2, (es1 ++ es2). split; [exact E2|]. split; [exact Hend|].
      eapply adv_trans; [exact Ha|exact Ha2|]. intros s s1 Es. by rewrite Es.
    + exists e, q1, es1. split; [done|]. split; [done|]. destruct Ha as [A1 A2 A3 A10 A4 A5 A6 A7 A8 A9]. constructor; try done.
      intros s s' Hs. rewrite (A9 s s' Hs). cbn [mbind option_bind]. by rewrite bool_decide_eq_false_2.
Qed.

(** A run from the start. *)
Lemma run_advances input :
  exists e q' es, run limits (new_XmlParser input []) = Some (e, q') /\ sink q' = es /\
    text q' `suffix_of` input /\ Forall (event_ok limits) es /\
    (exists st, opened es [] = Some st) /\ shallow (maxDepth limits) es 0 /\
    (e = Ok -> text q' = [] /\ opened es [] = Some [] /\ 0 < starts es /\ starts es <= maxElements limits) /\
    forall s s', replay es s = Some s' -> run limits (new_XmlParser input s) = Some (e, move s' q').
Proof.
  unfold run. cbn [text new_XmlParser].
  destruct (Z.ltb_spec (maxDocumentSize limits) (zlen input)).
  { eexists _, _, []. split; [reflexivity|]. split; [done|]. split; [done|]. split; [done|].
    split; [by exists []|]. split; [apply limits_ok|]. split; [done|]. by intros s s' [= ->]. }
  set (t := parse_prolog input).
  assert (t `suffix_of` input) as Ht by (unfold t, parse_prolog; destruct (starts_with _ _); [apply drop_suffix|done]).
  set (q := at_ t (new_XmlParser input [])).
  assert (inv q) as Hinv by (constructor; cbn; [done|apply limits_ok|done]).
  destruct (run_loop_advances (length t) q Hinv ltac:(done)) as (e & q' & es & E & Hend & [A1 A2 A3 A10 A4 A5 A6 A7 A8 A9]).
  change (text q) with t. rewrite E. change (text (at_ t (new_XmlParser input ?s))) with t. cbn [mbind option_bind].
  assert (forall s s', replay es s = Some s' ->
    run_loop limits (length t) (at_ t (new_XmlParser input s)) = Some (e, move s' q')) as Hrun by exact A9.
  assert (text q' `suffix_of` input) as Hs by (by trans t).
  assert (opened es [] = Some (names q')) as Hop by exact A3.
  assert (shallow (maxDepth limits) es 0) as Hsh by exact A10.
  assert (sink q' = es) as Esink by exact A1.
  destruct (bool_decide_reflect (e = Ok)) as [->|He]; cbn [negb].
  2:{ exists e, q', es. split; [done|]. split; [done|]. split; [done|]. split; [done|].
      split; [by eexists|]. split; [done|]. split; [done|]. intros s s' Hr. rewrite (Hrun s s' Hr). cbn [mbind option_bind].
      by rewrite (bool_decide_eq_false_2 (e = Ok)). }
  destruct (bool_decide_reflect (stack q' = [])) as [Est|Est]; cbn [negb].
  2:{ exists Truncated, q', es. split; [done|]. split; [done|]. split; [done|]. split; [done|].
      split; [by eexists|]. split; [done|]. split; [done|]. intros s s' Hr. rewrite (Hrun s s' Hr). cbn [mbind option_bind].
      cbn. by rewrite (bool_decide_eq_false_2 (stack q' = [])). }
  destruct (had_root q') eqn:Eh; cbn [negb].
  2:{ exists Truncated, q', es. split; [done|]. split; [done|]. split; [done|]. split; [done|].
      split; [by eexists|]. split; [done|]. split; [done|]. intros s s' Hr. rewrite (Hrun s s' Hr). cbn [mbind option_bind].
      cbn. rewrite (bool_decide_eq_true_2 (stack q' = [])) by done. by rewrite Eh. }
  exists Ok, q', es. split; [done|]. split; [done|]. split; [done|]. split; [done|].
  split; [by eexists|]. split; [done|]. split.
  - intros _. split; [by apply Hend|]. unfold names in Hop. rewrite Est in Hop. split; [done|].
    pose proof (A7 eq_refl) as Hroot. cbn in Hroot. symmetry in Hroot. apply Z.ltb_lt in Hroot.
    pose proof (A5 eq_refl) as H5. pose proof (A6 eq_refl) as H6. cbn in H5, H6. split; [done|].
    assert (0 <= maxElements limits) by apply limits_ok. rewrite H5 in H6. by apply H6.
  - intros s s' Hr. rewrite (Hrun s s' Hr). cbn [mbind option_bind]. cbn.
    rewrite (bool_decide_eq_true_2 (stack q' = [])) by done. by rewrite Eh.
Qed.
End advance.
