(* ===== verification/XmlTree.v ===== *)
(** * XmlTree: the two sinks of [src/io/xml.cpp], and what the tree offers

    [XmlTreeSink] assembles the tree that [XmlDocument] hands out, [XmlHandlerSink]
    forwards to a handler for [XmlReader]. The stack of borrowed pointers into the
    tree is kept as the open elements themselves, innermost first: an element goes
    to its parent when it is closed, being the parent's last child until then. The
    main results: both ways of reading accept the same documents, the tree is the
    one the events describe and within the limits, and a tree written out with
    [xml_escape] reads back. *)

From S2P Require Import Prelude Strings Xml.

(** ** The tree *)

#[local] Unset Elimination Schemes.
(* @src src/include/samurai/io/xml.h:116-120 Samurai::IO::XmlElement *)
Inductive XmlElement := Element (prefix name text : bytes) (attributes : Attributes) (children : list XmlElement).
#[local] Set Elimination Schemes.

Definition e_prefix (e : XmlElement) : bytes := let 'Element p _ _ _ _ := e in p.
Definition e_name (e : XmlElement) : bytes := let 'Element _ n _ _ _ := e in n.
Definition e_text (e : XmlElement) : bytes := let 'Element _ _ t _ _ := e in t.
Definition e_attributes (e : XmlElement) : Attributes := let 'Element _ _ _ a _ := e in a.
Definition e_children (e : XmlElement) : list XmlElement := let 'Element _ _ _ _ c := e in c.

Definition add_text (chunk : bytes) (e : XmlElement) : XmlElement :=
  let 'Element p n t a c := e in Element p n (t ++ chunk) a c.
Definition add_child (child e : XmlElement) : XmlElement :=
  let 'Element p n t a c := e in Element p n t a (c ++ [child]).

(* @src src/src/io/xml.cpp:636-643 Samurai::IO::XmlElement::getAttribute *)
Fixpoint getAttribute (attribute : bytes) (attributes : Attributes) : option bytes :=
  match attributes with
  | [] => None
  | (key, value) :: attributes => if bool_decide (key = attribute) then Some value else getAttribute attribute attributes
  end.

(* @src src/src/io/xml.cpp:646-653 Samurai::IO::XmlElement::findChild *)
Fixpoint find_named (child : bytes) (children : list XmlElement) : option XmlElement :=
  match children with
  | [] => None
  | candidate :: children => if bool_decide (e_name candidate = child) then Some candidate else find_named child children
  end.
Definition findChild (child : bytes) (e : XmlElement) : option XmlElement := find_named child (e_children e).

(* @src src/src/io/xml.cpp:656-664 Samurai::IO::XmlElement::findChildren *)
Definition findChildren (child : bytes) (e : XmlElement) : list XmlElement :=
  fold_left (fun found candidate => if bool_decide (e_name candidate = child) then found ++ [candidate] else found)
    (e_children e) [].

(** One level: the first match among the children, or the next level. *)
(* @src src/src/io/xml.cpp:680-688 Samurai::IO::XmlElement::findDescendant *)
Fixpoint search_level (descendant : bytes) (level next : list XmlElement) : XmlElement + list XmlElement :=
  match level with
  | [] => inr next
  | element :: level =>
      match find_named descendant (e_children element) with
      | Some candidate => inl candidate
      | None => search_level descendant level (next ++ e_children element)
      end
  end.
(* @src src/src/io/xml.cpp:677-689 Samurai::IO::XmlElement::findDescendant *)
Fixpoint search_levels (fuel : nat) (descendant : bytes) (level : list XmlElement) : option (option XmlElement) :=
  match level with
  | [] => Some None
  | _ =>
      match fuel with
      | O => None
      | S fuel =>
          match search_level descendant level [] with
          | inl found => Some (Some found)
          | inr next => search_levels fuel descendant next
          end
      end
  end.

(** The levels of an element. *)
Fixpoint height (e : XmlElement) : nat :=
  let 'Element _ _ _ _ children := e in S (fold_right (fun c h => Nat.max (height c) h) 0%nat children).

(* @src src/src/io/xml.cpp:671-692 Samurai::IO::XmlElement::findDescendant *)
Definition findDescendant (descendant : bytes) (e : XmlElement) : option (option XmlElement) :=
  search_levels (height e) descendant [e].

(* @src src/src/io/xml.cpp:695-701 Samurai::IO::XmlElement::getChildText *)
Definition getChildText (child : bytes) (e : XmlElement) : bytes :=
  match findChild child e with None => [] | Some found => trim (e_text found) end.

(** ** The sinks *)

(* @src src/src/io/xml.cpp:102-104 Samurai::IO::XmlTreeSink *)
Record XmlTreeSink := mkTreeSink { document : option XmlElement; open_ : list XmlElement }.

(* @src src/src/io/xml.cpp:66-81 Samurai::IO::XmlTreeSink::open *)
Definition tree_open (prefix name : bytes) (attributes : Attributes) (s : XmlTreeSink) : option (XmlError * XmlTreeSink) :=
  Some (Ok, mkTreeSink (document s) (Element prefix name [] attributes [] :: open_ s)).

(* @src src/src/io/xml.cpp:83-87 Samurai::IO::XmlTreeSink::close *)
Definition tree_close (_ _ : bytes) (s : XmlTreeSink) : option (XmlError * XmlTreeSink) :=
  match open_ s with
  | [] => None
  | [e] => Some (Ok, mkTreeSink (Some e) [])
  | e :: parent :: st => Some (Ok, mkTreeSink (document s) (add_child e parent :: st))
  end.

(* @src src/src/io/xml.cpp:93-97 Samurai::IO::XmlTreeSink::characters *)
Definition tree_characters (chunk : bytes) (s : XmlTreeSink) : option (XmlError * XmlTreeSink) :=
  match open_ s with
  | [] => None
  | e :: st => Some (Ok, mkTreeSink (document s) (add_text chunk e :: st))
  end.

#[export] Instance tree_sink : XmlSink XmlTreeSink := {
  sink_open := tree_open; sink_close := tree_close; sink_characters := tree_characters
}.

(** What a handler is: its state and what it does when it is told. *)
(* @src src/include/samurai/io/xml.h:216-256 Samurai::IO::XmlContentHandler *)
Class XmlContentHandler (H : Type) := {
  startDocument : H -> H;
  endDocument : H -> H;
  startElement : bytes -> bytes -> Attributes -> H -> H;
  endElement : bytes -> bytes -> H -> H;
  characters : bytes -> H -> H
}.

(** The sink that forwards to a handler and keeps nothing. *)
(* @src src/src/io/xml.cpp:114-119 Samurai::IO::XmlHandlerSink::open *)
Definition handler_open {H} `{!XmlContentHandler H} (prefix name : bytes) (attributes : Attributes) (h : H) : option (XmlError * H) :=
  Some (Ok, startElement prefix name attributes h).
(* @src src/src/io/xml.cpp:121-125 Samurai::IO::XmlHandlerSink::close *)
Definition handler_close {H} `{!XmlContentHandler H} (prefix name : bytes) (h : H) : option (XmlError * H) :=
  Some (Ok, endElement prefix name h).
(* @src src/src/io/xml.cpp:127-131 Samurai::IO::XmlHandlerSink::characters *)
Definition handler_characters {H} `{!XmlContentHandler H} (chunk : bytes) (h : H) : option (XmlError * H) :=
  Some (Ok, characters chunk h).

#[export] Instance handler_sink {H} `{!XmlContentHandler H} : XmlSink H := {
  sink_open := handler_open; sink_close := handler_close; sink_characters := handler_characters
}.

(** ** Reading a document *)

(* @src src/include/samurai/io/xml.h:197-199 Samurai::IO::XmlDocument *)
Record XmlDocument := mkDocument { root : option XmlElement; error : XmlError; error_offset : Z }.

(* @src src/src/io/xml.cpp:727-745 Samurai::IO::XmlDocument::parse *)
Definition parse_document (limits : Limits) (text : bytes) : option XmlDocument :=
  '(e, p) ← run limits (new_XmlParser text (mkTreeSink None []));
  Some (mkDocument (if bool_decide (e = Ok) then document (sink p) else None) e (offset text p)).

(* @src src/src/io/xml.cpp:756-775 Samurai::IO::XmlReader::parse *)
Definition read_document {H} `{!XmlContentHandler H} (limits : Limits) (text : bytes) (handler : H)
    : option (XmlError * Z * H) :=
  '(e, p) ← run limits (new_XmlParser text (startDocument handler));
  Some (e, offset text p, if bool_decide (e = Ok) then endDocument (sink p) else sink p).

(* @src src/src/io/xml.cpp:720-724 Samurai::IO::XmlDocument::parse *)
Definition parse_default (text : bytes) : option XmlDocument := parse_document default_Limits text.

(** ** Some documents *)

Example small_document :
  root <$> parse_default (lit "<?xml version='1.0'?><a x='1&lt;2'>t&#65;<s:b/><!-- c -->u</a>") =
  Some (Some (Element [] (lit "a") (lit "tAu") [(lit "x", lit "1<2")] [Element (lit "s") (lit "b") [] [] []])).
Proof. vm_compute. reflexivity. Qed.

Example refused_documents :
  map (fun t => error <$> parse_default (lit t))
    ["<!DOCTYPE a><a/>"; "<a>&x;</a>"; "<a></b>"; "<a/><b/>"; "<a>"; ""; "<a><"; "<a b=1/>"]%string =
  map Some [Unsupported; Syntax; Mismatch; Syntax; Truncated; Truncated; Truncated; Syntax].
Proof. vm_compute. reflexivity. Qed.

(** ** Trees *)

(** Induction with the hypothesis for every child. *)
Lemma XmlElement_ind (P : XmlElement -> Prop) :
  (forall p n t a c, Forall P c -> P (Element p n t a c)) -> forall e, P e.
Proof.
  intros H. fix IH 1. intros [p n t a c]. apply H. induction c as [|e c IHc]; constructor; [apply IH|exact IHc].
Qed.

(** The number of elements. *)
Fixpoint count (e : XmlElement) : Z :=
  let 'Element _ _ _ _ children := e in 1 + fold_right (fun c n => count c + n) 0 children.
Definition counts (l : list XmlElement) : Z := fold_right (fun c n => count c + n) 0 l.

Definition heights (l : list XmlElement) : nat := fold_right (fun c h => Nat.max (height c) h) 0%nat l.

(** What holds of every element of the tree. *)
Fixpoint every (P : bytes -> bytes -> Attributes -> Prop) (e : XmlElement) : Prop :=
  let 'Element p n _ a children := e in P p n a /\ fold_right (fun c Q => every P c /\ Q) True children.
Definition every_of (P : bytes -> bytes -> Attributes -> Prop) (l : list XmlElement) : Prop :=
  fold_right (fun c Q => every P c /\ Q) True l.

Lemma counts_app a b : counts (a ++ b) = counts a + counts b.
Proof. induction a as [|e a IH]; [done|]. cbn. unfold counts in *. lia. Qed.

Lemma heights_app a b : heights (a ++ b) = Nat.max (heights a) (heights b).
Proof. induction a as [|e a IH]; [done|]. cbn. unfold heights in *. lia. Qed.

Lemma every_of_app P a b : every_of P (a ++ b) <-> every_of P a /\ every_of P b.
Proof. induction a as [|e a IH]; cbn; [tauto|]. unfold every_of in *. tauto. Qed.

Lemma count_pos e : 0 < count e.
Proof.
  induction e as [p n t a c IH] using XmlElement_ind. cbn. induction IH as [|e c He _ IH]; cbn in *; lia.
Qed.

Lemma count_add_child c e : count (add_child c e) = count e + count c.
Proof. destruct e. cbn. fold (counts (children ++ [c])) (counts children). rewrite counts_app. cbn. lia. Qed.

Lemma height_add_child c e : height (add_child c e) = Nat.max (height e) (S (height c)).
Proof. destruct e. cbn. fold (heights (children ++ [c])) (heights children). rewrite heights_app. cbn. lia. Qed.

Lemma every_add_child P c e : every P (add_child c e) <-> every P e /\ every P c.
Proof.
  destruct e. cbn. fold (every_of P (children ++ [c])) (every_of P children). rewrite every_of_app. cbn. tauto.
Qed.

Lemma add_text_same chunk e :
  count (add_text chunk e) = count e /\ height (add_text chunk e) = height e /\ e_name (add_text chunk e) = e_name e /\
  forall P, every P (add_text chunk e) <-> every P e.
Proof. by destruct e. Qed.

Lemma add_child_name c e : e_name (add_child c e) = e_name e.
Proof. by destruct e. Qed.

(** ** Replaying events *)

Definition handle {H} `{!XmlContentHandler H} (h : H) (e : XmlEvent) : H :=
  match e with
  | StartElement prefix name attributes => startElement prefix name attributes h
  | EndElement prefix name => endElement prefix name h
  | Characters chunk => characters chunk h
  end.

Lemma replay_handler {H} `{!XmlContentHandler H} es : forall h : H, replay es h = Some (fold_left handle es h).
Proof. induction es as [|[p n a|p n|c] es IH]; intros h; [done|..]; cbn; apply IH. Qed.

(** The sink is content with events that nest, and holds the elements that are
    open after them. *)
Lemma replay_tree es : forall s st,
  opened es (map e_name (open_ s)) = Some st -> exists s', replay es s = Some s' /\ map e_name (open_ s') = st.
Proof.
  induction es as [|[p n a|p n|c] es IH]; intros s st E.
  - injection E as <-. by exists s.
  - cbn [replay replay1]. cbn. apply IH. exact E.
  - cbn [replay replay1]. cbn. unfold tree_close. cbn [opened] in E. destruct (open_ s) as [|e [|parent o]]; [done|..].
    + cbn [map] in E. destruct (bool_decide _); [|done]. by apply IH.
    + cbn [map] in E. destruct (bool_decide _); [|done]. apply IH. cbn. by rewrite add_child_name.
  - cbn [replay replay1]. cbn. unfold tree_characters. cbn [opened] in E. destruct (open_ s) as [|e o] eqn:Eo; [done|].
    cbn [map] in E. apply IH. cbn. destruct (add_text_same c e) as (_ & _ & -> & _). exact E.
Qed.

(** Once an element has been opened there is one that is open or complete. *)
Definition nonvoid (s : XmlTreeSink) : Prop := is_Some (document s) \/ open_ s <> [].

Lemma replay_nonvoid es : forall s s', replay es s = Some s' -> nonvoid s \/ 0 < starts es -> nonvoid s'.
Proof.
  induction es as [|ev es IH]; intros s s' E Hs.
  - injection E as <-. by destruct Hs.
  - cbn [replay] in E. destruct ev as [p n a|p n|c]; cbn in E.
    + eapply IH; [exact E|]. left. by right.
    + unfold tree_close in E. change (starts (EndElement p n :: es)) with (starts es) in Hs.
      destruct (open_ s) as [|e [|parent o]] eqn:Eo; [done|..]; (eapply IH; [exact E|]); left; [by left; eexists|by right].
    + unfold tree_characters in E. change (starts (Characters c :: es)) with (starts es) in Hs.
      destruct (open_ s) as [|e o] eqn:Eo; [done|]. eapply IH; [exact E|]. left. by right.
Qed.

Section limits.
Variable limits : Limits.

Definition element_ok (prefix name : bytes) (attributes : Attributes) : Prop :=
  event_ok limits (StartElement prefix name attributes).

(** Each open element with all above it fits the depth. *)
Fixpoint fits (st : list XmlElement) : Prop :=
  match st with [] => True | e :: st => zlen st + Z.of_nat (height e) <= maxDepth limits /\ fits st end.

Definition sink_ok (s : XmlTreeSink) (n : Z) : Prop :=
  fits (open_ s) /\ every_of element_ok (open_ s) /\
  match document s with
  | Some e => Z.of_nat (height e) <= maxDepth limits /\ every element_ok e /\ count e <= n
  | None => True
  end /\ counts (open_ s) <= n.

Lemma replay_limits es : forall s s' n,
  Forall (event_ok limits) es -> shallow (maxDepth limits) es (zlen (open_ s)) -> sink_ok s n ->
  replay es s = Some s' -> sink_ok s' (n + starts es).
Proof.
  induction es as [|ev es IH]; intros s s' n Hev Hsh Hok E.
  - injection E as <-. change (starts []) with 0. by rewrite Z.add_0_r.
  - apply Forall_cons in Hev as [Hev Hevs]. destruct Hok as (Hf & He & Hd & Hn).
    destruct ev as [p nm a|p nm|c]; cbn [replay replay1 sink_open sink_close sink_characters tree_sink] in E.
    + cbn in E, Hsh. destruct Hsh as [Hm Hsh].
      assert (starts (StartElement p nm a :: es) = 1 + starts es) as -> by (unfold starts; cbn; by rewrite zlen_cons).
      rewrite Z.add_assoc. eapply IH; [done| | |exact E]; cbn.
      * rewrite zlen_cons. by replace (1 + zlen (open_ s)) with (zlen (open_ s) + 1) by lia.
      * assert (zlen (open_ s) + 1 <= maxDepth limits) as Hle.
        { destruct es as [|[] es']; cbn in Hsh; try lia. clear -Hsh.
          induction es' as [|[] es' IH]; cbn in Hsh; try lia. by apply IH. }
        split; [|split; [|split]]; cbn; [split; [lia|done]|done| |unfold counts in Hn; lia].
        destruct (document s); [|done]. destruct Hd as (? & ? & ?). split; [done|]. split; [done|lia].
    + unfold tree_close in E. cbn in Hsh. destruct Hsh as [Hm Hsh]. change (starts (EndElement p nm :: es)) with (starts es).
      destruct (open_ s) as [|e [|parent o]] eqn:Eo; [done|..].
      * apply (IH (mkTreeSink (Some e) [])); [done|exact Hsh| |exact E]. destruct Hf as [Hf _], He as [He _]. cbn in Hn.
        split; [done|]. split; [done|]. cbn. rewrite zlen_nil in Hf. pose proof (count_pos e).
        split; [|lia]. split; [lia|]. split; [done|lia].
      * cbn [document open_] in *. eapply IH; [done| | |exact E]; cbn.
        -- rewrite !zlen_cons in *. by replace (1 + (1 + zlen o) - 1) with (1 + zlen o) in Hsh by lia.
        -- cbn in Hf, He, Hn. rewrite zlen_cons in Hf. unfold sink_ok. cbn.
           rewrite count_add_child, height_add_child, every_add_child.
           split; [split; [lia|tauto]|]. split; [tauto|]. split; [done|unfold counts in Hn; cbn in Hn; lia].
    + unfold tree_characters in E. change (starts (Characters c :: es)) with (starts es).
      destruct (open_ s) as [|e o] eqn:Eo; [done|].
      apply (IH (mkTreeSink (document s) (add_text c e :: o))); [done|exact Hsh| |exact E].
      destruct (add_text_same c e) as (Hc & Hh & _ & Hev'). unfold sink_ok. cbn in *. rewrite Hc, Hh, Hev'.
      split; [done|]. split; [done|]. split; [done|lia].
Qed.
End limits.

(** ** Properties *)

(** A handler that takes down what it is told. *)
#[local] Instance recording_handler : XmlContentHandler (list XmlEvent) := {
  startDocument := id;
  endDocument := id;
  startElement p n a h := h ++ [StartElement p n a];
  endElement p n h := h ++ [EndElement p n];
  characters c h := h ++ [Characters c]
}.

(** The limits are [size_t]s. *)
Definition limits_valid (limits : Limits) : Prop :=
  0 <= maxTextLength limits /\ 0 <= maxAttributes limits /\ 0 <= maxDepth limits /\ 0 <= maxElements limits.

(** The tree that events describe. *)
Definition assemble (es : list XmlEvent) : option XmlElement := s ← replay es (mkTreeSink None []); document s.

(** C30. The tree and the events are of one document: for any bytes and any
    limits both ways of reading return, with the same verdict and the same offset
    inside the text; the handler is told one sequence of events, nested, within
    the limits, framed by startDocument and - exactly when the document is
    accepted - endDocument; and the document has a tree exactly when it is
    accepted, the tree those events describe. No undefined access is made. *)
Theorem reader_document_agree {H} `{!XmlContentHandler H} limits text (h : H) (Hl : limits_valid limits) :
  exists e offset es root, parse_document limits text = Some (mkDocument root e offset) /\
    read_document limits text h = Some (e, offset,
      (if bool_decide (e = Ok) then endDocument else id) (fold_left handle es (startDocument h))) /\
    0 <= offset <= zlen text /\ Forall (event_ok limits) es /\ is_Some (opened es []) /\
    (e = Ok -> offset = zlen text /\ opened es [] = Some [] /\ is_Some root /\ root = assemble es) /\
    (e <> Ok -> root = None).
Proof.
  destruct (run_advances (S := H) limits Hl text) as (e & q & es & E & Hs & Ht & Hev & [st Hop] & Hsh & Hok & Hrun).
  destruct (run_advances (S := XmlTreeSink) limits Hl text) as (e2 & q2 & es2 & E2 & Hs2 & _ & _ & _ & _ & _ & Hrun2).
  rewrite E in E2. injection E2 as <- <-. rewrite Hs in Hs2. subst es2.
  destruct (replay_tree es (mkTreeSink None []) st Hop) as (s' & Hr & Hnames).
  assert (0 <= zlen text - zlen (Xml.text q) <= zlen text) as Hoff.
  { apply suffix_length in Ht. unfold zlen. lia. }
  exists e, (zlen text - zlen (Xml.text q)), es, (if bool_decide (e = Ok) then document s' else None).
  unfold parse_document, read_document. rewrite (Hrun2 _ _ Hr). cbn [mbind option_bind sink move].
  rewrite (Hrun (startDocument h) _ (replay_handler es _)). cbn [mbind option_bind sink move].
  split; [done|]. split; [by destruct (bool_decide _)|]. split; [exact Hoff|]. split; [done|]. split; [by exists st|].
  split; [|intros He; by rewrite bool_decide_eq_false_2].
  intros ->. destruct (Hok eq_refl) as (Htx & Hop2 & Hst & _). rewrite Htx. rewrite bool_decide_eq_true_2 by done.
  split; [change (zlen (@nil byte)) with 0; lia|]. split; [done|].
  unfold assemble. rewrite Hr. cbn [mbind option_bind]. split; [|done].
  destruct (replay_nonvoid es _ s' Hr) as [?|Hne]; [by right|done|].
  rewrite Hop2 in Hop. injection Hop as <-. by apply map_eq_nil in Hnames.
Qed.

Lemma parse_document_total limits text : limits_valid limits -> is_Some (parse_document limits text).
Proof.
  intros Hl. destruct (run_advances (S := XmlTreeSink) limits Hl text) as (e & q & es & _ & _ & _ & _ & [st Hop] & _ & _ & Hrun).
  destruct (replay_tree es (mkTreeSink None []) st Hop) as (s' & Hr & _).
  unfold parse_document. rewrite (Hrun _ _ Hr). by eexists.
Qed.

Lemma reader_document_agree_witness :
  exists e offset es root, parse_document default_Limits (lit "<a>x</a>") = Some (mkDocument root e offset) /\
    read_document default_Limits (lit "<a>x</a>") ([] : list XmlEvent) = Some (e, offset,
      (if bool_decide (e = Ok) then endDocument else id) (fold_left handle es (startDocument ([] : list XmlEvent)))) /\
    0 <= offset <= zlen (lit "<a>x</a>") /\ Forall (event_ok default_Limits) es /\ is_Some (opened es []) /\
    (e = Ok -> offset = zlen (lit "<a>x</a>") /\ opened es [] = Some [] /\ is_Some root /\ root = assemble es) /\
    (e <> Ok -> root = None).
Proof. apply (reader_document_agree default_Limits (lit "<a>x</a>")). by vm_compute. Defined.

(** C32. Whatever the bytes, a document that is handed out respects the limits: its
    depth, its number of elements, and every name, attribute count and attribute
    value in it. *)
Theorem document_within_limits limits text d e (Hl : limits_valid limits)
  (Hd : parse_document limits text = Some d) (He : root d = Some e) :
  error d = Ok /\ zlen text <= maxDocumentSize limits /\ Z.of_nat (height e) <= maxDepth limits /\
  count e <= maxElements limits /\ every (element_ok limits) e.
Proof.
  destruct (run_advances (S := XmlTreeSink) limits Hl text) as (e0 & q & es & E & Hs & Ht & Hev & [st Hop] & Hsh & Hok & Hrun).
  destruct (replay_tree es (mkTreeSink None []) st Hop) as (s' & Hr & Hnames).
  unfold parse_document in Hd. specialize (Hrun _ _ Hr). rewrite Hrun in Hd. cbn [mbind option_bind sink move] in Hd.
  injection Hd as <-. cbn [root error] in *. destruct (bool_decide_reflect (e0 = Ok)) as [->|]; [|done].
  destruct (Hok eq_refl) as (_ & _ & _ & Hn).
  assert (sink_ok limits s' (0 + starts es)) as (_ & _ & Hdoc & _).
  { apply (replay_limits limits es (mkTreeSink None [])); [done|exact Hsh| |exact Hr]. by repeat split. }
  rewrite He in Hdoc. split; [done|]. split.
  - unfold run in Hrun. cbn [Xml.text new_XmlParser] in Hrun. by destruct (Z.ltb_spec (maxDocumentSize limits) (zlen text)).
  - destruct Hdoc as (? & ? & ?). split; [done|]. split; [lia|done].
Qed.

Lemma document_within_limits_witness :
  exists d e, parse_document default_Limits (lit "<a><b x='1'/>t</a>") = Some d /\ root d = Some e /\ count e <= 8192.
Proof.
  eexists _, _. split; [vm_compute; reflexivity|]. split; [reflexivity|].
  eapply (document_within_limits default_Limits (lit "<a><b x='1'/>t</a>")); [by vm_compute|vm_compute; reflexivity|reflexivity].
Defined.

(** ** Looking things up *)

Lemma find_named_app n a b :
  find_named n (a ++ b) = match find_named n a with Some e => Some e | None => find_named n b end.
Proof. induction a as [|e a IH]; [done|]. cbn. by destruct (bool_decide _). Qed.

Definition children_of (l : list XmlElement) : list XmlElement := concat (map e_children l).

(** Breadth first: all of one level before the next. *)
Fixpoint breadth_first (levels : nat) (l : list XmlElement) : list XmlElement :=
  match levels with O => [] | S levels => children_of l ++ breadth_first levels (children_of l) end.

Lemma search_level_spec n level : forall next,
  search_level n level next =
  match find_named n (children_of level) with Some e => inl e | None => inr (next ++ children_of level) end.
Proof.
  induction level as [|e level IH]; intros next; cbn; [by rewrite app_nil_r|].
  fold (children_of level). rewrite find_named_app, IH. destruct (find_named n (e_children e)); [done|].
  rewrite <- app_assoc. done.
Qed.

Lemma heights_children l : (heights (children_of l) <= Nat.pred (heights l))%nat.
Proof.
  induction l as [|[p nm t a c] l IH]; [done|]. unfold children_of. cbn [map concat e_children]. rewrite heights_app.
  cbn [heights fold_right height]. fold (heights c) (heights l). unfold children_of in IH. lia.
Qed.

Lemma search_levels_spec n fuel : forall level,
  (heights level <= fuel)%nat -> search_levels fuel n level = Some (find_named n (breadth_first fuel level)).
Proof.
  induction fuel as [|fuel IH]; intros level Hf.
  - destruct level as [|[] level]; [done|]. cbn in Hf. lia.
  - destruct level as [|e level].
    + assert (forall k, breadth_first k [] = []) as Hb by (intros k; induction k as [|k IHk]; [done|exact IHk]). by rewrite Hb.
    + cbn [search_levels breadth_first]. rewrite search_level_spec, find_named_app.
      destruct (find_named n (children_of (e :: level))); [done|]. cbn [app]. apply IH.
      pose proof (heights_children (e :: level)). lia.
Qed.

Lemma findDescendant_first n e : findDescendant n e = Some (find_named n (breadth_first (height e) [e])).
Proof. apply search_levels_spec. cbn. lia. Qed.

(** The search for a descendant always ends, and finds the first one of that
    name in breadth-first order: all children before any grandchild, in document
    order within a level; never the element itself. *)
Theorem findDescendant_breadth_first n e :
  findDescendant n e = Some (find_named n (breadth_first (height e) [e])).
Proof. apply findDescendant_first. Qed.

(** ** What modelling showed *)

(** Numeric references are held against a limit of their own: two runs together
    exceed the element's limit, and one that fits is refused. *)
Lemma numeric_references_miscounted :
  let limits n := mkLimits 1000 10 10 10 n 10 in
  (e_text <$> (parse_document (limits 4) (lit "<a>abcd<b/>&#65;</a>") ≫= root)) = Some (lit "abcdA") /\
  error <$> parse_document (limits 3) (lit "<a>&#65;</a>") = Some SizeExceeded /\
  error <$> parse_document (limits 3) (lit "<a>A</a>") = Some Ok.
Proof. by vm_compute. Qed.

(** An attribute value is counted with the text its parent has so far. *)
Lemma attribute_counted_with_parent :
  let limits := mkLimits 1000 10 10 10 4 10 in
  error <$> parse_document limits (lit "<a>abcd<b x='y'/></a>") = Some SizeExceeded /\
  error <$> parse_document limits (lit "<a><b x='y'/>abcd</a>") = Some Ok.
Proof. by vm_compute. Qed.

(** Only the local name of an end tag is compared. *)
Lemma end_tag_prefix_ignored : error <$> parse_default (lit "<a:b></c:b>") = Some Ok.
Proof. by vm_compute. Qed.
