(* ===== verification/XmlPrint.v ===== *)
(** * XmlPrint: a tree written out reads back

    Writing uses [xml_escape] of [src/util/string.cpp] for text and attribute
    values; reading is [XmlDocument::parse]. Any bytes may be text. *)

From S2P Require Import Prelude Strings Xml XmlTree.

(** ** Writing *)

Definition qname (prefix name : bytes) : bytes :=
  if bool_decide (prefix = []) then name else prefix ++ lit ":" ++ name.
Definition print_attribute (a : bytes * bytes) : bytes :=
  lit " " ++ a.1 ++ lit "=" ++ [ch_dquote] ++ xml_escape a.2 ++ [ch_dquote].
Fixpoint print (e : XmlElement) : bytes :=
  let 'Element p n t a c := e in
  lit "<" ++ qname p n ++ concat (map print_attribute a) ++ lit ">" ++
  xml_escape t ++ concat (map print c) ++ lit "</" ++ qname p n ++ lit ">".

(** The events of reading it. *)
Fixpoint events (e : XmlElement) : list XmlEvent :=
  let 'Element p n t a c := e in
  [StartElement p n a] ++ (if bool_decide (t = []) then [] else [Characters t]) ++
  concat (map events c) ++ [EndElement p n].

(** ** What can be written *)

Definition valid_local (n : bytes) : bool :=
  match n with [] => false | c :: _ => is_name_start c && forallb is_name_char n end.
Definition valid_name (p n : bytes) : bool := valid_local n && (bool_decide (p = []) || valid_local p).

(** The limits, with [r] bytes of text already in the parent: the parser counts
    an attribute value with them. *)
Definition writable_attribute (limits : Limits) (r : Z) (a : bytes * bytes) : Prop :=
  (exists p n, a.1 = qname p n /\ valid_name p n = true) /\
  zlen a.1 <= maxNameLength limits /\ r + zlen a.2 <= maxTextLength limits.

Fixpoint writable (limits : Limits) (r : Z) (e : XmlElement) : Prop :=
  let 'Element p n t a c := e in
  valid_name p n = true /\ zlen (qname p n) <= maxNameLength limits /\ zlen t <= maxTextLength limits /\
  zlen a <= maxAttributes limits /\ Forall (writable_attribute limits r) a /\
  fold_right (fun e P => writable limits (zlen t) e /\ P) True c.

(** ** Scanning *)

Lemma span_stop p a tl : Forall (fun c => p c = true) a -> match tl with [] => True | c :: _ => p c = false end ->
  span p (a ++ tl) = (a, tl).
Proof.
  induction 1 as [|c a Hc Ha IH]; intros Ht.
  - destruct tl as [|c tl]; [done|]. cbn. by rewrite Ht.
  - cbn. rewrite Hc, (IH Ht). done.
Qed.

Lemma xml_escape_fold m : forall out, fold_left (fun o c => o ++ xml_escape_char c) m out = out ++ xml_escape m.
Proof.
  unfold xml_escape. induction m as [|c m IH]; intros out; [by rewrite app_nil_r|]. cbn.
  rewrite IH, (IH (xml_escape_char c)). by rewrite app_assoc.
Qed.

Lemma xml_escape_cons c m : xml_escape (c :: m) = xml_escape_char c ++ xml_escape m.
Proof. unfold xml_escape. cbn. by rewrite xml_escape_fold. Qed.

(** What is escaped. *)
Definition special (c : byte) : bool :=
  Ascii.eqb c "&" || Ascii.eqb c "<" || Ascii.eqb c ">" || Ascii.eqb c ch_dquote || Ascii.eqb c "'".

Lemma xml_escape_plain c : special c = false -> xml_escape_char c = [c].
Proof.
  unfold special, xml_escape_char. rewrite !orb_false_iff. by intros [[[[-> ->] ->] ->] ->].
Qed.

Lemma xml_escape_special c : special c = true -> exists r, xml_escape_char c = "&"%char :: r.
Proof.
  unfold special, xml_escape_char. intros H. destruct (Ascii.eqb c "&"); [by eexists|].
  destruct (Ascii.eqb c "<"); [by eexists|]. destruct (Ascii.eqb c ">"); [by eexists|].
  destruct (Ascii.eqb c ch_dquote); [by eexists|]. destruct (Ascii.eqb c "'"); [by eexists|done].
Qed.

(** The plain characters in front are written as they are. *)
Lemma xml_escape_split m : exists a b, m = a ++ b /\ Forall (fun c => special c = false) a /\
  xml_escape m = a ++ xml_escape b /\ match b with [] => True | c :: _ => special c = true end.
Proof.
  induction m as [|c m (a & b & -> & Ha & He & Hb)]; [by exists [], []|].
  destruct (special c) eqn:Ec; [by exists [], (c :: a ++ b)|].
  exists (c :: a), b. split; [done|]. split; [by constructor|]. split; [|done].
  rewrite xml_escape_cons, xml_escape_plain, He by done. done.
Qed.

Section reading.
Variable limits : Limits.

Lemma append_reference_escaped reported out c tl :
  special c = true -> reported + zlen out + 1 <= maxTextLength limits ->
  append_reference limits reported out (xml_escape_char c ++ tl) = Good (out ++ [c]) tl.
Proof.
  intros Hc Hl. assert (append_text limits reported out [c] = Some (out ++ [c])) as Ha.
  { unfold append_text. change (zlen [c]) with 1. by rewrite (proj2 (Z.ltb_ge _ _)). }
  unfold special in Hc. rewrite !orb_true_iff, !Ascii.eqb_eq in Hc.
  destruct Hc as [[[[-> | ->] | ->] | ->] | ->];
    match goal with |- context [xml_escape_char ?x] =>
      let v := eval vm_compute in (xml_escape_char x) in change (xml_escape_char x) with v end;
    unfold append_reference; cbn -[append_text predefined];
    match goal with |- context [predefined ?b] =>
      match type of Ha with append_text _ _ _ ?l = _ => change (predefined b) with (Some l) end end;
    cbn -[append_text]; by rewrite Ha.
Qed.

(** A run of escaped characters, up to whatever ends it, in both loops. *)
Lemma text_loop_escaped k : forall fuel m reported out tl,
  (length m <= k)%nat -> (length (xml_escape m) <= fuel)%nat -> reported + zlen out + zlen m <= maxTextLength limits ->
  text_loop limits fuel reported out (xml_escape m ++ "<"%char :: tl) = Some (Good (out ++ m) ("<"%char :: tl)).
Proof.
  induction k as [|k IH]; intros fuel m reported out tl Hk Hf Hl.
  { destruct m; [|cbn in Hk; lia]. rewrite app_nil_r. by destruct fuel. }
  destruct (xml_escape_split m) as (a & b & -> & Ha & He & Hb). rewrite He in *. rewrite zlen_app in Hl.
  pose proof (zlen_nonneg a). pose proof (zlen_nonneg b). rewrite length_app in Hk, Hf. rewrite <- app_assoc.
  destruct a as [|c a].
  - cbn [app]. destruct b as [|c b]; [rewrite app_nil_r; by destruct fuel|].
    rewrite xml_escape_cons, <- app_assoc in *. rewrite length_app in Hf.
    destruct (xml_escape_special c Hb) as [r Er]. destruct fuel as [|fuel]; [rewrite Er in Hf; cbn in Hf; lia|].
    assert (text_loop limits (S fuel) reported out (xml_escape_char c ++ xml_escape b ++ "<"%char :: tl) =
      text_loop limits fuel reported (out ++ [c]) (xml_escape b ++ "<"%char :: tl)) as ->.
    { rewrite zlen_cons in Hl. pose proof (zlen_nonneg b). change (zlen []) with 0 in Hl.
      pose proof (append_reference_escaped reported out c (xml_escape b ++ "<"%char :: tl) Hb ltac:(lia)) as Hr.
      rewrite Er in *. cbn [app text_loop]. cbn [app] in Hr. by rewrite Hr. }
    rewrite Er in Hf. cbn in Hf. rewrite IH; [by rewrite <- app_assoc|cbn in Hk; lia|lia|].
    rewrite zlen_app. rewrite zlen_cons in Hl. change (zlen [c]) with 1. change (zlen []) with 0 in Hl. lia.
  - destruct fuel as [|fuel]; [cbn in Hf; lia|]. apply Forall_cons in Ha as [Hc Ha].
    unfold special in Hc. rewrite !orb_false_iff in Hc. destruct Hc as [[[[Hamp Hlt] _] _] _].
    cbn [app text_loop]. rewrite Hlt, Hamp. rewrite app_comm_cons, (span_stop _ (c :: a)).
    + assert (append_text limits reported out (c :: a) = Some (out ++ c :: a)) as ->.
      { unfold append_text. by rewrite (proj2 (Z.ltb_ge _ _)) by lia. }
      rewrite IH; [by rewrite <- app_assoc|cbn in Hk; lia|cbn in Hf; lia|rewrite zlen_app; lia].
    + constructor; [by rewrite Hlt, Hamp|]. apply (Forall_impl _ _ _ Ha). intros x Hx. unfold special in Hx.
      rewrite !orb_false_iff in Hx. destruct Hx as [[[[-> ->] _] _] _]. done.
    + destruct b as [|x b]; [done|]. rewrite xml_escape_cons. destruct (xml_escape_special x Hb) as [r ->]. done.
Qed.

Lemma value_loop_escaped k : forall fuel m reported out tl,
  (length m <= k)%nat -> (length (xml_escape m) <= fuel)%nat -> reported + zlen out + zlen m <= maxTextLength limits ->
  value_loop limits fuel reported ch_dquote out (xml_escape m ++ ch_dquote :: tl) = Some (Good (out ++ m) tl).
Proof.
  induction k as [|k IH]; intros fuel m reported out tl Hk Hf Hl.
  { destruct m; [|cbn in Hk; lia]. rewrite app_nil_r. by destruct fuel. }
  destruct (xml_escape_split m) as (a & b & -> & Ha & He & Hb). rewrite He in *. rewrite zlen_app in Hl.
  pose proof (zlen_nonneg a). pose proof (zlen_nonneg b). rewrite length_app in Hk, Hf. rewrite <- app_assoc.
  destruct a as [|c a].
  - cbn [app]. destruct b as [|c b]; [rewrite app_nil_r; by destruct fuel|].
    rewrite xml_escape_cons, <- app_assoc in *. rewrite length_app in Hf.
    destruct (xml_escape_special c Hb) as [r Er]. destruct fuel as [|fuel]; [rewrite Er in Hf; cbn in Hf; lia|].
    assert (value_loop limits (S fuel) reported ch_dquote out (xml_escape_char c ++ xml_escape b ++ ch_dquote :: tl) =
      value_loop limits fuel reported ch_dquote (out ++ [c]) (xml_escape b ++ ch_dquote :: tl)) as ->.
    { rewrite zlen_cons in Hl. pose proof (zlen_nonneg b). change (zlen []) with 0 in Hl.
      pose proof (append_reference_escaped reported out c (xml_escape b ++ ch_dquote :: tl) Hb ltac:(lia)) as Hr.
      rewrite Er in *. cbn [app value_loop]. cbn [app] in Hr. rewrite Hr. done. }
    rewrite Er in Hf. cbn in Hf. rewrite IH; [by rewrite <- app_assoc|cbn in Hk; lia|lia|].
    rewrite zlen_app. rewrite zlen_cons in Hl. change (zlen [c]) with 1. change (zlen []) with 0 in Hl. lia.
  - destruct fuel as [|fuel]; [cbn in Hf; lia|]. apply Forall_cons in Ha as [Hc Ha].
    unfold special in Hc. rewrite !orb_false_iff in Hc. destruct Hc as [[[[Hamp Hlt] _] Hq] _].
    cbn [app value_loop]. rewrite Hlt, Hamp, Hq. rewrite app_comm_cons, (span_stop _ (c :: a)).
    + assert (append_text limits reported out (c :: a) = Some (out ++ c :: a)) as ->.
      { unfold append_text. by rewrite (proj2 (Z.ltb_ge _ _)) by lia. }
      rewrite IH; [by rewrite <- app_assoc|cbn in Hk; lia|cbn in Hf; lia|rewrite zlen_app; lia].
    + constructor; [by rewrite Hlt, Hamp, Hq|]. apply (Forall_impl _ _ _ Ha). intros x Hx. unfold special in Hx.
      rewrite !orb_false_iff in Hx. destruct Hx as [[[[-> ->] _] ->] _]. done.
    + destruct b as [|x b]; [done|]. rewrite xml_escape_cons. destruct (xml_escape_special x Hb) as [r ->]. done.
Qed.

(** ** Names and attributes *)

Lemma name_char_not_colon c : is_name_char c = true -> c <> ":"%char.
Proof. intros Hc ->. by vm_compute in Hc. Qed.

Lemma valid_local_spec n : valid_local n = true ->
  exists c n', n = c :: n' /\ is_name_start c = true /\ Forall (fun c => is_name_char c = true) n /\ ":"%char ∉ n.
Proof.
  destruct n as [|c n']; [done|]. unfold valid_local. rewrite andb_true_iff. intros [Hs Hc].
  assert (Forall (fun c => is_name_char c = true) (c :: n')) as HF.
  { apply Forall_forall. intros x Hx. apply (proj1 (List.forallb_forall _ _) Hc). by apply list_elem_of_In. }
  clear Hc. rename HF into Hc. exists c, n'. split; [done|]. split; [done|]. split; [exact Hc|].
  intros Hin. rewrite Forall_forall in Hc. by apply (name_char_not_colon ":"%char (Hc _ Hin)).
Qed.

Lemma qname_head p n : valid_name p n = true -> exists c m, qname p n = c :: m /\ is_name_start c = true.
Proof.
  unfold valid_name, qname. rewrite andb_true_iff, orb_true_iff, bool_decide_eq_true. intros [Hn Hp].
  destruct (valid_local_spec n Hn) as (c & n' & -> & Hc & _). destruct (bool_decide_reflect (p = [])); [by exists c, n'|].
  destruct Hp as [|Hp]; [done|]. destruct (valid_local_spec p Hp) as (d & p' & -> & Hd & _). by exists d, (p' ++ lit ":" ++ c :: n').
Qed.

Lemma parse_name_written p n c tl :
  valid_name p n = true -> zlen (qname p n) <= maxNameLength limits -> is_name_char c = false -> c <> ":"%char ->
  parse_name limits (qname p n ++ c :: tl) = Good (p, n) (c :: tl).
Proof.
  intros Hv Hl Hc Hcolon. destruct (qname_head p n Hv) as (h & m & Eq & Hh).
  unfold parse_name. rewrite Eq. cbn [app]. rewrite Hh. cbn [negb]. rewrite app_comm_cons, <- Eq.
  unfold valid_name in Hv. rewrite andb_true_iff, orb_true_iff, bool_decide_eq_true in Hv. destruct Hv as [Hn Hp].
  destruct (valid_local_spec n Hn) as (cn & n' & En & Hcn & Hnc & Hncol).
  rewrite span_stop.
  2:{ unfold qname. destruct (bool_decide_reflect (p = [])) as [|Hne].
      - apply (Forall_impl _ _ _ Hnc). by intros x ->.
      - destruct Hp as [|Hp]; [done|]. destruct (valid_local_spec p Hp) as (_ & _ & _ & _ & Hpc & _).
        apply Forall_app. split; [apply (Forall_impl _ _ _ Hpc); by intros x ->|].
        apply Forall_cons. split; [by rewrite orb_true_r|]. apply (Forall_impl _ _ _ Hnc). by intros x ->. }
  2:{ rewrite Hc. by apply Ascii.eqb_neq. }
  rewrite (proj2 (Z.ltb_ge _ _)) by lia. unfold qname. destruct (bool_decide_reflect (p = [])) as [->|Hne].
  - by rewrite (proj2 (find_char_None ":"%char n)).
  - destruct Hp as [|Hp]; [done|]. destruct (valid_local_spec p Hp) as (cp & p' & Ep & _ & _ & Hpcol).
    change (lit ":" ++ n) with (":"%char :: n). rewrite find_char_app_here by done.
    rewrite take_app_length. change (":"%char :: n) with ([":"%char] ++ n). rewrite app_assoc.
    rewrite drop_app_length' by (rewrite length_app; cbn; lia).
    rewrite (bool_decide_eq_false_2 (n = [])) by (by rewrite En). rewrite (bool_decide_eq_false_2 (p = [])) by done. cbn [orb].
    rewrite (proj2 (find_char_None ":"%char n)) by done. rewrite En. cbn [nth]. by rewrite Hcn.
Qed.

Lemma skip_space_stop c t : is_space c = false -> skip_space (c :: t) = c :: t.
Proof. intros Hc. unfold skip_space. cbn. by rewrite Hc. Qed.

Lemma name_start_facts c : is_name_start c = true ->
  is_space c = false /\ c <> ">"%char /\ c <> "/"%char /\ c <> "!"%char /\ c <> "?"%char.
Proof.
  intros Hc. split; [|split_and!; intros ->; by vm_compute in Hc].
  destruct (is_space c) eqn:E; [|done]. unfold is_space in E. rewrite !orb_true_iff, !Ascii.eqb_eq in E.
  destruct E as [[[-> | ->] | ->] | ->]; by vm_compute in Hc.
Qed.

Lemma attributes_written a : forall fuel reported acc tl,
  (length a <= fuel)%nat -> zlen acc + zlen a <= maxAttributes limits -> Forall (writable_attribute limits reported) a ->
  parse_attributes limits fuel reported acc (concat (map print_attribute a) ++ ">"%char :: tl) = Some (Good (acc ++ a, false) tl).
Proof.
  induction a as [|[k v] a IH]; intros fuel reported acc tl Hf Hn Ha.
  { rewrite app_nil_r. by destruct fuel. }
  destruct fuel as [|fuel]; [cbn in Hf; lia|]. apply Forall_cons in Ha as [(( p & n & Ek & Hv) & Hk & Hval) Ha]. cbn [fst snd] in *.
  set (tl' := concat (map print_attribute a) ++ ">"%char :: tl).
  assert (concat (map print_attribute ((k, v) :: a)) ++ ">"%char :: tl =
    " "%char :: k ++ "="%char :: ch_dquote :: xml_escape v ++ ch_dquote :: tl') as ->.
  { unfold tl'. cbn [map concat]. unfold print_attribute at 1. cbn [fst snd]. rewrite <- !app_assoc. done. }
  destruct (qname_head p n Hv) as (h & m & Eq & Hh). rewrite <- Ek in Eq. destruct (name_start_facts h Hh) as (Hs & Hgt & Hsl & _).
  cbn [parse_attributes]. assert (forall t, skip_space (" "%char :: t) = skip_space t) as ->.
  { intros t. unfold skip_space. cbn. by destruct (span is_space t). }
  rewrite Eq at 1. cbn [app]. rewrite skip_space_stop by done. rewrite (proj2 (Ascii.eqb_neq h ">"%char)) by done.
  assert (forall t, starts_with (lit "/>") (h :: t) = false) as Hst.
  { intros t. destruct (starts_with (lit "/>") (h :: t)) eqn:E; [|done]. apply starts_with_spec in E as [r Er].
    cbn in Er. by injection Er as ->. }
  rewrite Hst. rewrite app_comm_cons, <- Eq. unfold attribute_head. rewrite Ek at 1. rewrite Ek in Hk.
  rewrite parse_name_written by (done || by vm_compute). cbn [bind].
  rewrite skip_space_stop by done. rewrite (Ascii.eqb_refl "="%char). cbn [negb].
  rewrite skip_space_stop by done. rewrite (Ascii.eqb_refl ch_dquote). cbn [negb andb].
  rewrite value_loop_escaped with (k := length v); [|done|rewrite length_app; lia|change (zlen []) with 0; lia].
  cbn [mbind option_bind app]. rewrite zlen_cons in Hn. pose proof (zlen_nonneg a).
  rewrite (proj2 (Z.leb_gt _ _)) by lia. unfold tl'. rewrite IH; [|cbn in Hf; lia|rewrite zlen_app, zlen_cons; change (zlen []) with 0; lia|done].
  rewrite <- app_assoc. cbn [app]. unfold qname in Ek. by rewrite <- Ek.
Qed.
End reading.

(** ** Elements *)

Lemma print_eq p n t a c tl : print (Element p n t a c) ++ tl =
  "<"%char :: qname p n ++ concat (map print_attribute a) ++ ">"%char :: xml_escape t ++ concat (map print c) ++
  "<"%char :: "/"%char :: qname p n ++ ">"%char :: tl.
Proof. cbn [print]. by rewrite <- !app_assoc. Qed.

Lemma print_head e tl : exists u, print e ++ tl = "<"%char :: u.
Proof. destruct e. rewrite print_eq. by eexists. Qed.

Lemma attributes_head a tl : exists c u, concat (map print_attribute a) ++ ">"%char :: tl = c :: u /\
  is_name_char c = false /\ c <> ":"%char.
Proof. destruct a as [|[k v] a]; [by exists ">"%char, tl|]. exists " "%char. by eexists. Qed.

Lemma attributes_length a : (length a <= length (concat (map print_attribute a)))%nat.
Proof.
  assert (forall x, (1 <= length (print_attribute x))%nat) as H1 by (intros x; unfold print_attribute; rewrite length_app; cbn; lia).
  induction a as [|x a IH]; [done|]. cbn [map concat length]. rewrite length_app. specialize (H1 x). lia.
Qed.

Section elements.
Variable limits : Limits.
Context {T : Type} `{!XmlSink T}.

(** The loop gets from [q] to [q'] with any fuel that is enough, leaving enough. *)
Definition leads (q q' : XmlParser T) : Prop :=
  forall fuel, (length (text q) <= fuel)%nat ->
  exists fuel', (length (text q') <= fuel')%nat /\ run_loop limits fuel q = run_loop limits fuel' q'.

Lemma parse_leads_refl q : leads q q.
Proof. intros fuel Hf. by exists fuel. Qed.

Lemma parse_leads_trans q1 q2 q3 : leads q1 q2 -> leads q2 q3 -> leads q1 q3.
Proof.
  intros H1 H2 fuel Hf. destruct (H1 fuel Hf) as (f2 & Hf2 & ->). destruct (H2 f2 Hf2) as (f3 & Hf3 & ->). by exists f3.
Qed.

Lemma leads_round q q' : round limits q = Some (Ok, q') -> (length (text q') < length (text q))%nat -> leads q q'.
Proof.
  intros E Hl fuel Hf. destruct fuel as [|fuel]; [lia|]. exists fuel. split; [lia|]. cbn [run_loop].
  destruct (text q); [cbn in Hl; lia|]. by rewrite E.
Qed.

(** What comes after [<], seen by the round. *)
Lemma round_tag q c t : text q = "<"%char :: c :: t -> c <> "!"%char -> c <> "?"%char ->
  round limits q = if Ascii.eqb c "/" then parse_end_tag limits q else parse_element limits q.
Proof.
  intros Et Hb Hq. assert (at_ (text q) q = q) as Eq by (by destruct q).
  assert (forall p : bytes, match p with "<"%char :: d :: _ => d = "!"%char \/ d = "?"%char | _ => False end ->
    starts_with p (text q) = false) as Hno.
  { intros p Hp. destruct (starts_with p (text q)) eqn:E; [|done]. apply starts_with_spec in E as [r Er]. rewrite Et in Er.
    destruct p as [|x [|d p]]; [done|by destruct x as [[] [] [] [] [] [] [] []]|].
    assert (x = "<"%char /\ d = c) as [-> ->] by (by injection Er as -> ->). by destruct Hp. }
  unfold round. rewrite Et. change (Ascii.eqb "<" "<") with true. cbn [negb]. rewrite <- Et.
  rewrite (Hno (lit "<![CDATA[")) by (by left). unfold skip_misc.
  rewrite (Hno (lit "<!--")), (Hno (lit "<?")), (Hno (lit "<!")) by ((by left) || (by right)). cbn [andThen].
  rewrite !Eq, Et. destruct (Ascii.eqb_spec c "/") as [->|Hc].
  - by rewrite (proj2 (starts_with_spec (lit "</") _)) by (by exists t).
  - destruct (starts_with (lit "</") ("<"%char :: c :: t)) eqn:E; [|done]. apply starts_with_spec in E as [r Er].
    cbn in Er. by injection Er as ->.
Qed.

Lemma open_written q p n a tl s' :
  text q = "<"%char :: qname p n ++ concat (map print_attribute a) ++ ">"%char :: tl ->
  valid_name p n = true -> zlen (qname p n) <= maxNameLength limits -> zlen a <= maxAttributes limits ->
  Forall (writable_attribute limits (reported q)) a -> elements q + 1 <= maxElements limits ->
  zlen (stack q) + 1 <= maxDepth limits -> (stack q = [] -> had_root q = false) ->
  sink_open p n a (sink q) = Some (Ok, s') ->
  leads q (mkParser tl s' (elements q + 1) (if bool_decide (stack q = []) then true else had_root q) (mkOpen p n 0 :: stack q)).
Proof.
  intros Et Hv Hl Ha Haw He Hd Hr Hs. destruct (qname_head p n Hv) as (h & m & Eq & Hh).
  destruct (name_start_facts h Hh) as (_ & _ & Hsl & Hb & Hq).
  destruct (attributes_head a tl) as (c & u & Ec & Hc & Hcol).
  apply leads_round; [|cbn [text]; rewrite Et; cbn [length]; rewrite !length_app; cbn [length]; lia].
  rewrite (round_tag q h (m ++ concat (map print_attribute a) ++ ">"%char :: tl)); [|by rewrite Et, Eq|done|done].
  rewrite (proj2 (Ascii.eqb_neq h "/"%char)) by done. unfold parse_element. cbn [elements stack had_root text].
  rewrite (proj2 (Z.ltb_ge _ _)), (proj2 (Z.leb_gt _ _)) by lia.
  assert (bool_decide (stack q = []) && had_root q = false) as ->.
  { destruct (bool_decide_reflect (stack q = [])) as [E|]; [by rewrite (Hr E)|done]. }
  rewrite Et. cbn [drop]. rewrite !drop_0, Ec, parse_name_written by done. cbn [andThen at_ text sink elements had_root stack].
  rewrite <- Ec. change (reported (mkParser _ _ _ _ (stack q))) with (reported q).
  rewrite attributes_written; [|pose proof (attributes_length a); rewrite length_app; lia|done|done].
  cbn [mbind option_bind andThen at_ text sink elements had_root stack app]. rewrite Hs, tell_content. done.
Qed.

Lemma text_written q o st t tl s' :
  text q = xml_escape t ++ "<"%char :: tl -> stack q = o :: st -> t <> [] ->
  text_length o + zlen t <= maxTextLength limits -> sink_characters t (sink q) = Some (Ok, s') ->
  leads q (mkParser ("<"%char :: tl) s' (elements q) (had_root q)
             (mkOpen (o_prefix o) (o_name o) (text_length o + zlen t) :: st)).
Proof.
  intros Et Es Hne Hl Hs.
  assert (exists h u, xml_escape t = h :: u /\ h <> "<"%char) as (h & u & Eh & Hh).
  { destruct t as [|c t]; [done|]. rewrite xml_escape_cons. destruct (special c) eqn:Ec.
    - destruct (xml_escape_special c Ec) as [r ->]. by eexists _, _.
    - rewrite xml_escape_plain by done. eexists _, _. split; [done|]. intros ->. by vm_compute in Ec. }
  apply leads_round; [|cbn [text]; rewrite Et, Eh; cbn [length app]; rewrite length_app; cbn [length]; lia].
  unfold round. rewrite Et, Eh. cbn [app]. rewrite (proj2 (Ascii.eqb_neq h "<"%char)) by done. cbn [negb]. rewrite Es.
  unfold parse_text. rewrite Et. unfold reported. rewrite Es.
  rewrite text_loop_escaped with (k := length t); [|done|rewrite length_app; lia|change (zlen []) with 0; lia].
  cbn [mbind option_bind andThen app]. unfold emit. rewrite bool_decide_eq_false_2 by done. cbn [at_ stack]. rewrite Es.
  cbn [at_ with_stack sink]. rewrite Hs, tell_content. done.
Qed.

Lemma close_written q p p' n l st tl s' :
  text q = "<"%char :: "/"%char :: qname p n ++ ">"%char :: tl -> stack q = mkOpen p' n l :: st ->
  valid_name p n = true -> zlen (qname p n) <= maxNameLength limits -> sink_close p n (sink q) = Some (Ok, s') ->
  leads q (mkParser tl s' (elements q) (had_root q) st).
Proof.
  intros Et Es Hv Hl Hs.
  apply leads_round; [|cbn [text]; rewrite Et; cbn [length]; rewrite length_app; cbn [length]; lia].
  rewrite (round_tag q "/"%char (qname p n ++ ">"%char :: tl)) by done. rewrite Ascii.eqb_refl.
  unfold parse_end_tag. rewrite Et. cbn [drop]. rewrite !drop_0, parse_name_written by done. cbn [andThen at_ text].
  rewrite skip_space_stop by done. rewrite (Ascii.eqb_refl ">"%char). cbn [negb at_ stack sink]. rewrite Es. cbn [o_name].
  rewrite bool_decide_eq_true_2 by done. cbn [negb]. rewrite Hs, tell_content. done.
Qed.

Lemma misc_leads q c t u :
  text q = "<"%char :: c :: t -> c <> "!"%char -> skip_misc (text q) = Good true u -> leads q (at_ u q).
Proof.
  intros Et Hc E. destruct (skip_misc_suffix (text q)) as (_ & _ & Hl). apply leads_round; [|by apply Hl].
  unfold round. rewrite Et. rewrite (Ascii.eqb_refl "<"%char). cbn [negb].
  destruct (starts_with (lit "<![CDATA[") ("<"%char :: c :: t)) eqn:E'.
  { apply starts_with_spec in E' as [r Er]. cbn in Er. by injection Er as ->. }
  rewrite <- Et, E. done.
Qed.

Lemma space_leads q c t : text q = c :: t -> is_space c = true -> stack q = [] -> leads q (at_ t q).
Proof.
  intros Et Hc Es. apply leads_round; [|cbn; rewrite Et; cbn; lia]. unfold round. rewrite Et, Es, Hc.
  destruct (Ascii.eqb_spec c "<") as [->|]; [by vm_compute in Hc|done].
Qed.

Lemma replay_ok {A} `{!XmlSink A} ev es (s s' : A) :
  replay (ev :: es) s = Some s' -> exists s1, replay1 ev s = Some (Ok, s1) /\ replay es s1 = Some s'.
Proof. cbn. destruct (replay1 ev s) as [[[] s1]|]; try done. intros E. by exists s1. Qed.

(** A whole element is read back, and its events are told. *)
Definition read_back (e : XmlElement) : Prop := forall q tl s',
  text q = print e ++ tl -> writable limits (reported q) e -> elements q + count e <= maxElements limits ->
  zlen (stack q) + Z.of_nat (height e) <= maxDepth limits -> (stack q = [] -> had_root q = false) ->
  replay (events e) (sink q) = Some s' ->
  leads q (mkParser tl s' (elements q + count e) (if bool_decide (stack q = []) then true else had_root q) (stack q)).

Lemma children_written c : Forall read_back c -> forall q o st tl s',
  text q = concat (map print c) ++ tl -> stack q = o :: st ->
  fold_right (fun e P => writable limits (text_length o) e /\ P) True c -> elements q + counts c <= maxElements limits ->
  zlen (stack q) + Z.of_nat (heights c) <= maxDepth limits ->
  replay (concat (map events c)) (sink q) = Some s' ->
  leads q (mkParser tl s' (elements q + counts c) (had_root q) (stack q)).
Proof.
  induction 1 as [|e c He Hc IH]; intros q o st tl s' Et Es Hw Hn Hd Hr.
  - cbn in *. injection Hr as <-. rewrite Z.add_0_r, <- Et. destruct q; apply parse_leads_refl.
  - cbn [map concat fold_right] in *. destruct Hw as [Hw Hws]. rewrite <- app_assoc in Et.
    cbn [counts heights fold_right] in Hn, Hd. fold (counts c) in Hn. fold (heights c) in Hd.
    pose proof (count_pos e). apply replay_app in Hr as (s1 & H1 & H2).
    assert (0 <= counts c) by (clear; induction c as [|x c IH]; cbn; [lia|]; pose proof (count_pos x); unfold counts in IH; lia).
    pose proof (He q (concat (map print c) ++ tl) s1 Et) as Hlead. unfold reported in Hlead. rewrite Es in Hlead.
    eapply parse_leads_trans; [apply Hlead; [done|lia|rewrite <- Es; lia|done|done]|]. cbn [bool_decide].
    rewrite (bool_decide_eq_false_2 (o :: st = [])) by done. cbn [counts fold_right]. fold (counts c). rewrite Z.add_assoc, Es.
    apply (IH (mkParser (concat (map print c) ++ tl) s1 (elements q + count e) (had_root q) (o :: st)) o st);
      cbn [text stack elements sink]; try done; try lia. rewrite <- Es. lia.
Qed.

Lemma element_written e : read_back e.
Proof.
  induction e as [p n t a c IH] using XmlElement_ind. intros q tl s' Et Hw Hn Hd Hr E.
  cbn [writable] in Hw. destruct Hw as (Hv & Hnl & Ht & Ha & Haw & Hc). rewrite print_eq in Et.
  cbn [count height] in Hn, Hd. fold (counts c) in Hn. fold (heights c) in Hd.
  assert (0 <= counts c) by (clear; induction c as [|x c IH]; cbn; [lia|]; pose proof (count_pos x); unfold counts in IH; lia).
  cbn [events app] in E. apply replay_ok in E as (s1 & E1 & E).
  apply replay_app in E as (s2 & E2 & E). apply replay_app in E as (s3 & E3 & E). apply replay_ok in E as (s4 & E4 & [= <-]).
  eapply parse_leads_trans; [eapply open_written; try done; lia|].
  set (root' := if bool_decide (stack q = []) then true else had_root q).
  set (u := concat (map print c) ++ "<"%char :: "/"%char :: qname p n ++ ">"%char :: tl).
  apply (parse_leads_trans _ (mkParser u s2 (elements q + 1) root' (mkOpen p n (zlen t) :: stack q))).
  - destruct (bool_decide_reflect (t = [])) as [->|Ht0].
    + injection E2 as <-. apply parse_leads_refl.
    + apply replay_ok in E2 as (s5 & E2 & [= ->]).
      assert (exists v, u = "<"%char :: v) as [v Ev].
      { unfold u. destruct c as [|x c]; [by eexists|]. cbn [map concat]. rewrite <- app_assoc. apply print_head. }
      fold u. rewrite Ev. apply (text_written (mkParser (xml_escape t ++ "<"%char :: v) s1 (elements q + 1) root' _) (mkOpen p n 0)); done.
  - eapply parse_leads_trans.
    + apply (children_written c IH _ (mkOpen p n (zlen t)) (stack q) ("<"%char :: "/"%char :: qname p n ++ ">"%char :: tl) s3); cbn [text stack elements sink]; try done; [lia|].
      rewrite zlen_cons. lia.
    + cbn [text stack elements sink had_root count]. fold (counts c). rewrite Z.add_assoc.
      eapply (close_written (mkParser ("<"%char :: "/"%char :: qname p n ++ ">"%char :: tl) s3 (elements q + 1 + counts c) root'
                (mkOpen p n (zlen t) :: stack q))); done.
Qed.
End elements.


(** ** The tree the events assemble *)

Lemma events_tree e : forall parent st d,
  replay (events e) (mkTreeSink d (parent :: st)) = Some (mkTreeSink d (add_child e parent :: st)).
Proof.
  induction e as [p n t a c IH] using XmlElement_ind. intros parent st d. cbn [events app]. cbn [replay replay1].
  cbn [sink_open tree_sink tree_open document open_].
  assert (forall t', Forall (fun e => forall parent st d, replay (events e) (mkTreeSink d (parent :: st)) =
      Some (mkTreeSink d (add_child e parent :: st))) c -> forall done_,
    replay (concat (map events c) ++ [EndElement p n]) (mkTreeSink d (Element p n t' a done_ :: parent :: st)) =
    Some (mkTreeSink d (add_child (Element p n t' a (done_ ++ c)) parent :: st))) as Hc.
  { intros t'. clear IH. induction 1 as [|e c He _ IH]; intros done_; [by rewrite app_nil_r|].
    cbn [map concat]. rewrite <- app_assoc. erewrite replay_join by apply He. cbn [add_child]. rewrite IH. by rewrite <- app_assoc. }
  unfold tree_open. cbn [document open_]. destruct (bool_decide_reflect (t = [])) as [->|Hne]; cbn [app].
  - exact (Hc [] IH []).
  - cbn [replay replay1]. cbn [sink_characters tree_sink]. unfold tree_characters. cbn [open_ add_text document app]. exact (Hc t IH []).
Qed.

Lemma events_root e : replay (events e) (mkTreeSink None []) = Some (mkTreeSink (Some e) []).
Proof.
  destruct e as [p n t a c]. cbn [events app]. cbn [replay replay1]. cbn [sink_open tree_sink]. unfold tree_open. cbn [document open_].
  assert (forall t' done_, replay (concat (map events c) ++ [EndElement p n]) (mkTreeSink None [Element p n t' a done_]) =
    Some (mkTreeSink (Some (Element p n t' a (done_ ++ c))) [])) as Hc.
  { intros t'. induction c as [|e c IH]; intros done_; [by rewrite app_nil_r|].
    cbn [map concat]. rewrite <- app_assoc. erewrite replay_join by apply events_tree. cbn [add_child]. rewrite IH. by rewrite <- app_assoc. }
  destruct (bool_decide_reflect (t = [])) as [->|Hne]; cbn [app].
  - exact (Hc [] []).
  - cbn [replay replay1]. cbn [sink_characters tree_sink]. unfold tree_characters. cbn [open_ add_text document app]. exact (Hc t []).
Qed.

Lemma print_reads_back limits e :
  writable limits 0 e -> count e <= maxElements limits -> Z.of_nat (height e) <= maxDepth limits ->
  zlen (print e) <= maxDocumentSize limits ->
  parse_document limits (print e) = Some (mkDocument (Some e) Ok (zlen (print e))).
Proof.
  intros Hw Hn Hd Hs. unfold parse_document, run. cbn [text new_XmlParser]. rewrite (proj2 (Z.ltb_ge _ _)) by done.
  assert (parse_prolog (print e) = print e) as ->.
  { destruct (print_head e []) as [u Eu]. rewrite app_nil_r in Eu. rewrite Eu. done. }
  set (q := at_ (print e) (new_XmlParser (print e) (mkTreeSink None []))).
  destruct (element_written limits e q [] (mkTreeSink (Some e) [])) with (fuel := length (text q)) as (fuel & _ & Hrun).
  - by rewrite app_nil_r.
  - done.
  - exact Hn.
  - change (zlen (stack q)) with 0. lia.
  - done.
  - apply events_root.
  - done.
  - rewrite Hrun. replace (run_loop limits fuel _) with (Some (Ok, mkParser [] (mkTreeSink (Some e) []) (0 + count e) true [])) by (by destruct fuel).
    cbn [mbind option_bind stack]. rewrite !bool_decide_eq_true_2 by done. cbn [negb had_root mbind option_bind sink document].
    rewrite bool_decide_eq_true_2 by done. unfold offset. cbn [text]. change (zlen (@nil byte)) with 0. by rewrite Z.sub_0_r.
Qed.

(** C31. Writing and reading: any tree whose names are names and that is within the
    limits - any bytes as text and attribute values, any nesting - written with
    [xml_escape] is read back by [XmlDocument::parse] as exactly that tree, with
    no error and all of the text consumed. *)
Theorem xml_roundtrip limits e (Hw : writable limits 0 e) (Hn : count e <= maxElements limits)
  (Hd : Z.of_nat (height e) <= maxDepth limits) (Hs : zlen (print e) <= maxDocumentSize limits) :
  parse_document limits (print e) = Some (mkDocument (Some e) Ok (zlen (print e))).
Proof. by apply print_reads_back. Qed.

Lemma xml_roundtrip_witness :
  let e := Element (lit "s") (lit "a") (lit "1 < 2 & 3") [(lit "x", lit "'&'"); (lit "y:z", lit "")]
             [Element [] (lit "b") [] [] []; Element [] (lit "b") (lit "t") [] []] in
  parse_document default_Limits (print e) = Some (mkDocument (Some e) Ok (zlen (print e))).
Proof.
  cbv zeta. apply xml_roundtrip; [|by vm_compute|by vm_compute|by vm_compute].
  assert (forall k v p n, k = qname p n -> valid_name p n = true -> (zlen k <=? 256) = true -> (zlen v <=? 64 * 1024) = true ->
    writable_attribute default_Limits 0 (k, v)) as Ha.
  { intros k v p n Ek Hv Hk Hz. split; [by exists p, n|]. by rewrite !Z.leb_le in *. }
  assert (forall p n t, valid_name p n = true -> (zlen (qname p n) <=? 256) = true -> (zlen t <=? 64 * 1024) = true ->
    writable default_Limits (zlen (lit "1 < 2 & 3")) (Element p n t [] [])) as He.
  { intros p n t Hv Hk Hz. rewrite !Z.leb_le in *. cbn -[zlen Z.mul]. by split_and!. }
  split; [by vm_compute|]. split; [by vm_compute|]. split; [by vm_compute|]. split; [by vm_compute|]. split; [|split; [by apply He|split; [by apply He|done]]].
  constructor; [by apply (Ha _ _ [] (lit "x"))|]. constructor; [by apply (Ha _ _ (lit "y") (lit "z"))|constructor].
Defined.
