(* ===== verification/UpnpSoap.v ===== *)
(** * UpnpSoap: the errors of [src/io/net/upnp/error.cpp] and the envelopes of
    [soap.cpp]

    A request is written out with [xml_escape] and nothing else; a response is
    read through [XmlDocument] and reduced to its arguments or to a fault. *)

From S2P Require Import Prelude Strings Xml XmlTree XmlPrint.

(** ** Errors *)

Module Error.
(* @src src/include/samurai/io/net/upnp/error.h:17-29 Samurai::IO::Net::UPnP::Error *)
Inductive t := None | NoGateway | DescriptionFailed | NoService | Network | BadResponse | Unsupported | Cancelled
  | Reentrant | Device.

#[global] Instance t_eq_dec : EqDecision t.
Proof. solve_decision. Defined.

(* @src src/src/io/net/upnp/error.cpp:8-24 Samurai::IO::Net::UPnP::toString *)
Definition toString (error : t) : bytes :=
  lit match error with
      | None => "ok"
      | NoGateway => "no internet gateway answered"
      | DescriptionFailed => "the device description could not be read"
      | NoService => "the gateway has no connection service"
      | Network => "the exchange with the gateway failed"
      | BadResponse => "the gateway answered with something unreadable"
      | Unsupported => "the gateway does not implement this"
      | Cancelled => "cancelled"
      | Reentrant => "called from inside the event loop"
      | Device => "the gateway refused the request"
      end.
End Error.

Module DeviceError.
(* @src src/include/samurai/io/net/upnp/error.h:40-70 Samurai::IO::Net::UPnP::DeviceError *)
Inductive t := Unknown | InvalidAction | InvalidArgs | ActionFailed | ArgumentValueInvalid | ArgumentValueOutOfRange
  | OptionalActionNotImplemented | OutOfMemory | HumanInterventionRequired | StringArgumentTooLong | ActionNotAuthorized
  | SignatureFailure | SpecifiedArrayIndexInvalid | NoSuchEntryInArray | WildCardNotPermittedInSrcIP
  | WildCardNotPermittedInExtPort | ConflictInMappingEntry | SamePortValuesRequired | OnlyPermanentLeasesSupported
  | RemoteHostOnlySupportsWildcard | ExternalPortOnlySupportsWildcard | NoPortMapsAvailable | ConflictWithOtherMechanisms
  | WildCardNotPermittedInIntPort.

#[global] Instance t_eq_dec : EqDecision t.
Proof. solve_decision. Defined.

(** The values of the enumerators. *)
(* @src src/include/samurai/io/net/upnp/error.h:40-70 Samurai::IO::Net::UPnP::DeviceError *)
Definition value (e : t) : Z :=
  match e with
  | Unknown => 0 | InvalidAction => 401 | InvalidArgs => 402 | ActionFailed => 501 | ArgumentValueInvalid => 600
  | ArgumentValueOutOfRange => 601 | OptionalActionNotImplemented => 602 | OutOfMemory => 603
  | HumanInterventionRequired => 604 | StringArgumentTooLong => 605 | ActionNotAuthorized => 606 | SignatureFailure => 607
  | SpecifiedArrayIndexInvalid => 713 | NoSuchEntryInArray => 714 | WildCardNotPermittedInSrcIP => 715
  | WildCardNotPermittedInExtPort => 716 | ConflictInMappingEntry => 718 | SamePortValuesRequired => 724
  | OnlyPermanentLeasesSupported => 725 | RemoteHostOnlySupportsWildcard => 726
  | ExternalPortOnlySupportsWildcard => 727 | NoPortMapsAvailable => 728 | ConflictWithOtherMechanisms => 729
  | WildCardNotPermittedInIntPort => 732
  end.

(* @src src/src/io/net/upnp/error.cpp:27-57 Samurai::IO::Net::UPnP::toDeviceError *)
Definition toDeviceError (code : Z) : t :=
  match code with
  | 401 => InvalidAction | 402 => InvalidArgs | 501 => ActionFailed | 600 => ArgumentValueInvalid
  | 601 => ArgumentValueOutOfRange | 602 => OptionalActionNotImplemented | 603 => OutOfMemory
  | 604 => HumanInterventionRequired | 605 => StringArgumentTooLong | 606 => ActionNotAuthorized | 607 => SignatureFailure
  | 713 => SpecifiedArrayIndexInvalid | 714 => NoSuchEntryInArray | 715 => WildCardNotPermittedInSrcIP
  | 716 => WildCardNotPermittedInExtPort | 718 => ConflictInMappingEntry | 724 => SamePortValuesRequired
  | 725 => OnlyPermanentLeasesSupported | 726 => RemoteHostOnlySupportsWildcard
  | 727 => ExternalPortOnlySupportsWildcard | 728 => NoPortMapsAvailable | 729 => ConflictWithOtherMechanisms
  | 732 => WildCardNotPermittedInIntPort
  | _ => Unknown
  end.

(* @src src/src/io/net/upnp/error.cpp:60-114 Samurai::IO::Net::UPnP::toString *)
Definition toString (error : t) : bytes :=
  lit match error with
      | Unknown => "unrecognised error code"
      | InvalidAction => "the service does not have this action"
      | InvalidArgs => "wrong number or type of arguments"
      | ActionFailed => "the action failed"
      | ArgumentValueInvalid => "an argument value is invalid"
      | ArgumentValueOutOfRange => "an argument value is out of range"
      | OptionalActionNotImplemented => "this optional action is not implemented"
      | OutOfMemory => "the device is out of memory"
      | HumanInterventionRequired => "the device needs attention before it can do this"
      | StringArgumentTooLong => "a string argument is too long"
      | ActionNotAuthorized => "the action is not authorized"
      | SignatureFailure => "the signature was rejected"
      | SpecifiedArrayIndexInvalid => "the array index is past the end"
      | NoSuchEntryInArray => "there is no such mapping"
      | WildCardNotPermittedInSrcIP => "a wildcard remote host is not permitted"
      | WildCardNotPermittedInExtPort => "a wildcard external port is not permitted"
      | ConflictInMappingEntry => "the port is already mapped by someone else"
      | SamePortValuesRequired => "the internal and external ports have to match"
      | OnlyPermanentLeasesSupported => "only permanent leases are supported"
      | RemoteHostOnlySupportsWildcard => "the remote host has to be a wildcard"
      | ExternalPortOnlySupportsWildcard => "the external port has to be a wildcard"
      | NoPortMapsAvailable => "the gateway has no room for another mapping"
      | ConflictWithOtherMechanisms => "the mapping conflicts with one made another way"
      | WildCardNotPermittedInIntPort => "a wildcard internal port is not permitted"
      end.

(** Every recognised code is the value of what it is mapped to. *)
Lemma toDeviceError_value e : toDeviceError (value e) = e.
Proof. by destruct e. Qed.

Lemma toDeviceError_known code : toDeviceError code <> Unknown -> value (toDeviceError code) = code.
Proof.
  unfold toDeviceError. repeat (case_match; try done).
Qed.
End DeviceError.

(** ** Data *)

(* @src src/include/samurai/io/net/upnp/gateway.h:45-45 Samurai::IO::Net::UPnP::Argument *)
Definition Argument : Type := bytes * bytes.

(** The out arguments of an action. *)
(* @src src/include/samurai/io/net/upnp/gateway.h:48-50 Samurai::IO::Net::UPnP::ActionResult *)
Definition ActionResult : Type := list Argument.

(* @src src/src/io/net/upnp/gateway.cpp:54-61 Samurai::IO::Net::UPnP::ActionResult::find *)
Fixpoint result_find (name : bytes) (arguments : ActionResult) : option bytes :=
  match arguments with
  | [] => None
  | (first, second) :: arguments => if bool_decide (first = name) then Some second else result_find name arguments
  end.

(* @src src/src/io/net/upnp/gateway.cpp:64-68 Samurai::IO::Net::UPnP::ActionResult::value *)
Definition result_value (name : bytes) (arguments : ActionResult) : bytes :=
  match result_find name arguments with Some found => found | None => [] end.

(* @src src/src/io/net/upnp/soap.h:24-30 Samurai::IO::Net::UPnP::ActionFault *)
Record ActionFault := mkFault { f_error : DeviceError.t; f_code : Z; f_description : bytes }.

Definition quoted (s : bytes) : bytes := [ch_dquote] ++ s ++ [ch_dquote].

(** ** Requests *)

(* @src src/src/io/net/upnp/soap.cpp:12-22 Samurai::IO::Net::UPnP::Soap::buildActionHeader *)
Definition buildActionHeader (serviceType action : bytes) : bytes :=
  [ch_dquote] ++ serviceType ++ lit "#" ++ action ++ [ch_dquote].

Definition envelope_namespace : bytes := lit "http://schemas.xmlsoap.org/soap/envelope/".
Definition encoding_style : bytes := lit "http://schemas.xmlsoap.org/soap/encoding/".

(* @src src/src/io/net/upnp/soap.cpp:47-55 Samurai::IO::Net::UPnP::Soap::buildRequest *)
Definition write_argument (argument : Argument) : bytes :=
  lit "<" ++ argument.1 ++ lit ">" ++ xml_escape argument.2 ++ lit "</" ++ argument.1 ++ lit ">" ++ crlf.

(* @src src/src/io/net/upnp/soap.cpp:25-64 Samurai::IO::Net::UPnP::Soap::buildRequest *)
Definition buildRequest (serviceType action : bytes) (arguments : list Argument) : bytes :=
  let out := lit "<?xml version=" ++ quoted (lit "1.0") ++ lit "?>" ++ crlf in
  let out := out ++ lit "<s:Envelope xmlns:s=" ++ quoted envelope_namespace ++
             lit " s:encodingStyle=" ++ quoted encoding_style ++ lit ">" ++ crlf in
  let out := out ++ lit "<s:Body>" ++ crlf in
  let out := out ++ lit "<u:" ++ action ++ lit " xmlns:u=" ++ [ch_dquote] in
  let out := out ++ xml_escape serviceType ++ [ch_dquote] ++ lit ">" ++ crlf in
  let out := fold_left (fun out argument => out ++ write_argument argument) arguments out in
  let out := out ++ lit "</u:" ++ action ++ lit ">" ++ crlf in
  let out := out ++ lit "</s:Body>" ++ crlf in
  out ++ lit "</s:Envelope>" ++ crlf.

(** ** Responses *)

(** What a fault element says. *)
(* @src src/src/io/net/upnp/soap.cpp:95-111 Samurai::IO::Net::UPnP::Soap::parseResponse *)
Definition read_fault (soap_fault : XmlElement) : option ActionFault :=
  upnp ← findDescendant (lit "UPnPError") soap_fault;
  let reported :=
    match upnp with
    | None => mkFault DeviceError.Unknown 0 []
    | Some upnp =>
        let code := getChildText (lit "errorCode") upnp in
        let code := if bool_decide (code = []) then 0
                    else let value := to_uint64 (Some code) in if value <=? 0xffff then u16 value else 0 in
        mkFault (DeviceError.toDeviceError code) code (getChildText (lit "errorDescription") upnp)
    end in
  Some (if bool_decide (f_description reported = [])
        then mkFault (f_error reported) (f_code reported) (getChildText (lit "faultstring") soap_fault)
        else reported).

(** The error, the arguments and the fault. *)
(* @src src/src/io/net/upnp/soap.cpp:68-139 Samurai::IO::Net::UPnP::Soap::parseResponse *)
Definition parseResponse (body : bytes) : option (Error.t * ActionResult * option ActionFault) :=
  document ← parse_default body;
  if negb (bool_decide (error document = Ok)) then Some (Error.BadResponse, [], None)
  else
    match root document with
    | None => Some (Error.BadResponse, [], None)
    | Some root =>
        if negb (bool_decide (e_name root = lit "Envelope")) then Some (Error.BadResponse, [], None)
        else
          match findChild (lit "Body") root with
          | None => Some (Error.BadResponse, [], None)
          | Some soap_body =>
              match findChild (lit "Fault") soap_body with
              | Some soap_fault =>
                  reported ← read_fault soap_fault;
                  Some (Error.Device, [], Some reported)
              | None =>
                  match e_children soap_body with
                  | [response] =>
                      Some (Error.None, map (fun argument => (e_name argument, trim (e_text argument))) (e_children response),
                            None)
                  | _ => Some (Error.BadResponse, [], None)
                  end
              end
          end
    end.

(** ** Examples *)

Example an_answer :
  parseResponse (lit "<s:Envelope><s:Body><u:R><NewExternalIPAddress> 1.2.3.4 </NewExternalIPAddress></u:R></s:Body></s:Envelope>") =
  Some (Error.None, [(lit "NewExternalIPAddress", lit "1.2.3.4")], None).
Proof. vm_compute. reflexivity. Qed.

Example a_fault :
  parseResponse (lit "<Envelope><Body><Fault><detail><x><UPnPError><errorCode>725</errorCode></UPnPError></x></detail><faultstring>no</faultstring></Fault></Body></Envelope>") =
  Some (Error.Device, [], Some (mkFault DeviceError.OnlyPermanentLeasesSupported 725 (lit "no"))).
Proof. vm_compute. reflexivity. Qed.

Example request_parses :
  error <$> parse_default (buildRequest (lit "urn:x<&") (lit "AddPortMapping") [(lit "NewA", lit "1&2"); (lit "B", [])]) = Some Ok.
Proof. vm_compute. reflexivity. Qed.

(** ** What a device reads *)

Definition arg_element (argument : Argument) : XmlElement := Element [] argument.1 argument.2 [] [].

(** The document a request is: nothing that is put into a value changes it. *)
Definition request_tree (serviceType action : bytes) (arguments : list Argument) : XmlElement :=
  Element (lit "s") (lit "Envelope") (crlf ++ crlf)
    [(lit "xmlns:s", envelope_namespace); (lit "s:encodingStyle", encoding_style)]
    [Element (lit "s") (lit "Body") (crlf ++ crlf) []
       [Element (lit "u") action (crlf ++ concat (map (fun _ => crlf) arguments)) [(lit "xmlns:u", serviceType)]
          (map arg_element arguments)]].

(** A request of names that are names, within the limits of the parser. *)
Record sendable (serviceType action : bytes) (arguments : list Argument) : Prop := mkSendable {
  s_action : valid_local action = true /\ 2 + zlen action <= 256;
  s_service : 2 + zlen serviceType <= 64 * 1024;
  s_arguments : Forall (fun a => valid_local a.1 = true /\ zlen a.1 <= 256 /\ zlen a.2 <= 64 * 1024) arguments;
  s_number : zlen arguments <= 8189;
  s_size : zlen (buildRequest serviceType action arguments) <= 256 * 1024
}.

Local Abbreviation at_tree t s n st := (mkParser t (mkTreeSink None s) n true st).

Lemma crlf_leads o st e es n tl :
  text_length o + 2 <= 64 * 1024 ->
  leads default_Limits (at_tree (crlf ++ "<"%char :: tl) (e :: es) n (o :: st))
    (at_tree ("<"%char :: tl) (add_text crlf e :: es) n (mkOpen (o_prefix o) (o_name o) (text_length o + 2) :: st)).
Proof.
  intros Hl.
  apply (text_written default_Limits (at_tree (crlf ++ "<"%char :: tl) (e :: es) n (o :: st)) o st crlf tl); try done.
Qed.

Lemma parse_close_leads p n p' l st child parent es tl m :
  valid_name p n = true -> zlen (qname p n) <= 256 ->
  leads default_Limits
    (at_tree ("<"%char :: "/"%char :: qname p n ++ ">"%char :: tl) (child :: parent :: es) m (mkOpen p' n l :: st))
    (at_tree tl (add_child child parent :: es) m st).
Proof.
  intros Hv Hl. by apply (close_written default_Limits
    (at_tree ("<"%char :: "/"%char :: qname p n ++ ">"%char :: tl) (child :: parent :: es) m (mkOpen p' n l :: st)) p p' n l).
Qed.

Lemma close_root_leads p n p' l child tl m :
  valid_name p n = true -> zlen (qname p n) <= 256 ->
  leads default_Limits (at_tree ("<"%char :: "/"%char :: qname p n ++ ">"%char :: tl) [child] m [mkOpen p' n l])
    (mkParser tl (mkTreeSink (Some child) []) m true []).
Proof.
  intros Hv Hl. by apply (close_written default_Limits
    (at_tree ("<"%char :: "/"%char :: qname p n ++ ">"%char :: tl) [child] m [mkOpen p' n l]) p p' n l).
Qed.

Lemma argument_leads a tl e es n o st :
  valid_local a.1 = true -> zlen a.1 <= 256 -> zlen a.2 <= 64 * 1024 -> n + 1 <= 8192 -> zlen (o :: st) + 1 <= 32 ->
  text_length o + 2 <= 64 * 1024 ->
  leads default_Limits (at_tree (write_argument a ++ "<"%char :: tl) (e :: es) n (o :: st))
    (at_tree ("<"%char :: tl) (add_text crlf (add_child (arg_element a) e) :: es) (n + 1)
       (mkOpen (o_prefix o) (o_name o) (text_length o + 2) :: st)).
Proof.
  intros Hv Hn1 Hn2 Hn Hd Ht.
  eapply parse_leads_trans.
  - apply (element_written default_Limits (arg_element a) _ (crlf ++ "<"%char :: tl) (mkTreeSink None (add_child (arg_element a) e :: es)));
      cbn [text stack elements sink had_root reported].
    + unfold write_argument, arg_element. cbn [print map concat app]. change (qname [] a.1) with a.1. by rewrite <- !app_assoc.
    + unfold arg_element. cbn [writable]. unfold valid_name. rewrite Hv. change (qname [] a.1) with a.1.
      split; [done|]. split; [exact Hn1|]. split; [exact Hn2|]. split; [by vm_compute|]. split; [constructor|done].
    + exact Hn.
    + exact Hd.
    + done.
    + apply events_tree.
  - cbn [elements stack had_root]. rewrite (bool_decide_eq_false_2 (o :: st = [])) by done. by apply crlf_leads.
Qed.

Lemma arguments_head (args : list Argument) tl : exists u, concat (map write_argument args) ++ "<"%char :: tl = "<"%char :: u.
Proof. destruct args; [by eexists|]. cbn [map concat]. unfold write_argument at 1. by eexists. Qed.

Lemma arguments_lead (args : list Argument) : forall tl p nm t at' c es n op on r st,
  Forall (fun a => valid_local a.1 = true /\ zlen a.1 <= 256 /\ zlen a.2 <= 64 * 1024) args ->
  n + zlen args <= 8192 -> zlen st + 2 <= 32 -> r + 2 * zlen args <= 64 * 1024 ->
  leads default_Limits (at_tree (concat (map write_argument args) ++ "<"%char :: tl) (Element p nm t at' c :: es) n (mkOpen op on r :: st))
    (at_tree ("<"%char :: tl) (Element p nm (t ++ concat (map (fun _ => crlf) args)) at' (c ++ map arg_element args) :: es)
       (n + zlen args) (mkOpen op on (r + 2 * zlen args) :: st)).
Proof.
  induction args as [|a args IH]; intros tl p nm t at' c es n op on r st Ha Hn Hd Hr.
  { cbn. rewrite zlen_nil, Z.mul_0_r, !Z.add_0_r, !app_nil_r. apply parse_leads_refl. }
  apply Forall_cons in Ha as [(Hv & H1 & H2) Ha]. rewrite zlen_cons in *. pose proof (zlen_nonneg args).
  cbn [map concat]. rewrite <- app_assoc.
  destruct (arguments_head args tl) as [u Eu].
  eapply parse_leads_trans.
  - rewrite Eu. apply argument_leads; try done; [lia|rewrite zlen_cons; lia|cbn; lia].
  - cbn [o_prefix o_name text_length]. rewrite <- Eu. cbn [add_child add_text arg_element].
    eapply parse_leads_trans; [apply IH; [done|lia|done|lia]|].
    rewrite <- !app_assoc. replace (n + 1 + zlen args) with (n + (1 + zlen args)) by lia.
    replace (r + 2 + 2 * zlen args) with (r + 2 * (1 + zlen args)) by lia. apply parse_leads_refl.
Qed.

Definition envelope_attributes : Attributes := [(lit "xmlns:s", envelope_namespace); (lit "s:encodingStyle", encoding_style)].
Definition declaration : bytes := lit "<?xml version=" ++ quoted (lit "1.0") ++ lit "?>".

Lemma fold_concat {A} (f : A -> bytes) l : forall out, fold_left (fun out a => out ++ f a) l out = out ++ concat (map f l).
Proof. induction l as [|a l IH]; intros out; cbn; [by rewrite app_nil_r|]. by rewrite IH, app_assoc. Qed.

Lemma request_text serviceType action arguments :
  buildRequest serviceType action arguments =
  declaration ++ crlf ++
  "<"%char :: qname (lit "s") (lit "Envelope") ++ concat (map print_attribute envelope_attributes) ++ ">"%char :: crlf ++
  "<"%char :: qname (lit "s") (lit "Body") ++ concat (map print_attribute []) ++ ">"%char :: crlf ++
  "<"%char :: qname (lit "u") action ++ concat (map print_attribute [(lit "xmlns:u", serviceType)]) ++ ">"%char :: crlf ++
  concat (map write_argument arguments) ++
  "<"%char :: "/"%char :: qname (lit "u") action ++ ">"%char :: crlf ++
  "<"%char :: "/"%char :: qname (lit "s") (lit "Body") ++ ">"%char :: crlf ++
  "<"%char :: "/"%char :: qname (lit "s") (lit "Envelope") ++ ">"%char :: crlf.
Proof.
  unfold buildRequest, declaration. rewrite fold_concat.
  assert (concat (map print_attribute envelope_attributes) =
    lit " xmlns:s=" ++ quoted envelope_namespace ++ lit " s:encodingStyle=" ++ quoted encoding_style) as -> by by vm_compute.
  assert (concat (map print_attribute [(lit "xmlns:u", serviceType)]) =
    lit " xmlns:u=" ++ [ch_dquote] ++ xml_escape serviceType ++ [ch_dquote]) as ->.
  { cbn [map concat]. unfold print_attribute. rewrite app_nil_r. done. }
  change (qname (lit "u") action) with (lit "u:" ++ action). rewrite <- !app_assoc. done.
Qed.

Lemma action_name action : valid_local action = true -> 2 + zlen action <= 256 ->
  valid_name (lit "u") action = true /\ zlen (qname (lit "u") action) <= 256.
Proof.
  intros Hv Hl. split; [unfold valid_name; by rewrite Hv|]. change (qname (lit "u") action) with (lit "u:" ++ action).
  rewrite zlen_app. change (zlen (lit "u:")) with 2. lia.
Qed.

(** The loop over a whole request: from the declaration to the last line end. *)
Lemma request_leads serviceType action arguments : sendable serviceType action arguments ->
  leads default_Limits (new_XmlParser (buildRequest serviceType action arguments) (mkTreeSink None []))
    (mkParser [] (mkTreeSink (Some (request_tree serviceType action arguments)) []) (3 + zlen arguments) true []).
Proof.
  intros [[Hv Hl] Hst Ha Hn _]. destruct (action_name action Hv Hl) as [Hvn Hln]. pose proof (zlen_nonneg arguments).
  rewrite request_text. set (body := "<"%char :: qname (lit "s") (lit "Envelope") ++ _). eapply parse_leads_trans.
  { apply (misc_leads default_Limits _ "?"%char (drop 2 declaration ++ crlf ++ body) (crlf ++ body)); [done|done|].
    vm_compute. reflexivity. }
  set (start t := mkParser t (mkTreeSink None []) 0 false []).
  apply (parse_leads_trans _ _ (start (ch_lf :: body)));
    [exact (space_leads default_Limits (start (ch_cr :: ch_lf :: body)) ch_cr (ch_lf :: body) eq_refl eq_refl eq_refl)|].
  apply (parse_leads_trans _ _ (start body));
    [exact (space_leads default_Limits (start (ch_lf :: body)) ch_lf body eq_refl eq_refl eq_refl)|].
  unfold start, body.
  set (body1 := "<"%char :: qname (lit "s") (lit "Body") ++ _). eapply parse_leads_trans.
  { eapply (open_written default_Limits _ (lit "s") (lit "Envelope") envelope_attributes (crlf ++ body1)); try done; try lazymatch goal with |- Forall _ _ => idtac | |- _ => by vm_compute end.
    constructor; [|constructor; [|constructor]]; (split; [|by vm_compute]).
    - by exists (lit "xmlns"), (lit "s").
    - by exists (lit "s"), (lit "encodingStyle"). }
  cbn [stack elements]. rewrite bool_decide_eq_true_2 by done. unfold tree_open. cbn [document open_ sink]. unfold body1.
  eapply parse_leads_trans; [by apply crlf_leads|].
  set (body2 := "<"%char :: qname (lit "u") action ++ _). eapply parse_leads_trans.
  { eapply (open_written default_Limits _ (lit "s") (lit "Body") [] (crlf ++ body2)); try done; by vm_compute. }
  cbn [stack elements]. rewrite bool_decide_eq_false_2 by done. unfold tree_open. cbn [document open_ sink had_root]. unfold body2.
  eapply parse_leads_trans; [by apply crlf_leads|].
  set (body3 := concat (map write_argument arguments) ++ _). eapply parse_leads_trans.
  { eapply (open_written default_Limits _ (lit "u") action [(lit "xmlns:u", serviceType)] (crlf ++ body3)); try done; try lazymatch goal with |- Forall _ _ => idtac | |- _ => by vm_compute end.
    constructor; [|constructor]. split; [by exists (lit "xmlns"), (lit "u")|]. split; [by vm_compute|exact Hst]. }
  cbn [stack elements]. rewrite bool_decide_eq_false_2 by done. unfold tree_open. cbn [document open_ sink had_root]. unfold body3.
  set (body4 := "<"%char :: "/"%char :: qname (lit "u") action ++ _). destruct (arguments_head arguments (drop 1 body4)) as [u Eu].
  change ("<"%char :: drop 1 body4) with body4 in Eu. rewrite Eu.
  eapply parse_leads_trans; [by apply crlf_leads|]. rewrite <- Eu. cbn [add_text text_length o_prefix o_name app].
  eapply parse_leads_trans; [apply (arguments_lead arguments (drop 1 body4)); try done; lia|].
  unfold body4. change (drop 1 ("<"%char :: ?l)) with l.
  eapply parse_leads_trans; [by apply parse_close_leads|].
  eapply parse_leads_trans; [by apply crlf_leads|].
  eapply parse_leads_trans; [by apply parse_close_leads|].
  eapply parse_leads_trans; [by apply crlf_leads|].
  set (tree := request_tree serviceType action arguments).
  set (ended t := mkParser t (mkTreeSink (Some tree) []) (3 + zlen arguments) true []).
  apply (parse_leads_trans _ _ (ended crlf)).
  { replace (0 + 1 + 1 + 1 + zlen arguments) with (3 + zlen arguments) by lia.
    by apply close_root_leads. }
  apply (parse_leads_trans _ _ (ended [ch_lf]));
    [exact (space_leads default_Limits (ended crlf) ch_cr [ch_lf] eq_refl eq_refl eq_refl)|].
  exact (space_leads default_Limits (ended [ch_lf]) ch_lf [] eq_refl eq_refl eq_refl).
Qed.

Lemma request_prolog serviceType action arguments : 
  parse_prolog (buildRequest serviceType action arguments) = buildRequest serviceType action arguments.
Proof. rewrite request_text. done. Qed.

(** A request says what was asked, and only that: read back by the parser, it is
    the envelope with the action in it and every argument in order with its value,
    whatever bytes the values and the service type have - nothing in a value can
    close an element, open one, or end an attribute. *)
Theorem request_reads_back serviceType action arguments (Hs : sendable serviceType action arguments) :
  parse_default (buildRequest serviceType action arguments) =
  Some (mkDocument (Some (request_tree serviceType action arguments)) Ok (zlen (buildRequest serviceType action arguments))).
Proof.
  pose proof (s_size _ _ _ Hs) as Hsize. pose proof (request_leads _ _ _ Hs) as Hl.
  unfold parse_default, parse_document, run. cbn [text new_XmlParser]. rewrite (proj2 (Z.ltb_ge _ _)) by exact Hsize.
  rewrite request_prolog. set (request := buildRequest serviceType action arguments) in *.
  destruct (Hl (length request)) as (fuel & _ & Hrun); [done|].
  change (run_loop default_Limits _ _) with
    (run_loop default_Limits (length request) (new_XmlParser request (mkTreeSink None []))). rewrite Hrun.
  replace (run_loop default_Limits fuel _) with
    (Some (Ok, mkParser [] (mkTreeSink (Some (request_tree serviceType action arguments)) []) (3 + zlen arguments) true []))
    by (by destruct fuel).
  cbn [mbind option_bind stack]. rewrite !bool_decide_eq_true_2 by done. cbn [negb had_root mbind option_bind sink document].
  rewrite bool_decide_eq_true_2 by done. unfold offset. cbn [text]. change (zlen (@nil byte)) with 0. by rewrite Z.sub_0_r.
Qed.

Lemma request_reads_back_witness :
  let args := [(lit "NewPortMappingDescription", lit "</x> & 'y'"); (lit "NewEnabled", lit "1")] in
  let request := buildRequest (lit "urn:x:1") (lit "AddPortMapping") args in
  parse_default request = Some (mkDocument (Some (request_tree (lit "urn:x:1") (lit "AddPortMapping") args)) Ok (zlen request)).
Proof.
  cbv zeta. apply request_reads_back. constructor; try by vm_compute. repeat constructor; by vm_compute.
Defined.

(** ** What a response is taken for *)

(** A fault exactly with [Error::Device], its code a 16-bit number and its error the
    enumerator of that code; arguments only without an error. *)
Definition response_ok (e : Error.t) (arguments : ActionResult) (fault : option ActionFault) : Prop :=
  (e = Error.None \/ e = Error.BadResponse \/ e = Error.Device) /\
  (e <> Error.None -> arguments = []) /\ (e = Error.Device <-> is_Some fault) /\
  forall f, fault = Some f -> 0 <= f_code f < 2 ^ 16 /\ f_error f = DeviceError.toDeviceError (f_code f).

Lemma response_plain e arguments : e = Error.None \/ e = Error.BadResponse -> (e <> Error.None -> arguments = []) ->
  response_ok e arguments None.
Proof.
  intros He Ha. split; [tauto|]. split; [done|]. split; [|done]. split; [intros ->; by destruct He|by intros []].
Qed.

Lemma read_fault_ok f : exists g, read_fault f = Some g /\ response_ok Error.Device [] (Some g).
Proof.
  unfold read_fault. rewrite findDescendant_first. cbn [mbind option_bind]. eexists. split; [reflexivity|].
  split; [tauto|]. split; [done|]. split; [done|]. intros g [= <-].
  set (reported := match find_named _ _ with Some _ => _ | None => _ end).
  assert (0 <= f_code reported < 2 ^ 16 /\ f_error reported = DeviceError.toDeviceError (f_code reported)) as H.
  { unfold reported. destruct (find_named _ _) as [u|]; [|done]. cbn [f_code f_error]. split; [|done].
    destruct (bool_decide _); [done|]. destruct (_ <=? _); [|done]. apply Z.mod_pos_bound. lia. }
  by destruct (bool_decide _).
Qed.

(** Any bytes get an answer. *)
Lemma parseResponse_answers body :
  exists e arguments fault, parseResponse body = Some (e, arguments, fault) /\ response_ok e arguments fault.
Proof.
  unfold parseResponse. destruct (parse_document_total default_Limits body) as [d Ed]; [by vm_compute|].
  unfold parse_default. rewrite Ed. cbn [mbind option_bind].
  assert (response_ok Error.BadResponse [] None) as Hbad by (apply response_plain; tauto).
  destruct (negb (bool_decide (error d = Ok))); [by eexists _, _, _|]. destruct (root d) as [r|]; [|by eexists _, _, _].
  destruct (negb (bool_decide (e_name r = _))); [by eexists _, _, _|]. destruct (findChild _ r) as [b|]; [|by eexists _, _, _].
  destruct (findChild _ b) as [f|].
  - destruct (read_fault_ok f) as (g & -> & Hg). by eexists _, _, _.
  - destruct (e_children b) as [|r1 [|r2 rs]]; try by eexists _, _, _.
    eexists _, _, _. split; [reflexivity|]. apply response_plain; [by left|done].
Qed.

(** Any bytes get an answer: the arguments, the fault, or neither when the body
    is not an envelope with one response in it. A fault is reported exactly with
    Error::Device, its code is a 16-bit number and its error the enumerator of that
    code; arguments come only without an error. *)
Theorem response_total body :
  exists e arguments fault, parseResponse body = Some (e, arguments, fault) /\ response_ok e arguments fault.
Proof. apply parseResponse_answers. Qed.

(** What an envelope says: its first Body, with the first Fault in it or its only
    child. *)
Definition envelope (p t : bytes) (a : Attributes) (before after : list XmlElement) (body : XmlElement) : XmlElement :=
  Element p (lit "Envelope") t a (before ++ body :: after).

Lemma find_named_first n before e after :
  find_named n before = None -> e_name e = n -> find_named n (before ++ e :: after) = Some e.
Proof. intros Hb He. rewrite find_named_app, Hb. cbn. by rewrite bool_decide_eq_true_2. Qed.

Definition readable (e : XmlElement) : Prop :=
  writable default_Limits 0 e /\ count e <= 8192 /\ Z.of_nat (height e) <= 32 /\ zlen (print e) <= 256 * 1024.

Lemma readable_parses e : readable e -> exists d, parse_default (print e) = Some d /\ error d = Ok /\ root d = Some e.
Proof. intros (Hw & Hn & Hd & Hs). unfold parse_default. rewrite (print_reads_back default_Limits e Hw Hn Hd Hs). by eexists. Qed.

(** A gateway's answer is understood however it spells what is around it: of an
    envelope written with any prefixes, attributes, text and further children, the
    arguments are the children of the one response in the Body, in order, with
    their trimmed text; and the Fault, wherever the Body has it and at whatever
    depth it keeps its UPnPError, gives the code and the description. *)
Theorem answer_reads_back p t a before after pb tb ab content
  (Hb : find_named (lit "Body") before = None)
  (Hr : readable (envelope p t a before after (Element pb (lit "Body") tb ab content))) :
  parseResponse (print (envelope p t a before after (Element pb (lit "Body") tb ab content))) =
  match find_named (lit "Fault") content with
  | Some fault =>
      let upnp := find_named (lit "UPnPError") (breadth_first (height fault) [fault]) in
      let number := match upnp with Some u => getChildText (lit "errorCode") u | None => [] end in
      let code := if to_uint64 (Some number) <=? 0xffff then to_uint64 (Some number) else 0 in
      let description := match upnp with Some u => getChildText (lit "errorDescription") u | None => [] end in
      Some (Error.Device, [], Some (mkFault (DeviceError.toDeviceError code) code
        (if bool_decide (description = []) then getChildText (lit "faultstring") fault else description)))
  | None =>
      Some match content with
           | [response] => (Error.None, map (fun argument => (e_name argument, trim (e_text argument))) (e_children response), None)
           | _ => (Error.BadResponse, [], None)
           end
  end.
Proof.
  destruct (readable_parses _ Hr) as (d & Ed & He & Ero). unfold parseResponse. rewrite Ed. cbn [mbind option_bind].
  rewrite He, Ero. cbn [e_name envelope]. rewrite !bool_decide_eq_true_2 by done. cbn [negb].
  unfold findChild at 1. cbn [e_children envelope]. rewrite find_named_first by done. unfold findChild. cbn [e_children].
  destruct (find_named (lit "Fault") content) as [f|]; [|by destruct content as [|r [|]]].
  unfold read_fault. rewrite findDescendant_first. cbn [mbind option_bind].
  destruct (find_named (lit "UPnPError") _) as [u|]; cbn [f_description f_error f_code]; [|done].
  assert (forall s, 0 <= to_uint64 (Some s)) as Hpos by (intros s; apply to_uint64_range).
  assert ((if bool_decide (getChildText (lit "errorCode") u = []) then 0
     else if to_uint64 (Some (getChildText (lit "errorCode") u)) <=? 65535
          then u16 (to_uint64 (Some (getChildText (lit "errorCode") u))) else 0) =
    (if to_uint64 (Some (getChildText (lit "errorCode") u)) <=? 65535
     then to_uint64 (Some (getChildText (lit "errorCode") u)) else 0)) as ->.
  { destruct (bool_decide_reflect (getChildText (lit "errorCode") u = [])) as [->|]; [done|].
    destruct (Z.leb_spec (to_uint64 (Some (getChildText (lit "errorCode") u))) 65535); [|done].
    apply Z.mod_small. split; [apply Hpos|lia]. }
  by destruct (bool_decide (getChildText (lit "errorDescription") u = [])).
Qed.

(** The limits of a concrete tree without attributes. *)
Ltac solve_writable :=
  repeat match goal with
  | |- _ /\ _ => split
  | |- Forall _ [] => constructor
  | |- True => exact I
  | |- writable _ _ (Element _ _ _ _ _) => cbn [writable fold_right]
  | |- _ => by vm_compute
  end.

Lemma answer_reads_back_witness :
  let body := [Element (lit "u") (lit "R") [] [] [Element [] (lit "NewReservedPort") (lit " 4000 ") [] []]] in
  let refused := [Element (lit "s") (lit "Fault") [] []
    [Element [] (lit "faultstring") (lit "UPnPError") [] [];
     Element [] (lit "detail") [] [] [Element [] (lit "UPnPError") [] [] [Element [] (lit "errorCode") (lit "718") [] []]]]] in
  parseResponse (print (envelope (lit "s") crlf [] [] [] (Element (lit "s") (lit "Body") [] [] body))) =
    Some (Error.None, [(lit "NewReservedPort", lit "4000")], None) /\
  parseResponse (print (envelope (lit "s") crlf [] [] [] (Element (lit "s") (lit "Body") [] [] refused))) =
    Some (Error.Device, [], Some (mkFault DeviceError.ConflictInMappingEntry 718 (lit "UPnPError"))).
Proof.
  cbv zeta. split.
  - refine (answer_reads_back (lit "s") crlf [] [] [] (lit "s") [] [] _ _ _); [done|]. split; [|by vm_compute].
    unfold envelope. cbn [app]. solve_writable.
  - refine (answer_reads_back (lit "s") crlf [] [] [] (lit "s") [] [] _ _ _); [done|]. split; [|by vm_compute].
    unfold envelope. cbn [app]. solve_writable.
Defined.
