(* ===== verification/UpnpDescription.v ===== *)
(** * UpnpDescription: device descriptions, [src/io/net/upnp/description.cpp]

    The services of a description that are worth talking to, with their control
    URLs resolved and held to the host the description came from. *)

From S2P Require Import Prelude Strings Inet Url Xml XmlTree UpnpSoap.

(** ** Data *)

(* @src src/include/samurai/io/net/upnp/gateway.h:31-36 Samurai::IO::Net::UPnP::ServiceKind *)
Inductive ServiceKind := WanIpConnection | WanPppConnection | WanIpv6FirewallControl.

#[export] Instance ServiceKind_eq_dec : EqDecision ServiceKind.
Proof. solve_decision. Defined.

(* @src src/src/io/net/upnp/description.h:23-31 Samurai::IO::Net::UPnP::Service *)
Record Service := mkService { kind : ServiceKind; serviceType : bytes; controlURL : URL; version : Z }.

(* @src src/src/io/net/upnp/description.h:34-40 Samurai::IO::Net::UPnP::DeviceDescription *)
Record DeviceDescription := mkDescription {
  friendlyName : bytes;
  deviceType : bytes;
  udn : bytes;
  deviceVersion : Z;
  services : list Service
}.
Definition new_DeviceDescription : DeviceDescription := mkDescription [] [] [] 1 [].

(* @src src/src/io/net/upnp/description.cpp:16-16 IP_CONNECTION *)
Definition IP_CONNECTION : bytes := lit "urn:schemas-upnp-org:service:WANIPConnection:".
(* @src src/src/io/net/upnp/description.cpp:17-17 PPP_CONNECTION *)
Definition PPP_CONNECTION : bytes := lit "urn:schemas-upnp-org:service:WANPPPConnection:".
(* @src src/src/io/net/upnp/description.cpp:18-18 IPV6_FIREWALL *)
Definition IPV6_FIREWALL : bytes := lit "urn:schemas-upnp-org:service:WANIPv6FirewallControl:".
(* @src src/src/io/net/upnp/description.cpp:19-19 GATEWAY_DEVICE *)
Definition GATEWAY_DEVICE : bytes := lit "urn:schemas-upnp-org:device:InternetGatewayDevice:".

(** ** Operations *)

(* @src src/src/io/net/upnp/description.cpp:22-34 trailing_version *)
Definition trailing_version (type prefix : bytes) : Z :=
  if (length type <=? length prefix)%nat then 0
  else
    let digits := drop (length prefix) type in
    if bool_decide (digits = []) then 0
    else if negb (forallb is_digit digits) then 0
    else
      let value := to_uint64 (Some digits) in
      if negb (value =? 0) && (value <? 100) then value else 0.

(* @src src/src/io/net/upnp/description.cpp:37-45 collect_services *)
Fixpoint collect_services (element : XmlElement) : list XmlElement :=
  let 'Element _ _ _ _ children := element in
  concat (map (fun child => (if bool_decide (e_name child = lit "service") then [child] else []) ++ collect_services child)
            children).

(** The later one only if its version is higher. *)
(* @src src/src/io/net/upnp/description.cpp:56-57 Samurai::IO::Net::UPnP::DeviceDescription::find *)
Definition better (k : ServiceKind) (best : option Service) (service : Service) : option Service :=
  if negb (bool_decide (kind service = k)) then best
  else
    match best with
    | None => Some service
    | Some b => if version b <? version service then Some service else best
    end.
(* @src src/src/io/net/upnp/description.cpp:50-60 Samurai::IO::Net::UPnP::DeviceDescription::find *)
Definition find_service (k : ServiceKind) (services : list Service) : option Service :=
  fold_left (better k) services None.

(* @src src/src/io/net/upnp/description.cpp:63-71 Samurai::IO::Net::UPnP::DeviceDescription::preferredConnection *)
Definition preferredConnection (services : list Service) : option Service :=
  match find_service WanIpConnection services with
  | Some ip => Some ip
  | None => find_service WanPppConnection services
  end.

(* @src src/src/io/net/upnp/description.cpp:74-105 Samurai::IO::Net::UPnP::Description::classify *)
Definition classify (serviceType : bytes) : option (ServiceKind * Z) :=
  if istarts_with serviceType IP_CONNECTION then
    let found := trailing_version serviceType IP_CONNECTION in
    if found =? 0 then None else Some (WanIpConnection, found)
  else if istarts_with serviceType PPP_CONNECTION then
    let found := trailing_version serviceType PPP_CONNECTION in
    if found =? 0 then None else Some (WanPppConnection, found)
  else if istarts_with serviceType IPV6_FIREWALL then
    let found := trailing_version serviceType IPV6_FIREWALL in
    if found =? 0 then None else Some (WanIpv6FirewallControl, found)
  else None.

Section parsing.
Variable inet_pton : Version -> bytes -> option bytes.
Local Abbreviation URL_of := (Url.parse inet_pton).

(** One [<service>] element: the service, or why it is passed over. *)
(* @src src/src/io/net/upnp/description.cpp:150-175 Samurai::IO::Net::UPnP::Description::parse *)
Definition read_service (location base : URL) (element : XmlElement) : option Service :=
  let serviceType := getChildText (lit "serviceType") element in
  let controlPath := getChildText (lit "controlURL") element in
  if bool_decide (serviceType = []) || bool_decide (controlPath = []) then None
  else
    match classify serviceType with
    | None => None
    | Some (kind, version) =>
        let control := resolve inet_pton base controlPath in
        if negb (valid control) then None
        else if negb (iequals (scheme control) (lit "http")) then None
        else if negb (iequals (hostname control) (hostname location)) then None
        else Some (mkService kind serviceType (assign inet_pton control) version)
    end.

(* @src src/src/io/net/upnp/description.cpp:108-180 Samurai::IO::Net::UPnP::Description::parse *)
Definition parse (body : bytes) (location : URL) : option (Error.t * DeviceDescription) :=
  let out := new_DeviceDescription in
  if negb (valid location) then Some (Error.DescriptionFailed, out)
  else
    document ← parse_default body;
    if negb (bool_decide (error document = Ok)) then Some (Error.DescriptionFailed, out)
    else
      match root document with
      | None => Some (Error.DescriptionFailed, out)
      | Some root =>
          if negb (bool_decide (e_name root = lit "root")) then Some (Error.DescriptionFailed, out)
          else
            match findChild (lit "device") root with
            | None => Some (Error.DescriptionFailed, out)
            | Some device =>
                let deviceType := getChildText (lit "deviceType") device in
                let version := if istarts_with deviceType GATEWAY_DEVICE then trailing_version deviceType GATEWAY_DEVICE else 0 in
                let out := mkDescription (getChildText (lit "friendlyName") device) deviceType
                             (getChildText (lit "UDN") device) (if version =? 0 then 1 else version) [] in
                let base_text := getChildText (lit "URLBase") root in
                let base := if bool_decide (base_text = []) then assign inet_pton location else URL_of base_text in
                if negb (valid base) then Some (Error.DescriptionFailed, out)
                else
                  let found := fold_left (fun services element =>
                    match read_service location base element with Some service => services ++ [service] | None => services end)
                    (collect_services root) [] in
                  let out := mkDescription (friendlyName out) deviceType (udn out) (deviceVersion out) found in
                  Some (if bool_decide (found = []) then Error.NoService else Error.None, out)
            end
      end.
End parsing.

(** ** Service types *)

Lemma trailing_version_spec type prefix : istarts_with type prefix = true ->
  forall v, trailing_version type prefix = v -> v <> 0 ->
  exists m digits, type = m ++ digits /\ iequals m prefix = true /\ digits <> [] /\ forallb is_digit digits = true /\
    dec_value digits = v /\ 1 <= v <= 99.
Proof.
  intros Hp v E Hv. apply istarts_with_iff in Hp as (m & r & -> & Hm). pose proof (f_equal length Hm) as Hl. rewrite !length_map in Hl.
  unfold trailing_version in E. destruct (length (m ++ r) <=? length prefix)%nat; [done|]. rewrite <- Hl, drop_app_length in E.
  destruct (bool_decide_reflect (r = [])); [done|]. destruct (forallb is_digit r) eqn:Er; [|done]. cbn [negb] in E.
  destruct (converters_clamp r) as (_ & _ & Hu & _). rewrite numeral_digits in Hu by done. unfold clamp in Hu.
  destruct (Z.eqb_spec (to_uint64 (Some r)) 0) as [|H0]; [by subst|]. cbn [negb andb] in E.
  destruct (Z.ltb_spec (to_uint64 (Some r)) 100) as [H100|]; [|by subst].
  exists m, r. split; [done|]. split; [by apply iequals_iff|]. split; [done|]. split; [done|].
  assert (0 <= dec_value r) by (rewrite <- (digit_prefix_all r Er); apply dec_value_nonneg, digit_prefix_digits). lia.
Qed.

Lemma classify_spec t k v : classify t = Some (k, v) -> 1 <= v <= 99.
Proof.
  unfold classify. intros E.
  repeat match type of E with (if ?b then _ else _) = _ => destruct b eqn:? end; try done;
    injection E as <- <-; match goal with H : (_ =? 0) = false |- _ => apply Z.eqb_neq in H;
      edestruct trailing_version_spec as (? & ? & ? & ? & ? & ? & ? & ?); [eassumption|reflexivity|exact H|done] end.
Qed.

(** ** The services of a description *)

(** The best of [best] and [l]. *)
Definition best_of (k : ServiceKind) (best : option Service) (l : list Service) (r : option Service) : Prop :=
  match r with
  | None => best = None /\ Forall (fun s => kind s <> k) l
  | Some s => (best = Some s \/ s ∈ l) /\ kind s = k /\
      (forall b, best = Some b -> version b <= version s) /\ Forall (fun x => kind x = k -> version x <= version s) l
  end.

Lemma better_cases k best x : (forall b, best = Some b -> kind b = k) ->
  (kind x <> k /\ better k best x = best) \/
  (kind x = k /\ exists b, better k best x = Some b /\ kind b = k /\ (b = x \/ best = Some b) /\ version x <= version b /\
     forall b', best = Some b' -> version b' <= version b).
Proof.
  intros Hb. unfold better. destruct (bool_decide_reflect (kind x = k)) as [Hx|Hx]; cbn [negb]; [right|by left].
  split; [done|]. destruct best as [b|].
  - destruct (Z.ltb_spec (version b) (version x)).
    + exists x. split; [done|]. split; [done|]. split; [by left|]. split; [lia|]. intros ? [= <-]. lia.
    + exists b. split; [done|]. split; [by apply Hb|]. split; [by right|]. split; [lia|]. intros ? [= <-]. lia.
  - exists x. split; [done|]. split; [done|]. split; [by left|]. split; [lia|done].
Qed.

Lemma fold_better k l : forall best, (forall b, best = Some b -> kind b = k) -> best_of k best l (fold_left (better k) l best).
Proof.
  induction l as [|x l IH]; intros best Hb; cbn [fold_left].
  { destruct best as [b|]; [|done]. split; [by left|]. split; [by apply Hb|]. split; [|done]. intros ? [= <-]. lia. }
  destruct (better_cases k best x Hb) as [[Hx ->]|(Hx & b & -> & Hk & Hfrom & Hxb & Hbb)].
  - specialize (IH best Hb). destruct (fold_left _ l best) as [s|]; cbn in *.
    + destruct IH as (Hs & ? & ? & ?). split; [destruct Hs; [by left|right; by constructor]|]. split; [done|]. split; [done|]. by constructor.
    + destruct IH. split; [done|]. by constructor.
  - specialize (IH (Some b)). destruct (fold_left _ l (Some b)) as [s|]; cbn in *; [|by destruct IH; [intros ? [= <-]|]].
    destruct IH as (Hs & Hks & Hv & Hl); [by intros ? [= <-]|]. specialize (Hv b eq_refl). split.
    { destruct Hs as [[= <-]|Hs]; [|right; by constructor]. destruct Hfrom as [->|]; [right; by constructor|by left]. }
    split; [done|]. split; [intros b' Eb; specialize (Hbb b' Eb); lia|]. constructor; [lia|done].
Qed.

(** The highest version of a kind, if there is one at all. *)
Lemma find_service_spec k l :
  match find_service k l with
  | None => Forall (fun s => kind s <> k) l
  | Some s => s ∈ l /\ kind s = k /\ Forall (fun x => kind x = k -> version x <= version s) l
  end.
Proof.
  pose proof (fold_better k l None ltac:(done)) as H. unfold find_service. destruct (fold_left _ l None) as [s|].
  - destruct H as ([H|H] & ? & _ & ?); [done|]. done.
  - by destruct H.
Qed.

Lemma fold_omap {A B} (f : A -> option B) l : forall out,
  fold_left (fun out x => match f x with Some y => out ++ [y] | None => out end) l out = out ++ omap f l.
Proof.
  induction l as [|x l IH]; intros out; cbn; [by rewrite app_nil_r|]. rewrite IH. destruct (f x); [|done]. by rewrite <- app_assoc.
Qed.

Section guarantees.
Variable inet_pton : Version -> bytes -> option bytes.

(** What is kept about a service. *)
Record service_ok (location : URL) (s : Service) : Prop := mkServiceOk {
  ok_url : valid (controlURL s) = true;
  ok_scheme : iequals (scheme (controlURL s)) (lit "http") = true;
  ok_host : iequals (hostname (controlURL s)) (hostname location) = true;
  ok_type : classify (serviceType s) = Some (kind s, version s);
  ok_version : 1 <= version s <= 99
}.

Lemma read_service_ok location base e s : read_service inet_pton location base e = Some s -> service_ok location s.
Proof.
  unfold read_service. destruct (_ || _); [done|]. destruct (classify _) as [[k v]|] eqn:Ec; [|done].
  set (control := resolve inet_pton base (getChildText (lit "controlURL") e)). destruct (valid control) eqn:Ev; [|done]. cbn [negb].
  destruct (iequals (scheme control) _) eqn:Es; [|done]. cbn [negb].
  destruct (iequals (hostname control) _) eqn:Eh; [|done]. cbn [negb]. intros [= <-].
  constructor; cbn [controlURL kind version serviceType]; unfold control in *; rewrite ?(assign_resolved inet_pton); try done.
  by apply classify_spec in Ec.
Qed.

(** Where control URLs are resolved. *)
Definition base_of (root : XmlElement) (location : URL) : URL :=
  let base_text := getChildText (lit "URLBase") root in
  if bool_decide (base_text = []) then assign inet_pton location else Url.parse inet_pton base_text.

(** What is kept, and the verdict on it. *)
Lemma parse_verdict body location :
  exists e out, UpnpDescription.parse inet_pton body location = Some (e, out) /\
    (e = Error.DescriptionFailed /\ services out = [] \/
     e = (if bool_decide (services out = []) then Error.NoService else Error.None) /\
     exists root, XmlTree.root <$> parse_default body = Some (Some root) /\
       services out = omap (read_service inet_pton location (base_of root location)) (collect_services root)).
Proof.
  unfold UpnpDescription.parse. destruct (parse_document_total default_Limits body) as [d Ed]; [by vm_compute|].
  unfold parse_default. rewrite Ed. cbn [mbind option_bind fmap option_fmap option_map].
  destruct (negb (valid location)); [by eexists _, _; split; [|left]|].
  destruct (negb (bool_decide (error d = Ok))); [by eexists _, _; split; [|left]|].
  destruct (XmlTree.root d) as [r|]; [|by eexists _, _; split; [|left]].
  destruct (negb _); [by eexists _, _; split; [|left]|].
  destruct (findChild _ r) as [device|]; [|by eexists _, _; split; [|left]].
  destruct (negb _); [by eexists _, _; split; [|left]|].
  rewrite fold_omap. fold (base_of r location). cbn [app].
  eexists _, _. split; [reflexivity|]. right. cbn [services]. split; [done|]. by exists r.
Qed.

Lemma read_services_ok location base l : Forall (service_ok location) (omap (read_service inet_pton location base) l).
Proof.
  induction l as [|x l IH]; [done|]. cbn. destruct (read_service _ _ _ x) as [s|] eqn:Es; [|exact IH].
  constructor; [by eapply read_service_ok|exact IH].
Qed.

(** C33. A description cannot aim requests elsewhere: whatever bytes a device sends,
    reading them ends with a verdict; every service that is kept has a valid
    plain http control URL on the very host the description came from, whatever
    URLBase or absolute URL the document gives, and is of a type the library knows,
    version 1 to 99; the kept services are exactly the qualifying elements of the
    tree, in document order; and no service is an error of its own. *)
Theorem description_keeps_host body location :
  exists e out, UpnpDescription.parse inet_pton body location = Some (e, out) /\
    (e = Error.None \/ e = Error.NoService \/ e = Error.DescriptionFailed) /\
    (e = Error.None <-> services out <> []) /\ Forall (service_ok location) (services out) /\
    (e <> Error.DescriptionFailed -> exists root, XmlTree.root <$> parse_default body = Some (Some root) /\
       services out = omap (read_service inet_pton location (base_of root location)) (collect_services root)).
Proof.
  destruct (parse_verdict body location) as (e & out & E & H). exists e, out. split; [exact E|].
  destruct H as [[-> Ho]|[He (root & Er & Ho)]].
  - rewrite Ho. split; [tauto|]. split; [by split; [|intros []]|]. by split; [|intros []].
  - split; [subst e; case_bool_decide; tauto|]. split; [subst e; by case_bool_decide; split|].
    split; [rewrite Ho; apply read_services_ok|]. intros _. by exists root.
Qed.
End guarantees.

(** A second look at the order of preference. *)
Lemma preferred_connection_spec l :
  match preferredConnection l with
  | None => Forall (fun s => kind s = WanIpv6FirewallControl) l
  | Some s => s ∈ l /\ Forall (fun x => kind x = kind s -> version x <= version s) l /\
      (kind s = WanIpConnection \/ kind s = WanPppConnection /\ Forall (fun x => kind x <> WanIpConnection) l)
  end.
Proof.
  unfold preferredConnection. pose proof (find_service_spec WanIpConnection l) as Hip.
  destruct (find_service WanIpConnection l) as [s|].
  - destruct Hip as (Hs & Hk & Hv). rewrite Hk. split; [done|]. split; [done|by left].
  - pose proof (find_service_spec WanPppConnection l) as Hppp. destruct (find_service WanPppConnection l) as [s|].
    + destruct Hppp as (Hs & Hk & Hv). rewrite Hk. split; [done|]. split; [done|by right].
    + apply Forall_forall. intros x Hx. rewrite Forall_forall in Hip, Hppp. specialize (Hip x Hx). specialize (Hppp x Hx).
      by destruct (kind x).
Qed.
