(* ===== verification/Ssdp.v ===== *)
(** * Ssdp: searching for a gateway, [src/io/net/upnp/ssdp.cpp]

    What a search sends, what a reply has to say to be believed, and the search
    itself as a machine driven by datagrams and its ticker. The interfaces of the
    host, the sockets made on them, and the clock are the environment's. *)

From stdpp Require Import gmap.
From S2P Require Import Prelude Strings ByteQueue Buffer HttpResponse Inet Url.

(** ** Searches *)

(* @src src/src/io/net/upnp/ssdp.cpp:24-29 SEARCH_TARGETS *)
Definition SEARCH_TARGETS : list bytes := map lit
  ["urn:schemas-upnp-org:device:InternetGatewayDevice:2"; "urn:schemas-upnp-org:device:InternetGatewayDevice:1";
   "urn:schemas-upnp-org:service:WANIPConnection:1"; "urn:schemas-upnp-org:service:WANPPPConnection:1"]%string.

(* @src src/src/io/net/upnp/ssdp.h:43-48 Samurai::IO::Net::UPnP::Ssdp::Group *)
Record Group := mkGroup { g_address : bytes; g_port : Z; g_version : Inet.Version }.
(* @src src/src/io/net/upnp/ssdp.cpp:33-37 GROUPS *)
Definition GROUPS : list Group :=
  [mkGroup (lit "239.255.255.250") 1900 IPv4; mkGroup (lit "ff02::c") 1900 IPv6; mkGroup (lit "ff05::c") 1900 IPv6].

(** The system's name and version. *)
(* @src src/src/io/net/upnp/ssdp.cpp:55-80 Samurai::IO::Net::UPnP::Ssdp::buildSearch *)
Definition buildSearch (os_name os_version host target : bytes) (mx : Z) : bytes :=
  lit "M-SEARCH * HTTP/1.1" ++ crlf ++ lit "HOST: " ++ host ++ crlf ++
  lit "MAN: " ++ [ch_dquote] ++ lit "ssdp:discover" ++ [ch_dquote] ++ crlf ++
  lit "ST: " ++ target ++ crlf ++ lit "MX: " ++ to_string mx ++ crlf ++
  lit "USER-AGENT: " ++ os_name ++ lit "/" ++ os_version ++ lit " UPnP/1.1 Samurai/1.0" ++ crlf ++ crlf.

(** ** Replies *)

(* @src src/src/io/net/upnp/ssdp.h:64-72 Samurai::IO::Net::UPnP::Ssdp::Reply *)
Record Reply := mkReply {
  location : URL;
  st : bytes;
  usn : bytes;
  server : bytes;
  source : InetAddress;
  maxAge : Z
}.

(* @src src/src/io/net/upnp/ssdp.cpp:96-99 Samurai::IO::Net::UPnP::Ssdp::Reply::key *)
Definition key (r : Reply) : bytes := Url.toString (location r).

(** The first max-age of a Cache-Control field. *)
(* @src src/src/io/net/upnp/ssdp.cpp:163-174 Samurai::IO::Net::UPnP::Ssdp::parseReply *)
Fixpoint cache_age (fields : list bytes) : Z :=
  match fields with
  | [] => 0
  | field :: fields =>
      match split_once field "=" with
      | None => cache_age fields
      | Some (name, value) =>
          if negb (iequals (trim name) (lit "max-age")) then cache_age fields
          else
            let age := to_uint64 (Some (trim value)) in
            if negb (age =? 0) && (age <? 0xffffffff) then u32 age else 0
      end
  end.

Section environment.
(** Memory, the system's conversions of addresses, and its name. *)
Variable alloc : Z -> bool.
Variable inet_pton : Inet.Version -> bytes -> option bytes.
Variable inet_ntop : Inet.Version -> bytes -> option bytes.
Variable os_name os_version : bytes.

(* @src src/src/io/net/upnp/ssdp.cpp:125-177 Samurai::IO::Net::UPnP::Ssdp::parseReply *)
Definition accept_reply (response : HttpResponse.Response) (from : InetAddress) (requireMatchingHost : bool) : option Reply :=
  let headers := HttpResponse.headers response in
  if negb ((200 <=? HttpResponse.status_code response) && (HttpResponse.status_code response <=? 299)) then None
  else
    match HttpResponse.Headers.get (lit "LOCATION") headers with
    | None => None
    | Some text =>
        let url := Url.parse inet_pton (trim text) in
        if negb (valid url) || bool_decide (Url.hostname url = []) then None
        else if negb (iequals (scheme url) (lit "http")) then None
        else if requireMatchingHost && negb (iequals (Url.hostname url) (Inet.toString inet_ntop from)) then None
        else
          match HttpResponse.Headers.get (lit "USN") headers with
          | None => None
          | Some usn =>
              let field name := match HttpResponse.Headers.get name headers with Some v => trim v | None => [] end in
              let age := match HttpResponse.Headers.get (lit "CACHE-CONTROL") headers with
                         | Some cache => cache_age (split cache ",")
                         | None => 0
                         end in
              Some (mkReply (assign inet_pton url) (field (lit "ST")) (trim usn) (field (lit "SERVER")) from age)
          end
    end.

(** The reply, if it is one. *)
(* @src src/src/io/net/upnp/ssdp.cpp:102-178 Samurai::IO::Net::UPnP::Ssdp::parseReply *)
Definition parseReply (datagram : bytes) (from : InetAddress) (requireMatchingHost : bool) : option (option Reply) :=
  if istarts_with datagram (lit "NOTIFY") then Some None
  else
    let input := snd (Buffer.append alloc datagram (Buffer.new_Buffer 8192)) in
    let parser := HttpResponse.expectNoBody (HttpResponse.new_ResponseParser HttpResponse.default_Limits) in
    '(result, parser, _) ← HttpResponse.parse parser input;
    if negb (bool_decide (result = HttpResponse.Complete)) then Some None
    else Some (accept_reply (HttpResponse.response parser) from requireMatchingHost).

(** ** The search *)

(* @src src/src/io/net/upnp/ssdp.h:129-139 Samurai::IO::Net::UPnP::Ssdp::Search::Options *)
Record Options := mkOptions {
  timeout : Z;
  interval : Z;
  mx : Z;
  rounds : Z;
  hops : Z;
  searchIPv4 : bool;
  searchIPv6 : bool;
  requireLocationMatchesSource : bool
}.
(* @src src/src/io/net/upnp/ssdp.h:129-139 Samurai::IO::Net::UPnP::Ssdp::Search::Options *)
Definition default_Options : Options := mkOptions 3000 500 2 2 2 true true true.

(** [legs] has the HOST of each leg; [ticker] is whether the timer exists. *)
(* @src src/src/io/net/upnp/ssdp.h:184-194 Samurai::IO::Net::UPnP::Ssdp::Search *)
Record Search := mkSearch {
  options : Options;
  legs : list bytes;
  replies : list Reply;
  seen : gset bytes;
  ticker : bool;
  deadline : Z;
  round : Z;
  finished : bool
}.

(** What a search does that can be seen: a packet on a leg, or a call of its
    handler. *)
Inductive Output := Sent (host request : bytes) | EventSsdpReply (r : Reply) | EventSsdpFinished.

(** An interface, as far as a search asks; [usable] is whether a socket for the
    group could be made, listens, and was bound to the interface. *)
Record Interface := mkInterface {
  isEnabled : bool;
  isMulticast : bool;
  isLoopback : bool;
  isPointToPoint : bool;
  usable : Group -> bool
}.

(* @src src/src/io/net/upnp/ssdp.cpp:250-291 Samurai::IO::Net::UPnP::Ssdp::Search::internal_open *)
Definition open_leg (o : Options) (iface : Interface) (group : Group) : option bytes :=
  let is_ipv6 := bool_decide (g_version group = IPv6) in
  if is_ipv6 && negb (searchIPv6 o) then None
  else if negb is_ipv6 && negb (searchIPv4 o) then None
  else if negb (usable iface group) then None
  else
    let destination := new_InetAddress inet_pton (g_address group) in
    if negb (isValid destination) || negb (Inet.isMulticast destination) then None
    else Some (if is_ipv6 then lit "[" ++ g_address group ++ lit "]:" ++ to_string (g_port group)
               else g_address group ++ lit ":" ++ to_string (g_port group)).

(** The legs; none when the interfaces could not be had. *)
(* @src src/src/io/net/upnp/ssdp.cpp:229-294 Samurai::IO::Net::UPnP::Ssdp::Search::internal_open *)
Definition internal_open (o : Options) (interfaces : option (list Interface)) : list bytes :=
  match interfaces with
  | None => []
  | Some interfaces =>
      concat (map (fun iface =>
        if negb (isEnabled iface) || negb (isMulticast iface) then []
        else if isLoopback iface || isPointToPoint iface then []
        else omap (open_leg o iface) GROUPS) interfaces)
  end.

(* @src src/src/io/net/upnp/ssdp.cpp:303-322 Samurai::IO::Net::UPnP::Ssdp::Search::internal_sendRound *)
Definition internal_sendRound (s : Search) : list Output * Search :=
  (concat (map (fun host => map (fun target => Sent host (buildSearch os_name os_version host target (mx (options s))))
             SEARCH_TARGETS) (legs s)),
   mkSearch (options s) (legs s) (replies s) (seen s) (ticker s) (deadline s) (u8 (round s + 1)) (finished s)).

(* @src src/src/io/net/upnp/ssdp.cpp:181-195 Samurai::IO::Net::UPnP::Ssdp::Search::start *)
Definition start (o : Options) (interfaces : option (list Interface)) (now : Z) : option (list Output * Search) :=
  match internal_open o interfaces with
  | [] => None
  | opened =>
      let '(out, s) := internal_sendRound (mkSearch o opened [] ∅ false (now + timeout o) 0 false) in
      Some (out, mkSearch (options s) (legs s) (replies s) (seen s) true (deadline s) (round s) (finished s))
  end.

(** [from] is the sender, when the packet names an internet address. *)
(* @src src/src/io/net/upnp/ssdp.cpp:325-351 Samurai::IO::Net::UPnP::Ssdp::Search::EventGotDatagram *)
Definition EventGotDatagram (datagram : bytes) (from : option InetAddress) (s : Search) : option (list Output * Search) :=
  if finished s then Some ([], s)
  else if bool_decide (datagram = []) then Some ([], s)
  else
    match from with
    | None => Some ([], s)
    | Some address =>
        reply ← parseReply datagram address (requireLocationMatchesSource (options s));
        match reply with
        | None => Some ([], s)
        | Some reply =>
            if bool_decide (key reply ∈ seen s) then Some ([], s)
            else Some ([EventSsdpReply reply],
                       mkSearch (options s) (legs s) (replies s ++ [reply]) ({[ key reply ]} ∪ seen s) (ticker s) (deadline s)
                         (round s) (finished s))
        end
    end.

(* @src src/src/io/net/upnp/ssdp.cpp:366-382 Samurai::IO::Net::UPnP::Ssdp::Search::EventTimeout *)
Definition EventTimeout (now : Z) (s : Search) : list Output * Search :=
  if finished s then ([], s)
  else if deadline s <=? now then
    ([EventSsdpFinished],
     mkSearch (options s) (legs s) (replies s) (seen s) false (deadline s) (round s) true)
  else if round s <? rounds (options s) then internal_sendRound s
  else ([], s).

(** What happens to a search. *)
Inductive Event := Datagram (datagram : bytes) (from : option InetAddress) | Tick (now : Z).

Definition handle (e : Event) (s : Search) : option (list Output * Search) :=
  match e with
  | Datagram datagram from => EventGotDatagram datagram from s
  | Tick now => Some (EventTimeout now s)
  end.

Fixpoint run (events : list Event) (s : Search) : option (list Output * Search) :=
  match events with
  | [] => Some ([], s)
  | e :: events =>
      '(out1, s) ← handle e s;
      '(out2, s) ← run events s;
      Some (out1 ++ out2, s)
  end.

(** ** What a search keeps to *)

Definition heard (out : list Output) : list Reply := omap (fun o => match o with EventSsdpReply r => Some r | _ => None end) out.
Definition packets (out : list Output) : Z := zlen (List.filter (fun o => match o with Sent _ _ => true | _ => false end) out).
Definition ends (out : list Output) : Z := zlen (List.filter (fun o => match o with EventSsdpFinished => true | _ => false end) out).

(** What makes a reply believable. *)
Definition believable (o : Options) (r : Reply) : Prop :=
  valid (location r) = true /\ Url.hostname (location r) <> [] /\ iequals (scheme (location r)) (lit "http") = true /\
  (requireLocationMatchesSource o = true -> iequals (Url.hostname (location r)) (Inet.toString inet_ntop (source r)) = true) /\
  0 <= maxAge r < 0xffffffff.

Lemma cache_age_range l : 0 <= cache_age l < 0xffffffff.
Proof.
  induction l as [|f l IH]; [done|]. cbn [cache_age]. destruct (split_once f "=") as [[n v]|]; [|exact IH].
  destruct (negb (iequals _ _)); [exact IH|]. pose proof (to_uint64_range (trim v)).
  destruct (negb _ && _) eqn:E; [|done]. apply andb_true_iff in E as [_ E]. apply Z.ltb_lt in E.
  unfold u32. rewrite Z.mod_small by lia. lia.
Qed.

Lemma accept_reply_believable response from o r :
  accept_reply response from (requireLocationMatchesSource o) = Some r -> believable o r.
Proof.
  unfold accept_reply. destruct (negb _); [done|]. destruct (Headers.get _ _) as [text|]; [|done].
  set (u := Url.parse inet_pton (trim text)). destruct (valid u) eqn:Ev; [|done].
  destruct (bool_decide_reflect (Url.hostname u = [])); [done|]. cbn [negb orb].
  destruct (iequals (scheme u) (lit "http")) eqn:Es; [|done]. cbn [negb].
  destruct (requireLocationMatchesSource o && _) eqn:Er; [done|]. destruct (Headers.get _ _) as [usn|]; [|done].
  intros [= <-]. unfold believable. cbn [location source maxAge].
  assert (assign inet_pton u = u) as -> by apply assign_parsed.
  split; [done|]. split; [done|]. split; [done|]. split.
  - intros Hm. rewrite Hm in Er. by apply negb_false_iff in Er.
  - case_match; [apply cache_age_range|done].
Qed.

Lemma parseReply_total datagram from require : exists r, parseReply datagram from require = Some r /\
  forall reply, r = Some reply -> exists response, accept_reply response from require = Some reply.
Proof.
  unfold parseReply. destruct (istarts_with _ _); [by exists None|].
  destruct (new_Buffer_wf 8192) as [Hw _]; [by vm_compute|].
  destruct (append_all_or_nothing alloc datagram (new_Buffer 8192) Hw) as (ok & b & Eb & Hb & _). rewrite Eb. cbn [snd].
  assert (limits_ok default_Limits) as HL by (constructor; done).
  destruct (reachable_inv default_Limits (expectNoBody (new_ResponseParser default_Limits)) HL) as [Hinv _].
  { apply reach_no_body, reach_new. }
  assert (q_ok b) as Hq by exact Hb.
  destruct (parse_ok (expectNoBody (new_ResponseParser default_Limits)) b Hinv Hq) as (r & p & q & E & _).
  rewrite E. cbn [mbind option_bind]. destruct (negb _); [by exists None|]. eexists. split; [reflexivity|]. intros reply Hr. by eexists.
Qed.

(** The answer that a datagram is, if it is a whole one. *)
Definition answer (datagram : bytes) : option HttpResponse.Response :=
  match HttpResponse.parse (HttpResponse.expectNoBody (HttpResponse.new_ResponseParser HttpResponse.default_Limits))
          (snd (Buffer.append alloc datagram (Buffer.new_Buffer 8192))) with
  | Some (HttpResponse.Complete, parser, _) => Some (HttpResponse.response parser)
  | _ => None
  end.

(** The reply that an answer gives, by what it has to say. *)
Definition names_gateway (o : Options) (response : HttpResponse.Response) (from : InetAddress) (r : Reply) : Prop :=
  let headers := HttpResponse.headers response in
  let field name := match HttpResponse.Headers.get name headers with Some v => trim v | None => [] end in
  200 <= HttpResponse.status_code response <= 299 /\ believable o r /\
  (exists text, HttpResponse.Headers.get (lit "LOCATION") headers = Some text /\ location r = Url.parse inet_pton (trim text)) /\
  (exists text, HttpResponse.Headers.get (lit "USN") headers = Some text /\ usn r = trim text) /\
  st r = field (lit "ST") /\ server r = field (lit "SERVER") /\ source r = from /\
  maxAge r = match HttpResponse.Headers.get (lit "CACHE-CONTROL") headers with Some cache => cache_age (split cache ",") | None => 0 end.

Lemma accept_reply_spec response from o r :
  accept_reply response from (requireLocationMatchesSource o) = Some r <-> names_gateway o response from r.
Proof.
  split.
  - intros H. pose proof (accept_reply_believable response from o r H) as HB. revert H. unfold accept_reply.
    destruct (negb _) eqn:E2; [done|]. apply negb_false_iff, andb_true_iff in E2 as [E2%Z.leb_le E3%Z.leb_le].
    destruct (Headers.get _ _) as [text|] eqn:El; [|done]. do 3 (case_match; [done|]).
    destruct (Headers.get (lit "USN") _) as [u|] eqn:Eu; [|done]. intros [= <-].
    split; [lia|]. split; [done|]. split; [exists text; split; [exact El|apply assign_parsed]|]. split; [by exists u|done].
  - intros ([H2%Z.leb_le H3%Z.leb_le] & (Hv & Hh & Hs & Hm & _) & (text & El & EL) & (u & Eu & EU) & Est & Esv & Ef & Ea).
    unfold accept_reply. rewrite H2, H3. cbn [andb negb]. rewrite El. rewrite EL, <- Ef in *. rewrite Hv, Hs, bool_decide_false by done. cbn [negb orb].
    destruct (requireLocationMatchesSource o); [rewrite Hm by done|]; cbn [andb negb]; rewrite Eu, assign_parsed;
      destruct r; cbn in *; by subst.
Qed.

(** A datagram that comes to a search, and what it offers. *)
Definition offered (o : Options) (e : Event) : option Reply :=
  match e with
  | Datagram ((_ :: _) as datagram) (Some from) =>
      match parseReply datagram from (requireLocationMatchesSource o) with Some (Some r) => Some r | _ => None end
  | _ => None
  end.

Lemma offered_spec o datagram from r :
  offered o (Datagram datagram (Some from)) = Some r <->
  datagram <> [] /\ istarts_with datagram (lit "NOTIFY") = false /\ exists response, answer datagram = Some response /\ names_gateway o response from r.
Proof.
  unfold offered, parseReply, answer. destruct datagram as [|c datagram]; [split; [done|by intros []]|].
  destruct (istarts_with _ _); [split; [done|by intros (_ & ? & _)]|].
  destruct (HttpResponse.parse _ _) as [[[result p] q]|]; cbn [mbind option_bind]; [|split; [done|by intros (_ & _ & ? & ? & _)]].
  destruct (bool_decide_reflect (result = Complete)) as [->|Hne]; cbn [negb].
  - split.
    + intros Hr. split; [done|]. split; [done|]. eexists. split; [reflexivity|]. apply accept_reply_spec. by case_match.
    + intros (_ & _ & response & [= <-] & Hr%accept_reply_spec). by rewrite Hr.
  - split; [done|]. intros (_ & _ & response & Hr & _). by destruct result.
Qed.

(** The first of each key that is not known yet. *)
Fixpoint first_of_each (known : list bytes) (l : list Reply) : list Reply :=
  match l with
  | [] => []
  | r :: l => if bool_decide (key r ∈ known) then first_of_each known l else r :: first_of_each (known ++ [key r]) l
  end.

(** The invariant of a search, with all it has done. *)
Record search_inv (out : list Output) (s : Search) : Prop := mkSearchInv {
  i_heard : heard out = replies s;
  i_distinct : NoDup (map key (replies s));
  i_seen : forall k, k ∈ seen s <-> k ∈ map key (replies s);
  i_believable : Forall (believable (options s)) (replies s);
  i_rounds : 1 <= round s <= Z.max 1 (rounds (options s));
  i_packets : packets out = round s * (4 * zlen (legs s));
  i_ends : (if finished s then exists before, out = before ++ [EventSsdpFinished] /\ ends before = 0 else ends out = 0);
  i_ticker : ticker s = negb (finished s)
}.

Lemma outputs_counts_app a b : heard (a ++ b) = heard a ++ heard b /\ packets (a ++ b) = packets a + packets b /\ ends (a ++ b) = ends a + ends b.
Proof.
  split; [unfold heard; by rewrite omap_app|]. unfold packets, ends. rewrite !List.filter_app, !zlen_app. done.
Qed.

Lemma round_counts s : let '(out, s') := internal_sendRound s in
  heard out = [] /\ ends out = 0 /\ packets out = 4 * zlen (legs s).
Proof.
  unfold internal_sendRound. induction (legs s) as [|h l IH]; [done|]. cbn [map concat].
  set (f := fun target : bytes => Sent h _). set (rest := concat _) in *.
  destruct (outputs_counts_app (map f SEARCH_TARGETS) rest) as (-> & -> & ->). destruct IH as (-> & -> & ->).
  rewrite zlen_cons. change (heard (map f SEARCH_TARGETS)) with (@nil Reply).
  change (packets (map f SEARCH_TARGETS)) with 4. change (ends (map f SEARCH_TARGETS)) with 0. split; [done|lia].
Qed.

Lemma search_inv_round out s : search_inv out s -> finished s = false -> round s < rounds (options s) -> rounds (options s) < 256 ->
  let '(out2, s') := internal_sendRound s in search_inv (out ++ out2) s'.
Proof.
  intros [H1 H2 H3 H4 H5 H6 H7 H8] Hf Hr Hu. pose proof (round_counts s) as Hc. unfold internal_sendRound in *.
  destruct Hc as (C1 & C2 & C3). set (sent := concat _) in *. destruct (outputs_counts_app out sent) as (A1 & A2 & A3). rewrite Hf in *.
  assert (u8 (round s + 1) = round s + 1) as Eu by (unfold u8; rewrite Z.mod_small; lia).
  constructor; cbn; rewrite ?A1, ?A2, ?A3, ?C1, ?C2, ?C3, ?app_nil_r, ?Eu; try done; lia.
Qed.

(** Whether a tick of the environment comes when time is up. *)
Definition expires (limit : Z) (e : Event) : bool := match e with Tick now => limit <=? now | Datagram _ _ => false end.

(** What comes before the end. *)
Fixpoint in_time (limit : Z) (events : list Event) : list Event :=
  match events with [] => [] | e :: events => if expires limit e then [] else e :: in_time limit events end.

Lemma handle_hears e s : (forall k, k ∈ seen s <-> k ∈ map key (replies s)) ->
  forall out s', handle e s = Some (out, s') ->
  replies s' = replies s ++ if finished s || expires (deadline s) e then [] else
    first_of_each (map key (replies s)) (option_list (offered (options s) e)).
Proof.
  intros Hk out s'. destruct e as [datagram from|now]; cbn [handle expires]; [|unfold EventTimeout; repeat case_match; intros [= <- <-]; cbn; by rewrite app_nil_r].
  unfold EventGotDatagram, offered. destruct (finished s); [intros [= <- <-]; by rewrite app_nil_r|]. cbn [orb].
  destruct datagram as [|c d]; [rewrite bool_decide_true by done; intros [= <- <-]; by rewrite app_nil_r|].
  rewrite bool_decide_false by done. destruct from as [a|]; [|intros [= <- <-]; by rewrite app_nil_r].
  destruct (parseReply (c :: d) a _) as [[r|]|]; cbn [mbind option_bind option_list first_of_each]; [| |done].
  - specialize (Hk (key r)). destruct (bool_decide_reflect (key r ∈ seen s)) as [Hin|Hin].
    + cbn; rewrite bool_decide_true by tauto. intros [= <- <-]. by rewrite app_nil_r.
    + cbn; rewrite bool_decide_false by tauto. by intros [= <- <-].
  - intros [= <- <-]. by rewrite app_nil_r.
Qed.

Lemma first_of_each_app known l l' : first_of_each known (l ++ l') =
  first_of_each known l ++ first_of_each (known ++ map key (first_of_each known l)) l'.
Proof.
  revert known. induction l as [|r l IH]; intros known; cbn; [by rewrite app_nil_r|]. case_match; [apply IH|].
  cbn. by rewrite IH, <- (assoc_L (++)).
Qed.

Lemma handle_inv e out s : search_inv out s -> rounds (options s) < 256 ->
  exists out2 s', handle e s = Some (out2, s') /\ search_inv (out ++ out2) s' /\ options s' = options s /\ legs s' = legs s /\
    deadline s' = deadline s /\ finished s' = finished s || expires (deadline s) e.
Proof.
  intros H Hu. pose proof H as [H1 H2 H3 H4 H5 H6 H7 H8].
  assert (exists out2 s', Some ([], s) = Some (out2, s') /\ search_inv (out ++ out2) s' /\ options s' = options s /\ legs s' = legs s /\
    deadline s' = deadline s /\ finished s' = finished s || false) as Hsame.
  { exists [], s. rewrite app_nil_r, orb_false_r. done. }
  destruct e as [datagram from|now]; cbn [handle expires].
  - unfold EventGotDatagram. destruct (finished s) eqn:Ef; [exact Hsame|]. destruct (bool_decide _); [exact Hsame|].
    destruct from as [a|]; [|exact Hsame].
    destruct (parseReply_total datagram a (requireLocationMatchesSource (options s))) as (r & -> & Hr). cbn [mbind option_bind].
    destruct r as [r|]; [|exact Hsame]. destruct (Hr r eq_refl) as (response & Hacc). apply accept_reply_believable in Hacc.
    destruct (bool_decide_reflect (key r ∈ seen s)) as [|Hnew]; [exact Hsame|]. eexists _, _. split; [reflexivity|].
    split; [|done]. destruct (outputs_counts_app out [EventSsdpReply r]) as (A1 & A2 & A3).
    constructor; cbn; rewrite ?A1, ?A2, ?A3, ?map_app; cbn; try done.
    + by rewrite H1.
    + apply NoDup_app. split; [done|]. split; [|apply NoDup_singleton]. intros k Hk Hin. apply list_elem_of_singleton in Hin as ->. by apply Hnew, H3.
    + intros k. rewrite elem_of_union, elem_of_singleton, elem_of_app, list_elem_of_singleton, H3. tauto.
    + apply Forall_app. split; [done|]. by constructor.
    + rewrite H6. change (packets [EventSsdpReply r]) with 0. lia.
    + rewrite H7. done.
  - unfold EventTimeout. destruct (finished s) eqn:Ef; [|destruct (Z.leb_spec (deadline s) now)].
    + exists [], s. by rewrite app_nil_r.
    + eexists _, _. split; [reflexivity|]. split; [|done]. destruct (outputs_counts_app out [EventSsdpFinished]) as (A1 & A2 & A3).
      constructor; cbn; rewrite ?A1, ?A2; try done.
      * by rewrite app_nil_r.
      * rewrite H6. change (packets [EventSsdpFinished]) with 0. lia.
      * by exists out.
    + destruct (Z.ltb_spec (round s) (rounds (options s))) as [Hr|Hr]; [|exists [], s; by rewrite app_nil_r].
      pose proof (search_inv_round out s H Ef Hr Hu) as Hi. unfold internal_sendRound in *. eexists _, _. split; [reflexivity|]. by split.
Qed.

Lemma run_inv events : forall out s, search_inv out s -> rounds (options s) < 256 ->
  exists out2 s', run events s = Some (out2, s') /\ search_inv (out ++ out2) s' /\ options s' = options s /\ legs s' = legs s /\
    finished s' = finished s || existsb (expires (deadline s)) events /\
    replies s' = replies s ++ if finished s then [] else
      first_of_each (map key (replies s)) (omap (offered (options s)) (in_time (deadline s) events)).
Proof.
  induction events as [|e events IH]; intros out s H Hu.
  - exists [], s. rewrite app_nil_r. cbn. rewrite orb_false_r. split_and!; try done. case_match; by rewrite app_nil_r.
  - destruct (handle_inv e out s H Hu) as (o1 & s1 & E1 & H1 & Ho & Hl & Hd & Hf).
    destruct (IH (out ++ o1) s1 H1) as (o2 & s2 & E2 & H2 & Ho2 & Hl2 & Hf2 & Hr2); [by rewrite Ho|].
    exists (o1 ++ o2), s2. cbn [run]. rewrite E1. cbn [mbind option_bind]. rewrite E2. cbn [mbind option_bind].
    split; [done|]. rewrite app_assoc. split; [done|]. split; [congruence|]. split; [congruence|]. cbn [existsb].
    split; [by rewrite Hf2, Hf, Hd, orb_assoc|]. rewrite Hr2, Hf, Ho, Hd, (handle_hears e s (i_seen _ _ H) o1 s1 E1). cbn [in_time].
    destruct (finished s), (expires (deadline s) e) eqn:Ee; cbn [orb]; rewrite ?app_nil_r; try done.
    replace (omap (offered (options s)) (e :: in_time (deadline s) events))
      with (option_list (offered (options s) e) ++ omap (offered (options s)) (in_time (deadline s) events)) by (cbn; by destruct (offered _ e)).
    by rewrite first_of_each_app, map_app, <- (assoc_L (++)).
Qed.

(** C24. A search that starts, with at least one round and fewer than 256, behaves,
    whatever arrives. Its handler hears exactly the replies that come before the end, in
    order, the first of each location (the location and not the USN is the key): a reply
    is a datagram that is no announcement and is a whole answer with a success status, a
    USN, and a plain http location, whose host is the address it came from when that is
    asked for, as it is by default, and it is heard with the fields it has and a sane
    lifetime. The handler is told of the end once, at the first tick that is not before
    the deadline, and hears nothing more; no more rounds are sent than asked for, each
    with every target on every leg; and no bytes in a datagram stop it. *)
Theorem search_protocol o interfaces now events out0 s0
  (Ho : 1 <= rounds o < 256) (Hs : start o interfaces now = Some (out0, s0)) :
  exists out s, run events s0 = Some (out, s) /\
    heard (out0 ++ out) = first_of_each [] (omap (offered o) (in_time (now + timeout o) events)) /\
    (forall datagram from r, offered o (Datagram datagram (Some from)) = Some r <->
       datagram <> [] /\ istarts_with datagram (lit "NOTIFY") = false /\
       exists response, answer datagram = Some response /\ names_gateway o response from r) /\
    heard (out0 ++ out) = replies s /\ NoDup (map key (replies s)) /\ Forall (believable o) (replies s) /\
    packets (out0 ++ out) = round s * (4 * zlen (legs s)) /\ 1 <= round s <= rounds o /\
    (if finished s then exists before, out0 ++ out = before ++ [EventSsdpFinished] /\ ends before = 0 else ends (out0 ++ out) = 0) /\
    finished s = existsb (expires (now + timeout o)) events.
Proof.
  unfold start in Hs. destruct (internal_open o interfaces) as [|l ls] eqn:El; [done|].
  set (fresh := mkSearch o (l :: ls) [] ∅ false (now + timeout o) 0 false) in Hs.
  pose proof (round_counts fresh) as Hc. destruct (internal_sendRound fresh) as [sent s1] eqn:E1.
  assert (s1 = mkSearch o (l :: ls) [] ∅ false (now + timeout o) 1 false) as -> by (unfold internal_sendRound in E1; by injection E1 as _ <-).
  clear E1. injection Hs as <- <-. cbn [options legs replies seen deadline round finished]. destruct Hc as (C1 & C2 & C3).
  set (s0 := mkSearch _ _ _ _ true _ _ _).
  assert (search_inv sent s0) as H0.
  { constructor; unfold s0; cbn [options legs replies seen ticker deadline round finished map].
    - exact C1.
    - constructor.
    - intros k. split; intros H; [by apply not_elem_of_empty in H|by apply not_elem_of_nil in H].
    - constructor.
    - lia.
    - rewrite C3. unfold fresh. cbn [legs]. lia.
    - exact C2.
    - done. }
  destruct (run_inv events sent s0 H0) as (out & s & E & [H1 H2 H3 H4 H5 H6 H7 H8] & Hopt & Hl & Hf & Hr); [unfold s0; cbn [options]; lia|].
  exists out, s. rewrite Hopt in *. unfold s0 in *. cbn [options deadline finished replies map] in *. split; [exact E|]. split; [by rewrite H1|].
  split; [intros; apply offered_spec|]. split; [done|]. split; [done|]. split; [exact H4|].
  split; [done|]. split; [lia|]. split; [exact H7|]. exact Hf.
Qed.
End environment.

(** ** A search *)

(** A host that knows one group and one gateway. *)
Definition demo_pton (v : Inet.Version) (text : bytes) : option bytes :=
  match v with
  | IPv4 => if bool_decide (text = lit "239.255.255.250") then Some (map chr [239; 255; 255; 250]) else None
  | _ => None
  end.
Definition demo_ntop (v : Inet.Version) (raw : bytes) : option bytes :=
  if bool_decide (raw = map chr [192; 168; 1; 1]) then Some (lit "192.168.1.1") else None.
Definition demo_gateway : InetAddress := mkInetAddress IPv4 (fill_data (map chr [192; 168; 1; 1])) [] Resolved.
Definition demo_interface : Interface := mkInterface true true false false (fun _ => true).
Definition demo_answer (host : String.string) : bytes :=
  lit "HTTP/1.1 200 OK" ++ crlf ++ lit "Cache-Control: no-cache, max-age = 1800" ++ crlf ++ lit "Location: http://" ++
  lit host ++ lit ":5000/d.xml" ++ crlf ++ lit "USN: uuid:1" ++ crlf ++ lit "ST: x" ++ crlf ++ crlf.
Definition demo_events : list Event :=
  [Datagram (demo_answer "192.168.1.1") (Some demo_gateway); Datagram (demo_answer "192.168.1.1") (Some demo_gateway);
   Datagram (demo_answer "10.0.0.1") (Some demo_gateway); Datagram (lit "NOTIFY * HTTP/1.1") (Some demo_gateway);
   Tick 500; Tick 1000; Tick 3000; Tick 3500].

(** The duplicate, the reply that names another host and the announcement are
    passed over; the second round goes out at the first tick. *)
Example demo_search :
  exists out0 s0 out s, start demo_pton (lit "Linux") (lit "6") default_Options (Some [demo_interface]) 0 = Some (out0, s0) /\
    run (fun _ => true) demo_pton demo_ntop (lit "Linux") (lit "6") demo_events s0 = Some (out, s) /\
    map (fun r => (Ssdp.key r, maxAge r)) (replies s) = [(lit "http://192.168.1.1:5000/d.xml", 1800)] /\
    packets (out0 ++ out) = 8 /\ finished s = true.
Proof. do 4 eexists. split; [vm_compute; reflexivity|]. split; [vm_compute; reflexivity|]. by vm_compute. Qed.

Lemma search_protocol_witness :
  exists out0 s0 out s, start demo_pton (lit "Linux") (lit "6") default_Options (Some [demo_interface]) 0 = Some (out0, s0) /\
    run (fun _ => true) demo_pton demo_ntop (lit "Linux") (lit "6") demo_events s0 = Some (out, s) /\
    NoDup (map Ssdp.key (replies s)) /\ finished s = true.
Proof.
  destruct (start demo_pton (lit "Linux") (lit "6") default_Options (Some [demo_interface]) 0) as [[out0 s0]|] eqn:E;
    [|by vm_compute in E].
  destruct (search_protocol (fun _ => true) demo_pton demo_ntop (lit "Linux") (lit "6") default_Options (Some [demo_interface]) 0
    demo_events out0 s0 ltac:(done) E) as (out & s & Er & _ & _ & _ & Hd & _ & _ & _ & _ & Hf).
  exists out0, s0, out, s. split; [done|]. split; [exact Er|]. split; [exact Hd|]. rewrite Hf. vm_compute. reflexivity.
Defined.
