(* ===== verification/Gateway.v ===== *)
(** * Gateway: [src/io/net/upnp/gateway.cpp]

    A gateway from the first search reply to the answer of the last action. What
    the source calls - the handlers of the application - is a parameter
    [on_event] that may do anything to the world, operations of the gateway
    included, before it returns; what is destroyed is gone from the world, and
    looking at it afterwards is [None], as are the pointers that dangle in C++.
    The HTTP client is seen through the requests it is given, whether it refuses
    one before [request()] returns ([refused]), and its later answers; the search
    through the replies it passes on. *)

From Stdlib Require Import Sorted.
From stdpp Require Import gmap sorting.
From S2P Require Import Prelude Strings Inet Url UpnpSoap UpnpDescription.
From S2P Require Ssdp.

(** ** Data *)

(* @src src/include/samurai/io/net/upnp/gateway.h:188-188 Samurai::IO::Net::UPnP::Gateway::State *)
Inductive State := Idle | Searching | FetchingDescription | Ready | Failed.

#[export] Instance State_eq_dec : EqDecision State.
Proof. solve_decision. Defined.

(** An action: its pointer to the gateway is cleared or not. *)
(* @src src/include/samurai/io/net/upnp/gateway.h:113-118 Samurai::IO::Net::UPnP::Action *)
Record Action := mkAction {
  a_gateway : bool;
  a_kind : ServiceKind;
  a_name : bytes;
  a_args : list Argument;
  a_queued : bool
}.

(* @src src/include/samurai/io/net/upnp/gateway.h:129-143 Samurai::IO::Net::UPnP::GatewayInfo *)
Record GatewayInfo := mkInfo {
  descriptionURL : URL;
  i_controlURL : URL;
  i_serviceType : bytes;
  i_usn : bytes;
  i_friendlyName : bytes;
  i_deviceVersion : Z;
  permanentLeasesOnly : bool;
  localAddress : InetAddress;
  i_expires : Z
}.

(** What is known of the device; [expires] is 0 for never. *)
(* @src src/include/samurai/io/net/upnp/gateway.h:320-326 Samurai::IO::Net::UPnP::Gateway *)
Record Facts := mkFacts {
  description_url : URL;
  friendly_name : bytes;
  usn : bytes;
  device_version : Z;
  permanent_leases_only : bool;
  local_address : InetAddress;
  expires : Z;
  description : list Service
}.

(** [search]: whether there is one, and whether it has finished. [http]: whether
    there is a client, and whether it has a request in flight. [deferred]: whether
    the timer is set. Actions are named by numbers. *)
(* @src src/include/samurai/io/net/upnp/gateway.h:316-339 Samurai::IO::Net::UPnP::Gateway *)
Record Gateway := mkGateway {
  facts : Facts;
  state : State;
  search : option bool;
  candidates : list Ssdp.Reply;
  next_candidate : nat;
  http : option bool;
  deferred : bool;
  deferred_error : Error.t;
  pending : list Z;
  inflight : option Z;
  reported : bool
}.

Definition with_facts (f : Facts) (g : Gateway) : Gateway :=
  mkGateway f (state g) (search g) (candidates g) (next_candidate g) (http g) (deferred g) (deferred_error g) (pending g)
    (inflight g) (reported g).
Definition with_state (s : State) (g : Gateway) : Gateway :=
  mkGateway (facts g) s (search g) (candidates g) (next_candidate g) (http g) (deferred g) (deferred_error g) (pending g)
    (inflight g) (reported g).
Definition with_search (s : option bool) (g : Gateway) : Gateway :=
  mkGateway (facts g) (state g) s (candidates g) (next_candidate g) (http g) (deferred g) (deferred_error g) (pending g)
    (inflight g) (reported g).
Definition with_candidates (c : list Ssdp.Reply) (n : nat) (g : Gateway) : Gateway :=
  mkGateway (facts g) (state g) (search g) c n (http g) (deferred g) (deferred_error g) (pending g) (inflight g) (reported g).
Definition with_http (h : option bool) (g : Gateway) : Gateway :=
  mkGateway (facts g) (state g) (search g) (candidates g) (next_candidate g) h (deferred g) (deferred_error g) (pending g)
    (inflight g) (reported g).
Definition with_deferred (d : bool) (e : Error.t) (g : Gateway) : Gateway :=
  mkGateway (facts g) (state g) (search g) (candidates g) (next_candidate g) (http g) d e (pending g) (inflight g) (reported g).
Definition with_queue (p : list Z) (i : option Z) (g : Gateway) : Gateway :=
  mkGateway (facts g) (state g) (search g) (candidates g) (next_candidate g) (http g) (deferred g) (deferred_error g) p i
    (reported g).
Definition with_reported (r : bool) (g : Gateway) : Gateway :=
  mkGateway (facts g) (state g) (search g) (candidates g) (next_candidate g) (http g) (deferred g) (deferred_error g) (pending g)
    (inflight g) r.

(** What a handler is told. *)
(* @src src/include/samurai/io/net/upnp/gateway.h:63-86 Samurai::IO::Net::UPnP::ActionEventHandler *)
Inductive Event :=
  | EventGatewayFound
  | EventGatewayError (e : Error.t)
  | EventGatewayCandidate (r : Ssdp.Reply)
  | EventActionResponse (id : Z) (result : ActionResult)
  | EventActionFault (id : Z) (error : DeviceError.t) (code : Z) (description : bytes)
  | EventActionError (id : Z) (e : Error.t).

(** A request given to an HTTP client; an action's names it. *)
Inductive Request := Get (url : URL) | Post (id : Z) (url : URL) (soap_action body : bytes).

(** [gateway] and the actions in [store] are what has not been destroyed;
    [log] is what handlers were told so far, [requests] what clients were given;
    [app] is the application's own. *)
Record World (A : Type) := mkWorld {
  gateway : option Gateway;
  store : gmap Z Action;
  next_id : Z;
  log : list Event;
  requests : list Request;
  app : A
}.
Arguments mkWorld {A} _ _ _ _ _ _.
Arguments gateway {A} _.
Arguments store {A} _.
Arguments next_id {A} _.
Arguments log {A} _.
Arguments requests {A} _.
Arguments app {A} _.

(** ** Operations *)

Section gateway.
Variable inet_pton : Inet.Version -> bytes -> option bytes.
Variable refused : Request -> bool.
Context {A : Type}.
Local Abbreviation world := (World A).
Variable on_event : Event -> world -> option world.

Definition put (g : Gateway) (w : world) : world := mkWorld (Some g) (store w) (next_id w) (log w) (requests w) (app w).
Definition put_action (id : Z) (a : Action) (w : world) : world :=
  mkWorld (gateway w) (<[id := a]> (store w)) (next_id w) (log w) (requests w) (app w).
Definition ask (r : Request) (w : world) : world :=
  mkWorld (gateway w) (store w) (next_id w) (log w) (requests w ++ [r]) (app w).
Definition logged (e : Event) (w : world) : world :=
  mkWorld (gateway w) (store w) (next_id w) (log w ++ [e]) (requests w) (app w).

(** A call of a handler. *)
Definition notify (e : Event) (w : world) : option world := on_event e (logged e w).

(** Setting [queued] of an action through its pointer. *)
Definition unqueue (id : Z) (w : world) : option world :=
  a ← store w !! id;
  Some (put_action id (mkAction (a_gateway a) (a_kind a) (a_name a) (a_args a) false) w).

(* @src src/src/io/net/upnp/gateway.cpp:68-71 Samurai::IO::Net::UPnP::GatewayInfo::isValid *)
Definition info_isValid (i : GatewayInfo) : bool :=
  valid (descriptionURL i) && valid (i_controlURL i) && negb (bool_decide (i_serviceType i = [])).

(* @src src/src/io/net/upnp/gateway.cpp:74-78 Samurai::IO::Net::UPnP::GatewayInfo::hasExpired *)
Definition hasExpired (now : Z) (i : GatewayInfo) : bool := if i_expires i =? 0 then false else i_expires i <=? now.

(* @src src/src/io/net/upnp/gateway.cpp:240-258 Samurai::IO::Net::UPnP::Gateway::info *)
Definition info (g : Gateway) : GatewayInfo :=
  let f := facts g in
  let service := preferredConnection (description f) in
  mkInfo (description_url f) (match service with Some s => controlURL s | None => Url.parse inet_pton [] end)
    (match service with Some s => serviceType s | None => [] end)
    (usn f) (friendly_name f) (device_version f) (permanent_leases_only f) (local_address f) (expires f).

(* @src src/src/io/net/upnp/gateway.cpp:261-264 Samurai::IO::Net::UPnP::Gateway::hasService *)
Definition hasService (k : ServiceKind) (g : Gateway) : bool :=
  match find_service k (description (facts g)) with Some _ => true | None => false end.

(* @src src/src/io/net/upnp/gateway.cpp:267-271 Samurai::IO::Net::UPnP::Gateway::getServiceType *)
Definition getServiceType (k : ServiceKind) (g : Gateway) : bytes :=
  match find_service k (description (facts g)) with Some s => serviceType s | None => [] end.

(* @src src/src/io/net/upnp/gateway.cpp:274-279 Samurai::IO::Net::UPnP::Gateway::getLocalAddress *)
Definition getLocalAddress (g : Gateway) : option InetAddress :=
  if bool_decide (Inet.version (local_address (facts g)) = Unspecified) then None else Some (local_address (facts g)).

(** *** Failing *)

(** Every action in [doomed] is told; each is looked at when its turn comes. *)
(* @src src/src/io/net/upnp/gateway.cpp:388-392 Samurai::IO::Net::UPnP::Gateway::internal_fail *)
Fixpoint tell_doomed (error : Error.t) (doomed : list Z) (w : world) : option world :=
  match doomed with
  | [] => Some w
  | id :: doomed =>
      w ← unqueue id w;
      w ← notify (EventActionError id error) w;
      tell_doomed error doomed w
  end.

(* @src src/src/io/net/upnp/gateway.cpp:365-393 Samurai::IO::Net::UPnP::Gateway::internal_fail *)
Definition internal_fail (error : Error.t) (w : world) : option world :=
  g ← gateway w;
  let doomed := match inflight g with Some id => id :: pending g | None => pending g end in
  let g' := with_http None (with_queue [] None (with_state Failed g)) in
  w ← (if negb (reported g) then notify (EventGatewayError error) (put (with_reported true g') w) else Some (put g' w));
  tell_doomed error doomed w.

(* @src src/src/io/net/upnp/gateway.cpp:396-400 Samurai::IO::Net::UPnP::Gateway::cancel *)
Definition cancel (w : world) : option world :=
  g ← gateway w;
  if bool_decide (state g = Failed) then Some w else internal_fail Error.Cancelled w.

(** *** Descriptions *)

(** Whether there was one, [start] being [internal_startDescription]. *)
(* @src src/src/io/net/upnp/gateway.cpp:329-336 Samurai::IO::Net::UPnP::Gateway::internal_tryNextCandidate *)
Definition internal_tryNextCandidate (start : URL -> world -> option world) (w : world) : option (bool * world) :=
  g ← gateway w;
  match candidates g !! next_candidate g with
  | None => Some (false, w)
  | Some next =>
      w ← start (Ssdp.location next) (put (with_candidates (candidates g) (S (next_candidate g)) g) w);
      Some (true, w)
  end.

(** The client reports an error while the description is being fetched. *)
(* @src src/src/io/net/upnp/gateway.cpp:562-578 Samurai::IO::Net::UPnP::Gateway::EventHttpError *)
Definition description_failed (start : URL -> world -> option world) (w : world) : option world :=
  '(tried, w) ← internal_tryNextCandidate start w;
  if (tried : bool) then Some w
  else
    g ← gateway w;
    match search g with
    | Some false => Some (put (with_state Searching g) w)
    | _ => internal_fail Error.DescriptionFailed w
    end.

(** The fuel bounds the candidates that are refused one after the other. *)
(* @src src/src/io/net/upnp/gateway.cpp:289-310 Samurai::IO::Net::UPnP::Gateway::internal_startDescription *)
Fixpoint internal_startDescription (fuel : nat) (location : URL) (w : world) : option world :=
  g ← gateway w;
  let f := facts g in
  let f := mkFacts location (friendly_name f) (usn f) (device_version f) (permanent_leases_only f) (local_address f) (expires f)
             (description f) in
  let w := ask (Get location) (put (with_http (Some true) (with_state FetchingDescription (with_facts f g))) w) in
  if negb (refused (Get location)) then Some w
  else
    match fuel with
    | O => None
    | S fuel =>
        g ← gateway w;
        description_failed (internal_startDescription fuel) (put (with_http (Some false) g) w)
    end.

Definition startDescription (location : URL) (w : world) : option world :=
  g ← gateway w;
  internal_startDescription (S (length (candidates g) - next_candidate g)) location w.

(** *** Actions *)

(** [pump] is [internal_pump]. *)
(* @src src/src/io/net/upnp/gateway.cpp:485-490 Samurai::IO::Net::UPnP::Gateway::internal_finishAction *)
Definition internal_finishAction (pump : world -> option world) (id : Z) (w : world) : option world :=
  g ← gateway w;
  w ← unqueue id (put (if bool_decide (inflight g = Some id) then with_queue (pending g) None g else g) w);
  pump w.

(** The client reports an error while an action is in flight. *)
(* @src src/src/io/net/upnp/gateway.cpp:580-586 Samurai::IO::Net::UPnP::Gateway::EventHttpError *)
Definition action_failed (pump : world -> option world) (w : world) : option world :=
  g ← gateway w;
  match inflight g with
  | None => Some w
  | Some id =>
      w ← internal_finishAction pump id w;
      _ ← store w !! id;
      notify (EventActionError id Error.Network) w
  end.

(* @src src/src/io/net/upnp/gateway.cpp:450-482 Samurai::IO::Net::UPnP::Gateway::internal_sendAction *)
Definition internal_sendAction (pump : world -> option world) (id : Z) (w : world) : option world :=
  g ← gateway w;
  a ← store w !! id;
  match find_service (a_kind a) (description (facts g)) with
  | None =>
      w ← unqueue id (put (with_queue (pending g) None g) w);
      w ← notify (EventActionError id Error.NoService) w;
      pump w
  | Some service =>
      let body := buildRequest (serviceType service) (a_name a) (a_args a) in
      let request := Post id (controlURL service) (buildActionHeader (serviceType service) (a_name a)) body in
      let w := ask request (put (with_http (Some true) g) w) in
      if negb (refused request) then Some w
      else
        g ← gateway w;
        action_failed pump (put (with_http (Some false) g) w)
  end.

(** The fuel bounds the actions that are refused one after the other. *)
(* @src src/src/io/net/upnp/gateway.cpp:439-447 Samurai::IO::Net::UPnP::Gateway::internal_pump *)
Fixpoint internal_pump (fuel : nat) (w : world) : option world :=
  g ← gateway w;
  if negb (bool_decide (state g = Ready)) || bool_decide (inflight g <> None) then Some w
  else
    match pending g with
    | [] => Some w
    | next :: rest =>
        match fuel with
        | O => None
        | S fuel => internal_sendAction (internal_pump fuel) next (put (with_queue rest (Some next) g) w)
        end
    end.

Definition pump (w : world) : option world :=
  g ← gateway w;
  internal_pump (length (pending g)) w.

(* @src src/src/io/net/upnp/gateway.cpp:351-362 Samurai::IO::Net::UPnP::Gateway::internal_ready *)
Definition internal_ready (w : world) : option world :=
  g ← gateway w;
  let g := with_state Ready g in
  w ← (if negb (reported g) then notify EventGatewayFound (put (with_reported true g) w) else Some (put g w));
  pump w.

(** Null, or the action. *)
(* @src src/src/io/net/upnp/gateway.cpp:403-415 Samurai::IO::Net::UPnP::Gateway::invoke *)
Definition invoke (kind : ServiceKind) (action : bytes) (arguments : list Argument) (w : world) : option (option Z * world) :=
  g ← gateway w;
  if negb (hasService kind g) then Some (None, w)
  else
    let id := next_id w in
    let g := with_queue (pending g ++ [id]) (inflight g) g in
    let w := mkWorld (Some g) (<[id := mkAction true kind action arguments true]> (store w)) (id + 1) (log w) (requests w) (app w) in
    w ← (if bool_decide (state g = Ready) then pump w else Some w);
    Some (Some id, w).

(* @src src/src/io/net/upnp/gateway.cpp:418-431 Samurai::IO::Net::UPnP::Gateway::internal_cancelAction *)
Definition internal_cancelAction (id : Z) (w : world) : option world :=
  g ← gateway w;
  let g := with_queue (filter (fun x => x <> id) (pending g)) (inflight g) g in
  if bool_decide (inflight g = Some id) then
    let g := with_queue (pending g) None g in
    pump (put (with_http (match http g with Some _ => Some false | None => None end) g) w)
  else Some (put g w).

(** The destructor, and the memory. *)
(* @src src/src/io/net/upnp/gateway.cpp:93-96 Samurai::IO::Net::UPnP::Action::~Action *)
Definition destroy_action (id : Z) (w : world) : option world :=
  a ← store w !! id;
  w ← (if a_gateway a then internal_cancelAction id w else Some w);
  _ ← store w !! id;
  Some (mkWorld (gateway w) (delete id (store w)) (next_id w) (log w) (requests w) (app w)).

(** Clearing [gateway] of an action through its pointer. *)
Definition orphan (id : Z) (s : gmap Z Action) : option (gmap Z Action) :=
  a ← s !! id;
  Some (<[id := mkAction false (a_kind a) (a_name a) (a_args a) (a_queued a)]> s).
Fixpoint orphan_all (ids : list Z) (s : gmap Z Action) : option (gmap Z Action) :=
  match ids with [] => Some s | id :: ids => s ← orphan id s; orphan_all ids s end.

(* @src src/src/io/net/upnp/gateway.cpp:107-119 Samurai::IO::Net::UPnP::Gateway::~Gateway *)
Definition destroy_gateway (w : world) : option world :=
  g ← gateway w;
  s ← orphan_all (pending g ++ match inflight g with Some id => [id] | None => [] end) (store w);
  Some (mkWorld None s (next_id w) (log w) (requests w) (app w)).

(** *** Beginnings *)

Definition new_Facts : Facts :=
  mkFacts (Url.parse inet_pton []) [] [] 1 false (mkInetAddress Unspecified zero_data [] Unresolved) 0 [].
(* @src src/src/io/net/upnp/gateway.cpp:99-104 Samurai::IO::Net::UPnP::Gateway::Gateway *)
Definition new_Gateway : Gateway := mkGateway new_Facts Idle None [] 0 None false Error.None [] None false.

(* @src src/src/io/net/upnp/gateway.cpp:282-286 Samurai::IO::Net::UPnP::Gateway::internal_reportLater *)
Definition internal_reportLater (error : Error.t) (g : Gateway) : Gateway := with_deferred true error g.

(** Whether the search could be started. *)
(* @src src/src/io/net/upnp/gateway.cpp:130-159 Samurai::IO::Net::UPnP::Gateway::discover *)
Definition discover (started : bool) (w : world) : option world :=
  if negb started then Some (put (internal_reportLater Error.NoGateway new_Gateway) w)
  else Some (put (with_state Searching (with_search (Some false) new_Gateway)) w).

(* @src src/src/io/net/upnp/gateway.cpp:178-192 Samurai::IO::Net::UPnP::Gateway::describe *)
Definition describe (location : URL) (w : world) : option world :=
  if negb (valid location) || bool_decide (Url.hostname location = [])
  then Some (put (internal_reportLater Error.DescriptionFailed new_Gateway) w)
  else startDescription location (put new_Gateway w).

(* @src src/src/io/net/upnp/gateway.cpp:195-237 Samurai::IO::Net::UPnP::Gateway::attach *)
Definition attach (i : GatewayInfo) (w : world) : option world :=
  Some (put
    (if negb (info_isValid i) then internal_reportLater Error.DescriptionFailed new_Gateway
     else
       match classify (i_serviceType i) with
       | None => internal_reportLater Error.NoService new_Gateway
       | Some (kind, version) =>
           let service := mkService kind (i_serviceType i) (i_controlURL i) version in
           let f := mkFacts (descriptionURL i) (i_friendlyName i) (i_usn i) (i_deviceVersion i) (permanentLeasesOnly i)
                      (localAddress i) (i_expires i) [service] in
           internal_reportLater Error.None (with_state Ready (with_facts f new_Gateway))
       end) w).

(** *** What arrives *)

(* @src src/src/io/net/upnp/gateway.cpp:319-326 Samurai::IO::Net::UPnP::Gateway::internal_candidate *)
Definition internal_candidate (candidate : Ssdp.Reply) (w : world) : option world :=
  w ← notify (EventGatewayCandidate candidate) w;
  g ← gateway w;
  if negb (bool_decide (state g = Searching)) then Some w
  else '(_, w) ← internal_tryNextCandidate startDescription w; Some w.

(* @src src/src/io/net/upnp/gateway.cpp:29-41 Samurai::IO::Net::UPnP::Gateway::Discovered::EventSsdpReply *)
Definition EventSsdpReply (reply : Ssdp.Reply) (w : world) : option world :=
  g ← gateway w;
  internal_candidate reply (put (with_candidates (candidates g ++ [reply]) (next_candidate g) g) w).

(* @src src/src/io/net/upnp/gateway.cpp:339-348 Samurai::IO::Net::UPnP::Gateway::internal_searchFinished *)
Definition internal_searchFinished (w : world) : option world :=
  g ← gateway w;
  if negb (bool_decide (state g = Searching)) then Some w
  else
    '(tried, w) ← internal_tryNextCandidate startDescription w;
    if (tried : bool) then Some w else internal_fail Error.NoGateway w.

(** A description arrived. *)
(* @src src/src/io/net/upnp/gateway.cpp:497-516 Samurai::IO::Net::UPnP::Gateway::EventHttpResponse *)
Definition description_arrived (success : bool) (body : bytes) (local : option InetAddress) (w : world) : option world :=
  if negb success then internal_fail Error.DescriptionFailed w
  else
    g ← gateway w;
    let f := facts g in
    '(parsed, d) ← UpnpDescription.parse inet_pton body (description_url f);
    let f := mkFacts (description_url f) (friendly_name f) (usn f) (device_version f) (permanent_leases_only f)
               (match local with Some a => a | None => local_address f end) (expires f) (services d) in
    if negb (bool_decide (parsed = Error.None)) then internal_fail parsed (put (with_facts f g) w)
    else
      let f := mkFacts (description_url f) (friendlyName d) (usn f) (deviceVersion d) (permanent_leases_only f)
                 (local_address f) (expires f) (services d) in
      internal_ready (put (with_http None (with_facts f g)) w).

(** A response of the client, which is no longer busy: whether its status is a
    success, its body, and the local address of the connection. *)
(* @src src/src/io/net/upnp/gateway.cpp:493-555 Samurai::IO::Net::UPnP::Gateway::EventHttpResponse *)
Definition EventHttpResponse (success : bool) (body : bytes) (local : option InetAddress) (w : world) : option world :=
  g ← gateway w;
  if bool_decide (state g = FetchingDescription) then description_arrived success body local w
  else
    match inflight g with
    | None => Some w
    | Some id =>
        '(status, result, fault) ← parseResponse body;
        w ← internal_finishAction pump id w;
        _ ← store w !! id;
        match status, fault with
        | Error.Device, Some fault => notify (EventActionFault id (f_error fault) (f_code fault) (f_description fault)) w
        | _, _ =>
            if negb (bool_decide (status = Error.None)) then notify (EventActionError id status) w
            else if negb success then notify (EventActionError id Error.BadResponse) w
            else notify (EventActionResponse id result) w
        end
    end.

(* @src src/src/io/net/upnp/gateway.cpp:558-587 Samurai::IO::Net::UPnP::Gateway::EventHttpError *)
Definition EventHttpError (w : world) : option world :=
  g ← gateway w;
  if bool_decide (state g = FetchingDescription) then description_failed startDescription w
  else action_failed pump w.

(* @src src/src/io/net/upnp/gateway.cpp:595-604 Samurai::IO::Net::UPnP::Gateway::EventTimeout *)
Definition EventTimeout (w : world) : option world :=
  g ← gateway w;
  let error := deferred_error g in
  let w := put (with_deferred false Error.None g) w in
  if bool_decide (error = Error.None) then internal_ready w else internal_fail error w.
End gateway.

(** ** Inputs *)

(** What happens to a gateway: what arrives from its search, its client and its
    timer, and what its owner does. *)
Inductive Input :=
  | Reply (r : Ssdp.Reply)
  | SearchFinished
  | Response (success : bool) (body : bytes) (local : option InetAddress)
  | ClientError
  | Timeout
  | Invoke (kind : ServiceKind) (action : bytes) (arguments : list Argument)
  | Destroy (id : Z)
  | Cancel.

Section inputs.
Variable inet_pton : Inet.Version -> bytes -> option bytes.
Variable refused : Request -> bool.
Context {A : Type}.
Variable on_event : Event -> World A -> option (World A).

(** Nothing arrives from what does not exist, and nobody destroys an action
    twice. *)
Definition perform (i : Input) (w : World A) : option (World A) :=
  g ← gateway w;
  match i with
  | Reply r => if bool_decide (search g = Some false) then EventSsdpReply refused on_event r w else Some w
  | SearchFinished =>
      if bool_decide (search g = Some false)
      then internal_searchFinished refused on_event (put (with_search (Some true) g) w) else Some w
  | Response success body local =>
      if bool_decide (http g = Some true)
      then EventHttpResponse inet_pton refused on_event success body local (put (with_http (Some false) g) w) else Some w
  | ClientError =>
      if bool_decide (http g = Some true) then EventHttpError refused on_event (put (with_http (Some false) g) w) else Some w
  | Timeout => if deferred g then EventTimeout refused on_event w else Some w
  | Invoke kind action arguments => snd <$> invoke refused on_event kind action arguments w
  | Destroy id => if bool_decide (is_Some (store w !! id)) then destroy_action refused on_event id w else Some w
  | Cancel => cancel on_event w
  end.

Fixpoint perform_all (inputs : list Input) (w : World A) : option (World A) :=
  match inputs with [] => Some w | i :: inputs => w ← perform i w; perform_all inputs w end.
End inputs.

Definition nothing {A} (app : A) : World A := mkWorld None ∅ 0 [] [] app.

(** ** What a gateway keeps to *)

(** The action an event is about. *)
Definition concerns (e : Event) : option Z :=
  match e with
  | EventActionResponse id _ | EventActionFault id _ _ _ | EventActionError id _ => Some id
  | _ => None
  end.
Definition who (e : Event) : list Z := match concerns e with Some id => [id] | None => [] end.
Definition is_outcome (e : Event) : bool :=
  match e with EventGatewayFound | EventGatewayError _ => true | _ => false end.

(** How often an action was told of its end, and how often the gateway's owner was
    told of the gateway's. *)
Definition reports {A} (id : Z) (w : World A) : nat := length (filter (fun e => concerns e = Some id) (log w)).
Definition outcomes {A} (w : World A) : nat := length (List.filter is_outcome (log w)).

(** The actions that are waiting for an answer, in their order. *)
Definition waiting {A} (w : World A) : list Z :=
  match gateway w with
  | None => []
  | Some g => match inflight g with Some id => id :: pending g | None => pending g end
  end.

(** An action that is not waiting any more. *)
Definition settled {A} (w : World A) (id : Z) : Prop := id < next_id w /\ id ∉ waiting w.
Definition alive {A} (w : World A) (id : Z) : Prop := is_Some (store w !! id).

(** The actions a client was given, in order. *)
Definition posted {A} (w : World A) : list Z :=
  omap (fun r => match r with Post id _ _ _ => Some id | Get _ => None end) (requests w).

Record inv {A} (w : World A) (g : Gateway) : Prop := mkInv {
  inv_gateway : gateway w = Some g;
  inv_waiting : NoDup (waiting w);
  inv_known : forall id, id ∈ waiting w ->
    id < next_id w /\ exists a, store w !! id = Some a /\ is_Some (find_service (a_kind a) (description (facts g)));
  inv_store : forall id a, store w !! id = Some a -> id < next_id w /\ a_gateway a = true;
  inv_reports : forall id, (reports id w <= 1)%nat /\ (id ∈ waiting w -> reports id w = 0%nat) /\
    ((0 < reports id w)%nat -> id < next_id w);
  inv_inflight : inflight g <> None -> state g = Ready;
  inv_order : StronglySorted Z.lt (posted w ++ pending g);
  inv_posted : forall id, inflight g = Some id -> id ∈ posted w;
  inv_next : Forall (fun id => id < next_id w) (posted w);
  inv_outcome : outcomes w = (if reported g then 1 else 0)%nat;
  inv_early : state g = Idle \/ state g = Searching \/ state g = FetchingDescription ->
    description (facts g) = [] /\ waiting w = [];
  inv_failed : state g = Failed -> reported g = true
}.

(** While an action is in flight the client is busy, and none waits for nothing. *)
Definition busy (g : Gateway) : Prop := inflight g <> None -> http g = Some true.
Definition moving (g : Gateway) : Prop := busy g /\ (state g = Ready -> inflight g = None -> pending g = []).

Lemma moving_idle g : inflight g = None -> state g <> Ready -> moving g.
Proof. intros Hi Hs. by split; intros ?. Qed.

Definition good {A} (w : World A) : Prop := exists g, inv w g /\ moving g.

(** An action that waits no longer and has not been told yet: something is on its
    way to tell it, and will follow its pointer. *)
Definition owed {A} (w : World A) (id : Z) : Prop := settled w id /\ reports id w = 0%nat.

(** What an operation may change of what is settled: nothing but that [own] may be
    told of, and that neither [own] nor what has been told need outlive it. *)
Record calm {A} (own : list Z) (w w' : World A) : Prop := mkCalm {
  calm_next : next_id w <= next_id w';
  calm_settled : forall id, settled w id -> settled w' id /\ (id ∉ own -> reports id w' = reports id w);
  calm_alive : forall id, owed w id -> id ∉ own -> alive w id -> alive w' id
}.

Lemma calm_refl {A} (w : World A) : calm [] w w.
Proof. constructor; [lia|done|done]. Qed.

Lemma calm_trans {A} own (w1 w2 w3 : World A) : calm own w1 w2 -> calm own w2 w3 -> calm own w1 w3.
Proof.
  intros [N1 S1 A1] [N2 S2 A2]. constructor; [lia| |].
  - intros id Hs. destruct (S1 id Hs) as [Hs2 E1]. destruct (S2 id Hs2) as [Hs3 E2]. split; [done|].
    intros Ho. by rewrite (E2 Ho), (E1 Ho).
  - intros id [Hs Hr] Ho Ha. destruct (S1 id Hs) as [Hs2 E1]. apply A2; [split; [done|by rewrite E1]|done|by apply A1].
Qed.

Lemma calm_more {A} own own' (w w' : World A) : calm own w w' -> own ⊆ own' -> calm own' w w'.
Proof.
  intros [N S K] Ho. constructor; [done| |].
  - intros id Hs. destruct (S id Hs) as [? E]. split; [done|]. intros Hn. apply E. by intros Hin; apply Hn, Ho.
  - intros id Hs Hn Ha. apply K; [done| |done]. by intros Hin; apply Hn, Ho.
Qed.

(** Actions that were waiting may be told of, and then destroyed. *)
Lemma calm_report {A} own (w1 w2 w3 : World A) :
  calm [] w1 w2 -> (forall id, id ∈ own -> ~ settled w1 id) -> calm own w2 w3 -> calm [] w1 w3.
Proof.
  intros [N1 S1 A1] Hn [N2 S2 A2].
  assert (forall i, settled w1 i -> i ∉ own) as Hne by (intros i Hi Ho; by apply (Hn i)).
  constructor; [lia| |].
  - intros i Hs. destruct (S1 i Hs) as [Hs2 E1]. destruct (S2 i Hs2) as [Hs3 E2]. split; [done|].
    intros _. rewrite E2, E1; [done|by apply not_elem_of_nil|by apply Hne].
  - intros i [Hs Hr] _ Ha. destruct (S1 i Hs) as [Hs2 E1]. pose proof (not_elem_of_nil i) as Hn0.
    apply A2; [split; [done|by rewrite E1]|by apply Hne|by apply A1].
Qed.

(** Worlds that differ in nothing the actions and the reports depend on. *)
Lemma calm_same {A} (w w' : World A) :
  next_id w = next_id w' -> log w = log w' -> (forall id, id ∈ waiting w' -> id ∈ waiting w) ->
  (forall id, alive w id -> alive w' id) -> calm [] w w'.
Proof.
  intros Hn Hl Hw Ha. constructor; [lia| |].
  - intros id [Hlt Hnot]. split; [split; [lia|intros ?; by apply Hnot, Hw]|]. intros _. unfold reports. by rewrite Hl.
  - intros id _ _. apply Ha.
Qed.

(** What a result has to be. *)
Definition fine {A} (w : World A) (r : option (World A)) : Prop := exists w', r = Some w' /\ good w' /\ calm [] w w'.

Lemma fine_step {A} (w w1 : World A) r : calm [] w w1 -> fine w1 r -> fine w r.
Proof. intros H (w2 & -> & Hg & H2). exists w2. split; [done|]. split; [done|]. by eapply calm_trans. Qed.

Lemma fine_bind {A} (w : World A) r f : fine w r -> (forall w', good w' -> calm [] w w' -> fine w' (f w')) -> fine w (r ≫= f).
Proof.
  intros (w1 & -> & Hg & H1) Hf. cbn [mbind option_bind]. by apply (fine_step w w1); [|apply Hf].
Qed.

(** Changing what the queue, the order and the reports do not depend on. *)
Lemma inv_put {A} (w : World A) g g' :
  inv w g -> pending g' = pending g -> inflight g' = inflight g -> reported g' = reported g ->
  (description (facts g') = description (facts g) \/ waiting w = []) -> (inflight g <> None -> state g' = Ready) ->
  (state g' = Idle \/ state g' = Searching \/ state g' = FetchingDescription -> description (facts g') = [] /\ waiting w = []) ->
  (state g' = Failed -> reported g = true) ->
  inv (put g' w) g' /\ calm [] w (put g' w).
Proof.
  intros [G W K S R I O P N C E F] Hp Hi Hr Hd Hs He Hf.
  assert (waiting (put g' w) = waiting w) as Ew by (unfold waiting; cbn; by rewrite G, Hp, Hi).
  split; [|apply calm_same; [done|done|by rewrite Ew|done]].
  constructor; rewrite ?Ew; cbn; try done.
  - intros id Hid. destruct Hd as [->|Hw]; [by apply K|]. rewrite Hw in Hid. by apply not_elem_of_nil in Hid.
  - by rewrite Hi.
  - by rewrite Hp.
  - by rewrite Hi.
  - by rewrite Hr.
  - intros Hst. rewrite Hr. by apply Hf.
Qed.

Lemma inv_ask_get {A} (w : World A) g url : inv w g -> inv (ask (Get url) w) g /\ calm [] w (ask (Get url) w).
Proof.
  intros [G W K S R I O P N C E F]. split; [|by apply calm_same].
  assert (posted (ask (Get url) w) = posted w) as Ep by (unfold posted; cbn; by rewrite omap_app, app_nil_r).
  constructor; rewrite ?Ep; done.
Qed.

Section safety.
Variable inet_pton : Inet.Version -> bytes -> option bytes.
Variable refused : Request -> bool.
Context {A : Type}.
Variable on_event : Event -> World A -> option (World A).
Local Abbreviation world := (World A).

(** A handler does what it likes with the gateway it is called by and with the
    actions, but does not destroy the gateway, nor an action that it is not being
    told of and that is no longer waiting. *)
Hypothesis handler_ok : forall e (w : world), good w -> (forall id, concerns e = Some id -> settled w id /\ reports id w = 1%nat) ->
  exists w', on_event e w = Some w' /\ good w' /\ calm (who e) w w' /\ forall id, settled w id -> reports id w' = reports id w.

Lemma reports_logged e id (w : world) :
  reports id (logged e w) = (reports id w + (if bool_decide (concerns e = Some id) then 1 else 0))%nat.
Proof.
  unfold reports. cbn. rewrite filter_app, length_app. f_equal. rewrite filter_cons, filter_nil.
  by destruct (bool_decide_reflect (concerns e = Some id)); case_decide.
Qed.

(** Telling that an action has ended. *)
Lemma notify_action e id (w : world) :
  good w -> concerns e = Some id -> settled w id -> reports id w = 0%nat ->
  exists w', notify on_event e w = Some w' /\ good w' /\ calm [id] w w' /\ reports id w' = 1%nat.
Proof.
  intros [g [[G W K S R I O P N C E F] Hm]] Hc Hs H0.
  assert (forall i, reports i (logged e w) = (reports i w + (if bool_decide (Some id = Some i) then 1 else 0))%nat) as Hr.
  { intros i. by rewrite reports_logged, Hc. }
  assert (is_outcome e = false) as Ho by by destruct e.
  destruct (handler_ok e (logged e w)) as (w' & E' & Hg & Hcalm & Hq).
  - exists g. split; [|done]. constructor; try done.
    + intros i. rewrite Hr. destruct (R i) as (R1 & R2 & R3). destruct (bool_decide_reflect (Some id = Some i)) as [[= <-]|]; [|split_and!; [lia| |]; try rewrite Nat.add_0_r; done].
      split; [lia|]. split; [intros Hw; by destruct Hs|]. intros _. apply Hs.
    + unfold outcomes. cbn. rewrite List.filter_app. cbn. rewrite Ho, app_nil_r. exact C.
  - intros i Hi. rewrite Hc in Hi. injection Hi as <-. split; [exact Hs|]. rewrite Hr, bool_decide_eq_true_2 by done. lia.
  - exists w'. split; [exact E'|]. split; [done|]. unfold who in Hcalm. rewrite Hc in Hcalm. destruct Hcalm as [N' S' A'].
    split; [|rewrite (Hq id Hs), Hr, bool_decide_eq_true_2 by done; lia].
    constructor; [exact N'| |].
    + intros i Hi. destruct (S' i Hi) as [Hs' Hr']. split; [done|]. intros Hne. rewrite (Hr' Hne), Hr, bool_decide_eq_false_2 by (intros [= ->]; apply Hne; by constructor). lia.
    + intros i [Hi Hz] Hne Ha. apply A'; [split; [done|]|done|done].
      rewrite Hr, bool_decide_eq_false_2 by (intros [= ->]; apply Hne; by constructor). lia.
Qed.

(** Telling anything else. *)
Lemma notify_other e (w : world) g :
  inv (logged e w) g -> moving g -> concerns e = None -> fine w (notify on_event e w).
Proof.
  intros Hg Hm Hc. destruct (handler_ok e (logged e w)) as (w' & E' & Hg' & Hcalm & _); [by exists g|by rewrite Hc|].
  exists w'. split; [exact E'|]. split; [done|]. unfold who in Hcalm. rewrite Hc in Hcalm. apply (calm_trans [] w (logged e w)); [|done].
  constructor; [done| |by intros]. intros id Hs. split; [done|]. intros _. rewrite reports_logged, Hc, bool_decide_eq_false_2 by done. lia.
Qed.

(** Letting go of an action does not change what is waiting. *)
Lemma unqueue_inv id (w : world) g : inv w g -> alive w id ->
  exists a, unqueue id w = Some (put_action id a w) /\ inv (put_action id a w) g /\ calm [] w (put_action id a w).
Proof.
  intros [G W K S R I O P N C E F] [a Ha]. unfold unqueue. rewrite Ha. cbn [mbind option_bind]. eexists. split; [reflexivity|].
  set (a' := mkAction _ _ _ _ _).
  assert (forall i, alive (put_action id a' w) i <-> alive w i) as Hal.
  { intros i. unfold alive. cbn. destruct (decide (i = id)) as [->|Hne]; [rewrite lookup_insert_eq, Ha|by rewrite lookup_insert_ne by done].
    split; by eexists. }
  split; [|apply calm_same; [done|done|done|]; intros i; apply Hal].
  constructor; try done.
  - intros i Hi. destruct (K i Hi) as (Hlt & b & Hb & Hf). split; [done|]. destruct (decide (i = id)) as [->|Hne].
    + exists a'. cbn. rewrite lookup_insert_eq. split; [done|]. by rewrite Ha in Hb; injection Hb as ->.
    + exists b. cbn. by rewrite lookup_insert_ne.
  - intros i b. cbn. destruct (decide (i = id)) as [->|Hne]; [rewrite lookup_insert_eq; intros [= <-]; by apply (S id a)|].
    rewrite lookup_insert_ne by done. apply S.
Qed.

Lemma tell_doomed_fine error doomed : forall w : world, good w -> NoDup doomed ->
  (forall id, id ∈ doomed -> settled w id /\ reports id w = 0%nat /\ alive w id) ->
  exists w', tell_doomed on_event error doomed w = Some w' /\ good w' /\ calm doomed w w' /\
    forall id, id ∈ doomed -> reports id w' = 1%nat.
Proof.
  induction doomed as [|id doomed IH]; intros w Hg Hnd Hd.
  - exists w. split; [done|]. split; [done|]. split; [apply calm_refl|]. intros i Hi. by apply not_elem_of_nil in Hi.
  - apply NoDup_cons in Hnd as [Hnot Hnd]. destruct (Hd id ltac:(by constructor)) as (Hs & Hr & Ha). destruct Hg as [g [Hg Hm]].
    destruct (unqueue_inv id w g Hg Ha) as (a & Eu & Hg1 & Hc1). cbn [tell_doomed]. rewrite Eu. cbn [mbind option_bind].
    destruct (calm_settled _ _ _ Hc1 id Hs) as [Hs1 Hr1]. specialize (Hr1 ltac:(apply not_elem_of_nil)).
    destruct (notify_action (EventActionError id error) id (put_action id a w)) as (w2 & -> & Hg2 & Hc2 & Hr2);
      [by exists g|done|done|congruence|]. cbn [mbind option_bind].
    assert (calm [id] w w2) as Hc by (eapply calm_trans; [by apply (calm_more []); [|apply list_subseteq_nil]|done]).
    destruct (IH w2 Hg2 Hnd) as (w3 & -> & Hg3 & Hc3 & Hr3).
    { intros i Hi. destruct (Hd i ltac:(by constructor)) as (Hsi & Hri & Hai).
      assert (i ∉ [id]) as Hne by (intros Hin; apply list_elem_of_singleton in Hin as ->; done).
      destruct (calm_settled _ _ _ Hc i Hsi) as [? Hri2]. split; [done|]. split; [by rewrite (Hri2 Hne)|]. by apply (calm_alive _ _ _ Hc). }
    exists w3. split; [done|]. split; [done|]. split.
    + eapply calm_trans; [apply (calm_more [id]); [done|]|apply (calm_more doomed); [done|by constructor]].
      intros i Hi%list_elem_of_singleton. subst i. by constructor.
    + intros i Hi. apply elem_of_cons in Hi as [->|Hi]; [|by apply Hr3]. rewrite <- Hr2.
      destruct (calm_settled _ _ _ Hc id Hs) as [Hs2 _]. by apply (calm_settled _ _ _ Hc3 id Hs2).
Qed.

Lemma waiting_of (w : world) g : gateway w = Some g ->
  waiting w = match inflight g with Some id => id :: pending g | None => pending g end.
Proof. unfold waiting. by intros ->. Qed.

(** Failing tells everything that is waiting, once. *)
Lemma internal_fail_told error (w : world) g : inv w g ->
  exists w', internal_fail on_event error w = Some w' /\ good w' /\ calm [] w w' /\
    forall id, id ∈ waiting w -> reports id w' = 1%nat.
Proof.
  intros Hg. pose proof Hg as [G W K S R I O P N C E F]. unfold internal_fail. rewrite G. cbn [mbind option_bind].
  rewrite <- (waiting_of w g G). set (doomed := waiting w) in *. set (g' := with_http None _).
  assert (forall l, length (List.filter is_outcome (log w ++ l)) = 1%nat -> Forall (fun e => concerns e = None) l ->
    inv (mkWorld (Some (with_reported true g')) (store w) (next_id w) (log w ++ l) (requests w) (app w)) (with_reported true g')) as Hinv.
  { intros l Ho Hl. constructor; try done.
    - constructor.
    - intros id Hid. by apply not_elem_of_nil in Hid.
    - intros id. assert (reports id (mkWorld (Some (with_reported true g')) (store w) (next_id w) (log w ++ l) (requests w) (app w)) = reports id w) as ->.
      { unfold reports. cbn. rewrite filter_app, length_app. enough (filter (fun e => concerns e = Some id) l = []) as -> by (cbn; lia).
        clear -Hl. induction Hl as [|e l He _ IH]; [done|]. rewrite filter_cons, IH. by case_decide; [congruence|]. }
      destruct (R id) as (? & ? & ?). split; [done|]. split; [|done]. intros Hid. by apply not_elem_of_nil in Hid.
    - cbn. rewrite app_nil_r. by apply StronglySorted_app_1_l in O.
    - cbn. by intros [|[|]]. }
  assert (exists w1, (if negb (reported g) then notify on_event (EventGatewayError error) (put (with_reported true g') w) else Some (put g' w)) = Some w1 /\
    good w1 /\ calm [] (put g' w) w1) as (w1 & -> & Hg1 & Hc1).
  { unfold outcomes in C. destruct (reported g) eqn:Er; cbn [negb].
    - exists (put g' w). split; [done|]. split; [|apply calm_refl]. exists (with_reported true g').
      split; [|by apply moving_idle].
      assert (with_reported true g' = g') as Eg by (unfold g'; destruct g; cbn in *; by rewrite Er).
      pose proof (Hinv []) as H. rewrite app_nil_r, Eg in *. by apply H.
    - apply (fine_step (put g' w) (put (with_reported true g') w)); [by apply calm_same|].
      apply notify_other with (g := with_reported true g'); [|by apply moving_idle|done]. apply Hinv; [|by repeat constructor].
      rewrite List.filter_app, length_app, C. done. }
  cbn [mbind option_bind].
  assert (forall id, id ∈ doomed -> settled (put g' w) id /\ reports id (put g' w) = 0%nat /\ alive (put g' w) id) as Hd.
  { intros id Hid. destruct (K id Hid) as (Hlt & a & Ha & _). split; [|split; [by apply R|by exists a]].
    split; [done|]. apply not_elem_of_nil. }
  destruct (tell_doomed_fine error doomed w1 Hg1 W) as (w2 & -> & Hg2 & Hc2 & Hr2).
  { intros id Hid. destruct (Hd id Hid) as (Hs & Hr & Ha). destruct (calm_settled _ _ _ Hc1 id Hs) as [Hs1 Hr1].
    split; [done|]. split; [rewrite Hr1; [done|apply not_elem_of_nil]|]. apply (calm_alive _ _ _ Hc1); [done|apply not_elem_of_nil|done]. }
  exists w2. split; [done|]. split; [done|]. split; [|exact Hr2].
  apply (calm_report doomed w w1); [|intros id Hid [_ Hnot]; done|done].
  eapply calm_trans; [|exact Hc1]. apply calm_same; [done|done| |done]. intros id Hid. by apply not_elem_of_nil in Hid.
Qed.

(** *** Actions *)

(** What a queue's pump has to do when at most [n] actions are pending. *)
Definition pump_ok (n : nat) (p : world -> option world) : Prop :=
  forall w g, inv w g -> busy g -> (length (pending g) <= n)%nat -> fine w (p w).

(** Taking the action that is in flight out. *)
Lemma dequeue_inv id (w : world) g : inv w g -> inflight g = Some id ->
  let g' := with_queue (pending g) None (with_http (Some false) g) in let w' := put g' w in
  inv w' g' /\ calm [] w w' /\ settled w' id /\ reports id w' = 0%nat /\ alive w' id.
Proof.
  intros [G W K S R I O P N C E F] Hi g' w'. assert (waiting w = id :: pending g) as Ew by (by rewrite (waiting_of w g G), Hi).
  rewrite Ew in *. apply NoDup_cons in W as [Hnot W]. destruct (K id ltac:(by constructor)) as (Hlt & a & Ha & Hf).
  split; [|split; [|split; [done|split; [apply R; by constructor|by exists a]]]].
  - constructor; try done.
    + intros i Hi'. apply K. by constructor.
    + intros i. destruct (R i) as (? & R2 & ?). split; [done|]. split; [|done]. intros Hi'. apply R2. by constructor.
    + intros He. by destruct (E He).
  - apply calm_same; [done|done| |done]. intros i Hi'. rewrite Ew. by constructor.
Qed.

Lemma action_ended p e id (w : world) g :
  inv w g -> inflight g = Some id -> pump_ok (length (pending g)) p -> concerns e = Some id ->
  exists w', (w ← internal_finishAction p id (put (with_http (Some false) g) w); _ ← store w !! id; notify on_event e w) = Some w' /\
    good w' /\ calm [] w w' /\ reports id w' = 1%nat.
Proof.
  intros Hg Hi Hp He. destruct (dequeue_inv id w g Hg Hi) as (Hg1 & Hc1 & Hs1 & Hr1 & Ha1).
  unfold internal_finishAction. cbn [gateway put mbind option_bind inflight with_http]. rewrite Hi, bool_decide_eq_true_2 by done.
  change (put (with_queue _ None _) _) with (put (with_queue (pending g) None (with_http (Some false) g)) w).
  destruct (unqueue_inv id _ _ Hg1 Ha1) as (a & -> & Hg2 & Hc2). cbn [mbind option_bind].
  destruct (Hp _ _ Hg2) as (w3 & -> & Hg3 & Hc3); [by intros ?|done|]. cbn [mbind option_bind].
  assert (calm [] (put (with_queue (pending g) None (with_http (Some false) g)) w) w3) as Hc by (by eapply calm_trans).
  destruct (calm_settled _ _ _ Hc id Hs1) as [Hs3 Hr3]. specialize (Hr3 ltac:(apply not_elem_of_nil)).
  assert (alive w3 id) as [b Hb] by (apply (calm_alive _ _ _ Hc); [done|apply not_elem_of_nil|done]).
  rewrite Hb. cbn [mbind option_bind].
  destruct (notify_action e id w3) as (w4 & -> & Hg4 & Hc4 & Hr4); [done|done|done|congruence|].
  exists w4. split; [done|]. split; [done|]. split; [|done].
  apply (calm_report [id] w w3); [by eapply calm_trans| |done].
  intros i Hin. apply list_elem_of_singleton in Hin as ->. intros [_ Hnot]. apply Hnot.
  rewrite (waiting_of w g (inv_gateway _ _ Hg)), Hi. by constructor.
Qed.

(** Giving the client the next action. *)
Lemma send_inv (w : world) g next rest url h b :
  inv w g -> state g = Ready -> inflight g = None -> pending g = next :: rest ->
  let g' := with_http (Some true) (with_queue rest (Some next) g) in let w' := ask (Post next url h b) (put g' w) in
  inv w' g' /\ calm [] w w'.
Proof.
  intros [G W K S R I O P N C E F] Hst Hi Hp g' w'.
  assert (waiting w' = waiting w) as Ew by (by rewrite (waiting_of w g G), Hi, Hp).
  assert (posted w' = posted w ++ [next]) as Ep by (unfold posted; cbn; by rewrite omap_app).
  split; [|by apply calm_same; [done|done|rewrite Ew|done]].
  constructor; rewrite ?Ew, ?Ep; try done.
  - cbn. rewrite <- app_assoc. by rewrite Hp in O.
  - intros id [= <-]. apply elem_of_app. right. by constructor.
  - apply Forall_app. split; [done|]. constructor; [|done]. apply K. rewrite (waiting_of w g G), Hi, Hp. by constructor.
Qed.

Lemma internal_pump_fine fuel : pump_ok fuel (internal_pump refused on_event fuel).
Proof.
  induction fuel as [|fuel IH]; intros w g Hg Hb Hl; cbn [internal_pump]; rewrite (inv_gateway _ _ Hg); cbn [mbind option_bind];
    (assert ((state g = Ready -> inflight g = None -> pending g = []) -> fine w (Some w)) as Hsame
       by (intros Hm; exists w; split; [done|split; [by exists g|apply calm_refl]]));
    (case_bool_decide as Hst; [|by apply Hsame]); (case_bool_decide as Hi; [by apply Hsame; intros|]); cbn [negb orb];
    (destruct (pending g) as [|next rest] eqn:Hp; [by apply Hsame|]); [cbn in Hl; lia|].
  pose proof Hg as [G _ K _ _ _ _ _ _ _ _ _].
  destruct (K next) as (_ & a & Ha & service & Hf); [rewrite (waiting_of w g G), Hi, Hp; by constructor|].
  unfold internal_sendAction. cbn [gateway put mbind option_bind store]. rewrite Ha. cbn [mbind option_bind facts with_queue]. rewrite Hf.
  set (url := controlURL service). set (h := buildActionHeader _ _). set (b := buildRequest _ _ _).
  destruct (send_inv w g next rest url h b Hg Hst Hi Hp) as [Hg1 Hc1]. set (w1 := ask _ _) in *.
  change (ask _ _) with w1.
  destruct (refused (Post next url h b)); cbn [negb]; [|by exists w1; split; [done|split; [by eexists; split; [|split; intros]|done]]].
  apply (fine_step w w1); [done|]. unfold w1. cbn [gateway ask put mbind option_bind]. change (ask _ _) with w1.
  unfold action_failed. cbn [gateway put mbind option_bind inflight with_http with_queue].
  edestruct (action_ended (internal_pump refused on_event fuel) (EventActionError next Error.Network) next) as (w3 & E3 & Hg3 & Hc3 & _);
    [exact Hg1|done| |done|exists w3; by split; [exact E3|]].
  intros v gv Hv Hbv Hlv. apply (IH v gv Hv Hbv). cbn in Hlv, Hl. lia.
Qed.

Lemma pump_fine n : pump_ok n (pump refused on_event).
Proof. intros w g Hg Hb _. unfold pump. rewrite (inv_gateway _ _ Hg). cbn [mbind option_bind]. by apply (internal_pump_fine _ w g). Qed.

Lemma pump_good (w : world) g : inv w g -> busy g -> fine w (pump refused on_event w).
Proof. intros Hg Hb. by apply (pump_fine (length (pending g)) w g). Qed.

(** Being ready, whatever has just been learnt of the device. *)
Lemma internal_ready_fine (w : world) g g' :
  inv w g -> pending g' = pending g -> inflight g' = inflight g -> reported g' = reported g ->
  (description (facts g') = description (facts g) \/ waiting w = []) -> moving g -> (inflight g = None \/ http g' = http g) ->
  fine w (internal_ready refused on_event (put g' w)).
Proof.
  intros Hg Hp Hi Hr Hd [Hb Hm] Hh. unfold internal_ready. cbn [gateway put mbind option_bind].
  assert (calm [] w (put (with_state Ready g') w)) as Hc.
  { eapply inv_put; try done. by intros [|[|]]. }
  assert (busy g') as Hb' by (intros Hx; rewrite Hi in Hx; destruct Hh as [Hh|Hh]; [done|rewrite Hh; by apply Hb]).
  apply (fine_step w _ _ Hc).
  destruct (reported (with_state Ready g')) eqn:Er; cbn [negb mbind option_bind].
  - apply (pump_good _ (with_state Ready g')); [|done]. eapply inv_put; try done. by intros [|[|]].
  - apply fine_bind; [|by intros w1 (g1 & Hg1 & Hm1 & _) _; apply (pump_good w1 g1)].
    assert (moving (with_state Ready g')) as Hmg.
    { split; [done|]. intros _ Hx. cbn in Hx |- *. rewrite Hp. rewrite Hi in Hx. cbn in Er. rewrite Hr in Er.
      destruct (state g) eqn:Hst; [| | |by apply Hm|by rewrite (inv_failed _ _ Hg Hst) in Er];
        (destruct (inv_early _ _ Hg) as [_ Hw]; [rewrite Hst; tauto|]);
        by rewrite (waiting_of w g (inv_gateway _ _ Hg)), Hx in Hw. }
    apply (fine_step _ (put (with_reported true (with_state Ready g')) w)); [apply calm_same; try done|].
    apply (notify_other _ _ (with_reported true (with_state Ready g'))); [|done|done].
    pose proof Hg as [G W K S R I O P N C E F].
    assert (waiting (logged EventGatewayFound (put (with_reported true (with_state Ready g')) w)) = waiting w) as Ew
      by (unfold waiting; cbn; by rewrite G, Hp, Hi).
    constructor; rewrite ?Ew; try done.
    + intros id Hid. destruct Hd as [Hd|Hw]; [cbn; rewrite Hd; by apply K|]. rewrite Hw in Hid. by apply not_elem_of_nil in Hid.
    + intros id. rewrite reports_logged, bool_decide_eq_false_2 by done. rewrite Nat.add_0_r. apply R.
    + cbn. by rewrite Hp.
    + cbn. by rewrite Hi.
    + unfold outcomes. cbn. rewrite List.filter_app, length_app. unfold outcomes in C. rewrite C, <- Hr. cbn in Er. by rewrite Er.
    + by intros [|[|]].
Qed.

Lemma hasService_later k g : hasService k g = true -> description (facts g) <> [].
Proof. unfold hasService. by destruct (description (facts g)). Qed.

(** Queueing an action. *)
Lemma queue_inv k name args (w : world) g : inv w g -> hasService k g = true ->
  let id := next_id w in
  let g' := with_queue (pending g ++ [id]) (inflight g) g in
  let w' := mkWorld (Some g') (<[id := mkAction true k name args true]> (store w)) (id + 1) (log w) (requests w) (app w) in
  inv w' g' /\ calm [] w w'.
Proof.
  intros [G W K S R I O P N C E F] Hk id g' w'.
  assert (waiting w' = waiting w ++ [id]) as Ew by (unfold waiting; cbn; rewrite G; by destruct (inflight g)).
  assert (id ∉ waiting w) as Hnew by (intros Hin; destruct (K id Hin); unfold id in *; lia).
  split.
  - constructor; rewrite ?Ew; try done.
    + apply NoDup_app. split; [done|]. split; [|by apply NoDup_singleton]. by intros i Hi ->%list_elem_of_singleton.
    + intros i [Hi|Hi%list_elem_of_singleton]%elem_of_app.
      * destruct (K i Hi) as (Hlt & a & Ha & Hf). split; [cbn; unfold id; lia|]. exists a. split; [|done]. cbn.
        rewrite lookup_insert_ne; [done|]. unfold id. lia.
      * subst i. split; [cbn; lia|]. eexists. cbn. rewrite lookup_insert_eq. split; [done|]. cbn. unfold hasService in Hk.
        by destruct (find_service k _).
    + intros i a. cbn. destruct (decide (i = id)) as [->|Hne].
      * rewrite lookup_insert_eq. intros [= <-]. split; [lia|done].
      * rewrite lookup_insert_ne by done. intros Ha. destruct (S i a Ha). unfold id. split; [lia|done].
    + intros i. destruct (R i) as (R1 & R2 & R3). split; [done|]. split.
      * intros [Hi|Hi%list_elem_of_singleton]%elem_of_app; [by apply R2|]. subst i. change (reports id w = 0%nat).
        destruct (decide (reports id w = 0%nat)); [done|]. assert (id < next_id w) by (apply R3; lia). unfold id in *. lia.
      * intros Hi. cbn. specialize (R3 Hi). unfold id. lia.
    + cbn. rewrite app_assoc. apply StronglySorted_app_2; [|done|by repeat constructor].
      intros x y Hx Hy%list_elem_of_singleton. subst y. unfold id. apply elem_of_app in Hx as [Hx|Hx].
      * rewrite Forall_forall in N. by apply N.
      * apply K. rewrite (waiting_of w g G). destruct (inflight g); [by constructor|done].
    + cbn. eapply Forall_impl; [exact N|]. cbn. unfold id. lia.
    + cbn. intros He. destruct (E He) as [Hd _]. by destruct (hasService_later k g Hk).
  - constructor; [cbn; unfold id; lia| |].
    + intros i [Hlt Hnot]. split; [|done]. split; [cbn; unfold id; lia|]. rewrite Ew.
      intros [Hi|Hi%list_elem_of_singleton]%elem_of_app; [done|]. unfold id in *. lia.
    + intros i _ _ [a Ha]. unfold alive. cbn. destruct (decide (i = id)) as [->|Hne]; [by rewrite lookup_insert_eq; eexists|].
      rewrite lookup_insert_ne by done. by exists a.
Qed.

Lemma invoke_fine k name args (w : world) : good w ->
  exists r w', invoke refused on_event k name args w = Some (r, w') /\ good w' /\ calm [] w w' /\
    forall g, gateway w = Some g ->
      match r with None => hasService k g = false | Some id => hasService k g = true /\ id = next_id w /\ next_id w < next_id w' end.
Proof.
  intros [g [Hg Hm]]. unfold invoke. rewrite (inv_gateway _ _ Hg). cbn [mbind option_bind].
  destruct (hasService k g) eqn:Hk; cbn [negb].
  2: { exists None, w. split; [done|]. split; [by exists g|]. split; [apply calm_refl|]. by intros ? [= <-]. }
  destruct (queue_inv k name args w g Hg Hk) as [Hg1 Hc1]. set (g1 := with_queue _ _ g) in *. set (w1 := mkWorld _ _ _ _ _ _) in *.
  change (mkWorld _ _ _ _ _ _) with w1.
  assert (fine w1 (if bool_decide (state g1 = Ready) then pump refused on_event w1 else Some w1)) as (w2 & -> & Hg2 & Hc2).
  { case_bool_decide; [apply (pump_good w1 g1 Hg1), Hm|]. exists w1. split; [done|]. split; [|apply calm_refl].
    exists g1. split; [done|]. by split; [apply Hm|]. }
  eexists _, w2. split; [reflexivity|]. split; [done|]. split; [by eapply calm_trans|].
  intros ? [= <-]. split; [done|]. split; [done|]. pose proof (calm_next _ _ _ Hc2) as Hn. cbn in Hn. lia.
Qed.

Lemma sorted_filter (P : Z -> Prop) `{forall x, Decision (P x)} (l k : list Z) :
  StronglySorted Z.lt (l ++ k) -> StronglySorted Z.lt (l ++ filter P k).
Proof.
  rewrite !StronglySorted_app. intros (H1 & H2 & H3). split; [|split; [done|]].
  - intros x y Hx [_ Hy]%list_elem_of_filter. by apply H1.
  - clear H1. induction H3 as [|y k Hk IH Hy]; [constructor|]. rewrite filter_cons. case_decide; [|done].
    constructor; [done|]. apply Forall_forall. intros z [_ Hz]%list_elem_of_filter. rewrite Forall_forall in Hy. by apply Hy.
Qed.

(** What [Gateway] does for an action that goes. *)
Lemma unwait_inv id (w : world) g : inv w g ->
  let g' := with_queue (filter (fun x => x <> id) (pending g)) (if bool_decide (inflight g = Some id) then None else inflight g) g in
  inv (put g' w) g' /\ calm [] w (put g' w) /\ id ∉ waiting (put g' w).
Proof.
  intros [G W K S R I O P N C E F] g'.
  assert (forall i, i ∈ waiting (put g' w) <-> i ∈ waiting w /\ i <> id) as Ew.
  { intros i. rewrite (waiting_of w g G). unfold waiting. cbn. case_bool_decide as Hi.
    - rewrite Hi, list_elem_of_filter, elem_of_cons. intuition congruence.
    - destruct (inflight g) as [j|]; rewrite ?elem_of_cons, list_elem_of_filter; [|tauto]. intuition congruence. }
  split; [|split; [|by intros [_ ?]%Ew]].
  - constructor; try done.
    + rewrite (waiting_of w g G) in W. unfold waiting. cbn.
      assert (NoDup (filter (fun x => x <> id) (pending g))) as Hf by (apply NoDup_filter; destruct (inflight g); [by apply NoDup_cons in W as []|done]).
      case_bool_decide; [done|]. destruct (inflight g) as [j|]; [|done]. apply NoDup_cons in W as [Hj _]. apply NoDup_cons. split; [|done].
      by intros [_ Hin]%list_elem_of_filter.
    + intros i [Hi _]%Ew. by apply K.
    + intros i. destruct (R i) as (? & R2 & ?). split; [done|]. split; [|done]. intros [Hi _]%Ew. by apply R2.
    + cbn. case_bool_decide; [done|]. apply I.
    + by apply sorted_filter.
    + intros i. cbn. case_bool_decide; [done|]. apply P.
    + cbn. intros He. destruct (E He) as [Hd Hw]. split; [done|]. unfold waiting in *. rewrite G in Hw. cbn.
      destruct (inflight g); [done|]. by rewrite Hw.
  - apply calm_same; [done|done| |done]. by intros i [Hi _]%Ew.
Qed.

Lemma forget_inv id (w : world) g : inv w g -> id ∉ waiting w ->
  let w' := mkWorld (gateway w) (delete id (store w)) (next_id w) (log w) (requests w) (app w) in
  inv w' g /\ calm [id] w w'.
Proof.
  intros [G W K S R I O P N C E F] Hid w'. split.
  - constructor; try done.
    + intros i Hi. destruct (K i Hi) as (Hlt & a & Ha & Hf). split; [done|]. exists a. split; [|done]. cbn.
      rewrite lookup_delete_ne; [done|]. intros ->. by apply Hid.
    + intros i a. cbn. intros [_ Ha]%lookup_delete_Some. by apply S.
  - constructor; [done|done|]. intros i _ Hne [a Ha]. exists a. cbn. rewrite lookup_delete_ne; [done|].
    intros ->. apply Hne. by constructor.
Qed.

Lemma internal_cancelAction_unwait id (w : world) g : gateway w = Some g ->
  let g' := with_queue (filter (fun x => x <> id) (pending g)) (if bool_decide (inflight g = Some id) then None else inflight g) g in
  internal_cancelAction refused on_event id w =
    (if bool_decide (inflight g = Some id)
     then pump refused on_event (put (with_http (match http g with Some _ => Some false | None => None end) g') w)
     else Some (put g' w)).
Proof. intros G g'. unfold internal_cancelAction. rewrite G. cbn [mbind option_bind inflight with_queue]. unfold g'. by case_bool_decide. Qed.

Lemma internal_cancelAction_fine id (w : world) : good w ->
  exists w', internal_cancelAction refused on_event id w = Some w' /\ good w' /\ calm [] w w' /\ (id ∉ waiting w') /\
    (alive w id -> alive w' id).
Proof.
  intros [g [Hg [Hb Hm]]]. rewrite (internal_cancelAction_unwait id w g (inv_gateway _ _ Hg)).
  destruct (unwait_inv id w g Hg) as (Hg1 & Hc1 & Hn1). set (g1 := with_queue _ _ g) in *.
  assert (forall w', calm [] (put g1 w) w' -> id ∈ waiting w -> calm [] w w' /\ (id ∉ waiting w') /\ (alive w id -> alive w' id)) as Hcase.
  { intros w' Hc Hin. split; [by eapply calm_trans|].
    assert (settled (put g1 w) id) as Hs by (split; [by apply Hg|done]).
    split; [by apply (calm_settled _ _ _ Hc)|]. intros Ha. apply (calm_alive _ _ _ Hc); [|apply not_elem_of_nil|done].
    split; [done|]. by apply (inv_reports _ _ Hg). }
  case_bool_decide as Hi.
  - assert (inflight (with_http (match http g with Some _ => Some false | None => None end) g1) = None) as Hi1
      by (unfold g1; cbn; by rewrite ?bool_decide_eq_true_2).
    assert (id ∈ waiting w) as Hlt by (rewrite (waiting_of w g (inv_gateway _ _ Hg)), Hi; by constructor).
    destruct (inv_put _ _ (with_http (match http g with Some _ => Some false | None => None end) g1) Hg1) as [Hg3 Hc3];
      [done|done|done|by left|by apply (inv_inflight _ _ Hg1)|by apply (inv_early _ _ Hg1)|by apply (inv_failed _ _ Hg1)|].
    destruct (fine_step (put g1 w) _ (pump refused on_event (put (with_http (match http g with Some _ => Some false | None => None end) g1) w)) Hc3)
      as (w2 & E2 & Hg2 & Hc2); [apply (pump_good _ _ Hg3); intros Hx; by rewrite Hi1 in Hx|].
    exists w2. split; [exact E2|]. split; [done|]. by apply Hcase.
  - exists (put g1 w). split; [done|]. split; [|by split; [|split]]. exists g1. split; [done|]. unfold g1.
    unfold moving, busy. cbn. split; [done|]. intros Hr Hx. by rewrite (Hm Hr Hx).
Qed.

(** An action that goes is not told, and lets the next one be sent. *)
Lemma destroy_fine id (w : world) : good w -> alive w id ->
  exists w', destroy_action refused on_event id w = Some w' /\ good w' /\ calm [id] w w' /\
    (forall i, settled w i -> reports i w' = reports i w).
Proof.
  intros Hw [a Ha]. pose proof Hw as [g [Hg _]]. destruct (inv_store _ _ Hg id a Ha) as [Hlt Hag]. unfold destroy_action.
  rewrite Ha. cbn [mbind option_bind]. rewrite Hag.
  destruct (internal_cancelAction_fine id w Hw) as (w2 & -> & [g2 [Hg2 Hm2]] & Hc & Hn2 & [b Hb]); [by exists a|].
  cbn [mbind option_bind]. rewrite Hb. cbn [mbind option_bind].
  destruct (forget_inv id w2 g2 Hg2 Hn2) as [Hg3 Hc3]. set (w3 := mkWorld _ _ _ _ _ _) in *.
  exists w3. split; [done|]. split; [by exists g2|]. split.
  - apply (calm_trans _ _ w2); [|done]. apply (calm_more []); [done|apply list_subseteq_nil].
  - intros i Hi. change (reports i w3) with (reports i w2). apply (calm_settled _ _ _ Hc i Hi). apply not_elem_of_nil.
Qed.

(** One that has been answered goes without a word. *)
Lemma destroy_settled id (w w' : world) : good w -> settled w id -> destroy_action refused on_event id w = Some w' -> log w' = log w.
Proof.
  intros [g [Hg _]] [_ Hn] E. unfold destroy_action in E. destruct (store w !! id) as [a|]; [|done]. cbn [mbind option_bind] in E.
  rewrite (waiting_of w g (inv_gateway _ _ Hg)) in Hn.
  assert ((if a_gateway a then internal_cancelAction refused on_event id w else Some w) = Some w \/
    exists g', (if a_gateway a then internal_cancelAction refused on_event id w else Some w) = Some (put g' w)) as Hc.
  { destruct (a_gateway a); [right|by left]. rewrite (internal_cancelAction_unwait id w g (inv_gateway _ _ Hg)).
    rewrite (bool_decide_eq_false_2 (inflight g = Some id)); [by eexists|]. intros Hi. rewrite Hi in Hn. apply Hn. by constructor. }
  destruct Hc as [Hc|[g' Hc]]; rewrite Hc in E; cbn in E; (destruct (store w !! id); [|done]); by injection E as <-.
Qed.

(** *** Discovery *)

Definition early (g : Gateway) : Prop := state g = Idle \/ state g = Searching \/ state g = FetchingDescription.

Lemma early_idle (w : world) g : inv w g -> early g -> inflight g = None /\ state g <> Ready.
Proof.
  intros Hg He. assert (state g <> Ready) as Hs by (by destruct He as [->|[->| ->]]). split; [|done].
  destruct (inflight g) as [i|] eqn:Ei; [|done]. destruct Hs. apply (inv_inflight _ _ Hg). congruence.
Qed.

(** What fetching a description has to do when [n] candidates are left at most. *)
Definition start_ok (n : nat) (start : URL -> world -> option world) : Prop :=
  forall location w g, inv w g -> early g -> (length (candidates g) - next_candidate g <= n)%nat -> fine w (start location w).

(** Either there is a candidate, and one less left, or nothing happens. *)
Lemma internal_tryNextCandidate_fine n start (w : world) g :
  inv w g -> early g -> (length (candidates g) - next_candidate g <= n)%nat -> (forall m, n = S m -> start_ok m start) ->
  (exists w', internal_tryNextCandidate start w = Some (true, w') /\ good w' /\ calm [] w w') \/
  internal_tryNextCandidate start w = Some (false, w).
Proof.
  intros Hg He Hn Hs. unfold internal_tryNextCandidate. rewrite (inv_gateway _ _ Hg). cbn [mbind option_bind].
  destruct (candidates g !! next_candidate g) as [next|] eqn:El; [left|by right].
  apply lookup_lt_Some in El.
  destruct (inv_put w g (with_candidates (candidates g) (S (next_candidate g)) g) Hg) as [Hg1 Hc1];
    [done|done|done|by left|by apply (inv_inflight _ _ Hg)|by apply (inv_early _ _ Hg)|by apply (inv_failed _ _ Hg)|].
  destruct n as [|m]; [lia|].
  destruct (Hs m eq_refl (Ssdp.location next) _ _ Hg1) as (w2 & -> & Hg2 & Hc2); [done|cbn; lia|].
  exists w2. split; [done|]. split; [done|]. by eapply calm_trans.
Qed.

Lemma internal_fail_fine error (w : world) g : inv w g -> fine w (internal_fail on_event error w).
Proof. intros Hg. destruct (internal_fail_told error w g Hg) as (w' & ? & ? & ? & _). by exists w'. Qed.

Lemma description_failed_fine n start (w : world) g :
  inv w g -> early g -> (length (candidates g) - next_candidate g <= n)%nat -> (forall m, n = S m -> start_ok m start) ->
  fine w (description_failed on_event start w).
Proof.
  intros Hg He Hn Hs. unfold description_failed.
  destruct (internal_tryNextCandidate_fine n start w g Hg He Hn Hs) as [(w1 & -> & Hg1 & Hc1)| ->]; cbn [mbind option_bind].
  - by exists w1.
  - rewrite (inv_gateway _ _ Hg). cbn [mbind option_bind].
    assert (fine w (internal_fail on_event Error.DescriptionFailed w)) as Hf by (by apply (internal_fail_fine _ w g)).
    destruct (search g) as [[]|]; [done| |done]. eexists. split; [reflexivity|].
    destruct (early_idle w g Hg He) as [Hi Hr].
    destruct (inv_put w g (with_state Searching g) Hg) as [Hg1 Hc1];
      [done|done|done|by left|by rewrite Hi|by intros _; apply (inv_early _ _ Hg)|done|].
    split; [|done]. eexists. split; [done|]. by apply moving_idle.
Qed.

Lemma internal_startDescription_fine n : start_ok n (internal_startDescription refused on_event (S n)).
Proof.
  induction n as [n IH] using lt_wf_ind. intros location w g Hg He Hn. cbn [internal_startDescription].
  rewrite (inv_gateway _ _ Hg). cbn [mbind option_bind].
  set (f := mkFacts _ _ _ _ _ _ _ _). set (g1 := with_http (Some true) _).
  destruct (early_idle w g Hg He) as [Hi Hr].
  destruct (inv_put w g g1 Hg) as [Hg1 Hc1]; [done|done|done|by left|by rewrite Hi|by intros _; apply (inv_early _ _ Hg)|done|].
  destruct (inv_ask_get _ _ location Hg1) as [Hg2 Hc2]. assert (calm [] w (ask (Get location) (put g1 w))) as Hc by (by eapply calm_trans).
  destruct (refused (Get location)); cbn [negb]; [|by exists (ask (Get location) (put g1 w)); split; [done|split; [eexists; split; [done|by apply moving_idle]|done]]].
  apply (fine_step _ _ _ Hc). cbn [ask gateway put mbind option_bind].
  destruct (inv_put _ _ (with_http (Some false) g1) Hg2) as [Hg3 Hc3];
    [done|done|done|by left|by cbn; rewrite Hi|by apply (inv_early _ _ Hg2)|done|].
  apply (fine_step _ _ _ Hc3).
  apply (description_failed_fine n _ _ _ Hg3); [by right; right|done|].
  intros m ->. apply IH. lia.
Qed.

Lemma startDescription_fine n : start_ok n (startDescription refused on_event).
Proof.
  intros location w g Hg He _. unfold startDescription. rewrite (inv_gateway _ _ Hg). cbn [mbind option_bind].
  by apply (internal_startDescription_fine _ location w g Hg He).
Qed.

Lemma tryNext_fine (w : world) g : inv w g -> early g ->
  (exists w', internal_tryNextCandidate (startDescription refused on_event) w = Some (true, w') /\ good w' /\ calm [] w w') \/
  internal_tryNextCandidate (startDescription refused on_event) w = Some (false, w).
Proof. intros Hg He. apply (internal_tryNextCandidate_fine _ _ w g Hg He (Nat.le_refl _)). intros m _. apply startDescription_fine. Qed.

(** *** What arrives *)

Lemma inv_logged e (w : world) g : inv w g -> concerns e = None -> is_outcome e = false -> inv (logged e w) g.
Proof.
  intros [G W K S R I O P N C E F] Hc Ho. constructor; try done.
  - intros id. rewrite reports_logged, Hc, bool_decide_eq_false_2, Nat.add_0_r by done. apply R.
  - unfold outcomes. cbn. rewrite List.filter_app. cbn. by rewrite Ho, app_nil_r.
Qed.

Lemma fine_same (w : world) : good w -> fine w (Some w).
Proof. intros Hg. exists w. split; [done|]. split; [done|apply calm_refl]. Qed.

Lemma EventSsdpReply_fine r (w : world) : good w -> fine w (EventSsdpReply refused on_event r w).
Proof.
  intros [g [Hg Hm]]. unfold EventSsdpReply. rewrite (inv_gateway _ _ Hg). cbn [mbind option_bind].
  set (g1 := with_candidates _ _ g).
  destruct (inv_put w g g1 Hg) as [Hg1 Hc1];
    [done|done|done|by left|by apply (inv_inflight _ _ Hg)|by apply (inv_early _ _ Hg)|by apply (inv_failed _ _ Hg)|].
  apply (fine_step _ _ _ Hc1). unfold internal_candidate. apply fine_bind.
  - eapply notify_other; [by apply inv_logged|done|done].
  - intros w2 [g2 [Hg2 Hm2]] _. rewrite (inv_gateway _ _ Hg2). cbn [mbind option_bind].
    case_bool_decide as Hst; cbn [negb]; [|by apply fine_same; exists g2].
    destruct (tryNext_fine w2 g2 Hg2) as [(w3 & -> & Hg3 & Hc3)| ->]; [by right; left| |]; cbn [mbind option_bind].
    + by exists w3.
    + by apply fine_same; exists g2.
Qed.

Lemma internal_searchFinished_fine (w : world) : good w -> fine w (internal_searchFinished refused on_event w).
Proof.
  intros [g [Hg Hm]]. unfold internal_searchFinished. rewrite (inv_gateway _ _ Hg). cbn [mbind option_bind].
  case_bool_decide as Hst; cbn [negb]; [|by apply fine_same; exists g].
  destruct (tryNext_fine w g Hg) as [(w1 & -> & Hg1 & Hc1)| ->]; [by right; left| |]; cbn [mbind option_bind].
  - by exists w1.
  - by apply (internal_fail_fine _ w g).
Qed.

Lemma idle_client (w : world) g h : inv w g ->
  inv (put (with_http h g) w) (with_http h g) /\ calm [] w (put (with_http h g) w).
Proof.
  intros Hg. eapply inv_put; [exact Hg|done|done|done|by left|by apply (inv_inflight _ _ Hg)|by apply (inv_early _ _ Hg)|by apply (inv_failed _ _ Hg)].
Qed.

Lemma description_arrived_fine success body local (w : world) g :
  inv w g -> state g = FetchingDescription -> fine w (description_arrived inet_pton refused on_event success body local w).
Proof.
  intros Hg Hst. unfold description_arrived. destruct success; cbn [negb]; [|by apply (internal_fail_fine _ w g)].
  rewrite (inv_gateway _ _ Hg). cbn [mbind option_bind].
  destruct (parse_verdict inet_pton body (description_url (facts g))) as (e & d & -> & Hd). cbn [mbind option_bind].
  destruct (inv_early _ _ Hg) as [Hn Hw]; [by right; right|].
  destruct (early_idle w g Hg) as [Hi Hr]; [by right; right|].
  destruct (bool_decide_reflect (e = Error.None)) as [He|He]; cbn [negb].
  - eapply (internal_ready_fine w g); [exact Hg|done|done|done|by right|by apply moving_idle|by left].
  - assert (services d = []) as Hs by (destruct Hd as [[_ ?]|[-> _]]; [done|]; case_bool_decide; done).
    set (f := mkFacts _ _ _ _ _ _ _ _). destruct (inv_put w g (with_facts f g) Hg) as [Hg1 Hc1];
      [done|done|done|by right|by apply (inv_inflight _ _ Hg)|by split|by apply (inv_failed _ _ Hg)|].
    apply (fine_step _ _ _ Hc1). by apply (internal_fail_fine _ _ (with_facts f g)).
Qed.

(** What was in flight has been told. *)
Definition told (g : Gateway) (w : world) : Prop := forall id, state g <> FetchingDescription -> inflight g = Some id -> reports id w = 1%nat.

Lemma fine_told (w : world) g r : fine w r -> state g = FetchingDescription \/ inflight g = None ->
  exists w', r = Some w' /\ good w' /\ calm [] w w' /\ told g w'.
Proof. intros (w' & ? & ? & ?) Hg. exists w'. split; [done|]. split; [done|]. split; [done|]. intros id ? ?. destruct Hg; congruence. Qed.

Lemma action_told e id (w : world) g : inv w g -> inflight g = Some id -> concerns e = Some id ->
  exists w', (w ← internal_finishAction (pump refused on_event) id (put (with_http (Some false) g) w); _ ← store w !! id; notify on_event e w) = Some w' /\
    good w' /\ calm [] w w' /\ told g w'.
Proof.
  intros Hg Hi He. destruct (action_ended (pump refused on_event) e id w g Hg Hi) as (w' & E & ? & ? & Hr); [apply pump_fine|done|].
  exists w'. split; [exact E|]. split; [done|]. split; [done|]. intros i _ Hi'. congruence.
Qed.

Lemma EventHttpResponse_fine success body local (w : world) g : inv w g -> moving g ->
  exists w', EventHttpResponse inet_pton refused on_event success body local (put (with_http (Some false) g) w) = Some w' /\
    good w' /\ calm [] w w' /\ told g w'.
Proof.
  intros Hg Hm. destruct (idle_client w g (Some false) Hg) as [Hg1 Hc1]. unfold EventHttpResponse. cbn [gateway put mbind option_bind].
  change (mkWorld (Some (with_http (Some false) g)) _ _ _ _ _) with (put (with_http (Some false) g) w).
  case_bool_decide as Hst; [apply fine_told; [apply (fine_step _ _ _ Hc1); by eapply description_arrived_fine|by left]|].
  cbn [inflight with_http]. destruct (inflight g) as [id|] eqn:Hi.
  2: { apply fine_told; [|by right]. apply (fine_step _ _ _ Hc1), fine_same. exists (with_http (Some false) g). split; [done|].
       split; [by unfold busy; cbn; rewrite Hi|]. apply Hm. }
  destruct (parseResponse_answers body) as (e & args & fault & -> & Hok). cbn [mbind option_bind].
  pose proof (fun ev => action_told ev id w g Hg Hi) as Hend.
  destruct fault as [f|], (decide (e = Error.Device)) as [->|Hne]; try (destruct Hok as (_ & _ & [] & _); by tauto).
  - apply (Hend (EventActionFault id (f_error f) (f_code f) (f_description f)) eq_refl).
  - destruct Hok as (_ & _ & [_ H] & _). destruct Hne. apply H. by eexists.
  - destruct Hok as (_ & _ & [H _] & _). by destruct (H eq_refl).
  - destruct (bool_decide_reflect (e = Error.None)) as [->|Hn].
    + destruct success; [apply (Hend (EventActionResponse id args) eq_refl)|apply (Hend (EventActionError id Error.BadResponse) eq_refl)].
    + destruct e; try done; apply (Hend (EventActionError id _) eq_refl).
Qed.

Lemma EventHttpError_fine (w : world) g : inv w g -> moving g ->
  exists w', EventHttpError refused on_event (put (with_http (Some false) g) w) = Some w' /\ good w' /\ calm [] w w' /\ told g w'.
Proof.
  intros Hg Hm. destruct (idle_client w g (Some false) Hg) as [Hg1 Hc1]. unfold EventHttpError. cbn [gateway put mbind option_bind].
  change (mkWorld (Some (with_http (Some false) g)) _ _ _ _ _) with (put (with_http (Some false) g) w).
  case_bool_decide as Hst.
  - apply fine_told; [|by left]. apply (fine_step _ _ _ Hc1). eapply description_failed_fine; [exact Hg1|by right; right|done|].
    intros m _. apply startDescription_fine.
  - unfold action_failed. cbn [gateway put mbind option_bind inflight with_http]. destruct (inflight g) as [id|] eqn:Hi.
    + by apply action_told.
    + apply fine_told; [|by right]. apply (fine_step _ _ _ Hc1), fine_same. exists (with_http (Some false) g). split; [done|].
      split; [by unfold busy; cbn; rewrite Hi|]. apply Hm.
Qed.

Lemma EventTimeout_fine (w : world) : good w -> fine w (EventTimeout refused on_event w).
Proof.
  intros [g [Hg Hm]]. unfold EventTimeout. rewrite (inv_gateway _ _ Hg). cbn [mbind option_bind].
  case_bool_decide as He.
  - apply (internal_ready_fine w g); [exact Hg|done|done|done|by left|done|by right].
  - destruct (inv_put w g (with_deferred false Error.None g) Hg) as [Hg1 Hc1];
      [done|done|done|by left|by apply (inv_inflight _ _ Hg)|by apply (inv_early _ _ Hg)|by apply (inv_failed _ _ Hg)|].
    apply (fine_step _ _ _ Hc1). by apply (internal_fail_fine _ _ (with_deferred false Error.None g)).
Qed.

Lemma cancel_fine (w : world) : good w -> fine w (cancel on_event w).
Proof.
  intros [g [Hg Hm]]. unfold cancel. rewrite (inv_gateway _ _ Hg). cbn [mbind option_bind].
  case_bool_decide; [by apply fine_same; exists g|]. by apply (internal_fail_fine _ w g).
Qed.

(** *** Anything that happens *)

Definition own (i : Input) : list Z := match i with Destroy id => [id] | _ => [] end.

Lemma perform_fine i (w : world) : good w ->
  exists w', perform inet_pton refused on_event i w = Some w' /\ good w' /\ calm (own i) w w'.
Proof.
  intros Hw. pose proof Hw as [g [Hg Hm]]. unfold perform. rewrite (inv_gateway _ _ Hg). cbn [mbind option_bind].
  assert (fine w (Some w)) as Hsame by (by apply fine_same).
  destruct i as [r| |success body local| | |kind action arguments|id|]; cbn [own].
  - case_bool_decide; [by apply EventSsdpReply_fine|done].
  - case_bool_decide; [|done].
    destruct (inv_put w g (with_search (Some true) g) Hg) as [Hg1 Hc1];
      [done|done|done|by left|by apply (inv_inflight _ _ Hg)|by apply (inv_early _ _ Hg)|by apply (inv_failed _ _ Hg)|].
    apply (fine_step _ _ _ Hc1). apply internal_searchFinished_fine. by exists (with_search (Some true) g).
  - case_bool_decide; [|done]. destruct (EventHttpResponse_fine success body local w g Hg Hm) as (w' & -> & ? & ? & _). by exists w'.
  - case_bool_decide; [|done]. destruct (EventHttpError_fine w g Hg Hm) as (w' & -> & ? & ? & _). by exists w'.
  - destruct (deferred g); [by apply EventTimeout_fine|done].
  - destruct (invoke_fine kind action arguments w Hw) as (r & w' & -> & ? & ? & _). by exists w'.
  - case_bool_decide; [|exists w; split; [done|]; split; [done|]; apply (calm_more []); [apply calm_refl|apply list_subseteq_nil]].
    destruct (destroy_fine id w Hw) as (w' & -> & ? & ? & _); [done|]. by exists w'.
  - by apply cancel_fine.
Qed.

Lemma perform_all_good inputs : forall w : world, good w ->
  exists w', perform_all inet_pton refused on_event inputs w = Some w' /\ good w'.
Proof.
  induction inputs as [|i inputs IH]; intros w Hw; cbn [perform_all]; [by exists w|].
  destruct (perform_fine i w Hw) as (w1 & -> & Hw1 & _). cbn [mbind option_bind]. by apply IH.
Qed.
End safety.

(** ** Applications *)

(** What an application does when it is told something: it may look at everything,
    change what is its own, start, drop and cancel things, and drop the gateway. *)
Inductive Command :=
  | DoInvoke (kind : ServiceKind) (action : bytes) (arguments : list Argument)
  | DoDestroy (id : Z)
  | DoCancel
  | DoLeave.

Section application.
Variable inet_pton : Inet.Version -> bytes -> option bytes.
Variable refused : Request -> bool.
Context {A : Type}.
Variable react : Event -> World A -> A * list Command.
Local Abbreviation world := (World A).

(** An application owns its actions through [unique_ptr]s: one that it has dropped
    already is not dropped again. *)
Definition command (on_event : Event -> world -> option world) (c : Command) (w : world) : option world :=
  match c with
  | DoInvoke kind action arguments => snd <$> invoke refused on_event kind action arguments w
  | DoDestroy id => if bool_decide (is_Some (store w !! id)) then destroy_action refused on_event id w else Some w
  | DoCancel => cancel on_event w
  | DoLeave => destroy_gateway w
  end.
Fixpoint commands (on_event : Event -> world -> option world) (cs : list Command) (w : world) : option world :=
  match cs with [] => Some w | c :: cs => w ← command on_event c w; commands on_event cs w end.

(** It reacts to what happens while it reacts, [depth] deep. *)
Fixpoint application (depth : nat) (e : Event) (w : world) : option world :=
  match depth with
  | O => Some w
  | S depth =>
      let (a, cs) := react e w in
      commands (application depth) cs (mkWorld (gateway w) (store w) (next_id w) (log w) (requests w) a)
  end.

(** What a handler may do: anything but destroy the gateway that calls it, and
    destroy an action that has left the queue and was not told yet when the handler
    was called. It may destroy the action it is told of, those it was told of before,
    those that wait, and those it starts itself. *)
Definition allowed (e : Event) (w : world) (c : Command) : Prop :=
  match c with DoLeave => False | DoDestroy id => concerns e = Some id \/ ~ owed w id | _ => True end.
Definition considerate : Prop := forall e w, Forall (allowed e w) (snd (react e w)).

Definition quiet (own : list Z) (w w' : world) : Prop := calm own w w' /\ forall id, settled w id -> reports id w' = reports id w.

Lemma quiet_calm own (w w' : world) : calm [] w w' -> quiet own w w'.
Proof.
  intros Hc. split; [apply (calm_more []); [done|apply list_subseteq_nil]|]. intros id Hs. apply (calm_settled _ _ _ Hc id Hs), not_elem_of_nil.
Qed.

Lemma quiet_trans own (w1 w2 w3 : world) : quiet own w1 w2 -> quiet own w2 w3 -> quiet own w1 w3.
Proof.
  intros [C1 R1] [C2 R2]. split; [by eapply calm_trans|]. intros id Hs. rewrite R2; [by apply R1|]. by apply (calm_settled _ _ _ C1).
Qed.

Definition well_behaved (on_event : Event -> world -> option world) : Prop :=
  forall e w, good w -> (forall id, concerns e = Some id -> settled w id /\ reports id w = 1%nat) ->
  exists w', on_event e w = Some w' /\ good w' /\ calm (who e) w w' /\ forall id, settled w id -> reports id w' = reports id w.

Lemma command_fine e on_event c (w0 w : world) : well_behaved on_event -> good w ->
  (forall id, concerns e = Some id -> reports id w0 = 1%nat) -> allowed e w0 c -> quiet (who e) w0 w ->
  exists w', command on_event c w = Some w' /\ good w' /\ quiet (who e) w0 w'.
Proof.
  intros Hok Hw He Hal Hq. destruct c as [kind action arguments|id| |]; cbn [command allowed] in *; [| | |done].
  - destruct (invoke_fine refused on_event Hok kind action arguments w Hw) as (r & w' & -> & ? & ? & _). exists w'.
    split; [done|]. split; [done|]. by apply (quiet_trans _ _ w); [|apply quiet_calm].
  - case_bool_decide as Hd; [|by exists w].
    destruct (destroy_fine refused on_event Hok id w Hw Hd) as (w' & -> & ? & [N2 S2 A2] & Hr). exists w'. split; [done|]. split; [done|].
    destruct Hq as [[N1 S1 A1] R1]. split; [|intros i Hi; rewrite Hr; [by apply R1|by apply S1]].
    constructor; [lia| |].
    + intros i Hi. destruct (S1 i Hi) as [Hs E1]. split; [by apply S2|]. intros Ho. rewrite Hr; [by apply E1|done].
    + intros i [Hi H0] Ho Ha. destruct (S1 i Hi) as [Hs E1]. apply A2; [split; [done|by rewrite E1]| |by apply A1].
      intros Hin. apply list_elem_of_singleton in Hin as ->. destruct Hal as [Hal|Hal]; [|by apply Hal].
      by rewrite (He _ Hal) in H0.
  - destruct (cancel_fine on_event Hok w Hw) as (w' & -> & ? & ?). exists w'. split; [done|]. split; [done|].
    by apply (quiet_trans _ _ w); [|apply quiet_calm].
Qed.

Lemma application_well_behaved depth : considerate -> well_behaved (application depth).
Proof.
  intros react_ok. induction depth as [|depth IH]; intros e w Hw Ht; cbn [application].
  - exists w. split; [done|]. split; [done|]. split; [|done]. apply (calm_more []); [apply calm_refl|apply list_subseteq_nil].
  - pose proof (react_ok e w) as Hcs. destruct (react e w) as [a cs]. cbn [snd] in Hcs. set (w1 := mkWorld _ _ _ _ _ a).
    assert (good w1) as Hw1 by (destruct Hw as [g [[] Hm]]; by exists g).
    assert (quiet (who e) w w1) as Hq by (apply quiet_calm; by apply calm_same).
    clearbody w1. revert w1 Hw1 Hq. induction Hcs as [|c cs Hc _ IHcs]; intros w1 Hw1 Hq; cbn [commands]; [by destruct Hq; exists w1|].
    destruct (command_fine e (application depth) c w w1 IH Hw1 ltac:(by apply Ht) Hc Hq) as (w2 & -> & Hw2 & Hq2). cbn [mbind option_bind].
    by apply IHcs.
Qed.

(** How a gateway begins. *)
Inductive Beginning := Discover (started : bool) | Describe (location : URL) | Attach (i : GatewayInfo).
Definition begin (depth : nat) (b : Beginning) (w : world) : option world :=
  match b with
  | Discover started => discover inet_pton started w
  | Describe location => describe inet_pton refused (application depth) location w
  | Attach i => attach inet_pton i w
  end.

Lemma start_good (a : A) g : pending g = [] -> inflight g = None -> reported g = false ->
  (early g -> description (facts g) = []) -> state g <> Failed -> inv (put g (nothing a)) g.
Proof.
  intros Hp Hi Hr He Hf.
  assert (waiting (put g (nothing a)) = []) as Ew by (unfold waiting; cbn; by rewrite Hi).
  constructor; rewrite ?Ew; try done.
  - constructor.
  - by intros id Hid%not_elem_of_nil.
  - intros id. split; [cbn; lia|]. split; [done|]. unfold reports. cbn. lia.
  - cbn. rewrite Hp. constructor.
  - by rewrite Hi.
  - by rewrite Hr.
  - intros Hx. by split; [apply He|].
Qed.

Lemma begin_good depth b (a : A) : considerate -> exists w, begin depth b (nothing a) = Some w /\ good w.
Proof.
  intros react_ok. assert (forall g, pending g = [] -> inflight g = None -> reported g = false -> (early g -> description (facts g) = []) ->
    state g <> Failed -> good (put g (nothing a))) as Hgood.
  { intros g Hp Hi Hr He Hf. exists g. split; [by apply start_good|]. split; [by unfold busy; rewrite Hi|done]. }
  destruct b as [started|location|i]; cbn [begin].
  - unfold discover. destruct started; cbn [negb]; eexists; (split; [reflexivity|]); by apply Hgood.
  - unfold describe. case_match; [eexists; (split; [reflexivity|]); by apply Hgood|].
    destruct (startDescription_fine refused (application depth) (application_well_behaved depth react_ok) 1 location (put (new_Gateway inet_pton) (nothing a)) (new_Gateway inet_pton))
      as (w & -> & Hw & _); [by apply start_good|by left|cbn; lia|by exists w].
  - unfold attach. eexists. split; [reflexivity|]. destruct (negb _); [by apply Hgood|].
    destruct (classify _) as [[k v]|]; apply Hgood; try done. by intros [|[|]].
Qed.

(** What can happen to a gateway that has begun. *)
Definition reached (depth : nat) (b : Beginning) (inputs : list Input) (a : A) : option world :=
  w ← begin depth b (nothing a); perform_all inet_pton refused (application depth) inputs w.

Lemma reached_good depth b inputs (a : A) : considerate -> exists w, reached depth b inputs a = Some w /\ good w.
Proof.
  intros react_ok. unfold reached. destruct (begin_good depth b a react_ok) as (w & -> & Hw). cbn [mbind option_bind].
  apply perform_all_good; [by apply application_well_behaved|done].
Qed.

(** C4. However a gateway begins and whatever arrives while it lives, with an
    application whose handlers are [considerate] - they start actions, cancel the
    gateway, and destroy actions that wait or were told of their end, but do not
    destroy the gateway that calls them nor an action it is still about to tell -
    nothing is looked at after it was destroyed, and no loop is left unfinished; an
    action is told of its end at most once, and not while it is waiting; the gateway
    is reported found or failed at most once; and the client is given the actions
    one at a time, in the order of their invocation and none of them twice. That
    gateway.cpp entitles a handler to destroy the gateway is refuted by
    [handlers_may_not_destroy]. *)
Theorem gateway_safe depth b inputs (a : A) : considerate ->
  exists w, reached depth b inputs a = Some w /\
    (forall id, (reports id w <= 1)%nat /\ (id ∈ waiting w -> reports id w = 0%nat)) /\ (outcomes w <= 1)%nat /\
    NoDup (waiting w) /\ StronglySorted Z.lt (posted w ++ match gateway w with Some g => pending g | None => [] end) /\
    (forall id, alive w id -> id < next_id w).
Proof.
  intros react_ok. destruct (reached_good depth b inputs a react_ok) as (w & E & g & [G W K S R I O P N C Ea F] & Hm). exists w. split; [exact E|].
  split; [intros id; destruct (R id) as (? & ? & ?); by split|]. split; [rewrite C; destruct (reported g); lia|].
  split; [done|]. rewrite G. split; [done|]. intros id [x Hx]. by apply (S id x).
Qed.

(** An action that was accepted is answered. While a gateway is ready and
    anything waits, the client is busy with the first of the actions; whatever the
    client's next answer is - a response with any status and body, or an error -
    that action is told of it exactly once and waits no longer, so the ones behind
    it move up; and cancelling a gateway that has not failed tells all of them. *)
Theorem gateway_answers depth b inputs (a : A) answer : considerate ->
  exists w g, reached depth b inputs a = Some w /\ gateway w = Some g /\
    (state g = Ready -> waiting w <> [] ->
       exists id rest w', waiting w = id :: rest /\ http g = Some true /\
         perform inet_pton refused (application depth)
           match answer with Some (success, body, local) => Response success body local | None => ClientError end w = Some w' /\
         reports id w' = 1%nat /\ (forall i, i ∈ waiting w' -> i ∈ rest \/ next_id w <= i)) /\
    (state g <> Failed ->
       exists w', perform inet_pton refused (application depth) Cancel w = Some w' /\
         forall id, id ∈ waiting w -> reports id w' = 1%nat /\ id ∉ waiting w').
Proof.
  intros react_ok. destruct (reached_good depth b inputs a react_ok) as (w & E & g & Hg & Hmv). pose proof (inv_gateway _ _ Hg) as G. pose proof Hmv as [Hb Hm].
  pose proof (application_well_behaved depth react_ok) as Hok. exists w, g. split; [exact E|]. split; [exact G|].
  assert (forall w', calm [] w w' -> forall i, i ∈ waiting w' -> i ∈ waiting w \/ next_id w <= i) as Hup.
  { intros w' Hc i Hi. destruct (decide (i ∈ waiting w)) as [|Hn]; [by left|]. right.
    destruct (decide (i < next_id w)) as [Hl|]; [|lia]. destruct (calm_settled _ _ _ Hc i) as [[_ H] _]; [by split|done]. }
  assert (forall (w' : world) id, good w' -> reports id w' = 1%nat -> id ∉ waiting w') as Hout.
  { intros w' id (g' & Hg' & _) Hr Hin. destruct (inv_reports _ _ Hg' id) as (_ & H & _). rewrite (H Hin) in Hr. done. }
  split.
  - intros Hst Hne. rewrite (waiting_of w g G) in Hne.
    destruct (inflight g) as [id|] eqn:Hi; [|by rewrite (Hm Hst eq_refl) in Hne].
    assert (http g = Some true) as Hh by (apply Hb; by rewrite Hi).
    assert (exists w', perform inet_pton refused (application depth)
      match answer with Some (success, body, local) => Response success body local | None => ClientError end w = Some w' /\
      good w' /\ calm [] w w' /\ told g w') as (w' & E' & Hw' & Hc & Ht).
    { destruct answer as [[[success body] local]|]; unfold perform; rewrite G; cbn [mbind option_bind];
        rewrite bool_decide_eq_true_2 by done; [exact (EventHttpResponse_fine inet_pton refused _ Hok _ _ _ w g Hg Hmv)|exact (EventHttpError_fine refused _ Hok w g Hg Hmv)]. }
    exists id, (pending g), w'. rewrite (waiting_of w g G), Hi. split; [done|]. split; [done|]. split; [exact E'|].
    assert (reports id w' = 1%nat) as Hr by (apply Ht; [by rewrite Hst|done]). split; [done|].
    intros i Hin. destruct (Hup w' Hc i Hin) as [Hx|]; [left|by right].
    rewrite (waiting_of w g G), Hi in Hx. apply elem_of_cons in Hx as [->|]; [|done]. by destruct (Hout w' id).
  - intros Hf. unfold perform. rewrite G. cbn [mbind option_bind]. unfold cancel. rewrite G. cbn [mbind option_bind].
    rewrite bool_decide_eq_false_2 by done.
    destruct (internal_fail_told (application depth) Hok Error.Cancelled w g Hg) as (w' & -> & Hw' & _ & Hr).
    exists w'. split; [done|]. intros id Hin. split; [by apply Hr|]. by apply Hout, Hr.
Qed.
End application.

(** ** Examples *)

Definition no_address (_ : Inet.Version) (_ : bytes) : option bytes := None.
Definition sample_location : URL := Url.parse no_address (lit "http://10.0.0.1/d").
Definition sample_info : GatewayInfo :=
  mkInfo sample_location (Url.parse no_address (lit "http://10.0.0.1/c")) (lit "urn:schemas-upnp-org:service:WANIPConnection:1") [] [] 1
    false (mkInetAddress Unspecified zero_data [] Unresolved) 0.

Lemma gateway_answers_witness :
  let ask := Invoke WanIpConnection (lit "GetExternalIPAddress") [] in
  exists w g, reached no_address (fun _ => false) (fun _ _ => (tt, [])) 1 (Attach sample_info) [Timeout; ask; ask] tt = Some w /\
    gateway w = Some g /\ state g = Ready /\ http g = Some true /\
    exists w', perform no_address (fun _ => false) (application (fun _ => false) (fun _ _ => (tt, [])) 1) ClientError w = Some w' /\
      reports 0 w' = 1%nat /\ forall i, i ∈ waiting w' -> i ∈ [1] \/ 2 <= i.
Proof.
  cbn zeta. set (inputs := [_; _; _]).
  destruct (gateway_answers no_address (fun _ => false) (fun _ _ => (tt, [])) 1 (Attach sample_info) inputs tt None ltac:(by intros ? ?))
    as (w & g & E & G & H & _).
  assert ((fun w => (state <$> gateway w, waiting w, next_id w)) <$>
    reached no_address (fun _ => false) (fun _ _ => (tt, [])) 1 (Attach sample_info) inputs tt = Some (Some Ready, [0; 1], 2)) as Hw by by vm_compute.
  rewrite E in Hw. cbn [fmap option_fmap option_map] in Hw. rewrite G in Hw. injection Hw as Hst Hwait Hn.
  destruct (H Hst) as (id & rest & w' & Ew & Hh & E' & Hr & Hi); [by rewrite Hwait|].
  rewrite Hwait in Ew. injection Ew as <- <-. rewrite Hn in Hi. exists w, g. split; [exact E|]. split; [exact G|]. split; [exact Hst|].
  split; [exact Hh|]. exists w'. by split; [exact E'|].
Defined.

(** An application that asks for two things as soon as there is a gateway, drops
    what it is told of, and with the first what is still waiting. *)
Definition ask_address : Command := DoInvoke WanIpConnection (lit "GetExternalIPAddress") [].
Definition sample_react (e : Event) (w : World unit) : unit * list Command :=
  (tt, match e with
       | EventGatewayFound => [ask_address; ask_address; ask_address]
       | EventActionError id _ => DoDestroy id :: map DoDestroy (waiting w) ++ [ask_address]
       | _ => []
       end).
Lemma sample_considerate : considerate sample_react.
Proof.
  intros [] w; cbn [sample_react snd]; repeat constructor. apply Forall_app. split; [|by repeat constructor].
  apply Forall_map, Forall_forall. intros i Hi. right. by intros [[_ Hn] _].
Qed.

Lemma gateway_safe_witness :
  considerate sample_react /\
  exists w, reached no_address (fun _ => false) sample_react 2 (Attach sample_info) [Timeout; ClientError] tt = Some w /\
    posted w = [0; 1; 2; 3] /\ NoDup (waiting w) /\ (outcomes w <= 1)%nat.
Proof.
  split; [exact sample_considerate|].
  destruct (gateway_safe no_address (fun _ => false) sample_react 2 (Attach sample_info) [Timeout; ClientError] tt sample_considerate)
    as (w & E & _ & Ho & Hn & _).
  exists w. split; [exact E|]. split; [|exact (conj Hn Ho)].
  assert (posted <$> reached no_address (fun _ => false) sample_react 2 (Attach sample_info) [Timeout; ClientError] tt = Some [0; 1; 2; 3]) as Hp
    by by vm_compute.
  rewrite E in Hp. by injection Hp.
Defined.

(** ** What modelling showed *)

Section findings.
Let accepted (_ : Request) : bool := false.
Let listening (_ : Event) (w : World unit) : option (World unit) := Some w.
Let after (i : list Input) (w : option (World unit)) : option (World unit) :=
  w ← w; perform_all no_address accepted listening i w.

(** A gateway that was cancelled before its first event is ready all the same when
    its timer fires, after [Cancelled] was reported. *)
Lemma cancelled_gateway_revives :
  (fun w => (log w, state <$> gateway w)) <$> after [Cancel; Timeout] (attach no_address sample_info (nothing tt)) =
  Some ([EventGatewayError Error.Cancelled], Some Ready).
Proof. by vm_compute. Qed.

(** An action queued on a gateway that has failed is never told. *)
Lemma failed_gateway_keeps_actions :
  (fun w => (log w, pending <$> gateway w)) <$>
    after [Timeout; Cancel; Invoke WanIpConnection (lit "GetExternalIPAddress") []] (attach no_address sample_info (nothing tt)) =
  Some ([EventGatewayFound], Some [0]).
Proof. by vm_compute. Qed.

(** A reply whose description is no gateway ends the discovery although another
    reply is waiting to be tried. *)
Let answer (host : String.string) : Ssdp.Reply :=
  Ssdp.mkReply (Url.parse no_address (lit "http://" ++ lit host ++ lit "/d")) [] [] [] (mkInetAddress Unspecified zero_data [] Unresolved) 0.
Lemma next_candidate_not_tried :
  (fun w => (last (log w), requests w, state <$> gateway w)) <$>
    after [Reply (answer "10.0.0.9"); Reply (answer "10.0.0.1"); Response true (lit "<root><device/></root>") None]
      (discover no_address true (nothing tt)) =
  Some (Some (EventGatewayError Error.NoService), [Get (Ssdp.location (answer "10.0.0.9"))], Some Failed).
Proof. by vm_compute. Qed.

(** Destroying the gateway does not clear the pointer of an action that has been
    answered; destroying that action afterwards follows it. *)
Lemma answered_action_dangles :
  (w ← after [Timeout; Invoke WanIpConnection (lit "GetExternalIPAddress") []; ClientError] (attach no_address sample_info (nothing tt));
   Some (log w)) = Some [EventGatewayFound; EventActionError 0 Error.Network] /\
  (w ← after [Timeout; Invoke WanIpConnection (lit "GetExternalIPAddress") []; ClientError] (attach no_address sample_info (nothing tt));
   w ← destroy_gateway w;
   destroy_action accepted listening 0 w) = None.
Proof. by vm_compute. Qed.

(** A handler that destroys an action it owns when the gateway fails is followed by
    a look at that action; one that destroys the gateway when it is found, by a
    look at the gateway. *)
Let dropping (e : Event) (w : World unit) : option (World unit) :=
  match e with
  | EventGatewayError _ => destroy_action accepted listening 0 w
  | _ => Some w
  end.
Let leaving (e : Event) (w : World unit) : option (World unit) :=
  match e with EventGatewayFound => destroy_gateway w | _ => Some w end.
Lemma handlers_may_not_destroy :
  (w ← attach no_address sample_info (nothing tt);
   perform_all no_address accepted dropping [Invoke WanIpConnection (lit "GetExternalIPAddress") []; Cancel] w) = None /\
  (w ← attach no_address sample_info (nothing tt); perform_all no_address accepted leaving [Timeout] w) = None.
Proof. by vm_compute. Qed.

(** A description that the client refuses at once - no socket, or a proxy that must
    not be asked for a local host - is reported from inside [describe]. *)
Lemma describe_reports_at_once :
  log <$> describe no_address (fun _ => true) listening sample_location (nothing tt) = Some [EventGatewayError Error.DescriptionFailed].
Proof. by vm_compute. Qed.

(** And actions that are refused at once are told in the reverse of their order. *)
Lemma refusals_reversed :
  log <$> (w ← attach no_address sample_info (nothing tt);
    perform_all no_address (fun _ => true) listening
      [Cancel; Invoke WanIpConnection (lit "A") []; Invoke WanIpConnection (lit "B") []; Timeout] w) =
  Some [EventGatewayError Error.Cancelled; EventActionError 1 Error.Network; EventActionError 0 Error.Network].
Proof. by vm_compute. Qed.
End findings.
