(* ===== verification/PortMapper.v ===== *)
(** * PortMapper: [src/io/net/upnp/portmapper.cpp]

    Port mappings on a gateway: the calls of an application, the actions each of
    them turns into, the mappings that are held and the timer that renews them.
    What the mapper asks of a gateway is the interface [ActionService];
    [GatewayService.v] shows that [Gateway.v] provides it. A call has a number,
    which stands for the pointer to its [Request]; what the application is told is
    recorded with it. Handlers are called last, or before a request that could not
    be made is dropped, which what they do cannot tell apart: what an application
    does from its handlers are the next calls. Times are nanoseconds of the steady
    clock. *)

From stdpp Require Import list.
From S2P Require Import Prelude Strings Inet UpnpSoap UpnpDescription.
From S2P Require Timer.

(** ** The gateway, seen from here *)

(** [as_invoke] gives no action, or one and whether its error was reported before
    the call returned; [as_destroy] gives the actions that were told of an error
    before it returned. [as_done] is an action that will not be reported (again),
    [as_moves] what a gateway does by itself. *)
Class ActionService (G : Type) := {
  as_ok : G -> Prop;
  as_next : G -> Z;
  as_done : Z -> G -> Prop;
  as_moves : G -> G -> Prop;
  as_hasService : ServiceKind -> G -> bool;
  as_supportsIgd2 : G -> bool;
  as_getLocalAddress : G -> option InetAddress;
  as_getPermanentLeasesOnly : G -> bool;
  as_setPermanentLeasesOnly : bool -> G -> G;
  as_invoke : ServiceKind -> bytes -> list Argument -> G -> option (option (Z * bool) * G);
  as_destroy : Z -> G -> option (list Z * G);

  as_moves_ok g g' : as_ok g -> as_moves g g' ->
    as_ok g' /\ as_next g <= as_next g' /\ forall id, as_done id g -> as_done id g';
  as_set_ok b g : as_ok g ->
    as_ok (as_setPermanentLeasesOnly b g) /\ as_next (as_setPermanentLeasesOnly b g) = as_next g /\
    forall id, as_done id g -> as_done id (as_setPermanentLeasesOnly b g);
  as_invoke_ok k name args g : as_ok g -> exists r g', as_invoke k name args g = Some (r, g') /\ as_ok g' /\
    as_next g <= as_next g' /\ (forall id, as_done id g -> as_done id g') /\
    match r with
    | None => as_hasService k g = false
    | Some (id, told) => as_hasService k g = true /\ as_next g <= id < as_next g'
    end;
  as_destroy_ok id g : as_ok g -> exists told g', as_destroy id g = Some (told, g') /\ as_ok g' /\ as_next g <= as_next g' /\
    (forall i, as_done i g -> as_done i g') /\ (as_done id g -> told = [])
}.

(** ** Data *)

(* @src src/include/samurai/io/net/upnp/portmapper.h:25-25 Samurai::IO::Net::UPnP::Protocol *)
Inductive Protocol := TCP | UDP.

#[export] Instance Protocol_eq_dec : EqDecision Protocol.
Proof. solve_decision. Defined.

(* @src src/src/io/net/upnp/portmapper.cpp:53-56 Samurai::IO::Net::UPnP::toString *)
Definition toString (protocol : Protocol) : bytes := if bool_decide (protocol = UDP) then lit "UDP" else lit "TCP".

(* @src src/include/samurai/io/net/upnp/portmapper.h:36-43 Samurai::IO::Net::UPnP::MappingKey *)
Record MappingKey := mkKey { k_protocol : Protocol; k_externalPort : Z; k_remoteHost : bytes }.

#[export] Instance MappingKey_eq_dec : EqDecision MappingKey.
Proof. solve_decision. Defined.

(** The lease is in seconds, 0 for ever. *)
(* @src src/include/samurai/io/net/upnp/portmapper.h:47-64 Samurai::IO::Net::UPnP::Mapping *)
Record Mapping := mkMapping {
  protocol : Protocol;
  externalPort : Z;
  internalPort : Z;
  internalClient : InetAddress;
  remoteHost : bytes;
  m_description : bytes;
  lease : Z;
  enabled : bool
}.

Definition with_port (p : Z) (m : Mapping) : Mapping :=
  mkMapping (protocol m) p (internalPort m) (internalClient m) (remoteHost m) (m_description m) (lease m) (enabled m).
Definition with_client (a : InetAddress) (m : Mapping) : Mapping :=
  mkMapping (protocol m) (externalPort m) (internalPort m) a (remoteHost m) (m_description m) (lease m) (enabled m).
Definition with_lease (l : Z) (m : Mapping) : Mapping :=
  mkMapping (protocol m) (externalPort m) (internalPort m) (internalClient m) (remoteHost m) (m_description m) l (enabled m).

(* @src src/src/io/net/upnp/portmapper.cpp:59-66 Samurai::IO::Net::UPnP::Mapping::key *)
Definition key (m : Mapping) : MappingKey := mkKey (protocol m) (externalPort m) (remoteHost m).

Definition no_address : InetAddress := mkInetAddress Unspecified zero_data [] Unresolved.
(* @src src/include/samurai/io/net/upnp/portmapper.h:47-64 Samurai::IO::Net::UPnP::Mapping *)
Definition new_Mapping : Mapping := mkMapping TCP 0 0 no_address [] [] 0 true.

(** A positive [double], as [fst * 2 ^ snd]. *)
Definition double : Type := Z * Z.

(* @src src/include/samurai/io/net/upnp/portmapper.h:112-133 Samurai::IO::Net::UPnP::PortMapper::Options *)
Record Options := mkOptions {
  o_lease : Z;
  fallBackToPermanent : bool;
  renewAutomatically : bool;
  renewAt : double;
  permanentRefresh : Z;
  conflictRetries : Z
}.
(* @src src/include/samurai/io/net/upnp/portmapper.h:112-133 Samurai::IO::Net::UPnP::PortMapper::Options *)
Definition default_Options : Options := mkOptions 7200 true true (1, -1) 30 8.

(* @src src/src/io/net/upnp/portmapper.cpp:23-32 Samurai::IO::Net::UPnP::PortMapper::Request::Kind *)
Inductive Kind := Add | AddAny | Delete | Get | List | ExternalAddress | Renew.

#[export] Instance Kind_eq_dec : EqDecision Kind.
Proof. solve_decision. Defined.

(* @src src/src/io/net/upnp/portmapper.cpp:21-47 Samurai::IO::Net::UPnP::PortMapper::Request *)
Record Request := mkRequest {
  kind : Kind;
  mapping : Mapping;
  r_key : MappingKey;
  triedPermanent : bool;
  triedAnyPort : bool;
  attempts : Z;
  index : Z;
  maxEntries : Z;
  collected : list Mapping;
  action : option Z
}.
(* @src src/src/io/net/upnp/portmapper.cpp:34-47 Samurai::IO::Net::UPnP::PortMapper::Request *)
Definition new_Request (k : Kind) : Request :=
  mkRequest k new_Mapping (mkKey TCP 0 []) false false 0 0 0 [] None.

Definition with_mapping (m : Mapping) (r : Request) : Request :=
  mkRequest (kind r) m (r_key r) (triedPermanent r) (triedAnyPort r) (attempts r) (index r) (maxEntries r) (collected r) (action r).
Definition with_key (k : MappingKey) (r : Request) : Request :=
  mkRequest (kind r) (mapping r) k (triedPermanent r) (triedAnyPort r) (attempts r) (index r) (maxEntries r) (collected r) (action r).
Definition with_tried (permanent any : bool) (r : Request) : Request :=
  mkRequest (kind r) (mapping r) (r_key r) permanent any (attempts r) (index r) (maxEntries r) (collected r) (action r).
Definition with_attempts (n : Z) (r : Request) : Request :=
  mkRequest (kind r) (mapping r) (r_key r) (triedPermanent r) (triedAnyPort r) n (index r) (maxEntries r) (collected r) (action r).
Definition with_entries (i max : Z) (c : list Mapping) (r : Request) : Request :=
  mkRequest (kind r) (mapping r) (r_key r) (triedPermanent r) (triedAnyPort r) (attempts r) i max c (action r).
Definition with_action (a : option Z) (r : Request) : Request :=
  mkRequest (kind r) (mapping r) (r_key r) (triedPermanent r) (triedAnyPort r) (attempts r) (index r) (maxEntries r) (collected r) a.

(** What the application is told. *)
(* @src src/include/samurai/io/net/upnp/portmapper.h:83-97 Samurai::IO::Net::UPnP::PortMapperEventHandler *)
Inductive Event :=
  | EventMappingAdded (m : Mapping)
  | EventMappingRemoved (k : MappingKey)
  | EventMappingRenewed (m : Mapping)
  | EventMappingFound (m : Mapping)
  | EventMappingList (l : list Mapping)
  | EventExternalAddress (a : InetAddress)
  | EventMapperError (e : Error.t) (device : DeviceError.t) (code : Z).

(** The requests by their numbers; [renewal] is the deadline of the timer, if there
    is one. *)
(* @src src/include/samurai/io/net/upnp/portmapper.h:206-215 Samurai::IO::Net::UPnP::PortMapper *)
Record Mapper := mkMapper {
  options : Options;
  requests : list (Z * Request);
  next_call : Z;
  held : list Mapping;
  renewal : option Z;
  shutting_down : bool
}.

Definition with_requests (l : list (Z * Request)) (m : Mapper) : Mapper :=
  mkMapper (options m) l (next_call m) (held m) (renewal m) (shutting_down m).
Definition with_held (l : list Mapping) (m : Mapper) : Mapper :=
  mkMapper (options m) (requests m) (next_call m) l (renewal m) (shutting_down m).
Definition with_renewal (t : option Z) (m : Mapper) : Mapper :=
  mkMapper (options m) (requests m) (next_call m) (held m) t (shutting_down m).

Record World (G : Type) := mkWorld { mapper : Mapper; service : G; heard : list (Z * Event) }.
Arguments mkWorld {G} _ _ _.
Arguments mapper {G} _.
Arguments service {G} _.
Arguments heard {G} _.

(** ** Renewal times *)

(** A positive number to 53 bits, ties to even. *)
Definition round53 (d : double) : double :=
  let (m, e) := d in
  let s := Z.log2 m - 52 in
  if s <=? 0 then (m, e)
  else
    let q := Z.shiftr m s in
    let r := m - Z.shiftl q s in
    let half := Z.shiftl 1 (s - 1) in
    (if (r <? half) || ((r =? half) && Z.even q) then q else q + 1, e + s).
Definition times (a b : double) : double := round53 (a.1 * b.1, a.2 + b.2).
(** The conversion to an integer. *)
Definition truncate (d : double) : Z := if 0 <=? d.2 then Z.shiftl d.1 d.2 else Z.shiftr d.1 (- d.2).
(** [0.0 < d && d < 1.0]. *)
Definition is_fraction (d : double) : bool := (0 <? d.1) && (if 0 <=? d.2 then false else d.1 <? Z.shiftl 1 (- d.2)).

(** A negative lease is far below the second. *)
(* @src src/src/io/net/upnp/portmapper.cpp:363-371 Samurai::IO::Net::UPnP::PortMapper::internal_scheduleRenewal *)
Definition lease_delay (o : Options) (seconds : Z) : Z :=
  let fraction := if is_fraction (renewAt o) then renewAt o else (1, -1) in
  let when := if seconds <? 0 then 0 else truncate (times (times (round53 (seconds, 0)) fraction) (1000, 0)) in
  if when <? 1000 then 1000 else when.

Definition at_most (d : double) (n : Z) : Prop := if 0 <=? d.2 then d.1 * 2 ^ d.2 <= n else d.1 <= n * 2 ^ (- d.2).

(** Rounding does not pass a number that needs no rounding. *)
Lemma round53_le m e n : 0 < m -> 0 <= n < 2 ^ 53 -> at_most (m, e) n -> at_most (round53 (m, e)) n /\ 0 <= (round53 (m, e)).1.
Proof.
  intros Hm Hn Ha. unfold round53. set (s := Z.log2 m - 52). destruct (Z.leb_spec s 0) as [Hs|Hs]; [by split; [|cbn; lia]|].
  assert (2 ^ 53 <= m) as Hbig.
  { assert (2 ^ Z.log2 m <= m) by (apply Z.log2_spec; lia). assert (2 ^ 53 <= 2 ^ Z.log2 m) by (apply Z.pow_le_mono_r; lia). lia. }
  unfold at_most in Ha. cbn in Ha. destruct (Z.leb_spec 0 e) as [He|He].
  { assert (1 <= 2 ^ e) by (apply (Z.pow_le_mono_r 2 0 e); lia). nia. }
  assert (s <= - e) as Hse.
  { assert (Z.log2 m < 53 + - e); [|lia]. apply Z.log2_lt_pow2; [lia|]. rewrite Z.pow_add_r by lia.
    eapply Z.le_lt_trans; [exact Ha|]. apply Z.mul_lt_mono_pos_r; [apply Z.pow_pos_nonneg; lia|lia]. }
  set (q := Z.shiftr m s). cbv zeta. fold q.
  set (q' := if (m - Z.shiftl q s <? Z.shiftl 1 (s - 1)) || ((m - Z.shiftl q s =? Z.shiftl 1 (s - 1)) && Z.even q) then q else q + 1).
  assert (m = q * 2 ^ s + (m - Z.shiftl q s)) as Eq by (rewrite Z.shiftl_mul_pow2 by lia; lia).
  assert (0 <= m - Z.shiftl q s) as Hr.
  { unfold q. rewrite Z.shiftl_mul_pow2, Z.shiftr_div_pow2 by lia. pose proof (Z.mul_div_le m (2 ^ s) (Z.pow_pos_nonneg 2 s ltac:(lia) ltac:(lia))). lia. }
  assert (0 <= q) as Hq by (unfold q; apply Z.shiftr_nonneg; lia).
  assert (n * 2 ^ (- e) = n * 2 ^ (- e - s) * 2 ^ s) as En by (rewrite <- Z.mul_assoc, <- Z.pow_add_r by lia; f_equal; f_equal; lia).
  assert (0 < 2 ^ s) as Hp by (apply Z.pow_pos_nonneg; lia).
  assert (q' <= n * 2 ^ (- e - s)) as Hq'.
  { unfold q'. destruct (_ || _) eqn:Eh; [nia|]. apply orb_false_iff in Eh as [Eh _]. apply Z.ltb_ge in Eh.
    assert (0 < Z.shiftl 1 (s - 1)) by (rewrite Z.shiftl_mul_pow2 by lia; apply Z.mul_pos_pos; [lia|apply Z.pow_pos_nonneg; lia]). nia. }
  split; [|cbn; unfold q'; destruct (_ || _); lia]. unfold at_most. cbn. destruct (Z.leb_spec 0 (e + s)) as [H0|H0].
  - replace (e + s) with 0 by lia. replace (- e - s) with 0 in Hq' by lia. lia.
  - by replace (- (e + s)) with (- e - s) by lia.
Qed.

Lemma truncate_le d n : 0 <= d.1 -> at_most d n -> truncate d <= n.
Proof.
  destruct d as [m e]. unfold at_most, truncate. cbn. intros Hm. destruct (Z.leb_spec 0 e) as [He|He]; intros Ha.
  - by rewrite Z.shiftl_mul_pow2.
  - rewrite Z.shiftr_div_pow2 by lia. apply Z.div_le_upper_bound; [apply Z.pow_pos_nonneg; lia|lia].
Qed.

Lemma round53_small m e : 0 < m < 2 ^ 53 -> round53 (m, e) = (m, e).
Proof.
  intros Hm. unfold round53. assert (Z.log2 m < 53) by (apply Z.log2_lt_pow2; lia).
  destruct (Z.leb_spec (Z.log2 m - 52) 0); [done|lia].
Qed.

(** A lease is renewed a second after it was granted at the earliest, and before it
    ends. *)
Lemma lease_delay_bounds o seconds : 0 < seconds < 2 ^ 43 -> 1000 <= lease_delay o seconds <= 1000 * seconds.
Proof.
  intros Hs. unfold lease_delay. rewrite (proj2 (Z.ltb_ge seconds 0)) by lia.
  set (f := if is_fraction (renewAt o) then renewAt o else (1, -1)).
  assert (0 < f.1 /\ f.2 < 0 /\ f.1 < 2 ^ (- f.2)) as (Hf1 & Hf2 & Hf3).
  { unfold f. destruct (is_fraction (renewAt o)) eqn:Ef; [|done]. unfold is_fraction in Ef. apply andb_prop in Ef as [H1 H2].
    apply Z.ltb_lt in H1. destruct (Z.leb_spec 0 (renewAt o).2) as [|He]; [done|]. apply Z.ltb_lt in H2.
    rewrite Z.shiftl_mul_pow2 in H2 by lia. lia. }
  rewrite round53_small by lia.
  assert (truncate (times (times (seconds, 0) f) (1000, 0)) <= 1000 * seconds) as Hle.
  { destruct (round53_le (seconds * f.1) f.2 seconds) as [H1 H2]; [lia|lia| |].
    { unfold at_most. cbn [fst snd]. destruct (Z.leb_spec 0 f.2); [lia|]. apply Z.mul_le_mono_nonneg_l; lia. }
    unfold times. cbn [fst snd]. rewrite Z.add_0_l. destruct (round53 (seconds * f.1, f.2)) as [m e]. cbn [fst snd] in *. rewrite Z.add_0_r.
    destruct (decide (m = 0)) as [->|Hm].
    - change (round53 (0 * 1000, e)) with (0, e). unfold truncate. cbn [fst snd].
      destruct (0 <=? e); rewrite ?Z.shiftl_0_l, ?Z.shiftr_0_l; lia.
    - destruct (round53_le (m * 1000) e (1000 * seconds)) as [H3 H4]; [lia|lia| |by apply truncate_le].
      unfold at_most in *. cbn [fst snd] in *. generalize dependent (2 ^ e). generalize dependent (2 ^ (- e)).
      intros p q. destruct (0 <=? e); nia. }
  destruct (Z.ltb_spec (truncate (times (times (seconds, 0) f) (1000, 0))) 1000); lia.
Qed.

(** Half the lease, by default. *)
Lemma lease_delay_default seconds : 0 < seconds < 2 ^ 43 -> lease_delay default_Options seconds = Z.max 1000 (500 * seconds).
Proof.
  intros Hs. unfold lease_delay. rewrite (proj2 (Z.ltb_ge seconds 0)) by lia. change (is_fraction (renewAt default_Options)) with true. cbv iota.
  unfold times. cbn [fst snd renewAt default_Options]. rewrite (round53_small seconds), (round53_small (seconds * 1)) by lia. cbn [fst snd].
  rewrite (round53_small (seconds * 1 * 1000)) by lia. unfold truncate. cbn [fst snd]. change (0 <=? 0 + -1 + 0) with false. cbv iota.
  rewrite Z.shiftr_div_pow2 by lia. replace (seconds * 1 * 1000 / 2 ^ (- (0 + -1 + 0))) with (500 * seconds); [|change (2 ^ (- (0 + -1 + 0))) with 2; by apply Z.div_unique with 0; lia].
  destruct (Z.ltb_spec (500 * seconds) 1000); lia.
Qed.

Section port_mapper.
Variable inet_pton : Inet.Version -> bytes -> option bytes.
Variable inet_ntop : Inet.Version -> bytes -> option bytes.
Context {G : Type} `{ActionService G}.
Local Abbreviation world := (World G).

(** ** Operations *)

Definition put (m : Mapper) (w : world) : world := mkWorld m (service w) (heard w).
Definition put_service (g : G) (w : world) : world := mkWorld (mapper w) g (heard w).
(** A call of the handler. *)
Definition tell (call : Z) (e : Event) (w : world) : world := mkWorld (mapper w) (service w) (heard w ++ [(call, e)]).

Definition lookup (call : Z) (l : list (Z * Request)) : option Request := snd <$> find (fun c => c.1 =? call) l.
Definition set_request (call : Z) (r : Request) (l : list (Z * Request)) : list (Z * Request) :=
  map (fun c => if c.1 =? call then (call, r) else c) l.
Definition drop_request (call : Z) (l : list (Z * Request)) : list (Z * Request) :=
  List.filter (fun c => negb (c.1 =? call)) l.
Definition update (call : Z) (r : Request) (w : world) : world :=
  put (with_requests (set_request call r (requests (mapper w))) (mapper w)) w.

(** [std::to_string] of a signed value. *)
Definition to_string_signed (z : Z) : bytes := if z <? 0 then lit "-" ++ to_string (- z) else to_string z.

(* @src src/src/io/net/upnp/portmapper.cpp:108-118 Samurai::IO::Net::UPnP::PortMapper::internal_client *)
Definition internal_client (m : Mapping) (g : G) : InetAddress :=
  if negb (bool_decide (Inet.version (internalClient m) = Unspecified)) then internalClient m
  else match as_getLocalAddress g with Some local => local | None => no_address end.

(* @src src/src/io/net/upnp/portmapper.cpp:122-139 Samurai::IO::Net::UPnP::PortMapper::internal_addArguments *)
Definition internal_addArguments (m : Mapping) (g : G) : list Argument :=
  [(lit "NewRemoteHost", remoteHost m);
   (lit "NewExternalPort", to_string (externalPort m));
   (lit "NewProtocol", toString (protocol m));
   (lit "NewInternalPort", to_string (internalPort m));
   (lit "NewInternalClient", Inet.toString inet_ntop (internal_client m g));
   (lit "NewEnabled", if enabled m then lit "1" else lit "0");
   (lit "NewPortMappingDescription", m_description m);
   (lit "NewLeaseDuration", to_string_signed (lease m))].

(* @src src/src/io/net/upnp/portmapper.cpp:178-190 Samurai::IO::Net::UPnP::PortMapper::internal_issue *)
Definition key_arguments (k : MappingKey) : list Argument :=
  [(lit "NewRemoteHost", k_remoteHost k);
   (lit "NewExternalPort", to_string (k_externalPort k));
   (lit "NewProtocol", toString (k_protocol k))].

(** What a request asks for. *)
(* @src src/src/io/net/upnp/portmapper.cpp:150-204 Samurai::IO::Net::UPnP::PortMapper::internal_issue *)
Definition request_action (r : Request) (g : G) : bytes * list Argument :=
  match kind r with
  | Add | Renew => (lit "AddPortMapping", internal_addArguments (mapping r) g)
  | AddAny =>
      if negb (triedAnyPort r) && as_supportsIgd2 g then (lit "AddAnyPortMapping", internal_addArguments (mapping r) g)
      else (lit "AddPortMapping", internal_addArguments (mapping r) g)
  | Delete => (lit "DeletePortMapping", key_arguments (r_key r))
  | Get => (lit "GetSpecificPortMappingEntry", key_arguments (r_key r))
  | List => (lit "GetGenericPortMappingEntry", [(lit "NewPortMappingIndex", to_string (index r))])
  | ExternalAddress => (lit "GetExternalIPAddress", [])
  end.

(** The destructor of an action. One whose queue then reports another action at
    once is not followed: the vector it stands in is being changed. *)
Definition drop_action (a : option Z) (w : world) : option world :=
  match a with
  | None => Some w
  | Some id => '(told, g) ← as_destroy id (service w); match told with [] => Some (put_service g w) | _ => None end
  end.

(** The request with its action, if it is still there. *)
(* @src src/src/io/net/upnp/portmapper.cpp:218-225 Samurai::IO::Net::UPnP::PortMapper::internal_finish *)
Definition internal_finish (call : Z) (w : world) : option world :=
  match lookup call (requests (mapper w)) with
  | None => Some w
  | Some r =>
      drop_action (action r) (put (with_requests (drop_request call (requests (mapper w))) (mapper w)) w)
  end.

(** The old action goes when the new one is stored. *)
(* @src src/src/io/net/upnp/portmapper.cpp:150-215 Samurai::IO::Net::UPnP::PortMapper::internal_issue *)
Definition internal_issue (call : Z) (w : world) : option world :=
  r ← lookup call (requests (mapper w));
  let (name, args) := request_action r (service w) in
  let k := if negb (as_hasService WanIpConnection (service w)) then WanPppConnection else WanIpConnection in
  '(answer, g) ← as_invoke k name args (service w);
  w ← drop_action (action r) (update call (with_action (fst <$> answer) r) (put_service g w));
  match answer with
  | Some _ => Some w
  | None => internal_finish call (tell call (EventMapperError Error.NoService DeviceError.Unknown 0) w)
  end.

(* @src src/src/io/net/upnp/portmapper.cpp:142-147 Samurai::IO::Net::UPnP::PortMapper::internal_start *)
Definition internal_start (r : Request) (w : world) : option world :=
  let m := mapper w in
  let call := next_call m in
  internal_issue call
    (put (mkMapper (options m) (requests m ++ [(call, r)]) (call + 1) (held m) (renewal m) (shutting_down m)) w).

Definition default_port (m : Mapping) : Mapping := if externalPort m =? 0 then with_port (internalPort m) m else m.

(* @src src/src/io/net/upnp/portmapper.cpp:235-257 Samurai::IO::Net::UPnP::PortMapper::addMapping *)
Definition addMapping (m : Mapping) (w : world) : option world :=
  let g := service w in
  let asked := if as_getPermanentLeasesOnly g then with_lease 0 m else with_lease (o_lease (options (mapper w))) m in
  let asked := if lease m =? 0 then asked else with_lease (lease m) asked in
  let asked := if as_getPermanentLeasesOnly g then with_lease 0 asked else asked in
  let asked := default_port asked in
  internal_start (with_mapping (with_client (internal_client asked g) asked) (new_Request Add)) w.

(* @src src/src/io/net/upnp/portmapper.cpp:260-275 Samurai::IO::Net::UPnP::PortMapper::addAnyMapping *)
Definition addAnyMapping (m : Mapping) (w : world) : option world :=
  let g := service w in
  let asked := if as_getPermanentLeasesOnly g then with_lease 0 m
               else if lease m =? 0 then with_lease (o_lease (options (mapper w))) m else m in
  let asked := default_port asked in
  internal_start (with_mapping (with_client (internal_client asked g) asked) (new_Request AddAny)) w.

(* @src src/src/io/net/upnp/portmapper.cpp:278-284 Samurai::IO::Net::UPnP::PortMapper::deleteMapping *)
Definition deleteMapping (k : MappingKey) (w : world) : option world := internal_start (with_key k (new_Request Delete)) w.
(* @src src/src/io/net/upnp/portmapper.cpp:287-293 Samurai::IO::Net::UPnP::PortMapper::getMapping *)
Definition getMapping (k : MappingKey) (w : world) : option world := internal_start (with_key k (new_Request Get)) w.
(* @src src/src/io/net/upnp/portmapper.cpp:296-303 Samurai::IO::Net::UPnP::PortMapper::listMappings *)
Definition listMappings (max : Z) (w : world) : option world := internal_start (with_entries 0 max [] (new_Request List)) w.
(* @src src/src/io/net/upnp/portmapper.cpp:306-311 Samurai::IO::Net::UPnP::PortMapper::getExternalAddress *)
Definition getExternalAddress (w : world) : option world := internal_start (new_Request ExternalAddress) w.

Fixpoint delete_all (doomed : list Mapping) (w : world) : option world :=
  match doomed with [] => Some w | m :: doomed => w ← deleteMapping (key m) w; delete_all doomed w end.

(* @src src/src/io/net/upnp/portmapper.cpp:314-323 Samurai::IO::Net::UPnP::PortMapper::shutdown *)
Definition shutdown (w : world) : option world :=
  let m := mapper w in
  delete_all (held m) (put (mkMapper (options m) (requests m) (next_call m) (held m) None true) w).

Fixpoint drop_all (l : list (Z * Request)) (w : world) : option world :=
  match l with [] => Some w | (_, r) :: l => w ← drop_action (action r) w; drop_all l w end.

(* @src src/src/io/net/upnp/portmapper.cpp:326-330 Samurai::IO::Net::UPnP::PortMapper::cancel *)
Definition cancel (w : world) : option world :=
  drop_all (requests (mapper w)) (put (with_requests [] (with_renewal None (mapper w))) w).

(* @src src/src/io/net/upnp/portmapper.cpp:343-349 Samurai::IO::Net::UPnP::PortMapper::internal_forget *)
Fixpoint internal_forget (k : MappingKey) (l : list Mapping) : list Mapping :=
  match l with [] => [] | m :: l => if bool_decide (key m = k) then l else m :: internal_forget k l end.

(** [*existing = granted], or a new entry. *)
(* @src src/src/io/net/upnp/portmapper.cpp:334-340 Samurai::IO::Net::UPnP::PortMapper::internal_find *)
Fixpoint hold (granted : Mapping) (l : list Mapping) : list Mapping :=
  match l with [] => [granted] | m :: l => if bool_decide (key m = key granted) then granted :: l else m :: hold granted l end.

(** When a mapping should be renewed, in milliseconds from now. *)
(* @src src/src/io/net/upnp/portmapper.cpp:361-379 Samurai::IO::Net::UPnP::PortMapper::internal_scheduleRenewal *)
Definition renewal_delay (o : Options) (m : Mapping) : option Z :=
  if negb (lease m =? 0) then Some (lease_delay o (lease m))
  else if permanentRefresh o =? 0 then None else Some (permanentRefresh o * 60000).

(* @src src/src/io/net/upnp/portmapper.cpp:357-386 Samurai::IO::Net::UPnP::PortMapper::internal_scheduleRenewal *)
Definition internal_scheduleRenewal (now : Z) (granted : Mapping) (m : Mapper) : Mapper :=
  if negb (renewAutomatically (options m)) || shutting_down m then m
  else
    match renewal_delay (options m) granted with
    | None => m
    | Some when =>
        let due := now + Timer.milliseconds when in
        match renewal m with
        | Some deadline => if deadline <=? due then m else with_renewal (Some due) m
        | None => with_renewal (Some due) m
        end
    end.

Fixpoint renew_all (due : list Mapping) (w : world) : option world :=
  match due with [] => Some w | m :: due => w ← internal_start (with_mapping m (new_Request Renew)) w; renew_all due w end.

(* @src src/src/io/net/upnp/portmapper.cpp:389-403 Samurai::IO::Net::UPnP::PortMapper::EventTimeout *)
Definition EventTimeout (w : world) : option world :=
  let w := put (with_renewal None (mapper w)) w in
  if shutting_down (mapper w) then Some w else renew_all (held (mapper w)) w.

(** ** Answers *)

(** The request an action belongs to. *)
(* @src src/src/io/net/upnp/portmapper.cpp:409-413 Samurai::IO::Net::UPnP::PortMapper::EventActionResponse *)
Definition owner (id : Z) (w : world) : option (Z * Request) :=
  find (fun c => bool_decide (action c.2 = Some id)) (requests (mapper w)).

(** [std::chrono::seconds] of the cast to [long long]. *)
Definition signed (n : Z) : Z := if n <? 2 ^ 63 then n else n - 2 ^ 64.
Definition port_or (p : Z) (text : bytes) : Z := let n := to_uint64 (Some text) in if n <=? 0xffff then n else p.

(* @src src/src/io/net/upnp/portmapper.cpp:421-429 Samurai::IO::Net::UPnP::PortMapper::EventActionResponse *)
Definition granted_mapping (r : Request) (result : ActionResult) : Mapping :=
  match result_find (lit "NewReservedPort") result with
  | Some reserved =>
      let port := to_uint64 (Some reserved) in
      if negb (port =? 0) && (port <=? 0xffff) then with_port port (mapping r) else mapping r
  | None => mapping r
  end.

(* @src src/src/io/net/upnp/portmapper.cpp:461-475 Samurai::IO::Net::UPnP::PortMapper::EventActionResponse *)
Definition found_mapping (k : MappingKey) (result : ActionResult) : Mapping :=
  mkMapping (k_protocol k) (k_externalPort k) (port_or 0 (result_value (lit "NewInternalPort") result))
    (new_InetAddress inet_pton (result_value (lit "NewInternalClient") result)) (k_remoteHost k)
    (result_value (lit "NewPortMappingDescription") result)
    (signed (to_uint64 (Some (result_value (lit "NewLeaseDuration") result))))
    (negb (bool_decide (result_value (lit "NewEnabled") result = lit "0"))).

(* @src src/src/io/net/upnp/portmapper.cpp:484-502 Samurai::IO::Net::UPnP::PortMapper::EventActionResponse *)
Definition listed_mapping (result : ActionResult) : Mapping :=
  mkMapping (if iequals (result_value (lit "NewProtocol") result) (lit "UDP") then UDP else TCP)
    (port_or 0 (result_value (lit "NewExternalPort") result)) (port_or 0 (result_value (lit "NewInternalPort") result))
    (new_InetAddress inet_pton (result_value (lit "NewInternalClient") result)) (result_value (lit "NewRemoteHost") result)
    (result_value (lit "NewPortMappingDescription") result)
    (signed (to_uint64 (Some (result_value (lit "NewLeaseDuration") result))))
    (negb (bool_decide (result_value (lit "NewEnabled") result = lit "0"))).

(** The request ends, and its application is told. *)
Definition finish_with (call : Z) (e : Event) (w : world) : option world := w ← internal_finish call w; Some (tell call e w).

(* @src src/src/io/net/upnp/portmapper.cpp:406-528 Samurai::IO::Net::UPnP::PortMapper::EventActionResponse *)
Definition EventActionResponse (now id : Z) (result : ActionResult) (w : world) : option world :=
  match owner id w with
  | None => Some w
  | Some (call, r) =>
      match kind r with
      | Add | AddAny | Renew =>
          let granted := granted_mapping r result in
          let m := internal_scheduleRenewal now granted (with_held (hold granted (held (mapper w))) (mapper w)) in
          finish_with call (if bool_decide (kind r = Renew) then EventMappingRenewed granted else EventMappingAdded granted) (put m w)
      | Delete =>
          finish_with call (EventMappingRemoved (r_key r)) (put (with_held (internal_forget (r_key r) (held (mapper w))) (mapper w)) w)
      | Get => finish_with call (EventMappingFound (found_mapping (r_key r) result)) w
      | List =>
          let c := collected r ++ [listed_mapping result] in
          let r := with_entries (index r + 1) (maxEntries r) c r in
          if maxEntries r <=? zlen c then finish_with call (EventMappingList c) w else internal_issue call (update call r w)
      | ExternalAddress =>
          finish_with call (EventExternalAddress (new_InetAddress inet_pton (result_value (lit "NewExternalIPAddress") result))) w
      end
  end.

Definition adding (r : Request) : bool := match kind r with Add | AddAny | Renew => true | _ => false end.

(** [conflict] is what follows the walk to another port. *)
(* @src src/src/io/net/upnp/portmapper.cpp:531-614 Samurai::IO::Net::UPnP::PortMapper::EventActionFault *)
Definition EventActionFault (id : Z) (error : DeviceError.t) (code : Z) (w : world) : option world :=
  match owner id w with
  | None => Some w
  | Some (call, r) =>
      let o := options (mapper w) in
      let refused :=
        if bool_decide (kind r = List) && (bool_decide (error = DeviceError.SpecifiedArrayIndexInvalid) || bool_decide (error = DeviceError.NoSuchEntryInArray))
        then finish_with call (EventMappingList (collected r)) w
        else
          let w := if bool_decide (kind r = Renew) && bool_decide (error = DeviceError.ConflictInMappingEntry)
                   then put (with_held (internal_forget (key (mapping r)) (held (mapper w))) (mapper w)) w else w in
          finish_with call (EventMapperError Error.Device error code) w in
      if adding r && negb (triedPermanent r) && fallBackToPermanent o && negb (lease (mapping r) =? 0) &&
         (bool_decide (error = DeviceError.OnlyPermanentLeasesSupported) || bool_decide (error = DeviceError.InvalidArgs))
      then
        let r := with_tried true (triedAnyPort r) (with_mapping (with_lease 0 (mapping r)) r) in
        internal_issue call (put_service (as_setPermanentLeasesOnly true (service w)) (update call r w))
      else if bool_decide (kind r = AddAny) && negb (triedAnyPort r) &&
         (bool_decide (error = DeviceError.InvalidAction) || bool_decide (error = DeviceError.OptionalActionNotImplemented))
      then internal_issue call (update call (with_tried (triedPermanent r) true r) w)
      else if bool_decide (kind r = AddAny) && bool_decide (error = DeviceError.ConflictInMappingEntry) &&
         (attempts r + 1 <? conflictRetries o) && (externalPort (mapping r) <? 0xffff)
      then
        let r := with_attempts (attempts r + 1) (with_mapping (with_port (externalPort (mapping r) + 1) (mapping r)) r) in
        internal_issue call (update call r w)
      else refused
  end.

(* @src src/src/io/net/upnp/portmapper.cpp:617-627 Samurai::IO::Net::UPnP::PortMapper::EventActionError *)
Definition EventActionError (id : Z) (error : Error.t) (w : world) : option world :=
  match owner id w with
  | None => Some w
  | Some (call, _) => finish_with call (EventMapperError error DeviceError.Unknown 0) w
  end.

(** ** What can happen *)

(** What the application does, and what reaches the mapper. *)
Inductive Input :=
  | CallAdd (m : Mapping)
  | CallAddAny (m : Mapping)
  | CallDelete (k : MappingKey)
  | CallGet (k : MappingKey)
  | CallList (max : Z)
  | CallExternalAddress
  | Shutdown
  | Cancel
  | Response (id : Z) (result : ActionResult)
  | Fault (id : Z) (error : DeviceError.t) (code : Z)
  | Failure (id : Z) (e : Error.t)
  | Timeout.

Definition perform (now : Z) (i : Input) (w : world) : option world :=
  match i with
  | CallAdd m => addMapping m w
  | CallAddAny m => addAnyMapping m w
  | CallDelete k => deleteMapping k w
  | CallGet k => getMapping k w
  | CallList max => listMappings max w
  | CallExternalAddress => getExternalAddress w
  | Shutdown => shutdown w
  | Cancel => cancel w
  | Response id result => EventActionResponse now id result w
  | Fault id error code => EventActionFault id error code w
  | Failure id e => EventActionError id e w
  | Timeout => EventTimeout w
  end.

(** The action an answer is about. *)
Definition answered (i : Input) : option Z :=
  match i with Response id _ | Fault id _ _ | Failure id _ => Some id | _ => None end.

(** A gateway answers an action when it is done with it. *)
Definition permitted (i : Input) (w : world) : Prop :=
  match answered i with Some id => as_done id (service w) | None => True end.

(* @src src/src/io/net/upnp/portmapper.cpp:86-90 Samurai::IO::Net::UPnP::PortMapper::PortMapper *)
Definition new_PortMapper (o : Options) : Mapper := mkMapper o [] 0 [] None false.

(** How often a call was reported. *)
Definition reports (call : Z) (w : world) : nat := length (filter (fun x => x.1 = call) (heard w)).
Definition calls (w : world) : list Z := map fst (requests (mapper w)).

(** The calls that an input drops without a word. *)
Definition dropped (i : Input) (w : world) : list Z := match i with Cancel => calls w | _ => [] end.

(** The worlds of a mapper, and the calls that were dropped on the way. *)
Inductive reached : list Z -> world -> Prop :=
  | reached_start o g : as_ok g -> reached [] (mkWorld (new_PortMapper o) g [])
  | reached_moves c w g : reached c w -> as_moves (service w) g -> reached c (put_service g w)
  | reached_input c w now i w' : reached c w -> permitted i w -> perform now i w = Some w' -> reached (c ++ dropped i w) w'.
Definition actions (w : world) : list Z := omap (fun c => action c.2) (requests (mapper w)).

Record inv (c : list Z) (w : world) : Prop := mkInv {
  inv_ok : as_ok (service w);
  inv_calls : NoDup (calls w);
  inv_next : 0 <= next_call (mapper w) /\ Forall (fun call => 0 <= call < next_call (mapper w)) (calls w);
  inv_actions : NoDup (actions w);
  inv_known : Forall (fun id => id < as_next (service w)) (actions w);
  inv_keys : NoDup (map key (held (mapper w)));
  inv_reports : forall call, (reports call w <= 1)%nat /\ (call ∈ calls w -> reports call w = 0%nat) /\
    (~ 0 <= call < next_call (mapper w) -> reports call w = 0%nat) /\
    (0 <= call < next_call (mapper w) -> call ∉ calls w -> reports call w = (if bool_decide (call ∈ c) then 0 else 1)%nat) /\
    (call ∈ c -> call < next_call (mapper w) /\ call ∉ calls w)
}.

Definition issued (w : world) : Prop := Forall (fun c => is_Some (action c.2)) (requests (mapper w)).

(** *** Requests by their numbers *)

Lemma lookup_in call r l : lookup call l = Some r -> (call, r) ∈ l.
Proof.
  unfold lookup. intros H0. destruct (find _ l) as [[c x]|] eqn:E; [|done]. injection H0 as <-.
  apply find_some in E as [Hin Hc]. cbn in Hc. apply Z.eqb_eq in Hc as ->. by apply list_elem_of_In.
Qed.

Lemma in_lookup call r l : NoDup (map fst l) -> (call, r) ∈ l -> lookup call l = Some r.
Proof.
  unfold lookup. induction l as [|[c x] l IH]; cbn; [by intros _ ?%not_elem_of_nil|]. intros Hn Hin. apply NoDup_cons in Hn as [Hc Hn].
  destruct (Z.eqb_spec c call) as [->|Hne].
  - apply elem_of_cons in Hin as [[= <-]|Hin]; [done|]. destruct Hc. by apply (list_elem_of_fmap_2 fst _ _ Hin).
  - apply elem_of_cons in Hin as [[= -> ->]|Hin]; [done|]. by apply IH.
Qed.

Lemma lookup_none call l : lookup call l = None <-> call ∉ map fst l.
Proof.
  unfold lookup. induction l as [|[c x] l IH]; cbn; [split; [by intros _ ?%not_elem_of_nil|done]|].
  destruct (Z.eqb_spec c call) as [->|Hne].
  - split; [done|]. intros Hn. destruct Hn. by constructor.
  - rewrite IH, elem_of_cons. split; [|tauto]. intros Hn [->|]; done.
Qed.

Lemma set_request_calls call r l : map fst (set_request call r l) = map fst l.
Proof. unfold set_request. rewrite map_map. apply map_ext. intros c. by destruct (Z.eqb_spec c.1 call). Qed.

Lemma set_request_elem call r l c x : (c, x) ∈ set_request call r l -> (c = call /\ x = r) \/ (c <> call /\ (c, x) ∈ l).
Proof.
  intros ([c' x'] & Hx & Hin)%list_elem_of_fmap_1. cbn in Hx. destruct (Z.eqb_spec c' call) as [->|]; injection Hx as -> ->; [by left|by right].
Qed.

Lemma lookup_set call r l r0 : lookup call l = Some r0 -> lookup call (set_request call r l) = Some r.
Proof.
  unfold lookup, set_request. induction l as [|[c x] l IH]; cbn; [done|]. destruct (Z.eqb_spec c call) as [->|Hne]; cbn.
  - by rewrite Z.eqb_refl.
  - rewrite (proj2 (Z.eqb_neq c call) Hne). exact IH.
Qed.

Lemma drop_request_elem call l c : c ∈ drop_request call l <-> c ∈ l /\ c.1 <> call.
Proof.
  unfold drop_request. rewrite !list_elem_of_In, filter_In, negb_true_iff, Z.eqb_neq. done.
Qed.

Lemma drop_request_calls call l c : c ∈ map fst (drop_request call l) <-> c ∈ map fst l /\ c <> call.
Proof.
  rewrite !list_elem_of_fmap. split.
  - intros ([c' x] & -> & [Hin Hne]%drop_request_elem). split; [by exists (c', x)|done].
  - intros [([c' x] & -> & Hin) Hne]. exists (c', x). split; [done|]. by apply drop_request_elem.
Qed.

Lemma drop_request_sublist call l : sublist (drop_request call l) l.
Proof. unfold drop_request. induction l as [|c l IH]; cbn; [constructor|]. destruct (negb _); by constructor. Qed.

Lemma drop_request_absent call l : call ∉ map fst l -> drop_request call l = l.
Proof.
  unfold drop_request. induction l as [|c l IH]; cbn; [done|]. intros [Hc Hl]%not_elem_of_cons. rewrite (proj2 (Z.eqb_neq c.1 call)) by done.
  cbn. by rewrite IH.
Qed.

(** *** Their actions *)

Definition actions_of (l : list (Z * Request)) : list Z := omap (fun c => action c.2) l.

Lemma actions_of_elem id l : id ∈ actions_of l <-> exists call r, (call, r) ∈ l /\ action r = Some id.
Proof.
  unfold actions_of. rewrite list_elem_of_omap. split.
  - intros ([c r] & Hin & Ha). by exists c, r.
  - intros (c & r & Hin & Ha). by exists (c, r).
Qed.

Lemma actions_of_set id call r l : id ∈ actions_of (set_request call r l) -> action r = Some id \/ id ∈ actions_of l.
Proof.
  rewrite actions_of_elem. intros (c & x & Hin & Ha). apply set_request_elem in Hin as [[-> ->]|[_ Hin]]; [by left|right].
  apply actions_of_elem. by exists c, x.
Qed.

Lemma actions_of_set_nodup call r l : NoDup (map fst l) -> NoDup (actions_of l) ->
  (forall id, action r = Some id -> id ∉ actions_of l) -> NoDup (actions_of (set_request call r l)).
Proof.
  intros Hc Hn Hf. induction l as [|[c x] l IH]; [constructor|]. cbn in Hc. apply NoDup_cons in Hc as [Hcx Hc].
  unfold actions_of in *. cbn in Hn, Hf |- *.
  assert (NoDup (omap (fun c => action c.2) l)) as Hnl by (destruct (action x); [by apply NoDup_cons in Hn as []|done]).
  assert (forall id, action r = Some id -> id ∉ omap (fun c => action c.2) l) as Hfl.
  { intros id Hr Hin. apply (Hf id Hr). destruct (action x); [by constructor|done]. }
  destruct (Z.eqb_spec c call) as [->|Hne]; cbn.
  - assert (set_request call r l = l) as Hs.
    { clear -Hcx. unfold set_request. induction l as [|[c x] l IH]; cbn in *; [done|]. apply not_elem_of_cons in Hcx as [H1 H2].
      rewrite (proj2 (Z.eqb_neq c call)) by congruence. by rewrite IH. }
    change (map (fun c => if c.1 =? call then (call, r) else c) l) with (set_request call r l). rewrite Hs.
    destruct (action r) as [i|] eqn:Hr; [|done]. apply NoDup_cons. split; [by apply Hfl|done].
  - specialize (IH Hc Hnl Hfl). destruct (action x) as [i|] eqn:Hx; [|done]. apply NoDup_cons. split; [|done].
    intros Hin. change (i ∈ actions_of (set_request call r l)) in Hin. apply actions_of_set in Hin as [Hr|Hin].
    + apply (Hf i Hr). by constructor.
    + apply NoDup_cons in Hn as [Hn _]. done.
Qed.

Lemma actions_of_set_same call r r0 l : lookup call l = Some r0 -> action r = action r0 -> NoDup (map fst l) ->
  actions_of (set_request call r l) = actions_of l.
Proof.
  intros Hl Ha Hn. assert (forall c x, (c, x) ∈ l -> c = call -> action x = action r) as Hx.
  { intros c x Hin ->. rewrite (in_lookup call x l Hn Hin) in Hl. congruence. }
  clear Hl Hn. unfold actions_of, set_request. induction l as [|[c x] l IH]; [done|]. cbn.
  rewrite IH by (intros; eapply Hx; [by constructor|done]).
  destruct (Z.eqb_spec c call) as [->|]; cbn; [|done]. by rewrite (Hx call x) by (done || by constructor).
Qed.

Lemma actions_of_drop id call l : id ∈ actions_of (drop_request call l) -> id ∈ actions_of l.
Proof.
  rewrite !actions_of_elem. intros (c & x & [Hin _]%drop_request_elem & Ha). by exists c, x.
Qed.

Lemma sublist_map {A B} (f : A -> B) (l k : list A) : sublist l k -> sublist (map f l) (map f k).
Proof. induction 1; cbn; by constructor. Qed.

Lemma sublist_omap {A B} (f : A -> option B) (l k : list A) : sublist l k -> sublist (omap f l) (omap f k).
Proof. induction 1; cbn; [done| |]; destruct (f x); by try constructor. Qed.

(** *** What keeps the invariant *)

Definition same_rest (m m' : Mapper) : Prop :=
  options m' = options m /\ next_call m' = next_call m /\ held m' = held m /\ renewal m' = renewal m /\ shutting_down m' = shutting_down m.

Lemma inv_service c (w : world) g : inv c w -> as_ok g -> as_next (service w) <= as_next g -> inv c (put_service g w).
Proof.
  intros [O C N A K Y R] Hg Hn. constructor; try done. cbn. eapply Forall_impl; [exact K|]. cbn. lia.
Qed.

Lemma inv_mapper c (w : world) m : inv c w -> requests m = requests (mapper w) -> next_call m = next_call (mapper w) ->
  NoDup (map key (held m)) -> inv c (put m w).
Proof.
  intros [O C N A K Y R] Hr Hn Hk. constructor; unfold calls, actions in *; cbn; rewrite ?Hr, ?Hn; done.
Qed.

Lemma inv_update c (w : world) call r r0 : inv c w -> lookup call (requests (mapper w)) = Some r0 ->
  (action r = action r0 \/ forall id, action r = Some id -> (id ∉ actions w) /\ id < as_next (service w)) -> inv c (update call r w).
Proof.
  intros [O C N A K Y R] Hl Ha. pose proof (set_request_calls call r (requests (mapper w))) as Ec.
  change (actions w) with (actions_of (requests (mapper w))) in *.
  assert (NoDup (actions_of (set_request call r (requests (mapper w)))) /\
    Forall (fun id => id < as_next (service w)) (actions_of (set_request call r (requests (mapper w))))) as [HA HK].
  { destruct Ha as [Ha|Ha].
    - by rewrite (actions_of_set_same call r r0 _ Hl Ha C).
    - split; [apply actions_of_set_nodup; [done|done|]; intros id Hid; by apply Ha|].
      rewrite Forall_forall in K |- *. intros id [Hid|Hid]%actions_of_set; [by apply Ha|by apply K]. }
  constructor; unfold calls in *; cbn; rewrite ?Ec; done.
Qed.

Lemma reports_tell call call' e (w : world) : reports call (tell call' e w) = (reports call w + if bool_decide (call' = call) then 1 else 0)%nat.
Proof.
  unfold reports. cbn. rewrite filter_app, length_app. f_equal. rewrite filter_cons, filter_nil. cbn. by case_decide; case_bool_decide.
Qed.

(** Ending a request and telling of it. *)
Lemma inv_ended c (w : world) call e g : inv c w -> call ∈ calls w -> as_ok g -> as_next (service w) <= as_next g ->
  inv c (tell call e (put_service g (put (with_requests (drop_request call (requests (mapper w))) (mapper w)) w))).
Proof.
  intros [O C N A K Y R] Hin Hg Hn. set (w' := tell _ _ _).
  assert (forall i, i ∈ calls w' <-> i ∈ calls w /\ i <> call) as Ec by (intros i; apply drop_request_calls).
  assert (forall i, reports i w' = (reports i w + if bool_decide (call = i) then 1 else 0)%nat) as Er.
  { intros i. unfold w'. by rewrite reports_tell. }
  constructor; try done.
  - eapply sublist_NoDup; [exact C|]. unfold calls. cbn. apply sublist_map, drop_request_sublist.
  - split; [apply N|]. apply Forall_forall. intros i [Hi _]%Ec. destruct N as [_ N]. rewrite Forall_forall in N. by apply N.
  - eapply sublist_NoDup; [exact A|]. unfold actions. cbn. apply sublist_omap, drop_request_sublist.
  - rewrite Forall_forall in K |- *. intros i Hi. specialize (K i (actions_of_drop _ _ _ Hi)). cbn. lia.
  - intros i. rewrite Er. destruct (R i) as (R1 & R2 & R3 & R4 & R5).
    assert (i ∈ c -> i < next_call (mapper w) /\ i ∉ calls w') as R6.
    { intros Hi. destruct (R5 Hi) as [? Hx]. split; [done|]. by intros [Hy _]%Ec. }
    destruct (bool_decide_reflect (call = i)) as [Hi|Hi].
    + subst i. rewrite (R2 Hin). split; [lia|]. split; [by intros []%Ec|].
      split; [|split; [|exact R6]].
      * intros Hx. destruct N as [_ N]. rewrite Forall_forall in N. specialize (N call Hin). by destruct Hx.
      * intros _ _. rewrite bool_decide_eq_false_2; [done|]. intros Hx. by destruct (R5 Hx).
    + rewrite Nat.add_0_r. split; [done|]. split; [intros [Hx _]%Ec; by apply R2|]. split; [done|]. split; [|exact R6].
      intros Hx Hnot. apply R4; [done|]. intros Hy. apply Hnot, Ec. by split; [|congruence].
Qed.

Lemma drop_action_ok a (w : world) : as_ok (service w) -> (forall id, a = Some id -> as_done id (service w)) ->
  exists g, drop_action a w = Some (put_service g w) /\ as_ok g /\ as_next (service w) <= as_next g /\
    forall id, as_done id (service w) -> as_done id g.
Proof.
  intros Hg Hd. destruct a as [id|]; cbn.
  - destruct (as_destroy_ok id (service w) Hg) as (told & g & -> & Hg' & Hn & Hk & Ht). cbn. rewrite (Ht (Hd id eq_refl)). by exists g.
  - exists (service w). destruct w. split; [done|]. split; [done|]. split; [lia|done].
Qed.

Lemma finish_call_spec c (w : world) call r e : inv c w -> lookup call (requests (mapper w)) = Some r ->
  (forall id, action r = Some id -> as_done id (service w)) ->
  exists w', finish_with call e w = Some w' /\ inv c w' /\ same_rest (mapper w) (mapper w') /\
    requests (mapper w') = drop_request call (requests (mapper w)) /\ heard w' = heard w ++ [(call, e)].
Proof.
  intros Hi Hl Hd. unfold finish_with, internal_finish. rewrite Hl.
  destruct (drop_action_ok (action r) (put (with_requests (drop_request call (requests (mapper w))) (mapper w)) w)) as (g & -> & Hg & Hn & _);
    [apply Hi|done|]. eexists. split; [reflexivity|]. split; [|done].
  apply inv_ended; [done| |done|done]. apply (list_elem_of_fmap_2 fst _ _ (lookup_in _ _ _ Hl)).
Qed.

Lemma drop_set call r l : drop_request call (set_request call r l) = drop_request call l.
Proof.
  unfold drop_request, set_request. induction l as [|[c x] l IH]; cbn; [done|].
  destruct (Z.eqb_spec c call) as [->|Hne]; cbn; rewrite ?Z.eqb_refl; cbn; [exact IH|].
  rewrite (proj2 (Z.eqb_neq c call)) by done. cbn. by rewrite IH.
Qed.

(** Asking the gateway: the request has a new action, or it has ended. *)
Definition issued_or_ended (call : Z) (r : Request) (w w' : world) : Prop :=
  (exists id, as_next (service w) <= id < as_next (service w') /\ heard w' = heard w /\
     requests (mapper w') = set_request call (with_action (Some id) r) (requests (mapper w))) \/
  (heard w' = heard w ++ [(call, EventMapperError Error.NoService DeviceError.Unknown 0)] /\
     as_hasService WanIpConnection (service w) = false /\ as_hasService WanPppConnection (service w) = false /\
     requests (mapper w') = drop_request call (requests (mapper w))).

Lemma issue_spec c (w : world) call r : inv c w -> lookup call (requests (mapper w)) = Some r ->
  (forall id, action r = Some id -> as_done id (service w)) ->
  exists w', internal_issue call w = Some w' /\ inv c w' /\ same_rest (mapper w) (mapper w') /\
    as_next (service w) <= as_next (service w') /\ issued_or_ended call r w w'.
Proof.
  intros Hi Hl Hd. unfold internal_issue. rewrite Hl. cbn [mbind option_bind]. destruct (request_action r (service w)) as [name args].
  set (k := if negb (as_hasService WanIpConnection (service w)) then WanPppConnection else WanIpConnection).
  destruct (as_invoke_ok k name args (service w) (inv_ok _ _ Hi)) as (ans & g1 & -> & Hg1 & Hn1 & Hk1 & Hans). cbn [mbind option_bind].
  destruct (drop_action_ok (action r) (update call (with_action (fst <$> ans) r) (put_service g1 w))) as (g2 & -> & Hg2 & Hn2 & _);
    [done|by intros id Ha; apply Hk1, Hd|].
  cbn [mbind option_bind]. cbn in Hn2. destruct ans as [[id told]|].
  - destruct Hans as [_ Hid]. eexists. split; [reflexivity|]. split; [|split; [done|split; [cbn; lia|left; exists id; split; [cbn; lia|done]]]].
    apply inv_service; [|done|done]. apply (inv_update c _ call _ r); [by apply inv_service|done|].
    right. intros i [= <-]. split; [|cbn; lia]. intros Hin. pose proof (inv_known _ _ Hi) as Hk. rewrite Forall_forall in Hk.
    specialize (Hk id Hin). lia.
  - assert (as_hasService WanIpConnection (service w) = false /\ as_hasService WanPppConnection (service w) = false) as [H1 H2].
    { unfold k in Hans. destruct (as_hasService WanIpConnection (service w)) eqn:E; cbn in Hans; [congruence|done]. }
    unfold internal_finish. cbn [tell mapper put_service update put requests with_requests].
    rewrite (lookup_set call _ _ r Hl). cbn [drop_action action with_action fmap option_fmap option_map]. rewrite drop_set.
    eexists. split; [reflexivity|]. split; [|split; [done|split; [cbn; lia|by right]]].
    apply (inv_ended c w call _ g2 Hi); [|done|lia]. apply (list_elem_of_fmap_2 fst _ _ (lookup_in _ _ _ Hl)).
Qed.

(** *** Requests that are waiting for an answer *)

Lemma issued_set call r l (id : Z) : Forall (fun c => c.1 <> call -> is_Some (action c.2)) l ->
  Forall (fun c => is_Some (action c.2)) (set_request call (with_action (Some id) r) l).
Proof.
  rewrite !Forall_forall. intros Hf [c x] [[-> ->]|[Hne Hin]]%set_request_elem; [by eexists|]. by apply (Hf (c, x) Hin).
Qed.

Lemma issued_drop call l : Forall (fun c => c.1 <> call -> is_Some (action c.2)) l ->
  Forall (fun c => is_Some (action c.2)) (drop_request call l).
Proof. rewrite !Forall_forall. intros Hf c [Hin Hne]%drop_request_elem. by apply Hf. Qed.

Lemma issued_or_ended_issued call r (w w' : world) : issued_or_ended call r w w' ->
  Forall (fun c => c.1 <> call -> is_Some (action c.2)) (requests (mapper w)) -> issued w'.
Proof. intros [(id & _ & _ & E)|(_ & _ & _ & E)] Hf; unfold issued; rewrite E; [by apply issued_set|by apply issued_drop]. Qed.

Lemma issued_other (w : world) call : issued w -> Forall (fun c => c.1 <> call -> is_Some (action c.2)) (requests (mapper w)).
Proof. unfold issued. rewrite !Forall_forall. intros Hf c Hin _. by apply Hf. Qed.

(** *** Calls *)

Lemma set_request_absent call r l : call ∉ map fst l -> set_request call r l = l.
Proof.
  unfold set_request. induction l as [|[c x] l IH]; cbn; [done|]. intros [H1 H2]%not_elem_of_cons.
  rewrite (proj2 (Z.eqb_neq c call)) by congruence. by rewrite IH.
Qed.
Lemma set_request_app call r r0 l : set_request call r (l ++ [(call, r0)]) = set_request call r l ++ [(call, r)].
Proof. unfold set_request. rewrite map_app. cbn. by rewrite Z.eqb_refl. Qed.
Lemma drop_request_app call r l : drop_request call (l ++ [(call, r)]) = drop_request call l ++ [].
Proof. unfold drop_request. rewrite List.filter_app. cbn. by rewrite Z.eqb_refl. Qed.

Lemma start_spec c r (w : world) : inv c w -> issued w -> action r = None ->
  exists w', internal_start r w = Some w' /\ inv c w' /\ issued w' /\ held (mapper w') = held (mapper w) /\
    renewal (mapper w') = renewal (mapper w) /\ shutting_down (mapper w') = shutting_down (mapper w) /\
    options (mapper w') = options (mapper w) /\ next_call (mapper w') = next_call (mapper w) + 1 /\
    ((exists id, requests (mapper w') = requests (mapper w) ++ [(next_call (mapper w), with_action (Some id) r)] /\ heard w' = heard w) \/
     (requests (mapper w') = requests (mapper w) /\
      heard w' = heard w ++ [(next_call (mapper w), EventMapperError Error.NoService DeviceError.Unknown 0)])).
Proof.
  intros Hi Hs Ha. pose proof Hi as [O C N A K Y R]. unfold internal_start. set (call := next_call (mapper w)). set (m1 := mkMapper _ _ _ _ _ _).
  assert (call ∉ calls w) as Hnew.
  { intros Hin. destruct N as [_ N]. rewrite Forall_forall in N. specialize (N call Hin). unfold call in N. lia. }
  assert (map fst (requests (mapper w) ++ [(call, r)]) = calls w ++ [call]) as Ec by (by rewrite map_app).
  assert (lookup call (requests m1) = Some r) as Hl.
  { apply in_lookup; [|apply elem_of_app; right; by constructor]. unfold m1; cbn [requests]; rewrite Ec. apply NoDup_app. split; [done|].
    split; [by intros i Hx ->%list_elem_of_singleton|apply NoDup_singleton]. }
  assert (actions_of (requests m1) = actions w) as Ea.
  { unfold actions_of. cbn. rewrite omap_app. cbn. rewrite Ha. apply app_nil_r. }
  assert (inv c (put m1 w)) as Hi1.
  { constructor; unfold calls in *; cbn; rewrite ?Ec; try done.
    - apply NoDup_app. split; [done|]. split; [by intros i Hx ->%list_elem_of_singleton|apply NoDup_singleton].
    - destruct N as [N0 N]. split; [lia|]. apply Forall_app. split; [|constructor; [unfold call in *; lia|constructor]].
      eapply Forall_impl; [exact N|]. cbn. lia.
    - change (NoDup (actions_of (requests m1))). by rewrite Ea.
    - change (Forall (fun id => id < as_next (service w)) (actions_of (requests m1))). by rewrite Ea.
    - intros i. destruct (R i) as (R1 & R2 & R3 & R4 & R5). split; [done|].
      split; [intros [Hx| ->%list_elem_of_singleton]%elem_of_app; [by apply R2|apply R3; unfold call; lia]|].
      split; [intros Hx; apply R3; lia|].
      split; [|intros Hx; destruct (R5 Hx) as [Hlt Hn]; split; [lia|]; intros [?| ->%list_elem_of_singleton]%elem_of_app; [done|unfold call in Hlt; lia]].
      intros Hx Hnot. apply not_elem_of_app in Hnot as [Hn1 Hn2].
      apply R4; [|done]. assert (i <> call) by (intros ->; apply Hn2; by constructor). unfold call in *. lia. }
  destruct (issue_spec c (put m1 w) call r Hi1 Hl) as (w' & E & Hi' & (E1 & E2 & E3 & E4 & E5) & _ & Hw'); [by rewrite Ha|].
  exists w'. split; [exact E|]. split; [done|]. split.
  { eapply issued_or_ended_issued; [exact Hw'|]. cbn. apply Forall_app. split; [by apply issued_other|]. by repeat constructor. }
  split; [done|]. split; [done|]. split; [done|]. split; [done|]. split; [done|].
  destruct Hw' as [(id & _ & Eh & Er)|(Eh & _ & _ & Er)]; [left; exists id|right]; (split; [|exact Eh]); rewrite Er; change (requests (mapper (put m1 w))) with (requests (mapper w) ++ [(call, r)]).
  - by rewrite set_request_app, set_request_absent by exact Hnew.
  - by rewrite drop_request_app, drop_request_absent, app_nil_r by exact Hnew.
Qed.

(** *** What is held, and what was said of it *)

(** The mappings the application was told of and not told the end of. *)
Fixpoint ledger (l : list (Z * Event)) (known : list Mapping) : list Mapping :=
  match l with
  | [] => known
  | (_, EventMappingAdded m) :: l | (_, EventMappingRenewed m) :: l => ledger l (hold m known)
  | (_, EventMappingRemoved k) :: l => ledger l (internal_forget k known)
  | _ :: l => ledger l known
  end.

(** Nobody else was given a port. *)
Definition unopposed (l : list (Z * Event)) : Prop :=
  Forall (fun x => forall e code, x.2 = EventMapperError e DeviceError.ConflictInMappingEntry code -> False) l.

Definition granted (m : Mapping) (l : list (Z * Event)) : Prop :=
  exists call, (call, EventMappingAdded m) ∈ l \/ (call, EventMappingRenewed m) ∈ l.

Definition books (l : list Mapping) (said : list (Z * Event)) : Prop :=
  (unopposed said -> l = ledger said []) /\ Forall (fun m => granted m said) l.

Lemma ledger_app l1 l2 known : ledger (l1 ++ l2) known = ledger l2 (ledger l1 known).
Proof. revert known. induction l1 as [|[c e] l1 IH]; intros known; [done|]. cbn. destruct e; apply IH. Qed.

Lemma granted_app m l1 l2 : granted m l1 -> granted m (l1 ++ l2).
Proof. intros (c & [Hin|Hin]); exists c; [left|right]; apply elem_of_app; by left. Qed.

Lemma hold_elem m x l : x ∈ hold m l -> x = m \/ x ∈ l.
Proof.
  induction l as [|y l IH]; cbn; [by intros ->%list_elem_of_singleton; left|].
  case_bool_decide; intros [->|Hin]%elem_of_cons; [by left|right; by constructor|right; by constructor|].
  destruct (IH Hin); [by left|right; by constructor].
Qed.

Lemma forget_elem k x l : x ∈ internal_forget k l -> x ∈ l.
Proof.
  induction l as [|y l IH]; cbn; [done|]. case_bool_decide; [by constructor|]. intros [->|Hin]%elem_of_cons; constructor; by auto.
Qed.

Lemma hold_keys m l : NoDup (map key l) -> NoDup (map key (hold m l)).
Proof.
  induction l as [|y l IH]; cbn; [intros _; apply NoDup_singleton|]. intros [Hy Hn]%NoDup_cons. case_bool_decide as Hk; cbn.
  - apply NoDup_cons. split; [by rewrite <- Hk|done].
  - apply NoDup_cons. split; [|by apply IH]. intros (x & Hx & [->|Hin]%hold_elem)%list_elem_of_fmap; [done|].
    apply Hy. rewrite Hx. by apply list_elem_of_fmap_2.
Qed.

Lemma forget_keys k l : NoDup (map key l) -> NoDup (map key (internal_forget k l)).
Proof.
  induction l as [|y l IH]; cbn; [done|]. intros [Hy Hn]%NoDup_cons. case_bool_decide; [done|]. cbn. apply NoDup_cons. split; [|by apply IH].
  intros (x & Hx & Hin%forget_elem)%list_elem_of_fmap. apply Hy. rewrite Hx. by apply list_elem_of_fmap_2.
Qed.

Definition neutral (e : Event) : Prop :=
  match e with EventMappingAdded _ | EventMappingRenewed _ | EventMappingRemoved _ => False | _ => True end.

Lemma books_neutral l said call e : books l said -> neutral e -> books l (said ++ [(call, e)]).
Proof.
  intros [Hl Hg] He. split.
  - intros Hu. apply Forall_app in Hu as [Hu _]. rewrite ledger_app, <- (Hl Hu). by destruct e.
  - eapply Forall_impl; [exact Hg|]. intros m. apply granted_app.
Qed.

Lemma books_forget l said call e k : books l said -> (e = EventMappingRemoved k \/ exists code, e = EventMapperError Error.Device DeviceError.ConflictInMappingEntry code) ->
  books (internal_forget k l) (said ++ [(call, e)]).
Proof.
  intros [Hl Hg] He. split.
  - intros Hu. apply Forall_app in Hu as [Hu Hx]. destruct He as [->|[code ->]].
    + rewrite ledger_app, <- (Hl Hu). done.
    + apply Forall_inv in Hx. exfalso. by eapply Hx.
  - rewrite Forall_forall in Hg |- *. intros m Hm%forget_elem. by apply granted_app, Hg.
Qed.

Lemma books_hold l said call e m : books l said -> e = EventMappingAdded m \/ e = EventMappingRenewed m ->
  books (hold m l) (said ++ [(call, e)]).
Proof.
  intros [Hl Hg] He. split.
  - intros Hu. apply Forall_app in Hu as [Hu _]. rewrite ledger_app, <- (Hl Hu). by destruct He as [->| ->].
  - rewrite Forall_forall in Hg |- *. intros x [->|Hx]%hold_elem; [|by apply granted_app, Hg].
    exists call. destruct He as [->| ->]; [left|right]; apply elem_of_app; right; by constructor.
Qed.

(** *** Any input *)

Record stable (c : list Z) (w : world) : Prop := mkStable {
  stable_inv : inv c w;
  stable_issued : issued w;
  stable_books : books (held (mapper w)) (heard w)
}.

Definition fine (c : list Z) (r : option world) : Prop := exists w', r = Some w' /\ stable c w'.

Lemma start_fine c r (w : world) : stable c w -> action r = None -> fine c (internal_start r w).
Proof.
  intros [Hi Hs Hb] Ha. destruct (start_spec c r w Hi Hs Ha) as (w' & E & Hi' & Hs' & Eh & _ & _ & _ & _ & Hcase).
  exists w'. split; [exact E|]. constructor; [done|done|]. rewrite Eh. destruct Hcase as [(id & _ & ->)|[_ ->]]; [done|by apply books_neutral].
Qed.

Lemma renew_all_fine c due : forall w : world, stable c w -> fine c (renew_all due w).
Proof.
  induction due as [|m due IH]; intros w Hw; cbn [renew_all]; [by exists w|].
  destruct (start_fine c (with_mapping m (new_Request Renew)) w Hw eq_refl) as (w1 & -> & Hw1). by apply IH.
Qed.

Lemma delete_all_fine c doomed : forall w : world, stable c w -> fine c (delete_all doomed w).
Proof.
  induction doomed as [|m doomed IH]; intros w Hw; cbn [delete_all]; [by exists w|]. unfold deleteMapping.
  destruct (start_fine c (with_key (key m) (new_Request Delete)) w Hw eq_refl) as (w1 & -> & Hw1). by apply IH.
Qed.

(** How often a request may yet ask again. *)
Definition patience (o : Options) (r : Request) : nat :=
  match kind r with
  | Add | Renew => if triedPermanent r then 0 else 1
  | AddAny => (if triedPermanent r then 0 else 1) + (if triedAnyPort r then 0 else 1) + Z.to_nat (conflictRetries o - attempts r)
  | List => Z.to_nat (maxEntries r - zlen (collected r))
  | _ => 0
  end.

(** An answer ends its call, or makes it ask again, which it does not do for ever. *)
Definition answered_call (call : Z) (r : Request) (w w' : world) : Prop :=
  (exists e, heard w' = heard w ++ [(call, e)] /\ requests (mapper w') = drop_request call (requests (mapper w))) \/
  (exists id r', as_next (service w) <= id /\ heard w' = heard w /\ kind r' = kind r /\
     (patience (options (mapper w)) r' < patience (options (mapper w)) r)%nat /\
     requests (mapper w') = set_request call (with_action (Some id) r') (requests (mapper w))).

Lemma owner_spec id (w : world) call r c : inv c w -> owner id w = Some (call, r) ->
  lookup call (requests (mapper w)) = Some r /\ action r = Some id.
Proof.
  intros Hi Ho. unfold owner in Ho. apply find_some in Ho as [Hin Ha]. apply bool_decide_eq_true in Ha. split; [|exact Ha].
  apply in_lookup; [apply Hi|by apply list_elem_of_In].
Qed.

Lemma set_set call r1 r2 l : set_request call r2 (set_request call r1 l) = set_request call r2 l.
Proof.
  unfold set_request. rewrite map_map. apply map_ext. intros [c x]. cbn. destruct (Z.eqb_spec c call) as [->|Hne]; cbn.
  - by rewrite Z.eqb_refl.
  - by rewrite (proj2 (Z.eqb_neq c call)).
Qed.

(** Asking again with a changed request. *)
Lemma reissue_spec c (w : world) g call r r' : stable c w -> lookup call (requests (mapper w)) = Some r -> action r' = action r ->
  (forall id, action r = Some id -> as_done id g) -> as_ok g -> as_next (service w) = as_next g -> kind r' = kind r ->
  (patience (options (mapper w)) r' < patience (options (mapper w)) r)%nat ->
  exists w', internal_issue call (put_service g (update call r' w)) = Some w' /\ stable c w' /\ answered_call call r w w'.
Proof.
  intros [Hi Hs Hb] Hl Ha Hd Hg Hn Hk Hp.
  assert (inv c (put_service g (update call r' w))) as Hi1.
  { apply inv_service; [by eapply inv_update; [|exact Hl|left]|done|]. cbn. lia. }
  destruct (issue_spec c _ call r' Hi1 (lookup_set call r' _ r Hl)) as (w' & E & Hi' & (E1 & E2 & E3 & E4 & E5) & _ & Hw').
  { rewrite Ha. exact Hd. }
  exists w'. split; [exact E|]. split.
  - constructor; [done| |].
    + eapply issued_or_ended_issued; [exact Hw'|]. cbn. apply Forall_forall. intros [x y] Hin Hne. cbn in Hne |- *.
      apply set_request_elem in Hin as [[-> _]|[_ Hin]]; [done|]. unfold issued in Hs. rewrite Forall_forall in Hs. apply (Hs (x, y) Hin).
    + rewrite E3. destruct Hw' as [(id & _ & -> & _)|(-> & _)]; [done|by apply books_neutral].
  - destruct Hw' as [(id & Hid & Eh & Er)|(Eh & _ & _ & Er)].
    + right. exists id, r'. change (requests (mapper (put_service g (update call r' w)))) with (set_request call r' (requests (mapper w))) in Er.
      rewrite set_set in Er. cbn in Hid. split; [lia|done].
    + left. eexists. split; [exact Eh|]. change (requests (mapper (put_service g (update call r' w)))) with (set_request call r' (requests (mapper w))) in Er.
      by rewrite drop_set in Er.
Qed.

(** Ending a call that changes what is held. *)
Lemma end_spec c (w : world) m call r e : stable c w -> lookup call (requests (mapper w)) = Some r ->
  (forall id, action r = Some id -> as_done id (service w)) ->
  requests m = requests (mapper w) -> next_call m = next_call (mapper w) -> NoDup (map key (held m)) ->
  books (held m) (heard w ++ [(call, e)]) ->
  exists w', finish_with call e (put m w) = Some w' /\ stable c w' /\ same_rest m (mapper w') /\ answered_call call r w w'.
Proof.
  intros [Hi Hs Hb] Hl Hd Hr Hn Hk Hb'.
  destruct (finish_call_spec c (put m w) call r e) as (w' & E & Hi' & Hrest & Er & Eh);
    [by apply inv_mapper|cbn; by rewrite Hr|done|].
  exists w'. split; [exact E|]. cbn in Er, Eh. rewrite Hr in Er. split; [|split; [done|left; by exists e]].
  destruct Hrest as (_ & _ & E3 & _). constructor; [done| |by rewrite E3, Eh].
  unfold issued. rewrite Er. by apply issued_drop, issued_other.
Qed.

Lemma end_same c (w : world) call r e : stable c w -> lookup call (requests (mapper w)) = Some r ->
  (forall id, action r = Some id -> as_done id (service w)) -> neutral e ->
  exists w', finish_with call e w = Some w' /\ stable c w' /\ answered_call call r w w'.
Proof.
  intros Hw Hl Hd He. destruct (end_spec c w (mapper w) call r e) as (w' & E & ? & _ & ?);
    [done|done|done|done|done|apply Hw|by apply books_neutral; [apply Hw|]|].
  exists w'. by destruct w.
Qed.

Definition answer_outcome (id : Z) (w w' : world) : Prop :=
  match owner id w with None => w' = w | Some (call, r) => answered_call call r w w' end.

Definition answer_fine (c : list Z) (id : Z) (w : world) (r : option world) : Prop :=
  exists w', r = Some w' /\ stable c w' /\ answer_outcome id w w'.

Lemma response_fine c now id result (w : world) : stable c w -> as_done id (service w) ->
  answer_fine c id w (EventActionResponse now id result w).
Proof.
  intros Hw Hd. unfold answer_fine, answer_outcome, EventActionResponse. destruct (owner id w) as [[call r]|] eqn:Eo; [|by exists w].
  destruct (owner_spec id w call r c (stable_inv _ _ Hw) Eo) as [Hl Ha].
  assert (forall i, action r = Some i -> as_done i (service w)) as Hdr by (intros i Hi; congruence).
  pose proof (inv_keys _ _ (stable_inv _ _ Hw)) as Hk. pose proof (stable_books _ _ Hw) as Hb.
  assert (forall e, neutral e -> exists w', finish_with call e w = Some w' /\ stable c w' /\ answered_call call r w w') as Hend
    by (intros; by apply end_same).
  assert (forall e, e = EventMappingAdded (granted_mapping r result) \/ e = EventMappingRenewed (granted_mapping r result) ->
    exists w', finish_with call e (put (internal_scheduleRenewal now (granted_mapping r result)
      (with_held (hold (granted_mapping r result) (held (mapper w))) (mapper w))) w) = Some w' /\ stable c w' /\ answered_call call r w w') as Hgrant.
  { intros e He. set (m := internal_scheduleRenewal _ _ _).
    assert (requests m = requests (mapper w) /\ next_call m = next_call (mapper w) /\ held m = hold (granted_mapping r result) (held (mapper w)))
      as (E1 & E2 & E3) by (unfold m, internal_scheduleRenewal; repeat case_match; done).
    destruct (end_spec c w m call r e) as (w' & E & ? & _ & ?); [done|done|done|done|done|rewrite E3; by apply hold_keys|rewrite E3; by apply books_hold|].
    by exists w'. }
  destruct (kind r) eqn:Ek.
  - rewrite bool_decide_eq_false_2 by done. apply Hgrant. by left.
  - rewrite bool_decide_eq_false_2 by done. apply Hgrant. by left.
  - destruct (end_spec c w (with_held (internal_forget (r_key r) (held (mapper w))) (mapper w)) call r (EventMappingRemoved (r_key r)))
      as (w' & E & ? & _ & ?); [done|done|done|done|done|by apply forget_keys|by apply books_forget; [|left]|]. by exists w'.
  - by apply Hend.
  - cbn [maxEntries with_entries]. destruct (Z.leb_spec (maxEntries r) (zlen (collected r ++ [listed_mapping result]))) as [Hm|Hm]; [by apply Hend|].
    apply (reissue_spec c w (service w) call r); try done; [apply Hw|].
    unfold patience. cbn [kind with_entries maxEntries collected]. rewrite Ek. rewrite zlen_app in *. change (zlen [listed_mapping result]) with 1 in *. lia.
  - by apply Hend.
  - rewrite bool_decide_eq_true_2 by done. apply Hgrant. by right.
Qed.

Lemma failure_fine c id e (w : world) : stable c w -> as_done id (service w) -> answer_fine c id w (EventActionError id e w).
Proof.
  intros Hw Hd. unfold answer_fine, answer_outcome, EventActionError. destruct (owner id w) as [[call r]|] eqn:Eo; [|by exists w].
  destruct (owner_spec id w call r c (stable_inv _ _ Hw) Eo) as [Hl Ha]. apply end_same; [done|done| |done]. intros i Hi. congruence.
Qed.

Lemma adding_patience o r : adding r = true -> triedPermanent r = false ->
  (patience o (with_tried true (triedAnyPort r) (with_mapping (with_lease 0 (mapping r)) r)) < patience o r)%nat.
Proof. unfold adding, patience. intros Hk Ht. cbn. rewrite Ht. destruct (kind r); try done; lia. Qed.

Lemma fault_fine c id error code (w : world) : stable c w -> as_done id (service w) ->
  answer_fine c id w (EventActionFault id error code w).
Proof.
  intros Hw Hd. unfold answer_fine, answer_outcome, EventActionFault. destruct (owner id w) as [[call r]|] eqn:Eo; [|by exists w].
  destruct (owner_spec id w call r c (stable_inv _ _ Hw) Eo) as [Hl Ha].
  assert (forall i, action r = Some i -> as_done i (service w)) as Hdr by (intros i Hi; congruence).
  pose proof (inv_ok _ _ (stable_inv _ _ Hw)) as Hok.
  destruct (adding r && _ && _ && _ && _) eqn:Eperm.
  { rewrite !andb_true_iff, !negb_true_iff in Eperm. destruct Eperm as [[[[Hadd Htp] _] _] _].
    destruct (as_set_ok true (service w) Hok) as (Hg & Hn & Hk).
    apply (reissue_spec c w (as_setPermanentLeasesOnly true (service w)) call r); try done; [|by apply adding_patience].
    intros i Hi. apply Hk. by apply Hdr. }
  destruct (bool_decide (kind r = AddAny) && negb _ && _) eqn:Eany.
  { rewrite !andb_true_iff, negb_true_iff, bool_decide_eq_true in Eany. destruct Eany as [[Hk Ht] _].
    apply (reissue_spec c w (service w) call r); try done. unfold patience. cbn. rewrite Hk, Ht. lia. }
  destruct (bool_decide (kind r = AddAny) && bool_decide _ && _ && _) eqn:Ewalk.
  { rewrite !andb_true_iff, !bool_decide_eq_true, Z.ltb_lt in Ewalk. destruct Ewalk as [[[Hk _] Hc] _].
    apply (reissue_spec c w (service w) call r); try done. unfold patience. cbn. rewrite Hk. lia. }
  destruct (bool_decide (kind r = List) && _); [by apply end_same|].
  destruct (bool_decide (kind r = Renew) && bool_decide (error = _)) eqn:Erenew; [|by apply end_same].
  rewrite andb_true_iff, !bool_decide_eq_true in Erenew. destruct Erenew as [_ ->].
  destruct (end_spec c w (with_held (internal_forget (key (mapping r)) (held (mapper w))) (mapper w)) call r
    (EventMapperError Error.Device DeviceError.ConflictInMappingEntry code)) as (w' & E & ? & _ & ?);
    [done|done|done|done|done|apply forget_keys, Hw|apply books_forget; [apply Hw|right; by exists code]|]. by exists w'.
Qed.

Lemma answer_spec c now i id (w : world) : stable c w -> answered i = Some id -> as_done id (service w) ->
  answer_fine c id w (perform now i w).
Proof.
  intros Hw Hi Hd. destruct i; try done; injection Hi as ->; cbn [perform];
    [by apply response_fine|by apply fault_fine|by apply failure_fine].
Qed.

Lemma input_fine c now i (w : world) : stable c w -> permitted i w -> i <> Cancel -> fine c (perform now i w).
Proof.
  intros Hw Hp Hc. unfold permitted in Hp. destruct (answered i) as [id|] eqn:Ei.
  - destruct (answer_spec c now i id w Hw Ei Hp) as (w' & E & Hw' & _). by exists w'.
  - assert (forall m, requests m = requests (mapper w) -> next_call m = next_call (mapper w) -> held m = held (mapper w) -> stable c (put m w)) as Hput.
    { intros m H1 H2 H3. destruct Hw as [Hi Hs Hb]. constructor; [apply inv_mapper; try done; rewrite H3; apply Hi|unfold issued; cbn; by rewrite H1|cbn; by rewrite H3]. }
    destruct i; try done; cbn [perform]; try by apply start_fine.
    + apply delete_all_fine. by apply Hput.
    + unfold EventTimeout. cbn. assert (stable c (put (with_renewal None (mapper w)) w)) as H1 by by apply Hput.
      destruct (shutting_down (mapper w)); [by eexists|]. by apply renew_all_fine.
Qed.

Lemma drop_all_ok l : forall w w' : world, as_ok (service w) -> drop_all l w = Some w' ->
  as_ok (service w') /\ as_next (service w) <= as_next (service w') /\ mapper w' = mapper w /\ heard w' = heard w.
Proof.
  induction l as [|[c r] l IH]; cbn [drop_all]; intros w w' Hg E; [injection E as <-; split_and!; done|].
  destruct (action r) as [id|]; cbn [drop_action mbind option_bind] in E; [|by apply IH].
  destruct (as_destroy_ok id (service w) Hg) as (told & g & E1 & Hg1 & Hn & _ & _). rewrite E1 in E. cbn in E. destruct told; [|done].
  cbn in E. destruct (IH (put_service g w) w' Hg1 E) as (? & ? & ? & ?). cbn in *. split_and!; [done|lia|done|done].
Qed.

Lemma cancel_stable c (w w' : world) : stable c w -> cancel w = Some w' -> stable (c ++ calls w) w'.
Proof.
  intros [[O C N A K Y R] Hs Hb] E. unfold cancel in E. destruct (drop_all_ok _ (put (with_requests [] (with_renewal None (mapper w))) w) w' O E) as (Hg & Hn & Em & Eh). cbn in Hn, Em, Eh.
  assert (calls w' = [] /\ actions w' = []) as [Ec Ea] by (unfold calls, actions; by rewrite Em).
  constructor; [constructor; rewrite ?Ec, ?Ea; try done; rewrite ?Em; cbn; try done; [constructor|split; [apply N|done]|constructor| ]| |].
  - intros call. destruct (R call) as (R1 & R2 & R3 & R4 & R5).
    assert (reports call w' = reports call w) as Er by (unfold reports; by rewrite Eh). rewrite Er. split; [done|].
    split; [by intros ?%not_elem_of_nil|]. split; [done|]. split.
    + intros Hx _. destruct (decide (call ∈ calls w)) as [Hin|Hnot].
      * rewrite (R2 Hin), bool_decide_eq_true_2; [done|]. apply elem_of_app. by right.
      * rewrite (R4 Hx Hnot), (bool_decide_ext (call ∈ c ++ calls w) (call ∈ c)); [done|]. rewrite elem_of_app. tauto.
    + intros [Hx|Hx]%elem_of_app; (split; [|apply not_elem_of_nil]); [by apply R5|].
      destruct N as [_ N]. rewrite Forall_forall in N. by apply N.
  - unfold issued. by rewrite Em.
  - by rewrite Em, Eh.
Qed.

(** A gateway whose client refuses nothing at once tells nothing while an action is
    destroyed. *)
Definition tells_nothing : Prop := forall id g told g', as_ok g -> as_destroy id g = Some (told, g') -> told = [].

Lemma cancel_returns (w : world) : tells_nothing -> as_ok (service w) ->
  exists w', cancel w = Some w' /\ calls w' = [] /\ heard w' = heard w.
Proof.
  intros Ht Hg. unfold cancel.
  enough (forall l (w1 : world), as_ok (service w1) -> exists w', drop_all l w1 = Some w') as Hall.
  { destruct (Hall (requests (mapper w)) (put (with_requests [] (with_renewal None (mapper w))) w) Hg) as [w' E]. exists w'. split; [done|].
    destruct (drop_all_ok _ (put (with_requests [] (with_renewal None (mapper w))) w) w' Hg E) as (_ & _ & Em & Eh).
    split; [unfold calls; by rewrite Em|done]. }
  induction l as [|[c r] l IH]; intros w1 Hg1; cbn [drop_all]; [by exists w1|].
  destruct (action r) as [id|]; cbn [drop_action mbind option_bind]; [|by apply IH].
  destruct (as_destroy_ok id (service w1) Hg1) as (told & g & E & Hg' & _). rewrite E. cbn [mbind option_bind].
  rewrite (Ht _ _ _ _ Hg1 E). cbn [mbind option_bind]. by apply IH.
Qed.

Lemma reached_stable c (w : world) : reached c w -> stable c w.
Proof.
  induction 1 as [o g Hg|c w g Hr IH Hm|c w now i w' Hr IH Hp E].
  - constructor; [|by constructor|split; [done|constructor]].
    constructor; unfold calls, actions; cbn; try done; try apply NoDup_nil_2.
    intros call. split; [lia|]. split; [done|]. split; [done|]. split; [lia|]. by intros ?%not_elem_of_nil.
  - destruct IH as [Hi Hs Hb]. destruct (as_moves_ok _ _ (inv_ok _ _ Hi) Hm) as (Hg & Hn & _). constructor; [by apply inv_service|done|done].
  - assert (i = Cancel \/ i <> Cancel) as [->|Hne] by (destruct i; (by left) || by right); [by eapply cancel_stable|].
    destruct (input_fine c now i w IH Hp Hne) as (w1 & E1 & Hw1). rewrite E in E1. injection E1 as ->.
    destruct i; try done; by rewrite app_nil_r.
Qed.

Lemma mapper_returns c now i (w : world) : reached c w -> permitted i w -> (i = Cancel -> tells_nothing) ->
  exists w', perform now i w = Some w'.
Proof.
  intros Hw%reached_stable Hp Hcancel.
  assert (i = Cancel \/ i <> Cancel) as [->|Hne] by (destruct i; (by left) || by right).
  - destruct (cancel_returns w (Hcancel eq_refl) (inv_ok _ _ (stable_inv _ _ Hw))) as (w' & E & _). by exists w'.
  - destruct (input_fine c now i w Hw Hp Hne) as (w' & E & _). by exists w'.
Qed.

(** *** What is done stays done *)

Definition keeps (w w' : world) : Prop :=
  as_ok (service w) -> as_ok (service w') /\ forall id, as_done id (service w) -> as_done id (service w').

Lemma keeps_trans (w1 w2 w3 : world) : keeps w1 w2 -> keeps w2 w3 -> keeps w1 w3.
Proof. intros H1 H2 Hg. destruct (H1 Hg) as [Hg2 K1]. destruct (H2 Hg2) as [Hg3 K2]. split; [done|]. intros id Hd. by apply K2, K1. Qed.

Lemma drop_action_keeps a (w w' : world) : drop_action a w = Some w' -> keeps w w'.
Proof.
  destruct a as [id|]; cbn; [|by intros [= <-] Hg]. intros E Hg.
  destruct (as_destroy_ok id (service w) Hg) as (told & g & Eg & Hg' & _ & Hk & _). rewrite Eg in E. cbn in E.
  destruct told; [|done]. injection E as <-. by split.
Qed.

Lemma internal_finish_keeps call (w w' : world) : internal_finish call w = Some w' -> keeps w w'.
Proof.
  unfold internal_finish. destruct (lookup _ _) as [r|]; [|by intros [= <-] Hg]. intros E. exact (drop_action_keeps _ _ _ E).
Qed.

Lemma finish_with_keeps call e (w w' : world) : finish_with call e w = Some w' -> keeps w w'.
Proof.
  unfold finish_with. destruct (internal_finish call w) as [w1|] eqn:E; [|done]. intros [= <-]. exact (internal_finish_keeps _ _ _ E).
Qed.

Lemma internal_issue_keeps call (w w' : world) : internal_issue call w = Some w' -> keeps w w'.
Proof.
  intros E Hg. unfold internal_issue in E. destruct (lookup call _) as [r|]; [|done]. cbn [mbind option_bind] in E.
  destruct (request_action r (service w)) as [name args]. revert E.
  set (k := if negb (as_hasService WanIpConnection (service w)) then WanPppConnection else WanIpConnection).
  destruct (as_invoke_ok k name args (service w) Hg) as (ans & g1 & -> & Hg1 & _ & Hk1 & _). cbn [mbind option_bind].
  destruct (drop_action _ _) as [w1|] eqn:E1; [|done]. cbn [mbind option_bind]. intros E.
  destruct (drop_action_keeps _ _ _ E1 Hg1) as [Hg2 Hk2].
  assert (as_ok (service w1) /\ forall id, as_done id (service w) -> as_done id (service w1)) as [Hg3 Hk3].
  { split; [done|]. intros id Hd. apply Hk2. cbn. by apply Hk1. }
  destruct ans; [injection E as <-; by split|]. destruct (internal_finish_keeps _ _ _ E Hg3) as [? Hk4].
  split; [done|]. intros id Hd. by apply Hk4, Hk3.
Qed.

Lemma answer_keeps now i (w w' : world) : answered i <> None -> perform now i w = Some w' -> keeps w w'.
Proof.
  intros Hi E. destruct i; try done; cbn [perform] in E.
  - unfold EventActionResponse in E. destruct (owner id w) as [[call r]|]; [|injection E as <-; by intros Hg].
    destruct (kind r); try exact (finish_with_keeps _ _ _ _ E).
    destruct (_ <=? _); [exact (finish_with_keeps _ _ _ _ E)|exact (internal_issue_keeps _ _ _ E)].
  - unfold EventActionFault in E. destruct (owner id w) as [[call r]|]; [|injection E as <-; by intros Hg].
    destruct (adding r && _ && _ && _ && _).
    { intros Hg. destruct (as_set_ok true (service w) Hg) as (Hg1 & _ & Hk1). destruct (internal_issue_keeps _ _ _ E Hg1) as [Hg2 Hk2].
      split; [done|]. intros j Hd. by apply Hk2, Hk1. }
    destruct (_ && _ && _); [exact (internal_issue_keeps _ _ _ E)|]. destruct (_ && _ && _ && _); [exact (internal_issue_keeps _ _ _ E)|].
    destruct (_ && _); [exact (finish_with_keeps _ _ _ _ E)|]. destruct (_ && _); exact (finish_with_keeps _ _ _ _ E).
  - unfold EventActionError in E. destruct (owner id w) as [[call r]|]; [|injection E as <-; by intros Hg]. exact (finish_with_keeps _ _ _ _ E).
Qed.

(** ** What a mapper keeps to *)

(** C7. Every call of the application is answered once. Whatever a gateway answers,
    in whatever order, and however calls, timeouts, cancellations and a shutdown fall
    between its answers: a call that is pending has not been reported and has exactly
    one action at the gateway, which no other call has; a call that is not pending
    any more was reported exactly once, unless it was pending when the mapper was
    cancelled, which leaves it unreported for good; and the mappings that are held
    have different keys. *)
Theorem mapper_reports_once c (w : world) : reached c w ->
  (forall call, (reports call w <= 1)%nat /\ (call ∈ calls w -> reports call w = 0%nat)) /\
  (forall call, 0 <= call < next_call (mapper w) ->
     call ∈ calls w \/ reports call w = (if bool_decide (call ∈ c) then 0 else 1)%nat) /\
  (forall call, call ∈ c -> call ∉ calls w) /\
  NoDup (calls w) /\ NoDup (actions w) /\ Forall (fun x => is_Some (action x.2)) (requests (mapper w)) /\
  NoDup (map key (held (mapper w))).
Proof.
  intros [[O C N A K Y R] Hs Hb]%reached_stable. split; [intros call; destruct (R call) as (? & ? & _); by split|].
  split; [|split; [|done]].
  - intros call Hx. destruct (decide (call ∈ calls w)) as [|Hn]; [by left|right]. by apply R.
  - intros call Hin. by apply R.
Qed.

(** C8. Nothing is asked for ever. Every operation returns in every reachable state -
    [cancel] on condition that the gateway tells nothing while an action is destroyed,
    as it does when its client refuses a request at once; it drops every call. An
    answer for an action nobody waits for changes nothing; any other ends its call
    with one report, or lets it ask again - without a lease, without
    AddAnyPortMapping, for the next port, for the next entry - which uses up some of
    the patience the request began with. A gateway answers an action when it is done
    with it ([permitted]). *)
Theorem mapper_answers c now i (w : world) : reached c w -> permitted i w -> (i = Cancel -> tells_nothing) ->
  exists w', perform now i w = Some w' /\
    (i = Cancel -> calls w' = [] /\ heard w' = heard w) /\
    forall id, answered i = Some id ->
      match owner id w with
      | None => w' = w
      | Some (call, r) =>
          (exists e, heard w' = heard w ++ [(call, e)] /\ call ∉ calls w') \/
          (exists r', heard w' = heard w /\ lookup call (requests (mapper w')) = Some r' /\ action r' <> Some id /\
             (patience (options (mapper w)) r' < patience (options (mapper w)) r)%nat)
      end.
Proof.
  intros Hw%reached_stable Hp Hcancel.
  assert (i = Cancel \/ i <> Cancel) as [->|Hne] by (destruct i; (by left) || by right).
  { destruct (cancel_returns w (Hcancel eq_refl) (inv_ok _ _ (stable_inv _ _ Hw))) as (w' & E & Hend). by exists w'. }
  destruct (input_fine c now i w Hw Hp Hne) as (w' & E & Hw'). exists w'. split; [exact E|]. split; [done|].
  intros id Hid. unfold permitted in Hp. rewrite Hid in Hp. destruct (answer_spec c now i id w Hw Hid Hp) as (w1 & E1 & _ & Ho).
  rewrite E in E1. injection E1 as <-. unfold answer_outcome in Ho. destruct (owner id w) as [[call r]|] eqn:Eo; [|done].
  destruct (owner_spec id w call r c (stable_inv _ _ Hw) Eo) as [Hl Ha].
  destruct Ho as [(e & Eh & Er)|(new & r' & Hnew & Eh & _ & Hpat & Er)]; [left|right].
  - exists e. split; [done|]. unfold calls. rewrite Er. by intros [_ ?]%drop_request_calls.
  - exists (with_action (Some new) r'). split; [done|]. rewrite Er. split; [by eapply lookup_set|]. split; [|done].
    intros [= ->]. pose proof (inv_known _ _ (stable_inv _ _ Hw)) as Hk. rewrite Forall_forall in Hk.
    assert (id ∈ actions w) as Hin by (apply actions_of_elem; exists call, r; by split; [apply lookup_in|]). specialize (Hk id Hin). cbn in Hk. lia.
Qed.

(** C9. What is held is what the application was told: as long as nobody else was
    given a port of the mapper's, its list of mappings is exactly those reported as
    added or renewed and not reported as removed since, each as it was reported last;
    and in any case every mapping it holds was reported. *)
Theorem held_matches_reports c (w : world) : reached c w ->
  (unopposed (heard w) -> held (mapper w) = ledger (heard w) []) /\ Forall (fun m => granted m (heard w)) (held (mapper w)).
Proof. intros [_ _ Hb]%reached_stable. exact Hb. Qed.

Lemma owner_set_renewal now m : renewAutomatically (options m) = true -> shutting_down m = false -> forall x when,
  renewal_delay (options m) x = Some when -> exists d, renewal (internal_scheduleRenewal now x m) = Some d /\
    d <= now + Timer.milliseconds when /\ forall d0, renewal m = Some d0 -> d <= d0.
Proof.
  intros Ha Hs x when Hd. unfold internal_scheduleRenewal. rewrite Ha, Hs, Hd. cbn [negb orb].
  destruct (renewal m) as [d0|] eqn:Er; [|eexists; split; [reflexivity|]; by split; [lia|]].
  destruct (Z.leb_spec d0 (now + Timer.milliseconds when)).
  - exists d0. split; [done|]. split; [done|]. intros d [= ->]. lia.
  - eexists. split; [reflexivity|]. split; [lia|]. intros d [= ->]. lia.
Qed.

Lemma renew_all_spec c due : forall w : world, stable c w -> exists w', renew_all due w = Some w' /\
  next_call (mapper w') = next_call (mapper w) + zlen due /\
  (forall x, x ∈ requests (mapper w) -> x ∈ requests (mapper w')) /\ (forall x, x ∈ heard w -> x ∈ heard w') /\
  forall k m, due !! k = Some m -> let call := next_call (mapper w) + Z.of_nat k in
    (exists id, (call, with_action (Some id) (with_mapping m (new_Request Renew))) ∈ requests (mapper w')) \/
    (call, EventMapperError Error.NoService DeviceError.Unknown 0) ∈ heard w'.
Proof.
  induction due as [|m due IH]; intros w Hw; cbn [renew_all].
  - exists w. split; [done|]. split; [change (zlen (@nil Mapping)) with 0; lia|]. done.
  - destruct Hw as [Hi Hs Hb].
    destruct (start_spec c (with_mapping m (new_Request Renew)) w Hi Hs eq_refl) as (w1 & E1 & Hi1 & Hs1 & Eh & _ & _ & _ & En & Hcase).
    rewrite E1. cbn [mbind option_bind].
    assert (stable c w1) as Hw1.
    { constructor; [done|done|]. rewrite Eh. destruct Hcase as [(id & _ & ->)|[_ ->]]; [done|by apply books_neutral]. }
    destruct (IH w1 Hw1) as (w2 & E2 & En2 & Hr2 & Hh2 & Hk2). exists w2. split; [exact E2|].
    assert (forall x, x ∈ requests (mapper w) -> x ∈ requests (mapper w1)) as Hr1 by (destruct Hcase as [(id & -> & _)|[-> _]]; [|done]; intros; apply elem_of_app; by left).
    assert (forall x, x ∈ heard w -> x ∈ heard w1) as Hh1 by (destruct Hcase as [(id & _ & ->)|[_ ->]]; [done|]; intros; apply elem_of_app; by left).
    split; [rewrite En2, En; unfold zlen; cbn; lia|]. split; [by auto|]. split; [by auto|].
    intros [|k] x Hx; cbn in Hx; cbv zeta.
    + injection Hx as ->. change (Z.of_nat 0) with 0. rewrite Z.add_0_r. destruct Hcase as [(id & Er & _)|[_ Eh1]].
      * left. exists id. apply Hr2. rewrite Er. apply elem_of_app. right. by constructor.
      * right. apply Hh2. rewrite Eh1. apply elem_of_app. right. by constructor.
    + specialize (Hk2 k x Hx). rewrite En in Hk2. cbv zeta in Hk2.
      replace (next_call (mapper w) + Z.of_nat (S k)) with (next_call (mapper w) + 1 + Z.of_nat k) by lia. exact Hk2.
Qed.

(** C10. Leased mappings are renewed in time. Take a mapper that renews
    automatically and is not shutting down. When a mapping with a lease of less than
    2^43 seconds is granted to it, the mapping is held and the timer is set, no later
    than the lease ends and no later than it was set already; and when the timer fires
    every mapping that is held is asked for again as it is, by a call of its own, or
    is reported with [NoService] when the gateway has no connection service any more.
    All of them, and not the one that is due: there is no scan for the due entry,
    which the comments in portmapper.h and before [internal_scheduleRenewal] tell of. *)
Theorem renewal_in_time c now (w : world) :
  reached c w -> renewAutomatically (options (mapper w)) = true -> shutting_down (mapper w) = false ->
  (forall id result call r w', owner id w = Some (call, r) -> adding r = true -> as_done id (service w) ->
     0 < lease (mapping r) < 2 ^ 43 -> perform now (Response id result) w = Some w' ->
     let m := granted_mapping r result in
     m ∈ held (mapper w') /\ lease m = lease (mapping r) /\
     exists d, renewal (mapper w') = Some d /\ d <= now + Timer.milliseconds (1000 * lease m) /\
       forall d0, renewal (mapper w) = Some d0 -> d <= d0) /\
  (exists w', perform now Timeout w = Some w' /\ forall k m, held (mapper w) !! k = Some m ->
     let call := next_call (mapper w) + Z.of_nat k in
     (exists id, (call, with_action (Some id) (with_mapping m (new_Request Renew))) ∈ requests (mapper w')) \/
     (call, EventMapperError Error.NoService DeviceError.Unknown 0) ∈ heard w').
Proof.
  intros Hw%reached_stable Ha Hs. split.
  - intros id result call r w' Ho Hk Hd Hlease E m.
    assert (lease m = lease (mapping r)) as Hm.
    { unfold m, granted_mapping. destruct (result_find _ _); [|done]. by destruct (negb _ && _). }
    destruct (owner_spec id w call r c (stable_inv _ _ Hw) Ho) as [Hl Har].
    set (m1 := internal_scheduleRenewal now m (with_held (hold m (held (mapper w))) (mapper w))).
    assert (exists e, finish_with call e (put m1 w) = Some w' /\ (e = EventMappingAdded m \/ e = EventMappingRenewed m)) as (e & Ef & He).
    { cbn [perform] in E. unfold EventActionResponse in E. rewrite Ho in E. fold m in E. unfold adding in Hk.
      destruct (kind r) eqn:Ekind; try done; eexists; (split; [exact E|]); [left|left|right];
        reflexivity. }
    assert (requests m1 = requests (mapper w) /\ next_call m1 = next_call (mapper w) /\ held m1 = hold m (held (mapper w))) as (E1 & E2 & E3)
      by (unfold m1, internal_scheduleRenewal; repeat case_match; done).
    pose proof (inv_keys _ _ (stable_inv _ _ Hw)) as Hkeys. pose proof (stable_books _ _ Hw) as Hb.
    destruct (end_spec c w m1 call r e) as (w1 & Ef' & _ & (_ & _ & Eh & Er & _) & _);
      [done|done|intros i Hi; congruence|done|done|rewrite E3; by apply hold_keys|rewrite E3; by apply books_hold|].
    rewrite Ef in Ef'. injection Ef' as <-. rewrite Eh, Er, E3. split; [|split; [done|]].
    + clear. induction (held (mapper w)) as [|y l IH]; cbn; [by constructor|]. case_bool_decide; by constructor.
    + assert (renewal_delay (options (mapper w)) m = Some (lease_delay (options (mapper w)) (lease m))) as Hdelay.
      { unfold renewal_delay. rewrite (proj2 (Z.eqb_neq (lease m) 0)) by lia. reflexivity. }
      destruct (owner_set_renewal now (with_held (hold m (held (mapper w))) (mapper w)) Ha Hs m _ Hdelay) as (d & Ed & Hdl & Hd0).
      exists d. split; [exact Ed|]. split; [|exact Hd0]. pose proof (lease_delay_bounds (options (mapper w)) (lease m) ltac:(lia)). unfold Timer.milliseconds in *. lia.
  - cbn [perform]. unfold EventTimeout. cbn [mapper put with_renewal shutting_down]. rewrite Hs.
    destruct (renew_all_spec c (held (mapper w)) (put (with_renewal None (mapper w)) w)) as (w' & E & _ & _ & _ & Hk).
    { destruct Hw as [Hi Hss Hb]. constructor; [by apply inv_mapper; [| | |apply Hi]|done|done]. }
    exists w'. split; [exact E|exact Hk].
Qed.
End port_mapper.
