(* ===== verification/GatewayService.v ===== *)
(** * GatewayService: the gateway under the port mapper

    [Gateway.v] as the [ActionService] of [PortMapper.v], and the two together: an
    application that calls its mapper, a gateway that is found, answers and fails.
    The gateway calls the mapper from inside its step; here what it said is given to
    the mapper when the step is over. An answer is the last thing that a step of the
    gateway says of an action, and on an error the mapper only destroys the action
    that it was told of, which waits no longer, so that nothing the step still does
    depends on it. An action that is refused before [invoke] returns is told to a
    mapper that does not have it yet, which ignores it. *)

From stdpp Require Import gmap.
From S2P Require Import Prelude Strings Inet Url UpnpSoap UpnpDescription Gateway.
From S2P Require PortMapper.

Section service.
Variable inet_pton : Inet.Version -> bytes -> option bytes.
Variable refused : Request -> bool.

(** Nothing is done while the gateway is not done. *)
Definition later (_ : Event) (w : World unit) : option (World unit) := Some w.

Lemma later_well_behaved : well_behaved later.
Proof.
  intros e w Hw _. exists w. split; [done|]. split; [done|]. split; [|done].
  apply (calm_more []); [apply calm_refl|apply list_subseteq_nil].
Qed.

Definition ask_gateway {A} (f : Gateway -> A) (d : A) (w : World unit) : A := match gateway w with Some g => f g | None => d end.

(* @src src/include/samurai/io/net/upnp/gateway.h:288-288 Samurai::IO::Net::UPnP::Gateway::setPermanentLeasesOnly *)
Definition set_permanent (b : bool) (w : World unit) : World unit :=
  match gateway w with
  | Some g =>
      let f := facts g in
      put (with_facts (mkFacts (description_url f) (friendly_name f) (usn f) (device_version f) b (local_address f) (expires f)
                         (description f)) g) w
  | None => w
  end.

(** The events between two worlds, the second after the first. *)
Definition since (w w' : World unit) : list Event := drop (length (log w)) (log w').

Definition service_invoke (k : ServiceKind) (name : bytes) (args : list Argument) (w : World unit) : option (option (Z * bool) * World unit) :=
  match invoke refused later k name args w with
  | None => None
  | Some (r, w') => Some (match r with Some id => Some (id, negb (bool_decide (omap concerns (since w w') = []))) | None => None end, w')
  end.

Definition service_destroy (id : Z) (w : World unit) : option (list Z * World unit) :=
  if bool_decide (is_Some (store w !! id)) then w' ← destroy_action refused later id w; Some (omap concerns (since w w'), w')
  else Some ([], w).

(** What a gateway does when something reaches it. *)
Definition service_moves (w w' : World unit) : Prop :=
  exists i, (forall id, i <> Destroy id) /\ perform inet_pton refused later i w = Some w'.

#[export] Program Instance gateway_service : PortMapper.ActionService (World unit) := {
  as_ok := good;
  as_next := next_id;
  as_done id w := settled w id;
  as_moves := service_moves;
  as_hasService k := ask_gateway (hasService k) false;
  as_supportsIgd2 := ask_gateway (fun g => 2 <=? device_version (facts g)) false;
  as_getLocalAddress := ask_gateway getLocalAddress None;
  as_getPermanentLeasesOnly := ask_gateway (fun g => permanent_leases_only (facts g)) false;
  as_setPermanentLeasesOnly := set_permanent;
  as_invoke := service_invoke;
  as_destroy := service_destroy
}.
Next Obligation.
  intros w w' Hw (i & Hi & E). destruct (perform_fine inet_pton refused later later_well_behaved i w Hw) as (w1 & E1 & Hw1 & Hc).
  rewrite E in E1. injection E1 as <-. split; [done|]. split; [apply Hc|]. intros id Hs. by apply (calm_settled _ _ _ Hc).
Qed.
Next Obligation.
  intros b w [g [Hg Hm]]. unfold set_permanent. rewrite (inv_gateway _ _ Hg). set (f := mkFacts _ _ _ _ _ _ _ _).
  destruct (inv_put w g (with_facts f g) Hg) as [Hg1 Hc1];
    [done|done|done|by left|by apply (inv_inflight _ _ Hg)|by apply (inv_early _ _ Hg)|by apply (inv_failed _ _ Hg)|].
  split; [by exists (with_facts f g)|]. split; [done|]. intros id Hs. by apply (calm_settled _ _ _ Hc1).
Qed.
Next Obligation.
  intros k name args w Hw. unfold service_invoke.
  destruct (invoke_fine refused later later_well_behaved k name args w Hw) as (r & w' & -> & Hw' & Hc & Hr). cbn [mbind option_bind].
  eexists _, w'. split; [reflexivity|]. split; [done|]. split; [apply Hc|]. split; [intros id Hs; by apply (calm_settled _ _ _ Hc)|].
  destruct Hw as [g [Hg _]]. specialize (Hr g (inv_gateway _ _ Hg)). unfold ask_gateway. rewrite (inv_gateway _ _ Hg).
  destruct r as [id|]; cbn; [|done]. destruct Hr as (Hk & -> & Hn). split; [done|lia].
Qed.
Next Obligation.
  intros id w Hw. unfold service_destroy. case_bool_decide as Ha.
  - destruct (destroy_fine refused later later_well_behaved id w Hw Ha) as (w' & E & Hw' & Hc & _). rewrite E. cbn [mbind option_bind].
    eexists _, w'. split; [reflexivity|]. split; [done|]. split; [apply Hc|]. split; [intros i Hs; by apply (calm_settled _ _ _ Hc)|].
    intros Hs. unfold since. rewrite (destroy_settled refused later id w w' Hw Hs E), drop_all. done.
  - exists [], w. split; [done|]. split; [done|]. split; [lia|]. by split.
Qed.

(** A client that refuses nothing at once lets an action be destroyed in silence:
    the next one that is sent is not told before the destructor returns. *)
Lemma service_tells_nothing : (forall r, refused r = false) -> PortMapper.tells_nothing.
Proof.
  intros Hr id w told w' [g [Hg Hm]] E. cbn in E. unfold service_destroy in E. case_bool_decide as Ha; [|by injection E as <- _].
  enough (forall w1, destroy_action refused later id w = Some w1 -> log w1 = log w) as Hlog.
  { destruct (destroy_action refused later id w) as [w1|] eqn:E1; [|done]. injection E as <- _. unfold since.
    by rewrite (Hlog w1 eq_refl), drop_all. }
  intros w1 E1. unfold destroy_action in E1. destruct (store w !! id) as [a|]; [|done]. cbn [mbind option_bind] in E1.
  assert (forall w2, (if a_gateway a then internal_cancelAction refused later id w else Some w) = Some w2 -> log w2 = log w) as Hc.
  { destruct (a_gateway a); [|by intros w2 [= <-]]. intros w2. rewrite (internal_cancelAction_unwait refused later id w g (inv_gateway _ _ Hg)).
    case_bool_decide as Hi; [|by intros [= <-]]. pose proof (inv_inflight _ _ Hg) as Hst. rewrite Hi in Hst. specialize (Hst ltac:(done)).
    unfold pump, put. cbn [gateway mbind option_bind pending with_http with_queue].
    destruct (filter (fun x => x <> id) (pending g)) as [|next rest] eqn:Ef; cbn [length internal_pump gateway mbind option_bind state inflight pending with_http with_queue];
      rewrite Hst; cbn [bool_decide negb orb]; rewrite ?bool_decide_eq_false_2 by (intros Hx; by apply Hx); [by intros [= <-]|].
    assert (next ∈ waiting w) as Hin.
    { rewrite (waiting_of w g (inv_gateway _ _ Hg)), Hi. apply elem_of_cons. right.
      assert (next ∈ filter (fun x => x <> id) (pending g)) as [_ Hn]%list_elem_of_filter; [rewrite Ef; by constructor|done]. }
    destruct (inv_known _ _ Hg next Hin) as (_ & b & Hb & [sv Hsv]).
    unfold internal_sendAction, put. cbn [gateway store mbind option_bind facts with_http with_queue]. rewrite Hb. cbn [mbind option_bind].
    rewrite Hsv, Hr. cbn [negb]. by intros [= <-]. }
  destruct (if a_gateway a then _ else _) as [w2|]; [|done]. cbn [mbind option_bind] in E1. destruct (store w2 !! id); [|done].
  injection E1 as <-. exact (Hc w2 eq_refl).
Qed.

(** ** The two together *)

Variable inet_ntop : Inet.Version -> bytes -> option bytes.
Local Abbreviation world := (PortMapper.World (World unit)).

(** What the gateway says is said to the mapper. *)
Definition hear (now : Z) (e : Event) (w : world) : option world :=
  match e with
  | EventActionResponse id result => PortMapper.EventActionResponse inet_pton inet_ntop now id result w
  | EventActionFault id error code _ => PortMapper.EventActionFault inet_ntop id error code w
  | EventActionError id error => PortMapper.EventActionError id error w
  | _ => Some w
  end.
Fixpoint hear_all (now : Z) (es : list Event) (w : world) : option world :=
  match es with [] => Some w | e :: es => w ← hear now e w; hear_all now es w end.

(** Something reaches the gateway, or the mapper. *)
Inductive Step := ToGateway (i : Input) | ToMapper (i : PortMapper.Input).
Definition take_step (now : Z) (s : Step) (w : world) : option world :=
  match s with
  | ToGateway i =>
      g ← perform inet_pton refused later i (PortMapper.service w);
      hear_all now (since (PortMapper.service w) g) (PortMapper.put_service g w)
  | ToMapper i => PortMapper.perform inet_pton inet_ntop now i w
  end.
Fixpoint take_steps (steps : list (Z * Step)) (w : world) : option world :=
  match steps with [] => Some w | (now, s) :: steps => w ← take_step now s w; take_steps steps w end.

(** The actions are the mapper's, and answers come from the gateway. *)
Definition regular (s : Step) : Prop :=
  match s with
  | ToGateway i => forall id, i <> Destroy id
  | ToMapper i => PortMapper.answered i = None
  end.

(** No step cancels the mapper. *)
Definition uncancelled (steps : list (Z * Step)) : Prop := Forall (fun s => s.2 <> ToMapper PortMapper.Cancel) steps.

(** The calls that were pending when the mapper was cancelled. *)
Definition drops (s : Step) (w : world) : list Z := match s with ToMapper i => PortMapper.dropped i w | ToGateway _ => [] end.
Fixpoint forgotten (steps : list (Z * Step)) (w : world) : list Z :=
  match steps with
  | [] => []
  | (now, s) :: steps => drops s w ++ match take_step now s w with Some w' => forgotten steps w' | None => [] end
  end.

Lemma uncancelled_forgets_none steps : uncancelled steps -> forall w, forgotten steps w = [].
Proof.
  induction 1 as [|[now s] steps Hs _ IH]; intros w; cbn [forgotten]; [done|].
  assert (drops s w = []) as -> by (destruct s as [i|i]; [done|]; cbn in Hs |- *; by destruct i). destruct (take_step now s w); [apply IH|done].
Qed.

Local Abbreviation reached := (PortMapper.reached inet_pton inet_ntop).

Lemma reached_ok c (w : world) : reached c w -> good (PortMapper.service w).
Proof. intros Hw. apply PortMapper.reached_stable in Hw. apply Hw. Qed.

Lemma hear_reached now e c (w : world) : reached c w -> (forall id, concerns e = Some id -> settled (PortMapper.service w) id) ->
  exists w', hear now e w = Some w' /\ reached c w' /\ forall id, settled (PortMapper.service w) id -> settled (PortMapper.service w') id.
Proof.
  intros Hw Hs.
  assert (forall i id, PortMapper.answered i = Some id -> concerns e = Some id -> exists w',
    PortMapper.perform inet_pton inet_ntop now i w = Some w' /\ reached c w' /\
    forall j, settled (PortMapper.service w) j -> settled (PortMapper.service w') j) as Hanswer.
  { intros i id Hi He. assert (PortMapper.permitted i w) as Hp by (unfold PortMapper.permitted; rewrite Hi; by apply Hs).
    destruct (PortMapper.input_fine inet_pton inet_ntop c now i w) as (w' & E & _);
      [by eapply PortMapper.reached_stable|done|by destruct i|].
    exists w'. split; [done|]. split.
    - pose proof (PortMapper.reached_input inet_pton inet_ntop c w now i w' Hw Hp E) as H. destruct i; try done; by rewrite app_nil_r in H.
    - destruct (PortMapper.answer_keeps inet_pton inet_ntop now i w w' ltac:(by rewrite Hi) E (reached_ok _ _ Hw)) as [_ Hk]. exact Hk. }
  destruct e as [|err|r|id result|id err code d|id err]; try by exists w.
  - exact (Hanswer (PortMapper.Response id result) id eq_refl eq_refl).
  - exact (Hanswer (PortMapper.Fault id err code) id eq_refl eq_refl).
  - exact (Hanswer (PortMapper.Failure id err) id eq_refl eq_refl).
Qed.

Lemma hear_all_reached now es c : forall w : world, reached c w ->
  Forall (fun e => forall id, concerns e = Some id -> settled (PortMapper.service w) id) es ->
  exists w', hear_all now es w = Some w' /\ reached c w'.
Proof.
  induction es as [|e es IH]; intros w Hw Hes; cbn [hear_all]; [by exists w|]. apply Forall_cons in Hes as [He Hes].
  destruct (hear_reached now e c w Hw He) as (w1 & -> & Hw1 & Hk). cbn [mbind option_bind]. apply IH; [done|].
  eapply Forall_impl; [exact Hes|]. intros e' He' id Hid. by apply Hk, He'.
Qed.

(** What a gateway has said of an action is said. *)
Lemma since_settled (g g' : World unit) : good g' -> Forall (fun e => forall id, concerns e = Some id -> settled g' id) (since g g').
Proof.
  intros (h & Hh & _). apply Forall_forall. intros e He id Hid.
  assert (e ∈ log g') as Hin.
  { unfold since in He. rewrite <- (take_drop (length (log g)) (log g')). apply elem_of_app. by right. }
  assert (0 < reports id g')%nat as Hr.
  { unfold reports. destruct (filter _ (log g')) eqn:E; [|cbn; lia].
    assert (e ∈ filter (fun e => concerns e = Some id) (log g')) as Hf by (by apply list_elem_of_filter).
    rewrite E in Hf. by apply not_elem_of_nil in Hf. }
  destruct (inv_reports _ _ Hh id) as (_ & R2 & R3). split; [by apply R3|]. intros Hw. rewrite (R2 Hw) in Hr. lia.
Qed.

(** Cancelling comes back when the client refuses nothing at once. *)
Definition cancellable (s : Step) : Prop := (forall r, refused r = false) \/ s <> ToMapper PortMapper.Cancel.

Lemma step_reached now s c (w : world) : reached c w -> regular s -> cancellable s ->
  exists w', take_step now s w = Some w' /\ reached (c ++ drops s w) w'.
Proof.
  intros Hw Hs Hc. destruct s as [i|i]; cbn [take_step regular drops] in *.
  - pose proof (reached_ok _ _ Hw) as Hg. rewrite app_nil_r.
    destruct (perform_fine inet_pton refused later later_well_behaved i (PortMapper.service w) Hg) as (g & E & Hg' & _). rewrite E.
    cbn [mbind option_bind]. apply hear_all_reached; [|by apply since_settled].
    apply PortMapper.reached_moves; [done|]. by exists i.
  - assert (PortMapper.permitted i w) as Hp by (unfold PortMapper.permitted; by rewrite Hs).
    destruct (PortMapper.mapper_returns inet_pton inet_ntop c now i w) as [w' E]; [done|done| |].
    + intros ->. destruct Hc as [Hc|Hc]; [by apply service_tells_nothing|done].
    + exists w'. split; [done|]. by apply (PortMapper.reached_input inet_pton inet_ntop c w now i w').
Qed.

Lemma steps_reached steps : Forall (fun s => regular s.2 /\ cancellable s.2) steps -> forall c (w : world), reached c w ->
  exists w', take_steps steps w = Some w' /\ reached (c ++ forgotten steps w) w'.
Proof.
  induction 1 as [|[now s] steps [Hs Hc] _ IH]; intros c w Hw; cbn [take_steps forgotten]; [exists w; by rewrite app_nil_r|].
  destruct (step_reached now s c w Hw Hs Hc) as (w1 & -> & Hw1). cbn [mbind option_bind]. rewrite app_assoc. by apply IH.
Qed.

(** C5. From the search for a gateway to the last answer: a gateway that begins in
    any way, a mapper on it, and any sequence of what reaches the gateway - replies,
    responses with any bytes, errors, timeouts, a cancellation - and of what the
    application asks of the mapper, at any times; what the mapper does when a step of
    the gateway tells it something is done when that step is over. The application may
    cancel the mapper when the HTTP client refuses no request at once. Nothing
    dangling is followed and every loop ends; at every point each call of the
    application is pending with exactly one action, or was reported exactly once, or
    was pending when the mapper was cancelled and is never reported; and what the
    mapper holds has distinct keys and was reported. *)
Theorem stack_accounts depth b o steps :
  Forall (fun s => regular s.2) steps -> (forall r, refused r = false) \/ uncancelled steps ->
  exists g w, Gateway.begin inet_pton refused (fun _ (_ : World unit) => (tt, [])) depth b (nothing tt) = Some g /\
    let w0 := PortMapper.mkWorld (PortMapper.new_PortMapper o) g [] in take_steps steps w0 = Some w /\
    (forall call, 0 <= call < PortMapper.next_call (PortMapper.mapper w) ->
       call ∈ PortMapper.calls w /\ PortMapper.reports call w = 0%nat \/
       (call ∉ PortMapper.calls w) /\ PortMapper.reports call w = (if bool_decide (call ∈ forgotten steps w0) then 0 else 1)%nat) /\
    (uncancelled steps -> forgotten steps w0 = []) /\
    NoDup (PortMapper.actions w) /\ Forall (fun x => is_Some (PortMapper.action x.2)) (PortMapper.requests (PortMapper.mapper w)) /\
    NoDup (map PortMapper.key (PortMapper.held (PortMapper.mapper w))) /\
    Forall (fun m => PortMapper.granted m (PortMapper.heard w)) (PortMapper.held (PortMapper.mapper w)).
Proof.
  intros Hs Hc. destruct (begin_good inet_pton refused (fun _ (_ : World unit) => (tt, [])) depth b tt ltac:(by intros ? ?)) as (g & Eg & Hg).
  exists g. set (w0 := PortMapper.mkWorld (PortMapper.new_PortMapper o) g []).
  destruct (steps_reached steps) with (c := @nil Z) (w := w0) as (w & E & Hw); [|by apply PortMapper.reached_start|].
  { unfold uncancelled in Hc. rewrite Forall_forall in Hs |- *. intros s Hin. split; [by apply Hs|].
    destruct Hc as [Hc|Hc]; [by left|right]. rewrite Forall_forall in Hc. by apply Hc. }
  exists w. split; [exact Eg|]. split; [exact E|]. apply PortMapper.reached_stable in Hw as [[O C N A K Y R] Hi Hb].
  split; [|split; [intros Hu; by apply uncancelled_forgets_none|split; [done|split; [done|split; [done|apply Hb]]]]].
  intros call Hx. destruct (R call) as (_ & R2 & _ & R4 & _).
  destruct (decide (call ∈ PortMapper.calls w)) as [Hin|Hn]; [left; split; [done|by apply R2]|right; split; [done|by apply R4]].
Qed.
End service.

(** ** A mapping that is made, renewed and given up *)

Definition ok_body : bytes := lit "<Envelope><Body><AddPortMappingResponse/></Body></Envelope>".
Definition busy_body : bytes :=
  lit "<Envelope><Body><Fault><detail><UPnPError><errorCode>725</errorCode></UPnPError></detail></Fault></Body></Envelope>".
Definition wanted : PortMapper.Mapping :=
  PortMapper.mkMapping PortMapper.TCP 0 6881 PortMapper.no_address [] (lit "peer") 0 true.
Definition accepting (_ : Request) : bool := false.
Definition refusing (r : Request) : bool := match r with Post _ _ _ _ => true | _ => false end.

(** A world of a known gateway that is ready, and what happens then. *)
Definition stack (refused : Request -> bool) (steps : list (Z * Step)) : option (PortMapper.World (World unit)) :=
  g ← Gateway.begin no_address refused (fun _ (_ : World unit) => (tt, [])) 0 (Attach sample_info) (nothing tt);
  take_steps no_address refused no_address ((0, ToGateway Timeout) :: steps)
    (PortMapper.mkWorld (PortMapper.new_PortMapper PortMapper.default_Options) g []).

Definition add_steps : list (Z * Step) :=
  [(5, ToMapper (PortMapper.CallAdd wanted)); (7, ToGateway (Response false busy_body None)); (9, ToGateway (Response true ok_body None))].

(** The lease is refused, the mapping made for ever, and renewed in half an hour. *)
Example a_mapping_is_made :
  (fun w => (PortMapper.heard w, PortMapper.renewal (PortMapper.mapper w), PortMapper.calls w)) <$> stack accepting add_steps =
  let m := PortMapper.with_port 6881 wanted in Some ([(0, PortMapper.EventMappingAdded m)], Some (9 + 1800 * 1000000000), []).
Proof. by vm_compute. Qed.

(** One mapping is made; the call for a second is pending when the mapper is
    cancelled. *)
Definition cancel_steps : list (Z * Step) := add_steps ++ [(10, ToMapper (PortMapper.CallAdd wanted)); (11, ToMapper PortMapper.Cancel)].
Lemma stack_accounts_witness :
  exists g w, let w0 := PortMapper.mkWorld (PortMapper.new_PortMapper PortMapper.default_Options) g [] in
    take_steps no_address accepting no_address ((0, ToGateway Timeout) :: cancel_steps) w0 = Some w /\
    forall call, 0 <= call < PortMapper.next_call (PortMapper.mapper w) ->
      call ∈ PortMapper.calls w /\ PortMapper.reports call w = 0%nat \/
      (call ∉ PortMapper.calls w) /\ PortMapper.reports call w =
        if bool_decide (call ∈ forgotten no_address accepting no_address ((0, ToGateway Timeout) :: cancel_steps) w0) then 0%nat else 1%nat.
Proof.
  destruct (stack_accounts no_address accepting no_address 0 (Attach sample_info) PortMapper.default_Options
    ((0, ToGateway Timeout) :: cancel_steps)) as (g & w & Eg & Ew & H & _).
  { repeat constructor; try done; intros id; discriminate. }
  { left. reflexivity. }
  exists g, w. split; [exact Ew|exact H].
Defined.

(** The first call was reported, the second was forgotten. *)
Example a_call_is_forgotten :
  (g ← Gateway.begin no_address accepting (fun _ (_ : World unit) => (tt, [])) 0 (Attach sample_info) (nothing tt);
   let w0 := PortMapper.mkWorld (PortMapper.new_PortMapper PortMapper.default_Options) g [] in
   Some (forgotten no_address accepting no_address ((0, ToGateway Timeout) :: cancel_steps) w0)) = Some [1] /\
  (fun w => (length (PortMapper.heard w), PortMapper.calls w, length (PortMapper.held (PortMapper.mapper w)))) <$> stack accepting cancel_steps =
    Some (1%nat, [], 1%nat).
Proof. by vm_compute. Qed.

(** *** Worlds that are reached *)

#[local] Hint Extern 0 (PortMapper.ActionService (World unit)) => exact (gateway_service no_address accepting) : typeclass_instances.

Lemma stack_reached steps : Forall (fun s => regular s.2) steps -> uncancelled steps ->
  exists w, stack accepting steps = Some w /\ PortMapper.reached no_address no_address [] w.
Proof.
  intros Hs Hu. unfold stack. destruct (begin_good no_address accepting (fun _ (_ : World unit) => (tt, [])) 0 (Attach sample_info) tt ltac:(by intros ? ?)) as (g & -> & Hg).
  cbn [mbind option_bind].
  set (w0 := PortMapper.mkWorld _ _ _).
  destruct (steps_reached no_address accepting no_address ((0, ToGateway Timeout) :: steps)) with (c := @nil Z) (w := w0) as (w & E & Hw);
    [|by apply PortMapper.reached_start|].
  { constructor; [by split; [|left]|]. eapply Forall_impl; [exact Hs|]. intros s Hx. split; [exact Hx|by left]. }
  exists w. split; [exact E|]. rewrite uncancelled_forgets_none in Hw; [exact Hw|by constructor].
Qed.

Lemma add_regular : Forall (fun s => regular s.2) add_steps.
Proof. repeat constructor; done. Qed.
Lemma add_uncancelled : uncancelled add_steps.
Proof. repeat constructor; done. Qed.

Lemma mapper_reports_once_witness :
  exists w, stack accepting add_steps = Some w /\ PortMapper.reports 0 w = 1%nat /\ NoDup (map PortMapper.key (PortMapper.held (PortMapper.mapper w))).
Proof.
  destruct (stack_reached add_steps add_regular add_uncancelled) as (w & E & Hw). exists w. split; [exact E|].
  assert ((fun w => (PortMapper.calls w, PortMapper.next_call (PortMapper.mapper w))) <$> stack accepting add_steps = Some ([], 1)) as Hc by by vm_compute.
  rewrite E in Hc. cbn [fmap option_fmap option_map] in Hc. injection Hc as Hc Hn.
  destruct (PortMapper.mapper_reports_once no_address no_address [] w Hw) as (_ & H & _ & _ & _ & _ & Hk). split; [|exact Hk].
  destruct (H 0) as [Hin|Hr]; [rewrite Hn; split; [apply Z.le_refl|reflexivity]|rewrite Hc in Hin; destruct (not_elem_of_nil _ Hin)|exact Hr].
Defined.

Lemma held_matches_reports_witness :
  exists w, stack accepting add_steps = Some w /\ PortMapper.held (PortMapper.mapper w) = PortMapper.ledger (PortMapper.heard w) [].
Proof.
  destruct (stack_reached add_steps add_regular add_uncancelled) as (w & E & Hw). exists w. split; [exact E|].
  destruct (PortMapper.held_matches_reports no_address no_address [] w Hw) as [H _]. apply H.
  assert (PortMapper.heard <$> stack accepting add_steps = Some [(0, PortMapper.EventMappingAdded (PortMapper.with_port 6881 wanted))]) as Hh by by vm_compute.
  rewrite E in Hh. cbn [fmap option_fmap option_map] in Hh. injection Hh as Hh. rewrite Hh. constructor; [|constructor]. intros e code. discriminate.
Defined.

(** A call that waits, and what its action's error does. *)
Lemma mapper_answers_witness :
  exists w w' : PortMapper.World (World unit), PortMapper.reached no_address no_address [] w /\ PortMapper.calls w = [0] /\
    PortMapper.perform no_address no_address 7 (PortMapper.Failure 0 Error.Network) w = Some w' /\
    ((exists e, PortMapper.heard w' = PortMapper.heard w ++ [(0, e)]) \/ PortMapper.heard w' = PortMapper.heard w).
Proof.
  set (steps := [(5, ToMapper (PortMapper.CallAdd wanted))]).
  destruct (stack_reached steps) as (w & E & Hw); [by repeat constructor|by repeat constructor|].
  destruct (perform_fine no_address accepting later later_well_behaved ClientError (PortMapper.service w) (reached_ok no_address accepting no_address _ _ Hw))
    as (g & Eg & Hg & _).
  assert ((w ← stack accepting steps; g ← perform no_address accepting later ClientError (PortMapper.service w);
    let w' := PortMapper.put_service g w in Some (next_id g, waiting g, PortMapper.calls w', fst <$> PortMapper.owner 0 w')) = Some (1, [], [0], Some 0)) as Hc by by vm_compute.
  rewrite E in Hc. cbn [mbind option_bind] in Hc. rewrite Eg in Hc. cbn [mbind option_bind] in Hc.
  injection Hc as Hn Hwait Hcalls Ho.
  assert (PortMapper.reached no_address no_address [] (PortMapper.put_service g w)) as Hw'.
  { apply PortMapper.reached_moves; [exact Hw|]. by exists ClientError. }
  destruct (PortMapper.mapper_answers no_address no_address [] 7 (PortMapper.Failure 0 Error.Network) _ Hw') as (w' & E' & _ & H).
  { split; [change (0 < next_id g); rewrite Hn; reflexivity|]. change (0 ∉ waiting g). rewrite Hwait. apply not_elem_of_nil. }
  { done. }
  exists (PortMapper.put_service g w), w'. split; [exact Hw'|]. split; [exact Hcalls|]. split; [exact E'|].
  specialize (H 0 eq_refl). destruct (PortMapper.owner 0 _) as [[call r]|]; [|done]. injection Ho as ->.
  destruct H as [(e & He & _)|(r' & He & _)]; [left; by exists e|by right].
Defined.

Lemma renewal_in_time_witness :
  exists w w', stack accepting add_steps = Some w /\ PortMapper.perform no_address no_address 11 PortMapper.Timeout w = Some w' /\
    forall k m, PortMapper.held (PortMapper.mapper w) !! k = Some m ->
      (exists id, (PortMapper.next_call (PortMapper.mapper w) + Z.of_nat k,
         PortMapper.with_action (Some id) (PortMapper.with_mapping m (PortMapper.new_Request PortMapper.Renew))) ∈ PortMapper.requests (PortMapper.mapper w')) \/
      (PortMapper.next_call (PortMapper.mapper w) + Z.of_nat k, PortMapper.EventMapperError Error.NoService DeviceError.Unknown 0) ∈ PortMapper.heard w'.
Proof.
  destruct (stack_reached add_steps add_regular add_uncancelled) as (w & E & Hw).
  assert ((fun w => (PortMapper.renewAutomatically (PortMapper.options (PortMapper.mapper w)), PortMapper.shutting_down (PortMapper.mapper w))) <$>
    stack accepting add_steps = Some (true, false)) as Hc by by vm_compute.
  rewrite E in Hc. cbn [fmap option_fmap option_map] in Hc. injection Hc as Ha Hs.
  destruct (PortMapper.renewal_in_time no_address no_address [] 11 w Hw Ha Hs) as [_ (w' & E' & H)].
  exists w, w'. split; [exact E|]. split; [exact E'|exact H].
Defined.

(** ** What modelling showed *)

(** An action that the client refuses at once - no socket - is reported before the
    mapper has it, and ignored: the call is never answered. *)
Lemma refused_call_never_answered :
  (fun w => (log (PortMapper.service w), waiting (PortMapper.service w), PortMapper.heard w, PortMapper.calls w)) <$>
    stack refusing [(5, ToMapper (PortMapper.CallAdd wanted))] =
  Some ([EventGatewayFound; EventActionError 0 Error.Network], [], [], [0]).
Proof. by vm_compute. Qed.

(** A renewal that fails for want of an answer is reported, but the timer is not set
    again: the mapping is held, and will lapse. *)
Lemma failed_renewal_is_the_last :
  (fun w => (length (PortMapper.held (PortMapper.mapper w)), PortMapper.renewal (PortMapper.mapper w), PortMapper.calls w)) <$>
    stack accepting (add_steps ++ [(10, ToMapper PortMapper.Timeout); (11, ToGateway ClientError)]) = Some (1%nat, None, []).
Proof. by vm_compute. Qed.

(** A mapping that is granted after [shutdown] was called is kept. *)
Lemma shutdown_misses_a_mapping :
  (fun w => (length (PortMapper.held (PortMapper.mapper w)), PortMapper.calls w, waiting (PortMapper.service w))) <$>
    stack accepting [(5, ToMapper (PortMapper.CallAdd wanted)); (6, ToMapper PortMapper.Shutdown); (7, ToGateway (Response true ok_body None))] =
  Some (1%nat, [], []).
Proof. by vm_compute. Qed.
