(* ===== verification/HttpClient.v ===== *)
(** * HttpClient: [src/io/net/http/client.cpp]

    One request per connection, over a socket that is seen from above: what the
    client does to it is recorded in order, and what it answers - whether it could
    be made, how much of a write it took, what reading gave - comes with the event
    that made the client ask. Handlers are called last, so what an application does
    from them are the next inputs - but for the handler that is called while a write
    over TLS fails, where what follows would end a request that was begun in it
    ([broken_tls_reported]). Sockets are numbered as they are made; a socket
    that was let go of has no handler and says nothing more. Messages that only
    explain a status are left out. *)

From S2P Require Import Prelude Strings Inet Url Buffer ByteQueue.
From S2P Require HttpResponse Proxy.

#[local] Existing Instances HttpResponse.Result_eq_dec HttpResponse.Status_eq_dec.

(** ** Data *)

(* @src src/include/samurai/io/net/http/response.h:24-24 Samurai::IO::Net::HTTP::Method *)
Inductive Method := Get | Post | Head.

#[export] Instance Method_eq_dec : EqDecision Method.
Proof. solve_decision. Defined.

(* @src src/src/io/net/http/response.cpp:67-76 Samurai::IO::Net::HTTP::toString *)
Definition method_text (m : Method) : bytes := match m with Get => lit "GET" | Post => lit "POST" | Head => lit "HEAD" end.

(* @src src/src/io/net/http/response.cpp:79-97 Samurai::IO::Net::HTTP::toString *)
Definition status_text (s : HttpResponse.Status) : bytes :=
  match s with
  | HttpResponse.Ok => lit "ok"
  | HttpResponse.InvalidUrl => lit "not a usable URL"
  | HttpResponse.ConnectFailed => lit "could not connect"
  | HttpResponse.ConnectTimeout => lit "connection timed out"
  | HttpResponse.RequestTimeout => lit "no response before the deadline"
  | HttpResponse.Disconnected => lit "the peer closed early"
  | HttpResponse.MalformedResponse => lit "malformed response"
  | HttpResponse.ResponseTooLarge => lit "response too large"
  | HttpResponse.TlsFailed => lit "the TLS handshake failed"
  | HttpResponse.TooManyRedirects => lit "too many redirects"
  | HttpResponse.InsecureRedirect => lit "redirected from https to http"
  | HttpResponse.Aborted => lit "abandoned"
  end.

(* @src src/include/samurai/io/net/http/client.h:93-133 Samurai::IO::Net::HTTP::Client::Options *)
Record Options := mkOptions {
  timeout : Z;
  o_limits : HttpResponse.Limits;
  userAgent : bytes;
  allowUntrustedCertificate : bool;
  maxRedirects : Z;
  proxy : option Proxy.ProxySettings
}.
(* @src src/include/samurai/io/net/http/client.h:96-132 Samurai::IO::Net::HTTP::Client::Options *)
Definition default_Options : Options := mkOptions 10000 HttpResponse.default_Limits [] false 0 None.

(** [socket] is the number of the socket, [deadline] whether the timer is set. *)
(* @src src/include/samurai/io/net/http/client.h:198-232 Samurai::IO::Net::HTTP::Client *)
Record Client := mkClient {
  options : Options;
  socket : option Z;
  deadline : bool;
  outgoing : Buffer;
  incoming : Buffer;
  parser : HttpResponse.ResponseParser;
  local_address : InetAddress;
  busy : bool;
  reported : bool;
  secure : bool;
  handshaking : bool;
  current_method : Method;
  current_url : URL;
  current_extra : HttpResponse.Headers;
  current_body : bytes;
  redirects_followed : Z
}.

(** What the client does to its sockets, and tells its handler. *)
Inductive Output :=
  | Create (id : Z) (host : bytes) (port : Z)
  | SetProxy (id : Z) (p : Proxy.ProxySettings)
  | Connect (id : Z)
  | TLSInitialize (id : Z) (untrusted : bool)
  | TLSsendHandshake (id : Z)
  | Write (id : Z) (data : bytes)
  | ToggleWriteNotifier (id : Z) (toggle : bool)
  | Close (id : Z)
  | EventHttpResponse (r : HttpResponse.Response)
  | EventHttpError (why : HttpResponse.Status).

(** [sockets] is how many there were. *)
Record World := mkWorld { client : Client; sockets : Z; out : list Output }.

(** What a [write] of the client comes to. *)
Inductive WriteOutcome := Wrote (sent : Z) | TlsBroken.

Definition with_client (c : Client) (w : World) : World := mkWorld c (sockets w) (out w).
Definition emit (o : Output) (w : World) : World := mkWorld (client w) (sockets w) (out w ++ [o]).

Definition with_options (o : Options) (c : Client) : Client :=
  mkClient o (socket c) (deadline c) (outgoing c) (incoming c) (parser c) (local_address c) (busy c) (reported c) (secure c)
    (handshaking c) (current_method c) (current_url c) (current_extra c) (current_body c) (redirects_followed c).
Definition with_socket (s : option Z) (d b : bool) (c : Client) : Client :=
  mkClient (options c) s d (outgoing c) (incoming c) (parser c) (local_address c) b (reported c) (secure c)
    (handshaking c) (current_method c) (current_url c) (current_extra c) (current_body c) (redirects_followed c).
Definition with_outgoing (b : Buffer) (c : Client) : Client :=
  mkClient (options c) (socket c) (deadline c) b (incoming c) (parser c) (local_address c) (busy c) (reported c) (secure c)
    (handshaking c) (current_method c) (current_url c) (current_extra c) (current_body c) (redirects_followed c).
Definition with_input (b : Buffer) (p : HttpResponse.ResponseParser) (c : Client) : Client :=
  mkClient (options c) (socket c) (deadline c) (outgoing c) b p (local_address c) (busy c) (reported c) (secure c)
    (handshaking c) (current_method c) (current_url c) (current_extra c) (current_body c) (redirects_followed c).
Definition with_local (a : InetAddress) (c : Client) : Client :=
  mkClient (options c) (socket c) (deadline c) (outgoing c) (incoming c) (parser c) a (busy c) (reported c) (secure c)
    (handshaking c) (current_method c) (current_url c) (current_extra c) (current_body c) (redirects_followed c).
Definition with_reported (r : bool) (c : Client) : Client :=
  mkClient (options c) (socket c) (deadline c) (outgoing c) (incoming c) (parser c) (local_address c) (busy c) r (secure c)
    (handshaking c) (current_method c) (current_url c) (current_extra c) (current_body c) (redirects_followed c).
Definition with_tls (s h : bool) (c : Client) : Client :=
  mkClient (options c) (socket c) (deadline c) (outgoing c) (incoming c) (parser c) (local_address c) (busy c) (reported c) s
    h (current_method c) (current_url c) (current_extra c) (current_body c) (redirects_followed c).
Definition with_request (m : Method) (u : URL) (e : HttpResponse.Headers) (b : bytes) (n : Z) (c : Client) : Client :=
  mkClient (options c) (socket c) (deadline c) (outgoing c) (incoming c) (parser c) (local_address c) (busy c) (reported c) (secure c)
    (handshaking c) m u e b n.

(** What one read of a socket gives. *)
Inductive ReadOutcome := ReadError | EndOfFile | WouldBlock | ReadOk (data : bytes).

Section client.
Variable inet_pton : Inet.Version -> bytes -> option bytes.
Variable alloc : Z -> bool.
(** Whether the socket of this number can be made. *)
Variable create : Z -> bytes -> Z -> bool.

Definition no_address : InetAddress := mkInetAddress Unspecified zero_data [] Unresolved.

(* @src src/src/io/net/http/client.cpp:55-64 Samurai::IO::Net::HTTP::Client::Client *)
Definition new_Client (o : Options) : Client :=
  mkClient o None false (new_Buffer INITBUFSIZE) (new_Buffer INITBUFSIZE) (HttpResponse.new_ResponseParser HttpResponse.default_Limits)
    no_address false false false false Get (Url.parse inet_pton []) [] [] 0.

(* @src src/src/io/net/http/client.cpp:26-50 host_header *)
Definition host_header (u : URL) : bytes :=
  let name := hostname u in
  let out := if existsb (Ascii.eqb ":") name then lit "[" ++ name ++ lit "]" else name in
  let port := getEffectivePort u in
  if negb (port =? 0) && negb (port =? getDefaultPort (scheme u)) then out ++ lit ":" ++ to_string port else out.

Definition set_all (extra headers : HttpResponse.Headers) : HttpResponse.Headers :=
  fold_left (fun h f => HttpResponse.Headers.set f.1 f.2 h) extra headers.

(* @src src/src/io/net/http/client.cpp:185-196 Samurai::IO::Net::HTTP::Client::internal_start *)
Definition request_headers (o : Options) (m : Method) (u : URL) (extra : HttpResponse.Headers) (body : bytes) : HttpResponse.Headers :=
  let headers := HttpResponse.Headers.set (lit "Connection") (lit "close") (HttpResponse.Headers.set (lit "Host") (host_header u) []) in
  let headers := if bool_decide (userAgent o = []) then headers else HttpResponse.Headers.set (lit "User-Agent") (userAgent o) headers in
  let headers := if negb (bool_decide (body = [])) || bool_decide (m = Post)
                 then HttpResponse.Headers.set (lit "Content-Length") (to_string (zlen body)) headers else headers in
  set_all extra headers.

Definition field_line (f : bytes * bytes) : bytes := f.1 ++ lit ": " ++ f.2 ++ crlf.

(* @src src/src/io/net/http/client.cpp:198-211 Samurai::IO::Net::HTTP::Client::internal_start *)
Definition request_head (m : Method) (u : URL) (headers : HttpResponse.Headers) : bytes :=
  method_text m ++ lit " " ++ file u ++ lit " HTTP/1.1" ++ crlf ++ concat (map field_line headers) ++ crlf.

(* @src src/src/io/net/http/client.cpp:75-87 Samurai::IO::Net::HTTP::Client::internal_teardown *)
Definition internal_teardown (w : World) : World :=
  let c := client w in
  let w := match socket c with Some id => emit (Close id) w | None => w end in
  with_client (with_socket None false false c) w.

(* @src src/src/io/net/http/client.cpp:90-95 Samurai::IO::Net::HTTP::Client::getLocalAddress *)
Definition getLocalAddress (c : Client) : option InetAddress :=
  if bool_decide (Inet.version (local_address c) = Unspecified) then None else Some (local_address c).

(* @src src/src/io/net/http/client.cpp:250-258 Samurai::IO::Net::HTTP::Client::internal_fail *)
Definition internal_fail (why : HttpResponse.Status) (w : World) : World :=
  if reported (client w) then w
  else emit (EventHttpError why) (internal_teardown (with_client (with_reported true (client w)) w)).

(* @src src/src/io/net/http/client.cpp:140-238 Samurai::IO::Net::HTTP::Client::internal_start *)
Definition internal_start (w : World) : World :=
  let w := internal_teardown w in
  let c := client w in
  let m := current_method c in
  let u := current_url c in
  let body := current_body c in
  let c := with_input (Buffer.clear (incoming c)) (HttpResponse.new_ResponseParser (o_limits (options c))) c in
  let c := with_tls false false (with_reported false (with_local no_address (with_outgoing (Buffer.clear (outgoing c)) c))) in
  if negb (valid u) || bool_decide (hostname u = []) || (getEffectivePort u =? 0) then internal_fail HttpResponse.InvalidUrl (with_client c w)
  else
    let is_http := iequals (scheme u) (lit "http") in
    let is_https := iequals (scheme u) (lit "https") in
    if negb is_http && negb is_https then internal_fail HttpResponse.InvalidUrl (with_client c w)
    else
      let c := with_tls is_https false c in
      let c := if bool_decide (m = Head) then with_input (incoming c) (HttpResponse.expectNoBody (parser c)) c else c in
      let headers := request_headers (options c) m u (current_extra c) body in
      let out := snd (append alloc (request_head m u headers) (outgoing c)) in
      let out := if bool_decide (body = []) then out else snd (append alloc body out) in
      let c := with_outgoing out c in
      let id := sockets w in
      let w := mkWorld c (id + 1) (HttpClient.out w) in
      if negb (create id (hostname u) (getEffectivePort u)) then internal_fail HttpResponse.ConnectFailed w
      else
        let w := emit (Create id (hostname u) (getEffectivePort u)) (with_client (with_socket (Some id) true true c) w) in
        let w := match proxy (options c) with Some p => emit (SetProxy id p) w | None => w end in
        emit (Connect id) w.

(* @src src/src/io/net/http/client.cpp:122-137 Samurai::IO::Net::HTTP::Client::request *)
Definition request (m : Method) (u : URL) (extra : HttpResponse.Headers) (body : bytes) (w : World) : World :=
  if busy (client w) then internal_fail HttpResponse.Aborted w
  else internal_start (with_client (with_request m (assign inet_pton u) extra body 0 (client w)) w).

(* @src src/src/io/net/http/client.cpp:98-102 Samurai::IO::Net::HTTP::Client::get *)
Definition get (u : URL) : World -> World := request Get u [] [].
(* @src src/src/io/net/http/client.cpp:105-109 Samurai::IO::Net::HTTP::Client::head *)
Definition head (u : URL) : World -> World := request Head u [] [].
(* @src src/src/io/net/http/client.cpp:112-119 Samurai::IO::Net::HTTP::Client::post *)
Definition post (u : URL) (contentType body : bytes) : World -> World :=
  request Post u (HttpResponse.Headers.set (lit "Content-Type") contentType []) body.

(* @src src/src/io/net/http/client.cpp:241-247 Samurai::IO::Net::HTTP::Client::abort *)
Definition abort (w : World) : World := internal_teardown (with_client (with_reported true (client w)) w).

(** Whether the response was a redirect. *)
(* @src src/src/io/net/http/client.cpp:285-343 Samurai::IO::Net::HTTP::Client::internal_follow_redirect *)
Definition internal_follow_redirect (w : World) : bool * World :=
  let c := client w in
  if maxRedirects (options c) =? 0 then (false, w)
  else
    let answer := HttpResponse.response (parser c) in
    let code := HttpResponse.status_code answer in
    if (code <? 300) || (399 <? code) then (false, w)
    else
      match HttpResponse.Headers.get (lit "Location") (HttpResponse.headers answer) with
      | None | Some [] => (false, w)
      | Some location =>
          if maxRedirects (options c) <=? redirects_followed c then (true, internal_fail HttpResponse.TooManyRedirects w)
          else
            let next := resolve inet_pton (current_url c) location in
            if negb (valid next) || bool_decide (hostname next = []) then (true, internal_fail HttpResponse.InvalidUrl w)
            else if iequals (scheme (current_url c)) (lit "https") && negb (iequals (scheme next) (lit "https"))
            then (true, internal_fail HttpResponse.InsecureRedirect w)
            else
              let '(m, extra, body) :=
                if (code =? 303) || (((code =? 301) || (code =? 302)) && bool_decide (current_method c = Post))
                then (Get, snd (HttpResponse.Headers.remove (lit "Content-Type") (current_extra c)), [])
                else (current_method c, current_extra c, current_body c) in
              (true, internal_start (with_client (with_request m (assign inet_pton next) extra body (redirects_followed c + 1) c) w))
      end.

(* @src src/src/io/net/http/client.cpp:261-277 Samurai::IO::Net::HTTP::Client::internal_complete *)
Definition internal_complete (w : World) : World :=
  if reported (client w) then w
  else
    let '(followed, w) := internal_follow_redirect w in
    if (followed : bool) then w
    else
      let answer := HttpResponse.response (parser (client w)) in
      emit (EventHttpResponse answer) (internal_teardown (with_client (with_reported true (client w)) w)).

(** ** Events *)

(** [timed_out] is [SocketError::ConnectionTimeout]. *)
(* @src src/src/io/net/http/client.cpp:500-518 Samurai::IO::Net::HTTP::Client::EventError *)
Definition EventError (timed_out : bool) (w : World) : World :=
  internal_fail (if timed_out then HttpResponse.ConnectTimeout
                 else if handshaking (client w) then HttpResponse.TlsFailed else HttpResponse.ConnectFailed) w.

(** The socket takes [sent] bytes, or fails when that is negative; or TLS breaks, of
    which the socket tells the client before [write] returns its failure. *)
(* @src src/src/io/net/http/client.cpp:406-424 Samurai::IO::Net::HTTP::Client::internal_send *)
Definition internal_send (result : WriteOutcome) (w : World) : World :=
  let c := client w in
  match socket c with
  | None => w
  | Some id =>
      if Buffer.size (outgoing c) =? 0 then w
      else
        match result with
        | TlsBroken => internal_fail HttpResponse.Disconnected (EventError false w)
        | Wrote sent =>
            if sent <? 0 then internal_fail HttpResponse.Disconnected w
            else
              let rest := Buffer.remove sent (outgoing c) in
              emit (ToggleWriteNotifier id (negb (Buffer.size rest =? 0)))
                (with_client (with_outgoing rest c) (emit (Write id (ztake sent (Buffer.live (outgoing c)))) w))
        end
  end.

(** [local] is what the socket says its address is, [tls] whether it could
    initialise TLS. *)
(* @src src/src/io/net/http/client.cpp:346-385 Samurai::IO::Net::HTTP::Client::EventConnected *)
Definition EventConnected (local : option InetAddress) (tls : bool) (sent : WriteOutcome) (w : World) : World :=
  let c := client w in
  let c := match socket c, local with Some _, Some a => with_local a c | _, _ => c end in
  let w := with_client c w in
  if negb (secure c) then internal_send sent w
  else
    match socket c with
    | None => internal_fail HttpResponse.TlsFailed w
    | Some id =>
        let w := emit (TLSInitialize id (allowUntrustedCertificate (options c))) w in
        if negb tls then internal_fail HttpResponse.TlsFailed w
        else emit (TLSsendHandshake id) (with_client (with_tls (secure c) true c) w)
    end.

(* @src src/src/io/net/http/client.cpp:393-397 Samurai::IO::Net::HTTP::Client::EventTLSConnected *)
Definition EventTLSConnected (sent : WriteOutcome) (w : World) : World :=
  internal_send sent (with_client (with_tls (secure (client w)) false (client w)) w).

(* @src src/src/io/net/http/client.cpp:400-403 Samurai::IO::Net::HTTP::Client::EventCanWrite *)
Definition EventCanWrite (sent : WriteOutcome) (w : World) : World := internal_send sent w.

(** A read the environment does not mention would block. *)
(* @src src/src/io/net/http/client.cpp:433-481 Samurai::IO::Net::HTTP::Client::internal_read *)
Fixpoint read_loop (reads : list ReadOutcome) (w : World) : option World :=
  match reads with
  | [] | WouldBlock :: _ | ReadOk [] :: _ => Some w
  | ReadError :: _ => Some (internal_fail HttpResponse.Disconnected w)
  | EndOfFile :: _ =>
      let (r, p) := HttpResponse.finish (parser (client w)) in
      let w := with_client (with_input (incoming (client w)) p (client w)) w in
      Some (if bool_decide (r = HttpResponse.Complete) then internal_complete w else internal_fail (HttpResponse.status p) w)
  | ReadOk data :: reads =>
      '(r, p, q) ← HttpResponse.parse (parser (client w)) (snd (append alloc data (incoming (client w))));
      let w := with_client (with_input q p (client w)) w in
      match r with
      | HttpResponse.Error => Some (internal_fail (HttpResponse.status p) w)
      | HttpResponse.Complete => Some (internal_complete w)
      | HttpResponse.NeedMore => read_loop reads w
      end
  end.

(* @src src/src/io/net/http/client.cpp:433-481 Samurai::IO::Net::HTTP::Client::internal_read *)
Definition internal_read (reads : list ReadOutcome) (w : World) : option World :=
  match socket (client w) with None => Some w | Some _ => read_loop reads w end.

(* @src src/src/io/net/http/client.cpp:427-430 Samurai::IO::Net::HTTP::Client::EventDataAvailable *)
Definition EventDataAvailable (reads : list ReadOutcome) (w : World) : option World := internal_read reads w.

(* @src src/src/io/net/http/client.cpp:484-491 Samurai::IO::Net::HTTP::Client::EventDisconnected *)
Definition EventDisconnected (w : World) : World :=
  let (r, p) := HttpResponse.finish (parser (client w)) in
  let w := with_client (with_input (incoming (client w)) p (client w)) w in
  if bool_decide (r = HttpResponse.Complete) then internal_complete w
  else internal_fail (if bool_decide (HttpResponse.status p = HttpResponse.Ok) then HttpResponse.Disconnected else HttpResponse.status p) w.

(* @src src/src/io/net/http/client.cpp:494-497 Samurai::IO::Net::HTTP::Client::EventTimeout *)
Definition SocketTimeout (w : World) : World := internal_fail HttpResponse.ConnectTimeout w.

(* @src src/src/io/net/http/client.cpp:526-530 Samurai::IO::Net::HTTP::Client::EventTimeout *)
Definition EventTimeout (w : World) : World :=
  internal_fail HttpResponse.RequestTimeout (with_client (with_socket (socket (client w)) false (busy (client w)) (client w)) w).

(** ** What can happen *)

Inductive SocketEvent :=
  | Connected (local : option InetAddress) (tls : bool) (sent : WriteOutcome)
  | TLSConnected (sent : WriteOutcome)
  | CanWrite (sent : WriteOutcome)
  | DataAvailable (reads : list ReadOutcome)
  | Disconnected
  | TimedOut
  | Failed (timed_out : bool).

Inductive Input :=
  | Request (m : Method) (u : URL) (extra : HttpResponse.Headers) (body : bytes)
  | Abort
  | SetOptions (o : Options)
  | FromSocket (id : Z) (e : SocketEvent)
  | Expired.

Definition on_socket (e : SocketEvent) (w : World) : option World :=
  match e with
  | Connected local tls sent => Some (EventConnected local tls sent w)
  | TLSConnected sent => Some (EventTLSConnected sent w)
  | CanWrite sent => Some (EventCanWrite sent w)
  | DataAvailable reads => EventDataAvailable reads w
  | Disconnected => Some (EventDisconnected w)
  | TimedOut => Some (SocketTimeout w)
  | Failed timed_out => Some (EventError timed_out w)
  end.

(** A socket that was let go of, or a timer that was stopped, reaches nobody. *)
Definition perform (i : Input) (w : World) : option World :=
  match i with
  | Request m u extra body => Some (request m u extra body w)
  | Abort => Some (abort w)
  | SetOptions o => Some (with_client (with_options o (client w)) w)
  | FromSocket id e => if bool_decide (socket (client w) = Some id) then on_socket e w else Some w
  | Expired => if deadline (client w) then Some (EventTimeout w) else Some w
  end.

(** *** The blocking form *)

(* @src src/src/io/net/http/client.cpp:536-558 BlockingHandler *)
Record BlockingHandler := mkBlockingHandler { bh_done : bool; bh_status : HttpResponse.Status; bh_response : HttpResponse.Response }.

Definition BlockingHandler_told (b : BlockingHandler) (o : Output) : BlockingHandler :=
  match o with
  | EventHttpResponse answer => mkBlockingHandler true HttpResponse.Ok answer
  | EventHttpError why => mkBlockingHandler true why (bh_response b)
  | _ => b
  end.
Definition heard (w : World) : BlockingHandler :=
  fold_left BlockingHandler_told (out w) (mkBlockingHandler false HttpResponse.Ok HttpResponse.empty_Response).

Fixpoint perform_all (l : list Input) (w : World) : option World :=
  match l with [] => Some w | i :: l => w ← perform i w; perform_all l w end.

(** [slices] is what each turn of the monitor and the timers brings; when there are
    none left the limit has passed. The whole loop is pure: the handler only notes
    what it is told. *)
Fixpoint fetch_loop (slices : list (list Input)) (w : World) : option World :=
  match slices with
  | [] => Some w
  | l :: slices => if bh_done (heard w) then Some w else w ← perform_all l w; fetch_loop slices w
  end.

(* @src src/src/io/net/http/client.cpp:563-604 Samurai::IO::Net::HTTP::fetch *)
Definition fetch (m : Method) (u : URL) (extra : HttpResponse.Headers) (body : bytes) (wait : Z) (slices : list (list Input))
  : option (HttpResponse.Status * option HttpResponse.Response * World) :=
  let o := mkOptions wait HttpResponse.default_Limits [] false 0 None in
  w ← fetch_loop slices (request m u extra body (mkWorld (new_Client o) 0 []));
  let b := heard w in
  Some (if negb (bh_done b) then (HttpResponse.RequestTimeout, None, abort w) else (bh_status b, Some (bh_response b), w)).

(* @src src/src/io/net/http/client.cpp:607-613 Samurai::IO::Net::HTTP::get *)
Definition fetch_get (u : URL) (wait : Z) (slices : list (list Input)) := fetch Get u [] [] wait slices.

(** What the client's last connection was to be sent. *)
Definition request_text (c : Client) : bytes :=
  let m := current_method c in let u := current_url c in
  request_head m u (request_headers (options c) m u (current_extra c) (current_body c)) ++ current_body c.

(** The requests that were begun and those that were abandoned, what every socket
    was made to send with whether that was to be kept secret, and the sockets that
    reported that TLS is established or that there is room to write. *)
Record History := mkHistory { started : Z; abandoned : Z; asked : list (Z * bytes * bool); released : list Z }.

Definition remember (i : Input) (w w' : World) (h : History) : History :=
  mkHistory
    (started h + match i with Request _ _ _ _ => if busy (client w) then 0 else 1 | _ => 0 end)
    (abandoned h + match i with Abort => if busy (client w) then 1 else 0 | _ => 0 end)
    (if sockets w <? sockets w' then (sockets w, request_text (client w'), secure (client w')) :: asked h else asked h)
    (match i with FromSocket id (TLSConnected _) | FromSocket id (CanWrite _) => id :: released h | _ => released h end).

(** Limits are sane. *)
Definition permitted (i : Input) (w : World) (h : History) : Prop :=
  match i with SetOptions o => HttpResponse.limits_ok (o_limits o) | _ => True end.

Inductive reached : History -> World -> Prop :=
  | reached_start o : HttpResponse.limits_ok (o_limits o) -> reached (mkHistory 0 0 [] []) (mkWorld (new_Client o) 0 [])
  | reached_input h w i w' : reached h w -> permitted i w h -> perform i w = Some w' -> reached (remember i w w' h) w'.

(** ** What was done *)

Definition is_report (o : Output) : bool := match o with EventHttpResponse _ | EventHttpError _ => true | _ => false end.
Definition told (l : list Output) : Z := zlen (List.filter is_report l).
Definition data_of (id : Z) (o : Output) : bytes := match o with Write i d => if i =? id then d else [] | _ => [] end.
Definition wrote (id : Z) (l : list Output) : bytes := concat (map (data_of id) l).
(** Neither written nor told. *)
Definition is_quiet (o : Output) : bool := match o with Write _ _ => false | _ => negb (is_report o) end.

Lemma told_app l1 l2 : told (l1 ++ l2) = told l1 + told l2.
Proof. unfold told. by rewrite List.filter_app, zlen_app. Qed.
Lemma wrote_app id l1 l2 : wrote id (l1 ++ l2) = wrote id l1 ++ wrote id l2.
Proof. unfold wrote. by rewrite map_app, concat_app. Qed.
Lemma quiet_told l : forallb is_quiet l = true -> told l = 0.
Proof. unfold told. induction l as [|[] l IH]; cbn; try done; exact IH. Qed.
Lemma quiet_wrote id l : forallb is_quiet l = true -> wrote id l = [].
Proof. unfold wrote. induction l as [|[] l IH]; cbn; try done; exact IH. Qed.

(** *** Ending, and starting again *)

Definition closing (c : Client) : list Output := match socket c with Some id => [Close id] | None => [] end.

Lemma closing_quiet c : forallb is_quiet (closing c) = true.
Proof. unfold closing. by destruct (socket c). Qed.

Lemma teardown_eq w : internal_teardown w = mkWorld (with_socket None false false (client w)) (sockets w) (out w ++ closing (client w)).
Proof. unfold internal_teardown, closing, emit, with_client. destruct (socket (client w)); cbn; [done|by rewrite app_nil_r]. Qed.

Lemma fail_eq why w : reported (client w) = false ->
  internal_fail why w = mkWorld (with_socket None false false (with_reported true (client w))) (sockets w)
    (out w ++ closing (client w) ++ [EventHttpError why]).
Proof. intros Hr. unfold internal_fail. rewrite Hr, teardown_eq. unfold emit. cbn. by rewrite <- app_assoc. Qed.

(** A client that waits for nothing. *)
Definition idle (c : Client) : Prop := socket c = None /\ busy c = false /\ deadline c = false.

(** A client whose request is under way. *)
Record running (c : Client) : Prop := mkRunning {
  run_busy : busy c = true;
  run_deadline : deadline c = true;
  run_reported : reported c = false;
  run_secure : secure c = iequals (scheme (current_url c)) (lit "https")
}.

(** What holds of a client's parts at all times. *)
Record sound (c : Client) : Prop := mkSound {
  sound_out : Buffer.wf (outgoing c);
  sound_in : Buffer.wf (incoming c);
  sound_parser : HttpResponse.inv (parser c);
  sound_limits : HttpResponse.limits_ok (o_limits (options c))
}.

Definition ample : Prop := forall n, n <= max_size -> alloc n = true.

Definition same_request (c c' : Client) : Prop :=
  current_method c' = current_method c /\ current_url c' = current_url c /\ current_extra c' = current_extra c /\
  current_body c' = current_body c /\ redirects_followed c' = redirects_followed c /\ options c' = options c.

(** Nothing but what is read, the address and what waits to be written has changed. *)
Record kept (c c' : Client) : Prop := mkKept {
  kept_request : same_request c c';
  kept_socket : socket c' = socket c;
  kept_busy : busy c' = busy c;
  kept_deadline : deadline c' = deadline c;
  kept_reported : reported c' = reported c;
  kept_secure : secure c' = secure c
}.

Lemma kept_trans c1 c2 c3 : kept c1 c2 -> kept c2 c3 -> kept c1 c3.
Proof.
  intros [(?&?&?&?&?&?) ? ? ? ? ?] [(?&?&?&?&?&?) ? ? ? ? ?].
  constructor; [repeat split|..]; etransitivity; eassumption.
Qed.

Lemma kept_running c c' : kept c c' -> running c -> running c'.
Proof. intros [(_&E&_) ? ? ? ? ?] []. constructor; rewrite ?E; congruence. Qed.

Lemma append_sound data b : Buffer.wf b -> Buffer.wf (snd (append alloc data b)) /\
  (ample -> zlen (Buffer.live b) + zlen data < 2 ^ 62 -> Buffer.live (snd (append alloc data b)) = Buffer.live b ++ data).
Proof.
  intros Hb. destruct (append_all_or_nothing alloc data b Hb) as (ok & b' & -> & Hw & Hl & _ & Hok). cbn. split; [done|].
  intros Ha Hs. rewrite Hl. rewrite Hok; [done| |done]. rewrite Buffer.live_length in Hs by done. lia.
Qed.

(** How a connection is left: with one report, or for the next one, made for a
    request that relates to the one before as [R] says. *)
Inductive left_for (R : Client -> Client -> Prop) (w w' : World) : Prop :=
  | left_ended l r (_ : out w' = out w ++ l ++ [r]) (_ : forallb is_quiet l = true) (_ : is_report r = true)
      (_ : idle (client w')) (_ : sockets w <= sockets w' <= sockets w + 1)
  | left_started l (_ : out w' = out w ++ l) (_ : forallb is_quiet l = true) (_ : socket (client w') = Some (sockets w))
      (_ : sockets w' = sockets w + 1) (_ : running (client w')) (_ : R (client w) (client w'))
      (_ : ample -> zlen (request_text (client w')) < 2 ^ 62 -> Buffer.live (outgoing (client w')) = request_text (client w')).

(** What a call of the client comes to: nothing that shows, a write where it may, or
    that. *)
Inductive did (R : Client -> Client -> Prop) (may : Prop) (w w' : World) : Prop :=
  | did_keep l (_ : out w' = out w ++ l) (_ : forallb is_quiet l = true) (_ : kept (client w) (client w'))
      (_ : outgoing (client w') = outgoing (client w)) (_ : sockets w' = sockets w)
  | did_send id data l1 l2 (_ : may) (_ : out w' = out w ++ l1 ++ Write id data :: l2) (_ : forallb is_quiet (l1 ++ l2) = true)
      (_ : kept (client w) (client w')) (_ : socket (client w) = Some id)
      (_ : Buffer.live (outgoing (client w)) = data ++ Buffer.live (outgoing (client w'))) (_ : sockets w' = sockets w)
  | did_leave (_ : left_for R w w').

Lemma quiet_app l1 l2 : forallb is_quiet l1 = true -> forallb is_quiet l2 = true -> forallb is_quiet (l1 ++ l2) = true.
Proof. intros H1 H2. by rewrite forallb_app, H1. Qed.

Lemma internal_start_spec w : sound (client w) ->
  sound (client (internal_start w)) /\ left_for same_request w (internal_start w).
Proof.
  intros [Ho Hi Hp Hl]. unfold internal_start. rewrite teardown_eq. cbn [client sockets HttpClient.out].
  set (c0 := with_socket None false false (client w)).
  set (c1 := with_tls false false _).
  assert (sound c1 /\ same_request (client w) c1 /\ reported c1 = false /\ socket c1 = None /\ handshaking c1 = false /\ Buffer.live (outgoing c1) = [])
    as (Hs1 & Hq1 & Hr1 & Hn1 & _ & Hlive).
  { destruct (Buffer.clear_live (outgoing (client w)) Ho) as [? ?]. destruct (Buffer.clear_live (incoming (client w)) Hi) as [? _].
    split; [constructor; cbn; try done; by apply HttpResponse.inv_new|]. done. }
  assert (forall why c s l, sound c -> reported c = false -> socket c = None -> sockets w <= s <= sockets w + 1 -> forallb is_quiet l = true ->
    let w' := internal_fail why (mkWorld c s (out w ++ l)) in sound (client w') /\ left_for same_request w w') as Hfail.
  { intros why c s l Hs Hr Hn Hle Hlq. cbv zeta. rewrite fail_eq by done. cbn. unfold closing. cbn. rewrite Hn.
    split; [destruct Hs; by constructor|]. apply (left_ended _ _ _ l (EventHttpError why)); try done. cbn. by rewrite <- app_assoc. }
  pose proof (closing_quiet (client w)) as Hcq.
  destruct (negb (valid _) || _ || _).
  { apply Hfail; try done. cbn; lia. }
  destruct (negb (iequals (scheme (current_url c0)) (lit "http")) && _) eqn:Es.
  { apply Hfail; try done. cbn; lia. }
  set (https := iequals (scheme (current_url c0)) (lit "https")).
  set (c2 := if bool_decide (current_method c0 = Head) then _ else _).
  assert (sound c2 /\ same_request (client w) c2 /\ reported c2 = false /\ socket c2 = None /\ secure c2 = https /\ outgoing c2 = outgoing c1)
    as (Hs2 & Hq2 & Hr2 & Hn2 & Hsec2 & Hout2).
  { unfold c2. destruct Hs1. case_bool_decide; (split; [|done]); constructor; cbn; try done. destruct sound_parser0. by constructor. }
  set (head := request_head _ _ _). set (out1 := snd (append alloc head (outgoing c2))).
  set (out2 := if bool_decide (current_body c0 = []) then out1 else _).
  assert (Buffer.wf out2 /\ (ample -> zlen (head ++ current_body (client w)) < 2 ^ 62 -> Buffer.live out2 = head ++ current_body (client w))) as [Hw2 Hl2].
  { destruct (append_sound head (outgoing c2)) as [Hw1 Hl1]; [apply Hs2|]. 
    assert (Buffer.live (outgoing c2) = []) as H0 by (by rewrite Hout2). rewrite H0 in Hl1. cbn [app] in Hl1.
    unfold out2. change (current_body c0) with (current_body (client w)). case_bool_decide as Hb.
    - split; [done|]. intros Ha Hz. rewrite Hb, app_nil_r in *. apply Hl1; [done|]. change (zlen []) with 0. lia.
    - destruct (append_sound (current_body (client w)) out1 Hw1) as [Hw' Hl']. split; [done|]. intros Ha Hz.
      rewrite zlen_app in Hz. pose proof (zlen_nonneg (current_body (client w))). pose proof (zlen_nonneg head).
      assert (Buffer.live out1 = head) as E1 by (apply Hl1; [done|change (zlen []) with 0; lia]). rewrite Hl', E1; [done|done|]. rewrite E1. lia. }
  set (c3 := with_outgoing out2 c2).
  assert (sound c3 /\ same_request (client w) c3) as [Hs3 Hq3] by (destruct Hs2; by split; [constructor|]).
  destruct (create _ _ _); cbn [negb].
  2: { apply Hfail; try done. cbn; lia. }
  unfold emit, with_client. cbn [client sockets HttpClient.out].
  set (c4 := with_socket (Some (sockets w)) true true c3).
  assert (sound c4 /\ same_request (client w) c4 /\ running c4 /\ socket c4 = Some (sockets w) /\ Buffer.live (outgoing c4) = Buffer.live out2 /\
    request_text c4 = head ++ current_body (client w)) as (Hs4 & Hq4 & Hrun & Hsock & Hl4 & Ht4).
  { destruct Hs3. split; [by constructor|]. split; [done|]. split; [constructor; try done; cbn|split; [done|split; [done|]]].
    - rewrite Hsec2. destruct Hq2 as (_ & -> & _). done.
    - change (request_text c4) with (request_text c2). unfold request_text, head. destruct Hq2 as (-> & -> & _ & -> & _). reflexivity. }
  assert (forall l, forallb is_quiet l = true -> left_for same_request w (mkWorld c4 (sockets w + 1) (out w ++ closing (client w) ++ l))) as Hgo.
  { intros l Hlq. apply (left_started _ _ _ (closing (client w) ++ l)); try done; [by apply quiet_app|].
    cbn. intros Ha Hz. rewrite Ht4 in Hz |- *. etransitivity; [exact Hl4|]. by apply Hl2. }
  split; [by destruct (proxy _)|]. destruct (proxy _) as [p|]; cbn [HttpClient.out client sockets]; rewrite <- !app_assoc;
    [exact (Hgo [Create _ _ _; SetProxy _ p; Connect _] eq_refl)|exact (Hgo [Create _ _ _; Connect _] eq_refl)].
Qed.

(** *** Events *)

(** Nothing shows yet. *)
Record kept_world (w w' : World) : Prop := mkKeptWorld {
  kw_sound : sound (client w');
  kw_kept : kept (client w) (client w');
  kw_outgoing : outgoing (client w') = outgoing (client w);
  kw_sockets : sockets w' = sockets w;
  kw_out : exists l, out w' = out w ++ l /\ forallb is_quiet l = true
}.

Lemma left_after (R R' : Client -> Client -> Prop) w1 w2 w3 l0 :
  out w2 = out w1 ++ l0 -> forallb is_quiet l0 = true -> sockets w2 = sockets w1 ->
  (forall c, R (client w2) c -> R' (client w1) c) -> left_for R w2 w3 -> left_for R' w1 w3.
Proof.
  intros El Hq Hs HR [l r E Hl Hr Hi Hs'|l E Hl Hid Hs' Hrun Hrel Hlive].
  - apply (left_ended _ _ _ (l0 ++ l) r); rewrite <- ?Hs; try done; [by rewrite E, El, <- !app_assoc|by apply quiet_app].
  - apply (left_started _ _ _ (l0 ++ l)); rewrite <- ?Hs; try done; [by rewrite E, El, <- app_assoc|by apply quiet_app|by apply HR].
Qed.

Lemma did_after (R R' : Client -> Client -> Prop) may w1 w2 w3 :
  kept_world w1 w2 -> (forall c, R (client w2) c -> R' (client w1) c) -> did R may w2 w3 -> did R' may w1 w3.
Proof.
  intros [_ Hk Ho Hs (l0 & El & Hq)] HR H. pose proof Hk as [_ Hsock _ _ _ _].
  destruct H as [l E Hl Hk' Ho' Hs'|id d l1 l2 Hm E Hl Hk' Hid Hlive Hs'|Hl].
  - apply (did_keep _ _ _ _ (l0 ++ l)); [by rewrite E, El, <- app_assoc|by apply quiet_app|by eapply kept_trans|congruence..].
  - apply (did_send _ _ _ _ id d (l0 ++ l1) l2); rewrite <- ?app_assoc; [done|by rewrite E, El, <- app_assoc|by apply quiet_app|by eapply kept_trans|congruence..].
  - apply did_leave. by eapply left_after.
Qed.

(** Unlike [kept], what a redirect changes. *)
Definition follows (c c' : Client) : Prop :=
  redirects_followed c' = redirects_followed c + 1 /\ redirects_followed c' <= maxRedirects (options c) /\ options c' = options c /\
  (iequals (scheme (current_url c)) (lit "https") = true -> iequals (scheme (current_url c')) (lit "https") = true).

Lemma kept_follows c1 c2 c3 : kept c1 c2 -> follows c2 c3 -> follows c1 c3.
Proof. intros [(_&Eu&_&_&En&Eo) _ _ _ _ _] (H1&H2&H3&H4). unfold follows. rewrite <- Eu, <- En, <- Eo. done. Qed.

Lemma kept_input q p w : sound (client w) -> Buffer.wf q -> HttpResponse.inv p -> kept_world w (with_client (with_input q p (client w)) w).
Proof.
  intros [] Hq Hp. constructor; cbn; try done; exists []; by rewrite app_nil_r.
Qed.

Lemma report_left R r w : sound (client w) -> is_report r = true ->
  let w' := emit r (internal_teardown (with_client (with_reported true (client w)) w)) in sound (client w') /\ left_for R w w'.
Proof.
  intros [] Hr. cbv zeta. rewrite teardown_eq. cbn. split; [by constructor|].
  apply (left_ended _ _ _ (closing (client w)) r); try done; [|apply closing_quiet|cbn; lia]. cbn. by rewrite <- app_assoc.
Qed.

Lemma fail_left R why w : sound (client w) -> reported (client w) = false ->
  sound (client (internal_fail why w)) /\ left_for R w (internal_fail why w).
Proof. intros Hs Hr. unfold internal_fail. rewrite Hr. by apply report_left. Qed.

Lemma redirect_left w : sound (client w) -> reported (client w) = false ->
  let '(followed, w') := internal_follow_redirect w in
  if followed : bool then sound (client w') /\ left_for follows w w' else w' = w.
Proof.
  intros Hs Hr. unfold internal_follow_redirect. cbv zeta. destruct (maxRedirects _ =? 0); [done|]. destruct (_ || _); [done|].
  destruct (HttpResponse.Headers.get _ _) as [[|ch location]|]; [done| |done].
  set (next := resolve _ _ _). destruct (_ <=? _) eqn:Emax; [by apply fail_left|]. destruct (_ || _); [by apply fail_left|].
  destruct (iequals _ _ && _) eqn:Esec; [by apply fail_left|]. set (change := if _ : bool then _ else _). destruct change as [[m extra] body].
  set (w1 := with_client _ w). destruct (internal_start_spec w1) as [Hs1 Hl1]; [destruct Hs; by constructor|]. split; [done|].
  eapply (left_after same_request _ _ w1 _ []); try done; [by rewrite app_nil_r|].
  intros c (_ & Eu & _ & _ & En & Eo). unfold follows. rewrite Eu, En, Eo.
  split; [done|]. split; [change (redirects_followed (client w1)) with (redirects_followed (client w) + 1); lia|].
  split; [done|]. intros Eh. rewrite Eh in Esec. change (current_url (client w1)) with (assign inet_pton next).
  unfold next in *. rewrite assign_resolved. by destruct (iequals _ _).
Qed.

Lemma complete_left w : sound (client w) -> reported (client w) = false ->
  sound (client (internal_complete w)) /\ left_for follows w (internal_complete w).
Proof.
  intros Hs Hr. unfold internal_complete. rewrite Hr. pose proof (redirect_left w Hs Hr) as H.
  destruct (internal_follow_redirect w) as [[|] w1]; [done|]. subst w1. by apply report_left.
Qed.

Lemma did_refl R may w : did R may w w.
Proof. apply (did_keep _ _ _ _ []); rewrite ?app_nil_r; try done; constructor; try done; repeat split. Qed.

Lemma send_did R (may : Prop) sent w : sound (client w) -> reported (client w) = false -> may ->
  sound (client (internal_send sent w)) /\ did R may w (internal_send sent w).
Proof.
  intros Hs Hr Hmay. unfold internal_send. cbv zeta.
  pose proof (did_refl R may w). destruct (socket (client w)) as [id|] eqn:Hid; [|done]. destruct (_ =? 0); [done|].
  destruct sent as [sent|].
  2: { unfold EventError. set (why := if _ : bool then _ else _). destruct (fail_left R why w Hs Hr) as [Hs1 Hl1].
       assert (reported (client (internal_fail why w)) = true) as Hr1 by (by rewrite fail_eq).
       unfold internal_fail at 1 3. rewrite Hr1. split; [done|by apply did_leave]. }
  destruct (sent <? 0) eqn:E; [destruct (fail_left R HttpResponse.Disconnected w Hs Hr); split; [done|by apply did_leave]|].
  destruct Hs as [Ho Hi Hp Hl]. destruct (Buffer.remove_live sent _ Ho ltac:(lia)) as (Hw & Hlive & _).
  split; [by constructor|]. apply (did_send _ _ _ _ id (ztake sent (Buffer.live (outgoing (client w)))) [] [ToggleWriteNotifier id (negb (Buffer.size (Buffer.remove sent (outgoing (client w))) =? 0))]);
    try done; [cbn; by rewrite <- app_assoc|].
  etransitivity; [symmetry; apply (take_drop (Z.to_nat sent))|]. by rewrite <- Hlive.
Qed.

(** The same after something that does not show. *)
Lemma fail_did R may why w w1 : kept_world w w1 -> reported (client w) = false ->
  sound (client (internal_fail why w1)) /\ did R may w (internal_fail why w1).
Proof.
  intros Hk Hr. destruct (fail_left (fun _ => R (client w)) why w1 (kw_sound _ _ Hk)) as [Hs Hl].
  { rewrite <- Hr. apply Hk. }
  split; [done|]. eapply did_after; [done| |by apply did_leave]. done.
Qed.

Lemma complete_did may w w1 : kept_world w w1 -> reported (client w) = false ->
  sound (client (internal_complete w1)) /\ did follows may w (internal_complete w1).
Proof.
  intros Hk Hr. destruct (complete_left w1 (kw_sound _ _ Hk)) as [Hs Hl].
  { rewrite <- Hr. apply Hk. }
  split; [done|]. eapply did_after; [done| |by apply did_leave]. intros c. apply kept_follows, Hk.
Qed.

Lemma finished_did may w r p why : sound (client w) -> reported (client w) = false -> HttpResponse.finish (parser (client w)) = (r, p) ->
  let w1 := with_client (with_input (incoming (client w)) p (client w)) w in
  let w' := if bool_decide (r = HttpResponse.Complete) then internal_complete w1 else internal_fail why w1 in
  sound (client w') /\ did follows may w w'.
Proof.
  intros Hs Hr E. destruct (HttpResponse.finish_settled (parser (client w)) ltac:(apply Hs)) as [Hp _]. rewrite E in Hp.
  pose proof (kept_input (incoming (client w)) p w Hs ltac:(apply Hs) Hp) as Hk. cbv zeta.
  case_bool_decide; [by apply complete_did|by apply fail_did].
Qed.

Lemma kept_world_refl w : sound (client w) -> kept_world w w.
Proof. intros Hs. constructor; try done. exists []. by rewrite app_nil_r. Qed.

Lemma kept_world_trans w1 w2 w3 : kept_world w1 w2 -> kept_world w2 w3 -> kept_world w1 w3.
Proof.
  intros [_ Hk1 Ho1 Hs1 (l1 & E1 & Q1)] [Hs Hk2 Ho2 Hs2 (l2 & E2 & Q2)]. constructor; [done|by eapply kept_trans|congruence..|].
  exists (l1 ++ l2). split; [by rewrite E2, E1, <- app_assoc|by apply quiet_app].
Qed.

Lemma read_did may reads : forall w, sound (client w) -> reported (client w) = false ->
  exists w', read_loop reads w = Some w' /\ sound (client w') /\ did follows may w w'.
Proof.
  induction reads as [|o reads IH]; intros w Hs Hr; [exists w; split; [done|]; split; [done|]; apply did_refl|].
  destruct o as [| | |data]; cbn [read_loop].
  - eexists. split; [done|]. apply fail_did; [by apply kept_world_refl|done].
  - destruct (HttpResponse.finish (parser (client w))) as [r p] eqn:E. eexists. split; [done|]. by apply finished_did.
  - exists w. split; [done|]. split; [done|]. apply did_refl.
  - destruct data as [|ch data]; [exists w; split; [done|]; split; [done|]; apply did_refl|].
    destruct (append_sound (ch :: data) (incoming (client w))) as [Hq _]; [apply Hs|].
    destruct (HttpResponse.parse_ok (parser (client w)) (snd (append alloc (ch :: data) (incoming (client w))))) as (r & p & q & -> & Hq' & (Hp & _) & _);
      [apply Hs|exact Hq|]. cbn [mbind option_bind].
    pose proof (kept_input q p w Hs Hq' Hp) as Hk. destruct r.
    + destruct (IH _ (kw_sound _ _ Hk) Hr) as (w' & E & Hs' & Hd). exists w'. split; [done|]. split; [done|].
      eapply did_after; [done| |done]. intros c. apply kept_follows, Hk.
    + eexists. split; [done|]. by apply complete_did.
    + eexists. split; [done|]. by apply fail_did.
Qed.

Lemma kept_client c w : sound c -> kept (client w) c -> outgoing c = outgoing (client w) -> kept_world w (with_client c w).
Proof. intros. constructor; try done. exists []. by rewrite app_nil_r. Qed.

Lemma kept_emit o w : sound (client w) -> is_quiet o = true -> kept_world w (emit o w).
Proof. intros Hs Ho. constructor; try done. exists [o]. split; [done|]. cbn. by rewrite Ho. Qed.

Lemma kept_did R may w w' : kept_world w w' -> sound (client w') /\ did R may w w'.
Proof. intros [Hs Hk Ho Hn (l & E & Hl)]. split; [done|]. by apply (did_keep _ _ _ _ l). Qed.

Lemma send_after (may : Prop) sent w w1 : kept_world w w1 -> reported (client w) = false -> may ->
  sound (client (internal_send sent w1)) /\ did follows may w (internal_send sent w1).
Proof.
  intros Hk Hr Hm. destruct (send_did follows may sent w1 (kw_sound _ _ Hk)) as [Hs Hd]; [rewrite <- Hr; apply Hk|done|].
  split; [done|]. eapply did_after; [done| |done]. intros c. apply kept_follows, Hk.
Qed.

(** Only these can make a secure request's client write. *)
Definition may_write (e : SocketEvent) (c : Client) : Prop := secure c = true -> match e with TLSConnected _ | CanWrite _ => True | _ => False end.

Lemma socket_did e w : sound (client w) -> running (client w) ->
  exists w', on_socket e w = Some w' /\ sound (client w') /\ did follows (may_write e (client w)) w w'.
Proof.
  intros Hs Hrun. pose proof (run_reported _ Hrun) as Hr. destruct e as [local tls sent|sent|sent|reads| | |timed_out]; cbn [on_socket].
  - eexists. split; [done|]. unfold EventConnected. cbv zeta.
    set (c := match socket (client w) with Some _ => _ | None => _ end).
    assert (kept_world w (with_client c w)) as Hk by (unfold c; destruct Hs, (socket (client w)), local; by apply kept_client).
    destruct (secure c) eqn:Esec; cbn [negb]; [|apply send_after; try done; unfold may_write; rewrite <- (kept_secure _ _ (kw_kept _ _ Hk)); cbn; by rewrite Esec].
    destruct (socket c) as [id|]; [|by apply fail_did].
    set (w1 := emit _ _). assert (kept_world w w1) as Hk1 by (eapply kept_world_trans; [done|]; apply kept_emit; [apply Hk|done]).
    destruct tls; [|by apply fail_did]. apply kept_did. eapply kept_world_trans; [exact Hk1|].
    set (w2 := with_client _ w1). assert (kept_world w1 w2) as Hk2 by (destruct (kw_sound _ _ Hk1); by apply kept_client).
    eapply kept_world_trans; [exact Hk2|]. apply kept_emit; [apply Hk2|done].
  - eexists. split; [done|]. apply send_after; [|done|done]. destruct Hs. by apply kept_client.
  - eexists. split; [done|]. apply send_after; [by apply kept_world_refl|done|done].
  - unfold EventDataAvailable, internal_read. destruct (socket (client w)); [by apply read_did|]. exists w. split; [done|]. split; [done|]. apply did_refl.
  - eexists. split; [done|]. unfold EventDisconnected. destruct (HttpResponse.finish (parser (client w))) as [r p] eqn:E. by apply finished_did.
  - eexists. split; [done|]. apply fail_did; [by apply kept_world_refl|done].
  - eexists. split; [done|]. apply fail_did; [by apply kept_world_refl|done].
Qed.

(** *** What always holds *)

(** An entry of [asked]: what its socket has written so far. *)
Record entry_ok (h : History) (w : World) (id : Z) (text : bytes) (s : bool) : Prop := mkEntryOk {
  entry_past : 0 <= id < sockets w;
  entry_secret : s = true -> id ∉ released h -> wrote id (out w) = [];
  entry_prefix : ample -> zlen text < 2 ^ 62 -> wrote id (out w) `prefix_of` text;
  entry_now : socket (client w) = Some id -> s = secure (client w) /\
    (ample -> zlen text < 2 ^ 62 -> wrote id (out w) ++ Buffer.live (outgoing (client w)) = text)
}.

Record inv (h : History) (w : World) : Prop := mkInv {
  inv_sound : sound (client w);
  inv_sockets : 0 <= sockets w;
  inv_state : idle (client w) \/ (socket (client w) = Some (sockets w - 1) /\ running (client w));
  inv_count : told (out w) + abandoned h + (if busy (client w) then 1 else 0) = started h;
  inv_entries : forall id text s, (id, text, s) ∈ asked h -> entry_ok h w id text s;
  inv_fresh : forall id, sockets w <= id -> wrote id (out w) = []
}.

Lemma told_quiet l1 l2 : forallb is_quiet l2 = true -> told (l1 ++ l2) = told l1.
Proof. intros H. rewrite told_app, (quiet_told l2) by done. lia. Qed.

Lemma told_report l1 l2 r : forallb is_quiet l2 = true -> is_report r = true -> told (l1 ++ l2 ++ [r]) = told l1 + 1.
Proof. intros Hq Hr. rewrite app_assoc, told_app, told_quiet by done. unfold told at 2. cbn. by rewrite Hr. Qed.

Lemma wrote_quiet id l1 l2 : forallb is_quiet l2 = true -> wrote id (l1 ++ l2) = wrote id l1.
Proof. intros H. by rewrite wrote_app, (quiet_wrote id l2), app_nil_r. Qed.

Lemma report_wrote id r : is_report r = true -> wrote id [r] = [].
Proof. by destruct r. Qed.

(** The connection is the same. *)
Record same_connection (c c' : Client) : Prop := mkSameConnection {
  same_socket : socket c' = socket c;
  same_busy : busy c' = busy c;
  same_deadline : deadline c' = deadline c;
  same_secure : secure c' = secure c;
  same_running : running c -> running c'
}.

Lemma kept_same c c' : kept c c' -> same_connection c c'.
Proof. intros H. constructor; [apply H..|]. by apply kept_running. Qed.

Lemma state_same w w' : idle (client w) \/ (socket (client w) = Some (sockets w - 1) /\ running (client w)) ->
  same_connection (client w) (client w') -> sockets w' = sockets w ->
  idle (client w') \/ (socket (client w') = Some (sockets w' - 1) /\ running (client w')).
Proof.
  intros [(?&?&?)|[? Hr]] [Es Eb Ed _ Er] En; [left; unfold idle; by rewrite Es, Eb, Ed|right].
  rewrite Es, En. split; [done|by apply Er].
Qed.

(** Nothing was written and no socket was made. *)
Lemma inv_quiet h w w' started' abandoned' released' :
  inv h w -> sound (client w') -> sockets w' = sockets w -> (forall id, wrote id (out w') = wrote id (out w)) ->
  (forall id, id ∈ released h -> id ∈ released') ->
  idle (client w') \/ (same_connection (client w) (client w') /\ outgoing (client w') = outgoing (client w)) ->
  told (out w') + abandoned' + (if busy (client w') then 1 else 0) = started' ->
  inv (mkHistory started' abandoned' (asked h) released') w'.
Proof.
  intros [_ Hn Hst _ He Hf] Hs En Ew Hest Hcase Hc. constructor; cbn; rewrite ?En; try done.
  - destruct Hcase as [?|[Hk _]]; [by left|]. rewrite <- En. by apply (state_same w).
  - intros id text s Hin. destruct (He id text s Hin) as [? Hsec Hpre Hnow]. constructor; cbn; rewrite ?En, ?Ew; try done.
    + intros Et Hni. apply Hsec; [done|]. intros Hi. by apply Hni, Hest.
    + destruct Hcase as [(Hnone & _)|[[-> _ _ -> _] ->]]; [by rewrite Hnone|done].
  - intros id Hid. rewrite Ew. by apply Hf.
Qed.

(** The step that leaves a connection. *)
Lemma inv_left (R : Client -> Client -> Prop) h w w' s' a' e' : inv h w -> sound (client w') -> left_for R w w' ->
  (forall id, id ∈ released h -> id ∈ e') -> told (out w) + a' + 1 = s' ->
  inv (mkHistory s' a' (if sockets w <? sockets w' then (sockets w, request_text (client w'), secure (client w')) :: asked h else asked h) e') w'.
Proof.
  intros [Hs0 Hn Hst _ He Hf] Hs Hl Hest Hc.
  assert (exists l, out w' = out w ++ l /\ forall id, wrote id l = []) as (l & El & Hw).
  { destruct Hl as [l r -> Hq Hr _ _|l -> Hq _ _ _ _ _]; eexists; (split; [done|]); intros id; [|by apply quiet_wrote].
    by rewrite wrote_app, quiet_wrote, report_wrote. }
  assert (forall id, wrote id (out w') = wrote id (out w)) as Ew by (intros id; by rewrite El, wrote_app, Hw, app_nil_r).
  assert (sockets w <= sockets w' <= sockets w + 1 /\ (idle (client w') \/ socket (client w') = Some (sockets w))) as [Hle Hnew].
  { destruct Hl as [? ? ? ? ? ? ?|? ? ? ? ? ? ? ?]; [by split; [|left]|by split; [lia|right]]. }
  constructor; cbn; try done; [lia| | | |].
  - destruct Hl as [? ? ? ? ? ? ?|? ? ? Hsock En ? ? ?]; [by left|right]. rewrite Hsock, En. split; [f_equal; lia|done].
  - destruct Hl as [l' r -> Hq Hr (_ & -> & _) _|l' -> Hq _ _ [-> _ _ _] _ _].
    + rewrite told_report by done. lia.
    + rewrite told_quiet by done. lia.
  - intros id text s Hin.
    assert ((id, text, s) ∈ asked h -> entry_ok (mkHistory s' a' (asked h) e') w' id text s) as Hold.
    { intros Hin'. destruct (He _ _ _ Hin') as [? Hsec Hpre _]. constructor; cbn; rewrite ?Ew; try done; [lia| |].
      - intros Et Hni. apply Hsec; [done|]. intros Hi. by apply Hni, Hest.
      - destruct Hnew as [(-> & _)| ->]; [done|]. intros [= <-]. lia. }
    destruct (sockets w <? sockets w') eqn:E; [|destruct (Hold Hin); by constructor].
    apply elem_of_cons in Hin as [[= -> -> ->]|Hin]; [|destruct (Hold Hin); by constructor].
    constructor; cbn; rewrite ?Ew, ?Hf by lia; try done; [lia|intros _ _; apply prefix_nil|].
    intros Hsock. split; [done|]. destruct Hl as [? ? ? ? ? (Hno & _) ?|? ? ? _ _ _ _ Hlive]; [congruence|done].
  - intros id Hid. rewrite Ew. apply Hf. lia.
Qed.

(** The step that writes. *)
Lemma inv_send h w w' s' e' id data l1 l2 :
  inv h w -> sound (client w') -> out w' = out w ++ l1 ++ Write id data :: l2 -> forallb is_quiet (l1 ++ l2) = true ->
  kept (client w) (client w') -> socket (client w) = Some id ->
  Buffer.live (outgoing (client w)) = data ++ Buffer.live (outgoing (client w')) -> sockets w' = sockets w ->
  (forall id, id ∈ released h -> id ∈ e') -> (secure (client w) = true -> id ∈ e') -> s' = started h ->
  inv (mkHistory s' (abandoned h) (asked h) e') w'.
Proof.
  intros [_ Hn Hst Hc He Hf] Hs Eo Hq Hk Hid Hlive En Hest Hsec Hs'. rewrite forallb_app, andb_true_iff in Hq. destruct Hq as [Hq1 Hq2].
  assert (forall i, wrote i (out w') = wrote i (out w) ++ (if id =? i then data else [])) as Ew.
  { intros i. rewrite Eo, !wrote_app, (quiet_wrote _ l1) by done. f_equal. change (wrote i (Write id data :: l2)) with ((if id =? i then data else []) ++ wrote i l2).
    by rewrite (quiet_wrote _ l2), app_nil_r. }
  assert (id = sockets w - 1) as Eid by (destruct Hst as [(Hno & _)|[Hsk _]]; [congruence|rewrite Hsk in Hid; by injection Hid]).
  constructor; cbn; rewrite ?En; try done.
  - rewrite <- En. apply (state_same w); [done|by apply kept_same|done].
  - subst s'. rewrite Eo, !told_app, (quiet_told l1) by done. rewrite (kept_busy _ _ Hk).
    change (told (Write id data :: l2)) with (told l2). rewrite (quiet_told l2) by done. lia.
  - intros i text s Hin. destruct (He _ _ _ Hin) as [? Hse Hpre Hnow].
    constructor; cbn; rewrite ?En, ?Ew; try done.
    + intros -> Hni. destruct (id =? i) eqn:E.
      * apply Z.eqb_eq in E. subst i. destruct (Hnow Hid) as [Et _]. by destruct Hni; apply Hsec.
      * rewrite app_nil_r. apply Hse; [done|]. intros Hi. by apply Hni, Hest.
    + intros Ha Hz. destruct (id =? i) eqn:E; [|rewrite app_nil_r; by apply Hpre].
      apply Z.eqb_eq in E. subst i. destruct (Hnow Hid) as [_ Ht]. rewrite <- (Ht Ha Hz), Hlive, app_assoc. by apply prefix_app_r.
    + rewrite (kept_socket _ _ Hk), (kept_secure _ _ Hk). intros Hi. destruct (Hnow Hi) as [? Ht]. split; [done|]. intros Ha Hz.
      rewrite Hid in Hi. injection Hi as ->. rewrite Z.eqb_refl, <- app_assoc, <- Hlive. by apply Ht.
  - intros i Hi. rewrite Ew, Hf by done. by rewrite (proj2 (Z.eqb_neq id i)) by lia.
Qed.

Lemma left_any R w w' : left_for R w w' -> left_for (fun _ _ => True) w w'.
Proof.
  intros [l r ? ? ? ? ?|l ? ? ? ? ? ? ?]; [by apply (left_ended _ _ _ l r)|by apply (left_started _ _ _ l)].
Qed.

(** What an input comes to where the invariant holds. *)
Definition input_did (i : Input) (w w' : World) : Prop :=
  match i with
  | Request _ _ _ _ => left_for (fun _ _ => True) w w' /\ (busy (client w) = true -> sockets w' = sockets w)
  | Abort => w' = mkWorld (with_socket None false false (with_reported true (client w))) (sockets w) (out w ++ closing (client w))
  | SetOptions o => w' = with_client (with_options o (client w)) w
  | FromSocket id e => (socket (client w) <> Some id /\ w' = w) \/ (socket (client w) = Some id /\ did follows (may_write e (client w)) w w')
  | Expired => if busy (client w) then left_for (fun _ _ => False) w w' /\ sockets w' = sockets w else w' = w
  end.

Lemma fail_sockets why w : sockets (internal_fail why w) = sockets w.
Proof. unfold internal_fail. destruct (reported _); [done|]. unfold internal_teardown. by destruct (socket _). Qed.

Lemma perform_did i h w : inv h w -> permitted i w h ->
  exists w', perform i w = Some w' /\ sound (client w') /\ input_did i w w'.
Proof.
  intros [Hs Hn Hst _ _ _] Hp. destruct i as [m u extra body| |o|id e|]; cbn [perform input_did].
  - eexists. split; [done|]. unfold request. destruct Hst as [(Hno & Hb & Hd)|[Hsk Hrun]].
    + rewrite Hb. set (w1 := with_client _ w). destruct (internal_start_spec w1) as [Hs1 Hl]; [destruct Hs; by constructor|].
      split; [done|]. split; [|done]. by eapply (left_after same_request _ w w1 _ []); try done; rewrite app_nil_r.
    + rewrite (run_busy _ Hrun). destruct (fail_left (fun _ _ => True) HttpResponse.Aborted w Hs (run_reported _ Hrun)) as [? ?].
      split; [done|]. split; [done|]. intros _. apply fail_sockets.
  - eexists. split; [done|]. unfold abort. rewrite teardown_eq. cbn. split; [destruct Hs; by constructor|done].
  - eexists. split; [done|]. split; [|done]. destruct Hs. by constructor.
  - case_bool_decide as Hid; [|exists w; split; [done|]; split; [done|by left]].
    destruct Hst as [(Hno & _)|[Hsk Hrun]]; [congruence|].
    destruct (socket_did e w Hs Hrun) as (w' & -> & Hs' & Hd). exists w'. split; [done|]. split; [done|by right].
  - destruct Hst as [(Hno & Hb & Hd)|[Hsk Hrun]].
    + rewrite Hd, Hb. by exists w.
    + rewrite (run_deadline _ Hrun), (run_busy _ Hrun). eexists. split; [done|]. unfold EventTimeout. set (w1 := with_client _ w).
      destruct (fail_left (fun _ _ => False) HttpResponse.RequestTimeout w1) as [Hs1 Hl]; [destruct Hs; by constructor|apply Hrun|].
      split; [done|]. split; [|by rewrite fail_sockets].
      by eapply (left_after (fun _ _ => False) _ w w1 _ []); try done; rewrite app_nil_r.
Qed.

(** The sockets that may have been written to after an event. *)
Definition released_by (id : Z) (e : SocketEvent) (l : list Z) : list Z :=
  match e with TLSConnected _ | CanWrite _ => id :: l | _ => l end.

Lemma released_mono id e l i : i ∈ l -> i ∈ released_by id e l.
Proof. destruct e; try done; by right. Qed.

Lemma inv_event e h w w' : inv h w -> permitted (FromSocket (sockets w - 1) e) w h -> sound (client w') ->
  socket (client w) = Some (sockets w - 1) -> running (client w) -> did follows (may_write e (client w)) w w' ->
  inv (mkHistory (started h) (abandoned h)
    (if sockets w <? sockets w' then (sockets w, request_text (client w'), secure (client w')) :: asked h else asked h)
    (released_by (sockets w - 1) e (released h))) w'.
Proof.
  intros Hinv Hp Hs Hid Hrun Hd. pose proof Hinv as [_ _ _ Hc _ _]. rewrite (run_busy _ Hrun) in Hc.
  destruct Hd as [l E Hl Hk Ho En|id d l1 l2 Hm E Hl Hk Hid' Hlive En|Hl].
  - rewrite En, Z.ltb_irrefl. apply (inv_quiet h w); try done; [intros id; by rewrite E, wrote_quiet|intros id; apply released_mono| |].
    + right. split; [by apply kept_same|done].
    + by rewrite E, told_quiet, (kept_busy _ _ Hk), (run_busy _ Hrun).
  - rewrite En, Z.ltb_irrefl. assert (id = sockets w - 1) as -> by congruence.
    apply (inv_send h w w' _ _ (sockets w - 1) d l1 l2); try done; [intros id; apply released_mono|].
    intros Hsec. specialize (Hm Hsec). destruct e; try done; by left.
  - apply (inv_left _ h w w' _ _ _ Hinv Hs Hl); [intros id; apply released_mono|done].
Qed.

Lemma inv_step i h w w' : inv h w -> permitted i w h -> perform i w = Some w' -> inv (remember i w w' h) w'.
Proof.
  intros Hinv Hp E. destruct (perform_did i h w Hinv Hp) as (w1 & E1 & Hs1 & Hd). rewrite E in E1. injection E1 as <-.
  pose proof Hinv as [Hs Hn Hst Hc _ _].
  destruct i as [m u extra body| |o|id e|]; unfold remember; cbn [input_did] in Hd; rewrite ?Z.add_0_r.
  - destruct Hd as [Hl _]. apply (inv_left _ h w w' _ _ _ Hinv Hs1 Hl); [done|]. destruct (busy (client w)); lia.
  - subst w'. cbn [sockets]. rewrite Z.ltb_irrefl. apply (inv_quiet h w); try done.
    + intros id. apply wrote_quiet, closing_quiet.
    + by left.
    + cbn. rewrite told_quiet by apply closing_quiet. lia.
  - subst w'. cbn [sockets with_client]. rewrite Z.ltb_irrefl. apply (inv_quiet h w); try done.
    right. split; [|done]. constructor; try done. intros []. by constructor.
  - destruct Hd as [[_ ->]|[Hid Hd]].
    + rewrite Z.ltb_irrefl. apply (inv_quiet h w); try done; [intros i; apply released_mono|]. right. split; [by constructor|done].
    + destruct Hst as [(Hno & _)|[Hsk Hrun]]; [congruence|]. assert (id = sockets w - 1) as -> by congruence.
      by apply (inv_event e h w w').
  - destruct (busy (client w)) eqn:Eb.
    + destruct Hd as [Hl En]. apply (inv_left _ h w w' _ _ _ Hinv Hs1 Hl); [done|lia].
    + subst w'. rewrite Z.ltb_irrefl. apply (inv_quiet h w); try done; [right; split; [by constructor|done]|by rewrite Eb].
Qed.

Lemma new_inv o : HttpResponse.limits_ok (o_limits o) -> inv (mkHistory 0 0 [] []) (mkWorld (new_Client o) 0 []).
Proof.
  intros Ho. assert (Buffer.wf (new_Buffer INITBUFSIZE)) as Hb by (by apply (new_Buffer_wf INITBUFSIZE)).
  assert (HttpResponse.limits_ok HttpResponse.default_Limits) as Hd by (by constructor).
  pose proof (HttpResponse.inv_new _ Hd). apply mkInv; [by apply mkSound|done|by left|done| |done].
  intros id text s Hin. by apply elem_of_nil in Hin.
Qed.

Lemma reached_inv h w : reached h w -> inv h w.
Proof. induction 1 as [o Ho|h w i w' _ IH Hp E]; [by apply new_inv|by eapply inv_step]. Qed.

(** C15. Whatever is asked of a client and whatever its sockets and its timer do, it
    always returns, and every request that was begun has been reported exactly once,
    or was abandoned, or is the one under way. The client is busy exactly while it
    has a socket, which is the last one made; then its timer is set, and the timer
    ends the request with one report. *)
Theorem client_reports_once h w : reached h w ->
  told (out w) + abandoned h + (if busy (client w) then 1 else 0) = started h /\
  (if busy (client w) then socket (client w) = Some (sockets w - 1) /\ deadline (client w) = true /\
     exists w', perform Expired w = Some w' /\ busy (client w') = false /\ told (out w') = told (out w) + 1
   else socket (client w) = None /\ deadline (client w) = false) /\
  forall i, permitted i w h -> exists w', perform i w = Some w' /\ told (out w) <= told (out w') <= told (out w) + 1.
Proof.
  intros Hr. pose proof (reached_inv h w Hr) as Hinv. pose proof Hinv as [_ _ Hst Hc _ _]. split; [done|]. split.
  - destruct (perform_did Expired h w Hinv) as (w' & E & _ & Hd); [done|]. cbn [input_did] in Hd.
    destruct Hst as [(-> & -> & ->)|[Hsk Hrun]]; [done|]. rewrite (run_busy _ Hrun) in *. split; [done|]. split; [apply Hrun|].
    exists w'. split; [done|]. destruct Hd as [[l r -> Hq Hrep (_ & -> & _) _|? ? ? ? ? ? []] _].
    split; [done|]. by apply told_report.
  - intros i Hp. destruct (perform_did i h w Hinv Hp) as (w' & E & Hs' & Hd). exists w'. split; [done|].
    assert (forall R, left_for R w w' -> told (out w) <= told (out w') <= told (out w) + 1) as Hleft.
    { intros R [l r -> Hq Hrep _ _|l -> Hq _ _ _ _ _]; [rewrite told_report by done|rewrite told_quiet by done]; lia. }
    destruct i as [m u extra body| |o|id e|]; cbn [input_did] in Hd.
    + destruct Hd as [Hl _]. by eapply Hleft.
    + subst w'. cbn. rewrite told_quiet by apply closing_quiet. lia.
    + subst w'. cbn. lia.
    + destruct Hd as [[_ ->]|[_ [l -> Hl _ _ _|? ? l1 l2 _ -> Hl _ _ _ _|Hl]]]; [lia|rewrite told_quiet by done; lia| |by eapply Hleft].
      rewrite forallb_app, andb_true_iff in Hl. destruct Hl as [Hl1 Hl2].
      rewrite told_app, told_app, (quiet_told l1) by done. change (told (Write _ _ :: l2)) with (told l2). rewrite (quiet_told l2) by done. lia.
    + destruct (busy _); [destruct Hd as [Hl _]; by eapply Hleft|subst w'; lia].
Qed.

(** C14. A request over https is not redirected away from https: whatever the sockets
    do, a redirect is followed only from https to https and only while the configured
    number is not used up. And nothing is written to the socket of such a request
    before the socket reports that TLS is established, or that there is room to write:
    the client does not tell these apart, so that a socket which asks for data before
    TLS is established gets the request in plain text ([writable_sends_plain]). *)
Theorem client_stays_secure h w : reached h w ->
  (forall id text, (id, text, true) ∈ asked h -> (id ∉ released h) -> wrote id (out w) = []) /\
  (busy (client w) = true -> secure (client w) = iequals (scheme (current_url (client w))) (lit "https")) /\
  forall id e w', permitted (FromSocket id e) w h -> perform (FromSocket id e) w = Some w' -> busy (client w') = true ->
    (secure (client w) = true -> secure (client w') = true) /\
    (sockets w' = sockets w /\ current_url (client w') = current_url (client w) \/
     sockets w' = sockets w + 1 /\ redirects_followed (client w') = redirects_followed (client w) + 1 /\
     redirects_followed (client w') <= maxRedirects (options (client w))).
Proof.
  intros Hr. pose proof (reached_inv h w Hr) as Hinv. pose proof Hinv as [_ _ Hst _ He _]. split; [|split].
  - intros id text Hin Hni. destruct (He _ _ _ Hin) as [_ Hsec _ _]. by apply Hsec.
  - intros Hb. destruct Hst as [(_ & ? & _)|[_ Hrun]]; [congruence|apply Hrun].
  - intros id e w' Hp E Hb. destruct (perform_did _ h w Hinv Hp) as (w1 & E1 & _ & Hd). rewrite E in E1. injection E1 as <-.
    destruct Hd as [[_ ->]|[Hid Hd]]; [split; [done|by left]|]. destruct Hst as [(Hno & _)|[_ Hrun]]; [congruence|].
    destruct Hd as [l _ _ [(_ & Eu & _) _ _ _ _ Es] _ En|? ? ? ? _ _ _ [(_ & Eu & _) _ _ _ _ Es] _ _ En|[? ? _ _ _ (_ & ? & _) _|l _ _ _ En Hrun' (E1 & E2 & E3 & E4) _]].
    + split; [congruence|by left].
    + split; [congruence|by left].
    + congruence.
    + split; [|right; split; [done|lia]]. rewrite (run_secure _ Hrun), (run_secure _ Hrun'). done.
Qed.

(** What a socket is given is the text of the request it was made for: always a
    prefix of it, in order and without repetition, and on the socket in use what was
    written and what waits to be written are the whole. *)
Theorem request_written h w : reached h w -> ample -> forall id text s, (id, text, s) ∈ asked h -> zlen text < 2 ^ 62 ->
  wrote id (out w) `prefix_of` text /\
  (socket (client w) = Some id -> wrote id (out w) ++ Buffer.live (outgoing (client w)) = text).
Proof.
  intros Hr Ha id text s Hin Hz. destruct (inv_entries _ _ (reached_inv h w Hr) _ _ _ Hin) as [_ _ Hpre Hnow].
  split; [by apply Hpre|]. intros Hsk. destruct (Hnow Hsk) as [_ Ht]. by apply Ht.
Qed.

(** *** The blocking form *)

Definition from_below (i : Input) : Prop := match i with FromSocket _ _ | Expired => True | _ => False end.

Lemma heard_reports w : heard w = fold_left BlockingHandler_told (List.filter is_report (out w)) (mkBlockingHandler false HttpResponse.Ok HttpResponse.empty_Response).
Proof.
  unfold heard. generalize (mkBlockingHandler false HttpResponse.Ok HttpResponse.empty_Response). generalize (out w).
  induction l as [|[] l IH]; intros b; cbn; try apply IH; done.
Qed.

Lemma heard_none w : told (out w) = 0 -> bh_done (heard w) = false.
Proof. rewrite heard_reports. unfold told, zlen. by destruct (List.filter _ _). Qed.

Lemma heard_one w : told (out w) = 1 -> exists r, r ∈ out w /\ is_report r = true /\
  heard w = BlockingHandler_told (mkBlockingHandler false HttpResponse.Ok HttpResponse.empty_Response) r.
Proof.
  rewrite heard_reports. unfold told, zlen. destruct (List.filter is_report (out w)) as [|r [|? ?]] eqn:E; cbn; try lia. intros _. exists r.
  assert (List.In r (List.filter is_report (out w))) as Hin by (rewrite E; by left). apply List.filter_In in Hin as [Hin Hr].
  split; [by apply list_elem_of_In|done].
Qed.

(** What a fetch keeps: one request was begun and none abandoned. *)
Definition fetching (w : World) : Prop := exists h, inv h w /\ started h = 1 /\ abandoned h = 0.

Lemma fetching_all l : forall w, fetching w -> Forall from_below l -> exists w', perform_all l w = Some w' /\ fetching w'.
Proof.
  induction l as [|i l IH]; intros w (h & Hinv & H1 & H0) Hl; [exists w; split; [done|by exists h]|].
  apply Forall_cons in Hl as [Hi Hl]. assert (permitted i w h) as Hp by by destruct i.
  destruct (perform_did i h w Hinv Hp) as (w1 & E1 & _). cbn [perform_all]. rewrite E1. cbn [mbind option_bind].
  apply IH; [|done]. exists (remember i w w1 h). split; [by eapply inv_step|]. destruct i as [| | |id e|]; try done; cbn; split; lia.
Qed.

Lemma fetching_loop slices : forall w, fetching w -> Forall (Forall from_below) slices ->
  exists w', fetch_loop slices w = Some w' /\ fetching w'.
Proof.
  induction slices as [|l slices IH]; intros w Hw Hs; [by exists w|]. apply Forall_cons in Hs as [Hl Hs].
  cbn [fetch_loop]. destruct (bh_done _); [by exists w|]. destruct (fetching_all l w Hw Hl) as (w1 & -> & Hw1). by apply IH.
Qed.

(** The blocking form always returns, whatever the network does: with the one
    response or error that the client reported, or with a timeout and nothing
    reported; and it leaves no connection behind. *)
Theorem fetch_answers m u extra body wait slices : Forall (Forall from_below) slices ->
  exists why answer w, fetch m u extra body wait slices = Some (why, answer, w) /\ busy (client w) = false /\ socket (client w) = None /\
    match answer with
    | None => why = HttpResponse.RequestTimeout /\ told (out w) = 0
    | Some r => told (out w) = 1 /\ (EventHttpResponse r ∈ out w /\ why = HttpResponse.Ok \/ EventHttpError why ∈ out w)
    end.
Proof.
  intros Hs. set (o := mkOptions wait HttpResponse.default_Limits [] false 0 None).
  assert (HttpResponse.limits_ok (o_limits o)) as Ho by (by constructor).
  pose proof (new_inv o Ho) as H0. set (w0 := mkWorld (new_Client o) 0 []) in *.
  destruct (perform_did (Request m u extra body) _ w0 H0 I) as (w1 & E1 & _). pose proof (inv_step (Request m u extra body) _ _ _ H0 I E1) as H1.
  destruct (fetching_loop slices w1) as (w2 & E2 & h & H2 & Hb & Ha); [by eexists; split|done|].
  unfold fetch. cbv zeta. fold o. fold w0. cbn [perform] in E1. injection E1 as <-. rewrite E2. cbn [mbind option_bind].
  pose proof H2 as [_ _ Hst Hc _ _]. rewrite Hb, Ha in Hc. destruct (busy (client w2)) eqn:Eb.
  - rewrite heard_none by lia. cbn [negb]. eexists _, _, _. split; [done|]. unfold abort. rewrite teardown_eq. cbn.
    do 3 (split; [done|]). rewrite told_quiet by apply closing_quiet. lia.
  - destruct (heard_one w2) as (r & Hr & Hrep & Eh); [lia|]. rewrite Eh. destruct Hst as [(Hno & _)|[_ Hrun]]; [|by rewrite (run_busy _ Hrun) in Eb].
    destruct r; try done; cbn; eexists _, _, _; (split; [done|]); (split; [done|]); (split; [done|]); (split; [lia|]); [by left|by right].
Qed.
End client.

(** ** Runs *)

Definition no_pton : Inet.Version -> bytes -> option bytes := fun _ _ => None.
Definition all_memory : Z -> bool := fun _ => true.
Definition any_socket : Z -> bytes -> Z -> bool := fun _ _ _ => true.

Definition permittedb (i : Input) (w : World) (h : History) : bool :=
  match i with
  | SetOptions _ => false
  | _ => true
  end.

Fixpoint run (l : list Input) (h : History) (w : World) : option (History * World) :=
  match l with
  | [] => Some (h, w)
  | i :: l => if permittedb i w h then w' ← perform no_pton all_memory any_socket i w; run l (remember i w w' h) w' else None
  end.
Definition run_from (o : Options) (l : list Input) : option (History * World) :=
  run l (mkHistory 0 0 [] []) (mkWorld (new_Client no_pton o) 0 []).

Lemma permittedb_ok i w h : permittedb i w h = true -> permitted i w h.
Proof.
  by destruct i.
Qed.

Lemma run_reached l : forall h w h' w', reached no_pton all_memory any_socket h w -> run l h w = Some (h', w') ->
  reached no_pton all_memory any_socket h' w'.
Proof.
  induction l as [|i l IH]; intros h w h' w' Hr E; cbn [run] in E; [by simplify_eq|].
  destruct (permittedb i w h) eqn:Hp; [|done]. destruct (perform _ _ _ i w) as [w1|] eqn:E1; [|done]. cbn [mbind option_bind] in E.
  eapply IH; [|exact E]. apply reached_input; [done|by apply permittedb_ok|done].
Qed.

Lemma run_from_reached o l h w : HttpResponse.limits_ok (o_limits o) -> run_from o l = Some (h, w) ->
  reached no_pton all_memory any_socket h w.
Proof. intros Ho. apply run_reached. by apply reached_start. Qed.

Definition demo_url (t : bytes) : URL := Url.parse no_pton t.
Definition demo_get : list Input :=
  [Request Get (demo_url (lit "http://h/x")) [] []; FromSocket 0 (Connected None false (Wrote 10)); FromSocket 0 (CanWrite (Wrote 5))].
Definition demo_reply : bytes := lit "HTTP/1.1 200 OK" ++ crlf ++ lit "Content-Length: 2" ++ crlf ++ crlf ++ lit "hi".

Definition demo_view (r : option (History * World)) : option (Z * bool * bytes) :=
  '(h, w) ← r; Some (told (out w), busy (client w), wrote 0 (out w)).

Lemma demo_get_runs : demo_view (run_from default_Options demo_get) = Some (0, true, lit "GET /x HTTP/1.1").
Proof. vm_compute. reflexivity. Qed.

Lemma default_options_ok : HttpResponse.limits_ok (o_limits default_Options).
Proof. by constructor. Qed.

Lemma run_view o l v : demo_view (run_from o l) = Some v -> exists h w, run_from o l = Some (h, w) /\ v = (told (out w), busy (client w), wrote 0 (out w)).
Proof. destruct (run_from o l) as [[h w]|]; [|done]. intros [= <-]. by exists h, w. Qed.

Lemma client_reports_once_witness :
  exists h w, reached no_pton all_memory any_socket h w /\ told (out w) = 0 /\
    exists w', perform no_pton all_memory any_socket Expired w = Some w' /\ busy (client w') = false /\ told (out w') = 1.
Proof.
  destruct (run_view _ _ _ demo_get_runs) as (h & w & E & [= Ht Hb _]).
  pose proof (run_from_reached _ _ h w default_options_ok E) as Hr. exists h, w. split; [exact Hr|]. split; [by rewrite Ht|].
  destruct (client_reports_once no_pton all_memory any_socket h w Hr) as (_ & Hbusy & _). rewrite <- Hb in Hbusy.
  destruct Hbusy as (_ & _ & w' & ? & ? & Hw'). exists w'. split; [done|]. split; [done|]. by rewrite Hw', <- Ht.
Defined.

Definition demo_secret : list Input :=
  [Request Get (demo_url (lit "https://h/x")) [] []; FromSocket 0 (Connected None true (Wrote 100))].

Definition only_secret (h : History) : bool :=
  match asked h, released h with [(0, text, true)], [] => zlen text <? 2 ^ 62 | _, _ => false end.

Lemma demo_secret_runs : (fun r => only_secret (fst r)) <$> run_from default_Options demo_secret = Some true.
Proof. vm_compute. reflexivity. Qed.

Lemma client_stays_secure_witness :
  exists h w text, reached no_pton all_memory any_socket h w /\ (0, text, true) ∈ asked h /\ wrote 0 (out w) = [].
Proof.
  pose proof demo_secret_runs as V. destruct (run_from default_Options demo_secret) as [[h w]|] eqn:E; [|discriminate V].
  injection V as V. unfold only_secret in V. pose proof (run_from_reached _ _ h w default_options_ok E) as Hr.
  destruct (client_stays_secure no_pton all_memory any_socket h w Hr) as (Hsec & _).
  destruct (asked h) as [|[[[|id|id] text] [|]] [|? ?]] eqn:Ea; try discriminate V.
  destruct (released h) eqn:Ee; [|discriminate V]. exists h, w, text.
  split; [exact Hr|]. split; [rewrite Ea; by left|]. apply (Hsec 0 text); [by left|]. intros Hin. by apply elem_of_nil in Hin.
Defined.


Lemma request_written_witness :
  exists h w text, reached no_pton all_memory any_socket h w /\ (0, text, true) ∈ asked h /\ (wrote 0 (out w) `prefix_of` text).
Proof.
  pose proof demo_secret_runs as V. destruct (run_from default_Options demo_secret) as [[h w]|] eqn:E; [|discriminate V].
  injection V as V. unfold only_secret in V. pose proof (run_from_reached _ _ h w default_options_ok E) as Hr.
  assert (ample all_memory) as Ha by (intros n _; reflexivity).
  pose proof (request_written no_pton all_memory any_socket h w Hr Ha) as H.
  destruct (asked h) as [|[[[|id|id] text] [|]] [|? ?]] eqn:Ea; try discriminate V.
  destruct (released h) eqn:Ee; [|discriminate V]. exists h, w, text. split; [exact Hr|]. split; [rewrite Ea; by left|].
  apply (H 0 text true); [by left|]. by apply Z.ltb_lt.
Defined.

Definition demo_slices : list (list Input) := [[FromSocket 0 (Connected None false (Wrote 100))]; [FromSocket 0 (DataAvailable [ReadOk demo_reply])]].

Lemma fetch_answers_witness :
  exists why answer w, fetch no_pton all_memory any_socket Get (demo_url (lit "http://h/x")) [] [] 1000 demo_slices = Some (why, answer, w) /\
    busy (client w) = false /\ why = HttpResponse.Ok /\ HttpResponse.body <$> answer = Some (lit "hi").
Proof.
  destruct (fetch_answers no_pton all_memory any_socket Get (demo_url (lit "http://h/x")) [] [] 1000 demo_slices) as (why & answer & w & E & Hb & _ & _).
  { repeat constructor. }
  exists why, answer, w. split; [exact E|]. split; [exact Hb|].
  assert (option_map (fun r => (fst (fst r), HttpResponse.body <$> snd (fst r)))
    (fetch no_pton all_memory any_socket Get (demo_url (lit "http://h/x")) [] [] 1000 demo_slices) = Some (HttpResponse.Ok, Some (lit "hi"))) as V by (vm_compute; reflexivity).
  rewrite E in V. cbn in V. injection V as -> ->. split; reflexivity.
Defined.

(** *** Where the client departs from what it says *)

(** A socket that says it can be written to before TLS is established, as [Socket.v]
    shows one to do after a handshake that the peer closed, gets the request. *)
Lemma writable_sends_plain :
  (fun r => (wrote 0 (out (snd r)), secure (client (snd r)), handshaking (client (snd r)))) <$>
    run_from default_Options (demo_secret ++ [FromSocket 0 (CanWrite (Wrote 6))]) = Some (lit "GET /x", true, true).
Proof. vm_compute. reflexivity. Qed.

(** A write that fails over TLS is reported as a connection that could not be made;
    and a request that the handler of that report begins - the socket reports from
    inside [write] - is ended when [write] returns. *)
Lemma broken_tls_reported :
  (fun r => last (out (snd r))) <$>
    run_from default_Options (demo_secret ++ [FromSocket 0 (TLSConnected (Wrote 3)); FromSocket 0 (CanWrite TlsBroken)]) =
    Some (Some (EventHttpError HttpResponse.ConnectFailed)) /\
  (fun r => let w := request no_pton all_memory any_socket Get (demo_url (lit "http://other/")) [] [] (EventError false (snd r)) in
            (busy (client w), busy (client (internal_fail HttpResponse.Disconnected w)))) <$>
    run_from default_Options (demo_secret ++ [FromSocket 0 (TLSConnected (Wrote 3))]) = Some (true, false).
Proof. vm_compute. split; reflexivity. Qed.

(** A request made while another is under way ends the other and is not made. *)
Lemma busy_request_kills :
  option_map (fun r => (started (fst r), told (out (snd r)), busy (client (snd r)), last (out (snd r))))
    (run_from default_Options (demo_get ++ [Request Get (demo_url (lit "http://other/")) [] []])) =
  Some (1, 1, false, Some (EventHttpError HttpResponse.Aborted)).
Proof. vm_compute. reflexivity. Qed.

(** A fragment is sent, and a query without a path has no slash before it. *)
Lemma fragment_is_sent :
  request_head Get (demo_url (lit "http://h?q#part")) [] = lit "GET ?q#part HTTP/1.1" ++ crlf ++ crlf.
Proof. vm_compute. reflexivity. Qed.

(** A line break in a URL that is valid starts a header of its own. *)
Lemma url_splits_request :
  let u := demo_url (lit "http://h/x HTTP/1.1" ++ crlf ++ lit "Evil: yes" ++ crlf ++ lit "X: ") in
  valid u = true /\
  request_head Get u [] = lit "GET /x HTTP/1.1" ++ crlf ++ lit "Evil: yes" ++ crlf ++ lit "X:  HTTP/1.1" ++ crlf ++ crlf.
Proof. vm_compute. split; reflexivity. Qed.

(** What the caller said for one host is sent to another after a redirect. *)
Lemma redirect_keeps_headers :
  option_map (fun r => (hostname (current_url (client (snd r))), current_extra (client (snd r))))
    (run_from (mkOptions 1000 HttpResponse.default_Limits [] false 5 None)
      [Request Get (demo_url (lit "http://h/x")) [(lit "Authorization", lit "secret")] []; FromSocket 0 (Connected None false (Wrote 100));
       FromSocket 0 (DataAvailable [ReadOk (lit "HTTP/1.1 302 Found" ++ crlf ++ lit "Location: http://other/" ++ crlf ++ lit "Content-Length: 0" ++ crlf ++ crlf)])]) =
  Some (lit "other", [(lit "Authorization", lit "secret")]).
Proof. vm_compute. reflexivity. Qed.
