(* ===== verification/Socket.v ===== *)
(** * Socket: [src/io/net/socket.cpp] and the parts of [socketbase.cpp] it uses

    A stream socket as a state machine. What the operating system, OpenSSL and the
    resolver answer is an environment [Env] that is asked at every step of a clock,
    so that any behaviour of theirs is one of its values. The handler may call the
    socket back from inside an event: [script] says what it does at each event it is
    told of, [perform] runs that, and a script of [n] reactions needs a nesting of at
    most [n + 1] calls. Messages that explain an error are left out. *)

From S2P Require Import Prelude Strings Inet Proxy.
From S2P Require Socks5.

#[local] Existing Instances Socks5.Status_eq_dec.

(** ** Data *)

(* @src src/include/samurai/io/net/socketbase.h:24-42 Samurai::IO::Net::SocketState *)
Inductive SocketState :=
  | Disconnected | HostLookup | HostFound | Connecting | Connected | Disconnecting | Listening
  | ProxyHandshake | SSLHandshake | SSLConnected | SSLBye | Invalid.

#[export] Instance SocketState_eq_dec : EqDecision SocketState.
Proof. solve_decision. Defined.

(* @src src/include/samurai/io/net/tlsfactory.h:30-36 Samurai::IO::Net::TlsFactory::TlsStatus *)
Inductive TlsStatus := TlsOk | WantWrite | WantRead | TlsClosed | TlsError.

#[export] Instance TlsStatus_eq_dec : EqDecision TlsStatus.
Proof. solve_decision. Defined.

(* @src src/include/samurai/io/net/socketmonitor.h:53-62 Samurai::IO::Net::SocketMonitor::Triggers *)
Record Triggers := mkTriggers { t_read : bool; t_write : bool; t_close : bool; t_error : bool }.
Definition none : Triggers := mkTriggers false false false false.

(** What the handler is told. *)
(* @src src/include/samurai/io/net/socketevent.h:40-109 Samurai::IO::Net::SocketEventHandler *)
Inductive Event :=
  | EventHostLookup | EventHostFound | EventConnecting | EventConnected | EventTimeout | EventDisconnected
  | EventDataAvailable | EventCanWrite | EventTLSConnected | EventTLSDisconnected | EventError (e : Socks5.SocketError).

(* @src src/include/samurai/io/net/socket.h:293-293 Samurai::IO::Net::Socket::LookupTarget *)
Inductive LookupTarget := Peer | TheProxy.

#[export] Instance LookupTarget_eq_dec : EqDecision LookupTarget.
Proof. solve_decision. Defined.

(** [sd] is the descriptor; [addr] an address and a port; [peer_pending] and
    [proxy_pending] whether a resolver is at work for [address] and
    [proxy_address]. *)
(* @src src/include/samurai/io/net/socket.h:267-335 Samurai::IO::Net::Socket *)
Record Socket := mkSocket {
  sd : option Z;
  addr : option (InetAddress * Z);
  state : SocketState;
  monitor_trigger : Triggers;
  monitored : bool;
  address : option InetAddress;
  port : Z;
  autoConnectAfterLookup : bool;
  handler : bool;
  timer : bool;
  connect_timeout : Z;
  outbound : bool;
  lookup_target : LookupTarget;
  reuse_local_port : bool;
  local_port : Z;
  proxy : ProxySettings;
  proxy_address : option InetAddress;
  handshake : option Socks5.Socks5Handshake;
  tls : bool;
  allow_untrusted : option bool;
  peer_pending : bool;
  proxy_pending : bool
}.

Definition with_sd (d : option Z) (s : Socket) : Socket :=
  mkSocket d (addr s) (state s) (monitor_trigger s) (monitored s) (address s) (port s) (autoConnectAfterLookup s) (handler s) (timer s) (connect_timeout s) (outbound s) (lookup_target s) (reuse_local_port s) (local_port s) (proxy s) (proxy_address s) (handshake s) (tls s) (allow_untrusted s) (peer_pending s) (proxy_pending s).
Definition with_addr (a : option (InetAddress * Z)) (s : Socket) : Socket :=
  mkSocket (sd s) a (state s) (monitor_trigger s) (monitored s) (address s) (port s) (autoConnectAfterLookup s) (handler s) (timer s) (connect_timeout s) (outbound s) (lookup_target s) (reuse_local_port s) (local_port s) (proxy s) (proxy_address s) (handshake s) (tls s) (allow_untrusted s) (peer_pending s) (proxy_pending s).
Definition with_state (st : SocketState) (s : Socket) : Socket :=
  mkSocket (sd s) (addr s) st (monitor_trigger s) (monitored s) (address s) (port s) (autoConnectAfterLookup s) (handler s) (timer s) (connect_timeout s) (outbound s) (lookup_target s) (reuse_local_port s) (local_port s) (proxy s) (proxy_address s) (handshake s) (tls s) (allow_untrusted s) (peer_pending s) (proxy_pending s).
Definition with_monitor (t : Triggers) (m : bool) (s : Socket) : Socket :=
  mkSocket (sd s) (addr s) (state s) t m (address s) (port s) (autoConnectAfterLookup s) (handler s) (timer s) (connect_timeout s) (outbound s) (lookup_target s) (reuse_local_port s) (local_port s) (proxy s) (proxy_address s) (handshake s) (tls s) (allow_untrusted s) (peer_pending s) (proxy_pending s).
Definition with_address (a : option InetAddress) (p : bool) (s : Socket) : Socket :=
  mkSocket (sd s) (addr s) (state s) (monitor_trigger s) (monitored s) a (port s) (autoConnectAfterLookup s) (handler s) (timer s) (connect_timeout s) (outbound s) (lookup_target s) (reuse_local_port s) (local_port s) (proxy s) (proxy_address s) (handshake s) (tls s) (allow_untrusted s) p (proxy_pending s).
Definition with_auto (b : bool) (s : Socket) : Socket :=
  mkSocket (sd s) (addr s) (state s) (monitor_trigger s) (monitored s) (address s) (port s) b (handler s) (timer s) (connect_timeout s) (outbound s) (lookup_target s) (reuse_local_port s) (local_port s) (proxy s) (proxy_address s) (handshake s) (tls s) (allow_untrusted s) (peer_pending s) (proxy_pending s).
Definition with_handler (h : bool) (s : Socket) : Socket :=
  mkSocket (sd s) (addr s) (state s) (monitor_trigger s) (monitored s) (address s) (port s) (autoConnectAfterLookup s) h (timer s) (connect_timeout s) (outbound s) (lookup_target s) (reuse_local_port s) (local_port s) (proxy s) (proxy_address s) (handshake s) (tls s) (allow_untrusted s) (peer_pending s) (proxy_pending s).
Definition with_timer (t : bool) (s : Socket) : Socket :=
  mkSocket (sd s) (addr s) (state s) (monitor_trigger s) (monitored s) (address s) (port s) (autoConnectAfterLookup s) (handler s) t (connect_timeout s) (outbound s) (lookup_target s) (reuse_local_port s) (local_port s) (proxy s) (proxy_address s) (handshake s) (tls s) (allow_untrusted s) (peer_pending s) (proxy_pending s).
Definition with_timeout (t : Z) (s : Socket) : Socket :=
  mkSocket (sd s) (addr s) (state s) (monitor_trigger s) (monitored s) (address s) (port s) (autoConnectAfterLookup s) (handler s) (timer s) t (outbound s) (lookup_target s) (reuse_local_port s) (local_port s) (proxy s) (proxy_address s) (handshake s) (tls s) (allow_untrusted s) (peer_pending s) (proxy_pending s).
Definition with_target (t : LookupTarget) (s : Socket) : Socket :=
  mkSocket (sd s) (addr s) (state s) (monitor_trigger s) (monitored s) (address s) (port s) (autoConnectAfterLookup s) (handler s) (timer s) (connect_timeout s) (outbound s) t (reuse_local_port s) (local_port s) (proxy s) (proxy_address s) (handshake s) (tls s) (allow_untrusted s) (peer_pending s) (proxy_pending s).
Definition with_local (b : bool) (p : Z) (s : Socket) : Socket :=
  mkSocket (sd s) (addr s) (state s) (monitor_trigger s) (monitored s) (address s) (port s) (autoConnectAfterLookup s) (handler s) (timer s) (connect_timeout s) (outbound s) (lookup_target s) b p (proxy s) (proxy_address s) (handshake s) (tls s) (allow_untrusted s) (peer_pending s) (proxy_pending s).
Definition with_proxy (p : ProxySettings) (s : Socket) : Socket :=
  mkSocket (sd s) (addr s) (state s) (monitor_trigger s) (monitored s) (address s) (port s) (autoConnectAfterLookup s) (handler s) (timer s) (connect_timeout s) (outbound s) (lookup_target s) (reuse_local_port s) (local_port s) p (proxy_address s) (handshake s) (tls s) (allow_untrusted s) (peer_pending s) (proxy_pending s).
Definition with_proxy_address (a : option InetAddress) (p : bool) (s : Socket) : Socket :=
  mkSocket (sd s) (addr s) (state s) (monitor_trigger s) (monitored s) (address s) (port s) (autoConnectAfterLookup s) (handler s) (timer s) (connect_timeout s) (outbound s) (lookup_target s) (reuse_local_port s) (local_port s) (proxy s) a (handshake s) (tls s) (allow_untrusted s) (peer_pending s) p.
Definition with_handshake (h : option Socks5.Socks5Handshake) (s : Socket) : Socket :=
  mkSocket (sd s) (addr s) (state s) (monitor_trigger s) (monitored s) (address s) (port s) (autoConnectAfterLookup s) (handler s) (timer s) (connect_timeout s) (outbound s) (lookup_target s) (reuse_local_port s) (local_port s) (proxy s) (proxy_address s) h (tls s) (allow_untrusted s) (peer_pending s) (proxy_pending s).
Definition with_tls (b : bool) (s : Socket) : Socket :=
  mkSocket (sd s) (addr s) (state s) (monitor_trigger s) (monitored s) (address s) (port s) (autoConnectAfterLookup s) (handler s) (timer s) (connect_timeout s) (outbound s) (lookup_target s) (reuse_local_port s) (local_port s) (proxy s) (proxy_address s) (handshake s) b (allow_untrusted s) (peer_pending s) (proxy_pending s).
Definition with_untrusted (b : option bool) (s : Socket) : Socket :=
  mkSocket (sd s) (addr s) (state s) (monitor_trigger s) (monitored s) (address s) (port s) (autoConnectAfterLookup s) (handler s) (timer s) (connect_timeout s) (outbound s) (lookup_target s) (reuse_local_port s) (local_port s) (proxy s) (proxy_address s) (handshake s) (tls s) b (peer_pending s) (proxy_pending s).

(** ** The world *)

Inductive ConnectOutcome := AtOnce | InProgress | Refused.

(** What is outside: at each tick of the clock, what a call would answer. [inl] is an
    errno. *)
Record Env := mkEnv {
  EAGAIN : Z; EWOULDBLOCK : Z; EINTR : Z; ENOTCONN : Z; EPROTO : Z;
  ETIMEDOUT : Z; ECONNREFUSED : Z; EHOSTUNREACH : Z; EHOSTDOWN : Z; ENETDOWN : Z; ENETUNREACH : Z;
  e_socket : nat -> bool;
  e_nonblocking : nat -> bool;
  e_shareable : nat -> bool;
  e_bind : nat -> bool;
  e_connect : nat -> ConnectOutcome;
  e_soerror : nat -> option Z;
  e_probe : nat -> Z + Z;
  e_send : nat -> bytes -> Z + Z;
  e_recv : nat -> Z -> Z + bytes;
  e_tls_init : nat -> bool;
  e_tls : nat -> TlsStatus;
  e_tls_write : nat -> bytes -> TlsStatus * Z;
  e_tls_read : nat -> Z -> TlsStatus * bytes;
  e_tls_pending : nat -> Z;
  e_lookup_fails : nat -> bool
}.

(** What is seen from outside. A lookup and a connection say whose address they are
    for. *)
Inductive Output :=
  | Told (e : Event)
  | Lookup (t : LookupTarget)
  | ConnectTo (fd : Z) (a : InetAddress) (p : Z)
  | Opened (fd : Z)
  | Closed (fd : Z)
  | Pumped (st : Socks5.Status)
  | TlsStarted (server : bool) (peer : option bytes) (untrusted : option bool)
  | TlsDropped
  | Handshake (st : TlsStatus)
  | Goodbye (st : TlsStatus)
  | SentPlain (d : bytes)
  | GotPlain (d : bytes)
  | SentTls (d : bytes)
  | GotTls (d : bytes).

(** What an application can ask of a socket. *)
Inductive Call :=
  | Connect | Disconnect | LookupPeer | Close
  | SetProxy (p : ProxySettings) | SetReuseLocalPort (p : Z) | SetConnectTimeout (t : Z) | SetEventHandler (h : bool)
  | ToggleWriteNotifier (b : bool)
  | Write (d : bytes) | Read (n : Z) | Peek (n : Z)
  | WriteEc (d : bytes) | ReadEc (n : Z) | PeekEc (n : Z) | WriteAll (ds : list bytes)
  | TLSInit (server : bool) | TLSDeinit | TLSHandshake | TLSGoodbye | TLSAllowUntrusted (b : bool).

(** [misused] is whether the proxy was set after the socket was first used, which the
    header forbids; [tunnel_sent] and [tunnel_got] are the bytes exchanged with the
    proxy. *)
Record world := mkWorld {
  self : Socket;
  clock : nat;
  next_fd : Z;
  log : list Output;
  script : list (Event -> list Call);
  misused : bool;
  tunnel_sent : bytes;
  tunnel_got : bytes
}.

Definition put (s : Socket) (w : world) : world :=
  mkWorld s (clock w) (next_fd w) (log w) (script w) (misused w) (tunnel_sent w) (tunnel_got w).
Definition say (o : Output) (w : world) : world :=
  mkWorld (self w) (clock w) (next_fd w) (log w ++ [o]) (script w) (misused w) (tunnel_sent w) (tunnel_got w).
Definition tick (w : world) : world :=
  mkWorld (self w) (S (clock w)) (next_fd w) (log w) (script w) (misused w) (tunnel_sent w) (tunnel_got w).
Definition with_script (l : list (Event -> list Call)) (w : world) : world :=
  mkWorld (self w) (clock w) (next_fd w) (log w) l (misused w) (tunnel_sent w) (tunnel_got w).
Definition with_tunnel (t : nat) (sent got : bytes) (w : world) : world :=
  mkWorld (self w) t (next_fd w) (log w) (script w) (misused w) sent got.
Definition misuse (w : world) : world :=
  mkWorld (self w) (clock w) (next_fd w) (log w) (script w) true (tunnel_sent w) (tunnel_got w).
Definition new_fd (w : world) : world :=
  mkWorld (self w) (clock w) (next_fd w + 1) (log w) (script w) (misused w) (tunnel_sent w) (tunnel_got w).
Definition update (f : Socket -> Socket) (w : world) : world := put (f (self w)) w.

Section socket.
Variable inet_pton : Inet.Version -> bytes -> option bytes.
Variable inet_ntop : Inet.Version -> bytes -> option bytes.
Variable env : Env.

Definition passing (e : Z) : bool := Socks5.transient (EAGAIN env) (EWOULDBLOCK env) (EINTR env) e.

(** ** Construction *)

Definition blank (a : option InetAddress) (p : Z) (out : bool) (default : ProxySettings) : Socket :=
  mkSocket None None Disconnected none false a p false true false 30000 out Peer false 0 default None None false None false false.

(* @src src/src/io/net/socket.cpp:31-48 Samurai::IO::Net::Socket::Socket *)
Definition new_Socket (default : ProxySettings) (a : bytes) (p : Z) : Socket := blank (Some (new_InetAddress inet_pton a)) p true default.
(* @src src/src/io/net/socket.cpp:50-69 Samurai::IO::Net::Socket::Socket *)
Definition new_Socket_address (default : ProxySettings) (a : InetAddress) (p : Z) : Socket := blank (Some a) p true default.
(* @src src/src/io/net/socket.cpp:71-88 Samurai::IO::Net::Socket::Socket *)
Definition new_Socket_accepted (fd : Z) (a : InetAddress) (p : Z) : Socket :=
  with_handler false (with_sd (Some fd) (with_addr (Some (a, p)) (with_state Connected (blank None 0 false no_ProxySettings)))).

(* @src src/include/samurai/io/net/socket.h:128-128 Samurai::IO::Net::Socket::isProxied *)
Definition isProxied (s : Socket) : bool := outbound s && isEnabled (proxy s).
(* @src src/include/samurai/io/net/socket.h:263-264 Samurai::IO::Net::Socket::isSecure *)
Definition isSecure (s : Socket) : bool := tls s && bool_decide (state s = SSLConnected).
(* @src src/src/io/net/socket.cpp:118-127 Samurai::IO::Net::Socket::getPeerName *)
Definition getPeerName (s : Socket) : bytes :=
  match address s with
  | None => []
  | Some a => if negb (bool_decide (hostname a = [])) then hostname a else getAddress inet_ntop a
  end.
(* @src src/src/io/net/socketbase.cpp:151-161 Samurai::IO::Net::SocketBase::getAddress *)
Definition getAddress (s : Socket) : option InetAddress := option_map fst (addr s).
(* @src src/src/io/net/socketbase.cpp:164-167 Samurai::IO::Net::SocketBase::getPort *)
Definition getPort (s : Socket) : Z := match addr s with Some (_, p) => p | None => 0 end.

(** ** The descriptor and the monitor *)

(* @src src/src/io/net/socketbase.cpp:394-404 Samurai::IO::Net::SocketBase::setMonitor *)
Definition setMonitor (t : Triggers) (s : Socket) : Socket := with_monitor t true s.
(* @src src/src/io/net/socketbase.cpp:406-413 Samurai::IO::Net::SocketBase::disableMonitor *)
Definition disableMonitor (s : Socket) : Socket := with_monitor (monitor_trigger s) false s.
(* @src src/src/io/net/socket.cpp:915-920 Samurai::IO::Net::Socket::toggleWriteNotifier *)
Definition toggleWriteNotifier (b : bool) (s : Socket) : Socket := setMonitor (mkTriggers true b false false) s.
(* @src src/src/io/net/socketbase.cpp:378-392 Samurai::IO::Net::SocketBase::close *)
Definition close (w : world) : world :=
  match sd (self w) with
  | None => w
  | Some fd => say (Closed fd) (update (fun s => with_sd None (disableMonitor s)) w)
  end.
(** A descriptor the socket already has is forgotten. *)
(* @src src/src/io/net/socketbase.cpp:415-436 Samurai::IO::Net::SocketBase::createDescriptor *)
Definition createDescriptor (w : world) : bool * world :=
  if e_socket env (clock w) then (true, say (Opened (next_fd w)) (new_fd (update (with_sd (Some (next_fd w))) (tick w))))
  else (false, update (with_sd None) (tick w)).

(* @src src/src/io/net/socket.cpp:106-109 Samurai::IO::Net::Socket::setConnectTimeout *)
Definition setConnectTimeout (t : Z) (s : Socket) : Socket := with_timeout t s.
(* @src src/src/io/net/socket.cpp:111-115 Samurai::IO::Net::Socket::setProxy *)
Definition setProxy (p : ProxySettings) (s : Socket) : Socket := if negb (bool_decide (state s = Disconnected)) then s else with_proxy p s.
(* @src src/src/io/net/socket.cpp:97-104 Samurai::IO::Net::Socket::setEventHandler *)
Definition setEventHandler (h : bool) (s : Socket) : Socket :=
  with_handler h (if negb (handler s) && h && bool_decide (is_Some (sd s)) then setMonitor (mkTriggers true false false false) s else s).
(* @src src/src/io/net/socket.cpp:580-584 Samurai::IO::Net::Socket::setReuseLocalPort *)
Definition setReuseLocalPort (p : Z) (s : Socket) : Socket := with_local true p s.
(* @src src/include/samurai/io/net/socket.h:246-246 Samurai::IO::Net::Socket::TLSsetAllowUntrusted *)
Definition TLSsetAllowUntrusted (b : bool) (s : Socket) : Socket := with_untrusted (Some b) s.
(* @src src/src/io/net/socket.cpp:953-957 Samurai::IO::Net::Socket::TLSDeinitialize *)
Definition TLSDeinitialize (s : Socket) : Socket := with_tls false s.
(* @src src/src/io/net/socket.cpp:91-95 Samurai::IO::Net::Socket::~Socket *)
Definition destroy (w : world) : world := close (update TLSDeinitialize w).

(* @src src/src/io/net/socket.cpp:325-375 classify_socket_error *)
Definition classify_socket_error (e : Z) : Socks5.SocketError :=
  if e =? ETIMEDOUT env then Socks5.ConnectionTimeout
  else if e =? ECONNREFUSED env then Socks5.ConnectionRefused
  else if e =? EHOSTUNREACH env then Socks5.HostUnreachable
  else if e =? EHOSTDOWN env then Socks5.HostDown
  else if e =? ENETDOWN env then Socks5.NetDown
  else if e =? ENETUNREACH env then Socks5.NetUnreachable
  else Socks5.SocketUnknown.

(** ** Telling the handler *)

Variable perform : Call -> world -> option world.

Fixpoint run_calls (l : list Call) (w : world) : option world :=
  match l with [] => Some w | c :: l => w ← perform c w; run_calls l w end.

(** What nobody listens to is recorded all the same. *)
Definition notify (e : Event) (w : world) : option world :=
  let w := say (Told e) w in
  if negb (handler (self w)) then Some w
  else match script w with
       | [] => Some w
       | r :: rest => run_calls (r e) (with_script rest w)
       end.

(** ** Errors *)

(** [fail e w]: the socket is of no use any more. *)
Definition invalidate (w : world) : world := update (fun s => disableMonitor (with_state Invalid s)) w.

(* @src src/src/io/net/socket.cpp:377-386 Samurai::IO::Net::Socket::internal_error *)
Definition internal_error (e : Z) (w : world) : option world :=
  w ← notify (EventError (classify_socket_error e)) (update (with_state Invalid) w);
  Some (update disableMonitor w).

(* @src src/src/io/net/socket.cpp:388-392 Samurai::IO::Net::Socket::internal_closed *)
Definition internal_closed (w : world) : option world :=
  w ← notify EventDisconnected (update (with_state Disconnected) w);
  Some (update disableMonitor w).

(* @src src/src/io/net/socket.cpp:497-501 Samurai::IO::Net::Socket::internal_timeout *)
Definition internal_timeout (w : world) : option world :=
  notify (EventError Socks5.ConnectionTimeout) (close (update (with_state Disconnected) w)).

(* @src src/src/io/net/socket.cpp:438-451 Samurai::IO::Net::Socket::internal_proxy_failed *)
Definition internal_proxy_failed (w : world) : option world :=
  let code := match handshake (self w) with Some h => Socks5.error h | None => Socks5.ProxyProtocol end in
  notify (EventError code) (close (update (fun s => with_state Invalid (with_handshake None s)) w)).

(** ** Connecting *)

Definition send_at (t : nat) (d : bytes) : nat * (Z + Z) := (S t, e_send env t d).
Definition recv_at (t : nat) (n : Z) : nat * (Z + bytes) := (S t, e_recv env t n).

(** The pump needs at most 270 turns ([Socks5.pump_loop]). *)
(* @src src/src/io/net/socket.cpp:454-494 Samurai::IO::Net::Socket::internal_proxy_pump *)
Definition internal_proxy_pump (w : world) : option world :=
  match handshake (self w) with
  | None => Some w
  | Some h =>
      '((t, sent, got), h, want_write, ec) ←
        Socks5.socks5_pump (Socks5.logged_send send_at) (Socks5.logged_recv recv_at) (EAGAIN env) (EWOULDBLOCK env) (EINTR env) 270
          (clock w, tunnel_sent w, tunnel_got w) h;
      let w := say (Pumped (Socks5.status h)) (update (with_handshake (Some h)) (with_tunnel t sent got w)) in
      match ec with
      | Some e => internal_error e w
      | None =>
          let w := update (toggleWriteNotifier want_write) w in
          match Socks5.status h with
          | Socks5.Failed => internal_proxy_failed w
          | Socks5.Done =>
              notify EventConnected (update (fun s => with_state Connected (toggleWriteNotifier false (with_timer false (with_handshake None s)))) w)
          | _ => Some w
          end
      end
  end.

(* @src src/src/io/net/socket.cpp:394-435 Samurai::IO::Net::Socket::internal_connected *)
Definition internal_connected (w : world) : option world :=
  let answer := e_soerror env (clock w) in
  let w := tick w in
  match answer with
  | Some 0 =>
      if isProxied (self w) && bool_decide (is_Some (handshake (self w)))
      then internal_proxy_pump (update (with_state ProxyHandshake) w)
      else notify EventConnected (update (fun s => with_state Connected (toggleWriteNotifier false s)) w)
  | _ =>
      notify (EventError (classify_socket_error (default 0 answer))) (close (update (with_state Disconnected) w))
  end.

Definition connect_failed (w : world) : option world := notify (EventError Socks5.SocketUnknown) (invalidate w).

(** The questions have answers of their own, so the clock need not move after a good
    one. *)
(* @src src/src/io/net/socket.cpp:587-660 Samurai::IO::Net::Socket::internal_connect_addr *)
Definition internal_connect_addr (w : world) : option world :=
  '(a, p) ← addr (self w);
  let (created, w) := createDescriptor w in
  if negb created then connect_failed w
  else if negb (e_nonblocking env (clock w)) then connect_failed (tick w)
  else if reuse_local_port (self w) && negb (e_shareable env (clock w)) then connect_failed (tick w)
  else if reuse_local_port (self w) && negb (local_port (self w) =? 0) && negb (e_bind env (clock w)) then connect_failed (tick w)
  else
    let w := update (fun s => with_timer true (setMonitor (mkTriggers true true false false) s)) w in
    let w := say (ConnectTo (default 0 (sd (self w))) a p) w in
    let answer := e_connect env (clock w) in
    let w := tick w in
    match answer with
    | InProgress => notify EventConnecting (update (with_state Connecting) w)
    | Refused => connect_failed w
    | AtOnce => internal_connected w
    end.

(* @src src/src/io/net/socket.cpp:879-891 Samurai::IO::Net::Socket::EventHostError *)
Definition socket_EventHostError (w : world) : option world :=
  notify (EventError Socks5.HostNotFound) (update (fun s => disableMonitor (with_state Invalid (with_target Peer s))) w).

Definition set_pending (t : LookupTarget) (a : InetAddress) (b : bool) (s : Socket) : Socket :=
  match t with Peer => with_address (Some a) b s | TheProxy => with_proxy_address (Some a) b s end.

(** [InetAddress::lookup] with [found] for [EventHostFound]: it answers at once when
    the address is known, or when nothing can be asked, and otherwise later. *)
(* @src src/src/io/net/inetaddress.cpp:489-504 Samurai::IO::Net::InetAddress::lookup *)
Definition address_lookup (found : InetAddress -> world -> option world) (t : LookupTarget) (a : InetAddress) (w : world) : option world :=
  if bool_decide (resolveState a = Resolved) then found a w
  else
    let w := say (Lookup t) (update (set_pending t a false) w) in
    if e_lookup_fails env (clock w) then socket_EventHostError (tick w)
    else Some (update (set_pending t a true) (tick w)).

(** A reply about the proxy while it is the one being looked up. *)
Definition proxy_found (a : InetAddress) (w : world) : option world :=
  internal_connect_addr (update (fun s => with_target Peer (with_addr (Some (a, Proxy.port (proxy s))) s)) w).

(* @src src/src/io/net/socket.cpp:540-577 Samurai::IO::Net::Socket::internal_connect_proxy *)
Definition internal_connect_proxy (w : world) : option world :=
  let s := self w in
  let h := Socks5.new_Socks5Handshake inet_pton (proxy s) Socks5.Connect (getPeerName s) (port s) in
  let w := with_tunnel (clock w) [] [] (update (with_handshake (Some h)) w) in
  if bool_decide (Socks5.status h = Socks5.Failed) then internal_proxy_failed w
  else
    let a := match proxy_address s with Some a => a | None => new_InetAddress inet_pton (Proxy.host (proxy s)) end in
    let w := update (with_proxy_address (Some a) (proxy_pending s)) w in
    if negb (isResolved a) then address_lookup proxy_found TheProxy a (update (with_target TheProxy) w)
    else internal_connect_addr (update (with_addr (Some (a, Proxy.port (proxy s)))) w).

(** [found] is what [EventHostFound] does, which may connect in its turn. *)
(* @src src/src/io/net/socket.cpp:130-152 Samurai::IO::Net::Socket::lookup *)
Definition lookup_with (found : InetAddress -> world -> option world) (w : world) : option world :=
  if negb (bool_decide (state (self w) = Disconnected)) then Some w
  else if isProxied (self w) then notify (EventError Socks5.HostNotFound) w
  else match address (self w) with
       | None => Some w
       | Some _ => w ← notify EventHostLookup w; a ← address (self w); address_lookup found Peer a w
       end.

(* @src src/src/io/net/socket.cpp:504-528 Samurai::IO::Net::Socket::connect *)
Definition connect_with (found : InetAddress -> world -> option world) (w : world) : option world :=
  let s := self w in
  if negb (bool_decide (state s = Disconnected) || bool_decide (state s = HostFound)) then Some w
  else if isProxied s then internal_connect_proxy w
  else match addr s with
       | None => lookup_with found (update (with_auto true) w)
       | Some _ => internal_connect_addr w
       end.

(** With an address at hand, connecting asks for none. *)
Definition connect_known (w : world) : option world := connect_with (fun _ w => Some w) w.

(* @src src/src/io/net/socket.cpp:857-876 Samurai::IO::Net::Socket::EventHostFound *)
Definition socket_EventHostFound (a : InetAddress) (w : world) : option world :=
  match lookup_target (self w) with
  | TheProxy => proxy_found a w
  | Peer =>
      w ← notify EventHostFound (update (fun s => with_state HostFound (with_addr (Some (a, port s)) s)) w);
      if autoConnectAfterLookup (self w) then connect_known w else Some w
  end.

Definition lookup (w : world) : option world := lookup_with socket_EventHostFound w.
Definition connect (w : world) : option world := connect_with socket_EventHostFound w.

(* @src src/src/io/net/socket.cpp:663-680 Samurai::IO::Net::Socket::disconnect *)
Definition disconnect (w : world) : option world :=
  w ← match state (self w) with
      | Connecting | ProxyHandshake | Connected | SSLHandshake | SSLConnected | SSLBye =>
          notify EventDisconnected (update (with_state Disconnected) w)
      | _ => Some w
      end;
  Some (close w).

(* @src src/src/io/net/socket.cpp:902-912 Samurai::IO::Net::Socket::EventTimeout *)
Definition socket_EventTimeout (w : world) : option world :=
  let connecting := bool_decide (state (self w) = Connecting) || bool_decide (state (self w) = ProxyHandshake) in
  let w := update (with_timer false) w in
  if connecting then internal_timeout w else Some w.

(** ** Transfers *)

Definition usable (s : Socket) : bool := bool_decide (state s = Connected) || bool_decide (state s = SSLConnected).
Definition over_tls (s : Socket) : bool := bool_decide (state s = SSLConnected) && tls s.

(** TLS said that the connection is gone. *)
Definition tls_gone (e : Socks5.SocketError) (w : world) : option world :=
  w ← notify EventTLSDisconnected w; notify (EventError e) (invalidate w).

(** The count, -1 for an error. *)
(* @src src/src/io/net/socket.cpp:683-746 Samurai::IO::Net::Socket::write *)
Definition write (d : bytes) (w : world) : option (Z * world) :=
  if negb (usable (self w)) then w ← notify (EventError Socks5.SocketWrite) w; Some (0, w)
  else if over_tls (self w) then
    let (st, n) := e_tls_write env (clock w) d in
    let w := tick w in
    match st with
    | TlsOk => Some (n, say (SentTls (ztake n d)) w)
    | WantWrite => Some (0, update (toggleWriteNotifier true) w)
    | WantRead => Some (0, w)
    | TlsClosed | TlsError => w ← tls_gone Socks5.SocketWrite w; Some (-1, w)
    end
  else
    match e_send env (clock w) d with
    | inr n => Some (n, say (SentPlain (ztake n d)) (tick w))
    | inl e => if passing e then Some (0, tick w)
               else w ← notify (EventError Socks5.SocketWrite) (invalidate (tick w)); Some (-1, w)
    end.

(* @src src/src/io/net/socket.cpp:749-801 Samurai::IO::Net::Socket::read *)
Definition read (n : Z) (w : world) : option (Z * world) :=
  if negb (usable (self w)) then w ← notify (EventError Socks5.SocketRead) w; Some (0, w)
  else if over_tls (self w) then
    let (st, d) := e_tls_read env (clock w) n in
    let w := tick w in
    match st with
    | TlsOk => Some (zlen d, say (GotTls d) w)
    | WantWrite => Some (0, update (toggleWriteNotifier true) w)
    | WantRead => Some (0, w)
    | TlsClosed | TlsError => w ← tls_gone Socks5.SocketRead w; Some (-1, w)
    end
  else
    match e_recv env (clock w) n with
    | inr d => Some (zlen d, say (GotPlain d) (tick w))
    | inl e => if passing e then Some (0, tick w)
               else w ← notify (EventError Socks5.SocketRead) (invalidate (tick w)); Some (0, w)
    end.

(** What is looked at is not taken, and not noted. *)
(* @src src/src/io/net/socket.cpp:804-854 Samurai::IO::Net::Socket::peek *)
Definition peek (n : Z) (w : world) : option (Z * world) :=
  if negb (usable (self w)) then w ← notify (EventError Socks5.SocketRead) w; Some (0, w)
  else if over_tls (self w) then
    let (st, d) := e_tls_read env (clock w) n in
    let w := tick w in
    match st with
    | TlsOk => Some (zlen d, w)
    | WantWrite => Some (0, update (toggleWriteNotifier true) w)
    | WantRead => Some (0, w)
    | TlsClosed | TlsError => w ← tls_gone Socks5.SocketRead w; Some (0, w)
    end
  else
    match e_recv env (clock w) n with
    | inr d => Some (zlen d, tick w)
    | inl e => if passing e then Some (0, tick w)
               else w ← notify (EventError Socks5.SocketRead) (invalidate (tick w)); Some (0, w)
    end.

Inductive ReadResult := ReadOk (d : bytes) | EndOfFile | WouldBlock | ReadError (ec : Z).

(** What both reporting reads come to, [taken] being what is noted of the data. *)
Definition read_result (plain secret : bytes -> world -> world) (n : Z) (w : world) : ReadResult * world :=
  if negb (usable (self w)) then (ReadError (ENOTCONN env), w)
  else if over_tls (self w) then
    let (st, d) := e_tls_read env (clock w) n in
    let w := tick w in
    match st with
    | TlsOk => if 0 <? zlen d then (ReadOk d, secret d w) else (EndOfFile, w)
    | WantWrite => (WouldBlock, update (toggleWriteNotifier true) w)
    | WantRead => (WouldBlock, w)
    | TlsClosed => (EndOfFile, w)
    | TlsError => (ReadError (EPROTO env), w)
    end
  else
    match e_recv env (clock w) n with
    | inr d => if 0 <? zlen d then (ReadOk d, plain d (tick w)) else (EndOfFile, tick w)
    | inl e => ((if passing e then WouldBlock else ReadError e), tick w)
    end.

(* @src src/src/io/net/socket.cpp:1053-1111 Samurai::IO::Net::Socket::read *)
Definition read_ec (n : Z) (w : world) : ReadResult * world := read_result (fun d => say (GotPlain d)) (fun d => say (GotTls d)) n w.
(* @src src/src/io/net/socket.cpp:1114-1163 Samurai::IO::Net::Socket::peek *)
Definition peek_ec (n : Z) (w : world) : ReadResult * world := read_result (fun _ w => w) (fun _ w => w) n w.

(** With the error code, if one is set. *)
(* @src src/src/io/net/socket.cpp:1166-1191 Samurai::IO::Net::Socket::write *)
Definition write_ec (d : bytes) (w : world) : option (Z * option Z * world) :=
  if negb (usable (self w)) then Some (-1, Some (ENOTCONN env), w)
  else if over_tls (self w) then '(n, w) ← write d w; Some (n, None, w)
  else match e_send env (clock w) d with
       | inr n => Some (n, None, say (SentPlain (ztake n d)) (tick w))
       | inl e => if passing e then Some (0, None, tick w) else Some (-1, Some e, tick w)
       end.

(* @src src/src/io/net/socket.cpp:1197-1201 SAMURAI_MAX_IOV *)
Definition SAMURAI_MAX_IOV : nat := 64.

(* @src src/src/io/net/socket.cpp:1216-1235 Samurai::IO::Net::Socket::write *)
Fixpoint write_records (ds : list bytes) (total : Z) (w : world) : option (Z * option Z * world) :=
  match ds with
  | [] => Some (total, None, w)
  | [] :: ds => write_records ds total w
  | d :: ds =>
      '(ret, ec, w) ← write_ec d w;
      if ret <? 0 then Some (if total =? 0 then (-1, ec, w) else (total, None, w))
      else if ret <? zlen d then Some (total + ret, ec, w)
      else write_records ds (total + ret) w
  end.

(** The pieces go out as one sequence of bytes. *)
(* @src src/src/io/net/socket.cpp:1203-1287 Samurai::IO::Net::Socket::write *)
Definition write_all (ds : list bytes) (w : world) : option (Z * option Z * world) :=
  if negb (usable (self w)) then Some (-1, Some (ENOTCONN env), w)
  else if over_tls (self w) then write_records ds 0 w
  else
    let vec := take SAMURAI_MAX_IOV (List.filter (fun d => negb (bool_decide (d = []))) ds) in
    if bool_decide (vec = []) then Some (0, None, w)
    else match e_send env (clock w) (concat vec) with
         | inr n => Some (n, None, say (SentPlain (ztake n (concat vec))) (tick w))
         | inl e => if passing e then Some (0, None, tick w) else Some (-1, Some e, tick w)
         end.

(* @src src/src/io/net/socket.cpp:1290-1295 Samurai::IO::Net::Socket::write *)
Definition write_all_plain (ds : list bytes) (w : world) : option (Z * world) :=
  '(ret, _, w) ← write_all ds w; Some ((if ret <? 0 then 0 else ret), w).

(* @src src/src/io/net/socket.cpp:257-261 Samurai::IO::Net::Socket::bufferedInput *)
Definition bufferedInput (w : world) : Z := if negb (over_tls (self w)) then 0 else e_tls_pending env (clock w).

(** ** TLS *)

(* @src src/src/io/net/socket.cpp:925-950 Samurai::IO::Net::Socket::TLSInitialize *)
Definition TLSInitialize (server : bool) (w : world) : bool * world :=
  let s := self w in
  if tls s then (false, w)
  else if bool_decide (state s = ProxyHandshake) then (false, w)
  else
    let peer := match address s with
                | Some a => if negb server && negb (bool_decide (hostname a = [])) then Some (hostname a) else None
                | None => None
                end in
    (e_tls_init env (clock w), say (TlsStarted server peer (allow_untrusted s)) (update (with_tls true) (tick w))).

(* @src src/src/io/net/socket.cpp:960-996 Samurai::IO::Net::Socket::TLSsendHandshake *)
Definition TLSsendHandshake (w : world) : option world :=
  if tls (self w) && (bool_decide (state (self w) = Connected) || bool_decide (state (self w) = SSLHandshake)) then
    let st := e_tls env (clock w) in
    let w := say (Handshake st) (update (with_state SSLHandshake) (tick w)) in
    match st with
    | TlsOk => notify EventTLSConnected (update (fun s => with_state SSLConnected (toggleWriteNotifier false s)) w)
    | WantWrite => Some (update (fun s => with_state SSLHandshake (toggleWriteNotifier true s)) w)
    | WantRead => Some (update (fun s => with_state SSLHandshake (toggleWriteNotifier false s)) w)
    | TlsClosed => Some (update (fun s => with_state Connected (toggleWriteNotifier false s)) w)
    | TlsError => internal_error (-1) (close (update (toggleWriteNotifier false) w))
    end
  else Some w.

(* @src src/src/io/net/socket.cpp:1005-1041 Samurai::IO::Net::Socket::TLSsendGoodbye *)
Definition TLSsendGoodbye (w : world) : option world :=
  if tls (self w) && (bool_decide (state (self w) = SSLConnected) || bool_decide (state (self w) = SSLBye)) then
    let st := e_tls env (clock w) in
    let w := say (Goodbye st) (update (with_state SSLBye) (tick w)) in
    match st with
    | TlsOk => notify EventTLSDisconnected (update (fun s => with_state Connected (toggleWriteNotifier false s)) w)
    | WantWrite => Some (update (fun s => with_state SSLBye (toggleWriteNotifier true s)) w)
    | WantRead => Some (update (fun s => with_state SSLBye (toggleWriteNotifier false s)) w)
    | TlsClosed => Some (update (fun s => with_state Connected (toggleWriteNotifier false s)) w)
    | TlsError => internal_error (-1) (close (update (toggleWriteNotifier false) w))
    end
  else Some w.

(** ** Events of the monitor *)

Definition tls_steps (w : world) : option world :=
  w ← (if bool_decide (state (self w) = SSLHandshake) then TLSsendHandshake w else Some w);
  if bool_decide (state (self w) = SSLBye) then TLSsendGoodbye w else Some w.

(* @src src/src/io/net/socket.cpp:263-287 Samurai::IO::Net::Socket::internal_canRead *)
Definition internal_canRead (w : world) : option world :=
  if bool_decide (state (self w) = ProxyHandshake) then internal_proxy_pump w
  else w ← (if usable (self w) then notify EventDataAvailable w else Some w); tls_steps w.

(* @src src/src/io/net/socket.cpp:289-314 Samurai::IO::Net::Socket::internal_canWrite *)
Definition internal_canWrite (w : world) : option world :=
  if bool_decide (state (self w) = ProxyHandshake) then internal_proxy_pump w
  else w ← (if usable (self w) then notify EventCanWrite w else Some w); tls_steps w.

(* @src src/src/io/net/socket.cpp:157-209 Samurai::IO::Net::Socket::handleMonitorEvent *)
Definition monitor_read (w : world) : option world :=
  match state (self w) with
  | Connected =>
      let x := e_probe env (clock w) in
      let w := tick w in
      match x with
      | inr n => if 0 <? n then internal_canRead w else internal_closed w
      | inl e => if (e =? EAGAIN env) || (e =? EINTR env) then Some w else internal_error e w
      end
  | ProxyHandshake | SSLBye | SSLHandshake | SSLConnected => internal_canRead w
  | _ => Some w
  end.

(* @src src/src/io/net/socket.cpp:211-231 Samurai::IO::Net::Socket::handleMonitorEvent *)
Definition monitor_write (w : world) : option world :=
  match state (self w) with
  | Connecting => internal_connected w
  | ProxyHandshake | SSLBye | SSLHandshake | Connected | SSLConnected => internal_canWrite w
  | _ => Some w
  end.

(* @src src/src/io/net/socket.cpp:233-253 Samurai::IO::Net::Socket::handleMonitorEvent *)
Definition monitor_error (error : bool) (w : world) : option world :=
  match state (self w) with
  | Invalid | Disconnected => Some w
  | _ => if error then internal_error (default 0 (e_soerror env (clock w))) (tick w) else internal_closed w
  end.

(* @src src/src/io/net/socket.cpp:155-254 Samurai::IO::Net::Socket::handleMonitorEvent *)
Definition handleMonitorEvent (t : Triggers) (w : world) : option world :=
  w ← (if t_read t then monitor_read w else Some w);
  w ← (if t_write t then monitor_write w else Some w);
  if t_error t || t_close t then monitor_error (t_error t) w else Some w.

(** ** Calls *)

Definition do_call (c : Call) (w : world) : option world :=
  match c with
  | Connect => connect w
  | Disconnect => disconnect w
  | LookupPeer => lookup w
  | Close => Some (close w)
  | SetProxy p => Some (update (setProxy p) w)
  | SetReuseLocalPort p => Some (update (setReuseLocalPort p) w)
  | SetConnectTimeout t => Some (update (setConnectTimeout t) w)
  | SetEventHandler h => Some (update (setEventHandler h) w)
  | ToggleWriteNotifier b => Some (update (toggleWriteNotifier b) w)
  | Write d => snd <$> write d w
  | Read n => snd <$> read n w
  | Peek n => snd <$> peek n w
  | WriteEc d => snd <$> write_ec d w
  | ReadEc n => Some (snd (read_ec n w))
  | PeekEc n => Some (snd (peek_ec n w))
  | WriteAll ds => snd <$> write_all ds w
  | TLSInit server => Some (snd (TLSInitialize server w))
  | TLSDeinit => Some (update TLSDeinitialize (if tls (self w) then say TlsDropped w else w))
  | TLSHandshake => TLSsendHandshake w
  | TLSGoodbye => TLSsendGoodbye w
  | TLSAllowUntrusted b => Some (update (TLSsetAllowUntrusted b) w)
  end.
End socket.

(** ** Running *)

Section run.
Variable inet_pton : Inet.Version -> bytes -> option bytes.
Variable inet_ntop : Inet.Version -> bytes -> option bytes.
Variable env : Env.

Definition note (c : Call) (w : world) : world := match c with SetProxy _ => misuse w | _ => w end.

Fixpoint perform (fuel : nat) (c : Call) (w : world) : option world :=
  match fuel with
  | O => None
  | S fuel => do_call inet_pton inet_ntop env (perform fuel) c (note c w)
  end.

(** What comes from outside: a call of the application, readiness, the answer of a
    resolver - the address, or that there is none - and the timer. *)
Inductive Input :=
  | FromApplication (c : Call)
  | FromMonitor (t : Triggers)
  | FromResolver (t : LookupTarget) (a : option InetAddress)
  | Expired.

Definition is_pending (t : LookupTarget) (s : Socket) : bool := match t with Peer => peer_pending s | TheProxy => proxy_pending s end.
Definition address_of (t : LookupTarget) (s : Socket) : option InetAddress := match t with Peer => address s | TheProxy => proxy_address s end.

(** A reaction can be nested in every other, so there is one turn for each and one
    for the input. *)
Definition enough (w : world) : nat := S (length (script w)).

Definition step (i : Input) (w : world) : option world :=
  let perform := perform (enough w) in
  match i with
  | FromApplication c => perform c w
  | FromMonitor t => if monitored (self w) then handleMonitorEvent env perform t w else Some w
  | FromResolver t answer =>
      if negb (is_pending t (self w)) then Some w
      else match answer, address_of t (self w) with
           | Some a, _ => socket_EventHostFound inet_pton inet_ntop env perform a (update (set_pending t a false) w)
           | None, Some a => socket_EventHostError perform (update (set_pending t a false) w)
           | None, None => Some w
           end
  | Expired => if timer (self w) then socket_EventTimeout perform w else Some w
  end.

Definition permitted (i : Input) : Prop := match i with FromResolver _ (Some a) => resolveState a = Resolved | _ => True end.

(** A socket as a constructor leaves it, or with a proxy set right after. *)
Inductive fresh : Socket -> Prop :=
  | fresh_proxy s p : fresh s -> fresh (setProxy p s)
  | fresh_name default a p : fresh (new_Socket inet_pton default a p)
  | fresh_address default a p : fresh (new_Socket_address default a p)
  | fresh_accepted fd a p : fresh (new_Socket_accepted fd a p).

Definition start (s : Socket) (l : list (Event -> list Call)) : world := mkWorld s 0 1000 [] l false [] [].

Inductive reached : world -> Prop :=
  | reached_start s l : fresh s -> reached (start s l)
  | reached_step i w w' : reached w -> permitted i -> step i w = Some w' -> reached w'.
End run.

(** ** What was seen *)

(** Whether the handler has been told of a connection and of no end to it. *)
Definition up_after (b : bool) (o : Output) : bool :=
  match o with
  | Told EventConnected => true
  | Told EventDisconnected => false
  | Told (EventError e) => match e with Socks5.SocketRead | Socks5.SocketWrite => b | _ => false end
  | _ => b
  end.
Definition up (b : bool) (l : list Output) : bool := fold_left up_after l b.

(** Whether TLS is being negotiated or in use on this connection. *)
Definition sealed_after (b : bool) (o : Output) : bool :=
  match o with
  | Opened _ | TlsDropped | Goodbye TlsOk | Goodbye TlsClosed | Handshake TlsClosed => false
  | Handshake _ => true
  | _ => b
  end.
Definition sealed (l : list Output) : bool := fold_left sealed_after l false.

(** Whether the proxy has granted this connection. *)
Definition tunnel_after (b : bool) (o : Output) : bool :=
  match o with ConnectTo _ _ _ => false | Pumped st => b || bool_decide (st = Socks5.Done) | _ => b end.
Definition tunnel (l : list Output) : bool := fold_left tunnel_after l false.

(** What may be seen after that. *)
Definition out_ok (u s : bool) (o : Output) : Prop :=
  match o with
  | Told (EventDataAvailable | EventCanWrite | EventTLSConnected | EventTLSDisconnected) => u = true
  | SentPlain _ | GotPlain _ => u = true /\ s = false
  | SentTls _ | GotTls _ => u = true
  | _ => True
  end.

(** What is between the peer and this end. *)
Definition inside (o : Output) : bool :=
  match o with
  | Told (EventConnected | EventDataAvailable | EventCanWrite | EventTLSConnected | EventTLSDisconnected) => true
  | SentPlain _ | GotPlain _ | SentTls _ | GotTls _ | Handshake _ | Goodbye _ => true
  | _ => false
  end.

Definition always {A} (P : list A -> A -> Prop) (l : list A) : Prop := forall l1 o l2, l = l1 ++ o :: l2 -> P l1 o.

Lemma always_nil {A} (P : list A -> A -> Prop) : always P [].
Proof. intros l1 o l2 E. by destruct l1. Qed.

Lemma always_snoc {A} (P : list A -> A -> Prop) l o : always P l -> P l o -> always P (l ++ [o]).
Proof.
  intros Hl Ho l1 o' l2 E. destruct l2 as [|o2 l2 _] using rev_ind.
  - apply app_inj_tail in E as [-> ->]. done.
  - rewrite app_comm_cons, app_assoc in E. apply app_inj_tail in E as [E _]. by apply (Hl l1 o' l2).
Qed.

Lemma up_snoc b l o : up b (l ++ [o]) = up_after (up b l) o.
Proof. unfold up. by rewrite fold_left_app. Qed.
Lemma sealed_snoc l o : sealed (l ++ [o]) = sealed_after (sealed l) o.
Proof. unfold sealed. by rewrite fold_left_app. Qed.
Lemma tunnel_snoc l o : tunnel (l ++ [o]) = tunnel_after (tunnel l) o.
Proof. unfold tunnel. by rewrite fold_left_app. Qed.

Definition up_state (st : SocketState) : bool :=
  match st with Connected | SSLHandshake | SSLConnected | SSLBye => true | _ => false end.

(** ** The invariant *)

Section proofs.
Variable inet_pton : Inet.Version -> bytes -> option bytes.
Variable inet_ntop : Inet.Version -> bytes -> option bytes.
Variable env : Env.
(** The system reports counts within what it was given. *)
Hypothesis send_counts : forall t d n, e_send env t d = inr n -> 0 <= n <= zlen d.
Hypothesis recv_bounded : forall t want d, 0 <= want -> e_recv env t want = inr d -> zlen d <= want.

Definition greeting_of (s : Socket) : Socks5.Socks5Handshake :=
  Socks5.new_Socks5Handshake inet_pton (proxy s) Socks5.Connect (getPeerName inet_ntop s) (port s).

(** A proxied socket that waits for the proxy's name. *)
Definition waiting (s : Socket) : Prop :=
  is_Some (handshake s) /\ lookup_target s = TheProxy /\ (state s = Disconnected \/ state s = Invalid) /\
  Socks5.status (greeting_of s) <> Socks5.Failed /\ exists a, proxy_address s = Some a /\ resolveState a <> Resolved.

Definition proxied_ok (w : world) : Prop :=
  always (fun l o => (inside o = true -> tunnel l = true) /\ o <> Lookup Peer) (log w) /\
  (up_state (state (self w)) = true -> tunnel (log w) = true) /\
  (state (self w) = Connecting \/ state (self w) = ProxyHandshake -> is_Some (handshake (self w))) /\
  (proxy_pending (self w) = true -> waiting (self w)) /\
  peer_pending (self w) = false /\ state (self w) <> HostFound.

Definition seal_ok (s : Socket) : Prop :=
  match state s with SSLHandshake | SSLConnected | SSLBye => tls s = true | Invalid | Disconnected | HostFound => True | _ => False end.

Definition negotiated (h : Socks5.Socks5Handshake) (sent got : bytes) : Prop :=
  exists p target n, Socks5.exchange inet_pton p Socks5.Connect target n h sent got.

Definition inv (w : world) : Prop :=
  always (fun l o => out_ok (up (negb (outbound (self w))) l) (sealed l) o) (log w) /\
  (up_state (state (self w)) = true -> up (negb (outbound (self w))) (log w) = true) /\
  (sealed (log w) = true -> seal_ok (self w)) /\
  (forall h, handshake (self w) = Some h -> negotiated h (tunnel_sent w) (tunnel_got w)) /\
  (misused w = false -> isProxied (self w) = true -> proxied_ok w).

#[local] Abbreviation up_now w := (up (negb (outbound (self w))) (log w)).

Lemma inv_say o w : inv w -> out_ok (up_now w) (sealed (log w)) o ->
  (up_state (state (self w)) = true -> up_after (up_now w) o = true) ->
  (sealed_after (sealed (log w)) o = true -> seal_ok (self w)) ->
  (misused w = false -> isProxied (self w) = true -> proxied_ok w ->
     (inside o = true -> tunnel (log w) = true) /\ o <> Lookup Peer /\
     (up_state (state (self w)) = true -> tunnel_after (tunnel (log w)) o = true)) ->
  inv (say o w).
Proof.
  intros (Hl & Hu & Hs & Hh & Hp) Ho Hu' Hs' Hp'. unfold inv. cbn [log self say].
  split; [by apply always_snoc|]. split; [by rewrite up_snoc|]. split; [by rewrite sealed_snoc|]. split; [done|].
  intros Hm Hx. specialize (Hp Hm Hx). destruct (Hp' Hm Hx Hp) as (H1 & H2 & H3). destruct Hp as (P1 & _ & P3).
  split; [by apply always_snoc|]. split; [|done]. cbn [log self say]. by rewrite tunnel_snoc.
Qed.

(** Outputs that change nothing of what is tracked. *)
Definition plain_output (o : Output) : bool :=
  match o with
  | Told (EventHostLookup | EventHostFound | EventConnecting | EventTimeout) | Told (EventError (Socks5.SocketRead | Socks5.SocketWrite)) => true
  | Lookup TheProxy | Closed _ | TlsStarted _ _ _ | Pumped _ => true
  | _ => false
  end.

Lemma inv_plain o w : inv w -> plain_output o = true -> inv (say o w).
Proof.
  intros H Ho. pose proof H as (_ & Hu & Hs & _ & _). assert (up_after (up_now w) o = up_now w /\ sealed_after (sealed (log w)) o = sealed (log w)) as [E1 E2]
    by (destruct o as [[]|[]| | | | | | | | | | | |]; try done; destruct e; done).
  apply inv_say; rewrite ?E1, ?E2; try done; [destruct o as [[]|[]| | | | | | | | | | | |]; done|].
  intros _ _ (_ & P2 & _). split; [destruct o as [[]|[]| | | | | | | | | | | |]; done|]. split; [destruct o as [[]|[]| | | | | | | | | | | |]; done|].
  intros Hst. specialize (P2 Hst). destruct o; try done; cbn; by rewrite P2.
Qed.

(** An end is told of where there is no connection. *)
Lemma inv_told_down e w : inv w -> up_state (state (self w)) = false -> (e = EventDisconnected \/ exists code, e = EventError code) -> inv (say (Told e) w).
Proof.
  intros H Hst He. pose proof H as (_ & _ & Hs & _ & _). apply inv_say; rewrite ?Hst; try done.
  - by destruct He as [->|[code ->]].
  - intros _ _ _. split; [by destruct He as [->|[code ->]]|]. split; [done|]. done.
Qed.

Definition data_event (e : Event) : bool := match e with EventDataAvailable | EventCanWrite | EventTLSConnected | EventTLSDisconnected => true | _ => false end.

Lemma inv_told_data e w : inv w -> up_state (state (self w)) = true -> data_event e = true -> inv (say (Told e) w).
Proof.
  intros H Hst He. pose proof H as (_ & Hu & Hs & _ & _). specialize (Hu Hst). apply inv_say; try done.
  - by destruct e.
  - intros _. by destruct e.
  - intros _ _ (_ & P2 & _). split; [intros _; by apply P2|]. split; [done|]. intros _. by apply P2.
Qed.

(** The state of one that has no connection. *)
Lemma inv_down st w : inv w -> st = Invalid \/ st = Disconnected -> inv (update (with_state st) w).
Proof.
  intros (Hl & Hu & Hs & Hh & Hp) Hst. unfold inv. cbn [log self update put]. split; [done|]. split; [by destruct Hst as [->| ->]|].
  split; [intros _; by destruct Hst as [->| ->]|]. split; [done|]. intros Hm Hx. destruct (Hp Hm Hx) as (P1 & P2 & P3 & P4 & P5 & P6).
  split; [done|]. split; [by destruct Hst as [->| ->]|]. split; [intros [E|E]; cbn in E; by destruct Hst as [->| ->]|].
  split; [intros Hpend; destruct (P4 Hpend) as (? & ? & ? & ? & ?); split; [done|]; split; [done|]; split; [cbn; tauto|done]|].
  split; [done|]. cbn. by destruct Hst as [->| ->].
Qed.

(** ** Every operation returns and keeps it *)

Section operations.
Variable perform : Call -> world -> option world.
(** At most this many reactions are left. *)
Variable n : nat.

Definition okay (w : world) : Prop := inv w /\ (length (script w) <= n)%nat.
Record later (w w' : world) : Prop := mkLater {
  later_script : (length (script w') <= length (script w))%nat;
  later_addr : is_Some (addr (self w)) -> is_Some (addr (self w'));
  later_address : is_Some (address (self w)) -> is_Some (address (self w'));
  later_proxied : misused w' = false -> misused w = false /\ isProxied (self w') = isProxied (self w)
}.
Definition runs (w : world) (r : option world) : Prop := exists w', r = Some w' /\ okay w' /\ later w w'.

Hypothesis performs : forall c w, (length (script w) < n)%nat -> inv w -> runs w (perform c w).

Lemma later_refl w : later w w.
Proof. by constructor. Qed.

Lemma later_trans w1 w2 w3 : later w1 w2 -> later w2 w3 -> later w1 w3.
Proof.
  intros [A1 A2 A3 A4] [B1 B2 B3 B4]. constructor; [lia|auto|auto|].
  intros H. destruct (B4 H) as [H2 E2]. destruct (A4 H2) as [H1 E1]. split; [done|congruence].
Qed.

Lemma runs_done w w' : okay w' -> later w w' -> runs w (Some w').
Proof. intros. by exists w'. Qed.

Lemma runs_from w w1 r : later w w1 -> runs w1 r -> runs w r.
Proof. intros H (w' & -> & Ho & Hl). exists w'. split; [done|]. split; [done|]. by eapply later_trans. Qed.

Lemma runs_bind w r f : runs w r -> (forall w', okay w' -> later w w' -> runs w' (f w')) -> runs w (r ≫= f).
Proof. intros (w1 & -> & Ho & Hl) Hf. cbn. eapply runs_from; [done|]. by apply Hf. Qed.

Lemma okay_inv w w' : okay w -> inv w' -> later w w' -> okay w'.
Proof. intros [_ Hn] H [Hs _ _ _]. split; [done|lia]. Qed.

Lemma calls_run l : forall w, inv w -> (length (script w) < n)%nat -> runs w (run_calls perform l w).
Proof.
  induction l as [|c l IH]; intros w Hi Hn; cbn [run_calls]; [apply runs_done; [split; [done|lia]|apply later_refl]|].
  destruct (performs c w Hn Hi) as (w1 & -> & [Hi1 _] & Hl). cbn. eapply runs_from; [done|]. apply IH; [done|]. destruct Hl. lia.
Qed.

Lemma notify_runs e w : inv (say (Told e) w) -> (length (script w) <= n)%nat -> runs w (notify perform e w).
Proof.
  intros Hi Hn. unfold notify. cbv zeta. change (handler (self (say (Told e) w))) with (handler (self w)).
  change (script (say (Told e) w)) with (script w). destruct (handler (self w)); cbn [negb].
  2:{ apply runs_done; [by split|by constructor]. }
  destruct (script w) as [|r rest] eqn:E; [apply runs_done; [split; [done|cbn; by rewrite E]|by constructor]|].
  eapply (runs_from _ (with_script rest (say (Told e) w))); [constructor; cbn; try done; rewrite E; cbn; lia|].
  apply calls_run; [done|]. cbn in *. lia.
Qed.

Lemma notify_down e st w : okay w -> st = Invalid \/ st = Disconnected -> e = EventDisconnected \/ (exists code, e = EventError code) ->
  runs w (notify perform e (update (with_state st) w)).
Proof.
  intros [Hi Hn] Hst He. eapply (runs_from _ (update (with_state st) w)); [by constructor|]. apply notify_runs; [|done].
  apply inv_told_down; [by apply inv_down| |done]. by destruct Hst as [->| ->].
Qed.

(** What the invariant does not look at may change. *)
Lemma okay_free f w : okay w -> inv (update f w) -> (forall s, addr (f s) = addr s /\ address (f s) = address s /\ isProxied (f s) = isProxied s) ->
  okay (update f w) /\ later w (update f w).
Proof.
  intros [_ Hn] Hi Hf. destruct (Hf (self w)) as (Ea & Ed & Ep). split; [by split|]. constructor; cbn; rewrite ?Ea, ?Ed, ?Ep; done.
Qed.

Lemma free_runs f w : okay w -> inv (update f w) -> (forall s, addr (f s) = addr s /\ address (f s) = address s /\ isProxied (f s) = isProxied s) ->
  runs w (Some (update f w)).
Proof. intros Ho Hi Hf. destruct (okay_free f w Ho Hi Hf). by apply runs_done. Qed.

Lemma close_okay w : okay w -> okay (close w) /\ later w (close w).
Proof.
  intros Ho. unfold close. destruct (sd (self w)) as [fd|]; [|by split; [|apply later_refl]].
  destruct (okay_free (fun s => with_sd None (disableMonitor s)) w Ho) as [[Hi Hn] Hl]; [apply Ho|done|].
  split; [split; [by apply inv_plain|done]|by eapply later_trans; [exact Hl|constructor]].
Qed.

Lemma invalidate_okay w : okay w -> okay (invalidate w) /\ later w (invalidate w) /\ state (self (invalidate w)) = Invalid.
Proof.
  intros [Hi Hn]. split; [|by split]. split; [|done]. exact (inv_down Invalid w Hi (or_introl eq_refl)).
Qed.

Lemma error_runs e w : okay w -> up_state (state (self w)) = false -> runs w (notify perform (EventError e) w).
Proof. intros [Hi Hn] Hst. apply notify_runs; [|done]. apply inv_told_down; [done|done|by right; exists e]. Qed.

Lemma connect_failed_runs w : okay w -> runs w (connect_failed perform w).
Proof.
  intros Ho. destruct (invalidate_okay w Ho) as (Ho' & Hl & Hst). eapply runs_from; [exact Hl|]. apply error_runs; [done|by rewrite Hst].
Qed.

Lemma internal_error_runs e w : okay w -> runs w (internal_error env perform e w).
Proof.
  intros Ho. eapply runs_bind; [apply notify_down; [done|by left|right; by eexists]|]. intros w' Ho' _. apply free_runs; [done|apply Ho'|done].
Qed.

Lemma internal_closed_runs w : okay w -> runs w (internal_closed perform w).
Proof.
  intros Ho. eapply runs_bind; [apply notify_down; [done|by right|by left]|]. intros w' Ho' _. apply free_runs; [done|apply Ho'|done].
Qed.

Lemma close_down_runs e f w : okay w -> inv (update f w) ->
  (forall s, addr (f s) = addr s /\ address (f s) = address s /\ isProxied (f s) = isProxied s) -> (forall s, up_state (state (f s)) = false) ->
  runs w (notify perform (EventError e) (close (update f w))).
Proof.
  intros Ho Hi Hf Hst. destruct (okay_free f w Ho Hi Hf) as [Ho1 Hl1]. destruct (close_okay _ Ho1) as [Ho2 Hl2].
  eapply runs_from; [eapply later_trans; [exact Hl1|exact Hl2]|]. apply error_runs; [done|].
  unfold close. destruct (sd _); apply (Hst (self w)).
Qed.

Lemma internal_timeout_runs w : okay w -> runs w (internal_timeout perform w).
Proof. intros Ho. apply close_down_runs; [done|apply inv_down; [apply Ho|by right]|done|done]. Qed.

Lemma inv_no_handshake w : inv w -> (state (self w) = Invalid \/ up_state (state (self w)) = true) ->
  (misused w = false -> isProxied (self w) = true -> proxy_pending (self w) = false) -> inv (update (with_handshake None) w).
Proof.
  intros (Hl & Hu & Hs & Hh & Hp) Hst Hpend. unfold inv. split; [done|]. split; [done|]. split; [done|]. split; [done|].
  intros Hm Hx. destruct (Hp Hm Hx) as (P1 & P2 & P3 & P4 & P5 & P6). split; [done|]. split; [done|].
  split; [intros [E|E]; cbn in E; rewrite E in Hst; by destruct Hst|]. split; [|done]. cbn. by rewrite Hpend.
Qed.

Lemma internal_proxy_failed_runs w : okay w -> (misused w = false -> isProxied (self w) = true -> proxy_pending (self w) = false) ->
  runs w (internal_proxy_failed perform w).
Proof.
  intros Ho Hpend. unfold internal_proxy_failed. cbv zeta. apply close_down_runs; [done| |done|done].
  apply (inv_no_handshake (update (with_state Invalid) w)); [apply inv_down; [apply Ho|by left]|by left|done].
Qed.

(** A proxied socket of which nothing is outstanding. *)
Definition settled (w : world) : Prop := misused w = false -> isProxied (self w) = true -> proxy_pending (self w) = false.

Lemma settled_state w : inv w -> state (self w) <> Disconnected -> state (self w) <> Invalid -> settled w.
Proof.
  intros (_ & _ & _ & _ & Hp) H1 H2 Hm Hx. destruct (Hp Hm Hx) as (_ & _ & _ & P4 & _). destruct (proxy_pending (self w)); [|done].
  by destruct (P4 eq_refl) as (_ & _ & [?|?] & _).
Qed.

Lemma inv_connected f w : inv w -> sealed (log w) = false -> settled w ->
  (misused w = false -> isProxied (self w) = true -> tunnel (log w) = true) ->
  state (f (self w)) = Connected -> outbound (f (self w)) = outbound (self w) -> isProxied (f (self w)) = isProxied (self w) ->
  proxy_pending (f (self w)) = proxy_pending (self w) -> peer_pending (f (self w)) = peer_pending (self w) ->
  handshake (f (self w)) = None \/ handshake (f (self w)) = handshake (self w) ->
  inv (say (Told EventConnected) (update f w)).
Proof.
  intros (Hl & Hu & Hs & Hh & Hp) Hseal Hset Htun Est Eo Ex Epp Eqp Eh. unfold inv. cbn [log self say update put misused tunnel_sent tunnel_got].
  rewrite Eo, Ex, Est. split; [by apply always_snoc|]. split; [by rewrite up_snoc|]. split; [by rewrite sealed_snoc, Hseal|].
  split; [destruct Eh as [->| ->]; [done|exact Hh]|].
  intros Hm Hx. destruct (Hp Hm Hx) as (P1 & P2 & P3 & P4 & P5 & P6). specialize (Htun Hm Hx). unfold proxied_ok. cbn [log self say update put].
  rewrite Est, Epp, Eqp, (Hset Hm Hx), tunnel_snoc. split; [apply always_snoc; [done|split; [by rewrite Htun|done]]|]. split; [by rewrite Htun|].
  split; [by intros [?|?]|]. done.
Qed.

Lemma connected_runs f w : okay w -> sealed (log w) = false -> settled w ->
  (misused w = false -> isProxied (self w) = true -> tunnel (log w) = true) ->
  state (f (self w)) = Connected -> outbound (f (self w)) = outbound (self w) -> isProxied (f (self w)) = isProxied (self w) ->
  proxy_pending (f (self w)) = proxy_pending (self w) -> peer_pending (f (self w)) = peer_pending (self w) ->
  handshake (f (self w)) = None \/ handshake (f (self w)) = handshake (self w) ->
  addr (f (self w)) = addr (self w) -> address (f (self w)) = address (self w) ->
  runs w (notify perform EventConnected (update f w)).
Proof.
  intros [Hi Hn] Hs1 Hs2 Ht Est Eo Ex Ep Eq Eh Ea Ed. eapply (runs_from _ (update f w)).
  - constructor; cbn; rewrite ?Ea, ?Ed, ?Ex; done.
  - apply notify_runs; [|done]. by apply inv_connected.
Qed.

Lemma unsealed_state w : inv w -> state (self w) = Connecting \/ state (self w) = ProxyHandshake \/ state (self w) = Connected -> sealed (log w) = false.
Proof.
  intros (_ & _ & Hs & _) Hst. destruct (sealed (log w)); [|done]. specialize (Hs eq_refl). unfold seal_ok in Hs.
  by destruct Hst as [E|[E|E]]; rewrite E in Hs.
Qed.

(** The pump returns, having exchanged a part of the handshake. *)
Lemma pump_returns w h : inv w -> handshake (self w) = Some h ->
  exists t sent got h' ww ec,
    Socks5.socks5_pump (Socks5.logged_send (send_at env)) (Socks5.logged_recv (recv_at env)) (EAGAIN env) (EWOULDBLOCK env) (EINTR env) 270
      (clock w, tunnel_sent w, tunnel_got w) h = Some ((t, sent, got), h', ww, ec) /\ negotiated h' sent got.
Proof.
  intros (_ & _ & _ & Hh & _) E. destruct (Hh h E) as (pr & target & m & He).
  destruct (Socks5.pump_loop (send_at env) (recv_at env) (EAGAIN env) (EWOULDBLOCK env) (EINTR env)) with
    (inet_pton := inet_pton) (proxy := pr) (cmd := Socks5.Connect) (tgt := target) (p := m) (fuel := 270%nat) (s := clock w) (sent := tunnel_sent w) (got := tunnel_got w) (h := h)
    as (t & sent & got & h' & ww & ec & Er & He' & _).
  - intros t d t' k [= _ Hk]. by eapply send_counts.
  - intros t want t' d Hw [= _ Hd]. by eapply recv_bounded.
  - done.
  - apply Socks5.exchange_stage in He as (_ & _ & Hi & _). pose proof (Socks5.left_to_do_range h Hi). lia.
  - exists t, sent, got, h', ww, ec. split; [done|]. by exists pr, target, m.
Qed.

Lemma inv_pumped w h t sent got : inv w -> state (self w) = ProxyHandshake -> negotiated h sent got ->
  inv (say (Pumped (Socks5.status h)) (update (with_handshake (Some h)) (with_tunnel t sent got w))).
Proof.
  intros H Hst Hh. pose proof (settled_state w H ltac:(by rewrite Hst) ltac:(by rewrite Hst)) as Hset.
  apply inv_plain; [|done]. destruct H as (Hl & Hu & Hs & _ & Hp). unfold inv. split; [done|]. split; [done|]. split; [done|].
  split; [by intros h' [= <-]|]. intros Hm Hx. destruct (Hp Hm Hx) as (P1 & P2 & P3 & P4 & P5 & P6). split; [done|]. split; [done|].
  split; [done|]. split; [|done]. cbn. by rewrite (Hset Hm Hx).
Qed.

Lemma internal_proxy_pump_runs w : okay w -> state (self w) = ProxyHandshake -> runs w (internal_proxy_pump env perform w).
Proof.
  intros Ho Hst. pose proof Ho as [Hi Hn]. unfold internal_proxy_pump. destruct (handshake (self w)) as [h|] eqn:Eh; [|by apply runs_done; [|apply later_refl]].
  destruct (pump_returns w h Hi Eh) as (t & sent & got & h' & ww & ec & -> & Hneg). cbn [mbind option_bind].
  set (w1 := say _ _). assert (okay w1 /\ later w w1 /\ state (self w1) = ProxyHandshake) as (Ho1 & Hl1 & Hst1) by (split; [split; [by apply inv_pumped|done]|by split]).
  pose proof (settled_state w1 ltac:(apply Ho1) ltac:(by rewrite Hst1) ltac:(by rewrite Hst1)) as Hset.
  eapply runs_from; [exact Hl1|]. destruct ec as [e|]; [by apply internal_error_runs|].
  destruct (okay_free (toggleWriteNotifier ww) w1 Ho1 ltac:(apply Ho1) ltac:(done)) as [Ho2 Hl2].
  eapply runs_from; [exact Hl2|]. destruct (Socks5.status h') eqn:Es; [by apply runs_done; [|apply later_refl]..| |by apply internal_proxy_failed_runs].
  apply connected_runs; try done.
  - apply (unsealed_state (update (toggleWriteNotifier ww) w1)); [apply Ho2|]. by right; left.
  - intros _ _. change (tunnel (log w ++ [Pumped Socks5.Done]) = true). rewrite tunnel_snoc. apply orb_true_r.
  - by left.
Qed.

(** What a new connection needs of a proxied socket. *)
Definition prepared (w : world) : Prop :=
  misused w = false -> isProxied (self w) = true -> proxy_pending (self w) = false /\ is_Some (handshake (self w)).

Lemma inv_connecting st w : inv w -> sealed (log w) = false -> prepared w -> st = Connecting \/ st = ProxyHandshake ->
  inv (update (with_state st) w).
Proof.
  intros (Hl & Hu & Hs & Hh & Hp) Hseal Hprep Hst. unfold inv. cbn [log self update put]. split; [done|].
  split; [by destruct Hst as [->| ->]|]. split; [by rewrite Hseal|]. split; [done|].
  intros Hm Hx. destruct (Hp Hm Hx) as (P1 & P2 & P3 & P4 & P5 & P6). destruct (Hprep Hm Hx) as [Hpend Hhs].
  split; [done|]. split; [by destruct Hst as [->| ->]|]. split; [done|]. split; [cbn; by rewrite Hpend|]. split; [done|]. cbn. by destruct Hst as [->| ->].
Qed.

Lemma internal_connected_runs w : okay w -> sealed (log w) = false -> prepared w ->
  runs w (internal_connected env perform w).
Proof.
  intros Ho Hseal Hprep. unfold internal_connected. cbv zeta. pose proof Ho as [Hi Hn].
  assert (okay (tick w)) as Ho1 by exact Ho. apply (runs_from w (tick w)); [by constructor|].
  assert (forall e, runs (tick w) (notify perform (EventError e) (close (update (with_state Disconnected) (tick w))))) as Hfail.
  { intros e. apply close_down_runs; [done|apply inv_down; [done|by right]|done|done]. }
  destruct (e_soerror env (clock w)) as [[|v|v]|]; try apply Hfail.
  destruct (isProxied (self (tick w)) && _) eqn:E.
  - apply (runs_from _ (update (with_state ProxyHandshake) (tick w))); [by constructor|]. apply internal_proxy_pump_runs; [|done].
    split; [|done]. apply inv_connecting; try done. by right.
  - apply connected_runs; try done; [intros Hm Hx; by apply (Hprep Hm Hx)| |by right].
    intros Hm Hx. destruct (Hprep Hm Hx) as [_ Hh]. rewrite Hx in E. cbn in E. by rewrite bool_decide_eq_true_2 in E.
Qed.

Lemma inv_opened fd w : inv w -> inv (say (Opened fd) w).
Proof.
  intros H. pose proof H as (_ & Hu & _). apply inv_say; try done. intros _ _ (_ & P2 & _). done.
Qed.

Lemma inv_connect_to fd a p w : inv w -> sealed (log w) = false -> (misused w = false -> isProxied (self w) = true -> up_state (state (self w)) = false) ->
  inv (say (ConnectTo fd a p) w).
Proof.
  intros H Hs Hst. pose proof H as (_ & Hu & _). apply inv_say; try done; [cbn; by rewrite Hs|].
  intros Hm Hx _. split; [done|]. split; [done|]. by rewrite (Hst Hm Hx).
Qed.

Lemma internal_connect_addr_runs w : okay w -> is_Some (addr (self w)) -> prepared w ->
  (misused w = false -> isProxied (self w) = true -> up_state (state (self w)) = false) -> runs w (internal_connect_addr env perform w).
Proof.
  intros Ho [[a p] Ea] Hprep Hst. unfold internal_connect_addr. rewrite Ea. cbn [mbind option_bind]. unfold createDescriptor.
  destruct (e_socket env (clock w)); cbn [negb].
  2:{ apply (runs_from _ (update (with_sd None) (tick w))); [by constructor|]. by apply connect_failed_runs. }
  set (w1 := say _ _). pose proof Ho as [Hi Hn].
  assert (okay w1 /\ later w w1 /\ sealed (log w1) = false) as (Ho1 & Hl1 & Hs1).
  { split; [split; [by apply inv_opened|done]|]. split; [by constructor|]. change (sealed (log w ++ [Opened (next_fd w)]) = false). by rewrite sealed_snoc. }
  assert (forall r, runs w1 r -> runs w r) as Hfrom by (intros r; by apply runs_from). apply Hfrom.
  assert (runs w1 (connect_failed perform (tick w1))) as Hfail by (apply (runs_from _ (tick w1)); [by constructor|by apply connect_failed_runs]).
  destruct (negb (e_nonblocking _ _)); [exact Hfail|]. destruct (_ && negb (e_shareable _ _)); [exact Hfail|].
  destruct (_ && negb (e_bind _ _)); [exact Hfail|]. cbv zeta. set (w2 := update _ w1).
  change (e_connect env (clock (say _ w2))) with (e_connect env (clock w1)). set (w3 := tick _).
  assert (okay w3 /\ later w1 w3 /\ sealed (log w3) = false /\ prepared w3) as (Ho3 & Hl3 & Hs3 & Hp3).
  { split; [split; [apply (inv_connect_to _ a p w2); [apply Ho1|exact Hs1|exact Hst]|apply Ho1]|]. split; [by constructor|]. split; [|done].
    change (sealed (log w1 ++ [ConnectTo (default 0 (sd (self w2))) a p]) = false). by rewrite sealed_snoc. }
  apply (runs_from _ w3); [done|]. destruct (e_connect env (clock w1)).
  - by apply internal_connected_runs.
  - apply (runs_from _ (update (with_state Connecting) w3)); [by constructor|]. apply notify_runs; [|apply Ho3].
    apply inv_plain; [|done]. apply inv_connecting; [apply Ho3|done|done|by left].
  - by apply connect_failed_runs.
Qed.

(** *** Looking up *)

(** Not a proxied socket, or one that was misused. *)
Definition direct (w : world) : Prop := misused w = false -> isProxied (self w) = false.

Lemma later_direct w w' : later w w' -> direct w -> direct w'.
Proof. intros [_ _ _ Hp] Hd Hm. destruct (Hp Hm) as [Hm' ->]. by apply Hd. Qed.

(** What the invariant has to say is unchanged for those. *)
Lemma inv_direct f w : inv w -> direct w -> outbound (f (self w)) = outbound (self w) -> isProxied (f (self w)) = isProxied (self w) ->
  (up_state (state (f (self w))) = true -> up_state (state (self w)) = true) -> (seal_ok (self w) -> seal_ok (f (self w))) ->
  handshake (f (self w)) = handshake (self w) -> inv (update f w).
Proof.
  intros (Hl & Hu & Hs & Hh & _) Hd Eo Ex Est Eseal Eh. unfold inv. cbn [log self update put misused tunnel_sent tunnel_got]. rewrite Eo, Ex, Eh.
  split; [done|]. split; [auto|]. split; [auto|]. split; [done|]. intros Hm Hx. by rewrite (Hd Hm) in Hx.
Qed.

Lemma inv_target t w : inv w -> settled w -> inv (update (with_target t) w).
Proof.
  intros (Hl & Hu & Hs & Hh & Hp) Hset. unfold inv. split; [done|]. split; [done|]. split; [done|]. split; [done|]. intros Hm Hx.
  destruct (Hp Hm Hx) as (P1 & P2 & P3 & P4 & P5). split; [done|]. split; [done|]. split; [done|]. split; [|done]. cbn. by rewrite (Hset Hm Hx).
Qed.

Lemma inv_target_proxy w : inv w -> inv (update (with_target TheProxy) w).
Proof.
  intros (Hl & Hu & Hs & Hh & Hp). unfold inv. split; [done|]. split; [done|]. split; [done|]. split; [done|]. intros Hm Hx.
  destruct (Hp Hm Hx) as (P1 & P2 & P3 & P4 & P5). split; [done|]. split; [done|]. split; [done|]. split; [|done].
  intros Hb. destruct (P4 Hb) as (? & _ & H). by split.
Qed.

Lemma host_error_runs w : okay w -> settled w -> runs w (socket_EventHostError perform w).
Proof.
  intros Ho Hset. unfold socket_EventHostError. set (f := fun s : Socket => _).
  apply (runs_from _ (update f w)); [by constructor|]. apply error_runs; [|done]. split; [|apply Ho].
  apply (inv_down Invalid (update (with_target Peer) w)); [|by left]. apply inv_target; [apply Ho|done].
Qed.

Lemma inv_set_proxy a b w : inv w -> (misused w = false -> isProxied (self w) = true -> b = true -> waiting (with_proxy_address (Some a) b (self w))) ->
  inv (update (with_proxy_address (Some a) b) w).
Proof.
  intros (Hl & Hu & Hs & Hh & Hp) Hw. unfold inv. split; [done|]. split; [done|]. split; [done|]. split; [done|]. intros Hm Hx.
  destruct (Hp Hm Hx) as (P1 & P2 & P3 & P4 & P5). split; [done|]. split; [done|]. split; [done|]. split; [|done]. intros Hb. by apply Hw.
Qed.

(** The answer may come at once, be an error at once, or come later. *)
Lemma lookup_proxy_runs found a w : okay w -> (resolveState a = Resolved -> runs w (found a w)) ->
  (misused w = false -> isProxied (self w) = true -> is_Some (handshake (self w)) /\ lookup_target (self w) = TheProxy /\
     state (self w) = Disconnected /\ Socks5.status (greeting_of (self w)) <> Socks5.Failed) ->
  runs w (address_lookup env perform found TheProxy a w).
Proof.
  intros Ho Hf Hw. unfold address_lookup. case_bool_decide as Hr; [by apply Hf|]. cbv zeta. set (w1 := say _ _).
  assert (okay w1 /\ later w w1) as [Ho1 Hl1].
  { split; [split; [|apply Ho]|by constructor]. apply inv_plain; [|done]. by apply (inv_set_proxy a false); [apply Ho|]. }
  destruct (e_lookup_fails env (clock w1)).
  - apply (runs_from _ (tick w1)); [destruct Hl1; by constructor|]. apply host_error_runs; [exact Ho1|]. by intros Hm Hx.
  - apply runs_done; [split; [|apply Ho]|by constructor]. apply (inv_set_proxy a true (tick w1)); [apply Ho1|].
    intros Hm Hx _. destruct (Hw Hm Hx) as (? & ? & ? & ?). split; [done|]. split; [done|]. split; [by left|]. split; [done|]. by exists a.
Qed.

Lemma inv_lookup_peer w : inv w -> direct w -> inv (say (Lookup Peer) w).
Proof.
  intros H Hd. pose proof H as (_ & Hu & Hs & _). apply inv_say; try done. intros Hm Hx. by rewrite (Hd Hm) in Hx.
Qed.

Lemma lookup_peer_runs found a w : okay w -> direct w -> (resolveState a = Resolved -> runs w (found a w)) ->
  runs w (address_lookup env perform found Peer a w).
Proof.
  intros Ho Hd Hf. unfold address_lookup. case_bool_decide as Hr; [by apply Hf|]. cbv zeta. set (w1 := say _ _).
  assert (okay w1 /\ later w w1 /\ direct w1) as (Ho1 & Hl1 & Hd1).
  { split; [split; [|apply Ho]|by split; [constructor|]]. apply inv_lookup_peer; [|done]. by apply inv_direct; [apply Ho|..]. }
  destruct (e_lookup_fails env (clock w1)).
  - apply (runs_from _ (tick w1)); [destruct Hl1; by constructor|]. apply host_error_runs; [exact Ho1|]. intros Hm Hx. by destruct (eq_true_false_abs _ Hx (Hd1 Hm)).
  - apply runs_done; [split; [|apply Ho]|by constructor]. by apply (inv_direct _ (tick w1)); [apply Ho1|..].
Qed.

Definition unconnected (w : world) : Prop := misused w = false -> isProxied (self w) = true -> up_state (state (self w)) = false.

Lemma proxy_found_runs a w : okay w -> prepared w -> unconnected w -> runs w (proxy_found env perform a w).
Proof.
  intros Ho Hp Hst. unfold proxy_found. set (f := fun s : Socket => _).
  assert (okay (update f w)) as Ho1.
  { split; [|apply Ho]. apply (inv_target Peer (update (with_addr (Some (a, Proxy.port (proxy (self w))))) w)); [apply Ho|].
    intros Hm Hx. by apply (Hp Hm Hx). }
  apply (runs_from _ (update f w)); [by constructor|]. by apply internal_connect_addr_runs.
Qed.

Lemma inv_handshake h w : inv w -> negotiated h [] [] -> inv (with_tunnel (clock w) [] [] (update (with_handshake (Some h)) w)).
Proof.
  intros (Hl & Hu & Hs & Hh & Hp) Hn. unfold inv. split; [done|]. split; [done|]. split; [done|]. split; [by intros h' [= <-]|]. intros Hm Hx.
  destruct (Hp Hm Hx) as (P1 & P2 & P3 & P4 & P5). split; [done|]. split; [done|]. split; [done|]. split; [|done].
  intros Hb. destruct (P4 Hb) as (_ & H). by split.
Qed.

Lemma internal_connect_proxy_runs w : okay w -> state (self w) = Disconnected \/ state (self w) = HostFound ->
  runs w (internal_connect_proxy inet_pton inet_ntop env perform w).
Proof.
  intros Ho Hst. pose proof Ho as [Hi Hn]. unfold internal_connect_proxy. cbv zeta. fold (greeting_of (self w)). set (h := greeting_of (self w)).
  set (w1 := with_tunnel _ _ _ _).
  assert (okay w1) as Ho1 by (split; [|done]; apply inv_handshake; [done|]; exists (proxy (self w)), (getPeerName inet_ntop (self w)), (port (self w)); constructor).
  assert (misused w = false -> isProxied (self w) = true -> proxied_ok w) as Hp by apply Hi.
  apply (runs_from _ w1); [by constructor|]. case_bool_decide as Hfail.
  { apply internal_proxy_failed_runs; [done|]. intros Hm Hx. destruct (Hp Hm Hx) as (_ & _ & _ & P4 & _).
    change (proxy_pending (self w1)) with (proxy_pending (self w)). destruct (proxy_pending (self w)); [|done]. by destruct (P4 eq_refl) as (_ & _ & _ & ? & _). }
  set (a := match proxy_address (self w) with Some a => a | None => _ end).
  assert (misused w = false -> isProxied (self w) = true -> resolveState a = Resolved -> proxy_pending (self w) = false) as Hres.
  { intros Hm Hx Hr. destruct (Hp Hm Hx) as (_ & _ & _ & P4 & _). destruct (proxy_pending (self w)); [|done].
    destruct (P4 eq_refl) as (_ & _ & _ & _ & a' & Ea & Hn'). unfold a in Hr. by rewrite Ea in Hr. }
  set (w2 := update _ w1). assert (okay w2 /\ later w1 w2) as [Ho2 Hl2].
  { split; [split; [|done]|by constructor]. apply inv_set_proxy; [apply Ho1|]. intros Hm Hx Hb. destruct (Hp Hm Hx) as (_ & _ & _ & P4 & _).
    destruct (P4 Hb) as (_ & ? & ? & ? & a' & Ea & Hn'). split; [done|]. split; [done|]. split; [done|]. split; [done|].
    exists a'. split; [|done]. unfold a. cbn. by rewrite Ea. }
  apply (runs_from _ w2); [done|].
  assert (prepared w2 \/ resolveState a <> Resolved) as Hprep.
  { destruct (decide (resolveState a = Resolved)) as [Hr|Hr]; [left|by right]. intros Hm Hx. split; [by apply Hres|done]. }
  assert (unconnected w) as Hun by (intros _ _; by destruct Hst as [->| ->]).
  destruct (isResolved a) eqn:Er; cbn [negb].
  - assert (resolveState a = Resolved) as Hr by (unfold isResolved in Er; apply andb_true_iff in Er as [_ Er]; by apply bool_decide_eq_true in Er).
    destruct Hprep as [Hprep|]; [|done]. set (w3 := update _ w2). apply (runs_from _ w3); [by constructor|].
    apply internal_connect_addr_runs; [|done|done|exact Hun]. split; [exact (proj1 Ho2)|done].
  - set (w3 := update _ w2). assert (okay w3 /\ later w2 w3) as [Ho3 Hl3].
    { split; [split; [|done]|by constructor]. apply inv_target_proxy, Ho2. }
    apply (runs_from _ w3); [done|]. apply lookup_proxy_runs; [done| |].
    + intros Hr. destruct Hprep as [Hprep|]; [|done]. apply proxy_found_runs; [done|exact Hprep|exact Hun].
    + intros Hm Hx. split; [done|]. split; [done|]. split; [|exact Hfail].
      destruct (Hp Hm Hx) as (_ & _ & _ & _ & _ & P6). by destruct Hst.
Qed.

Definition found_runs (found : InetAddress -> world -> option world) : Prop :=
  forall a w, okay w -> direct w -> resolveState a = Resolved -> runs w (found a w).

Lemma lookup_runs found w : found_runs found -> okay w -> runs w (lookup_with env perform found w).
Proof.
  intros Hf Ho. unfold lookup_with. case_bool_decide as Hst; cbn [negb]; [|by apply runs_done; [|apply later_refl]].
  destruct (isProxied (self w)) eqn:Ex; [apply error_runs; [done|by rewrite Hst]|].
  destruct (address (self w)) as [a|] eqn:Ea; [|by apply runs_done; [|apply later_refl]].
  eapply runs_bind; [apply notify_runs; [by apply inv_plain; [apply Ho|]|apply Ho]|]. intros w' Ho' Hl.
  assert (direct w') as Hd by (apply (later_direct w w' Hl); intros _; done).
  destruct (later_address _ _ Hl) as [a' Ea']; [by rewrite Ea|]. rewrite Ea'. cbn. apply lookup_peer_runs; [done|done|]. intros Hr. by apply Hf.
Qed.

Lemma connect_runs found w : found_runs found -> okay w -> runs w (connect_with inet_pton inet_ntop env perform found w).
Proof.
  intros Hf Ho. unfold connect_with. cbv zeta.
  destruct (bool_decide (state (self w) = Disconnected) || bool_decide (state (self w) = HostFound)) eqn:Est; cbn [negb]; [|by apply runs_done; [|apply later_refl]].
  apply orb_true_iff in Est. rewrite !bool_decide_eq_true in Est. destruct (isProxied (self w)) eqn:Ex; [by apply internal_connect_proxy_runs|].
  assert (direct w) as Hd by (intros _; done). destruct (addr (self w)) as [[a p]|] eqn:Ea.
  - apply internal_connect_addr_runs; [done|by rewrite Ea|intros Hm Hx; congruence|intros Hm Hx; congruence].
  - apply (runs_from _ (update (with_auto true) w)); [by constructor|]. by apply lookup_runs.
Qed.

(** What a resolver's answer needs of a proxied socket. *)
Lemma host_found_runs a w : okay w -> (direct w \/ (lookup_target (self w) = TheProxy /\ prepared w /\ unconnected w)) ->
  runs w (socket_EventHostFound inet_pton inet_ntop env perform a w).
Proof.
  intros Ho Hcase. unfold socket_EventHostFound. assert (lookup_target (self w) = TheProxy -> runs w (proxy_found env perform a w)) as Hproxy.
  { intros Et. apply proxy_found_runs; [done| |]; intros Hm Hx; destruct Hcase as [Hd|(_ & Hp & Hun)]; [by rewrite (Hd Hm) in Hx|by apply Hp|by rewrite (Hd Hm) in Hx|by apply Hun]. }
  destruct (lookup_target (self w)) eqn:Et; [|by apply Hproxy]. destruct Hcase as [Hd|(? & _)]; [|done]. clear Hproxy.
  set (f := fun s : Socket => _). assert (okay (update f w) /\ later w (update f w)) as [Ho1 Hl1].
  { split; [split; [|apply Ho]|by constructor]. by apply inv_direct; [apply Ho|..]. }
  eapply runs_from; [exact Hl1|]. eapply runs_bind; [apply notify_runs; [by apply inv_plain; [apply Ho1|]|apply Ho1]|].
  intros w' Ho' _. destruct (autoConnectAfterLookup (self w')); [|by apply runs_done; [|apply later_refl]].
  apply connect_runs; [|done]. intros a' w'' Ho'' _ _. by apply runs_done; [|apply later_refl].
Qed.

Lemma host_found_found : found_runs (socket_EventHostFound inet_pton inet_ntop env perform).
Proof. intros a w Ho Hd _. apply host_found_runs; [done|by left]. Qed.

Lemma disconnect_runs w : okay w -> runs w (disconnect perform w).
Proof.
  intros Ho. unfold disconnect. eapply runs_bind.
  - assert (runs w (notify perform EventDisconnected (update (with_state Disconnected) w))) by (apply notify_down; [done|by right|by left]).
    destruct (state (self w)); try done; by apply runs_done; [|apply later_refl].
  - intros w' Ho' _. destruct (close_okay w' Ho'). by apply runs_done.
Qed.

Lemma timeout_runs w : okay w -> runs w (socket_EventTimeout perform w).
Proof.
  intros Ho. unfold socket_EventTimeout. cbv zeta. destruct (okay_free (with_timer false) w Ho ltac:(apply Ho) ltac:(done)) as [Ho1 Hl1].
  eapply runs_from; [exact Hl1|]. destruct (_ || _); [by apply internal_timeout_runs|by apply runs_done; [|apply later_refl]].
Qed.

(** *** Transfers *)

(** The same for what gives a value too. *)
Definition gives {A} (p : A -> world) (w : world) (r : option A) : Prop := exists x, r = Some x /\ okay (p x) /\ later w (p x).

Lemma gives_done {A} (p : A -> world) w x : okay (p x) -> later w (p x) -> gives p w (Some x).
Proof. intros. by exists x. Qed.

Lemma gives_bind {A} (p : A -> world) w r f : runs w r -> (forall w', okay w' -> later w w' -> gives p w' (f w')) -> gives p w (r ≫= f).
Proof.
  intros (w1 & -> & Ho & Hl) Hf. destruct (Hf w1 Ho Hl) as (x & E & Hx & Hlx). exists x. split; [done|]. split; [done|]. by eapply later_trans.
Qed.

Lemma gives_from {A} (p : A -> world) w w1 r : later w w1 -> gives p w1 r -> gives p w r.
Proof. intros H (x & -> & Ho & Hl). exists x. split; [done|]. split; [done|]. by eapply later_trans. Qed.

Lemma gives_snd {A} w (r : option (A * world)) : gives snd w r -> runs w (snd <$> r).
Proof. intros ([x w'] & -> & H). by exists w'. Qed.

Lemma usable_up w : usable (self w) = true -> up_state (state (self w)) = true.
Proof. unfold usable. rewrite orb_true_iff, !bool_decide_eq_true. by intros [-> | ->]. Qed.

(** Data that goes through. *)
Definition transfer (o : Output) : bool := match o with SentPlain _ | GotPlain _ | SentTls _ | GotTls _ => true | _ => false end.
Definition is_plain (o : Output) : bool := match o with SentPlain _ | GotPlain _ => true | _ => false end.

Lemma transfer_okay o w : okay w -> usable (self w) = true -> transfer o = true -> (is_plain o = true -> over_tls (self w) = false) ->
  okay (say o w) /\ later w (say o w).
Proof.
  intros [Hi Hn] Hu Ho Hp. pose proof (usable_up w Hu) as Hst. pose proof Hi as (_ & Hup & Hs & _). split; [split; [|done]|by constructor].
  assert (is_plain o = true -> sealed (log w) = false) as Hseal.
  { intros Hpl. destruct (sealed (log w)); [|done]. specialize (Hs eq_refl). specialize (Hp Hpl). unfold seal_ok in Hs. unfold over_tls in Hp. unfold usable in Hu.
    destruct (state (self w)); try done. by rewrite Hs in Hp. }
  apply inv_say; [done|destruct o; try done; cbn; auto|destruct o; done|destruct o; done|].
  intros Hm Hx (_ & P2 & _). split; [auto|]. split; [by destruct o|]. destruct o; try done; cbn; auto.
Qed.

Lemma rw_error_runs e w : okay w -> e = Socks5.SocketRead \/ e = Socks5.SocketWrite -> runs w (notify perform (EventError e) w).
Proof. intros [Hi Hn] He. apply notify_runs; [|done]. apply inv_plain; [done|]. by destruct He as [->| ->]. Qed.

Lemma invalid_error_runs e w : okay w -> runs w (notify perform (EventError e) (invalidate w)).
Proof. intros Ho. destruct (invalidate_okay w Ho) as (Ho' & Hl & Hst). eapply runs_from; [exact Hl|]. apply error_runs; [done|by rewrite Hst]. Qed.

Lemma tls_gone_runs e w : okay w -> up_state (state (self w)) = true -> runs w (tls_gone perform e w).
Proof.
  intros Ho Hst. eapply runs_bind; [apply notify_runs; [by apply inv_told_data; [apply Ho|..]|apply Ho]|]. intros w' Ho' _. by apply invalid_error_runs.
Qed.

Lemma tick_okay w : okay w -> okay (tick w) /\ later w (tick w).
Proof. intros Ho. split; [exact Ho|by constructor]. Qed.

Lemma toggle_okay b w : okay w -> okay (update (toggleWriteNotifier b) w) /\ later w (update (toggleWriteNotifier b) w).
Proof. intros Ho. by apply okay_free; [|apply Ho|]. Qed.

(** An outcome that is known to be good, at once or after a tick. *)
Ltac waits := apply gives_done; cbn [snd]; [assumption|first [assumption|eapply later_trans; eassumption]].

Lemma write_gives d w : okay w -> gives snd w (write env perform d w).
Proof.
  intros Ho. unfold write. destruct (usable (self w)) eqn:Eu; cbn [negb].
  2:{ eapply gives_bind; [by apply rw_error_runs; [|right]|]. intros w' Ho' _. by apply gives_done; [|apply later_refl]. }
  destruct (tick_okay w Ho) as [Ho1 Hl1]. destruct (toggle_okay true (tick w) Ho1) as [Ho3 Hl3]. destruct (over_tls (self w)) eqn:Et.
  - destruct (e_tls_write env (clock w) d) as [st k]. destruct (transfer_okay (SentTls (ztake k d)) (tick w) Ho1 Eu eq_refl ltac:(done)) as [Ho2 Hl2].
    assert (gives snd w (w' ← tls_gone perform Socks5.SocketWrite (tick w); Some (-1, w'))) as Hgone.
    { eapply gives_from; [exact Hl1|]. eapply gives_bind; [apply tls_gone_runs; [done|by apply usable_up]|]. intros w' Ho' _. by apply gives_done; [|apply later_refl]. }
    destruct st; [by apply gives_done; [|eapply later_trans]|waits|waits|exact Hgone|exact Hgone].
  - destruct (e_send env (clock w) d) as [e|k].
    + destruct (passing env e); [waits|]. eapply gives_from; [exact Hl1|]. eapply gives_bind; [by apply invalid_error_runs|].
      intros w' Ho' _. by apply gives_done; [|apply later_refl].
    + destruct (transfer_okay (SentPlain (ztake k d)) (tick w) Ho1 Eu eq_refl ltac:(done)). by apply gives_done; [|eapply later_trans].
Qed.

(** Reading and looking ahead, [got] and [secret] being what is noted. *)
Lemma receive_gives (got secret : bytes -> world -> world) k m w : okay w ->
  (forall d w', okay w' -> usable (self w') = true -> over_tls (self w') = false -> okay (got d w') /\ later w' (got d w')) ->
  (forall d w', okay w' -> usable (self w') = true -> okay (secret d w') /\ later w' (secret d w')) ->
  gives snd w
    (if negb (usable (self w)) then w ← notify perform (EventError Socks5.SocketRead) w; Some (0, w)
     else if over_tls (self w) then
       let (st, d) := e_tls_read env (clock w) m in
       let w := tick w in
       match st with
       | TlsOk => Some (zlen d, secret d w)
       | WantWrite => Some (0, update (toggleWriteNotifier true) w)
       | WantRead => Some (0, w)
       | TlsClosed | TlsError => w ← tls_gone perform Socks5.SocketRead w; Some (k, w)
       end
     else
       match e_recv env (clock w) m with
       | inr d => Some (zlen d, got d (tick w))
       | inl e => if passing env e then Some (0, tick w)
                  else w ← notify perform (EventError Socks5.SocketRead) (invalidate (tick w)); Some (0, w)
       end).
Proof.
  intros Ho Hgot Hsec. destruct (usable (self w)) eqn:Eu; cbn [negb].
  2:{ eapply gives_bind; [by apply rw_error_runs; [|left]|]. intros w' Ho' _. by apply gives_done; [|apply later_refl]. }
  destruct (tick_okay w Ho) as [Ho1 Hl1]. destruct (toggle_okay true (tick w) Ho1) as [Ho3 Hl3]. destruct (over_tls (self w)) eqn:Et.
  - destruct (e_tls_read env (clock w) m) as [st d]. destruct (Hsec d (tick w) Ho1 Eu) as [Ho2 Hl2].
    assert (gives snd w (w' ← tls_gone perform Socks5.SocketRead (tick w); Some (k, w'))) as Hgone.
    { eapply gives_from; [exact Hl1|]. eapply gives_bind; [apply tls_gone_runs; [done|by apply usable_up]|]. intros w' Ho' _. by apply gives_done; [|apply later_refl]. }
    cbv zeta. destruct st; [by apply gives_done; [|eapply later_trans]|waits|waits|exact Hgone|exact Hgone].
  - destruct (e_recv env (clock w) m) as [e|d].
    + destruct (passing env e); [waits|]. eapply gives_from; [exact Hl1|]. eapply gives_bind; [by apply invalid_error_runs|].
      intros w' Ho' _. by apply gives_done; [|apply later_refl].
    + destruct (Hgot d (tick w) Ho1 Eu Et). by apply gives_done; [|eapply later_trans].
Qed.

Lemma read_gives m w : okay w -> gives snd w (read env perform m w).
Proof.
  intros Ho. apply (receive_gives (fun d => say (GotPlain d)) (fun d => say (GotTls d)) (-1)); [done|..]; intros; by apply transfer_okay.
Qed.

Lemma peek_gives m w : okay w -> gives snd w (peek env perform m w).
Proof. intros Ho. apply (receive_gives (fun _ w => w) (fun _ w => w) 0); [done|..]; intros; by split; [|apply later_refl]. Qed.

Lemma read_result_okay got secret m w : okay w ->
  (forall d w', okay w' -> usable (self w') = true -> over_tls (self w') = false -> okay (got d w') /\ later w' (got d w')) ->
  (forall d w', okay w' -> usable (self w') = true -> okay (secret d w') /\ later w' (secret d w')) ->
  okay (snd (read_result env got secret m w)) /\ later w (snd (read_result env got secret m w)).
Proof.
  intros Ho Hgot Hsec. unfold read_result. destruct (usable (self w)) eqn:Eu; cbn [negb]; [|by split; [|apply later_refl]].
  destruct (tick_okay w Ho) as [Ho1 Hl1]. destruct (toggle_okay true (tick w) Ho1) as [Ho2 Hl2]. destruct (over_tls (self w)) eqn:Et.
  - destruct (e_tls_read env (clock w) m) as [st d]. destruct (Hsec d (tick w) Ho1 Eu).
    cbv zeta. destruct st; cbn [snd]; try (by split; [|eapply later_trans]); try by split.
    destruct (0 <? zlen d); cbn [snd]; [by split; [|eapply later_trans]|by split].
  - destruct (e_recv env (clock w) m) as [e|d]; [by split|]. destruct (Hgot d (tick w) Ho1 Eu Et).
    destruct (0 <? zlen d); cbn [snd]; [by split; [|eapply later_trans]|by split].
Qed.

Lemma write_ec_gives d w : okay w -> gives snd w (write_ec env perform d w).
Proof.
  intros Ho. unfold write_ec. destruct (usable (self w)) eqn:Eu; cbn [negb]; [|by apply gives_done; [|apply later_refl]].
  destruct (over_tls (self w)) eqn:Et; [destruct (write_gives d w Ho) as ([k w'] & -> & H); by exists (k, None, w')|].
  destruct (tick_okay w Ho) as [Ho1 Hl1]. destruct (e_send env (clock w) d) as [e|k]; [destruct (passing env e); waits|].
  destruct (transfer_okay (SentPlain (ztake k d)) (tick w) Ho1 Eu eq_refl ltac:(done)). by apply gives_done; [|eapply later_trans].
Qed.

Lemma write_records_gives ds : forall total w, okay w -> gives snd w (write_records env perform ds total w).
Proof.
  induction ds as [|[|ch d] ds IH]; intros total w Ho; cbn [write_records]; [by apply gives_done; [|apply later_refl]|by apply IH|].
  destruct (write_ec_gives (ch :: d) w Ho) as ([[ret ec] w'] & -> & Ho' & Hl). cbn [mbind option_bind]. cbn [snd] in *.
  eapply gives_from; [exact Hl|]. destruct (ret <? 0); [destruct (total =? 0); by apply gives_done; [|apply later_refl]|].
  destruct (ret <? _); [by apply gives_done; [|apply later_refl]|by apply IH].
Qed.

Lemma write_all_gives ds w : okay w -> gives snd w (write_all env perform ds w).
Proof.
  intros Ho. unfold write_all. destruct (usable (self w)) eqn:Eu; cbn [negb]; [|by apply gives_done; [|apply later_refl]].
  destruct (over_tls (self w)) eqn:Et; [by apply write_records_gives|]. cbv zeta.
  case_bool_decide; [by apply gives_done; [|apply later_refl]|].
  destruct (tick_okay w Ho) as [Ho1 Hl1]. destruct (e_send _ _ _) as [e|k]; [destruct (passing env e); waits|].
  set (d := ztake k _). destruct (transfer_okay (SentPlain d) (tick w) Ho1 Eu eq_refl ltac:(done)). by apply gives_done; [|eapply later_trans].
Qed.

(** *** TLS and the monitor *)

(** From one connected state to another. *)
Definition keeps (f : Socket -> Socket) : Prop := forall s,
  outbound (f s) = outbound s /\ isProxied (f s) = isProxied s /\ handshake (f s) = handshake s /\
  proxy_pending (f s) = proxy_pending s /\ peer_pending (f s) = peer_pending s /\ addr (f s) = addr s /\ address (f s) = address s.

Lemma okay_up f w : okay w -> up_state (state (self w)) = true -> up_state (state (f (self w))) = true -> keeps f ->
  (sealed (log w) = true -> seal_ok (f (self w))) -> okay (update f w) /\ later w (update f w).
Proof.
  intros [Hi Hn] Hst Hst' Hf Hseal. destruct (Hf (self w)) as (Eo & Ex & Eh & Ep & Eq & Ea & Ed).
  split; [split; [|done]|constructor; cbn; rewrite ?Ex, ?Ea, ?Ed; done].
  assert (settled w) as Hset by (apply settled_state; [done|by destruct (state (self w))..]).
  destruct Hi as (Hl & Hu & Hs & Hh & Hp). unfold inv. cbn [log self update put misused tunnel_sent tunnel_got]. rewrite Eo, Ex, Eh.
  split; [done|]. split; [auto|]. split; [done|]. split; [done|].
  intros Hm Hx. destruct (Hp Hm Hx) as (P1 & P2 & P3 & P4 & P5 & P6). unfold proxied_ok. cbn [log self update put]. rewrite Ep, Eq, (Hset Hm Hx).
  split; [done|]. split; [auto|]. split; [intros [E|E]; by rewrite E in Hst'|]. split; [done|]. split; [done|]. intros E. by rewrite E in Hst'.
Qed.

(** A step of TLS is noted. *)
Definition tls_step (o : Output) : bool := match o with Handshake _ | Goodbye _ => true | _ => false end.

Lemma okay_tls o w : okay w -> up_state (state (self w)) = true -> tls_step o = true -> (sealed_after (sealed (log w)) o = true -> seal_ok (self w)) ->
  okay (say o w) /\ later w (say o w).
Proof.
  intros [Hi Hn] Hst Ho Hs. split; [split; [|done]|by constructor]. pose proof Hi as (_ & Hu & _). apply inv_say; try done; [by destruct o|destruct o; done|].
  intros _ _ (_ & P2 & _). specialize (P2 Hst). split; [done|]. split; [by destruct o|]. by destruct o.
Qed.

(** The state while TLS is at work, and the four ways a step of it can end. *)
Definition tls_state (st : SocketState) : Prop := st = SSLHandshake \/ st = SSLConnected \/ st = SSLBye.

Lemma tls_state_okay st b w : okay w -> up_state (state (self w)) = true -> tls (self w) = true -> tls_state st ->
  okay (update (fun s => with_state st (toggleWriteNotifier b s)) w) /\ later w (update (fun s => with_state st (toggleWriteNotifier b s)) w).
Proof.
  intros Ho Hst Ht Hs. apply okay_up; try done; [by destruct Hs as [->|[->| ->]]|]. intros _. by destruct Hs as [->|[->| ->]].
Qed.

Lemma tls_stopped_okay b w : okay w -> up_state (state (self w)) = true -> sealed (log w) = false ->
  okay (update (fun s => with_state Connected (toggleWriteNotifier b s)) w) /\ later w (update (fun s => with_state Connected (toggleWriteNotifier b s)) w).
Proof. intros Ho Hst Hs. apply okay_up; try done. by rewrite Hs. Qed.

Lemma tls_failed_runs w : okay w -> runs w (internal_error env perform (-1) (close (update (toggleWriteNotifier false) w))).
Proof.
  intros Ho. destruct (toggle_okay false w Ho) as [Ho1 Hl1]. destruct (close_okay _ Ho1) as [Ho2 Hl2].
  eapply runs_from; [eapply later_trans; [exact Hl1|exact Hl2]|]. by apply internal_error_runs.
Qed.

Lemma data_runs e w : okay w -> up_state (state (self w)) = true -> data_event e = true -> runs w (notify perform e w).
Proof. intros Ho Hst He. apply notify_runs; [|apply Ho]. by apply inv_told_data; [apply Ho|..]. Qed.

Lemma handshake_runs w : okay w -> runs w (TLSsendHandshake env perform w).
Proof.
  intros Ho. unfold TLSsendHandshake. destruct (tls (self w) && _) eqn:E; [|by apply runs_done; [|apply later_refl]].
  apply andb_true_iff in E as [Ht Hst]. assert (up_state (state (self w)) = true) as Hup by (apply orb_true_iff in Hst; rewrite !bool_decide_eq_true in Hst; by destruct Hst as [->| ->]).
  cbv zeta. set (w1 := update (with_state SSLHandshake) (tick w)).
  destruct (okay_up (with_state SSLHandshake) (tick w) Ho Hup eq_refl ltac:(done) ltac:(done)) as [Ho1 Hl1]. fold w1 in Ho1, Hl1.
  set (st := e_tls env (clock w)). destruct (okay_tls (Handshake st) w1 Ho1 eq_refl eq_refl ltac:(done)) as [Ho2 Hl2].
  set (w2 := say (Handshake st) w1) in *. apply (runs_from _ w2); [eapply later_trans; [|exact Hl2]; destruct Hl1; by constructor|].
  destruct st eqn:Est.
  - destruct (tls_state_okay SSLConnected false w2 Ho2 eq_refl Ht) as [Ho3 Hl3]; [by right; left|]. eapply runs_from; [exact Hl3|]. by apply data_runs.
  - destruct (tls_state_okay SSLHandshake true w2 Ho2 eq_refl Ht) as [Ho3 Hl3]; [by left|]. by apply runs_done.
  - destruct (tls_state_okay SSLHandshake false w2 Ho2 eq_refl Ht) as [Ho3 Hl3]; [by left|]. by apply runs_done.
  - destruct (tls_stopped_okay false w2 Ho2 eq_refl) as [Ho3 Hl3]; [|by apply runs_done]. unfold w2. cbn [log say]. by rewrite sealed_snoc.
  - by apply tls_failed_runs.
Qed.

Lemma goodbye_runs w : okay w -> runs w (TLSsendGoodbye env perform w).
Proof.
  intros Ho. unfold TLSsendGoodbye. destruct (tls (self w) && _) eqn:E; [|by apply runs_done; [|apply later_refl]].
  apply andb_true_iff in E as [Ht Hst]. assert (up_state (state (self w)) = true) as Hup by (apply orb_true_iff in Hst; rewrite !bool_decide_eq_true in Hst; by destruct Hst as [->| ->]).
  cbv zeta. set (w1 := update (with_state SSLBye) (tick w)).
  destruct (okay_up (with_state SSLBye) (tick w) Ho Hup eq_refl ltac:(done) ltac:(done)) as [Ho1 Hl1]. fold w1 in Ho1, Hl1.
  set (st := e_tls env (clock w)). destruct (okay_tls (Goodbye st) w1 Ho1 eq_refl eq_refl ltac:(done)) as [Ho2 Hl2].
  set (w2 := say (Goodbye st) w1) in *. apply (runs_from _ w2); [eapply later_trans; [|exact Hl2]; destruct Hl1; by constructor|].
  assert (st = TlsOk \/ st = TlsClosed -> sealed (log w2) = false) as Hs2.
  { intros Hs. unfold w2. cbn [log say]. rewrite sealed_snoc. by destruct Hs as [->| ->]. }
  destruct st eqn:Est.
  - destruct (tls_stopped_okay false w2 Ho2 eq_refl) as [Ho3 Hl3]; [by apply Hs2; left|]. eapply runs_from; [exact Hl3|]. by apply data_runs.
  - destruct (tls_state_okay SSLBye true w2 Ho2 eq_refl Ht) as [Ho3 Hl3]; [by right; right|]. by apply runs_done.
  - destruct (tls_state_okay SSLBye false w2 Ho2 eq_refl Ht) as [Ho3 Hl3]; [by right; right|]. by apply runs_done.
  - destruct (tls_stopped_okay false w2 Ho2 eq_refl) as [Ho3 Hl3]; [by apply Hs2; right|]. by apply runs_done.
  - by apply tls_failed_runs.
Qed.

Lemma stays w : okay w -> runs w (Some w).
Proof. intros. by apply runs_done; [|apply later_refl]. Qed.

Lemma tls_steps_run w : okay w -> runs w (tls_steps env perform w).
Proof.
  intros Ho. unfold tls_steps. eapply runs_bind; [by case_bool_decide; [apply handshake_runs|apply stays]|].
  intros w' Ho' _. by case_bool_decide; [apply goodbye_runs|apply stays].
Qed.

Lemma ready_runs e w : okay w -> data_event e = true ->
  runs w (if bool_decide (state (self w) = ProxyHandshake) then internal_proxy_pump env perform w
          else w ← (if usable (self w) then notify perform e w else Some w); tls_steps env perform w).
Proof.
  intros Ho He. case_bool_decide as Hst; [by apply internal_proxy_pump_runs|]. eapply runs_bind.
  - destruct (usable (self w)) eqn:Eu; [|by apply stays]. apply data_runs; [done|by apply usable_up|done].
  - intros w' Ho' _. by apply tls_steps_run.
Qed.

Lemma canRead_runs w : okay w -> runs w (internal_canRead env perform w).
Proof. intros Ho. by apply ready_runs. Qed.
Lemma canWrite_runs w : okay w -> runs w (internal_canWrite env perform w).
Proof. intros Ho. by apply ready_runs. Qed.

Lemma connecting_prepared w : inv w -> state (self w) = Connecting -> prepared w.
Proof.
  intros H Hst Hm Hx. split; [apply (settled_state w H); try done; by rewrite Hst|]. destruct H as (_ & _ & _ & _ & Hp).
  destruct (Hp Hm Hx) as (_ & _ & P3 & _). apply P3. by left.
Qed.

Lemma monitor_read_runs w : okay w -> runs w (monitor_read env perform w).
Proof.
  intros Ho. unfold monitor_read. destruct (state (self w)); try (by apply stays); try (by apply canRead_runs). cbv zeta.
  destruct (tick_okay w Ho) as [Ho1 Hl1]. apply (runs_from _ _ _ Hl1). destruct (e_probe env (clock w)) as [e|m].
  - destruct (_ || _); [by apply stays|by apply internal_error_runs].
  - destruct (0 <? m); [by apply canRead_runs|by apply internal_closed_runs].
Qed.

Lemma monitor_write_runs w : okay w -> runs w (monitor_write env perform w).
Proof.
  intros Ho. unfold monitor_write. destruct (state (self w)) eqn:Est; try (by apply stays); try (by apply canWrite_runs).
  apply internal_connected_runs; [done|apply unsealed_state; [apply Ho|by left]|apply connecting_prepared; [apply Ho|done]].
Qed.

Lemma monitor_error_runs b w : okay w -> runs w (monitor_error env perform b w).
Proof.
  intros Ho. destruct (tick_okay w Ho) as [Ho1 Hl1].
  assert (runs w (if b then internal_error env perform (default 0 (e_soerror env (clock w))) (tick w) else internal_closed perform w)) as H.
  { destruct b; [apply (runs_from _ _ _ Hl1); by apply internal_error_runs|by apply internal_closed_runs]. }
  unfold monitor_error. destruct (state (self w)); try exact H; by apply stays.
Qed.

Lemma monitor_runs t w : okay w -> runs w (handleMonitorEvent env perform t w).
Proof.
  intros Ho. unfold handleMonitorEvent. eapply runs_bind; [by destruct (t_read t); [apply monitor_read_runs|apply stays]|]. intros w1 Ho1 _.
  eapply runs_bind; [by destruct (t_write t); [apply monitor_write_runs|apply stays]|]. intros w2 Ho2 _.
  by destruct (_ || _); [apply monitor_error_runs|apply stays].
Qed.

(** *** Calls *)

Lemma free_call f w : okay w -> inv (update f w) -> (forall s, addr (f s) = addr s /\ address (f s) = address s /\ isProxied (f s) = isProxied s) ->
  runs w (Some (update f w)).
Proof. intros Ho Hi Hf. by apply free_runs. Qed.

Lemma tls_init_okay b w : okay w -> okay (snd (TLSInitialize env b w)) /\ later w (snd (TLSInitialize env b w)).
Proof.
  intros Ho. pose proof Ho as [Hi Hn]. unfold TLSInitialize. cbv zeta. destruct (tls (self w)) eqn:Et; [by split; [|apply later_refl]|]. case_bool_decide; [by split; [|apply later_refl]|].
  cbn [snd]. split; [split; [|done]|by constructor]. apply inv_plain; [|done]. destruct Hi as (Hl & Hu & Hs & Hr). split; [done|]. split; [done|]. split; [|done].
  intros Hseal. specialize (Hs Hseal). unfold seal_ok in *. cbn. destruct (state (self w)); done.
Qed.

Lemma tls_deinit_okay w : okay w -> okay (update TLSDeinitialize (if tls (self w) then say TlsDropped w else w)) /\
  later w (update TLSDeinitialize (if tls (self w) then say TlsDropped w else w)).
Proof.
  intros [Hi Hn]. destruct (tls (self w)) eqn:Et.
  - split; [split; [|done]|by constructor]. pose proof Hi as (_ & Hu & _).
    assert (inv (say TlsDropped w)) as (Hl & Hu' & Hs & Hr) by (apply inv_say; try done; intros _ _ (_ & P2 & _); done).
    split; [done|]. split; [done|]. split; [|done]. cbn [log say update put]. rewrite sealed_snoc. done.
  - split; [split; [|done]|by constructor]. destruct Hi as (Hl & Hu & Hs & Hr). split; [done|]. split; [done|]. split; [|done].
    intros Hseal. specialize (Hs Hseal). unfold seal_ok in *. cbn. destruct (state (self w)); congruence.
Qed.

Lemma set_proxy_runs p w : okay w -> runs w (Some (update (setProxy p) (misuse w))).
Proof.
  intros [(Hl & Hu & Hs & Hh & _) Hn]. assert (update (setProxy p) (misuse w) = misuse (update (setProxy p) w)) as -> by done.
  unfold setProxy. destruct (bool_decide (state (self w) = Disconnected)) eqn:E; apply runs_done; unfold update; rewrite ?E; cbn [negb];
    (split; [split; [|done]; split; [done|]; split; [done|]; split; [done|]; by split|]) || by constructor.
Qed.

Lemma set_handler_runs h w : okay w -> runs w (Some (update (setEventHandler h) w)).
Proof.
  intros Ho. assert (update (setEventHandler h) w = update (with_handler h) w \/ update (setEventHandler h) w = update (with_handler h) (update (setMonitor (mkTriggers true false false false)) w)) as [-> | ->].
  { unfold setEventHandler, update. destruct (negb (handler (self w)) && _ && _); [by right|by left]. }
  - by apply free_runs; [|apply Ho|].
  - apply runs_done; [exact Ho|by constructor].
Qed.

Lemma call_runs c w : okay w -> runs w (do_call inet_pton inet_ntop env perform c (note c w)).
Proof.
  intros Ho. destruct c; cbn [do_call note].
  - by apply connect_runs; [apply host_found_found|].
  - by apply disconnect_runs.
  - by apply lookup_runs; [apply host_found_found|].
  - destruct (close_okay w Ho). by apply runs_done.
  - by apply set_proxy_runs.
  - by apply free_runs; [|apply Ho|].
  - by apply free_runs; [|apply Ho|].
  - by apply set_handler_runs.
  - by apply free_runs; [|apply Ho|].
  - by apply gives_snd, write_gives.
  - by apply gives_snd, read_gives.
  - by apply gives_snd, peek_gives.
  - by apply gives_snd, write_ec_gives.
  - destruct (read_result_okay (fun d => say (GotPlain d)) (fun d => say (GotTls d)) n0 w Ho); [intros; by apply transfer_okay..|]. by apply runs_done.
  - destruct (read_result_okay (fun _ w => w) (fun _ w => w) n0 w Ho); [intros; by split; [|apply later_refl]..|]. by apply runs_done.
  - by apply gives_snd, write_all_gives.
  - destruct (tls_init_okay server w Ho). by apply runs_done.
  - destruct (tls_deinit_okay w Ho). by apply runs_done.
  - by apply handshake_runs.
  - by apply goodbye_runs.
  - by apply free_runs; [|apply Ho|].
Qed.
End operations.

(** ** Running *)

(** Each nesting uses up a reaction, so there is fuel for all of them. *)
Lemma perform_runs fuel : forall c w, (length (script w) < fuel)%nat -> inv w ->
  runs (length (script w)) w (perform inet_pton inet_ntop env fuel c w).
Proof.
  induction fuel as [|fuel IH]; intros c w Hf Hi; [lia|]. cbn [perform]. apply call_runs; [|by split].
  intros c' w' Hn Hi'. destruct (IH c' w' ltac:(lia) Hi') as (w2 & E & [Hi2 Hn2] & Hl). exists w2. split; [done|]. split; [split; [done|lia]|done].
Qed.

Lemma performs_enough w : forall c w', (length (script w') < length (script w))%nat -> inv w' ->
  runs (length (script w)) w' (perform inet_pton inet_ntop env (enough w) c w').
Proof.
  intros c w' Hn Hi. destruct (perform_runs (enough w) c w' ltac:(unfold enough; lia) Hi) as (w2 & E & [Hi2 Hn2] & Hl).
  exists w2. split; [done|]. split; [split; [done|lia]|done].
Qed.

Lemma direct_or w : direct w \/ (misused w = false /\ isProxied (self w) = true).
Proof. unfold direct. destruct (misused w), (isProxied (self w)); auto. Qed.

(** An answer finds its address no longer waited for. *)
Lemma answered t a w : inv w -> is_pending t (self w) = true ->
  let w' := update (set_pending t a false) w in
  inv w' /\ settled w' /\ (direct w' \/ (lookup_target (self w') = TheProxy /\ prepared w' /\ unconnected w')).
Proof.
  intros Hi Hpend. cbv zeta. destruct (direct_or w) as [Hd|[Hm Hx]].
  - assert (direct (update (set_pending t a false) w)) as Hd' by (destruct t; exact Hd).
    split; [by apply inv_direct; destruct t|]. split; [|by left]. intros Hm Hx. by destruct (eq_true_false_abs _ Hx (Hd' Hm)).
  - pose proof Hi as (_ & _ & _ & _ & Hp). destruct (Hp Hm Hx) as (_ & _ & _ & P4 & P5 & _). destruct t; cbn [is_pending] in Hpend; [congruence|].
    destruct (P4 Hpend) as (Hh & Ht & Hst & _). split; [by apply inv_set_proxy|]. split; [by intros _ _|]. right. split; [done|].
    split; [by intros _ _|]. intros _ _. cbn. by destruct Hst as [->| ->].
Qed.

Lemma step_runs i w : inv w -> permitted i -> exists w', step inet_pton inet_ntop env i w = Some w' /\ inv w'.
Proof.
  intros Hi Hp. pose proof (performs_enough w) as Hperf. assert (okay (length (script w)) w) as Ho by (by split).
  assert (forall w1 r, runs (length (script w)) w1 r -> exists w', r = Some w' /\ inv w') as Hruns by (intros w1 r (w' & E & [Hi' _] & _); by exists w').
  destruct i as [c|t|t answer|]; cbn [step]; cbv zeta.
  - apply (Hruns w (perform _ _ _ _ c w)). by apply perform_runs; [unfold enough; lia|].
  - destruct (monitored (self w)); [|by exists w]. apply (Hruns w). by apply monitor_runs.
  - destruct (is_pending t (self w)) eqn:Epend; cbn [negb]; [|by exists w]. destruct answer as [a|].
    + destruct (answered t a w Hi Epend) as (Hi1 & _ & Hcase). set (w1 := update _ w) in *. apply (Hruns w1). by apply host_found_runs; [|split; [|apply Ho]|].
    + destruct (address_of t (self w)) as [a|]; [|by exists w].
      destruct (answered t a w Hi Epend) as (Hi1 & Hset & _). set (w1 := update _ w) in *. apply (Hruns w1). apply host_error_runs; [done|by split; [|apply Ho]|done].
  - destruct (timer (self w)); [|by exists w]. apply (Hruns w). by apply timeout_runs.
Qed.

Lemma fresh_quiet s : fresh inet_pton s -> isProxied s = true -> state s = Disconnected /\ proxy_pending s = false /\ peer_pending s = false.
Proof.
  intros H. assert ((state s = Disconnected \/ outbound s = false) /\ proxy_pending s = false /\ peer_pending s = false) as (Hst & ? & ?).
  { induction H as [s p _ IH| | |]; [unfold setProxy; by destruct (negb _)|by split; [left|]|by split; [left|]|by split; [right|]]. }
  intros Hx. split; [|done]. destruct Hst as [?|Ho]; [done|]. unfold isProxied in Hx. by rewrite Ho in Hx.
Qed.

Lemma fresh_shape s : fresh inet_pton s -> handshake s = None /\ (up_state (state s) = true -> outbound s = false).
Proof.
  induction 1 as [s p _ IH| | |]; try done. unfold setProxy. by destruct (negb _).
Qed.

Lemma start_inv s l : fresh inet_pton s -> inv (start s l).
Proof.
  intros Hf. destruct (fresh_shape s Hf) as [Hh Hst]. pose proof (fresh_quiet s Hf) as Hq. unfold inv. cbn [log self start misused tunnel_sent tunnel_got].
  split; [apply always_nil|]. split; [intros E; cbn; by rewrite (Hst E)|]. split; [done|]. split; [by rewrite Hh|].
  intros _ Hx. destruct (Hq Hx) as (E1 & E2 & E3). unfold proxied_ok. cbn [log self start]. rewrite E1, E2, E3. split; [apply always_nil|].
  split; [done|]. split; [by intros [?|?]|]. done.
Qed.

Lemma socket_inv w : reached inet_pton inet_ntop env w -> inv w.
Proof.
  induction 1 as [s l Hf|i w w' _ IH Hp E]; [by apply start_inv|]. destruct (step_runs i w IH Hp) as (w1 & E1 & H1). rewrite E in E1. by injection E1 as <-.
Qed.

(** C12. Whatever the system, TLS, the resolver and the proxy answer and however the
    handler calls the socket back from inside its events, every call and every event
    returns - and a finite number of reactions is all the nesting there can be. What
    is seen from outside is in order: data events, and data either way, come only
    after [EventConnected] and never after the end that was told of - and while TLS is
    being negotiated or is in use nothing goes out or comes in as plain text. A handshake
    that the peer closes and a session that is dropped end that ([sealed_after]): the
    socket then goes on in plain text, as [closed_handshake_goes_plain] and
    [dropped_tls_goes_plain] show. *)
Theorem socket_in_order w : reached inet_pton inet_ntop env w ->
  (forall l1 o l2, log w = l1 ++ o :: l2 -> out_ok (up (negb (outbound (self w))) l1) (sealed l1) o) /\
  forall i, permitted i -> exists w', step inet_pton inet_ntop env i w = Some w'.
Proof.
  intros Hr. pose proof (socket_inv w Hr) as Hi. split; [apply Hi|]. intros i Hp. destruct (step_runs i w Hi Hp) as (w' & E & _). by exists w'.
Qed.

(** C11. A socket that was given a proxy before it was used never asks a resolver about
    its peer, and nothing that is between the application and the peer - no
    [EventConnected], no data, no TLS - happens on a connection before the proxy has
    granted it. *)
Theorem proxied_stays_inside w : reached inet_pton inet_ntop env w -> misused w = false -> isProxied (self w) = true ->
  (Lookup Peer ∉ log w) /\
  forall l1 o l2, log w = l1 ++ o :: l2 -> inside o = true -> tunnel l1 = true.
Proof.
  intros Hr Hm Hx. destruct (socket_inv w Hr) as (_ & _ & _ & _ & Hp). destruct (Hp Hm Hx) as (P1 & _). split.
  - intros Hin. apply list_elem_of_split in Hin as (l1 & l2 & E). by destruct (P1 _ _ _ E).
  - intros l1 o l2 E. apply (P1 _ _ _ E).
Qed.
End proofs.

(** ** Runs *)

Definition no_pton : Inet.Version -> bytes -> option bytes := fun _ _ => None.

(** A network in which everything works at once or after one event, and TLS as given. *)
Definition demo_env (outcome : ConnectOutcome) (tls_status : TlsStatus) (probe : Z) : Env :=
  mkEnv 11 11 4 107 71 110 111 113 112 100 101 (fun _ => true) (fun _ => true) (fun _ => true) (fun _ => true) (fun _ => outcome) (fun _ => Some 0)
    (fun _ => inr probe) (fun _ d => inr (zlen d)) (fun _ _ => inl 11) (fun _ => true) (fun _ => tls_status) (fun _ d => (TlsOk, zlen d)) (fun _ _ => (WantRead, []))
    (fun _ => 0) (fun _ => false).

Definition permittedb (i : Input) : bool := match i with FromResolver _ (Some a) => bool_decide (resolveState a = Resolved) | _ => true end.

Fixpoint run (env : Env) (l : list Input) (w : world) : option world :=
  match l with [] => Some w | i :: l => if permittedb i then w ← step no_pton no_pton env i w; run env l w else None end.

Lemma run_socket env l : forall w w', reached no_pton no_pton env w -> run env l w = Some w' -> reached no_pton no_pton env w'.
Proof.
  induction l as [|i l IH]; intros w w' Hr E; cbn [run] in E; [by simplify_eq|]. destruct (permittedb i) eqn:Hp; [|done].
  destruct (step no_pton no_pton env i w) as [w1|] eqn:E1; [|done]. cbn in E. eapply IH; [|exact E]. eapply reached_step; [done| |done].
  destruct i as [| |t [a|]|]; try done. by apply bool_decide_eq_true in Hp.
Qed.

Definition demo_peer : InetAddress := ipv4 93 184 216 34.
Definition demo_proxy_address : InetAddress := ipv4 127 0 0 1.
Definition demo_socket : Socket := new_Socket_address no_ProxySettings demo_peer 80.
Definition proxied_socket : Socket := setProxy (new_ProxySettings (lit "proxy") 1080) (new_Socket no_pton no_ProxySettings (lit "example.com") 80).
Definition readable : Triggers := mkTriggers true false false false.
Definition writable : Triggers := mkTriggers false true false false.
(** A handler that does this when it is told of that, every time. *)
Definition always_on (l : list (Event * list Call)) (e : Event) : list Call :=
  match e with
  | EventConnected => concat (map snd (List.filter (fun x => match x.1 with EventConnected => true | _ => false end) l))
  | EventDisconnected => concat (map snd (List.filter (fun x => match x.1 with EventDisconnected => true | _ => false end) l))
  | EventCanWrite => concat (map snd (List.filter (fun x => match x.1 with EventCanWrite => true | _ => false end) l))
  | _ => []
  end.
Definition reactions (l : list (Event * list Call)) : list (Event -> list Call) := replicate 8 (always_on l).

Definition demo_network : Env := demo_env InProgress TlsOk 1.
Lemma demo_sends t d m : e_send demo_network t d = inr m -> 0 <= m <= zlen d.
Proof. intros [= <-]. pose proof (zlen_nonneg d). lia. Qed.
Lemma demo_receives t want d : 0 <= want -> e_recv demo_network t want = inr d -> zlen d <= want.
Proof. intros _ [=]. Qed.

Definition demo_inputs : list Input := [FromApplication Connect; FromMonitor writable; FromApplication (Write (lit "hi"))].
Definition demo_log : list Output :=
  [Told EventHostLookup; Told EventHostFound; Opened 1000; ConnectTo 1000 demo_peer 80; Told EventConnecting; Told EventConnected].

Lemma run_started s l w : fresh no_pton s -> run demo_network l (start s []) = Some w -> reached no_pton no_pton demo_network w.
Proof. intros Hf. apply run_socket. by constructor. Qed.

Lemma demo_run_log : log <$> run demo_network demo_inputs (start demo_socket []) = Some (demo_log ++ [SentPlain (lit "hi")]).
Proof. vm_compute. reflexivity. Qed.

Lemma demo_socket_fresh : fresh no_pton demo_socket.
Proof. constructor. Qed.

Lemma socket_in_order_witness : exists w, reached no_pton no_pton demo_network w /\
  log w = demo_log ++ [SentPlain (lit "hi")] /\ up (negb (outbound (self w))) demo_log = true /\ sealed demo_log = false.
Proof.
  pose proof demo_run_log as E. destruct (run demo_network demo_inputs (start demo_socket [])) as [w|] eqn:Er; [|discriminate E]. cbn [fmap option_fmap option_map] in E. injection E as E.
  pose proof (run_started demo_socket demo_inputs w demo_socket_fresh Er) as Hr.
  destruct (socket_in_order no_pton no_pton demo_network demo_sends demo_receives w Hr) as [H _].
  exists w. split; [exact Hr|]. split; [exact E|]. exact (H demo_log _ [] E).
Defined.

Definition proxied_inputs : list Input := [FromApplication Connect; FromResolver TheProxy (Some demo_proxy_address)].

Lemma demo_proxied_log : (fun w => (log w, misused w, isProxied (self w))) <$> run demo_network proxied_inputs (start proxied_socket []) =
  Some ([Lookup TheProxy; Opened 1000; ConnectTo 1000 demo_proxy_address 1080; Told EventConnecting], false, true).
Proof. vm_compute. reflexivity. Qed.

Lemma proxied_socket_fresh : fresh no_pton proxied_socket.
Proof. apply fresh_proxy. constructor. Qed.

Lemma proxied_stays_inside_witness : exists w, reached no_pton no_pton demo_network w /\ (Lookup Peer ∉ log w) /\
  log w = [Lookup TheProxy; Opened 1000; ConnectTo 1000 demo_proxy_address 1080; Told EventConnecting].
Proof.
  pose proof demo_proxied_log as E. destruct (run demo_network proxied_inputs (start proxied_socket [])) as [w|] eqn:Er; [|discriminate E].
  cbn [fmap option_fmap option_map] in E. injection E as E Em Ex.
  pose proof (run_started proxied_socket proxied_inputs w proxied_socket_fresh Er) as Hr.
  destruct (proxied_stays_inside no_pton no_pton demo_network demo_sends demo_receives w Hr Em Ex) as [H _].
  exists w. split; [exact Hr|]. split; [exact H|exact E].
Defined.

(** *** Where the socket departs from what it says *)

(** A peer that closes during the TLS handshake puts the socket back to plain text: what
    is written then goes out unencrypted. *)
Lemma closed_handshake_goes_plain :
  log <$> run (demo_env AtOnce TlsClosed 1) [FromApplication Connect; FromMonitor writable]
    (start demo_socket (reactions [(EventConnected, [TLSInit false; TLSHandshake]); (EventCanWrite, [WriteEc (lit "secret")])])) =
  Some [Told EventHostLookup; Told EventHostFound; Opened 1000; ConnectTo 1000 demo_peer 80; Told EventConnected;
        TlsStarted false None None; Handshake TlsClosed; Told EventCanWrite; SentPlain (lit "secret")].
Proof. vm_compute. reflexivity. Qed.

(** A handler that connects again when it is told of the end has the new connection taken
    off the monitor, or closed. *)
Lemma reconnect_is_undone :
  let w := start demo_socket (reactions [(EventDisconnected, [Connect])]) in
  (fun w => (state (self w), sd (self w), monitored (self w))) <$>
    run (demo_env InProgress TlsOk 0) [FromApplication Connect; FromMonitor writable; FromMonitor readable] w = Some (Connecting, Some 1001, false) /\
  (fun w => (state (self w), sd (self w), monitored (self w))) <$>
    run (demo_env InProgress TlsOk 0) [FromApplication Connect; FromApplication Disconnect] w = Some (Connecting, None, false).
Proof. vm_compute. done. Qed.

(** A connection that ended leaves its descriptor to be forgotten by the next one. *)
Lemma reconnect_leaks :
  log <$> run (demo_env AtOnce TlsOk 0) [FromApplication Connect; FromMonitor readable; FromApplication Connect] (start demo_socket []) =
  Some [Told EventHostLookup; Told EventHostFound; Opened 1000; ConnectTo 1000 demo_peer 80; Told EventConnected; Told EventDisconnected;
        Opened 1001; ConnectTo 1001 demo_peer 80; Told EventConnected].
Proof. vm_compute. reflexivity. Qed.

(** A lookup outlives [disconnect], and connects when it is answered. *)
Lemma disconnect_misses_lookup :
  log <$> run (demo_env InProgress TlsOk 1) [FromApplication Connect; FromApplication Disconnect; FromResolver Peer (Some demo_peer)]
    (start (new_Socket no_pton no_ProxySettings (lit "example.com") 80) []) =
  Some [Told EventHostLookup; Lookup Peer; Told EventHostFound; Opened 1000; ConnectTo 1000 demo_peer 80; Told EventConnecting].
Proof. vm_compute. reflexivity. Qed.

(** The proxy's address stays behind when the proxy is taken away: a direct connection
    goes to it, and is reported as one to the peer. *)
Lemma proxy_address_stays :
  (fun w => (isProxied (self w), drop 5 (log w))) <$>
    run (demo_env InProgress TlsOk 1)
      [FromApplication Connect; FromResolver TheProxy (Some demo_proxy_address); FromApplication Disconnect;
       FromApplication (SetProxy no_ProxySettings); FromApplication Connect; FromMonitor writable] (start proxied_socket []) =
  Some (false, [Closed 1000; Opened 1001; ConnectTo 1001 demo_proxy_address 1080; Told EventConnecting; Told EventConnected]).
Proof. vm_compute. reflexivity. Qed.

(** Taking TLS down leaves the socket in its TLS state, and what is written then goes
    out unencrypted. *)
Lemma dropped_tls_goes_plain :
  (fun w => (state (self w), last (log w))) <$>
    run (demo_env AtOnce TlsOk 1) [FromApplication Connect; FromApplication TLSDeinit; FromApplication (Write (lit "secret"))]
      (start demo_socket (reactions [(EventConnected, [TLSInit false; TLSHandshake])])) =
  Some (SSLConnected, Some (SentPlain (lit "secret"))).
Proof. vm_compute. reflexivity. Qed.
