(* ===== verification/ResolverPool.v ===== *)
(** * ResolverPool: [src/io/net/dns/resolver-pool.cpp]

    The lookups that worker threads make for the event loop. The pool is what its mutex
    protects; a step is what one thread does in one critical section, or between two -
    submitting, cancelling and draining on the loop's thread, the scheduler, and each
    worker by its number. A thread that waits for a condition can go on when its
    predicate holds, and a worker whose time is up when it does not. What getaddrinfo
    and getnameinfo answer is a parameter. The notifier is a flag here; [PoolNotifier] puts
    the real one in its place. The destructor is the file [PoolShutdown]. *)

From stdpp Require Import gmap.
From S2P Require Import Prelude Strings Inet.

(** ** Requests *)

(* @src src/include/samurai/io/net/dns/resolver.h:25-32 Samurai::IO::Net::DNS::Resolver::Error *)
Inductive Error := NotFound | NoAddress | ServerError | TryAgain | Unknown.

(* @src src/include/samurai/io/net/dns/resolver-pool.h:56-56 Samurai::IO::Net::DNS::ResolverPool::Kind *)
Inductive Kind := Forward | Reverse.

#[export] Instance Kind_eq_dec : EqDecision Kind.
Proof. solve_decision. Defined.

(* @src src/include/samurai/io/net/dns/resolver-pool.h:58-73 Samurai::IO::Net::DNS::ResolverPool::Request *)
Record Request := mkRequest {
  kind : Kind;
  query : bytes;
  ok : bool;
  r_address : InetAddress;
  name : bytes;
  error : Error;
  handler : bool;
  dead : bool
}.

Definition with_result (b : bool) (a : InetAddress) (n : bytes) (e : Error) (r : Request) : Request :=
  mkRequest (kind r) (query r) b a n e (handler r) (dead r).
Definition with_dead (r : Request) : Request := mkRequest (kind r) (query r) (ok r) (r_address r) (name r) (error r) (handler r) true.

(** What a handler is told. *)
Inductive Answer := EventHostFound (a : InetAddress) | EventHostError (e : Error).

(** An entry of what getaddrinfo lists: a family that is used, and its raw address. *)
Record Candidate := mkCandidate { family : option Version; raw : bytes }.

Section lookups.
Variables EAI_NONAME EAI_AGAIN EAI_FAIL EAI_NODATA EAI_MEMORY : Z.
(** The system's resolver: a code that is not zero, or what was found. *)
Variable getaddrinfo : bytes -> Z + list Candidate.
Variable getnameinfo : InetAddress -> Z + bytes.

(* @src src/src/io/net/dns/resolver-pool.cpp:22-34 mapResolveError *)
Definition mapResolveError (rc : Z) : Error :=
  if rc =? EAI_NONAME then NotFound
  else if rc =? EAI_AGAIN then TryAgain
  else if rc =? EAI_FAIL then ServerError
  else if negb (EAI_NODATA =? EAI_NONAME) && (rc =? EAI_NODATA) then NoAddress
  else if rc =? EAI_MEMORY then ServerError
  else Unknown.

(** The first candidate that can be used. *)
(* @src src/src/io/net/dns/resolver-pool.cpp:59-76 resolveForward *)
Fixpoint first_usable (l : list Candidate) (a : InetAddress) : option InetAddress :=
  match l with
  | [] => None
  | c :: l =>
      match family c with
      | Some v => match setRawAddress (raw c) v a with Some a' => Some a' | None => first_usable l a end
      | None => first_usable l a
      end
  end.

(* @src src/src/io/net/dns/resolver-pool.cpp:40-82 resolveForward *)
Definition resolveForward (r : Request) : Request :=
  match getaddrinfo (query r) with
  | inl rc => with_result false (r_address r) (name r) (mapResolveError rc) r
  | inr l =>
      match first_usable l (r_address r) with
      | Some a => with_result true a (name r) (error r) r
      | None => with_result false (r_address r) (name r) NoAddress r
      end
  end.

(** An address of no family has no socket address. *)
(* @src src/src/io/net/dns/resolver-pool.cpp:88-114 resolveReverse *)
Definition resolveReverse (r : Request) : Request :=
  if bool_decide (version (r_address r) = Unspecified) then with_result false (r_address r) (name r) NotFound r
  else match getnameinfo (r_address r) with
       | inl rc => with_result false (r_address r) (name r) (mapResolveError rc) r
       | inr host => with_result true (r_address r) host (error r) r
       end.

Definition resolve (r : Request) : Request := if bool_decide (kind r = Forward) then resolveForward r else resolveReverse r.

(** A name found travels on the address that was asked about. *)
(* @src src/src/io/net/dns/resolver-pool.cpp:370-384 Samurai::IO::Net::DNS::ResolverPool::drain *)
Definition answer_of (r : Request) : Answer :=
  if negb (ok r) then EventHostError (error r)
  else if bool_decide (kind r = Reverse)
  then EventHostFound (mkInetAddress (version (r_address r)) (data (r_address r)) (name r) (resolveState (r_address r)))
  else EventHostFound (r_address r).

(** ** The pool *)

(** Where a worker is: waiting for work, with a request, about to wake the loop, out of
    its loop, and returned. *)
(* @src src/src/io/net/dns/resolver-pool.cpp:128-133 Samurai::IO::Net::DNS::ResolverPool::Worker *)
Inductive Worker := Waiting | Busy (id : nat) | Notifying | Leaving | Finished.

#[export] Instance Worker_eq_dec : EqDecision Worker.
Proof. solve_decision. Defined.

(** [requests] are all there ever were, by number; [draining] what the loop's thread
    still has to hand out; [notified] whether the notifier has a byte to read. *)
(* @src src/include/samurai/io/net/dns/resolver-pool.h:112-128 Samurai::IO::Net::DNS::ResolverPool *)
Record Pool := mkPool {
  requests : gmap nat Request;
  next : nat;
  pending : list nat;
  completed : list nat;
  draining : list nat;
  workers : list Worker;
  notified : bool;
  max_workers : Z;
  busy_workers : Z;
  sched_wakeup : bool;
  started : bool;
  answered : list (nat * Answer)
}.

(* @src src/src/io/net/dns/resolver-pool.cpp:140-148 Samurai::IO::Net::DNS::ResolverPool::ResolverPool *)
Definition new_Pool : Pool := mkPool ∅ 0 [] [] [] [] false 4 0 false false [].

Definition with_requests (m : gmap nat Request) (n : nat) (p : Pool) : Pool :=
  mkPool m n (pending p) (completed p) (draining p) (workers p) (notified p) (max_workers p) (busy_workers p) (sched_wakeup p) (started p) (answered p).
Definition with_pending (l : list nat) (b : bool) (p : Pool) : Pool :=
  mkPool (requests p) (next p) l (completed p) (draining p) (workers p) (notified p) (max_workers p) (busy_workers p) b (started p) (answered p).
Definition with_completed (l d : list nat) (b : bool) (p : Pool) : Pool :=
  mkPool (requests p) (next p) (pending p) l d (workers p) b (max_workers p) (busy_workers p) (sched_wakeup p) (started p) (answered p).
Definition with_workers (l : list Worker) (n : Z) (p : Pool) : Pool :=
  mkPool (requests p) (next p) (pending p) (completed p) (draining p) l (notified p) (max_workers p) n (sched_wakeup p) (started p) (answered p).
Definition with_max (n : Z) (p : Pool) : Pool :=
  mkPool (requests p) (next p) (pending p) (completed p) (draining p) (workers p) (notified p) n (busy_workers p) (sched_wakeup p) (started p) (answered p).
Definition with_started (b : bool) (p : Pool) : Pool :=
  mkPool (requests p) (next p) (pending p) (completed p) (draining p) (workers p) (notified p) (max_workers p) (busy_workers p) (sched_wakeup p) b (answered p).
Definition tell (id : nat) (a : Answer) (p : Pool) : Pool :=
  mkPool (requests p) (next p) (pending p) (completed p) (draining p) (workers p) (notified p) (max_workers p) (busy_workers p) (sched_wakeup p) (started p) (answered p ++ [(id, a)]).

(** Whether the notifier can be made when a request is submitted. *)
Variable can_start : nat -> bool.

(* @src src/src/io/net/dns/resolver-pool.cpp:178-193 Samurai::IO::Net::DNS::ResolverPool::startOnce *)
Definition startOnce (p : Pool) : Pool := if started p then p else with_started (can_start (next p)) p.

(* @src src/src/io/net/dns/resolver-pool.cpp:195-218 Samurai::IO::Net::DNS::ResolverPool::submit *)
Definition submit (r : Request) (p : Pool) : Pool :=
  let p := startOnce p in
  let id := next p in
  if negb (started p) then
    let p := with_requests (<[id := with_result false (r_address r) (name r) ServerError r]> (requests p)) (S id) p in
    if handler r then tell id (EventHostError ServerError) p else p
  else with_pending (pending p ++ [id]) true (with_requests (<[id := r]> (requests p)) (S id) p).

(* @src src/src/io/net/dns/resolver-pool.cpp:220-239 Samurai::IO::Net::DNS::ResolverPool::cancel *)
Definition cancel (id : nat) (p : Pool) : Pool :=
  with_pending (List.filter (fun i => negb (Nat.eqb i id)) (pending p)) (sched_wakeup p) (with_requests (alter with_dead id (requests p)) (next p) p).

(* @src src/src/io/net/dns/resolver-pool.cpp:241-245 Samurai::IO::Net::DNS::ResolverPool::setMaxWorkers *)
Definition setMaxWorkers (count : Z) (p : Pool) : Pool := with_max (if count =? 0 then 1 else count) p.
(* @src src/src/io/net/dns/resolver-pool.cpp:247-251 Samurai::IO::Net::DNS::ResolverPool::getMaxWorkers *)
Definition getMaxWorkers (p : Pool) : Z := max_workers p.

Definition is_live (w : Worker) : bool := match w with Finished => false | _ => true end.
(* @src src/src/io/net/dns/resolver-pool.cpp:259-267 Samurai::IO::Net::DNS::ResolverPool::getWorkerCount *)
Definition getWorkerCount (p : Pool) : Z := zlen (List.filter is_live (workers p)).

(** A slot whose thread has returned is used again. *)
Fixpoint reuse (l : list Worker) : list Worker :=
  match l with [] => [Waiting] | Finished :: l => Waiting :: l | w :: l => w :: reuse l end.

(** One round of the scheduler, once it was woken. *)
(* @src src/src/io/net/dns/resolver-pool.cpp:274-314 Samurai::IO::Net::DNS::ResolverPool::schedule *)
Definition schedule (p : Pool) : Pool :=
  let p := with_pending (pending p) false p in
  let live := getWorkerCount p in
  if bool_decide (pending p = []) || (busy_workers p <? live) || (max_workers p <=? live) then p
  else with_workers (reuse (workers p)) (busy_workers p) p.

Definition set_worker (i : nat) (w : Worker) (n : Z) (p : Pool) : Pool := with_workers (<[i := w]> (workers p)) n p.

(** The turns of a worker: it takes what waits longest, or leaves when its time is up
    and nothing waits; it hands in what it was given; it wakes the loop; it returns. *)
(* @src src/src/io/net/dns/resolver-pool.cpp:316-356 Samurai::IO::Net::DNS::ResolverPool::work *)
Definition work (i : nat) (p : Pool) : option Pool :=
  match workers p !! i with
  | Some Waiting =>
      Some (match pending p with
            | [] => set_worker i Leaving (busy_workers p) p
            | id :: l => set_worker i (Busy id) (busy_workers p + 1) (with_pending l (sched_wakeup p) p)
            end)
  | Some (Busy id) =>
      let p := with_requests (alter resolve id (requests p)) (next p) p in
      Some (set_worker i Notifying (busy_workers p - 1) (with_completed (completed p ++ [id]) (draining p) (notified p) p))
  | Some Notifying => Some (set_worker i Waiting (busy_workers p) (with_completed (completed p) (draining p) true p))
  | Some Leaving => Some (set_worker i Finished (busy_workers p) p)
  | _ => None
  end.

(** The loop's thread takes all that is completed, and hands it out one by one; in
    between the handlers may submit and cancel. *)
(* @src src/src/io/net/dns/resolver-pool.cpp:358-386 Samurai::IO::Net::DNS::ResolverPool::drain *)
Definition drain (p : Pool) : option Pool :=
  match draining p with
  | [] => if notified p then Some (with_completed [] (completed p) false p) else None
  | id :: l =>
      let rest := with_completed (completed p) l (notified p) p in
      match requests p !! id with
      | Some r => Some (if dead r || negb (handler r) then rest else tell id (answer_of r) rest)
      | None => None
      end
  end.

(** ** Its users *)

(** A resolver remembers the last request it made. *)
(* @src src/include/samurai/io/net/dns/resolver-pool.h:135-149 Samurai::IO::Net::DNS::PooledResolver *)
Record PooledResolver := mkPooledResolver { eventHandler : bool; request : option nat }.

(* @src src/src/io/net/dns/resolver-pool.cpp:388-391 Samurai::IO::Net::DNS::PooledResolver::PooledResolver *)
Definition new_PooledResolver (eh : bool) : PooledResolver := mkPooledResolver eh None.

(* @src src/src/io/net/dns/resolver-pool.cpp:393-397 Samurai::IO::Net::DNS::PooledResolver::~PooledResolver *)
Definition delete_PooledResolver (u : PooledResolver) (p : Pool) : Pool :=
  match request u with Some id => cancel id p | None => p end.

(* @src src/src/io/net/dns/resolver-pool.cpp:399-415 Samurai::IO::Net::DNS::PooledResolver::lookup *)
Definition lookup (n : bytes) (u : PooledResolver) (p : Pool) : option Answer * PooledResolver * Pool :=
  if negb (eventHandler u) then (None, u, p)
  else if bool_decide (n = []) then (Some (EventHostError NotFound), u, p)
  else (None, mkPooledResolver (eventHandler u) (Some (next p)),
        submit (mkRequest Forward n false (mkInetAddress Unspecified zero_data [] Unresolved) [] Unknown true false) p).

(* @src src/src/io/net/dns/resolver-pool.cpp:417-433 Samurai::IO::Net::DNS::PooledResolver::lookupAddress *)
Definition lookupAddress (a : InetAddress) (u : PooledResolver) (p : Pool) : option Answer * PooledResolver * Pool :=
  if negb (eventHandler u) then (None, u, p)
  else if negb (isValid a) then (Some (EventHostError NotFound), u, p)
  else (None, mkPooledResolver (eventHandler u) (Some (next p)), submit (mkRequest Reverse [] false a [] Unknown true false) p).

(** ** Steps *)

(** [Wakeup]: the notifier coalesces wakeups and may also be left with a byte of one that was
    answered, so that the loop comes to the pool once more than anybody asked for. *)
Inductive Step :=
  | Submit (r : Request) | Cancel (id : nat) | SetMaxWorkers (count : Z) | Wakeup
  | Schedule | Work (i : nat) | Drain.

Definition step (s : Step) (p : Pool) : option Pool :=
  match s with
  | Submit r => Some (submit r p)
  | Cancel id => Some (cancel id p)
  | SetMaxWorkers n => Some (setMaxWorkers n p)
  | Wakeup => Some (with_completed (completed p) (draining p) true p)
  | Schedule => if sched_wakeup p then Some (schedule p) else None
  | Work i => work i p
  | Drain => drain p
  end.

(** Those the pool takes by itself. *)
Definition internal (s : Step) : bool := match s with Schedule | Work _ | Drain => true | _ => false end.

(** [Submit] gives a request that nobody cancelled; counts are not negative. *)
Definition permitted (s : Step) : Prop := match s with Submit r => dead r = false | SetMaxWorkers n => 0 <= n | _ => True end.

Inductive reached : Pool -> Prop :=
  | reached_start : reached new_Pool
  | reached_step s p p' : reached p -> permitted s -> step s p = Some p' -> reached p'.

(** A sequence of them. *)
Fixpoint run (l : list Step) (p : Pool) : option Pool :=
  match l with [] => Some p | s :: l => p' ← step s p; run l p' end.

(** ** Where the requests are *)

Definition held (w : Worker) : list nat := match w with Busy id => [id] | _ => [] end.
Definition in_flight (p : Pool) : list nat := pending p ++ mjoin (held <$> workers p) ++ completed p ++ draining p.
Definition places (p : Pool) : list nat := in_flight p ++ (answered p).*1.

(** What the pool keeps to: every request is known and in one place, and one that has
    none was cancelled or has no handler; the busy workers are counted; whoever
    completes a request is going to wake the loop. *)
Record inv (p : Pool) : Prop := mkinv {
  inv_known id : is_Some (requests p !! id) <-> (id < next p)%nat;
  inv_once : NoDup (places p);
  inv_range : Forall (fun id => (id < next p)%nat) (places p);
  inv_kept id r : requests p !! id = Some r -> dead r = false -> handler r = true -> id ∈ places p;
  inv_busy : busy_workers p = zlen (mjoin (held <$> workers p));
  inv_max : 1 <= max_workers p;
  inv_woken : completed p <> [] -> notified p = true \/ Notifying ∈ workers p
}.

Lemma held_insert l i w w0 :
  l !! i = Some w0 -> held w0 ++ mjoin (held <$> <[i := w]> l) ≡ₚ held w ++ mjoin (held <$> l).
Proof.
  revert i. induction l as [|x l IH]; intros [|i] H; try done; cbn in *.
  - injection H as ->. rewrite !(assoc_L (++)). by rewrite (comm (++) (held w0)).
  - specialize (IH i H). rewrite !(assoc_L (++)), (comm (++) (held w0)), (comm (++) (held w)), <- !(assoc_L (++)).
    by rewrite IH.
Qed.

Lemma elem_of_held l i id : l !! i = Some (Busy id) -> id ∈ mjoin (held <$> l).
Proof. intros H. pose proof (held_insert l i Waiting _ H) as E. cbn in E. rewrite <- E. by left. Qed.

Lemma held_reuse l : mjoin (held <$> reuse l) = mjoin (held <$> l).
Proof. induction l as [|[] l IH]; cbn; try done; f_equal; exact IH. Qed.

Lemma zlen_perm {A} (l l' : list A) : l ≡ₚ l' -> zlen l = zlen l'.
Proof. intros H. unfold zlen. by rewrite H. Qed.

(** A step that moves requests about, and may forget one that nobody waits for. *)
Lemma inv_move p p' lost :
  inv p -> requests p' = requests p -> next p' = next p -> max_workers p' = max_workers p ->
  places p ≡ₚ lost ++ places p' ->
  (forall id r, id ∈ lost -> requests p !! id = Some r -> dead r = true \/ handler r = false) ->
  busy_workers p' = zlen (mjoin (held <$> workers p')) ->
  (completed p' <> [] -> notified p' = true \/ Notifying ∈ workers p') -> inv p'.
Proof.
  intros I Hr Hn Hm Hp Hl Hb Hw. constructor; rewrite ?Hr, ?Hn, ?Hm; try done; try apply I.
  - pose proof (inv_once _ I) as H. rewrite Hp in H. by apply NoDup_app in H as (_ & _ & H).
  - pose proof (inv_range _ I) as H. rewrite Hp in H. by apply Forall_app in H as [_ H].
  - intros id r Hid Hd Hh. pose proof (inv_kept _ I id r Hid Hd Hh) as H. rewrite Hp in H.
    apply elem_of_app in H as [H|H]; [|done]. destruct (Hl id r H Hid); congruence.
Qed.

Ltac places_solve := unfold places, in_flight; cbn; rewrite <- ?(assoc_L (++)); cbn; solve_Permutation.

Lemma empty_pool_inv : inv new_Pool.
Proof.
  constructor; cbn; try done.
  - intros id. rewrite lookup_empty. split; [by intros []|lia].
  - constructor.
Qed.

Lemma inv_submit r p : inv p -> dead r = false -> inv (submit r p).
Proof.
  intros I Hd. unfold submit. set (p0 := startOnce p).
  assert (I0 : inv p0). { unfold p0, startOnce. destruct (started p); [done|]. by destruct I; constructor. }
  clearbody p0. clear I p. rename p0 into p, I0 into I.
  assert (HN : requests p !! next p = None). { apply eq_None_not_Some. rewrite (inv_known _ I). lia. }
  assert (HP : next p ∉ places p). { intros H. pose proof (inv_range _ I) as HF. rewrite Forall_forall in HF. specialize (HF _ H). lia. }
  assert (HK : forall r' id, is_Some (<[next p := r']> (requests p) !! id) <-> (id < S (next p))%nat).
  { intros r' id. rewrite lookup_insert_is_Some', (inv_known _ I). lia. }
  assert (HR : Forall (fun id => (id < S (next p))%nat) (next p :: places p)).
  { constructor; [lia|]. eapply Forall_impl; [apply I|]. cbn. lia. }
  destruct (started p); cbn [negb]; [|destruct (handler r) eqn:Hh].
  3: { constructor; cbn; try apply I; [apply HK|by inversion HR|].
       intros id r' Hid. destruct (decide (id = next p)) as [->|Hne].
       - rewrite lookup_insert_eq in Hid. injection Hid as <-. cbn. congruence.
       - rewrite lookup_insert_ne in Hid by done. by apply (inv_kept _ I). }
  all: match goal with |- inv ?q => assert (Hpl : places q ≡ₚ next p :: places p) by
         (unfold places, in_flight; cbn; rewrite ?fmap_app; cbn; solve_Permutation) end;
    constructor; rewrite ?Hpl; cbn; try apply I; try apply HK; try done.
  all: try (constructor; [exact HP|apply I]).
  all: intros id r' Hid Hd' Hh'; rewrite Hpl; apply elem_of_cons;
    destruct (decide (id = next p)) as [->|Hne]; [by left|right];
    rewrite lookup_insert_ne in Hid by done; by eapply (inv_kept _ I).
Qed.

Lemma places_cancel id p : sublist (places (cancel id p)) (places p).
Proof.
  unfold places, in_flight; cbn. apply sublist_app; [|done]. apply sublist_app; [|done].
  induction (pending p) as [|i l IH]; cbn; [constructor|].
  destruct (Nat.eqb i id); cbn; by constructor.
Qed.

Lemma elem_of_cancel id i p : i ∈ places p -> i <> id -> i ∈ places (cancel id p).
Proof.
  intros H Hne. revert H. unfold places, in_flight; cbn. rewrite !elem_of_app.
  intros [[H|H]|H]; [left; left|left; by right|by right].
  rewrite list_elem_of_In in *. apply filter_In. split; [done|].
  by rewrite (proj2 (Nat.eqb_neq i id) Hne).
Qed.

Lemma known_alter f id p i : is_Some (alter f id (requests p) !! i) <-> is_Some (requests p !! i).
Proof. apply lookup_alter_is_Some. Qed.

Lemma inv_cancel id p : inv p -> inv (cancel id p).
Proof.
  intros I. pose proof (places_cancel id p) as Hs. constructor; try apply I.
  - intros i. cbn. rewrite known_alter. apply I.
  - eapply sublist_NoDup; [apply I|exact Hs].
  - rewrite Forall_forall. intros i Hi. pose proof (inv_range _ I) as HF. rewrite Forall_forall in HF.
    apply HF. by eapply elem_of_sublist.
  - cbn. intros i r Hi Hd Hh. destruct (decide (i = id)) as [->|Hne].
    + rewrite lookup_alter_eq in Hi. destruct (requests p !! id); cbn in Hi; [|done].
      by injection Hi as <-.
    + apply elem_of_cancel; [|done]. rewrite lookup_alter_ne in Hi by done. by apply (inv_kept _ I i r).
Qed.

Lemma inv_setMaxWorkers n p : inv p -> 0 <= n -> inv (setMaxWorkers n p).
Proof.
  intros I Hn. constructor; try apply I. cbn. destruct (Z.eqb_spec n 0); lia.
Qed.

Lemma elem_of_reuse w l : w ∈ l -> w <> Finished -> w ∈ reuse l.
Proof.
  intros H Hw. induction H as [x l|x y l H IH]; destruct x, y || destruct x; cbn; rewrite ?elem_of_cons; auto; congruence.
Qed.

Lemma inv_keep p p' :
  inv p -> requests p' = requests p -> next p' = next p -> max_workers p' = max_workers p ->
  places p ≡ₚ places p' -> busy_workers p' = zlen (mjoin (held <$> workers p')) ->
  (completed p' <> [] -> notified p' = true \/ Notifying ∈ workers p') -> inv p'.
Proof. intros I **. eapply (inv_move p p' []); try done. by intros id r ?%not_elem_of_nil. Qed.

Lemma inv_schedule p : inv p -> inv (schedule p).
Proof.
  intros I. unfold schedule. destruct (bool_decide _ || _ || _).
  - by eapply (inv_keep p); try done; try apply I.
  - eapply (inv_keep p); try done; try apply I; cbn.
    + unfold places, in_flight. cbn. by rewrite held_reuse.
    + rewrite held_reuse. apply I.
    + intros H. destruct (inv_woken _ I H); [by left|right]. by apply elem_of_reuse.
Qed.

Lemma inv_resolve id p : inv p -> inv (with_requests (alter resolve id (requests p)) (next p) p).
Proof.
  intros I. constructor; try apply I.
  - intros i. cbn. rewrite known_alter. apply I.
  - cbn. intros i r Hi Hd Hh.
    destruct (decide (i = id)) as [->|Hne]; [rewrite lookup_alter_eq in Hi|rewrite lookup_alter_ne in Hi by done; by apply (inv_kept _ I i r)].
    destruct (requests p !! id) as [r0|] eqn:E; [|done]. injection Hi as <-.
    apply (inv_kept _ I id r0 E); revert Hd Hh; unfold resolve, resolveForward, resolveReverse; repeat case_match; done.
Qed.

(** What a worker's turn does to the requests that are with the workers. *)
Lemma held_turn l i w w0 n :
  l !! i = Some w0 -> n = zlen (mjoin (held <$> l)) ->
  zlen (mjoin (held <$> <[i := w]> l)) = n + zlen (held w) - zlen (held w0).
Proof.
  intros H ->. pose proof (zlen_perm _ _ (held_insert l i w w0 H)) as E.
  unfold zlen in *. rewrite !length_app in E. lia.
Qed.

Lemma notifying_insert (l : list Worker) (i : nat) w w0 :
  l !! i = Some w0 -> w0 <> Notifying -> Notifying ∈ l -> Notifying ∈ <[i := w]> l.
Proof.
  intros Hi Hn [j Hj]%list_elem_of_lookup. apply list_elem_of_lookup. exists j.
  rewrite list_lookup_insert_ne; [done|]. intros ->. congruence.
Qed.

Lemma inv_work i p p' : inv p -> work i p = Some p' -> inv p'.
Proof.
  intros I H. unfold work in H. destruct (workers p !! i) as [w0|] eqn:Ei; [|done].
  assert (Hlt : (i < length (workers p))%nat) by (by eapply lookup_lt_Some).
  pose proof (fun w => held_insert _ _ w _ Ei) as HP.
  pose proof (fun w => held_turn _ _ w _ _ Ei (inv_busy _ I)) as HB.
  destruct w0 as [|id| | |]; try done; [destruct (pending p) as [|id l] eqn:Ep| | |]; injection H as <-.
  - eapply (inv_keep p); try done; try apply I; cbn.
    + unfold places, in_flight; cbn. specialize (HP Leaving). cbn in HP. by rewrite HP.
    + rewrite HB. unfold zlen. cbn. lia.
    + intros H. destruct (inv_woken _ I H); [by left|right; by eapply notifying_insert].
  - eapply (inv_keep p); try done; try apply I; cbn.
    + unfold places, in_flight; cbn. specialize (HP (Busy id)). cbn in HP. rewrite Ep, HP. cbn. solve_Permutation.
    + rewrite HB. unfold zlen. cbn. lia.
    + intros H. destruct (inv_woken _ I H); [by left|right; by eapply notifying_insert].
  - eapply (inv_keep (with_requests (alter resolve id (requests p)) (next p) p)); try done; try apply I; try (by apply inv_resolve); cbn.
    + unfold places, in_flight; cbn. specialize (HP Notifying). cbn in HP. rewrite <- HP. cbn. solve_Permutation.
    + rewrite HB. unfold zlen. cbn. lia.
    + intros _. right. apply list_elem_of_lookup. exists i. by apply list_lookup_insert_eq.
  - eapply (inv_keep p); try done; try apply I; cbn.
    + unfold places, in_flight; cbn. specialize (HP Waiting). cbn in HP. by rewrite HP.
    + rewrite HB. unfold zlen. cbn. lia.
    + by left.
  - eapply (inv_keep p); try done; try apply I; cbn.
    + unfold places, in_flight; cbn. specialize (HP Finished). cbn in HP. by rewrite HP.
    + rewrite HB. unfold zlen. cbn. lia.
    + intros H. destruct (inv_woken _ I H); [by left|right; by eapply notifying_insert].
Qed.

Lemma inv_drain p p' : inv p -> drain p = Some p' -> inv p'.
Proof.
  intros I H. unfold drain in H. destruct (draining p) as [|id l] eqn:Ed.
  - destruct (notified p); [|done]. injection H as <-.
    eapply (inv_keep p); try done; try apply I; cbn.
    unfold places, in_flight; cbn. rewrite Ed. solve_Permutation.
  - destruct (requests p !! id) as [r|] eqn:Er; [|done].
    destruct (dead r || negb (handler r)) eqn:Ex; injection H as <-.
    + eapply (inv_move p _ [id]); try done; try apply I; cbn.
      * unfold places, in_flight; cbn. rewrite Ed. solve_Permutation.
      * intros ? r' ->%list_elem_of_singleton. rewrite Er. intros [= <-].
        destruct (dead r), (handler r); auto.
    + eapply (inv_keep p); try done; try apply I; cbn.
      unfold places, in_flight; cbn. rewrite Ed, fmap_app. cbn. solve_Permutation.
Qed.

Lemma pool_step_inv s p p' : inv p -> permitted s -> step s p = Some p' -> inv p'.
Proof.
  intros I Hs H. destruct s; cbn in *; try (injection H as <-).
  - by apply inv_submit.
  - by apply inv_cancel.
  - by apply inv_setMaxWorkers.
  - eapply (inv_keep p); try done; try apply I. by left.
  - destruct (sched_wakeup p); [|done]. injection H as <-. by apply inv_schedule.
  - by eapply inv_work.
  - by eapply inv_drain.
Qed.

Lemma pool_inv p : reached p -> inv p.
Proof. induction 1; [apply empty_pool_inv|by eapply pool_step_inv]. Qed.

(** ** What a handler is told *)

(** Two requests that ask the same. *)
Definition same_question (r r' : Request) : Prop :=
  kind r = kind r' /\ query r = query r' /\ handler r = handler r' /\ (kind r = Reverse -> r_address r = r_address r').

(** A request that came back holds what looking it up gave. *)
Definition looked_up (p : Pool) (id : nat) : Prop :=
  exists r r0, requests p !! id = Some r /\ same_question r0 r /\ answer_of r = answer_of (resolve r0).

Definition told (p : Pool) (id : nat) (a : Answer) : Prop :=
  exists r r0, requests p !! id = Some r /\ handler r = true /\ same_question r0 r /\
    (a = answer_of (resolve r0) \/ a = EventHostError ServerError /\ can_start id = false).

Record faithful (p : Pool) : Prop := mkfaithful {
  faithful_back id : id ∈ completed p ++ draining p -> looked_up p id;
  faithful_told id a : (id, a) ∈ answered p -> told p id a
}.

Lemma same_question_refl r : same_question r r.
Proof. done. Qed.

Lemma resolve_same r : same_question r (resolve r).
Proof.
  unfold same_question, resolve, resolveForward, resolveReverse.
  destruct (kind r) eqn:E; cbn; repeat case_match; cbn; by rewrite ?E.
Qed.

(** Nothing changes but a request that is not back yet, or whether one is dead. *)
Lemma faithful_requests p m n :
  faithful p ->
  (forall id r, id ∈ completed p ++ draining p ++ (answered p).*1 -> requests p !! id = Some r ->
     m !! id = Some r \/ m !! id = Some (with_dead r)) ->
  faithful (with_requests m n p).
Proof.
  intros [FB FT] Hm. constructor; cbn.
  - intros id Hid. destruct (FB id Hid) as (r & r0 & Hr & Hs & Ha).
    destruct (Hm id r) as [H|H]; [rewrite elem_of_app in Hid; rewrite !elem_of_app; tauto|done| |].
    + by exists r, r0.
    + by exists (with_dead r), r0.
  - intros id a Hid. destruct (FT id a Hid) as (r & r0 & Hr & Hh & Hs & Ha).
    destruct (Hm id r) as [H|H]; [|done| |].
    + rewrite !elem_of_app. right. right. apply list_elem_of_fmap. by exists (id, a).
    + by exists r, r0.
    + by exists (with_dead r), r0.
Qed.

Lemma faithful_keep p p' :
  faithful p -> requests p' = requests p -> (forall id, id ∈ completed p' ++ draining p' -> id ∈ completed p ++ draining p) ->
  answered p' = answered p -> faithful p'.
Proof.
  intros [FB FT] Hr Hc Ha. unfold looked_up, told in *. constructor; unfold looked_up, told.
  - intros id Hid. rewrite Hr. by apply FB, Hc.
  - rewrite Ha, Hr. exact FT.
Qed.

Lemma faithful_tell p id a : faithful p -> told p id a -> faithful (tell id a p).
Proof.
  intros [FB FT] Ht. constructor; [exact FB|]. cbn. intros id' a' [H|H]%elem_of_app; [by apply FT|].
  apply list_elem_of_singleton in H. by injection H as -> ->.
Qed.

Lemma elem_of_back p id : id ∈ completed p ++ draining p ++ (answered p).*1 -> id ∈ places p.
Proof. unfold places, in_flight. rewrite !elem_of_app. tauto. Qed.

Lemma faithful_submit r p : inv p -> faithful p -> faithful (submit r p).
Proof.
  intros I F. unfold submit.
  assert (F0 : faithful (startOnce p)) by (unfold startOnce; destruct (started p); [done|by eapply (faithful_keep p)]).
  assert (FS : forall r', faithful (with_requests (<[next (startOnce p) := r']> (requests (startOnce p))) (S (next (startOnce p))) (startOnce p))).
  { intros r'. apply faithful_requests; [done|]. intros id r0 Hid Hr. left. rewrite lookup_insert_ne; [done|].
    pose proof (inv_range _ I) as HF. rewrite Forall_forall in HF.
    assert (E : next (startOnce p) = next p) by (unfold startOnce; by destruct (started p)).
    assert (Hp : id ∈ places p) by (unfold startOnce in Hid; destruct (started p); by apply elem_of_back).
    specialize (HF _ Hp). rewrite E. lia. }
  destruct (started (startOnce p)) eqn:Es; cbn [negb]; [by eapply faithful_keep; [apply (FS r)|done|done|done]|].
  destruct (handler r) eqn:Hh; [|apply FS]. apply faithful_tell; [apply FS|].
  exists (with_result false (r_address r) (name r) ServerError r), r. cbn. rewrite lookup_insert_eq.
  split_and!; try done. right. split; [done|]. revert Es. unfold startOnce. destruct (started p) eqn:E; [congruence|done].
Qed.

Lemma faithful_work i p p' : inv p -> faithful p -> work i p = Some p' -> faithful p'.
Proof.
  intros I F H. unfold work in H. destruct (workers p !! i) as [w0|] eqn:Ei; [|done].
  destruct w0 as [|id| | |]; try done; [destruct (pending p)| | |]; injection H as <-;
    try by eapply (faithful_keep p).
  assert (Hid : id ∉ completed p ++ draining p ++ (answered p).*1).
  { pose proof (inv_once _ I) as HN. unfold places, in_flight in HN. rewrite <- !(assoc_L (++)) in HN.
    apply NoDup_app in HN as (_ & _ & (_ & HN & _)%NoDup_app). apply HN.
    by eapply elem_of_held. }
  destruct (inv_known _ I id) as [_ HK].
  assert (is_Some (requests p !! id)) as [r Hr].
  { apply HK. pose proof (inv_range _ I) as HF. rewrite Forall_forall in HF. apply HF.
    unfold places, in_flight. rewrite !elem_of_app. left. right. left.
    by eapply elem_of_held. }
  assert (F' : faithful (with_requests (alter resolve id (requests p)) (next p) p)).
  { apply faithful_requests; [done|]. intros id' r' Hid' Hr'. left. rewrite lookup_alter_ne; [done|]. by intros <-. }
  destruct F' as [FB FT]. constructor; [|exact FT]. cbn. intros id' Hid'.
  rewrite !elem_of_app, list_elem_of_singleton in Hid'. destruct (decide (id' = id)) as [->|Hne].
  - exists (resolve r), r. cbn. rewrite lookup_alter_eq, Hr. split_and!; try done. apply resolve_same.
  - apply (FB id'). cbn. rewrite elem_of_app. tauto.
Qed.

Lemma faithful_step s p p' : inv p -> faithful p -> step s p = Some p' -> faithful p'.
Proof.
  intros I F H. destruct s as [r|id|n| | |i|]; cbn in H; try (injection H as <-).
  - by apply faithful_submit.
  - eapply faithful_keep; [apply (faithful_requests p (alter with_dead id (requests p)) (next p))|..]; try done.
    intros id' r _ Hr. destruct (decide (id' = id)) as [->|Hne].
    + right. by rewrite lookup_alter_eq, Hr.
    + left. by rewrite lookup_alter_ne.
  - by eapply (faithful_keep p).
  - by eapply (faithful_keep p).
  - destruct (sched_wakeup p); [|done]. injection H as <-. unfold schedule.
    destruct (bool_decide _ || _ || _); by eapply (faithful_keep p).
  - by eapply faithful_work.
  - unfold drain in H. destruct (draining p) as [|id l] eqn:Ed.
    + destruct (notified p); [|done]. injection H as <-. eapply (faithful_keep p); try done. cbn. rewrite Ed.
      intros id. by rewrite app_nil_r.
    + destruct (requests p !! id) as [r|] eqn:Er; [|done].
      assert (FR : faithful (with_completed (completed p) l (notified p) p)).
      { eapply (faithful_keep p); try done. cbn. rewrite Ed. intros i. rewrite !elem_of_app, elem_of_cons. tauto. }
      destruct (dead r || negb (handler r)) eqn:Ex; injection H as <-; [done|]. apply faithful_tell; [done|].
      destruct (faithful_back _ F id) as (r1 & r0 & Hr & Hs & Ha).
      { rewrite Ed, elem_of_app, elem_of_cons. tauto. }
      assert (r1 = r) as -> by congruence. exists r, r0. cbn. split_and!; try done.
      * by destruct (dead r), (handler r).
      * by left.
Qed.

Lemma pool_faithful p : reached p -> faithful p.
Proof.
  induction 1 as [|s p p' H F Hs Hp]; [constructor; [by intros id ?%not_elem_of_nil|by intros id a ?%not_elem_of_nil]|].
  eapply faithful_step; [by apply pool_inv|done|done].
Qed.

(** ** What was cancelled stays silent *)

Definition silent (id : nat) (p : Pool) : Prop := exists r, requests p !! id = Some r /\ dead r = true.

Lemma silent_step s p p' id :
  inv p -> silent id p -> step s p = Some p' ->
  silent id p' /\ (forall a, (id, a) ∈ answered p' -> (id, a) ∈ answered p).
Proof.
  intros I (r & Hr & Hd) H.
  assert (Hn : id <> next p). { intros ->. assert (is_Some (requests p !! next p)) as HS by done. apply (inv_known _ I) in HS. lia. }
  destruct s as [q|i|n| | |i|]; cbn in H; try (injection H as <-).
  - unfold submit. assert (E : next (startOnce p) = next p /\ requests (startOnce p) = requests p /\ answered (startOnce p) = answered p)
      by (unfold startOnce; by destruct (started p)).
    destruct E as (En & Er & Ea). destruct (started (startOnce p)); cbn [negb]; [|destruct (handler q)];
      (split; [exists r; cbn; rewrite En, Er, lookup_insert_ne by done; done|cbn; rewrite Ea; intros a Ha]); try done.
    apply elem_of_app in Ha as [Ha|Ha%list_elem_of_singleton]; [done|]. injection Ha as -> _. congruence.
  - split; [|done]. destruct (decide (id = i)) as [->|Hne].
    + exists (with_dead r). cbn. by rewrite lookup_alter_eq, Hr.
    + exists r. cbn. by rewrite lookup_alter_ne.
  - by split; [exists r|].
  - by split; [exists r|].
  - destruct (sched_wakeup p); [|done]. injection H as <-. unfold schedule.
    destruct (bool_decide _ || _ || _); (split; [by exists r|done]).
  - unfold work in H. destruct (workers p !! i) as [[|j| | |]|]; try done; [destruct (pending p)| | |]; injection H as <-;
      try (split; [by exists r|done]).
    split; [|done]. destruct (decide (id = j)) as [->|Hne].
    + exists (resolve r). cbn. rewrite lookup_alter_eq, Hr. split; [done|].
      revert Hd. unfold resolve, resolveForward, resolveReverse. repeat case_match; done.
    + exists r. cbn. by rewrite lookup_alter_ne.
  - unfold drain in H. destruct (draining p) as [|j l].
    + destruct (notified p); [|done]. injection H as <-. by split; [exists r|].
    + destruct (requests p !! j) as [q|] eqn:Ej; [|done].
      destruct (dead q || negb (handler q)) eqn:Ex; injection H as <-; (split; [by exists r|]); [done|].
      cbn. intros a [Ha|Ha%list_elem_of_singleton]%elem_of_app; [done|]. injection Ha as -> _.
      rewrite Hr in Ej. injection Ej as <-. by rewrite Hd in Ex.
Qed.

Lemma inv_run l p p' : inv p -> Forall permitted l -> run l p = Some p' -> inv p'.
Proof.
  revert p. induction l as [|s l IH]; cbn; intros p I HF H; [by injection H as <-|].
  apply Forall_cons in HF as [Hs HF]. destruct (step s p) as [q|] eqn:E; [|done]. cbn in H.
  apply (IH q); [by eapply pool_step_inv|done|done].
Qed.

Lemma silent_run id l p p' :
  inv p -> silent id p -> Forall permitted l -> run l p = Some p' ->
  forall a, (id, a) ∈ answered p' -> (id, a) ∈ answered p.
Proof.
  revert p. induction l as [|s l IH]; cbn; intros p I S HF H a Ha; [by injection H as <-|].
  apply Forall_cons in HF as [Hs HF]. destruct (step s p) as [q|] eqn:E; [|done]. cbn in H.
  destruct (silent_step s p q id I S E) as [S' Hb]. apply Hb. eapply (IH q); try done. by eapply pool_step_inv.
Qed.

(** ** How many workers there are *)

Definition at_most (N : Z) (s : Step) : Prop := match s with SetMaxWorkers n => n <= N | _ => True end.

Lemma length_reuse l : zlen (reuse l) <= Z.max (zlen l) (zlen (List.filter is_live l) + 1).
Proof.
  unfold zlen. induction l as [|w l IH]; [done|].
  assert (HL : (length (List.filter is_live l) <= length l)%nat) by apply List.filter_length_le.
  destruct w; cbn [reuse List.filter is_live length]; lia.
Qed.

Lemma workers_step N s p p' :
  4 <= N -> at_most N s -> max_workers p <= N /\ zlen (workers p) <= N -> step s p = Some p' ->
  max_workers p' <= N /\ zlen (workers p') <= N.
Proof.
  intros HN Hs [Hm Hl] H. destruct s as [r|id|n| | |i|]; cbn in H, Hs; try (injection H as <-).
  - unfold submit, startOnce. destruct (started p), (can_start (next p)), (handler r); cbn; auto;
      destruct (started p); auto.
  - done.
  - cbn. destruct (n =? 0); split; lia.
  - done.
  - destruct (sched_wakeup p); [|done]. injection H as <-. unfold schedule.
    destruct (bool_decide _ || _ || _) eqn:E; [done|]. split; [done|]. cbn.
    pose proof (length_reuse (workers p)). apply orb_false_iff in E as [_ E].
    unfold getWorkerCount in E. cbn in E. apply Z.leb_gt in E. lia.
  - unfold work in H. destruct (workers p !! i) as [[|j| | |]|]; try done; [destruct (pending p)| | |]; injection H as <-;
      cbn; unfold zlen in *; by rewrite length_insert.
  - unfold drain in H. repeat case_match; simplify_eq; done.
Qed.

(** ** The pool comes to rest *)

Definition weight (w : Worker) : nat :=
  match w with Waiting => 2 | Busy _ => 7 | Notifying => 4 | Leaving => 1 | Finished => 0 end.
Definition b2n (b : bool) (n : nat) : nat := if b then n else 0%nat.

(** What is left to do without anything new from outside. *)
Definition left_to_do (p : Pool) : nat :=
  (6 * length (pending p) + sum_list (weight <$> workers p) + 2 * length (completed p) + length (draining p)
   + b2n (notified p) 1 + b2n (sched_wakeup p) 4)%nat.

Lemma weight_insert l i w w0 :
  l !! i = Some w0 -> (sum_list (weight <$> <[i := w]> l) + weight w0 = sum_list (weight <$> l) + weight w)%nat.
Proof.
  revert i. induction l as [|x l IH]; intros [|i] H; try done.
  - injection H as ->. cbn. lia.
  - specialize (IH i H). change (<[S i := w]> (x :: l)) with (x :: <[i := w]> l).
    rewrite !fmap_cons. change (weight x + sum_list (weight <$> <[i := w]> l) + weight w0 = weight x + sum_list (weight <$> l) + weight w)%nat. lia.
Qed.

Lemma weight_reuse l : (sum_list (weight <$> reuse l) = sum_list (weight <$> l) + 2)%nat.
Proof. induction l as [|[] l IH]; cbn in *; lia. Qed.

Lemma internal_decreases s p p' :
  internal s = true -> step s p = Some p' -> (left_to_do p' < left_to_do p)%nat.
Proof.
  intros Hs H. unfold left_to_do. destruct s as [| | | | |i|]; try done; cbn in H.
  - destruct (sched_wakeup p) eqn:E; [|done]. injection H as <-. unfold schedule.
    destruct (bool_decide _ || _ || _); cbn; [lia|]. pose proof (weight_reuse (workers p)) as W. cbn in W. lia.
  - unfold work in H. destruct (workers p !! i) as [w0|] eqn:Ei; [|done].
    pose proof (fun w => weight_insert _ _ w _ Ei) as W.
    destruct w0 as [|id| | |]; try done; [destruct (pending p) eqn:Ep| | |]; injection H as <-.
    + specialize (W Leaving). cbn in W |- *. rewrite Ep. cbn. lia.
    + specialize (W (Busy n)). cbn in W |- *. lia.
    + specialize (W Notifying). cbn in W |- *. rewrite length_app. cbn. lia.
    + specialize (W Waiting). cbn in W |- *. unfold b2n. destruct (notified p); lia.
    + specialize (W Finished). cbn in W |- *. lia.
  - unfold drain in H. destruct (draining p) as [|id l] eqn:Ed.
    + destruct (notified p); [|done]. injection H as <-. cbn. lia.
    + destruct (requests p !! id) as [r|]; [|done]. destruct (dead r || negb (handler r)); injection H as <-; cbn; lia.
Qed.

(** The scheduler does not run between a worker's leaving its loop and its return. *)
Definition calm (s : Step) (p : Pool) : bool :=
  match s with Schedule => bool_decide (Leaving ∉ workers p) | _ => true end.

Inductive calmly : Pool -> Prop :=
  | calmly_start : calmly new_Pool
  | calmly_step s p p' : calmly p -> permitted s -> calm s p = true -> step s p = Some p' -> calmly p'.

(** A calm sequence of steps, and a pool that can take none. *)
Fixpoint calm_run (l : list Step) (p : Pool) : option Pool :=
  match l with
  | [] => Some p
  | s :: l => if calm s p then p' ← step s p; calm_run l p' else None
  end.
Definition rests (p : Pool) : Prop := forall s, internal s = true -> calm s p = true -> step s p = None.

Lemma calm_run_run l p p' : calm_run l p = Some p' -> run l p = Some p'.
Proof.
  revert p. induction l as [|s l IH]; cbn; intros p H; [done|].
  destruct (calm s p), (step s p); try done. by apply IH.
Qed.

Lemma calm_run_calmly l p p' :
  calmly p -> Forall (fun s => internal s = true) l -> calm_run l p = Some p' -> calmly p'.
Proof.
  revert p. induction l as [|s l IH]; cbn; intros p HC HF H; [by injection H as <-|].
  apply Forall_cons in HF as [Hs HF]. destruct (calm s p) eqn:Ec, (step s p) as [q|] eqn:Eq; try done.
  apply (IH q); [|done|done]. apply (calmly_step s p); try done. by destruct s.
Qed.

Lemma calmly_reached p : calmly p -> reached p.
Proof. induction 1; [constructor|by econstructor]. Qed.

Definition at_work (w : Worker) : bool := match w with Waiting | Busy _ | Notifying => true | _ => false end.

(** Whatever waits has somebody who will come to it. *)
Definition served (p : Pool) : Prop := pending p <> [] -> sched_wakeup p = true \/ exists i w, workers p !! i = Some w /\ at_work w = true.

Lemma at_work_insert (l : list Worker) i w :
  at_work w = true -> (i < length l)%nat -> exists j w', <[i := w]> l !! j = Some w' /\ at_work w' = true.
Proof. intros Hw Hi. exists i, w. by rewrite list_lookup_insert_eq. Qed.

Lemma at_work_live (l : list Worker) :
  Leaving ∉ l -> 0 < zlen (List.filter is_live l) -> exists i w, l !! i = Some w /\ at_work w = true.
Proof.
  intros HL H. destruct (List.filter is_live l) as [|w r] eqn:E; [done|].
  assert (In w (List.filter is_live l)) as [Hin Hw]%filter_In by (rewrite E; by left).
  apply list_elem_of_In in Hin. pose proof Hin as [i Hi]%list_elem_of_lookup.
  exists i, w. split; [done|]. by destruct w.
Qed.

Lemma at_work_reuse l : exists i w, reuse l !! i = Some w /\ at_work w = true.
Proof.
  induction l as [|x l (i & w & Hi & Hw)]; [by exists 0%nat, Waiting|].
  destruct x; cbn; try (exists (S i), w; by split). by exists 0%nat, Waiting.
Qed.

Lemma served_step s p p' :
  inv p -> served p -> calm s p = true -> permitted s -> step s p = Some p' -> served p'.
Proof.
  intros I S Hc Hs H. unfold served in *. destruct s as [r|id|n| | |i|]; cbn in H; try (injection H as <-).
  - unfold submit, startOnce. destruct (started p) eqn:E; cbn; rewrite ?E; cbn; [by left|].
    destruct (can_start (next p)); cbn; [by left|]. destruct (handler r); exact S.
  - cbn. intros Hp. apply S. intros E. by rewrite E in Hp.
  - exact S.
  - exact S.
  - destruct (sched_wakeup p); [|done]. injection H as <-. cbn in Hc. apply bool_decide_eq_true in Hc.
    unfold schedule. destruct (bool_decide _ || _ || _) eqn:E; cbn; [|intros _; right; apply at_work_reuse].
    cbn in E. intros Hp. right. apply at_work_live; [done|]. rewrite bool_decide_false in E by done. cbn in E.
    change (getWorkerCount (with_pending (pending p) false p)) with (zlen (List.filter is_live (workers p))) in E.
    pose proof (inv_max _ I). pose proof (inv_busy _ I).
    apply orb_true_iff in E as [E|E]; [apply Z.ltb_lt in E|apply Z.leb_le in E]; unfold zlen in *; lia.
  - unfold work in H. destruct (workers p !! i) as [w0|] eqn:Ei; [|done].
    assert (Hi : (i < length (workers p))%nat) by (by eapply lookup_lt_Some).
    destruct w0 as [|id| | |]; try done; [destruct (pending p) eqn:Ep| | |]; injection H as <-; cbn;
      try (intros _; right; by apply at_work_insert).
    + by rewrite Ep.
    + intros Hp. destruct (S Hp) as [HS|(j & w & Hj & Hw)]; [by left|right]. exists j, w. split; [|done].
      rewrite list_lookup_insert_ne; [done|]. intros ->. rewrite Ei in Hj. by injection Hj as <-.
  - unfold drain in H. repeat case_match; simplify_eq; exact S.
Qed.

Lemma calmly_served p : calmly p -> served p.
Proof.
  induction 1 as [|s p p' H S Hs Hc Hp]; [by intros []|]. eapply served_step; try done.
  by apply pool_inv, calmly_reached.
Qed.

(** A pool that has something to do can do it. *)
Lemma not_at_rest p :
  inv p -> served p -> in_flight p <> [] -> exists s p', internal s = true /\ calm s p = true /\ step s p = Some p'.
Proof.
  intros I S Hf.
  destruct (decide (Exists (fun w => w <> Finished) (workers p))) as [(w & [i Hi]%list_elem_of_lookup & Hw)%Exists_exists|HN].
  { exists (Work i). cbn. unfold work. rewrite Hi. destruct w; try done; eauto. }
  assert (HF : forall i w, workers p !! i = Some w -> w = Finished).
  { intros i w Hi. destruct (decide (w = Finished)); [done|]. exfalso. apply HN, Exists_exists. exists w. split; [|done].
    by eapply list_elem_of_lookup_2. }
  destruct (draining p) as [|id l] eqn:Ed.
  2: { exists Drain. cbn. unfold drain. rewrite Ed.
       assert (is_Some (requests p !! id)) as [r Hr].
       { apply (inv_known _ I). pose proof (inv_range _ I) as HR. rewrite Forall_forall in HR. apply HR.
         unfold places, in_flight. rewrite Ed, !elem_of_app, elem_of_cons. tauto. }
       rewrite Hr. eauto. }
  destruct (notified p) eqn:En; [exists Drain; cbn; unfold drain; rewrite Ed, En; eauto|].
  destruct (sched_wakeup p) eqn:Es.
  { exists Schedule, (schedule p). cbn. rewrite Es. split_and!; [done| |done]. apply bool_decide_eq_true.
    intros [i Hi]%list_elem_of_lookup. by apply HF in Hi. }
  exfalso. apply Hf. unfold in_flight. rewrite Ed, app_nil_r.
  assert (Hc : completed p = []).
  { destruct (completed p) eqn:Ec; [done|]. destruct (inv_woken _ I) as [H|[i Hi]%list_elem_of_lookup]; [by rewrite Ec|congruence|].
    by apply HF in Hi. }
  assert (Hp : pending p = []).
  { destruct (pending p) eqn:Ep; [done|]. destruct S as [H|(i & w & Hi & Hw)]; [by rewrite Ep|congruence|].
    apply HF in Hi as ->. done. }
  rewrite Hc, Hp. cbn. destruct (mjoin (held <$> workers p)) as [|id l] eqn:Ej; [done|].
  assert (H : id ∈ mjoin (held <$> workers p)) by (rewrite Ej; by left).
  apply list_elem_of_join in H as (h & Hin & (w & -> & [i Hi]%list_elem_of_lookup)%list_elem_of_fmap).
  apply HF in Hi as ->. by apply not_elem_of_nil in Hin.
Qed.

(** Left alone, it comes to rest. *)
Lemma comes_to_rest n p :
  calmly p -> (left_to_do p <= n)%nat -> exists l p', Forall (fun s => internal s = true) l /\ calm_run l p = Some p' /\ rests p'.
Proof.
  revert p. induction n as [|n IH]; intros p H Hn;
    (destruct (decide (Exists (fun s => calm s p = true /\ is_Some (step s p)) (Schedule :: Drain :: (Work <$> seq 0 (length (workers p))))))
      as [(s & Hs & Hc & q & Hq)%Exists_exists|HN]; [assert (Hi : internal s = true)|exists [], p; split_and!; [constructor|done|]]).
  1, 4: rewrite !elem_of_cons in Hs; destruct Hs as [->| [->|(i & -> & _)%list_elem_of_fmap]]; done.
  2, 4: intros s Hi Hc; destruct (step s p) as [q|] eqn:Hq; [|done]; exfalso; apply HN, Exists_exists; exists s;
    (split; [|by rewrite Hq]); destruct s as [| | | | |i|]; try done; [by left| |by right; left];
    right; right; apply list_elem_of_fmap; exists i; (split; [done|]); apply elem_of_seq; cbn in Hq;
    unfold work in Hq; destruct (workers p !! i) eqn:Ei; [|done]; apply lookup_lt_Some in Ei; lia.
  all: pose proof (internal_decreases s p q Hi Hq); try lia.
  destruct (IH q) as (l & p' & HF & Hr & Hp'); [apply (calmly_step s p); try done; by destruct s|lia|].
  exists (s :: l), p'. split_and!; [by constructor| |done]. cbn. by rewrite Hc, Hq.
Qed.

Lemma rests_empty p : calmly p -> rests p -> in_flight p = [].
Proof.
  intros H HR. destruct (in_flight p) eqn:E; [done|].
  destruct (not_at_rest p) as (s & q & Hi & Hc & Hq); [by apply pool_inv, calmly_reached|by apply calmly_served|by rewrite E|].
  specialize (HR s Hi Hc). congruence.
Qed.

(** What the pool does by itself leaves every request what it was. *)
Lemma internal_same s p p' id r :
  internal s = true -> step s p = Some p' -> requests p !! id = Some r ->
  exists r', requests p' !! id = Some r' /\ dead r' = dead r /\ same_question r r'.
Proof.
  intros Hs H Hr. destruct s as [| | | | |i|]; try done; cbn in H.
  - destruct (sched_wakeup p); [|done]. injection H as <-. unfold schedule.
    destruct (bool_decide _ || _ || _); by exists r.
  - unfold work in H. destruct (workers p !! i) as [[|j| | |]|]; try done; [destruct (pending p)| | |]; injection H as <-;
      try by exists r.
    destruct (decide (id = j)) as [->|Hne]; [|exists r; cbn; by rewrite lookup_alter_ne].
    exists (resolve r). cbn. rewrite lookup_alter_eq, Hr. split_and!; [done| |apply resolve_same].
    unfold resolve, resolveForward, resolveReverse. repeat case_match; done.
  - unfold drain in H. repeat case_match; simplify_eq; by exists r.
Qed.

Lemma internal_run l p p' id r :
  Forall (fun s => internal s = true) l -> run l p = Some p' -> requests p !! id = Some r ->
  exists r', requests p' !! id = Some r' /\ dead r' = dead r /\ same_question r r'.
Proof.
  revert p r. induction l as [|s l IH]; cbn; intros p r HF H Hr; [injection H as <-; by exists r|].
  apply Forall_cons in HF as [Hs HF]. destruct (step s p) as [q|] eqn:E; [|done]. cbn in H.
  destruct (internal_same s p q id r Hs E Hr) as (r1 & Hr1 & Hd1 & Hs1).
  destruct (IH q r1 HF H Hr1) as (r2 & Hr2 & Hd2 & Hs2). exists r2. split_and!; [done|congruence|].
  unfold same_question in *. destruct Hs1 as (K1 & Q1 & L1 & H1), Hs2 as (K2 & Q2 & L2 & H2).
  split_and!; try congruence. intros K. rewrite H1 by done. apply H2. congruence.
Qed.

Lemma internal_bounded l p p' :
  Forall (fun s => internal s = true) l -> run l p = Some p' -> (length l + left_to_do p' <= left_to_do p)%nat.
Proof.
  revert p. induction l as [|s l IH]; cbn [length run]; intros p HF H; [injection H as <-; lia|].
  apply Forall_cons in HF as [Hs HF]. destruct (step s p) as [q|] eqn:E; [|done]. cbn in H.
  pose proof (internal_decreases s p q Hs E). specialize (IH q HF H). lia.
Qed.


Lemma run_reaches l p p' : reached p -> Forall permitted l -> run l p = Some p' -> reached p'.
Proof.
  revert p. induction l as [|s l IH]; cbn; intros p HR HF H; [by injection H as <-|].
  apply Forall_cons in HF as [Hs HF]. destruct (step s p) as [q|] eqn:E; [|done]. apply (IH q); [|done|done]. by econstructor.
Qed.

Lemma run_calmly l p p' : calmly p -> Forall permitted l -> calm_run l p = Some p' -> calmly p'.
Proof.
  revert p. induction l as [|s l IH]; cbn; intros p HC HF H; [by injection H as <-|].
  apply Forall_cons in HF as [Hs HF]. destruct (calm s p) eqn:Ec, (step s p) as [q|] eqn:Eq; try done.
  apply (IH q); [|done|done]. by apply (calmly_step s p).
Qed.
(** ** Properties *)

(** C21. Whatever is submitted and cancelled and however the threads interleave: every
    lookup is in one place only, so it is reported at most once; one that was not
    cancelled and has a handler is under way or was reported; what was reported is what
    looking the name or the address up gives, or that the pool cannot run; and once
    cancelled a lookup is not reported any more. *)
Theorem lookups_accounted p (H : reached p) :
  NoDup (in_flight p ++ (answered p).*1) /\
  (forall id r, requests p !! id = Some r -> dead r = false -> handler r = true ->
     id ∈ in_flight p \/ exists a, (id, a) ∈ answered p) /\
  (forall id a, (id, a) ∈ answered p -> told p id a) /\
  (forall id l p', silent id p -> Forall permitted l -> run l p = Some p' ->
     forall a, (id, a) ∈ answered p' -> (id, a) ∈ answered p).
Proof.
  pose proof (pool_inv p H) as I. split_and!.
  - apply I.
  - intros id r Hr Hd Hh. pose proof (inv_kept _ I id r Hr Hd Hh) as HP. unfold places in HP.
    apply elem_of_app in HP as [HP|((id', a) & -> & Ha)%list_elem_of_fmap]; [by left|right; by exists a].
  - intros id a. apply (faithful_told _ (pool_faithful p H)).
  - intros id l p' S HF HR. by eapply silent_run.
Qed.

(** C22. Left alone, the pool's threads do a bounded number of things, whatever their
    order; and if the scheduler never runs while a worker is on its way out, the pool
    comes to rest, and when it rests every lookup that has a handler and was not
    cancelled was reported. *)
Theorem lookups_end p (H : calmly p) :
  (forall l p', Forall (fun s => internal s = true) l -> run l p = Some p' -> (length l <= left_to_do p)%nat) /\
  (exists l p', Forall (fun s => internal s = true) l /\ calm_run l p = Some p' /\ rests p') /\
  (forall l p', Forall (fun s => internal s = true) l -> calm_run l p = Some p' -> rests p' ->
     in_flight p' = [] /\
     forall id r, requests p !! id = Some r -> dead r = false -> handler r = true -> exists a, (id, a) ∈ answered p' /\ told p' id a).
Proof.
  split_and!.
  - intros l p' HF HR. pose proof (internal_bounded l p p' HF HR). lia.
  - by eapply comes_to_rest.
  - intros l p' HF HR Hp'. pose proof (calm_run_calmly l p p' H HF HR) as HC. pose proof (rests_empty p' HC Hp') as Hf.
    split; [done|]. intros id r Hr Hd Hh.
    destruct (internal_run l p p' id r HF (calm_run_run _ _ _ HR) Hr) as (r' & Hr' & Hd' & (_ & _ & Hh' & _)).
    pose proof (calmly_reached _ HC) as HP.
    pose proof (inv_kept _ (pool_inv _ HP) id r' Hr' ltac:(congruence) ltac:(congruence)) as Hin.
    unfold places in Hin. rewrite Hf in Hin. apply list_elem_of_fmap in Hin as ((id', a) & -> & Ha). exists a. split; [done|].
    by apply (faithful_told _ (pool_faithful p' HP)).
Qed.

(** The pool never has more threads than the largest number it was allowed, and the
    busy ones it counts are those that hold a request. *)
Theorem workers_bounded N l p (HN : 4 <= N) (HF : Forall permitted l) (Hl : Forall (at_most N) l) (HR : run l new_Pool = Some p) :
  zlen (workers p) <= N /\ busy_workers p = zlen (mjoin (held <$> workers p)) /\ 0 < getMaxWorkers p <= N.
Proof.
  assert (HB : max_workers p <= N /\ zlen (workers p) <= N).
  { assert (H0 : max_workers new_Pool <= N /\ zlen (workers new_Pool) <= N) by (cbn; change (zlen []) with 0; lia).
    clear HF. revert H0 HR. generalize new_Pool. induction Hl as [|s l Hs Hl IH]; cbn; intros q Hq HR; [by injection HR as <-|].
    destruct (step s q) as [q'|] eqn:E; [|done]. apply (IH q'); [by eapply workers_step|done]. }
  pose proof (inv_run l _ p empty_pool_inv HF HR) as I. pose proof (inv_max _ I). unfold getMaxWorkers.
  split_and!; try apply I; lia.
Qed.
End lookups.

(** ** Witnesses and findings *)

(** A system that knows one name. *)
Definition demo_info (n : bytes) : Z + list Candidate :=
  if bool_decide (n = lit "host") then inr [mkCandidate None []; mkCandidate (Some IPv4) [chr 10; chr 0; chr 0; chr 1]] else inl (-2).
Definition demo_name (a : InetAddress) : Z + bytes := inr (lit "name").
Definition ask (n : String.string) : Step :=
  Submit (mkRequest Forward (lit n) false (mkInetAddress Unspecified zero_data [] Unresolved) [] Unknown true false).
Definition demo_run : list Step -> Pool -> option Pool := run (-2) (-3) (-4) (-5) (-10) demo_info demo_name (fun _ => true).
Definition demo_address : InetAddress := mkInetAddress IPv4 (fill_data [chr 10; chr 0; chr 0; chr 1]) [] Resolved.

(** Three lookups, the second cancelled while a worker has it. *)
Definition demo_steps : list Step :=
  [ask "host"; Schedule; Work 0; ask "host"; Schedule; Work 1; Cancel 1; ask "nowhere"; Work 0; Work 0; Work 1; Drain; Work 1; Work 0; Drain].

Lemma demo_permitted : Forall permitted demo_steps.
Proof. repeat constructor. Qed.

Lemma lookups_accounted_witness :
  let accounts p := NoDup (in_flight p ++ (answered p).*1) in
  exists p, run (-2) (-3) (-4) (-5) (-10) demo_info demo_name (fun _ => true) demo_steps new_Pool = Some p /\
    (answered p, in_flight p) = ([(0%nat, EventHostFound demo_address)], [2; 1]%nat) /\ accounts p.
Proof.
  cbv zeta. destruct (run (-2) (-3) (-4) (-5) (-10) demo_info demo_name (fun _ => true) demo_steps new_Pool) as [p|] eqn:E.
  - exists p. split_and!; [done| |].
    + revert E. vm_compute. intros [= <-]. reflexivity.
    + eapply lookups_accounted, run_reaches; [apply reached_start|apply demo_permitted|exact E].
  - exfalso. revert E. vm_compute. congruence.
Defined.

Lemma lookups_end_witness :
  exists p, calm_run (-2) (-3) (-4) (-5) (-10) demo_info demo_name (fun _ => true) demo_steps new_Pool = Some p /\
    in_flight p <> [] /\
    exists l p', Forall (fun s => internal s = true) l /\
      calm_run (-2) (-3) (-4) (-5) (-10) demo_info demo_name (fun _ => true) l p = Some p' /\ in_flight p' = [].
Proof.
  destruct (calm_run (-2) (-3) (-4) (-5) (-10) demo_info demo_name (fun _ => true) demo_steps new_Pool) as [p|] eqn:E.
  - exists p. split_and!; [done| |].
    + revert E. vm_compute. intros [= <-]. discriminate.
    + pose proof (run_calmly _ _ _ _ _ _ _ _ _ _ _ (calmly_start _ _ _ _ _ _ _ _) demo_permitted E) as HC.
      destruct (lookups_end _ _ _ _ _ _ _ _ p HC) as (_ & (l & p' & HF & HR & Hp') & HA).
      exists l, p'. split_and!; [done..|]. by apply (HA l p').
  - exfalso. revert E. vm_compute. congruence.
Defined.

Lemma workers_bounded_witness :
  exists p, run (-2) (-3) (-4) (-5) (-10) demo_info demo_name (fun _ => true) demo_steps new_Pool = Some p /\
    zlen (workers p) = 2 /\ zlen (workers p) <= 4.
Proof.
  destruct (run (-2) (-3) (-4) (-5) (-10) demo_info demo_name (fun _ => true) demo_steps new_Pool) as [p|] eqn:E.
  - exists p. split_and!; [done| |].
    + revert E. vm_compute. intros [= <-]. reflexivity.
    + apply (workers_bounded (-2) (-3) (-4) (-5) (-10) demo_info demo_name (fun _ => true) 4 demo_steps p);
        [lia|apply demo_permitted|repeat constructor|exact E].
  - exfalso. revert E. vm_compute. congruence.
Defined.

(** A worker whose time was up is still counted until it has returned: a request that
    comes in between gets no worker, and waits until the next one is submitted. *)
Lemma request_stranded :
  exists p, demo_run [ask "host"; Schedule; Work 0; Work 0; Work 0; Drain; Drain; Work 0; ask "host"; Schedule; Work 0] new_Pool = Some p /\
    pending p = [1%nat] /\ getWorkerCount p = 0 /\
    forall s, internal s = true -> step (-2) (-3) (-4) (-5) (-10) demo_info demo_name (fun _ => true) s p = None.
Proof.
  eexists. split; [vm_compute; reflexivity|]. split_and!; [done..|].
  intros s Hs. destruct s as [| | | | |[|i]|]; try done.
Qed.

(** Two requests that come before the scheduler has woken get one worker: the second
    waits for the first although three more are allowed. *)
Lemma one_wakeup_one_worker :
  exists p, demo_run [ask "host"; ask "host"; Schedule; Work 0] new_Pool = Some p /\
    (workers p, pending p, max_workers p) = ([Busy 0], [1%nat], 4) /\
    forall s, s <> Work 0 -> internal s = true -> step (-2) (-3) (-4) (-5) (-10) demo_info demo_name (fun _ => true) s p = None.
Proof.
  eexists. split; [vm_compute; reflexivity|]. split_and!; [done..|].
  intros s H0 Hs. destruct s as [| | | | |[|i]|]; try done.
Qed.

(** A resolver remembers its last request only: one it made before still reports to its
    handler after the resolver has been destroyed. *)
Lemma earlier_lookup_not_cancelled :
  let '(_, u, p) := lookup (fun _ => true) (lit "host") (new_PooledResolver true) new_Pool in
  let '(_, u, p) := lookup (fun _ => true) (lit "host") u p in
  answered <$> demo_run [Schedule; Work 0; Work 0; Work 0; Drain; Drain] (delete_PooledResolver u p) =
  Some [(0%nat, EventHostFound demo_address)].
Proof. vm_compute. reflexivity. Qed.
