(* ===== verification/MonitorBackends.v ===== *)
(** * MonitorBackends: what a socket monitor polls with, [src/io/net/socketmonitor-*.cpp]

    The three back ends of a Unix host - poll, select and epoll - behind the interface
    that [SocketMonitor] uses. What the system calls answer comes with a [Sys]; the
    constants are those of Linux. A socket's address is a number; following one to an
    object that is gone is [None]. [honest] says what a system answers when every
    descriptor has the [Condition] it has. kqueue is in [Kqueue]. *)

From stdpp Require Import gmap.
From S2P Require Import Prelude.

(** ** Triggers *)

Module Triggers.
(* @src src/include/samurai/io/net/socketmonitor.h:55-55 Samurai::IO::Net::SocketMonitor::Triggers::None *)
Definition None : Z := 0x00.
(* @src src/include/samurai/io/net/socketmonitor.h:56-56 Samurai::IO::Net::SocketMonitor::Triggers::Read *)
Definition Read : Z := 0x01.
(* @src src/include/samurai/io/net/socketmonitor.h:57-57 Samurai::IO::Net::SocketMonitor::Triggers::Write *)
Definition Write : Z := 0x02.
(* @src src/include/samurai/io/net/socketmonitor.h:58-58 Samurai::IO::Net::SocketMonitor::Triggers::Accept *)
Definition Accept : Z := 0x04.
(* @src src/include/samurai/io/net/socketmonitor.h:59-59 Samurai::IO::Net::SocketMonitor::Triggers::Close *)
Definition Close : Z := 0x08.
(* @src src/include/samurai/io/net/socketmonitor.h:60-60 Samurai::IO::Net::SocketMonitor::Triggers::Urgent *)
Definition Urgent : Z := 0x10.
(* @src src/include/samurai/io/net/socketmonitor.h:61-61 Samurai::IO::Net::SocketMonitor::Triggers::Error *)
Definition Error : Z := 0x20.
End Triggers.

(* @src src/include/samurai/bitmask.h:47-49 any *)
Definition any (a : Z) : bool := negb (a =? 0).
Definition has (a b : Z) : bool := any (Z.land a b).
(** [if (c) x |= b]. *)
Definition bit (c : bool) (b : Z) : Z := if c then b else 0.

Definition INVALID_SOCKET : Z := -1.

(** ** What the system answers *)

(** [select()]: nothing to report, a descriptor that is not open, or the three sets. *)
Inductive SelectAnswer := Nothing | BadDescriptor | ReadySets (r w e : list Z).

(** One pass of the system: whether it has the memory for one descriptor more, what
    [poll()] writes to the [revents] of its entries, and what the others return. *)
Record Sys := mkSys {
  has_memory : bool;
  sys_poll : list (Z * Z) -> option (list Z);
  sys_select : Z -> list Z -> list Z -> list Z -> Z * Z -> SelectAnswer;
  sys_usable : Z -> bool;
  sys_epoll : gmap Z Z -> Z -> list (Z * Z)
}.

(* @src src/src/io/net/socketmonitor-backend.h:33-36 poll_act *)
Record poll_act := mkpoll_act { a_fd : Z; trig : Z }.
Definition blank_act : poll_act := mkpoll_act INVALID_SOCKET Triggers.None.

(** What is to be dispatched: the first entries of the monitor's own array, or a list. *)
Inductive Ready := FromAct (n : nat) | Collected (l : list poll_act).

(** ** The interface *)

(** A back end is told of sockets by address, descriptor and trigger, and with whether
    the system has memory for one more. Waiting looks at the sockets it was told of.
    [takes] is whether it has room for another. *)
Class Backend (B : Type) := {
  internal_add : bool -> nat -> Z -> Z -> B -> B;
  internal_remove : nat -> Z -> B -> B;
  internal_modify : nat -> Z -> Z -> B -> B;
  internal_wait : (nat -> option (Z * Z)) -> Sys -> Z -> B -> option (B * Ready);
  act_at : B -> nat -> option poll_act;
  takes : bool -> B -> bool
}.

(** The descriptors and triggers of watched sockets; no two have one descriptor. *)
Abbreviation Watched := (gmap nat (Z * Z)).
Definition unheld (M : Watched) (id : nat) (fd : Z) : Prop := M !! id = None /\ forall j u, M !! j <> Some (fd, u).
Definition distinct (M : Watched) : Prop :=
  forall i j fd t u, M !! i = Some (fd, t) -> M !! j = Some (fd, u) -> i = j.

(** What the monitor relies on: a back end polls exactly the sockets that it was told of
    and had room for; to be told of one that it does not have changes nothing. *)
Class BackendLaws (B : Type) `{Backend B} := {
  shows : B -> Watched -> Prop;
  acts : B -> nat;
  shows_add b M ok id fd t :
    shows b M -> distinct M -> unheld M id fd -> shows (internal_add ok id fd t b) (if takes ok b then <[id := (fd, t)]> M else M);
  shows_modify b M id fd t t0 :
    shows b M -> distinct M -> M !! id = Some (fd, t0) -> shows (internal_modify id fd t b) (<[id := (fd, t)]> M);
  shows_remove b M id fd t :
    shows b M -> distinct M -> M !! id = Some (fd, t) -> fd <> INVALID_SOCKET -> shows (internal_remove id fd b) (delete id M);
  shows_absent b M id fd t :
    shows b M -> unheld M id fd -> shows (internal_modify id fd t b) M /\ shows (internal_remove id fd b) M;
  shows_wait b M deref sys ms :
    shows b M -> (forall id x, M !! id = Some x -> deref id = Some x) ->
    exists b' r, internal_wait deref sys ms b = Some (b', r) /\ shows b' M /\ acts b' = acts b /\
      match r with FromAct n => (n <= acts b')%nat | Collected _ => True end;
  act_there b M n : shows b M -> (n < acts b)%nat -> is_Some (act_at b n);
  acts_kept b id fd t ok :
    acts (internal_add ok id fd t b) = acts b /\ acts (internal_modify id fd t b) = acts b /\
    acts (internal_remove id fd b) = acts b
}.

(** ** poll *)

Definition POLLIN : Z := 0x01.
Definition POLLPRI : Z := 0x02.
Definition POLLOUT : Z := 0x04.
Definition POLLERR : Z := 0x08.
Definition POLLHUP : Z := 0x10.
Definition POLLNVAL : Z := 0x20.

(* @src src/src/io/net/socketmonitor-poll.cpp:24-24 MAXSOCK *)
Definition POLL_MAXSOCK : nat := Eval vm_compute in Z.to_nat 4096.

Record pollfd := mkpollfd { p_fd : Z; events : Z; revents : Z }.
Definition blank_pollfd : pollfd := mkpollfd INVALID_SOCKET 0 0.

(* @src src/src/io/net/socketmonitor-backend.h:61-66 Samurai::IO::Net::PollSocketMonitor *)
Record PollSocketMonitor := mkPollSocketMonitor {
  p_list : list pollfd;
  p_act : list poll_act;
  p_sockets : list (option nat);
  p_num : nat;
  p_max : nat
}.

(* @src src/src/io/net/socketmonitor-poll.cpp:26-43 Samurai::IO::Net::PollSocketMonitor::PollSocketMonitor *)
Definition new_PollSocketMonitor (max_open : nat) : PollSocketMonitor :=
  let max := Nat.min max_open POLL_MAXSOCK in
  mkPollSocketMonitor (replicate max blank_pollfd) (replicate max blank_act) (replicate max None) 0 max.

Definition poll_events (trigger : Z) : Z :=
  Z.lor (Z.lor (Z.lor POLLHUP (Z.lor POLLERR POLLNVAL)) (bit (has trigger Triggers.Read) POLLIN)) (bit (has trigger Triggers.Write) POLLOUT).

(* @src src/src/io/net/socketmonitor-poll.cpp:64-86 Samurai::IO::Net::PollSocketMonitor::internal_add *)
Definition poll_add (id : nat) (fd trigger : Z) (m : PollSocketMonitor) : PollSocketMonitor :=
  if (p_num m =? p_max m)%nat then m
  else mkPollSocketMonitor (<[p_num m := mkpollfd fd (poll_events trigger) 0]> (p_list m)) (p_act m)
         (<[p_num m := Some id]> (p_sockets m)) (S (p_num m)) (p_max m).

(** The loops that look for a socket: its position, or [num]. *)
Fixpoint find_slot (id : nat) (l : list (option nat)) : nat :=
  match l with [] => 0 | s :: l => if bool_decide (s = Some id) then 0 else S (find_slot id l) end%nat.
Definition slot_of (id : nat) (m : PollSocketMonitor) : nat := find_slot id (take (p_num m) (p_sockets m)).

(** [l[n] = l[k]]. *)
Definition move {A} (k n : nat) (l : list A) : list A := match l !! k with Some x => <[n := x]> l | None => l end.

(* @src src/src/io/net/socketmonitor-poll.cpp:89-109 Samurai::IO::Net::PollSocketMonitor::internal_remove *)
Definition poll_remove (id : nat) (m : PollSocketMonitor) : PollSocketMonitor :=
  let n := slot_of id m in
  if (n =? p_num m)%nat then m
  else
    let num := (p_num m - 1)%nat in
    mkPollSocketMonitor (<[num := blank_pollfd]> (if (n =? num)%nat then p_list m else move num n (p_list m))) (p_act m)
      (<[num := None]> (if (n =? num)%nat then p_sockets m else move num n (p_sockets m))) num (p_max m).

(* @src src/src/io/net/socketmonitor-poll.cpp:112-126 Samurai::IO::Net::PollSocketMonitor::internal_modify *)
Definition poll_modify (id : nat) (trigger : Z) (m : PollSocketMonitor) : PollSocketMonitor :=
  let n := slot_of id m in
  if (n =? p_num m)%nat then m
  else mkPollSocketMonitor (alter (fun p => mkpollfd (p_fd p) (poll_events trigger) (revents p)) n (p_list m))
         (p_act m) (p_sockets m) (p_num m) (p_max m).

Definition poll_trigger (f : Z) : Z :=
  Z.lor (Z.lor (Z.lor (bit (has f POLLOUT) Triggers.Write) (bit (has f POLLIN) Triggers.Read))
               (bit (has f (Z.lor POLLERR POLLNVAL)) Triggers.Error)) (bit (has f POLLHUP) Triggers.Close).

(** The kernel writes [revents]; an entry it says nothing of keeps what it had. *)
Fixpoint answered (l : list pollfd) (r : list Z) : list pollfd :=
  match l, r with p :: l, f :: r => mkpollfd (p_fd p) (events p) f :: answered l r | _, _ => l end.

Definition poll_ready (s : option nat) (p : pollfd) : option poll_act :=
  match s with
  | None => None
  | Some _ => let t := poll_trigger (revents p) in if any t then Some (mkpoll_act (p_fd p) t) else None
  end.

(* @src src/src/io/net/socketmonitor-poll.cpp:129-168 Samurai::IO::Net::PollSocketMonitor::internal_wait *)
Definition poll_wait (sys : Sys) (m : PollSocketMonitor) : PollSocketMonitor * Ready :=
  if (p_num m =? 0)%nat then (m, FromAct 0)
  else
    match sys_poll sys ((fun p => (p_fd p, events p)) <$> take (p_num m) (p_list m)) with
    | None => (m, FromAct 0)
    | Some r =>
        let l := answered (take (p_num m) (p_list m)) r in
        let ready := omap id (zip_with poll_ready (take (p_num m) (p_sockets m)) l) in
        (mkPollSocketMonitor (l ++ drop (p_num m) (p_list m)) (ready ++ drop (length ready) (p_act m)) (p_sockets m) (p_num m) (p_max m),
         FromAct (length ready))
    end.

#[export] Instance poll_backend : Backend PollSocketMonitor := {
  internal_add _ := poll_add;
  internal_remove id _ := poll_remove id;
  internal_modify id _ := poll_modify id;
  internal_wait _ sys _ m := Some (poll_wait sys m);
  act_at m n := p_act m !! n;
  takes _ m := negb (p_num m =? p_max m)%nat
}.

(** ** select *)

Definition FD_SETSIZE : Z := 1024.
(* @src src/src/io/net/socketmonitor-select.cpp:22-22 MAXSOCK *)
Definition SELECT_MAXSOCK : nat := Eval vm_compute in Z.to_nat 1024.

(* @src src/src/io/net/socketmonitor-backend.h:152-154 Samurai::IO::Net::SelectSocketMonitor *)
Record SelectSocketMonitor := mkSelectSocketMonitor { s_sockets : list nat; s_act : list poll_act; s_max : nat }.

(* @src src/src/io/net/socketmonitor-select.cpp:24-33 Samurai::IO::Net::SelectSocketMonitor::SelectSocketMonitor *)
Definition new_SelectSocketMonitor (max_open : nat) : SelectSocketMonitor :=
  let max := Nat.min max_open SELECT_MAXSOCK in mkSelectSocketMonitor [] (replicate max blank_act) max.

(* @src src/src/io/net/socketmonitor-select.cpp:44-47 Samurai::IO::Net::SelectSocketMonitor::internal_add *)
Definition select_add (id : nat) (m : SelectSocketMonitor) : SelectSocketMonitor :=
  mkSelectSocketMonitor (s_sockets m ++ [id]) (s_act m) (s_max m).

Fixpoint erase_first (id : nat) (l : list nat) : list nat :=
  match l with [] => [] | i :: l => if (i =? id)%nat then l else i :: erase_first id l end.

(* @src src/src/io/net/socketmonitor-select.cpp:50-54 Samurai::IO::Net::SelectSocketMonitor::internal_remove *)
Definition select_remove (id : nat) (m : SelectSocketMonitor) : SelectSocketMonitor :=
  mkSelectSocketMonitor (erase_first id (s_sockets m)) (s_act m) (s_max m).

(* @src src/src/io/net/socketmonitor-select.cpp:74-77 fd_fits_in_set *)
Definition fd_fits_in_set (fd : Z) : bool := negb (fd =? INVALID_SOCKET) && (0 <=? fd) && (fd <? FD_SETSIZE).

(** The descriptors whose bits are set, in the order of [FD_SET]. *)
Definition fd_set (t : Z) (l : list (Z * Z)) : list Z := (List.filter (fun x => fd_fits_in_set x.1 && has x.2 t) l).*1.

Definition max_fd (l : list (Z * Z)) : Z :=
  fold_left (fun m x =>
    if fd_fits_in_set x.1 && has x.2 (Z.lor Triggers.Read (Z.lor Triggers.Write Triggers.Urgent))
    then if (m =? INVALID_SOCKET) || (m <? x.1) then x.1 else m else m) l INVALID_SOCKET.

(** C divides towards zero. *)
Definition timeval (time_ms : Z) : Z * Z := (Z.quot time_ms 1000, Z.rem time_ms 1000 * 1000).

Definition in_set (fd : Z) (s : list Z) : bool := bool_decide (fd ∈ s).
Definition select_trigger (r w e : list Z) (fd : Z) : Z :=
  Z.lor (Z.lor (bit (in_set fd w) Triggers.Write) (bit (in_set fd r) Triggers.Read)) (bit (in_set fd e) Triggers.Urgent).

Definition select_ready (r w e : list Z) (x : Z * Z) : option poll_act :=
  if negb (fd_fits_in_set x.1) then None
  else let t := select_trigger r w e x.1 in if any t then Some (mkpoll_act x.1 t) else None.

(** What is ready beyond the room in [act] waits for the next call. *)
(* @src src/src/io/net/socketmonitor-select.cpp:93-203 Samurai::IO::Net::SelectSocketMonitor::internal_wait *)
Definition select_wait (deref : nat -> option (Z * Z)) (sys : Sys) (time_ms : Z) (m : SelectSocketMonitor) : option (SelectSocketMonitor * Ready) :=
  l ← mapM deref (s_sockets m);
  Some (match sys_select sys (max_fd l + 1) (fd_set Triggers.Read l) (fd_set Triggers.Write l) (fd_set Triggers.Urgent l) (timeval time_ms) with
        | Nothing => (m, FromAct 0)
        | BadDescriptor =>
            (m, Collected ((fun x => mkpoll_act x.1 Triggers.Error) <$>
                           List.filter (fun x => negb (x.1 =? INVALID_SOCKET) && negb (sys_usable sys x.1)) l))
        | ReadySets r w e =>
            let ready := take (s_max m) (omap (select_ready r w e) l) in
            (mkSelectSocketMonitor (s_sockets m) (ready ++ drop (length ready) (s_act m)) (s_max m), FromAct (length ready))
        end).

#[export] Instance select_backend : Backend SelectSocketMonitor := {
  internal_add _ id _ _ := select_add id;
  internal_remove id _ := select_remove id;
  internal_modify _ _ _ m := m;
  internal_wait := select_wait;
  act_at m n := s_act m !! n;
  takes _ _ := true
}.

(** ** epoll *)

Definition EPOLLIN : Z := 0x001.
Definition EPOLLPRI : Z := 0x002.
Definition EPOLLOUT : Z := 0x004.
Definition EPOLLERR : Z := 0x008.
Definition EPOLLHUP : Z := 0x010.
Definition EPOLLRDHUP : Z := 0x2000.

(* @src src/src/io/net/socketmonitor-epoll.cpp:29-29 EPOLL_BATCH *)
Definition EPOLL_BATCH : nat := 256.

(** [interest] is what the kernel has accepted: it takes no descriptor twice, and
    changes and removes only those it has. *)
(* @src src/src/io/net/socketmonitor-backend.h:88-91 Samurai::IO::Net::EPollSocketMonitor *)
Record EPollSocketMonitor := mkEPollSocketMonitor { e_act : list (Z * Z); interest : gmap Z Z; e_num : nat; e_max : nat }.

(* @src src/src/io/net/socketmonitor-epoll.cpp:31-37 Samurai::IO::Net::EPollSocketMonitor::EPollSocketMonitor *)
Definition new_EPollSocketMonitor (max_open : nat) : EPollSocketMonitor :=
  mkEPollSocketMonitor (replicate EPOLL_BATCH (0, 0)) ∅ 0 max_open.

(* @src src/src/io/net/socketmonitor-epoll.cpp:63-82 set_poll_events *)
Definition set_poll_events (trigger : Z) : Z :=
  Z.lor (Z.lor (Z.lor
    (bit (has trigger (Z.lor Triggers.Read (Z.lor Triggers.Accept Triggers.Close))) EPOLLIN)
    (bit (has trigger Triggers.Write) EPOLLOUT))
    (bit (has trigger Triggers.Urgent) EPOLLPRI))
    (bit (has trigger Triggers.Close) EPOLLRDHUP).

(* @src src/src/io/net/socketmonitor-epoll.cpp:84-109 get_poll_events *)
Definition get_poll_events (ev : Z) : Z :=
  Z.lor (Z.lor (Z.lor (Z.lor (Z.lor
    (bit (has ev EPOLLIN) Triggers.Read)
    (bit (has ev EPOLLPRI) Triggers.Urgent))
    (bit (has ev EPOLLOUT) Triggers.Write))
    (bit (has ev EPOLLHUP) Triggers.Close))
    (bit (has ev EPOLLERR) Triggers.Error))
    (bit (has ev EPOLLRDHUP) Triggers.Close).

(* @src src/src/io/net/socketmonitor-epoll.cpp:112-126 Samurai::IO::Net::EPollSocketMonitor::internal_add *)
Definition epoll_add (ok : bool) (fd trigger : Z) (m : EPollSocketMonitor) : EPollSocketMonitor :=
  match interest m !! fd with
  | Some _ => m
  | None =>
      if negb ok then m
      else mkEPollSocketMonitor (e_act m) (<[fd := set_poll_events trigger]> (interest m)) (S (e_num m)) (e_max m)
  end.

(* @src src/src/io/net/socketmonitor-epoll.cpp:132-155 Samurai::IO::Net::EPollSocketMonitor::internal_remove *)
Definition epoll_remove (fd : Z) (m : EPollSocketMonitor) : EPollSocketMonitor :=
  if fd =? INVALID_SOCKET then m
  else match interest m !! fd with
       | None => m
       | Some _ => mkEPollSocketMonitor (e_act m) (delete fd (interest m)) (e_num m - 1) (e_max m)
       end.

(* @src src/src/io/net/socketmonitor-epoll.cpp:157-167 Samurai::IO::Net::EPollSocketMonitor::internal_modify *)
Definition epoll_modify (fd trigger : Z) (m : EPollSocketMonitor) : EPollSocketMonitor :=
  match interest m !! fd with
  | None => m
  | Some _ => mkEPollSocketMonitor (e_act m) (<[fd := set_poll_events trigger]> (interest m)) (e_num m) (e_max m)
  end.

(** The kernel reports no more than the batch. *)
(* @src src/src/io/net/socketmonitor-epoll.cpp:169-186 Samurai::IO::Net::EPollSocketMonitor::internal_wait *)
Definition epoll_wait (sys : Sys) (time_ms : Z) (m : EPollSocketMonitor) : EPollSocketMonitor * Ready :=
  let ready := take EPOLL_BATCH (sys_epoll sys (interest m) time_ms) in
  (mkEPollSocketMonitor (ready ++ drop (length ready) (e_act m)) (interest m) (e_num m) (e_max m), FromAct (length ready)).

#[export] Instance epoll_backend : Backend EPollSocketMonitor := {
  internal_add ok _ := epoll_add ok;
  internal_remove _ := epoll_remove;
  internal_modify _ := epoll_modify;
  internal_wait _ sys ms m := Some (epoll_wait sys ms m);
  act_at m n := (fun x => mkpoll_act x.1 (get_poll_events x.2)) <$> e_act m !! n;
  takes ok _ := ok
}.

(** ** poll polls what it was told of *)

(** The arrays against the sockets in their order: the entries of these, then blanks. *)
Definition filled {A} (f : nat * (Z * Z) -> A) (blank : A) (max : nat) (L : list (nat * (Z * Z))) : list A :=
  (f <$> L) ++ replicate (max - length L) blank.

Definition slot_entry (x : nat * (Z * Z)) : option nat := Some x.1.
Definition list_entry (x : nat * (Z * Z)) : Z * Z := (x.2.1, poll_events x.2.2).
Definition asks (p : pollfd) : Z * Z := (p_fd p, events p).

Record poll_holds (m : PollSocketMonitor) (L : list (nat * (Z * Z))) : Prop := mkpoll_holds {
  ph_num : p_num m = length L;
  ph_max : (length L <= p_max m)%nat;
  ph_sockets : p_sockets m = filled slot_entry None (p_max m) L;
  ph_list : asks <$> p_list m = filled list_entry (INVALID_SOCKET, 0) (p_max m) L;
  ph_act : length (p_act m) = p_max m
}.

Definition poll_shows (m : PollSocketMonitor) (M : Watched) : Prop := exists L, map_to_list M ≡ₚ L /\ poll_holds m L.

(** The last entry takes the place of one that goes. *)
Definition swap_out {A} (n : nat) (L : list A) : list A := take (length L - 1) (move (length L - 1) n L).

Lemma fmap_move {A B} (f : A -> B) k n l : f <$> move k n l = move k n (f <$> l).
Proof. unfold move. rewrite list_lookup_fmap. destruct (l !! k); [|done]. by rewrite list_fmap_insert. Qed.

Lemma move_same {A} n (l : list A) : move n n l = l.
Proof. unfold move. destruct (l !! n) eqn:E; [|done]. by apply list_insert_id. Qed.

Lemma length_move {A} k n (l : list A) : length (move k n l) = length l.
Proof. unfold move. destruct (l !! k); [apply length_insert|done]. Qed.

Lemma swap_out_perm {A} n (L : list A) x : L !! n = Some x -> L ≡ₚ x :: swap_out n L.
Proof.
  intros Hn. pose proof (lookup_lt_Some _ _ _ Hn). destruct L as [|y L _] using rev_ind; [done|].
  unfold swap_out. rewrite length_app. cbn. replace (length L + 1 - 1)%nat with (length L) by lia.
  unfold move. rewrite lookup_app_r, Nat.sub_diag by lia. cbn.
  rewrite length_app in *. cbn in *. destruct (decide (n = length L)) as [->|Hne].
  - rewrite lookup_app_r, Nat.sub_diag in Hn by lia. injection Hn as ->.
    rewrite insert_app_r_alt, take_app_length by lia. by rewrite Permutation_app_comm.
  - rewrite lookup_app_l in Hn by lia. rewrite insert_app_l, take_app_length' by (rewrite ?length_insert; lia).
    rewrite <- (list_insert_id L n x Hn) at 1. rewrite !insert_take_drop by lia.
    solve_Permutation.
Qed.

Lemma filled_add {A} (f : nat * (Z * Z) -> A) blank max L x :
  (length L < max)%nat -> <[length L := f x]> (filled f blank max L) = filled f blank max (L ++ [x]).
Proof.
  intros H. unfold filled. rewrite length_app, fmap_app, <- (assoc_L (++)). cbn.
  rewrite insert_app_r_alt by (rewrite length_fmap; lia). rewrite length_fmap, Nat.sub_diag.
  replace (max - length L)%nat with (S (max - (length L + 1))) by lia. done.
Qed.

Lemma filled_remove {A} (f : nat * (Z * Z) -> A) blank max (L : list (nat * (Z * Z))) n :
  (n < length L)%nat -> (length L <= max)%nat ->
  <[(length L - 1)%nat := blank]> (move (length L - 1) n (filled f blank max L)) = filled f blank max (swap_out n L).
Proof.
  intros Hn Hmax. assert (Hs : length (swap_out n L) = (length L - 1)%nat) by (unfold swap_out; rewrite length_take, length_move; lia).
  assert (Hmv : move (length L - 1) n (filled f blank max L) = (f <$> move (length L - 1) n L) ++ replicate (max - length L) blank).
  { unfold move, filled. rewrite lookup_app_l by (rewrite length_fmap; lia). rewrite list_lookup_fmap.
    destruct (L !! (length L - 1)%nat); [|done]. cbn. rewrite insert_app_l by (rewrite length_fmap; lia). by rewrite list_fmap_insert. }
  rewrite Hmv. unfold filled. rewrite Hs. unfold swap_out.
  rewrite <- (take_drop (length L - 1) (move (length L - 1) n L)) at 1.
  rewrite fmap_app, <- (assoc_L (++)).
  assert (Hd : length (drop (length L - 1) (move (length L - 1) n L)) = 1%nat) by (rewrite length_drop, length_move; lia).
  destruct (drop (length L - 1) (move (length L - 1) n L)) as [|y [|]]; try done. cbn.
  rewrite insert_app_r_alt by (rewrite length_fmap, length_take, length_move; lia).
  rewrite length_fmap, length_take, length_move. replace (length L - 1 - (length L - 1) `min` length L)%nat with 0%nat by lia.
  cbn. replace (max - (length L - 1))%nat with (S (max - length L)) by lia. done.
Qed.

Lemma find_slot_spec id L :
  (find_slot id (slot_entry <$> L) <= length L)%nat /\
  forall x, L !! find_slot id (slot_entry <$> L) = Some x -> x.1 = id.
Proof.
  induction L as [|[j y] L [IHl IHx]]; cbn; [by split|]. case_bool_decide as E.
  - split; [lia|]. intros x [= <-]. by injection E.
  - split; [lia|]. exact IHx.
Qed.

Lemma find_slot_here id L y : (id, y) ∈ L -> (find_slot id (slot_entry <$> L) < length L)%nat.
Proof.
  induction L as [|[j z] L IH]; [by intros ?%not_elem_of_nil|]. cbn. intros H. case_bool_decide as E; [lia|].
  apply elem_of_cons in H as [H|H]; [injection H as -> _; by destruct E|]. specialize (IH H). lia.
Qed.

Lemma slot_filled id m L : poll_holds m L -> slot_of id m = find_slot id (slot_entry <$> L).
Proof.
  intros H. unfold slot_of. rewrite (ph_num _ _ H), (ph_sockets _ _ H). unfold filled.
  by rewrite take_app_length' by (by rewrite length_fmap).
Qed.

(** Where a socket that is watched sits. *)
Lemma slot_watched id m M L x :
  map_to_list M ≡ₚ L -> poll_holds m L -> M !! id = Some x ->
  (slot_of id m < length L)%nat /\ L !! slot_of id m = Some (id, x).
Proof.
  intros HP H Hx. rewrite (slot_filled id m L H).
  assert (Hin : (id, x) ∈ L) by (rewrite <- HP; by apply elem_of_map_to_list).
  pose proof (find_slot_here id L x Hin) as Hlt. split; [done|].
  destruct (lookup_lt_is_Some_2 _ _ Hlt) as [[j y] Hj]. pose proof (proj2 (find_slot_spec id L) _ Hj) as E. cbn in E. subst j.
  assert (Hjn : (id, y) ∈ L) by (by eapply list_elem_of_lookup_2). rewrite <- HP in Hjn. apply elem_of_map_to_list in Hjn.
  congruence.
Qed.

Lemma map_to_list_replace (M : Watched) id x y L n :
  map_to_list M ≡ₚ L -> M !! id = Some x -> L !! n = Some (id, x) -> map_to_list (<[id := y]> M) ≡ₚ <[n := (id, y)]> L.
Proof.
  intros HP Hx Hn. pose proof (lookup_lt_Some _ _ _ Hn) as Hlt.
  rewrite <- insert_delete_eq, map_to_list_insert by apply lookup_delete_eq.
  rewrite insert_take_drop by done. rewrite <- (map_to_list_delete M id x Hx) in HP.
  assert (E : L ≡ₚ (id, x) :: take n L ++ drop (S n) L) by (rewrite <- (take_drop_middle L n _ Hn) at 1; solve_Permutation).
  rewrite E in HP. apply (Permutation.Permutation_cons_inv (l:=map_to_list (delete id M))) in HP. rewrite HP. solve_Permutation.
Qed.

Lemma map_to_list_without (M : Watched) id x L n :
  map_to_list M ≡ₚ L -> M !! id = Some x -> L !! n = Some (id, x) -> map_to_list (delete id M) ≡ₚ swap_out n L.
Proof.
  intros HP Hx Hn. rewrite <- (map_to_list_delete M id x Hx), (swap_out_perm n L _ Hn) in HP.
  by apply (Permutation.Permutation_cons_inv (l:=map_to_list (delete id M))) in HP.
Qed.

Lemma poll_shows_new max_open : poll_shows (new_PollSocketMonitor max_open) ∅.
Proof.
  exists []. split; [by rewrite map_to_list_empty|]. unfold new_PollSocketMonitor. cbv zeta. constructor; cbn [p_num p_max p_sockets p_list p_act length].
  - done.
  - lia.
  - unfold filled. cbn. by rewrite Nat.sub_0_r.
  - unfold filled. rewrite fmap_replicate. cbn. by rewrite Nat.sub_0_r.
  - apply length_replicate.
Qed.

Lemma poll_shows_add m M id fd t :
  poll_shows m M -> M !! id = None ->
  poll_shows (poll_add id fd t m) (if negb (p_num m =? p_max m)%nat then <[id := (fd, t)]> M else M).
Proof.
  intros (L & HP & H) Hid. pose proof H as [Hn Hmax Hs Hl Ha]. unfold poll_add.
  destruct (Nat.eqb_spec (p_num m) (p_max m)) as [Hfull|Hfull]; cbn [negb]; [by exists L|].
  assert (HL : (length L < p_max m)%nat) by lia.
  exists (L ++ [(id, (fd, t))]). split; [rewrite map_to_list_insert, HP by done; solve_Permutation|].
  constructor; cbn [p_num p_max p_sockets p_list p_act].
  - rewrite length_app, Hn. cbn. lia.
  - rewrite length_app. cbn. lia.
  - rewrite Hn, Hs. by apply (filled_add slot_entry None (p_max m) L (id, (fd, t))).
  - rewrite list_fmap_insert, Hn, Hl. by apply (filled_add list_entry (INVALID_SOCKET, 0) (p_max m) L (id, (fd, t))).
  - done.
Qed.

Lemma alter_as_insert {A} (f : A -> A) n (l : list A) x : l !! n = Some x -> alter f n l = <[n := f x]> l.
Proof.
  intros H. apply list_eq. intros j. destruct (decide (j = n)) as [->|Hne].
  - rewrite list_lookup_alter_eq, H, list_lookup_insert_eq by (by eapply lookup_lt_Some). done.
  - by rewrite list_lookup_alter_ne, list_lookup_insert_ne.
Qed.

Lemma poll_shows_modify m M id fd t t0 :
  poll_shows m M -> M !! id = Some (fd, t0) -> poll_shows (poll_modify id t m) (<[id := (fd, t)]> M).
Proof.
  intros (L & HP & H) Hid. destruct (slot_watched id m M L _ HP H Hid) as [Hlt HLn]. pose proof H as [Hn Hmax Hs Hl Ha].
  exists (<[slot_of id m := (id, (fd, t))]> L). split; [by eapply map_to_list_replace|].
  unfold poll_modify. rewrite (proj2 (Nat.eqb_neq _ _)) by lia.
  assert (Hp : exists p, p_list m !! slot_of id m = Some p /\ p_fd p = fd).
  { assert (E : (asks <$> p_list m) !! slot_of id m = Some (fd, poll_events t0)).
    { rewrite Hl. unfold filled. rewrite lookup_app_l by (by rewrite length_fmap). by rewrite list_lookup_fmap, HLn. }
    rewrite list_lookup_fmap in E. destruct (p_list m !! slot_of id m) as [p|] eqn:Ep; [|done]. exists p. split; [done|]. by injection E. }
  destruct Hp as (p & Hp & Hfd). constructor; cbn [p_num p_max p_sockets p_list p_act]; rewrite ?length_insert; try done.
  - rewrite Hs. unfold filled. rewrite length_insert, list_fmap_insert. f_equal. symmetry. apply list_insert_id.
    by rewrite list_lookup_fmap, HLn.
  - rewrite (alter_as_insert _ _ _ p Hp), list_fmap_insert, Hl. unfold filled.
    rewrite insert_app_l, length_insert, list_fmap_insert by (by rewrite length_fmap). unfold asks. cbn. by rewrite Hfd.
Qed.

Lemma poll_shows_remove m M id x :
  poll_shows m M -> M !! id = Some x -> poll_shows (poll_remove id m) (delete id M).
Proof.
  intros (L & HP & H) Hid. destruct (slot_watched id m M L _ HP H Hid) as [Hlt HLn]. pose proof H as [Hn Hmax Hs Hl Ha].
  exists (swap_out (slot_of id m) L). split; [by eapply map_to_list_without|].
  assert (Hlen : length (swap_out (slot_of id m) L) = (length L - 1)%nat) by (unfold swap_out; rewrite length_take, length_move; lia).
  assert (Hif : forall A (l : list A), (if (slot_of id m =? length L - 1)%nat then l else move (length L - 1) (slot_of id m) l) = move (length L - 1) (slot_of id m) l).
  { intros A l. destruct (Nat.eqb_spec (slot_of id m) (length L - 1)) as [E|E]; [|done]. by rewrite E, move_same. }
  unfold poll_remove. rewrite (proj2 (Nat.eqb_neq _ _)) by lia. rewrite Hn, !Hif.
  constructor; cbn [p_num p_max p_sockets p_list p_act]; rewrite ?Hlen; try done; try lia.
  - rewrite Hs. by apply filled_remove.
  - rewrite list_fmap_insert, fmap_move, Hl. by apply (filled_remove list_entry (INVALID_SOCKET, 0)).
Qed.

(** A socket that it does not have is not found. *)
Lemma slot_unheld m M id : poll_shows m M -> M !! id = None -> slot_of id m = p_num m.
Proof.
  intros (L & HP & H) Hid. rewrite (slot_filled id m L H), (ph_num _ _ H). destruct (find_slot_spec id L) as [Hle Hx].
  destruct (decide (find_slot id (slot_entry <$> L) = length L)) as [|Hne]; [done|].
  destruct (lookup_lt_is_Some_2 L (find_slot id (slot_entry <$> L))) as [[j x] Hj]; [lia|]. specialize (Hx _ Hj). cbn in Hx. subst j.
  assert (Hin : (id, x) ∈ L) by (by eapply list_elem_of_lookup_2). rewrite <- HP in Hin. apply elem_of_map_to_list in Hin. congruence.
Qed.

Lemma asks_answered l r : asks <$> answered l r = asks <$> l.
Proof. revert r. induction l as [|p l IH]; intros [|f r]; cbn; try done. by rewrite IH. Qed.

Lemma length_answered l r : length (answered l r) = length l.
Proof. revert r. induction l as [|p l IH]; intros [|f r]; cbn; try done. by rewrite IH. Qed.

Lemma length_omap_le {A B} (f : A -> option B) (l : list A) : (length (omap f l) <= length l)%nat.
Proof. induction l as [|x l IH]; cbn; [done|]. destruct (f x); cbn; lia. Qed.

Lemma length_write {A} (ready l : list A) : (length ready <= length l)%nat -> length (ready ++ drop (length ready) l) = length l.
Proof. intros H. rewrite length_app, length_drop. lia. Qed.

Lemma poll_wait_spec m M sys :
  poll_shows m M ->
  let '(m', r) := poll_wait sys m in
  poll_shows m' M /\ length (p_act m') = length (p_act m) /\
  match r with FromAct n => (n <= length (p_act m'))%nat | Collected _ => True end.
Proof.
  intros (L & HP & H). pose proof H as [Hn Hmax Hs Hl Ha]. unfold poll_wait.
  destruct (p_num m =? 0)%nat; [split_and!; [by exists L|done|lia]|].
  destruct (sys_poll sys _) as [r|]; [|split_and!; [by exists L|done|lia]]. cbv zeta.
  set (l := answered (take (p_num m) (p_list m)) r). set (ready := omap id (zip_with poll_ready (take (p_num m) (p_sockets m)) l)).
  assert (HR : (length ready <= length (p_act m))%nat).
  { etrans; [apply length_omap_le|]. rewrite length_zip_with, length_take, Ha, Hn. lia. }
  split_and!; cbn [p_max p_act]; [|by apply length_write|rewrite length_write by done; done].
  exists L. split; [done|]. constructor; cbn [p_num p_max p_sockets p_list p_act]; try done.
  - unfold l. rewrite fmap_app, asks_answered, <- fmap_app, take_drop. done.
  - rewrite length_write by done. done.
Qed.

#[export, program] Instance poll_laws : BackendLaws PollSocketMonitor := {|
  shows := poll_shows;
  acts m := length (p_act m)
|}.
Next Obligation. intros b M ok id fd t HS _ [HN _]. by apply poll_shows_add. Qed.
Next Obligation. intros b M id fd t t0 HS _ HN. by eapply poll_shows_modify. Qed.
Next Obligation. intros b M id fd t HS _ HN _. by eapply poll_shows_remove. Qed.
Next Obligation.
  intros b M id fd t HS [HN _]. cbn. unfold poll_modify, poll_remove. by rewrite (slot_unheld b M id), Nat.eqb_refl.
Qed.
Next Obligation.
  intros b M deref sys ms HS _. pose proof (poll_wait_spec b M sys HS) as H. cbn. destruct (poll_wait sys b) as [b' r].
  exists b', r. split; [done|exact H].
Qed.
Next Obligation. intros b M n _ Hn. by apply lookup_lt_is_Some_2. Qed.
Next Obligation. intros b id fd t c. cbn. unfold poll_add, poll_modify, poll_remove. repeat case_match; done. Qed.

(** ** select looks at what it was told of *)

Definition select_shows (m : SelectSocketMonitor) (M : Watched) : Prop :=
  s_sockets m ≡ₚ (map_to_list M).*1 /\ length (s_act m) = s_max m.

Lemma erase_first_perm id l : id ∈ l -> l ≡ₚ id :: erase_first id l.
Proof.
  induction l as [|i l IH]; [by intros ?%not_elem_of_nil|]. cbn. intros H. destruct (Nat.eqb_spec i id) as [->|Hne]; [done|].
  apply elem_of_cons in H as [->|H]; [done|]. rewrite (IH H) at 1. solve_Permutation.
Qed.

Lemma erase_absent id l : id ∉ l -> erase_first id l = l.
Proof.
  induction l as [|i l IH]; cbn; [done|]. intros [Hi Hl]%not_elem_of_cons. by rewrite (proj2 (Nat.eqb_neq i id)), IH.
Qed.

Lemma select_shows_new max_open : select_shows (new_SelectSocketMonitor max_open) ∅.
Proof. split; [by rewrite map_to_list_empty|]. apply length_replicate. Qed.

Lemma select_derefs (M : Watched) deref l :
  l ≡ₚ (map_to_list M).*1 -> (forall id x, M !! id = Some x -> deref id = Some x) ->
  exists d, mapM deref l = Some d /\ Forall2 (fun i x => M !! i = Some x) l d.
Proof.
  intros HP Hd. assert (HF : Forall (fun i => exists x, M !! i = Some x) l).
  { rewrite HP. apply Forall_fmap, Forall_forall. intros [i x] Hi%elem_of_map_to_list. by exists x. }
  clear HP. induction l as [|i l IH]; [by exists []|]. apply Forall_cons in HF as [(x & Hx) HF].
  destruct (IH HF) as (d & Hm & H2). exists (x :: d). cbn. rewrite (Hd i x Hx). cbn. rewrite Hm. split; [done|by constructor].
Qed.

#[export, program] Instance select_laws : BackendLaws SelectSocketMonitor := {|
  shows := select_shows;
  acts m := length (s_act m)
|}.
Next Obligation.
  intros b M ok id fd t [HP Ha] _ [HN _]. split; [|done]. cbn. rewrite map_to_list_insert by done. cbn. rewrite HP. solve_Permutation.
Qed.
Next Obligation.
  intros b M id fd t t0 [HP Ha] _ HN. split; [|done]. rewrite <- insert_delete_eq, map_to_list_insert by apply lookup_delete_eq.
  rewrite HP, <- (map_to_list_delete M id _ HN). done.
Qed.
Next Obligation.
  intros b M id fd t [HP Ha] _ HN _. split; [|done]. cbn.
  apply (Permutation.Permutation_cons_inv (a := id)). rewrite <- erase_first_perm.
  - rewrite HP, <- (map_to_list_delete M id _ HN). done.
  - rewrite HP. apply list_elem_of_fmap. exists (id, (fd, t)). split; [done|]. by apply elem_of_map_to_list.
Qed.
Next Obligation.
  intros b M id fd t [HP Ha] [HN _]. split; [done|]. split; [|done]. cbn. rewrite erase_absent; [done|].
  rewrite HP. intros ([i x] & -> & Hi%elem_of_map_to_list)%list_elem_of_fmap. cbn in HN. congruence.
Qed.
Next Obligation.
  intros b M deref sys ms [HP Ha] Hd. destruct (select_derefs M deref _ HP Hd) as (d & Hm & _).
  cbn. unfold select_wait. rewrite Hm. cbn.
  destruct (sys_select sys _ _ _ _ _) as [| |r w e]; eexists _, _; (split; [reflexivity|]); cbn; split_and!; try done; try lia.
  - split; [done|]. cbn. rewrite length_write; [done|]. rewrite length_take. lia.
  - rewrite length_write; [done|]. rewrite length_take. lia.
  - rewrite length_write; rewrite length_take; lia.
Qed.
Next Obligation. intros b M n _ Hn. by apply lookup_lt_is_Some_2. Qed.
Next Obligation. done. Qed.

(** ** epoll has the kernel watch what it was told of *)

Definition epoll_shows (m : EPollSocketMonitor) (M : Watched) : Prop :=
  (forall fd ev, interest m !! fd = Some ev <-> exists id t, M !! id = Some (fd, t) /\ ev = set_poll_events t) /\
  length (e_act m) = EPOLL_BATCH.

Lemma epoll_shows_new max_open : epoll_shows (new_EPollSocketMonitor max_open) ∅.
Proof.
  split; [|done]. intros fd ev. cbn. rewrite lookup_empty. split; [done|]. intros (id & t & H & _). by rewrite lookup_empty in H.
Qed.

Lemma epoll_shows_set m M id fd t :
  epoll_shows m M -> (forall j u, j <> id -> M !! j <> Some (fd, u)) -> (forall fd' u, M !! id = Some (fd', u) -> fd' = fd) ->
  forall n, epoll_shows (mkEPollSocketMonitor (e_act m) (<[fd := set_poll_events t]> (interest m)) n (e_max m)) (<[id := (fd, t)]> M).
Proof.
  intros [HI Ha] Hfresh Hid n. split; [|done]. intros fd' ev. cbn. destruct (decide (fd' = fd)) as [->|Hne].
  - rewrite lookup_insert_eq. split.
    + intros [= <-]. exists id, t. by rewrite lookup_insert_eq.
    + intros (j & u & Hj & ->). destruct (decide (j = id)) as [->|Hne]; [rewrite lookup_insert_eq in Hj; by injection Hj as ->|].
      rewrite lookup_insert_ne in Hj by done. by destruct (Hfresh j u Hne).
  - rewrite lookup_insert_ne, HI by done. split; intros (j & u & Hj & ->); exists j, u; (split; [|done]).
    + destruct (decide (j = id)) as [->|Hj']; [by rewrite (Hid _ _ Hj) in Hne|by rewrite lookup_insert_ne].
    + destruct (decide (j = id)) as [->|Hj']; [rewrite lookup_insert_eq in Hj; congruence|by rewrite lookup_insert_ne in Hj].
Qed.

Lemma interest_unheld m M fd : epoll_shows m M -> (forall j u, M !! j <> Some (fd, u)) -> interest m !! fd = None.
Proof.
  intros [HI _] Hf. destruct (interest m !! fd) as [ev|] eqn:E; [|done]. apply HI in E as (j & u & Hj & _). by destruct (Hf j u).
Qed.

Lemma interest_held m M id fd t : epoll_shows m M -> M !! id = Some (fd, t) -> interest m !! fd = Some (set_poll_events t).
Proof. intros [HI _] HM. apply HI. by exists id, t. Qed.

#[export, program] Instance epoll_laws : BackendLaws EPollSocketMonitor := {|
  shows := epoll_shows;
  acts m := length (e_act m)
|}.
Next Obligation.
  intros b M ok id fd t HS _ [HN Hf]. cbn. unfold epoll_add. rewrite (interest_unheld b M fd HS Hf).
  destruct ok; cbn [negb]; [|done]. apply epoll_shows_set; [done| |].
  - intros j u _. apply Hf.
  - intros fd' u. by rewrite HN.
Qed.
Next Obligation.
  intros b M id fd t t0 HS HD HN. cbn. unfold epoll_modify. rewrite (interest_held b M id fd t0 HS HN). apply epoll_shows_set; [done| |].
  - intros j u Hj HM. apply Hj. by eapply HD.
  - intros fd' u. rewrite HN. congruence.
Qed.
Next Obligation.
  intros b M id fd t HS HD HN Hfd. pose proof HS as [HI Ha]. cbn. unfold epoll_remove.
  rewrite (proj2 (Z.eqb_neq _ _)), (interest_held b M id fd t HS HN) by done. split; [|done]. intros fd' ev. cbn. destruct (decide (fd' = fd)) as [->|Hne].
  - rewrite lookup_delete_eq. split; [done|]. intros (j & u & Hj & _). apply lookup_delete_Some in Hj as [Hj HM].
    by destruct Hj; eapply HD.
  - rewrite lookup_delete_ne, HI by done. split; intros (j & u & Hj & ->); exists j, u; (split; [|done]).
    + apply lookup_delete_Some. split; [|done]. intros <-. congruence.
    + by apply lookup_delete_Some in Hj as [_ Hj].
Qed.
Next Obligation.
  intros b M id fd t HS [_ Hf]. cbn. unfold epoll_modify, epoll_remove. rewrite (interest_unheld b M fd HS Hf).
  by destruct (fd =? INVALID_SOCKET).
Qed.
Next Obligation.
  intros b M deref sys ms [HI Ha] _. cbn. eexists _, _. split; [reflexivity|].
  assert (HL : (length (take EPOLL_BATCH (sys_epoll sys (interest b) ms)) <= length (e_act b))%nat) by (rewrite length_take; lia).
  split_and!; cbn [e_max e_act]; try done.
  - split; [exact HI|]. cbn [e_act]. by rewrite length_write.
  - by apply length_write.
  - by rewrite length_write.
Qed.
Next Obligation. intros b M n _ Hn. cbn. destruct (lookup_lt_is_Some_2 _ _ Hn) as [x Hx]. rewrite Hx. by eexists. Qed.
Next Obligation. intros b id fd t c. cbn. unfold epoll_add, epoll_modify, epoll_remove. repeat case_match; done. Qed.

(** ** What the back ends report *)

(** What a descriptor is like: data or a connection to take, room to write, urgent
    data, an end that the peer has sent, both directions ended, an error pending. *)
Record Condition := mkCondition {
  readable : bool; writable : bool; urgent : bool; half_closed : bool; hung_up : bool; failed : bool
}.

(** What poll() and epoll report of a descriptor, by poll(2): of what was asked what
    holds, and a hang-up or an error whatever was asked. *)
Definition revents_of (C : Z -> Condition) (x : Z * Z) : Z :=
  let c := C x.1 in
  Z.lor (Z.lor (Z.lor (Z.lor (Z.lor
    (bit (has x.2 POLLIN && readable c) POLLIN)
    (bit (has x.2 POLLPRI && urgent c) POLLPRI))
    (bit (has x.2 POLLOUT && writable c) POLLOUT))
    (bit (failed c) POLLERR))
    (bit (hung_up c) POLLHUP))
    (bit (has x.2 EPOLLRDHUP && half_closed c) EPOLLRDHUP).

Definition ready_events (C : Z -> Condition) (x : Z * Z) : option (Z * Z) :=
  let ev := revents_of C x in if any ev then Some (x.1, ev) else None.

(** select(2) takes a time that is not negative, looks at descriptors below [n], and
    says of its sets what select(2) says: a hang-up can be read, an error be read and
    written. *)
Definition valid_timeval (t : Z * Z) : bool := (0 <=? t.1) && (0 <=? t.2) && (t.2 <? 1000000).
Definition select_read (c : Condition) : bool := readable c || hung_up c || failed c.
Definition select_write (c : Condition) : bool := writable c || failed c.
Definition picks (n : Z) (s s' : list Z) (f : Z -> bool) : Prop := forall fd, fd ∈ s' <-> fd ∈ s /\ fd < n /\ f fd = true.

(** What the manual says of the three calls, where every descriptor is open and no
    signal comes. *)
Record honest (C : Z -> Condition) (sys : Sys) : Prop := mkhonest {
  honest_poll l : match sys_poll sys l with Some r => r = revents_of C <$> l | None => Forall (fun x => revents_of C x = 0) l end;
  honest_select n r w e t :
    if valid_timeval t then
      match sys_select sys n r w e t with
      | ReadySets r' w' e' =>
          picks n r r' (fun fd => select_read (C fd)) /\ picks n w w' (fun fd => select_write (C fd)) /\ picks n e e' (fun fd => urgent (C fd))
      | Nothing => picks n r [] (fun fd => select_read (C fd)) /\ picks n w [] (fun fd => select_write (C fd)) /\ picks n e [] (fun fd => urgent (C fd))
      | BadDescriptor => False
      end
    else sys_select sys n r w e t = Nothing;
  honest_epoll I ms : sys_epoll sys I ms ≡ₚ omap (ready_events C) (map_to_list I)
}.

(** What each back end has to tell of a descriptor and the trigger it is watched with.
    poll does not ask for anything but reading and writing; epoll takes a connection to
    accept and the end of the peer for data to read; select has no errors. *)
Definition act_of (fd e : Z) : option poll_act := if any e then Some (mkpoll_act fd e) else None.
Definition poll_tells (C : Z -> Condition) (x : Z * Z) : option poll_act :=
  let c := C x.1 in
  act_of x.1 (Z.lor (Z.lor (Z.lor
    (bit (has x.2 Triggers.Write && writable c) Triggers.Write)
    (bit (has x.2 Triggers.Read && readable c) Triggers.Read))
    (bit (failed c) Triggers.Error))
    (bit (hung_up c) Triggers.Close)).
Definition epoll_tells (C : Z -> Condition) (x : Z * Z) : option poll_act :=
  let c := C x.1 in
  act_of x.1 (Z.lor (Z.lor (Z.lor (Z.lor
    (bit (has x.2 (Z.lor Triggers.Read (Z.lor Triggers.Accept Triggers.Close)) && readable c) Triggers.Read)
    (bit (has x.2 Triggers.Urgent && urgent c) Triggers.Urgent))
    (bit (has x.2 Triggers.Write && writable c) Triggers.Write))
    (bit (hung_up c || has x.2 Triggers.Close && half_closed c) Triggers.Close))
    (bit (failed c) Triggers.Error)).
Definition select_tells (C : Z -> Condition) (x : Z * Z) : option poll_act :=
  let c := C x.1 in
  if fd_fits_in_set x.1 then
    act_of x.1 (Z.lor (Z.lor
      (bit (has x.2 Triggers.Write && select_write c) Triggers.Write)
      (bit (has x.2 Triggers.Read && select_read c) Triggers.Read))
      (bit (has x.2 Triggers.Urgent && urgent c) Triggers.Urgent))
  else None.

(** What there is to tell of all. *)
Definition news (tells : Z * Z -> option poll_act) (M : Watched) : list poll_act := omap tells (map_to_list M).*2.

(** Sockets are watched for reading and writing only; and these are sound, and on
    descriptors that select can have. *)
Definition plain (M : Watched) : Prop :=
  map_Forall (fun _ x => has x.2 (Z.lor Triggers.Accept (Z.lor Triggers.Close Triggers.Urgent)) = false) M.
Definition untroubled (C : Z -> Condition) (M : Watched) : Prop :=
  map_Forall (fun _ x => hung_up (C x.1) = false /\ failed (C x.1) = false /\ fd_fits_in_set x.1 = true) M.

Definition dispatched {B} `{Backend B} (b : B) (r : Ready) : list poll_act :=
  match r with FromAct n => omap (act_at b) (seq 0 n) | Collected l => l end.

Lemma omap_lookup_take {A} (l : list A) n : (n <= length l)%nat -> omap (fun i => l !! i) (seq 0 n) = take n l.
Proof.
  revert n. induction l as [|x l IH]; intros [|n] H; cbn in *; try done; [lia|].
  f_equal. rewrite <- (IH n) by lia. rewrite <- fmap_S_seq. clear. generalize 0%nat. induction n as [|n IH]; intros k; [done|].
  cbn. destruct (l !! k); cbn; [f_equal|]; apply IH.
Qed.

Lemma dispatched_written {A} (ready l : list A) :
  (length ready <= length l)%nat -> omap (fun i => (ready ++ drop (length ready) l) !! i) (seq 0 (length ready)) = ready.
Proof.
  intros H. rewrite omap_lookup_take by (rewrite length_app; lia). by rewrite take_app_length.
Qed.

Lemma has_lor t a b : has t (Z.lor a b) = has t a || has t b.
Proof.
  unfold has, any. rewrite Z.land_lor_distr_r, <- negb_andb. f_equal. apply eq_true_iff_eq. rewrite andb_true_iff, !Z.eqb_eq. apply Z.lor_eq_0_iff.
Qed.

Lemma poll_told C i fd t : poll_ready (Some i) (mkpollfd fd (poll_events t) (revents_of C (fd, poll_events t))) = poll_tells C (fd, t).
Proof.
  unfold poll_ready, poll_tells, revents_of, poll_events, act_of. cbn [fst snd revents p_fd].
  destruct (has t Triggers.Read), (has t Triggers.Write), (C fd) as [[] [] [] [] [] []]; vm_compute; reflexivity.
Qed.

Lemma epoll_told C fd t :
  (fun x => mkpoll_act x.1 (get_poll_events x.2)) <$> ready_events C (fd, set_poll_events t) = epoll_tells C (fd, t).
Proof.
  unfold ready_events, epoll_tells, revents_of, set_poll_events, act_of. cbn [fst snd].
  destruct (has t (Z.lor Triggers.Read _)), (has t Triggers.Write), (has t Triggers.Urgent), (has t Triggers.Close), (C fd) as [[] [] [] [] [] []];
    vm_compute; reflexivity.
Qed.

(** Where nothing but reading and writing is asked for, poll and epoll tell the same. *)
Lemma plain_told C fd t : has t (Z.lor Triggers.Accept (Z.lor Triggers.Close Triggers.Urgent)) = false ->
  poll_tells C (fd, t) = epoll_tells C (fd, t).
Proof.
  rewrite !has_lor, !orb_false_iff. intros (HA & HC & HU). unfold poll_tells, epoll_tells, act_of. cbn [fst snd].
  rewrite !has_lor, HA, HC, HU. destruct (has t Triggers.Read), (has t Triggers.Write), (C fd) as [[] [] [] [] [] []]; vm_compute; reflexivity.
Qed.

Lemma sound_told C fd t : has t (Z.lor Triggers.Accept (Z.lor Triggers.Close Triggers.Urgent)) = false ->
  hung_up (C fd) = false /\ failed (C fd) = false /\ fd_fits_in_set fd = true -> select_tells C (fd, t) = epoll_tells C (fd, t).
Proof.
  rewrite !has_lor, !orb_false_iff. intros (HA & HC & HU) (Hh & Hf & Hfd). unfold select_tells, epoll_tells, act_of, select_read, select_write.
  cbn [fst snd]. rewrite !has_lor, HA, HC, HU, Hh, Hf, Hfd.
  destruct (has t Triggers.Read), (has t Triggers.Write), (readable (C fd)), (writable (C fd)); vm_compute; reflexivity.
Qed.

Lemma omap_perm {A B} (f : A -> option B) l l' : l ≡ₚ l' -> omap f l ≡ₚ omap f l'.
Proof. intros H. by rewrite H. Qed.

Lemma omap_eq {A B} (f g : A -> option B) (l : list A) : Forall (fun x => f x = g x) l -> omap f l = omap g l.
Proof. intros H. induction H as [|x l Hx Hl IH]; cbn; [done|]. rewrite Hx. destruct (g x); [f_equal|]; exact IH. Qed.

Lemma news_eq f g (M : Watched) : map_Forall (fun _ x => f x = g x) M -> news f M = news g M.
Proof.
  intros HM. apply omap_eq, Forall_forall. intros x ([i y] & -> & Hi%elem_of_map_to_list)%list_elem_of_fmap. exact (HM i y Hi).
Qed.

Lemma poll_collected C L l : asks <$> l = list_entry <$> L ->
  omap id (zip_with poll_ready (slot_entry <$> L) (answered l (revents_of C <$> (asks <$> l)))) = omap (poll_tells C) L.*2.
Proof.
  revert l. induction L as [|[i [fd t]] L IH]; intros [|p l] E; try done.
  injection E as E1 E2 E. cbn [fst snd] in *.
  change (omap id (poll_ready (Some i) (mkpollfd (p_fd p) (events p) (revents_of C (asks p))) ::
                   zip_with poll_ready (slot_entry <$> L) (answered l (revents_of C <$> (asks <$> l)))) =
          omap (poll_tells C) ((fd, t) :: L.*2)).
  replace (mkpollfd (p_fd p) (events p) (revents_of C (asks p))) with (mkpollfd fd (poll_events t) (revents_of C (fd, poll_events t)))
    by (unfold asks; by rewrite E1, E2).
  rewrite (poll_told C i fd t). cbn [omap list_omap]. change (id ?x) with x.
  destruct (poll_tells C (fd, t)); [f_equal|]; by apply IH.
Qed.

Lemma poll_silent C L l : asks <$> l = list_entry <$> L ->
  Forall (fun x => revents_of C x = 0) (asks <$> l) -> omap (poll_tells C) L.*2 = [].
Proof.
  intros E H0. rewrite E in H0. clear E l. induction L as [|[i [fd t]] L IH]; [done|].
  apply Forall_cons in H0 as [H0 H1].
  change (omap (poll_tells C) ((fd, t) :: L.*2) = []). cbn [omap list_omap].
  rewrite <- (poll_told C i fd t). change (revents_of C (fd, poll_events t) = 0) in H0. rewrite H0. by apply IH.
Qed.

Lemma poll_agrees C sys m M : poll_shows m M -> honest C sys ->
  dispatched (poll_wait sys m).1 (poll_wait sys m).2 ≡ₚ news (poll_tells C) M.
Proof.
  intros (L & HP & [Hn Hmax Hs Hl Ha]) HH. unfold news. rewrite HP.
  assert (HS : take (p_num m) (p_sockets m) = slot_entry <$> L).
  { rewrite Hn, Hs. unfold filled. by rewrite take_app_length' by (by rewrite length_fmap). }
  assert (HL : asks <$> take (p_num m) (p_list m) = list_entry <$> L).
  { rewrite fmap_take, Hn, Hl. unfold filled. by rewrite take_app_length' by (by rewrite length_fmap). }
  unfold poll_wait. destruct (Nat.eqb_spec (p_num m) 0) as [H0|H0].
  { assert (L = []) as -> by (apply length_zero_iff_nil; lia). done. }
  pose proof (honest_poll _ _ HH (asks <$> take (p_num m) (p_list m))) as Hk.
  change (fun p : pollfd => (p_fd p, events p)) with asks.
  destruct (sys_poll sys _) as [r|]; cbn [fst snd dispatched]; [|by rewrite (poll_silent C L _ HL Hk)].
  cbv zeta. rewrite HS, Hk, (poll_collected C L _ HL). cbn [fst snd]. cbn [act_at poll_backend p_act].
  rewrite dispatched_written; [done|]. rewrite Ha. etrans; [apply length_omap_le|]. rewrite length_fmap. lia.
Qed.

(** select() is asked about each descriptor once, and [act] has room for all. *)
Lemma fd_set_spec t l fd : fd ∈ fd_set t l <-> fd_fits_in_set fd = true /\ exists u, (fd, u) ∈ l /\ has u t = true.
Proof.
  unfold fd_set. rewrite list_elem_of_fmap. split.
  - intros ([fd' u] & -> & H). rewrite list_elem_of_In in H. apply filter_In in H as [H [Hf Hh]%andb_true_iff].
    apply list_elem_of_In in H. split; [done|]. by exists u.
  - intros (Hf & u & H & Hh). exists (fd, u). split; [done|]. rewrite list_elem_of_In in *. apply filter_In. cbn. by rewrite Hf, Hh.
Qed.

(** Its first argument is above all of them. *)
Lemma fits_nonneg fd : fd_fits_in_set fd = true -> 0 <= fd.
Proof. unfold fd_fits_in_set. rewrite !andb_true_iff, Z.leb_le. lia. Qed.

Lemma max_fd_above t l fd :
  (forall u, has u t = true -> has u (Z.lor Triggers.Read (Z.lor Triggers.Write Triggers.Urgent)) = true) ->
  fd ∈ fd_set t l -> fd < max_fd l + 1.
Proof.
  intros Ht (Hf & u & Hin & Hu)%fd_set_spec. apply Ht in Hu. unfold max_fd. set (f := fun m x => _).
  assert (forall m x, -1 <= m -> m <= f m x) as Hstep.
  { intros m x Hm. unfold f. destruct (fd_fits_in_set x.1) eqn:Hx; [|cbn; lia]. apply fits_nonneg in Hx. unfold INVALID_SOCKET.
    destruct (has x.2 _), (Z.eqb_spec m (-1)), (Z.ltb_spec m x.1); cbn; lia. }
  enough (forall m, -1 <= m -> m <= fold_left f l m /\ fd <= fold_left f l m) as He by (destruct (He INVALID_SOCKET); unfold INVALID_SOCKET in *; lia).
  assert (forall l m, -1 <= m -> m <= fold_left f l m) as Hmono.
  { clear l Hin. intros l. induction l as [|x l IH]; intros m Hm; cbn [fold_left]; [lia|]. pose proof (Hstep m x Hm). specialize (IH (f m x)). lia. }
  intros m Hm. split; [by apply Hmono|]. revert m Hm Hin. induction l as [|x l IH]; intros m Hm; [by intros ?%not_elem_of_nil|]. cbn [fold_left].
  pose proof (Hstep m x Hm). intros [<-|Hin]%elem_of_cons; [|by apply IH; [lia|]]. etrans; [|apply Hmono; lia].
  unfold f. cbn [fst snd]. rewrite Hf, Hu. cbn [andb]. destruct (Z.eqb_spec m INVALID_SOCKET), (Z.ltb_spec m fd); cbn; lia.
Qed.

Lemma watched_once M fd t u : distinct M -> (fd, t) ∈ (map_to_list M).*2 -> (fd, u) ∈ (map_to_list M).*2 -> t = u.
Proof.
  intros HD ([i x] & Hx & Hi)%list_elem_of_fmap ([j y] & Hy & Hj)%list_elem_of_fmap. cbn in Hx, Hy. subst.
  apply elem_of_map_to_list in Hi, Hj. assert (i = j) as -> by (by eapply HD). congruence.
Qed.

Lemma in_set_spec fd s b : (fd ∈ s <-> b = true) -> in_set fd s = b.
Proof. intros H. unfold in_set. destruct b; [apply bool_decide_eq_true_2; by apply H|apply bool_decide_eq_false_2; by intros ?%H]. Qed.

(** The sets that come back hold what is ready of the ones that went out. *)
Lemma select_news C M l r w e :
  distinct M -> l ≡ₚ (map_to_list M).*2 ->
  picks (max_fd l + 1) (fd_set Triggers.Read l) r (fun fd => select_read (C fd)) ->
  picks (max_fd l + 1) (fd_set Triggers.Write l) w (fun fd => select_write (C fd)) ->
  picks (max_fd l + 1) (fd_set Triggers.Urgent l) e (fun fd => urgent (C fd)) ->
  omap (select_ready r w e) l = omap (select_tells C) l.
Proof.
  intros HD HP Hr Hw He. apply omap_eq, Forall_forall. intros [fd t] Hin.
  pose proof Hin as HM. rewrite HP in HM.
  assert (Hset : forall b s (f : Z -> bool), b ∈ [Triggers.Read; Triggers.Write; Triggers.Urgent] -> fd_fits_in_set fd = true ->
    picks (max_fd l + 1) (fd_set b l) s f -> in_set fd s = has t b && f fd).
  { intros b s f Hb Hf Hs. apply in_set_spec. rewrite (Hs fd), andb_true_iff, fd_set_spec. split.
    - intros ((_ & u & Hu & Hub) & _ & ?). rewrite HP in Hu. by rewrite (watched_once M fd t u HD HM Hu).
    - intros [Htb ?]. assert (fd ∈ fd_set b l) as Hfd by (apply fd_set_spec; split; [done|by exists t]).
      split; [by apply fd_set_spec|]. split; [|done]. apply (max_fd_above b); [|done].
      intros u Hu. rewrite !has_lor, !orb_true_iff. rewrite !elem_of_cons, elem_of_nil in Hb. destruct Hb as [->|[->|[->|[]]]]; auto. }
  unfold select_ready, select_trigger, select_tells, act_of. cbn [fst snd]. destruct (fd_fits_in_set fd) eqn:Hf; cbn [negb]; [|done].
  rewrite (Hset Triggers.Read r _ ltac:(by left) eq_refl Hr), (Hset Triggers.Write w _ ltac:(by right; left) eq_refl Hw),
    (Hset Triggers.Urgent e _ ltac:(by right; right; left) eq_refl He).
  done.
Qed.

Lemma timeval_valid ms : valid_timeval (timeval ms) = (0 <=? ms).
Proof.
  unfold valid_timeval, timeval. cbn [fst snd]. apply eq_true_iff_eq. rewrite !andb_true_iff, Z.ltb_lt, !Z.leb_le.
  pose proof (Z.quot_rem' ms 1000). split.
  - intros [[Hq Hr] _]. lia.
  - intros Hms. pose proof (Z.rem_bound_pos ms 1000 Hms ltac:(lia)). pose proof (Z.quot_pos ms 1000 Hms ltac:(lia)). lia.
Qed.

Lemma select_agrees C sys m M deref ms :
  select_shows m M -> distinct M -> honest C sys -> (forall id x, M !! id = Some x -> deref id = Some x) ->
  (length (news (select_tells C) M) <= s_max m)%nat ->
  exists m' rd, select_wait deref sys ms m = Some (m', rd) /\ dispatched m' rd ≡ₚ (if 0 <=? ms then news (select_tells C) M else []).
Proof.
  intros [HP Ha] HD HH Hd Hsz. destruct (select_derefs M deref _ HP Hd) as (l & Hm & H2).
  assert (HL : l ≡ₚ (map_to_list M).*2).
  { assert (El : l = omap (fun i => M !! i) (s_sockets m)).
    { clear -H2. induction H2 as [|i x il l Hx H IH]; [done|]. cbn. rewrite Hx. by f_equal. }
    rewrite El, HP. clear. assert (E : forall K : list (nat * (Z * Z)), Forall (fun p => M !! p.1 = Some p.2) K -> omap (fun i => M !! i) K.*1 = K.*2).
    { intros K HK. induction HK as [|[i x] K Hx HK IH]; [done|]. cbn in *. rewrite Hx. by f_equal. }
    rewrite E; [done|]. apply Forall_forall. intros [i x] Hi. by apply elem_of_map_to_list in Hi. }
  unfold select_wait. rewrite Hm. cbn [mbind option_bind].
  pose proof (honest_select _ _ HH (max_fd l + 1) (fd_set Triggers.Read l) (fd_set Triggers.Write l) (fd_set Triggers.Urgent l) (timeval ms)) as Hk.
  rewrite timeval_valid in Hk. destruct (0 <=? ms); [|rewrite Hk; by eexists _, _].
  assert (HE : news (select_tells C) M ≡ₚ omap (select_tells C) l) by (unfold news; by rewrite HL).
  destruct (sys_select sys _ _ _ _ _) as [| |r w e]; [|done|]; eexists _, _; (split; [reflexivity|rewrite HE]); destruct Hk as (Kr & Kw & Ke).
  - rewrite <- (select_news C M l [] [] [] HD HL Kr Kw Ke).
    assert (E : omap (select_ready [] [] []) l = []); [|by rewrite E].
    clear. induction l as [|x l IH]; [done|]. cbn. unfold select_ready at 1. by destruct (fd_fits_in_set x.1).
  - rewrite (select_news C M l r w e HD HL Kr Kw Ke).
    assert (Hlen : (length (omap (select_tells C) l) <= s_max m)%nat) by (by rewrite <- HE).
    rewrite take_ge by done. unfold dispatched. cbn [act_at select_backend s_act]. by rewrite dispatched_written by (rewrite Ha; done).
Qed.

Definition interest_of (x : Z * Z) : Z * Z := (x.1, set_poll_events x.2).

Lemma interest_list m M : epoll_shows m M -> distinct M -> map_to_list (interest m) ≡ₚ interest_of <$> (map_to_list M).*2.
Proof.
  intros [HI _] HD. apply NoDup_Permutation.
  - apply NoDup_map_to_list.
  - rewrite <- list_fmap_compose. apply NoDup_fmap_2_strong; [|apply NoDup_map_to_list].
    intros [i [fd t]] [j [fd' u]] Hi Hj E. cbn in E. injection E as -> E. apply elem_of_map_to_list in Hi, Hj.
    assert (i = j) as -> by (by eapply HD). congruence.
  - intros [fd ev]. rewrite elem_of_map_to_list, HI, <- list_fmap_compose, list_elem_of_fmap. split.
    + intros (i & t & Hi & ->). exists (i, (fd, t)). split; [done|]. by apply elem_of_map_to_list.
    + intros ([i [fd' t]] & E & Hi%elem_of_map_to_list). cbn in E. injection E as -> ->. by exists i, t.
Qed.

Lemma omap_fmap {A B C} (f : B -> option C) (g : A -> B) (l : list A) : omap f (g <$> l) = omap (fun x => f (g x)) l.
Proof. induction l as [|x l IH]; [done|]. cbn. destruct (f (g x)); [f_equal|]; exact IH. Qed.

Lemma fmap_omap {A B C} (f : B -> C) (g : A -> option B) (l : list A) : f <$> omap g l = omap (fun x => f <$> g x) l.
Proof. induction l as [|x l IH]; [done|]. cbn. destruct (g x); cbn; [f_equal|]; exact IH. Qed.

Lemma epoll_agrees C sys m M ms :
  epoll_shows m M -> distinct M -> honest C sys -> (length (news (epoll_tells C) M) <= EPOLL_BATCH)%nat ->
  dispatched (epoll_wait sys ms m).1 (epoll_wait sys ms m).2 ≡ₚ news (epoll_tells C) M.
Proof.
  intros HS HD HH Hsz. pose proof (interest_list m M HS HD) as HP. pose proof (honest_epoll _ _ HH (interest m) ms) as Hk.
  set (f := fun x : Z * Z => mkpoll_act x.1 (get_poll_events x.2)).
  assert (HE : f <$> omap (ready_events C) (interest_of <$> (map_to_list M).*2) = news (epoll_tells C) M).
  { unfold news. rewrite omap_fmap, fmap_omap. apply omap_eq, Forall_forall. intros [fd t] _. apply epoll_told. }
  assert (HF : f <$> sys_epoll sys (interest m) ms ≡ₚ news (epoll_tells C) M) by (by rewrite Hk, HP, HE).
  assert (Hlen : (length (sys_epoll sys (interest m) ms) <= EPOLL_BATCH)%nat) by (by rewrite <- (length_fmap f), HF).
  unfold epoll_wait. rewrite take_ge by done.
  assert (HA : omap (fun n => f <$> (sys_epoll sys (interest m) ms ++ drop (length (sys_epoll sys (interest m) ms)) (e_act m)) !! n)
                    (seq 0 (length (sys_epoll sys (interest m) ms))) = f <$> sys_epoll sys (interest m) ms).
  { rewrite <- fmap_omap, dispatched_written; [done|]. by rewrite (proj2 HS). }
  etrans; [apply reflexive_eq; exact HA|done].
Qed.

(** ** Properties *)

(** C19. What each back end dispatches when a pass of the monitor finds every watched
    descriptor open and no more of them ready than it reports at once: for every watched
    socket, once, poll tells of reading and writing where they are asked for and
    possible, and of errors and hang-ups in any case; epoll tells of these, and of
    urgent data and the end of the peer where they are asked for; select tells of
    reading, writing and urgent data of the descriptors below 1024, of an error or a
    hang-up as of something to read or write, and of nothing when the time is negative,
    which the system refuses. So poll and epoll dispatch the same where only reading
    and writing are watched, and where besides no descriptor has failed and select can
    have them all and is given a time, the three of them do. *)
Theorem backends_agree C sys (M : Watched) (p : PollSocketMonitor) (s : SelectSocketMonitor) (e : EPollSocketMonitor) deref ms
  (HH : honest C sys) (HD : distinct M) (Hd : forall id x, M !! id = Some x -> deref id = Some x)
  (Hs : (length (news (select_tells C) M) <= s_max s)%nat) (He : (length (news (epoll_tells C) M) <= EPOLL_BATCH)%nat)
  (Hp : shows p M) (Hsel : shows s M) (Hep : shows e M) :
  exists p' rp s' rs e' re,
    internal_wait deref sys ms p = Some (p', rp) /\ internal_wait deref sys ms s = Some (s', rs) /\ internal_wait deref sys ms e = Some (e', re) /\
    dispatched p' rp ≡ₚ news (poll_tells C) M /\ dispatched e' re ≡ₚ news (epoll_tells C) M /\
    dispatched s' rs ≡ₚ (if 0 <=? ms then news (select_tells C) M else []) /\
    (plain M -> dispatched p' rp ≡ₚ dispatched e' re /\
       (untroubled C M -> 0 <= ms -> dispatched s' rs ≡ₚ dispatched e' re)).
Proof.
  destruct (select_agrees C sys s M deref ms Hsel HD HH Hd Hs) as (s' & rs & Hw & Hx).
  pose proof (poll_agrees C sys p M Hp HH) as Hpoll. pose proof (epoll_agrees C sys e M ms Hep HD HH He) as Hepoll.
  exists (poll_wait sys p).1, (poll_wait sys p).2, s', rs, (epoll_wait sys ms e).1, (epoll_wait sys ms e).2.
  split_and!; [by rewrite <- surjective_pairing|done|by rewrite <- surjective_pairing|done|done|done|].
  intros HM. split.
  - rewrite Hpoll, Hepoll. rewrite (news_eq (poll_tells C) (epoll_tells C) M); [done|]. intros i [fd t] Hi. apply plain_told. exact (HM i (fd, t) Hi).
  - intros HU Hms%Z.leb_le. rewrite Hms in Hx. rewrite Hx, Hepoll, (news_eq (select_tells C) (epoll_tells C) M); [done|].
    intros i [fd t] Hi. apply sound_told; [exact (HM i (fd, t) Hi)|exact (HU i (fd, t) Hi)].
Qed.

(** Two sockets, of which the first can be read and the second written. *)
Definition demo_watched : Watched := <[1%nat := (5, 3)]> (<[0%nat := (4, 1)]> ∅).
Definition demo_ready (fd : Z) : Condition := mkCondition (fd =? 4) (fd =? 5) false false false false.
Definition below (n : Z) (f : Z -> bool) (l : list Z) : list Z := List.filter (fun fd => (fd <? n) && f fd) l.
Definition sys_of (C : Z -> Condition) : Sys :=
  mkSys true (fun l => Some (revents_of C <$> l))
    (fun n r w e t => if valid_timeval t
                      then ReadySets (below n (fun fd => select_read (C fd)) r) (below n (fun fd => select_write (C fd)) w) (below n (fun fd => urgent (C fd)) e)
                      else Nothing)
    (fun _ => true) (fun I _ => omap (ready_events C) (map_to_list I)).
Definition demo_sys : Sys := sys_of demo_ready.
Definition tell_two {B} `{Backend B} (b : B) : B := internal_add true 1 5 3 (internal_add true 0 4 1 b).

Lemma below_picks n f l : picks n l (below n f l) f.
Proof. intros fd. unfold below. rewrite !list_elem_of_In, filter_In, andb_true_iff, Z.ltb_lt. tauto. Qed.

Lemma sys_of_honest C : honest C (sys_of C).
Proof.
  constructor; cbn; [done| |done]. intros n r w e t. destruct (valid_timeval t); [|done]. split_and!; apply below_picks.
Qed.

Lemma demo_distinct : distinct demo_watched.
Proof.
  intros i j fd t u Hi Hj. unfold demo_watched in *.
  apply lookup_insert_Some in Hi as [[<- Hi]|[_ [[<- Hi]|[_ Hi]]%lookup_insert_Some]], Hj as [[<- Hj]|[_ [[<- Hj]|[_ Hj]]%lookup_insert_Some]];
    try done; congruence.
Qed.

Lemma demo_shows {B} `{BackendLaws B} (b : B) : shows b ∅ -> takes true b = true -> takes true (internal_add true 0 4 1 b) = true ->
  shows (tell_two b) demo_watched.
Proof.
  intros Hb Ht1 Ht2. unfold tell_two, demo_watched.
  pose proof (shows_add b ∅ true 0 4 1 Hb) as H1. rewrite Ht1 in H1.
  pose proof (shows_add _ _ true 1 5 3 (H1 ltac:(intros i j fd t u; by rewrite lookup_empty) ltac:(split; [apply lookup_empty|intros j u; by rewrite lookup_empty]))) as H2.
  rewrite Ht2 in H2. apply H2.
  - intros i j fd t u Hi Hj. apply lookup_insert_Some in Hi as [[<- _]|[_ Hi]], Hj as [[<- _]|[_ Hj]]; done.
  - split; [done|]. intros j u Hj. apply lookup_insert_Some in Hj as [[_ Hj]|[_ Hj]]; done.
Qed.

(** The second has an error pending besides: poll and epoll tell of it, select has it
    read and written. *)
Definition demo_trouble (fd : Z) : Condition := mkCondition (fd =? 4) (fd =? 5) false false false (fd =? 5).
Lemma backends_agree_witness :
  exists p rp s rs e re,
    internal_wait (fun id => demo_watched !! id) (sys_of demo_trouble) 7 (tell_two (new_PollSocketMonitor 8)) = Some (p, rp) /\
    dispatched p rp = [mkpoll_act 4 Triggers.Read; mkpoll_act 5 (Z.lor Triggers.Write Triggers.Error)] /\
    internal_wait (fun id => demo_watched !! id) (sys_of demo_trouble) 7 (tell_two (new_SelectSocketMonitor 8)) = Some (s, rs) /\
    dispatched s rs = [mkpoll_act 4 Triggers.Read; mkpoll_act 5 (Z.lor Triggers.Read Triggers.Write)] /\
    internal_wait (fun id => demo_watched !! id) (sys_of demo_trouble) 7 (tell_two (new_EPollSocketMonitor 8)) = Some (e, re) /\
    dispatched p rp ≡ₚ dispatched e re.
Proof.
  destruct (backends_agree demo_trouble (sys_of demo_trouble) demo_watched (tell_two (new_PollSocketMonitor 8)) (tell_two (new_SelectSocketMonitor 8))
              (tell_two (new_EPollSocketMonitor 8)) (fun id => demo_watched !! id) 7) as (p & rp & s & rs & e & re & Hp & Hs & He & _ & _ & _ & HP).
  - apply sys_of_honest.
  - apply demo_distinct.
  - done.
  - vm_compute. lia.
  - vm_compute. lia.
  - apply demo_shows; [apply poll_shows_new|reflexivity|reflexivity].
  - apply demo_shows; [apply select_shows_new|reflexivity|reflexivity].
  - apply demo_shows; [apply epoll_shows_new|reflexivity|reflexivity].
  - exists p, rp, s, rs, e, re. split_and!; [exact Hp| |exact Hs| |exact He|].
    + clear -Hp. revert Hp. vm_compute. intros [= <- <-]. reflexivity.
    + clear -Hs. revert Hs. vm_compute. intros [= <- <-]. reflexivity.
    + apply HP. intros i x Hi. unfold demo_watched in Hi.
      apply lookup_insert_Some in Hi as [[_ <-]|[_ [[_ <-]|[_ Hi]]%lookup_insert_Some]]; [reflexivity|reflexivity|discriminate Hi].
Defined.

(** A negative time, which the other two take to be none at all, select refuses: the
    microseconds are negative. *)
Lemma select_cannot_wait_forever : timeval (-1) = (0, -1000).
Proof. reflexivity. Qed.
