(* ===== verification/Monitor.v ===== *)
(** * Monitor: [src/io/net/socketmonitor.cpp]

    The registry of monitored sockets and the pass that dispatches to them, over any
    back end that keeps [BackendLaws]. Sockets are objects with a number that stands for
    their address; an object is there while its owner has a reference or a dispatch
    holds one, and following an address to an object that is gone is [None]. What the
    system answers, which sockets hold decrypted input and which timers are due comes
    with the environment, asked at every step of a clock. Handlers may open, monitor,
    close and let go of sockets and wait again: [script] says what each does that is
    called, in their order, and a script of [n] reactions needs a nesting of at most
    [n + 1] calls. *)

From stdpp Require Import gmap.
From S2P Require Import Prelude MonitorBackends.
#[local] Existing Instances poll_backend select_backend epoll_backend poll_laws select_laws epoll_laws.

(** ** Sockets and the world *)

(** What the monitor sees of a socket, with whether it was made by a [create()] factory
    and whether its owner still has it. *)
(* @src src/include/samurai/io/net/socketbase.h:244-259 Samurai::IO::Net::SocketBase *)
Record SocketBase := mkSocketBase {
  sd : Z;
  monitor_trigger : Z;
  monitored : bool;
  shared : bool;
  owned : bool
}.

Definition with_sd (fd : Z) (s : SocketBase) : SocketBase := mkSocketBase fd (monitor_trigger s) (monitored s) (shared s) (owned s).
Definition with_trigger (t : Z) (s : SocketBase) : SocketBase := mkSocketBase (sd s) t (monitored s) (shared s) (owned s).
Definition with_monitored (b : bool) (s : SocketBase) : SocketBase := mkSocketBase (sd s) (monitor_trigger s) b (shared s) (owned s).
Definition released (s : SocketBase) : SocketBase := mkSocketBase (sd s) (monitor_trigger s) (monitored s) (shared s) false.

(** What an application and its handlers do. *)
Inductive Call :=
  | Open (fd : Z) (shared : bool) | Reopen (id : nat) (fd : Z)
  | SetMonitor (id : nat) (trigger : Z) | DisableMonitor (id : nat)
  | Close (id : nat) | Release (id : nat) | Wait (time_ms : Z).

(** What happens, in order. A socket is [Refused] by the monitor, or taken although the
    back end has no room ([Overflow]). *)
Inductive Event :=
  | Watching (id : nat) (fd : Z) | Unwatched (id : nat) | Refused (id : nat) | Overflow (id : nat)
  | Told (id : nat) (fd trigger : Z) | TimerFired | Polled (timeout : Z) | Gone (id : nat).

(** [registry] is ordered by descriptor, as [std::map] is. *)
Record World (B : Type) := mkWorld {
  socks : gmap nat SocketBase;
  next : nat;
  registry : list (Z * nat);
  backend : B;
  held : list nat;
  script : list (list Call);
  tick : nat;
  log : list Event
}.
Arguments mkWorld {B}. Arguments socks {B}. Arguments next {B}. Arguments registry {B}. Arguments backend {B}.
Arguments held {B}. Arguments script {B}. Arguments tick {B}. Arguments log {B}.

(** The rest of the world, at each step. *)
Record Env := mkEnv {
  sys : nat -> Sys;
  bufferedInput : nat -> nat -> bool;
  timeToNext : nat -> Z;
  due : nat -> nat
}.

Fixpoint reg_find (fd : Z) (r : list (Z * nat)) : option nat :=
  match r with [] => None | (k, id) :: r => if k =? fd then Some id else reg_find fd r end.
Fixpoint reg_set (fd : Z) (id : nat) (r : list (Z * nat)) : list (Z * nat) :=
  match r with
  | [] => [(fd, id)]
  | (k, i) :: r => if k =? fd then (fd, id) :: r else if fd <? k then (fd, id) :: (k, i) :: r else (k, i) :: reg_set fd id r
  end.
Definition reg_erase (fd : Z) (r : list (Z * nat)) : list (Z * nat) := List.filter (fun x => negb (x.1 =? fd)) r.

Section monitor.
Context {B : Type} `{BackendLaws B}.
Variable env : Env.
Implicit Types w : World B.

Definition put (id : nat) (s : SocketBase) w : World B :=
  mkWorld (<[id := s]> (socks w)) (next w) (registry w) (backend w) (held w) (script w) (tick w) (log w).
Definition with_watch (r : list (Z * nat)) (b : B) (e : list Event) w : World B :=
  mkWorld (socks w) (next w) r b (held w) (script w) (S (tick w)) (log w ++ e).
Definition with_held (l : list nat) w : World B :=
  mkWorld (socks w) (next w) (registry w) (backend w) l (script w) (tick w) (log w).
Definition with_script (l : list (list Call)) w : World B :=
  mkWorld (socks w) (next w) (registry w) (backend w) (held w) l (tick w) (log w).
Definition say (e : Event) w : World B :=
  mkWorld (socks w) (next w) (registry w) (backend w) (held w) (script w) (S (tick w)) (log w ++ [e]).

(** ** Registration *)

(* @src src/src/io/net/socketmonitor.cpp:49-71 Samurai::IO::Net::SocketMonitor::add *)
Definition add (id : nat) (s : SocketBase) w : World B :=
  if sd s =? INVALID_SOCKET then say (Refused id) w
  else if negb (shared s) then say (Refused id) w
  else
    let ok := has_memory (sys env (tick w)) in
    with_watch (reg_set (sd s) id (registry w)) (internal_add ok id (sd s) (monitor_trigger s) (backend w))
      (Watching id (sd s) :: if takes ok (backend w) then [] else [Overflow id]) w.

(* @src src/src/io/net/socketmonitor.cpp:74-83 Samurai::IO::Net::SocketMonitor::remove *)
Definition remove (id : nat) (s : SocketBase) w : World B :=
  if sd s =? INVALID_SOCKET then w
  else with_watch (reg_erase (sd s) (registry w)) (internal_remove id (sd s) (backend w)) [Unwatched id] w.

(* @src src/src/io/net/socketmonitor.cpp:86-94 Samurai::IO::Net::SocketMonitor::modify *)
Definition modify (id : nat) (s : SocketBase) w : World B :=
  if sd s =? INVALID_SOCKET then w
  else with_watch (registry w) (internal_modify id (sd s) (monitor_trigger s) (backend w)) [] w.

(* @src src/src/io/net/socketbase.cpp:394-404 Samurai::IO::Net::SocketBase::setMonitor *)
Definition setMonitor (id : nat) (trigger : Z) w : option (World B) :=
  s ← socks w !! id;
  let s := with_trigger trigger s in
  Some (if monitored s then modify id s (put id s w)
        else let w := add id s (put id s w) in put id (with_monitored true s) w).

(* @src src/src/io/net/socketbase.cpp:406-413 Samurai::IO::Net::SocketBase::disableMonitor *)
Definition disableMonitor (id : nat) w : option (World B) :=
  s ← socks w !! id;
  Some (if monitored s then put id (with_monitored false s) (remove id s w) else w).

(* @src src/src/io/net/socketbase.cpp:378-392 Samurai::IO::Net::SocketBase::close *)
Definition close (id : nat) w : option (World B) :=
  s ← socks w !! id;
  if sd s =? INVALID_SOCKET then Some w
  else w ← disableMonitor id w;
       s ← socks w !! id;
       Some (put id (with_sd INVALID_SOCKET s) w).

(** Every class closes its descriptor when it is destroyed. *)
(* @src src/src/io/net/socketbase.cpp:47-49 Samurai::IO::Net::SocketBase::~SocketBase *)
Definition destroy (id : nat) w : option (World B) :=
  w ← disableMonitor id w;
  w ← close id w;
  Some (say (Gone id) (mkWorld (delete id (socks w)) (next w) (registry w) (backend w) (held w) (script w) (tick w) (log w))).

(** A reference goes; the last one takes the object with it. *)
Definition drop_if_unused (id : nat) w : option (World B) :=
  s ← socks w !! id;
  if owned s || bool_decide (id ∈ held w) then Some w else destroy id w.
Definition release (id : nat) w : option (World B) :=
  s ← socks w !! id;
  drop_if_unused id (put id (released s) w).
Definition unhold (w0 : list nat) (id : nat) w : option (World B) := drop_if_unused id (with_held w0 w).

(** ** A pass *)

Definition lock (w : World B) (id : nat) : bool := bool_decide (is_Some (socks w !! id)).

(* @src src/src/io/net/socketmonitor.cpp:128-137 Samurai::IO::Net::SocketMonitor::haveBufferedInput *)
Definition haveBufferedInput w : bool := existsb (fun x => lock w x.2 && bufferedInput env (tick w) x.2) (registry w).

(** What [internal_wait] is given. *)
(* @src src/src/io/net/socketmonitor.cpp:102-114 Samurai::IO::Net::SocketMonitor::wait *)
Definition poll_timeout (buffered : bool) (time_ms next : Z) : Z :=
  let timeout := if buffered then 0 else time_ms in
  if buffered then timeout
  else if (0 <=? next) && ((timeout <? 0) || (next <? timeout)) then next else timeout.

Section handlers.
(** What the next handler that is called does. *)
Variable react : World B -> option (World B).

(* @src src/src/io/net/socketmonitor.cpp:160-183 Samurai::IO::Net::SocketMonitor::dispatch *)
Definition dispatch (fd trigger : Z) w : option (World B) :=
  match reg_find fd (registry w) with
  | None => Some w
  | Some id =>
      match socks w !! id with
      | None => Some (mkWorld (socks w) (next w) (reg_erase fd (registry w)) (backend w) (held w) (script w) (tick w) (log w))
      | Some _ =>
          let l := held w in
          w ← react (say (Told id fd trigger) (with_held (id :: l) w));
          unhold l id w
      end
  end.

Fixpoint dispatch_all (l : list poll_act) w : option (World B) :=
  match l with [] => Some w | a :: l => w ← dispatch (a_fd a) (trig a) w; dispatch_all l w end.

(** The monitor's own array is read as the loop goes. *)
Fixpoint dispatch_from (l : list nat) w : option (World B) :=
  match l with
  | [] => Some w
  | n :: l => a ← act_at (backend w) n; w ← dispatch (a_fd a) (trig a) w; dispatch_from l w
  end.

(** The timers that are due call their handlers. *)
Fixpoint process (n : nat) w : option (World B) :=
  match n with O => Some w | S n => w ← react (say TimerFired w); process n w end.

(* @src src/src/io/net/socketmonitor.cpp:140-157 Samurai::IO::Net::SocketMonitor::dispatchBufferedInput *)
Definition dispatchBufferedInput w : option (World B) :=
  let ready := List.filter (fun x => lock w x.2 && bufferedInput env (tick w) x.2) (registry w) in
  dispatch_all ((fun x => mkpoll_act x.1 Triggers.Read) <$> ready) w.

(* @src src/src/io/net/socketmonitor.cpp:97-125 Samurai::IO::Net::SocketMonitor::wait *)
Definition wait (time_ms : Z) w : option (World B) :=
  let timeout := poll_timeout (haveBufferedInput w) time_ms (timeToNext env (tick w)) in
  let w := say (Polled timeout) w in
  x ← internal_wait (fun id => (fun s => (sd s, monitor_trigger s)) <$> socks w !! id) (sys env (tick w)) timeout (backend w);
  let w := with_watch (registry w) x.1 [] w in
  w ← match x.2 with FromAct n => dispatch_from (seq 0 n) w | Collected l => dispatch_all l w end;
  w ← process (due env (tick w)) w;
  dispatchBufferedInput w.
End handlers.

(** ** What may be called *)

Definition fresh (fd : Z) w : bool := negb (fd =? INVALID_SOCKET) && forallb (fun x => negb (sd x.2 =? fd)) (map_to_list (socks w)).

(** The system gives descriptors that nothing has; what is called is the member of an
    object that is there, and its owner lets go of an object once. *)
Definition may (c : Call) w : bool :=
  match c with
  | Open fd _ => fresh fd w
  | Reopen id fd => match socks w !! id with Some s => (sd s =? INVALID_SOCKET) && fresh fd w | None => false end
  | SetMonitor id _ | DisableMonitor id | Close id => bool_decide (is_Some (socks w !! id))
  | Release id => match socks w !! id with Some s => owned s | None => false end
  | Wait _ => true
  end.

Definition open (fd : Z) (sh : bool) w : World B :=
  mkWorld (<[next w := mkSocketBase fd Triggers.None false sh true]> (socks w)) (S (next w)) (registry w) (backend w) (held w) (script w) (tick w) (log w).

Definition call (react : World B -> option (World B)) (c : Call) w : option (World B) :=
  match c with
  | Open fd sh => Some (open fd sh w)
  | Reopen id fd => s ← socks w !! id; Some (put id (with_sd fd s) w)
  | SetMonitor id t => setMonitor id t w
  | DisableMonitor id => disableMonitor id w
  | Close id => close id w
  | Release id => release id w
  | Wait ms => wait react ms w
  end.

Fixpoint run_all (f : Call -> World B -> option (World B)) (l : list Call) w : option (World B) :=
  match l with [] => Some w | c :: l => w ← f c w; run_all f l w end.

(** A handler makes the calls of its script that it may make. *)
Definition reacts (f : Call -> World B -> option (World B)) w : option (World B) :=
  match script w with [] => Some w | cs :: rest => run_all f cs (with_script rest w) end.

Fixpoint perform (n : nat) (c : Call) w : option (World B) :=
  match n with
  | O => None
  | S n => if may c w then call (reacts (perform n)) c w else Some w
  end.

(** ** The invariant *)

(** Who is watched, and on which descriptor, by what was said. *)
Definition note (m : gmap nat Z) (e : Event) : gmap nat Z :=
  match e with Watching id fd => <[id := fd]> m | Unwatched id => delete id m | _ => m end.
Definition replay (l : list Event) : gmap nat Z := fold_left note l ∅.

(** The descriptors and triggers that are to be watched. *)
Definition wanted w : Watched :=
  map_imap (fun id fd => (fun s => (fd, monitor_trigger s)) <$> socks w !! id) (replay (log w)).

(** The back end polls what it is to watch, but for those it once had no room for. *)
Definition polled (b : B) (M : Watched) (l : list Event) : Prop :=
  exists W, shows b W /\ W ⊆ M /\ forall id, is_Some (M !! id) -> W !! id = None -> Overflow id ∈ l.

(** A socket is told of an event on a descriptor only while it is watched on it. *)
Definition told_watched (l : list Event) : Prop :=
  forall l1 id fd t l2, l = l1 ++ Told id fd t :: l2 -> replay l1 !! id = Some fd.

(** What a socket that is watched on [fd] is. *)
Definition watchable (fd : Z) (s : SocketBase) : Prop := monitored s = true /\ sd s = fd /\ fd <> INVALID_SOCKET /\ shared s = true.

Record inv w : Prop := mkinv {
  i_polled : polled (backend w) (wanted w) (log w);
  i_reg fd id : reg_find fd (registry w) = Some id <-> replay (log w) !! id = Some fd;
  i_sds i j s s' : socks w !! i = Some s -> socks w !! j = Some s' -> sd s = sd s' -> sd s <> INVALID_SOCKET -> i = j;
  i_valid i fd : replay (log w) !! i = Some fd -> exists s, socks w !! i = Some s /\ watchable fd s;
  i_deaf i s : socks w !! i = Some s -> monitored s = true -> is_Some (replay (log w) !! i) \/ Refused i ∈ log w;
  i_next i : is_Some (socks w !! i) -> (i < next w)%nat;
  i_held i : i ∈ held w -> is_Some (socks w !! i);
  i_told : told_watched (log w)
}.

(** Every object but those in [D] has somebody who refers to it. *)
Definition alive_but (D : nat -> Prop) w : Prop :=
  forall i s, socks w !! i = Some s -> ~ D i -> owned s = true \/ i ∈ held w.
Definition good w : Prop := inv w /\ alive_but (fun _ => False) w.

Definition same_owners w w' : Prop := forall i, owned <$> socks w' !! i = owned <$> socks w !! i.

(** What a step leaves as it was. *)
Record kept w w' : Prop := mkkept {
  k_held : held w' = held w;
  k_script : (length (script w') <= length (script w))%nat;
  k_acts : acts (backend w') = acts (backend w)
}.

(** ** Registers and what is wanted *)

Lemma find_set fd fd' id r : reg_find fd' (reg_set fd id r) = if fd =? fd' then Some id else reg_find fd' r.
Proof.
  induction r as [|[k i] r IH]; cbn [reg_set reg_find]; [done|].
  destruct (Z.eqb_spec k fd) as [->|Hk]; cbn [reg_find].
  - by destruct (Z.eqb_spec fd fd').
  - destruct (Z.ltb_spec fd k); cbn [reg_find]; [done|]. rewrite IH.
    destruct (Z.eqb_spec k fd') as [->|]; [|done]. by rewrite (proj2 (Z.eqb_neq fd fd')).
Qed.

Lemma find_erase fd fd' r : reg_find fd' (reg_erase fd r) = if fd =? fd' then None else reg_find fd' r.
Proof.
  unfold reg_erase. induction r as [|[k i] r IH]; cbn [List.filter reg_find fst]; [by destruct (fd =? fd')|].
  destruct (Z.eqb_spec k fd) as [->|Hk]; cbn [negb reg_find]; rewrite IH.
  - by destruct (Z.eqb_spec fd fd').
  - destruct (Z.eqb_spec k fd') as [->|]; [|done]. by rewrite (proj2 (Z.eqb_neq fd fd')).
Qed.

Lemma wanted_lookup w id : wanted w !! id = replay (log w) !! id ≫= fun fd => (fun s => (fd, monitor_trigger s)) <$> socks w !! id.
Proof. apply map_lookup_imap. Qed.

Lemma wanted_Some w id fd t : inv w ->
  wanted w !! id = Some (fd, t) <-> exists s, replay (log w) !! id = Some fd /\ socks w !! id = Some s /\ watchable fd s /\ t = monitor_trigger s.
Proof.
  intros I. rewrite wanted_lookup. split.
  - destruct (replay (log w) !! id) as [f|] eqn:Er; [|done]. cbn. destruct (socks w !! id) as [s|] eqn:Es; [|done]. intros [= -> <-].
    exists s. destruct (i_valid _ I id fd Er) as (s' & Hs' & Hw). by replace s with s' by congruence.
  - intros (s & -> & Hs & _ & ->). cbn. by rewrite Hs.
Qed.

Lemma wanted_watched w id fd : inv w -> replay (log w) !! id = Some fd -> exists t, wanted w !! id = Some (fd, t).
Proof.
  intros I Hr. destruct (i_valid _ I id fd Hr) as (s & Hs & Hw). exists (monitor_trigger s). apply wanted_Some; [done|]. by exists s.
Qed.

Lemma wanted_none w id : replay (log w) !! id = None -> wanted w !! id = None.
Proof. rewrite wanted_lookup. by intros ->. Qed.

Lemma wanted_distinct w : inv w -> distinct (wanted w).
Proof.
  intros I i j fd t u Hi Hj. apply (wanted_Some w i fd t I) in Hi as (s & _ & Hs & (_ & E & Hne & _) & _).
  apply (wanted_Some w j fd u I) in Hj as (s' & _ & Hs' & (_ & E' & _) & _). apply (i_sds _ I i j s s'); congruence.
Qed.

(** A socket that is not watched, and its descriptor, are not in the way. *)
Lemma wanted_unheld w id s : inv w -> socks w !! id = Some s -> sd s <> INVALID_SOCKET -> replay (log w) !! id = None -> unheld (wanted w) id (sd s).
Proof.
  intros I Hs Hne Hr. split; [by apply wanted_none|]. intros j u Hj. apply (wanted_Some w j _ u I) in Hj as (s' & Hr' & Hs' & (_ & E & _) & _).
  assert (id = j) as <- by (by apply (i_sds _ I id j s s')). congruence.
Qed.

(** ** What the back end polls *)

Lemma distinct_subseteq (W M : Watched) : W ⊆ M -> distinct M -> distinct W.
Proof. intros HW HD i j fd t u Hi Hj. apply (HD i j fd t u); by apply (lookup_weaken _ _ _ _ Hi HW) || by apply (lookup_weaken _ _ _ _ Hj HW). Qed.

Lemma unheld_subseteq (W M : Watched) id fd : W ⊆ M -> unheld M id fd -> unheld W id fd.
Proof.
  intros HW [HN Hf]. split; [by apply (lookup_weaken_None _ _ _ HN HW)|]. intros j u Hj. by apply (Hf j u), (lookup_weaken _ _ _ _ Hj HW).
Qed.

Lemma polled_more b M l l' : polled b M l -> (forall id, Overflow id ∈ l -> Overflow id ∈ l') -> polled b M l'.
Proof. intros (W & HS & HW & HO) Hl. exists W. split; [done|]. split; [done|]. intros id Hi Hn. by apply Hl, HO. Qed.

Lemma polled_add ok b M l id fd t : polled b M l -> distinct M -> unheld M id fd ->
  polled (internal_add ok id fd t b) (<[id := (fd, t)]> M) (l ++ Watching id fd :: if takes ok b then [] else [Overflow id]).
Proof.
  intros (W & HS & HW & HO) HD HN. pose proof (unheld_subseteq W M id fd HW HN) as HNW.
  pose proof (shows_add b W ok id fd t HS (distinct_subseteq _ _ HW HD) HNW) as HA.
  eexists. split; [exact HA|]. destruct (takes ok b).
  - split; [by apply insert_mono|]. intros j Hj Hn. apply lookup_insert_None in Hn as [Hn Hne].
    rewrite lookup_insert_ne in Hj by done. apply elem_of_app. left. by apply HO.
  - split; [etrans; [exact HW|apply insert_subseteq, HN]|]. intros j Hj Hn. apply elem_of_app.
    destruct (decide (j = id)) as [->|Hne]; [right; by right; left|left]. rewrite lookup_insert_ne in Hj by done. by apply HO.
Qed.

Lemma polled_modify b M l id fd t t0 : polled b M l -> distinct M -> M !! id = Some (fd, t0) ->
  polled (internal_modify id fd t b) (<[id := (fd, t)]> M) l.
Proof.
  intros (W & HS & HW & HO) HD HM. destruct (W !! id) as [x|] eqn:Hx.
  - assert (x = (fd, t0)) as -> by (pose proof (lookup_weaken _ _ _ _ Hx HW); congruence).
    exists (<[id := (fd, t)]> W). split; [apply shows_modify with t0; [done|by eapply distinct_subseteq|done]|].
    split; [by apply insert_mono|]. intros j Hj Hn. apply lookup_insert_None in Hn as [Hn Hne].
    rewrite lookup_insert_ne in Hj by done. by apply HO.
  - exists W. split; [|split; [by apply insert_subseteq_r|]].
    + apply shows_absent; [done|]. split; [done|]. intros j u Hj. pose proof (lookup_weaken _ _ _ _ Hj HW) as HMj.
      assert (id = j) as <- by (by eapply (HD id j)). congruence.
    + intros j Hj Hn. apply HO; [|done]. destruct (decide (j = id)) as [->|Hne]; [by rewrite HM|by rewrite lookup_insert_ne in Hj].
Qed.

Lemma polled_remove b M l id fd t : polled b M l -> distinct M -> M !! id = Some (fd, t) -> fd <> INVALID_SOCKET ->
  polled (internal_remove id fd b) (delete id M) (l ++ [Unwatched id]).
Proof.
  intros (W & HS & HW & HO) HD HM Hfd. apply polled_more with l; [|intros j Hj; apply elem_of_app; by left].
  exists (delete id W). split; [|split; [by apply delete_mono|]].
  - destruct (W !! id) as [x|] eqn:Hx.
    + assert (x = (fd, t)) as -> by (pose proof (lookup_weaken _ _ _ _ Hx HW); congruence).
      apply shows_remove with t; [done|by eapply distinct_subseteq|done|done].
    + rewrite delete_id by done. apply (shows_absent b W id fd 0); [done|]. split; [done|].
      intros j u Hj. pose proof (lookup_weaken _ _ _ _ Hj HW) as HMj. assert (id = j) as <- by (by eapply (HD id j)). congruence.
  - intros j Hj Hn. destruct (decide (j = id)) as [->|Hne]; [by rewrite lookup_delete_eq in Hj; destruct Hj|].
    rewrite lookup_delete_ne in Hj, Hn by done. by apply HO.
Qed.

Lemma polled_absent b M l l' id fd t : polled b M l -> unheld M id fd -> (forall i, Overflow i ∈ l -> Overflow i ∈ l') ->
  polled (internal_modify id fd t b) M l' /\ polled (internal_remove id fd b) M l'.
Proof.
  intros (W & HS & HW & HO) HN Hl. destruct (shows_absent b W id fd t HS (unheld_subseteq _ _ _ _ HW HN)) as [H1 H2].
  split; exists W; (split; [done|]); (split; [done|]); intros j Hj Hn; by apply Hl, HO.
Qed.

(** ** The log *)

Lemma replay_snoc l e : replay (l ++ [e]) = note (replay l) e.
Proof. unfold replay. by rewrite fold_left_app. Qed.

Lemma told_snoc l e :
  told_watched l -> (forall id fd t, e = Told id fd t -> replay l !! id = Some fd) -> told_watched (l ++ [e]).
Proof.
  intros HL He l1 id fd t l2 E. destruct l2 as [|x l2 _] using rev_ind.
  - apply app_inj_tail in E as [-> ->]. by apply (He id fd t).
  - rewrite app_comm_cons, (assoc_L (++)) in E. apply app_inj_tail in E as [E _]. by apply (HL l1 id fd t l2).
Qed.

(** A step that changes one socket. *)
Lemma inv_change w id s s' r b n e :
  inv w -> socks w !! id = Some s -> sd s' = sd s \/ sd s' = INVALID_SOCKET -> told_watched (log w ++ e) ->
  (forall x, x ∈ log w -> x ∈ log w ++ e) ->
  (forall j, j <> id -> replay (log w ++ e) !! j = replay (log w) !! j) ->
  (forall fd, replay (log w ++ e) !! id = Some fd -> watchable fd s') ->
  (monitored s' = true -> is_Some (replay (log w ++ e) !! id) \/ Refused id ∈ log w ++ e) ->
  (forall fd j, reg_find fd r = Some j <-> replay (log w ++ e) !! j = Some fd) ->
  polled b (match replay (log w ++ e) !! id with Some fd => <[id := (fd, monitor_trigger s')]> (wanted w) | None => delete id (wanted w) end) (log w ++ e) ->
  inv (mkWorld (<[id := s']> (socks w)) (next w) r b (held w) (script w) n (log w ++ e)).
Proof.
  intros I Hs Hsd Ht Hl Hother Hv Hdeaf Hreg Hp. set (w' := mkWorld _ _ _ _ _ _ _ _).
  assert (E : wanted w' = match replay (log w ++ e) !! id with Some fd => <[id := (fd, monitor_trigger s')]> (wanted w) | None => delete id (wanted w) end).
  { apply map_eq. intros j. rewrite wanted_lookup. cbn [log socks w']. destruct (decide (j = id)) as [->|Hne].
    - rewrite lookup_insert_eq. destruct (replay (log w ++ e) !! id); cbn; [by rewrite lookup_insert_eq|by rewrite lookup_delete_eq].
    - rewrite Hother, lookup_insert_ne, <- wanted_lookup by done.
      destruct (replay (log w ++ e) !! id); [by rewrite lookup_insert_ne|by rewrite lookup_delete_ne]. }
  constructor; rewrite ?E; try done; cbn [log socks registry next held w'].
  - intros i j q q' [[<- <-]|[Hi Hr]]%lookup_insert_Some [[<- <-]|[Hj Hr']]%lookup_insert_Some Eq Hne; try done.
    + destruct Hsd as [Hsd|]; [|done]. apply (i_sds _ I id j s q'); congruence.
    + destruct Hsd as [Hsd|Hsd]; [|congruence]. apply (i_sds _ I i id q s); congruence.
    + by apply (i_sds _ I i j q q').
  - intros i fd Hr. destruct (decide (i = id)) as [->|Hne]; [exists s'; split; [apply lookup_insert_eq|by apply Hv]|].
    rewrite Hother in Hr by done. rewrite lookup_insert_ne by done. by apply (i_valid _ I).
  - intros i q [[<- <-]|[Hi Hq]]%lookup_insert_Some Hm; [by apply Hdeaf|]. rewrite Hother by done.
    destruct (i_deaf _ I i q Hq Hm) as [|Hd]; [by left|right; by apply Hl].
  - intros i [<-|[_ Hi]]%lookup_insert_is_Some; [apply (i_next _ I); by exists s|by apply (i_next _ I)].
  - intros i Hi. rewrite lookup_insert_is_Some'. right. by apply (i_held _ I).
Qed.

Lemma put_owner w id s s' : socks w !! id = Some s -> owned s' = owned s -> forall i, owned <$> <[id := s']> (socks w) !! i = owned <$> socks w !! i.
Proof.
  intros Hs Ho i. destruct (decide (i = id)) as [->|Hne]; [by rewrite lookup_insert_eq, Hs; cbn; rewrite Ho|by rewrite lookup_insert_ne].
Qed.

(** The same, where nothing is said and the monitor is not told. *)
Lemma monitor_inv_put w id s s' :
  inv w -> socks w !! id = Some s -> sd s' = sd s \/ sd s' = INVALID_SOCKET ->
  (forall fd, replay (log w) !! id = Some fd -> watchable fd s' /\ monitor_trigger s' = monitor_trigger s) ->
  (monitored s' = true -> monitored s = true) -> inv (put id s' w).
Proof.
  intros I Hs Hsd Hv Hm.
  pose proof (inv_change w id s s' (registry w) (backend w) (tick w) [] I Hs Hsd) as HI. rewrite app_nil_r in HI. apply HI; try done.
  - apply I.
  - intros fd Hr. by apply Hv.
  - intros Hx. apply (i_deaf _ I id s Hs). by apply Hm.
  - apply I.
  - destruct (replay (log w) !! id) as [fd|] eqn:Hr.
    + rewrite insert_id; [apply I|]. apply wanted_Some; [done|]. destruct (Hv fd eq_refl) as [Hw Ht]. exists s.
      destruct (i_valid _ I id fd Hr) as (s0 & Hs0 & Hw0). replace s0 with s in Hw0 by congruence. by rewrite Ht.
    + rewrite delete_id by (by apply wanted_none). apply I.
Qed.

Lemma monitor_inv_say w e : inv w -> (forall id fd, e <> Watching id fd) -> (forall id, e <> Unwatched id) ->
  (forall id fd t, e = Told id fd t -> replay (log w) !! id = Some fd) -> inv (say e w).
Proof.
  intros I HW HU HT.
  assert (Er : replay (log w ++ [e]) = replay (log w)).
  { rewrite replay_snoc. destruct e; try done; [by destruct (HW id fd)|by destruct (HU id)]. }
  assert (Ew : wanted (say e w) = wanted w) by (apply map_eq; intros j; rewrite !wanted_lookup; cbn [log socks say]; by rewrite Er).
  constructor; rewrite ?Ew; cbn [log socks registry next held say backend]; rewrite ?Er; try apply I.
  - apply polled_more with (log w); [apply I|]. intros j Hj. apply elem_of_app. by left.
  - intros i s Hs Hm. destruct (i_deaf _ I i s Hs Hm) as [|Hd]; [by left|right]. apply elem_of_app. by left.
  - apply told_snoc; [apply I|done].
Qed.

Lemma inv_script w l : inv w -> inv (with_script l w).
Proof. intros []. by constructor. Qed.

Lemma kept_refl w : kept w w.
Proof. done. Qed.

Lemma monitor_kept_trans w1 w2 w3 : kept w1 w2 -> kept w2 w3 -> kept w1 w3.
Proof. intros [] []. constructor; [congruence|lia|congruence]. Qed.

(** ** Each step keeps it *)

Lemma elem_of_more (l e : list Event) x : x ∈ l -> x ∈ l ++ e.
Proof. intros Hx. apply elem_of_app. by left. Qed.

(** [modify] on a socket that was given a new trigger. *)
Lemma modify_ok id t w s : inv w -> socks w !! id = Some s -> monitored s = true ->
  inv (modify id (with_trigger t s) (put id (with_trigger t s) w)).
Proof.
  intros I Hs Hm. unfold modify. change (sd (with_trigger t s)) with (sd s). destruct (Z.eqb_spec (sd s) INVALID_SOCKET) as [E|E].
  - apply monitor_inv_put with s; [done|done|by left| |done]. intros fd Hr. destruct (i_valid _ I id fd Hr) as (s0 & Hs0 & _ & E0 & Hne & _). congruence.
  - pose proof (inv_change w id s (with_trigger t s) (registry w) (internal_modify id (sd s) t (backend w)) (S (tick w)) [] I Hs (or_introl eq_refl)) as HI.
    apply HI; clear HI; rewrite ?app_nil_r; try done; try (by apply I).
    + intros fd Hr. destruct (i_valid _ I id fd Hr) as (s0 & Hs0 & Hw). by replace s with s0 by congruence.
    + intros _. by apply (i_deaf _ I id s).
    + destruct (replay (log w) !! id) as [fd|] eqn:Hr.
      * destruct (i_valid _ I id fd Hr) as (s0 & Hs0 & Hw). replace s0 with s in Hw by congruence. pose proof Hw as (_ & E0 & _). rewrite E0.
        apply polled_modify with (monitor_trigger s); [apply I|by apply wanted_distinct|]. apply wanted_Some; [done|]. by exists s.
      * rewrite delete_id by (by apply wanted_none). apply polled_absent with (log w); [apply I|by apply wanted_unheld|done].
Qed.

(** [add] and what [setMonitor] does after it. *)
Lemma add_ok id t w s : inv w -> socks w !! id = Some s -> monitored s = false ->
  inv (put id (with_monitored true (with_trigger t s)) (add id (with_trigger t s) (put id (with_trigger t s) w))).
Proof.
  intros I Hs Hm. set (s' := with_monitored true (with_trigger t s)).
  assert (Hr : replay (log w) !! id = None).
  { destruct (replay (log w) !! id) as [fd|] eqn:Hr; [|done]. destruct (i_valid _ I id fd Hr) as (s0 & Hs0 & Hm0 & _). congruence. }
  assert (Hrefused : inv (put id s' (say (Refused id) (put id (with_trigger t s) w)))).
  { unfold put, say. cbn. rewrite insert_insert_eq.
    assert (Er : replay (log w ++ [Refused id]) = replay (log w)) by (by rewrite replay_snoc).
    apply inv_change with s; rewrite ?Er; try done; [by left|apply told_snoc; [apply I|done]|apply elem_of_more| | |apply I|].
    - intros fd. by rewrite Hr.
    - intros _. right. apply elem_of_app. right. by left.
    - rewrite Hr, delete_id by (by apply wanted_none). apply polled_more with (log w); [apply I|]. intros j. apply elem_of_more. }
  unfold add. change (sd (with_trigger t s)) with (sd s). change (shared (with_trigger t s)) with (shared s).
  destruct (Z.eqb_spec (sd s) INVALID_SOCKET) as [E|E]; [done|]. destruct (shared s) eqn:Hsh; cbn [negb]; [|done].
  unfold put, with_watch. cbn. rewrite insert_insert_eq. set (ok := has_memory _). set (e := Watching id (sd s) :: _).
  assert (Er : replay (log w ++ e) = <[id := sd s]> (replay (log w))).
  { unfold e. change (Watching id (sd s) :: ?l) with ([Watching id (sd s)] ++ l). rewrite (assoc_L (++)).
    destruct (takes ok (backend w)); [by rewrite app_nil_r, replay_snoc|by rewrite !replay_snoc]. }
  apply inv_change with s; rewrite ?Er; try done; [by left| |apply elem_of_more| | | | |].
  - unfold e. change (Watching id (sd s) :: ?l) with ([Watching id (sd s)] ++ l). rewrite (assoc_L (++)).
    assert (told_watched (log w ++ [Watching id (sd s)])) by (apply told_snoc; [apply I|done]).
    destruct (takes ok (backend w)); [by rewrite app_nil_r|by apply told_snoc].
  - intros j Hj. by rewrite lookup_insert_ne.
  - intros fd. rewrite lookup_insert_eq. intros [= <-]. done.
  - intros _. left. rewrite lookup_insert_eq. by eexists.
  - intros fd j. rewrite find_set. destruct (Z.eqb_spec (sd s) fd) as [<-|Hne].
    + split; [intros [= <-]; apply lookup_insert_eq|]. intros [[<- _]|[Hj Hx]]%lookup_insert_Some; [done|].
      destruct (i_valid _ I j _ Hx) as (s0 & Hs0 & _ & E0 & _). destruct Hj. by apply (i_sds _ I id j s s0).
    + rewrite (i_reg _ I). split; intros Hx.
      * rewrite lookup_insert_ne; [done|]. intros <-. congruence.
      * by apply lookup_insert_Some in Hx as [[_ Hx]|[_ Hx]].
  - rewrite lookup_insert_eq. apply polled_add; [apply I|by apply wanted_distinct|by apply wanted_unheld].
Qed.

Lemma setMonitor_ok id t w s : inv w -> socks w !! id = Some s ->
  exists w', setMonitor id t w = Some w' /\ inv w' /\ kept w w' /\ same_owners w w'.
Proof.
  intros I Hs. unfold setMonitor. rewrite Hs. cbn [mbind option_bind]. change (monitored (with_trigger t s)) with (monitored s).
  destruct (monitored s) eqn:Hm; (eexists; split; [reflexivity|]); split_and!.
  - by apply modify_ok.
  - unfold modify. case_match; [done|]. constructor; cbn; [done|lia|]. apply acts_kept; exact true.
  - intros i. unfold modify. case_match; exact (put_owner w id s (with_trigger t s) Hs eq_refl i).
  - by apply add_ok.
  - unfold add. case_match; [done|]. case_match; [done|]. constructor; cbn; [done|lia|]. apply acts_kept.
  - intros i. assert (Hput : owned <$> <[id := with_monitored true (with_trigger t s)]> (<[id := with_trigger t s]> (socks w)) !! i = owned <$> socks w !! i)
      by (rewrite insert_insert_eq; by apply put_owner with s).
    unfold add. repeat case_match; exact Hput.
Qed.


Lemma unwatched_monitored w id s : inv w -> socks w !! id = Some s -> monitored s = false -> replay (log w) !! id = None.
Proof.
  intros I Hs Hm. destruct (replay (log w) !! id) as [fd|] eqn:Hr; [|done]. destruct (i_valid _ I id fd Hr) as (s0 & Hs0 & Hm0 & _). congruence.
Qed.

Lemma with_monitored_same s : monitored s = false -> with_monitored false s = s.
Proof. destruct s. cbn. by intros ->. Qed.

Lemma disableMonitor_ok id w s :
  inv w -> socks w !! id = Some s ->
  exists w', disableMonitor id w = Some w' /\ inv w' /\ kept w w' /\ socks w' = <[id := with_monitored false s]> (socks w) /\
    replay (log w') !! id = None.
Proof.
  intros I Hs. unfold disableMonitor. rewrite Hs. cbn [mbind option_bind]. destruct (monitored s) eqn:Em.
  2: { exists w. rewrite with_monitored_same, insert_id by done. split_and!; try done. by apply unwatched_monitored with s. }
  eexists. split; [reflexivity|]. unfold remove. destruct (Z.eqb_spec (sd s) INVALID_SOCKET) as [E|E].
  - assert (Hr : replay (log w) !! id = None).
    { destruct (replay (log w) !! id) as [fd|] eqn:Hr; [|done]. destruct (i_valid _ I id fd Hr) as (s0 & Hs0 & _ & E0 & Hne & _). congruence. }
    split_and!; try done. apply monitor_inv_put with s; [done|done|by left| |done]. intros fd. by rewrite Hr.
  - assert (Er : replay (log w ++ [Unwatched id]) = delete id (replay (log w))) by (by rewrite replay_snoc).
    split_and!; [|constructor; cbn; [done|lia|apply acts_kept; exact true || exact 0]|done|cbn [log with_watch put]; by rewrite Er, lookup_delete_eq].
    apply (inv_change w id s (with_monitored false s) (reg_erase (sd s) (registry w)) _ (S (tick w)) [Unwatched id]); rewrite ?Er; try done; [by left|apply told_snoc; [apply I|done]|apply elem_of_more| | | |].
    + intros j Hj. by rewrite lookup_delete_ne.
    + intros fd. by rewrite lookup_delete_eq.
    + intros fd j. rewrite find_erase. destruct (Z.eqb_spec (sd s) fd) as [<-|Hne].
      * split; [done|]. intros [Hj Hx]%lookup_delete_Some. destruct (i_valid _ I j _ Hx) as (s0 & Hs0 & _ & E0 & _).
        destruct Hj. by apply (i_sds _ I id j s s0).
      * rewrite (i_reg _ I). split; intros Hx.
        -- apply lookup_delete_Some. split; [|done]. intros <-. destruct (i_valid _ I id _ Hx) as (s0 & Hs0 & _ & E0 & _). congruence.
        -- by apply lookup_delete_Some in Hx as [_ Hx].
    + rewrite lookup_delete_eq. destruct (replay (log w) !! id) as [fd|] eqn:Hr.
      * destruct (i_valid _ I id fd Hr) as (s0 & Hs0 & Hw). replace s0 with s in Hw by congruence. pose proof Hw as (_ & E0 & Hne & _). rewrite E0.
        apply polled_remove with (monitor_trigger s); [apply I|by apply wanted_distinct| |done]. apply wanted_Some; [done|]. by exists s.
      * rewrite delete_id by (by apply wanted_none). apply (polled_absent (backend w) (wanted w) (log w) _ id (sd s) 0); [apply I|by apply wanted_unheld|].
        intros i. apply elem_of_more.
Qed.

Lemma close_ok id w s :
  inv w -> socks w !! id = Some s ->
  exists w' s', close id w = Some w' /\ inv w' /\ kept w w' /\ socks w' = <[id := s']> (socks w) /\ owned s' = owned s /\
    (replay (log w) !! id = None -> replay (log w') !! id = None).
Proof.
  intros I Hs. unfold close. rewrite Hs. cbn [mbind option_bind]. destruct (Z.eqb_spec (sd s) INVALID_SOCKET) as [E|E].
  - exists w, s. rewrite insert_id by done. done.
  - destruct (disableMonitor_ok id w s I Hs) as (w' & Hw & I' & K & Hsk & Hr). rewrite Hw. cbn [mbind option_bind].
    assert (Hs' : socks w' !! id = Some (with_monitored false s)) by (rewrite Hsk; apply lookup_insert_eq).
    rewrite Hs'. cbn [mbind option_bind]. eexists _, (with_sd INVALID_SOCKET (with_monitored false s)). split; [reflexivity|].
    split_and!; [|by destruct K; constructor|cbn; by rewrite Hsk, insert_insert_eq|done|done].
    apply monitor_inv_put with (with_monitored false s); [done|done|by right| |done]. intros fd. by rewrite Hr.
Qed.

Lemma destroy_ok id w s :
  inv w -> socks w !! id = Some s -> id ∉ held w -> alive_but (eq id) w ->
  exists w', destroy id w = Some w' /\ good w' /\ kept w w'.
Proof.
  intros I Hs Hh HA. unfold destroy.
  destruct (disableMonitor_ok id w s I Hs) as (w1 & -> & I1 & K1 & E1 & R1). cbn [mbind option_bind].
  assert (H1 : socks w1 !! id = Some (with_monitored false s)) by (rewrite E1; apply lookup_insert_eq).
  destruct (close_ok id w1 _ I1 H1) as (w2 & s2 & -> & I2 & K2 & E2 & _ & R2). cbn [mbind option_bind]. specialize (R2 R1).
  assert (E : delete id (socks w2) = delete id (socks w)) by (by rewrite E2, E1, insert_insert_eq, delete_insert_eq).
  assert (Hheld : held w2 = held w) by (rewrite (k_held _ _ K2); apply K1).
  eexists. split; [reflexivity|]. set (w3 := mkWorld _ _ _ _ _ _ _ _).
  assert (Ew : wanted w3 = wanted w2).
  { apply map_eq. intros j. rewrite !wanted_lookup. unfold w3. cbn [log socks]. destruct (decide (j = id)) as [->|Hne]; [by rewrite R2|].
    by rewrite lookup_delete_ne. }
  assert (I3 : inv w3).
  { constructor; rewrite ?Ew; try apply I2; unfold w3; cbn [log socks registry next held].
    - intros i j r r' [_ Hi]%lookup_delete_Some [_ Hj]%lookup_delete_Some. by apply (i_sds _ I2 i j r r').
    - intros i fd Hr. rewrite lookup_delete_ne by (intros <-; congruence). by apply (i_valid _ I2).
    - intros i r [_ Hi]%lookup_delete_Some. by apply (i_deaf _ I2 i r).
    - intros i [r [_ Hi]%lookup_delete_Some]. apply (i_next _ I2). by exists r.
    - intros i Hi. rewrite Hheld in Hi. rewrite E. rewrite lookup_delete_ne by (by intros <-). by apply (i_held _ I). }
  split; [split; [by apply monitor_inv_say|]|].
  - intros i r Hi _. cbn in Hi. rewrite E in Hi. apply lookup_delete_Some in Hi as [Hne Hi]. cbn. rewrite Hheld. by apply (HA i r).
  - pose proof (monitor_kept_trans _ _ _ K1 K2) as [Kh Ks Ka]. constructor; cbn; [done|lia|done].
Qed.

Lemma drop_if_unused_ok id w s :
  inv w -> socks w !! id = Some s -> alive_but (eq id) w ->
  exists w', drop_if_unused id w = Some w' /\ good w' /\ kept w w'.
Proof.
  intros I Hs HA. unfold drop_if_unused. rewrite Hs. cbn [mbind option_bind].
  destruct (owned s || bool_decide (id ∈ held w)) eqn:E.
  - exists w. split; [done|]. split; [split; [done|]|done]. intros i r Hi _. destruct (decide (i = id)) as [->|Hne]; [|apply (HA i r Hi); congruence].
    assert (r = s) as -> by congruence. apply orb_true_iff in E as [E|E%bool_decide_eq_true]; auto.
  - apply orb_false_iff in E as [_ E%bool_decide_eq_false]. by apply destroy_ok with s.
Qed.

Lemma release_ok id w s : good w -> socks w !! id = Some s -> exists w', release id w = Some w' /\ good w' /\ kept w w'.
Proof.
  intros [I HA] Hs. unfold release. rewrite Hs. cbn [mbind option_bind].
  destruct (drop_if_unused_ok id (put id (released s) w) (released s)) as (w' & Hw & G & K).
  - apply monitor_inv_put with s; [done|done|by left| |done]. intros fd Hr.
    destruct (i_valid _ I id fd Hr) as (s0 & Hs0 & Hw0). by replace s with s0 by congruence.
  - apply lookup_insert_eq.
  - intros i r Hi Hne. cbn in Hi. rewrite lookup_insert_ne in Hi by done. apply (HA i r Hi). tauto.
  - exists w'. split_and!; try done. by destruct K; constructor.
Qed.

Lemma same_owners_alive D w w' : same_owners w w' -> held w' = held w -> alive_but D w -> alive_but D w'.
Proof.
  intros HO Hh HA i r Hi HD. specialize (HO i). rewrite Hi in HO. cbn in HO.
  destruct (socks w !! i) as [s|] eqn:Hs; [|done]. injection HO as ->. rewrite Hh. by apply (HA i s).
Qed.

(** ** A pass tells each socket in its turn *)

(** What is asked of a handler. *)
Definition reacts_well (n : nat) (react : World B -> option (World B)) : Prop :=
  forall w, good w -> (length (script w) <= n)%nat -> exists w', react w = Some w' /\ good w' /\ kept w w'.

Section pass.
Variable n : nat.
Variable react : World B -> option (World B).
Hypothesis R : reacts_well n react.

Lemma good_held w l : good w -> (forall i, i ∈ held w -> i ∈ l) -> (forall i, i ∈ l -> is_Some (socks w !! i)) -> good (with_held l w).
Proof.
  intros [I HA] Hl Hs. split.
  - destruct I. by constructor.
  - intros i s Hi _. destruct (HA i s Hi) as [Ho|Hh]; [tauto|by left|right; by apply Hl].
Qed.

Lemma dispatch_ok fd t w :
  good w -> (length (script w) <= n)%nat -> exists w', dispatch react fd t w = Some w' /\ good w' /\ kept w w'.
Proof.
  intros G Hn. pose proof G as [I HA]. unfold dispatch. destruct (reg_find fd (registry w)) as [id|] eqn:Ef; [|by exists w].
  apply (i_reg _ I) in Ef. pose proof (i_valid _ I id fd Ef) as (s & Hs & _). rewrite Hs.
  assert (G1 : good (say (Told id fd t) (with_held (id :: held w) w))).
  { assert (G0 : good (with_held (id :: held w) w)).
    { apply good_held; [done|intros i; by right|]. intros i [->|Hi]%elem_of_cons; [by exists s|by apply (i_held _ I)]. }
    destruct G0 as [I0 A0]. split; [|exact A0]. apply monitor_inv_say; try done. intros i fd' t' [= <- <- <-].
    exact Ef. }
  destruct (R _ G1) as (w1 & -> & [I1 A1] & [Kh Ks Ka]); [cbn; lia|]. cbn [mbind option_bind]. cbn in Kh, Ks, Ka.
  destruct (i_held _ I1 id) as [s1 Hs1]; [rewrite Kh; by left|]. unfold unhold.
  destruct (drop_if_unused_ok id (with_held (held w) w1) s1) as (w2 & -> & G2 & [Kh2 Ks2 Ka2]).
  - destruct I1. constructor; try done. intros i Hi. apply i_held0. rewrite Kh. by right.
  - done.
  - intros i r Hi Hne. destruct (A1 i r Hi) as [Ho|Hh]; [tauto|by left|right]. cbn. rewrite Kh in Hh.
    apply elem_of_cons in Hh as [->|Hh]; [by destruct Hne|done].
  - exists w2. split_and!; try done. constructor; cbn in *; [done|lia|congruence].
Qed.

Lemma dispatch_all_ok l w :
  good w -> (length (script w) <= n)%nat -> exists w', dispatch_all react l w = Some w' /\ good w' /\ kept w w'.
Proof.
  revert w. induction l as [|a l IH]; intros w G Hn; cbn [dispatch_all]; [by exists w|].
  destruct (dispatch_ok (a_fd a) (trig a) w G Hn) as (w1 & -> & G1 & K1). cbn [mbind option_bind].
  destruct (IH w1 G1) as (w2 & -> & G2 & K2); [pose proof (k_script _ _ K1); lia|].
  exists w2. split_and!; try done. by eapply monitor_kept_trans.
Qed.

Lemma dispatch_from_ok l w :
  good w -> (length (script w) <= n)%nat -> Forall (fun i => (i < acts (backend w))%nat) l ->
  exists w', dispatch_from react l w = Some w' /\ good w' /\ kept w w'.
Proof.
  revert w. induction l as [|i l IH]; intros w G Hn HF; cbn [dispatch_from]; [by exists w|].
  apply Forall_cons in HF as [Hi HF]. destruct (i_polled _ (proj1 G)) as (W & HW & _).
  destruct (act_there _ _ i HW Hi) as [a Ha]. rewrite Ha. cbn [mbind option_bind].
  destruct (dispatch_ok (a_fd a) (trig a) w G Hn) as (w1 & -> & G1 & K1). cbn [mbind option_bind].
  destruct (IH w1 G1) as (w2 & -> & G2 & K2); [pose proof (k_script _ _ K1); lia|by rewrite (k_acts _ _ K1)|].
  exists w2. split_and!; try done. by eapply monitor_kept_trans.
Qed.

Lemma say_good e w : good w -> (forall id fd, e <> Watching id fd) -> (forall id, e <> Unwatched id) -> (forall id fd t, e <> Told id fd t) -> good (say e w).
Proof. intros [I HA] H1 H2 H3. split; [|exact HA]. apply monitor_inv_say; try done. intros id fd t ->. by destruct (H3 id fd t). Qed.

Lemma process_ok k w :
  good w -> (length (script w) <= n)%nat -> exists w', process react k w = Some w' /\ good w' /\ kept w w'.
Proof.
  revert w. induction k as [|k IH]; intros w G Hn; cbn [process]; [by exists w|].
  destruct (R (say TimerFired w)) as (w1 & -> & G1 & K1); [by apply say_good|done|]. cbn [mbind option_bind].
  destruct (IH w1 G1) as (w2 & -> & G2 & K2); [pose proof (k_script _ _ K1); cbn in *; lia|].
  exists w2. split_and!; try done. pose proof (monitor_kept_trans _ _ _ K1 K2) as [Kh Ks Ka]. by constructor.
Qed.

Lemma polled_wait ms w w0 : good w -> socks w0 = socks w -> backend w0 = backend w ->
  exists b r, internal_wait (fun id => (fun s => (sd s, monitor_trigger s)) <$> socks w0 !! id) (sys env (tick w0)) ms (backend w0) = Some (b, r) /\
    polled b (wanted w) (log w) /\ acts b = acts (backend w) /\
    match r with FromAct k => (k <= acts b)%nat | Collected _ => True end.
Proof.
  intros [I _] -> ->. destruct (i_polled _ I) as (W & HS & HW & HO).
  destruct (shows_wait (backend w) W (fun id => (fun s => (sd s, monitor_trigger s)) <$> socks w !! id) (sys env (tick w0)) ms)
    as (b & r & E & Hb & Ha & Hr); [done| |].
  { intros id [fd t] Hx. apply (lookup_weaken _ _ _ _ Hx) in HW. apply (wanted_Some w id fd t I) in HW as (s & _ & Hs & (_ & <- & _) & ->).
    by rewrite Hs. }
  exists b, r. split; [done|]. split; [by exists W|done].
Qed.

Lemma good_polled b w : good w -> polled b (wanted w) (log w) -> good (with_watch (registry w) b [] w).
Proof.
  intros [I HA] Hb. split; [|exact HA]. set (w1 := with_watch _ _ _ _).
  assert (El : log w1 = log w) by (apply app_nil_r).
  assert (Ew : wanted w1 = wanted w) by (apply map_eq; intros j; rewrite !wanted_lookup, El; done).
  destruct I. constructor; rewrite ?Ew, ?El; done.
Qed.

Lemma wait_ok ms w :
  good w -> (length (script w) <= n)%nat -> exists w', wait react ms w = Some w' /\ good w' /\ kept w w'.
Proof.
  intros G Hn. unfold wait. set (tm := poll_timeout _ _ _). set (w0 := say (Polled tm) w).
  assert (G0 : good w0) by (by apply say_good). pose proof G0 as [I0 A0].
  destruct (polled_wait tm w0 w0 G0 eq_refl eq_refl) as (b & r & -> & Hb & Ha & Hr).
  cbn [mbind option_bind fst snd]. set (w1 := with_watch (registry w0) b [] w0).
  assert (G1 : good w1) by (by apply good_polled).
  assert (K1 : kept w w1) by (constructor; cbn; [done|lia|exact Ha]).
  assert (HD : exists w2, (match r with FromAct k => dispatch_from react (seq 0 k) w1 | Collected l => dispatch_all react l w1 end) = Some w2 /\ good w2 /\ kept w1 w2).
  { destruct r as [k|l]; [apply dispatch_from_ok; try done|by apply dispatch_all_ok].
    apply Forall_forall. intros i Hi%elem_of_seq. cbn. lia. }
  destruct HD as (w2 & -> & G2 & K2). cbn [mbind option_bind].
  pose proof (k_script _ _ K1). pose proof (k_script _ _ K2).
  destruct (process_ok (due env (tick w2)) w2 G2) as (w3 & -> & G3 & K3); [lia|]. cbn [mbind option_bind].
  pose proof (k_script _ _ K3).
  destruct (dispatch_all_ok ((fun x => mkpoll_act x.1 Triggers.Read) <$> List.filter (fun x => lock w3 x.2 && bufferedInput env (tick w3) x.2) (registry w3)) w3 G3)
    as (w4 & Hw4 & G4 & K4); [lia|].
  exists w4. split_and!; [exact Hw4|done|]. eapply monitor_kept_trans; [exact K1|]. eapply monitor_kept_trans; [exact K2|]. by eapply monitor_kept_trans.
Qed.
End pass.

(** ** Every call returns *)

Lemma fresh_spec fd w : fresh fd w = true -> fd <> INVALID_SOCKET /\ forall i s, socks w !! i = Some s -> sd s <> fd.
Proof.
  unfold fresh. intros [H1 H2]%andb_true_iff. split; [intros ->; done|]. intros i s Hs E.
  rewrite forallb_forall in H2. specialize (H2 (i, s)). cbn in H2. rewrite E, Z.eqb_refl in H2.
  apply elem_of_map_to_list, list_elem_of_In in Hs. by specialize (H2 Hs).
Qed.

(** An object whose descriptor is new to the world, and which is not watched. *)
Lemma inv_fresh w id s k :
  inv w -> replay (log w) !! id = None -> (monitored s = true -> Refused id ∈ log w) ->
  (forall i r, socks w !! i = Some r -> i <> id -> sd r <> sd s) -> (id < k)%nat -> (next w <= k)%nat ->
  inv (mkWorld (<[id := s]> (socks w)) k (registry w) (backend w) (held w) (script w) (tick w) (log w)).
Proof.
  intros I HN Hm Hfd Hid Hk. set (w' := mkWorld _ _ _ _ _ _ _ _).
  assert (E : wanted w' = wanted w).
  { apply map_eq. intros j. rewrite !wanted_lookup. unfold w'. cbn [log socks]. destruct (decide (j = id)) as [->|Hne]; [by rewrite HN|].
    by rewrite lookup_insert_ne. }
  constructor; rewrite ?E; try apply I; unfold w'; cbn [log socks registry next held].
  - intros i j r r' [[<- <-]|[Hi Hr]]%lookup_insert_Some [[<- <-]|[Hj Hr']]%lookup_insert_Some Hsd Hne; try done.
    + by destruct (Hfd j r' Hr' (not_eq_sym Hj)).
    + by destruct (Hfd i r Hr (not_eq_sym Hi)).
    + by apply (i_sds _ I i j r r').
  - intros i fd Hr. rewrite lookup_insert_ne by (intros <-; congruence). by apply (i_valid _ I).
  - intros i r [[<- <-]|[_ Hr]]%lookup_insert_Some Hx; [right; by apply Hm|by apply (i_deaf _ I i r)].
  - intros i [<-|[_ Hi]]%lookup_insert_is_Some; [done|]. pose proof (i_next _ I i Hi). lia.
  - intros i Hi. rewrite lookup_insert_is_Some'. right. by apply (i_held _ I).
Qed.

Lemma call_ok n react c w :
  reacts_well n react -> good w -> (length (script w) <= n)%nat -> may c w = true ->
  exists w', call react c w = Some w' /\ good w' /\ kept w w'.
Proof.
  intros R G Hn Hmay. pose proof G as [I HA]. destruct c as [fd sh|id fd|id t|id|id|id|ms]; cbn [may call] in *.
  - apply fresh_spec in Hmay as [Hfd Hfr].
    assert (HN : socks w !! next w = None). { apply eq_None_not_Some. intros Hs%(i_next _ I). lia. }
    eexists. split; [reflexivity|]. split; [split|done].
    + apply inv_fresh; try done; [|by intros i r Hr _; apply (Hfr i r)|lia|lia].
      destruct (replay (log w) !! next w) as [f|] eqn:Hr; [|done]. destruct (i_valid _ I _ f Hr) as (s & Hs & _). congruence.
    + intros i r Hi _. cbn in Hi. apply lookup_insert_Some in Hi as [[<- <-]|[Hne Hr]]; [by left|apply (HA i r Hr); tauto].
  - destruct (socks w !! id) as [s|] eqn:Hs; [|done]. apply andb_true_iff in Hmay as [Hsd [Hfd Hfr]%fresh_spec].
    apply Z.eqb_eq in Hsd. cbn [mbind option_bind]. eexists. split; [reflexivity|].
    assert (HN : replay (log w) !! id = None).
    { destruct (replay (log w) !! id) as [f|] eqn:Hr; [|done]. destruct (i_valid _ I id f Hr) as (s0 & Hs0 & _ & E0 & Hne & _). congruence. }
    split; [split|done].
    + apply (inv_fresh w id (with_sd fd s) (next w)); try done; [|by intros i r Hr _; apply (Hfr i r)|by apply (i_next _ I); exists s].
      intros Hm. destruct (i_deaf _ I id s Hs Hm) as [Hx|]; [|done]. rewrite HN in Hx. by destruct Hx.
    + apply (same_owners_alive (fun _ => False) w); [exact (put_owner w id s (with_sd fd s) Hs eq_refl)|done|done].
  - apply bool_decide_eq_true in Hmay as [s Hs]. destruct (setMonitor_ok id t w s I Hs) as (w' & Hw & I' & K & HO).
    exists w'. split_and!; try done. split; [done|]. eapply same_owners_alive; [exact HO|apply K|done].
  - apply bool_decide_eq_true in Hmay as [s Hs]. destruct (disableMonitor_ok id w s I Hs) as (w' & Hw & I' & K & E & _).
    exists w'. split_and!; try done. split; [done|]. eapply same_owners_alive; [|apply K|done].
    intros i. rewrite E. by apply put_owner with s.
  - apply bool_decide_eq_true in Hmay as [s Hs]. destruct (close_ok id w s I Hs) as (w' & s' & Hw & I' & K & E & Ho & _).
    exists w'. split_and!; try done. split; [done|]. eapply same_owners_alive; [|apply K|done].
    intros i. rewrite E. by apply put_owner with s.
  - destruct (socks w !! id) as [s|] eqn:Hs; [|done]. by apply release_ok with s.
  - by apply wait_ok with n.
Qed.

Lemma run_all_ok n f l w :
  (forall c w, good w -> (length (script w) <= n)%nat -> exists w', f c w = Some w' /\ good w' /\ kept w w') ->
  good w -> (length (script w) <= n)%nat -> exists w', run_all f l w = Some w' /\ good w' /\ kept w w'.
Proof.
  intros Hf. revert w. induction l as [|c l IH]; intros w G Hn; cbn [run_all]; [by exists w|].
  destruct (Hf c w G Hn) as (w1 & -> & G1 & K1). cbn [mbind option_bind]. pose proof (k_script _ _ K1).
  destruct (IH w1 G1) as (w2 & -> & G2 & K2); [lia|]. exists w2. split_and!; try done. by eapply monitor_kept_trans.
Qed.

Lemma perform_ok n c w :
  good w -> (length (script w) < n)%nat -> exists w', perform n c w = Some w' /\ good w' /\ kept w w'.
Proof.
  revert c w. induction n as [|n IH]; intros c w G Hn; [lia|]. cbn [perform].
  destruct (may c w) eqn:Em; [|by exists w]. apply (call_ok n); [|done|lia|done].
  clear c w G Hn Em. intros w G Hn. unfold reacts. destruct (script w) as [|cs rest] eqn:Es; [by exists w|]. cbn in Hn.
  assert (G0 : good (with_script rest w)) by (destruct G; split; [by apply inv_script|done]).
  destruct n as [|n]; [lia|].
  destruct (run_all_ok n (perform (S n)) cs (with_script rest w)) as (w' & Hw & G' & K); [|done|cbn; lia|].
  - intros c w0 G1 Hn1. apply IH; [done|lia].
  - exists w'. split_and!; try done. destruct K as [Kh Ks Ka]. constructor; cbn in *; [done|rewrite Es; cbn; lia|done].
Qed.

(** ** Handlers that only look *)

(** Who is told of what is reported, in the order of the reports. *)
Definition tells w (l : list poll_act) : list Event :=
  omap (fun a => (fun id => Told id (a_fd a) (trig a)) <$> reg_find (a_fd a) (registry w)) l.

Definition says (l : list Event) w : World B :=
  mkWorld (socks w) (next w) (registry w) (backend w) (held w) (script w) (tick w + length l) (log w ++ l).

Lemma says_nil w : says [] w = w.
Proof. destruct w. unfold says. cbn. by rewrite app_nil_r, Nat.add_0_r. Qed.

Lemma says_cons e l w : says (e :: l) w = says l (say e w).
Proof. unfold says. cbn. by rewrite <- (assoc_L (++)), Nat.add_succ_r. Qed.

Lemma react_quiet f w : script w = [] -> reacts f w = Some w.
Proof. unfold reacts. by intros ->. Qed.

Lemma dispatch_quiet f fd t w : good w -> script w = [] -> dispatch (reacts f) fd t w = Some (says (tells w [mkpoll_act fd t]) w).
Proof.
  intros [I HA] Hs. unfold dispatch, tells. cbn. destruct (reg_find fd (registry w)) as [id|] eqn:Ef; [|by rewrite says_nil].
  apply (i_reg _ I) in Ef. destruct (i_valid _ I id fd Ef) as (s & Hsk & _). rewrite Hsk, react_quiet by done.
  cbn [mbind option_bind]. unfold unhold, drop_if_unused. cbn [socks with_held say held]. rewrite Hsk. cbn [mbind option_bind].
  assert (Ho : owned s || bool_decide (id ∈ held w) = true).
  { destruct (HA id s Hsk) as [->|Hh]; [tauto|done|]. rewrite bool_decide_true by done. apply orb_true_r. }
  rewrite Ho. cbn [fmap option_fmap option_map]. rewrite says_cons, says_nil. by destruct w.
Qed.

Lemma good_says l w : good w -> Forall (fun e => exists id fd t, e = Told id fd t /\ reg_find fd (registry w) = Some id) l -> good (says l w).
Proof.
  intros G HF. revert w G HF. induction l as [|e l IH]; intros w G HF; [by rewrite says_nil|].
  rewrite says_cons. apply Forall_cons in HF as [(id & fd & t & -> & Hr) HF]. apply IH; [|done]. destruct G as [I HA]. split; [|done].
  apply monitor_inv_say; try done. intros i fd' t' [= <- <- <-]. by apply (i_reg _ I).
Qed.

Lemma tells_said w l : Forall (fun e => exists id fd t, e = Told id fd t /\ reg_find fd (registry w) = Some id) (tells w l).
Proof.
  unfold tells. apply Forall_forall. intros e He. apply list_elem_of_omap in He as (a & Ha & E).
  destruct (reg_find (a_fd a) (registry w)) as [id|] eqn:Ef; [|done]. injection E as <-. by exists id, (a_fd a), (trig a).
Qed.

Lemma says_app l l' w : says (l ++ l') w = says l' (says l w).
Proof. unfold says. cbn. by rewrite length_app, (assoc_L (++)), Nat.add_assoc. Qed.

Lemma dispatch_all_quiet f l w : good w -> script w = [] -> dispatch_all (reacts f) l w = Some (says (tells w l) w).
Proof.
  revert w. induction l as [|a l IH]; intros w G Hs; cbn [dispatch_all]; [by rewrite says_nil|].
  rewrite dispatch_quiet by done. cbn [mbind option_bind]. rewrite IH; [|by apply good_says, tells_said|done].
  change (tells (says (tells w [mkpoll_act (a_fd a) (trig a)]) w) l) with (tells w l). rewrite <- says_app. f_equal. f_equal.
  unfold tells. cbn. by destruct (reg_find (a_fd a) (registry w)).
Qed.

Lemma dispatch_from_quiet f k w :
  good w -> script w = [] -> (k <= acts (backend w))%nat ->
  dispatch_from (reacts f) (seq 0 k) w = Some (says (tells w (omap (act_at (backend w)) (seq 0 k))) w).
Proof.
  intros G Hs Hk. assert (HF : Forall (fun i => (i < acts (backend w))%nat) (seq 0 k)).
  { apply Forall_forall. intros i Hi%elem_of_seq. lia. }
  clear Hk. revert w G Hs HF. generalize (seq 0 k). intros l. induction l as [|i l IH]; intros w G Hs HF; cbn [dispatch_from]; [by rewrite says_nil|].
  apply Forall_cons in HF as [Hi HF]. destruct (i_polled _ (proj1 G)) as (W & HW & _).
  destruct (act_there _ _ i HW Hi) as [a Ha]. rewrite Ha. cbn [mbind option_bind].
  rewrite dispatch_quiet by done. cbn [mbind option_bind]. rewrite IH; [|by apply good_says, tells_said|done|done].
  set (wa := says _ w). change (backend wa) with (backend w). change (tells wa ?x) with (tells w x). unfold wa.
  rewrite <- says_app. f_equal. f_equal. unfold tells. cbn. rewrite Ha. cbn. by destruct (reg_find (a_fd a) (registry w)).
Qed.

Lemma process_quiet f k w : script w = [] -> process (reacts f) k w = Some (says (replicate k TimerFired) w).
Proof.
  revert w. induction k as [|k IH]; intros w Hs; cbn [process replicate]; [by rewrite says_nil|].
  rewrite react_quiet by done. cbn [mbind option_bind]. by rewrite IH, says_cons.
Qed.

Lemma good_timers k w : good w -> good (says (replicate k TimerFired) w).
Proof.
  revert w. induction k as [|k IH]; intros w G; cbn [replicate]; [by rewrite says_nil|]. rewrite says_cons. apply IH. by apply say_good.
Qed.

(** ** Properties *)

(** A pass sleeps no longer than it was asked to, nor past the next deadline, and not at
    all while decrypted input waits; it sleeps without end only if it was asked to and
    no timer is set. *)
Lemma poll_timeout_spec buffered ms next :
  let t := poll_timeout buffered ms next in
  (buffered = true -> t = 0) /\ (0 <= ms -> 0 <= t <= ms) /\ (0 <= next -> 0 <= t <= next) /\
  (t < 0 -> buffered = false /\ ms < 0 /\ next < 0).
Proof.
  unfold poll_timeout. destruct buffered; cbn zeta; [split_and!; lia|].
  destruct (Z.leb_spec 0 next), (Z.ltb_spec ms 0), (Z.ltb_spec next ms); cbn; split_and!; try done; lia.
Qed.

(** What there is to tell of the watched sockets, when [f] is what the back end reports of
    a descriptor and a trigger. *)
Definition news_told (f : Z * Z -> option poll_act) (M : Watched) : list Event :=
  omap (fun p => (fun a => Told p.1 (a_fd a) (trig a)) <$> f p.2) (map_to_list M).

Lemma tells_news f w : (forall x a, f x = Some a -> a_fd a = x.1) -> inv w -> tells w (news f (wanted w)) = news_told f (wanted w).
Proof.
  intros Hf I. unfold tells, news, news_told.
  assert (HF : Forall (fun p => reg_find p.2.1 (registry w) = Some p.1) (map_to_list (wanted w))).
  { apply Forall_forall. intros [id [fd t]] Hp%elem_of_map_to_list. apply (i_reg _ I). by apply wanted_Some in Hp as (s & Hr & _). }
  induction HF as [|[id [fd t]] L Hp HF IH]; [done|]. cbn in *. pose proof (Hf (fd, t)) as Hn. cbn in Hn.
  destruct (f (fd, t)) as [a|]; cbn in *; [|exact IH]. rewrite (Hn a eq_refl), Hp. cbn. f_equal. exact IH.
Qed.

Lemma monitor_start_inv (b : B) sc : shows b ∅ -> inv (mkWorld ∅ 0 [] b [] sc 0 []).
Proof.
  intros Hb. assert (HN : forall i, (∅ : gmap nat SocketBase) !! i = None) by (intros i; apply lookup_empty).
  assert (HW : wanted (mkWorld ∅ 0 [] b [] sc 0 []) = ∅) by (apply map_eq; intros i; rewrite wanted_lookup; cbn; by rewrite !lookup_empty).
  constructor; rewrite ?HW; cbn [socks registry held log].
  - exists ∅. split_and!; try done. intros i []%lookup_empty_is_Some.
  - intros fd id. cbn. by rewrite lookup_empty.
  - intros i j s s' Hi. by rewrite HN in Hi.
  - intros i fd. cbn. by rewrite lookup_empty.
  - intros i s Hi. by rewrite HN in Hi.
  - intros i. rewrite HN. by intros [].
  - by intros i ?%not_elem_of_nil.
  - intros l1 id fd t l2 E. by destruct l1.
Qed.


(** A pass over handlers that make no calls: it polls once, for the time it may;
    where the back end reports what is ready, each socket that has news is told of it
    once; then the timers fire that are due; then the sockets that hold decrypted input
    are told that they can be read, in the order of their descriptors. *)
Theorem wait_tells (f : Z * Z -> option poll_act) ms w b r
  (Hf : forall x a, f x = Some a -> a_fd a = x.1) (G : good w) (Hs : script w = [])
  (HW : internal_wait (fun id => (fun s => (sd s, monitor_trigger s)) <$> socks w !! id) (sys env (S (tick w)))
          (poll_timeout (haveBufferedInput w) ms (timeToNext env (tick w))) (backend w) = Some (b, r))
  (HR : dispatched b r ≡ₚ news f (wanted w)) :
  exists w' told, perform 1 (Wait ms) w = Some w' /\ told ≡ₚ news_told f (wanted w) /\
    let t := (S (S (tick w)) + length told)%nat in
    log w' = log w ++ [Polled (poll_timeout (haveBufferedInput w) ms (timeToNext env (tick w)))] ++ told ++ replicate (due env t) TimerFired ++
      tells w ((fun x => mkpoll_act x.1 Triggers.Read) <$> List.filter (fun x => lock w x.2 && bufferedInput env (t + due env t) x.2) (registry w)) /\
    socks w' = socks w.
Proof.
  set (tm := poll_timeout _ _ _) in *. change (perform 1 (Wait ms) w) with (wait (reacts (perform 0)) ms w). unfold wait. fold tm.
  set (w0 := say (Polled tm) w). assert (G0 : good w0) by (by apply say_good). pose proof G0 as [I0 A0].
  change (socks w0) with (socks w). change (tick w0) with (S (tick w)). change (backend w0) with (backend w). rewrite HW.
  cbn [mbind option_bind fst snd]. set (w1 := with_watch (registry w0) b [] w0).
  destruct (polled_wait tm w0 (say (Polled tm) w) G0 eq_refl eq_refl) as (b' & r' & E & Hb & Ha & Hr).
  change (socks (say (Polled tm) w)) with (socks w) in E. change (tick (say (Polled tm) w)) with (S (tick w)) in E.
  change (backend (say (Polled tm) w)) with (backend w) in E. rewrite HW in E. injection E as <- <-.
  assert (G1 : good w1) by (by apply good_polled).
  set (told := tells w (dispatched b r)).
  assert (HD : (match r with FromAct n => dispatch_from (reacts (perform 0)) (seq 0 n) w1 | Collected l => dispatch_all (reacts (perform 0)) l w1 end) = Some (says told w1)).
  { destruct r as [k|l]; [by apply dispatch_from_quiet|by apply dispatch_all_quiet]. }
  rewrite HD. cbn [mbind option_bind]. rewrite process_quiet by done. cbn [mbind option_bind].
  set (w2 := says told w1). assert (G2 : good w2) by (apply good_says; [done|exact (tells_said w (dispatched b r))]).
  set (w3 := says (replicate (due env (tick w2)) TimerFired) w2). assert (G3 : good w3) by (by apply good_timers).
  unfold dispatchBufferedInput. rewrite dispatch_all_quiet by done.
  eexists _, told. split; [reflexivity|]. split.
  - unfold told. rewrite <- (tells_news f w Hf (proj1 G)). unfold tells. by rewrite HR.
  - cbv zeta. split; [|done]. unfold w3, w2, w1, w0. cbn. rewrite length_replicate, !app_nil_r, <- !(assoc_L (++)). done.
Qed.
End monitor.

(** ** Witnesses and findings *)

(** Descriptor 4 can be read and 5 written; no timers, no TLS. *)
Definition demo_env : Env := mkEnv (fun _ => demo_sys) (fun _ _ => false) (fun _ => -1) (fun _ => O).
Definition empty_world (max : nat) (sc : list (list Call)) : World PollSocketMonitor := mkWorld ∅ 0 [] (new_PollSocketMonitor max) [] sc 0 [].
Lemma poll_start max : shows (new_PollSocketMonitor max) ∅.
Proof. exact (poll_shows_new max). Qed.
Definition two_sockets : list Call := [Open 4 true; SetMonitor 0 Triggers.Read; Open 5 true; SetMonitor 1 3].



Definition demo_world : World PollSocketMonitor :=
  Eval vm_compute in match run_all (perform demo_env 1) two_sockets (empty_world 8 []) with Some w => w | None => empty_world 8 [] end.

Lemma good_demo : good demo_world.
Proof.
  assert (E : run_all (perform demo_env 1) two_sockets (empty_world 8 []) = Some demo_world) by (vm_compute; reflexivity).
  assert (G : good (empty_world 8 [])).
  { split; [|intros i s Hi; cbn in Hi; by rewrite lookup_empty in Hi]. apply monitor_start_inv, poll_start. }
  destruct (run_all_ok 0 (perform demo_env 1) two_sockets (empty_world 8 [])) as (w & Hw & Gw & _); [|done|done|].
  - intros c w G1 H1. apply perform_ok; [done|lia].
  - congruence.
Qed.

Lemma poll_tells_fd C x a : poll_tells C x = Some a -> a_fd a = x.1.
Proof. unfold poll_tells, act_of. case_match; [|done]. by intros [= <-]. Qed.

Lemma wait_tells_witness :
  exists w' told, perform demo_env 1 (Wait 1000) demo_world = Some w' /\ told ≡ₚ news_told (poll_tells demo_ready) (wanted demo_world) /\
    length told = 2%nat.
Proof.
  destruct (internal_wait (fun id => (fun s => (sd s, monitor_trigger s)) <$> socks demo_world !! id) demo_sys 1000 (backend demo_world))
    as [[b r]|] eqn:HW; [|exfalso; revert HW; vm_compute; discriminate].
  destruct (wait_tells demo_env (poll_tells demo_ready) 1000 demo_world b r (poll_tells_fd demo_ready) good_demo) as (w' & told & Hp & Ht & _).
  - reflexivity.
  - exact HW.
  - revert HW. vm_compute. intros [= <- <-]. vm_compute. apply perm_swap.
  - exists w', told. split_and!; [exact Hp|exact Ht|]. rewrite Ht. vm_compute. reflexivity.
Defined.

(** What was reported of a descriptor goes to the socket that has it when its turn
    comes: a handler that closes one socket and opens another, which gets the same
    descriptor, has the new one told of what the old one was ready for. *)
Lemma stale_event_reaches_new_socket :
  log <$> run_all (perform demo_env 2) (two_sockets ++ [Wait 1000]) (empty_world 8 [[Close 1; Open 5 true; SetMonitor 2 Triggers.Read]]) =
  Some [Watching 0 4; Watching 1 5; Polled 1000; Told 0 4 Triggers.Read; Unwatched 1; Watching 2 5; Told 2 5 Triggers.Write].
Proof. vm_compute. reflexivity. Qed.

(** A socket that finds the list of the poll back end full is taken for monitored ever
    after: when there is room again it still is not added. *)
Lemma full_list_forgets :
  (w ← run_all (perform demo_env 1) [Open 4 true; SetMonitor 0 Triggers.Read; Open 5 true] (empty_world 1 []);
   w ← setMonitor demo_env 1 Triggers.Read w; w ← disableMonitor 0 w;
   w ← setMonitor demo_env 1 3 w; w ← perform demo_env 1 (Wait 1000) w;
   s ← socks w !! 1%nat; Some (monitored s, p_num (backend w), log w)) =
  Some (true, 0%nat, [Watching 0 4; Watching 1 5; Overflow 1; Unwatched 0; Polled 1000]).
Proof. vm_compute. reflexivity. Qed.
