(* ===== verification/Bandwidth.v ===== *)
(** * Bandwidth: [src/util/bwestimation.cpp] and [src/io/net/bandwidth.cpp]

    The estimator keeps a bucket per second of its window, and the manager counts the
    process's traffic with two of them. The clock's second is an argument. *)

From S2P Require Import Prelude.

(** ** The estimator *)

(* @src src/include/samurai/util/bwestimation.h:17-17 BANDWIDTH_ESTIMATION_TIMEOUT *)
Definition BANDWIDTH_ESTIMATION_TIMEOUT : Z := 3.

(* @src src/include/samurai/util/bwestimation.h:30-38 Samurai::Util::RateEstimator *)
Record RateEstimator := mkRateEstimator { current : Z; last : Z; log : list Z }.
Definition new_RateEstimator : RateEstimator := mkRateEstimator 0 0 [0; 0; 0].

Definition bucket (now : Z) : nat := Z.to_nat (now mod BANDWIDTH_ESTIMATION_TIMEOUT).
Definition at_bucket (l : list Z) (now : Z) : Z := nth (bucket now) l 0.

(* @src src/src/util/bwestimation.cpp:8-19 Samurai::Util::RateEstimator::add *)
Definition add (now bytes : Z) (e : RateEstimator) : RateEstimator :=
  let e := if current e + BANDWIDTH_ESTIMATION_TIMEOUT <? now then mkRateEstimator (current e) (last e) [0; 0; 0] else e in
  let e := if negb (now =? current e) then mkRateEstimator now (at_bucket (log e) now) (<[bucket now := 0]> (log e)) else e in
  mkRateEstimator (current e) (last e) (<[bucket (current e) := u64 (at_bucket (log e) (current e) + bytes)]> (log e)).

Definition sum (l : list Z) : Z := fold_left (fun bps total => u64 (bps + total)) l 0.

(** The buckets but the one at [i]. *)
Definition without (i : nat) (l : list Z) : list Z := take i l ++ drop (S i) l.

(* @src src/src/util/bwestimation.cpp:21-43 Samurai::Util::RateEstimator::getBps *)
Definition getBps (now : Z) (e : RateEstimator) : Z :=
  if current e + BANDWIDTH_ESTIMATION_TIMEOUT <? now then 0
  else (if negb (now =? current e) then sum (log e) else u64 (sum (without (bucket now) (log e)) + last e))
       / BANDWIDTH_ESTIMATION_TIMEOUT.

(** ** The manager *)

(* @src src/include/samurai/io/net/bandwidth.h:44-55 Samurai::IO::Net::BandwidthManager *)
Record BandwidthManager := mkBandwidthManager {
  count_accepted : Z; count_connected : Z; count_errors : Z;
  data_tcp_tx : Z; data_tcp_rx : Z; data_udp_tx : Z; data_udp_rx : Z; rate_peak : Z;
  estimator_send : RateEstimator; estimator_recv : RateEstimator
}.

(* @src src/src/io/net/bandwidth.cpp:19-21 Samurai::IO::Net::BandwidthManager::BandwidthManager *)
Definition new_BandwidthManager : BandwidthManager := mkBandwidthManager 0 0 0 0 0 0 0 0 new_RateEstimator new_RateEstimator.

(* @src src/src/io/net/bandwidth.cpp:27-27 Samurai::IO::Net::BandwidthManager::accept *)
Definition accept (m : BandwidthManager) : BandwidthManager :=
  mkBandwidthManager (u64 (count_accepted m + 1)) (count_connected m) (count_errors m) (data_tcp_tx m) (data_tcp_rx m) (data_udp_tx m) (data_udp_rx m) (rate_peak m) (estimator_send m) (estimator_recv m).
(* @src src/src/io/net/bandwidth.cpp:28-28 Samurai::IO::Net::BandwidthManager::connected *)
Definition connected (m : BandwidthManager) : BandwidthManager :=
  mkBandwidthManager (count_accepted m) (u64 (count_connected m + 1)) (count_errors m) (data_tcp_tx m) (data_tcp_rx m) (data_udp_tx m) (data_udp_rx m) (rate_peak m) (estimator_send m) (estimator_recv m).
(* @src src/src/io/net/bandwidth.cpp:29-29 Samurai::IO::Net::BandwidthManager::error *)
Definition error (m : BandwidthManager) : BandwidthManager :=
  mkBandwidthManager (count_accepted m) (count_connected m) (u64 (count_errors m + 1)) (data_tcp_tx m) (data_tcp_rx m) (data_udp_tx m) (data_udp_rx m) (rate_peak m) (estimator_send m) (estimator_recv m).

(* @src src/src/io/net/bandwidth.cpp:31-34 Samurai::IO::Net::BandwidthManager::dataSendTCP *)
Definition dataSendTCP (now bytes : Z) (m : BandwidthManager) : BandwidthManager :=
  mkBandwidthManager (count_accepted m) (count_connected m) (count_errors m) (u64 (data_tcp_tx m + bytes)) (data_tcp_rx m) (data_udp_tx m) (data_udp_rx m) (rate_peak m) (add now bytes (estimator_send m)) (estimator_recv m).
(* @src src/src/io/net/bandwidth.cpp:36-39 Samurai::IO::Net::BandwidthManager::dataSendUDP *)
Definition dataSendUDP (now bytes : Z) (m : BandwidthManager) : BandwidthManager :=
  mkBandwidthManager (count_accepted m) (count_connected m) (count_errors m) (data_tcp_tx m) (data_tcp_rx m) (u64 (data_udp_tx m + bytes)) (data_udp_rx m) (rate_peak m) (add now bytes (estimator_send m)) (estimator_recv m).
(* @src src/src/io/net/bandwidth.cpp:41-44 Samurai::IO::Net::BandwidthManager::dataRecvTCP *)
Definition dataRecvTCP (now bytes : Z) (m : BandwidthManager) : BandwidthManager :=
  mkBandwidthManager (count_accepted m) (count_connected m) (count_errors m) (data_tcp_tx m) (u64 (data_tcp_rx m + bytes)) (data_udp_tx m) (data_udp_rx m) (rate_peak m) (estimator_send m) (add now bytes (estimator_recv m)).
(* @src src/src/io/net/bandwidth.cpp:46-49 Samurai::IO::Net::BandwidthManager::dataRecvUDP *)
Definition dataRecvUDP (now bytes : Z) (m : BandwidthManager) : BandwidthManager :=
  mkBandwidthManager (count_accepted m) (count_connected m) (count_errors m) (data_tcp_tx m) (data_tcp_rx m) (data_udp_tx m) (u64 (data_udp_rx m + bytes)) (rate_peak m) (estimator_send m) (add now bytes (estimator_recv m)).

(* @src src/src/io/net/bandwidth.cpp:51-53 Samurai::IO::Net::BandwidthManager::getSendBps *)
Definition getSendBps (now : Z) (m : BandwidthManager) : Z := getBps now (estimator_send m).
(* @src src/src/io/net/bandwidth.cpp:55-57 Samurai::IO::Net::BandwidthManager::getRecvBps *)
Definition getRecvBps (now : Z) (m : BandwidthManager) : Z := getBps now (estimator_recv m).

(** What is accounted, of either direction and protocol. *)
Inductive Transfer := Sent (tcp : bool) (now bytes : Z) | Received (tcp : bool) (now bytes : Z).
Definition account (t : Transfer) (m : BandwidthManager) : BandwidthManager :=
  match t with
  | Sent tcp now b => if tcp then dataSendTCP now b m else dataSendUDP now b m
  | Received tcp now b => if tcp then dataRecvTCP now b m else dataRecvUDP now b m
  end.

(** ** What the estimator knows *)

(** Traffic in the order it was accounted: its second and its bytes. *)
Definition History := list (Z * Z).
Definition adds (h : History) (e : RateEstimator) : RateEstimator := fold_left (fun e x => add x.1 x.2 e) h e.

(** What was transferred in a second. *)
Definition total (h : History) (t : Z) : Z := foldr (fun x s => (if x.1 =? t then x.2 else 0) + s) 0 h.
Definition volume (h : History) : Z := foldr (fun x s => x.2 + s) 0 h.

(** From one entry to the next it is the same second, the next, or more than the window. *)
Definition steady (c now : Z) : Prop := now = c \/ now = c + 1 \/ c + BANDWIDTH_ESTIMATION_TIMEOUT < now.
Fixpoint paced (c : Z) (h : History) : Prop :=
  match h with [] => True | (t, b) :: h => steady c t /\ 0 <= b /\ paced t h end.

Lemma bucket_cases t : bucket t = 0%nat /\ t mod 3 = 0 \/ bucket t = 1%nat /\ t mod 3 = 1 \/ bucket t = 2%nat /\ t mod 3 = 2.
Proof. unfold bucket, BANDWIDTH_ESTIMATION_TIMEOUT. pose proof (Z.mod_pos_bound t 3 ltac:(lia)). lia. Qed.

Lemma bucket_eq s t : bucket s = bucket t <-> s mod 3 = t mod 3.
Proof. destruct (bucket_cases s) as [[-> ->]|[[-> ->]|[-> ->]]], (bucket_cases t) as [[-> ->]|[[-> ->]|[-> ->]]]; lia. Qed.

Lemma at_bucket_insert l s t v :
  length l = 3%nat -> at_bucket (<[bucket s := v]> l) t = if decide (s mod 3 = t mod 3) then v else at_bucket l t.
Proof.
  intros Hl. unfold at_bucket. assert (Hb : (bucket s < length l)%nat) by (destruct (bucket_cases s) as [[-> _]|[[-> _]|[-> _]]]; lia).
  destruct (decide (s mod 3 = t mod 3)) as [E|E].
  - apply bucket_eq in E. rewrite <- E. erewrite nth_lookup_Some; [done|]. by apply list_lookup_insert_eq.
  - rewrite <- bucket_eq in E. rewrite !nth_lookup. by rewrite list_lookup_insert_ne.
Qed.

Lemma total_snoc h t b s : total (h ++ [(t, b)]) s = total h s + if t =? s then b else 0.
Proof. unfold total. rewrite foldr_app. cbn. destruct (t =? s); induction h as [|x h IH]; cbn; lia. Qed.

Lemma volume_snoc h t b : volume (h ++ [(t, b)]) = volume h + b.
Proof. unfold volume. rewrite foldr_app. cbn. induction h as [|x h IH]; cbn; lia. Qed.

Lemma total_range h s : Forall (fun x => 0 <= x.2) h -> 0 <= total h s <= volume h.
Proof. unfold total, volume. intros HF. induction HF as [|x h Hx HF IH]; cbn; [lia|]. destruct (x.1 =? s); lia. Qed.

(** The buckets hold the current second and the two before it, and [last] the one
    before these. *)
Record knows (h : History) (c : Z) (e : RateEstimator) : Prop := mkknows {
  kn_current : current e = c;
  kn_length : length (log e) = 3%nat;
  kn_now : at_bucket (log e) c = total h c;
  kn_one : at_bucket (log e) (c - 1) = total h (c - 1);
  kn_two : at_bucket (log e) (c - 2) = total h (c - 2);
  kn_last : last e = total h (c - 3);
  kn_later t : c < t -> total h t = 0
}.

Lemma mod_apart a b : 0 < a - b < 3 -> a mod 3 <> b mod 3.
Proof. intros H E. apply (Z.cong_iff_ex a b 3) in E as [n Hn]. lia. Qed.

Lemma mod_back t : (t - 3) mod 3 = t mod 3.
Proof. replace (t - 3) with (t + (-1) * 3) by lia. apply Z.mod_add. lia. Qed.

Lemma at_zero t : at_bucket [0; 0; 0] t = 0.
Proof. unfold at_bucket. by destruct (bucket_cases t) as [[-> _]|[[-> _]|[-> _]]]. Qed.

Lemma u64_small z : 0 <= z < 2 ^ 64 -> u64 z = z.
Proof. apply Z.mod_small. Qed.

Lemma knows_add h c e t b :
  knows h c e -> steady c t -> 0 <= b -> Forall (fun x => 0 <= x.2) h -> volume h + b < 2 ^ 64 ->
  knows (h ++ [(t, b)]) t (add t b e).
Proof.
  intros K Hs Hb HF HV. pose proof (total_range h t HF) as Ht.
  assert (Hu : u64 (total h t + b) = total h t + b) by (apply u64_small; lia).
  assert (HT : forall s, s <> t -> total (h ++ [(t, b)]) s = total h s).
  { intros s Hne. rewrite total_snoc, (proj2 (Z.eqb_neq t s)) by done. lia. }
  assert (HTt : total (h ++ [(t, b)]) t = total h t + b) by (rewrite total_snoc, Z.eqb_refl; done).
  assert (HL : t >= c) by (unfold steady, BANDWIDTH_ESTIMATION_TIMEOUT in Hs; lia).
  (* what the buckets have before the bytes are counted *)
  assert (HP : exists e', add t b e = mkRateEstimator (current e') (last e') (<[bucket (current e') := u64 (at_bucket (log e') (current e') + b)]> (log e')) /\ knows h t e').
  { eexists. split; [reflexivity|]. destruct K as [Kc Kl Kn K1 K2 K3 Kf]. rewrite Kc. destruct Hs as [->|[->|Hs]].
    - rewrite (proj2 (Z.ltb_ge _ _)) by (unfold BANDWIDTH_ESTIMATION_TIMEOUT; lia). cbv iota. rewrite Kc, Z.eqb_refl. by constructor.
    - rewrite (proj2 (Z.ltb_ge _ _)) by (unfold BANDWIDTH_ESTIMATION_TIMEOUT; lia). cbv iota.
      rewrite Kc, (proj2 (Z.eqb_neq _ _)) by lia. cbn [negb].
      constructor; cbn [current last log]; rewrite ?length_insert, ?at_bucket_insert by done; try done.
      + rewrite decide_True by done. rewrite Kf by lia. done.
      + rewrite decide_False by (apply mod_apart; lia). replace (c + 1 - 1) with c by lia. exact Kn.
      + rewrite decide_False by (apply mod_apart; lia). replace (c + 1 - 2) with (c - 1) by lia. exact K1.
      + unfold at_bucket. replace (bucket (c + 1)) with (bucket (c - 2)); [replace (c + 1 - 3) with (c - 2) by lia; exact K2|].
        apply bucket_eq. rewrite <- (mod_back (c + 1)). f_equal. lia.
      + intros s Hs. apply Kf. lia.
    - rewrite (proj2 (Z.ltb_lt _ _)) by done. cbn [current last log].
      rewrite (proj2 (Z.eqb_neq _ _)) by (unfold BANDWIDTH_ESTIMATION_TIMEOUT in Hs; lia). cbn [negb].
      unfold BANDWIDTH_ESTIMATION_TIMEOUT in Hs.
      constructor; cbn [current last log]; rewrite ?length_insert, ?at_bucket_insert, ?at_zero by done; try done.
      + rewrite Kf by lia. by case_decide.
      + rewrite Kf by lia. by case_decide.
      + rewrite Kf by lia. by case_decide.
      + rewrite Kf by lia. done.
      + intros s Hs'. apply Kf. lia. }
  destruct HP as (e' & -> & [Kc Kl Kn K1 K2 K3 Kf]). rewrite Kc.
  constructor; cbn [current last log]; rewrite ?length_insert, ?at_bucket_insert by done; try done.
  - rewrite decide_True by done. rewrite Kn, HTt. exact Hu.
  - rewrite decide_False by (apply mod_apart; lia). rewrite HT by lia. exact K1.
  - rewrite decide_False by (apply mod_apart; lia). rewrite HT by lia. exact K2.
  - rewrite HT by lia. exact K3.
  - intros s Hs'. rewrite HT by lia. by apply Kf.
Qed.

Lemma knows_adds h c e h' :
  knows h c e -> paced c h' -> Forall (fun x => 0 <= x.2) h -> volume (h ++ h') < 2 ^ 64 ->
  exists c', knows (h ++ h') c' (adds h' e) /\ c <= c'.
Proof.
  revert h c e. induction h' as [|[t b] h' IH]; intros h c e K HP HF HV; [exists c; rewrite app_nil_r; split; [done|lia]|].
  destruct HP as (Hs & Hb & HP). assert (E : h ++ (t, b) :: h' = (h ++ [(t, b)]) ++ h') by (by rewrite <- (assoc_L (++))).
  rewrite E in HV |- *.
  assert (HF' : Forall (fun x => 0 <= x.2) (h ++ [(t, b)])) by (apply Forall_app; split; [done|by constructor]).
  assert (Hv' : forall (h1 h2 : History), volume (h1 ++ h2) = volume h1 + volume h2).
  { intros h1 h2. unfold volume. rewrite foldr_app. induction h1 as [|x h1 IH1]; cbn; lia. }
  assert (Hpos : forall (h1 : History) c, paced c h1 -> 0 <= volume h1).
  { clear. intros h1. unfold volume. induction h1 as [|[t b] h1 IH1]; intros c; cbn; [lia|]. intros (_ & Hb & HP). specialize (IH1 _ HP). lia. }
  rewrite Hv', volume_snoc in HV. specialize (Hpos h' t HP).
  destruct (IH (h ++ [(t, b)]) t (add t b e)) as (c' & K' & Hc'); try done.
  - apply knows_add with c; try done. lia.
  - rewrite Hv', volume_snoc. lia.
  - exists c'. split; [done|]. unfold steady, BANDWIDTH_ESTIMATION_TIMEOUT in Hs. lia.
Qed.

Lemma knows_new : knows [] 0 new_RateEstimator.
Proof. constructor; try done; apply at_zero. Qed.

(** What was sent and received, whatever the protocol. *)
Definition sent (ts : list Transfer) : History := omap (fun t => match t with Sent _ now b => Some (now, b) | _ => None end) ts.
Definition received (ts : list Transfer) : History := omap (fun t => match t with Received _ now b => Some (now, b) | _ => None end) ts.
Definition accounts (ts : list Transfer) (m : BandwidthManager) : BandwidthManager := fold_left (fun m t => account t m) ts m.

Lemma accounts_estimators ts m :
  estimator_send (accounts ts m) = adds (sent ts) (estimator_send m) /\ estimator_recv (accounts ts m) = adds (received ts) (estimator_recv m).
Proof.
  revert m. induction ts as [|t ts IH]; intros m; [done|]. unfold accounts in *. cbn [fold_left].
  destruct (IH (account t m)) as [-> ->]. by destruct t as [[] now b|[] now b].
Qed.

(** Sums that do not wrap, from the inside. *)
Lemma u64_sum z : 0 <= z < 3 * 2 ^ 62 -> u64 z = z.
Proof. intros H. apply u64_small. change (2 ^ 64) with (4 * 2 ^ 62). lia. Qed.

Ltac small_u64 :=
  repeat match goal with
  | |- context [u64 ?z] => lazymatch z with context [u64 _] => fail | _ => rewrite (u64_sum z) by lia end
  end.

Lemma bucket_back c :
  bucket c = 0%nat /\ bucket (c - 1) = 2%nat /\ bucket (c - 2) = 1%nat \/
  bucket c = 1%nat /\ bucket (c - 1) = 0%nat /\ bucket (c - 2) = 2%nat \/
  bucket c = 2%nat /\ bucket (c - 1) = 1%nat /\ bucket (c - 2) = 0%nat.
Proof.
  destruct (bucket_cases c) as [[-> H]|[[-> H]|[-> H]]], (bucket_cases (c - 1)) as [[-> H1]|[[-> H1]|[-> H1]]],
    (bucket_cases (c - 2)) as [[-> H2]|[[-> H2]|[-> H2]]]; Z.div_mod_to_equations; lia.
Qed.

Lemma getBps_average h c now e :
  knows h c e -> steady c now -> Forall (fun x => 0 <= x.2) h -> volume h < 2 ^ 62 ->
  getBps now e = (total h (now - 1) + total h (now - 2) + total h (now - 3)) / BANDWIDTH_ESTIMATION_TIMEOUT.
Proof.
  intros [Kc Kl Kn K1 K2 K3 Kf] Hs HF HV. unfold getBps. rewrite Kc.
  assert (HT : forall s, 0 <= total h s < 2 ^ 62) by (intros s; pose proof (total_range h s HF); lia).
  destruct (log e) as [|x [|y [|z [|]]]] eqn:El; try done.
  destruct Hs as [->|[->|Hs]].
  - rewrite (proj2 (Z.ltb_ge _ _)), Z.eqb_refl by (unfold BANDWIDTH_ESTIMATION_TIMEOUT; lia). cbn [negb]. f_equal.
    rewrite K3, <- K1, <- K2. pose proof (HT (c - 1)) as B1. pose proof (HT (c - 2)) as B2. pose proof (HT (c - 3)) as B3.
    rewrite <- K1 in B1. rewrite <- K2 in B2. clear Kn K1 K2 K3. unfold at_bucket in *.
    destruct (bucket_back c) as [(-> & E1 & E2)|[(-> & E1 & E2)|(-> & E1 & E2)]]; rewrite E1, E2 in *; cbn in B1, B2 |- *;
      unfold sum; cbn [fold_left]; small_u64; lia.
  - rewrite (proj2 (Z.ltb_ge _ _)), (proj2 (Z.eqb_neq _ _)) by (unfold BANDWIDTH_ESTIMATION_TIMEOUT; lia). cbn [negb]. f_equal.
    replace (c + 1 - 1) with c by lia. replace (c + 1 - 2) with (c - 1) by lia. replace (c + 1 - 3) with (c - 2) by lia.
    pose proof (HT c) as B0. pose proof (HT (c - 1)) as B1. pose proof (HT (c - 2)) as B2.
    rewrite <- Kn in B0. rewrite <- K1 in B1. rewrite <- K2 in B2. rewrite <- Kn, <- K1, <- K2. clear Kn K1 K2 K3. unfold at_bucket in *.
    destruct (bucket_back c) as [(E0 & E1 & E2)|[(E0 & E1 & E2)|(E0 & E1 & E2)]]; rewrite E0, E1, E2 in *; cbn in B0, B1, B2 |- *;
      unfold sum; cbn [fold_left]; small_u64; lia.
  - rewrite (proj2 (Z.ltb_lt _ _)) by done. unfold BANDWIDTH_ESTIMATION_TIMEOUT in *. rewrite !Kf by lia. done.
Qed.

(** ** Properties *)

(** C36. The rate reported for either direction is the traffic of the three whole seconds
    before the question, divided by three, for any accounting of both in which traffic
    of a direction comes every second or after more than three, asked in a second that
    follows it likewise. *)
Theorem rates_are_averages ts now
  (Hs : paced 0 (sent ts)) (Hr : paced 0 (received ts)) (Vs : volume (sent ts) < 2 ^ 62) (Vr : volume (received ts) < 2 ^ 62)
  (Ns : steady (current (adds (sent ts) new_RateEstimator)) now) (Nr : steady (current (adds (received ts) new_RateEstimator)) now) :
  let average h := (total h (now - 1) + total h (now - 2) + total h (now - 3)) / BANDWIDTH_ESTIMATION_TIMEOUT in
  getSendBps now (accounts ts new_BandwidthManager) = average (sent ts) /\
  getRecvBps now (accounts ts new_BandwidthManager) = average (received ts).
Proof.
  assert (HA : forall h, paced 0 h -> volume h < 2 ^ 62 -> steady (current (adds h new_RateEstimator)) now ->
             getBps now (adds h new_RateEstimator) = (total h (now - 1) + total h (now - 2) + total h (now - 3)) / BANDWIDTH_ESTIMATION_TIMEOUT).
  { intros h Hp Hv Hn. destruct (knows_adds [] 0 new_RateEstimator h knows_new Hp) as (c & K & _); [done|change (volume ([] ++ h)) with (volume h); change (2 ^ 64) with (4 * 2 ^ 62); lia|].
    rewrite (kn_current _ _ _ K) in Hn. apply getBps_average with c; try done.
    clear -Hp. revert Hp. generalize 0 at 1. induction h as [|[t b] h IH]; intros c0; cbn; [done|]. intros (_ & Hb & Hp). constructor; [done|by eapply IH]. }
  unfold getSendBps, getRecvBps. destruct (accounts_estimators ts new_BandwidthManager) as [-> ->]. cbn zeta. by split; apply HA.
Qed.

Definition demo_traffic : list Transfer :=
  [Sent true 100 600; Received true 100 30; Sent false 101 300; Received false 101 60; Sent true 101 300; Sent true 102 900].

Lemma rates_are_averages_witness :
  getSendBps 103 (accounts demo_traffic new_BandwidthManager) = 700 /\
  total (sent demo_traffic) 101 = 600 /\
  getSendBps 103 (accounts demo_traffic new_BandwidthManager) =
    (total (sent demo_traffic) 102 + total (sent demo_traffic) 101 + total (sent demo_traffic) 100) / 3 /\
  getRecvBps 102 (accounts (take 4 demo_traffic) new_BandwidthManager) = 30.
Proof.
  split; [vm_compute; reflexivity|]. split; [vm_compute; reflexivity|]. split.
  - apply (rates_are_averages (List.filter (fun t => match t with Sent _ _ _ => true | _ => false end) demo_traffic) 103);
      vm_compute; intuition (discriminate || auto).
  - transitivity ((total (received (take 4 demo_traffic)) (102 - 1) + total (received (take 4 demo_traffic)) (102 - 2) + total (received (take 4 demo_traffic)) (102 - 3)) / 3).
    + apply (rates_are_averages (take 4 demo_traffic) 102); vm_compute; intuition (discriminate || auto).
    + vm_compute. reflexivity.
Defined.

(** Traffic that comes every three seconds clears one bucket only: a burst before it is
    counted for as long as it goes on. *)
Lemma stale_forever n :
  let burst := [(100, 2 ^ 30); (101, 1)] in
  let trickle := map (fun k => (101 + 3 * Z.of_nat k, 1)) (seq 1 n) in
  2 ^ 30 / 3 <= getBps (101 + 3 * Z.of_nat n) (adds (burst ++ trickle) new_RateEstimator).
Proof.
  cbv zeta. assert (E : exists l, adds ([(100, 2 ^ 30); (101, 1)] ++ map (fun k => (101 + 3 * Z.of_nat k, 1)) (seq 1 n)) new_RateEstimator =
      mkRateEstimator (101 + 3 * Z.of_nat n) l [0; 2 ^ 30; 1] /\ 0 <= l <= 1).
  { induction n as [|n (l & IH & Hl)]; [exists 0; split; [vm_compute; reflexivity|lia]|].
    rewrite seq_S, map_app, (assoc_L (++)). unfold adds in *. rewrite fold_left_app, IH. cbn [fold_left map fst snd].
    exists 1. split; [|lia]. replace (101 + 3 * Z.of_nat (1 + n)) with (101 + 3 * Z.of_nat n + 3) by lia.
    set (t := 101 + 3 * Z.of_nat n). unfold add. cbn [current last log].
    rewrite (proj2 (Z.ltb_ge _ _)) by (unfold BANDWIDTH_ESTIMATION_TIMEOUT; lia). cbn [current last log].
    rewrite (proj2 (Z.eqb_neq _ _)) by lia. cbn [negb current last log].
    assert (Hb : bucket (t + 3) = 2%nat) by (unfold bucket, BANDWIDTH_ESTIMATION_TIMEOUT; replace (t + 3) with (2 + (34 + Z.of_nat n) * 3) by lia; by rewrite Z.mod_add).
    unfold at_bucket. rewrite Hb. cbn. f_equal. lia. }
  destruct E as (l & -> & Hl). unfold getBps. cbn [current last log]. set (t := 101 + 3 * Z.of_nat n).
  rewrite (proj2 (Z.ltb_ge _ _)), Z.eqb_refl by (unfold BANDWIDTH_ESTIMATION_TIMEOUT; lia). cbn [negb].
  assert (Hb : bucket t = 2%nat) by (unfold t, bucket, BANDWIDTH_ESTIMATION_TIMEOUT; replace (101 + 3 * Z.of_nat n) with (2 + (33 + Z.of_nat n) * 3) by lia; by rewrite Z.mod_add).
  rewrite Hb. change (sum (without 2 [0; 2 ^ 30; 1])) with (2 ^ 30). rewrite u64_small by lia.
  apply Z.div_le_mono; unfold BANDWIDTH_ESTIMATION_TIMEOUT; lia.
Qed.
