(* ===== verification/MessageHandler.v ===== *)
(** * MessageHandler: the message queue of [src/messagehandler.cpp]

    Messages that are posted, and handed in order to every listener by the pass that the
    application makes. Listeners may call back: [script] says what each call of a listener
    does. What the C++ leaves undefined is [None]: a change of the listeners while they
    are iterated over, a message followed after it was popped, popping from an empty
    queue. A message carries a number that stands for its address. *)

From S2P Require Import Prelude.

(** ** Messages and the handler *)

(* @src src/include/samurai/messagehandler.h:25-45 Samurai::Message *)
Record Message := mkMessage { m_address : nat; m_id : Z; m_data : Z; m_arg1 : Z; m_arg2 : Z }.

#[export] Instance Message_eq_dec : EqDecision Message.
Proof. solve_decision. Defined.

(** What a listener does when it is called, and an application between passes. *)
Inductive Call := Post (id data arg1 arg2 : Z) | Process | AddListener (h : nat) | RemoveListener (h : nat).

Inductive Event := Posted (m : Message) | Handling (m : Message) (to : list nat) | Told (h : nat) (m : Message).

(** [queue] and [busy_queue] with their fronts first; [changes] counts what invalidates
    the iterators of [listener]. *)
(* @src src/include/samurai/messagehandler.h:87-90 Samurai::MessageHandler *)
Record MessageHandler := mkMessageHandler {
  queue : list Message;
  busy_queue : list Message;
  listener : list nat;
  busy : bool;
  next : nat;
  changes : nat;
  script : list (list Call);
  log : list Event
}.

(* @src src/src/messagehandler.cpp:26-28 Samurai::MessageHandler::MessageHandler *)
Definition new_MessageHandler (sc : list (list Call)) : MessageHandler := mkMessageHandler [] [] [] false 0 0 sc [].

Definition with_queue (q : list Message) (w : MessageHandler) : MessageHandler :=
  mkMessageHandler q (busy_queue w) (listener w) (busy w) (next w) (changes w) (script w) (log w).
Definition with_queues (q bq : list Message) (b : bool) (w : MessageHandler) : MessageHandler :=
  mkMessageHandler q bq (listener w) b (next w) (changes w) (script w) (log w).
Definition with_listener (l : list nat) (n : nat) (w : MessageHandler) : MessageHandler :=
  mkMessageHandler (queue w) (busy_queue w) l (busy w) (next w) n (script w) (log w).
Definition with_script (sc : list (list Call)) (w : MessageHandler) : MessageHandler :=
  mkMessageHandler (queue w) (busy_queue w) (listener w) (busy w) (next w) (changes w) sc (log w).
Definition say (e : Event) (w : MessageHandler) : MessageHandler :=
  mkMessageHandler (queue w) (busy_queue w) (listener w) (busy w) (next w) (changes w) (script w) (log w ++ [e]).

(* @src src/src/messagehandler.cpp:32-43 Samurai::MessageHandler::postMessage *)
Definition postMessage (id data arg1 arg2 : Z) (w : MessageHandler) : MessageHandler :=
  let msg := mkMessage (next w) id data arg1 arg2 in
  say (Posted msg)
    (mkMessageHandler (if negb (busy w) then msg :: queue w else queue w) (if negb (busy w) then busy_queue w else msg :: busy_queue w)
       (listener w) (busy w) (S (next w)) (changes w) (script w) (log w)).

(* @src src/src/messagehandler.cpp:66-69 Samurai::MessageHandler::addMessageListener *)
Definition addMessageListener (h : nat) (w : MessageHandler) : MessageHandler := with_listener (listener w ++ [h]) (S (changes w)) w.

Fixpoint erase_first (h : nat) (l : list nat) : list nat :=
  match l with [] => [] | i :: l => if (i =? h)%nat then l else i :: erase_first h l end.

(* @src src/src/messagehandler.cpp:71-77 Samurai::MessageHandler::removeMessageListener *)
Definition removeMessageListener (h : nat) (w : MessageHandler) : MessageHandler :=
  if bool_decide (h ∈ listener w) then with_listener (erase_first h (listener w)) (S (changes w)) w else w.

Section handlers.
(** What the next listener that is called does. *)
Variable react : MessageHandler -> option MessageHandler.

(** The message must still be there when it is handed to the next listener. *)
(* @src src/src/messagehandler.cpp:61-64 Samurai::MessageHandler::handleMessage *)
Fixpoint handleMessage (v : nat) (msg : Message) (l : list nat) (w : MessageHandler) : option MessageHandler :=
  match l with
  | [] => Some w
  | h :: l =>
      if bool_decide (last (queue w) = Some msg) then
        w ← react (say (Told h msg) w);
        if (changes w =? v)%nat then handleMessage v msg l w else None
      else None
  end.

Definition pop_back (w : MessageHandler) : option MessageHandler :=
  match queue w with [] => None | _ => Some (with_queue (removelast (queue w)) w) end.

(** The loop of [process]. *)
(* @src src/src/messagehandler.cpp:47-50 Samurai::MessageHandler::process *)
Fixpoint drain (fuel : nat) (w : MessageHandler) : option MessageHandler :=
  match last (queue w) with
  | None => Some w
  | Some msg =>
      match fuel with
      | O => None
      | S fuel => w ← handleMessage (changes w) msg (listener w) (say (Handling msg (listener w)) w); w ← pop_back w; drain fuel w
      end
  end.

(** What was posted meanwhile is carried over, from its back. Every turn pops a message,
    and only a call of the script posts one. *)
(* @src src/src/messagehandler.cpp:45-59 Samurai::MessageHandler::process *)
Definition process (w : MessageHandler) : option MessageHandler :=
  w ← drain (length (queue w) + length (mjoin (script w))) (with_queues (queue w) (busy_queue w) true w);
  Some (with_queues (busy_queue w ++ queue w) [] false w).
End handlers.

Definition call (react : MessageHandler -> option MessageHandler) (c : Call) (w : MessageHandler) : option MessageHandler :=
  match c with
  | Post id data arg1 arg2 => Some (postMessage id data arg1 arg2 w)
  | Process => process react w
  | AddListener h => Some (addMessageListener h w)
  | RemoveListener h => Some (removeMessageListener h w)
  end.

Fixpoint run_all (f : Call -> MessageHandler -> option MessageHandler) (l : list Call) (w : MessageHandler) : option MessageHandler :=
  match l with [] => Some w | c :: l => w ← f c w; run_all f l w end.

Definition reacts (f : Call -> MessageHandler -> option MessageHandler) (w : MessageHandler) : option MessageHandler :=
  match script w with [] => Some w | cs :: rest => run_all f cs (with_script rest w) end.

(** A nested call takes a reaction of the script. *)
Fixpoint perform (n : nat) (c : Call) (w : MessageHandler) : option MessageHandler :=
  match n with O => None | S n => call (reacts (perform n)) c w end.

(** ** What was posted, handled and told *)

Definition posted (l : list Event) : list Message := omap (fun e => match e with Posted m => Some m | _ => None end) l.
Definition handling (l : list Event) : list (Message * list nat) := omap (fun e => match e with Handling m to => Some (m, to) | _ => None end) l.
Definition told (l : list Event) : list (nat * Message) := omap (fun e => match e with Told h m => Some (h, m) | _ => None end) l.
Definition handled (l : list Event) : list Message := (handling l).*1.
Definition owed (x : Message * list nat) : list (nat * Message) := (fun h => (h, x.1)) <$> x.2.

(** Listeners that post, and do nothing else. *)
Definition posts (c : Call) : bool := match c with Post _ _ _ _ => true | _ => false end.
Definition modest (sc : list (list Call)) : Prop := Forall (fun cs => forallb posts cs = true) sc.

(** ** Listeners that post *)

(** A step in a pass that tells [T] and posts. *)
Record adds (T : list (nat * Message)) (w w' : MessageHandler) : Prop := mkadds {
  ad_queue : queue w' = queue w;
  ad_listener : listener w' = listener w;
  ad_changes : changes w' = changes w;
  ad_busy : busy w' = true;
  ad_handling : handling (log w') = handling (log w);
  ad_told : told (log w') = told (log w) ++ T;
  ad_posted : exists l, busy_queue w' = rev l ++ busy_queue w /\ posted (log w') = posted (log w) ++ l;
  ad_script : (length (script w') <= length (script w))%nat;
  ad_modest : modest (script w) -> modest (script w')
}.

Lemma adds_refl w : busy w = true -> adds [] w w.
Proof. intros Hb. constructor; rewrite ?app_nil_r; try done. exists []. by rewrite app_nil_r. Qed.

Lemma adds_trans T T' w1 w2 w3 : adds T w1 w2 -> adds T' w2 w3 -> adds (T ++ T') w1 w3.
Proof.
  intros [] [Q L C B H T2 (l' & Hl' & Hp') S M]. destruct ad_posted0 as (l & Hl & Hp).
  constructor; try congruence; try lia; try tauto.
  - by rewrite T2, ad_told0, (assoc_L (++)).
  - exists (l ++ l'). rewrite rev_app_distr, Hl', Hl, Hp', Hp, !(assoc_L (++)). done.
Qed.

Lemma omap_snoc {A B} (f : A -> option B) l x : omap f (l ++ [x]) = omap f l ++ match f x with Some y => [y] | None => [] end.
Proof. rewrite omap_app. cbn. by destruct (f x). Qed.

Lemma adds_post id data a1 a2 w : busy w = true -> adds [] w (postMessage id data a1 a2 w).
Proof.
  intros Hb. unfold postMessage. rewrite Hb. cbn [negb]. constructor; cbn [queue listener changes busy script say log busy_queue]; try done.
  - unfold handling. by rewrite omap_snoc, app_nil_r.
  - unfold told. by rewrite omap_snoc.
  - eexists [_]. split; [reflexivity|]. unfold posted. by rewrite omap_snoc.
Qed.

Lemma run_posts n cs w :
  forallb posts cs = true -> busy w = true -> exists w', run_all (perform (S n)) cs w = Some w' /\ adds [] w w'.
Proof.
  revert w. induction cs as [|c cs IH]; intros w Hc Hb; [exists w; split; [done|by apply adds_refl]|].
  cbn [forallb] in Hc. apply andb_true_iff in Hc as [Hc Hcs]. destruct c as [id data a1 a2| | |]; try done. cbn [run_all].
  pose proof (adds_post id data a1 a2 w Hb) as A.
  change (perform (S n) (Post id data a1 a2) w) with (Some (postMessage id data a1 a2 w)). cbn [mbind option_bind].
  destruct (IH (postMessage id data a1 a2 w) Hcs (ad_busy _ _ _ A)) as (w' & Hw & A').
  exists w'. split; [done|]. exact (adds_trans [] [] _ _ _ A A').
Qed.

Lemma react_posts n w :
  modest (script w) -> busy w = true -> (length (script w) <= n)%nat -> exists w', reacts (perform n) w = Some w' /\ adds [] w w'.
Proof.
  intros Hm Hb Hn. unfold reacts. destruct (script w) as [|cs rest] eqn:Es; [exists w; split; [done|by apply adds_refl]|].
  apply Forall_cons in Hm as [Hcs Hrest]. destruct n as [|n]; [cbn in Hn; lia|].
  destruct (run_posts n cs (with_script rest w) Hcs Hb) as (w' & Hw & []). exists w'. split; [done|].
  constructor; try done; cbn in *; rewrite Es; cbn; [lia|]. intros _. by apply ad_modest0.
Qed.

Lemma handle_posts n msg l w :
  modest (script w) -> busy w = true -> (length (script w) <= n)%nat -> last (queue w) = Some msg ->
  exists w', handleMessage (reacts (perform n)) (changes w) msg l w = Some w' /\ adds (owed (msg, l)) w w'.
Proof.
  revert w. induction l as [|h l IH]; intros w Hm Hb Hn Hl; cbn [handleMessage]; [exists w; split; [done|by apply adds_refl]|].
  rewrite bool_decide_true by done.
  assert (A0 : adds [(h, msg)] w (say (Told h msg) w)).
  { constructor; cbn [say log queue listener changes busy script busy_queue]; try done.
    - unfold handling. by rewrite omap_snoc, app_nil_r.
    - unfold told. by rewrite omap_snoc.
    - exists []. unfold posted. by rewrite omap_snoc. }
  destruct (react_posts n (say (Told h msg) w) Hm Hb Hn) as (w1 & -> & A1). cbn [mbind option_bind].
  pose proof (adds_trans _ _ _ _ _ A0 A1) as A. rewrite (ad_changes _ _ _ A), Nat.eqb_refl.
  destruct (IH w1) as (w2 & Hw2 & A2).
  - by apply (ad_modest _ _ _ A).
  - apply (ad_busy _ _ _ A).
  - pose proof (ad_script _ _ _ A). lia.
  - by rewrite (ad_queue _ _ _ A).
  - exists w2. rewrite (ad_changes _ _ _ A) in Hw2. split; [done|]. exact (adds_trans _ _ _ _ _ A A2).
Qed.

(** What a pass over [q], in the order of its handling, leaves. *)
Record passed (q : list Message) (w w' : MessageHandler) : Prop := mkpassed {
  pa_queue : queue w' = [];
  pa_busy : busy w' = true;
  pa_listener : listener w' = listener w;
  pa_handling : handling (log w') = handling (log w) ++ ((fun m => (m, listener w)) <$> q);
  pa_told : told (log w') = told (log w) ++ mjoin ((fun m => owed (m, listener w)) <$> q);
  pa_posted : exists l, busy_queue w' = rev l ++ busy_queue w /\ posted (log w') = posted (log w) ++ l;
  pa_script : (length (script w') <= length (script w))%nat;
  pa_modest : modest (script w')
}.

Lemma drain_posts n q fuel w :
  modest (script w) -> busy w = true -> (length (script w) <= n)%nat -> queue w = rev q -> (length q <= fuel)%nat ->
  exists w', drain (reacts (perform n)) fuel w = Some w' /\ passed q w w'.
Proof.
  revert fuel w. induction q as [|msg q IH]; intros fuel w Hm Hb Hn Hq Hf.
  - exists w. destruct fuel; cbn [drain]; rewrite Hq; (split; [done|]); constructor; rewrite ?app_nil_r; try done; exists []; by rewrite app_nil_r.
  - destruct fuel as [|fuel]; [cbn in Hf; lia|]. cbn [drain]. rewrite Hq. cbn [rev]. rewrite last_snoc.
    set (w0 := say (Handling msg (listener w)) w).
    destruct (handle_posts n msg (listener w) w0 Hm Hb Hn) as (w1 & Hw1 & A); [cbn; rewrite Hq; cbn; apply last_snoc|].
    change (changes w0) with (changes w) in Hw1. rewrite Hw1. cbn [mbind option_bind].
    assert (E : pop_back w1 = Some (with_queue (rev q) w1)).
    { unfold pop_back. rewrite (ad_queue _ _ _ A). cbn [queue w0 say]. rewrite Hq. cbn [rev]. rewrite removelast_last. by destruct (rev q). }
    rewrite E. cbn [mbind option_bind]. destruct A as [AQ AL AC AB AH AT (l & Al & Ap) AS AM].
    destruct (IH fuel (with_queue (rev q) w1)) as (w2 & Hw2 & P); cbn; [by apply AM|done|cbn in AS; lia|done|cbn in Hf; lia|].
    exists w2. split; [exact Hw2|]. destruct P as [PQ PB PL PH PT (l' & Pl & Pp) PS PM].
    subst w0. cbn [log with_queue listener busy_queue script say] in *.
    constructor; try done; try congruence; try lia.
    + rewrite PH, AH, AL. unfold handling. rewrite omap_snoc, <- (assoc_L (++)). done.
    + rewrite PT, AT, AL. unfold told. rewrite omap_snoc, app_nil_r, <- (assoc_L (++)). done.
    + exists (l ++ l'). rewrite rev_app_distr, Pl, Al, Pp, Ap. unfold posted. rewrite omap_snoc, app_nil_r, !(assoc_L (++)). done.
Qed.

(** Between passes. *)
Record rest (n : nat) (w : MessageHandler) : Prop := mkrest {
  re_busy : busy w = false;
  re_busy_queue : busy_queue w = [];
  re_posted : posted (log w) = handled (log w) ++ rev (queue w);
  re_told : told (log w) = mjoin (owed <$> handling (log w));
  re_script : (length (script w) <= n)%nat;
  re_modest : modest (script w)
}.

Lemma process_rest n w :
  rest n w ->
  exists w', perform (S n) Process w = Some w' /\ rest n w' /\
    handling (log w') = handling (log w) ++ ((fun m => (m, listener w)) <$> rev (queue w)) /\ listener w' = listener w.
Proof.
  intros [Hb Hq Hp Ht Hs Hm]. set (w1 := with_queues (queue w) (busy_queue w) true w).
  destruct (drain_posts n (rev (queue w)) (length (queue w) + length (mjoin (script w))) w1) as (w2 & Hd & [PQ PB PL PH PT (l & Pl & Pp) PS PM]);
    [done|done|done|cbn; by rewrite rev_involutive|rewrite length_rev; lia|].
  subst w1. cbn [log with_queues listener busy_queue script] in *. rewrite Hq, app_nil_r in Pl.
  exists (with_queues (busy_queue w2 ++ queue w2) [] false w2). split; [|split; [|done]].
  - cbn [perform call]. unfold process. by rewrite Hd.
  - constructor; cbn [log with_queues busy busy_queue queue script]; try done; try lia.
    + unfold handled. rewrite PH, Pp, PQ, Pl, app_nil_r, rev_involutive, Hp, fmap_app. f_equal.
      unfold handled. f_equal. rewrite <- list_fmap_compose. symmetry. apply list_fmap_id.
    + rewrite PH, PT, Ht, fmap_app, join_app. f_equal. by rewrite <- list_fmap_compose.
Qed.

Lemma perform_rest n c w : rest n w -> exists w', perform (S n) c w = Some w' /\ rest n w'.
Proof.
  intros R. destruct c as [id data a1 a2| |h|h].
  - eexists. split; [reflexivity|]. destruct R as [Hb Hq Hp Ht Hs Hm]. unfold postMessage. rewrite Hb.
    constructor; try done; cbn [queue log say negb]; unfold handled, handling, posted, told in *; rewrite !omap_snoc, !app_nil_r; try done.
    cbn [rev]. by rewrite Hp, (assoc_L (++)).
  - destruct (process_rest n w R) as (w' & ? & ? & _). by exists w'.
  - eexists. split; [reflexivity|]. by destruct R.
  - eexists. split; [reflexivity|]. unfold removeMessageListener. destruct (bool_decide _); by destruct R.
Qed.

Lemma calls_rest n calls w : rest n w -> exists w', run_all (perform (S n)) calls w = Some w' /\ rest n w'.
Proof.
  revert w. induction calls as [|c calls IH]; intros w R; [by exists w|]. cbn [run_all].
  destruct (perform_rest n c w R) as (w1 & -> & R1). cbn [mbind option_bind]. by apply IH.
Qed.

(** C35. Listeners that only post, whatever they post and whenever they are called: any
    calls of the application come back, every message is handled once and in the order of
    the posts, what is not handled yet is queued, and each message was told to exactly the
    listeners there were, in their order; and one more pass comes back having handled all
    that was queued, what its listeners posted meanwhile being kept for the next one. *)
Theorem messages_once_in_order (sc : list (list Call)) (calls : list Call) :
  modest sc ->
  exists w w', run_all (perform (S (length sc))) calls (new_MessageHandler sc) = Some w /\
    busy w = false /\ posted (log w) = handled (log w) ++ rev (queue w) /\ told (log w) = mjoin (owed <$> handling (log w)) /\
    perform (S (length sc)) Process w = Some w' /\
    handling (log w') = handling (log w) ++ ((fun m => (m, listener w)) <$> rev (queue w)) /\
    posted (log w') = handled (log w') ++ rev (queue w') /\ told (log w') = mjoin (owed <$> handling (log w')).
Proof.
  intros Hm. destruct (calls_rest (length sc) calls (new_MessageHandler sc)) as (w & Hw & R); [by constructor|].
  destruct (process_rest _ _ R) as (w' & Hw' & R' & HH & _). exists w, w'. destruct R, R'. done.
Qed.

(** Two listeners, of which the first posts another message when it is told of one. *)
Lemma messages_once_in_order_witness :
  let sc := [[Post 2 0 0 0]; []] in let calls := [AddListener 7; AddListener 8; Post 1 0 0 0; Process] in
  modest sc /\
  exists w w', run_all (perform (S (length sc))) calls (new_MessageHandler sc) = Some w /\
    busy w = false /\ posted (log w) = handled (log w) ++ rev (queue w) /\ told (log w) = mjoin (owed <$> handling (log w)) /\
    perform (S (length sc)) Process w = Some w' /\
    handling (log w') = handling (log w) ++ ((fun m => (m, listener w)) <$> rev (queue w)) /\
    posted (log w') = handled (log w') ++ rev (queue w') /\ told (log w') = mjoin (owed <$> handling (log w')).
Proof.
  assert (H : modest [[Post 2 0 0 0]; []]) by (repeat constructor).
  exact (conj H (messages_once_in_order [[Post 2 0 0 0]; []] [AddListener 7; AddListener 8; Post 1 0 0 0; Process] H)).
Defined.

(** ** Listeners that do more *)

Definition msg1 : Message := mkMessage 0 1 0 0 0.
Definition msg2 : Message := mkMessage 1 2 0 0 0.

(** A listener that posts and then makes a pass: it is told twice of the message being
    handled, and the message it posted is popped in the place of that one: nobody is told
    of it. *)
Lemma nested_pass_loses_message :
  exists w, run_all (perform 3) [AddListener 7; Post 1 0 0 0; Process] (new_MessageHandler [[Post 2 0 0 0; Process]; []]) = Some w /\
    posted (log w) = [msg1; msg2] /\ told (log w) = [(7%nat, msg1); (7%nat, msg1)] /\ queue w = [] /\ busy_queue w = [].
Proof. eexists. split; [vm_compute; reflexivity|]. repeat split. Qed.

(** A listener that removes itself when it is told: the loop over the listeners goes on
    with iterators that the removal invalidated. *)
Lemma leaving_while_told :
  run_all (perform 3) [AddListener 7; AddListener 8; Post 1 0 0 0; Process] (new_MessageHandler [[RemoveListener 7]]) = None /\
  exists w, run_all (perform 3) [AddListener 7; AddListener 8; Post 1 0 0 0; Process] (new_MessageHandler [[]]) = Some w /\
    told (log w) = [(7%nat, msg1); (8%nat, msg1)].
Proof. split; [vm_compute; reflexivity|]. eexists. split; [vm_compute; reflexivity|reflexivity]. Qed.
