(* ===== verification/SocksResolver.v ===== *)
(** * SocksResolver: [src/io/net/dns/resolver-socks.cpp] and [dns/resolver.cpp]

    The resolver that asks a Tor proxy, over the handshake of [Socks5] and its pump, and
    the choice between it and the pool. Its socket is its descriptor and what it asks of
    the monitor; what the system answers is an environment that is asked at every tick of
    a clock, and what the socket and the timers report are inputs. The handler is told
    last, so its calls are further inputs. *)

From S2P Require Import Prelude Strings Inet Proxy Socks5.
From S2P Require Socket ResolverPool.

Abbreviation Error := ResolverPool.Error.
Abbreviation Answer := ResolverPool.Answer.
Abbreviation Found := ResolverPool.EventHostFound.
Abbreviation Failure := ResolverPool.EventHostError.

(** ** Data *)

Record Connection := mkConnection { fd : Z; write_notifier : bool }.

(** [deferred] and [deadline] are whether these timers are armed: each fires once, and
    what it does then drops them. *)
(* @src src/include/samurai/io/net/dns/resolver-socks.h:108-127 Samurai::IO::Net::DNS::SocksResolver *)
Record SocksResolver := mkSocksResolver {
  eventHandler : bool;
  settings : ProxySettings;
  socket : option Connection;
  handshake : option Socks5Handshake;
  deferred : bool;
  deadline : bool;
  queried : InetAddress;
  deferred_error : Error;
  reverse_lookup : bool;
  reported : bool
}.

(** How [connect] on a socket to an address goes: it waits, is connected at once, or
    fails at once. *)
Inductive Outcome := Waits | Connects | Fails.

Record Env := mkEnv {
  EAGAIN : Z; EWOULDBLOCK : Z; EINTR : Z;
  e_connect : nat -> Outcome;
  e_send : nat -> bytes -> Z + Z;
  e_recv : nat -> Z -> Z + bytes
}.

(** What is seen from outside; [Returned] is the call that started the lookup coming
    back. *)
Inductive Output := ConnectTo (fd : Z) (a : InetAddress) (p : Z) | Closed (fd : Z) | Told (a : Answer) | Returned.

(** [self] is [None] once the resolver is destroyed; [sent] and [got] are the bytes
    exchanged with the proxy. *)
Record world := mkWorld {
  self : option SocksResolver;
  clock : nat;
  sent : bytes;
  got : bytes;
  log : list Output
}.

Definition put (r : SocksResolver) (w : world) : world := mkWorld (Some r) (clock w) (sent w) (got w) (log w).
Definition say (l : list Output) (w : world) : world := mkWorld (self w) (clock w) (sent w) (got w) (log w ++ l).

Definition with_socket (c : option Connection) (r : SocksResolver) : SocksResolver :=
  mkSocksResolver (eventHandler r) (settings r) c (handshake r) (deferred r) (deadline r) (queried r) (deferred_error r) (reverse_lookup r) (reported r).
Definition with_handshake (h : option Socks5Handshake) (r : SocksResolver) : SocksResolver :=
  mkSocksResolver (eventHandler r) (settings r) (socket r) h (deferred r) (deadline r) (queried r) (deferred_error r) (reverse_lookup r) (reported r).
Definition with_deferred (b : bool) (e : Error) (r : SocksResolver) : SocksResolver :=
  mkSocksResolver (eventHandler r) (settings r) (socket r) (handshake r) b (deadline r) (queried r) e (reverse_lookup r) (reported r).
Definition with_deadline (b : bool) (r : SocksResolver) : SocksResolver :=
  mkSocksResolver (eventHandler r) (settings r) (socket r) (handshake r) (deferred r) b (queried r) (deferred_error r) (reverse_lookup r) (reported r).
Definition with_settings (s : ProxySettings) (r : SocksResolver) : SocksResolver :=
  mkSocksResolver (eventHandler r) s (socket r) (handshake r) (deferred r) (deadline r) (queried r) (deferred_error r) (reverse_lookup r) (reported r).
Definition with_reported (r : SocksResolver) : SocksResolver :=
  mkSocksResolver (eventHandler r) (settings r) (socket r) (handshake r) (deferred r) (deadline r) (queried r) (deferred_error r) (reverse_lookup r) true.
Definition asking (rev : bool) (a : InetAddress) (r : SocksResolver) : SocksResolver :=
  mkSocksResolver (eventHandler r) (settings r) (socket r) (handshake r) (deferred r) (deadline r) a (deferred_error r) rev (reported r).

Section resolver.
Variable inet_pton inet_ntop : Version -> bytes -> option bytes.
Variable env : Env.

(* @src src/src/io/net/dns/resolver-socks.cpp:26-33 usable *)
Definition usable (s : ProxySettings) : bool :=
  if negb (isEnabled s) then false
  else if negb (tor_extensions s) then false
  else negb (bool_decide (version (new_InetAddress inet_pton (host s)) = Unspecified)).

Definition no_address : InetAddress := mkInetAddress Unspecified zero_data [] Unresolved.

(* @src src/src/io/net/dns/resolver-socks.cpp:64-68 Samurai::IO::Net::DNS::SocksResolver::SocksResolver *)
Definition new_SocksResolver (eh : bool) (default : ProxySettings) : SocksResolver :=
  mkSocksResolver eh default None None false false no_address ResolverPool.Unknown false false.

(* @src src/src/io/net/dns/resolver-socks.cpp:81-93 Samurai::IO::Net::DNS::SocksResolver::internal_teardown *)
Definition internal_teardown (r : SocksResolver) : SocksResolver * list Output :=
  (with_socket None (with_handshake None (with_deferred false (deferred_error r) (with_deadline false r))),
   match socket r with Some c => [Closed (fd c)] | None => [] end).

(** [reported = true], the teardown, and the handler. *)
Definition report (a : Answer) (r : SocksResolver) (w : world) : world :=
  let '(r, l) := internal_teardown (with_reported r) in
  say (l ++ if eventHandler r then [Told a] else []) (put r w).

(* @src src/src/io/net/dns/resolver-socks.cpp:190-219 Samurai::IO::Net::DNS::SocksResolver::EventDisconnected *)
Definition internal_failed (e : Error) (r : SocksResolver) (w : world) : world :=
  if reported r then w else report (Failure e) r w.

(* @src src/src/io/net/dns/resolver-socks.cpp:287-301 Samurai::IO::Net::DNS::SocksResolver::internal_found *)
Definition internal_found (a : InetAddress) (r : SocksResolver) (w : world) : world := report (Found a) r w.

Definition send_at (t : nat) (d : bytes) : nat * (Z + Z) := (S t, e_send env t d).
Definition recv_at (t : nat) (n : Z) : nat * (Z + bytes) := (S t, e_recv env t n).

Definition setHostname (n : bytes) (a : InetAddress) : InetAddress := mkInetAddress (version a) (data a) n (resolveState a).

(* @src src/src/io/net/dns/resolver-socks.cpp:254-283 Samurai::IO::Net::DNS::SocksResolver::internal_pump *)
Definition answer_of (r : SocksResolver) (res : Result) : Answer :=
  if reverse_lookup r then
    if bool_decide (name res = []) then Failure ResolverPool.NoAddress else Found (setHostname (name res) (queried r))
  else if negb (isResolved (address res)) then Failure ResolverPool.NoAddress
  else Found (address res).

(** The pump needs at most 270 turns ([Socks5.pump_loop]). *)
(* @src src/src/io/net/dns/resolver-socks.cpp:222-284 Samurai::IO::Net::DNS::SocksResolver::internal_pump *)
Definition internal_pump (r : SocksResolver) (w : world) : option world :=
  match reported r, socket r, handshake r with
  | false, Some c, Some h =>
      '((t, s, g), h, want_write, ec) ←
        socks5_pump (logged_send send_at) (logged_recv recv_at) (EAGAIN env) (EWOULDBLOCK env) (EINTR env) 270 (clock w, sent w, got w) h;
      let w := mkWorld (self w) t s g (log w) in
      let r := with_socket (Some (mkConnection (fd c) want_write)) (with_handshake (Some h) r) in
      Some
        match ec, status h with
        | Some _, _ => report (Failure ResolverPool.ServerError) r w
        | None, Failed => report (Failure (if reply (result h) =? 0x04 then ResolverPool.NotFound else ResolverPool.ServerError)) r w
        | None, Done => report (answer_of r (result h)) r w
        | None, _ => put r w
        end
  | _, _, _ => Some (put r w)
  end.

(* @src src/src/io/net/dns/resolver-socks.cpp:152-156 Samurai::IO::Net::DNS::SocksResolver::internal_fail_later *)
Definition internal_fail_later (why : Error) (r : SocksResolver) (w : world) : world := put (with_deferred true why r) w.

(** [Socket::create] never returns null; a socket that fails at once tells its handler
    before [connect] returns, and one that is connected at once likewise. *)
(* @src src/src/io/net/dns/resolver-socks.cpp:111-149 Samurai::IO::Net::DNS::SocksResolver::internal_start *)
Definition internal_start (command : Command) (query : bytes) (r : SocksResolver) (w : world) : option world :=
  let s := setAllowPrivateTargets true (settings r) in
  let h := new_Socks5Handshake inet_pton s command query 0 in
  let r := with_handshake (Some h) (with_settings s r) in
  if bool_decide (status h = Failed) then Some (internal_fail_later ResolverPool.NotFound r w)
  else
    let proxy_host := new_InetAddress inet_pton (host s) in
    let d := Z.of_nat (clock w) in
    let r := with_deadline true (with_socket (Some (mkConnection d false)) r) in
    let outcome := e_connect env (clock w) in
    let w := say [ConnectTo d proxy_host (port s)] (mkWorld (Some r) (S (clock w)) (sent w) (got w) (log w)) in
    match outcome with
    | Waits => Some w
    | Connects => internal_pump r w
    | Fails => Some (internal_failed ResolverPool.ServerError r w)
    end.

(* @src src/src/io/net/dns/resolver-socks.cpp:96-100 Samurai::IO::Net::DNS::SocksResolver::lookup *)
Definition lookup (name : bytes) (r : SocksResolver) (w : world) : option world :=
  internal_start Resolve name (asking false (queried r) r) w.

(* @src src/src/io/net/dns/resolver-socks.cpp:103-108 Samurai::IO::Net::DNS::SocksResolver::lookupAddress *)
Definition lookupAddress (a : InetAddress) (r : SocksResolver) (w : world) : option world :=
  internal_start ResolvePtr (getAddress inet_ntop a) (asking true a r) w.

(** ** What reaches it *)

Inductive Input := FromSocket (e : Socket.Event) | TimerFires (is_deferred : bool) | Destroy.

(** The events that differ in what they do. *)
Definition on_socket (e : Socket.Event) (r : SocksResolver) (w : world) : option world :=
  match e with
  | Socket.EventConnected | Socket.EventDataAvailable | Socket.EventCanWrite => internal_pump r w
  | Socket.EventDisconnected | Socket.EventError _ => Some (internal_failed ResolverPool.ServerError r w)
  | Socket.EventTimeout => Some (internal_failed ResolverPool.TryAgain r w)
  | _ => Some w
  end.

(* @src src/src/io/net/dns/resolver-socks.cpp:159-169 Samurai::IO::Net::DNS::SocksResolver::EventTimeout *)
Definition EventTimeout (is_deferred : bool) (r : SocksResolver) (w : world) : world :=
  if reported r then w else report (Failure (if is_deferred then deferred_error r else ResolverPool.TryAgain)) r w.

(* @src src/src/io/net/dns/resolver-socks.cpp:71-78 Samurai::IO::Net::DNS::SocksResolver::~SocksResolver *)
Definition destroy (r : SocksResolver) (w : world) : world :=
  let '(_, l) := internal_teardown (with_reported r) in mkWorld None (clock w) (sent w) (got w) (log w ++ l).

(** A socket that is gone has no handler, and a timer that is gone does not fire. *)
Definition step (i : Input) (w : world) : option world :=
  match self w with
  | None => Some w
  | Some r =>
      match i with
      | FromSocket e => if bool_decide (is_Some (socket r)) then on_socket e r w else Some w
      | TimerFires is_deferred => Some (if if is_deferred then deferred r else deadline r then EventTimeout is_deferred r w else w)
      | Destroy => Some (destroy r w)
      end
  end.

Fixpoint run (l : list Input) (w : world) : option world :=
  match l with [] => Some w | i :: l => w ← step i w; run l w end.

(** ** The choice of a resolver *)

Definition start (t : nat) : world := mkWorld None t [] [] [].
Definition returns (w : world) : world := say [Returned] w.

(* @src src/src/io/net/dns/resolver-socks.cpp:39-48 Samurai::IO::Net::DNS::SocksResolver::forward *)
Definition forward (t : nat) (eh : bool) (name : option bytes) (default : ProxySettings) : option (option world) :=
  match name with
  | None => Some None
  | Some n => if negb (usable default) then Some None else w ← lookup n (new_SocksResolver eh default) (start t); Some (Some (returns w))
  end.

(* @src src/src/io/net/dns/resolver-socks.cpp:51-61 Samurai::IO::Net::DNS::SocksResolver::reverse *)
Definition reverse (t : nat) (eh : bool) (a : InetAddress) (default : ProxySettings) : option (option world) :=
  if negb (usable default) then Some None else w ← lookupAddress a (new_SocksResolver eh default) (start t); Some (Some (returns w)).

(** Whether the pool's notifier can be made when a request is submitted. *)
Variable notifier_ok : nat -> bool.

(** What a caller is given, with what it was told meanwhile. *)
Inductive Resolver :=
  | ViaProxy (w : world)
  | Pooled (told : option Answer) (u : ResolverPool.PooledResolver).

(* @src src/src/io/net/dns/resolver.cpp:40-49 Samurai::IO::Net::DNS::Resolver::getHostByName *)
Definition getHostByName (t : nat) (eh : bool) (name : option bytes) (default : ProxySettings) (p : ResolverPool.Pool) : option (Resolver * ResolverPool.Pool) :=
  via_proxy ← forward t eh name default;
  match via_proxy with
  | Some w => Some (ViaProxy w, p)
  | None =>
      let '(told, u, p) := ResolverPool.lookup notifier_ok (from_option id [] name) (ResolverPool.new_PooledResolver eh) p in Some (Pooled told u, p)
  end.

(* @src src/src/io/net/dns/resolver.cpp:52-63 Samurai::IO::Net::DNS::Resolver::getNameByAddress *)
Definition getNameByAddress (t : nat) (eh : bool) (a : InetAddress) (default : ProxySettings) (p : ResolverPool.Pool) : option (Resolver * ResolverPool.Pool) :=
  via_proxy ← reverse t eh a default;
  match via_proxy with
  | Some w => Some (ViaProxy w, p)
  | None =>
      let '(told, u, p) := ResolverPool.lookupAddress notifier_ok a (ResolverPool.new_PooledResolver eh) p in Some (Pooled told u, p)
  end.
End resolver.

(** ** Invariant *)

Definition answers (l : list Output) : list Answer := omap (fun o => match o with Told a => Some a | _ => None end) l.
Definition opened (l : list Output) : list Z := omap (fun o => match o with ConnectTo d _ _ => Some d | _ => None end) l.
Definition closed_fds (l : list Output) : list Z := omap (fun o => match o with Closed d => Some d | _ => None end) l.
Definition peers (l : list Output) : list (InetAddress * Z) := omap (fun o => match o with ConnectTo _ a p => Some (a, p) | _ => None end) l.

(** What is asked: a name, or an address. *)
Definition question_bytes (inet_ntop : Version -> bytes -> option bytes) (q : bytes + InetAddress) : bytes :=
  match q with inl n => n | inr a => getAddress inet_ntop a end.
Definition question_command (q : bytes + InetAddress) : Command := match q with inl _ => Resolve | inr _ => ResolvePtr end.

(** What a proxy's granting reply answers the question with. *)
Definition answers_with (q : bytes + InetAddress) (res : Result) (x : InetAddress) : Prop :=
  match q with
  | inl _ => isResolved (address res) = true /\ x = address res
  | inr a => name res <> [] /\ x = setHostname (name res) a
  end.

Section correctness.
Variable inet_pton inet_ntop : Version -> bytes -> option bytes.
Variable env : Env.
Hypothesis send_counts : forall t d n, e_send env t d = inr n -> 0 <= n <= zlen d.
Hypothesis recv_bounded : forall t want d, 0 <= want -> e_recv env t want = inr d -> zlen d <= want.

Section question.
Variable eh : bool.
Variable dflt : ProxySettings.
Variable q : bytes + InetAddress.

Abbreviation S' := (setAllowPrivateTargets true dflt).
Abbreviation talk h s g := (exchange inet_pton S' (question_command q) (question_bytes inet_ntop q) 0 h s g).
Abbreviation question := (request (new_Socks5Handshake inet_pton S' (question_command q) (question_bytes inet_ntop q) 0)).

(** Why an address was told. *)
Definition justified (w : world) : Prop :=
  forall x, Found x ∈ answers (log w) -> exists h, talk h (sent w) (got w) /\ status h = Done /\ answers_with q (result h) x.

(** The resolver's fields that nothing changes. *)
Definition about (r : SocksResolver) : Prop :=
  eventHandler r = eh /\ settings r = S' /\ reverse_lookup r = match q with inl _ => false | inr _ => true end /\
  match q with inl _ => True | inr a => queried r = a end.

Definition idle (r : SocksResolver) : Prop := socket r = None /\ handshake r = None /\ deferred r = false /\ deadline r = false.

Definition under_way (r : SocksResolver) (w : world) : Prop :=
  answers (log w) = [] /\
  (deferred r = true /\ deadline r = false /\ socket r = None /\ opened (log w) = closed_fds (log w) \/
   deadline r = true /\ deferred r = false /\
   exists c h, socket r = Some c /\ handshake r = Some h /\ opened (log w) = closed_fds (log w) ++ [fd c] /\ talk h (sent w) (got w)).

Record sound (w : world) : Prop := mksound {
  so_allowed : allowed S' question (sent w) (got w);
  so_justified : justified w;
  so_once : (length (answers (log w)) <= 1)%nat;
  so_peers : Forall (eq (new_InetAddress inet_pton (host dflt), port dflt)) (peers (log w));
  so_self : match self w with
            | None => opened (log w) = closed_fds (log w)
            | Some r => about r /\ if reported r then idle r /\ opened (log w) = closed_fds (log w) /\ (eh = true -> answers (log w) <> []) else under_way r w
            end
}.

Lemma talk_allowed h s g : talk h s g -> allowed S' question s g.
Proof. intros H. apply exchange_stage in H as (<- & <- & _ & Hs). by apply stage_allowed. Qed.

Definition to_proxy (w : world) : Prop := Forall (eq (new_InetAddress inet_pton (host dflt), port dflt)) (peers (log w)).

(** A state that is under way, reported. *)
Lemma report_sound a r w :
  about r -> under_way r w -> allowed S' question (sent w) (got w) -> to_proxy w ->
  (forall x, a = Found x -> exists h, talk h (sent w) (got w) /\ status h = Done /\ answers_with q (result h) x) ->
  sound (report a r w).
Proof.
  intros A (Ha & U) Hal Hp Hx. pose proof A as (He & _). unfold report, internal_teardown.
  set (l := match socket (with_reported r) with Some c => [Closed (fd c)] | None => [] end ++ _).
  assert (An : answers (log w ++ l) = if eh then [a] else []).
  { unfold answers in *. subst l. cbn. rewrite !omap_app, Ha, He. by destruct (socket r), eh. }
  assert (An' : eh = true -> answers (log w ++ l) <> []) by (intros Heh; by rewrite An, Heh).
  constructor; cbn [say put log sent got self]; try done.
  - intros x Hin. cbn [say put log] in Hin. rewrite An in Hin. destruct eh; [|by apply elem_of_nil in Hin]. apply list_elem_of_singleton in Hin. by apply Hx.
  - rewrite An. destruct eh; cbn; lia.
  - unfold to_proxy, peers in *. subst l. rewrite !omap_app. cbn. by destruct (socket r), (eventHandler r); cbn; rewrite ?app_nil_r.
  - split; [done|]. cbn. split; [done|]. split; [|exact An'].
    unfold opened, closed_fds in *. subst l. rewrite !omap_app. cbn.
    destruct U as [(_ & _ & -> & Ho)|(_ & _ & c & h & -> & _ & Ho & _)]; rewrite Ho; destruct (eventHandler r); cbn; rewrite ?app_nil_r; done.
Qed.

Lemma put_sound r w :
  about r -> reported r = false -> under_way r w -> allowed S' question (sent w) (got w) -> to_proxy w -> sound (put r w).
Proof.
  intros A Hr U Hal Hp. pose proof U as (Ha & _). constructor; try done.
  - intros x. change (log (put r w)) with (log w). rewrite Ha. by intros ?%elem_of_nil.
  - change (log (put r w)) with (log w). rewrite Ha. cbn. lia.
  - cbn [self put]. split; [done|]. by rewrite Hr.
Qed.

Lemma pump_sound r w :
  about r -> reported r = false -> under_way r w -> allowed S' question (sent w) (got w) -> to_proxy w ->
  exists w', internal_pump env r w = Some w' /\ sound w'.
Proof.
  intros A Hr U Hal Hp. unfold internal_pump. rewrite Hr. pose proof U as (Ha & [(Hd & Hl & Hs & Ho)|(Hl & Hd & c & h & Hs & Hh & Ho & T)]); rewrite Hs.
  - eexists. split; [done|]. by apply put_sound.
  - rewrite Hh.
    edestruct (pump_loop (send_at env) (recv_at env) (EAGAIN env) (EWOULDBLOCK env) (EINTR env)) with (fuel := 270%nat) (s := clock w)
      as (t & s' & g' & h' & ww & ec & E & T' & _); [|  |exact T| |].
    + intros t d t' n [= _ He]. by eapply send_counts.
    + intros t want t' d Hw [= _ He]. by eapply recv_bounded.
    + pose proof (exchange_stage _ _ _ _ _ _ _ _ T) as (_ & _ & Hi & _). pose proof (left_to_do_range h Hi). lia.
    + rewrite E. cbn [mbind option_bind]. eexists. split; [reflexivity|].
      set (w1 := mkWorld (self w) t s' g' (log w)). set (r1 := with_socket _ _).
      assert (A1 : about r1) by (by destruct A as (? & ? & ? & ?); repeat split).
      assert (U1 : under_way r1 w1) by (split; [done|right; split_and!; try done; exists (mkConnection (fd c) ww), h'; done]).
      pose proof (talk_allowed _ _ _ T') as Hal1.
      assert (R : forall e, sound (report (Failure e) r1 w1)) by (intros e; by apply report_sound).
      destruct ec as [ec|]; [apply R|]. destruct (status h') eqn:Hst; [| | |apply R].
      1, 2: by apply put_sound.
      apply report_sound; try done. intros x Hx. exists h'. split; [done|]. split; [done|].
      unfold answer_of in Hx. change (reverse_lookup r1) with (reverse_lookup r) in Hx. change (queried r1) with (queried r) in Hx.
      destruct A as (_ & _ & Hrev & Hq). rewrite Hrev in Hx. unfold answers_with. destruct q as [n|a0].
      * destruct (isResolved (address (result h'))) eqn:Hres; cbn in Hx; [|done]. by injection Hx as <-.
      * rewrite Hq in Hx. case_bool_decide; [done|]. by injection Hx as <-.
Qed.

Lemma failed_sound e r w : self w = Some r -> sound w -> sound (internal_failed e r w).
Proof.
  intros Hs S. unfold internal_failed. pose proof (so_self _ S) as Hself. rewrite Hs in Hself. destruct Hself as [A B].
  destruct (reported r); [done|]. apply report_sound; try done; apply S.
Qed.

Lemma step_sound i w : sound w -> exists w', step env i w = Some w' /\ sound w'.
Proof.
  intros S. unfold step. destruct (self w) as [r|] eqn:Hs; [|by exists w].
  pose proof (so_self _ S) as Hself. rewrite Hs in Hself. destruct Hself as [A B]. destruct i as [e|b|].
  - case_bool_decide as Hc; [|by exists w].
    assert (Hr : reported r = false).
    { destruct (reported r); [|done]. destruct B as ((Hn & _) & _). rewrite Hn in Hc. by destruct Hc. }
    rewrite Hr in B. unfold on_socket.
    destruct e; try (by exists w); try (eexists; split; [done|by apply failed_sound]); apply pump_sound; try done; apply S.
  - eexists. split; [done|]. destruct (if b then deferred r else deadline r); [|done].
    change (sound (internal_failed (if b then deferred_error r else ResolverPool.TryAgain) r w)). by apply failed_sound.
  - eexists. split; [done|]. unfold destroy, internal_teardown.
    set (l := match socket (with_reported r) with Some c => [Closed (fd c)] | None => [] end).
    assert (An : answers (log w ++ l) = answers (log w)).
    { unfold answers. rewrite omap_app. subst l. destruct (socket _); cbn; by rewrite app_nil_r. }
    assert (E : opened (log w ++ l) = closed_fds (log w ++ l)).
    { unfold under_way, opened, closed_fds in *. rewrite !omap_app. subst l. cbn. destruct (reported r).
      - destruct B as ((-> & _) & Ho & _). cbn. by rewrite Ho.
      - destruct B as (_ & [(_ & _ & -> & Ho)|(_ & _ & c & h & -> & _ & Ho & _)]); rewrite Ho; cbn; by rewrite ?app_nil_r. }
    constructor; cbn [sent got log self]; try exact E; try apply S.
    + intros x. cbn [log sent got]. rewrite An. apply S.
    + rewrite An. apply S.
    + unfold peers. rewrite omap_app. subst l. destruct (socket _); cbn; rewrite app_nil_r; apply S.
Qed.

Lemma returns_sound w : sound w -> sound (returns w).
Proof.
  intros [Al J O P Sf].
  assert (E : answers (log w ++ [Returned]) = answers (log w) /\ opened (log w ++ [Returned]) = opened (log w) /\
              closed_fds (log w ++ [Returned]) = closed_fds (log w) /\ peers (log w ++ [Returned]) = peers (log w)).
  { unfold answers, opened, closed_fds, peers. rewrite !omap_app. cbn. by rewrite !app_nil_r. }
  destruct E as (E1 & E2 & E3 & E4). unfold justified, under_way in *.
  constructor; cbn [returns say log sent got self]; rewrite ?E1, ?E4; try done.
  - intros x. cbn [returns say log sent got]. rewrite E1. apply J.
  - rewrite E2, E3. destruct (self w) as [r|]; [|done]. unfold under_way. cbn [returns say log sent got]. by rewrite E1, E2, E3.
Qed.

Lemma internal_start_sound t r :
  about (with_settings S' r) -> settings r = dflt -> socket r = None -> deadline r = false -> deferred r = false -> reported r = false ->
  exists w, internal_start inet_pton env (question_command q) (question_bytes inet_ntop q) r (start t) = Some w /\ sound w.
Proof.
  intros A Hset Hsock Hdl Hdf Hr. unfold internal_start. rewrite Hset.
  set (h := new_Socks5Handshake _ _ _ _ _). assert (T : talk h [] []) by apply exchange_start.
  pose proof (talk_allowed _ _ _ T) as Hal.
  assert (A1 : forall r', eventHandler r' = eventHandler r -> settings r' = S' -> reverse_lookup r' = reverse_lookup r -> queried r' = queried r -> about r').
  { intros r' E1 E2 E3 E4. unfold about. rewrite E1, E2, E3, E4. by destruct A as (? & _ & ? & ?). }
  case_bool_decide.
  - eexists. split; [done|]. unfold internal_fail_later. apply put_sound; try done.
    + split; [done|]. left. by cbn.
    + by apply Forall_nil.
  - set (r1 := with_deadline true _). set (w1 := say _ _).
    assert (R1 : about r1) by (by apply A1).
    assert (Hr1 : reported r1 = false) by done.
    assert (U : under_way r1 w1) by (split; [done|]; right; split_and!; try done; by exists (mkConnection (Z.of_nat t) false), h).
    assert (P : to_proxy w1) by (by repeat constructor).
    assert (S1 : sound w1) by exact (put_sound r1 w1 R1 Hr1 U Hal P).
    change (clock (start t)) with t.
    destruct (e_connect env t); [by exists w1|by apply pump_sound|]. eexists. split; [done|]. by apply failed_sound.
Qed.

Lemma run_sound l w : sound w -> exists w', run env l w = Some w' /\ sound w'.
Proof.
  revert w. induction l as [|i l IH]; intros w S; [by exists w|]. cbn [run].
  destruct (step_sound i w S) as (w1 & -> & S1). cbn [mbind option_bind]. by apply IH.
Qed.

(** What is given to who asks. *)
Definition ask (can_start : nat -> bool) (t : nat) (p : ResolverPool.Pool) : option (Resolver * ResolverPool.Pool) :=
  match q with
  | inl n => getHostByName inet_pton env can_start t eh (Some n) dflt p
  | inr a => getNameByAddress inet_pton inet_ntop env can_start t eh a dflt p
  end.

Lemma ask_sound can_start t p :
  usable inet_pton dflt = true -> exists w, ask can_start t p = Some (ViaProxy w, p) /\ sound w.
Proof.
  intros Hu.
  assert (H : forall r, about (with_settings S' r) -> settings r = dflt -> socket r = None -> deadline r = false -> deferred r = false -> reported r = false ->
    exists w, internal_start inet_pton env (question_command q) (question_bytes inet_ntop q) r (start t) = Some w /\ sound (returns w)).
  { intros r A H1 H2 H3 H4 H5. destruct (internal_start_sound t r A H1 H2 H3 H4 H5) as (w & Hw & S). exists w. split; [done|]. by apply returns_sound. }
  unfold ask. destruct q as [n|a] eqn:Eq.
  - unfold getHostByName, forward. rewrite Hu. cbn [negb]. unfold lookup.
    destruct (H (asking false no_address (new_SocksResolver eh dflt))) as (w & E & S); [by unfold about; rewrite Eq|done..|].
    unfold question_command, question_bytes in E. change (queried (new_SocksResolver eh dflt)) with no_address. rewrite E. by eexists.
  - unfold getNameByAddress, reverse. rewrite Hu. cbn [negb]. unfold lookupAddress.
    destruct (H (asking true a (new_SocksResolver eh dflt))) as (w & E & S); [by unfold about; rewrite Eq|done..|].
    unfold question_command, question_bytes in E. rewrite E. by eexists.
Qed.
End question.
End correctness.

(** ** Properties *)

(** C23. Through a Tor proxy that is an address, a lookup of a name or of an address never
    reaches the pool, and so never the system's resolver: the only connections go to the
    proxy, and the proxy is sent the question in the order of the handshake only. Whatever
    the proxy, the socket and the timers do, every event comes back; the handler is told
    at most once, and of an address only if the proxy granted the question with it; after
    that, and once destroyed, nothing is held. As long as nothing was told, a timer is
    armed that tells. *)
Theorem proxied_lookup_reports (inet_pton inet_ntop : Version -> bytes -> option bytes) (env : Env)
  (send_counts : forall t d n, e_send env t d = inr n -> 0 <= n <= zlen d)
  (recv_bounded : forall t want d, 0 <= want -> e_recv env t want = inr d -> zlen d <= want)
  (eh : bool) (dflt : ProxySettings) (q : bytes + InetAddress) (can_start : nat -> bool) (t : nat) (p : ResolverPool.Pool) (l : list Input)
  (Hu : usable inet_pton dflt = true) :
  let s := setAllowPrivateTargets true dflt in
  let question := question_bytes inet_ntop q in
  exists w0 w, ask inet_pton inet_ntop env eh dflt q can_start t p = Some (ViaProxy w0, p) /\ run env l w0 = Some w /\
    Forall (eq (new_InetAddress inet_pton (host dflt), port dflt)) (peers (log w)) /\
    allowed s (request (new_Socks5Handshake inet_pton s (question_command q) question 0)) (sent w) (got w) /\
    (length (answers (log w)) <= 1)%nat /\
    (forall x, Found x ∈ answers (log w) ->
       exists h, exchange inet_pton s (question_command q) question 0 h (sent w) (got w) /\ status h = Done /\ answers_with q (result h) x) /\
    match self w with
    | None => opened (log w) = closed_fds (log w)
    | Some r =>
        if reported r then idle r /\ opened (log w) = closed_fds (log w) /\ (eh = true -> answers (log w) <> [])
        else answers (log w) = [] /\
          exists (b : bool) w' r', (if b then deferred r else deadline r) = true /\ step env (TimerFires b) w = Some w' /\
            self w' = Some r' /\ reported r' = true /\
            answers (log w') = if eh then [Failure (if b then deferred_error r else ResolverPool.TryAgain)] else []
    end.
Proof.
  cbv zeta. destruct (ask_sound inet_pton inet_ntop env send_counts recv_bounded eh dflt q can_start t p Hu) as (w0 & H0 & S0).
  destruct (run_sound inet_pton inet_ntop env send_counts recv_bounded eh dflt q l w0 S0) as (w & Hw & S).
  exists w0, w. destruct S as [Al J O P Sf]. split_and!; try done.
  destruct (self w) as [r|] eqn:Hs; [|done]. destruct Sf as ((He & _) & B). destruct (reported r) eqn:Hr; [done|].
  destruct B as (Ha & U). split; [done|].
  assert (H : exists b : bool, (if b then deferred r else deadline r) = true) by (destruct U as [(? & _)|(? & _)]; [by exists true|by exists false]).
  destruct H as (b & Hb). exists b. unfold step. rewrite Hs, Hb. unfold EventTimeout. rewrite Hr.
  do 2 eexists. split; [done|]. split; [done|]. split; [done|]. split; [done|].
  unfold report, internal_teardown. cbn [log say put eventHandler with_socket with_handshake with_deferred with_deadline with_reported].
  unfold answers in *. rewrite !omap_app, Ha, He. by destruct (socket _), eh.
Qed.

(** ** A concrete lookup *)

Definition demo_pton (v : Version) (text : bytes) : option bytes :=
  if bool_decide (v = IPv4) && bool_decide (text = lit "127.0.0.1") then Some [chr 127; chr 0; chr 0; chr 1] else None.
Definition demo_tor : ProxySettings := setTorExtensions true tor.
Definition demo_replies (t : nat) : bytes :=
  map chr match t with 2%nat => [5; 0] | 4%nat => [5; 0; 0; 1] | 5%nat => [93; 184; 216; 34] | 6%nat => [0; 0] | _ => [] end.
Definition demo_env (o : Outcome) : Env :=
  mkEnv 11 11 4 (fun _ => o) (fun _ d => inr (zlen d)) (fun t want => inr (ztake want (demo_replies t))).

Definition demo_world (o : Outcome) : option world :=
  w ← forward demo_pton (demo_env o) 0 true (Some (lit "example.com")) demo_tor; w.

(** What the handler is told, and when the call that started the lookup comes back. *)
Definition seen (l : list Output) : list (option Answer) :=
  omap (fun o => match o with Told a => Some (Some a) | Returned => Some None | _ => None end) l.

Lemma proxied_lookup_reports_witness :
  (w ← demo_world Waits; w ← run (demo_env Waits) [FromSocket Socket.EventConnected] w; Some (seen (log w))) =
    Some [None; Some (Found (mkInetAddress IPv4 (fill_data [chr 93; chr 184; chr 216; chr 34]) [] Resolved))] /\
  exists w0 w, ask demo_pton demo_pton (demo_env Waits) true demo_tor (inl (lit "example.com")) (fun _ => true) 0 ResolverPool.new_Pool = Some (ViaProxy w0, ResolverPool.new_Pool) /\
    run (demo_env Waits) [FromSocket Socket.EventConnected] w0 = Some w /\ (length (answers (log w)) <= 1)%nat.
Proof.
  split; [vm_compute; reflexivity|].
  destruct (proxied_lookup_reports demo_pton demo_pton (demo_env Waits)) with (eh := true) (dflt := demo_tor) (q := @inl bytes InetAddress (lit "example.com"))
    (can_start := fun _ : nat => true) (t := 0%nat) (p := ResolverPool.new_Pool) (l := [FromSocket Socket.EventConnected])
    as (w0 & w & H0 & Hw & _ & _ & H & _).
  - intros t d n [= <-]. pose proof (zlen_nonneg d). lia.
  - intros t want d Hw [= <-]. unfold zlen. rewrite length_take. lia.
  - reflexivity.
  - exists w0, w. exact (conj H0 (conj Hw H)).
Defined.

(** A connection that fails at once is reported before the call that started the lookup
    has come back, when nobody has the resolver yet. *)
Lemma refused_at_once_reports_inside :
  seen <$> (log <$> demo_world Fails) = Some [Some (Failure ResolverPool.ServerError); None].
Proof. vm_compute. reflexivity. Qed.
