(* ===== verification/AddressLookup.v ===== *)
(** * AddressLookup: name resolution of [InetAddress] ([src/io/net/inetaddress.cpp])

    An address object with its resolver and the handler that waits for it. The resolver
    is what [Resolver::getHostByName] gives: a number, for which [now] says what it tells
    before that call comes back - nothing, as a rule ([SocksResolver.getHostByName] shows
    when). Handlers may call back, by a script of reactions; a member of a destroyed
    object that is touched is [None]. *)

From S2P Require Import Prelude Strings Inet.
From S2P Require Import ResolverPool.

(** ** The object *)

(** [hostname] and the like are in [inet]; a resolver is kept until it is replaced, with
    whether it is still at work. *)
(* @src src/include/samurai/io/net/inetaddress.h:127-137 Samurai::IO::Net::InetAddress *)
Record Address := mkAddress { inet : InetAddress; resolver : option (nat * bool); dnsevent : option nat }.

Inductive Call := Lookup (h : option nat) | Assign (text : bytes) | Destroy.

(** A handler that is given to a lookup, a resolver that is asked, one that is dropped,
    and a handler that is told. *)
Inductive Output := Requested (h : nat) | Asked (id : nat) (name : bytes) | Dropped (id : nat) | Told (h : nat) (a : Answer).

Record world := mkWorld { obj : option Address; next : nat; script : list (Answer -> list Call); log : list Output }.

Definition put (a : Address) (w : world) : world := mkWorld (Some a) (next w) (script w) (log w).
Definition say (l : list Output) (w : world) : world := mkWorld (obj w) (next w) (script w) (log w ++ l).
Definition with_script (sc : list (Answer -> list Call)) (w : world) : world := mkWorld (obj w) (next w) sc (log w).

Definition dropping (a : Address) : list Output := match resolver a with Some (id, _) => [Dropped id] | None => [] end.

Section lookups.
Variable inet_pton : Version -> bytes -> option bytes.
Variable now : nat -> option Answer.

Section handlers.
(** What a handler that is told does. *)
Variable react : nat -> Answer -> world -> option world.

Definition notify (h : option nat) (a : Answer) (w : world) : option world :=
  match h with Some h => react h a w | None => Some w end.

(** Nothing is touched after the handler. *)
(* @src src/src/io/net/inetaddress.cpp:459-476 Samurai::IO::Net::InetAddress::EventHostFound *)
Definition host_found (found : InetAddress) (w : world) : option world :=
  a ← obj w;
  let i := mkInetAddress (version found) (data found) (hostname (inet a)) Resolved in
  notify (dnsevent a) (EventHostFound i) (put (mkAddress i (resolver a) None) w).

(* @src src/src/io/net/inetaddress.cpp:479-486 Samurai::IO::Net::InetAddress::EventHostError *)
Definition host_failed (e : Error) (w : world) : option world :=
  a ← obj w;
  let i := mkInetAddress (version (inet a)) (data (inet a)) (hostname (inet a)) ResolveError in
  w ← notify (dnsevent a) (EventHostError e) (put (mkAddress i (resolver a) (dnsevent a)) w);
  a ← obj w;
  Some (put (mkAddress (inet a) (resolver a) None) w).

Definition on_answer (ans : Answer) (w : world) : option world :=
  match ans with EventHostFound x => host_found x w | EventHostError e => host_failed e w end.

(** The new resolver takes the place of the one there is when the call comes back. *)
Definition settle (id : nat) (at_work : bool) (w : world) : option world :=
  a ← obj w; Some (say (dropping a) (put (mkAddress (inet a) (Some (id, at_work)) (dnsevent a)) w)).

(* @src src/src/io/net/inetaddress.cpp:489-504 Samurai::IO::Net::InetAddress::lookup *)
Definition lookup (h : option nat) (w : world) : option world :=
  a ← obj w;
  let waiting := match h with Some _ => h | None => dnsevent a end in
  let w := say (match h with Some h => [Requested h] | None => [] end) w in
  if bool_decide (resolveState (inet a) = Resolved) then notify waiting (EventHostFound (inet a)) (put (mkAddress (inet a) (resolver a) None) w)
  else
    let id := next w in
    let w := say (dropping a ++ [Asked id (hostname (inet a))]) (mkWorld (Some (mkAddress (inet a) None waiting)) (S id) (script w) (log w)) in
    match now id with
    | None => settle id true w
    | Some ans => w ← on_answer ans w; settle id false w
    end.
End handlers.

(* @src src/src/io/net/inetaddress.cpp:376-389 Samurai::IO::Net::InetAddress::operator= *)
Definition assign (text : bytes) (w : world) : option world :=
  a ← obj w; Some (say (dropping a) (put (mkAddress (assign_text inet_pton text) None (dnsevent a)) w)).

(* @src src/src/io/net/inetaddress.cpp:203-213 Samurai::IO::Net::InetAddress::~InetAddress *)
Definition destroy (w : world) : option world :=
  a ← obj w; Some (say (dropping a) (mkWorld None (next w) (script w) (log w))).

(** Nobody calls an object that they know is destroyed. *)
Definition call (react : nat -> Answer -> world -> option world) (c : Call) (w : world) : option world :=
  if negb (bool_decide (is_Some (obj w))) then Some w else match c with Lookup h => lookup react h w | Assign t => assign t w | Destroy => destroy w end.

Fixpoint run_all (f : Call -> world -> option world) (l : list Call) (w : world) : option world :=
  match l with [] => Some w | c :: l => w ← f c w; run_all f l w end.

Definition reacts (f : Call -> world -> option world) (h : nat) (ans : Answer) (w : world) : option world :=
  let w := say [Told h ans] w in
  match script w with [] => Some w | cs :: rest => run_all f (cs ans) (with_script rest w) end.

(** A nested call takes a reaction of the script. *)
Fixpoint perform (n : nat) (c : Call) (w : world) : option world :=
  match n with O => None | S n => call (reacts (perform n)) c w end.

Inductive Input := FromApplication (c : Call) | FromResolver (ans : Answer).

Definition enough (w : world) : nat := S (length (script w)).

(** A resolver that was dropped or has answered does not answer. *)
Definition step (i : Input) (w : world) : option world :=
  match obj w with
  | None => Some w
  | Some a =>
      match i with
      | FromApplication c => perform (enough w) c w
      | FromResolver ans =>
          match resolver a with
          | Some (id, true) => on_answer (reacts (perform (enough w))) ans (put (mkAddress (inet a) (Some (id, false)) (dnsevent a)) w)
          | _ => Some w
          end
      end
  end.

Fixpoint run (l : list Input) (w : world) : option world :=
  match l with [] => Some w | i :: l => w ← step i w; run l w end.
End lookups.

Definition start (text : InetAddress) (sc : list (Answer -> list Call)) : world := mkWorld (Some (mkAddress text None None)) 0 sc [].

(** ** What was asked and told *)

Definition told (h : nat) (l : list Output) : nat := length (List.filter (fun o => match o with Told i _ => (i =? h)%nat | _ => false end) l).
Definition requested (h : nat) (l : list Output) : nat := length (List.filter (fun o => match o with Requested i => (i =? h)%nat | _ => false end) l).
Definition asked (l : list Output) : list nat := omap (fun o => match o with Asked id _ => Some id | _ => None end) l.
Definition dropped (l : list Output) : list nat := omap (fun o => match o with Dropped id => Some id | _ => None end) l.

Definition waits (h : nat) (a : Address) : nat := if bool_decide (dnsevent a = Some h) then 1 else 0.
Definition current (a : Address) : list nat := match resolver a with Some (id, _) => [id] | None => [] end.

(** Calls that leave the text of the address, and handlers that make such calls and leave
    it alone when they are told of an error. *)
Definition steady (c : Call) : bool := match c with Assign _ => false | _ => true end.
Definition polite (cs : Answer -> list Call) : Prop := forall ans, forallb steady (cs ans) = true /\ match ans with EventHostError _ => cs ans = [] | _ => True end.

Definition accounted (w : world) : Prop :=
  (forall h, (told h (log w) + match obj w with Some a => waits h a | None => 0 end <= requested h (log w))%nat) /\
  asked (log w) = dropped (log w) ++ match obj w with Some a => current a | None => [] end.

Definition attended (w : world) : Prop := forall a, obj w = Some a -> dnsevent a <> None -> exists id, resolver a = Some (id, true).

Record fine (n : nat) (w : world) : Prop := mkfine {
  fi_polite : Forall polite (script w);
  fi_script : (length (script w) <= n)%nat;
  fi_accounted : accounted w;
  fi_attended : attended w
}.

Lemma count_told_app h l l' : told h (l ++ l') = (told h l + told h l')%nat.
Proof. unfold told. by rewrite List.filter_app, length_app. Qed.

Lemma requested_app h l l' : requested h (l ++ l') = (requested h l + requested h l')%nat.
Proof. unfold requested. by rewrite List.filter_app, length_app. Qed.

Lemma asked_app l l' : asked (l ++ l') = asked l ++ asked l'.
Proof. apply omap_app. Qed.

Lemma dropped_app l l' : dropped (l ++ l') = dropped l ++ dropped l'.
Proof. apply omap_app. Qed.

Lemma dropping_spec a :
  (forall h, told h (dropping a) = 0%nat /\ requested h (dropping a) = 0%nat) /\ asked (dropping a) = [] /\ dropped (dropping a) = current a.
Proof. unfold dropping, current. by destruct (resolver a) as [[id b]|]. Qed.

Ltac counts := repeat first [rewrite !count_told_app | rewrite !requested_app | rewrite !asked_app | rewrite !dropped_app].

Section answers.
Variable inet_pton : Version -> bytes -> option bytes.

Abbreviation later := (fun _ : nat => @None Answer).
Abbreviation act := (perform inet_pton later).

(** Telling a handler that no longer waits. *)
Lemma say_told n h ans w :
  fine n w -> (forall a, obj w = Some a -> dnsevent a = None) -> (told h (log w) < requested h (log w))%nat -> fine n (say [Told h ans] w).
Proof.
  intros [P L [T D] A] Hn Hh. constructor; try done. split; cbn [say log obj].
  - intros i. specialize (T i). counts. cbn. destruct (Nat.eqb_spec h i) as [->|_]; cbn; [|lia].
    destruct (obj w) as [a|]; [|lia]. unfold waits in *. rewrite (Hn a eq_refl), bool_decide_false by done. lia.
  - counts. cbn. by rewrite !app_nil_r.
Qed.

Definition calls_fine (n : nat) : Prop :=
  forall c w, steady c = true -> fine n w -> exists w', act (S n) c w = Some w' /\ fine n w' /\ log w `prefix_of` log w'.

Definition found_fine (n : nat) : Prop :=
  forall h x w, fine n w -> (forall a, obj w = Some a -> dnsevent a = None) -> (told h (log w) < requested h (log w))%nat ->
    exists w', reacts (act n) h (EventHostFound x) w = Some w' /\ fine n w' /\ log w ++ [Told h (EventHostFound x)] `prefix_of` log w'.

Lemma run_calls n cs w :
  calls_fine n -> forallb steady cs = true -> fine n w -> exists w', run_all (act (S n)) cs w = Some w' /\ fine n w' /\ log w `prefix_of` log w'.
Proof.
  intros HC. revert w. induction cs as [|c cs IH]; intros w Hs F; [by exists w|].
  cbn [forallb] in Hs. apply andb_true_iff in Hs as [Hc Hs]. cbn [run_all].
  destruct (HC c w Hc F) as (w1 & -> & F1 & P1). cbn [mbind option_bind].
  destruct (IH w1 Hs F1) as (w2 & Hw2 & F2 & P2). exists w2. split; [done|]. split; [done|]. by trans (log w1).
Qed.

Lemma fine_le n m w : (n <= m)%nat -> fine n w -> fine m w.
Proof. intros Hle []. constructor; try done. lia. Qed.

Lemma react_found n : (forall m, n = S m -> calls_fine m) -> found_fine n.
Proof.
  intros HC h x w F Hn Hh. pose proof (say_told n h (EventHostFound x) w F Hn Hh) as F1. pose proof F1 as [P L A B]. unfold reacts.
  destruct (script (say _ w)) as [|cs rest] eqn:Es; [by exists (say [Told h (EventHostFound x)] w)|].
  destruct n as [|m]; [cbn in L; lia|]. apply Forall_cons in P as [Pc Pr].
  destruct (run_calls m (cs (EventHostFound x)) (with_script rest (say [Told h (EventHostFound x)] w))) as (w' & Hw & F' & Pre).
  - by apply HC.
  - apply Pc.
  - constructor; try done. cbn in L |- *. lia.
  - exists w'. split; [done|]. split; [apply (fine_le m); [lia|done]|done].
Qed.

Lemma fine_resolver n w a : fine n w -> obj w = Some a -> forall h, (told h (log w) + waits h a <= requested h (log w))%nat.
Proof. intros F Ho h. pose proof (proj1 (fi_accounted _ _ F) h) as T. by rewrite Ho in T. Qed.

(** Telling who waits, if anybody does. *)
Lemma notify_found n x w waiting :
  found_fine n -> fine n w -> (forall a, obj w = Some a -> dnsevent a = None) ->
  (forall h, waiting = Some h -> (told h (log w) < requested h (log w))%nat) ->
  exists w', notify (reacts (act n)) waiting (EventHostFound x) w = Some w' /\ fine n w' /\
    log w ++ match waiting with Some h => [Told h (EventHostFound x)] | None => [] end `prefix_of` log w'.
Proof.
  intros HF F Hn Ht. unfold notify. destruct waiting as [h|]; [by apply HF; [..|apply Ht]|].
  exists w. split; [done|]. split; [done|]. by rewrite app_nil_r.
Qed.

Definition waiting_for (h : nat) (o : option Address) : nat := match o with Some a => waits h a | None => 0 end.
Definition at_work (o : option Address) : list nat := match o with Some a => current a | None => [] end.

(** The object becomes [o], and [l] is logged. *)
Lemma fine_say n w o k l :
  fine n w -> (forall h, (told h l + waiting_for h o <= waiting_for h (obj w) + requested h l)%nat) ->
  at_work (obj w) ++ asked l = dropped l ++ at_work o ->
  (forall a, o = Some a -> dnsevent a <> None -> exists id, resolver a = Some (id, true)) ->
  fine n (mkWorld o k (script w) (log w ++ l)).
Proof.
  intros [P L [T D] A] Hh Hd Ha. constructor; try done. split; cbn [log obj].
  - intros h. specialize (T h). specialize (Hh h). unfold waiting_for in Hh. counts. lia.
  - unfold at_work in Hd. counts. by rewrite D, <- (assoc_L (++)), Hd, (assoc_L (++)).
Qed.

Lemma calls_from_found n : found_fine n -> calls_fine n.
Proof.
  intros HF c w Hc F. cbn [perform]. unfold call. case_bool_decide as Ho; cbn [negb]; [|by exists w].
  destruct (obj w) as [a|] eqn:Ea; [|by destruct Ho]. destruct (dropping_spec a) as (D1 & D2 & D3).
  assert (Hw : forall h, (told h (log w) + waits h a <= requested h (log w))%nat).
  { intros h. pose proof (proj1 (fi_accounted _ _ F) h) as T. by rewrite Ea in T. }
  destruct c as [h|t|]; [|done|].
  - unfold lookup. rewrite Ea. cbn [mbind option_bind].
    set (l := match h with Some h => [Requested h] | None => [] end). set (waiting := match h with Some _ => h | None => dnsevent a end).
    assert (Hl : (forall i, told i l = 0%nat) /\ asked l = [] /\ dropped l = []) by (by subst l; destruct h).
    destruct Hl as (L1 & L2 & L3).
    assert (Hwait : forall i, waiting = Some i -> (told i (log w) < requested i (log w ++ l))%nat).
    { intros i Hi. specialize (Hw i). counts. subst waiting l. destruct h as [h|].
      - injection Hi as ->. cbn. rewrite Nat.eqb_refl. cbn. lia.
      - unfold waits in Hw. rewrite bool_decide_true in Hw by done. cbn. lia. }
    case_bool_decide.
    + destruct (notify_found n (inet a) (put (mkAddress (inet a) (resolver a) None) (say l w)) waiting HF) as (w' & Hw' & F' & P).
      * apply (fine_say n w (Some (mkAddress (inet a) (resolver a) None)) (next w) l F); cbn [waiting_for at_work]; [|by rewrite Ea, L2, L3, app_nil_r|by intros b [= <-]].
        intros i. rewrite L1. unfold waits. cbn [dnsevent]. rewrite bool_decide_false by done. lia.
      * by intros b [= <-].
      * intros i Hi. cbn [put say log]. counts. rewrite L1. specialize (Hwait i Hi). revert Hwait. counts. lia.
      * exists w'. split; [done|]. split; [done|]. trans (log w ++ l); [by eexists|]. trans (log (put (mkAddress (inet a) (resolver a) None) (say l w)) ++ match waiting with Some h0 => [Told h0 (EventHostFound (inet a))] | None => [] end); [by eexists|done].
    + set (id := next w). set (l1 := l ++ dropping a ++ [Asked id (hostname (inet a))]).
      exists (mkWorld (Some (mkAddress (inet a) (Some (id, true)) waiting)) (S id) (script w) (log w ++ l1)).
      split; [unfold settle, say, put, l1; cbn; by rewrite app_nil_r, <- !(assoc_L (++))|]. split; [|by eexists].
      apply fine_say; [done| | |intros b [= <-] _; by exists id].
      * intros i. subst l1. rewrite Ea. cbn [waiting_for]. counts. rewrite L1, (proj1 (D1 i)), (proj2 (D1 i)). cbn.
        specialize (Hwait i). subst waiting l. unfold waits. cbn [dnsevent]. destruct h as [h|]; [|cbn; lia].
        case_bool_decide as Hi; cbn; [|lia]. injection Hi as ->. rewrite Nat.eqb_refl. cbn. lia.
      * subst l1. rewrite Ea. counts. rewrite L2, L3, D2, D3. cbn [at_work app dropped omap list_omap]. by rewrite app_nil_r.
  - unfold destroy. rewrite Ea. cbn [mbind option_bind]. eexists. split; [reflexivity|]. split; [|by eexists].
    apply (fine_say n w None (next w) (dropping a) F); [|by rewrite Ea, D2, D3|done].
    intros i. rewrite (proj1 (D1 i)). cbn. lia.
Qed.

Lemma all_fine n : calls_fine n.
Proof. induction n as [n IH] using lt_wf_ind. apply calls_from_found, react_found. intros m ->. apply IH. lia. Qed.

Lemma fine_script n w rest : fine n w -> script w = rest \/ (exists cs, script w = cs :: rest) -> fine n (with_script rest w).
Proof.
  intros [P L A B] Hs. constructor; try done; cbn [script with_script].
  - destruct Hs as [<-|[cs Hs]]; [done|]. rewrite Hs in P. by apply Forall_cons in P as [_ ?].
  - destruct Hs as [<-|[cs Hs]]; [done|]. rewrite Hs in L. cbn in L. lia.
Qed.

(** What an answer of the resolver is for who waits. *)
Definition answer_for (a : Address) (ans : Answer) : Answer :=
  match ans with
  | EventHostFound x => EventHostFound (mkInetAddress (version x) (data x) (hostname (inet a)) Resolved)
  | EventHostError e => EventHostError e
  end.

Lemma waits_none h i r : waits h (mkAddress i r None) = 0%nat.
Proof. done. Qed.

Lemma answer_fine n ans w a id :
  fine n w -> obj w = Some a -> resolver a = Some (id, true) ->
  exists w', on_answer (reacts (act n)) ans (put (mkAddress (inet a) (Some (id, false)) (dnsevent a)) w) = Some w' /\ fine n w' /\
    log w ++ match dnsevent a with Some h => [Told h (answer_for a ans)] | None => [] end `prefix_of` log w'.
Proof.
  intros F Ho Hr.
  assert (Hw : forall h, dnsevent a = Some h -> (told h (log w) < requested h (log w))%nat).
  { intros h Hh. pose proof (proj1 (fi_accounted _ _ F) h) as T. rewrite Ho in T. unfold waits in T. rewrite bool_decide_true in T by done. lia. }
  assert (HF : forall i l, (forall h, told h l = if bool_decide (dnsevent a = Some h) then length l else 0%nat) -> (length l <= 1)%nat -> asked l = [] -> dropped l = [] ->
             fine n (mkWorld (Some (mkAddress i (Some (id, false)) None)) (next w) (script w) (log w ++ l))).
  { intros i l Hl Hl1 H1 H2. apply (fine_say n w _ (next w) l F).
    - intros h. rewrite Ho, Hl. cbn [waiting_for]. rewrite waits_none. unfold waits. case_bool_decide; lia.
    - rewrite Ho, H1, H2. cbn [at_work]. unfold current. by rewrite Hr, app_nil_r.
    - by intros b [= <-]. }
  destruct ans as [x|e].
  - cbn [on_answer host_found put obj mbind option_bind]. unfold host_found. cbn [put obj mbind option_bind inet resolver dnsevent].
    set (i := mkInetAddress _ _ _ _).
    apply (notify_found n i (put (mkAddress i (Some (id, false)) None) w) (dnsevent a) (react_found n (fun m _ => all_fine m))).
    + specialize (HF i []). rewrite app_nil_r in HF. apply HF; [|cbn; lia|done|done]. intros h. by case_bool_decide.
    + by intros b [= <-].
    + done.
  - cbn [on_answer]. unfold host_failed. cbn [put obj mbind option_bind inet resolver dnsevent]. set (i := mkInetAddress _ _ _ _).
    unfold notify. destruct (dnsevent a) as [h|] eqn:Eh.
    + unfold reacts. cbn [say put script]. pose proof (HF i [Told h (EventHostError e)]) as F'.
      assert (G : fine n (mkWorld (Some (mkAddress i (Some (id, false)) None)) (next w) (script w) (log w ++ [Told h (EventHostError e)]))).
      { apply F'; [|cbn; lia|done|done]. intros j. cbn. destruct (Nat.eqb_spec h j) as [->|Hne]; cbn; [by rewrite bool_decide_true|by rewrite bool_decide_false by congruence]. }
      destruct (script w) as [|cs rest] eqn:Es; cbn [mbind option_bind obj put say log].
      * eexists. split; [reflexivity|]. split; [|done]. unfold put. cbn. rewrite Es. exact G.
      * pose proof (fi_polite _ _ F) as P. rewrite Es in P. apply Forall_cons in P as [Pc _]. destruct (Pc (EventHostError e)) as [_ Hc]. rewrite Hc.
        eexists. split; [reflexivity|]. split; [|done]. apply (fine_script n _ rest G). right. by exists cs.
    + eexists. split; [reflexivity|]. split; [|by rewrite app_nil_r]. specialize (HF i []). rewrite app_nil_r in HF. apply HF; [|cbn; lia|done|done]. intros h. by case_bool_decide.
Qed.

Definition steady_input (i : Input) : bool := match i with FromApplication c => steady c | FromResolver _ => true end.

Lemma fine_enough n w : fine n w -> fine (length (script w)) w.
Proof. by intros []. Qed.

Lemma step_fine i w :
  fine (length (script w)) w -> steady_input i = true -> exists w', step inet_pton later i w = Some w' /\ fine (length (script w')) w'.
Proof.
  intros F Hi. unfold step, enough. destruct (obj w) as [a|] eqn:Ho; [|by exists w]. destruct i as [c|ans].
  - destruct (all_fine (length (script w)) c w Hi F) as (w' & Hw & F' & _). exists w'. split; [done|]. by eapply fine_enough.
  - destruct (resolver a) as [[id [|]]|] eqn:Hr; [|by exists w..].
    destruct (answer_fine (S (length (script w))) ans w a id) as (w' & Hw & F' & _); [eapply fine_le; [|done]; lia|done|done|].
    exists w'. split; [done|]. by eapply fine_enough.
Qed.

Lemma run_fine l w :
  fine (length (script w)) w -> forallb steady_input l = true -> exists w', run inet_pton later l w = Some w' /\ fine (length (script w')) w'.
Proof.
  revert w. induction l as [|i l IH]; intros w F Hl; [by exists w|]. cbn [forallb] in Hl. apply andb_true_iff in Hl as [Hi Hl]. cbn [run].
  destruct (step_fine i w F Hi) as (w1 & -> & F1). cbn [mbind option_bind]. by apply IH.
Qed.
End answers.

(** ** Properties *)

(** With resolvers that answer later, and handlers that leave an address alone when
    they are told of an error and change no text: whatever is called and answered, and
    whatever a handler does when it is told of an address - destroying it included -
    nothing destroyed is touched; a handler is told at most once for each lookup it was
    given to; of the resolvers asked all but the present one were dropped; and as long as
    a handler waits a resolver is at work, whose answer it is told, with the address's own
    name. *)
Theorem address_lookup_answers (inet_pton : Version -> bytes -> option bytes) (a : InetAddress) (sc : list (Answer -> list Call)) (l : list Input)
  (Hp : Forall polite sc) (Hl : forallb steady_input l = true) :
  exists w, run inet_pton (fun _ => None) l (start a sc) = Some w /\
    (forall h, (told h (log w) + match obj w with Some b => waits h b | None => 0 end <= requested h (log w))%nat) /\
    asked (log w) = dropped (log w) ++ (match obj w with Some b => current b | None => [] end) /\
    forall b h, obj w = Some b -> dnsevent b = Some h ->
      exists id, resolver b = Some (id, true) /\ forall ans, exists w', step inet_pton (fun _ => None) (FromResolver ans) w = Some w' /\
    log w ++ [Told h (answer_for b ans)] `prefix_of` log w'.
Proof.
  destruct (run_fine inet_pton l (start a sc)) as (w & Hw & F); [|done|].
  - constructor; [done|done| |by intros b [= <-]]. split; [by intros h|done].
  - exists w. split; [done|]. pose proof F as [P L [T D] A]. split; [done|]. split; [done|].
    intros b h Hb Hh. destruct (A b Hb) as (id & Hr); [by rewrite Hh|]. exists id. split; [done|]. intros ans.
    destruct (answer_fine inet_pton (S (length (script w))) ans w b id) as (w' & Hw' & _ & Pre); [eapply fine_le; [|done]; lia|done|done|].
    exists w'. rewrite Hh in Pre. split; [|done]. unfold step, enough. by rewrite Hb, Hr.
Qed.

(** A name that is looked up, found, and looked up again by the handler that is told. *)
Definition demo_name : InetAddress := mkInetAddress Unspecified zero_data (lit "example.com") Unresolved.
Definition demo_found : InetAddress := mkInetAddress IPv4 (fill_data [chr 93; chr 184; chr 216; chr 34]) [] Resolved.
Definition on_error (cs : list Call) (ans : Answer) : list Call := match ans with EventHostError _ => cs | _ => [] end.
Definition on_found (cs : list Call) (ans : Answer) : list Call := match ans with EventHostFound _ => cs | _ => [] end.

Lemma address_lookup_answers_witness :
  let sc := [on_found [Lookup (Some 2%nat); Destroy]] in
  let l := [FromApplication (Lookup (Some 1%nat)); FromResolver (EventHostFound demo_found)] in
  Forall polite sc /\ forallb steady_input l = true /\
  (w ← run (fun _ _ => None) (fun _ => None) l (start demo_name sc); Some (obj w, told 1 (log w), told 2 (log w), dropped (log w))) = Some (None, 1%nat, 1%nat, [0%nat]) /\
  exists w, run (fun _ _ => None) (fun _ => None) l (start demo_name sc) = Some w /\ asked (log w) = dropped (log w) ++ (match obj w with Some b => current b | None => [] end).
Proof.
  cbv zeta. assert (Hp : Forall polite [on_found [Lookup (Some 2%nat); Destroy]]) by (apply Forall_cons; split; [by intros []|done]).
  split; [done|]. split; [done|]. split; [vm_compute; reflexivity|].
  destruct (address_lookup_answers (fun _ _ => None) demo_name [on_found [Lookup (Some 2%nat); Destroy]]
    [FromApplication (Lookup (Some 1%nat)); FromResolver (EventHostFound demo_found)] Hp eq_refl) as (w & Hw & _ & Ha & _).
  exists w. exact (conj Hw Ha).
Defined.

(** ** What a handler may not do *)

Definition failing : list Input := [FromApplication (Lookup (Some 1%nat)); FromResolver (EventHostError TryAgain)].

(** Told of an error, a handler may not destroy the address: it is touched once more. *)
Lemma destroyed_on_error : run (fun _ _ => None) (fun _ => None) failing (start demo_name [on_error [Destroy]]) = None.
Proof. vm_compute. reflexivity. Qed.

(** A handler that tries again when it is told of an error is forgotten: the second lookup
    is answered, and it is not told. *)
Lemma retry_is_forgotten :
  (w ← run (fun _ _ => None) (fun _ => None) (failing ++ [FromResolver (EventHostFound demo_found)]) (start demo_name [on_error [Lookup (Some 1%nat)]]);
   Some (requested 1 (log w), told 1 (log w), asked (log w), (fun a => resolveState (inet a)) <$> obj w)) = Some (2%nat, 1%nat, [0%nat; 1%nat], Some Resolved).
Proof. vm_compute. reflexivity. Qed.

(** A new text drops the resolver and keeps the handler, which the lookup of another name
    is told to. *)
Lemma assignment_forgets :
  (w ← run (fun _ _ => None) (fun _ => None)
         [FromApplication (Lookup (Some 1%nat)); FromApplication (Assign (lit "other")); FromResolver (EventHostFound demo_found)] (start demo_name []);
   Some (told 1 (log w), (fun a => (dnsevent a, resolver a)) <$> obj w)) = Some (0%nat, Some (Some 1%nat, None)).
Proof. vm_compute. reflexivity. Qed.

(** A resolver that answers before it is given back - the pool does, for an empty name -
    and a handler that destroys the address: the resolver is stored in what is gone. *)
Lemma answered_too_soon :
  run (fun _ _ => None) (fun _ => Some (EventHostFound demo_found)) [FromApplication (Lookup (Some 1%nat))] (start demo_name [on_found [Destroy]]) = None.
Proof. vm_compute. reflexivity. Qed.
