(* ===== verification/Path.v ===== *)
(** * Path: names of files ([src/io/file.cpp])

    [File::resolvePath] and what is read off a name. The C++ library's
    [std::filesystem::path] is modelled as far as the source uses it, on a POSIX host:
    [lexically_normal] is the algorithm of the standard, in one walk over the pieces
    between the separators. The home directory and the working directory are
    arguments. *)

From S2P Require Import Prelude Strings.

Definition ch_slash : byte := "/"%char.
Definition ch_backslash : byte := "\"%char.
Definition dot : bytes := lit ".".
Definition dotdot : bytes := lit "..".

(** ** [std::filesystem::path] *)

Definition is_absolute (p : bytes) : bool := match p with c :: _ => Ascii.eqb c ch_slash | [] => false end.

(** The names so far, the last first, and whether a separator follows. *)
Fixpoint walk (root : bool) (pieces : list bytes) (names : list bytes) (sep : bool) : list bytes * bool :=
  match pieces with
  | [] => (names, sep)
  | f :: pieces =>
      if bool_decide (f = []) || bool_decide (f = dot) then walk root pieces names true
      else if bool_decide (f = dotdot) then
        match names with
        | n :: names' => if bool_decide (n = dotdot) then walk root pieces (dotdot :: names) false else walk root pieces names' true
        | [] => if root then walk root pieces [] true else walk root pieces [dotdot] false
        end
      else walk root pieces (f :: names) false
  end.

Definition lexically_normal (p : bytes) : bytes :=
  if bool_decide (p = []) then [] else
  let root := is_absolute p in
  let '(names, sep) := walk root (split p ch_slash) [] false in
  let tail := match names with n :: _ => if sep && negb (bool_decide (n = dotdot)) then [ch_slash] else [] | [] => [] end in
  match (if root then [ch_slash] else []) ++ join ch_slash (rev names) ++ tail with [] => dot | out => out end.

(** [operator/] with a relative path. *)
Definition append_path (p q : bytes) : bytes :=
  match p with [] => q | _ => if Ascii.eqb (List.last p ch_slash) ch_slash then p ++ q else p ++ ch_slash :: q end.

(** [absolute] of a relative path, where the working directory can be read. *)
Definition absolute (cwd : option bytes) (p : bytes) : option bytes := (fun c => append_path c p) <$> cwd.

(** [filename]. *)
Definition filename_of (p : bytes) : bytes := match rfind_char ch_slash p with Some i => drop (i + 1) p | None => p end.

(** ** [File] *)

(** The loop that erases trailing separators, on the reversed path. *)
(* @src src/src/io/file.cpp:723-724 Samurai::IO::File::resolvePath *)
Fixpoint strip_rev (r : bytes) : bytes :=
  match r with
  | c :: ((_ :: _) as r') => if Ascii.eqb c ch_slash || Ascii.eqb c ch_backslash then strip_rev r' else r
  | _ => r
  end.

(* @src src/src/io/file.cpp:685-705 Samurai::IO::File::resolvePath *)
Definition expand (home : option bytes) (input : bytes) : bytes :=
  let work := match input with
              | "~"%char :: rest =>
                  if bool_decide (rest = []) || is_absolute rest
                  then match home with Some h => h ++ rest | None => rest end
                  else input
              | _ => input
              end in
  if bool_decide (work = []) then dot else work.

(* @src src/src/io/file.cpp:684-728 Samurai::IO::File::resolvePath *)
Definition resolvePath (home cwd : option bytes) (input : bytes) : bytes :=
  let work := expand home input in
  let p := if negb (is_absolute work) then from_option id work (absolute cwd work) else work in
  let out := rev (strip_rev (rev (lexically_normal p))) in
  if bool_decide (out = []) then [ch_slash] else out.

(* @src src/src/io/file.cpp:519-529 Samurai::IO::File::getExtension *)
Definition getExtension (filename : bytes) : bytes :=
  let name := filename_of filename in
  match rfind_char "."%char name with
  | Some pos => if negb (pos =? 0)%nat then drop (pos + 1) name else []
  | None => []
  end.

(* @src src/src/io/file.cpp:531-537 Samurai::IO::File::matchExtension *)
Definition matchExtension (other filename : bytes) : bool :=
  let ext := getExtension filename in
  if bool_decide (ext = []) || bool_decide (other = []) then false else bool_decide (ext = other).


(** ** The reference: directories entered one by one *)

(** A directory is the names on the way to it from the root. *)
Definition enter (dir : list bytes) (f : bytes) : list bytes :=
  if bool_decide (f = []) || bool_decide (f = dot) then dir else if bool_decide (f = dotdot) then removelast dir else dir ++ [f].

Definition place (p : bytes) : list bytes := fold_left enter (split p ch_slash) [].

Definition path_of (dir : list bytes) : bytes := ch_slash :: join ch_slash dir.

(** A name that stands for an entry of a directory. *)
Definition proper (f : bytes) : Prop := f <> [] /\ f <> dot /\ f <> dotdot /\ ch_slash ∉ f.

Lemma enter_proper dir f : ch_slash ∉ f -> Forall proper dir -> Forall proper (enter dir f).
Proof.
  intros Hf Hd. unfold enter. repeat case_bool_decide; cbn; try done.
  - rewrite removelast_firstn_len. by apply Forall_take.
  - apply Forall_app. split; [done|]. apply Forall_singleton. done.
Qed.

Lemma fold_proper pieces dir : Forall (fun f => ch_slash ∉ f) pieces -> Forall proper dir -> Forall proper (fold_left enter pieces dir).
Proof.
  revert dir. induction pieces as [|f pieces IH]; intros dir Hp Hd; [done|]. apply Forall_cons in Hp as [Hf Hp]. cbn. by apply IH, enter_proper.
Qed.

Lemma split_pieces p : split p ch_slash <> [] /\ join ch_slash (split p ch_slash) = p /\ Forall (fun f => ch_slash ∉ f) (split p ch_slash).
Proof. by apply split_spec. Qed.

Lemma place_proper p : Forall proper (place p).
Proof. apply fold_proper; [apply split_pieces|done]. Qed.

(** From the root the walk enters the directories. *)
Lemma walk_enters pieces names sep :
  Forall (fun f => ch_slash ∉ f) pieces -> Forall proper names -> (walk true pieces names sep).1 = rev (fold_left enter pieces (rev names)).
Proof.
  revert names sep. induction pieces as [|f pieces IH]; intros names sep Hp Hn; cbn [walk fold_left]; [by rewrite rev_involutive|].
  apply Forall_cons in Hp as [Hf Hp]. unfold enter at 2. case_bool_decide; cbn [orb]; [by apply IH|]. case_bool_decide; [by apply IH|].
  case_bool_decide.
  - destruct names as [|n names]; [by apply (IH [])|]. apply Forall_cons in Hn as [(? & ? & ? & ?) Hn].
    rewrite bool_decide_false by done. cbn [rev]. rewrite removelast_last. by apply IH.
  - apply (IH (f :: names)); [done|]. by apply Forall_cons.
Qed.

Lemma join_snoc sep l f : join sep (l ++ [f]) = match l with [] => f | _ => join sep l ++ sep :: f end.
Proof.
  induction l as [|g l IH]; [done|]. rewrite <- app_comm_cons, join_cons by (by destruct l). rewrite IH.
  destruct l as [|h l]; [done|]. rewrite (join_cons sep g (h :: l)) by done. by rewrite <- (assoc_L (++)).
Qed.

(** What is not stripped. *)
Definition kept (c : byte) : Prop := c <> ch_slash /\ c <> ch_backslash.

Lemma strip_kept c r : kept c -> strip_rev (c :: r) = c :: r.
Proof. intros [H1 H2]. cbn. destruct r; [done|]. by rewrite (proj2 (Ascii.eqb_neq _ _) H1), (proj2 (Ascii.eqb_neq _ _) H2). Qed.

Lemma path_ends dir : Forall proper dir -> Forall (fun f => ch_backslash ∉ f) dir -> dir <> [] -> exists x c, path_of dir = x ++ [c] /\ kept c /\ x <> [].
Proof.
  intros Hp Hb Hne. destruct dir as [|f dir _] using rev_ind; [done|].
  apply Forall_app in Hp as [_ Hp]. apply Forall_singleton in Hp as (Hf & _ & _ & Hs). apply Forall_app in Hb as [_ Hb]. rewrite Forall_singleton in Hb.
  destruct f as [|c f _] using rev_ind; [done|]. unfold path_of. rewrite join_snoc.
  assert (kept c) by (split; intros ->; [apply Hs|apply Hb]; apply elem_of_app; right; apply list_elem_of_singleton; done).
  destruct dir as [|g dir]; [by exists (ch_slash :: f), c|]. exists (ch_slash :: join ch_slash (g :: dir) ++ ch_slash :: f), c.
  split; [|done]. by rewrite <- app_comm_cons, <- (assoc_L (++)).
Qed.

Lemma strip_path dir tail :
  Forall proper dir -> Forall (fun f => ch_backslash ∉ f) dir -> (tail = [] \/ tail = [ch_slash] /\ dir <> []) ->
  rev (strip_rev (rev (path_of dir ++ tail))) = path_of dir.
Proof.
  intros Hp Hb Ht. destruct (decide (dir = [])) as [->|Hne]; [by destruct Ht as [->|[_ ?]]|].
  destruct (path_ends dir Hp Hb Hne) as (x & c & E & Hk & Hx). rewrite E, rev_app_distr, (rev_app_distr x).
  destruct Ht as [->|[-> _]]; cbn [rev app]; [|change (strip_rev (ch_slash :: c :: rev x)) with (strip_rev (c :: rev x))];
    rewrite strip_kept by done; cbn [rev]; by rewrite rev_involutive.
Qed.

Lemma join_elem sep c f fs : f ∈ fs -> c ∈ f -> c ∈ join sep fs.
Proof.
  intros Hf Hc. induction fs as [|g fs IH]; [by apply elem_of_nil in Hf|]. apply elem_of_cons in Hf as [<-|Hf].
  - destruct fs; cbn; [done|]. apply elem_of_app. by left.
  - destruct fs as [|h fs]; [by apply elem_of_nil in Hf|]. rewrite join_cons by done. apply elem_of_app. right. apply elem_of_cons. right. by apply IH.
Qed.

Lemma place_without c p : c ∉ p -> Forall (fun f => c ∉ f) (place p).
Proof.
  intros Hc. destruct (split_pieces p) as (_ & Hj & _).
  assert (Hs : Forall (fun f => c ∉ f) (split p ch_slash)).
  { apply Forall_forall. intros f Hf Hcf. apply Hc. rewrite <- Hj. by eapply join_elem. }
  unfold place. assert (Hd : Forall (fun f : bytes => c ∉ f) []) by done. revert Hs Hd. generalize (@nil bytes). generalize (split p ch_slash).
  intros l. induction l as [|f l IH]; intros dir Hs Hd; [done|]. apply Forall_cons in Hs as [Hf Hs]. cbn. apply IH; [done|].
  unfold enter. repeat case_bool_decide; cbn; try done.
  - rewrite removelast_firstn_len. by apply Forall_take.
  - apply Forall_app. split; [done|]. by apply Forall_singleton.
Qed.

Lemma normal_absolute p :
  is_absolute p = true -> exists tail, lexically_normal p = path_of (place p) ++ tail /\ (tail = [] \/ tail = [ch_slash] /\ place p <> []).
Proof.
  intros Ha. unfold lexically_normal. rewrite bool_decide_false by (by intros ->). rewrite Ha.
  destruct (split_pieces p) as (_ & _ & Hs). pose proof (walk_enters (split p ch_slash) [] false Hs ltac:(done)) as Hw.
  destruct (walk true (split p ch_slash) [] false) as [names sep]. cbn [fst] in Hw. change (rev []) with (@nil bytes) in Hw. fold (place p) in Hw.
  cbv zeta. assert (Hn : rev names = place p) by (by rewrite Hw, rev_involutive). rewrite Hn.
  set (tail := match names with n :: _ => _ | [] => [] end). exists tail. split; [done|].
  subst tail. destruct names as [|n names]; [by left|]. destruct (sep && _); [|by left]. right. split; [done|]. rewrite <- Hn. cbn [rev]. by intros [_ ?]%app_eq_nil.
Qed.

(** The path that is simplified. *)
Definition full_path (home : option bytes) (cwd input : bytes) : bytes :=
  let work := expand home input in if is_absolute work then work else append_path cwd work.

Lemma full_path_absolute home cwd input : is_absolute cwd = true -> is_absolute (full_path home cwd input) = true.
Proof.
  intros Hc. unfold full_path. destruct (is_absolute (expand home input)) eqn:E; [done|].
  destruct cwd as [|c cwd]; [done|]. unfold append_path. by destruct (Ascii.eqb _ _).
Qed.

Lemma resolve_full home cwd input :
  is_absolute cwd = true -> ch_backslash ∉ full_path home cwd input -> resolvePath home (Some cwd) input = path_of (place (full_path home cwd input)).
Proof.
  intros Hc Hb. unfold resolvePath. replace (if negb (is_absolute (expand home input)) then _ else _) with (full_path home cwd input).
  2: { unfold full_path. by destruct (is_absolute (expand home input)). }
  cbv zeta. destruct (normal_absolute (full_path home cwd input)) as (tail & -> & Ht); [by apply full_path_absolute|].
  rewrite strip_path; [done|apply place_proper|by apply place_without|done].
Qed.

Lemma split_path dir : Forall proper dir -> split (path_of dir) ch_slash = [] :: match dir with [] => [[]] | _ => dir end.
Proof.
  intros Hd. apply split_spec. destruct dir as [|f dir]; [split; [done|]; split; [done|]; repeat constructor; by intros ?%elem_of_nil|].
  split; [done|]. split; [by rewrite join_cons|]. constructor; [by intros ?%elem_of_nil|]. eapply Forall_impl; [exact Hd|]. by intros g (_ & _ & _ & ?).
Qed.

Lemma enter_all l dir : Forall proper l -> fold_left enter l dir = dir ++ l.
Proof.
  revert dir. induction l as [|f l IH]; intros dir Hl; [by rewrite app_nil_r|]. apply Forall_cons in Hl as [(H1 & H2 & H3 & _) Hl].
  cbn. unfold enter at 2. rewrite !bool_decide_false by done. cbn. rewrite IH by done. by rewrite <- (assoc_L (++)).
Qed.

Lemma place_path dir : Forall proper dir -> place (path_of dir) = dir.
Proof. intros Hd. unfold place. rewrite split_path by done. destruct dir as [|f dir]; [done|]. cbn [fold_left]. by apply (enter_all (f :: dir) []). Qed.

Lemma base_name dir f : Forall proper (dir ++ [f]) -> filename_of (path_of (dir ++ [f])) = f.
Proof.
  intros Hd. apply Forall_app in Hd as [_ Hf]. rewrite Forall_singleton in Hf. destruct Hf as (_ & _ & _ & Hs).
  assert (E : exists l, path_of (dir ++ [f]) = l ++ ch_slash :: f).
  { unfold path_of. rewrite join_snoc. destruct dir as [|g dir]; [by exists []|]. by exists (ch_slash :: join ch_slash (g :: dir)). }
  destruct E as (l & ->). unfold filename_of.
  assert (rfind_char ch_slash (l ++ ch_slash :: f) = Some (length l)) as -> by (apply rfind_char_Some; by exists l, f).
  replace (length l + 1)%nat with (length (l ++ [ch_slash])) by (rewrite length_app; cbn; lia).
  change (ch_slash :: f) with ([ch_slash] ++ f). rewrite (assoc_L (++)). by rewrite drop_app_length.
Qed.

Lemma path_without c dir : c <> ch_slash -> Forall (fun f => c ∉ f) dir -> c ∉ path_of dir.
Proof.
  intros Hc Hl [H|H]%elem_of_cons; [done|]. revert H. induction dir as [|f l IH]; [by intros ?%elem_of_nil|].
  apply Forall_cons in Hl as [Hf Hl]. destruct l as [|g l]; [done|].
  rewrite join_cons by done. intros [H|[H|H]%elem_of_cons]%elem_of_app; [done|done|]. by apply IH.
Qed.

(** Nothing is left to do. *)
Lemma resolve_path home cwd dir :
  Forall proper dir -> Forall (fun f => ch_backslash ∉ f) dir -> resolvePath home cwd (path_of dir) = path_of dir.
Proof.
  intros Hp Hb. change (resolvePath home cwd (path_of dir)) with (resolvePath None (Some [ch_slash]) (path_of dir)).
  rewrite resolve_full; [|done|]; change (full_path None [ch_slash] (path_of dir)) with (path_of dir); [by rewrite place_path|].
  by apply path_without.
Qed.

(** An entry of a directory. *)
Lemma append_name dir f : Forall proper dir -> Forall (fun f => ch_backslash ∉ f) dir -> append_path (path_of dir) f = path_of (dir ++ [f]).
Proof.
  intros Hp Hb. destruct (decide (dir = [])) as [->|Hne]; [done|]. destruct (path_ends dir Hp Hb Hne) as (x & c & E & [Hk _] & Hx).
  unfold append_path. destruct (path_of dir) as [|c0 p0] eqn:Ep; [by destruct x|]. rewrite <- Ep in *. rewrite E at 1. rewrite List.last_last.
  rewrite (proj2 (Ascii.eqb_neq _ _) Hk). unfold path_of. rewrite join_snoc. by destruct dir.
Qed.

Lemma join_app_pieces sep l l' : l <> [] -> l' <> [] -> join sep (l ++ l') = join sep l ++ sep :: join sep l'.
Proof.
  intros Hl Hl'. induction l as [|f l IH]; [done|]. destruct l as [|g l]; [by apply join_cons|].
  rewrite <- app_comm_cons, join_cons by done. rewrite IH by done. rewrite (join_cons sep f (g :: l)) by done. by rewrite <- (assoc_L (++)).
Qed.

Lemma split_at p q : split (p ++ ch_slash :: q) ch_slash = split p ch_slash ++ split q ch_slash.
Proof.
  destruct (split_pieces p) as (Hp & Ep & Fp), (split_pieces q) as (Hq & Eq & Fq). apply split_spec.
  split; [intros [? _]%app_eq_nil; done|]. split; [by rewrite join_app_pieces, Ep, Eq|by apply Forall_app].
Qed.

(** A path taken from a directory goes on from there. *)
Lemma place_append cwd p : is_absolute cwd = true -> place (append_path cwd p) = fold_left enter (split p ch_slash) (place cwd).
Proof.
  intros Hc. unfold append_path. destruct cwd as [|c0 cwd0]; [done|]. set (cwd := c0 :: cwd0) in *.
  assert (Hne : cwd <> []) by done. destruct (exists_last Hne) as (x & c & E). rewrite E, List.last_last. clearbody cwd. subst cwd. clear.
  destruct (Ascii.eqb_spec c ch_slash) as [->|_].
  - rewrite <- (assoc_L (++)). cbn [app]. unfold place. rewrite !split_at, !fold_left_app. done.
  - unfold place. by rewrite split_at, fold_left_app.
Qed.

(** What a path names: [~] is the home directory, and nothing where there is none. *)
Definition named (home : option bytes) (input : bytes) : bytes :=
  match input with
  | "~"%char :: rest => if bool_decide (rest = []) || is_absolute rest then default [] home ++ rest else input
  | _ => input
  end.

Lemma place_full home cwd input : is_absolute cwd = true ->
  place (full_path home cwd input) =
  fold_left enter (split (named home input) ch_slash) (if is_absolute (named home input) then [] else place cwd).
Proof.
  intros Hc. assert (E : expand home input = if bool_decide (named home input = []) then dot else named home input).
  { unfold expand, named. by destruct home. }
  unfold full_path. rewrite E. destruct (bool_decide_reflect (named home input = [])) as [->|Hne].
  - cbn [is_absolute dot]. change (is_absolute dot) with false. cbn iota. rewrite place_append by done. done.
  - destruct (is_absolute (named home input)); [done|by apply place_append].
Qed.

(** Only separators at the end are erased, of either kind. *)
Lemma strip_split r : r <> [] -> exists erased kept_part, r = erased ++ kept_part /\ strip_rev r = kept_part /\
  Forall (fun c => c = ch_slash \/ c = ch_backslash) erased /\ (length kept_part = 1%nat \/ exists c l, kept_part = c :: l /\ kept c).
Proof.
  induction r as [|c r IH]; [done|]. intros _. destruct r as [|d r].
  - exists [], [c]. split_and!; try done. by left.
  - cbn [strip_rev]. destruct (Ascii.eqb_spec c ch_slash) as [->|H1]; [|destruct (Ascii.eqb_spec c ch_backslash) as [->|H2]]; cbn [orb].
    1,2: destruct IH as (e & k & E & Es & F & L); [done|]; eexists (_ :: e), k; (split; [by rewrite E|]); (split; [exact Es|]);
      (split; [by constructor; auto|done]).
    exists [], (c :: d :: r). split_and!; try done. right. by exists c, (d :: r).
Qed.

Lemma resolve_erases home cwd input : is_absolute cwd = true ->
  exists erased, path_of (place (full_path home cwd input)) = resolvePath home (Some cwd) input ++ erased /\
    Forall (fun c => c = ch_slash \/ c = ch_backslash) erased /\
    (resolvePath home (Some cwd) input = [ch_slash] \/ exists l c, resolvePath home (Some cwd) input = l ++ [c] /\ kept c).
Proof.
  intros Hc. unfold resolvePath. replace (if negb (is_absolute (expand home input)) then _ else _) with (full_path home cwd input).
  2: { unfold full_path. by destruct (is_absolute (expand home input)). }
  cbv zeta. destruct (normal_absolute (full_path home cwd input)) as (tail & -> & Ht); [by apply full_path_absolute|].
  set (dir := place _) in *.
  assert (E : strip_rev (rev (path_of dir ++ tail)) = strip_rev (rev (path_of dir))).
  { rewrite rev_app_distr. destruct Ht as [->|[-> _]]; [done|]. cbn [rev app]. unfold path_of. cbn [rev]. by destruct (rev (join ch_slash dir)). }
  rewrite E. destruct (strip_split (rev (path_of dir))) as (e & k & Er & Es & F & L).
  { intros En%(f_equal (@rev _)). by rewrite rev_involutive in En. }
  rewrite Es. assert (Ep : path_of dir = rev k ++ rev e) by (by rewrite <- rev_app_distr, <- Er, rev_involutive).
  rewrite bool_decide_false.
  2: { intros En%(f_equal (@rev _)). rewrite rev_involutive in En. cbn in En. rewrite En in L. by destruct L as [|(? & ? & ? & _)]. }
  exists (rev e). split; [done|]. split; [by apply Forall_rev|].
  destruct L as [L|(c & l & -> & Hk)]; [left|right; by exists (rev l), c].
  destruct k as [|c [|]]; try done. cbn in *. unfold path_of in Ep. by injection Ep as <- _.
Qed.

(** ** Properties *)

(** C37. Where the working directory can be read, and is absolute, [resolvePath] is entering
    directories one by one, from the root or, for a relative path, from the working
    directory: [.] and empty names stay and [..] goes up; a [~] that is the whole first
    name is the home directory, and is dropped where there is none, so that [~] is then
    the working directory and [~/x] is [/x]. The result is the absolute path of the
    directory that is come to, of proper names joined by single separators, but for the
    slashes and backslashes at its end, which are erased. For a path without backslashes
    nothing is: the result is exactly that path, ends in its last name, and resolves to
    itself whatever the home and the working directory. *)
Theorem resolve_enters (home : option bytes) (cwd input : bytes) (Hc : is_absolute cwd = true) :
  let dir := fold_left enter (split (named home input) ch_slash) (if is_absolute (named home input) then [] else place cwd) in
  Forall proper dir /\
  (exists erased, path_of dir = resolvePath home (Some cwd) input ++ erased /\
     Forall (fun c => c = ch_slash \/ c = ch_backslash) erased /\
     (resolvePath home (Some cwd) input = [ch_slash] \/ exists l c, resolvePath home (Some cwd) input = l ++ [c] /\ kept c)) /\
  (ch_backslash ∉ full_path home cwd input ->
     resolvePath home (Some cwd) input = path_of dir /\
     (forall home' cwd', resolvePath home' cwd' (path_of dir) = path_of dir) /\
     (forall up f, dir = up ++ [f] -> filename_of (path_of dir) = f)).
Proof.
  cbv zeta. rewrite <- place_full by done. pose proof (place_proper (full_path home cwd input)) as Hp.
  split; [done|]. split; [by apply resolve_erases|]. intros Hb.
  split; [by apply resolve_full|]. split; [|intros up f E; rewrite E in Hp |- *; by apply base_name].
  intros home' cwd'. apply resolve_path; [done|by apply place_without].
Qed.

Definition demo_home : option bytes := Some (lit "/home/u").
Definition demo_cwd : bytes := lit "/srv/files".

Lemma resolve_enters_witness :
  resolvePath demo_home (Some demo_cwd) (lit "~/a//../b/./c.txt") = lit "/home/u/b/c.txt" /\
  resolvePath demo_home (Some demo_cwd) (lit "../x") = path_of [lit "srv"; lit "x"] /\
  (forall home' cwd', resolvePath home' cwd' (path_of [lit "srv"; lit "x"]) = path_of [lit "srv"; lit "x"]).
Proof.
  split; [vm_compute; reflexivity|].
  destruct (resolve_enters demo_home demo_cwd (lit "../x") eq_refl) as (_ & _ & Hr).
  destruct Hr as (Hr & Hs & _); [refine (bool_decide_unpack _ _); vm_compute; exact I|].
  split; [exact Hr|exact Hs].
Defined.

(** ** What the comments do not say *)

(** A backslash at the end of a name is erased, and with it the name becomes one that goes
    up: the path that is returned is not normal, and leaves its directory. *)
Lemma backslash_goes_up : resolvePath demo_home (Some demo_cwd) (lit "..\") = lit "/srv/files/.." /\
  place (resolvePath demo_home (Some demo_cwd) (lit "..\")) = [lit "srv"].
Proof. vm_compute. done. Qed.

(** Without a home directory [~] is the working directory. *)
Lemma no_home : resolvePath None (Some demo_cwd) (lit "~") = demo_cwd.
Proof. vm_compute. reflexivity. Qed.

(** Extensions are compared as they are written. *)
Lemma extensions_differ : matchExtension (lit "txt") (lit "/a.TXT") = false.
Proof. vm_compute. reflexivity. Qed.
