(* ===== verification/File.v ===== *)
(** * File: the file object of [src/io/file.cpp] and the directories of [src/io/dir.cpp]

    A file is a name, a descriptor while it is open, and what the system last said of it.
    The system is an interface of its calls over a state of its own: an errno, or what a
    call gives. [dependable] and [patient] say what the theorems need of one. *)

From S2P Require Import Prelude Strings Path.
From S2P Require Buffer.

(** ** The system *)

Record Stat := mkStat { st_size : Z; st_mode : Z; st_uid : Z; st_gid : Z; st_ctime : Z; st_mtime : Z; st_atime : Z }.

#[export] Instance Stat_eq_dec : EqDecision Stat.
Proof. solve_decision. Defined.

Inductive Access := R_OK | W_OK | X_OK | W_X_OK.
Inductive AccessMode := O_RDONLY | O_WRONLY | O_RDWR.
Inductive FileType := Regular | Directory_ | Symlink | Other.

#[export] Instance FileType_eq_dec : EqDecision FileType.
Proof. solve_decision. Defined.

(** The flags of [::open]. *)
Record Flags := mkFlags { access_mode : AccessMode; o_creat : bool; o_append : bool; o_trunc : bool; o_excl : bool; o_nofollow : bool; o_noatime : bool }.

Class OS (S : Type) := mkOS {
  EINTR : Z; EAGAIN : Z; EWOULDBLOCK : Z; EBADF : Z;
  os_open : S -> bytes -> Flags -> S * (Z + Z);
  os_close : S -> Z -> S * option Z;
  os_seek : S -> Z -> Z -> S * (Z + Z);
  os_tell : S -> Z -> Z;
  os_fsync : S -> Z -> S * option Z;
  os_read : S -> Z -> Z -> S * (Z + bytes);
  os_write : S -> Z -> bytes -> S * (Z + Z);
  os_rename : S -> bytes -> bytes -> S * option Z;
  os_unlink : S -> bytes -> S * option Z;
  os_mkdir : S -> bytes -> Z -> S * bool;
  os_rmdir : S -> bytes -> S * bool;
  os_fstat : S -> Z -> option Stat;
  os_stat : S -> bytes -> option Stat;
  os_type : S -> bool -> bytes -> option FileType;
  os_access : S -> bytes -> Access -> bool;
  os_euid : S -> Z;
  os_home : S -> option bytes;
  os_cwd : S -> option bytes;
  os_entries : S -> bytes -> option (list bytes)
}.

(** ** Files *)

(** [fd] is [None] for -1. *)
(* @src src/include/samurai/io/file.h:206-210 Samurai::IO::File *)
Record File := mkFile { info : option Stat; filename : bytes; baseName : bytes; fd : option Z }.

Definition with_info (i : option Stat) (f : File) : File := mkFile i (filename f) (baseName f) (fd f).
Definition with_fd (d : option Z) (f : File) : File := mkFile (info f) (filename f) (baseName f) d.

(* @src src/include/samurai/io/file.h:34-43 Samurai::IO::File::Mode *)
Definition Mode_Write : Z := 0x01.
Definition Mode_Read : Z := 0x02.
Definition Mode_Append : Z := 0x04.
Definition Mode_Truncate : Z := 0x08.
Definition Mode_Exclusive : Z := 0x10.
Definition Mode_Paranoid : Z := 0x20.
Definition Mode_NoAccess : Z := 0x40.
Definition any (z : Z) : bool := negb (z =? 0).

(* @src src/src/io/file.cpp:169-209 Samurai::IO::File::open *)
Definition open_flags (mode : Z) : Flags :=
  let wants_write := any (Z.land mode Mode_Write) in
  let wants_read := any (Z.land mode Mode_Read) in
  let wants_append := any (Z.land mode Mode_Append) in
  let writes := wants_write || wants_append in
  mkFlags (if writes && wants_read then O_RDWR else if writes then O_WRONLY else O_RDONLY)
    writes (writes && wants_append) (writes && any (Z.land mode Mode_Truncate)) (writes && any (Z.land mode Mode_Exclusive))
    (any (Z.land mode Mode_Paranoid)) (any (Z.land mode Mode_NoAccess)).

Section file.
Context {S : Type} `{os : OS S}.

(* @src src/src/io/file.cpp:72-74 Samurai::IO::File::File *)
Definition empty_File : File := mkFile None [] [] None.
(* @src src/src/io/file.cpp:77-86 Samurai::IO::File::File *)
Definition new_File (s : S) (path : bytes) : File := mkFile None (resolvePath (os_home s) (os_cwd s) path) [] None.
(* @src src/src/io/file.cpp:89-100 Samurai::IO::File::File *)
Definition copy_File (copy : File) : File := mkFile (info copy) (filename copy) [] None.

(* @src src/src/io/file.cpp:139-155 Samurai::IO::File::getInfo *)
Definition getInfo (s : S) (f : File) : File :=
  with_info (match fd f with Some d => os_fstat s d | None => os_stat s (filename f) end) f.

(** A descriptor that the object has is forgotten. *)
(* @src src/src/io/file.cpp:165-221 Samurai::IO::File::open *)
Definition open (mode : Z) (s : S) (f : File) : bool * option Z * File * S :=
  match os_open s (filename f) (open_flags mode) with
  | (s, inl e) => (false, Some e, with_fd None f, s)
  | (s, inr d) => (true, None, with_info None (with_fd (Some d) f), s)
  end.

(* @src src/src/io/file.cpp:231-249 Samurai::IO::File::close *)
Definition close (s : S) (f : File) : bool * option Z * File * S :=
  match fd f with
  | None => (false, Some EBADF, f, s)
  | Some d => let '(s, e) := os_close s d in (bool_decide (e = None), e, with_info None (with_fd None f), s)
  end.

(** The object that is moved into, the one moved from, and the system. *)
(* @src src/src/io/file.cpp:103-110 Samurai::IO::File::File *)
Definition move_File (other : File) : File * File := (other, mkFile None [] [] None).
(* @src src/src/io/file.cpp:113-128 Samurai::IO::File::operator= *)
Definition move_assign (other : File) (s : S) (f : File) : File * File * S :=
  let '(_, _, f, s) := close s f in
  (other, mkFile None [] [] None, s).

(* @src src/src/io/file.cpp:259-274 Samurai::IO::File::rename *)
Definition rename (new_name : bytes) (s : S) (f : File) : bool * option Z * File * S :=
  let new_filename := resolvePath (os_home s) (os_cwd s) new_name in
  match os_rename s (filename f) new_filename with
  | (s, Some e) => (false, Some e, f, s)
  | (s, None) => (true, None, mkFile None new_filename [] (fd f), s)
  end.

(* @src src/src/io/file.cpp:285-298 Samurai::IO::File::seek *)
Definition seek (offset : Z) (s : S) (f : File) : bool * option Z * File * S :=
  match fd f with
  | None => (false, Some EBADF, f, s)
  | Some d =>
      match os_seek s d offset with
      | (s, inl e) => (false, Some e, f, s)
      | (s, inr _) => (true, None, with_info None f, s)
      end
  end.

(* @src src/src/io/file.cpp:301-305 Samurai::IO::File::getCurrentPosition *)
Definition getCurrentPosition (s : S) (f : File) : Z := match fd f with None => 0 | Some d => os_tell s d end.

(* @src src/src/io/file.cpp:315-328 Samurai::IO::File::flush *)
Definition flush (s : S) (f : File) : bool * option Z * File * S :=
  match fd f with
  | None => (false, Some EBADF, f, s)
  | Some d =>
      match os_fsync s d with
      | (s, Some e) => (false, Some e, f, s)
      | (s, None) => (true, None, with_info None f, s)
      end
  end.

(** The loop over interrupted reads. *)
(* @src src/src/io/file.cpp:346-348 Samurai::IO::File::read *)
Fixpoint read_loop (fuel : nat) (d length : Z) (s : S) : option (S * (Z + bytes)) :=
  match fuel with
  | O => None
  | Datatypes.S fuel =>
      match os_read s d length with
      | (s, inl e) => if e =? EINTR then read_loop fuel d length s else Some (s, inl e)
      | r => Some r
      end
  end.

(** What was read; [None] for -1. *)
(* @src src/src/io/file.cpp:338-354 Samurai::IO::File::read *)
Definition read (fuel : nat) (length : Z) (s : S) (f : File) : option (option bytes * option Z * File * S) :=
  match fd f with
  | None => Some (None, Some EBADF, f, s)
  | Some d =>
      '(s, r) ← read_loop fuel d length s;
      Some match r with
           | inl e => (None, Some e, f, s)
           | inr got => (Some got, None, with_info None f, s)
           end
  end.

(** The loop of [write]: how much was placed, and the error that ended it. *)
(* @src src/src/io/file.cpp:373-385 Samurai::IO::File::write *)
Fixpoint write_loop (fuel : nat) (d : Z) (data : bytes) (done : Z) (s : S) : option (S * Z * option Z) :=
  match data with
  | [] => Some (s, done, None)
  | _ =>
      match fuel with
      | O => None
      | Datatypes.S fuel =>
          match os_write s d data with
          | (s, inl e) =>
              if e =? EINTR then write_loop fuel d data done s
              else if (e =? EAGAIN) || (e =? EWOULDBLOCK) then Some (s, done, None)
              else Some (s, done, Some e)
          | (s, inr status) => write_loop fuel d (zdrop status data) (done + status) s
          end
      end
  end.

(** -1 and the error if nothing was placed, else how much was. *)
(* @src src/src/io/file.cpp:364-389 Samurai::IO::File::write *)
Definition write (fuel : nat) (data : bytes) (s : S) (f : File) : option (Z * option Z * File * S) :=
  match fd f with
  | None => Some (-1, Some EBADF, f, s)
  | Some d =>
      '(s, done, e) ← write_loop fuel d data 0 s;
      Some match e with
           | Some e => if done =? 0 then (-1, Some e, f, s) else (done, None, with_info None f, s)
           | None => (done, None, if negb (done =? 0) then with_info None f else f, s)
           end
  end.

(* @src src/src/io/file.cpp:392-402 Samurai::IO::File::read *)
Definition read_buffer (alloc : Z -> bool) (fuel : nat) (length : Z) (b : Buffer.Buffer) (s : S) (f : File)
    : option (Z * Buffer.Buffer * File * S) :=
  '(r, _, f, s) ← read fuel length s f;
  Some match r with
       | None => (-1, b, f, s)
       | Some got => if zlen got <=? 0 then (zlen got, b, f, s) else (zlen got, (Buffer.append alloc got b).2, f, s)
       end.

(* @src src/src/io/file.cpp:404-419 Samurai::IO::File::write *)
Definition write_buffer (fuel : nat) (length : Z) (remove : bool) (b : Buffer.Buffer) (s : S) (f : File)
    : option (Z * Buffer.Buffer * File * S) :=
  let len := if Buffer.size b <? length then Buffer.size b else length in
  '(status, _, f, s) ← write fuel (Buffer.pop len b) s f;
  Some (status, if status <=? 0 then b else if remove then Buffer.remove status b else b, f, s).

(** ** What is asked of a file *)

(** An accessor fills the cache. *)
Definition ask {A} (zero : A) (field : Stat -> A) (s : S) (f : File) : A * File :=
  let f := if bool_decide (info f = None) then getInfo s f else f in
  (from_option field zero (info f), f).

(* @src src/src/io/file.cpp:422-427 Samurai::IO::File::size *)
Definition size (s : S) (f : File) : Z * File := ask 0 st_size s f.
(* @src src/src/io/file.cpp:429-434 Samurai::IO::File::getPermissions *)
Definition getPermissions (s : S) (f : File) : Z * File := ask 0 st_mode s f.
(* @src src/src/io/file.cpp:437-442 Samurai::IO::File::getOwner *)
Definition getOwner (s : S) (f : File) : Z * File := ask 0 st_uid s f.
(* @src src/src/io/file.cpp:444-449 Samurai::IO::File::getGroup *)
Definition getGroup (s : S) (f : File) : Z * File := ask 0 st_gid s f.
(* @src src/src/io/file.cpp:602-607 Samurai::IO::File::getTimeCreated *)
Definition getTimeCreated (s : S) (f : File) : Z * File := ask 0 st_ctime s f.
(* @src src/src/io/file.cpp:610-615 Samurai::IO::File::getTimeModified *)
Definition getTimeModified (s : S) (f : File) : Z * File := ask 0 st_mtime s f.
(* @src src/src/io/file.cpp:618-623 Samurai::IO::File::getTimeAccessed *)
Definition getTimeAccessed (s : S) (f : File) : Z * File := ask 0 st_atime s f.

(* @src src/src/io/file.cpp:451-454 Samurai::IO::File::isReadable *)
Definition isReadable (s : S) (f : File) : bool := os_access s (filename f) R_OK.
(* @src src/src/io/file.cpp:456-459 Samurai::IO::File::isWritable *)
Definition isWritable (s : S) (f : File) : bool := os_access s (filename f) W_OK.
(* @src src/src/io/file.cpp:497-517 Samurai::IO::File::isExecutable *)
Definition isExecutable (s : S) (f : File) : bool := os_access s (filename f) X_OK.

Definition S_ISVTX : Z := 0x200.

(** [parent_path] of a path without redundant separators. *)
Definition parent_path (p : bytes) : bytes :=
  match rfind_char ch_slash p with None => [] | Some 0%nat => [ch_slash] | Some i => take i p end.

(* @src src/src/io/file.cpp:461-495 Samurai::IO::File::isDeleteable *)
Definition isDeleteable (s : S) (f : File) : bool :=
  let parent := parent_path (filename f) in
  let dir := if bool_decide (parent = []) then dot else parent in
  if negb (os_access s dir W_X_OK) then false
  else match os_stat s dir with
       | None => false
       | Some dir_info =>
           if any (Z.land (st_mode dir_info) S_ISVTX) then
             match os_stat s (filename f) with
             | None => false
             | Some i => let me := os_euid s in negb (negb (me =? 0) && negb (me =? st_uid i) && negb (me =? st_uid dir_info))
             end
           else true
       end.

(* @src src/src/io/file.cpp:541-545 Samurai::IO::File::isRegular *)
Definition isRegular (s : S) (f : File) : bool := bool_decide (os_type s true (filename f) = Some Regular).
(* @src src/src/io/file.cpp:549-553 Samurai::IO::File::isSymlink *)
Definition isSymlink (s : S) (f : File) : bool := bool_decide (os_type s false (filename f) = Some Symlink).
(* @src src/src/io/file.cpp:555-559 Samurai::IO::File::isDirectory *)
Definition isDirectory (s : S) (f : File) : bool := bool_decide (os_type s true (filename f) = Some Directory_).
(* @src src/src/io/file.cpp:561-574 Samurai::IO::File::exists *)
Definition exists_path (s : S) (path : bytes) : bool := bool_decide (is_Some (os_stat s path)).

(* @src src/src/io/file.cpp:582-591 Samurai::IO::File::remove *)
Definition remove (s : S) (f : File) : bool * option Z * File * S :=
  match os_unlink s (filename f) with
  | (s, Some e) => (false, Some e, f, s)
  | (s, None) => (true, None, with_info None f, s)
  end.

(** By name, without an object; null is no file. *)
(* @src src/src/io/file.cpp:594-599 Samurai::IO::File::remove *)
Definition remove_path (s : S) (path : option bytes) : bool * S :=
  match path with
  | None => (false, s)
  | Some path => let '(s, e) := os_unlink s path in (bool_decide (e = None), s)
  end.

(** Files are the same when their names are. *)
(* @src src/src/io/file.cpp:743-747 Samurai::IO::File::operator== *)
Definition same_file (f g : File) : bool := bool_decide (filename g = filename f).

(* @src src/src/io/file.cpp:630-643 Samurai::IO::File::mkdir *)
Definition mkdir (dirname : bytes) (mode : Z) (s : S) : Z * S :=
  let '(s, ok) := os_mkdir s (resolvePath (os_home s) (os_cwd s) dirname) mode in (if ok then 0 else -1, s).

(* @src src/src/io/file.cpp:645-662 Samurai::IO::File::rmdir *)
Definition rmdir (dirname : bytes) (s : S) : Z * S :=
  let dir := resolvePath (os_home s) (os_cwd s) dirname in
  if negb (bool_decide (os_type s false dir = Some Directory_)) then (-1, s)
  else let '(s, ok) := os_rmdir s dir in (if ok then 0 else -1, s).

(* @src src/src/io/file.cpp:731-740 Samurai::IO::File::getBaseName *)
Definition getBaseName (f : File) : bytes * File :=
  if negb (bool_decide (baseName f = [])) then (baseName f, f)
  else match rfind_char ch_slash (filename f) with
       | None => (filename f, f)
       | Some pos => let b := drop (pos + 1) (filename f) in (b, mkFile (info f) (filename f) b (fd f))
       end.

(** ** Directories *)

(** [iter] is what the iterator has left. *)
(* @src src/include/samurai/io/dir.h:56-58 Samurai::IO::Directory *)
Record Directory := mkDirectory { path : bytes; iter : list bytes; opened : bool }.

(* @src src/src/io/dir.cpp:13-25 Samurai::IO::Directory::Directory *)
Definition new_Directory (s : S) (p : bytes) : Directory := mkDirectory (filename (new_File s p)) [] false.

(* @src src/src/io/dir.cpp:33-42 Samurai::IO::Directory::open *)
Definition open_directory (s : S) (d : Directory) : bool * Directory :=
  match os_entries s (path d) with
  | None => (false, mkDirectory (path d) [] false)
  | Some l => (true, mkDirectory (path d) l true)
  end.

(* @src src/src/io/dir.cpp:45-48 Samurai::IO::Directory::close *)
Definition close_directory (d : Directory) : Directory := mkDirectory (path d) [] false.

(** An error in the middle ends the list. *)
(* @src src/src/io/dir.cpp:62-77 Samurai::IO::Directory::next *)
Definition next (s : S) (d : Directory) : option File * Directory :=
  if negb (opened d) then (None, d)
  else match iter d with
       | [] => (None, d)
       | e :: l => (Some (new_File s (append_path (path d) e)), mkDirectory (path d) l (opened d))
       end.

(* @src src/src/io/dir.cpp:51-59 Samurai::IO::Directory::first *)
Definition first (s : S) (d : Directory) : option File * Directory :=
  if negb (opened d) then (None, d)
  else match os_entries s (path d) with
       | None => (None, mkDirectory (path d) [] (opened d))
       | Some l => next s (mkDirectory (path d) l (opened d))
       end.

(** Going on until there is no more. *)
Fixpoint list_all (fuel : nat) (s : S) (d : Directory) : list File :=
  match fuel with
  | O => []
  | Datatypes.S fuel => match next s d with (None, _) => [] | (Some f, d) => f :: list_all fuel s d end
  end.
End file.

(** ** Writing *)

Section writing.
Context {S : Type} `{os : OS S}.

(** What a system placed on its way to another, and how often in a row a write may be
    interrupted or place nothing. *)
Variable placed : S -> bytes -> S -> Prop.
Variable patience : S -> nat.
Variable most : nat.
Hypothesis placed_refl : forall s, placed s [] s.
Hypothesis placed_trans : forall s1 x s2 y s3, placed s1 x s2 -> placed s2 y s3 -> placed s1 (x ++ y) s3.
Hypothesis write_places : forall s d data s' n, os_write s d data = (s', inr n) -> 0 <= n <= zlen data /\ placed s (ztake n data) s'.
Hypothesis write_fails : forall s d data s' e, os_write s d data = (s', inl e) -> placed s [] s'.
Hypothesis write_stalls : forall s d data s', data <> [] -> os_write s d data = (s', inl EINTR) \/ os_write s d data = (s', inr 0) -> (patience s' < patience s)%nat.
Hypothesis patience_most : forall s, (patience s <= most)%nat.

(** The loop ended because all was placed, or on an error. *)
Definition gave_up (d : Z) (rest : bytes) (s' : S) : Prop := rest = [] \/ exists s e, os_write s d rest = (s', inl e) /\ e <> EINTR.

Lemma write_loop_places d n : forall data fuel s done, zlen data = Z.of_nat n -> (patience s + n * Datatypes.S most < fuel)%nat ->
  exists s' m e, write_loop fuel d data done s = Some (s', done + m, e) /\ 0 <= m <= zlen data /\
    placed s (ztake m data) s' /\ gave_up d (zdrop m data) s'.
Proof.
  induction n as [n IHn] using lt_wf_ind. intros data fuel. revert data. induction fuel as [|fuel IH]; intros data s done Hn Hf; [lia|].
  destruct data as [|c data].
  { exists s, 0, None. cbn. rewrite Z.add_0_r. split; [done|]. split; [cbn; lia|]. split; [done|by left]. }
  cbn [write_loop]. set (all := c :: data) in *. destruct (os_write s d all) as [s1 [e|m]] eqn:E.
  - pose proof (write_fails _ _ _ _ _ E) as Hp. destruct (Z.eqb_spec e EINTR) as [->|He].
    + destruct (IH all s1 done Hn) as (s' & m & e & -> & Hm & Hpl & Hg); [pose proof (write_stalls _ d all _ ltac:(done) (or_introl E)); lia|].
      exists s', m, e. split; [done|]. split; [done|]. split; [|done]. exact (placed_trans _ [] _ _ _ Hp Hpl).
    + assert (H : exists e', (if (e =? EAGAIN) || (e =? EWOULDBLOCK) then Some (s1, done, None) else Some (s1, done, Some e)) = Some (s1, done + 0, e')).
      { rewrite Z.add_0_r. destruct (_ || _); eauto. }
      destruct H as (e' & ->). exists s1, 0, e'. cbn. split; [done|]. split; [unfold all; pose proof (zlen_nonneg (c :: data)); lia|].
      split; [done|]. right. by exists s, e.
  - destruct (write_places _ _ _ _ _ E) as [Hm Hp]. destruct (Z.eq_dec m 0) as [->|Hm0].
    + destruct (IH all s1 (done + 0) Hn) as (s' & m & e & E' & Hm' & Hpl & Hg); [pose proof (write_stalls _ d all _ ltac:(done) (or_intror E)); lia|].
      change (zdrop 0 all) with all. exists s', m, e. rewrite Z.add_0_r in *. rewrite E'. split; [done|]. split; [done|]. split; [|done].
      exact (placed_trans _ [] _ _ _ Hp Hpl).
    + assert (Hl : zlen (zdrop m all) = Z.of_nat (n - Z.to_nat m)) by (unfold zlen in *; rewrite length_drop; lia).
      destruct (IHn (n - Z.to_nat m)%nat ltac:(lia) (zdrop m all) fuel s1 (done + m) Hl) as (s' & k & e & E' & Hk & Hpl & Hg).
      { pose proof (patience_most s1). assert (Z.to_nat m >= 1)%nat by lia. assert (n >= Z.to_nat m)%nat by lia.
        assert (n * Datatypes.S most >= (n - Z.to_nat m) * Datatypes.S most + Datatypes.S most)%nat by nia. lia. }
      exists s', (m + k), e. rewrite E', Z.add_assoc. split; [done|]. assert (zlen all = Z.of_nat n) by done. split; [lia|].
      rewrite Z2Nat.inj_add by lia. split.
      * rewrite <- take_take_drop. exact (placed_trans _ _ _ _ _ Hp Hpl).
      * by rewrite <- drop_drop.
Qed.

Lemma write_spec d data fuel s f :
  fd f = Some d -> (patience s + length data * Datatypes.S most < fuel)%nat ->
  exists status e f' s' n, write fuel data s f = Some (status, e, f', s') /\ 0 <= n <= zlen data /\
    (status = n /\ e = None \/ status = -1 /\ n = 0 /\ e <> None) /\
    placed s (ztake n data) s' /\ gave_up d (zdrop n data) s' /\ info f' = (if n =? 0 then info f else None).
Proof.
  intros Hd Hf. unfold write. rewrite Hd.
  destruct (write_loop_places d (length data) data fuel s 0) as (s' & m & e & -> & Hm & Hp & Hg); [done|done|].
  cbn [mbind option_bind]. rewrite Z.add_0_l. destruct e as [e|].
  - destruct (Z.eqb_spec m 0) as [->|H0].
    + exists (-1), (Some e), f, s', 0. split; [done|]. split; [lia|]. split; [by right|]. done.
    + exists m, None, (with_info None f), s', m. split; [done|]. split; [lia|]. split; [by left|]. by rewrite (proj2 (Z.eqb_neq m 0)).
  - exists m, None, (if negb (m =? 0) then with_info None f else f), s', m. split; [done|]. split; [lia|]. split; [by left|]. split; [done|]. split; [done|]. by destruct (m =? 0).
Qed.
End writing.

(** ** The cache *)

Inductive Op :=
  | Open (mode : Z) | Close | Rename (name : bytes) | Seek (offset : Z) | Flush | Read (n : Z) | Write (data : bytes) | Remove | Ask | AskName.

Section cache.
Context {S : Type} `{os : OS S}.

(** What the system says of a file now. *)
Definition now (s : S) (f : File) : option Stat := match fd f with Some d => os_fstat s d | None => os_stat s (filename f) end.

(** What failed changed nothing: neither did a write that placed nothing. *)
Definition still (s s' : S) : Prop := (forall d, os_fstat s' d = os_fstat s d) /\ (forall p, os_stat s' p = os_stat s p).
Hypothesis open_fails : forall s p fl s' e, os_open s p fl = (s', inl e) -> still s s'.
Hypothesis rename_fails : forall s p q s' e, os_rename s p q = (s', Some e) -> still s s'.
Hypothesis unlink_fails : forall s p s' e, os_unlink s p = (s', Some e) -> still s s'.
Hypothesis seek_fails : forall s d o s' e, os_seek s d o = (s', inl e) -> still s s'.
Hypothesis fsync_fails : forall s d s' e, os_fsync s d = (s', Some e) -> still s s'.
Hypothesis read_fails : forall s d n s' e, os_read s d n = (s', inl e) -> still s s'.
Hypothesis write_idle : forall s d data s' r, os_write s d data = (s', r) -> (exists e, r = inl e) \/ r = inr 0 -> still s s'.
Hypothesis write_count : forall s d data s' n, os_write s d data = (s', inr n) -> 0 <= n.

Definition apply (fuel : nat) (o : Op) (f : File) (s : S) : option (File * S) :=
  match o with
  | Open mode => let '(_, _, f, s) := open mode s f in Some (f, s)
  | Close => let '(_, _, f, s) := close s f in Some (f, s)
  | Rename n => let '(_, _, f, s) := rename n s f in Some (f, s)
  | Seek o => let '(_, _, f, s) := seek o s f in Some (f, s)
  | Flush => let '(_, _, f, s) := flush s f in Some (f, s)
  | Read n => '(_, _, f, s) ← read fuel n s f; Some (f, s)
  | Write data => '(_, _, f, s) ← write fuel data s f; Some (f, s)
  | Remove => let '(_, _, f, s) := remove s f in Some (f, s)
  | Ask => Some ((size s f).2, s)
  | AskName => Some ((getBaseName f).2, s)
  end.

Fixpoint applies (fuel : nat) (l : list Op) (f : File) (s : S) : option (File * S) :=
  match l with [] => Some (f, s) | o :: l => '(f, s) ← apply fuel o f s; applies fuel l f s end.

(** An open file is opened again, and that fails: the object has no descriptor any more,
    and still what the lost one was asked. *)
Definition reopen_fails (o : Op) (f : File) (s : S) : bool :=
  match o with Open mode => bool_decide (is_Some (fd f)) && negb (open mode s f).1.1.1 | _ => false end.
Fixpoint descriptor_lost (fuel : nat) (l : list Op) (f : File) (s : S) : bool :=
  match l with
  | [] => false
  | o :: l => reopen_fails o f s || match apply fuel o f s with Some (f, s) => descriptor_lost fuel l f s | None => false end
  end.

Definition coherent (f : File) (s : S) : Prop := forall st, info f = Some st -> now s f = Some st.
Definition named (f : File) : Prop := baseName f = [] \/ baseName f = filename_of (filename f).

Lemma still_refl s : still s s.
Proof. done. Qed.

Lemma still_trans s1 s2 s3 : still s1 s2 -> still s2 s3 -> still s1 s3.
Proof. intros [A B] [C D]. split; intros x; [by rewrite C|by rewrite D]. Qed.

Lemma still_coherent f s s' : still s s' -> coherent f s -> coherent f s'.
Proof. intros [A B] I st H. specialize (I st H). unfold now in *. destruct (fd f); [by rewrite A|by rewrite B]. Qed.

(** A cache that is dropped. *)
Lemma dropped_coherent f s : info f = None -> coherent f s.
Proof. intros E st. by rewrite E. Qed.

Lemma asked_coherent {A} (zero : A) field f s :
  coherent f s -> coherent (ask zero field s f).2 s /\ (ask zero field s f).1 = from_option field zero (now s f).
Proof.
  intros I. unfold ask. case_bool_decide as Hn; cbn [fst snd]; [split; [intros st Hst; exact Hst|done]|].
  split; [done|]. destruct (info f) as [st|] eqn:E; [|done]. by rewrite (I st).
Qed.

Lemma read_still fuel d n s s' r : read_loop fuel d n s = Some (s', r) -> (exists e, r = inl e) -> still s s'.
Proof.
  revert s. induction fuel as [|fuel IH]; intros s; [done|]. cbn [read_loop]. destruct (os_read s d n) as [s1 [e|got]] eqn:E.
  - pose proof (read_fails _ _ _ _ _ E) as Hs. destruct (e =? EINTR); intros H Hr; [|by injection H as <- <-].
    eapply still_trans; [exact Hs|by apply IH].
  - intros [= <- <-] [e ?]. done.
Qed.

(** As long as nothing was placed. *)
Lemma write_still fuel d data done s s' m e : write_loop fuel d data done s = Some (s', m, e) -> done <= m /\ (m = done -> still s s').
Proof.
  revert data done s. induction fuel as [|fuel IH]; intros data done s.
  { destruct data; [|done]. intros [= <- <- <-]. split; [lia|done]. }
  destruct data as [|c data]; [intros [= <- <- <-]; split; [lia|done]|]. cbn [write_loop].
  destruct (os_write s d (c :: data)) as [s1 [e1|n]] eqn:E.
  - pose proof (write_idle _ _ _ _ _ E (or_introl (ex_intro _ e1 eq_refl))) as Hs. destruct (e1 =? EINTR).
    + intros H. destruct (IH _ _ _ H) as [H1 H2]. split; [done|]. intros ->. eapply still_trans; [exact Hs|by apply H2].
    + destruct (_ || _); intros [= <- <- <-]; split; done || lia.
  - pose proof (write_count _ _ _ _ _ E) as Hn. intros H. destruct (IH _ _ _ H) as [H1 H2]. split; [lia|]. intros ->.
    assert (n = 0) as -> by lia. eapply still_trans; [exact (write_idle _ _ _ _ _ E (or_intror eq_refl))|]. apply H2. lia.
Qed.

Lemma apply_coherent fuel o f s f' s' :
  coherent f s -> reopen_fails o f s = false -> apply fuel o f s = Some (f', s') -> coherent f' s'.
Proof.
  intros C HO H. destruct o; cbn [apply] in H.
  - cbn [reopen_fails] in HO. unfold open in *. destruct (os_open s (filename f) _) as [s1 [e|d]] eqn:E; injection H as <- <-; [|by apply dropped_coherent].
    rewrite andb_true_r in HO. apply bool_decide_eq_false, eq_None_not_Some in HO.
    replace (with_fd None f) with f by (destruct f; cbn in *; by subst). apply (still_coherent f s s1); [by eapply open_fails|done].
  - unfold close in H. destruct (fd f); [|by injection H as <- <-]. destruct (os_close s _). injection H as <- <-. by apply dropped_coherent.
  - unfold rename in H. destruct (os_rename s _ _) as [s1 [e|]] eqn:E; injection H as <- <-; [by apply (still_coherent f s s1); [eapply rename_fails|]|].
    by apply dropped_coherent.
  - unfold seek in H. destruct (fd f); [|by injection H as <- <-]. destruct (os_seek s _ _) as [s1 [e|x]] eqn:E; injection H as <- <-;
      [by apply (still_coherent f s s1); [eapply seek_fails|]|by apply dropped_coherent].
  - unfold flush in H. destruct (fd f); [|by injection H as <- <-]. destruct (os_fsync s _) as [s1 [e|]] eqn:E; injection H as <- <-;
      [by apply (still_coherent f s s1); [eapply fsync_fails|]|by apply dropped_coherent].
  - unfold read in H. destruct (fd f); [|by injection H as <- <-]. destruct (read_loop _ _ _ _) as [[s1 [e|got]]|] eqn:E; cbn in H; [| |done]; injection H as <- <-;
      [by apply (still_coherent f s s1); [eapply read_still; [exact E|eauto]|]|by apply dropped_coherent].
  - unfold write in H. destruct (fd f); [|by injection H as <- <-]. destruct (write_loop _ _ _ _ _) as [[[s1 m] e]|] eqn:E; cbn in H; [|done].
    destruct (write_still _ _ _ _ _ _ _ _ E) as [Hm Hs]. destruct (Z.eqb_spec m 0) as [->|Hm0]; destruct e; injection H as <- <-.
    all: try (by apply dropped_coherent). all: by apply (still_coherent f s s1); [apply Hs|].
  - unfold remove in H. destruct (os_unlink s _) as [s1 [e|]] eqn:E; injection H as <- <-;
      [by apply (still_coherent f s s1); [eapply unlink_fails|]|by apply dropped_coherent].
  - injection H as <- <-. exact (proj1 (asked_coherent 0 st_size f s C)).
  - injection H as <- <-. unfold getBaseName. case_bool_decide; cbn [negb]; [|done]. by destruct (rfind_char ch_slash (filename f)).
Qed.

(** Only a new name changes the base name. *)
Lemma apply_named fuel o f s f' s' : named f -> apply fuel o f s = Some (f', s') -> named f'.
Proof.
  intros N H. destruct o; cbn [apply] in H.
  1-8: unfold open, close, rename, seek, flush, read, write, remove, mbind, option_bind in H; repeat case_match; simplify_eq; exact N || by left.
  - injection H as <- <-. unfold size, ask, getInfo. by case_bool_decide.
  - injection H as <- <-. unfold getBaseName. case_bool_decide; cbn [negb]; [|done]. destruct (rfind_char ch_slash (filename f)) eqn:E; [|done].
    right. cbn [baseName filename snd]. unfold filename_of. by rewrite E.
Qed.

Lemma applies_current fuel l f s f' s' : coherent f s -> descriptor_lost fuel l f s = false -> applies fuel l f s = Some (f', s') -> coherent f' s'.
Proof.
  revert f s. induction l as [|o l IH]; intros f s C HL H; [by injection H as <- <-|]. cbn [applies descriptor_lost] in *.
  apply orb_false_iff in HL as [HO HL]. destruct (apply fuel o f s) as [[f1 s1]|] eqn:E; [|done]. cbn [mbind option_bind] in H.
  apply (IH f1 s1); [by eapply apply_coherent|done|done].
Qed.

Lemma applies_named fuel l f s f' s' : named f -> applies fuel l f s = Some (f', s') -> named f'.
Proof.
  revert f s. induction l as [|o l IH]; intros f s N H; [by injection H as <- <-|]. cbn [applies] in H.
  destruct (apply fuel o f s) as [[f1 s1]|] eqn:E; [|done]. cbn [mbind option_bind] in H. apply (IH f1 s1); [by eapply apply_named|done].
Qed.

Lemma named_answer f : named f -> (getBaseName f).1 = filename_of (filename f).
Proof.
  unfold getBaseName, filename_of. intros [N|N].
  - rewrite N. cbn. by destruct (rfind_char ch_slash (filename f)).
  - unfold filename_of in N. case_bool_decide as Hb; cbn [negb fst]; [|done]. by destruct (rfind_char ch_slash (filename f)).
Qed.

(** How often in a row a call may be interrupted, or place nothing. *)
Variable patience : S -> nat.
Variable most : nat.
Hypothesis read_stalls : forall s d n s', os_read s d n = (s', inl EINTR) -> (patience s' < patience s)%nat.
Hypothesis write_stalls' : forall s d data s', data <> [] -> os_write s d data = (s', inl EINTR) \/ os_write s d data = (s', inr 0) -> (patience s' < patience s)%nat.
Hypothesis write_bounded : forall s d data s' n, os_write s d data = (s', inr n) -> n <= zlen data.
Hypothesis patience_most' : forall s, (patience s <= most)%nat.

Lemma read_returns fuel d n s : (patience s < fuel)%nat -> is_Some (read_loop fuel d n s).
Proof.
  revert s. induction fuel as [|fuel IH]; intros s Hf; [lia|]. cbn [read_loop]. destruct (os_read s d n) as [s1 [e|got]] eqn:E; [|done].
  destruct (Z.eqb_spec e EINTR) as [->|]; [|done]. apply IH. pose proof (read_stalls _ _ _ _ E). lia.
Qed.

Definition op_size (o : Op) : nat := match o with Write data => length data | _ => 0 end.

Lemma apply_returns fuel o f s : (most + op_size o * Datatypes.S most < fuel)%nat -> is_Some (apply fuel o f s).
Proof.
  intros Hf. destruct o; cbn [apply op_size] in *; try done.
  - by destruct (open mode s f) as [[[??]?]?].
  - by destruct (close s f) as [[[??]?]?].
  - by destruct (rename name s f) as [[[??]?]?].
  - by destruct (seek offset s f) as [[[??]?]?].
  - by destruct (flush s f) as [[[??]?]?].
  - unfold read. destruct (fd f); [|done]. destruct (read_returns fuel z n s) as [[s1 r] ->]; [pose proof (patience_most' s); lia|]. by destruct r.
  - destruct (fd f) as [d|] eqn:Hd; [|by unfold write; rewrite Hd].
    destruct (write_spec (fun _ _ _ => True) patience most) with (d := d) (data := data) (fuel := fuel) (s := s) (f := f) as (st & e & f' & s' & n & -> & _); try done.
    + intros s0 d0 data0 s1 n H. split; [|done]. split; [by eapply write_count|by eapply write_bounded].
    + pose proof (patience_most' s). lia.
  - by destruct (remove s f) as [[[??]?]?].
Qed.

Lemma applies_returns fuel l f s : Forall (fun o => (most + op_size o * Datatypes.S most < fuel)%nat) l -> is_Some (applies fuel l f s).
Proof.
  revert f s. induction l as [|o l IH]; intros f s Hl; [done|]. apply Forall_cons in Hl as [Ho Hl]. cbn [applies].
  destruct (apply_returns fuel o f s Ho) as [[f1 s1] ->]. by apply IH.
Qed.
End cache.

(** ** Properties *)

(** What is relied on: a call that fails changes nothing that is asked of a file, nor does
    a write that places nothing; and a write places at most what it is given. *)
Record dependable {S} (os : OS S) : Prop := mkdependable {
  open_fails : forall s p fl s' e, os_open s p fl = (s', inl e) -> still s s';
  rename_fails : forall s p q s' e, os_rename s p q = (s', Some e) -> still s s';
  unlink_fails : forall s p s' e, os_unlink s p = (s', Some e) -> still s s';
  seek_fails : forall s d o s' e, os_seek s d o = (s', inl e) -> still s s';
  fsync_fails : forall s d s' e, os_fsync s d = (s', Some e) -> still s s';
  read_fails : forall s d n s' e, os_read s d n = (s', inl e) -> still s s';
  write_idle : forall s d data s' r, os_write s d data = (s', r) -> (exists e, r = inl e) \/ r = inr 0 -> still s s';
  write_within : forall s d data s' n, os_write s d data = (s', inr n) -> 0 <= n <= zlen data
}.

(** What the loops over interrupted calls need to end: no more than [most] calls in a row
    are interrupted, or place nothing. *)
Record patient {S} {os : OS S} (patience : S -> nat) (most : nat) : Prop := mkpatient {
  read_stalls : forall s d n s', os_read s d n = (s', inl EINTR) -> (patience s' < patience s)%nat;
  write_stalls : forall s d data s', data <> [] -> os_write s d data = (s', inl EINTR) \/ os_write s d data = (s', inr 0) -> (patience s' < patience s)%nat;
  patience_most : forall s, (patience s <= most)%nat
}.

(** C38. Whatever is done with a file - opened, again too, closed, renamed, read, written,
    flushed, removed, asked - on a system where nobody else changes it, where a call that
    fails changes nothing and a write places at most what it is given: after any sequence
    of operations what the file answers about itself is what the system says at that
    moment, of the descriptor while it has one and of the name otherwise, unless it was
    opened while it was open and that failed, which loses the descriptor and keeps what it
    was asked ([failed_reopen_is_stale]); and its base name is that of its present name
    without exception. And every sequence comes back, where no more than a bounded number
    of calls in a row are interrupted or place nothing. *)
Theorem answers_are_current {S} {os : OS S} (fuel : nat) (path : bytes) (l : list Op) (s : S) (D : dependable os) :
  (forall f' s', applies fuel l (new_File s path) s = Some (f', s') ->
     (descriptor_lost fuel l (new_File s path) s = false ->
        forall A (zero : A) field, (ask zero field s' f').1 = from_option field zero (now s' f')) /\
     (getBaseName f').1 = filename_of (filename f')) /\
  (forall patience most, patient patience most -> Forall (fun o => (most + op_size o * Datatypes.S most < fuel)%nat) l ->
     is_Some (applies fuel l (new_File s path) s)).
Proof.
  destruct D. split.
  - intros f' s' E. split.
    + intros HL A zero field. apply asked_coherent. eapply (applies_current) with (fuel := fuel) (l := l) (f := new_File s path) (s := s); try done.
      intros s0 d data s1 n H. by eapply write_within0.
    + apply named_answer. eapply applies_named; [|exact E]. by left.
  - intros patience most [] Hf. apply (applies_returns) with (patience := patience) (most := most); try done.
    all: intros s0 d data s1 n H; by eapply write_within0.
Qed.

(** Writing from a buffer: what was placed is a prefix of the buffer's bytes, the
    buffer keeps exactly the rest, and the call comes back, with how much it was unless
    nothing was placed and the system said why; it stops short only of bytes that the
    system refused. *)
Theorem buffered_write {S} {os : OS S} (content : S -> bytes) (patience : S -> nat) (most fuel : nat) (length : Z) (b : Buffer.Buffer) (d : Z) (s : S) (f : File)
  (D : dependable os) (P : patient patience most)
  (write_appends : forall s d data s' n, os_write s d data = (s', inr n) -> content s' = content s ++ ztake n data)
  (write_fails : forall s d data s' e, os_write s d data = (s', inl e) -> content s' = content s)
  (Hb : Buffer.wf b) (Hl : 0 <= length) (Hd : fd f = Some d) (Hf : (most + Z.to_nat length * Datatypes.S most < fuel)%nat) :
  exists status b' f' s' n, write_buffer fuel length true b s f = Some (status, b', f', s') /\
    0 <= n <= length `min` Buffer.size b /\ (status = n \/ status = -1 /\ n = 0) /\
    content s' = content s ++ ztake n (Buffer.live b) /\ Buffer.live b' = zdrop n (Buffer.live b) /\ Buffer.wf b' /\
    gave_up d (zdrop n (ztake (length `min` Buffer.size b) (Buffer.live b))) s'.
Proof.
  unfold write_buffer. replace (if Buffer.size b <? length then Buffer.size b else length) with (length `min` Buffer.size b) by (destruct (Z.ltb_spec (Buffer.size b) length); lia).
  pose proof (Buffer.live_length b Hb) as Hs. pose proof (zlen_nonneg (Buffer.live b)). set (len := length `min` Buffer.size b) in *.
  rewrite Buffer.pop_live by (done || lia). cbv zeta. set (data := ztake len (Buffer.live b)).
  assert (Hlen : zlen data = len) by (unfold data, zlen in *; rewrite length_take; lia).
  destruct (write_spec (fun s x s' => content s' = content s ++ x) patience most) with (d := d) (data := data) (fuel := fuel) (s := s) (f := f)
    as (status & e & f' & s' & n & -> & Hn & Hst & Hp & Hg & _); try done.
  - intros s0. by rewrite app_nil_r.
  - intros s1 x s2 y s3 H1 H2. by rewrite H2, H1, (assoc_L (++)).
  - intros s0 d0 data0 s1 n H0. split; [by eapply write_within|by eapply write_appends].
  - intros s0 d0 data0 s1 e H0. rewrite app_nil_r. by eapply write_fails.
  - by apply P.
  - by apply P.
  - assert (List.length data <= Z.to_nat length)%nat by (unfold zlen in *; lia). pose proof (patience_most _ _ P s). nia.
  - cbn [mbind option_bind]. assert (Ht : ztake n data = ztake n (Buffer.live b)) by (unfold data; rewrite take_take; f_equal; lia).
    eexists status, _, f', s', n. split; [reflexivity|]. split; [lia|]. split; [by destruct Hst as [[? _]|(? & ? & _)]; [left|right]|].
    split; [by rewrite Hp, Ht|]. destruct Hst as [[-> _]|(-> & -> & _)]; [|done].
    destruct (Z.leb_spec n 0); [by replace n with 0 in * by lia|]. destruct (Buffer.remove_live n b Hb ltac:(lia)) as (? & ? & _). done.
Qed.

(** ** A system with one file *)

(** How its first writes go: one is interrupted, one places two bytes, one would block. *)
Definition demo_script : list (Z + Z) := [inl 4; inr 2; inl 11].

(** What is in the file, and how many of those there were. *)
Definition demo_write (s : bytes * nat) (data : bytes) : bytes * nat * (Z + Z) :=
  let '(c, k) := s in
  match demo_script !! k with
  | None => ((c ++ data, k), inr (zlen data))
  | Some (inl e) => ((c, S k), inl e)
  | Some (inr n) => let n := n `min` zlen data in ((c ++ ztake n data, S k), inr n)
  end.

Definition demo_stat (s : bytes * nat) : Stat := mkStat (zlen s.1) 0 0 0 0 0 0.

Definition demo_os : OS (bytes * nat) :=
  mkOS _ 4 11 11 9
    (fun s _ _ => (s, inr 3)) (fun s _ => (s, None)) (fun s _ o => (s, inr o)) (fun _ _ => 0) (fun s _ => (s, None))
    (fun s _ n => (s, inr (ztake n s.1))) (fun s _ => demo_write s)
    (fun s _ _ => (s, None)) (fun s _ => (s, None)) (fun s _ _ => (s, true)) (fun s _ => (s, true))
    (fun s _ => Some (demo_stat s)) (fun s _ => Some (demo_stat s)) (fun _ _ _ => Some Regular) (fun _ _ _ => true) (fun _ => 0)
    (fun _ => None) (fun _ => Some (lit "/srv")) (fun _ _ => Some [lit "a"; lit "b"]).
#[local] Existing Instance demo_os.

Definition demo_patience (s : bytes * nat) : nat := (3 - s.2)%nat.

Lemma demo_write_cases s data s' r :
  demo_write s data = (s', r) ->
  (exists e, r = inl e /\ s'.1 = s.1 /\ (demo_patience s' < demo_patience s)%nat) \/
  (exists n, r = inr n /\ 0 <= n <= zlen data /\ s'.1 = s.1 ++ ztake n data /\ (data <> [] -> n <> 0)).
Proof.
  pose proof (zlen_nonneg data). destruct s as [c k]. unfold demo_write, demo_patience. destruct k as [|[|[|k]]]; cbn; intros [= <- <-]; cbn.
  - left. exists 4. split; [done|]. split; [done|lia].
  - right. exists (2 `min` zlen data). split; [done|]. split; [lia|]. split; [done|]. intros Hd. destruct data; [done|]. unfold zlen. cbn [length]. lia.
  - left. exists 11. split; [done|]. split; [done|lia].
  - right. exists (zlen data). split; [done|]. split; [lia|]. split; [by unfold zlen; rewrite Nat2Z.id, firstn_all|]. intros Hd. destruct data; [done|]. unfold zlen. cbn [length]. lia.
Qed.

Lemma demo_dependable : dependable demo_os.
Proof.
  constructor; cbn; try done.
  - intros s _ data s' r E Hr. destruct (demo_write_cases _ _ _ _ E) as [(e & -> & Hs & _)|(n & -> & Hn & Hs & H0)].
    + split; intros x; cbn; unfold demo_stat; by rewrite Hs.
    + destruct Hr as [[e ?]|[= ->]]; [done|]. cbn in Hs. rewrite app_nil_r in Hs. split; intros x; cbn; unfold demo_stat; by rewrite Hs.
  - intros s _ data s' n E. by destruct (demo_write_cases _ _ _ _ E) as [(e & ? & _)|(m & [= ->] & ? & _)].
Qed.

Lemma demo_patient : patient demo_patience 3.
Proof.
  constructor; cbn; try done.
  - intros s _ data s' Hd E. assert (H : exists r, demo_write s data = (s', r) /\ (r = inl 4 \/ r = inr 0)) by (destruct E; eauto).
    destruct H as (r & E' & Hr). destruct (demo_write_cases _ _ _ _ E') as [(e & -> & _ & ?)|(m & -> & _ & _ & Hm)]; [done|].
    destruct Hr as [|[= ->]]; [done|]. by destruct (Hm Hd).
  - intros s. unfold demo_patience. lia.
Qed.

Definition demo_ops : list Op := [Ask; Open Mode_Write; Ask; Open Mode_Append; Ask; Write (lit "hello"); Ask; AskName; Rename (lit "b"); Write (lit "lo"); Close].

Lemma answers_are_current_witness :
  (('(f, s) ← applies 100 demo_ops (new_File ([], 0%nat) (lit "a")) ([], 0%nat); Some ((ask 0 st_size s f).1, (getBaseName f).1)) = Some (4, lit "b")) /\
  exists f' s', applies 100 demo_ops (new_File ([], 0%nat) (lit "a")) ([], 0%nat) = Some (f', s') /\
    (ask 0 st_size s' f').1 = from_option st_size 0 (now s' f').
Proof.
  split; [vm_compute; reflexivity|].
  destruct (answers_are_current 100 (lit "a") demo_ops ([], 0%nat) demo_dependable) as [HC HR].
  destruct (HR demo_patience 3%nat demo_patient) as [[f' s'] E]; [repeat constructor; cbn; lia|].
  exists f', s'. split; [exact E|]. apply (HC f' s' E). vm_compute. reflexivity.
Defined.

Definition demo_buffer : Buffer.Buffer := (Buffer.append (fun _ => true) (lit "hello") (Buffer.new_Buffer 16)).2.
Definition demo_file : File := mkFile None (lit "/srv/a") [] (Some 3).

Lemma buffered_write_witness :
  (('(status, b, f, s) ← write_buffer 100 5 true demo_buffer ([], 0%nat) demo_file; Some (status, Buffer.live b, s.1)) = Some (2, lit "llo", lit "he")) /\
  exists status b' f' s' n, write_buffer 100 5 true demo_buffer ([], 0%nat) demo_file = Some (status, b', f', s') /\
    s'.1 = ztake n (Buffer.live demo_buffer) /\ Buffer.live b' = zdrop n (Buffer.live demo_buffer).
Proof.
  split; [vm_compute; reflexivity|].
  destruct (buffered_write fst demo_patience 3 100 5 demo_buffer 3 ([], 0%nat) demo_file demo_dependable demo_patient) as (st & b' & f' & s' & n & E & _ & _ & H1 & H2 & _).
  - intros s d data s' n E. by destruct (demo_write_cases _ _ _ _ E) as [(e & ? & _)|(m & [= ->] & _ & ? & _)].
  - intros s d data s' e E. by destruct (demo_write_cases _ _ _ _ E) as [(e' & _ & ? & _)|(m & ? & _)].
  - constructor; vm_compute; intuition congruence.
  - lia.
  - reflexivity.
  - cbn. lia.
  - exists st, b', f', s', n. split; [exact E|]. split; [exact H1|exact H2].
Defined.

(** ** Directories *)

(** A directory that is gone through gives a file for each of its entries, in order. *)
Lemma listing_names {S} {os : OS S} (s : S) (dir l : list bytes) (fuel : nat) :
  Forall proper dir -> Forall proper l -> Forall (fun f => ch_backslash ∉ f) (dir ++ l) -> os_entries s (path_of dir) = Some l ->
  (length l <= fuel)%nat ->
  filename <$> list_all fuel s (open_directory s (mkDirectory (path_of dir) [] false)).2 = (fun e => path_of (dir ++ [e])) <$> l.
Proof.
  intros Hd Hl Hb He Hf. apply Forall_app in Hb as [Hbd Hbl]. unfold open_directory. cbn [path]. rewrite He. cbn [snd]. clear He.
  revert fuel Hf. induction l as [|e l IH]; intros fuel Hf; [by destruct fuel|]. destruct fuel as [|fuel]; [cbn in Hf; lia|].
  apply Forall_cons in Hl as [He Hl]. apply Forall_cons in Hbl as [Hbe Hbl].
  cbn [list_all]. unfold next at 1. cbn [opened negb iter path]. rewrite !fmap_cons. unfold new_File. cbn [filename]. f_equal.
  - rewrite append_name by done. apply resolve_path; apply Forall_app; (split; [done|by apply Forall_singleton]).
  - apply IH; [done|done|cbn in Hf; lia].
Qed.

(** ** What goes wrong *)

(** What was read is lost when the buffer cannot grow, and is reported as read. *)
Lemma read_is_lost :
  ('(n, b, _, _) ← read_buffer (fun _ => false) 1 4 (Buffer.new_Buffer 0) (lit "text", 3%nat) demo_file; Some (n, Buffer.live b)) = Some (4, []).
Proof. vm_compute. reflexivity. Qed.

(** A file that is opened again without being closed forgets its first descriptor. *)
Lemma reopened_descriptor_lost : fd (let '(_, _, f, _) := open Mode_Read ([], 0%nat) (mkFile None (lit "/srv/a") [] (Some 7)) in f) = Some 3.
Proof. reflexivity. Qed.

(** One that cannot be opened again has lost its descriptor, and goes on telling what
    that was asked, though there is nothing under its name. *)
Definition removed_os : OS (bytes * nat) :=
  mkOS _ 4 11 11 9
    (fun s _ _ => (s, inl 2)) (fun s _ => (s, None)) (fun s _ o => (s, inr o)) (fun _ _ => 0) (fun s _ => (s, None))
    (fun s _ n => (s, inr (ztake n s.1))) (fun s _ => demo_write s)
    (fun s _ _ => (s, None)) (fun s _ => (s, None)) (fun s _ _ => (s, true)) (fun s _ => (s, true))
    (fun s _ => Some (demo_stat s)) (fun _ _ => None) (fun _ _ _ => None) (fun _ _ _ => true) (fun _ => 0)
    (fun _ => None) (fun _ => Some (lit "/srv")) (fun _ _ => None).
Lemma failed_reopen_is_stale :
  (('(f, s) ← applies (os := removed_os) 1 [Ask; Open Mode_Read] demo_file (lit "text", 3%nat);
    Some (fd f, (ask (os := removed_os) 0 st_size s f).1, now (os := removed_os) s f)) = Some (None, 4, None)).
Proof. vm_compute. reflexivity. Qed.
