(* ===== verification/Tls.v ===== *)
(** * Tls: [src/io/net/tlsfactory.cpp] and [tlsfactory-openssl.cpp]

    What the library does with OpenSSL: the process-wide configuration, the two contexts
    that are shared and rebuilt when it changes, a connection's session with what it is
    told to verify, and the files of a certificate that is generated. OpenSSL itself is
    an environment that is asked at every tick of a clock; what a context or a session was
    told is kept in it. Messages are left out, and the error queue with them. *)

From stdpp Require Import gmap.
From S2P Require Import Prelude Strings Inet.
From S2P Require Socket Path.

Abbreviation TlsStatus := Socket.TlsStatus.
Abbreviation Ok := Socket.TlsOk.
Abbreviation WantRead := Socket.WantRead.
Abbreviation WantWrite := Socket.WantWrite.
Abbreviation PeerClosed := Socket.TlsClosed.
Abbreviation Error := Socket.TlsError.

(** ** Configuration *)

(** The files are named as [File] names them. *)
(* @src src/src/io/net/tlsfactory.cpp:11-16 Samurai::IO::Net::TlsFactory *)
Record Config := mkConfig {
  pem_key : option bytes;
  pem_cert : option bytes;
  allow_untrusted : bool;
  trust_anchors : list bytes;
  require_client_cert : bool;
  config_generation : Z
}.

Definition initial_Config : Config := mkConfig None None false [] false 0.

(* @src src/src/io/net/tlsfactory.cpp:63-68 Samurai::IO::Net::TlsFactory::resetKeys *)
Definition resetKeys (c : Config) : Config :=
  mkConfig None None (allow_untrusted c) (trust_anchors c) (require_client_cert c) (u64 (config_generation c + 1)).
(** [resolve] is [File]'s constructor. *)
(* @src src/src/io/net/tlsfactory.cpp:75-82 Samurai::IO::Net::TlsFactory::setKeys *)
Definition setKeys (resolve : bytes -> bytes) (private_key public_key : bytes) (c : Config) : Config :=
  let c := resetKeys c in
  mkConfig (Some (resolve private_key)) (Some (resolve public_key)) (allow_untrusted c) (trust_anchors c) (require_client_cert c) (u64 (config_generation c + 1)).
(* @src src/src/io/net/tlsfactory.cpp:95-100 Samurai::IO::Net::TlsFactory::addTrustAnchor *)
Definition addTrustAnchor (pem_file : bytes) (c : Config) : Config :=
  if bool_decide (pem_file = []) then c
  else mkConfig (pem_key c) (pem_cert c) (allow_untrusted c) (trust_anchors c ++ [pem_file]) (require_client_cert c) (u64 (config_generation c + 1)).
(* @src src/src/io/net/tlsfactory.cpp:103-107 Samurai::IO::Net::TlsFactory::clearTrustAnchors *)
Definition clearTrustAnchors (c : Config) : Config :=
  mkConfig (pem_key c) (pem_cert c) (allow_untrusted c) [] (require_client_cert c) (u64 (config_generation c + 1)).
(* @src src/src/io/net/tlsfactory.cpp:41-44 Samurai::IO::Net::TlsFactory::setDefaultAllowUntrusted *)
Definition setDefaultAllowUntrusted (b : bool) (c : Config) : Config :=
  mkConfig (pem_key c) (pem_cert c) b (trust_anchors c) (require_client_cert c) (config_generation c).
(* @src src/src/io/net/tlsfactory.cpp:51-54 Samurai::IO::Net::TlsFactory::setDefaultRequireClientCertificate *)
Definition setDefaultRequireClientCertificate (b : bool) (c : Config) : Config :=
  mkConfig (pem_key c) (pem_cert c) (allow_untrusted c) (trust_anchors c) b (config_generation c).

(** ** Contexts and sessions *)

Inductive Version := TLS1_2_VERSION | TLS1_3_VERSION.

(** What a context was told. *)
Record Context := mkContext {
  c_client : bool;
  c_min : Version;
  c_max : Version;
  c_ciphers : bytes;
  c_no_renegotiation : bool;
  c_no_compression : bool;
  c_server_preference : bool;
  c_verify_depth : Z;
  c_anchors : list bytes;
  c_cert : option bytes;
  c_key : option bytes
}.

(** What a session was told: whether the peer is verified and must have a certificate, the
    name or the address it must be of, the name it is told, and whether it has its
    transport. *)
Record Session := mkSession {
  s_ctx : Context;
  s_verify : bool;
  s_fail_if_no_peer_cert : bool;
  s_host : option bytes;
  s_no_partial_wildcards : bool;
  s_ip : option bytes;
  s_sni : option bytes;
  s_bio : bool
}.

Inductive SslError := SSL_ERROR_NONE | SSL_ERROR_WANT_READ | SSL_ERROR_WANT_WRITE | SSL_ERROR_WANT_CONNECT | SSL_ERROR_WANT_ACCEPT | SSL_ERROR_ZERO_RETURN | SSL_ERROR_OTHER.

Record Env := mkEnv {
  e_ctx_new : nat -> bool;
  e_ciphers : nat -> bool;
  e_default_paths : nat -> bool;
  e_anchor : nat -> bytes -> bool;
  e_exists : nat -> bytes -> bool;
  e_use_cert : nat -> bytes -> bool;
  e_use_key : nat -> bytes -> bool;
  e_ssl_new : nat -> bool;
  e_is_address : bytes -> bool;
  e_set_host : nat -> bool;
  e_bio_new : nat -> bool;
  e_handshake : nat -> Session -> Z;
  e_shutdown : nat -> Z;
  e_io : nat -> Z -> Z;
  e_error : nat -> Z -> SslError;
  e_pending : nat -> Z;
  e_verify_result : nat -> Session -> Z;
  e_peer_certificate : nat -> Session -> option bytes
}.

Definition X509_V_OK : Z := 0.

(* @src src/src/io/net/tlsfactory-openssl.cpp:451-453 SSL_CIPHER_POLICY *)
Definition SSL_CIPHER_POLICY : bytes := lit "ECDHE:DHE:HIGH:!aNULL:!eNULL:!EXPORT:!DES:!3DES:!RC4:!MD5:!PSK:!SRP:!SEED:!IDEA".
(* @src src/src/io/net/tlsfactory-openssl.cpp:457-457 SSL_VERIFY_DEPTH *)
Definition SSL_VERIFY_DEPTH : Z := 9.

Section tls.
Variable env : Env.

(** What there is of a file that was named. *)
Definition present (t : nat) (f : option bytes) : option bytes := match f with Some n => if e_exists env t n then Some n else None | None => None end.

(* @src src/src/io/net/tlsfactory-openssl.cpp:459-576 ssl_build_context *)
Definition ssl_build_context (client : bool) (c : Config) (t : nat) : option Context :=
  if negb (e_ctx_new env t) then None
  else if negb (e_ciphers env t) then None
  else if negb (e_default_paths env t) then None
  else if negb (forallb (e_anchor env t) (trust_anchors c)) then None
  else
    let cert := present t (pem_cert c) in
    let key := present t (pem_key c) in
    if negb (from_option (e_use_cert env t) true cert) then None
    else if negb (from_option (e_use_key env t) true key) then None
    else Some (mkContext client TLS1_2_VERSION TLS1_3_VERSION SSL_CIPHER_POLICY true true (negb client) SSL_VERIFY_DEPTH (trust_anchors c) cert key).

(* @src src/src/io/net/tlsfactory-openssl.cpp:421-429 SharedContexts *)
Record SharedContexts := mkSharedContexts { client_ctx : option Context; server_ctx : option Context; generation : Z; primed : bool }.

Definition initial_SharedContexts : SharedContexts := mkSharedContexts None None 0 false.

(* @src src/src/io/net/tlsfactory-openssl.cpp:431-437 ssl_release_shared *)
Definition ssl_release_shared (s : SharedContexts) : SharedContexts := mkSharedContexts None None (generation s) (primed s).

(** [now] is the generation of [c]. *)
(* @src src/src/io/net/tlsfactory-openssl.cpp:583-595 ssl_shared_context *)
Definition ssl_shared_context (client : bool) (c : Config) (t : nat) (s : SharedContexts) : option Context * SharedContexts :=
  let now := config_generation c in
  let s := if negb (primed s) || negb (generation s =? now)
           then mkSharedContexts (client_ctx (ssl_release_shared s)) (server_ctx (ssl_release_shared s)) now true else s in
  match if client then client_ctx s else server_ctx s with
  | Some ctx => (Some ctx, s)
  | None =>
      let built := ssl_build_context client c t in
      (built, if client then mkSharedContexts built (server_ctx s) (generation s) (primed s)
              else mkSharedContexts (client_ctx s) built (generation s) (primed s))
  end.

(** ** A connection *)

(* @src src/include/samurai/io/net/tlsfactory-openssl.h:40-48 Samurai::IO::Net::OpenSSL *)
Record OpenSSL := mkOpenSSL {
  client : bool;
  peer_name : bytes;
  allow_untrusted_conn : bool;
  require_client_cert_conn : bool;
  ssl : option Session;
  verify_peer : bool
}.

(* @src src/src/io/net/tlsfactory.cpp:18-24 Samurai::IO::Net::TlsFactory::TlsFactory *)
Definition new_OpenSSL (c : Config) : OpenSSL := mkOpenSSL true [] (allow_untrusted c) (require_client_cert c) None false.

Definition with_ssl (s : option Session) (o : OpenSSL) : OpenSSL :=
  mkOpenSSL (client o) (peer_name o) (allow_untrusted_conn o) (require_client_cert_conn o) s (verify_peer o).
(* @src src/include/samurai/io/net/tlsfactory.h:52-52 Samurai::IO::Net::TlsFactory::setPeerName *)
Definition setPeerName (n : bytes) (o : OpenSSL) : OpenSSL :=
  mkOpenSSL (client o) n (allow_untrusted_conn o) (require_client_cert_conn o) (ssl o) (verify_peer o).
(* @src src/include/samurai/io/net/tlsfactory.h:200-200 Samurai::IO::Net::TlsFactory::setAllowUntrusted *)
Definition setAllowUntrusted (b : bool) (o : OpenSSL) : OpenSSL :=
  mkOpenSSL (client o) (peer_name o) b (require_client_cert_conn o) (ssl o) (verify_peer o).
(* @src src/include/samurai/io/net/tlsfactory.h:211-211 Samurai::IO::Net::TlsFactory::setRequireClientCertificate *)
Definition setRequireClientCertificate (b : bool) (o : OpenSSL) : OpenSSL :=
  mkOpenSSL (client o) (peer_name o) (allow_untrusted_conn o) b (ssl o) (verify_peer o).

(** The session a context gives, and what [initialize] tells it. *)
Definition SSL_new (ctx : Context) : Session := mkSession ctx false false None false None None false.
Definition set_verify (v f : bool) (s : Session) : Session :=
  mkSession (s_ctx s) v f (s_host s) (s_no_partial_wildcards s) (s_ip s) (s_sni s) (s_bio s).
Definition set_ip (n : bytes) (s : Session) : Session :=
  mkSession (s_ctx s) (s_verify s) (s_fail_if_no_peer_cert s) (s_host s) (s_no_partial_wildcards s) (Some n) (s_sni s) (s_bio s).
Definition set_hostflags (s : Session) : Session :=
  mkSession (s_ctx s) (s_verify s) (s_fail_if_no_peer_cert s) (s_host s) true (s_ip s) (s_sni s) (s_bio s).
Definition set_host (n : bytes) (s : Session) : Session :=
  mkSession (s_ctx s) (s_verify s) (s_fail_if_no_peer_cert s) (Some n) (s_no_partial_wildcards s) (s_ip s) (s_sni s) (s_bio s).
Definition set_sni (n : bytes) (s : Session) : Session :=
  mkSession (s_ctx s) (s_verify s) (s_fail_if_no_peer_cert s) (s_host s) (s_no_partial_wildcards s) (s_ip s) (Some n) (s_bio s).
Definition set_bio (s : Session) : Session :=
  mkSession (s_ctx s) (s_verify s) (s_fail_if_no_peer_cert s) (s_host s) (s_no_partial_wildcards s) (s_ip s) (s_sni s) true.

(** The name a session expects: whether it could be told, and the session. *)
(* @src src/src/io/net/tlsfactory-openssl.cpp:789-817 Samurai::IO::Net::OpenSSL::initialize *)
Definition expect_name (t : nat) (o : OpenSSL) (s : Session) : bool * Session :=
  if client o && negb (bool_decide (peer_name o = [])) then
    if e_is_address env (peer_name o) then (true, set_ip (peer_name o) s)
    else
      let s := set_hostflags s in
      if negb (e_set_host env t) then (false, s) else (true, set_sni (peer_name o) (set_host (peer_name o) s))
  else if client o && verify_peer o then (false, s)
  else (true, s).

(** A session there is already is forgotten. *)
(* @src src/src/io/net/tlsfactory-openssl.cpp:734-848 Samurai::IO::Net::OpenSSL::initialize *)
Definition initialize (is_client : bool) (c : Config) (t : nat) (sh : SharedContexts) (o : OpenSSL) : TlsStatus * SharedContexts * OpenSSL :=
  let o := mkOpenSSL is_client (peer_name o) (allow_untrusted_conn o) (require_client_cert_conn o) (ssl o) (verify_peer o) in
  let '(ctx, sh) := ssl_shared_context is_client c t sh in
  match ctx with
  | None => (Error, sh, o)
  | Some ctx =>
      if negb (e_ssl_new env t) then (Error, sh, with_ssl None o)
      else
        let v := negb (allow_untrusted_conn o) && (is_client || require_client_cert_conn o) in
        let o := mkOpenSSL is_client (peer_name o) (allow_untrusted_conn o) (require_client_cert_conn o) None v in
        let s := if v then set_verify true (negb is_client) (SSL_new ctx) else set_verify false false (SSL_new ctx) in
        let '(told, s) := expect_name t o s in
        if negb told then (Error, sh, with_ssl (Some s) o)
        else if negb (e_bio_new env t) then (Error, sh, with_ssl (Some s) o)
        else (Ok, sh, with_ssl (Some (set_bio s)) o)
  end.

(* @src src/src/io/net/tlsfactory-openssl.cpp:850-857 Samurai::IO::Net::OpenSSL::deinitialize *)
Definition deinitialize (o : OpenSSL) : OpenSSL := with_ssl None o.

(* @src src/src/io/net/tlsfactory-openssl.cpp:860-936 Samurai::IO::Net::OpenSSL::sendHandshake *)
Definition sendHandshake (t : nat) (o : OpenSSL) : TlsStatus :=
  match ssl o with
  | None => Error
  | Some s =>
      let ret := e_handshake env t s in
      if negb (ret =? 1) then
        match e_error env t ret with
        | SSL_ERROR_WANT_READ => WantRead
        | SSL_ERROR_WANT_WRITE | SSL_ERROR_WANT_CONNECT | SSL_ERROR_WANT_ACCEPT => WantWrite
        | SSL_ERROR_ZERO_RETURN => PeerClosed
        | _ => Error
        end
      else if negb (e_verify_result env t s =? X509_V_OK) && verify_peer o then Error
      else if bool_decide (e_peer_certificate env t s = None) && verify_peer o then Error
      else Ok
  end.

(* @src src/src/io/net/tlsfactory-openssl.cpp:954-983 Samurai::IO::Net::OpenSSL::sendGoodbye *)
Definition sendGoodbye (t : nat) (o : OpenSSL) : TlsStatus :=
  match ssl o with
  | None => Ok
  | Some s =>
      let ret := e_shutdown env t in
      if 0 <=? ret then Ok
      else match e_error env t ret with
           | SSL_ERROR_NONE => Ok
           | SSL_ERROR_WANT_READ => WantRead
           | SSL_ERROR_WANT_WRITE | SSL_ERROR_WANT_CONNECT | SSL_ERROR_WANT_ACCEPT => WantWrite
           | SSL_ERROR_ZERO_RETURN => PeerClosed
           | _ => Error
           end
  end.

Definition INT_MAX : Z := 2 ^ 31 - 1.

(* @src src/src/io/net/tlsfactory-openssl.cpp:990-994 ssl_clamp_length *)
Definition ssl_clamp_length (length : Z) : Z := if INT_MAX <? length then INT_MAX else length.

(** [SSL_read], [SSL_peek] and [SSL_write] are told a length and give a count. *)
(* @src src/src/io/net/tlsfactory-openssl.cpp:996-1041 Samurai::IO::Net::OpenSSL::read *)
Definition transfer (t : nat) (length : Z) (o : OpenSSL) : Z * TlsStatus :=
  match ssl o with
  | None => (-1, Error)
  | Some s =>
      let ret := e_io env t (ssl_clamp_length length) in
      if 0 <? ret then (ret, Ok)
      else match e_error env t ret with
           | SSL_ERROR_NONE => (0, Ok)
           | SSL_ERROR_WANT_READ => (0, WantRead)
           | SSL_ERROR_WANT_WRITE => (0, WantWrite)
           | SSL_ERROR_ZERO_RETURN => (0, PeerClosed)
           | _ => (-1, Error)
           end
  end.

(* @src src/src/io/net/tlsfactory-openssl.cpp:1043-1088 Samurai::IO::Net::OpenSSL::peek *)
Definition peek (t : nat) (length : Z) (o : OpenSSL) : Z * TlsStatus := transfer t length o.
(* @src src/src/io/net/tlsfactory-openssl.cpp:1098-1143 Samurai::IO::Net::OpenSSL::write *)
Definition write (t : nat) (length : Z) (o : OpenSSL) : Z * TlsStatus := transfer t length o.
(* @src src/src/io/net/tlsfactory-openssl.cpp:1090-1096 Samurai::IO::Net::OpenSSL::pending *)
Definition pending (t : nat) (o : OpenSSL) : Z :=
  match ssl o with None => 0 | Some _ => let ret := e_pending env t in if 0 <? ret then ret else 0 end.

Definition SHA256_LENGTH : Z := 32.

(** [digest] is [X509_digest] with SHA-256. *)
(* @src src/src/io/net/tlsfactory-openssl.cpp:73-96 sha256_of *)
Definition sha256_of (digest : bytes -> option bytes) (cert : bytes) : option bytes :=
  match digest cert with None => None | Some d => if negb (zlen d =? SHA256_LENGTH) then None else Some d end.
(* @src src/src/io/net/tlsfactory-openssl.cpp:938-952 Samurai::IO::Net::OpenSSL::getPeerCertificateSHA256 *)
Definition getPeerCertificateSHA256 (digest : bytes -> option bytes) (t : nat) (o : OpenSSL) : option bytes :=
  match ssl o with
  | None => None
  | Some s => match e_peer_certificate env t s with None => None | Some cert => sha256_of digest cert end
  end.
(** [read_pem] is reading a certificate from a file. *)
(* @src src/src/io/net/tlsfactory-openssl.cpp:98-126 Samurai::IO::Net::TlsFactory::getOwnCertificateSHA256 *)
Definition getOwnCertificateSHA256 (digest : bytes -> option bytes) (read_pem : bytes -> option bytes) (t : nat) (c : Config) : option bytes :=
  match present t (pem_cert c) with
  | None => None
  | Some f => match read_pem f with None => None | Some cert => sha256_of digest cert end
  end.

(** The transport: what a [recv] or [send] of the descriptor gives, and whether OpenSSL is
    told to try again. *)
(* @src src/src/io/net/tlsfactory-openssl.cpp:626-649 bio_read *)
Definition bio_transfer (retry : Z -> bool) (has_data : bool) (length : Z) (result : Z + Z) : Z * bool :=
  if negb has_data || (length <=? 0) then (0, false)
  else match result with inl e => (-1, retry e) | inr n => (n, false) end.
End tls.

(** *** The transport's method *)

Inductive BioCommand := BIO_C_GET_FD | BIO_CTRL_GET_CLOSE | BIO_CTRL_FLUSH | BIO_CTRL_OTHER.

(** What a control answers, and what it stores where it was asked to. *)
(* @src src/src/io/net/tlsfactory-openssl.cpp:651-676 bio_ctrl *)
Definition bio_ctrl (init : bool) (sd : Z) (cmd : BioCommand) (pointer : bool) : Z * option Z :=
  match cmd with
  | BIO_C_GET_FD => if negb init then (-1, None) else (sd, if pointer then Some sd else None)
  | BIO_CTRL_GET_CLOSE => (0, None)
  | BIO_CTRL_FLUSH => (1, None)
  | BIO_CTRL_OTHER => (0, None)
  end.

(** Whether there is a method, and how many were made and freed so far. *)
Record BioMethods := mkBioMethods { bio_method : bool; made : nat; freed : nat }.

(** [new_ok] and [set_ok] are whether OpenSSL makes a method and takes its functions. *)
(* @src src/src/io/net/tlsfactory-openssl.cpp:678-697 ssl_bio_method *)
Definition ssl_bio_method (new_ok set_ok : bool) (m : BioMethods) : bool * BioMethods :=
  if bio_method m then (true, m)
  else if negb new_ok then (false, m)
  else if negb set_ok then (false, mkBioMethods false (S (made m)) (S (freed m)))
  else (true, mkBioMethods true (S (made m)) (freed m)).

(* @src src/src/io/net/tlsfactory-openssl.cpp:699-703 ssl_release_bio_method *)
Definition ssl_release_bio_method (m : BioMethods) : BioMethods :=
  if bio_method m then mkBioMethods false (made m) (S (freed m)) else m.

(** The end of the factory: the contexts and the method go. *)
(* @src src/src/io/net/tlsfactory-openssl.cpp:714-720 Samurai::IO::Net::TlsFactory::global_deinit *)
Definition global_deinit (s : SharedContexts) (m : BioMethods) : SharedContexts * BioMethods :=
  (ssl_release_shared s, ssl_release_bio_method m).

Inductive BioUse := UseMethod (new_ok set_ok : bool) | ReleaseMethod.
Definition bio_use (u : BioUse) (m : BioMethods) : BioMethods :=
  match u with UseMethod n s => snd (ssl_bio_method n s m) | ReleaseMethod => ssl_release_bio_method m end.

(** However often the method is asked for and released and whatever OpenSSL refuses, every
    method made was freed but the one that is held; asking says whether there is one, a
    second time the same one; and after a release there is none. *)
Lemma bio_methods_freed us :
  let m := foldl (fun m u => bio_use u m) (mkBioMethods false 0 0) us in
  made m = (freed m + if bio_method m then 1 else 0)%nat /\
  (forall n s, let '(ok, m') := ssl_bio_method n s m in
     ok = bio_method m' /\ forall n' s', ok = true -> ssl_bio_method n' s' m' = (true, m')) /\
  bio_method (ssl_release_bio_method m) = false.
Proof.
  assert (H : forall m, made m = (freed m + if bio_method m then 1 else 0)%nat ->
    let m' := foldl (fun m u => bio_use u m) m us in made m' = (freed m' + if bio_method m' then 1 else 0)%nat).
  { induction us as [|[n s|] us IH]; intros [b k f] E; [exact E| |]; cbn in *; apply IH; destruct b; try destruct n; try destruct s; cbn in *; lia. }
  specialize (H (mkBioMethods false 0 0) eq_refl). cbv zeta in *. set (m := foldl _ _ _) in *. clearbody m.
  split; [exact H|]. destruct m as [[] k f]; cbn; [done|]. split; [|done]. by intros [] [].
Qed.

(** The transport never lets OpenSSL close the descriptor, and a flush has nothing to do. *)
Lemma bio_ctrl_answers init sd pointer :
  bio_ctrl init sd BIO_CTRL_GET_CLOSE pointer = (0, None) /\ bio_ctrl init sd BIO_CTRL_FLUSH pointer = (1, None) /\
  bio_ctrl true sd BIO_C_GET_FD true = (sd, Some sd) /\ bio_ctrl false sd BIO_C_GET_FD pointer = (-1, None).
Proof. done. Qed.

(** ** A certificate of one's own *)

(** [a2i_IPADDRESS] tells addresses from names. *)
Inductive GeneralName := GEN_IPADD (a : bytes) | GEN_DNS (n : bytes).

Record Certificate := mkCertificate {
  x_version : Z;
  x_serial : bytes;
  x_not_before : Z;
  x_not_after : Z;
  x_subject : bytes;
  x_issuer : bytes;
  x_alt_name : GeneralName;
  x_extensions : list (bytes * bytes)
}.

(** A file that was created but not written, and the two that are written. *)
Inductive Content := Unwritten | KeyOf (c : Certificate) | CertificateOf (c : Certificate) | Foreign (d : bytes).

(** Files with their modes. *)
Abbreviation Files := (gmap bytes (Z * Content)).

(** Whether each call of OpenSSL that prepares the key and the certificate succeeds, the
    random bytes, and how it goes with the files. *)
Record CertEnv := mkCertEnv {
  g_step : nat -> bool;
  g_random : bytes;
  g_address : bytes -> bool;
  g_open : bytes -> bool;
  g_chmod : bytes -> bool;
  g_bio : bytes -> bool;
  g_write : bytes -> bool
}.

(* @src src/src/io/net/tlsfactory-openssl.cpp:157-165 ssl_name_is_usable *)
Definition ssl_name_is_usable (name : bytes) : bool :=
  if bool_decide (name = []) || (64 <? zlen name) then false
  else forallb (fun c => negb ((code c <=? 0x20) || (0x7f <=? code c))) name.

(** The sign bit of the serial is cleared. *)
(* @src src/src/io/net/tlsfactory-openssl.cpp:225-237 ssl_set_random_serial *)
Definition random_serial (random : bytes) : bytes :=
  match random with c :: l => chr (Z.land (code c) 0x7f) :: l | [] => [] end.

(* @src src/src/io/net/tlsfactory-openssl.cpp:175-212 ssl_add_subject_alt_name *)
Definition subject_alt_name (g : CertEnv) (name : bytes) : GeneralName := if g_address g name then GEN_IPADD name else GEN_DNS name.

(* @src src/include/samurai/io/net/tlsfactory.h:120-120 Samurai::IO::Net::TlsFactory::SELF_SIGNED_VALID_DAYS *)
Definition SELF_SIGNED_VALID_DAYS : Z := 3650.

(** The key and the certificate, in memory. *)
(* @src src/src/io/net/tlsfactory-openssl.cpp:301-366 Samurai::IO::Net::TlsFactory::generateSelfSignedCertificate *)
Definition make_certificate (g : CertEnv) (now : Z) (common_name : bytes) : option Certificate :=
  if negb (forallb (g_step g) (seq 0 14)) then None
  else Some (mkCertificate 3 (random_serial (g_random g)) (now - 60 * 60) (now + 60 * 60 * 24 * SELF_SIGNED_VALID_DAYS) common_name common_name
               (subject_alt_name g common_name)
               [(lit "basicConstraints", lit "critical,CA:FALSE"); (lit "keyUsage", lit "critical,digitalSignature,keyEncipherment");
                (lit "extendedKeyUsage", lit "serverAuth,clientAuth")]).

Definition mode_0600 : Z := 6 * 8 ^ 2.
Definition mode_0644 : Z := 6 * 8 ^ 2 + 4 * 8 + 4.

(* @src src/src/io/net/tlsfactory-openssl.cpp:246-270 ssl_create_pem_file *)
Definition ssl_create_pem_file (g : CertEnv) (path : bytes) (perms : Z) (fs : Files) : bool * Files :=
  if bool_decide (is_Some (fs !! path)) || negb (g_open g path) then (false, fs)
  else
    let fs := <[path := (perms, Unwritten)]> fs in
    if g_chmod g path && g_bio g path then (true, fs) else (false, delete path fs).

(* @src src/src/io/net/tlsfactory-openssl.cpp:272-398 Samurai::IO::Net::TlsFactory::generateSelfSignedCertificate *)
Definition generateSelfSignedCertificate (g : CertEnv) (resolve : bytes -> bytes) (now : Z) (private_key_path certificate_path common_name : bytes) (fs : Files) : bool * Files :=
  if bool_decide (private_key_path = []) || bool_decide (certificate_path = []) then (false, fs)
  else if negb (ssl_name_is_usable common_name) then (false, fs)
  else
    let key_path := resolve private_key_path in
    let cert_path := resolve certificate_path in
    match make_certificate g now common_name with
    | None => (false, fs)
    | Some cert =>
        let '(created, fs) := ssl_create_pem_file g key_path mode_0600 fs in
        if negb created then (false, fs)
        else
          let fs := <[key_path := (mode_0600, if g_write g key_path then KeyOf cert else Unwritten)]> fs in
          if negb (g_write g key_path) then (false, delete key_path fs)
          else
            let '(created, fs) := ssl_create_pem_file g cert_path mode_0644 fs in
            if negb created then (false, delete key_path fs)
            else
              let fs := <[cert_path := (mode_0644, if g_write g cert_path then CertificateOf cert else Unwritten)]> fs in
              if negb (g_write g cert_path) then (false, delete key_path (delete cert_path fs))
              else (true, fs)
    end.

Lemma create_pem_file_spec g path perms fs :
  let '(created, fs') := ssl_create_pem_file g path perms fs in
  if created then fs !! path = None /\ fs' = <[path := (perms, Unwritten)]> fs else fs' = fs.
Proof.
  unfold ssl_create_pem_file. case_bool_decide as Hp; cbn [orb]; [done|].
  assert (Hn : fs !! path = None) by (destruct (fs !! path); [destruct Hp; eauto|done]).
  destruct (negb (g_open g path)); [done|]. destruct (_ && _); [done|]. by rewrite delete_insert_id.
Qed.

(** Generating a certificate is all or nothing: either both files are there, that were not
    before, with the modes and the contents that are promised, and no other file changed;
    or every file is as it was. *)
Theorem certificate_all_or_nothing (g : CertEnv) (resolve : bytes -> bytes) (now : Z) (key_path cert_path name : bytes) (fs : Files) :
  let '(done_, fs') := generateSelfSignedCertificate g resolve now key_path cert_path name fs in
  if done_ then
    ssl_name_is_usable name = true /\ resolve key_path <> resolve cert_path /\ fs !! resolve key_path = None /\ fs !! resolve cert_path = None /\
    exists c, make_certificate g now name = Some c /\
      fs' = <[resolve cert_path := (mode_0644, CertificateOf c)]> (<[resolve key_path := (mode_0600, KeyOf c)]> fs)
  else fs' = fs.
Proof.
  unfold generateSelfSignedCertificate. destruct (_ || _); [done|]. destruct (ssl_name_is_usable name); cbn [negb]; [|done].
  cbv zeta. set (kp := resolve key_path). set (cp := resolve cert_path). destruct (make_certificate g now name) as [c|]; [|done].
  pose proof (create_pem_file_spec g kp mode_0600 fs) as Hk. destruct (ssl_create_pem_file g kp mode_0600 fs) as [[|] fs1]; cbn [negb]; [|done].
  destruct Hk as [Hk ->]. rewrite insert_insert_eq. destruct (g_write g kp); cbn [negb]; [|by rewrite delete_insert_id].
  set (fs2 := <[kp := (mode_0600, KeyOf c)]> fs).
  pose proof (create_pem_file_spec g cp mode_0644 fs2) as Hc. destruct (ssl_create_pem_file g cp mode_0644 fs2) as [[|] fs3]; cbn [negb].
  - destruct Hc as [Hc ->]. rewrite insert_insert_eq. apply lookup_insert_None in Hc as [Hcp Hne].
    destruct (g_write g cp); cbn [negb].
    + split; [done|]. split; [done|]. split; [done|]. split; [done|]. by exists c.
    + unfold fs2. rewrite delete_insert_id by (by rewrite lookup_insert_ne). by rewrite delete_insert_id.
  - rewrite Hc. unfold fs2. by rewrite delete_insert_id.
Qed.

(** ** A connection among others *)

Section world.
Variable env : Env.
Variable resolve : bytes -> bytes.

(** What a session was made for: as a client, the name of the peer, whether it may be
    untrusted, whether a client must have a certificate, and the configuration. *)
Record Settings := mkSettings { t_client : bool; t_name : bytes; t_untrusted : bool; t_require : bool; t_config : Config }.

(** [made_for] is what the session that [conn] has was made for. *)
Record world := mkWorld { config : Config; shared : SharedContexts; conn : OpenSSL; made_for : option Settings; clock : nat }.

Inductive Step :=
  | SetKeys (private_key public_key : bytes) | ResetKeys | AddTrustAnchor (f : bytes) | ClearTrustAnchors
  | DefaultAllowUntrusted (b : bool) | DefaultRequire (b : bool) | GlobalDeinit | OtherConnection (client : bool)
  | PeerName (n : bytes) | AllowUntrusted (b : bool) | Require (b : bool) | Initialize (client : bool) | Deinitialize.

Definition with_config (f : Config -> Config) (w : world) : world := mkWorld (f (config w)) (shared w) (conn w) (made_for w) (S (clock w)).
Definition with_conn (f : OpenSSL -> OpenSSL) (w : world) : world := mkWorld (config w) (shared w) (f (conn w)) (made_for w) (S (clock w)).

Definition step (s : Step) (w : world) : world :=
  match s with
  | SetKeys k c => with_config (setKeys resolve k c) w
  | ResetKeys => with_config resetKeys w
  | AddTrustAnchor f => with_config (addTrustAnchor f) w
  | ClearTrustAnchors => with_config clearTrustAnchors w
  | DefaultAllowUntrusted b => with_config (setDefaultAllowUntrusted b) w
  | DefaultRequire b => with_config (setDefaultRequireClientCertificate b) w
  | GlobalDeinit => with_config resetKeys (mkWorld (config w) (ssl_release_shared (shared w)) (conn w) (made_for w) (clock w))
  | OtherConnection c => mkWorld (config w) (ssl_shared_context env c (config w) (clock w) (shared w)).2 (conn w) (made_for w) (S (clock w))
  | PeerName n => with_conn (setPeerName n) w
  | AllowUntrusted b => with_conn (setAllowUntrusted b) w
  | Require b => with_conn (setRequireClientCertificate b) w
  | Initialize c =>
      let '(_, sh, o) := initialize env c (config w) (clock w) (shared w) (conn w) in
      let settings := mkSettings c (peer_name (conn w)) (allow_untrusted_conn (conn w)) (require_client_cert_conn (conn w)) (config w) in
      mkWorld (config w) sh o (match (ssl_shared_context env c (config w) (clock w) (shared w)).1 with Some _ => Some settings | None => made_for w end) (S (clock w))
  | Deinitialize => with_conn deinitialize w
  end.

Definition start (c : Config) : world := mkWorld c initial_SharedContexts (new_OpenSSL c) None 0.

Definition run (l : list Step) (w : world) : world := fold_left (fun w s => step s w) l w.

(** What the contexts of a configuration are told. *)
Definition fits (client : bool) (c : Config) (x : Context) : Prop :=
  c_client x = client /\ c_min x = TLS1_2_VERSION /\ c_max x = TLS1_3_VERSION /\ c_ciphers x = SSL_CIPHER_POLICY /\ c_no_renegotiation x = true /\
  c_verify_depth x = SSL_VERIFY_DEPTH /\ c_anchors x = trust_anchors c /\ (c_cert x = None \/ c_cert x = pem_cert c) /\ (c_key x = None \/ c_key x = pem_key c).

Definition slot (client : bool) (s : SharedContexts) : option Context := if client then client_ctx s else server_ctx s.

(** The generation counts the changes; what is cached fits as long as there was none. *)
Record cached (n : Z) (c : Config) (s : SharedContexts) : Prop := mkcached {
  ca_count : 0 <= config_generation c <= 2 * n;
  ca_generation : generation s <= config_generation c;
  ca_fits : forall client x, slot client s = Some x -> primed s = true /\ (generation s = config_generation c -> fits client c x)
}.

(** What a session was told. *)
Record told (o : OpenSSL) (m : Settings) (s : Session) : Prop := mktold {
  to_ctx : fits (t_client m) (t_config m) (s_ctx s);
  to_verify : verify_peer o = negb (t_untrusted m) && (t_client m || t_require m) /\ s_verify s = verify_peer o;
  to_server : s_verify s = true -> t_client m = false -> s_fail_if_no_peer_cert s = true;
  to_name : s_bio s = true -> t_client m = true ->
    if bool_decide (t_name m = []) then s_verify s = false
    else if e_is_address env (t_name m) then s_ip s = Some (t_name m)
    else s_host s = Some (t_name m) /\ s_no_partial_wildcards s = true /\ s_sni s = Some (t_name m)
}.

Record sound (n : Z) (w : world) : Prop := mksound {
  so_cached : cached n (config w) (shared w);
  so_told : forall s, ssl (conn w) = Some s -> exists m, made_for w = Some m /\ told (conn w) m s
}.

Lemma build_fits client c t x : ssl_build_context env client c t = Some x -> fits client c x.
Proof.
  unfold ssl_build_context. do 6 (destruct (negb _); [done|]). intros [= <-]. unfold fits, present. cbn. split_and!; try done.
  - destruct (pem_cert c) as [f|]; [|by left]. destruct (e_exists env t f); [by right|by left].
  - destruct (pem_key c) as [f|]; [|by left]. destruct (e_exists env t f); [by right|by left].
Qed.

Lemma shared_spec client n c t s :
  cached n c s -> let '(x, s') := ssl_shared_context env client c t s in cached n c s' /\ (forall y, x = Some y -> fits client c y).
Proof.
  intros C. unfold ssl_shared_context. set (s1 := if _ || _ then _ else s).
  assert (C1 : cached n c s1 /\ generation s1 = config_generation c /\ primed s1 = true).
  { subst s1. destruct (primed s) eqn:Ep; cbn [negb orb].
    - destruct (Z.eqb_spec (generation s) (config_generation c)) as [E|E]; cbn [negb]; [done|]. split; [|done].
      constructor; [apply C|cbn; lia|]. intros cl x Hx. by destruct cl.
    - split; [|done]. constructor; [apply C|cbn; lia|]. intros cl x Hx. by destruct cl. }
  clearbody s1. destruct C1 as (C1 & Eg & Ep). destruct (if client then client_ctx s1 else server_ctx s1) as [x|] eqn:Es.
  - split; [done|]. intros y [= ->]. by apply (ca_fits _ _ _ C1 client).
  - split; [|intros y Hy; by eapply build_fits].
    destruct client; (constructor; [apply C1|cbn; lia|]); intros cl x Hx; destruct cl; cbn in *; (split; [done|]); intros _;
      try (by eapply build_fits); by eapply (ca_fits _ _ _ C1).
Qed.

Lemma u64_next z n : 0 <= z <= 2 * n -> 2 * n + 2 < 2 ^ 64 -> u64 (z + 1) = z + 1.
Proof. intros. apply Z.mod_small. lia. Qed.

(** A change that counts. *)
Lemma changed_cached n c c' s :
  cached n c s -> config_generation c < config_generation c' <= 2 * n + 2 -> cached (n + 1) c' s.
Proof. intros [C G F] H. constructor; [lia|lia|]. intros cl x Hx. split; [by eapply F|]. lia. Qed.

(** A change that no context is told. *)
Lemma same_cached n c c' s :
  cached n c s -> config_generation c' = config_generation c -> trust_anchors c' = trust_anchors c -> pem_cert c' = pem_cert c -> pem_key c' = pem_key c ->
  cached (n + 1) c' s.
Proof.
  intros [C G F] E1 E2 E3 E4. constructor; rewrite ?E1; [lia|lia|]. intros cl x Hx. destruct (F cl x Hx) as [Hp Hf]. split; [done|].
  intros E. specialize (Hf E). unfold fits in *. by rewrite E2, E3, E4.
Qed.

Lemma released_cached n c s : cached n c s -> cached n c (ssl_release_shared s).
Proof. intros [C G F]. constructor; [done|done|]. by intros [|] x. Qed.

Lemma initialize_told n client c t sh o st sh' o' :
  cached n c sh -> initialize env client c t sh o = (st, sh', o') ->
  cached n c sh' /\
  match (ssl_shared_context env client c t sh).1 with
  | None => ssl o' = ssl o /\ verify_peer o' = verify_peer o
  | Some _ => forall s, ssl o' = Some s -> told o' (mkSettings client (peer_name o) (allow_untrusted_conn o) (require_client_cert_conn o) c) s
  end.
Proof.
  intros C H. pose proof (shared_spec client n c t sh C) as Hs. unfold initialize in H.
  destruct (ssl_shared_context env client c t sh) as [[x|] sh1]; cbn [fst]; destruct Hs as [C1 Hx]; [|by injection H as _ <- <-].
  specialize (Hx x eq_refl). destruct (negb (e_ssl_new env t)); [by injection H as _ <- <-|].
  cbn [peer_name allow_untrusted_conn require_client_cert_conn] in H.
  set (v := negb (allow_untrusted_conn o) && (client || require_client_cert_conn o)) in *.
  set (o1 := mkOpenSSL client (peer_name o) (allow_untrusted_conn o) (require_client_cert_conn o) None v) in *.
  set (s0 := if v then _ else _) in *.
  assert (H0 : s_ctx s0 = x /\ s_verify s0 = v /\ (v = true -> s_fail_if_no_peer_cert s0 = negb client) /\ s_bio s0 = false) by (subst s0; by destruct v).
  destruct H0 as (H1 & H2 & H3 & H4). clearbody s0.
  destruct (expect_name env t o1 s0) as [ok s1] eqn:E.
  assert (Hn : s_ctx s1 = x /\ s_verify s1 = v /\ (v = true -> s_fail_if_no_peer_cert s1 = negb client) /\ s_bio s1 = false /\
               (ok = true -> client = true -> if bool_decide (peer_name o = []) then s_verify s1 = false
                 else if e_is_address env (peer_name o) then s_ip s1 = Some (peer_name o)
                 else s_host s1 = Some (peer_name o) /\ s_no_partial_wildcards s1 = true /\ s_sni s1 = Some (peer_name o))).
  { unfold expect_name in E. cbn [Tls.client peer_name verify_peer o1] in E. destruct client; cbn [andb] in E.
    - case_bool_decide as Hp; cbn [negb andb] in E.
      + destruct v eqn:Ev; injection E as <- <-; [by split_and!|]. split_and!; try done.
      + destruct (e_is_address env (peer_name o)); [by injection E as <- <-|]. destruct (negb (e_set_host env t)); by injection E as <- <-.
    - by injection E as <- <-. }
  destruct Hn as (N1 & N2 & N3 & N4 & N5).
  assert (T : forall s2, (s2 = s1 \/ s2 = set_bio s1 /\ ok = true) -> told (with_ssl (Some s2) o1) (mkSettings client (peer_name o) (allow_untrusted_conn o) (require_client_cert_conn o) c) s2).
  { intros s2 [->|[-> Hok]]; constructor; cbn [t_client t_config t_untrusted t_require t_name set_bio s_ctx s_verify s_fail_if_no_peer_cert s_bio s_ip s_host s_no_partial_wildcards s_sni verify_peer with_ssl o1].
    all: rewrite ?N1, ?N2, ?N4; try done.
    - intros Hv Hc. by rewrite N3, Hc.
    - intros Hv Hc. by rewrite N3, Hc.
    - intros _ Hc. rewrite <- N2. by apply N5. }
  destruct ok; cbn [negb] in H; [|injection H as _ <- <-; split; [done|]; intros s2 [= <-]; apply T; by left].
  destruct (negb (e_bio_new env t)); injection H as _ <- <-; (split; [done|]); intros s2 [= <-]; apply T; [by left|by right].
Qed.

Lemma told_same o o' m s : verify_peer o' = verify_peer o -> told o m s -> told o' m s.
Proof. intros E [A B C D]. constructor; try done. by rewrite E. Qed.

Lemma tls_step_sound n s w : 0 <= n -> 2 * n + 2 < 2 ^ 64 -> sound n w -> sound (n + 1) (step s w).
Proof.
  intros Hn Hb [C T]. pose proof (ca_count _ _ _ C) as Hc. pose proof (u64_next _ n Hc Hb) as Hu.
  assert (Hu2 : u64 (config_generation (config w) + 1 + 1) = config_generation (config w) + 1 + 1) by (apply Z.mod_small; lia).
  assert (more : forall c s, cached n c s -> cached (n + 1) c s) by (intros c s0 C0; by apply (same_cached n c c s0)).
  destruct s as [k c| |f| |b|b| |cl|nm|b|b|cl|]; unfold step, with_config, with_conn; (constructor; cbn [config shared conn made_for]); try done; try (by apply more).
  - apply (changed_cached n (config w)); [done|]. unfold setKeys, resetKeys. cbn [config_generation]. rewrite Hu, Hu2. lia.
  - apply (changed_cached n (config w)); [done|]. unfold resetKeys. cbn [config_generation]. rewrite Hu. lia.
  - unfold addTrustAnchor. case_bool_decide; [by apply more|]. apply (changed_cached n (config w)); [done|]. cbn [config_generation]. rewrite Hu. lia.
  - apply (changed_cached n (config w)); [done|]. cbn [clearTrustAnchors config_generation]. rewrite Hu. lia.
  - by apply (same_cached n (config w)).
  - by apply (same_cached n (config w)).
  - apply (changed_cached n (config w)); [by apply released_cached|]. cbn [resetKeys config_generation]. rewrite Hu. lia.
  - apply more. pose proof (shared_spec cl n (config w) (clock w) (shared w) C) as Hs. destruct (ssl_shared_context _ _ _ _ _). apply Hs.
  - intros s Hs; destruct (T s Hs) as (m & Hm & Ht); exists m; split; [done|by apply (told_same (conn w))].
  - intros s Hs; destruct (T s Hs) as (m & Hm & Ht); exists m; split; [done|by apply (told_same (conn w))].
  - intros s Hs; destruct (T s Hs) as (m & Hm & Ht); exists m; split; [done|by apply (told_same (conn w))].
  - destruct (initialize env cl _ _ _ _) as [[st sh] o] eqn:E. destruct (initialize_told _ _ _ _ _ _ _ _ _ C E) as [C1 H]. by apply more.
  - destruct (initialize env cl _ _ _ _) as [[st sh] o] eqn:E. destruct (initialize_told _ _ _ _ _ _ _ _ _ C E) as [C1 H]. cbn [conn made_for].
    intros s Hs. destruct (ssl_shared_context env cl _ _ _).1 as [x|].
    + eexists. split; [done|]. by apply H.
    + destruct H as [H1 H2]. rewrite H1 in Hs. destruct (T s Hs) as (m & Hm & Ht). exists m. split; [done|]. by apply (told_same (conn w)).
Qed.

Lemma tls_run_sound n l w : 0 <= n -> 2 * (n + zlen l) < 2 ^ 64 -> sound n w -> sound (n + zlen l) (run l w).
Proof.
  revert n w. induction l as [|s l IH]; intros n w Hn Hb S; [by rewrite Z.add_0_r|].
  assert (E : zlen (s :: l) = 1 + zlen l) by (unfold zlen; cbn [length]; lia). rewrite E, Z.add_assoc in *. pose proof (zlen_nonneg l).
  cbn [run fold_left]. apply IH; [lia|done|]. apply tls_step_sound; [done|lia|done].
Qed.

Lemma start_sound c : config_generation c = 0 -> sound 0 (start c).
Proof.
  intros H. constructor; [|done]. constructor; cbn; rewrite ?H; [lia|lia|]. by intros [|] x.
Qed.
End world.

(** ** Properties *)

(** C13. Whatever connections are made, defaults and keys and anchors changed, and settings
    of this connection changed before and after: if a handshake is reported as done, the
    session was made by an [initialize] with the settings and the configuration of that
    moment - the shared contexts notwithstanding: its context is for its role, TLS 1.2 at
    least, and has the anchors there were. A client that was told a name expects that name
    or address of its peer. Unless it was allowed to be untrusted then, a client has a name
    to expect, and OpenSSL was told to verify the peer, had a certificate of it and found
    it valid; a server that requires certificates likewise. OpenSSL is relied on for a
    session without a transport not being connected. *)
Theorem handshake_verifies (env : Env) (resolve : bytes -> bytes) (c : Config) (l : list Step) (t : nat)
  (needs_transport : forall t s, s_bio s = false -> e_handshake env t s <> 1)
  (Hc : config_generation c = 0) (Hl : 2 * zlen l < 2 ^ 64) :
  let w := run env resolve l (start c) in
  sendHandshake env t (conn w) = Ok ->
  exists m s, made_for w = Some m /\ ssl (conn w) = Some s /\ e_handshake env t s = 1 /\ fits (t_client m) (t_config m) (s_ctx s) /\
    (t_client m = true -> t_name m <> [] ->
       if e_is_address env (t_name m) then s_ip s = Some (t_name m)
       else s_host s = Some (t_name m) /\ s_no_partial_wildcards s = true /\ s_sni s = Some (t_name m)) /\
    (t_untrusted m = false -> t_client m = true \/ t_require m = true ->
       s_verify s = true /\ (t_client m = true -> t_name m <> []) /\ (t_client m = false -> s_fail_if_no_peer_cert s = true) /\
       e_verify_result env t s = X509_V_OK /\ e_peer_certificate env t s <> None).
Proof.
  cbv zeta. intros H. pose proof (tls_run_sound env resolve 0 l (start c) ltac:(lia) Hl (start_sound env c Hc)) as [_ T].
  set (w := run env resolve l (start c)) in *. unfold sendHandshake in H. destruct (ssl (conn w)) as [s|]; [|done].
  destruct (T s eq_refl) as (m & Hm & [K1 [K2 K2'] K3 K4]).
  destruct (Z.eqb_spec (e_handshake env t s) 1) as [H1|]; cbn [negb] in H; [|by destruct (e_error env t _)].
  assert (Hb : s_bio s = true) by (destruct (s_bio s) eqn:E; [done|by destruct (needs_transport t s E)]).
  exists m, s. do 4 (split; [done|]). split.
  { intros Hcl Hn. specialize (K4 Hb Hcl). by rewrite bool_decide_false in K4. }
  intros Hu Hr. assert (Hv : verify_peer (conn w) = true) by (rewrite K2, Hu; by destruct Hr as [-> | ->]; rewrite ?orb_true_r).
  rewrite Hv, !andb_true_r in H. rewrite K2', Hv. split; [done|]. split.
  { intros Hcl Hn. specialize (K4 Hb Hcl). rewrite bool_decide_true in K4 by done. congruence. }
  split; [intros Hcl; apply K3; [by rewrite K2'|done]|].
  destruct (Z.eqb_spec (e_verify_result env t s) X509_V_OK); cbn [negb] in H; [|done]. split; [done|].
  by destruct (bool_decide_reflect (e_peer_certificate env t s = None)) in H.
Qed.

(** An OpenSSL with which everything succeeds. *)
Definition demo_env : Env :=
  mkEnv (fun _ => true) (fun _ => true) (fun _ => true) (fun _ _ => true) (fun _ _ => true) (fun _ _ => true) (fun _ _ => true) (fun _ => true)
    (fun n => bool_decide (n = lit "127.0.0.1") || bool_decide (n = lit "::1")) (fun _ => true) (fun _ => true)
    (fun _ s => if s_bio s then 1 else -1) (fun _ => 1) (fun _ n => n) (fun _ _ => SSL_ERROR_OTHER) (fun _ => 0)
    (fun _ _ => X509_V_OK) (fun _ _ => Some (lit "certificate")).

Definition demo_steps : list Step :=
  [OtherConnection true; AddTrustAnchor (lit "/etc/anchor.pem"); PeerName (lit "example.com"); Initialize true; AllowUntrusted true; ClearTrustAnchors].

Lemma handshake_verifies_witness :
  let w := run demo_env id demo_steps (start initial_Config) in
  sendHandshake demo_env 9 (conn w) = Ok /\
  (exists s, ssl (conn w) = Some s /\ s_verify s = true /\ s_host s = Some (lit "example.com") /\ c_anchors (s_ctx s) = [lit "/etc/anchor.pem"]) /\
  exists m s, made_for w = Some m /\ ssl (conn w) = Some s /\ e_handshake demo_env 9 s = 1 /\ fits (t_client m) (t_config m) (s_ctx s).
Proof.
  cbv zeta. assert (H : sendHandshake demo_env 9 (conn (run demo_env id demo_steps (start initial_Config))) = Ok) by (vm_compute; reflexivity).
  split; [exact H|]. split; [eexists; split; [vm_compute; reflexivity|]; vm_compute; repeat split|].
  destruct (handshake_verifies demo_env id initial_Config demo_steps 9) as (m & s & H1 & H2 & H3 & H4 & _).
  - intros t s E. cbn. rewrite E. discriminate.
  - reflexivity.
  - reflexivity.
  - exact H.
  - exists m, s. exact (conj H1 (conj H2 (conj H3 H4))).
Defined.

(** ** What goes wrong *)

(** The text of an address literal, as [InetAddress] keeps it, is the name that is
    expected: with its brackets it is not an address, and no certificate is for it. The
    other way of reading an address removes them. *)
Lemma bracketed_literal_is_a_name :
  let pton := fun (v : Inet.Version) t => if bool_decide (v = IPv6) && bool_decide (t = lit "::1") then Some (replicate 15 (chr 0) ++ [chr 1]) else None in
  hostname (new_InetAddress pton (lit "[::1]")) = lit "[::1]" /\ resolveState (new_InetAddress pton (lit "[::1]")) = Resolved /\
  hostname (assign_text pton (lit "[::1]")) = lit "::1" /\
  (forall s, ssl (conn (run demo_env id [PeerName (lit "[::1]"); Initialize true] (start initial_Config))) = Some s ->
     s_ip s = None /\ s_host s = Some (lit "[::1]")).
Proof. cbv zeta. do 3 (split; [vm_compute; reflexivity|]). intros s. vm_compute. intros E. by simplify_eq. Qed.

(** A certificate that is not there when a context is built is left out, and the context
    is kept: the file is not looked for again when it has come. *)
Lemma late_certificate_not_seen :
  let env := mkEnv (fun _ => true) (fun _ => true) (fun _ => true) (fun _ _ => true) (fun t _ => (1 <? t)%nat) (fun _ _ => true) (fun _ _ => true) (fun _ => true)
    (fun _ => false) (fun _ => true) (fun _ => true) (fun _ _ => 1) (fun _ => 1) (fun _ n => n) (fun _ _ => SSL_ERROR_OTHER) (fun _ => 0) (fun _ _ => X509_V_OK) (fun _ _ => None) in
  let w := run env id [SetKeys (lit "/key") (lit "/cert"); OtherConnection false; Initialize false] (start initial_Config) in
  e_exists env 2 (lit "/cert") = true /\ pem_cert (config w) = Some (lit "/cert") /\ exists s, ssl (conn w) = Some s /\ c_cert (s_ctx s) = None.
Proof. cbv zeta. split; [reflexivity|]. split; [reflexivity|]. eexists. split; vm_compute; reflexivity. Qed.
