(* ===== verification/Blocking.v ===== *)
(** * Blocking: [src/io/net/upnp/portmap.cpp]

    One call for a program without a loop of its own: reach a gateway, from the cache when
    it is good, ask a port mapper one thing, and turn the event loop until it is answered
    or time is up. The loop's turns are an environment: the time at the start of each, and
    what the monitor and the timers bring in it. The gateway and the mapper are those of
    [GatewayService]; what reaches them is what their sockets and timers bring. *)

From stdpp Require Import gmap.
From S2P Require Import Prelude Strings Inet Url UpnpSoap UpnpDescription Gateway GatewayService.
From S2P Require PortMapper Timer.

(** ** Results *)

(* @src src/include/samurai/io/net/upnp/portmap.h:24-38 Samurai::IO::Net::UPnP::MapResult *)
Record MapResult := mkMapResult {
  error : Error.t;
  deviceError : DeviceError.t;
  result_code : Z;
  externalPort : Z;
  externalAddress : InetAddress;
  internalClient : InetAddress
}.
(* @src src/include/samurai/io/net/upnp/portmap.h:24-35 Samurai::IO::Net::UPnP::MapResult *)
Definition new_MapResult : MapResult := mkMapResult Error.None DeviceError.Unknown 0 0 PortMapper.no_address PortMapper.no_address.
(* @src src/include/samurai/io/net/upnp/portmap.h:37-37 Samurai::IO::Net::UPnP::MapResult::ok *)
Definition ok (r : MapResult) : bool := bool_decide (error r = Error.None).

Definition with_error (e : Error.t) (r : MapResult) : MapResult :=
  mkMapResult e (deviceError r) (result_code r) (externalPort r) (externalAddress r) (internalClient r).

(* @src src/src/io/net/upnp/portmap.cpp:53-54 Blocking *)
Record Blocking := mkBlocking { ready : bool; done : bool; result : MapResult }.
Definition new_Blocking : Blocking := mkBlocking false false new_MapResult.

(* @src src/src/io/net/upnp/portmap.cpp:57-58 Blocking::EventGatewayFound *)
Definition EventGatewayFound (b : Blocking) : Blocking := mkBlocking true (done b) (result b).
(* @src src/src/io/net/upnp/portmap.cpp:60-64 Blocking::EventGatewayError *)
Definition EventGatewayError (e : Error.t) (b : Blocking) : Blocking := mkBlocking (ready b) true (with_error e (result b)).
(* @src src/src/io/net/upnp/portmap.cpp:66-73 Blocking::EventMappingAdded *)
Definition EventMappingAdded (m : PortMapper.Mapping) (b : Blocking) : Blocking :=
  let r := result b in
  mkBlocking (ready b) true
    (mkMapResult Error.None (deviceError r) (result_code r) (PortMapper.externalPort m) (externalAddress r) (PortMapper.internalClient m)).
(* @src src/src/io/net/upnp/portmap.cpp:75-81 Blocking::EventMappingRemoved *)
Definition EventMappingRemoved (k : PortMapper.MappingKey) (b : Blocking) : Blocking :=
  let r := result b in
  mkBlocking (ready b) true
    (mkMapResult Error.None (deviceError r) (result_code r) (PortMapper.k_externalPort k) (externalAddress r) (internalClient r)).
(* @src src/src/io/net/upnp/portmap.cpp:83-89 Blocking::EventExternalAddress *)
Definition EventExternalAddress (a : InetAddress) (b : Blocking) : Blocking :=
  let r := result b in
  mkBlocking (ready b) true (mkMapResult Error.None (deviceError r) (result_code r) (externalPort r) a (internalClient r)).
(* @src src/src/io/net/upnp/portmap.cpp:91-98 Blocking::EventMapperError *)
Definition EventMapperError (e : Error.t) (device : DeviceError.t) (code : Z) (b : Blocking) : Blocking :=
  let r := result b in
  mkBlocking (ready b) true (mkMapResult e device code (externalPort r) (externalAddress r) (internalClient r)).

(** The handlers that are not overridden do nothing. *)
(* @src src/src/io/net/upnp/portmap.cpp:42-99 Blocking *)
Definition on_gateway (b : Blocking) (e : Event) : Blocking :=
  match e with
  | Gateway.EventGatewayFound => EventGatewayFound b
  | Gateway.EventGatewayError e => EventGatewayError e b
  | _ => b
  end.
(* @src src/src/io/net/upnp/portmap.cpp:42-99 Blocking *)
Definition on_mapper (b : Blocking) (e : PortMapper.Event) : Blocking :=
  match e with
  | PortMapper.EventMappingAdded m => EventMappingAdded m b
  | PortMapper.EventMappingRemoved k => EventMappingRemoved k b
  | PortMapper.EventExternalAddress a => EventExternalAddress a b
  | PortMapper.EventMapperError e device code => EventMapperError e device code b
  | _ => b
  end.

(** ** The loop *)

(** What sockets and timers bring: something for the gateway, or the mapper's timer,
    which fires when it is due. *)
Inductive Arrival :=
  | Reply (r : Ssdp.Reply)
  | SearchFinished
  | Response (success : bool) (body : bytes) (local : option InetAddress)
  | ClientError
  | Timeout
  | Renewal.

Definition to_gateway (a : Arrival) : option Input :=
  match a with
  | Reply r => Some (Gateway.Reply r)
  | SearchFinished => Some Gateway.SearchFinished
  | Response success body local => Some (Gateway.Response success body local)
  | ClientError => Some Gateway.ClientError
  | Timeout => Some Gateway.Timeout
  | Renewal => None
  end.

(** A turn: the time when it begins, what [timeToNext] says, what a wait of some
    milliseconds brings and what the timers bring then, each with its time. *)
Record Turn := mkTurn {
  t_now : Z;
  t_next : Z;
  t_wait : Z -> list (Z * Arrival);
  t_process : list (Z * Arrival)
}.

(* @src src/src/io/net/upnp/portmap.cpp:118-118 pump_until *)
Definition slice_of (next : Z) : Z := if (next <? 0) || (50 <? next) then 50 else next.

Section pump.
Context {W : Type}.
Variable finished : W -> bool.
Variable arrive : Z -> Arrival -> W -> option W.

Fixpoint arrive_all (l : list (Z * Arrival)) (w : W) : option W :=
  match l with [] => Some w | (now, a) :: l => w ← arrive now a w; arrive_all l w end.

(** Gives the turn it ends in, too. *)
(* @src src/src/io/net/upnp/portmap.cpp:108-122 pump_until *)
Fixpoint pump_until (fuel : nat) (turns : nat -> Turn) (deadline : Z) (turn : nat) (w : W) : option (nat * W) :=
  match fuel with
  | O => None
  | S fuel =>
      let t := turns turn in
      if finished w || (deadline <=? t_now t) then Some (turn, w)
      else
        w ← arrive_all (t_wait t (slice_of (t_next t)) ++ t_process t) w;
        pump_until fuel turns deadline (S turn) w
  end.
End pump.

(** ** The calls *)

(* @src src/src/io/net/upnp/portmap.cpp:14-29 cached_gateway *)
Record Cache := mkCache { cached_gateway : GatewayInfo; configured_location : URL; inside_blocking_call : bool }.

Section blocking.
Variable inet_pton : Inet.Version -> bytes -> option bytes.
Variable inet_ntop : Inet.Version -> bytes -> option bytes.
Variable refused : Gateway.Request -> bool.
#[local] Instance service : PortMapper.ActionService (World unit) := gateway_service inet_pton refused.
Local Abbreviation gateways := (World unit).
Local Abbreviation world := (PortMapper.World (World unit)).

(* @src src/include/samurai/io/net/upnp/gateway.h:129-143 Samurai::IO::Net::UPnP::GatewayInfo *)
Definition no_info : GatewayInfo := info inet_pton (new_Gateway inet_pton).

(* @src src/src/io/net/upnp/portmap.cpp:21-29 cached_gateway *)
Definition initial_Cache : Cache := mkCache no_info (Url.parse inet_pton []) false.

(* @src src/src/io/net/upnp/portmap.cpp:167-171 Samurai::IO::Net::UPnP::setBlockingGateway *)
Definition setBlockingGateway (location : URL) (c : Cache) : Cache := mkCache no_info location (inside_blocking_call c).
(* @src src/src/io/net/upnp/portmap.cpp:174-177 Samurai::IO::Net::UPnP::resetBlockingCache *)
Definition resetBlockingCache (c : Cache) : Cache := mkCache no_info (configured_location c) (inside_blocking_call c).
(* @src src/src/io/net/upnp/portmap.cpp:31-39 Guard *)
Definition guard (b : bool) (c : Cache) : Cache := mkCache (cached_gateway c) (configured_location c) b.
Definition remember (i : GatewayInfo) (c : Cache) : Cache := mkCache i (configured_location c) (inside_blocking_call c).

(** Something reaches the gateway, which tells this one. *)
Definition gateway_arrival (now : Z) (a : Arrival) (s : gateways * Blocking) : option (gateways * Blocking) :=
  match to_gateway a with
  | None => Some s
  | Some i => w ← perform inet_pton refused later i s.1; Some (w, fold_left on_gateway (since s.1 w) s.2)
  end.

(** Something reaches the gateway, or the mapper; what they say is told to this one. *)
Definition fires (now : Z) (w : world) : bool :=
  match PortMapper.renewal (PortMapper.mapper w) with Some deadline => deadline <=? now | None => false end.
Definition said (w w' : world) : list PortMapper.Event := map snd (drop (length (PortMapper.heard w)) (PortMapper.heard w')).
Definition stack_arrival (now : Z) (a : Arrival) (s : world * Blocking) : option (world * Blocking) :=
  let w := s.1 in
  w' ← match to_gateway a with
       | Some i => take_step inet_pton refused inet_ntop now (ToGateway i) w
       | None => if fires now w then PortMapper.perform inet_pton inet_ntop now PortMapper.Timeout w else Some w
       end;
  Some (w', fold_left on_mapper (said w w') (fold_left on_gateway (since (PortMapper.service w) (PortMapper.service w')) s.2)).

(** The gateway that is asked; [started] is whether a search can be. *)
(* @src src/src/io/net/upnp/portmap.cpp:134-141 reach_gateway *)
Definition begin_gateway (started : bool) (now : Z) (c : Cache) : option gateways :=
  if info_isValid (cached_gateway c) && negb (hasExpired now (cached_gateway c)) then attach inet_pton (cached_gateway c) (nothing tt)
  else if valid (configured_location c) then describe inet_pton refused later (configured_location c) (nothing tt)
  else discover inet_pton started (nothing tt).

(** A gateway that begins is never null. The one that is not reached is destroyed. *)
(* @src src/src/io/net/upnp/portmap.cpp:129-162 reach_gateway *)
Definition reach_gateway (fuel : nat) (turns : nat -> Turn) (started : bool) (now deadline : Z) (state : Blocking) (c : Cache) :
  option (nat * option gateways * Blocking * Cache) :=
  w ← begin_gateway started now c;
  let state := fold_left on_gateway (log w) state in
  '(turn, (w, state)) ← pump_until (fun s => ready s.2 || done s.2) gateway_arrival fuel turns deadline 0 (w, state);
  if negb (ready state) then
    _ ← destroy_gateway w;
    let r := result state in
    let r := if bool_decide (error r = Error.None) then with_error Error.NoGateway r else r in
    Some (turn, None, mkBlocking (ready state) (done state) r, remember no_info c)
  else
    g ← gateway w;
    Some (turn, Some w, state, remember (info inet_pton g) c).

(** [requests.clear()] *)
(* @src src/src/io/net/upnp/portmapper.cpp:100-104 Samurai::IO::Net::UPnP::PortMapper::~PortMapper *)
Definition destroy_mapper (w : world) : option world :=
  PortMapper.drop_all (PortMapper.requests (PortMapper.mapper w)) (PortMapper.put (PortMapper.with_requests [] (PortMapper.mapper w)) w).

(** What a call gives; what the mapper said, if there was one, is kept. *)
Record Outcome := mkOutcome { o_result : MapResult; o_cache : Cache; o_said : option (list (Z * PortMapper.Event)) }.

(** The three calls differ in what they ask of the mapper, which is never null. *)
(* @src src/src/io/net/upnp/portmap.cpp:250-272 Samurai::IO::Net::UPnP::getExternalAddressBlocking *)
Definition blocking (ask : world -> option world) (timeout : Z) (fuel : nat) (turns : nat -> Turn) (started : bool) (now : Z) (c : Cache) : option Outcome :=
  if inside_blocking_call c then Some (mkOutcome (with_error Error.Reentrant new_MapResult) c None)
  else
    let c := guard true c in
    let deadline := now + Timer.milliseconds timeout in
    '(turn, reached, state, c) ← reach_gateway fuel turns started now deadline new_Blocking c;
    match reached with
    | None => Some (mkOutcome (result state) (guard false c) None)
    | Some g =>
        let w := PortMapper.mkWorld (PortMapper.new_PortMapper PortMapper.default_Options) g [] in
        w' ← ask w;
        let state := fold_left on_mapper (said w w') (fold_left on_gateway (since g (PortMapper.service w')) state) in
        '(_, (w, state)) ← pump_until (fun s => done s.2) stack_arrival fuel turns deadline turn (w', state);
        let r := if negb (done state) then with_error Error.Network (result state) else result state in
        w ← destroy_mapper w;
        _ ← destroy_gateway (PortMapper.service w);
        Some (mkOutcome r (guard false c) (Some (PortMapper.heard w)))
    end.

(* @src src/src/io/net/upnp/portmap.cpp:201-206 Samurai::IO::Net::UPnP::mapPortBlocking *)
Definition wanted_mapping (protocol : PortMapper.Protocol) (internalPort externalPort : Z) (description : bytes) (lease : Z) : PortMapper.Mapping :=
  PortMapper.mkMapping protocol (if negb (externalPort =? 0) then externalPort else internalPort) internalPort PortMapper.no_address [] description lease true.

(* @src src/src/io/net/upnp/portmap.cpp:180-217 Samurai::IO::Net::UPnP::mapPortBlocking *)
Definition mapPortBlocking (protocol : PortMapper.Protocol) (internalPort externalPort : Z) (description : bytes) (lease timeout : Z) :=
  let mapping := wanted_mapping protocol internalPort externalPort description lease in
  blocking (if negb (externalPort =? 0) then PortMapper.addMapping inet_ntop mapping else PortMapper.addAnyMapping inet_ntop mapping) timeout.
(* @src src/src/io/net/upnp/portmap.cpp:220-247 Samurai::IO::Net::UPnP::unmapPortBlocking *)
Definition unmapPortBlocking (protocol : PortMapper.Protocol) (externalPort timeout : Z) :=
  blocking (PortMapper.deleteMapping inet_ntop (PortMapper.mkKey protocol externalPort [])) timeout.
(* @src src/src/io/net/upnp/portmap.cpp:250-272 Samurai::IO::Net::UPnP::getExternalAddressBlocking *)
Definition getExternalAddressBlocking (timeout : Z) := blocking (PortMapper.getExternalAddress inet_ntop) timeout.
End blocking.

(** ** What a gateway does by itself *)

(** No action is made, and what was said is not taken back. *)
Definition onward (w w' : World unit) : Prop := next_id w' = next_id w /\ log w `prefix_of` log w'.

Lemma onward_refl w : onward w w.
Proof. done. Qed.
Lemma onward_trans w1 w2 w3 : onward w1 w2 -> onward w2 w3 -> onward w1 w3.
Proof. intros [N1 L1] [N2 L2]. split; [congruence|by etrans]. Qed.
Lemma onward_from w0 w w' : next_id w0 = next_id w -> log w0 `prefix_of` log w -> onward w w' -> onward w0 w'.
Proof. intros N L H. by apply (onward_trans _ w); [split|]. Qed.

Definition goes (f : World unit -> option (World unit)) : Prop := forall w w', f w = Some w' -> onward w w'.

(** Takes a computation that gave something apart. *)
Local Ltac parts :=
  repeat match goal with
  | H : mbind _ ?m = Some _ |- _ => destruct m eqn:?; [cbn [mbind option_bind] in H|discriminate H]
  | H : Some _ = Some _ |- _ => injection H as H
  | H : None = Some _ |- _ => discriminate H
  | H : (let '(_, _) := ?x in _) = Some _ |- _ => destruct x
  | H : (if ?b then _ else _) = Some _ |- _ => destruct b eqn:?
  | H : (match ?x with _ => _ end) = Some _ |- _ => destruct x eqn:?
  end; subst.
(** Follows the worlds from one to the next. *)
Local Ltac follow :=
  match goal with
  | |- onward ?w ?w => apply onward_refl
  | H : onward ?w1 ?w2 |- onward ?w ?w2 =>
      apply (onward_from w w1 w2); [reflexivity|first [reflexivity|apply prefix_app_r; reflexivity]|exact H]
  | |- onward _ _ => split; [reflexivity|first [reflexivity|apply prefix_app_r; reflexivity]]
  end.

Section onward.
Variable inet_pton : Inet.Version -> bytes -> option bytes.
Variable refused : Gateway.Request -> bool.
Local Abbreviation pump := (Gateway.pump refused later).
Local Abbreviation start := (startDescription refused later).

Lemma unqueue_goes id : goes (unqueue id).
Proof. intros w w' H. unfold unqueue in H. parts. follow. Qed.

Lemma notify_goes e : goes (notify later e).
Proof. intros w w' [= <-]. follow. Qed.

Lemma tell_doomed_goes error doomed : goes (tell_doomed later error doomed).
Proof.
  induction doomed as [|id doomed IH]; intros w w' H; cbn [tell_doomed] in H; parts; [follow|].
  apply IH in H. apply unqueue_goes in Heqo. apply notify_goes in Heqo0.
  eapply onward_trans; [exact Heqo|]. by eapply onward_trans.
Qed.

Lemma internal_fail_goes error : goes (internal_fail later error).
Proof.
  intros w w' H. unfold internal_fail in H. destruct (gateway w) as [g|]; [|done]. cbn [mbind option_bind] in H.
  destruct (reported g); cbn [negb notify later mbind option_bind] in H; apply tell_doomed_goes in H; follow.
Qed.

Lemma tryNext_goes begin w t w' : (forall url, goes (begin url)) -> internal_tryNextCandidate begin w = Some (t, w') -> onward w w'.
Proof.
  intros Hb H. unfold internal_tryNextCandidate in H. destruct (gateway w) as [g|]; [|done]. cbn [mbind option_bind] in H.
  destruct (candidates g !! next_candidate g); [|by injection H as <- <-].
  destruct (begin _ _) eqn:E; [|done]. injection H as <- <-. apply Hb in E. follow.
Qed.

Lemma description_failed_goes begin : (forall url, goes (begin url)) -> goes (description_failed later begin).
Proof.
  intros Hb w w' H. unfold description_failed in H. destruct (internal_tryNextCandidate begin w) as [[t w1]|] eqn:E; [|done].
  apply tryNext_goes in E; [|done]. cbn [mbind option_bind] in H. destruct t; [by injection H as <-|].
  apply (onward_trans _ w1); [done|]. destruct (gateway w1) as [g|]; [|done]. cbn [mbind option_bind] in H.
  destruct (search g) as [[|]|]; [by apply internal_fail_goes in H| |by apply internal_fail_goes in H]. injection H as <-. follow.
Qed.

Lemma internal_startDescription_goes fuel : forall url, goes (internal_startDescription refused later fuel url).
Proof.
  induction fuel as [|fuel IH]; intros url w w' H; cbn [internal_startDescription] in H;
    (destruct (gateway w) as [g|]; [|done]); cbn [mbind option_bind] in H; (destruct (negb _); [injection H as <-; follow|]); [done|].
  cbn [gateway ask put mbind option_bind] in H. apply description_failed_goes in H; [follow|done].
Qed.

Lemma startDescription_goes url : goes (start url).
Proof. intros w w' H. unfold startDescription in H. parts. by apply internal_startDescription_goes in H. Qed.

Lemma finishAction_goes p id : goes p -> goes (internal_finishAction p id).
Proof.
  intros Hp w w' H. unfold internal_finishAction in H. destruct (gateway w) as [g|]; [|done]. cbn [mbind option_bind] in H.
  destruct (unqueue _ _) as [w1|] eqn:E; [|done]. apply unqueue_goes in E. apply Hp in H.
  apply (onward_trans _ w1); [follow|exact H].
Qed.

Lemma action_failed_goes p : goes p -> goes (action_failed later p).
Proof.
  intros Hp w w' H. unfold action_failed in H. destruct (gateway w) as [g|]; [|done]. cbn [mbind option_bind] in H.
  destruct (inflight g) as [id|]; [|injection H as <-; follow].
  destruct (internal_finishAction p id w) as [w1|] eqn:E; [|done]. apply finishAction_goes in E; [|done]. cbn [mbind option_bind] in H.
  destruct (store w1 !! id); [|done]. apply notify_goes in H. by apply (onward_trans _ w1).
Qed.

Lemma sendAction_goes p id : goes p -> goes (internal_sendAction refused later p id).
Proof.
  intros Hp w w' H. unfold internal_sendAction in H. destruct (gateway w) as [g|]; [|done]. cbn [mbind option_bind] in H.
  destruct (store w !! id) as [a|]; [|done]. cbn [mbind option_bind] in H. destruct (find_service _ _).
  - destruct (negb _); [injection H as <-; follow|]. cbn [gateway ask put mbind option_bind] in H.
    apply action_failed_goes in H; [follow|done].
  - destruct (unqueue _ _) as [w1|] eqn:E; [|done]. apply unqueue_goes in E. cbn [mbind option_bind notify later] in H. apply Hp in H.
    apply (onward_trans _ w1); follow.
Qed.

Lemma internal_pump_goes fuel : goes (internal_pump refused later fuel).
Proof.
  induction fuel as [|fuel IH]; intros w w' H; cbn [internal_pump] in H; (destruct (gateway w) as [g|]; [|done]); cbn [mbind option_bind] in H;
    (destruct (_ || _); [injection H as <-; follow|]); (destruct (pending g); [injection H as <-; follow|]); [done|].
  apply sendAction_goes in H; [follow|exact IH].
Qed.

Lemma pump_goes : goes pump.
Proof. intros w w' H. unfold Gateway.pump in H. parts. by apply internal_pump_goes in H. Qed.

Lemma internal_ready_goes : goes (internal_ready refused later).
Proof.
  intros w w' H. unfold internal_ready in H. destruct (gateway w) as [g|]; [|done]. cbn [mbind option_bind] in H.
  destruct (negb _); cbn [notify later mbind option_bind] in H; apply pump_goes in H; follow.
Qed.

Lemma EventHttpResponse_goes success body local : goes (EventHttpResponse inet_pton refused later success body local).
Proof.
  intros w w' H. unfold EventHttpResponse in H. destruct (gateway w) as [g|] eqn:G; [|done]. cbn [mbind option_bind] in H.
  case_bool_decide.
  - unfold description_arrived in H. destruct (negb success); [by apply internal_fail_goes in H|]. rewrite G in H. cbn [mbind option_bind] in H.
    destruct (UpnpDescription.parse _ _ _) as [[e d]|]; [|done]. cbn [mbind option_bind] in H.
    destruct (negb _); [apply internal_fail_goes in H|apply internal_ready_goes in H]; follow.
  - destruct (inflight g) as [id|]; [|injection H as <-; follow].
    destruct (parseResponse body) as [[[e r] f]|]; [|done]. cbn [mbind option_bind] in H.
    destruct (internal_finishAction _ id w) as [w1|] eqn:E; [|done]. apply finishAction_goes in E; [|exact pump_goes].
    cbn [mbind option_bind] in H. destruct (store w1 !! id); [|done]. cbn [mbind option_bind] in H.
    apply (onward_trans _ w1); [done|]. repeat case_match; by apply notify_goes in H.
Qed.

(** *** Anything that arrives *)

Lemma arrival_goes a i : to_gateway a = Some i -> goes (perform inet_pton refused later i).
Proof.
  intros Ha w w' H. unfold perform in H. destruct (gateway w) as [g|] eqn:G; [|done]. cbn [mbind option_bind] in H.
  destruct a; try done; injection Ha as <-.
  - case_bool_decide; [|by injection H as <-]. unfold EventSsdpReply in H. rewrite G in H. cbn [mbind option_bind] in H.
    unfold internal_candidate in H. cbn [notify later mbind option_bind] in H. cbn [gateway logged put mbind option_bind] in H.
    destruct (negb _); [injection H as <-; follow|]. destruct (internal_tryNextCandidate _ _) as [[t w1]|] eqn:E; [|done].
    injection H as <-. apply tryNext_goes in E; [follow|exact startDescription_goes].
  - case_bool_decide; [|by injection H as <-]. unfold internal_searchFinished in H. cbn [gateway put mbind option_bind] in H.
    destruct (negb _); [injection H as <-; follow|]. destruct (internal_tryNextCandidate _ _) as [[t w1]|] eqn:E; [|done].
    cbn [mbind option_bind] in H. apply tryNext_goes in E; [|exact startDescription_goes].
    destruct t; [injection H as <-; follow|]. apply internal_fail_goes in H. apply (onward_trans _ w1); [follow|exact H].
  - case_bool_decide; [|by injection H as <-]. apply EventHttpResponse_goes in H. follow.
  - case_bool_decide; [|by injection H as <-]. unfold EventHttpError in H. cbn [gateway put mbind option_bind] in H.
    case_bool_decide; [apply description_failed_goes in H|apply action_failed_goes in H]; try follow; [exact startDescription_goes|exact pump_goes].
  - destruct (deferred g); [|by injection H as <-]. unfold EventTimeout in H. rewrite G in H. cbn [mbind option_bind] in H.
    case_bool_decide; [apply internal_ready_goes in H|apply internal_fail_goes in H]; follow.
Qed.
End onward.

(** The actions that wait for an answer: this one, or none. *)
Definition lone (w : World unit) (o : option Z) : Prop := forall j, j ∈ waiting w -> o = Some j.

Lemma lone_calm own w w' o : calm own w w' -> next_id w' = next_id w -> good w' -> lone w o -> lone w' o.
Proof.
  intros Hc Hn (g & Hg & _) Hl j Hj. destruct (inv_known _ _ Hg j Hj) as [Hlt _].
  destruct (decide (j ∈ waiting w)) as [Hw|Hw]; [by apply Hl|].
  destruct (calm_settled _ _ _ Hc j) as [[_ Hs] _]; [split; [lia|done]|]. done.
Qed.

Lemma lone_settled w j : lone w (Some j) -> settled w j -> lone w None.
Proof. intros Hl [_ Hs] i Hi. specialize (Hl i Hi) as [= <-]. done. Qed.

(** *** What is heard of a gateway *)

Lemma on_gateway_nothing l : List.filter is_outcome l = [] -> forall b, fold_left on_gateway l b = b.
Proof. induction l as [|e l IH]; intros H b; [done|]. cbn in H |- *. destruct e; try done; by apply IH. Qed.

Definition found : Blocking := mkBlocking true false new_MapResult.
Definition lost (e : Error.t) : Blocking := mkBlocking false true (with_error e new_MapResult).

(** With one outcome at most, this one has heard nothing, of a gateway, or of an error. *)
Lemma on_gateway_outcome l : (length (List.filter is_outcome l) <= 1)%nat ->
  (List.filter is_outcome l = [] /\ fold_left on_gateway l new_Blocking = new_Blocking) \/
  (length (List.filter is_outcome l) = 1%nat /\
   (fold_left on_gateway l new_Blocking = found \/ exists e, fold_left on_gateway l new_Blocking = lost e)).
Proof.
  induction l as [|e l IH]; intros H; [by left|]. cbn in H |- *. destruct e as [|e| | | |]; cbn in H |- *; try by apply IH.
  - assert (List.filter is_outcome l = []) as E by (destruct (List.filter is_outcome l); [done|cbn in H; lia]).
    right. rewrite E. split; [done|]. left. by rewrite on_gateway_nothing.
  - assert (List.filter is_outcome l = []) as E by (destruct (List.filter is_outcome l); [done|cbn in H; lia]).
    right. rewrite E. split; [done|]. right. exists e. by rewrite on_gateway_nothing.
Qed.

Lemma since_grown w w' : log w `prefix_of` log w' -> log w' = log w ++ since w w'.
Proof. intros [l E]. unfold since. by rewrite E, drop_app_length. Qed.

Lemma outcomes_good (w : World unit) : good w -> (length (List.filter is_outcome (log w)) <= 1)%nat.
Proof. intros (g & Hg & _). pose proof (inv_outcome _ _ Hg) as H. unfold outcomes in H. rewrite H. destruct (reported g); lia. Qed.

(** After its outcome a gateway has no other. *)
Lemma since_nothing w w' : log w `prefix_of` log w' -> good w' -> length (List.filter is_outcome (log w)) = 1%nat -> List.filter is_outcome (since w w') = [].
Proof.
  intros Ho Hg H1. pose proof (outcomes_good _ Hg) as H2. rewrite (since_grown _ _ Ho), List.filter_app, length_app in H2.
  destruct (List.filter is_outcome (since w w')); [done|]. cbn in H2. lia.
Qed.

Section onward_requests.
Variable refused : Gateway.Request -> bool.

Lemma cancelAction_goes id : goes (internal_cancelAction refused later id).
Proof.
  intros w w' H. unfold internal_cancelAction in H. destruct (gateway w) as [g|]; [|done]. cbn [mbind option_bind] in H.
  case_bool_decide; [|injection H as <-; follow]. apply pump_goes in H. follow.
Qed.

Lemma destroy_goes id : goes (destroy_action refused later id).
Proof.
  intros w w' H. unfold destroy_action in H. destruct (store w !! id) as [a|]; [|done]. cbn [mbind option_bind] in H.
  destruct (a_gateway a).
  - destruct (internal_cancelAction _ _ _ _) as [w1|] eqn:E; [|done]. cbn [mbind option_bind] in H. destruct (store w1 !! id); [|done].
    apply cancelAction_goes in E. injection H as <-. destruct E. by split.
  - cbn [mbind option_bind] in H. destruct (store w !! id); [|done]. injection H as <-. follow.
Qed.

Lemma invoke_grows k name args w r w' : invoke refused later k name args w = Some (r, w') ->
  log w `prefix_of` log w' /\ match r with Some id => id = next_id w /\ next_id w' = next_id w + 1 | None => w' = w end.
Proof.
  intros H. unfold invoke in H. destruct (gateway w) as [g|]; [|done]. cbn [mbind option_bind] in H. destruct (negb _); [by injection H as <- <-|].
  case_bool_decide; cbn [mbind option_bind] in H; [|by injection H as <- <-].
  destruct (Gateway.pump _ _ _) as [w1|] eqn:E; [|done]. injection H as <- <-. apply pump_goes in E as [N L]. by split.
Qed.

(** An answered action goes without a word, and one that is alone too. *)
Lemma service_destroy_settled id w o : good w -> settled w id -> lone w o ->
  exists w', service_destroy refused id w = Some ([], w') /\ good w' /\ log w `prefix_of` log w' /\ lone w' o /\ forall j, settled w j -> settled w' j.
Proof.
  intros Hw Hs Hl. unfold service_destroy. case_bool_decide as Ha; [|by exists w].
  destruct (destroy_fine refused later later_well_behaved id w Hw Ha) as (w' & E & Hw' & Hc & _). rewrite E. cbn [mbind option_bind].
  destruct (destroy_goes id _ _ E) as [N L]. exists w'. unfold since. rewrite (destroy_settled refused later id w w' Hw Hs E), drop_all.
  split; [done|]. split; [done|]. split; [done|]. split; [by eapply lone_calm|]. intros j Hj. by apply (calm_settled _ _ _ Hc).
Qed.

Lemma service_destroy_lone id w : good w -> lone w (Some id) ->
  exists w', service_destroy refused id w = Some ([], w') /\ good w' /\ lone w' None.
Proof.
  intros Hw Hl. destruct (decide (id ∈ waiting w)) as [Hin|Hn].
  2: { destruct (decide (is_Some (store w !! id))) as [Ha|Ha].
       - destruct Hw as (g & Hg & Hm). destruct Ha as [a Ha]. destruct (inv_store _ _ Hg id a Ha) as [Hlt _].
         assert (good w) as Hw by (by exists g). destruct (service_destroy_settled id w None Hw) as (w' & ? & ? & _ & ? & _); [by split| |by exists w'].
         intros j Hj. specialize (Hl j Hj) as [= <-]. done.
       - exists w. unfold service_destroy. rewrite bool_decide_eq_false_2 by done. split; [done|]. split; [done|].
         intros j Hj. specialize (Hl j Hj) as [= <-]. done. }
  pose proof Hw as (g & Hg & Hb & Hm). destruct (inv_known _ _ Hg id Hin) as (Hlt & a & Ha & _).
  destruct (destroy_fine refused later later_well_behaved id w Hw) as (w' & E & Hw' & Hc & _); [by exists a|].
  destruct (destroy_goes id _ _ E) as [N L].
  assert (lone w' None) as Hl'.
  { intros j Hj. pose proof (lone_calm _ _ _ _ Hc N Hw' Hl j Hj) as [= <-]. exfalso.
    unfold destroy_action in E. rewrite Ha in E. cbn [mbind option_bind] in E. destruct (inv_store _ _ Hg id a Ha) as [_ Hag]. rewrite Hag in E.
    destruct (internal_cancelAction_fine refused later later_well_behaved id w Hw) as (w2 & E2 & _ & _ & Hn2 & _). rewrite E2 in E.
    cbn [mbind option_bind] in E. destruct (store w2 !! id); [|done]. injection E as <-. by apply Hn2. }
  assert (log w' = log w) as Elog.
  { unfold destroy_action in E. rewrite Ha in E. cbn [mbind option_bind] in E. destruct (inv_store _ _ Hg id a Ha) as [_ Hag]. rewrite Hag in E.
    rewrite (internal_cancelAction_unwait refused later id w g (inv_gateway _ _ Hg)) in E. cbv zeta in E.
    assert (pending g ⊆ [id]) as Hp.
    { intros j Hj. assert (j ∈ waiting w) as Hjw.
      { rewrite (waiting_of w g (inv_gateway _ _ Hg)). destruct (inflight g); [by apply list_elem_of_further|done]. }
      specialize (Hl j Hjw) as [= <-]. apply list_elem_of_here. }
    assert (filter (fun x => x <> id) (pending g) = []) as Ef.
    { destruct (filter _ (pending g)) as [|j l] eqn:Ef; [done|]. assert (j ∈ filter (fun x => x <> id) (pending g)) as Hj by (rewrite Ef; by constructor).
      apply list_elem_of_filter in Hj as [Hne Hj]. specialize (Hp j Hj). by apply list_elem_of_singleton in Hp. }
    rewrite Ef in E. destruct (bool_decide (inflight g = Some id)) eqn:Ei.
    - unfold Gateway.pump in E. cbn [gateway put mbind option_bind with_http with_queue pending length internal_pump] in E.
      destruct (_ || _) in E; cbn [mbind option_bind] in E; destruct (store _ !! id); try done; by injection E as <-.
    - cbn [mbind option_bind] in E. destruct (store _ !! id); [|done]. by injection E as <-. }
  exists w'. unfold service_destroy. rewrite bool_decide_eq_true_2 by (by exists a). rewrite E. cbn [mbind option_bind].
  unfold since. rewrite Elog, drop_all. done.
Qed.

(** A gateway can always be destroyed. *)
Lemma destroy_gateway_fine (w : World unit) : good w -> exists w', destroy_gateway w = Some w'.
Proof.
  intros (g & Hg & _). unfold destroy_gateway. rewrite (inv_gateway _ _ Hg). cbn [mbind option_bind].
  assert (forall ids s, Forall (fun id => is_Some (s !! id)) ids -> exists s', orphan_all ids s = Some s') as Ho.
  { induction ids as [|id ids IH]; intros s Hs; cbn [orphan_all]; [by exists s|]. apply Forall_cons in Hs as [[a Ha] Hs].
    unfold orphan. rewrite Ha. cbn [mbind option_bind]. apply IH. eapply Forall_impl; [exact Hs|]. intros j Hj.
    destruct (decide (id = j)) as [->|Hne]; [by rewrite lookup_insert_eq|by rewrite lookup_insert_ne]. }
  destruct (Ho (pending g ++ match inflight g with Some id => [id] | None => [] end) (store w)) as [s' ->]; [|by eexists].
  apply Forall_forall. intros id Hid. destruct (inv_known _ _ Hg id) as (_ & a & Ha & _); [|by exists a].
  rewrite (waiting_of w g (inv_gateway _ _ Hg)). destruct (inflight g); [|by rewrite app_nil_r in Hid].
  apply elem_of_app in Hid as [Hid|Hid%list_elem_of_singleton]; [by apply list_elem_of_further|subst; apply list_elem_of_here].
Qed.
End onward_requests.

(** ** A mapper with one call *)

(** What is asked for, as a request and as what answers it. *)
Inductive Question := QMap (protocol : PortMapper.Protocol) (internalPort : Z) | QUnmap (k : PortMapper.MappingKey) | QAddress.

Definition asks (q : Question) (r : PortMapper.Request) : Prop :=
  match q with
  | QMap p port => (PortMapper.kind r = PortMapper.Add \/ PortMapper.kind r = PortMapper.AddAny) /\
      PortMapper.protocol (PortMapper.mapping r) = p /\ PortMapper.internalPort (PortMapper.mapping r) = port
  | QUnmap k => PortMapper.kind r = PortMapper.Delete /\ PortMapper.r_key r = k
  | QAddress => PortMapper.kind r = PortMapper.ExternalAddress
  end.

Definition answers (q : Question) (e : PortMapper.Event) : Prop :=
  match e, q with
  | PortMapper.EventMapperError _ _ _, _ => True
  | PortMapper.EventMappingAdded m, QMap p port => PortMapper.protocol m = p /\ PortMapper.internalPort m = port
  | PortMapper.EventMappingRemoved k, QUnmap k' => k = k'
  | PortMapper.EventExternalAddress _, QAddress => True
  | _, _ => False
  end.

Section calls.
Variable inet_pton : Inet.Version -> bytes -> option bytes.
Variable inet_ntop : Inet.Version -> bytes -> option bytes.
Variable refused : Gateway.Request -> bool.
#[local] Instance calls_service : PortMapper.ActionService (World unit) := gateway_service inet_pton refused.
Local Abbreviation world := (PortMapper.World (World unit)).

(** From one world to the next: the gateway is fine, has said more, and what it is done
    with it stays done with. *)
Record sequel (w w' : world) : Prop := mkSequel {
  sq_good : good (PortMapper.service w');
  sq_log : log (PortMapper.service w) `prefix_of` log (PortMapper.service w');
  sq_settled : forall j, settled (PortMapper.service w) j -> settled (PortMapper.service w') j
}.

Lemma sequel_trans w1 w2 w3 : sequel w1 w2 -> sequel w2 w3 -> sequel w1 w3.
Proof. intros [G1 L1 S1] [G2 L2 S2]. constructor; [done|by etrans|]. intros j Hj. by apply S2, S1. Qed.

Lemma drop_one a (w : world) o : good (PortMapper.service w) -> (forall id, a = Some id -> settled (PortMapper.service w) id) ->
  lone (PortMapper.service w) o ->
  exists g, PortMapper.drop_action a w = Some (PortMapper.put_service g w) /\ sequel w (PortMapper.put_service g w) /\ lone g o.
Proof.
  intros Hg Ha Hl. destruct a as [id|]; cbn [PortMapper.drop_action].
  - destruct (service_destroy_settled refused id (PortMapper.service w) o Hg (Ha id eq_refl) Hl) as (g & E & ? & ? & ? & ?).
    cbn [PortMapper.as_destroy calls_service gateway_service]. rewrite E. cbn [mbind option_bind]. exists g. split; [done|]. by split.
  - exists (PortMapper.service w). split; [by destruct w|]. by split.
Qed.

Lemma finish_one e (w : world) r : PortMapper.requests (PortMapper.mapper w) = [(0, r)] -> good (PortMapper.service w) ->
  lone (PortMapper.service w) None -> (forall id, PortMapper.action r = Some id -> settled (PortMapper.service w) id) ->
  exists w', PortMapper.finish_with 0 e w = Some w' /\ sequel w w' /\ PortMapper.same_rest (PortMapper.mapper w) (PortMapper.mapper w') /\
    PortMapper.requests (PortMapper.mapper w') = [] /\ PortMapper.heard w' = PortMapper.heard w ++ [(0, e)] /\ lone (PortMapper.service w') None.
Proof.
  intros Hr Hg Hl Ha. unfold PortMapper.finish_with, PortMapper.internal_finish. rewrite Hr. cbn.
  destruct (drop_one (PortMapper.action r) (PortMapper.put (PortMapper.with_requests [] (PortMapper.mapper w)) w) None Hg Ha Hl) as (g & E & [G L S] & Hl').
  rewrite E. cbn [mbind option_bind]. eexists. split; [reflexivity|]. split; [by constructor|]. done.
Qed.

(** Asking: the call has a new action, or has ended for want of a service. *)
Lemma issue_one (w : world) r : PortMapper.requests (PortMapper.mapper w) = [(0, r)] -> good (PortMapper.service w) ->
  lone (PortMapper.service w) None -> (forall id, PortMapper.action r = Some id -> settled (PortMapper.service w) id) ->
  exists w', PortMapper.internal_issue inet_ntop 0 w = Some w' /\ sequel w w' /\ PortMapper.same_rest (PortMapper.mapper w) (PortMapper.mapper w') /\
    ((exists id, PortMapper.requests (PortMapper.mapper w') = [(0, PortMapper.with_action (Some id) r)] /\ PortMapper.heard w' = PortMapper.heard w /\
        lone (PortMapper.service w') (Some id) /\ next_id (PortMapper.service w) <= id) \/
     (PortMapper.requests (PortMapper.mapper w') = [] /\ lone (PortMapper.service w') None /\
        PortMapper.heard w' = PortMapper.heard w ++ [(0, PortMapper.EventMapperError Error.NoService DeviceError.Unknown 0)])).
Proof.
  intros Hr Hg Hl Ha. unfold PortMapper.internal_issue. rewrite Hr.
  change (PortMapper.lookup 0 [(0, r)]) with (Some r). cbn [mbind option_bind].
  destruct (PortMapper.request_action _ _ _) as [name args].
  set (k := if negb _ then _ else _).
  destruct (invoke_fine refused later later_well_behaved k name args (PortMapper.service w) Hg) as (ans & g1 & E & Hg1 & Hc & Hans).
  destruct (invoke_grows refused k name args _ _ _ E) as [Hlog Hnew].
  cbn [PortMapper.as_invoke calls_service gateway_service]. unfold service_invoke. rewrite E. cbn [mbind option_bind].
  set (o := match ans with Some id => Some id | None => None end).
  assert (lone g1 o) as Hl1.
  { destruct ans as [id|]; [|by rewrite Hnew]. destruct Hnew as [-> Hn]. intros j Hj. destruct Hg1 as (h & Hh & _).
    destruct (inv_known _ _ Hh j Hj) as [Hlt _]. destruct (decide (j = next_id (PortMapper.service w))) as [->|Hne]; [done|]. exfalso.
    destruct (calm_settled _ _ _ Hc j) as [[_ Hs] _]; [|done]. split; [lia|]. intros Hjw. by specialize (Hl j Hjw). }
  assert (forall j, settled (PortMapper.service w) j -> settled g1 j) as Hs1 by (intros j Hj; by apply (calm_settled _ _ _ Hc)).
  destruct ans as [id|].
  - destruct (drop_one (PortMapper.action r) (PortMapper.update 0 (PortMapper.with_action (Some id) r) (PortMapper.put_service g1 w)) (Some id) Hg1)
      as (g2 & E2 & [G2 L2 S2] & Hl2); [by intros i Hi; apply Hs1, Ha|done|].
    cbn [fmap option_fmap option_map fst]. rewrite E2. cbn [mbind option_bind]. eexists. split; [reflexivity|].
    split; [constructor; [done|by etrans; [exact Hlog|exact L2]|intros j Hj; by apply S2, Hs1]|]. split; [done|].
    left. exists id. split; [by cbn; rewrite Hr|]. split; [done|]. split; [done|]. destruct Hnew as [-> _]. lia.
  - destruct (drop_one (PortMapper.action r) (PortMapper.update 0 (PortMapper.with_action None r) (PortMapper.put_service g1 w)) None Hg1)
      as (g2 & E2 & [G2 L2 S2] & Hl2); [by intros i Hi; apply Hs1, Ha|done|].
    cbn [fmap option_fmap option_map fst]. rewrite E2. cbn [mbind option_bind].
    unfold PortMapper.internal_finish. cbn. rewrite Hr. cbn. eexists. split; [reflexivity|].
    split; [constructor; [done|by etrans; [exact Hlog|exact L2]|intros j Hj; by apply S2, Hs1]|]. split; [done|]. by right.
Qed.

(** *** Stages of a call *)

Definition second : Z := 1000000000.

(** Both are about a gateway that was found, and a mapper that is not shut down. *)
Record steady (w : world) : Prop := mkSteady {
  sd_good : good (PortMapper.service w);
  sd_found : length (List.filter is_outcome (log (PortMapper.service w))) = 1%nat;
  sd_options : PortMapper.options (PortMapper.mapper w) = PortMapper.default_Options
}.

(** The call is under way: it is the only one, and its action waits or is being answered. *)
Definition calling (q : Question) (w : world) : Prop :=
  steady w /\ PortMapper.renewal (PortMapper.mapper w) = None /\ PortMapper.heard w = [] /\
  exists r id, PortMapper.requests (PortMapper.mapper w) = [(0, r)] /\ PortMapper.action r = Some id /\ asks q r /\ lone (PortMapper.service w) (Some id).

(** The call was answered with [e], and a renewal is a second off at least. *)
Definition called (q : Question) (t : Z) (e : PortMapper.Event) (w : world) : Prop :=
  steady w /\ (forall d, PortMapper.renewal (PortMapper.mapper w) = Some d -> t + second <= d) /\ PortMapper.heard w = [(0, e)] /\
  PortMapper.requests (PortMapper.mapper w) = [] /\ lone (PortMapper.service w) None /\ answers q e.

Definition going (q : Question) (t : Z) (w : world) : Prop := calling q w \/ exists e, called q t e w.

Lemma steady_sequel (w w' : world) : steady w -> sequel w w' ->
  PortMapper.options (PortMapper.mapper w') = PortMapper.options (PortMapper.mapper w) -> steady w'.
Proof.
  intros [G F O] [G' L S] E. constructor; [done| |congruence].
  rewrite (since_grown _ _ L), List.filter_app, (since_nothing _ _ L G' F), app_nil_r. exact F.
Qed.

Lemma schedule_late now m (p : PortMapper.Mapper) : PortMapper.renewal p = None -> PortMapper.options p = PortMapper.default_Options ->
  (forall d, PortMapper.renewal (PortMapper.internal_scheduleRenewal now m p) = Some d -> now + second <= d) /\
  PortMapper.requests (PortMapper.internal_scheduleRenewal now m p) = PortMapper.requests p /\
  PortMapper.options (PortMapper.internal_scheduleRenewal now m p) = PortMapper.options p.
Proof.
  intros Hr Ho. unfold PortMapper.internal_scheduleRenewal, PortMapper.renewal_delay. rewrite Hr, Ho.
  destruct (_ || _); [split; [intros d Hd; congruence|done]|].
  assert (1000 <= PortMapper.lease_delay PortMapper.default_Options (PortMapper.lease m)) as Hd.
  { unfold PortMapper.lease_delay. destruct (_ <? 1000) eqn:E; lia. }
  unfold Timer.milliseconds, second. destruct (negb _); cbn; (split; [intros d [= <-]; lia|by rewrite Ho]).
Qed.

Lemma set_permanent_same b (g : World unit) : log (set_permanent b g) = log g /\ waiting (set_permanent b g) = waiting g /\ next_id (set_permanent b g) = next_id g.
Proof. unfold set_permanent. destruct (gateway g) as [h|] eqn:E; [|done]. unfold waiting. cbn. by rewrite E. Qed.

(** Ending the call. *)
Lemma end_one q t e (w : world) r m : steady w -> PortMapper.heard w = [] -> lone (PortMapper.service w) None ->
  (forall id, PortMapper.action r = Some id -> settled (PortMapper.service w) id) ->
  PortMapper.requests m = [(0, r)] -> PortMapper.options m = PortMapper.default_Options ->
  (forall d, PortMapper.renewal m = Some d -> t + second <= d) -> answers q e ->
  exists w', PortMapper.finish_with 0 e (PortMapper.put m w) = Some w' /\ sequel w w' /\ called q t e w'.
Proof.
  intros Hs Hh Hl Ha Hr Ho Hd Hq. destruct (finish_one e (PortMapper.put m w) r Hr (sd_good _ Hs) Hl Ha) as (w' & E & Hq' & (O & _ & _ & R & _) & Er & Eh & El).
  exists w'. split; [exact E|]. assert (sequel w w') as Hsq by (by destruct Hq').
  split; [exact Hsq|]. split; [apply (steady_sequel w); [done|done|rewrite O; cbn; by rewrite (sd_options _ Hs)]|].
  cbn in R, Eh. split; [rewrite R; exact Hd|]. by rewrite Eh, Hh.
Qed.

(** Asking again. *)
Lemma ask_again q t (w : world) r b : steady w -> PortMapper.renewal (PortMapper.mapper w) = None -> PortMapper.heard w = [] ->
  lone (PortMapper.service w) None -> (forall id, PortMapper.action r = Some id -> settled (PortMapper.service w) id) -> asks q r ->
  (exists r0, PortMapper.requests (PortMapper.mapper w) = [(0, r0)]) ->
  exists w', PortMapper.internal_issue inet_ntop 0 (PortMapper.put_service (if b : bool then set_permanent true (PortMapper.service w) else PortMapper.service w)
      (PortMapper.update 0 r w)) = Some w' /\ sequel w w' /\ going q t w'.
Proof.
  intros Hs Hn Hh Hl Ha Hq (r0 & Hr). set (g := if b then _ else _). set (w1 := PortMapper.put_service g _).
  assert (good g /\ log g = log (PortMapper.service w) /\ waiting g = waiting (PortMapper.service w) /\ next_id g = next_id (PortMapper.service w)) as (Hg & Elog & Ew & En).
  { unfold g. destruct b; [|by destruct Hs]. split; [|apply set_permanent_same].
    apply (PortMapper.as_set_ok (ActionService := calls_service) true (PortMapper.service w) (sd_good _ Hs)). }
  assert (forall j, settled (PortMapper.service w) j -> settled g j) as Hk by (intros j; unfold settled; by rewrite Ew, En).
  destruct (issue_one w1 r) as (w' & E & [G L S] & (O & _ & _ & R & _) & Hcase).
  - unfold w1. cbn. by rewrite Hr.
  - done.
  - intros j Hj. cbn in Hj. rewrite Ew in Hj. by apply Hl.
  - intros id Hid. by apply Hk, Ha.
  - exists w'. split; [exact E|]. assert (sequel w w') as Hsq.
    { constructor; [done|by rewrite <- Elog|]. intros j Hj. by apply S, Hk. }
    split; [exact Hsq|]. cbn in O, R. assert (steady w') as Hst by (by apply (steady_sequel w)).
    destruct Hcase as [(id & Er & Eh & El & _)|(Er & El & Eh)]; cbn in Eh; rewrite Hh in Eh.
    + left. split; [done|]. split; [congruence|]. split; [done|]. exists (PortMapper.with_action (Some id) r), id. split; [done|]. split; [done|].
      split; [|done]. by destruct q.
    + right. eexists. split; [done|]. split; [intros d Hd; congruence|]. split; [exact Eh|]. split; [done|]. by split; [|destruct q].
Qed.

(** *** Answers *)

Lemma owner_one id (w : world) r : PortMapper.requests (PortMapper.mapper w) = [(0, r)] ->
  PortMapper.owner id w = if bool_decide (PortMapper.action r = Some id) then Some (0, r) else None.
Proof. intros Hr. unfold PortMapper.owner. rewrite Hr. cbn. by case_bool_decide. Qed.

Lemma owner_none id (w : world) : PortMapper.requests (PortMapper.mapper w) = [] -> PortMapper.owner id w = None.
Proof. intros Hr. unfold PortMapper.owner. by rewrite Hr. Qed.

Lemma granted_same r result : PortMapper.protocol (PortMapper.granted_mapping r result) = PortMapper.protocol (PortMapper.mapping r) /\
  PortMapper.internalPort (PortMapper.granted_mapping r result) = PortMapper.internalPort (PortMapper.mapping r).
Proof. unfold PortMapper.granted_mapping. repeat case_match; done. Qed.

Section answer.
Variable q : Question.
Variables t now : Z.
Hypothesis Hnow : t <= now.
Variable w : world.
Hypothesis Hc : calling q w.

Local Abbreviation outcome r := (exists w', r = Some w' /\ sequel w w' /\ going q t w').

Lemma steady_same : steady w -> outcome (Some w).
Proof. intros Hs. exists w. split; [done|]. split; [by destruct Hs|]. by left. Qed.

Lemma one_response id result : settled (PortMapper.service w) id -> outcome (PortMapper.EventActionResponse inet_pton inet_ntop now id result w).
Proof.
  intros Hid. destruct Hc as (Hs & Hn & Hh & r & a & Hr & Ha & Hq & Hl). unfold PortMapper.EventActionResponse. rewrite (owner_one id w r Hr).
  case_bool_decide as E; [|by apply steady_same]. rewrite Ha in E. injection E as ->. pose proof (lone_settled _ _ Hl Hid) as Hl0.
  assert (forall i, PortMapper.action r = Some i -> settled (PortMapper.service w) i) as Hset by (intros i Hi; congruence).
  assert (forall e m, PortMapper.requests m = [(0, r)] -> PortMapper.options m = PortMapper.default_Options ->
    (forall d, PortMapper.renewal m = Some d -> now + second <= d) -> answers q e -> outcome (PortMapper.finish_with 0 e (PortMapper.put m w))) as Hend.
  { intros e m H1 H2 H3 H4. destruct (end_one q t e w r m) as (w' & E & ? & ?); try done; [|exists w'; split; [done|]; split; [done|]; right; by exists e].
    intros d Hd. specialize (H3 d Hd). lia. }
  destruct q as [p port|k|]; cbn [asks] in Hq.
  - destruct Hq as (Hk & Hp & Hi). destruct (granted_same r result) as [G1 G2].
    assert (PortMapper.options (PortMapper.with_held (PortMapper.hold (PortMapper.granted_mapping r result) (PortMapper.held (PortMapper.mapper w))) (PortMapper.mapper w)) = PortMapper.default_Options) as Ho by apply Hs.
    destruct (schedule_late now (PortMapper.granted_mapping r result) (PortMapper.with_held (PortMapper.hold (PortMapper.granted_mapping r result) (PortMapper.held (PortMapper.mapper w))) (PortMapper.mapper w)) Hn Ho) as (L1 & L2 & L3).
    destruct Hk as [Hk|Hk]; rewrite Hk; (rewrite bool_decide_eq_false_2 by done); apply Hend; try done; try (by rewrite L2); try (by rewrite L3);
      cbn [answers]; by rewrite G1, G2.
  - destruct Hq as [Hk ->]. rewrite Hk. apply Hend; try done; [apply Hs|]. intros d Hd. cbn in Hd. congruence.
  - rewrite Hq. destruct (Hend (PortMapper.EventExternalAddress (new_InetAddress inet_pton (result_value (lit "NewExternalIPAddress") result))) (PortMapper.mapper w)) as (w' & E & ?);
      [done|apply Hs|intros d Hd; congruence|done|]. exists w'. by destruct w.
Qed.

Lemma one_failure id e : settled (PortMapper.service w) id -> outcome (PortMapper.EventActionError id e w).
Proof.
  intros Hid. destruct Hc as (Hs & Hn & Hh & r & a & Hr & Ha & Hq & Hl). unfold PortMapper.EventActionError. rewrite (owner_one id w r Hr).
  case_bool_decide as E; [|by apply steady_same]. rewrite Ha in E. injection E as ->.
  destruct (end_one q t (PortMapper.EventMapperError e DeviceError.Unknown 0) w r (PortMapper.mapper w)) as (w' & E & ? & ?); try done;
    [by eapply lone_settled|intros i Hi; congruence|apply Hs|intros d Hd; congruence|].
  exists w'. split; [by destruct w|]. split; [done|]. right. by eexists.
Qed.

Lemma one_fault id error code : settled (PortMapper.service w) id -> outcome (PortMapper.EventActionFault inet_ntop id error code w).
Proof.
  intros Hid. destruct Hc as (Hs & Hn & Hh & r & a & Hr & Ha & Hq & Hl). unfold PortMapper.EventActionFault. rewrite (owner_one id w r Hr).
  case_bool_decide as E; [|by apply steady_same]. rewrite Ha in E. injection E as ->. pose proof (lone_settled _ _ Hl Hid) as Hl0.
  assert (forall i, PortMapper.action r = Some i -> settled (PortMapper.service w) i) as Hset by (intros i Hi; congruence).
  assert (forall r' b, PortMapper.action r' = PortMapper.action r -> asks q r' ->
    outcome (PortMapper.internal_issue inet_ntop 0 (PortMapper.put_service (if b : bool then set_permanent true (PortMapper.service w) else PortMapper.service w) (PortMapper.update 0 r' w)))) as Hask.
  { intros r' b H1 H2. apply (ask_again q t w r' b); try done; [|by exists r]. intros i Hi. apply Hset. congruence. }
  destruct (_ && _ && _ && _ && _).
  { apply (Hask _ true); [done|]. destruct q; cbn in Hq |- *; done. }
  destruct (_ && _ && _).
  { apply (Hask _ false); [done|]. destruct q; cbn in Hq |- *; done. }
  destruct (_ && _ && _ && _).
  { apply (Hask _ false); [done|]. destruct q; cbn in Hq |- *; done. }
  assert (bool_decide (PortMapper.kind r = PortMapper.List) = false /\ bool_decide (PortMapper.kind r = PortMapper.Renew) = false) as [-> ->].
  { split; apply bool_decide_eq_false_2; destruct q as [p port|k|]; cbn in Hq; [destruct Hq as [[-> | ->] _]|destruct Hq as [-> _]|rewrite Hq|destruct Hq as [[-> | ->] _]|destruct Hq as [-> _]|rewrite Hq]; done. }
  cbn [andb]. destruct (end_one q t (PortMapper.EventMapperError Error.Device error code) w r (PortMapper.mapper w)) as (w' & E & ? & ?); try done;
    [apply Hs|intros d Hd; congruence|].
  exists w'. split; [by destruct w|]. split; [done|]. right. by eexists.
Qed.
End answer.

(** What the gateway says moves the call on, or says nothing to it. *)
Lemma hear_going q t now e (w : world) : t <= now -> going q t w -> (forall id, concerns e = Some id -> settled (PortMapper.service w) id) ->
  exists w', hear inet_pton refused inet_ntop now e w = Some w' /\ sequel w w' /\ going q t w' /\ (calling q w \/ w' = w).
Proof.
  intros Ht [Hc|[a Ha]] He.
  - assert (exists w', Some w = Some w' /\ sequel w w' /\ going q t w') as Hsame by (apply steady_same; [done|by destruct Hc]).
    assert (forall r, (exists w', r = Some w' /\ sequel w w' /\ going q t w') -> exists w', r = Some w' /\ sequel w w' /\ going q t w' /\ (calling q w \/ w' = w)) as Hx.
    { intros r (w' & E & H1 & H2). exists w'. split; [done|]. split; [done|]. split; [done|]. by left. }
    destruct e; cbn [hear]; apply Hx; try done; [apply one_response|apply one_fault|apply one_failure]; try done; by apply He.
  - assert (exists w', Some w = Some w' /\ sequel w w' /\ going q t w' /\ (calling q w \/ w' = w)) as Hsame.
    { exists w. split; [done|]. split; [destruct Ha as [[] _]; done|]. split; [right; by exists a|by right]. }
    assert (PortMapper.requests (PortMapper.mapper w) = []) as Hr by apply Ha.
    destruct e; cbn [hear]; try done; unfold PortMapper.EventActionResponse, PortMapper.EventActionFault, PortMapper.EventActionError;
      by rewrite owner_none.
Qed.

Lemma hear_all_going q t now es : t <= now -> forall w : world, going q t w ->
  Forall (fun e => forall id, concerns e = Some id -> settled (PortMapper.service w) id) es ->
  exists w', hear_all inet_pton refused inet_ntop now es w = Some w' /\ sequel w w' /\ going q t w' /\ (calling q w \/ w' = w).
Proof.
  intros Ht. induction es as [|e es IH]; intros w Hw Hes; cbn [hear_all].
  { exists w. split; [done|]. split; [|split; [done|by right]]. destruct Hw as [(Hs & _)|(e & Hs & _)]; by destruct Hs. }
  apply Forall_cons in Hes as [He Hes]. destruct (hear_going q t now e w Ht Hw He) as (w1 & -> & H1 & Hw1 & Hor). cbn [mbind option_bind].
  destruct (IH w1 Hw1) as (w2 & E & H2 & Hw2 & Hor2).
  { eapply Forall_impl; [exact Hes|]. intros e' He' id Hid. by apply (sq_settled _ _ H1), He'. }
  exists w2. split; [done|]. split; [by eapply sequel_trans|]. split; [done|]. destruct Hor as [Hx|Hx]; [by left|by subst w1].
Qed.

(** *** Turns of the loop *)

(** What this one knows follows what the mapper said. *)
Definition stage (q : Question) (t : Z) (s : world * Blocking) : Prop :=
  (calling q s.1 /\ s.2 = found) \/ exists e, called q t e s.1 /\ s.2 = on_mapper found e.

Lemma answers_done q e b : answers q e -> done (on_mapper b e) = true.
Proof. by destruct e, q. Qed.

(** After a call has moved on, what was heard of it. *)
Lemma stage_next q t (w w' : world) : calling q w -> log (PortMapper.service w) `prefix_of` log (PortMapper.service w') -> going q t w' ->
  stage q t (w', fold_left on_mapper (said w w') (fold_left on_gateway (since (PortMapper.service w) (PortMapper.service w')) found)).
Proof.
  intros (Hs & _ & Hh & _) L Hw. assert (good (PortMapper.service w')) as G by (destruct Hw as [(S & _)|(e & S & _)]; apply S).
  rewrite (on_gateway_nothing _ (since_nothing _ _ L G (sd_found _ Hs))). unfold said. rewrite Hh. cbn [length drop].
  destruct Hw as [H|[e H]].
  - left. split; [exact H|]. destruct H as (_ & _ & -> & _). done.
  - right. exists e. split; [exact H|]. destruct H as (_ & _ & -> & _). done.
Qed.

Lemma said_same (w : world) : said w w = [] /\ since (PortMapper.service w) (PortMapper.service w) = [].
Proof. unfold said, since. by rewrite !drop_all. Qed.

Lemma stack_stage q t now a s : t <= now < t + second -> stage q t s ->
  exists s', stack_arrival inet_pton inet_ntop refused now a s = Some s' /\ stage q t s'.
Proof.
  intros Ht Hs. destruct s as [w b]. unfold stage in Hs. cbn [fst snd] in Hs. unfold stack_arrival. cbn [fst snd].
  assert (steady w) as Hst by (destruct Hs as [[(S & _) _]|(e & (S & _) & _)]; apply S).
  destruct (to_gateway a) as [i|] eqn:Ei.
  - destruct (perform_fine inet_pton refused later later_well_behaved i (PortMapper.service w) (sd_good _ Hst)) as (g & E & Hg & Hc).
    destruct (arrival_goes inet_pton refused a i Ei _ _ E) as [N L]. cbn [take_step]. rewrite E. cbn [mbind option_bind].
    set (w1 := PortMapper.put_service g w).
    assert (forall j, settled (PortMapper.service w) j -> settled g j) as Hk by (intros j Hj; by apply (calm_settled _ _ _ Hc)).
    assert (sequel w w1) as Hq by (by constructor). assert (steady w1) as Hst1 by (by apply (steady_sequel w)).
    pose proof (since_settled (PortMapper.service w) g Hg) as Hsince.
    destruct Hs as [[Hcall ->]|(e & He & ->)].
    + assert (calling q w1) as Hc1.
      { destruct Hcall as (_ & Hn & Hh & r & id & Hr & Ha & Hq' & Hl). split; [done|]. split; [done|]. split; [done|].
        exists r, id. split; [done|]. split; [done|]. split; [done|]. by eapply lone_calm. }
      destruct (hear_all_going q t now (since (PortMapper.service w) g) ltac:(lia) w1 (or_introl Hc1) Hsince) as (w' & -> & H1 & Hw' & _).
      cbn [mbind option_bind]. eexists. split; [reflexivity|]. apply stage_next; [done| |done].
      etrans; [exact L|]. by destruct H1.
    + assert (called q t e w1) as Hc1.
      { destruct He as (_ & Hn & Hh & Hr & Hl & Ha). split; [done|]. split; [done|]. split; [done|]. split; [done|]. split; [|done].
        by eapply lone_calm. }
      destruct (hear_all_going q t now (since (PortMapper.service w) g) ltac:(lia) w1 (or_intror (ex_intro _ e Hc1)) Hsince) as (w' & -> & H1 & Hw' & Hor).
      assert (w' = w1) as ->.
      { destruct Hor as [(_ & _ & Hx & _)|Hx]; [|done]. destruct Hc1 as (_ & _ & Hy & _). congruence. }
      cbn [mbind option_bind]. eexists. split; [reflexivity|].
      change (PortMapper.service w1) with g. rewrite (on_gateway_nothing _ (since_nothing _ _ L Hg (sd_found _ Hst))).
      replace (said w w1) with ([] : list PortMapper.Event) by (unfold said; cbn; by rewrite drop_all). right. by exists e.
  - assert (fires now w = false) as ->.
    { unfold fires. destruct Hs as [[(_ & -> & _) _]|(e & (_ & Hd & _) & _)]; [done|]. destruct (PortMapper.renewal _) as [d|]; [|done].
      specialize (Hd d eq_refl). apply Z.leb_gt. lia. }
    cbn [mbind option_bind]. destruct (said_same w) as [-> ->]. cbn [fold_left]. eexists. split; [reflexivity|]. exact Hs.
Qed.

Lemma stack_all q t l s : Forall (fun x => t <= x.1 < t + second) l -> stage q t s ->
  exists s', arrive_all (stack_arrival inet_pton inet_ntop refused) l s = Some s' /\ stage q t s'.
Proof.
  intros Hl. revert s. induction Hl as [|[now a] l Ha _ IH]; intros s Hs; cbn [arrive_all]; [by exists s|].
  destruct (stack_stage q t now a s Ha Hs) as (s1 & -> & Hs1). cbn [mbind option_bind]. by apply IH.
Qed.
End calls.

(** A loop whose body keeps an invariant and whose clock passes the deadline ends. *)
Lemma pump_ends {W} (finished : W -> bool) arrive turns deadline n (I : W -> Prop) :
  deadline <= t_now (turns n) ->
  (forall k w, I w -> finished w = false -> exists w', arrive_all arrive (t_wait (turns k) (slice_of (t_next (turns k))) ++ t_process (turns k)) w = Some w' /\ I w') ->
  forall fuel k w, (k <= n)%nat -> (n - k < fuel)%nat -> I w ->
  exists k' w', pump_until finished arrive fuel turns deadline k w = Some (k', w') /\ I w' /\ (k <= k' <= n)%nat.
Proof.
  intros Hn Hstep. induction fuel as [|fuel IH]; intros k w Hk Hf Hw; [lia|]. cbn [pump_until].
  destruct (finished w) eqn:E; cbn [orb]; [by exists k, w|].
  destruct (Z.leb_spec deadline (t_now (turns k))) as [Hd|Hd]; [by exists k, w|].
  destruct (Hstep k w Hw E) as (w1 & -> & Hw1). cbn [mbind option_bind].
  assert (k <> n) by (intros ->; lia). destruct (IH (S k) w1) as (k' & w' & E' & ? & ?); [lia|lia|done|].
  exists k', w'. split; [done|]. split; [done|lia].
Qed.

Section reaching.
Variable inet_pton : Inet.Version -> bytes -> option bytes.
Variable inet_ntop : Inet.Version -> bytes -> option bytes.
Variable refused : Gateway.Request -> bool.
#[local] Instance reaching_service : PortMapper.ActionService (World unit) := gateway_service inet_pton refused.
Local Abbreviation world := (PortMapper.World (World unit)).

(** *** Reaching a gateway *)

Lemma begun started now c : exists w, begin_gateway inet_pton refused started now c = Some w /\ good w /\ lone w None.
Proof.
  assert (forall g, pending g = [] -> inflight g = None -> reported g = false -> (early g -> description (facts g) = []) ->
    state g <> Failed -> good (put g (nothing tt)) /\ lone (put g (nothing tt)) None) as Hgood.
  { intros g Hp Hi Hr He Hf. split; [exists g; split; [by apply start_good|]; split; [by unfold busy; rewrite Hi|done]|].
    intros j Hj. unfold waiting in Hj. cbn in Hj. rewrite Hi, Hp in Hj. by apply not_elem_of_nil in Hj. }
  unfold begin_gateway. destruct (_ && _); [|destruct (valid _)].
  - unfold attach. eexists. split; [reflexivity|]. destruct (negb _); [by apply Hgood|].
    destruct (classify _) as [[k v]|]; apply Hgood; try done. by intros [|[|]].
  - unfold describe. case_match; [eexists; (split; [reflexivity|]); by apply Hgood|].
    destruct (Hgood (new_Gateway inet_pton)) as [[g [Hg Hm]] Hl]; [done|done|done|done|done|].
    destruct (startDescription_fine refused later later_well_behaved 1 (configured_location c) (put (new_Gateway inet_pton) (nothing tt)) (new_Gateway inet_pton))
      as (w & E & Hw & Hc); [by apply start_good|by left|cbn; lia|]. exists w. split; [exact E|]. split; [done|].
    apply (lone_calm _ _ _ _ Hc); [|done|done]. by destruct (startDescription_goes _ _ _ _ E).
  - unfold discover. destruct started; cbn [negb]; eexists; (split; [reflexivity|]); by apply Hgood.
Qed.

(** What this one knows is what the gateway said. *)
Definition heeding (s : World unit * Blocking) : Prop := good s.1 /\ lone s.1 None /\ s.2 = fold_left on_gateway (log s.1) new_Blocking.

Lemma gateway_heeding now a s : heeding s -> exists s', gateway_arrival inet_pton refused now a s = Some s' /\ heeding s'.
Proof.
  intros (Hg & Hl & Hb). destruct s as [w b]. cbn [fst snd] in *. unfold gateway_arrival. cbn [fst snd].
  destruct (to_gateway a) as [i|] eqn:Ei; [|by exists (w, b)].
  destruct (perform_fine inet_pton refused later later_well_behaved i w Hg) as (w' & E & Hw' & Hc). rewrite E. cbn [mbind option_bind].
  destruct (arrival_goes inet_pton refused a i Ei _ _ E) as [N L]. eexists. split; [reflexivity|]. split; [done|]. split; [by eapply lone_calm|].
  cbn [fst snd]. by rewrite (since_grown _ _ L), fold_left_app, Hb.
Qed.

Lemma gateway_all l s : heeding s -> exists s', arrive_all (gateway_arrival inet_pton refused) l s = Some s' /\ heeding s'.
Proof.
  revert s. induction l as [|[now a] l IH]; intros s Hs; cbn [arrive_all]; [by exists s|].
  destruct (gateway_heeding now a s Hs) as (s1 & -> & Hs1). cbn [mbind option_bind]. by apply IH.
Qed.

(** A gateway is found, or there is an error and nothing is kept of one. *)
Lemma reach_fine turns started now deadline n c : deadline <= t_now (turns n) ->
  exists turn reached state c', reach_gateway inet_pton refused (S n) turns started now deadline new_Blocking c = Some (turn, reached, state, c') /\
    (turn <= n)%nat /\ configured_location c' = configured_location c /\
    match reached with
    | None => error (result state) <> Error.None /\ cached_gateway c' = no_info inet_pton
    | Some w => state = found /\ good w /\ lone w None /\ length (List.filter is_outcome (log w)) = 1%nat /\
        exists g, gateway w = Some g /\ cached_gateway c' = info inet_pton g
    end.
Proof.
  intros Hn. unfold reach_gateway. destruct (begun started now c) as (w0 & -> & Hg0 & Hl0). cbn [mbind option_bind].
  destruct (pump_ends (fun s => ready s.2 || done s.2) (gateway_arrival inet_pton refused) turns deadline n heeding Hn) with (fuel := S n) (k := 0%nat)
    (w := (w0, fold_left on_gateway (log w0) new_Blocking)) as (turn & [w b] & -> & (Hg & Hl & Hb) & Hk);
    [intros k s Hs _; by apply gateway_all|lia|lia|done|].
  cbn [mbind option_bind fst snd] in *. subst b.
  destruct (on_gateway_outcome (log w) (outcomes_good w Hg)) as [[_ ->]|[H1 [->|[e ->]]]].
  - cbn [ready new_Blocking negb]. destruct (destroy_gateway_fine w Hg) as [w' ->]. cbn [mbind option_bind].
    eexists _, None, _, _. split; [reflexivity|]. split; [lia|]. done.
  - cbn [ready found negb]. pose proof Hg as (g & Hgi & _). rewrite (inv_gateway _ _ Hgi). cbn [mbind option_bind].
    eexists _, (Some w), _, _. split; [reflexivity|]. split; [lia|]. split; [done|]. split; [done|]. split; [done|]. split; [done|]. split; [done|].
    exists g. split; [apply (inv_gateway _ _ Hgi)|done].
  - cbn [ready lost negb]. destruct (destroy_gateway_fine w Hg) as [w' ->]. cbn [mbind option_bind].
    eexists _, None, _, _. split; [reflexivity|]. split; [lia|]. split; [done|]. split; [|done]. cbn. by case_bool_decide.
Qed.

(** *** Asking *)

Lemma started_call q t (g : World unit) r : good g -> lone g None -> length (List.filter is_outcome (log g)) = 1%nat ->
  PortMapper.action r = None -> asks q r ->
  let w := PortMapper.mkWorld (PortMapper.new_PortMapper PortMapper.default_Options) g [] in
  exists w', PortMapper.internal_start inet_ntop r w = Some w' /\ going q t w' /\ log g `prefix_of` log (PortMapper.service w') /\
    stage q t (w', fold_left on_mapper (said w w') (fold_left on_gateway (since g (PortMapper.service w')) found)).
Proof.
  intros Hg Hl Hf Ha Hq w. unfold PortMapper.internal_start. cbn [w PortMapper.mapper PortMapper.new_PortMapper PortMapper.next_call PortMapper.requests app].
  set (w1 := PortMapper.put _ _). destruct (issue_one inet_pton inet_ntop refused w1 r) as (w' & E & [G L S] & (O & _ & _ & R & _) & Hcase);
    [done|done|done|by intros id Hid; rewrite Ha in Hid|].
  exists w'. split; [exact E|]. cbn in O, R, L.
  assert (steady w') as Hs.
  { constructor; [done| |done]. rewrite (since_grown _ _ L), List.filter_app, (since_nothing _ _ L G Hf), app_nil_r. exact Hf. }
  unfold said. cbn [w PortMapper.heard length drop]. rewrite (on_gateway_nothing _ (since_nothing _ _ L G Hf)).
  destruct Hcase as [(id & Er & Eh & El & _)|(Er & El & Eh)]; cbn in Eh; rewrite Eh; cbn [map snd fold_left].
  - assert (calling q w') as Hc.
    { split; [done|]. split; [done|]. split; [done|]. exists (PortMapper.with_action (Some id) r), id. split; [done|]. split; [done|]. split; [|done]. by destruct q. }
    split; [by left|]. split; [done|]. by left.
  - assert (called q t (PortMapper.EventMapperError Error.NoService DeviceError.Unknown 0) w') as Hc.
    { split; [done|]. split; [intros d Hd; congruence|]. split; [done|]. split; [done|]. split; [done|]. by destruct q. }
    split; [right; by eexists|]. split; [done|]. right. by eexists.
Qed.

(** What is left can be destroyed. *)
Lemma stage_destroyed q t (w : world) b : stage q t (w, b) ->
  exists w' g, destroy_mapper inet_pton refused w = Some w' /\ destroy_gateway (PortMapper.service w') = Some g /\ PortMapper.heard w' = PortMapper.heard w.
Proof.
  intros Hs. unfold stage in Hs. cbn [fst snd] in Hs. unfold destroy_mapper. destruct Hs as [[(Hs & _ & _ & r & id & Hr & Ha & _ & Hl) _]|(e & (Hs & _ & _ & Hr & _) & _)];
    rewrite Hr; cbn [PortMapper.drop_all].
  - rewrite Ha. cbn [PortMapper.drop_action]. destruct (service_destroy_lone refused id (PortMapper.service w) (sd_good _ Hs) Hl) as (g & E & Hg & _).
    cbn [PortMapper.as_destroy service gateway_service PortMapper.service PortMapper.put]. rewrite E. cbn [mbind option_bind].
    destruct (destroy_gateway_fine g Hg) as [g' Hd]. by eexists _, g'.
  - destruct (destroy_gateway_fine (PortMapper.service w) (sd_good _ Hs)) as [g' Hd]. by eexists _, g'.
Qed.

(** *** The calls *)

Inductive Call :=
  | MapPort (protocol : PortMapper.Protocol) (internalPort externalPort : Z) (description : bytes) (lease : Z)
  | UnmapPort (protocol : PortMapper.Protocol) (externalPort : Z)
  | AskAddress.

Definition question (call : Call) : Question :=
  match call with
  | MapPort p port _ _ _ => QMap p port
  | UnmapPort p port => QUnmap (PortMapper.mkKey p port [])
  | AskAddress => QAddress
  end.

Definition run_call (call : Call) (timeout : Z) (fuel : nat) (turns : nat -> Turn) (started : bool) (now : Z) (c : Cache) : option Outcome :=
  match call with
  | MapPort p port external d l => mapPortBlocking inet_pton inet_ntop refused p port external d l timeout fuel turns started now c
  | UnmapPort p port => unmapPortBlocking inet_pton inet_ntop refused p port timeout fuel turns started now c
  | AskAddress => getExternalAddressBlocking inet_pton inet_ntop refused timeout fuel turns started now c
  end.

Definition quick (turns : nat -> Turn) : Prop :=
  forall k, Forall (fun x => t_now (turns k) <= x.1 < t_now (turns k) + second) (t_wait (turns k) (slice_of (t_next (turns k))) ++ t_process (turns k)).

Definition call_outcome (call : Call) (c : Cache) (o : option Outcome) : Prop :=
  exists r c' l, o = Some (mkOutcome r c' l) /\ inside_blocking_call c' = false /\ configured_location c' = configured_location c /\
    match l with
    | None => error r <> Error.None /\ cached_gateway c' = no_info inet_pton
    | Some l => (l = [] /\ r = with_error Error.Network new_MapResult) \/
        exists e, l = [(0, e)] /\ answers (question call) e /\ r = result (on_mapper found e)
    end.

Lemma blocking_fine call ask timeout turns started now c n : inside_blocking_call c = false -> now + Timer.milliseconds timeout <= t_now (turns n) -> quick turns ->
  (forall w : world, exists r, PortMapper.action r = None /\ asks (question call) r /\ ask w = PortMapper.internal_start inet_ntop r w) ->
  call_outcome call c (blocking inet_pton inet_ntop refused ask timeout (S n) turns started now c).
Proof.
  intros Hi Hn Hq Hask. unfold blocking, call_outcome. rewrite Hi.
  destruct (reach_fine turns started now (now + Timer.milliseconds timeout) n (guard true c) Hn) as (turn & reached & state & c' & -> & Hturn & Hcl & Hr).
  cbn [mbind option_bind]. destruct reached as [g|]; [|by eexists _, _, None].
  destruct Hr as (-> & Hg & Hl & Hf & _). cbv zeta. set (w0 := PortMapper.mkWorld _ g []).
  destruct (Hask w0) as (r & Ha & Hqr & ->).
  destruct (started_call (question call) 0 g r Hg Hl Hf Ha Hqr) as (w1 & E & _ & _ & Hst). fold w0 in E, Hst. rewrite E. cbn [mbind option_bind].
  destruct (pump_ends (fun s : world * Blocking => done s.2) (stack_arrival inet_pton inet_ntop refused) turns (now + Timer.milliseconds timeout) n
    (fun s => exists t, stage (question call) t s) Hn) with (fuel := S n) (k := turn)
    (w := (w1, fold_left on_mapper (said w0 w1) (fold_left on_gateway (since g (PortMapper.service w1)) found)))
    as (turn' & [w2 b] & -> & [t Hs] & _); [|lia|lia|by exists 0|].
  { intros k s [t Hs] Hd. destruct (stack_all inet_pton inet_ntop refused (question call) (t_now (turns k)) _ s (Hq k)) as (s' & Es & Hs').
    - destruct Hs as [Hs|(e & He & Hb)]; [by left|]. destruct He as (_ & _ & _ & _ & _ & Hans). rewrite Hb, (answers_done _ _ _ Hans) in Hd. done.
    - exists s'. split; [done|]. by eexists. }
  cbn [mbind option_bind]. destruct (stage_destroyed _ _ _ _ Hs) as (w3 & g3 & -> & Hd & Hh). cbn [mbind option_bind]. rewrite Hd. cbn [mbind option_bind].
  rewrite Hh. eexists _, _, (Some _). split; [reflexivity|]. split; [done|]. split; [done|].
  unfold stage in Hs. cbn [fst snd] in Hs. destruct Hs as [[(_ & _ & -> & _) ->]|(e & (_ & _ & -> & _ & _ & Hans) & ->)]; [by left|].
  right. exists e. rewrite (answers_done _ _ _ Hans). done.
Qed.

(** C6. A blocking call comes back: once the clock has passed its deadline at the start of
    some turn, whatever sockets and timers bring in the turns before - replies,
    descriptions and responses of any bytes, errors and timeouts, a gateway that fails -
    with the guard released and everything it made destroyed, nothing dangling being
    followed. A call inside another is refused at once and changes nothing. If no gateway
    was found there is an error, and the cache is forgotten. Otherwise the result is what
    the mapper reported of this call, once, or a network error if it reported nothing: a
    mapping that is said to be added is one that was granted for this protocol and this
    internal port, one that is said to be removed the one asked about. A turn is relied on
    to take less than a second. *)
Theorem blocking_answers call timeout turns started now c n :
  now + Timer.milliseconds timeout <= t_now (turns n) -> quick turns ->
  if inside_blocking_call c
  then run_call call timeout (S n) turns started now c = Some (mkOutcome (with_error Error.Reentrant new_MapResult) c None)
  else call_outcome call c (run_call call timeout (S n) turns started now c).
Proof.
  intros Hn Hq. destruct (inside_blocking_call c) eqn:Hi.
  - destruct call; cbn [run_call]; unfold mapPortBlocking, unmapPortBlocking, getExternalAddressBlocking, blocking; by rewrite Hi.
  - destruct call as [p port external d l|p port|]; cbn [run_call]; apply (blocking_fine (MapPort p port external d l)) || apply (blocking_fine (UnmapPort p port)) || apply (blocking_fine AskAddress);
      try done; intros w.
    + destruct (negb (external =? 0)); eexists; (split; [|split; [|reflexivity]]); [done| |done|].
      * cbn. split; [by left|]. unfold PortMapper.default_port. repeat case_match; done.
      * cbn. split; [by right|]. unfold PortMapper.default_port. repeat case_match; done.
    + eexists. split; [|split; [|reflexivity]]; done.
    + eexists. split; [|split; [|reflexivity]]; done.
Qed.
End reaching.

(** ** A port is mapped *)

Definition demo_turns (l : list (list Arrival)) (k : nat) : Turn :=
  let now := Z.of_nat k * 50000000 in
  mkTurn now (-1) (fun _ => match l !! k with Some a => map (fun x => (now + 1, x)) a | None => [] end) [].

Lemma demo_quick l : quick (demo_turns l).
Proof.
  intros k. cbn. rewrite app_nil_r. destruct (l !! k) as [a|]; [|constructor]. apply Forall_forall. intros x Hx.
  apply list_elem_of_fmap in Hx as (y & -> & _). unfold second. cbn. lia.
Qed.

(** The gateway is known from the last time. *)
Definition demo_cache : Cache := mkCache sample_info (Url.parse no_address []) false.
Definition demo_call : Call := MapPort PortMapper.TCP 6881 0 (lit "peer") 7200.
Definition demo_run (l : list (list Arrival)) : option Outcome :=
  run_call no_address no_address accepting demo_call 1000 21 (demo_turns l) true 0 demo_cache.

Lemma blocking_answers_witness :
  call_outcome no_address demo_call demo_cache (demo_run [[Timeout]; []; [Response true ok_body None]]) /\
  (fun o => (error (o_result o), externalPort (o_result o), length <$> o_said o)) <$> demo_run [[Timeout]; []; [Response true ok_body None]] =
    Some (Error.None, 6881, Some 1%nat).
Proof.
  split; [|vm_compute; reflexivity].
  refine (blocking_answers no_address no_address accepting demo_call 1000 (demo_turns [[Timeout]; []; [Response true ok_body None]]) true 0 demo_cache 20 _ (demo_quick _)).
  vm_compute. discriminate.
Defined.

(** ** What goes wrong *)

(** A gateway from the cache is found, whatever has become of it: nothing is asked of it.
    So no failure of the one in the cache makes it be forgotten. *)
Lemma cached_is_found i k v : info_isValid i = true -> classify (i_serviceType i) = Some (k, v) ->
  exists w, attach no_address i (nothing tt) = Some w /\
    forall a j, to_gateway a = Some j -> perform no_address accepting later j w = Some w \/
      (log <$> perform no_address accepting later j w) = Some [Gateway.EventGatewayFound].
Proof.
  intros Hv Hc. unfold attach. rewrite Hv, Hc. cbn [negb]. eexists. split; [reflexivity|].
  intros a j Hj. destruct a; try done; injection Hj as <-; (by left) || by right.
Qed.

(** A router that does not answer any more: the call fails, and the next one asks the same
    router. *)
Lemma stale_cache_kept :
  (fun o => (error (o_result o), cached_gateway (o_cache o))) <$> demo_run [[Timeout]; [ClientError]] =
    Some (Error.Network, sample_info) /\
  (fun o => (error (o_result o), cached_gateway (o_cache o))) <$> demo_run [[Timeout]] = Some (Error.Network, sample_info).
Proof. split; vm_compute; reflexivity. Qed.

(** An action that cannot be sent is waited for until time is up. *)
Lemma refused_is_waited_for :
  (fun o => (error (o_result o), o_said o)) <$>
    run_call no_address no_address refusing demo_call 1000 21 (demo_turns [[Timeout]]) true 0 demo_cache = Some (Error.Network, Some []) /\
  run_call no_address no_address refusing demo_call 1000 19 (demo_turns [[Timeout]]) true 0 demo_cache = None.
Proof. split; vm_compute; reflexivity. Qed.
