(* ===== verification/Kqueue.v ===== *)
(** * Kqueue: [src/io/net/socketmonitor-kqueue.cpp]

    The back end of the BSDs and macOS, which queues its changes and hands them to the
    kernel when it waits. The kernel is modelled as its manual describes [kevent()]:
    changes are applied in their order; one that is rejected is reported in the event list
    as long as there is room; with rejections to report it does not wait; closing a
    descriptor removes what was registered for it. How a wait ends is given. *)

From stdpp Require Import gmap.
From S2P Require Import Prelude MonitorBackends.

(** ** Data *)

Definition EVFILT_READ : Z := -1.
Definition EVFILT_WRITE : Z := -2.
Definition EV_ADD : Z := 0x0001.
Definition EV_DELETE : Z := 0x0002.
Definition EV_ENABLE : Z := 0x0004.
Definition EV_DISABLE : Z := 0x0008.
Definition EV_OOBAND : Z := 0x2000.
Definition EV_ERROR : Z := 0x4000.
Definition EV_EOF : Z := 0x8000.

(** The members of a [struct kevent] that are looked at. *)
Record kevent := mkkevent { ident : Z; ev_filter : Z; flags : Z }.
Definition blank_kevent : kevent := mkkevent 0 0 0.

(* @src src/src/io/net/socketmonitor-kqueue.cpp:28-28 MAXCHANGES *)
Definition MAXCHANGES : nat := 32.
(* @src src/src/io/net/socketmonitor-kqueue.cpp:32-32 KQUEUE_BATCH *)
Definition KQUEUE_BATCH : nat := 256.
(* @src src/src/io/net/socketmonitor-kqueue.cpp:27-27 MAXSOCK *)
Definition KQUEUE_MAXSOCK : nat := Eval vm_compute in Z.to_nat 4096.

(** ** The kernel *)

(** What is registered for a descriptor and a filter. *)
Record knote := mkknote { enabled : bool; oob : bool }.
Abbreviation Knotes := (gmap (Z * Z) knote).

Record Kernel := mkKernel { opened : gset Z; knotes : Knotes }.

(** One change: nothing if it is rejected. *)
Definition apply_change (c : kevent) (k : Kernel) : option Kernel :=
  let at_ := (ident c, ev_filter c) in
  if has (flags c) EV_DELETE then
    if bool_decide (is_Some (knotes k !! at_)) then Some (mkKernel (opened k) (delete at_ (knotes k))) else None
  else if has (flags c) EV_ADD && bool_decide (ident c ∈ opened k) then
    Some (mkKernel (opened k) (<[at_ := mkknote (has (flags c) EV_ENABLE) (has (flags c) EV_OOBAND)]> (knotes k)))
  else None.

(** The changes with [room] for reports: the reports, and whether the rest was abandoned. *)
Fixpoint apply_changes (room : nat) (l : list kevent) (k : Kernel) : list kevent * bool * Kernel :=
  match l with
  | [] => ([], false, k)
  | c :: l =>
      match apply_change c k with
      | Some k => apply_changes room l k
      | None =>
          match room with
          | O => ([], true, k)
          | S room => let '(r, stopped, k) := apply_changes room l k in (mkkevent (ident c) (ev_filter c) EV_ERROR :: r, stopped, k)
          end
      end
  end.

(** How a call goes: it may fail for a reason of its own when some changes were applied;
    a wait is interrupted, or brings events. *)
Inductive Answer := Fails (applied : nat) | Interrupted | Brings (l : list kevent).
Inductive Returned := Failed | FailedEINTR | Events (l : list kevent).

Definition kevent_call (l : list kevent) (room : nat) (a : Answer) (k : Kernel) : Returned * Kernel :=
  match a with
  | Fails n => (Failed, (apply_changes (length l) (take n l) k).2)
  | _ =>
      let '(r, stopped, k) := apply_changes room l k in
      if stopped then (Failed, k)
      else match r with
           | _ :: _ => (Events r, k)
           | [] => match a with Brings e => (Events (take room e), k) | _ => (FailedEINTR, k) end
           end
  end.

(** Closing a descriptor removes its knotes. *)
Definition close_fd (fd : Z) (k : Kernel) : Kernel := mkKernel (opened k ∖ {[fd]}) (filter (fun x => x.1.1 <> fd) (knotes k)).
Definition open_fd (fd : Z) (k : Kernel) : Kernel := mkKernel ({[fd]} ∪ opened k) (knotes k).

(** ** The back end *)

(** [changes] are the first [numChanges] of the [change_size] slots; [events_size] is the
    room for events. *)
(* @src src/src/io/net/socketmonitor-backend.h:125-131 Samurai::IO::Net::KQueueSocketMonitor *)
Record KQueueSocketMonitor := mkKQueueSocketMonitor {
  changes : list kevent;
  change_size : nat;
  events_size : nat;
  k_num : nat;
  k_max : nat
}.
Definition numChanges (m : KQueueSocketMonitor) : nat := length (changes m).

(* @src src/src/io/net/socketmonitor-kqueue.cpp:34-50 Samurai::IO::Net::KQueueSocketMonitor::KQueueSocketMonitor *)
Definition new_KQueueSocketMonitor (max_open : nat) : KQueueSocketMonitor :=
  mkKQueueSocketMonitor [] MAXCHANGES KQUEUE_BATCH 0 (Nat.min max_open KQUEUE_MAXSOCK).

(* @src src/src/io/net/socketmonitor-kqueue.cpp:73-95 get_poll_events *)
Definition get_poll_events (handle : kevent) : Z :=
  Z.lor (if ev_filter handle =? EVFILT_READ then Triggers.Read else if ev_filter handle =? EVFILT_WRITE then Triggers.Write else Triggers.None)
        (bit (has (flags handle) EV_EOF) Triggers.Close).

(** Filling the slot that is got. *)
(* @src src/src/io/net/socketmonitor-kqueue.cpp:97-120 Samurai::IO::Net::KQueueSocketMonitor::getChangeEventSlot *)
Definition push_change (ev : kevent) (m : KQueueSocketMonitor) : KQueueSocketMonitor :=
  let size := if (numChanges m =? change_size m)%nat then (change_size m * 2)%nat else change_size m in
  mkKQueueSocketMonitor (changes m ++ [ev]) size (events_size m) (k_num m) (k_max m).

Definition want_read (trigger : Z) : bool := has trigger (Z.lor Triggers.Read (Z.lor Triggers.Accept (Z.lor Triggers.Close Triggers.Urgent))).
Definition want_write (trigger : Z) : bool := has trigger Triggers.Write.
Definition add_flags (trigger : Z) (want : bool) : Z :=
  Z.lor (Z.lor EV_ADD (bit (has trigger Triggers.Urgent) EV_OOBAND)) (if want then EV_ENABLE else EV_DISABLE).

(* @src src/src/io/net/socketmonitor-kqueue.cpp:193-213 Samurai::IO::Net::KQueueSocketMonitor::internal_set *)
Definition internal_set (fd trigger : Z) (m : KQueueSocketMonitor) : KQueueSocketMonitor :=
  push_change (mkkevent fd EVFILT_WRITE (add_flags trigger (want_write trigger)))
    (push_change (mkkevent fd EVFILT_READ (add_flags trigger (want_read trigger))) m).

Definition with_num (n : nat) (m : KQueueSocketMonitor) : KQueueSocketMonitor :=
  mkKQueueSocketMonitor (changes m) (change_size m) (events_size m) n (k_max m).

(* @src src/src/io/net/socketmonitor-kqueue.cpp:215-220 Samurai::IO::Net::KQueueSocketMonitor::internal_add *)
Definition kq_add (fd trigger : Z) (m : KQueueSocketMonitor) : KQueueSocketMonitor :=
  let m := internal_set fd trigger m in with_num (S (k_num m)) m.

(* @src src/src/io/net/socketmonitor-kqueue.cpp:223-239 Samurai::IO::Net::KQueueSocketMonitor::internal_remove *)
Definition kq_remove (fd : Z) (m : KQueueSocketMonitor) : KQueueSocketMonitor :=
  let m := push_change (mkkevent fd EVFILT_WRITE EV_DELETE) (push_change (mkkevent fd EVFILT_READ EV_DELETE) m) in
  with_num (k_num m - 1) m.

(* @src src/src/io/net/socketmonitor-kqueue.cpp:265-269 Samurai::IO::Net::KQueueSocketMonitor::internal_modify *)
Definition kq_modify (fd trigger : Z) (m : KQueueSocketMonitor) : KQueueSocketMonitor := internal_set fd trigger m.

(** A call without room for events: a refusal is a failure, and nothing else. *)
(* @src src/src/io/net/socketmonitor-kqueue.cpp:248-262 Samurai::IO::Net::KQueueSocketMonitor::internal_commitOneAtATime *)
Fixpoint commitOneAtATime (l : list kevent) (k : Kernel) : Kernel :=
  match l with
  | [] => k
  | c :: l => commitOneAtATime l (kevent_call [c] 0 (Brings []) k).2
  end.

Definition is_error (e : kevent) : bool := has (flags e) EV_ERROR.

(** What [internal_wait] dispatches, in this order. *)
Definition dispatched_of (l : list kevent) : list poll_act :=
  (fun e => mkpoll_act (ident e) (get_poll_events e)) <$> List.filter (fun e => negb (is_error e)) l.

(** The answers of the calls it makes: the first, the one after changes were committed
    one at a time, and the one after a report of nothing but rejections. *)
(* @src src/src/io/net/socketmonitor-kqueue.cpp:271-400 Samurai::IO::Net::KQueueSocketMonitor::internal_wait *)
Definition kq_wait (first rerun again : Answer) (m : KQueueSocketMonitor) (k : Kernel) : list poll_act * KQueueSocketMonitor * Kernel :=
  let room := Nat.max (events_size m) (numChanges m) in
  let committed := mkKQueueSocketMonitor [] (change_size m) room (k_num m) (k_max m) in
  let '(ret, k1) := kevent_call (changes m) room first k in
  let '(ret, k2) :=
    match ret with
    | Failed => let '(ret, k) := kevent_call [] room rerun (commitOneAtATime (changes m) k1) in (match ret with Events l => Some l | _ => None end, k)
    | FailedEINTR => (None, k1)
    | Events l => (Some l, k1)
    end in
  match ret with
  | None => ([], committed, k2)
  | Some l =>
      if negb (bool_decide (l = [])) && forallb is_error l then
        match kevent_call [] room again k2 with
        | (Events l, k3) => (dispatched_of l, committed, k3)
        | (_, k3) => ([], committed, k3)
        end
      else (dispatched_of l, committed, k2)
  end.

(** ** What the kernel is left with *)

(** The changes, each applied unless it is rejected. *)
Definition commit_one (k : Kernel) (c : kevent) : Kernel := match apply_change c k with Some k => k | None => k end.
Definition committed (l : list kevent) (k : Kernel) : Kernel := fold_left commit_one l k.

Lemma commit_all l : forall k, commitOneAtATime l k = committed l k.
Proof.
  induction l as [|c l IH]; intros k; [done|]. cbn [commitOneAtATime committed fold_left]. rewrite IH. unfold committed, commit_one. f_equal.
  unfold kevent_call. cbn [apply_changes]. by destruct (apply_change c k).
Qed.

Lemma apply_enough l : forall room k, (length l <= room)%nat ->
  exists r, apply_changes room l k = (r, false, committed l k) /\ Forall (fun e => is_error e = true) r.
Proof.
  induction l as [|c l IH]; intros room k H; [by exists []|]. cbn [length] in H. cbn [apply_changes committed fold_left]. unfold commit_one.
  destruct (apply_change c k) as [k'|]; [apply IH; lia|]. destruct room as [|room]; [lia|].
  destruct (IH room k) as (r & -> & Hr); [lia|]. eexists. split; [reflexivity|]. by constructor.
Qed.

Definition key (c : kevent) : Z * Z := (ident c, ev_filter c).

(** The last of the changes for a descriptor and a filter. *)
Definition last_for (x : Z * Z) (l : list kevent) : option kevent := last (List.filter (fun c => bool_decide (key c = x)) l).

Lemma last_for_app x l c : last_for x (l ++ [c]) = if bool_decide (key c = x) then Some c else last_for x l.
Proof.
  unfold last_for. rewrite List.filter_app. cbn. case_bool_decide; [by rewrite last_snoc|by rewrite app_nil_r].
Qed.

(** A change that is queued adds or deletes. *)
Definition sound_change (c : kevent) : Prop := flags c = EV_DELETE \/ (has (flags c) EV_DELETE = false /\ has (flags c) EV_ADD = true).
Definition note_of (c : kevent) : knote := mkknote (has (flags c) EV_ENABLE) (has (flags c) EV_OOBAND).

Lemma commit_opened l : forall k, opened (committed l k) = opened k.
Proof.
  unfold committed. induction l as [|c l IH]; intros k; cbn [fold_left]; [done|]. rewrite IH. unfold commit_one, apply_change.
  by repeat case_match; simplify_eq.
Qed.

(** The last change decides, whatever became of those before. *)
Lemma committed_last x l : Forall sound_change l -> forall k,
  match last_for x l with
  | None => knotes (committed l k) !! x = knotes k !! x
  | Some c => flags c = EV_DELETE /\ knotes (committed l k) !! x = None \/
              (has (flags c) EV_DELETE = false /\ (x.1 ∈ opened k -> knotes (committed l k) !! x = Some (note_of c)))
  end.
Proof.
  induction l as [|c l IH] using rev_ind; intros Hl k; [done|]. apply Forall_app in Hl as [Hl Hc]. rewrite Forall_singleton in Hc.
  specialize (IH Hl k). unfold committed. rewrite fold_left_app. cbn [fold_left]. fold (committed l k).
  rewrite last_for_app. unfold commit_one, apply_change. change (ident c, ev_filter c) with (key c).
  case_bool_decide as Hx.
  - subst x. destruct Hc as [Hd|[Hd Ha]].
    + left. split; [done|]. rewrite Hd. change (has EV_DELETE EV_DELETE) with true. cbv iota. case_bool_decide as E; cbn; [by rewrite lookup_delete_eq|].
      by apply eq_None_not_Some.
    + right. split; [done|]. intros Ho. rewrite Hd, Ha. cbn [andb]. rewrite bool_decide_eq_true_2 by (by rewrite commit_opened).
      cbn. by rewrite lookup_insert_eq.
  - assert (forall k', knotes (match (if has (flags c) EV_DELETE
        then if bool_decide (is_Some (knotes k' !! key c)) then Some (mkKernel (opened k') (delete (key c) (knotes k'))) else None
        else if has (flags c) EV_ADD && bool_decide (ident c ∈ opened k')
             then Some (mkKernel (opened k') (<[key c := mkknote (has (flags c) EV_ENABLE) (has (flags c) EV_OOBAND)]> (knotes k'))) else None)
      with Some k => k | None => k' end) !! x = knotes k' !! x) as Hsame.
    { intros k'. destruct (has (flags c) EV_DELETE); [case_bool_decide; cbn; [by rewrite lookup_delete_ne|done]|].
      destruct (_ && _); cbn; [by rewrite lookup_insert_ne|done]. }
    rewrite Hsame. exact IH.
Qed.

(** Applying a part of the changes first makes no difference. *)
Lemma last_for_take x n l c : last_for x l = None -> last_for x (take n l) = Some c -> False.
Proof.
  unfold last_for. intros H1 H2. rewrite last_None in H1. apply last_Some_elem_of in H2. apply list_elem_of_In, filter_In in H2 as [Hin Hc].
  assert (c ∈ List.filter (fun c => bool_decide (key c = x)) l) as Hx.
  { apply list_elem_of_In, filter_In. split; [|done]. apply list_elem_of_In. apply list_elem_of_In in Hin.
    rewrite <- (take_drop n l). apply elem_of_app. by left. }
  rewrite H1 in Hx. by apply not_elem_of_nil in Hx.
Qed.

(** ** The system *)

(** What has been asked for: the triggers of the descriptors that are monitored. *)
Record System := mkSystem { monitor : KQueueSocketMonitor; kernel : Kernel; wants : gmap Z Z; heard : list poll_act }.

Inductive Step :=
  | Open (fd : Z)
  | Close (fd : Z)
  | Add (fd trigger : Z)
  | Modify (fd trigger : Z)
  | Remove (fd : Z)
  | Wait (first rerun again : Answer).

(** A socket is added and modified while it is open, and closed when it is not monitored. *)
Definition permitted (s : Step) (y : System) : Prop :=
  match s with
  | Open fd => fd ∉ opened (kernel y)
  | Close fd => wants y !! fd = None
  | Add fd _ => fd ∈ opened (kernel y) /\ wants y !! fd = None
  | Modify fd _ | Remove fd => is_Some (wants y !! fd)
  | Wait _ _ _ => True
  end.

Definition take_step (s : Step) (y : System) : System :=
  let (m, k, w, h) := y in
  match s with
  | Open fd => mkSystem m (open_fd fd k) w h
  | Close fd => mkSystem m (close_fd fd k) w h
  | Add fd t => mkSystem (kq_add fd t m) k (<[fd := t]> w) h
  | Modify fd t => mkSystem (kq_modify fd t m) k (<[fd := t]> w) h
  | Remove fd => mkSystem (kq_remove fd m) k (delete fd w) h
  | Wait first rerun again => let '(acts, m, k) := kq_wait first rerun again m k in mkSystem m k w acts
  end.

Inductive reached : System -> Prop :=
  | reached_start max open : reached (mkSystem (new_KQueueSocketMonitor max) (mkKernel open ∅) ∅ [])
  | reached_step s y : reached y -> permitted s y -> reached (take_step s y).

(** What should be registered: both filters of a socket that is monitored, enabled as its
    trigger has it, and nothing else. *)
Definition wanted (w : gmap Z Z) (x : Z * Z) : option knote :=
  match w !! x.1 with
  | None => None
  | Some t => Some (mkknote (if x.2 =? EVFILT_READ then want_read t else want_write t) (has t Triggers.Urgent))
  end.

Definition filters : list Z := [EVFILT_READ; EVFILT_WRITE].

Definition matches (k : Kernel) (w : gmap Z Z) (l : list kevent) : Prop :=
  forall fd f, f ∈ filters ->
  match w !! fd with
  | Some t => fd ∈ opened k /\
      match last_for (fd, f) l with
      | None => knotes k !! (fd, f) = wanted w (fd, f)
      | Some c => has (flags c) EV_DELETE = false /\ Some (note_of c) = wanted w (fd, f)
      end
  | None => match last_for (fd, f) l with None => knotes k !! (fd, f) = None | Some c => flags c = EV_DELETE end
  end.

Record inv (y : System) : Prop := mkinv {
  inv_sound : Forall sound_change (changes (monitor y));
  inv_matches : matches (kernel y) (wants y) (changes (monitor y));
  inv_room : (KQUEUE_BATCH <= events_size (monitor y))%nat;
  inv_slots : (numChanges (monitor y) <= change_size (monitor y))%nat /\ (0 < change_size (monitor y))%nat
}.

Lemma matches_settled k w l : Forall sound_change l -> matches k w l ->
  forall fd f, f ∈ filters -> knotes (committed l k) !! (fd, f) = wanted w (fd, f).
Proof.
  intros Hl Hm fd f Hf. specialize (Hm fd f Hf). pose proof (committed_last (fd, f) l Hl k) as Hc. unfold wanted in Hm |- *. cbn [fst snd] in *.
  destruct (w !! fd) as [t|]; destruct (last_for (fd, f) l) as [c|]; try congruence.
  - destruct Hm as (Ho & Hd & <-). destruct Hc as [[E _]|[_ Hc]]; [by rewrite E in Hd|by apply Hc].
  - destruct Hm as [_ <-]. done.
  - destruct Hc as [[_ Hc]|[E _]]; [done|]. by rewrite Hm in E.
Qed.

Lemma matches_replay k w l n : Forall sound_change l -> matches k w l -> matches (committed (take n l) k) w l.
Proof.
  intros Hl Hm fd f Hf. specialize (Hm fd f Hf). rewrite commit_opened. destruct (last_for (fd, f) l) as [c|] eqn:E; [done|].
  pose proof (committed_last (fd, f) (take n l) (Forall_take _ _ _ Hl) k) as Hc.
  destruct (last_for (fd, f) (take n l)) as [c|] eqn:Et; [by destruct (last_for_take _ _ _ _ E Et)|]. by rewrite Hc.
Qed.

(** With nothing queued, what is registered is all there is to it. *)
Lemma matches_done k w l k' : matches k w l -> opened k' = opened k ->
  (forall fd f, f ∈ filters -> knotes k' !! (fd, f) = wanted w (fd, f)) -> matches k' w [].
Proof.
  intros Hm Ho Hk fd f Hf. specialize (Hm fd f Hf). specialize (Hk fd f Hf). cbn. destruct (w !! fd) eqn:E.
  - rewrite Ho. split; [apply Hm|done].
  - unfold wanted in Hk. cbn in Hk. by rewrite E in Hk.
Qed.

(** *** Waiting *)

Lemma quiet_call room a k : (kevent_call [] room a k).2 = k.
Proof. unfold kevent_call. destruct a as [n| |e]; cbn; [by rewrite take_nil|done|done]. Qed.

Lemma call_fails l room n k : kevent_call l room (Fails n) k = (Failed, committed (take n l) k).
Proof.
  unfold kevent_call. assert (length (take n l) <= length l)%nat as Hn by (rewrite length_take; lia).
  by destruct (apply_enough (take n l) (length l) k Hn) as (r & -> & _).
Qed.

(** With room for every rejection: the rejections, or how the wait ended. *)
Lemma call_waits l room a k : (length l <= room)%nat -> (forall n, a <> Fails n) ->
  exists r, Forall (fun e => is_error e = true) r /\ kevent_call l room a k =
    (match r with [] => match a with Brings e => Events (take room e) | _ => FailedEINTR end | _ => Events r end, committed l k).
Proof.
  intros Hl Ha. destruct (apply_enough l room k Hl) as (r & E & Hr). exists r. split; [done|]. unfold kevent_call.
  destruct a as [n| |e]; [by destruct (Ha n)|rewrite E; by destruct r|rewrite E; by destruct r].
Qed.

Lemma wait_kernel first rerun again m k : exists n, let k' := (kq_wait first rerun again m k).2 in
  k' = committed (changes m) k \/ k' = committed (changes m) (committed (take n (changes m)) k).
Proof.
  set (l := changes m). set (room := Nat.max (events_size m) (numChanges m)).
  assert (length l <= room)%nat as Hroom by (unfold room, numChanges; fold l; lia).
  assert (forall k0, (kevent_call [] room again k0).2 = k0) as Hagain by (intros; apply quiet_call).
  unfold kq_wait. fold l room.
  destruct (kevent_call l room first k) as [ret k1] eqn:E.
  assert (exists n, (ret = Failed /\ k1 = committed (take n l) k) \/ (ret <> Failed /\ k1 = committed l k)) as [n Hn].
  { destruct first as [n| |e].
    - rewrite call_fails in E. injection E as <- <-. exists n. by left.
    - destruct (call_waits l room Interrupted k Hroom) as (r & _ & Er); [done|]. rewrite Er in E. exists 0%nat. right.
      destruct r; by injection E as <- <-.
    - destruct (call_waits l room (Brings e) k Hroom) as (r & _ & Er); [done|]. rewrite Er in E. exists 0%nat. right.
      destruct r; by injection E as <- <-. }
  exists n. cbv zeta. destruct Hn as [[-> ->]|[Hne ->]].
  - right. rewrite commit_all. pose proof (quiet_call room rerun (committed l (committed (take n l) k))) as Hq.
    destruct (kevent_call [] room rerun _) as [ret k2]. cbn [snd] in Hq. subst k2. destruct ret as [| |l']; try done.
    destruct (_ && _); [|done]. specialize (Hagain (committed l (committed (take n l) k))).
    destruct (kevent_call [] room again _) as [[] ?]; exact Hagain.
  - left. destruct ret as [| |l']; try done. destruct (_ && _); [|done]. specialize (Hagain (committed l k)).
    destruct (kevent_call [] room again _) as [[] ?]; exact Hagain.
Qed.

Lemma wait_monitor first rerun again m k :
  (kq_wait first rerun again m k).1.2 = mkKQueueSocketMonitor [] (change_size m) (Nat.max (events_size m) (numChanges m)) (k_num m) (k_max m).
Proof. unfold kq_wait. repeat case_match; by simplify_eq. Qed.

Lemma add_flags_spec t want : has (add_flags t want) EV_DELETE = false /\ has (add_flags t want) EV_ADD = true /\
  has (add_flags t want) EV_ENABLE = want /\ has (add_flags t want) EV_OOBAND = has t Triggers.Urgent.
Proof. unfold add_flags. by destruct (has t Triggers.Urgent), want. Qed.

Lemma push_slots ev m : (numChanges m <= change_size m)%nat /\ (0 < change_size m)%nat ->
  (numChanges (push_change ev m) <= change_size (push_change ev m))%nat /\ (0 < change_size (push_change ev m))%nat.
Proof. unfold push_change, numChanges. cbn. rewrite length_app. cbn. destruct (Nat.eqb_spec (length (changes m)) (change_size m)); lia. Qed.

(** Two changes for one descriptor, one for each filter. *)
Lemma last_for_pair fd fd' f r w l : f ∈ filters -> key r = (fd, EVFILT_READ) -> key w = (fd, EVFILT_WRITE) ->
  last_for (fd', f) ((l ++ [r]) ++ [w]) = if bool_decide (fd' = fd) then Some (if f =? EVFILT_READ then r else w) else last_for (fd', f) l.
Proof.
  intros Hf Hr Hw. rewrite !last_for_app, Hr, Hw. unfold filters in Hf. rewrite !elem_of_cons in Hf.
  destruct Hf as [->|[->|Hf%not_elem_of_nil]]; [..|done]; cbn [Z.eqb EVFILT_READ EVFILT_WRITE];
    repeat case_bool_decide; simplify_eq; done.
Qed.

Lemma matches_set k w l fd t : matches k w l -> fd ∈ opened k ->
  matches k (<[fd := t]> w) ((l ++ [mkkevent fd EVFILT_READ (add_flags t (want_read t))]) ++ [mkkevent fd EVFILT_WRITE (add_flags t (want_write t))]).
Proof.
  intros Hm Ho fd' f Hf. specialize (Hm fd' f Hf). rewrite (last_for_pair fd) by done. unfold wanted in *. cbn [fst snd] in *.
  case_bool_decide as E.
  - subst fd'. rewrite lookup_insert_eq. split; [done|]. unfold note_of. destruct (f =? EVFILT_READ) eqn:Ef; cbn [flags].
    + destruct (add_flags_spec t (want_read t)) as (-> & _ & -> & ->). done.
    + destruct (add_flags_spec t (want_write t)) as (-> & _ & -> & ->). done.
  - by rewrite !lookup_insert_ne by done.
Qed.

Lemma matches_remove k w l fd : matches k w l ->
  matches k (delete fd w) ((l ++ [mkkevent fd EVFILT_READ EV_DELETE]) ++ [mkkevent fd EVFILT_WRITE EV_DELETE]).
Proof.
  intros Hm fd' f Hf. specialize (Hm fd' f Hf). rewrite (last_for_pair fd) by done. unfold wanted in *. cbn [fst snd] in *.
  case_bool_decide as E.
  - subst fd'. rewrite lookup_delete_eq. by destruct (_ =? _).
  - by rewrite !lookup_delete_ne by done.
Qed.

Lemma add_sound fd f t want : sound_change (mkkevent fd f (add_flags t want)).
Proof. right. split; apply add_flags_spec. Qed.

Lemma sound_pair l a b : Forall sound_change l -> sound_change a -> sound_change b -> Forall sound_change ((l ++ [a]) ++ [b]).
Proof. intros. rewrite !Forall_app, !Forall_singleton. done. Qed.

Lemma step_inv s y : inv y -> permitted s y -> inv (take_step s y).
Proof.
  intros [Hs Hm Hr Hc] Hp. destruct y as [m k w h]. cbn [monitor kernel wants] in *.
  destruct s as [fd|fd|fd t|fd t|fd|first rerun again]; cbn [take_step permitted monitor kernel wants] in *.
  - constructor; cbn [monitor kernel wants]; try done. intros fd' f Hf. specialize (Hm fd' f Hf). destruct (w !! fd'); [|done].
    split; [apply elem_of_union; right; apply Hm|apply Hm].
  - constructor; cbn [monitor kernel wants]; try done. intros fd' f Hf. specialize (Hm fd' f Hf). destruct (decide (fd' = fd)) as [->|Hne].
    + rewrite Hp in *. destruct (last_for (fd, f) (changes m)); [done|]. cbn. apply map_lookup_filter_None. right. intros x _ Hx. by apply Hx.
    + assert (knotes (close_fd fd k) !! (fd', f) = knotes k !! (fd', f)) as E.
      { cbn. destruct (knotes k !! (fd', f)) as [x|] eqn:Ex; [by apply map_lookup_filter_Some|apply map_lookup_filter_None; by left]. }
      rewrite E. destruct (w !! fd'); [|done]. split; [|apply Hm].
      apply elem_of_difference. split; [apply Hm|by rewrite elem_of_singleton].
  - destruct Hp as [Ho Hw]. constructor; cbn [monitor kernel wants].
    + apply sound_pair; [done|apply add_sound|apply add_sound].
    + by apply matches_set.
    + done.
    + apply (push_slots _ _ (push_slots _ _ Hc)).
  - assert (fd ∈ opened k) as Ho.
    { destruct Hp as [t0 E]. specialize (Hm fd EVFILT_READ ltac:(by constructor)). rewrite E in Hm. apply Hm. }
    constructor; cbn [monitor kernel wants].
    + apply sound_pair; [done|apply add_sound|apply add_sound].
    + by apply matches_set.
    + done.
    + apply (push_slots _ _ (push_slots _ _ Hc)).
  - constructor; cbn [monitor kernel wants].
    + apply sound_pair; [done|by left|by left].
    + by apply matches_remove.
    + done.
    + apply (push_slots _ _ (push_slots _ _ Hc)).
  - pose proof (wait_monitor first rerun again m k) as Ew. destruct (wait_kernel first rerun again m k) as [n Hn].
    destruct (kq_wait first rerun again m k) as [[acts m'] k']. cbn [fst snd] in Ew, Hn. subst m'.
    constructor; cbn [monitor kernel wants changes]; [by apply Forall_nil| |cbn; lia|unfold numChanges; cbn; lia].
    destruct Hn as [->|Hn].
    + apply (matches_done k w (changes m)); [done|apply commit_opened|]. intros fd f Hf. by apply (matches_settled k w).
    + rewrite Hn. apply (matches_done k w (changes m)); [done|by rewrite !commit_opened|]. intros fd f Hf.
      apply (matches_settled _ w); [done|by apply matches_replay|done].
Qed.

Lemma kqueue_inv y : reached y -> inv y.
Proof.
  induction 1 as [max o|s y _ IH Hp]; [|by apply step_inv].
  constructor; cbn; [by apply Forall_nil| |unfold KQUEUE_BATCH; lia|unfold numChanges, MAXCHANGES; cbn; lia].
  intros fd f _. by rewrite !lookup_empty.
Qed.

(** What a wait brings is dispatched, whatever was rejected before it. *)
Lemma wait_hears first rerun again m k e : (length e <= events_size m)%nat -> Forall (fun e => is_error e = false) e ->
  rerun = Brings e -> again = Brings e -> first = Brings e \/ (exists n, first = Fails n) ->
  (kq_wait first rerun again m k).1.1 = dispatched_of e.
Proof.
  intros He Hne -> -> Hf. set (room := Nat.max (events_size m) (numChanges m)).
  assert (take room e = e) as Et by (apply take_ge; unfold room; lia).
  assert (forall k, kevent_call [] room (Brings e) k = (Events e, k)) as Hagain by (intros k0; unfold kevent_call; cbn; by rewrite Et).
  assert (negb (bool_decide (e = [])) && forallb is_error e = false) as Hn.
  { destruct e as [|x e]; [done|]. apply Forall_cons in Hne as [Hx _]. cbn. by rewrite Hx. }
  unfold kq_wait. fold room. destruct Hf as [->|[n ->]].
  - destruct (call_waits (changes m) room (Brings e) k) as (r & Hr & E); [unfold room, numChanges; lia|done|]. rewrite E, Et.
    destruct r as [|x r]; [by rewrite Hn|]. assert (forallb is_error (x :: r) = true) as Hall.
    { apply forallb_forall. intros y Hy. rewrite Forall_forall in Hr. apply Hr. by apply list_elem_of_In. }
    rewrite Hall, bool_decide_eq_false_2 by done. cbn [negb andb]. by rewrite Hagain.
  - rewrite call_fails, Hagain. by rewrite Hn.
Qed.

(** ** Properties *)

(** C20. No registration is lost, and none outlives its socket: whatever descriptors are
    opened and closed, sockets added, modified and removed - closed with their changes
    still queued, their numbers taken again - after every wait the kernel has, for each
    monitored socket, both filters enabled as its trigger has them, and for no other
    descriptor anything, whether the calls reported rejections, were interrupted or
    failed with any part of the changes applied. Nothing stays queued; and what the wait
    brought is dispatched, event by event, no rejection taking its place. *)
Theorem kqueue_registers y first rerun again : reached y ->
  let y' := take_step (Wait first rerun again) y in
  wants y' = wants y /\ changes (monitor y') = [] /\
  (forall fd f, f ∈ filters -> knotes (kernel y') !! (fd, f) = wanted (wants y') (fd, f)) /\
  (forall e, (length e <= KQUEUE_BATCH)%nat -> Forall (fun e => is_error e = false) e ->
     rerun = Brings e -> again = Brings e -> first = Brings e \/ (exists n, first = Fails n) -> heard y' = dispatched_of e).
Proof.
  intros Hy y'. pose proof (kqueue_inv y Hy) as Hi. assert (inv y') as [_ Hm' _ _] by (apply step_inv; done).
  destruct y as [m k w h]. cbn [take_step] in y'. pose proof (wait_monitor first rerun again m k) as Ew.
  pose proof (wait_hears first rerun again m k) as Hh. unfold y' in *. destruct (kq_wait first rerun again m k) as [[acts m'] k'].
  cbn [fst snd] in Ew, Hh. subst m'. cbn [monitor kernel wants heard changes] in *.
  split; [done|]. split; [done|]. split.
  - intros fd f Hf. specialize (Hm' fd f Hf). cbn in Hm'. destruct (w !! fd) eqn:E; [apply Hm'|]. unfold wanted. cbn. by rewrite E.
  - intros e He. apply Hh. pose proof (inv_room _ Hi). cbn in *. lia.
Qed.

(** A socket that is closed before a wait, whose number is taken by the next. *)
Definition demo_steps : list Step := [Add 5 Triggers.Read; Wait (Brings []) (Brings []) (Brings []); Remove 5; Close 5; Open 5; Add 5 Triggers.Write].
Definition demo_start : System := mkSystem (new_KQueueSocketMonitor 100) (mkKernel {[5]} ∅) ∅ [].
Definition demo_event : kevent := mkkevent 5 EVFILT_WRITE 0.

Lemma kqueue_registers_witness :
  let y := fold_left (fun y s => take_step s y) demo_steps demo_start in
  let y' := take_step (Wait (Brings [demo_event]) (Brings [demo_event]) (Brings [demo_event])) y in
  length (changes (monitor y)) = 4%nat /\
  (kevent_call (changes (monitor y)) 256 (Brings [demo_event]) (kernel y)).1 <> Events [demo_event] /\
  knotes (kernel y') !! (5, EVFILT_WRITE) = Some (mkknote true false) /\ heard y' = [mkpoll_act 5 Triggers.Write].
Proof.
  assert (reached (fold_left (fun y s => take_step s y) demo_steps demo_start)) as Hy.
  { cbn [fold_left demo_steps]. repeat apply reached_step; [apply reached_start|..];
      first [refine (bool_decide_unpack _ _); vm_compute; exact I|split; [refine (bool_decide_unpack _ _); vm_compute; exact I|vm_compute; reflexivity]|vm_compute; reflexivity|vm_compute; eexists; reflexivity]. }
  cbv zeta. split; [vm_compute; reflexivity|]. split; [vm_compute; congruence|].
  destruct (kqueue_registers _ (Brings [demo_event]) (Brings [demo_event]) (Brings [demo_event]) Hy) as (Hw & _ & H1 & H2).
  split.
  - rewrite H1 by (right; left). rewrite Hw. vm_compute. reflexivity.
  - rewrite (H2 [demo_event]); [reflexivity|vm_compute; lia|repeat constructor|reflexivity|reflexivity|left; reflexivity].
Defined.
