(* ===== verification/MonitorChoice.v ===== *)
(** * MonitorChoice: which monitor is used, [src/io/net/socketmonitor.cpp]

    The process-wide monitor: what an application sets, or a default that is built once
    from the first back end that comes up. Monitors are numbers with the kind of their
    back end; which are compiled in and what they find is given. *)

From stdpp Require Import gmap.
From S2P Require Import Prelude.

Inductive Backend := EPoll | KQueue | Poll | Select | Custom (valid : bool).

#[export] Instance Backend_eq_dec : EqDecision Backend.
Proof. solve_decision. Defined.

Record Monitor := mkMonitor { m_id : nat; backend : Backend }.

(** What the process finds: the back ends of the build, whether each descriptor could be
    had, and the variables of its environment. *)
Record Env := mkEnv { compiled : Backend -> bool; has_fd : Backend -> bool; getenv : bytes -> bool }.

(* @src src/src/io/net/socketmonitor-epoll.cpp:44-55 Samurai::IO::Net::EPollSocketMonitor::isValid *)
Definition epoll_isValid (e : Env) : bool := if getenv e (lit "SAMURAI_NO_EPOLL") then false else has_fd e EPoll.
(* @src src/src/io/net/socketmonitor-kqueue.cpp:57-68 Samurai::IO::Net::KQueueSocketMonitor::isValid *)
Definition kqueue_isValid (e : Env) : bool := if getenv e (lit "SAMURAI_NO_KQUEUE") then false else has_fd e KQueue.
(* @src src/src/io/net/socketmonitor-poll.cpp:49-56 Samurai::IO::Net::PollSocketMonitor::isValid *)
Definition poll_isValid (e : Env) : bool := negb (getenv e (lit "SAMURAI_NO_POLL")).
(* @src src/src/io/net/socketmonitor-select.cpp:38-41 Samurai::IO::Net::SelectSocketMonitor::isValid *)
Definition select_isValid (e : Env) : bool := true.

Definition isValid (e : Env) (b : Backend) : bool :=
  match b with
  | EPoll => epoll_isValid e | KQueue => kqueue_isValid e | Poll => poll_isValid e | Select => select_isValid e | Custom v => v
  end.

(** [fallback] is the static of [getInstance], once it is initialised; [built] counts the
    monitors made, [alive] has those that were not destroyed again. *)
(* @src src/src/io/net/socketmonitor.cpp:185-185 Samurai::IO::Net::SocketMonitor::socket_monitor *)
Record Process := mkProcess { socket_monitor : option Monitor; fallback : option (option Monitor); built : nat; alive : list Monitor }.

Definition initial_Process : Process := mkProcess None None 0 [].

(* @src src/src/io/net/socketmonitor.cpp:188-206 Samurai::IO::Net::SocketMonitor::setSocketMonitor *)
Definition setSocketMonitor (e : Env) (monitor : option Monitor) (p : Process) : bool * Process :=
  match monitor with
  | None => (true, mkProcess None (fallback p) (built p) (alive p))
  | Some m =>
      if bool_decide (is_Some (socket_monitor p)) then (false, p)
      else if negb (isValid e (backend m)) then (false, p)
      else (true, mkProcess (Some m) (fallback p) (built p) (alive p))
  end.

(* @src src/src/io/net/socketmonitor.cpp:214-219 tryBackend *)
Definition tryBackend (e : Env) (b : Backend) (p : Process) : option Monitor * Process :=
  let m := mkMonitor (built p) b in
  if isValid e b then (Some m, mkProcess (socket_monitor p) (fallback p) (S (built p)) (alive p ++ [m]))
  else (None, mkProcess (socket_monitor p) (fallback p) (S (built p)) (alive p)).

Fixpoint try_all (e : Env) (l : list Backend) (monitor : option Monitor) (p : Process) : option Monitor * Process :=
  match l with
  | [] => (monitor, p)
  | b :: l =>
      match monitor with
      | None => if compiled e b then let '(m, p) := tryBackend e b p in try_all e l m p else try_all e l None p
      | Some _ => try_all e l monitor p
      end
  end.
(* @src src/src/io/net/socketmonitor.cpp:221-255 createDefaultMonitor *)
Definition createDefaultMonitor (e : Env) (p : Process) : option Monitor * Process := try_all e [EPoll; KQueue; Poll; Select] None p.

(* @src src/src/io/net/socketmonitor.cpp:258-275 Samurai::IO::Net::SocketMonitor::getInstance *)
Definition getInstance (e : Env) (p : Process) : option Monitor * Process :=
  match socket_monitor p with
  | Some m => (Some m, p)
  | None =>
      let '(f, p) :=
        match fallback p with
        | Some f => (f, p)
        | None => let '(f, p) := createDefaultMonitor e p in (f, mkProcess (socket_monitor p) (Some f) (built p) (alive p))
        end in
      let p := (setSocketMonitor e f p).2 in
      (socket_monitor p, p)
  end.

(** ** Properties *)

(** The first that is compiled in and comes up. *)
Definition chosen (e : Env) : option Backend := head (List.filter (fun b => compiled e b && isValid e b) [EPoll; KQueue; Poll; Select]).

Lemma try_all_some e l m p : try_all e l (Some m) p = (Some m, p).
Proof. by induction l. Qed.

Lemma try_all_spec e l : forall p, exists n k, try_all e l None p =
  match head (List.filter (fun b => compiled e b && isValid e b) l) with
  | None => (None, mkProcess (socket_monitor p) (fallback p) n (alive p))
  | Some b => let m := mkMonitor k b in (Some m, mkProcess (socket_monitor p) (fallback p) n (alive p ++ [m]))
  end.
Proof.
  induction l as [|b l IH]; intros p; [exists (built p), 0%nat; by destruct p|]. cbn [try_all List.filter].
  destruct (compiled e b); cbn [andb]; [|apply IH]. unfold tryBackend. destruct (isValid e b).
  - rewrite try_all_some. eexists _, (built p). reflexivity.
  - destruct (IH (mkProcess (socket_monitor p) (fallback p) (S (built p)) (alive p))) as (n & k & E). by exists n, k.
Qed.

(** An application that asks for the monitor gets one as long as a back end comes up,
    the same as long as it sets none, and at most one is ever made to stay. *)
Theorem instance_is_kept e p : socket_monitor p = None -> fallback p = None -> chosen e <> None ->
  exists m p', getInstance e p = (Some m, p') /\ Some (backend m) = chosen e /\ alive p' = alive p ++ [m] /\
    getInstance e p' = (Some m, p') /\ (forall o, o <> None -> setSocketMonitor e o p' = (false, p')) /\
    getInstance e (setSocketMonitor e None p').2 = (Some m, p').
Proof.
  intros Hs Hf Hc. unfold getInstance. rewrite Hs, Hf. unfold createDefaultMonitor.
  destruct (try_all_spec e [EPoll; KQueue; Poll; Select] p) as (n & k & E). rewrite E. unfold chosen in *.
  destruct (head (List.filter _ _)) as [b|] eqn:Eb; [|done]. cbv zeta.
  assert (isValid e b = true) as Hv.
  { apply head_Some_elem_of in Eb. apply list_elem_of_In, filter_In in Eb as [_ Eb]. by apply andb_prop in Eb as [_ Eb]. }
  cbn [socket_monitor fallback built alive]. unfold setSocketMonitor. rewrite Hs. cbn [socket_monitor backend]. rewrite bool_decide_eq_false_2 by (by intros []). rewrite Hv.
  cbn [negb snd socket_monitor fallback alive]. eexists _, _. split; [reflexivity|]. cbn [backend socket_monitor fallback alive].
  split; [done|]. split; [done|]. split; [done|]. split; [by intros [o|]|]. rewrite bool_decide_eq_false_2 by (by intros []). by rewrite Hv.
Qed.

Lemma instance_is_kept_witness :
  exists m p', getInstance (mkEnv (fun b => bool_decide (b <> KQueue)) (fun _ => true) (fun v => bool_decide (v = lit "SAMURAI_NO_EPOLL"))) initial_Process = (Some m, p') /\
    backend m = Poll.
Proof.
  destruct (instance_is_kept (mkEnv (fun b => bool_decide (b <> KQueue)) (fun _ => true) (fun v => bool_decide (v = lit "SAMURAI_NO_EPOLL"))) initial_Process)
    as (m & p' & E & Hb & _); [reflexivity|reflexivity|vm_compute; discriminate|].
  exists m, p'. split; [exact E|]. vm_compute in Hb. by injection Hb.
Defined.
