(* ===== verification/SocketAddress.v ===== *)
(** * SocketAddress: [InetSocketAddress] of [src/io/net/socketaddress.cpp]

    An address with a port, and the [sockaddr] built of them, which the object keeps until
    its address changes. The structures are those of a 64-bit little-endian Linux: the
    family in the byte order of the host, the port in that of the network. *)

From S2P Require Import Prelude Strings.
From S2P Require Inet.
Import Inet (Version, Unspecified, IPv4, IPv6, InetAddress, mkInetAddress, Resolved, Unresolved).

(** ** The structures of the system *)

Definition AF_UNSPEC : Z := 0.
Definition AF_INET : Z := 2.
Definition AF_INET6 : Z := 10.

(** [htons] and [ntohs], as bytes in memory. *)
Definition be16 (p : Z) : bytes := rev (le_bytes 2 p).
Definition be16_value (l : bytes) : Z := le_value (rev l).

(** [sockaddr_in]: family, port, address, padding; [sockaddr_in6]: family, port, flow,
    address, scope. *)
Definition sockaddr_in (port : Z) (sin_addr : bytes) : bytes :=
  le_bytes 2 AF_INET ++ be16 port ++ sin_addr ++ replicate 8 (chr 0).
Definition sockaddr_in6 (port : Z) (sin6_addr : bytes) : bytes :=
  le_bytes 2 AF_INET6 ++ be16 port ++ replicate 4 (chr 0) ++ sin6_addr ++ replicate 4 (chr 0).

(** The fields of a [sockaddr_storage], read as the one and as the other. *)
Definition ss_family (st : bytes) : Z := le_value (take 2 st).
Definition sin_port (st : bytes) : Z := be16_value (take 2 (drop 2 st)).
Definition sin_addr (st : bytes) : bytes := take 4 (drop 4 st).
Definition sin6_addr (st : bytes) : bytes := take 16 (drop 8 st).

(** ** The object *)

(** [cached] is [data]: empty, or the structure handed out. *)
(* @src src/include/samurai/io/net/socketaddress.h:33-68 Samurai::IO::Net::InetSocketAddress *)
Record InetSocketAddress := mkInetSocketAddress { cached : bytes; addr : InetAddress; port : Z }.

(** [InetAddress()]. *)
(* @src src/src/io/net/inetaddress.cpp:97-101 Samurai::IO::Net::InetAddress::InetAddress *)
Definition no_address : InetAddress := mkInetAddress Unspecified Inet.zero_data [] Unresolved.

(* @src src/src/io/net/socketaddress.cpp:10-13 Samurai::IO::Net::InetSocketAddress::InetSocketAddress *)
Definition new_default : InetSocketAddress := mkInetSocketAddress [] no_address 0.

(* @src src/src/io/net/socketaddress.cpp:16-28 Samurai::IO::Net::InetSocketAddress::InetSocketAddress *)
Definition new_copy (isa : InetSocketAddress) : InetSocketAddress :=
  mkInetSocketAddress [] (addr isa) (port isa).

(* @src src/src/io/net/socketaddress.cpp:31-35 Samurai::IO::Net::InetSocketAddress::InetSocketAddress *)
Definition new_address (addr_ : InetAddress) (port_ : Z) : InetSocketAddress :=
  mkInetSocketAddress [] addr_ port_.

(* @src src/src/io/net/socketaddress.cpp:38-42 Samurai::IO::Net::InetSocketAddress::InetSocketAddress *)
Definition new_port (inet_pton : Version -> bytes -> option bytes) (port_ : Z) : InetSocketAddress :=
  mkInetSocketAddress [] (Inet.new_InetAddress inet_pton (lit "0.0.0.0")) port_.

(* @src src/src/io/net/socketaddress.cpp:45-49 Samurai::IO::Net::InetSocketAddress::InetSocketAddress *)
Definition new_text (inet_pton : Version -> bytes -> option bytes) (ip : bytes) (port_ : Z) (version : Version) : InetSocketAddress :=
  mkInetSocketAddress [] (Inet.new_InetAddress_version inet_pton ip version) port_.

(** [same] says that both are one object. *)
(* @src src/src/io/net/socketaddress.cpp:55-66 Samurai::IO::Net::InetSocketAddress::operator= *)
Definition assign (same : bool) (isa this : InetSocketAddress) : InetSocketAddress :=
  if same then this else mkInetSocketAddress [] (addr isa) (port isa).

(* @src src/src/io/net/socketaddress.cpp:81-93 Samurai::IO::Net::InetSocketAddress::toString *)
Definition toString (inet_ntop : Version -> bytes -> option bytes) (this : InetSocketAddress) : bytes :=
  let address := Inet.toString inet_ntop (addr this) in
  let portstr := to_string (port this) in
  match Inet.version (addr this) with
  | IPv4 => address ++ lit ":" ++ portstr
  | IPv6 => lit "[" ++ address ++ lit "]:" ++ portstr
  | Unspecified => []
  end.

(* @src src/src/io/net/socketaddress.cpp:96-98 Samurai::IO::Net::InetSocketAddress::isLinkLocal *)
Definition isLinkLocal (this : InetSocketAddress) : bool := Inet.isLinkLocal (addr this).

(* @src src/src/io/net/socketaddress.cpp:101-110 Samurai::IO::Net::InetSocketAddress::getSockAddrFamily *)
Definition getSockAddrFamily (this : InetSocketAddress) : Z :=
  match Inet.version (addr this) with IPv4 => AF_INET | IPv6 => AF_INET6 | Unspecified => AF_UNSPEC end.

(** The bytes behind the pointer, [None] when it is null. *)
(* @src src/src/io/net/socketaddress.cpp:113-139 Samurai::IO::Net::InetSocketAddress::getSockAddr *)
Definition getSockAddr (this : InetSocketAddress) : option bytes * InetSocketAddress :=
  match cached this with
  | _ :: _ => (Some (cached this), this)
  | [] =>
      let build sa := (Some sa, mkInetSocketAddress sa (addr this) (port this)) in
      match Inet.version (addr this) with
      | IPv4 => build (sockaddr_in (port this) (take 4 (Inet.data (addr this))))
      | IPv6 => build (sockaddr_in6 (port this) (take 16 (Inet.data (addr this))))
      | Unspecified => (None, this)
      end
  end.

(* @src src/src/io/net/socketaddress.cpp:143-152 Samurai::IO::Net::InetSocketAddress::getSockAddrSize *)
Definition getSockAddrSize (this : InetSocketAddress) : Z :=
  match Inet.version (addr this) with IPv4 => 16 | IPv6 => 28 | Unspecified => 0 end.

(** A refused address leaves none; the port is taken either way. *)
(* @src src/src/io/net/socketaddress.cpp:154-162 Samurai::IO::Net::InetSocketAddress::setRawSocketAddress *)
Definition setRawSocketAddress (raw : bytes) (port_ : Z) (version_ : Version) (this : InetSocketAddress) : InetSocketAddress :=
  mkInetSocketAddress [] (default no_address (Inet.setRawAddress raw version_ no_address)) port_.

(** What the system reported as a peer: the families the library knows, or nothing. The
    same lines are in [ServerSocket::internal_accept] and [DatagramSocket::read]. *)
(* @src src/src/io/net/serversocket.cpp:182-191 Samurai::IO::Net::ServerSocket::internal_accept *)
Definition from_storage (st : bytes) : option InetSocketAddress :=
  if ss_family st =? AF_INET then
    Some (setRawSocketAddress (sin_addr st) (sin_port st) IPv4 new_default)
  else if ss_family st =? AF_INET6 then
    Some (setRawSocketAddress (sin6_addr st) (sin_port st) IPv6 new_default)
  else None.

(** ** The structure handed out is that of the address *)

(** What the structure of an address and port is, said without the cache. *)
Definition structure_of (a : InetAddress) (p : Z) : option bytes :=
  match Inet.version a with
  | IPv4 => Some (sockaddr_in p (take 4 (Inet.data a)))
  | IPv6 => Some (sockaddr_in6 p (take 16 (Inet.data a)))
  | Unspecified => None
  end.

Definition cache_ok (s : InetSocketAddress) : Prop :=
  cached s = [] \/ structure_of (addr s) (port s) = Some (cached s).

(** What can happen to an object after it is constructed. *)
Inductive Change := Assign (same : bool) (isa : InetSocketAddress) | SetRaw (raw : bytes) (port_ : Z) (v : Version) | Ask.

Definition change (s : InetSocketAddress) (c : Change) : InetSocketAddress :=
  match c with
  | Assign same isa => assign same isa s
  | SetRaw raw p v => setRawSocketAddress raw p v s
  | Ask => (getSockAddr s).2
  end.

Lemma getSockAddr_spec s :
  cache_ok s -> (getSockAddr s).1 = structure_of (addr s) (port s) /\ cache_ok (getSockAddr s).2.
Proof.
  intros H. unfold getSockAddr. destruct (cached s) as [|c l] eqn:E.
  - unfold structure_of, cache_ok. destruct (Inet.version (addr s)) eqn:V; cbn -[sockaddr_in sockaddr_in6].
    + split; [done|]. by left.
    + split; [done|]. right. unfold structure_of. cbn [addr port]. by rewrite V.
    + split; [done|]. right. unfold structure_of. cbn [addr port]. by rewrite V.
  - split; [|done]. destruct H as [H|H]; [congruence|]. by rewrite H, E.
Qed.

Lemma change_ok s c : cache_ok s -> cache_ok (change s c).
Proof.
  intros H. destruct c as [same isa|raw p v|]; cbn [change].
  - unfold assign. destruct same; [done|]. by left.
  - by left.
  - by apply getSockAddr_spec.
Qed.

Lemma changes_ok l s : cache_ok s -> cache_ok (foldl change s l).
Proof. revert s. induction l as [|c l IH]; intros s H; [done|]. cbn [foldl]. by apply IH, change_ok. Qed.

(** The structure an object hands out is always that of the address and port it has then,
    however it was assigned to and asked before; it has the size the object says. *)
Theorem sockaddr_current l s :
  cached s = [] ->
  let s' := foldl change s l in
  (getSockAddr s').1 = structure_of (addr s') (port s').
Proof. intros H s'. apply getSockAddr_spec, changes_ok. by left. Qed.

Lemma sockaddr_current_witness :
  let s := foldl change new_default
             [SetRaw [chr 10; chr 0; chr 0; chr 1] 80 IPv4; Ask;
              SetRaw (replicate 15 (chr 0) ++ [chr 1]) 443 IPv6] in
  (getSockAddr s).1 = structure_of (addr s) (port s).
Proof.
  exact (sockaddr_current [SetRaw [chr 10; chr 0; chr 0; chr 1] 80 IPv4; Ask;
              SetRaw (replicate 15 (chr 0) ++ [chr 1]) 443 IPv6] new_default eq_refl).
Defined.

(** ** Round trip *)

(** Addresses as the constructors make them: sixteen bytes, zero past an IPv4 address. *)
Definition address_wf (a : InetAddress) : Prop :=
  length (Inet.data a) = 16%nat /\
  (Inet.version a = IPv4 -> Inet.data a = Inet.fill_data (take 4 (Inet.data a))).

Lemma be16_roundtrip p : 0 <= p < 2 ^ 16 -> be16_value (be16 p) = p.
Proof.
  intros. unfold be16, be16_value. rewrite rev_involutive, le_value_le_bytes. by apply Z.mod_small.
Qed.

Lemma length_be16 p : length (be16 p) = 2%nat.
Proof. done. Qed.

Lemma structure_size s : cached s = [] -> address_wf (addr s) ->
  match (getSockAddr s).1 with Some sa => zlen sa = getSockAddrSize s | None => getSockAddrSize s = 0 end.
Proof.
  intros Hc [Hl _]. unfold getSockAddr, getSockAddrSize. rewrite Hc.
  destruct (Inet.version (addr s)); [done|..];
    unfold sockaddr_in, sockaddr_in6, zlen; cbn [fst];
    rewrite !length_app, length_be16, length_take, !length_replicate, length_le_bytes, Hl; done.
Qed.

Lemma in_fields p raw rest : length raw = 4%nat ->
  let st := sockaddr_in p raw ++ rest in
  ss_family st = AF_INET /\ sin_port st = be16_value (be16 p) /\ sin_addr st = raw.
Proof.
  intros Hr st. destruct raw as [|a [|b [|c [|d [|]]]]]; try done.
Qed.

Lemma in6_fields p raw rest : length raw = 16%nat ->
  let st := sockaddr_in6 p raw ++ rest in
  ss_family st = AF_INET6 /\ sin_port st = be16_value (be16 p) /\ sin6_addr st = raw.
Proof.
  intros Hr st. split; [done|]. split; [done|]. unfold sin6_addr, st, sockaddr_in6.
  rewrite <- !app_assoc. change (take 16 (raw ++ (replicate 4 (chr 0) ++ rest)) = raw).
  rewrite <- Hr. apply take_app_length.
Qed.

(** What the system is given for an address, and hands back in a [sockaddr_storage] - of a
    peer that connected, of the sender of a datagram - is read as that address and port. *)
Theorem sockaddr_roundtrip s sa rest :
  cache_ok s -> address_wf (addr s) -> 0 <= port s < 2 ^ 16 ->
  (getSockAddr s).1 = Some sa ->
  exists t, from_storage (sa ++ rest) = Some t /\
    Inet.same_address (addr t) (addr s) = true /\ port t = port s /\ Inet.resolveState (addr t) = Resolved.
Proof.
  intros Hc [Hl H4] Hp Hg. destruct (getSockAddr_spec s Hc) as [E _]. rewrite Hg in E. symmetry in E.
  unfold structure_of in E. destruct (Inet.version (addr s)) eqn:V; [done|..]; injection E as <-.
  - destruct (in_fields (port s) (take 4 (Inet.data (addr s))) rest) as (F & P & A); [rewrite length_take; lia|].
    unfold from_storage. rewrite F, P, A, be16_roundtrip by done. cbn [Z.eqb].
    unfold setRawSocketAddress, Inet.setRawAddress. rewrite (bool_decide_eq_true_2 (IPv4 = IPv4)) by done.
    rewrite (bool_decide_eq_false_2 (IPv4 = IPv6)) by done.
    assert (zlen (take 4 (Inet.data (addr s))) = 4) as -> by (unfold zlen; rewrite length_take; lia).
    eexists. split; [reflexivity|]. cbn. unfold Inet.same_address. cbn.
    rewrite V, <- H4, !bool_decide_eq_true_2 by done. done.
  - destruct (in6_fields (port s) (take 16 (Inet.data (addr s))) rest) as (F & P & A); [rewrite length_take; lia|].
    unfold from_storage. rewrite F, P, A, be16_roundtrip by done. cbn [Z.eqb].
    unfold setRawSocketAddress, Inet.setRawAddress. rewrite (bool_decide_eq_true_2 (IPv6 = IPv6)) by done.
    rewrite (bool_decide_eq_false_2 (IPv6 = IPv4)) by done.
    rewrite firstn_all2 by lia.
    assert (zlen (Inet.data (addr s)) = 16) as -> by (unfold zlen; lia).
    eexists. split; [reflexivity|]. cbn. unfold Inet.same_address, Inet.fill_data. cbn.
    rewrite V, Hl. cbn. rewrite app_nil_r, !bool_decide_eq_true_2 by done. done.
Qed.

Lemma sockaddr_roundtrip_witness :
  let s := setRawSocketAddress [chr 192; chr 168; chr 1; chr 7] 8080 IPv4 new_default in
  exists t, from_storage (default [] (getSockAddr s).1 ++ replicate 112 (chr 0)) = Some t /\
    Inet.same_address (addr t) (addr s) = true /\ port t = port s /\ Inet.resolveState (addr t) = Resolved.
Proof.
  apply sockaddr_roundtrip; [by left| |cbn; lia|reflexivity]. split; [reflexivity|]. reflexivity.
Defined.
