(* ===== verification/SocketBase.v ===== *)
(** * SocketBase: [src/io/net/socketbase.cpp] over a system that answers as it likes

    What the server, datagram and multicast sockets share: the descriptor, the address, the
    options and the registration. A world is the trace of what was done so far - calls of
    the system with their answers, registrations with the monitor, events told - and an
    answer may depend on all of it. *)

From S2P Require Import Prelude SocketAddress.
From S2P Require Inet Socket MonitorBackends.
Import Inet (Version, Unspecified, IPv4, IPv6, InetAddress, mkInetAddress, Resolved, Unresolved).
Import Socket (SocketState, Disconnected, Connecting, Connected, Listening, Invalid).
Import MonitorBackends (Triggers.Read, Triggers.Write, Triggers.Close, Triggers.Error).

#[local] Existing Instances Inet.Version_eq_dec Socket.SocketState_eq_dec.

Definition INVALID_SOCKET : Z := -1.

(** The errors the code tells apart, with the numbers of Linux. *)
Definition EINTR : Z := 4.
Definition EBADF : Z := 9.
Definition EAGAIN : Z := 11.
Definition EWOULDBLOCK : Z := 11.
Definition EINVAL : Z := 22.
Definition ENFILE : Z := 23.
Definition EMFILE : Z := 24.
Definition EDESTADDRREQ : Z := 89.
Definition ECONNABORTED : Z := 103.

(* @src src/include/samurai/io/net/socketbase.h:81-81 Samurai::IO::Net::SocketBase::SocketType *)
Inductive SocketType := Stream | Datagram.

#[export] Instance SocketType_eq_dec : EqDecision SocketType.
Proof. solve_decision. Defined.

(** ** The system and the trace *)

Inductive Option_ :=
  | SO_KEEPALIVE | SO_REUSEADDR | SO_REUSEPORT | SO_SNDBUF | SO_RCVBUF
  | IP_TTL | IPV6_UNICAST_HOPS | IPV6_V6ONLY
  | IP_MULTICAST_TTL | IP_MULTICAST_LOOP | IP_MULTICAST_IF
  | IPV6_MULTICAST_HOPS | IPV6_MULTICAST_LOOP | IPV6_MULTICAST_IF
  | IP_ADD_MEMBERSHIP | IP_DROP_MEMBERSHIP | IPV6_JOIN_GROUP | IPV6_LEAVE_GROUP.

(** What options carry: an [int], an [ip_mreqn], an [ipv6_mreq]. *)
Inductive Value := Int (z : Z) | Mreqn (group iface : bytes) (ifindex : Z) | Mreq6 (group : bytes) (ifindex : Z).

Inductive Call :=
  | SysSocket (af : Z) (type : SocketType)
  | SysBind (sd : Z) (sa : bytes) | SysListen (sd backlog : Z) | SysAccept (sd : Z)
  | SysSetOpt (sd : Z) (o : Option_) (v : Value) | SysGetOpt (sd : Z) (o : Option_) | SysNonBlock (sd : Z) (on : bool)
  | SysGetSockName (sd : Z)
  | SysSendTo (sd : Z) (data sa : bytes) | SysRecvFrom (sd size : Z)
  | SysShutdown (sd : Z) | SysClose (sd : Z).

#[export] Instance Option_eq_dec : EqDecision Option_.
Proof. solve_decision. Defined.
#[export] Instance Value_eq_dec : EqDecision Value.
Proof. solve_decision. Defined.
#[export] Instance Call_eq_dec : EqDecision Call.
Proof. solve_decision. Defined.

(** An errno, or a number with what was written to the buffers of the call. *)
Inductive Reply := Err (errno : Z) | Ret (z : Z) (data from : bytes).

#[export] Instance Reply_eq_dec : EqDecision Reply.
Proof. solve_decision. Defined.

(** [Told] an event, named by [E]. *)
Inductive Entry (E : Type) :=
  | Called (c : Call) (r : Reply)
  | Added (sd trigger : Z) | Modified (sd trigger : Z) | Removed (sd : Z)
  | Told (e : E).
Arguments Called {E} _ _.
Arguments Added {E} _ _.
Arguments Modified {E} _ _.
Arguments Removed {E} _.
Arguments Told {E} _.

Abbreviation World E := (list (Entry E)).

(** [net_error]: that of the last call that failed. *)
(* @src src/include/samurai/io/net/socketglue.h:68-75 net_error *)
Definition net_error {E} (w : World E) : Z :=
  foldl (fun e x => match x with Called _ (Err n) => n | _ => e end) 0 w.

(** Whether the monitor has a descriptor; it takes no invalid one. *)
Definition watched {E} (d : Z) (w : World E) : bool :=
  foldl (fun on x => match x with
                     | Added d' _ => on || (d' =? d) && negb (d' =? INVALID_SOCKET)
                     | Removed d' => on && negb (d' =? d)
                     | _ => on
                     end) false w.

(** ** The object *)

(* @src src/include/samurai/io/net/socketbase.h:242-259 Samurai::IO::Net::SocketBase *)
Record Base := mkBase {
  sd : Z;
  addr : option InetSocketAddress;
  state : SocketState;
  ia : option InetAddress;
  local_ia : option InetAddress;
  monitor_trigger : Z;
  monitored : bool;
  type : SocketType
}.

Definition with_sd (d : Z) (b : Base) : Base :=
  mkBase d (addr b) (state b) (ia b) (local_ia b) (monitor_trigger b) (monitored b) (type b).
Definition with_addr (a : option InetSocketAddress) (b : Base) : Base :=
  mkBase (sd b) a (state b) (ia b) (local_ia b) (monitor_trigger b) (monitored b) (type b).
(* @src src/src/io/net/socketbase.cpp:438-441 Samurai::IO::Net::SocketBase::setState *)
Definition setState (st : SocketState) (b : Base) : Base :=
  mkBase (sd b) (addr b) st (ia b) (local_ia b) (monitor_trigger b) (monitored b) (type b).
Definition with_ia (a : option InetAddress) (b : Base) : Base :=
  mkBase (sd b) (addr b) (state b) a (local_ia b) (monitor_trigger b) (monitored b) (type b).
Definition with_local_ia (a : option InetAddress) (b : Base) : Base :=
  mkBase (sd b) (addr b) (state b) (ia b) a (monitor_trigger b) (monitored b) (type b).
Definition with_monitor (t : Z) (m : bool) (b : Base) : Base :=
  mkBase (sd b) (addr b) (state b) (ia b) (local_ia b) t m (type b).

(** The address is copied, which leaves its cached structure behind. *)
(* @src src/src/io/net/socketbase.cpp:16-23 Samurai::IO::Net::SocketBase::SocketBase *)
Definition new_at (addr_ : InetSocketAddress) (type_ : SocketType) : Base :=
  mkBase INVALID_SOCKET (Some (new_copy addr_)) Connected None None MonitorBackends.Triggers.None false type_.

(* @src src/src/io/net/socketbase.cpp:26-33 Samurai::IO::Net::SocketBase::SocketBase *)
Definition new_accepted (sd_ : Z) (addr_ : InetSocketAddress) (type_ : SocketType) : Base :=
  with_sd sd_ (new_at addr_ type_).

(* @src src/src/io/net/socketbase.cpp:35-39 Samurai::IO::Net::SocketBase::SocketBase *)
Definition new_host (addr_ : InetAddress) (port_ : Z) (type_ : SocketType) : Base :=
  with_addr (Some (new_address addr_ port_)) (new_at new_default type_).

(* @src src/src/io/net/socketbase.cpp:42-45 Samurai::IO::Net::SocketBase::SocketBase *)
Definition new_bare (type_ : SocketType) : Base :=
  mkBase INVALID_SOCKET None Disconnected None None MonitorBackends.Triggers.None false type_.

(** [createDescriptor] and the setters answer with the error code they leave: [None] is
    success. *)
Section base.
Context {E : Type}.
Variable answer : World E -> Call -> Reply.
Implicit Types w : World E.

Definition sys (c : Call) (w : World E) : Reply * World E := (answer w c, w ++ [Called c (answer w c)]).

Definition failed (r : Reply) : bool := match r with Err _ => true | Ret _ _ _ => false end.

(** ** Descriptor and registration *)

(* @src src/src/io/net/socketbase.cpp:415-436 Samurai::IO::Net::SocketBase::createDescriptor *)
Definition createDescriptor (af : Z) (b : Base) w : bool * Base * World E :=
  let '(r, w) := sys (SysSocket af (type b)) w in
  let d := match r with Err _ => INVALID_SOCKET | Ret z _ _ => z end in
  (negb (d =? INVALID_SOCKET), with_sd d b, w).

(* @src src/src/io/net/socketbase.cpp:394-404 Samurai::IO::Net::SocketBase::setMonitor *)
Definition setMonitor (trigger : Z) (b : Base) w : Base * World E :=
  if monitored b then (with_monitor trigger true b, w ++ [Modified (sd b) trigger])
  else (with_monitor trigger true b, w ++ [Added (sd b) trigger]).

(* @src src/src/io/net/socketbase.cpp:406-413 Samurai::IO::Net::SocketBase::disableMonitor *)
Definition disableMonitor (b : Base) w : Base * World E :=
  if monitored b then (with_monitor (monitor_trigger b) false b, w ++ [Removed (sd b)]) else (b, w).

(* @src src/src/io/net/socketbase.cpp:378-392 Samurai::IO::Net::SocketBase::close *)
Definition close (b : Base) w : Base * World E :=
  if sd b =? INVALID_SOCKET then (b, w)
  else let '(b, w) := disableMonitor b w in
       let '(_, w) := sys (SysShutdown (sd b)) w in
       let '(_, w) := sys (SysClose (sd b)) w in
       (with_sd INVALID_SOCKET b, w).

(** ** Options *)

(** Setting an option; [ec] is what the call left behind. *)
(* @src src/src/io/net/socketbase.cpp:176-184 Samurai::IO::Net::SocketBase::setKeepAlive *)
Definition set_option (o : Option_) (v : Value) (b : Base) w : option Z * World E :=
  let '(r, w) := sys (SysSetOpt (sd b) o v) w in
  (if failed r then Some (net_error w) else None, w).

Definition toggle_value (toggle : bool) : Value := Int (if toggle then 1 else 0).

(* @src src/src/io/net/socketbase.cpp:170-184 Samurai::IO::Net::SocketBase::setKeepAlive *)
Definition setKeepAlive (toggle : bool) (b : Base) w := set_option SO_KEEPALIVE (toggle_value toggle) b w.
(* @src src/src/io/net/socketbase.cpp:234-250 Samurai::IO::Net::SocketBase::setReuseAddress *)
Definition setReuseAddress (toggle : bool) (b : Base) w := set_option SO_REUSEADDR (toggle_value toggle) b w.
(* @src src/src/io/net/socketbase.cpp:252-273 Samurai::IO::Net::SocketBase::setReusePort *)
Definition setReusePort (toggle : bool) (b : Base) w := set_option SO_REUSEPORT (toggle_value toggle) b w.
(* @src src/src/io/net/socketbase.cpp:444-468 Samurai::IO::Net::SocketBase::setIPv6Only *)
Definition setIPv6Only (toggle : bool) (b : Base) w := set_option IPV6_V6ONLY (toggle_value toggle) b w.

(* @src src/src/io/net/socketbase.cpp:187-232 Samurai::IO::Net::SocketBase::setNonBlocking *)
Definition setNonBlocking (toggle : bool) (b : Base) w : option Z * World E :=
  let '(r, w) := sys (SysNonBlock (sd b) toggle) w in
  (if failed r then Some (net_error w) else None, w).

(** [(int) size] of a [size_t]. *)
Definition to_int (size : Z) : Z := if 2 ^ 31 <=? u32 size then u32 size - 2 ^ 32 else u32 size.

(* @src src/src/io/net/socketbase.cpp:276-292 Samurai::IO::Net::SocketBase::setSendBufferSize *)
Definition setSendBufferSize (size : Z) (b : Base) w := set_option SO_SNDBUF (Int (to_int size)) b w.
(* @src src/src/io/net/socketbase.cpp:304-320 Samurai::IO::Net::SocketBase::setReceiveBufferSize *)
Definition setReceiveBufferSize (size : Z) (b : Base) w := set_option SO_RCVBUF (Int (to_int size)) b w.

(** What [getsockopt] writes over an initial 0. *)
Definition get_option (o : Option_) (b : Base) w : option Z * World E :=
  let '(r, w) := sys (SysGetOpt (sd b) o) w in
  (match r with Err _ => None | Ret v _ _ => Some v end, w).

(* @src src/src/io/net/socketbase.cpp:294-302 Samurai::IO::Net::SocketBase::getSendBufferSize *)
Definition getSendBufferSize (b : Base) w : Z * World E :=
  let '(r, w) := get_option SO_SNDBUF b w in
  (match r with None => 0 | Some value => if value <? 0 then 0 else value end, w).
(* @src src/src/io/net/socketbase.cpp:322-330 Samurai::IO::Net::SocketBase::getReceiveBufferSize *)
Definition getReceiveBufferSize (b : Base) w : Z * World E :=
  let '(r, w) := get_option SO_RCVBUF b w in
  (match r with None => 0 | Some value => if value <? 0 then 0 else value end, w).

(* @src src/src/io/net/socketbase.cpp:334-339 Samurai::IO::Net::SocketBase::isIPv6 *)
Definition isIPv6 (b : Base) : bool :=
  match addr b with Some isa => bool_decide (Inet.version (SocketAddress.addr isa) = IPv6) | None => false end.

Definition ttl_option (b : Base) : Option_ := if isIPv6 b then IPV6_UNICAST_HOPS else IP_TTL.

(* @src src/src/io/net/socketbase.cpp:342-353 Samurai::IO::Net::SocketBase::getTimeToLive *)
Definition getTimeToLive (b : Base) w : Z * World E :=
  let '(r, w) := get_option (ttl_option b) b w in (u8 (default 0 r), w).
(* @src src/src/io/net/socketbase.cpp:355-375 Samurai::IO::Net::SocketBase::setTimeToLive *)
Definition setTimeToLive (ttl : Z) (b : Base) w := set_option (ttl_option b) (Int ttl) b w.

(** ** Addresses *)

(** The structure is built here again, of the raw bytes of the address. *)
(* @src src/src/io/net/socketbase.cpp:84-133 Samurai::IO::Net::SocketBase::bind *)
Definition bind (sa : option InetSocketAddress) (b : Base) w : option Z * World E :=
  match sa with
  | Some isa =>
      if sd b =? INVALID_SOCKET then (Some EINVAL, w)
      else
        let ask localaddr :=
          let '(r, w) := sys (SysBind (sd b) localaddr) w in
          (if failed r then Some (net_error w) else None, w) in
        match Inet.version (SocketAddress.addr isa) with
        | IPv4 => ask (sockaddr_in (port isa) (take 4 (Inet.data (SocketAddress.addr isa))))
        | IPv6 => ask (sockaddr_in6 (port isa) (take 16 (Inet.data (SocketAddress.addr isa))))
        | Unspecified => (Some EINVAL, w)
        end
  | None => (Some EINVAL, w)
  end.

(* @src src/src/io/net/socketbase.cpp:51-82 Samurai::IO::Net::SocketBase::getLocalAddress *)
Definition getLocalAddress (b : Base) w : option InetAddress * Base * World E :=
  if sd b =? INVALID_SOCKET then (None, b, w)
  else
    let '(r, w) := sys (SysGetSockName (sd b)) w in
    match r with
    | Err _ => (None, b, w)
    | Ret _ _ localaddr =>
        let mine := default no_address (local_ia b) in
        let tell raw v :=
          match Inet.setRawAddress raw v mine with
          | Some a => (Some a, with_local_ia (Some a) b, w)
          | None => (None, with_local_ia (Some mine) b, w)
          end in
        if ss_family localaddr =? AF_INET then tell (sin_addr localaddr) IPv4
        else if ss_family localaddr =? AF_INET6 then tell (sin6_addr localaddr) IPv6
        else (None, with_local_ia (Some mine) b, w)
    end.

(* @src src/src/io/net/socketbase.cpp:136-143 Samurai::IO::Net::SocketBase::getLocalPort *)
Definition getLocalPort (b : Base) w : Z * World E :=
  if bool_decide (state b = Connected) || bool_decide (state b = Connecting) || bool_decide (state b = Listening) then
    let '(r, w) := sys (SysGetSockName (sd b)) w in
    (match r with Err _ => 0 | Ret _ _ localaddr => sin_port localaddr end, w)
  else (0, w).

(* @src src/src/io/net/socketbase.cpp:151-161 Samurai::IO::Net::SocketBase::getAddress *)
Definition getAddress (b : Base) : option InetAddress * Base :=
  match addr b with
  | None => (None, b)
  | Some isa => let peer := SocketAddress.addr isa in (Some peer, with_ia (Some peer) b)
  end.

(* @src src/src/io/net/socketbase.cpp:164-167 Samurai::IO::Net::SocketBase::getPort *)
Definition getPort (b : Base) : Z := match addr b with Some isa => port isa | None => 0 end.

(* @src src/src/io/net/socketbase.cpp:47-49 Samurai::IO::Net::SocketBase::~SocketBase *)
Definition destroy (b : Base) w : Base * World E := disableMonitor b w.

End base.

(** ** Descriptors are used while they are open, and watched while they are monitored *)

(** The descriptor a call names. *)
Definition names (c : Call) : option Z :=
  match c with
  | SysSocket _ _ => None
  | SysBind d _ | SysListen d _ | SysAccept d | SysSetOpt d _ _ | SysGetOpt d _ | SysNonBlock d _
  | SysGetSockName d | SysSendTo d _ _ | SysRecvFrom d _ | SysShutdown d | SysClose d => Some d
  end.

Section trace.
Context {E : Type}.
Implicit Types (w : World E) (b : Base).

(** A descriptor is closed from a [close] of it to the call that hands it out again. *)
Definition closed_step (d : Z) (was : bool) (x : Entry E) : bool :=
  match x with
  | Called (SysClose d') _ => was || (d' =? d)
  | Called (SysSocket _ _) (Ret z _ _) | Called (SysAccept _) (Ret z _ _) => was && negb (z =? d)
  | _ => was
  end.
Definition closed (d : Z) w : bool := foldl (closed_step d) false w.

(** What an entry asks of a descriptor that is not the invalid one. *)
Definition uses (x : Entry E) (d : Z) : Prop :=
  d <> INVALID_SOCKET /\
  match x with Called c _ => names c = Some d | Added d' _ | Modified d' _ | Removed d' => d' = d | Told _ => False end.

(** No descriptor is named after it was closed. *)
Inductive tidy : World E -> Prop :=
  | tidy_nil : tidy []
  | tidy_snoc w x : tidy w -> (forall d, uses x d -> closed d w = false) -> tidy (w ++ [x]).

Lemma closed_snoc d w x : closed d (w ++ [x]) = closed_step d (closed d w) x.
Proof. unfold closed. by rewrite foldl_app. Qed.

Lemma watched_snoc d w (x : Entry E) :
  watched d (w ++ [x]) =
  match x with
  | Added d' _ => watched d w || (d' =? d) && negb (d' =? INVALID_SOCKET)
  | Removed d' => watched d w && negb (d' =? d)
  | _ => watched d w
  end.
Proof. unfold watched. by rewrite foldl_app. Qed.

(** The socket's own descriptor is open, and the monitor has it exactly while the socket is
    monitored; nothing else of the socket is with the monitor. *)
Record good b w : Prop := {
  good_tidy : tidy w;
  good_open : sd b <> INVALID_SOCKET -> closed (sd b) w = false;
  good_watched d : watched d w = monitored b && (sd b =? d) && negb (sd b =? INVALID_SOCKET)
}.

Lemma good_told b w e : good b w -> good b (w ++ [Told e]).
Proof.
  intros [T O W]. split.
  - constructor; [done|]. by intros d [_ []].
  - rewrite closed_snoc. done.
  - intros d. rewrite watched_snoc. apply W.
Qed.

(** A call on the socket's own descriptor that neither closes nor hands out one. *)
Definition plain (c : Call) : Prop :=
  match c with SysSocket _ _ | SysClose _ | SysAccept _ => False | _ => True end.

Lemma good_own b w c r : good b w -> plain c -> names c = Some (sd b) -> good b (w ++ [Called c r]).
Proof.
  intros [T O W] Hp Hn. split.
  - constructor; [done|]. intros d [Hd Hu]. cbn in Hu. rewrite Hn in Hu. injection Hu as <-. by apply O.
  - intros Hv. rewrite closed_snoc. destruct c; try done; by apply O.
  - intros d. rewrite watched_snoc. apply W.
Qed.

(** A call on another descriptor that is open. *)
Lemma good_other b w c r d : good b w -> names c = Some d -> d <> sd b -> closed d w = false ->
  (forall d, c <> SysAccept d) -> good b (w ++ [Called c r]).
Proof.
  intros [T O W] Hn Hd Hc Ha. split.
  - constructor; [done|]. intros d' [Hd' Hu]. cbn in Hu. rewrite Hn in Hu. by injection Hu as <-.
  - intros Hv. rewrite closed_snoc. specialize (O Hv). destruct c; try done.
    + by destruct (Ha sd0).
    + cbn in *. injection Hn as ->. rewrite O. by apply Z.eqb_neq.
  - intros d'. rewrite watched_snoc. apply W.
Qed.

(** Accepting a connection on the socket's own descriptor; what it gives out is open. *)
Lemma good_accept b w r : good b w -> good b (w ++ [Called (SysAccept (sd b)) r]).
Proof.
  intros [T O W]. split.
  - constructor; [done|]. intros d [Hd Hu]. cbn in Hu. injection Hu as <-. by apply O.
  - intros Hv. rewrite closed_snoc. specialize (O Hv). cbn. rewrite O. by destruct r.
  - intros d'. rewrite watched_snoc. apply W.
Qed.

Lemma closed_accepted w d z dt fr : closed z (w ++ [Called (SysAccept d) (Ret z dt fr)]) = false.
Proof. rewrite closed_snoc. cbn. rewrite Z.eqb_refl. apply andb_false_r. Qed.

(** Only those fields count. *)
Lemma good_same b b' w : sd b' = sd b -> monitored b' = monitored b -> good b w -> good b' w.
Proof. intros E1 E2 [T O W]. split; [done|..]; rewrite E1; [done|]. by rewrite E2. Qed.

Lemma good_new b : monitored b = false -> sd b = INVALID_SOCKET -> good b [].
Proof. intros Hm Hs. split; [constructor|done|]. intros d. by rewrite Hm. Qed.
End trace.

Section good_ops.
Context {E : Type}.
Variable answer : World E -> Call -> Reply.
Implicit Types (w : World E) (b : Base).

Lemma good_sys b w c : good b w -> plain c -> names c = Some (sd b) -> good b (sys answer c w).2.
Proof. apply good_own. Qed.

Lemma createDescriptor_good af b w : good b w -> monitored b = false ->
  let '(ok, b', w') := createDescriptor answer af b w in
  good b' w' /\ monitored b' = false /\ ok = negb (sd b' =? INVALID_SOCKET) /\ addr b' = addr b /\ state b' = state b.
Proof.
  intros [T O W] Hm. unfold createDescriptor, sys.
  destruct (answer w (SysSocket af (type b))) as [e|z dt fr]; cbn; (split; [|done]); split; cbn.
  - constructor; [done|]. by intros d [_ Hu].
  - done.
  - intros d. rewrite watched_snoc, W, Hm. done.
  - constructor; [done|]. by intros d [_ Hu].
  - intros _. rewrite closed_snoc. cbn. rewrite Z.eqb_refl. by rewrite andb_false_r.
  - intros d. rewrite watched_snoc, W, Hm. done.
Qed.

Lemma setMonitor_good t b w : good b w ->
  good (setMonitor t b w).1 (setMonitor t b w).2 /\ monitored (setMonitor t b w).1 = true /\
  monitor_trigger (setMonitor t b w).1 = t /\
  sd (setMonitor t b w).1 = sd b /\ addr (setMonitor t b w).1 = addr b /\ state (setMonitor t b w).1 = state b.
Proof.
  intros [T O W]. unfold setMonitor. destruct (monitored b) eqn:Hm; cbn [fst snd]; (split; [|done]); split; cbn.
  - constructor; [done|]. intros d [Hd Hu]. cbn in Hu. subst d. by apply O.
  - intros Hv. rewrite closed_snoc. by apply O.
  - intros d. rewrite watched_snoc. rewrite W. done.
  - constructor; [done|]. intros d [Hd Hu]. cbn in Hu. subst d. by apply O.
  - intros Hv. rewrite closed_snoc. by apply O.
  - intros d. rewrite watched_snoc, W. done.
Qed.

Lemma disableMonitor_good b w : good b w ->
  good (disableMonitor b w).1 (disableMonitor b w).2 /\ monitored (disableMonitor b w).1 = false /\
  sd (disableMonitor b w).1 = sd b /\ addr (disableMonitor b w).1 = addr b /\ state (disableMonitor b w).1 = state b.
Proof.
  intros [T O W]. unfold disableMonitor. destruct (monitored b) eqn:Hm; cbn [fst snd]; (split; [|done]); split; cbn.
  - constructor; [done|]. intros d [Hd Hu]. cbn in Hu. subst d. by apply O.
  - intros Hv. rewrite closed_snoc. by apply O.
  - intros d. rewrite watched_snoc, W. cbn. by destruct (sd b =? d), (sd b =? INVALID_SOCKET).
  - done.
  - done.
  - intros d. rewrite W, Hm. done.
Qed.

Lemma close_good b w : good b w ->
  good (close answer b w).1 (close answer b w).2 /\ sd (close answer b w).1 = INVALID_SOCKET /\
  addr (close answer b w).1 = addr b /\ state (close answer b w).1 = state b.
Proof.
  intros G. unfold close. destruct (Z.eqb_spec (sd b) INVALID_SOCKET) as [Hv|Hv]; [done|].
  destruct (disableMonitor_good b w G) as (G1 & Hm & Hs & Ha & Hst).
  destruct (disableMonitor b w) as [b1 w1]. cbn in *.
  assert (good b1 (w1 ++ [Called (SysShutdown (sd b1)) (answer w1 (SysShutdown (sd b1)))])) as G2 by by apply good_own.
  destruct G2 as [T O W]. split; [|done]. split; cbn.
  - constructor; [done|]. intros d [Hd Hu]. cbn in Hu. injection Hu as <-. by apply O.
  - done.
  - intros d. rewrite watched_snoc, W, Hm. done.
Qed.

Lemma set_option_good o v b w : good b w -> good b (set_option answer o v b w).2.
Proof. intros G. unfold set_option. cbn. by apply good_own. Qed.

Lemma setNonBlocking_good t b w : good b w -> good b (setNonBlocking answer t b w).2.
Proof. intros G. unfold setNonBlocking. cbn. by apply good_own. Qed.

Lemma get_option_good o b w : good b w -> good b (get_option answer o b w).2.
Proof. intros G. unfold get_option. cbn. by apply good_own. Qed.

Lemma bind_good sa b w : good b w -> good b (bind answer sa b w).2.
Proof.
  intros G. unfold bind. destruct sa as [isa|]; [|done]. destruct (sd b =? INVALID_SOCKET); [done|].
  destruct (Inet.version (SocketAddress.addr isa)); [done|..]; cbn; by apply good_own.
Qed.

(** What is bound is the structure the address object would hand out. *)
Lemma bind_structure isa b w : sd b <> INVALID_SOCKET ->
  bind answer (Some isa) b w =
  match structure_of (SocketAddress.addr isa) (port isa) with
  | Some sa => let '(r, w) := sys answer (SysBind (sd b) sa) w in (if failed r then Some (net_error w) else None, w)
  | None => (Some EINVAL, w)
  end.
Proof.
  intros Hv. unfold bind, structure_of. apply Z.eqb_neq in Hv as ->.
  by destruct (Inet.version (SocketAddress.addr isa)).
Qed.

(** ** Options read back *)

(** A system that keeps what an option was set to. *)
Definition keeps (o : Option_) : Prop :=
  forall w d z r, answer w (SysSetOpt d o (Int z)) = r -> failed r = false ->
  exists dt fr, answer (w ++ [Called (SysSetOpt d o (Int z)) r]) (SysGetOpt d o) = Ret z dt fr.

(** A hop limit that could be set is the one read back, for either family. *)
Lemma ttl_reads_back ttl b w : keeps (ttl_option b) -> 0 <= ttl < 256 ->
  (setTimeToLive answer ttl b w).1 = None ->
  (getTimeToLive answer b (setTimeToLive answer ttl b w).2).1 = ttl.
Proof.
  intros Hk Ht. unfold setTimeToLive, getTimeToLive, set_option, get_option, sys. cbn.
  destruct (failed _) eqn:Ef; [done|]. intros _.
  destruct (Hk w (sd b) ttl _ eq_refl Ef) as (dt & fr & ->). cbn. by apply Z.mod_small.
Qed.

(** The size is cut to an [int] on the way: 4 GiB asks for no buffer at all. *)
Lemma huge_buffer_asks_zero b w : sd b = 3 ->
  (setSendBufferSize answer (2 ^ 32) b w).2 = w ++ [Called (SysSetOpt 3 SO_SNDBUF (Int 0)) (answer w (SysSetOpt 3 SO_SNDBUF (Int 0)))].
Proof. intros Hs. unfold setSendBufferSize, set_option, sys. by rewrite Hs. Qed.

(** ** The trace only grows *)

Lemma sys_grows c w : w `prefix_of` (sys answer c w).2.
Proof. by apply prefix_app_r. Qed.
Lemma setMonitor_grows t b w : w `prefix_of` (setMonitor t b w).2.
Proof. unfold setMonitor. destruct (monitored b); by apply prefix_app_r. Qed.
Lemma disableMonitor_grows b w : w `prefix_of` (disableMonitor b w).2.
Proof. unfold disableMonitor. destruct (monitored b); [by apply prefix_app_r|done]. Qed.
Lemma close_grows b w : w `prefix_of` (close answer b w).2.
Proof.
  unfold close. destruct (_ =? _); [done|]. pose proof (disableMonitor_grows b w) as H.
  destruct (disableMonitor b w) as [b1 w1]. cbn in *. by do 2 apply prefix_app_r.
Qed.
Lemma set_option_grows o v b w : w `prefix_of` (set_option answer o v b w).2.
Proof. by apply prefix_app_r. Qed.
Lemma setNonBlocking_grows t b w : w `prefix_of` (setNonBlocking answer t b w).2.
Proof. by apply prefix_app_r. Qed.
Lemma bind_grows sa b w : w `prefix_of` (bind answer sa b w).2.
Proof.
  unfold bind. destruct sa as [a|]; [|done]. destruct (_ =? _); [done|].
  destruct (Inet.version _); [done|by apply prefix_app_r..].
Qed.
End good_ops.
