(* ===== verification/Server.v ===== *)
(** * Server: [ServerSocket] of [src/io/net/serversocket.cpp]

    A listening socket: how it comes to listen, what it does with the connections that
    arrive, and the pause it makes when the process has no descriptors left. A handler may
    call the socket back in any way, nested as deep as it likes; [pauses] counts the [AcceptBackoff]
    objects, whose timers may fire at any time. *)

From S2P Require Import Prelude SocketAddress SocketBase.
From S2P Require Inet Socket MonitorBackends.

(* @src src/src/io/net/serversocket.cpp:33-33 MIN_LISTEN_BACKLOG *)
Definition MIN_LISTEN_BACKLOG : Z := 128.

(** [Readiness] is the call of the monitor; the others are what the handler is told. *)
(* @src src/include/samurai/io/net/socketevent.h:114-126 Samurai::IO::Net::ServerSocketEventHandler *)
Inductive Event := Readiness (trig : Z) | EventAcceptError (errno : Z) | EventAcceptSocket (sock : Base).

(** The object with what became of it: [alive] until it is destroyed, the pauses that refer
    to it weakly, and the trace. *)
(* @src src/include/samurai/io/net/serversocket.h:26-82 Samurai::IO::Net::ServerSocket *)
Record ServerSocket := mkServerSocket { base : Base; eventHandler : bool; alive : bool; pauses : nat; trace : World Event }.

Definition with_base (b : Base) (w : World Event) (s : ServerSocket) : ServerSocket :=
  mkServerSocket b (eventHandler s) (alive s) (pauses s) w.
Definition with_pauses (n : nat) (s : ServerSocket) : ServerSocket :=
  mkServerSocket (base s) (eventHandler s) (alive s) n (trace s).

Section server.
Variable answer : World Event -> Call -> Reply.
Implicit Types s : ServerSocket.

(** ** Construction *)

(* @src src/src/io/net/serversocket.cpp:93-100 Samurai::IO::Net::ServerSocket::internal_create *)
Definition internal_create s : ServerSocket :=
  match addr (base s) with
  | None => s
  | Some a =>
      let '(ok, b, w) := createDescriptor answer (getSockAddrFamily a) (base s) (trace s) in
      with_base (if ok then b else setState Socket.Invalid b) w s
  end.

(* @src src/src/io/net/serversocket.cpp:76-80 Samurai::IO::Net::ServerSocket::ServerSocket *)
Definition new_ServerSocket (eh : bool) (addr_ : InetSocketAddress) : ServerSocket :=
  internal_create (mkServerSocket (new_at addr_ Stream) eh true 0 []).
(* @src src/src/io/net/serversocket.cpp:82-85 Samurai::IO::Net::ServerSocket::ServerSocket *)
Definition new_ServerSocket_host (eh : bool) (addr_ : Inet.InetAddress) (port_ : Z) : ServerSocket :=
  new_ServerSocket eh (new_address addr_ port_).
(* @src src/src/io/net/serversocket.cpp:87-91 Samurai::IO::Net::ServerSocket::ServerSocket *)
Definition new_ServerSocket_port (inet_pton : Inet.Version -> bytes -> option bytes) (eh : bool) (port_ : Z) : ServerSocket :=
  new_ServerSocket eh (new_port inet_pton port_).

(** Null when there is no descriptor. *)
(* @src src/include/samurai/io/net/serversocket.h:36-43 Samurai::IO::Net::ServerSocket::create *)
Definition create (s : ServerSocket) : option ServerSocket :=
  if sd (base s) =? INVALID_SOCKET then None else Some s.

(** ** Calls *)

(** [None] is success; otherwise the error code. *)
(* @src src/src/io/net/serversocket.cpp:107-133 Samurai::IO::Net::ServerSocket::listen *)
Definition listen (backlog : Z) s : option Z * ServerSocket :=
  let b := base s in
  match addr b with
  | None => (Some EDESTADDRREQ, s)
  | Some a =>
      if sd b =? INVALID_SOCKET then (Some EBADF, s)
      else
        let '(ec, w) := setReuseAddress answer true b (trace s) in
        match ec with
        | Some _ => (Some (net_error w), with_base b w s)
        | None =>
            let '(ec, w) := setNonBlocking answer true b w in
            match ec with
            | Some _ => (ec, with_base b w s)
            | None =>
                let '(ec, w) := bind answer (Some a) b w in
                match ec with
                | Some _ => (ec, with_base b w s)
                | None =>
                    let '(r, w) := sys answer (SysListen (sd b) (to_int (Z.max backlog MIN_LISTEN_BACKLOG))) w in
                    if failed r then (Some (net_error w), with_base b w s)
                    else let '(b, w) := setMonitor MonitorBackends.Triggers.Read b w in (None, with_base b w s)
                end
            end
        end
  end.

Definition say (e : Event) s : ServerSocket := with_base (base s) (trace s ++ [Told e]) s.

(** The errors that say nothing, and those of a process out of descriptors. *)
(* @src src/src/io/net/serversocket.cpp:161-163 Samurai::IO::Net::ServerSocket::internal_accept *)
Definition transient (error : Z) : bool :=
  (error =? EAGAIN) || (error =? EWOULDBLOCK) || (error =? EINTR) || (error =? ECONNABORTED).
(* @src src/src/io/net/serversocket.cpp:166-166 Samurai::IO::Net::ServerSocket::internal_accept *)
Definition out_of_descriptors (error : Z) : bool := (error =? EMFILE) || (error =? ENFILE).

(** Up to the event the handler is told of last, if there is one. An accepted socket nobody
    takes is destroyed, which closes it. *)
(* @src src/src/io/net/serversocket.cpp:149-205 Samurai::IO::Net::ServerSocket::internal_accept *)
Definition internal_accept s : ServerSocket * option Event :=
  let '(r, w) := sys answer (SysAccept (sd (base s))) (trace s) in
  let s := with_base (base s) w s in
  match r with
  | Err error =>
      if transient error then (s, None)
      else if out_of_descriptors error then
        let '(b, w) := disableMonitor (base s) (trace s) in
        (with_pauses (S (pauses s)) (with_base b w s), None)
      else (s, if eventHandler s then Some (EventAcceptError error) else None)
  | Ret new_sd _ from =>
      let n_addr := default new_default (from_storage from) in
      let sock := new_accepted new_sd n_addr Stream in
      let '(_, w) := setNonBlocking answer true sock (trace s) in
      let s := with_base (base s) w s in
      if eventHandler s then (s, Some (EventAcceptSocket sock))
      else (with_base (base s) (close answer sock (trace s)).2 s, None)
  end.

Definition any (trig mask : Z) : bool := negb (Z.land trig mask =? 0).
Definition error_or_close : Z := Z.lor MonitorBackends.Triggers.Error MonitorBackends.Triggers.Close.

(** [handleMonitorEvent] before the handler of [internal_accept] is called, and after. *)
(* @src src/src/io/net/serversocket.cpp:136-139 Samurai::IO::Net::ServerSocket::handleMonitorEvent *)
Definition on_readable (trig : Z) s : ServerSocket * option Event :=
  if any trig MonitorBackends.Triggers.Read then internal_accept s else (s, None).
(* @src src/src/io/net/serversocket.cpp:141-146 Samurai::IO::Net::ServerSocket::handleMonitorEvent *)
Definition on_error (trig : Z) s : ServerSocket :=
  if any trig error_or_close then let '(b, w) := disableMonitor (base s) (trace s) in with_base b w s else s.

(** The timer of a pause: the listener is watched again, if it is still there. *)
(* @src src/src/io/net/serversocket.cpp:50-70 AcceptBackoff::EventTimeout *)
Definition EventTimeout s : ServerSocket :=
  match pauses s with
  | O => s
  | S n =>
      let s := with_pauses n s in
      if alive s then let '(b, w) := setMonitor MonitorBackends.Triggers.Read (base s) (trace s) in with_base b w s
      else s
  end.

(* @src src/src/io/net/serversocket.cpp:102-105 Samurai::IO::Net::ServerSocket::~ServerSocket *)
Definition destroy_server s : ServerSocket :=
  let '(b, w) := close answer (base s) (trace s) in
  let '(b, w) := destroy b w in
  mkServerSocket b (eventHandler s) false (pauses s) w.

(** ** What can happen to a server *)

(** What is destroyed is called no more, and inside a call the monitor holds a reference, so
    nothing a handler does destroys the socket under it. The monitor calls a socket it has. *)
Inductive Op := Listen (backlog : Z) | Close | Ready (trig : Z) | Timeout.

Inductive step : Op -> ServerSocket -> ServerSocket -> Prop :=
  | step_listen n s : step (Listen n) s (listen n s).2
  | step_close s : step Close s (with_base (close answer (base s) (trace s)).1 (close answer (base s) (trace s)).2 s)
  | step_ready trig s s1 e s2 :
      watched (sd (base s)) (trace s) = true ->
      on_readable trig (say (Readiness trig) s) = (s1, e) ->
      reaction e s1 s2 ->
      step (Ready trig) s (on_error trig s2)
  | step_timeout s : step Timeout s (EventTimeout s)
with reaction : option Event -> ServerSocket -> ServerSocket -> Prop :=
  | reaction_none s : reaction None s s
  | reaction_calls e s s' : calls (say e s) s' -> reaction (Some e) s s'
with calls : ServerSocket -> ServerSocket -> Prop :=
  | calls_none s : calls s s
  | calls_more o s s1 s2 : step o s s1 -> calls s1 s2 -> calls s s2.

(** The life of a server, from its construction. *)
Inductive life (s0 : ServerSocket) : ServerSocket -> Prop :=
  | life_new : life s0 s0
  | life_step s o s' : life s0 s -> alive s = true -> step o s s' -> life s0 s'
  | life_timeout s : life s0 s -> life s0 (EventTimeout s)
  | life_destroy s : life s0 s -> alive s = true -> life s0 (destroy_server s).
End server.

Scheme step_ind' := Minimality for step Sort Prop
  with reaction_ind' := Minimality for reaction Sort Prop
  with calls_ind' := Minimality for calls Sort Prop.
Combined Scheme step_mutind from step_ind', reaction_ind', calls_ind'.

(** ** What the trace says of the listener *)

Definition bound_step (d : Z) (was : bool) (x : Entry Event) : bool :=
  match x with
  | Called (SysBind d' _) (Ret _ _ _) => was || (d' =? d)
  | Called (SysClose d') _ => was && negb (d' =? d)
  | _ => was
  end.
Definition bound (d : Z) (w : World Event) : bool := foldl (bound_step d) false w.

Definition listened (d : Z) (w : World Event) : bool :=
  existsb (fun x => match x with Called (SysListen d' _) (Ret _ _ _) => d' =? d | _ => false end) w.

(** The monitor has reported an error or a hangup. *)
Definition hung_up (w : World Event) : bool :=
  existsb (fun x => match x with Told (Readiness trig) => any trig error_or_close | _ => false end) w.

Section server_facts.
Variable answer : World Event -> Call -> Reply.

(** [accept] gives out a descriptor that was not in use, and a socket is bound once. *)
Hypothesis accept_fresh : forall w d z dt from, answer w (SysAccept d) = Ret z dt from -> z <> d /\ z <> INVALID_SOCKET.
Hypothesis bind_once : forall w d sa, bound d w = true -> failed (answer w (SysBind d sa)) = true.

(** The state of a listener: its base, the trace, and how many pauses refer to it. *)
Record inv (b : Base) (w : World Event) (n : nat) : Prop := {
  i_good : good b w;
  i_bound : sd b <> INVALID_SOCKET -> monitored b = true \/ n <> 0%nat -> bound (sd b) w = true;
  i_pauses : n = 0%nat \/ n = 1%nat /\ monitored b = false;
  i_kept : sd b <> INVALID_SOCKET -> listened (sd b) w = true -> hung_up w = false -> monitored b = true \/ n = 1%nat
}.

Lemma bound_snoc d w x : bound d (w ++ [x]) = bound_step d (bound d w) x.
Proof. unfold bound. by rewrite foldl_app. Qed.
Lemma listened_snoc d w x : listened d (w ++ [x]) =
  listened d w || match x with Called (SysListen d' _) (Ret _ _ _) => d' =? d | _ => false end.
Proof. unfold listened. rewrite existsb_app. cbn. by rewrite orb_false_r. Qed.
Lemma hung_up_snoc w x : hung_up (w ++ [x]) =
  hung_up w || match x with Told (Readiness trig) => any trig error_or_close | _ => false end.
Proof. unfold hung_up. rewrite existsb_app. cbn. by rewrite orb_false_r. Qed.

(** An entry that says nothing of binding, listening or hanging up. *)
Definition calm (d : Z) (x : Entry Event) : Prop :=
  match x with
  | Called (SysBind _ _) (Ret _ _ _) | Called (SysListen _ _) (Ret _ _ _) => False
  | Called (SysClose d') _ => d' <> d
  | Told (Readiness trig) => any trig error_or_close = false
  | _ => True
  end.

Lemma calm_facts d w x : calm d x ->
  bound d (w ++ [x]) = bound d w /\ listened d (w ++ [x]) = listened d w /\ hung_up (w ++ [x]) = hung_up w.
Proof.
  intros C. rewrite bound_snoc, listened_snoc, hung_up_snoc.
  destruct x as [c r| | | |[trig|e|b]]; cbn in *; rewrite ?orb_false_r; try done.
  - destruct c, r; cbn in *; rewrite ?orb_false_r; try done;
      apply Z.eqb_neq in C; rewrite C; by rewrite andb_true_r.
  - by rewrite C, orb_false_r.
Qed.

Lemma inv_calm b w n x : inv b w n -> calm (sd b) x -> good b (w ++ [x]) -> inv b (w ++ [x]) n.
Proof.
  intros [G B P K] C G'. destruct (calm_facts _ w _ C) as (E1 & E2 & E3).
  split; [done| |done|]; rewrite ?E1, ?E2, ?E3; done.
Qed.

Lemma inv_told b w n e : inv b w n -> (forall trig, e <> Readiness trig) -> inv b (w ++ [Told e]) n.
Proof.
  intros I He. apply inv_calm; [done| |apply good_told, I]. destruct e; cbn; [by destruct (He trig)|done..].
Qed.

Lemma inv_readiness b w n trig : inv b w n -> inv b (w ++ [Told (Readiness trig)]) n.
Proof.
  intros [G B P K]. split; [by apply good_told|by rewrite bound_snoc|done|].
  rewrite listened_snoc, hung_up_snoc, orb_false_r. intros Hv Hl [Hh _]%orb_false_iff. by apply K.
Qed.

(** A call on the listener's own descriptor, of those that keep it as it is. *)
Definition neutral (c : Call) : Prop :=
  match c with SysSetOpt _ _ _ | SysNonBlock _ _ | SysGetOpt _ _ | SysShutdown _ => True | _ => False end.

Lemma inv_neutral b w n c r : inv b w n -> neutral c -> names c = Some (sd b) -> inv b (w ++ [Called c r]) n.
Proof.
  intros I Hc Hn. apply inv_calm; [done|by destruct c|]. apply good_own; [apply I|by destruct c|done].
Qed.

Lemma server_inv_disable b w n : inv b w n -> hung_up w = true -> inv (disableMonitor b w).1 (disableMonitor b w).2 n.
Proof.
  intros I Hh. destruct (disableMonitor_good b w (i_good _ _ _ I)) as (G' & Em & Es & _).
  unfold disableMonitor in *. destruct (monitored b) eqn:Hm; cbn [fst snd] in *; [|done].
  destruct I as [G B P K]. split; [done|..]; cbn; rewrite ?bound_snoc, ?listened_snoc, ?hung_up_snoc; cbn.
  - intros Hv [Hx|Hx]; [done|]. apply B; auto.
  - destruct P as [P|[_ P]]; [by left|congruence].
  - rewrite Hh. done.
Qed.

Lemma inv_pause b w n : inv b w n -> monitored b = true ->
  inv (disableMonitor b w).1 (disableMonitor b w).2 (S n).
Proof.
  intros [G B P K] Hm. destruct (disableMonitor_good b w G) as (G' & Em & Es & _).
  assert (n = 0%nat) as -> by (destruct P as [P|[_ P]]; congruence).
  unfold disableMonitor in *. rewrite Hm in *. cbn [fst snd] in *.
  split; [done|..]; cbn; rewrite ?bound_snoc; auto.
Qed.

Lemma server_inv_close b w n : inv b w n -> inv (close answer b w).1 (close answer b w).2 n.
Proof.
  intros I. destruct (close_good answer b w (i_good _ _ _ I)) as (G' & Es & _).
  unfold close in *. destruct (sd b =? INVALID_SOCKET) eqn:Hv; [done|].
  destruct I as [G B P K]. unfold disableMonitor in *.
  destruct (monitored b) eqn:Hm; cbn [fst snd] in *; cbn in G'; split; try done; cbn.
  - destruct P as [P|[_ P]]; [by left|congruence].
  - destruct P as [P|[P _]]; [by left|by right].
Qed.

(** A socket that can be bound now was not bound before, so it is not listening yet. *)
Lemma first_bind b w n sa : inv b w n -> sd b <> INVALID_SOCKET ->
  failed (answer w (SysBind (sd b) sa)) = false -> monitored b = false /\ n = 0%nat.
Proof.
  intros [_ B P _] Hv F. destruct (bound (sd b) w) eqn:Hb; [by rewrite bind_once in F|].
  assert (~ (monitored b = true \/ n <> 0%nat)) as Hn by (intros H; by pose proof (B Hv H)).
  split; [destruct (monitored b); [by destruct Hn; left|done]|].
  destruct n; [done|]. by destruct Hn; right.
Qed.

Lemma inv_bind b w n sa : inv b w n -> inv b (w ++ [Called (SysBind (sd b) sa) (answer w (SysBind (sd b) sa))]) n.
Proof.
  intros [G B P K]. set (r := answer _ _). assert (good b (w ++ [Called (SysBind (sd b) sa) r])) by by apply good_own.
  split; [done|..]; rewrite ?bound_snoc, ?listened_snoc, ?hung_up_snoc, ?orb_false_r; [|done|done].
  intros Hv Hm. unfold bound_step. destruct r; rewrite (B Hv Hm); done.
Qed.

(** Listening once the socket is bound, and being watched from then on. *)
Lemma inv_listen_call b w m : inv b w 0%nat -> monitored b = false -> bound (sd b) w = true ->
  let r := answer w (SysListen (sd b) m) in let w' := w ++ [Called (SysListen (sd b) m) r] in
  if failed r then inv b w' 0%nat
  else inv (setMonitor MonitorBackends.Triggers.Read b w').1 (setMonitor MonitorBackends.Triggers.Read b w').2 0%nat.
Proof.
  intros [G B P K] Hm Hb r w'.
  assert (good b w') as G' by by apply good_own.
  destruct (failed r) eqn:F.
  - destruct r eqn:Er; [|done]. unfold w'. apply inv_calm; [done..|]. exact G'.
  - destruct (setMonitor_good MonitorBackends.Triggers.Read b w' G') as (G5 & Em & _ & Es & _).
    unfold setMonitor in *. rewrite Hm in *. cbn [fst snd] in *. split; [done| |by left|by left].
    intros _ _. unfold w'. cbn [sd with_monitor]. rewrite !bound_snoc, Hb. unfold bound_step. by destruct r.
Qed.

Lemma server_inv_listen s m : inv (base s) (trace s) (pauses s) ->
  inv (base (listen answer m s).2) (trace (listen answer m s).2) (pauses (listen answer m s).2).
Proof.
  intros Inv. unfold listen. destruct (addr (base s)) as [a|]; [|done].
  destruct (sd (base s) =? INVALID_SOCKET) eqn:Hv; [done|]. apply Z.eqb_neq in Hv.
  unfold setReuseAddress, set_option, sys. set (r1 := answer _ _).
  pose proof (inv_neutral _ _ _ (SysSetOpt (sd (base s)) SO_REUSEADDR (toggle_value true)) r1 Inv I eq_refl) as I1.
  destruct (failed r1); [done|]. unfold setNonBlocking, sys. set (w1 := _ ++ _) in *. set (r2 := answer _ _).
  pose proof (inv_neutral _ _ _ (SysNonBlock (sd (base s)) true) r2 I1 I eq_refl) as I2.
  destruct (failed r2); [done|]. set (w2 := w1 ++ _) in *. rewrite bind_structure by done.
  destruct (structure_of _ _) as [sa|]; [|done]. unfold sys.
  pose proof (inv_bind _ _ _ sa I2) as I3. destruct (failed (answer w2 _)) eqn:F3; [done|].
  destruct (first_bind _ _ _ sa I2 Hv F3) as [Hm Hp]. set (w3 := w2 ++ _) in *. rewrite Hp in *.
  assert (bound (sd (base s)) w3 = true) as Hb.
  { unfold w3. rewrite bound_snoc. unfold bound_step. destruct (answer w2 _); [done|]. by rewrite Z.eqb_refl, orb_true_r. }
  pose proof (inv_listen_call _ _ (to_int (Z.max m MIN_LISTEN_BACKLOG)) I3 Hm Hb) as I4. cbv zeta in I4.
  destruct (failed (answer w3 _)); cbn; [by rewrite Hp|].
  destruct (setMonitor _ _ _) as [b' w'] eqn:E. cbn. by rewrite Hp.
Qed.

(** A call on another descriptor, as on the connections that were accepted. *)
Lemma inv_other b w n c r z : inv b w n -> names c = Some z -> z <> sd b -> closed z w = false ->
  (match c with SysNonBlock _ _ | SysShutdown _ | SysClose _ => True | _ => False end) ->
  inv b (w ++ [Called c r]) n.
Proof.
  intros I Hn Hz Hc Hk. apply inv_calm; [done| |].
  - destruct c; try done. cbn in *. by injection Hn as ->.
  - apply (good_other b w c r z); [apply I|done..|]. by destruct c.
Qed.

Lemma inv_accept s s' e : inv (base s) (trace s) (pauses s) -> monitored (base s) = true ->
  internal_accept answer s = (s', e) ->
  inv (base s') (trace s') (pauses s') /\ alive s' = alive s /\ trace s `prefix_of` trace s' /\
  (forall x trig, e = Some x -> x <> Readiness trig).
Proof.
  intros Inv Hm. unfold internal_accept, sys. set (r := answer _ _).
  assert (inv (base s) (trace s ++ [Called (SysAccept (sd (base s))) r]) (pauses s)) as I1.
  { apply inv_calm; [done..|]. apply good_accept, Inv. }
  destruct r as [err|z dt from] eqn:Er; cbn.
  - destruct (transient err); [intros [= <- <-]; cbn; by refine (conj I1 (conj eq_refl (conj (prefix_app_r _ _ _ (reflexivity _)) _)))|].
    destruct (out_of_descriptors err).
    + pose proof (inv_pause _ _ _ I1 Hm) as I2. set (w1 := _ ++ _) in *.
      pose proof (disableMonitor_grows (base s) w1) as Gr.
      destruct (disableMonitor (base s) w1) as [b' w']. intros [= <- <-]. cbn in *.
      split; [done|]. split; [done|]. split; [|done]. etrans; [|exact Gr]. by apply prefix_app_r.
    + intros [= <- <-]. cbn. split; [done|]. split; [done|]. split; [by apply prefix_app_r|].
      intros x trig. by destruct (eventHandler s); [intros [= <-]|].
  - destruct (accept_fresh _ _ _ _ _ Er) as [Hz Hv]. pose proof (closed_accepted (trace s) (sd (base s)) z dt from) as Hc.
    set (w1 := _ ++ _) in *. set (sock := new_accepted _ _ _). set (r2 := answer w1 _).
    assert (inv (base s) (w1 ++ [Called (SysNonBlock z true) r2]) (pauses s)) as I2 by by apply (inv_other _ _ _ _ _ z).
    assert (trace s `prefix_of` w1 ++ [Called (SysNonBlock z true) r2]) as P2 by by do 2 apply prefix_app_r.
    destruct (eventHandler s); intros [= <- <-]; cbn.
    + split; [done|]. split; [done|]. split; [done|]. by intros x trig [= <-].
    + split; [|split; [done|]; split; [|done]].
      * unfold close, disableMonitor. cbn. apply Z.eqb_neq in Hv as ->. cbn.
        apply (inv_other _ _ _ _ _ z); [apply (inv_other _ _ _ _ _ z)|..]; rewrite ?closed_snoc; done.
      * etrans; [exact P2|]. apply close_grows.
Qed.

Lemma hung_up_prefix w w' : w `prefix_of` w' -> hung_up w = true -> hung_up w' = true.
Proof. intros [k ->] H. unfold hung_up in *. rewrite existsb_app. by rewrite H. Qed.

(** What a step keeps: the invariant, whether the object is alive, and the past. *)
Definition keeps_all s s' : Prop :=
  alive s = true -> inv (base s) (trace s) (pauses s) ->
  inv (base s') (trace s') (pauses s') /\ alive s' = alive s /\ trace s `prefix_of` trace s'.

Lemma server_keeps_trans s1 s2 s3 : keeps_all s1 s2 -> keeps_all s2 s3 -> keeps_all s1 s3.
Proof.
  intros H1 H2 A I. destruct (H1 A I) as (I1 & A1 & P1). destruct (H2 (eq_trans A1 A) I1) as (I2 & A2 & P2).
  split; [done|]. split; [congruence|]. by etrans.
Qed.

Lemma listen_grows m s : trace s `prefix_of` trace (listen answer m s).2 /\ alive (listen answer m s).2 = alive s.
Proof.
  unfold listen. destruct (addr (base s)) as [a|]; [|done]. destruct (_ =? _); [done|].
  unfold setReuseAddress. pose proof (set_option_grows answer SO_REUSEADDR (toggle_value true) (base s) (trace s)) as G1.
  destruct (set_option _ _ _ _ _) as [[ec|] w1]; [done|].
  pose proof (setNonBlocking_grows answer true (base s) w1) as G2.
  destruct (setNonBlocking _ _ _ _) as [[ec|] w2]; [split; [by etrans|done]|].
  pose proof (bind_grows answer (Some a) (base s) w2) as G3.
  destruct (bind _ _ _ _) as [[ec|] w3]; [split; [do 2 (etrans; [done|]); done|done]|].
  unfold sys. set (w4 := w3 ++ _). assert (trace s `prefix_of` w4) as P4.
  { unfold w4. etrans; [|by apply prefix_app_r]. by do 2 (etrans; [done|]). }
  destruct (failed _); [done|]. pose proof (setMonitor_grows MonitorBackends.Triggers.Read (base s) w4) as G4.
  destruct (setMonitor _ _ _) as [b' w']. cbn in *. split; [by etrans|done].
Qed.

Lemma inv_timeout b w n : inv b w (S n) ->
  inv (setMonitor MonitorBackends.Triggers.Read b w).1 (setMonitor MonitorBackends.Triggers.Read b w).2 n.
Proof.
  intros [G B P K]. destruct (setMonitor_good MonitorBackends.Triggers.Read b w G) as (G' & Em & _ & Es & _).
  assert (n = 0%nat) as -> by lia. unfold setMonitor in *. destruct (monitored b); [lia|]. cbn [fst snd] in *.
  split; [done| |by left|by left]. intros Hv _. cbn [sd with_monitor] in *. rewrite bound_snoc. apply B; auto.
Qed.

Lemma server_keeps_calls :
  (forall o s s', step answer o s s' -> keeps_all s s') /\
  (forall e s s', reaction answer e s s' -> (forall x trig, e = Some x -> x <> Readiness trig) -> keeps_all s s') /\
  (forall s s', calls answer s s' -> keeps_all s s').
Proof.
  apply step_mutind.
  - intros n s _ I. destruct (listen_grows n s). split; [by apply server_inv_listen|done].
  - intros s _ I. cbn. split; [by apply server_inv_close|]. split; [done|]. apply close_grows.
  - intros trig s s1 e s2 Hw Hr _ IH A I.
    assert (monitored (base s) = true) as Hm.
    { rewrite (good_watched _ _ (i_good _ _ _ I)) in Hw. by apply andb_true_iff in Hw as [[? _]%andb_true_iff _]. }
    assert (inv (base s1) (trace s1) (pauses s1) /\ alive s1 = alive s /\ trace (say (Readiness trig) s) `prefix_of` trace s1 /\
            (forall x t, e = Some x -> x <> Readiness t)) as (I1 & A1 & P1 & Hx).
    { unfold on_readable in Hr. destruct (any trig _).
      - apply inv_accept in Hr; [done|by apply inv_readiness|done].
      - injection Hr as <- <-. split; [by apply inv_readiness|done]. }
    destruct (IH Hx (eq_trans A1 A) I1) as (I2 & A2 & P2).
    assert (trace (say (Readiness trig) s) `prefix_of` trace s2) as P by by etrans.
    unfold on_error. destruct (any trig error_or_close) eqn:Ea.
    + assert (hung_up (trace s2) = true) as Hh.
      { apply (hung_up_prefix _ _ P). cbn. by rewrite hung_up_snoc, Ea, orb_true_r. }
      pose proof (server_inv_disable _ _ _ I2 Hh) as I3. pose proof (disableMonitor_grows (base s2) (trace s2)) as G3.
      destruct (disableMonitor _ _) as [b' w']. cbn in *. split; [done|]. split; [congruence|].
      etrans; [|done]. etrans; [|done]. by apply prefix_app_r.
    + split; [done|]. split; [congruence|]. etrans; [|done]. by apply prefix_app_r.
  - intros s A I. unfold EventTimeout. destruct (pauses s) as [|n] eqn:En; [by rewrite <- En in I|]. cbn. rewrite A.
    pose proof (inv_timeout _ _ _ I) as I'. pose proof (setMonitor_grows MonitorBackends.Triggers.Read (base s) (trace s)) as G'.
    by destruct (setMonitor _ _ _) as [b' w'].
  - done.
  - intros e s s' _ IH Hx A I. destruct IH as (I' & A' & P'); [done|..].
    + cbn. apply inv_told; [done|]. intros trig. by apply Hx.
    + split; [done|]. split; [done|]. etrans; [|done]. by apply prefix_app_r.
  - done.
  - intros o s s1 s2 _ H1 _ H2. by eapply server_keeps_trans.
Qed.

Lemma server_inv_new eh addr_ : let s := new_ServerSocket answer eh addr_ in inv (base s) (trace s) (pauses s) /\ alive s = true.
Proof.
  cbn. unfold new_ServerSocket, internal_create. cbn [addr base new_at].
  pose proof (createDescriptor_good answer (getSockAddrFamily (new_copy addr_)) (new_at addr_ Stream) []
                (good_new (new_at addr_ Stream) eq_refl eq_refl) eq_refl) as H.
  unfold createDescriptor, sys in *. cbn in *. destruct H as (G & Hm & Hok & _).
  destruct (answer [] _) as [e|z dt from]; cbn in *.
  - split; [|done]. split; [|by intros _ [|]|by left|by intros _]. by eapply good_same; [..|exact G].
  - destruct (negb _); cbn; (split; [|done]); (split; [|by intros _ [|]|by left|by intros _]);
      by eapply good_same; [..|exact G].
Qed.

Lemma server_life_inv eh addr_ s : life answer (new_ServerSocket answer eh addr_) s ->
  inv (base s) (trace s) (pauses s) /\ (alive s = false -> sd (base s) = INVALID_SOCKET).
Proof.
  intros L. induction L as [|s o s' L [I D] A St|s L [I D]|s L [I D] A].
  - destruct (server_inv_new eh addr_) as [I A]. split; [done|]. intros A'. by rewrite A in A'.
  - destruct (proj1 server_keeps_calls _ _ _ St A I) as (I' & A' & _). split; [done|]. congruence.
  - destruct (alive s) eqn:A.
    + destruct (proj1 server_keeps_calls _ _ _ (step_timeout answer s) A I) as (I' & A' & _). split; [done|]. congruence.
    + unfold EventTimeout. destruct (pauses s) as [|n] eqn:En; [rewrite En; split; [done|auto]|]. cbn. rewrite A. cbn.
      split; [|by auto]. specialize (D eq_refl). destruct I as [G B P K].
      split; [done|by rewrite D|lia|by rewrite D].
  - pose proof (server_inv_close _ _ _ I) as I1. destruct (close_good answer _ _ (i_good _ _ _ I)) as (_ & Es & _).
    unfold destroy_server, destroy. destruct (close _ _ _) as [b1 w1]. cbn in *.
    destruct (disableMonitor_good b1 w1 (i_good _ _ _ I1)) as (G2 & Em & Es2 & _).
    destruct (disableMonitor b1 w1) as [b2 w2] eqn:E. cbn in *. rewrite Es in Es2.
    split; [|done]. destruct I1 as [_ _ P _]. split; [done|by rewrite Es2| |by rewrite Es2].
    destruct P as [P|[P _]]; [by left|by right].
Qed.

(** C16. What holds of a server whatever the system answers, its clients and handlers do and
    the timers bring: it never names a descriptor it closed; the monitor has exactly its
    open descriptor while it is monitored; there is at most one pause, and only while the
    listener is not watched; and a listener that was not closed and saw no error is
    watched, or there is a pause whose end makes it watched: running out of descriptors
    never loses it. *)
Theorem listener_resumes eh addr_ s :
  life answer (new_ServerSocket answer eh addr_) s ->
  tidy (trace s) /\
  (forall d, watched d (trace s) = true <->
     d = sd (base s) /\ d <> INVALID_SOCKET /\ monitored (base s) = true) /\
  (pauses s <= 1)%nat /\ (pauses s = 1%nat -> watched (sd (base s)) (trace s) = false) /\
  (sd (base s) <> INVALID_SOCKET -> listened (sd (base s)) (trace s) = true -> hung_up (trace s) = false ->
   watched (sd (base s)) (trace s) = true \/
   pauses s = 1%nat /\ let s' := EventTimeout s in
     pauses s' = 0%nat /\ sd (base s') = sd (base s) /\ watched (sd (base s')) (trace s') = true).
Proof.
  intros L. destruct (server_life_inv _ _ _ L) as [[G B P K] D]. split; [apply G|].
  assert (forall d, watched d (trace s) = true <-> d = sd (base s) /\ d <> INVALID_SOCKET /\ monitored (base s) = true) as W.
  { intros d. rewrite (good_watched _ _ G), !andb_true_iff, negb_true_iff, Z.eqb_eq, Z.eqb_neq.
    split; [intros [[? <-] ?]; done|intros (-> & ? & ?); done]. }
  split; [done|]. split; [lia|]. split.
  { intros Hp. apply not_true_iff_false. rewrite W. intros (_ & _ & Hm). destruct P as [P|[_ P]]; [lia|congruence]. }
  intros Hv Hl Hh. destruct (K Hv Hl Hh) as [Hm|Hp]; [left; apply W; done|right]. split; [done|].
  unfold EventTimeout. rewrite Hp. cbn [alive with_pauses base trace]. destruct (alive s) eqn:A; [|by destruct Hv; apply D].
  destruct (setMonitor_good MonitorBackends.Triggers.Read (base s) (trace s) G) as (G' & Em & _ & Es & _).
  destruct (setMonitor _ _ _) as [b' w']. cbn [fst snd] in *. split; [done|]. split; [done|].
  cbn [base trace with_base].
  rewrite (good_watched _ _ G'), Em, Z.eqb_refl, Es. by apply negb_true_iff, Z.eqb_neq.
Qed.
End server_facts.

(** ** A server that runs out of descriptors *)

(** Descriptor 3 is the listener's; the first [accept] finds the process out of them, the
    next gives out 4. *)
Definition demo_answer (w : World Event) (c : Call) : Reply :=
  match c with
  | SysSocket _ _ => Ret 3 [] []
  | SysBind d _ => if bound d w then Err EINVAL else Ret 0 [] []
  | SysAccept d =>
      if existsb (fun x => match x with Called (SysAccept _) _ => true | _ => false end) w
      then Ret (if d =? 4 then 5 else 4) [] (sockaddr_in 40000 [chr 10; chr 0; chr 0; chr 9] ++ replicate 112 (chr 0))
      else Err EMFILE
  | _ => Ret 0 [] []
  end.

Definition demo_address : InetSocketAddress :=
  setRawSocketAddress [chr 127; chr 0; chr 0; chr 1] 8080 Inet.IPv4 new_default.
Definition demo_server : ServerSocket := new_ServerSocket demo_answer true demo_address.
Definition demo_listening : ServerSocket := (listen demo_answer 5 demo_server).2.
Definition demo_paused : ServerSocket :=
  on_error MonitorBackends.Triggers.Read (on_readable demo_answer MonitorBackends.Triggers.Read
    (say (Readiness MonitorBackends.Triggers.Read) demo_listening)).1.

Lemma server_demo_life : life demo_answer demo_server demo_paused.
Proof.
  eapply (life_step _ _ demo_listening (Ready MonitorBackends.Triggers.Read)); [|reflexivity|].
  - eapply (life_step _ _ demo_server (Listen 5)); [constructor|reflexivity|]. apply (step_listen _ 5 demo_server).
  - eapply step_ready; [reflexivity|reflexivity|]. constructor.
Qed.

Lemma listener_resumes_witness :
  tidy (trace demo_paused) /\ pauses demo_paused = 1%nat /\
  watched 3 (trace demo_paused) = false /\ watched 3 (trace (EventTimeout demo_paused)) = true.
Proof.
  destruct (listener_resumes demo_answer) with (eh := true) (addr_ := demo_address) (s := demo_paused)
    as (T & _ & _ & _ & H).
  - intros w d z dt from. cbn. destruct (existsb _ w); [|done]. intros [= <- _ _].
    destruct (Z.eqb_spec d 4); [by subst|]. split; [congruence|done].
  - intros w d sa Hb. cbn. by rewrite Hb.
  - apply server_demo_life.
  - split; [exact T|]. destruct H as [H|(H1 & _ & _ & H2)]; [done|reflexivity|reflexivity|discriminate H|].
    split; [exact H1|]. split; [reflexivity|exact H2].
Defined.

(** The connection that was refused arrives once the listener is watched again: the
    accepted socket is not blocking and has the address of its peer. *)
Lemma demo_accepts :
  match internal_accept demo_answer (EventTimeout demo_paused) with
  | (s, Some (EventAcceptSocket sock)) =>
      sd sock = 4 /\ (port <$> addr sock) = Some 40000 /\
      last (trace s) = Some (Called (SysNonBlock 4 true) (Ret 0 [] []))
  | _ => False
  end.
Proof. vm_compute. done. Qed.

(** ** What does not hold *)

(** A listener that is closed during a pause is marked as monitored when the pause ends,
    although there is no descriptor for the monitor to have. *)
Lemma closed_but_monitored :
  let s := with_base (close demo_answer (base demo_paused) (trace demo_paused)).1
             (close demo_answer (base demo_paused) (trace demo_paused)).2 demo_paused in
  let s := EventTimeout s in
  sd (base s) = INVALID_SOCKET /\ monitored (base s) = true /\ watched 3 (trace s) = false.
Proof. vm_compute. done. Qed.

(** An error signalled along with the connection disables the monitor, but the pause the
    connection led to enables it again. *)
Lemma error_forgotten :
  let trig := Z.lor MonitorBackends.Triggers.Read MonitorBackends.Triggers.Error in
  let s := on_error trig (on_readable demo_answer trig (say (Readiness trig) demo_listening)).1 in
  watched 3 (trace s) = false /\ watched 3 (trace (EventTimeout s)) = true.
Proof. vm_compute. done. Qed.
