(* ===== verification/Datagram.v ===== *)
(** * Datagram: packets and datagram sockets, [src/io/net/datagram.cpp]

    A packet is a buffer with an address; a socket sends the packets it is given and reads
    into one of its own, which the handler is told of and may use. What the system answers
    and what handlers call back are arbitrary, as in [Server]. *)

From S2P Require Import Prelude SocketAddress SocketBase.
From S2P Require Inet Socket MonitorBackends Buffer.

(* @src src/src/io/net/datagram.cpp:28-28 MAX_BUF_SIZE *)
Definition MAX_BUF_SIZE : Z := 65536.

(* @src src/include/samurai/io/net/datagram.h:54-57 Samurai::IO::Net::DatagramPacket *)
Record DatagramPacket := mkDatagramPacket { buffer : Buffer.Buffer; p_addr : option InetSocketAddress }.

(** What the handler is told, and the traffic that is accounted for. *)
(* @src src/include/samurai/io/net/socketevent.h:149-159 Samurai::IO::Net::DatagramEventHandler *)
Inductive Event :=
  | EventGotDatagram (packet : DatagramPacket) | EventDatagramError (errno : Z)
  | DataSendUDP (n : Z) | DataRecvUDP (n : Z).

(** ** Packets *)

Section packet.
Variable alloc : Z -> bool.

(* @src src/src/io/net/datagram.cpp:30-32 Samurai::IO::Net::DatagramPacket::DatagramPacket *)
Definition new_packet : DatagramPacket := mkDatagramPacket (Buffer.new_Buffer MAX_BUF_SIZE) None.

(** Of bytes, or of the characters of a string. *)
(* @src src/src/io/net/datagram.cpp:34-43 Samurai::IO::Net::DatagramPacket::DatagramPacket *)
Definition packet_of (buf : bytes) : DatagramPacket :=
  mkDatagramPacket (Buffer.append alloc buf (Buffer.new_Buffer (zlen buf))).2 None.

(* @src src/src/io/net/datagram.cpp:45-47 Samurai::IO::Net::DatagramPacket::DatagramPacket *)
Definition packet_of_buffer (buf : Buffer.Buffer) : DatagramPacket := mkDatagramPacket buf None.

(* @src src/src/io/net/datagram.cpp:49-52 Samurai::IO::Net::DatagramPacket::setData *)
Definition setData (data : bytes) (p : DatagramPacket) : DatagramPacket :=
  mkDatagramPacket (Buffer.append alloc data (Buffer.clear (buffer p))).2 (p_addr p).

(** Null, or an address of a class that is not known, leaves none. *)
(* @src src/src/io/net/datagram.cpp:54-65 Samurai::IO::Net::DatagramPacket::setAddress *)
Definition setAddress (addr_ : option InetSocketAddress) (p : DatagramPacket) : DatagramPacket :=
  mkDatagramPacket (buffer p) (new_copy <$> addr_).

(* @src src/src/io/net/datagram.cpp:72-74 Samurai::IO::Net::DatagramPacket::clear *)
Definition clear_packet (p : DatagramPacket) : DatagramPacket := mkDatagramPacket (Buffer.clear (buffer p)) (p_addr p).

(* @src src/src/io/net/datagram.cpp:78-80 Samurai::IO::Net::DatagramPacket::size *)
Definition packet_size (p : DatagramPacket) : Z := Buffer.size (buffer p).

(** ** Sockets *)

(** [alive] until it is destroyed. *)
(* @src src/include/samurai/io/net/datagram.h:117-124 Samurai::IO::Net::DatagramSocket *)
Record DatagramSocket := mkDatagramSocket { base : Base; eventHandler : bool; myPacket : option DatagramPacket; alive : bool; trace : World Event }.

Definition with_base (b : Base) (w : World Event) (s : DatagramSocket) : DatagramSocket :=
  mkDatagramSocket b (eventHandler s) (myPacket s) (alive s) w.
Definition with_packet (p : DatagramPacket) (s : DatagramSocket) : DatagramSocket :=
  mkDatagramSocket (base s) (eventHandler s) (Some p) (alive s) (trace s).
Definition with_trace (w : World Event) (s : DatagramSocket) : DatagramSocket := with_base (base s) w s.
Definition say (e : Event) (s : DatagramSocket) : DatagramSocket := with_trace (trace s ++ [Told e]) s.

Variable answer : World Event -> Call -> Reply.
Implicit Types s : DatagramSocket.

Definition new_socket (b : Base) (eh : bool) : DatagramSocket := mkDatagramSocket b eh None true [].

(* @src src/src/io/net/datagram.cpp:121-123 Samurai::IO::Net::DatagramSocket::internal_create *)
Definition internal_create s : DatagramSocket :=
  match addr (base s) with
  | None => s
  | Some a => let '(_, b, w) := createDescriptor answer (getSockAddrFamily a) (base s) (trace s) in with_base b w s
  end.

(* @src src/src/io/net/datagram.cpp:86-90 Samurai::IO::Net::DatagramSocket::DatagramSocket *)
Definition new_DatagramSocket_version (eh : bool) (version : Inet.Version) : DatagramSocket :=
  let af := match version with Inet.IPv4 => AF_INET | Inet.IPv6 => AF_INET6 | Inet.Unspecified => AF_UNSPEC end in
  let s := new_socket (new_bare Datagram) eh in
  let '(_, b, w) := createDescriptor answer af (base s) (trace s) in with_base b w s.

(* @src src/src/io/net/datagram.cpp:97-100 Samurai::IO::Net::DatagramSocket::DatagramSocket *)
Definition new_DatagramSocket : DatagramSocket := new_socket (new_bare Datagram) false.

(* @src src/src/io/net/datagram.cpp:102-106 Samurai::IO::Net::DatagramSocket::DatagramSocket *)
Definition new_DatagramSocket_at (eh : bool) (bindAddr : InetSocketAddress) : DatagramSocket :=
  internal_create (new_socket (new_at bindAddr Datagram) eh).

(* @src src/src/io/net/datagram.cpp:108-112 Samurai::IO::Net::DatagramSocket::DatagramSocket *)
Definition new_DatagramSocket_host (eh : bool) (bindaddr : Inet.InetAddress) (bindport : Z) : DatagramSocket :=
  internal_create (new_socket (new_host bindaddr bindport Datagram) eh).

(* @src src/src/io/net/datagram.cpp:114-118 Samurai::IO::Net::DatagramSocket::DatagramSocket *)
Definition new_DatagramSocket_port (inet_pton : Inet.Version -> bytes -> option bytes) (eh : bool) (bindport : Z) : DatagramSocket :=
  new_DatagramSocket_host eh (Inet.new_InetAddress inet_pton (lit "0.0.0.0")) bindport.

(* @src src/src/io/net/datagram.cpp:127-130 Samurai::IO::Net::DatagramSocket::initialize *)
Definition initialize s : DatagramSocket :=
  if sd (base s) =? INVALID_SOCKET then s
  else let '(b, w) := setMonitor MonitorBackends.Triggers.Read (base s) (trace s) in with_base b w s.

(* @src src/src/io/net/datagram.cpp:133-136 Samurai::IO::Net::DatagramSocket::~DatagramSocket *)
Definition destroy_socket s : DatagramSocket :=
  let '(b, w) := disableMonitor (base s) (trace s) in
  let '(b, w) := close answer b w in
  let '(b, w) := destroy b w in
  mkDatagramSocket b (eventHandler s) (myPacket s) false w.

(* @src src/src/io/net/datagram.cpp:138-140 Samurai::IO::Net::DatagramSocket::setEventHandler *)
Definition setEventHandler (eh : bool) s : DatagramSocket :=
  mkDatagramSocket (base s) eh (myPacket s) (alive s) (trace s).

(* @src src/src/io/net/datagram.cpp:142-148 Samurai::IO::Net::DatagramSocket::listen *)
Definition listen s : bool * DatagramSocket :=
  match addr (base s) with
  | None => (false, s)
  | Some a =>
      if sd (base s) =? INVALID_SOCKET then (false, s)
      else
        let '(ec, w) := setReuseAddress answer true (base s) (trace s) in
        match ec with
        | Some _ => (false, with_trace w s)
        | None =>
            let '(ec, w) := setNonBlocking answer true (base s) w in
            match ec with
            | Some _ => (false, with_trace w s)
            | None => let '(ec, w) := bind answer (Some a) (base s) w in
                      (match ec with Some _ => false | None => true end, with_trace w s)
            end
        end
  end.

(** Errors that are not reported. *)
(* @src src/src/io/net/datagram.cpp:169-169 Samurai::IO::Net::DatagramSocket::send *)
Definition not_now (error : Z) : bool := (error =? EAGAIN) || (error =? EWOULDBLOCK) || (error =? EINTR).

(** The result, the packet, the socket, and the event the handler is told of last. *)
(* @src src/src/io/net/datagram.cpp:151-183 Samurai::IO::Net::DatagramSocket::send *)
Definition send (p : DatagramPacket) s : Z * DatagramPacket * DatagramSocket * option Event :=
  match p_addr p with
  | None => (-1, p, s, None)
  | Some a =>
      let length := Buffer.size (buffer p) in
      let length := if MAX_BUF_SIZE <? length then MAX_BUF_SIZE else length in
      if length =? 0 then (0, p, s, None)
      else
        let data := Buffer.read_at (Buffer.buf (buffer p)) (Buffer.head (buffer p)) length in
        let '(sa, a) := getSockAddr a in
        let p := mkDatagramPacket (buffer p) (Some a) in
        let '(ret, w) := sys answer (SysSendTo (sd (base s)) data (default [] sa)) (trace s) in
        let s := with_trace w s in
        match ret with
        | Err error =>
            if not_now error then (0, p, s, None)
            else (-1, p, s, if eventHandler s then Some (EventDatagramError error) else None)
        | Ret ret _ _ =>
            (ret, mkDatagramPacket (Buffer.remove ret (buffer p)) (p_addr p), say (DataSendUDP ret) s, None)
        end
  end.

(** [status] is the number of bytes the system wrote. *)
(* @src src/src/io/net/datagram.cpp:185-233 Samurai::IO::Net::DatagramSocket::read *)
Definition read (p : DatagramPacket) s : Z * DatagramPacket * DatagramSocket :=
  let '(r, w) := sys answer (SysRecvFrom (sd (base s)) MAX_BUF_SIZE) (trace s) in
  let s := with_trace w s in
  match r with
  | Err error => if not_now error then (0, p, s) else (-1, p, s)
  | Ret _ data from =>
      let status := zlen data in
      if status =? 0 then (0, clear_packet p, s)
      else
        let taddr := from_storage from in
        let p := setData data p in
        let p := match taddr with Some _ => setAddress taddr p | None => p end in
        (status, p, say (DataRecvUDP status) s)
  end.

(* @src src/src/io/net/datagram.cpp:246-259 Samurai::IO::Net::DatagramSocket::internal_canRead *)
Definition internal_canRead s : DatagramSocket * option Event :=
  let mine := default new_packet (myPacket s) in
  let '(status, p, s) := read mine s in
  let s := with_packet p s in
  (s, if status =? -1 then if eventHandler s then Some (EventDatagramError (net_error (trace s))) else None
      else if status =? 0 then None
      else if eventHandler s then Some (EventGotDatagram p) else None).

(** [handleMonitorEvent] is three parts, with what the handler does after the first two:
    reading, telling of an error, disabling the monitor. *)
(* @src src/src/io/net/datagram.cpp:236-239 Samurai::IO::Net::DatagramSocket::handleMonitorEvent *)
Definition on_readable (trig : Z) s : DatagramSocket * option Event :=
  if negb (Z.land trig MonitorBackends.Triggers.Read =? 0) then internal_canRead s else (s, None).

Definition signalled (trig : Z) : bool :=
  negb (Z.land trig (Z.lor MonitorBackends.Triggers.Error MonitorBackends.Triggers.Close) =? 0).

(* @src src/src/io/net/datagram.cpp:241-243 Samurai::IO::Net::DatagramSocket::handleMonitorEvent *)
Definition on_error (trig : Z) s : option Event :=
  if signalled trig && eventHandler s then Some (EventDatagramError (net_error (trace s))) else None.
(* @src src/src/io/net/datagram.cpp:261-264 Samurai::IO::Net::DatagramSocket::internal_error *)
Definition after_error (trig : Z) s : DatagramSocket :=
  if signalled trig then let '(b, w) := disableMonitor (base s) (trace s) in with_base b w s else s.

(** ** What can happen to a socket *)

(** Packets of the application are values of its own; [SendMine] is the packet the handler
    was told of. *)
Inductive Op :=
  | Listen | Close | SetHandler (eh : bool)
  | Send (p : DatagramPacket) | SendMine | Read (p : DatagramPacket) | Ready (trig : Z).

(** The state after a call that ends by telling the handler. *)
Inductive step : Op -> DatagramSocket -> DatagramSocket -> Prop :=
  | step_listen s : step Listen s (listen s).2
  | step_close s : step Close s (with_base (close answer (base s) (trace s)).1 (close answer (base s) (trace s)).2 s)
  | step_handler eh s : step (SetHandler eh) s (setEventHandler eh s)
  | step_send p ret p' s s1 e s2 : send p s = (ret, p', s1, e) -> reaction e s1 s2 -> step (Send p) s s2
  | step_send_mine p ret p' s s1 e s2 : myPacket s = Some p ->
      send p s = (ret, p', s1, e) -> reaction e (with_packet p' s1) s2 -> step SendMine s s2
  | step_read p s : step (Read p) s (read p s).2
  | step_ready trig s s1 e1 s2 s3 :
      watched (sd (base s)) (trace s) = true ->
      on_readable trig s = (s1, e1) -> reaction e1 s1 s2 ->
      reaction (on_error trig s2) s2 s3 ->
      step (Ready trig) s (after_error trig s3)
with reaction : option Event -> DatagramSocket -> DatagramSocket -> Prop :=
  | reaction_none s : reaction None s s
  | reaction_calls e s s' : calls (say e s) s' -> reaction (Some e) s s'
with calls : DatagramSocket -> DatagramSocket -> Prop :=
  | calls_none s : calls s s
  | calls_more o s s1 s2 : step o s s1 -> calls s1 s2 -> calls s s2.

(** The life of a socket, from its construction. *)
Inductive life (s0 : DatagramSocket) : DatagramSocket -> Prop :=
  | life_new : life s0 (initialize s0)
  | life_step s o s' : life s0 s -> alive s = true -> step o s s' -> life s0 s'
  | life_destroy s : life s0 s -> alive s = true -> life s0 (destroy_socket s).
End packet.

Scheme step_ind' := Minimality for step Sort Prop
  with reaction_ind' := Minimality for reaction Sort Prop
  with calls_ind' := Minimality for calls Sort Prop.
Combined Scheme step_mutind from step_ind', reaction_ind', calls_ind'.

(** ** What is received and what the handler is told *)

(** Who a packet is from or to: the address without its cache. *)
Definition peer (a : InetSocketAddress) : Inet.InetAddress * Z := (SocketAddress.addr a, port a).

(** The datagrams the system gave, with their senders, and those the handler was told of. *)
Definition received_of (x : Entry Event) : option (bytes * option (Inet.InetAddress * Z)) :=
  match x with
  | Called (SysRecvFrom _ _) (Ret _ (c :: data) from) => Some (c :: data, peer <$> from_storage from)
  | _ => None
  end.
Definition told_of (x : Entry Event) : option (bytes * option (Inet.InetAddress * Z)) :=
  match x with
  | Told (EventGotDatagram p) => Some (Buffer.live (buffer p), peer <$> p_addr p)
  | _ => None
  end.
Definition received (w : World Event) := omap received_of w.
Definition told (w : World Event) := omap told_of w.

Lemma received_snoc w x : received (w ++ [x]) = received w ++ option_list (received_of x).
Proof. unfold received. rewrite omap_app. cbn. by destruct (received_of x). Qed.
Lemma dgram_told_snoc w x : told (w ++ [x]) = told w ++ option_list (told_of x).
Proof. unfold told. rewrite omap_app. cbn. by destruct (told_of x). Qed.

(** What the socket's own packet always is: a buffer that holds any datagram. *)
Definition packet_ok (p : DatagramPacket) : Prop :=
  Buffer.wf (buffer p) /\ Buffer.initialCapasity (buffer p) = MAX_BUF_SIZE.

Lemma new_packet_ok : packet_ok new_packet.
Proof. split; [|done]. by apply Buffer.new_Buffer_wf. Qed.

Lemma clear_packet_ok p : packet_ok p -> packet_ok (clear_packet p) /\ Buffer.live (buffer (clear_packet p)) = [].
Proof. intros [W I]. destruct (Buffer.clear_live _ W) as [W' L]. done. Qed.

(** A datagram fits the cleared packet without an allocation. *)
Lemma setData_ok alloc data p : packet_ok p -> zlen data <= MAX_BUF_SIZE ->
  packet_ok (setData alloc data p) /\ Buffer.live (buffer (setData alloc data p)) = data /\ p_addr (setData alloc data p) = p_addr p.
Proof.
  intros [W I] Hl. destruct (Buffer.clear_live _ W) as [Wc Lc].
  assert (Buffer.capasity (Buffer.clear (buffer p)) = MAX_BUF_SIZE) as Hc.
  { unfold Buffer.capasity, Buffer.clear. cbn [Buffer.buf]. unfold zlen. rewrite length_replicate, I. done. }
  destruct (Buffer.append_all_or_nothing alloc data _ Wc) as (ok & b' & E & W' & L' & I' & _).
  unfold setData, packet_ok. cbn [buffer p_addr]. rewrite E. cbn [snd]. rewrite I', L', Lc.
  assert (ok = true) as ->; [|by cbn].
  revert E. unfold Buffer.append. rewrite Hc. change (Buffer.len (Buffer.clear (buffer p))) with 0.
  pose proof (zlen_nonneg data). unfold SIZE_MAX, MAX_BUF_SIZE in *.
  destruct (Z.ltb_spec (2 ^ 64 - 1 - 0) (zlen data)); [lia|].
  rewrite Z.add_0_l. unfold u64. rewrite Z.mod_small by lia.
  destruct (Z.ltb_spec 65536 (zlen data)); [lia|]. cbn [negb]. by intros [= <- _].
Qed.

Section facts.
Variable alloc : Z -> bool.
Variable answer : World Event -> Call -> Reply.

(** [recvfrom] writes no more than it is given room for and says who sent a datagram;
    [sendto] takes some of what it is given. *)
Hypothesis recv_fits : forall w d n z data from, 0 <= n -> answer w (SysRecvFrom d n) = Ret z data from ->
  zlen data <= n /\ from_storage from <> None.
Hypothesis send_takes : forall w d data sa z dt from, answer w (SysSendTo d data sa) = Ret z dt from -> 0 <= z <= zlen data.
Implicit Types s : DatagramSocket.

Record inv s : Prop := {
  i_good : good (base s) (trace s);
  i_packet p : myPacket s = Some p -> packet_ok p;
  i_told : told (trace s) `sublist_of` received (trace s)
}.

(** An entry that is neither a datagram received nor one told of. *)
Lemma dgram_inv_quiet s b x : inv s -> good b (trace s ++ [x]) -> told_of x = None ->
  inv (with_base b (trace s ++ [x]) s).
Proof.
  intros [G P T] G' Hx. split; [done|done|]. cbn [trace with_base].
  rewrite dgram_told_snoc, received_snoc, Hx, app_nil_r. by apply sublist_inserts_r.
Qed.

Lemma inv_own s c r : inv s -> plain c -> names c = Some (sd (base s)) ->
  inv (with_base (base s) (trace s ++ [Called c r]) s).
Proof. intros I Hp Hn. apply dgram_inv_quiet; [done| |done]. apply good_own; [apply I|done..]. Qed.

Lemma dgram_inv_say s e : inv s -> (forall p, e <> EventGotDatagram p) -> inv (say e s).
Proof.
  intros I He. apply dgram_inv_quiet; [done|apply good_told, I|]. destruct e; [by destruct (He packet)|done..].
Qed.

(** The trace and the base of the results of the shared operations. *)
Lemma inv_base s b w : inv s -> good b w -> told w = told (trace s) -> received w = received (trace s) ->
  inv (with_base b w s).
Proof. intros [G P T] G' E1 E2. split; [done|done|]. cbn [trace with_base]. by rewrite E1, E2. Qed.

Lemma silent_disable b w : told (disableMonitor b w).2 = told w /\ received (disableMonitor b w).2 = received w.
Proof. unfold disableMonitor. destruct (monitored b); [|done]. cbn [snd]. by rewrite dgram_told_snoc, received_snoc, !app_nil_r. Qed.
Lemma silent_setMonitor t b w : told (setMonitor t b w).2 = told w /\ received (setMonitor t b w).2 = received w.
Proof. unfold setMonitor. destruct (monitored b); cbn [snd]; by rewrite dgram_told_snoc, received_snoc, !app_nil_r. Qed.
Lemma silent_close b w : told (close answer b w).2 = told w /\ received (close answer b w).2 = received w.
Proof.
  unfold close. destruct (_ =? _); [done|]. destruct (silent_disable b w) as [E1 E2].
  destruct (disableMonitor b w) as [b1 w1]. cbn [snd sys] in *.
  by rewrite !dgram_told_snoc, !received_snoc, !app_nil_r, E1, E2.
Qed.

Lemma dgram_inv_disable s : inv s -> inv (with_base (disableMonitor (base s) (trace s)).1 (disableMonitor (base s) (trace s)).2 s).
Proof. intros I. apply inv_base; [done|apply disableMonitor_good, I|apply silent_disable..]. Qed.
Lemma inv_setMonitor t s : inv s -> inv (with_base (setMonitor t (base s) (trace s)).1 (setMonitor t (base s) (trace s)).2 s).
Proof. intros I. apply inv_base; [done|apply setMonitor_good, I|apply silent_setMonitor..]. Qed.
Lemma dgram_inv_close s : inv s -> inv (with_base (close answer (base s) (trace s)).1 (close answer (base s) (trace s)).2 s).
Proof. intros I. apply inv_base; [done|apply close_good, I|apply silent_close..]. Qed.

Lemma dgram_inv_listen s : inv s -> inv (listen answer s).2.
Proof.
  intros Inv. unfold listen. destruct (addr (base s)) as [a|]; [|done].
  destruct (Z.eqb_spec (sd (base s)) INVALID_SOCKET) as [|Hv]; [done|].
  unfold setReuseAddress, set_option, sys. set (r1 := answer _ _).
  pose proof (inv_own s (SysSetOpt (sd (base s)) SO_REUSEADDR (toggle_value true)) r1 Inv I eq_refl) as I1.
  destruct (failed r1); [exact I1|]. unfold setNonBlocking, sys. set (w1 := trace s ++ _) in *. set (r2 := answer w1 _).
  pose proof (inv_own _ (SysNonBlock (sd (base s)) true) r2 I1 I eq_refl) as I2. cbn [with_base base trace] in I2.
  destruct (failed r2); [exact I2|]. set (w2 := w1 ++ _) in *. rewrite bind_structure by done.
  destruct (structure_of _ _) as [sa|]; [|exact I2]. unfold sys. set (r3 := answer w2 _).
  exact (inv_own _ (SysBind (sd (base s)) sa) r3 I2 I eq_refl).
Qed.

(** ** Sending *)

(** What a call took of a packet: the front of it, which is then gone. *)
Lemma send_spec p s ret p' s' e : Buffer.wf (buffer p) -> send answer p s = (ret, p', s', e) ->
  Buffer.wf (buffer p') /\ Buffer.initialCapasity (buffer p') = Buffer.initialCapasity (buffer p) /\
  Buffer.live (buffer p) = ztake (Z.max 0 ret) (Buffer.live (buffer p)) ++ Buffer.live (buffer p') /\
  ret <= MAX_BUF_SIZE.
Proof.
  intros W. pose proof (Buffer.live_length _ W) as HL.
  assert (forall b, Buffer.live b = ztake (Z.max 0 0) (Buffer.live b) ++ Buffer.live b) as E0 by done.
  unfold send. destruct (p_addr p) as [a|]; [|by intros [= <- <- <- <-]].
  set (n := if MAX_BUF_SIZE <? Buffer.size (buffer p) then MAX_BUF_SIZE else Buffer.size (buffer p)).
  destruct (Z.eqb_spec n 0); [by intros [= <- <- <- <-]|].
  destruct (getSockAddr a) as [sa a']. unfold sys. set (c := SysSendTo _ _ _).
  destruct (answer (trace s) c) as [err|z dt from] eqn:Er.
  - destruct (not_now err); by intros [= <- <- <- <-].
  - apply send_takes in Er as Hz. intros [= <- <- <- <-]. cbn [buffer].
    assert (zlen (Buffer.read_at (Buffer.buf (buffer p)) (Buffer.head (buffer p)) n) <= n /\ n <= MAX_BUF_SIZE) as [Hn Hm].
    { split; [|unfold n; destruct (Z.ltb_spec MAX_BUF_SIZE (Buffer.size (buffer p))); lia].
      assert (0 <= n) by (unfold n; rewrite <- HL; pose proof (zlen_nonneg (Buffer.live (buffer p)));
        destruct (Z.ltb_spec MAX_BUF_SIZE (zlen (Buffer.live (buffer p)))); unfold MAX_BUF_SIZE in *; lia).
      unfold Buffer.read_at, zlen. rewrite length_take. lia. }
    destruct (Buffer.remove_live z (buffer p) W) as (W' & L' & _ & I'); [lia|].
    split; [done|]. split; [done|]. split; [|lia].
    rewrite L', Z.max_r by lia. by rewrite take_drop.
Qed.

Lemma rest_of_front k (l r : bytes) : l = take k l ++ r -> drop k l = r.
Proof. intros H. rewrite <- (take_drop k l) in H at 1. by apply app_inv_head in H. Qed.

Lemma send_event p s ret p' s' e x : send answer p s = (ret, p', s', e) -> e = Some x -> exists n, x = EventDatagramError n.
Proof.
  intros E ->. revert E. unfold send. destruct (p_addr p); [|done]. destruct (_ =? 0); [done|].
  destruct (getSockAddr _), (sys _ _ _) as [[err|] w]; [|done]. destruct (not_now err); [done|].
  destruct (eventHandler _); [|done]. intros [= _ _ _ <-]. eauto.
Qed.

(** Sending a packet again and again, whatever the results are. *)
Fixpoint send_all (n : nat) (p : DatagramPacket) s : list Z * DatagramPacket * DatagramSocket :=
  match n with
  | O => ([], p, s)
  | S n => let '(ret, p, s, _) := send answer p s in
           let '(rets, p, s) := send_all n p s in (ret :: rets, p, s)
  end.

Fixpoint pieces (rets : list Z) (l : bytes) : list bytes :=
  match rets with
  | [] => []
  | ret :: rets => ztake (Z.max 0 ret) l :: pieces rets (zdrop (Z.max 0 ret) l)
  end.

(** However a packet is sent - refused, interrupted, in parts - what the system took, call
    by call, followed by what the packet still holds is what it held: nothing goes out
    twice and nothing is lost. *)
Theorem packet_sent_once n p s : Buffer.wf (buffer p) ->
  let '(rets, p', _) := send_all n p s in
  Buffer.wf (buffer p') /\ Buffer.live (buffer p) = concat (pieces rets (Buffer.live (buffer p))) ++ Buffer.live (buffer p').
Proof.
  revert p s. induction n as [|n IH]; intros p s W; [done|]. cbn [send_all].
  destruct (send answer p s) as [[[ret p1] s1] e] eqn:E. destruct (send_spec _ _ _ _ _ _ W E) as (W1 & _ & L1 & _).
  specialize (IH p1 s1 W1). destruct (send_all n p1 s1) as [[rets p2] s2]. destruct IH as [W2 L2]. split; [done|].
  cbn [pieces concat]. rewrite (rest_of_front _ _ _ L1), <- app_assoc, <- L2. exact L1.
Qed.

Lemma dgram_send_inv p s ret p' s' e : inv s -> send answer p s = (ret, p', s', e) ->
  inv s' /\ alive s' = alive s /\ base s' = base s /\ myPacket s' = myPacket s.
Proof.
  intros Inv. unfold send. destruct (p_addr p) as [a|]; [|by intros [= <- <- <- <-]].
  destruct (_ =? 0); [by intros [= <- <- <- <-]|].
  destruct (getSockAddr a) as [sa a']. unfold sys. set (c := SysSendTo _ _ _).
  pose proof (inv_own s c (answer (trace s) c) Inv I eq_refl) as I1.
  destruct (answer (trace s) c) as [err|z dt from].
  - destruct (not_now err); by intros [= <- <- <- <-].
  - intros [= <- <- <- <-]. split; [|done]. by apply (dgram_inv_say _ (DataSendUDP z)) in I1.
Qed.

(** ** Receiving *)

Lemma read_inv p s status p' s' : inv s -> read alloc answer p s = (status, p', s') ->
  inv s' /\ base s' = base s /\ alive s' = alive s /\ eventHandler s' = eventHandler s /\ myPacket s' = myPacket s.
Proof.
  intros Inv. unfold read, sys. set (c := SysRecvFrom _ _). set (r := answer _ _).
  pose proof (inv_own s c r Inv I eq_refl) as I1.
  destruct r as [err|z data from].
  - destruct (not_now err); by intros [= <- <- <-].
  - destruct (zlen data =? 0); [by intros [= <- <- <-]|]. intros [= <- <- <-].
    split; [|done]. by apply (dgram_inv_say _ (DataRecvUDP (zlen data))) in I1.
Qed.

(** What a read leaves: on every branch the packet stays one that holds any datagram, and
    when there is a datagram it is in the packet, with its sender. *)
Lemma read_spec p s status p' s' : inv s -> packet_ok p -> read alloc answer p s = (status, p', s') ->
  packet_ok p' /\ -1 <= status <= MAX_BUF_SIZE /\
  (0 < status -> told (trace s') ++ [(Buffer.live (buffer p'), peer <$> p_addr p')] `sublist_of` received (trace s')).
Proof.
  intros Inv Hp. unfold read, sys. set (c := SysRecvFrom _ _).
  destruct (answer _ _) as [err|z data from] eqn:Er.
  - unfold MAX_BUF_SIZE. destruct (not_now err); intros [= <- <- <-]; (split; [done|]); split; lia.
  - assert (0 <= MAX_BUF_SIZE) as H0 by done. destruct (recv_fits _ _ _ _ _ _ H0 Er) as [Hl Hf]. pose proof (zlen_nonneg data).
    destruct (Z.eqb_spec (zlen data) 0) as [Hz|Hz].
    { intros [= <- <- <-]. split; [by apply clear_packet_ok|]. unfold MAX_BUF_SIZE. split; lia. }
    destruct (setData_ok alloc data p Hp Hl) as (P1 & L1 & _). destruct (from_storage from) as [t|] eqn:Ef; [|done].
    intros [= <- <- <-]. split; [exact P1|]. split; [lia|]. intros _.
    cbn [say with_trace with_base trace setAddress p_addr buffer].
    rewrite !dgram_told_snoc, !received_snoc, L1. destruct data as [|b data]; [done|].
    cbn [told_of received_of option_list]. unfold c. cbn [option_list]. rewrite Ef, !app_nil_r.
    cbn [option_list fmap option_fmap option_map]. apply sublist_app; [apply Inv|done].
Qed.

Lemma canRead_inv s s' e : inv s -> internal_canRead alloc answer s = (s', e) ->
  inv s' /\ (forall x, e = Some x -> inv (say x s')) /\ alive s' = alive s /\ base s' = base s.
Proof.
  intros Inv. unfold internal_canRead.
  assert (packet_ok (default new_packet (myPacket s))) as Hp.
  { destruct (myPacket s) as [p|] eqn:E; [by apply Inv|]. apply new_packet_ok. }
  destruct (read _ _ _ _) as [[status p1] s1] eqn:E.
  destruct (read_inv _ _ _ _ _ Inv E) as (I1 & B1 & A1 & H1 & M1).
  destruct (read_spec _ _ _ _ _ Inv Hp E) as (P1 & Hs & T1).
  intros [= <- <-]. assert (inv (with_packet p1 s1)) as I2.
  { split; [apply I1| |apply I1]. by intros p [= <-]. }
  split; [done|]. split; [|done]. intros x.
  destruct (Z.eqb_spec status (-1)) as [->|].
  { destruct (eventHandler _); [|done]. intros [= <-]. by apply dgram_inv_say. }
  destruct (Z.eqb_spec status 0); [done|]. destruct (eventHandler _); [|done]. intros [= <-].
  split; [apply good_told, I2|by intros p [= <-]|].
  cbn [trace say with_trace with_base with_packet]. rewrite dgram_told_snoc, received_snoc, app_nil_r. apply T1. lia.
Qed.

(** ** Steps *)

Definition keeps_all s s' : Prop := alive s = true -> inv s -> inv s' /\ alive s' = alive s.

Lemma on_error_event trig s x : on_error trig s = Some x -> exists n, x = EventDatagramError n.
Proof. unfold on_error. destruct (_ && _); [|done]. intros [= <-]. eauto. Qed.

Lemma dgram_keeps_calls :
  (forall o s s', step alloc answer o s s' -> keeps_all s s') /\
  (forall e s s', reaction alloc answer e s s' -> (forall x, e = Some x -> inv s -> inv (say x s)) -> keeps_all s s') /\
  (forall s s', calls alloc answer s s' -> keeps_all s s').
Proof.
  apply step_mutind.
  - intros s _ Inv. split; [by apply dgram_inv_listen|]. unfold listen. destruct (addr _); [|done]. destruct (_ =? _); [done|].
    destruct (setReuseAddress _ _ _ _) as [[] ?]; [done|]. destruct (setNonBlocking _ _ _ _) as [[] ?]; [done|]. by destruct (bind _ _ _ _).
  - intros s _ Inv. split; [by apply dgram_inv_close|done].
  - intros eh s _ [G P T]. by split.
  - intros p ret p' s s1 e s2 E _ IH A Inv. destruct (dgram_send_inv _ _ _ _ _ _ Inv E) as (I1 & A1 & _).
    destruct IH as [I2 A2]; [|congruence|done|split; [done|congruence]].
    intros x Hx I'. destruct (send_event _ _ _ _ _ _ _ E Hx) as [n ->]. by apply dgram_inv_say.
  - intros p ret p' s s1 e s2 Hm E _ IH A Inv. destruct (dgram_send_inv _ _ _ _ _ _ Inv E) as (I1 & A1 & B1 & M1).
    destruct (i_packet _ Inv p Hm) as [W C]. destruct (send_spec _ _ _ _ _ _ W E) as (W' & C' & _).
    assert (inv (with_packet p' s1)) as I2.
    { split; [apply I1| |apply I1]. intros q [= <-]. split; [done|]. congruence. }
    destruct IH as [I3 A3]; [|cbn; congruence|done|split; [done|cbn in *; congruence]].
    intros x Hxe I'. destruct (send_event _ _ _ _ _ _ _ E Hxe) as [n ->]. by apply dgram_inv_say.
  - intros p s _ Inv. destruct (read alloc answer p s) as [[status p'] s'] eqn:E.
    destruct (read_inv _ _ _ _ _ Inv E) as (I1 & _ & A1 & _). done.
  - intros trig s s1 e1 s2 s3 Hw Hr _ IH1 _ IH2 A Inv.
    assert (inv s1 /\ (forall x, e1 = Some x -> inv (say x s1)) /\ alive s1 = alive s) as (I1 & X1 & A1).
    { unfold on_readable in Hr. destruct (negb _); [|injection Hr as <- <-; done].
      destruct (canRead_inv _ _ _ Inv Hr) as (I1 & X1 & A1 & _). done. }
    destruct IH1 as [I2 A2]; [by auto|congruence|done|].
    destruct IH2 as [I3 A3]; [|congruence|done|].
    { intros x Hx I'. apply on_error_event in Hx as [n ->]. by apply dgram_inv_say. }
    unfold after_error. destruct (signalled trig); [|split; [done|congruence]].
    pose proof (dgram_inv_disable _ I3) as I4. destruct (disableMonitor _ _). split; [done|]. cbn in *. congruence.
  - done.
  - intros e s s' _ IH Hx A Inv. apply IH; [done|]. by apply (Hx e).
  - done.
  - intros o s s1 s2 _ H1 _ H2 A Inv. destruct (H1 A Inv) as [I1 A1]. destruct (H2 (eq_trans A1 A) I1) as [I2 A2]. split; [done|congruence].
Qed.

(** The sockets the constructors make. *)
Inductive built : DatagramSocket -> Prop :=
  | built_at eh a : built (new_DatagramSocket_at answer eh a)
  | built_host eh a p : built (new_DatagramSocket_host answer eh a p)
  | built_version eh v : built (new_DatagramSocket_version answer eh v).

Lemma inv_create af b eh : monitored b = false -> sd b = INVALID_SOCKET ->
  let s := new_socket b eh in
  inv (with_base (createDescriptor answer af b []).1.2 (createDescriptor answer af b []).2 s).
Proof.
  intros Hm Hs. pose proof (createDescriptor_good answer af b [] (good_new b Hm Hs) Hm) as H.
  unfold createDescriptor, sys in *. cbn [fst snd app] in *. destruct H as (G & _).
  split; [exact G|done|]. cbn. constructor.
Qed.

Lemma built_inv s : built s -> inv (initialize s) /\ alive (initialize s) = true.
Proof.
  intros B. assert (inv s /\ alive s = true) as [Inv A].
  { destruct B as [eh a|eh a p|eh v]; (split; [|done]).
    - apply (inv_create (getSockAddrFamily (new_copy a)) (new_at a Datagram)); done.
    - apply (inv_create (getSockAddrFamily (new_address a p)) (new_host a p Datagram)); done.
    - apply (inv_create _ (new_bare Datagram)); done. }
  unfold initialize. destruct (_ =? _); [done|].
  pose proof (inv_setMonitor MonitorBackends.Triggers.Read _ Inv) as I1. by destruct (setMonitor _ _ _).
Qed.

Lemma dgram_life_inv s0 s : built s0 -> life alloc answer s0 s -> inv s.
Proof.
  intros B. induction 1 as [|s o s' L Inv A St|s L Inv A].
  - by apply built_inv.
  - by destruct (proj1 dgram_keeps_calls _ _ _ St A Inv).
  - unfold destroy_socket. pose proof (dgram_inv_disable _ Inv) as I1. destruct (disableMonitor (base s) (trace s)) as [b1 w1].
    pose proof (dgram_inv_close _ I1) as I2. cbn [with_base base trace fst snd] in I2. destruct (close answer b1 w1) as [b2 w2].
    pose proof (dgram_inv_disable _ I2) as I3. unfold destroy. cbn [with_base base trace fst snd] in I3. destruct (disableMonitor b2 w2) as [b3 w3].
    destruct I3 as [G P T]. by split.
Qed.

(** What holds of a datagram socket whatever the system answers and its handlers do: it
    never names a descriptor it closed; the monitor has exactly its open descriptor while
    it is monitored; and the handler is told of datagrams the system gave, each at most
    once and in order, with their bytes and their senders. *)
Theorem datagrams_told s0 s : built s0 -> life alloc answer s0 s ->
  tidy (trace s) /\
  (forall d, watched d (trace s) = true <-> d = sd (base s) /\ d <> INVALID_SOCKET /\ monitored (base s) = true) /\
  told (trace s) `sublist_of` received (trace s).
Proof.
  intros B L. destruct (dgram_life_inv _ _ B L) as [G P T]. split; [apply G|]. split; [|done].
  intros d. rewrite (good_watched _ _ G), !andb_true_iff, negb_true_iff, Z.eqb_eq, Z.eqb_neq.
  split; [intros [[? <-] ?]; done|intros (-> & ? & ?); done].
Qed.
End facts.

(** ** A socket that sends back what it gets *)

Definition demo_peer : bytes := sockaddr_in 40000 [chr 10; chr 0; chr 0; chr 9] ++ replicate 112 (chr 0).
Definition demo_answer (w : World Event) (c : Call) : Reply :=
  match c with
  | SysSocket _ _ => Ret 3 [] []
  | SysRecvFrom _ n => Ret 5 (ztake n (lit "hello")) demo_peer
  | SysSendTo _ data _ => Ret (zlen data) [] []
  | _ => Ret 0 [] []
  end.
Definition demo_alloc (n : Z) : bool := true.
Definition demo_built : DatagramSocket :=
  new_DatagramSocket_at demo_answer true (setRawSocketAddress [chr 127; chr 0; chr 0; chr 1] 5353 Inet.IPv4 new_default).

(** A handler that does nothing. *)
Definition quietly (e : option Event) (s : DatagramSocket) : DatagramSocket :=
  match e with Some e => say e s | None => s end.

Lemma quietly_reaction alloc answer e s : reaction alloc answer e s (quietly e s).
Proof. destruct e; constructor. constructor. Qed.

(** The handler is told of a datagram and sends the packet back. *)
Definition demo_read := internal_canRead demo_alloc demo_answer (initialize demo_built).
Definition demo_told : DatagramSocket := quietly demo_read.2 demo_read.1.
Definition echo (s : DatagramSocket) : DatagramSocket :=
  match myPacket s with
  | Some p => let '(_, p, s, e) := send demo_answer p s in quietly e (with_packet p s)
  | None => s
  end.

Lemma echo_calls s : calls demo_alloc demo_answer s (echo s).
Proof.
  unfold echo. destruct (myPacket s) as [p|] eqn:E; [|constructor].
  destruct (send demo_answer p s) as [[[ret p'] s1] e] eqn:Es.
  eapply (calls_more _ _ SendMine); [|constructor]. eapply step_send_mine; [done|done|]. apply quietly_reaction.
Qed.

Definition demo_echoed : DatagramSocket := match demo_read.2 with Some _ => echo demo_told | None => demo_told end.

Lemma after_quiet s : after_error MonitorBackends.Triggers.Read s = s.
Proof. reflexivity. Qed.

Lemma dgram_demo_life : life demo_alloc demo_answer demo_built demo_echoed.
Proof.
  eapply (life_step _ _ _ _ (Ready MonitorBackends.Triggers.Read)); [constructor|reflexivity|].
  refine (eq_ind _ (step demo_alloc demo_answer _ _) _ _ (after_quiet demo_echoed)).
  eapply (step_ready _ _ _ _ demo_read.1 demo_read.2 demo_echoed); [reflexivity| | |constructor].
  - unfold on_readable. cbn [Z.land]. change (negb _) with true. apply surjective_pairing.
  - unfold demo_echoed, demo_told, quietly. destruct demo_read.2; constructor. apply echo_calls.
Qed.

Lemma datagrams_told_witness :
  tidy (trace demo_echoed) /\ told (trace demo_echoed) = received (trace demo_echoed) /\
  told (trace demo_echoed) = [(lit "hello", peer <$> from_storage demo_peer)].
Proof.
  destruct (datagrams_told demo_alloc demo_answer) with (s0 := demo_built) (s := demo_echoed) as (T & _).
  - intros w d n z data from Hn. cbn. intros [= <- <- <-]. split; [|done]. unfold zlen. rewrite length_take. lia.
  - intros w d data sa z dt from. cbn. intros [= <- _ _]. split; [apply zlen_nonneg|done].
  - constructor.
  - apply dgram_demo_life.
  - split; [exact T|]. split; vm_compute; reflexivity.
Defined.

(** The echo went to the sender of the datagram, with its bytes. *)
Lemma demo_echo :
  omap (fun x => match x with Called (SysSendTo d data sa) _ => Some (d, data, take 8 sa) | _ => None end) (trace demo_echoed) =
  [(3, lit "hello", take 8 demo_peer)].
Proof. vm_compute. reflexivity. Qed.

Lemma packet_sent_once_witness :
  let p := setAddress (from_storage demo_peer) (packet_of demo_alloc (lit "ping")) in
  Buffer.wf (buffer p) /\ Buffer.live (buffer (send_all demo_answer 2 p demo_built).1.2) = [].
Proof.
  intros p. assert (Buffer.wf (buffer p)) as W.
  { destruct (Buffer.append_all_or_nothing demo_alloc (lit "ping") (Buffer.new_Buffer 4)) as (ok & b & E & W & _).
    - by apply Buffer.new_Buffer_wf.
    - change (Buffer.wf (Buffer.append demo_alloc (lit "ping") (Buffer.new_Buffer 4)).2). by rewrite E. }
  split; [exact W|].
  pose proof (packet_sent_once demo_answer) as H. specialize (H ltac:(cbn; intros w d data sa z dt from [= <- _ _]; pose proof (zlen_nonneg data); lia) 2%nat p demo_built W).
  destruct (send_all _ _ _ _) as [[rets p'] s'] eqn:E. cbn. destruct H as [_ H].
  assert (rets = (send_all demo_answer 2 p demo_built).1.1) as Er by (by rewrite E).
  assert (rets = [4; 0]) as -> by (rewrite Er; vm_compute; reflexivity).
  assert (Buffer.live (buffer p) = lit "ping") as Hp by (vm_compute; reflexivity). rewrite Hp in H.
  generalize dependent (Buffer.live (buffer p')). intros l H. vm_compute in H. by destruct l.
Defined.

(** ** What does not hold *)

(** A socket made of a version alone has no address, so it never listens. *)
Lemma version_never_listens answer eh v : (listen answer (new_DatagramSocket_version answer eh v)).1 = false.
Proof. unfold new_DatagramSocket_version. by destruct (createDescriptor _ _ _ _) as [[? b] w] eqn:E; revert E; unfold createDescriptor; intros [= <- <- <-]. Qed.

(** Without a descriptor a packet is handed to the system all the same. *)
Lemma send_without_descriptor :
  let p := setAddress (from_storage demo_peer) (packet_of demo_alloc (lit "x")) in
  exists sa r, trace (send (fun _ _ => Err EBADF) p new_DatagramSocket).1.2 = [Called (SysSendTo INVALID_SOCKET (lit "x") sa) r].
Proof. do 2 eexists. vm_compute. reflexivity. Qed.
