(* ===== verification/Interface.v ===== *)
(** * Interface: [src/io/net/hardwareaddress.cpp] and [src/io/net/interface.cpp]

    Hardware addresses, read and printed; and the network interfaces as the host describes
    them through its [ioctl]s. The host is a parameter; the code of Unix is modelled. *)

From S2P Require Import Prelude Strings.
From S2P Require Inet.
Import Inet (Version, Unspecified, IPv4, IPv6, InetAddress, mkInetAddress, Resolved, Unresolved).

#[local] Existing Instances Inet.Version_eq_dec.

(** ** Hardware addresses *)

Module Hardware.

(** [octets] and the text that is kept with them. *)
(* @src src/include/samurai/io/net/hardwareaddress.h:16-41 Samurai::IO::Net::HardwareAddress *)
Record HardwareAddress := mkHardwareAddress { octets : list Z; macaddr : bytes }.

Definition hex_char (n : Z) : byte := nth (Z.to_nat n) (lit "0123456789abcdef") (chr 0).

(** [{:02x}] of a byte. *)
Definition format_octet (z : Z) : bytes := [hex_char (z / 16); hex_char (z mod 16)].

(* @src src/src/io/net/hardwareaddress.cpp:15-21 formatOctets *)
Fixpoint formatOctets (n : nat) (l : list Z) : bytes :=
  match l with
  | [] => []
  | z :: l => (match n with O => [] | S _ => lit ":" end) ++ format_octet z ++ formatOctets (S n) l
  end.

Definition is_space (c : byte) : bool := (code c =? 32) || ((9 <=? code c) && (code c <=? 13)).
Fixpoint skip_space (s : bytes) : bytes :=
  match s with c :: s' => if is_space c then skip_space s' else s | [] => [] end.

Definition hex_value (c : byte) : option Z :=
  let z := code c in
  if (48 <=? z) && (z <=? 57) then Some (z - 48)
  else if (97 <=? z) && (z <=? 102) then Some (z - 87)
  else if (65 <=? z) && (z <=? 70) then Some (z - 55) else None.

(** [%2x]: white space is skipped, and of the two characters that follow the longest number
    is taken, a sign included; [0x] without digits is no number. *)
Definition scan_2x (s : bytes) : option (Z * bytes) :=
  match skip_space s with
  | a :: rest =>
      match hex_value a with
      | Some x =>
          match rest with
          | b :: rest' =>
              match hex_value b with
              | Some y => Some (16 * x + y, rest')
              | None => if (x =? 0) && (Ascii.eqb b "x" || Ascii.eqb b "X") then None else Some (x, rest)
              end
          | [] => Some (x, rest)
          end
      | None =>
          if Ascii.eqb a "+" || Ascii.eqb a "-" then
            match rest with
            | b :: rest' =>
                match hex_value b with
                | Some y => Some (if Ascii.eqb a "-" then u32 (- y) else y, rest')
                | None => None
                end
            | [] => None
            end
          else None
      end
  | [] => None
  end.

(** The six conversions of the format, with the colons between them. *)
Fixpoint scan (n : nat) (s : bytes) : list Z :=
  match n with
  | O => []
  | S n =>
      match scan_2x s with
      | None => []
      | Some (v, rest) =>
          v :: match rest with
               | c :: rest => if Ascii.eqb c ":" then scan n rest else []
               | [] => []
               end
      end
  end.

(** [None] is a null pointer. *)
(* @src src/src/io/net/hardwareaddress.cpp:25-37 Samurai::IO::Net::HardwareAddress::HardwareAddress *)
Definition new_HardwareAddress (text : option bytes) : HardwareAddress :=
  let parsed := match text with Some t => scan 6 t | None => [] end in
  let octets := if (length parsed =? 6)%nat then map u8 parsed else replicate 6 0 in
  mkHardwareAddress octets (formatOctets 0 octets).

(* @src src/src/io/net/hardwareaddress.cpp:39-43 Samurai::IO::Net::HardwareAddress::HardwareAddress *)
Definition of_octets (l : list Z) : HardwareAddress := mkHardwareAddress l (formatOctets 0 l).

(** A text too long for the array would be out of bounds: there are always 17 characters
    and a terminator. *)
Lemma format_length l : length l = 6%nat -> length (formatOctets 0 l) = 17%nat.
Proof. intros. destruct l as [|a [|b [|c [|d [|e [|f [|]]]]]]]; done. Qed.

Lemma new_octets t : length (octets (new_HardwareAddress t)) = 6%nat /\
  macaddr (new_HardwareAddress t) = formatOctets 0 (octets (new_HardwareAddress t)).
Proof.
  split; [|done]. unfold new_HardwareAddress. cbn [octets].
  set (parsed := match t with Some t => scan 6 t | None => [] end).
  destruct (Nat.eqb_spec (length parsed) 6) as [E|E]; [by rewrite length_map|done].
Qed.

Lemma hex_nibble n : 0 <= n < 16 ->
  hex_value (hex_char n) = Some n /\ is_space (hex_char n) = false.
Proof.
  intros H. assert (Forall (fun n => hex_value (hex_char n) = Some n /\ is_space (hex_char n) = false) (map Z.of_nat (seq 0 16))) as F.
  { refine (bool_decide_unpack _ _). vm_compute. exact I. }
  rewrite Forall_forall in F. apply F. apply list_elem_of_In, in_map_iff.
  exists (Z.to_nat n). split; [lia|]. apply in_seq. lia.
Qed.

Lemma scan_octet z rest : 0 <= z < 256 -> scan_2x (format_octet z ++ rest) = Some (z, rest).
Proof.
  intros H. destruct (hex_nibble (z / 16)) as [E1 S1]; [split; [apply Z.div_pos; lia|apply Z.div_lt_upper_bound; lia]|].
  destruct (hex_nibble (z mod 16)) as [E2 _]; [apply Z.mod_pos_bound; lia|].
  unfold scan_2x, format_octet. cbn [app skip_space]. rewrite S1, E1, E2.
  rewrite <- Z.div_mod by lia. done.
Qed.

(** What is printed reads back as the same octets. *)
Theorem hardware_roundtrip l : length l = 6%nat -> Forall (fun z => 0 <= z < 256) l ->
  new_HardwareAddress (Some (macaddr (of_octets l))) = of_octets l.
Proof.
  intros Hl F. destruct l as [|a [|b [|c [|d [|e [|f [|]]]]]]]; try done.
  repeat match goal with H : Forall _ (_ :: _) |- _ => apply Forall_cons in H as [? H] end.
  unfold new_HardwareAddress, of_octets. cbn [macaddr].
  assert (scan 6 (formatOctets 0 [a; b; c; d; e; f]) = [a; b; c; d; e; f]) as ->.
  { cbn [formatOctets]. rewrite <- ?app_assoc. cbn [app lit String.list_ascii_of_string].
    do 5 (cbn [scan]; rewrite scan_octet by done; cbn [app Ascii.eqb Bool.eqb]).
    cbn [scan]. by rewrite scan_octet. }
  cbn [length Nat.eqb map]. unfold u8. by rewrite !Z.mod_small.
Qed.

Lemma hardware_roundtrip_witness :
  new_HardwareAddress (Some (lit "00:1b:21:3c:9d:f8")) = of_octets [0; 27; 33; 60; 157; 248].
Proof.
  exact (hardware_roundtrip [0; 27; 33; 60; 157; 248] eq_refl ltac:(repeat constructor; lia)).
Defined.

(** What does not parse is all zero; but a sign, missing digits and anything after the last
    octet do parse. *)
Lemma unparsed_is_zero : macaddr (new_HardwareAddress (Some (lit "00-1b-21-3c-9d-f8"))) = lit "00:00:00:00:00:00".
Proof. vm_compute. reflexivity. Qed.
Lemma lenient_parse : macaddr (new_HardwareAddress (Some (lit "-1:2: 3:+4:5:6:7 or so"))) = lit "ff:02:03:04:05:06".
Proof. vm_compute. reflexivity. Qed.

End Hardware.

(** ** Interfaces *)

(* @src src/include/samurai/io/net/interface.h:28-37 Samurai::IO::Net::NetworkInterfaceFlags *)
Definition Enabled : Z := 0x01.
Definition Loopback : Z := 0x02.
Definition PointToPoint : Z := 0x04.
Definition Broadcast : Z := 0x10.
Definition Multicast : Z := 0x20.

(** The flags of the host, with the numbers of Linux. *)
Definition IFF_UP : Z := 0x1.
Definition IFF_BROADCAST : Z := 0x2.
Definition IFF_LOOPBACK : Z := 0x8.
Definition IFF_POINTOPOINT : Z := 0x10.
Definition IFF_RUNNING : Z := 0x40.
Definition IFF_MULTICAST : Z := 0x1000.

Definition IFNAMSIZ : nat := 16.

Inductive Request :=
  | SIOCGIFMTU | SIOCGIFFLAGS | SIOCGIFHWADDR | SIOCGIFADDR | SIOCGIFNETMASK | SIOCGIFBRDADDR | SIOCGIFDSTADDR.

(** What the host says: [ioctl] gives the bytes of the union of an [ifreq]; the names of
    [if_nameindex] are those before the entry with index 0. *)
Record Host := mkHost {
  if_nametoindex : bytes -> Z;
  if_indextoname : Z -> option bytes;
  if_nameindex : option (list bytes);
  dgram_socket : bool;
  ioctl : Request -> bytes -> option bytes
}.

(** The members of the union that are read. *)
Definition ifr_mtu (u : bytes) : Z := le_value (take 4 u).
Definition ifr_flags (u : bytes) : Z := le_value (take 2 u).
Definition ifr_hwaddr (u : bytes) : list Z := map code (take 6 (drop 2 u)).
Definition ifr_sin_addr (u : bytes) : bytes := take 4 (drop 4 u).

(* @src src/include/samurai/io/net/interface.h:144-151 Samurai::IO::Net::NetworkInterface *)
Record NetworkInterface := mkNetworkInterface {
  m_name : bytes;
  m_ifnumber : Z;
  m_mtu : Z;
  m_flags : Z;
  m_hwaddr : option Hardware.HardwareAddress;
  m_address : option InetAddress;
  m_netmask : option InetAddress;
  m_broadcast : option InetAddress;
  m_destination : option InetAddress
}.

Definition has (flags f : Z) : bool := negb (Z.land flags f =? 0).

Section host.
Variable host : Host.
Variable inet_ntoa : bytes -> bytes.
Variable inet_pton : Version -> bytes -> option bytes.

(** The union after a call that succeeded. The name has room for 15 characters. *)
(* @src src/src/io/net/interface.cpp:98-114 Samurai::IO::Net::NetworkInterfaceUnix::getInfo *)
Definition getInfo (info : Request) (name : bytes) : option bytes :=
  if dgram_socket host then ioctl host info (take (IFNAMSIZ - 1) name) else None.

(* @src src/src/io/net/interface.cpp:175-206 Samurai::IO::Net::NetworkInterfaceUnix::extractFlags *)
Definition extractFlags (name : bytes) : Z :=
  match getInfo SIOCGIFFLAGS name with
  | None => 0
  | Some u =>
      let f := ifr_flags u in
      let set bit flag flags := if has f bit then Z.lor flags flag else flags in
      let flags := if has f IFF_UP && has f IFF_RUNNING then Enabled else 0 in
      set IFF_POINTOPOINT PointToPoint
        (set IFF_MULTICAST Multicast (set IFF_BROADCAST Broadcast (set IFF_LOOPBACK Loopback flags)))
  end.

(** An address of zeros only is none. *)
(* @src src/src/io/net/interface.cpp:116-155 Samurai::IO::Net::NetworkInterfaceUnix::extractHardwareAddress *)
Definition extractHardwareAddress (name : bytes) : option Hardware.HardwareAddress :=
  let hwaddr_bytes := match getInfo SIOCGIFHWADDR name with Some u => ifr_hwaddr u | None => replicate 6 0 end in
  if existsb (fun b => negb (b =? 0)) hwaddr_bytes then Some (Hardware.of_octets hwaddr_bytes) else None.

(** An address goes through its text. *)
Definition address_of (u : bytes) : InetAddress := Inet.new_InetAddress inet_pton (inet_ntoa (ifr_sin_addr u)).

(* @src src/src/io/net/interface.cpp:158-173 Samurai::IO::Net::NetworkInterfaceUnix::extractAddresses *)
Definition extractAddresses (name : bytes) (flags : Z) :
  option InetAddress * option InetAddress * option InetAddress * option InetAddress :=
  (address_of <$> getInfo SIOCGIFADDR name,
   address_of <$> getInfo SIOCGIFNETMASK name,
   (if has flags Broadcast then address_of <$> getInfo SIOCGIFBRDADDR name else None),
   (if has flags PointToPoint then address_of <$> getInfo SIOCGIFDSTADDR name else None)).

(* @src src/src/io/net/interface.cpp:80-96 Samurai::IO::Net::NetworkInterfaceUnix::NetworkInterfaceUnix *)
Definition new_NetworkInterfaceUnix (name : bytes) : NetworkInterface :=
  let m_name := take (IFNAMSIZ - 1) name in
  let flags := extractFlags m_name in
  let '(address, netmask, broadcast, destination) := extractAddresses m_name flags in
  mkNetworkInterface m_name (if_nametoindex host name)
    (match getInfo SIOCGIFMTU m_name with Some u => ifr_mtu u | None => 0 end)
    flags (extractHardwareAddress m_name) address netmask broadcast destination.

(** [None] is failure; otherwise what is appended. *)
(* @src src/src/io/net/interface.cpp:414-427 Samurai::IO::Net::NetworkInterface::getInterfaces *)
Definition getInterfaces : option (list NetworkInterface) := map new_NetworkInterfaceUnix <$> if_nameindex host.

(* @src src/src/io/net/interface.cpp:335-347 Samurai::IO::Net::NetworkInterface::getInterface *)
Definition getInterface_by_address (a : InetAddress) : option NetworkInterface :=
  interfaces ← getInterfaces;
  List.find (fun iface => match m_address iface with Some candidate => Inet.same_address candidate a | None => false end) interfaces.

(* @src src/src/io/net/interface.cpp:349-363 Samurai::IO::Net::NetworkInterface::getInterface *)
Definition getInterface (name : option bytes) : option NetworkInterface :=
  name ← name;
  interfaces ← getInterfaces;
  List.find (fun iface => bool_decide (m_name iface = name)) interfaces.

(* @src src/src/io/net/interface.cpp:370-386 Samurai::IO::Net::NetworkInterface::getIndexByName *)
Definition getIndexByName (name : option bytes) : Z :=
  match name with None | Some [] => 0 | Some name => if_nametoindex host name end.

(* @src src/src/io/net/interface.cpp:389-411 Samurai::IO::Net::NetworkInterface::getNameByIndex *)
Definition getNameByIndex (index : Z) : bytes :=
  if index =? 0 then [] else default [] (if_indextoname host index).
End host.

(* @src src/src/io/net/interface.cpp:557-560 Samurai::IO::Net::NetworkInterface::isEnabled *)
Definition isEnabled (i : NetworkInterface) : bool := has (m_flags i) Enabled.
(* @src src/src/io/net/interface.cpp:562-566 Samurai::IO::Net::NetworkInterface::isMulticast *)
Definition isMulticast (i : NetworkInterface) : bool := has (m_flags i) Multicast.
(* @src src/src/io/net/interface.cpp:568-571 Samurai::IO::Net::NetworkInterface::isBroadcast *)
Definition isBroadcast (i : NetworkInterface) : bool := has (m_flags i) Broadcast.
(* @src src/src/io/net/interface.cpp:573-576 Samurai::IO::Net::NetworkInterface::isLoopback *)
Definition isLoopback (i : NetworkInterface) : bool := has (m_flags i) Loopback.
(* @src src/src/io/net/interface.cpp:578-581 Samurai::IO::Net::NetworkInterface::isPointToPoint *)
Definition isPointToPoint (i : NetworkInterface) : bool := has (m_flags i) PointToPoint.

(** [operator==]; [operator!=] is its negation. *)
(* @src src/src/io/net/interface.cpp:583-605 Samurai::IO::Net::NetworkInterface::operator== *)
Definition same_interface (a b : NetworkInterface) : bool := m_ifnumber b =? m_ifnumber a.

(** ** What an interface says is what the host says *)

Section host_facts.
Variable host : Host.
Variable inet_ntoa : bytes -> bytes.
Variable inet_pton : Version -> bytes -> option bytes.

(** The text of an address is its dotted quad, which reads back. *)
Hypothesis ntoa_reads_back : forall raw, length raw = 4%nat ->
  inet_pton IPv4 (inet_ntoa raw) = Some raw /\ Inet.is_canonical_dotted_quad (inet_ntoa raw) = true.
(** Names fit an [ifreq], and an address answer is a whole [sockaddr_in]. *)
Hypothesis names_fit : forall l n, if_nameindex host = Some l -> n ∈ l -> (length n < IFNAMSIZ)%nat.
Hypothesis answers_fit : forall r n u, ioctl host r n = Some u -> (16 <= length u)%nat.

Let iface := new_NetworkInterfaceUnix host inet_ntoa inet_pton.

(** Each flag is that of the host, whatever the others are. *)
Lemma flags_are_the_hosts name u : getInfo host SIOCGIFFLAGS name = Some u -> (length name < IFNAMSIZ)%nat ->
  let f := ifr_flags u in
  isEnabled (iface name) = has f IFF_UP && has f IFF_RUNNING /\ isLoopback (iface name) = has f IFF_LOOPBACK /\
  isBroadcast (iface name) = has f IFF_BROADCAST /\ isMulticast (iface name) = has f IFF_MULTICAST /\
  isPointToPoint (iface name) = has f IFF_POINTOPOINT.
Proof.
  intros H Hn f. assert (m_flags (iface name) = extractFlags host name) as E.
  { unfold iface, new_NetworkInterfaceUnix. rewrite (take_ge name) by (unfold IFNAMSIZ in *; lia). by destruct (extractAddresses _ _ _ _ _) as [[[? ?] ?] ?]. }
  unfold isEnabled, isLoopback, isBroadcast, isMulticast, isPointToPoint. rewrite E.
  unfold extractFlags. rewrite H. fold f.
  destruct (has f IFF_UP && has f IFF_RUNNING), (has f IFF_LOOPBACK), (has f IFF_BROADCAST), (has f IFF_MULTICAST), (has f IFF_POINTOPOINT); done.
Qed.

Lemma canonical_unbracketed t : Inet.is_canonical_dotted_quad t = true -> Inet.unbracket t = t.
Proof.
  intros C. unfold Inet.unbracket. destruct (_ <? _); [|done]. destruct t as [|c t]; [done|]. cbn [nth].
  destruct (Ascii.eqb_spec c "[") as [->|]; [|done]. by vm_compute in C.
Qed.

(** A literal has no terminator in it. *)
Lemma canonical_c_str t : Inet.is_canonical_dotted_quad t = true -> Strings.c_str t = t.
Proof.
  assert (HL : forall prev d o, Inet.canonical_loop t prev d o = true -> Strings.c_str t = t); [|apply HL]. induction t as [|c t IH]; intros prev d o; [done|].
  cbn [Inet.canonical_loop Strings.c_str]. destruct (Z.eqb_spec (code c) 0) as [E|E].
  - destruct (Ascii.eqb_spec c ".") as [->|_]; [by vm_compute in E|]. rewrite E. done.
  - repeat case_match; try done; intros; f_equal; by eapply IH.
Qed.

Lemma address_of_raw u : (16 <= length u)%nat ->
  Inet.version (address_of inet_ntoa inet_pton u) = IPv4 /\ Inet.data (address_of inet_ntoa inet_pton u) = Inet.fill_data (ifr_sin_addr u).
Proof.
  intros Hl. assert (length (ifr_sin_addr u) = 4%nat) as H4 by (unfold ifr_sin_addr; rewrite length_take, length_drop; lia).
  destruct (ntoa_reads_back _ H4) as [E C]. unfold address_of, Inet.new_InetAddress, Inet.new_InetAddress_version.
  destruct (inet_ntoa (ifr_sin_addr u)) as [|c t] eqn:Et; [done|].
  unfold Inet.stringToAddress. rewrite (canonical_c_str _ C), (canonical_unbracketed _ C), C, E. done.
Qed.

Lemma find_first {A} (p : A -> bool) l x :
  List.find p l = Some x <-> exists l1 l2, l = l1 ++ x :: l2 /\ p x = true /\ Forall (fun y => p y = false) l1.
Proof.
  split.
  - induction l as [|y l IH]; cbn; [done|]. destruct (p y) eqn:E.
    + intros [= ->]. by exists [], l.
    + intros (l1 & l2 & -> & Hp & F)%IH. exists (y :: l1), l2. by split; [|split; [|constructor]].
  - intros (l1 & l2 & -> & Hp & F). induction F as [|y l1 E F IH]; cbn; [by rewrite Hp|by rewrite E].
Qed.

(** The interface found for an address is the first one whose address, as the host reports
    it, has the same bytes; and there is none only if no interface has that address. *)
Theorem interface_by_address raw l :
  if_nameindex host = Some l -> length raw = 4%nat ->
  let a := mkInetAddress IPv4 (Inet.fill_data raw) [] Resolved in
  let holds n := (exists u, getInfo host SIOCGIFADDR n = Some u /\ ifr_sin_addr u = raw) in
  match getInterface_by_address host inet_ntoa inet_pton a with
  | Some i => exists l1 n l2, l = l1 ++ n :: l2 /\ i = iface n /\ holds n /\ Forall (fun n => ~ holds n) l1
  | None => Forall (fun n => ~ holds n) l
  end.
Proof.
  intros Hl Hr a holds. unfold getInterface_by_address, getInterfaces. rewrite Hl. cbn [fmap option_fmap option_map mbind option_bind].
  set (p := fun i => match m_address i with Some c => Inet.same_address c a | None => false end).
  assert (forall n, n ∈ l -> p (iface n) = true <-> holds n) as Hp.
  { intros n Hn. pose proof (names_fit _ _ Hl Hn) as Hlen.
    assert (m_address (iface n) = address_of inet_ntoa inet_pton <$> getInfo host SIOCGIFADDR n) as E.
    { unfold iface, new_NetworkInterfaceUnix. rewrite (take_ge n) by (unfold IFNAMSIZ in *; lia). done. }
    unfold p, holds. rewrite E. destruct (getInfo host SIOCGIFADDR n) as [u|] eqn:G; cbn; [|split; [done|intros (? & ? & ?); done]].
    assert (16 <= length u)%nat as Hu by (unfold getInfo in G; destruct (dgram_socket host); [by eapply answers_fit|done]).
    destruct (address_of_raw u Hu) as [Ev Ed]. unfold Inet.same_address. rewrite Ev, Ed. cbn.
    rewrite !bool_decide_eq_true_2 by done. cbn. rewrite bool_decide_eq_true. split.
    - intros HE. exists u. split; [done|]. unfold Inet.fill_data in HE.
      apply (f_equal (take 4)) in HE. rewrite !take_app_le in HE by (rewrite ?Hr; unfold ifr_sin_addr; rewrite ?length_take, ?length_drop; lia).
      rewrite (take_ge raw) in HE by lia. rewrite firstn_all2 in HE; [done|]. unfold ifr_sin_addr. rewrite length_take. lia.
    - intros (u' & [= <-] & ->). done. }
  change (List.find _ _) with (List.find p (map iface l)).
  destruct (List.find p (map iface l)) as [i|] eqn:Ef.
  - apply find_first in Ef as (k1 & k2 & Em & Hi & F).
    apply map_eq_app in Em as (l1 & l' & -> & <- & Em). apply map_eq_cons in Em as (n & l2 & -> & <- & <-).
    exists l1, n, l2. split; [done|]. split; [done|]. split; [apply Hp; [apply elem_of_app; right; left|done]|].
    rewrite Forall_map in F. rewrite Forall_forall in *. intros m Hm Hh. apply Hp in Hh; [|by apply elem_of_app; left].
    specialize (F m Hm). change (p (iface m) = false) in F. by rewrite Hh in F.
  - rewrite Forall_forall. intros n Hn Hh. apply Hp in Hh; [|done].
    eapply find_none in Ef; [|by apply in_map, list_elem_of_In]. congruence.
Qed.
End host_facts.

(** ** A host with a loopback, an interface without an address and one with *)

Definition demo_addr (raw : bytes) : bytes := le_bytes 2 2 ++ [chr 0; chr 0] ++ raw ++ replicate 8 (chr 0).
Definition demo_host : Host :=
  mkHost (fun n => if bool_decide (n = lit "lo") then 1 else if bool_decide (n = lit "wg0") then 2 else if bool_decide (n = lit "eth0") then 3 else 0)
    (fun i => nth (Z.to_nat i) [None; Some (lit "lo"); Some (lit "wg0"); Some (lit "eth0")] None)
    (Some [lit "lo"; lit "wg0"; lit "eth0"]) true
    (fun r n =>
       match r with
       | SIOCGIFADDR =>
           if bool_decide (n = lit "lo") then Some (demo_addr [chr 127; chr 0; chr 0; chr 1])
           else if bool_decide (n = lit "eth0") then Some (demo_addr [chr 10; chr 0; chr 0; chr 5]) else None
       | SIOCGIFFLAGS => Some (le_bytes 16 (if bool_decide (n = lit "lo") then 0x49 else 0x1043))
       | SIOCGIFMTU => Some (le_bytes 16 1500)
       | _ => None
       end).

(** Addresses as their dotted quads, and back. *)
Definition demo_ntoa (raw : bytes) : bytes := join "."%char (map (fun c => to_string (code c)) raw).
Definition demo_pton (v : Version) (t : bytes) : option bytes :=
  match v with IPv4 => Some (map (fun f => chr (dec_value f)) (split t "."%char)) | _ => None end.

Lemma demo_octets : forall c : byte,
  Inet.octet_text (to_string (code c)) /\ chr (dec_value (to_string (code c))) = c.
Proof. unfold Inet.octet_text. byte_decide. Qed.

Lemma demo_reads_back raw : length raw = 4%nat ->
  demo_pton IPv4 (demo_ntoa raw) = Some raw /\ Inet.is_canonical_dotted_quad (demo_ntoa raw) = true.
Proof.
  intros Hl. destruct raw as [|a [|b [|c [|d [|]]]]]; try done. unfold demo_pton, demo_ntoa. cbn [map].
  pose proof (demo_octets a) as [Oa Ea]. pose proof (demo_octets b) as [Ob Eb].
  pose proof (demo_octets c) as [Oc Ec]. pose proof (demo_octets d) as [Od Ed]. split.
  - set (fs := [_; _; _; _]). assert (split (join "."%char fs) "."%char = fs) as ->.
    { apply split_spec. split; [done|]. split; [done|]. unfold fs. rewrite !Forall_cons.
      split; [by apply Inet.octet_text_nodot|]. split; [by apply Inet.octet_text_nodot|].
      split; [by apply Inet.octet_text_nodot|]. split; [by apply Inet.octet_text_nodot|done]. }
    unfold fs. cbn [map]. by rewrite Ea, Eb, Ec, Ed.
  - apply Inet.dotted_quad_spec. by eexists _, _, _, _.
Qed.

Definition demo_wanted : InetAddress := mkInetAddress IPv4 (Inet.fill_data [chr 10; chr 0; chr 0; chr 5]) [] Resolved.

Lemma interface_by_address_witness :
  (exists l1 n l2, [lit "lo"; lit "wg0"; lit "eth0"] = l1 ++ n :: l2 /\
     getInterface_by_address demo_host demo_ntoa demo_pton demo_wanted = Some (new_NetworkInterfaceUnix demo_host demo_ntoa demo_pton n)) /\
  m_name <$> getInterface_by_address demo_host demo_ntoa demo_pton demo_wanted = Some (lit "eth0").
Proof.
  pose proof (interface_by_address demo_host demo_ntoa demo_pton demo_reads_back) as H.
  specialize (H ltac:(intros l n [= <-]; rewrite !elem_of_cons; intros [->|[->|[->|Hn]]];
    [unfold IFNAMSIZ; cbn; lia..|by apply not_elem_of_nil in Hn])).
  specialize (H ltac:(intros r n u; cbn; destruct r; repeat case_bool_decide; intros [= <-]; cbn; lia)).
  specialize (H [chr 10; chr 0; chr 0; chr 5] _ eq_refl eq_refl). cbv zeta in H. fold demo_wanted in H.
  assert (m_name <$> getInterface_by_address demo_host demo_ntoa demo_pton demo_wanted = Some (lit "eth0")) as E
    by (vm_compute; reflexivity).
  split; [|exact E]. destruct (getInterface_by_address _ _ _ demo_wanted) as [i|]; [|done].
  destruct H as (l1 & n & l2 & Hl & -> & _). by exists l1, n, l2.
Defined.

(** An interface without an IPv4 address is listed with its name and its index all the
    same. *)
Lemma listed_without_address :
  (fun l => map (fun i => (m_name i, m_ifnumber i, match m_address i with Some _ => true | None => false end)) l) <$>
    getInterfaces demo_host demo_ntoa demo_pton =
  Some [(lit "lo", 1, true); (lit "wg0", 2, false); (lit "eth0", 3, true)].
Proof. vm_compute. reflexivity. Qed.
