(* ===== verification/Multicast.v ===== *)
(** * Multicast: [src/io/net/multicast.cpp] and the options of [socketglue.h] it sets

    A datagram socket that joins groups: the interface it was told to use, the groups it
    remembers, and what the system was asked for. Linux names an interface by its index. *)

From S2P Require Import Prelude Strings SocketAddress SocketBase Datagram.
From S2P Require Inet Interface MonitorBackends.
Import Inet (Version, Unspecified, IPv4, IPv6, InetAddress, Resolved).

#[local] Existing Instances Inet.Version_eq_dec.

(** ** The options *)

Section glue.
Context {E : Type}.
Variable answer : World E -> Call -> Reply.
Implicit Types (w : World E) (b : Base).

(** Whether the call succeeded, and the trace. *)
Definition set_ok (o : Option_) (v : Value) b w : bool * World E :=
  let '(r, w) := sys answer (SysSetOpt (sd b) o v) w in (negb (failed r), w).
Definition get_value (o : Option_) b w : option Z * World E := get_option answer o b w.

(* @src src/include/samurai/io/net/socketglue.h:128-136 set_multicast_ttl *)
Definition set_multicast_ttl (ttl : Z) b w := set_ok IP_MULTICAST_TTL (Int ttl) b w.
(* @src src/include/samurai/io/net/socketglue.h:138-149 get_multicast_ttl *)
Definition get_multicast_ttl b w : option Z * World E :=
  let '(r, w) := get_value IP_MULTICAST_TTL b w in (u8 <$> r, w).
(* @src src/include/samurai/io/net/socketglue.h:151-159 set_multicast_loop *)
Definition set_multicast_loop (toggle : bool) b w := set_ok IP_MULTICAST_LOOP (toggle_value toggle) b w.
(* @src src/include/samurai/io/net/socketglue.h:161-172 get_multicast_loop *)
Definition get_multicast_loop b w : option bool * World E :=
  let '(r, w) := get_value IP_MULTICAST_LOOP b w in ((fun v => negb (v =? 0)) <$> r, w).
(* @src src/include/samurai/io/net/socketglue.h:183-195 set_multicast_if4 *)
Definition set_multicast_if4 (iface_addr : bytes) (ifindex : Z) b w :=
  set_ok IP_MULTICAST_IF (Mreqn (replicate 4 (chr 0)) iface_addr ifindex) b w.
(* @src src/include/samurai/io/net/socketglue.h:197-201 set_multicast_hops6 *)
Definition set_multicast_hops6 (hops : Z) b w := set_ok IPV6_MULTICAST_HOPS (Int hops) b w.
(* @src src/include/samurai/io/net/socketglue.h:203-210 get_multicast_hops6 *)
Definition get_multicast_hops6 b w : option Z * World E :=
  let '(r, w) := get_value IPV6_MULTICAST_HOPS b w in (u8 <$> r, w).
(* @src src/include/samurai/io/net/socketglue.h:212-216 set_multicast_loop6 *)
Definition set_multicast_loop6 (toggle : bool) b w := set_ok IPV6_MULTICAST_LOOP (toggle_value toggle) b w.
(* @src src/include/samurai/io/net/socketglue.h:218-225 get_multicast_loop6 *)
Definition get_multicast_loop6 b w : option bool * World E :=
  let '(r, w) := get_value IPV6_MULTICAST_LOOP b w in ((fun v => negb (v =? 0)) <$> r, w).
(* @src src/include/samurai/io/net/socketglue.h:228-232 set_multicast_if6 *)
Definition set_multicast_if6 (ifindex : Z) b w := set_ok IPV6_MULTICAST_IF (Int ifindex) b w.
(* @src src/include/samurai/io/net/socketglue.h:241-259 membership4 *)
Definition membership4 (option : Option_) (group iface_addr : bytes) (ifindex : Z) b w :=
  set_ok option (Mreqn group iface_addr ifindex) b w.
(* @src src/include/samurai/io/net/socketglue.h:261-269 membership6 *)
Definition membership6 (option : Option_) (group : bytes) (ifindex : Z) b w :=
  set_ok option (Mreq6 group ifindex) b w.
End glue.

(** ** The socket *)

(* @src src/include/samurai/io/net/multicast.h:123-129 Samurai::IO::Net::MulticastSocket *)
Record MulticastSocket := mkMulticastSocket {
  dgram : DatagramSocket;
  joined : list InetSocketAddress;
  netif : Z;
  netif_addr : InetAddress
}.

Definition with_dgram (d : DatagramSocket) (m : MulticastSocket) : MulticastSocket :=
  mkMulticastSocket d (joined m) (netif m) (netif_addr m).
Definition with_joined (l : list InetSocketAddress) (m : MulticastSocket) : MulticastSocket :=
  mkMulticastSocket (dgram m) l (netif m) (netif_addr m).
Definition with_netif (i : Z) (a : InetAddress) (m : MulticastSocket) : MulticastSocket :=
  mkMulticastSocket (dgram m) (joined m) i a.
Definition traced (w : World Event) (m : MulticastSocket) : MulticastSocket :=
  with_dgram (with_trace w (dgram m)) m.

Abbreviation mbase m := (base (dgram m)).
Abbreviation mtrace m := (trace (dgram m)).

Section multicast.
Variable answer : World Event -> Call -> Reply.
Variable inet_ntop : Version -> bytes -> option bytes.
Implicit Types m : MulticastSocket.

(* @src src/src/io/net/multicast.cpp:16-19 Samurai::IO::Net::MulticastSocket::MulticastSocket *)
Definition new_MulticastSocket (eh : bool) (addr_ : InetAddress) (port_ : Z) : MulticastSocket :=
  mkMulticastSocket (initialize (new_DatagramSocket_host answer eh addr_ port_)) [] 0 no_address.
(* @src src/src/io/net/multicast.cpp:21-24 Samurai::IO::Net::MulticastSocket::MulticastSocket *)
Definition new_MulticastSocket_port (inet_pton : Version -> bytes -> option bytes) (eh : bool) (port_ : Z) : MulticastSocket :=
  mkMulticastSocket (initialize (new_DatagramSocket_port answer inet_pton eh port_)) [] 0 no_address.

(** The family, and the address with its structure built. *)
(* @src src/src/io/net/multicast.cpp:34-40 groupFamily *)
Definition groupFamily (address : InetSocketAddress) : Z * InetSocketAddress :=
  let '(sa, address) := getSockAddr address in
  (match sa with
   | None => AF_UNSPEC
   | Some sa => if negb (ss_family sa =? AF_INET) && negb (ss_family sa =? AF_INET6) then AF_UNSPEC else ss_family sa
   end, address).

(** The IPv4 address that names an interface: the chosen one, or any. *)
(* @src src/src/io/net/multicast.cpp:68-79 Samurai::IO::Net::MulticastSocket::changeMembership *)
Definition iface_name (a : InetAddress) : bytes :=
  if bool_decide (Inet.version a = IPv4)
  then match (getSockAddr (new_address a 0)).1 with Some sa => sin_addr sa | None => replicate 4 (chr 0) end
  else replicate 4 (chr 0).

(** The socket has an address: its constructors give it one. *)
(* @src src/src/io/net/multicast.cpp:53-101 Samurai::IO::Net::MulticastSocket::changeMembership *)
Definition changeMembership (group : InetSocketAddress) (join_it : bool) m : bool * InetSocketAddress * MulticastSocket :=
  let '(family, group) := groupFamily group in
  if family =? AF_UNSPEC then (false, group, m)
  else
    match addr (mbase m) with
    | None => (false, group, m)
    | Some a =>
        if negb (family =? getSockAddrFamily a) then (false, group, m)
        else
          let sa := default [] (getSockAddr group).1 in
          let '(ok, w) :=
            if family =? AF_INET
            then membership4 answer (if join_it then IP_ADD_MEMBERSHIP else IP_DROP_MEMBERSHIP) (sin_addr sa)
                   (iface_name (netif_addr m)) (netif m) (mbase m) (mtrace m)
            else membership6 answer (if join_it then IPV6_JOIN_GROUP else IPV6_LEAVE_GROUP) (sin6_addr sa)
                   (netif m) (mbase m) (mtrace m) in
          (ok, group, traced w m)
    end.

(* @src src/src/io/net/multicast.cpp:116-119 Samurai::IO::Net::MulticastSocket::dropMembership *)
Definition dropMembership (group : InetSocketAddress) m : MulticastSocket := (changeMembership group false m).2.

(** The groups are left from the last to the first. *)
(* @src src/src/io/net/multicast.cpp:107-114 Samurai::IO::Net::MulticastSocket::~MulticastSocket *)
Fixpoint drop_all (groups : list InetSocketAddress) m : MulticastSocket :=
  match groups with
  | [] => m
  | group :: groups => drop_all groups (dropMembership (new_copy group) (with_joined (rev groups) m))
  end.
(* @src src/src/io/net/multicast.cpp:107-114 Samurai::IO::Net::MulticastSocket::~MulticastSocket *)
Definition destroy_multicast m : MulticastSocket :=
  let m := drop_all (rev (joined m)) m in
  with_dgram (destroy_socket answer (dgram m)) m.

(* @src src/src/io/net/multicast.cpp:121-139 Samurai::IO::Net::MulticastSocket::join *)
Definition join (maddr : InetAddress) (port_ : Z) m : bool * MulticastSocket :=
  match addr (mbase m) with
  | None => (false, m)
  | Some _ =>
      if negb (Inet.isMulticast maddr) then (false, m)
      else
        let '(ok, address, m) := changeMembership (new_address maddr port_) true m in
        if ok then (true, with_joined (joined m ++ [new_copy address]) m) else (false, m)
  end.

(** The position of the first that matches. *)
Fixpoint find_index {A} (p : A -> bool) (l : list A) : option nat :=
  match l with [] => None | x :: l => if p x then Some 0%nat else S <$> find_index p l end.

(* @src src/src/io/net/multicast.cpp:141-164 Samurai::IO::Net::MulticastSocket::leave *)
Definition leave (maddr : InetAddress) (port_ : Z) m : bool * MulticastSocket :=
  match addr (mbase m) with
  | None => (false, m)
  | Some _ =>
      let address := new_address maddr port_ in
      let wanted := toString inet_ntop address in
      match find_index (fun a => bool_decide (toString inet_ntop a = wanted)) (joined m) with
      | None => (false, m)
      | Some it =>
          let '(ok, _, m) := changeMembership address false m in
          if ok then (true, with_joined (delete it (joined m)) m) else (false, m)
      end
  end.

(** The index and the address of an interface are what is asked of it. *)
(* @src src/src/io/net/multicast.cpp:172-232 Samurai::IO::Net::MulticastSocket::setInterface *)
Definition setInterface (iface : Interface.NetworkInterface) m : bool * MulticastSocket :=
  match addr (mbase m) with
  | None => (false, m)
  | Some a =>
      let index := Interface.m_ifnumber iface in
      if getSockAddrFamily a =? AF_INET6 then
        let '(ok, w) := set_multicast_if6 answer index (mbase m) (mtrace m) in
        if ok then (true, with_netif index no_address (traced w m)) else (false, traced w m)
      else
        let address := Interface.m_address iface in
        let chosen := match address with Some a => iface_name a | None => replicate 4 (chr 0) end in
        let '(ok, w) := set_multicast_if4 answer chosen index (mbase m) (mtrace m) in
        if ok then (true, with_netif index (default (netif_addr m) address) (traced w m)) else (false, traced w m)
  end.

(* @src src/src/io/net/multicast.cpp:234-251 Samurai::IO::Net::MulticastSocket::clearInterface *)
Definition clearInterface m : MulticastSocket :=
  let m := with_netif 0 no_address m in
  match addr (mbase m) with
  | None => m
  | Some a =>
      if getSockAddrFamily a =? AF_INET6
      then traced (set_multicast_if6 answer 0 (mbase m) (mtrace m)).2 m
      else traced (set_multicast_if4 answer (replicate 4 (chr 0)) 0 (mbase m) (mtrace m)).2 m
  end.

Definition is_v6 m : bool := match addr (mbase m) with Some a => getSockAddrFamily a =? AF_INET6 | None => false end.

(* @src src/src/io/net/multicast.cpp:258-273 Samurai::IO::Net::MulticastSocket::setMulticastTimeToLive *)
Definition setMulticastTimeToLive (ttl : Z) m : bool * MulticastSocket :=
  match addr (mbase m) with
  | None => (false, m)
  | Some _ =>
      let '(ok, w) := (if is_v6 m then set_multicast_hops6 else set_multicast_ttl) answer ttl (mbase m) (mtrace m) in
      (ok, traced w m)
  end.

(* @src src/src/io/net/multicast.cpp:275-291 Samurai::IO::Net::MulticastSocket::getMulticastTimeToLive *)
Definition getMulticastTimeToLive m : Z * MulticastSocket :=
  match addr (mbase m) with
  | None => (0, m)
  | Some _ =>
      let '(r, w) := (if is_v6 m then get_multicast_hops6 else get_multicast_ttl) answer (mbase m) (mtrace m) in
      (default 0 r, traced w m)
  end.

(* @src src/src/io/net/multicast.cpp:299-314 Samurai::IO::Net::MulticastSocket::setLoopbackMode *)
Definition setLoopbackMode (toggle : bool) m : bool * MulticastSocket :=
  match addr (mbase m) with
  | None => (false, m)
  | Some _ =>
      let '(ok, w) := (if is_v6 m then set_multicast_loop6 else set_multicast_loop) answer toggle (mbase m) (mtrace m) in
      (ok, traced w m)
  end.

(* @src src/src/io/net/multicast.cpp:316-332 Samurai::IO::Net::MulticastSocket::getLoopbackMode *)
Definition getLoopbackMode m : bool * MulticastSocket :=
  match addr (mbase m) with
  | None => (false, m)
  | Some _ =>
      let '(r, w) := (if is_v6 m then get_multicast_loop6 else get_multicast_loop) answer (mbase m) (mtrace m) in
      (default false r, traced w m)
  end.

(* @src src/src/io/net/multicast.cpp:334-344 Samurai::IO::Net::MulticastSocket::listen *)
Definition listen m : bool * MulticastSocket :=
  match addr (mbase m) with
  | None => (false, m)
  | Some a =>
      let '(ec, w) := setReusePort answer true (mbase m) (mtrace m) in
      match ec with Some _ => (false, traced w m) | None =>
      let '(ec, w) := setReuseAddress answer true (mbase m) w in
      match ec with Some _ => (false, traced w m) | None =>
      let '(ec, w) := setNonBlocking answer true (mbase m) w in
      match ec with Some _ => (false, traced w m) | None =>
      let '(ec, w) := bind answer (Some a) (mbase m) w in
      match ec with Some _ => (false, traced w m) | None =>
      let '(b, w) := setMonitor MonitorBackends.Triggers.Read (mbase m) w in
      (true, with_dgram (with_base b w (dgram m)) m)
      end end end end
  end.
End multicast.

(** ** What can happen to a multicast socket *)

Inductive Act :=
  | Join (a : InetAddress) (p : Z) | Leave (a : InetAddress) (p : Z)
  | SetInterface (i : Interface.NetworkInterface) | ClearInterface
  | SetTtl (ttl : Z) | GetTtl | SetLoop (on : bool) | GetLoop | Listen | Close | SetHandler (eh : bool) | Read (p : DatagramPacket).

Section steps.
Variable alloc : Z -> bool.
Variable answer : World Event -> Call -> Reply.
Variable inet_ntop : Version -> bytes -> option bytes.

Definition act (x : Act) (m : MulticastSocket) : MulticastSocket :=
  match x with
  | Join a p => (join answer a p m).2
  | Leave a p => (leave answer inet_ntop a p m).2
  | SetInterface i => (setInterface answer i m).2
  | ClearInterface => clearInterface answer m
  | SetTtl ttl => (setMulticastTimeToLive answer ttl m).2
  | GetTtl => (getMulticastTimeToLive answer m).2
  | SetLoop on => (setLoopbackMode answer on m).2
  | GetLoop => (getLoopbackMode answer m).2
  | Listen => (listen answer m).2
  | Close => let '(b, w) := close answer (mbase m) (mtrace m) in with_dgram (with_base b w (dgram m)) m
  | SetHandler eh => with_dgram (setEventHandler eh (dgram m)) m
  | Read p => with_dgram (read alloc answer p (dgram m)).2 m
  end.

(** Addresses of groups and ports as their types have them. *)
Definition act_ok (x : Act) : Prop :=
  match x with
  | Join a p | Leave a p => (address_wf a /\ Inet.resolveState a = Resolved) /\ 0 <= p < 2 ^ 16
  | _ => True
  end.

(** Readiness and sending tell the handler, who may do any of this. *)
Inductive step : MulticastSocket -> MulticastSocket -> Prop :=
  | step_act x m : act_ok x -> step m (act x m)
  | step_send p ret p' m s1 e m2 : send answer p (dgram m) = (ret, p', s1, e) -> reaction e (with_dgram s1 m) m2 -> step m m2
  | step_ready trig m s1 e1 m2 m3 :
      watched (sd (mbase m)) (mtrace m) = true ->
      on_readable alloc answer trig (dgram m) = (s1, e1) -> reaction e1 (with_dgram s1 m) m2 ->
      reaction (on_error trig (dgram m2)) m2 m3 ->
      step m (with_dgram (after_error trig (dgram m3)) m3)
with reaction : option Event -> MulticastSocket -> MulticastSocket -> Prop :=
  | reaction_none m : reaction None m m
  | reaction_calls e m m' : calls (with_dgram (say e (dgram m)) m) m' -> reaction (Some e) m m'
with calls : MulticastSocket -> MulticastSocket -> Prop :=
  | calls_none m : calls m m
  | calls_more m m1 m2 : step m m1 -> calls m1 m2 -> calls m m2.
End steps.

Scheme step_ind' := Minimality for step Sort Prop
  with reaction_ind' := Minimality for reaction Sort Prop
  with calls_ind' := Minimality for calls Sort Prop.
Combined Scheme step_mutind from step_ind', reaction_ind', calls_ind'.

(** ** What the system holds *)

(** A membership: the group, and the name and index of the interface it was joined on. *)
Abbreviation Membership := (bytes * (bytes * Z))%type.

Fixpoint remove_group (g : bytes) (l : list Membership) : list Membership :=
  match l with
  | [] => []
  | m :: l => if bool_decide (m.1 = g) then l else m :: remove_group g l
  end.

Definition membership_step (d : Z) (l : list Membership) (x : Entry Event) : list Membership :=
  match x with
  | Called (SysSetOpt d' o v) (Ret _ _ _) =>
      if d' =? d then
        match o, v with
        | IP_ADD_MEMBERSHIP, Mreqn g a i => l ++ [(g, (a, i))]
        | IP_DROP_MEMBERSHIP, Mreqn g _ _ => remove_group g l
        | IPV6_JOIN_GROUP, Mreq6 g i => l ++ [(g, ([], i))]
        | IPV6_LEAVE_GROUP, Mreq6 g _ => remove_group g l
        | _, _ => l
        end
      else l
  | _ => l
  end.

(** The memberships of a descriptor, by the calls that succeeded. *)
Definition held (d : Z) (w : World Event) : list Membership := foldl (membership_step d) [] w.

Lemma held_snoc d w x : held d (w ++ [x]) = membership_step d (held d w) x.
Proof. unfold held. by rewrite foldl_app. Qed.

Lemma remove_group_perm g l : g ∈ map fst l -> map fst l ≡ₚ g :: map fst (remove_group g l).
Proof.
  induction l as [|m l IH]; cbn; [by intros ?%not_elem_of_nil|]. case_bool_decide as E.
  - by rewrite E.
  - intros [Hx|Hx]%elem_of_cons; [congruence|]. cbn. rewrite (IH Hx). by constructor.
Qed.

(** The bytes a group is known by. *)
Definition group_of (a : InetSocketAddress) : bytes :=
  match Inet.version (SocketAddress.addr a) with
  | IPv4 => take 4 (Inet.data (SocketAddress.addr a))
  | _ => take 16 (Inet.data (SocketAddress.addr a))
  end.

(** Entries that touch no membership leave what is held. *)
Definition same_held (w w' : World Event) : Prop := forall d, held d w' = held d w.

#[export] Instance same_held_preorder : PreOrder same_held.
Proof. split; [by intros w d|]. intros w1 w2 w3 H1 H2 d. by rewrite H2. Qed.

Definition no_membership (x : Entry Event) : Prop :=
  match x with
  | Called (SysSetOpt _ o _) _ =>
      match o with IP_ADD_MEMBERSHIP | IP_DROP_MEMBERSHIP | IPV6_JOIN_GROUP | IPV6_LEAVE_GROUP => False | _ => True end
  | _ => True
  end.

Lemma same_held_snoc w x : no_membership x -> same_held w (w ++ [x]).
Proof.
  intros H d. rewrite held_snoc. destruct x as [c r| | | |]; try done. destruct c; try done.
  destruct r; [done|]. cbn. destruct (_ =? d); [|done]. by destruct o.
Qed.

(** The bytes of an address of a family. *)
Definition raw_size (v : Version) : nat := match v with IPv4 => 4 | IPv6 => 16 | Unspecified => 0 end.

Section held_facts.
Variable alloc : Z -> bool.
Variable answer : World Event -> Call -> Reply.
Variable inet_ntop : Version -> bytes -> option bytes.

(** [inet_ntop] has a text for every address, and different ones for different addresses. *)
Hypothesis ntop_text : forall v raw, length raw = raw_size v -> exists t, inet_ntop v raw = Some t.
Hypothesis ntop_inj : forall v raw raw' t, length raw = raw_size v -> length raw' = raw_size v ->
  inet_ntop v raw = Some t -> inet_ntop v raw' = Some t -> raw = raw'.
Implicit Types m : MulticastSocket.

Lemma sh_option o v b w : no_membership (Called (SysSetOpt 0 o v) (Err 0)) -> same_held w (set_option answer o v b w).2.
Proof. intros H. apply same_held_snoc. exact H. Qed.
Lemma sh_set_ok o v b w : no_membership (Called (SysSetOpt 0 o v) (Err 0)) -> same_held w (set_ok answer o v b w).2.
Proof. intros H. apply same_held_snoc. exact H. Qed.
Lemma sh_monitor t b w : same_held w (setMonitor t b w).2.
Proof. unfold setMonitor. destruct (monitored b); by apply same_held_snoc. Qed.
Lemma sh_disable b w : same_held w (disableMonitor b w).2.
Proof. unfold disableMonitor. destruct (monitored b); [by apply same_held_snoc|reflexivity]. Qed.
Lemma sh_close b w : same_held w (close answer b w).2.
Proof.
  unfold close. destruct (_ =? _); [reflexivity|]. pose proof (sh_disable b w) as H.
  destruct (disableMonitor b w) as [b1 w1]. cbn in *. etrans; [exact H|].
  etrans; [|by apply same_held_snoc]. by apply same_held_snoc.
Qed.
Lemma sh_bind sa b w : same_held w (bind answer sa b w).2.
Proof.
  unfold bind. destruct sa as [a|]; [|reflexivity]. destruct (_ =? _); [reflexivity|].
  destruct (Inet.version _); [reflexivity|by apply same_held_snoc..].
Qed.

(** What a datagram socket does to its descriptor, address and memberships: nothing, but
    close it. *)
Definition calm s s' : Prop :=
  addr (base s') = addr (base s) /\ (sd (base s') = sd (base s) \/ sd (base s') = INVALID_SOCKET) /\
  same_held (trace s) (trace s').

#[local] Instance calm_preorder : PreOrder calm.
Proof.
  split; [intros s; split; [done|]; split; [by left|reflexivity]|].
  intros s1 s2 s3 (A1 & D1 & H1) (A2 & D2 & H2). split; [congruence|]. split; [|by etrans].
  destruct D2 as [D2|D2]; [rewrite D2; done|by right].
Qed.

Lemma calm_trace s w : same_held (trace s) w -> calm s (with_trace w s).
Proof. intros H. split; [done|]. split; [by left|done]. Qed.
Lemma calm_say s e : calm s (say e s).
Proof. apply calm_trace. by apply same_held_snoc. Qed.

Lemma calm_close s : calm s (with_base (close answer (base s) (trace s)).1 (close answer (base s) (trace s)).2 s).
Proof.
  split; [|split; [|apply sh_close]]; cbn; unfold close, disableMonitor; destruct (Z.eqb_spec (sd (base s)) INVALID_SOCKET);
    try done; try (by left); destruct (monitored _); cbn; try done; by right.
Qed.
Lemma calm_disable s : calm s (with_base (disableMonitor (base s) (trace s)).1 (disableMonitor (base s) (trace s)).2 s).
Proof. split; [|split; [|apply sh_disable]]; cbn; unfold disableMonitor; destruct (monitored _); try done; by left. Qed.

Lemma calm_read p s : calm s (read alloc answer p s).2.
Proof.
  unfold read, sys. assert (forall w, w = trace s ++ [Called (SysRecvFrom (sd (base s)) MAX_BUF_SIZE) (answer (trace s) (SysRecvFrom (sd (base s)) MAX_BUF_SIZE))] -> calm s (with_trace w s)) as C.
  { intros w ->. apply calm_trace. by apply same_held_snoc. }
  specialize (C _ eq_refl). destruct (answer _ _) as [e|z data from]; [by destruct (not_now e)|].
  destruct (zlen data =? 0); [done|]. cbn. etrans; [exact C|]. apply calm_say.
Qed.

Lemma calm_canRead s : calm s (internal_canRead alloc answer s).1.
Proof.
  unfold internal_canRead. pose proof (calm_read (default new_packet (myPacket s)) s) as C.
  destruct (read _ _ _ _) as [[status p] s']. cbn in *. exact C.
Qed.

Lemma calm_send p s : calm s (send answer p s).1.2.
Proof.
  unfold send. destruct (p_addr p); [|reflexivity]. destruct (_ =? 0); [reflexivity|]. destruct (getSockAddr _) as [sa a'].
  unfold sys. set (c := SysSendTo _ _ _).
  assert (calm s (with_trace (trace s ++ [Called c (answer (trace s) c)]) s)) as C by (apply calm_trace; by apply same_held_snoc).
  destruct (answer _ c) as [e|z dt from]; [by destruct (not_now e)|]. cbn. etrans; [exact C|]. apply calm_say.
Qed.

Lemma calm_error trig s : calm s (after_error trig s).
Proof.
  unfold after_error. destruct (signalled trig); [|reflexivity]. pose proof (calm_disable s) as C.
  by destruct (disableMonitor _ _).
Qed.

(** ** Joining and leaving *)

(** Addresses of groups as applications have them: whole, and not a name being looked up. *)
Definition group_ok (a : InetAddress) : Prop := address_wf a /\ Inet.resolveState a = Resolved.

Lemma groupFamily_spec g : cached g = [] -> address_wf (SocketAddress.addr g) ->
  let '(family, g') := groupFamily g in
  family = getSockAddrFamily g /\ SocketAddress.addr g' = SocketAddress.addr g /\ port g' = port g /\
  (family = AF_INET -> sin_addr (default [] (getSockAddr g').1) = group_of g) /\
  (family = AF_INET6 -> sin6_addr (default [] (getSockAddr g').1) = group_of g).
Proof.
  intros Hc [Hl _]. unfold groupFamily, getSockAddrFamily, group_of. unfold getSockAddr at 1. rewrite Hc.
  destruct (Inet.version (SocketAddress.addr g)) eqn:V; cbn -[sockaddr_in sockaddr_in6]; [done|..].
  - pose proof (in_fields (port g) (take 4 (Inet.data (SocketAddress.addr g))) [] ltac:(rewrite length_take; lia)) as (F & _ & A).
    rewrite app_nil_r in F, A. rewrite F. cbn [Z.eqb negb andb]. split; [done|]. split; [done|]. split; [done|].
    split; [|done]. intros _. unfold getSockAddr. cbn [cached]. unfold sockaddr_in at 1. cbn [le_bytes app].
    exact A.
  - pose proof (in6_fields (port g) (take 16 (Inet.data (SocketAddress.addr g))) [] ltac:(rewrite length_take; lia)) as (F & _ & A).
    rewrite app_nil_r in F, A. rewrite F. cbn [Z.eqb negb andb]. split; [done|]. split; [done|]. split; [done|].
    split; [done|]. intros _. unfold getSockAddr. cbn [cached]. unfold sockaddr_in6 at 1. cbn [le_bytes app].
    exact A.
Qed.

(** What changing a membership does: nothing to the object but the trace, and what the
    system holds changes exactly when the call succeeds. *)
Lemma changeMembership_spec g j m ok g' m' : cached g = [] -> address_wf (SocketAddress.addr g) ->
  changeMembership answer g j m = (ok, g', m') ->
  m' = traced (mtrace m') m /\ SocketAddress.addr g' = SocketAddress.addr g /\ port g' = port g /\
  (if ok then
     (exists a, addr (mbase m) = Some a /\ getSockAddrFamily g = getSockAddrFamily a /\ Inet.version (SocketAddress.addr g) <> Unspecified) /\
     exists i, held (sd (mbase m)) (mtrace m') =
       if j then held (sd (mbase m)) (mtrace m) ++ [(group_of g, i)] else remove_group (group_of g) (held (sd (mbase m)) (mtrace m))
   else same_held (mtrace m) (mtrace m')).
Proof.
  intros Hc Hw. pose proof (groupFamily_spec g Hc Hw) as Gf. unfold changeMembership.
  destruct (groupFamily g) as [family g1]. destruct Gf as (Ef & Ea & Ep & E4 & E6).
  assert (m = traced (mtrace m) m) as Em by (by destruct m as [[]]).
  destruct (Z.eqb_spec family AF_UNSPEC) as [|Hu]; [intros [= <- <- <-]; done|].
  destruct (addr (mbase m)) as [a|] eqn:Eaddr; [|intros [= <- <- <-]; done].
  destruct (Z.eqb_spec family (getSockAddrFamily a)) as [Efa|]; cbn [negb]; [|intros [= <- <- <-]; done].
  assert (Inet.version (SocketAddress.addr g) <> Unspecified) as Hv.
  { intros E. apply Hu. rewrite Ef. unfold getSockAddrFamily. by rewrite E. }
  destruct (Z.eqb_spec family AF_INET) as [E|E].
  - rewrite (E4 E). unfold membership4, set_ok, sys. set (o := if j then _ else _). set (c := SysSetOpt _ o _).
    destruct (answer (mtrace m) c) as [e|z dt from] eqn:Er; intros [= <- <- <-]; cbn [failed negb].
    + split; [done|]. split; [done|]. split; [done|]. intros d. cbn [dgram traced with_dgram with_trace with_base trace base joined with_joined fst snd]. by rewrite held_snoc.
    + split; [done|]. split; [done|]. split; [done|]. split; [exists a; split; [done|]; split; [congruence|done]|].
      cbn [dgram traced with_dgram with_trace with_base trace base joined with_joined fst snd]. rewrite held_snoc. eexists. unfold c. cbn [membership_step]. rewrite Z.eqb_refl. unfold o. by destruct j.
  - assert (family = AF_INET6) as E'.
    { rewrite Ef. unfold getSockAddrFamily. rewrite Ef in E. unfold getSockAddrFamily in E. by destruct (Inet.version _). }
    rewrite (E6 E'). unfold membership6, set_ok, sys. set (o := if j then _ else _). set (c := SysSetOpt _ o _).
    destruct (answer (mtrace m) c) as [e|z dt from] eqn:Er; intros [= <- <- <-]; cbn [failed negb].
    + split; [done|]. split; [done|]. split; [done|]. intros d. cbn [dgram traced with_dgram with_trace with_base trace base joined with_joined fst snd]. by rewrite held_snoc.
    + split; [done|]. split; [done|]. split; [done|]. split; [exists a; split; [done|]; split; [congruence|done]|].
      cbn [dgram traced with_dgram with_trace with_base trace base joined with_joined fst snd]. rewrite held_snoc. eexists. unfold c. cbn [membership_step]. rewrite Z.eqb_refl. unfold o. by destruct j.
Qed.

(** The groups recorded are those the system holds, for the socket's family. *)
Definition recorded (a : InetSocketAddress) m : Prop :=
  group_ok (SocketAddress.addr a) /\ 0 <= port a < 2 ^ 16 /\
  exists mine, addr (mbase m) = Some mine /\ getSockAddrFamily a = getSockAddrFamily mine /\ Inet.version (SocketAddress.addr a) <> Unspecified.

Record minv m : Prop := {
  m_recorded : Forall (fun a => recorded a m) (joined m);
  m_held : sd (mbase m) <> INVALID_SOCKET -> map fst (held (sd (mbase m)) (mtrace m)) ≡ₚ map group_of (joined m)
}.

Lemma minv_calm m d : minv m -> calm (dgram m) d -> minv (with_dgram d m).
Proof.
  intros [R H] (A & D & S). split.
  - eapply Forall_impl; [exact R|]. intros a (G & P & mine & E & F & V). split; [done|]. split; [done|]. exists mine. cbn. by rewrite A.
  - cbn [dgram with_dgram joined]. intros Hv. destruct D as [D|D]; [|done]. rewrite D in *. rewrite S. by apply H.
Qed.

Lemma minv_join a p m : minv m -> group_ok a -> 0 <= p < 2 ^ 16 -> minv (join answer a p m).2.
Proof.
  intros I [Hw Hr] Hp. unfold join. destruct (addr (mbase m)) as [mine|] eqn:Ea; [|done].
  destruct (negb (Inet.isMulticast a)); [done|]. destruct (changeMembership _ _ _ _) as [[ok g] m'] eqn:E.
  destruct (changeMembership_spec (new_address a p) true m ok g m' eq_refl Hw E) as (Em & Eg & Ep & S). destruct ok; cbn [snd].
  - destruct S as [(mine' & E1 & E2 & E3) [i Hh]]. rewrite Em. destruct I as [R H]. split; cbn [dgram traced with_dgram with_trace with_base trace base joined with_joined fst snd].
    + rewrite Forall_app. split; [exact R|]. constructor; [|done]. split; [cbn [SocketAddress.addr new_copy]; by rewrite Eg|]. split; [cbn [port new_copy]; by rewrite Ep|]. exists mine'. split; [done|].
      unfold getSockAddrFamily in *. cbn. by rewrite Eg.
    + intros Hv. rewrite Hh, !map_app. rewrite (H Hv). cbn.
      unfold group_of. cbn. by rewrite Eg.
  - rewrite Em. apply minv_calm; [done|]. by apply calm_trace.
Qed.

(** A text ending in a port is cut at its last colon. *)
Lemma port_cut A A' p p' : 0 <= p < 2 ^ 64 -> 0 <= p' < 2 ^ 64 ->
  A ++ lit ":" ++ to_string p = A' ++ lit ":" ++ to_string p' -> A = A'.
Proof.
  intros H H' E. destruct (to_string_spec p H) as (D & _). destruct (to_string_spec p' H') as (D' & _).
  assert (forall t, forallb is_digit t = true -> ":"%char ∉ rev t) as Hn.
  { intros t Ht Hin. rewrite list_elem_of_In, <- in_rev in Hin. rewrite forallb_forall in Ht. by specialize (Ht _ Hin). }
  apply (f_equal (@rev byte)) in E. rewrite !rev_app_distr in E. cbn [lit rev String.list_ascii_of_string app] in E.
  rewrite <- !app_assoc in E. cbn [app] in E.
  apply cut_inj in E as [_ E]; [|by apply Hn..]. apply (f_equal (@rev byte)) in E. by rewrite !rev_involutive in E.
Qed.

Lemma same_text a b :
  group_ok (SocketAddress.addr a) -> group_ok (SocketAddress.addr b) ->
  0 <= port a < 2 ^ 16 -> 0 <= port b < 2 ^ 16 ->
  Inet.version (SocketAddress.addr a) = Inet.version (SocketAddress.addr b) -> Inet.version (SocketAddress.addr a) <> Unspecified ->
  toString inet_ntop a = toString inet_ntop b -> group_of a = group_of b.
Proof.
  intros [[La _] Ra] [[Lb _] Rb] Pa Pb V Vu. unfold toString, Inet.toString, Inet.getAddress, group_of.
  rewrite Ra, Rb, !bool_decide_eq_true_2 by done. rewrite <- V. cbn [negb].
  destruct (Inet.version (SocketAddress.addr a)); [done|..].
  - set (ra := take 4 (Inet.data (SocketAddress.addr a))). set (rb := take 4 (Inet.data (SocketAddress.addr b))).
    assert (length ra = raw_size IPv4) as Ha by (unfold ra; by rewrite length_take, La).
    assert (length rb = raw_size IPv4) as Hb by (unfold rb; by rewrite length_take, Lb).
    destruct (ntop_text _ _ Ha) as [t Et], (ntop_text _ _ Hb) as [t' Et']. rewrite Et, Et'. cbn [default from_option id].
    intros E. apply port_cut in E; [|lia..]. cbn in E. subst t'. by eapply ntop_inj.
  - destruct (ntop_text IPv6 _ La) as [t Et], (ntop_text IPv6 _ Lb) as [t' Et']. rewrite Et, Et'. cbn [default from_option id].
    intros E. change (lit "]:") with (lit "]" ++ lit ":") in E. rewrite <- !app_assoc in E. apply app_inv_head in E.
    rewrite !(app_assoc t), !(app_assoc t') in E. apply port_cut in E; [|lia..]. apply app_inv_tail in E. cbn in E. subst t'.
    by rewrite (ntop_inj IPv6 _ _ _ La Lb Et Et').
Qed.

Lemma find_index_Some {A} (p : A -> bool) l i : find_index p l = Some i -> exists x, l !! i = Some x /\ p x = true.
Proof.
  revert i. induction l as [|x l IH]; intros i; cbn; [done|]. destruct (p x) eqn:E.
  - intros [= <-]. by exists x.
  - intros (j & Hj & ->)%fmap_Some. by apply IH.
Qed.

Lemma minv_leave a p m : minv m -> group_ok a -> 0 <= p < 2 ^ 16 -> minv (leave answer inet_ntop a p m).2.
Proof.
  intros Inv [Hw Hr] Hp. unfold leave. destruct (addr (mbase m)) as [mine|] eqn:Ea; [|done].
  destruct (find_index _ (joined m)) as [i|] eqn:Ei; [|done].
  apply find_index_Some in Ei as (x & Hx & Ht). apply bool_decide_eq_true in Ht.
  destruct (changeMembership _ _ _ _) as [[ok g] m'] eqn:E.
  destruct (changeMembership_spec (new_address a p) false m ok g m' eq_refl Hw E) as (Em & _ & _ & S). destruct ok; cbn [snd].
  2: { rewrite Em. apply minv_calm; [done|]. by apply calm_trace. }
  destruct S as [(mine' & E1 & E2 & E3) [_ Hh]]. rewrite Em. destruct Inv as [R H].
  pose proof (proj1 (Forall_lookup _ _) R _ _ Hx) as (Gx & Px & mine2 & F1 & F2 & F3).
  assert (Inet.version (SocketAddress.addr x) = Inet.version a) as Ev.
  { rewrite E1 in F1. injection F1 as ->. rewrite <- E2 in F2. unfold getSockAddrFamily in F2. cbn in F2, E3.
    by destruct (Inet.version (SocketAddress.addr x)), (Inet.version a). }
  pose proof (same_text x (new_address a p) Gx (conj Hw Hr) Px Hp Ev F3 Ht) as Eg.
  split; cbn [dgram traced with_dgram with_trace with_base trace base joined with_joined fst snd].
  - by apply Forall_delete.
  - intros Hv. rewrite Hh. specialize (H Hv).
    assert (map group_of (joined m) ≡ₚ group_of (new_address a p) :: map group_of (delete i (joined m))) as P.
    { rewrite <- Eg. change (map group_of (joined m) ≡ₚ map group_of (x :: delete i (joined m))).
      by rewrite <- (delete_Permutation _ _ _ Hx). }
    rewrite P in H. eapply (Permutation_cons_inv (a := group_of (new_address a p))). rewrite <- H. symmetry.
    apply remove_group_perm. rewrite H. left.
Qed.

(** ** Every step keeps the record *)

Lemma minv_netif i a m : minv m -> minv (with_netif i a m).
Proof. intros [R H]. by split. Qed.

Lemma minv_traced w m : minv m -> same_held (mtrace m) w -> minv (traced w m).
Proof. intros I H. apply minv_calm; [done|]. by apply calm_trace. Qed.

Lemma calm_base b w s : addr b = addr (base s) -> sd b = sd (base s) -> same_held (trace s) w -> calm s (with_base b w s).
Proof. intros A D H. split; [done|]. split; [by left|done]. Qed.

Lemma minv_setInterface i m : minv m -> minv (setInterface answer i m).2.
Proof.
  intros Inv. unfold setInterface. destruct (addr (mbase m)) as [a|]; [|done].
  assert (forall o v, no_membership (Called (SysSetOpt 0 o v) (Err 0)) ->
            minv (traced (set_ok answer o v (mbase m) (mtrace m)).2 m)) as Hs.
  { intros o v H. apply minv_traced; [done|]. by apply sh_set_ok. }
  destruct (_ =? AF_INET6); unfold set_multicast_if6, set_multicast_if4.
  - specialize (Hs IPV6_MULTICAST_IF (Int (Interface.m_ifnumber i)) I). destruct (set_ok _ _ _ _ _) as [[] w]; [by apply minv_netif|done].
  - specialize (Hs IP_MULTICAST_IF (Mreqn (replicate 4 (chr 0)) (match Interface.m_address i with Some a => iface_name a | None => replicate 4 (chr 0) end) (Interface.m_ifnumber i)) I).
    destruct (set_ok _ _ _ _ _) as [[] w]; [by apply minv_netif|done].
Qed.

Lemma minv_clearInterface m : minv m -> minv (clearInterface answer m).
Proof.
  intros Inv. unfold clearInterface. destruct (addr _); [|by apply minv_netif].
  destruct (_ =? AF_INET6); (apply minv_traced; [by apply minv_netif|]); by apply sh_set_ok.
Qed.

Lemma minv_options x m : minv m ->
  match x with SetTtl _ | GetTtl | SetLoop _ | GetLoop => minv (act alloc answer inet_ntop x m) | _ => True end.
Proof.
  intros Inv. destruct x; try done; cbn [act];
    unfold setMulticastTimeToLive, getMulticastTimeToLive, setLoopbackMode, getLoopbackMode;
    (destruct (addr (mbase m)); [|done]); destruct (is_v6 m); cbn; (apply minv_traced; [done|]); by apply same_held_snoc.
Qed.

Lemma minv_listen m : minv m -> minv (listen answer m).2.
Proof.
  intros Inv. unfold listen. destruct (addr (mbase m)) as [a|]; [|done]. set (b := mbase m).
  unfold setReusePort, setReuseAddress.
  pose proof (sh_option SO_REUSEPORT (toggle_value true) b (mtrace m) I) as S1.
  destruct (set_option _ SO_REUSEPORT _ _ _) as [[e|] w1]; [by apply minv_traced|].
  pose proof (sh_option SO_REUSEADDR (toggle_value true) b w1 I) as S2. cbn [snd] in *.
  destruct (set_option _ SO_REUSEADDR _ _ _) as [[e|] w2]; [apply minv_traced; [done|]; by etrans|].
  assert (same_held w2 (setNonBlocking answer true b w2).2) as S3 by by apply same_held_snoc.
  destruct (setNonBlocking _ _ _ _) as [[e|] w3]; cbn [snd] in *; [apply minv_traced; [done|]; do 2 (etrans; [done|]); done|].
  pose proof (sh_bind (Some a) b w3) as S4. destruct (bind _ _ _ _) as [[e|] w4]; cbn [snd] in *;
    [apply minv_traced; [done|]; do 3 (etrans; [done|]); done|].
  pose proof (sh_monitor MonitorBackends.Triggers.Read b w4) as S5. unfold setMonitor in *.
  destruct (monitored b); cbn [snd] in *; (apply minv_calm; [done|]); apply calm_base; try done; do 4 (etrans; [done|]); done.
Qed.

Lemma minv_act x m : minv m -> act_ok x -> minv (act alloc answer inet_ntop x m).
Proof.
  intros Inv Hx. pose proof (minv_options x m Inv) as Ho.
  destruct x; try done; cbn [act act_ok] in *.
  - destruct Hx as [G P]. by apply minv_join.
  - destruct Hx as [G P]. by apply minv_leave.
  - by apply minv_setInterface.
  - by apply minv_clearInterface.
  - by apply minv_listen.
  - pose proof (calm_close (dgram m)) as C. destruct (close _ _ _) as [b w]. by apply minv_calm.
  - apply minv_calm; [done|]. split; [done|]. split; [by left|reflexivity].
  - apply minv_calm; [done|]. apply calm_read.
Qed.

Lemma minv_steps :
  (forall m m', step alloc answer inet_ntop m m' -> minv m -> minv m') /\
  (forall e m m', reaction alloc answer inet_ntop e m m' -> minv m -> minv m') /\
  (forall m m', calls alloc answer inet_ntop m m' -> minv m -> minv m').
Proof.
  apply step_mutind; try done.
  - intros x m Hx Inv. by apply minv_act.
  - intros p ret p' m s1 e m2 E _ IH Inv. apply IH. pose proof (calm_send p (dgram m)) as C. rewrite E in C. by apply minv_calm.
  - intros trig m s1 e1 m2 m3 _ Hr _ IH1 _ IH2 Inv. apply minv_calm; [|apply calm_error]. apply IH2, IH1.
    apply minv_calm; [done|]. unfold on_readable in Hr. destruct (negb _); [|injection Hr as <- _; reflexivity].
    pose proof (calm_canRead (dgram m)) as C. by rewrite Hr in C.
  - intros e m m' _ IH Inv. apply IH. apply minv_calm; [done|]. apply calm_say.
  - intros m m1 m2 _ H1 _ H2 Inv. auto.
Qed.

Lemma new_minv eh a p : minv (new_MulticastSocket answer eh a p).
Proof.
  split; [done|]. unfold new_MulticastSocket, new_DatagramSocket_host, internal_create, createDescriptor, sys, initialize.
  cbn [dgram base joined new_socket new_host with_addr addr trace fst snd app]. destruct (answer _ _); cbn; [done|].
  destruct (_ =? _); done.
Qed.

(** However groups are joined and left, interfaces chosen, datagrams read and sent, by the
    application and by its handler, and whatever the system answers: as long as the socket
    is open, the groups it remembers are exactly those whose joining succeeded more often
    than their leaving, each as often. *)
Theorem memberships_recorded eh a p m :
  calls alloc answer inet_ntop (new_MulticastSocket answer eh a p) m ->
  sd (mbase m) <> INVALID_SOCKET ->
  map fst (held (sd (mbase m)) (mtrace m)) ≡ₚ map group_of (joined m).
Proof. intros C. apply m_held. apply (proj2 (proj2 minv_steps) _ _ C), new_minv. Qed.

(** ** Leaving by the interface a group was joined on *)

(** The interface the next call names. *)
Definition current m : bytes * Z := (if is_v6 m then [] else iface_name (netif_addr m), netif m).
Definition settled m : Prop := forall x, x ∈ held (sd (mbase m)) (mtrace m) -> x.2 = current m.

(** A membership can be dropped through the interface it was joined on. *)
Hypothesis drops : forall w d x, x ∈ held d w ->
  failed (answer w (SysSetOpt d IP_DROP_MEMBERSHIP (Mreqn x.1 x.2.1 x.2.2))) = false /\
  failed (answer w (SysSetOpt d IPV6_LEAVE_GROUP (Mreq6 x.1 x.2.2))) = false.

Lemma drop_works g mine m : cached g = [] -> address_wf (SocketAddress.addr g) ->
  addr (mbase m) = Some mine -> getSockAddrFamily g = getSockAddrFamily mine -> Inet.version (SocketAddress.addr g) <> Unspecified ->
  settled m -> group_of g ∈ map fst (held (sd (mbase m)) (mtrace m)) ->
  (changeMembership answer g false m).1.1 = true.
Proof.
  intros Hc Hw Ea Ef Hv St Hin. pose proof (groupFamily_spec g Hc Hw) as Gf. unfold changeMembership.
  destruct (groupFamily g) as [family g1]. destruct Gf as (Efam & _ & _ & E4 & E6).
  assert (family = AF_INET \/ family = AF_INET6) as Hf.
  { rewrite Efam. unfold getSockAddrFamily. destruct (Inet.version _); [done|by left|by right]. }
  apply list_elem_of_In, in_map_iff in Hin as (x & Ex & Hx%list_elem_of_In).
  destruct (drops _ _ _ Hx) as [D4 D6]. pose proof (St _ Hx) as Ec. unfold current, is_v6 in Ec. rewrite Ea in *. rewrite <- Ef, <- Efam in Ec.
  replace (negb (family =? getSockAddrFamily mine)) with false by (rewrite Efam, Ef, Z.eqb_refl; done).
  destruct Hf as [->| ->]; cbn [Z.eqb AF_UNSPEC AF_INET AF_INET6 Pos.eqb] in *.
  - rewrite (E4 eq_refl). unfold membership4, set_ok, sys. rewrite Ec, Ex in D4. cbn in *. by rewrite D4.
  - rewrite (E6 eq_refl). unfold membership6, set_ok, sys. rewrite Ec, Ex in D6. cbn in *. by rewrite D6.
Qed.

(** A group that is remembered can be left, if the interface is the one it was joined on. *)
Theorem leave_gives_back a p mine m : minv m -> settled m -> sd (mbase m) <> INVALID_SOCKET ->
  group_ok a -> 0 <= p < 2 ^ 16 -> addr (mbase m) = Some mine ->
  getSockAddrFamily (new_address a p) = getSockAddrFamily mine -> Inet.version a <> Unspecified ->
  Exists (fun x => toString inet_ntop x = toString inet_ntop (new_address a p)) (joined m) ->
  (leave answer inet_ntop a p m).1 = true.
Proof.
  intros [R H] St Hv Ga Hp Ea Ef Vu Hex. unfold leave. rewrite Ea.
  destruct (find_index _ (joined m)) as [i|] eqn:Ei.
  - apply find_index_Some in Ei as (x & Hx & Ht). apply bool_decide_eq_true in Ht.
    pose proof (proj1 (Forall_lookup _ _) R _ _ Hx) as (Gx & Px & mine2 & F1 & F2 & F3).
    assert (Inet.version (SocketAddress.addr x) = Inet.version a) as Ev.
    { rewrite Ea in F1. injection F1 as ->. rewrite <- Ef in F2. unfold getSockAddrFamily in F2. cbn in F2.
      by destruct (Inet.version (SocketAddress.addr x)), (Inet.version a). }
    pose proof (same_text x (new_address a p) Gx Ga Px Hp Ev F3 Ht) as Eg.
    pose proof (drop_works (new_address a p) mine m eq_refl (proj1 Ga) Ea Ef Vu St) as D.
    destruct (changeMembership _ _ _ _) as [[ok g] m']. cbn in D. rewrite D; [done|].
    rewrite (H Hv), <- Eg. apply list_elem_of_In, in_map, list_elem_of_In. by eapply list_elem_of_lookup_2.
  - exfalso. apply Exists_exists in Hex as (x & Hx & Ht). clear -Ei Hx Ht.
    induction (joined m) as [|y l IH]; [by apply not_elem_of_nil in Hx|]. cbn in Ei. case_bool_decide as E; [done|].
    apply fmap_None in Ei. apply elem_of_cons in Hx as [->|Hx]; auto.
Qed.

(** Under the same condition nothing is left behind when the socket goes. *)
Lemma drop_all_drops groups mine m : minv m -> settled m -> sd (mbase m) <> INVALID_SOCKET -> addr (mbase m) = Some mine ->
  joined m = rev groups -> held (sd (mbase m)) (mtrace (drop_all answer groups m)) = [].
Proof.
  revert m. induction groups as [|g groups IH]; intros m Inv St Hv Ea Ej.
  - destruct Inv as [_ H]. specialize (H Hv). rewrite Ej in H. cbn in *. apply Permutation_sym, Permutation_nil in H.
    by apply map_eq_nil in H.
  - cbn [drop_all]. set (m1 := with_joined (rev groups) m). cbn [rev] in Ej. destruct Inv as [R H]. rewrite Ej in R.
    apply Forall_app in R as [R Rg]. apply Forall_inv in Rg. pose proof Rg as (Gg & Pg & mine2 & F1 & F2 & F3).
    rewrite Ea in F1. injection F1 as <-.
    pose proof (H Hv) as Hp. rewrite Ej, map_app in Hp. cbn [map] in Hp.
    assert (group_of (new_copy g) ∈ map fst (held (sd (mbase m1)) (mtrace m1))) as Hin.
    { cbn. rewrite Hp. apply elem_of_app. right. by left. }
    pose proof (drop_works (new_copy g) mine m1 eq_refl (proj1 Gg) Ea F2 F3 St Hin) as D.
    unfold dropMembership. destruct (changeMembership answer (new_copy g) false m1) as [[ok g'] m'] eqn:E. cbn in D. subst ok.
    destruct (changeMembership_spec (new_copy g) false m1 true g' m' eq_refl (proj1 Gg) E) as (Em & _ & _ & _ & _ & Hh).
    change (mtrace m1) with (mtrace m) in Hh. change (sd (mbase m1)) with (sd (mbase m)) in Hh.
    cbn [snd]. assert (sd (mbase m') = sd (mbase m)) as Esd by (by rewrite Em).
    rewrite <- Esd. apply IH.
    + split.
      * rewrite Em. cbn. exact R.
      * intros _. rewrite Em at 3. cbn [joined traced with_dgram]. rewrite Esd, Hh.
        apply (Permutation_cons_inv (a := group_of (new_copy g))). rewrite <- remove_group_perm by done.
        cbn [m1 with_joined joined]. rewrite Hp. symmetry. apply Permutation_cons_append.
    + intros x Hx. rewrite Esd, Hh in Hx.
      rewrite Em. change (current (traced (mtrace m') m1)) with (current m). apply St.
      revert Hx. generalize (held (sd (mbase m)) (mtrace m)). intros l. induction l as [|y l IHl]; cbn; [done|].
      case_bool_decide; rewrite ?elem_of_cons; [by right|]. intros [->|Hx]; [by left|]. right. auto.
    + congruence.
    + by rewrite Em.
    + by rewrite Em.
Qed.
End held_facts.

(** ** A group on one interface *)

(** As on Linux: a membership is dropped by the interface it is on, or by none. *)
Definition demo_answer (w : World Event) (c : Call) : Reply :=
  match c with
  | SysSocket _ _ => Ret 3 [] []
  | SysSetOpt d IP_DROP_MEMBERSHIP (Mreqn g a i) =>
      if existsb (fun x => bool_decide (x.1 = g) && ((i =? 0) || (i =? x.2.2))) (held d w) then Ret 0 [] [] else Err 99
  | SysSetOpt d IPV6_LEAVE_GROUP (Mreq6 g i) =>
      if existsb (fun x => bool_decide (x.1 = g) && ((i =? 0) || (i =? x.2.2))) (held d w) then Ret 0 [] [] else Err 99
  | _ => Ret 0 [] []
  end.

(** Any injective text will do. *)
Definition demo_ntop (v : Version) (raw : bytes) : option bytes := Some raw.
Definition demo_alloc (n : Z) : bool := true.

Definition ssdp_group : InetAddress := Inet.ipv4 239 255 255 250.
Definition demo_iface (index : Z) : Interface.NetworkInterface :=
  Interface.mkNetworkInterface (lit "eth") index 1500 Interface.Multicast None (Some (Inet.ipv4 10 0 0 index)) None None None.
Definition demo_socket : MulticastSocket := new_MulticastSocket demo_answer true (Inet.ipv4 0 0 0 0) 1900.
Definition demo_acts : list Act := [SetInterface (demo_iface 3); Join ssdp_group 1900; Join (Inet.ipv4 224 0 0 251) 5353; Leave ssdp_group 1900].
Definition acts (l : list Act) (m : MulticastSocket) : MulticastSocket :=
  foldl (fun m x => act demo_alloc demo_answer demo_ntop x m) m l.

Lemma acts_calls l m : Forall act_ok l -> calls demo_alloc demo_answer demo_ntop m (acts l m).
Proof.
  intros F. revert m. induction F as [|x l Hx F IH]; intros m; [constructor|].
  eapply calls_more; [by apply step_act|]. apply IH.
Qed.

Lemma ssdp_group_ok : group_ok ssdp_group.
Proof. split; [split; [reflexivity|intros _; reflexivity]|reflexivity]. Qed.

Lemma demo_acts_ok : Forall act_ok demo_acts.
Proof.
  repeat constructor; cbn; try lia; reflexivity.
Qed.

Lemma memberships_recorded_witness :
  let m := acts demo_acts demo_socket in
  map fst (held 3 (mtrace m)) ≡ₚ map group_of (joined m) /\ map group_of (joined m) = [[chr 224; chr 0; chr 0; chr 251]].
Proof.
  intros m. split; [|vm_compute; reflexivity].
  assert (sd (mbase m) = 3) as Hs by (vm_compute; reflexivity). rewrite <- Hs.
  apply (memberships_recorded demo_alloc demo_answer demo_ntop) with (eh := true) (a := Inet.ipv4 0 0 0 0) (p := 1900).
  - intros v raw _. by exists raw.
  - intros v raw raw' t _ _. unfold demo_ntop. congruence.
  - apply acts_calls, demo_acts_ok.
  - rewrite Hs. discriminate.
Defined.

(** ** What does not hold *)

(** Once another interface is chosen, a group joined before can be left no more, and stays
    with the system when the socket takes its memberships back. *)
Lemma left_behind :
  let m := acts [SetInterface (demo_iface 3); Join ssdp_group 1900; SetInterface (demo_iface 4)] demo_socket in
  (leave demo_answer demo_ntop ssdp_group 1900 m).1 = false /\
  map fst (held 3 (mtrace (drop_all demo_answer (rev (joined m)) m))) = [group_of (new_address ssdp_group 1900)].
Proof. vm_compute. done. Qed.

(** The port is part of what is looked for, although a membership has none. *)
Lemma port_matters :
  let m := acts [Join ssdp_group 1900] demo_socket in
  (leave demo_answer demo_ntop ssdp_group 1901 m).1 = false.
Proof. vm_compute. done. Qed.

(** Choosing an interface without an address keeps the address of the one before, under the
    index of the new one. *)
Lemma address_of_another :
  let bare := Interface.mkNetworkInterface (lit "wg0") 7 1420 0 None None None None None in
  let m := acts [SetInterface (demo_iface 3); SetInterface bare] demo_socket in
  netif m = 7 /\ iface_name (netif_addr m) = [chr 10; chr 0; chr 0; chr 3].
Proof. vm_compute. done. Qed.
