(* ===== verification/Codec.v ===== *)
(** * Codec: [src/io/codec.cpp], [src/io/compression.cpp] and [src/io/unicode.cpp]

    The codecs over zlib, bzip2 and iconv, which are interfaces, and the loop the
    documentation of [Codec::step] asks its callers to write. *)

From S2P Require Import Prelude.

(* @src src/include/samurai/io/codec.h:20-25 Samurai::IO::Codec::Status *)
Inductive Status := Ok | StreamEnd | Error.

#[export] Instance Status_eq_dec : EqDecision Status.
Proof. solve_decision. Defined.

(* @src src/include/samurai/io/codec.h:34-39 Samurai::IO::Codec::Progress *)
Record Progress := mkProgress { status : Status; consumed : Z; produced : Z }.
Definition no_progress : Progress := mkProgress Error 0 0.

Definition ENOMEM : Z := 12.
Definition EPERM : Z := 1.
Definition EIO : Z := 5.
Definition EINVAL : Z := 22.
Definition EILSEQ : Z := 84.
Definition E2BIG : Z := 7.
Definition ENOBUFS : Z := 105.

(** A codec: given input and the size of the output, its next state, what it reports, the
    error code, and the bytes written to the front of the output. *)
(* @src src/include/samurai/io/codec.h:65-72 Samurai::IO::Codec::internal_step *)
Class Codec (C : Type) := internal_step : C -> bytes -> Z -> C * Progress * option Z * bytes.

(** [step]; the overload without an error code drops it. *)
(* @src src/src/io/codec.cpp:10-23 Samurai::IO::Codec::step *)
Definition step `{Codec C} (c : C) (input : bytes) (output : Z) : C * Progress * option Z * bytes :=
  internal_step c input output.

(** The loop of the documentation: whether it returned true, and what the sink got. It runs
    out of fuel as [None]. *)
(* @src src/include/samurai/io/codec.h:51-57 Samurai::IO::Codec::step *)
Fixpoint drive `{Codec C} (fuel : nat) (c : C) (input : bytes) (output : Z) : option (bool * bytes) :=
  match fuel with
  | O => None
  | S fuel =>
      let '(c, p, _, out) := step c input output in
      match status p with
      | Error => Some (false, [])
      | Ok => '(b, rest) ← drive fuel c (zdrop (consumed p) input) output; Some (b, ztake (produced p) out ++ rest)
      | StreamEnd => Some (true, ztake (produced p) out)
      end
  end.

(** ** The compression libraries *)

Definition BZ_RUN : Z := 0.
Definition BZ_FINISH : Z := 2.
Definition BZ_OK : Z := 0.
Definition BZ_RUN_OK : Z := 1.
Definition BZ_FINISH_OK : Z := 3.
Definition BZ_STREAM_END : Z := 4.
Definition BZ_SEQUENCE_ERROR : Z := -1.
Definition BZ_PARAM_ERROR : Z := -2.
Definition BZ_MEM_ERROR : Z := -3.
Definition BZ_DATA_ERROR : Z := -4.
Definition BZ_DATA_ERROR_MAGIC : Z := -5.
Definition BZ_OUTBUFF_FULL : Z := -8.
Definition Z_NO_FLUSH : Z := 0.
Definition Z_FINISH : Z := 4.
Definition Z_OK : Z := 0.
Definition Z_STREAM_END : Z := 1.
Definition Z_STREAM_ERROR : Z := -2.
Definition Z_DATA_ERROR : Z := -3.
Definition Z_MEM_ERROR : Z := -4.
Definition Z_BUF_ERROR : Z := -5.

(** A stream of a library: what initialisation gives, and a call with the bytes behind
    [next_in] that [avail_in] counts and room for [avail_out]: the next state, the return
    value, how much of the input was taken, and what was written. *)
Class Stream (T : Type) := mkStream {
  stream_init : option T;
  stream_run : T -> Z -> bytes -> Z -> T * Z * Z * bytes
}.

(* @src src/src/io/compression.cpp:56-67 bz2_error *)
Definition bz2_error (status : Z) : Z :=
  if status =? BZ_MEM_ERROR then ENOMEM
  else if (status =? BZ_DATA_ERROR) || (status =? BZ_DATA_ERROR_MAGIC) then EILSEQ
  else if status =? BZ_PARAM_ERROR then EINVAL
  else if status =? BZ_SEQUENCE_ERROR then EPERM
  else if status =? BZ_OUTBUFF_FULL then ENOBUFS
  else EIO.

(* @src src/src/io/compression.cpp:69-78 gz_error *)
Definition gz_error (status : Z) : Z :=
  if status =? Z_MEM_ERROR then ENOMEM
  else if status =? Z_DATA_ERROR then EILSEQ
  else if status =? Z_STREAM_ERROR then EINVAL
  else if status =? Z_BUF_ERROR then ENOBUFS
  else EIO.

Section streams.
Context `{Stream T}.

(** The counts of a stream are 32 bits wide; what the codecs report is computed from what is
    left in them. *)
Definition run_stream (accepted : Z -> bool) (end_ : Z) (error : Z -> Z) (mode : Z)
  (d : option T) (input : bytes) (output : Z) : option T * Progress * option Z * bytes :=
  match d with
  | None => (d, no_progress, Some ENOMEM, [])
  | Some s =>
      if output =? 0 then (d, no_progress, Some ENOBUFS, [])
      else
        let avail_in := u32 (zlen input) in
        let avail_out := u32 output in
        let '(s, retval, taken, out) := stream_run s mode (ztake avail_in input) avail_out in
        if negb (accepted retval) then (Some s, no_progress, Some (error retval), out)
        else
          let avail_in := avail_in - taken in
          let avail_out := avail_out - zlen out in
          (Some s, mkProgress (if retval =? end_ then StreamEnd else Ok) (zlen input - avail_in) (output - avail_out), None, out)
  end.

(** No input left to give is what asks a compressor to finish. *)
(* @src src/src/io/compression.cpp:101-128 Samurai::IO::BZip2Compressor::internal_step *)
Definition BZip2Compressor_step (d : option T) (input : bytes) (output : Z) :=
  run_stream (fun r => (r =? BZ_RUN_OK) || (r =? BZ_FINISH_OK) || (r =? BZ_STREAM_END)) BZ_STREAM_END bz2_error
    (match input with [] => BZ_FINISH | _ => BZ_RUN end) d input output.

(* @src src/src/io/compression.cpp:150-175 Samurai::IO::BZip2Decompressor::internal_step *)
Definition BZip2Decompressor_step (d : option T) (input : bytes) (output : Z) :=
  run_stream (fun r => (r =? BZ_OK) || (r =? BZ_STREAM_END)) BZ_STREAM_END bz2_error BZ_RUN d input output.

(* @src src/src/io/compression.cpp:196-223 Samurai::IO::GzipCompressor::internal_step *)
Definition GzipCompressor_step (d : option T) (input : bytes) (output : Z) :=
  run_stream (fun r => (r =? Z_OK) || (r =? Z_STREAM_END) || (r =? Z_BUF_ERROR)) Z_STREAM_END gz_error
    (match input with [] => Z_FINISH | _ => Z_NO_FLUSH end) d input output.

(* @src src/src/io/compression.cpp:241-266 Samurai::IO::GzipDecompressor::internal_step *)
Definition GzipDecompressor_step (d : option T) (input : bytes) (output : Z) :=
  run_stream (fun r => (r =? Z_OK) || (r =? Z_STREAM_END) || (r =? Z_BUF_ERROR)) Z_STREAM_END gz_error
    Z_NO_FLUSH d input output.

(** What the constructors leave: no stream when its initialisation fails. *)
(* @src src/src/io/compression.cpp:81-89 Samurai::IO::BZip2Compressor::BZip2Compressor *)
Definition new_BZip2Compressor : option T := stream_init.
(* @src src/src/io/compression.cpp:130-138 Samurai::IO::BZip2Decompressor::BZip2Decompressor *)
Definition new_BZip2Decompressor : option T := stream_init.
(* @src src/src/io/compression.cpp:177-186 Samurai::IO::GzipCompressor::GzipCompressor *)
Definition new_GzipCompressor : option T := stream_init.
(* @src src/src/io/compression.cpp:225-233 Samurai::IO::GzipDecompressor::GzipDecompressor *)
Definition new_GzipDecompressor : option T := stream_init.
End streams.

(** ** Conversion of character sets *)

(** [iconv]: a return value, [errno], what was taken and what was written; [None] is a
    conversion that could not be opened. *)
Section unicode.
Context {T : Type}.
Variable iconv : T -> bytes -> Z -> T * Z * Z * Z * bytes.

(** The result of [convert] with the [errno] it leaves, and the rest of [iconv]'s answer. *)
(* @src src/src/io/unicode.cpp:37-45 Samurai::IO::UnicodePrivate::convert *)
Definition convert (cd : option T) (input : bytes) (output : Z) : bool * Z * option T * Z * bytes :=
  match cd with
  | None => (false, 0, cd, 0, [])
  | Some s =>
      let '(s, ret, errno, taken, out) := iconv s input output in
      (negb ((ret =? -1) && negb (errno =? E2BIG)), errno, Some s, taken, out)
  end.

(* @src src/src/io/unicode.cpp:76-103 Samurai::IO::Unicode::internal_step *)
Definition Unicode_step (cd : option T) (input : bytes) (output : Z) : option T * Progress * option Z * bytes :=
  let '(ok, errno, cd, taken, out) := convert cd input output in
  if negb ok then (cd, no_progress, Some (if errno =? 0 then EIO else errno), out)
  else
    let inleft := zlen input - taken in
    let outleft := output - zlen out in
    (cd, mkProgress Ok (zlen input - inleft) (output - outleft), None, out).
End unicode.

(** ** The loop reaches the end of the stream, with all of it *)

(** What a library promises of a stream that is used as these codecs use it. [fed] and
    [given] are what it took and wrote so far; a call takes a part of what it is offered,
    writes no more than there is room for, and, as long as the stream can be completed with
    the input that is left, either ends it, takes some input or has less [pending]. *)
Class StreamLaws (T : Type) `{Stream T} (accepted : Z -> bool) (end_ : Z) (mode : bytes -> Z)
  (relates : bytes -> bytes -> Prop) := {
  fed : T -> bytes;
  given : T -> bytes;
  pending : T -> nat;
  completes : T -> bytes -> Prop;
  end_accepted : accepted end_ = true;
  init_empty s : stream_init = Some s -> fed s = [] /\ given s = [];
  run_bounds s input cap s' r n out : 0 <= cap -> stream_run s (mode input) input cap = (s', r, n, out) ->
    0 <= n <= zlen input /\ zlen out <= cap /\ fed s' = fed s ++ ztake n input /\ given s' = given s ++ out;
  run_progress s input cap s' r n out : stream_run s (mode input) input cap = (s', r, n, out) ->
    0 < cap -> completes s input ->
    accepted r = true /\ (r <> end_ -> completes s' (zdrop n input) /\ (0 < n \/ (pending s' < pending s)%nat));
  run_end s input cap s' n out : stream_run s (mode input) input cap = (s', end_, n, out) ->
    relates (fed s') (given s')
}.

Section drive.
Context {T : Type} {HS : Stream T} {accepted : Z -> bool} {end_ : Z} {mode : bytes -> Z} {relates : bytes -> bytes -> Prop}.
Context {L : StreamLaws T accepted end_ mode relates}.
Variable error : Z -> Z.

#[local] Instance codec_of_stream : Codec (option T) := fun d input output => run_stream accepted end_ error (mode input) d input output.

(** What one step of a codec is when neither span is too large for the library. *)
Lemma step_small s input cap : zlen input < 2 ^ 32 -> 0 < cap < 2 ^ 32 -> completes s input ->
  exists s' r n out, stream_run s (mode input) input cap = (s', r, n, out) /\ 0 <= n <= zlen input /\ zlen out <= cap /\
  step (Some s) input cap = (Some s', mkProgress (if r =? end_ then StreamEnd else Ok) n (zlen out), None, out).
Proof.
  intros Hi Hc Hs. assert (0 <= cap) as Hc0 by lia. destruct (stream_run s (mode input) input cap) as [[[s' r] n] out] eqn:E.
  exists s', r, n, out. split; [done|]. destruct (run_bounds _ _ _ _ _ _ _ Hc0 E) as (Hn & Ho & _). split; [done|]. split; [done|].
  destruct (run_progress _ _ _ _ _ _ _ E ltac:(lia) Hs) as [Ha _].
  unfold step, internal_step, codec_of_stream, run_stream. pose proof (zlen_nonneg input).
  destruct (Z.eqb_spec cap 0); [lia|]. unfold u32. rewrite !Z.mod_small by lia.
  rewrite take_ge by (unfold zlen; lia). rewrite E, Ha. cbn [negb]. do 4 f_equal; lia.
Qed.

(** With every step something moves, so the loop ends, and it ends at the end of the
    stream: the sink has everything the library wrote, in order. *)
Definition ends_empty : Prop := forall s input cap s' n out, stream_run s (mode input) input cap = (s', end_, n, out) -> input = [].

Lemma drive_ends s input cap (n : nat) (k : nat) :
  zlen input < 2 ^ 32 -> 0 < cap < 2 ^ 32 -> completes s input ->
  (length input <= n)%nat -> (pending s <= k)%nat ->
  exists fuel, forall extra, exists out s' rest taken,
    drive (fuel + extra) (Some s) input cap = Some (true, out) /\
    input = taken ++ rest /\ fed s' = fed s ++ taken /\ given s' = given s ++ out /\ relates (fed s') (given s') /\ (ends_empty -> rest = []).
Proof.
  revert s input k. induction n as [n IHn] using lt_wf_ind. intros s input k Hi Hc. assert (0 <= cap) as Hc0 by lia. revert s input Hi.
  induction k as [k IHk] using lt_wf_ind. intros s input Hi Hs Hn Hk.
  destruct (step_small s input cap Hi Hc Hs) as (s1 & r & t & out & E & Ht & Ho & Est).
  destruct (run_bounds _ _ _ _ _ _ _ Hc0 E) as (_ & _ & Ef & Eg).
  destruct (run_progress _ _ _ _ _ _ _ E ltac:(lia) Hs) as [_ Hp].
  assert (forall b : bytes, ztake (zlen b) b = b) as Hall by (intros b; apply take_ge; unfold zlen; lia).
  destruct (Z.eqb_spec r end_) as [->|Hr].
  - exists 1%nat. intros extra. exists out, s1, (zdrop t input), (ztake t input).
    cbn [plus drive]. rewrite Est. cbn [status produced]. rewrite Hall.
    split; [done|]. split; [by rewrite take_drop|]. split; [done|]. split; [done|]. split; [by eapply run_end|].
    intros He. rewrite (He _ _ _ _ _ _ E). by rewrite drop_nil.
  - destruct (Hp Hr) as [Hs1 Hm]. set (rest1 := zdrop t input) in *.
    assert (zlen rest1 < 2 ^ 32) as Hi1 by (unfold rest1, zlen in *; rewrite length_drop; lia).
    assert (exists fuel, forall extra, exists out' s' rest taken,
      drive (fuel + extra) (Some s1) rest1 cap = Some (true, out') /\
      rest1 = taken ++ rest /\ fed s' = fed s1 ++ taken /\ given s' = given s1 ++ out' /\ relates (fed s') (given s') /\ (ends_empty -> rest = [])) as [fuel Hf].
    { destruct (decide (0 < t)) as [Hpos|Hzero].
      - apply (IHn (length rest1)) with (k := pending s1); [|done..]. unfold rest1, zlen in *. rewrite length_drop. lia.
      - assert (t = 0) as -> by lia. apply (IHk (pending s1)); [lia|done|done| |done].
        unfold rest1. rewrite length_drop. lia. }
    exists (S fuel). intros extra. destruct (Hf extra) as (out' & s' & rest & taken & Ed & Er & Ef' & Eg' & Hrel).
    exists (out ++ out'), s', rest, (ztake t input ++ taken). cbn [plus drive]. rewrite Est. cbn [status consumed produced].
    fold rest1. rewrite Ed. cbn [mbind option_bind]. rewrite Hall. split; [done|].
    split; [rewrite <- app_assoc, <- Er; unfold rest1; by rewrite take_drop|].
    split; [by rewrite Ef', Ef, app_assoc|]. split; [by rewrite Eg', Eg, app_assoc|done].
Qed.

(** The documented loop over a codec, from a fresh stream: it ends, reports success, and
    what the sink got belongs to what was taken of the input, whatever room there is for
    output at a time; a codec that ends only when there is nothing left takes all of it. *)
Theorem loop_completes s input cap :
  stream_init = Some s -> completes s input -> zlen input < 2 ^ 32 -> 0 < cap < 2 ^ 32 ->
  exists fuel, forall extra, exists out taken rest,
    drive (fuel + extra) (stream_init : option T) input cap = Some (true, out) /\
    input = taken ++ rest /\ relates taken out /\ (ends_empty -> rest = []).
Proof.
  intros Hs Hcm Hi Hc. destruct (init_empty _ Hs) as [F0 G0].
  destruct (drive_ends s input cap _ _ Hi Hc Hcm (le_n _) (le_n _)) as [fuel Hf].
  exists fuel. intros extra. destruct (Hf extra) as (out & s' & rest & taken & Ed & Er & Ef & Eg & Hr).
  exists out, taken, rest. rewrite Hs. rewrite Ef, Eg, F0, G0 in Hr. done.
Qed.
End drive.

(** ** The four codecs *)

Definition gz_accepted (r : Z) : bool := (r =? Z_OK) || (r =? Z_STREAM_END) || (r =? Z_BUF_ERROR).
Definition gz_mode (input : bytes) : Z := match input with [] => Z_FINISH | _ => Z_NO_FLUSH end.
Definition bz_accepted (r : Z) : bool := (r =? BZ_RUN_OK) || (r =? BZ_FINISH_OK) || (r =? BZ_STREAM_END).
Definition bz_mode (input : bytes) : Z := match input with [] => BZ_FINISH | _ => BZ_RUN end.

(** The documented loop over the gzip compressor: for every input and every size of output
    it ends, reports success, and the sink has the whole compressed stream of the whole
    input, if the library keeps what it promises. *)
Theorem gzip_compresses {T} {HS : Stream T} {relates : bytes -> bytes -> Prop}
  {L : StreamLaws T gz_accepted Z_STREAM_END gz_mode relates} s input cap :
  stream_init = Some s -> completes s input ->
  (forall s i c s' n o, stream_run s (gz_mode i) i c = (s', Z_STREAM_END, n, o) -> i = []) ->
  zlen input < 2 ^ 32 -> 0 < cap < 2 ^ 32 ->
  exists fuel, forall extra, exists out,
    @drive _ GzipCompressor_step (fuel + extra) new_GzipCompressor input cap = Some (true, out) /\ relates input out.
Proof.
  intros Hs Hcm He Hi Hc. destruct (loop_completes gz_error s input cap Hs Hcm Hi Hc) as [fuel Hf].
  exists fuel. intros extra. destruct (Hf extra) as (out & taken & rest & Ed & Er & Hr & Hrest).
  exists out. split; [exact Ed|]. rewrite (Hrest He), app_nil_r in Er. by subst taken.
Qed.

Lemma bzip2_compresses {T} {HS : Stream T} {relates : bytes -> bytes -> Prop}
  {L : StreamLaws T bz_accepted BZ_STREAM_END bz_mode relates} s input cap :
  stream_init = Some s -> completes s input ->
  (forall s i c s' n o, stream_run s (bz_mode i) i c = (s', BZ_STREAM_END, n, o) -> i = []) ->
  zlen input < 2 ^ 32 -> 0 < cap < 2 ^ 32 ->
  exists fuel, forall extra, exists out,
    @drive _ BZip2Compressor_step (fuel + extra) new_BZip2Compressor input cap = Some (true, out) /\ relates input out.
Proof.
  intros Hs Hcm He Hi Hc. destruct (loop_completes bz2_error s input cap Hs Hcm Hi Hc) as [fuel Hf].
  exists fuel. intros extra. destruct (Hf extra) as (out & taken & rest & Ed & Er & Hr & Hrest).
  exists out. split; [exact Ed|]. rewrite (Hrest He), app_nil_r in Er. by subst taken.
Qed.

(** A decompressor stops at the end of the stream, with what follows it left over. *)
Lemma gzip_decompresses {T} {HS : Stream T} {relates : bytes -> bytes -> Prop}
  {L : StreamLaws T gz_accepted Z_STREAM_END (fun _ => Z_NO_FLUSH) relates} s input cap :
  stream_init = Some s -> completes s input -> zlen input < 2 ^ 32 -> 0 < cap < 2 ^ 32 ->
  exists fuel, forall extra, exists out taken rest,
    @drive _ GzipDecompressor_step (fuel + extra) new_GzipDecompressor input cap = Some (true, out) /\
    input = taken ++ rest /\ relates taken out.
Proof.
  intros Hs Hcm Hi Hc. destruct (loop_completes gz_error s input cap Hs Hcm Hi Hc) as [fuel Hf].
  exists fuel. intros extra. destruct (Hf extra) as (out & taken & rest & Ed & Er & Hr & _). by exists out, taken, rest.
Qed.

(** Errors come out as codes, and with no output there is one at once. *)
Lemma no_room_is_error {T} {HS : Stream T} (d : option T) input :
  exists e, GzipCompressor_step d input 0 = (d, no_progress, Some e, []) /\ (e = ENOMEM \/ e = ENOBUFS).
Proof. destruct d; eexists; (split; [reflexivity|]); auto. Qed.

(** ** A library that stores *)

(** What was written, and what was taken and is still to be written. *)
Record Store := mkStore { st_given : bytes; st_queue : bytes }.

Definition store_run (s : Store) (mode : Z) (input : bytes) (cap : Z) : Store * Z * Z * bytes :=
  let queue := st_queue s ++ input in
  let rest := zdrop cap queue in
  (mkStore (st_given s ++ ztake cap queue) rest,
   (if (mode =? Z_FINISH) && bool_decide (rest = []) then Z_STREAM_END else Z_OK), zlen input, ztake cap queue).

#[export] Instance store_stream : Stream Store := { stream_init := Some (mkStore [] []); stream_run := store_run }.

#[export, refine] Instance store_laws : StreamLaws Store gz_accepted Z_STREAM_END gz_mode eq := {
  fed s := st_given s ++ st_queue s; given := st_given; pending s := length (st_queue s); completes _ _ := True
}.
Proof.
  - done.
  - by intros s [= <-].
  - intros s input cap s' r n out. cbn. unfold store_run. intros Hcap [= <- _ <- <-]. pose proof (zlen_nonneg input). cbn.
    split; [lia|]. split; [unfold zlen; rewrite length_take; lia|]. split; [|done].
    rewrite <- !app_assoc, take_drop. unfold zlen. rewrite Nat2Z.id. by rewrite firstn_all.
  - intros s input cap s' r n out. cbn. unfold store_run. intros [= <- <- <- <-] Hc _.
    split; [by destruct (_ && _)|]. intros Hr. split; [done|]. destruct input as [|c input]; [right|left; unfold zlen; cbn; lia].
    cbn in *. rewrite app_nil_r in *. case_bool_decide as E; [done|]. rewrite length_drop.
    destruct (st_queue s) as [|x q]; [by rewrite drop_nil in E|]. cbn. lia.
  - intros s input cap s' n out. cbn. unfold store_run. intros [= <- Hr _ _]. cbn.
    destruct (gz_mode input =? Z_FINISH); [|done]. case_bool_decide as E; [|done]. by rewrite E, app_nil_r.
Defined.

Lemma gzip_compresses_witness :
  exists fuel, forall extra, exists out,
    @drive _ GzipCompressor_step (fuel + extra) (new_GzipCompressor : option Store) (lit "hello, world") 5 = Some (true, out) /\
    lit "hello, world" = out.
Proof.
  apply (gzip_compresses (mkStore [] []) (lit "hello, world") 5).
  - reflexivity.
  - exact I.
  - intros s i c s' n o. cbn. unfold store_run. destruct i; [done|]. cbn. intros [= _ _ _].
  - vm_compute. reflexivity.
  - lia.
Defined.

(** ** What does not hold *)

(** A stream that is cut off: the library has nothing to take and nothing to give, says so,
    and the codec reports progress, so the loop never ends. *)
Lemma cut_off_never_ends {T} {HS : Stream T} s cap : 0 < cap < 2 ^ 32 ->
  stream_run s Z_NO_FLUSH [] cap = (s, Z_BUF_ERROR, 0, []) ->
  forall fuel, @drive _ GzipDecompressor_step fuel (Some s) [] cap = None.
Proof.
  intros Hc Hr fuel. induction fuel as [|fuel IH]; [done|].
  assert (GzipDecompressor_step (Some s) [] cap = (Some s, mkProgress Ok 0 0, None, [])) as E.
  { unfold GzipDecompressor_step, run_stream. destruct (Z.eqb_spec cap 0); [lia|].
    unfold u32. rewrite (Z.mod_small cap) by lia. change (ztake _ []) with (@nil ascii). rewrite Hr. cbn [negb].
    cbn. change (zlen []) with 0. rewrite ?Z.mod_0_l by lia. replace (cap - (cap - 0)) with 0 by lia. done. }
  cbn [drive]. unfold step, internal_step. rewrite E. cbn [status consumed]. change (zdrop 0 []) with (@nil ascii).
  by rewrite IH.
Qed.

(** A converter has no end either. *)
Lemma conversion_never_ends {T} (iconv : T -> bytes -> Z -> T * Z * Z * Z * bytes) s cap :
  iconv s [] cap = (s, 0, 0, 0, []) -> 0 <= cap ->
  forall fuel, @drive _ (Unicode_step iconv) fuel (Some s) [] cap = None.
Proof.
  intros Hr Hc fuel. induction fuel as [|fuel IH]; [done|].
  assert (Unicode_step iconv (Some s) [] cap = (Some s, mkProgress Ok 0 0, None, [])) as E.
  { unfold Unicode_step, convert. rewrite Hr. cbn. change (zlen []) with 0. replace (cap - (cap - 0)) with 0 by lia. done. }
  cbn [drive]. unfold step, internal_step. rewrite E. cbn [status consumed]. change (zdrop 0 []) with (@nil ascii).
  by rewrite IH.
Qed.

(** An input of exactly 4 GiB is offered to the library as one of no bytes, and all of it is
    reported as consumed. *)
Lemma huge_input_lost {T} {HS : Stream T} s s' input cap : zlen input = 2 ^ 32 -> 0 < cap < 2 ^ 32 ->
  stream_run s Z_NO_FLUSH [] cap = (s', Z_BUF_ERROR, 0, []) ->
  GzipCompressor_step (Some s) input cap = (Some s', mkProgress Ok (2 ^ 32) 0, None, []).
Proof.
  intros Hi Hc Hr. unfold GzipCompressor_step, run_stream. destruct (Z.eqb_spec cap 0); [lia|]. rewrite Hi.
  destruct input as [|c input]; [done|]. unfold u32. rewrite (Z.mod_small cap) by lia.
  change (2 ^ 32 mod 2 ^ 32) with 0. change (ztake 0 (c :: input)) with (@nil ascii). rewrite Hr. cbn [negb].
  cbn. change (zlen []) with 0. rewrite ?Z.mod_0_l by lia. replace (cap - (cap - 0)) with 0 by lia. done.
Qed.
