(* ===== verification/Util.v ===== *)
(** * Util: [src/util/random.cpp], [format.cpp], [src/timestamp.cpp], [src/os.cpp]

    Numbers, sizes, times and limits. The double precision numbers the code passes through
    are integers scaled by a power of two and rounded to 53 bits as the hardware does, so
    what is printed or returned is exact here too. The kernel's random source, [drand48],
    the clock and the host's names are arguments. *)

From S2P Require Import Prelude.
From S2P Require Strings.
Import Strings (c_str).

(** ** Rounding *)

(** [a / b] to the nearest integer, halfway cases to the even one. *)
Definition round_div (a b : Z) : Z :=
  let q := a / b in
  match 2 * (a mod b) ?= b with
  | Lt => q
  | Gt => q + 1
  | Eq => if Z.even q then q else q + 1
  end.

(** [(double) z] of a natural number: 53 bits of it, the rest rounded. *)
Definition to_double (z : Z) : Z :=
  let unit := 2 ^ (Z.log2 z - 52) in
  if Z.log2 z <=? 52 then z else round_div z unit * unit.

(** ** Sizes *)

Definition units : list bytes := map lit [" B"; "KB"; "MB"; "GB"; "TB"; "PB"; "EB"]%string.
Definition last_unit : nat := 6.

(** The loop, from [index] and [unit] on; it goes round at most [last_unit] times. *)
(* @src src/src/util/format.cpp:11-17 Samurai::Util::formatSize *)
Fixpoint unit_loop (rounds : nat) (size : Z) (index : nat) (unit_ : Z) : nat * Z :=
  match rounds with
  | O => (index, unit_)
  | S rounds =>
      if (index <? last_unit)%nat && (unit_ <=? size / 1024)
      then unit_loop rounds size (S index) (u64 (unit_ * 1024))
      else (index, unit_)
  end.

(** [{:>4}] and [{:.2f}]. *)
Definition pad4 (s : bytes) : bytes := replicate (4 - length s) " "%char ++ s.
Definition two_digits (h : Z) : bytes := [chr (code "0" + h / 10); chr (code "0" + h mod 10)].
Definition fixed2 (hundredths : Z) : bytes :=
  Strings.to_string (hundredths / 100) ++ "."%char :: two_digits (hundredths mod 100).

(** Hundredths of [size / unit_]; dividing a double by a power of two is exact. *)
Definition hundredths (size unit_ : Z) : Z := round_div (to_double size * 100) unit_.

(* @src src/src/util/format.cpp:4-23 Samurai::Util::formatSize *)
Definition formatSize (size : Z) : bytes :=
  let '(index, unit_) := unit_loop (S last_unit) size 0 1 in
  let suffix := " "%char :: nth index units [] in
  if size mod unit_ =? 0 then pad4 (Strings.to_string (size / unit_)) ++ suffix
  else fixed2 (hundredths size unit_) ++ suffix.

(** ** Random numbers *)

Definition INT_MAX : Z := 2 ^ 31 - 1.
Definition INT_MIN : Z := - 2 ^ 31.

(** The next [drand48()] is [k / 2 ^ 48]. [None] is a difference no [int] holds, which the
    language leaves undefined. *)
(* @src src/src/util/random.cpp:100-108 Samurai::Util::pseudoRandom *)
Definition pseudoRandom (low high k : Z) : option Z :=
  if high <=? low then Some low
  else if INT_MAX <? high - low then None
  else Some (low + to_double ((high - low) * k) / 2 ^ 48).

(** The seed, of the clock and the process; [srand48] takes 64 bits. *)
(* @src src/src/util/random.cpp:92-98 seedRandom *)
Definition seedRandom (tv_sec tv_usec pid : Z) : Z :=
  Z.lxor (Z.lxor tv_sec (Z.shiftl tv_usec 16)) pid.

(** [secureRandom] over [getentropy], which answers each request with that many bytes or
    refuses it. The requests made are listed. *)
Section secure.
Variable getentropy : list Z -> Z -> option bytes.

(* @src src/src/util/random.cpp:142-149 Samurai::Util::secureRandom *)
Fixpoint secure_loop (fuel : nat) (size : Z) (asked : list Z) (out : bytes) : option (bool * list Z * bytes) :=
  if negb (zlen out <? size) then Some (true, asked, out)
  else match fuel with
  | O => None
  | S fuel =>
      let chunk := if 256 <? size - zlen out then 256 else size - zlen out in
      match getentropy asked chunk with
      | None => Some (false, asked ++ [chunk], out)
      | Some l => secure_loop fuel size (asked ++ [chunk]) (out ++ l)
      end
  end.

(* @src src/src/util/random.cpp:138-150 Samurai::Util::secureRandom *)
Definition secureRandom (size : Z) : option (bool * list Z * bytes) :=
  secure_loop (Z.to_nat size) size [] [].

(** [None] is the null pointer; the size of the buffer is [length_]. *)
(* @src src/src/util/random.cpp:192-196 Samurai::Util::secureRandom *)
Definition secureRandom_at (out : option unit) (length_ : Z) : option (bool * list Z * bytes) :=
  match out with
  | None => if negb (length_ =? 0) then Some (false, [], []) else secureRandom length_
  | Some _ => secureRandom length_
  end.
End secure.

(** The device in its place: [open] says whether there is a descriptor, and the reads give
    bytes, are interrupted, or fail (as the end of file does). Reading the device is over
    when the reads are; [None] is reads that only ever were interrupted. *)
Inductive ReadAnswer := Got (data : bytes) | Interrupted | Failed.
Inductive DeviceCall := DevOpen | DevRead (size : Z) | DevClose.

(* @src src/src/util/random.cpp:162-177 Samurai::Util::secureRandom *)
Fixpoint device_loop (reads : list ReadAnswer) (size : Z) (out : bytes) (calls : list DeviceCall)
    : option (bool * list DeviceCall * bytes) :=
  if negb (zlen out <? size) then Some (true, calls ++ [DevClose], out)
  else match reads with
  | [] => None
  | Got [] :: _ | Failed :: _ => Some (false, calls ++ [DevRead (size - zlen out); DevClose], out)
  | Got data :: reads =>
      device_loop reads size (out ++ data) (calls ++ [DevRead (size - zlen out)])
  | Interrupted :: reads => device_loop reads size out (calls ++ [DevRead (size - zlen out)])
  end.

(* @src src/src/util/random.cpp:154-178 Samurai::Util::secureRandom *)
Definition device_secureRandom (opened : bool) (reads : list ReadAnswer) (size : Z)
    : option (bool * list DeviceCall * bytes) :=
  if negb opened then Some (false, [DevOpen], []) else device_loop reads size [] [DevOpen].

(** ** Comparing secrets *)

(** The loop over both ranges: the difference so far, and the positions looked at. *)
(* @src src/src/util/random.cpp:210-212 Samurai::Util::constantTimeEquals *)
Fixpoint difference_loop (a b : bytes) (difference : Z) (looked : nat) : Z * nat :=
  match a, b with
  | x :: a, y :: b => difference_loop a b (u8 (Z.lor difference (Z.lxor (code x) (code y)))) (S looked)
  | _, _ => (difference, looked)
  end.

(* @src src/src/util/random.cpp:199-215 Samurai::Util::constantTimeEquals *)
Definition constantTimeEquals (a b : bytes) : bool :=
  if negb (zlen a =? zlen b) then false
  else let '(difference, _) := difference_loop a b 0 0 in difference =? 0.

(* @src src/src/util/random.cpp:218-228 Samurai::Util::constantTimeEquals *)
Definition constantTimeEquals_text (a b : option bytes) : bool :=
  match a, b with
  | Some a, Some b => constantTimeEquals (c_str a) (c_str b)
  | _, _ => false
  end.

(** ** Times *)

(** Seconds since the epoch; the sums and differences are those of the type [time_t],
    which 64 bits hold for any time there is. *)
Module TimeStamp.

(* @src src/include/samurai/timestamp.h:68-69 Samurai::TimeStamp *)
Record TimeStamp := mkTimeStamp { data : Z }.

(* @src src/src/timestamp.cpp:9-11 Samurai::TimeStamp::TimeStamp *)
Definition now (clock : Z) : TimeStamp := mkTimeStamp clock.
(* @src src/src/timestamp.cpp:13-15 Samurai::TimeStamp::TimeStamp *)
Definition at_time (t : Z) : TimeStamp := mkTimeStamp t.
(* @src src/src/timestamp.cpp:17-19 Samurai::TimeStamp::TimeStamp *)
Definition copy (t : TimeStamp) : TimeStamp := mkTimeStamp (data t).
(* @src src/src/timestamp.cpp:31-33 Samurai::TimeStamp::reset *)
Definition reset (clock : Z) (t : TimeStamp) : TimeStamp := mkTimeStamp clock.
(* @src src/src/timestamp.cpp:47-49 Samurai::TimeStamp::getInternalData *)
Definition getInternalData (t : TimeStamp) : Z := data t.
(* @src src/src/timestamp.cpp:51-53 Samurai::TimeStamp::elapsed *)
Definition elapsed_to (t later : TimeStamp) : Z := data later - data t.
(* @src src/src/timestamp.cpp:55-57 Samurai::TimeStamp::elapsed *)
Definition elapsed (clock : Z) (t : TimeStamp) : Z := clock - data t.
(* @src src/src/timestamp.cpp:59-61 Samurai::TimeStamp::operator= *)
Definition assign (t other : TimeStamp) : TimeStamp := mkTimeStamp (data other).
(* @src src/src/timestamp.cpp:63-65 Samurai::TimeStamp::operator< *)
Definition lt (t other : TimeStamp) : bool := data t <? data other.
(* @src src/src/timestamp.cpp:67-69 Samurai::TimeStamp::operator> *)
Definition gt (t other : TimeStamp) : bool := data other <? data t.
(* @src src/src/timestamp.cpp:71-73 Samurai::TimeStamp::operator== *)
Definition eq (t other : TimeStamp) : bool := data t =? data other.
(* @src src/src/timestamp.cpp:75-77 Samurai::TimeStamp::operator!= *)
Definition ne (t other : TimeStamp) : bool := negb (data t =? data other).
(* @src src/src/timestamp.cpp:79-81 Samurai::TimeStamp::operator<= *)
Definition le (t other : TimeStamp) : bool := data t <=? data other.
(* @src src/src/timestamp.cpp:83-85 Samurai::TimeStamp::operator>= *)
Definition ge (t other : TimeStamp) : bool := data other <=? data t.
(* @src src/src/timestamp.cpp:87-90 Samurai::TimeStamp::operator+ *)
Definition plus (t : TimeStamp) (seconds : Z) : TimeStamp := at_time (data t + seconds).
(* @src src/src/timestamp.cpp:92-95 Samurai::TimeStamp::operator- *)
Definition minus (t : TimeStamp) (seconds : Z) : TimeStamp := at_time (data t - seconds).

(** The comparisons are those of one order, shifting keeps it, and going forward and
    measuring how far agree. *)
Lemma timestamps_ordered t u s :
  lt t u = gt u t /\ le t u = negb (gt t u) /\ ge t u = negb (lt t u) /\ eq t u = le t u && ge t u /\
  ne t u = negb (eq t u) /\
  lt (plus t s) (plus u s) = lt t u /\ elapsed_to t (plus t s) = s /\ minus (plus t s) s = t /\
  plus t (elapsed_to t u) = u /\ (lt t u = true <-> 0 < elapsed_to t u).
Proof.
  destruct t as [t], u as [u]; unfold lt, gt, le, ge, eq, ne, elapsed_to, plus, minus, at_time; cbn.
  repeat split; try (f_equal; lia); lia.
Qed.

End TimeStamp.

(** ** The host *)

Module OSUnix.

Definition SAMURAI_FD_LIMIT_FALLBACK : Z := 1024.
Definition SAMURAI_FD_LIMIT_MIN : Z := 64.
Definition SAMURAI_FD_LIMIT_MAX : Z := 65536.
Definition MAXHOSTNAMELEN : Z := 256.
Definition RLIM_INFINITY : Z := 2 ^ 64 - 1.

(* @src src/src/os.cpp:57-59 Samurai::OSUnix *)
Record OSUnix := mkOSUnix { rlim_cur : Z; sysname : bytes; release : bytes }.

(** [getrlimit] fails or gives the soft limit; [uname] fails, leaving zeros, or fills in
    the names. *)
(* @src src/src/os.cpp:92-103 Samurai::OSUnix::OSUnix *)
Definition new_OSUnix (getrlimit : option Z) (uname : option (bytes * bytes)) : OSUnix :=
  let '(s, r) := default ([], []) uname in mkOSUnix (default SAMURAI_FD_LIMIT_FALLBACK getrlimit) s r.

(* @src src/src/os.cpp:105-116 Samurai::OSUnix::getMaxOpenSockets *)
Definition getMaxOpenSockets (os : OSUnix) : Z :=
  let soft := rlim_cur os in
  let soft := if (soft =? RLIM_INFINITY) || (soft =? 0) then SAMURAI_FD_LIMIT_FALLBACK else soft in
  let soft := if soft <? SAMURAI_FD_LIMIT_MIN then SAMURAI_FD_LIMIT_MIN else soft in
  if SAMURAI_FD_LIMIT_MAX <? soft then SAMURAI_FD_LIMIT_MAX else soft.

(* @src src/src/os.cpp:118-121 Samurai::OSUnix::getUptime *)
Definition getUptime (os : OSUnix) : Z := 0.

(** What the system wrote, over zeros, in the room it was given; the last byte of the
    array is a terminator. *)
Definition host_buffer (room : Z) (written : bytes) : bytes :=
  let buf := ztake room written in
  ztake (MAXHOSTNAMELEN - 1) (buf ++ replicate (Z.to_nat MAXHOSTNAMELEN - length buf) (chr 0)) ++ [chr 0].

(* @src src/src/os.cpp:123-131 Samurai::OSUnix::getHostName *)
Definition getHostName (gethostname : option bytes) : bytes :=
  match gethostname with
  | Some written => c_str (host_buffer (MAXHOSTNAMELEN - 1) written)
  | None => lit "localhost"
  end.

(* @src src/src/os.cpp:133-141 Samurai::OSUnix::getDomainName *)
Definition getDomainName (getdomainname : option bytes) : bytes :=
  match getdomainname with
  | Some written => c_str (host_buffer MAXHOSTNAMELEN written)
  | None => lit "localdomain"
  end.

(* @src src/src/os.cpp:143-146 Samurai::OSUnix::getProcessID *)
Definition getProcessID (pid : Z) : Z := pid.
(* @src src/src/os.cpp:148-151 Samurai::OSUnix::getName *)
Definition getName (os : OSUnix) : bytes := c_str (sysname os).
(* @src src/src/os.cpp:153-156 Samurai::OSUnix::getVersion *)
Definition getVersion (os : OSUnix) : bytes := c_str (release os).

(** Whatever the system says, the limit is between the bounds, and it is the system's own
    where that is between them. *)
Theorem socket_limit_bounded getrlimit uname :
  let n := getMaxOpenSockets (new_OSUnix getrlimit uname) in
  64 <= n <= 65536 /\
  (getrlimit = None -> n = 1024) /\
  (forall soft, getrlimit = Some soft -> 64 <= soft <= 65536 -> n = soft).
Proof.
  unfold getMaxOpenSockets, new_OSUnix, SAMURAI_FD_LIMIT_MIN, SAMURAI_FD_LIMIT_MAX, SAMURAI_FD_LIMIT_FALLBACK, RLIM_INFINITY.
  destruct (default ([], []) uname) as [s r]; cbn [rlim_cur].
  destruct getrlimit as [soft|]; cbn [default from_option id].
  - cbv zeta. destruct (Z.eqb_spec soft (2 ^ 64 - 1)), (Z.eqb_spec soft 0); cbn [orb];
      [repeat split; intros; simplify_eq; first [lia | by vm_compute]..|].
    destruct (Z.ltb_spec soft 64); [|destruct (Z.ltb_spec 65536 soft)];
      repeat split; intros; simplify_eq; first [lia | by vm_compute].
  - repeat split; intros; simplify_eq; done.
Qed.

Lemma socket_limit_bounded_witness :
  64 <= getMaxOpenSockets (new_OSUnix (Some 1000000) None) <= 65536 /\ getMaxOpenSockets (new_OSUnix (Some 256) None) = 256.
Proof.
  split; [exact (proj1 (socket_limit_bounded (Some 1000000) None))|].
  destruct (socket_limit_bounded (Some 256) None) as (_ & _ & H). apply (H 256); [done|lia].
Defined.

Lemma c_str_no_nul s : chr 0 ∉ c_str s.
Proof.
  induction s as [|c s IH]; cbn; [by apply not_elem_of_nil|]. destruct (Z.eqb_spec (code c) 0); [by apply not_elem_of_nil|].
  rewrite elem_of_cons. intros [H|H]; [|done]. subst c. by rewrite code_chr in *.
Qed.

Lemma c_str_length s : (length (c_str s) <= length s)%nat.
Proof. induction s as [|c s IH]; cbn; [lia|]. destruct (code c =? 0); cbn; lia. Qed.

(** A name has a terminator to end at whatever the system wrote: it is a text of at most
    255 characters. *)
Lemma terminated_text m : (length m <= 255)%nat -> zlen (c_str (m ++ [chr 0])) <= 255.
Proof.
  intros Hm. assert (H : (length (c_str (m ++ [chr 0])) <= length m)%nat); [|unfold zlen; lia].
  clear Hm. induction m as [|c m IH]; [done|]. cbn [app c_str]. destruct (code c =? 0); cbn [length]; lia.
Qed.

(** A name has a terminator to end at whatever the system wrote: it is a text of at most
    255 characters. *)
Lemma host_name_terminated w :
  Forall (fun s => (chr 0 ∉ s) /\ zlen s <= 255) [getHostName w; getDomainName w].
Proof.
  assert (Hb : forall room w, (chr 0 ∉ c_str (host_buffer room w)) /\ zlen (c_str (host_buffer room w)) <= 255).
  { intros room l. split; [apply c_str_no_nul|]. apply terminated_text. rewrite length_take. unfold MAXHOSTNAMELEN. lia. }
  unfold getHostName, getDomainName. destruct w as [w|]; repeat constructor; try apply Hb.
  all: first [by apply (bool_decide_unpack _); vm_compute | by vm_compute].
Qed.

End OSUnix.

(** ** Rounding is to the nearest *)

Lemma round_div_near a b : 0 < b -> 2 * Z.abs (round_div a b * b - a) <= b.
Proof.
  intros Hb. unfold round_div. pose proof (Z.div_mod a b ltac:(lia)). pose proof (Z.mod_pos_bound a b Hb).
  destruct (Z.compare_spec (2 * (a mod b)) b); [destruct (Z.even _)| |]; nia.
Qed.

Lemma to_double_near z : 0 <= z -> Z.abs (to_double z - z) * 2 ^ 53 <= z.
Proof.
  intros Hz. unfold to_double. destruct (Z.leb_spec (Z.log2 z) 52); [rewrite Z.sub_diag; cbn; lia|].
  pose proof (Z.pow_pos_nonneg 2 (Z.log2 z - 52) ltac:(lia) ltac:(lia)) as Hu.
  pose proof (round_div_near z _ Hu) as Hr.
  assert (0 < z) by (destruct (Z.eq_dec z 0); [subst; cbn in *|]; lia).
  pose proof (Z.log2_spec z ltac:(lia)) as [Hl _].
  assert (2 ^ Z.log2 z = 2 ^ (Z.log2 z - 52) * 2 ^ 52) as Hp by (rewrite <- Z.pow_add_r by lia; f_equal; lia).
  change (2 ^ 53) with (2 * 2 ^ 52). nia.
Qed.

Lemma to_double_exact z : 0 <= z < 2 ^ 53 -> to_double z = z.
Proof.
  intros Hz. unfold to_double. destruct (Z.leb_spec (Z.log2 z) 52) as [|H]; [done|].
  exfalso. assert (0 < z) by (destruct (Z.eq_dec z 0); [subst; cbn in *|]; lia).
  pose proof (proj1 (Z.log2_lt_pow2 z 53 ltac:(lia))). lia.
Qed.

Lemma to_double_nonneg z : 0 <= z -> 0 <= to_double z.
Proof. intros Hz. pose proof (to_double_near z Hz). nia. Qed.

(** ** A size in the right unit *)

Lemma unit_loop_spec rounds size index u :
  0 <= size < 2 ^ 64 -> u = 1024 ^ Z.of_nat index -> (index <= last_unit)%nat -> (last_unit < rounds + index)%nat ->
  (index = 0%nat \/ u <= size) ->
  let '(i, u') := unit_loop rounds size index u in
  u' = 1024 ^ Z.of_nat i /\ (i <= last_unit)%nat /\ (i = 0%nat \/ u' <= size) /\ size < 1024 * u'.
Proof.
  intros Hs. revert index u. induction rounds as [|rounds IH]; intros index u Hu Hi Hr Hle; [lia|]. cbn [unit_loop].
  pose proof (Z.pow_pos_nonneg 1024 (Z.of_nat index) ltac:(lia) ltac:(lia)).
  pose proof (Z.div_mod size 1024 ltac:(lia)). pose proof (Z.mod_pos_bound size 1024 ltac:(lia)).
  destruct (Nat.ltb_spec index last_unit), (Z.leb_spec u (size / 1024)); cbn [andb].
  - assert (u64 (u * 1024) = u * 1024) as -> by (unfold u64; apply Z.mod_small; lia).
    apply IH; [|lia..]. rewrite Nat2Z.inj_succ, Z.pow_succ_r by lia. lia.
  - repeat split; [done|done|done|lia].
  - assert (index = 6%nat) as -> by (unfold last_unit in *; lia). cbn in Hu. repeat split; [done|done|done|lia].
  - repeat split; [done|done|done|lia].
Qed.

(** A size is shown in the largest unit it has one of, as a number below 1024 and a suffix:
    the number itself where the size is a multiple of the unit, and otherwise with two
    decimals that are off by half a hundredth at most, but for the rounding of the double
    precision arithmetic, which is below [2 ^ -36] of a hundredth. *)
Theorem size_shown size :
  0 <= size < 2 ^ 64 ->
  exists i, (i < 7)%nat /\ let u := 1024 ^ Z.of_nat i in
    (i = 0%nat \/ u <= size) /\ size < 1024 * u /\
    let suffix := " "%char :: nth i units [] in
    (if size mod u =? 0 then exists m, size = m * u /\ 0 <= m < 1024 /\ formatSize size = pad4 (Strings.to_string m) ++ suffix
     else exists h, formatSize size = fixed2 h ++ suffix /\ 0 <= h <= 102400 /\
                    Z.abs (h * u - 100 * size) * 2 ^ 36 <= (2 ^ 35 + 1) * u).
Proof.
  intros Hs. pose proof (unit_loop_spec 7 size 0 1 Hs eq_refl ltac:(unfold last_unit; lia) ltac:(unfold last_unit; lia) ltac:(by left)) as H.
  unfold formatSize. change (S last_unit) with 7%nat. destruct (unit_loop 7 size 0 1) as [i u]. destruct H as (-> & Hi & Hle & Hlt).
  exists i. split; [unfold last_unit in Hi; lia|]. cbv zeta. split; [done|]. split; [done|].
  set (u := 1024 ^ Z.of_nat i) in *. assert (Hu : 0 < u) by (apply Z.pow_pos_nonneg; lia).
  destruct (Z.eqb_spec (size mod u) 0) as [E|E].
  - exists (size / u). pose proof (Z.div_mod size u ltac:(lia)). repeat split; [lia|apply Z.div_pos; lia|nia].
  - exists (hundredths size u). unfold hundredths.
    pose proof (round_div_near (to_double size * 100) u Hu). pose proof (to_double_near size ltac:(lia)).
    pose proof (to_double_nonneg size ltac:(lia)).
    set (d := to_double size) in *. set (h := round_div _ u) in *. clearbody d h.
    assert (Z.abs (h * u - 100 * size) * 2 ^ 36 <= (2 ^ 35 + 1) * u) by lia.
    assert (h * u < 102401 * u) by lia. assert (- u < h * u) by lia.
    split; [done|]. repeat split; [nia|nia|done].
Qed.

Lemma size_shown_witness : (0 <= 1536 < 2 ^ 64) /\ exists i, (i < 7)%nat /\ 1536 < 1024 * 1024 ^ Z.of_nat i.
Proof.
  split; [lia|]. destruct (size_shown 1536 ltac:(lia)) as (i & Hi & _ & Hu & _). exists i. done.
Defined.

Example sizes_shown :
  map formatSize [0; 1023; 1024; 1048575; 2 ^ 64 - 1] = map lit ["   0  B"; "1023  B"; "   1 KB"; "1024.00 KB"; "16.00 EB"]%string.
Proof. reflexivity. Qed.

(** ** Numbers in range *)

(** A number drawn is one of the range, however the product is rounded, whenever the width
    of the range is an [int]; an empty range gives its lower end. *)
Theorem random_in_range low high k :
  INT_MIN <= low <= INT_MAX -> INT_MIN <= high <= INT_MAX -> 0 <= k < 2 ^ 48 ->
  match pseudoRandom low high k with
  | Some r => if high <=? low then r = low else low <= r < high
  | None => INT_MAX < high - low
  end.
Proof.
  intros Hl Hh Hk. unfold pseudoRandom. destruct (Z.leb_spec high low); [done|].
  destruct (Z.ltb_spec INT_MAX (high - low)); [done|]. unfold INT_MAX in *.
  set (n := high - low) in *. assert (0 < n < 2 ^ 31) by lia.
  pose proof (to_double_near (n * k) ltac:(nia)). pose proof (to_double_nonneg (n * k) ltac:(nia)).
  set (d := to_double (n * k)) in *. clearbody d.
  assert (n * k <= n * (2 ^ 48 - 1)) by nia.
  assert (d < n * 2 ^ 48) by nia.
  pose proof (Z.div_pos d (2 ^ 48) ltac:(lia) ltac:(lia)).
  pose proof (Z.div_lt_upper_bound d (2 ^ 48) n ltac:(lia) ltac:(lia)). lia.
Qed.

Lemma random_in_range_witness : (10 <=? 1) = false /\ 1 <= default 0 (pseudoRandom 1 10 (2 ^ 48 - 1)) < 10.
Proof.
  split; [reflexivity|].
  pose proof (random_in_range 1 10 (2 ^ 48 - 1) ltac:(unfold INT_MIN, INT_MAX; lia) ltac:(unfold INT_MIN, INT_MAX; lia) ltac:(lia)) as H.
  exact H.
Defined.

(** The comment promises every range; one wider than an [int] has no defined result. *)
Example range_too_wide : pseudoRandom INT_MIN INT_MAX 0 = None.
Proof. reflexivity. Qed.

(** ** All of the bytes or none *)

Section kernel.
Variable getentropy : list Z -> Z -> option bytes.
(** As its manual says: it fills what it was asked for, or fails. *)
Hypothesis getentropy_fills : forall asked n l, getentropy asked n = Some l -> zlen l = n.

(** What successful requests brought, in their order. *)
Inductive filled : list Z -> bytes -> Prop :=
  | filled_nil : filled [] []
  | filled_snoc asked n l out : filled asked out -> getentropy asked n = Some l -> filled (asked ++ [n]) (out ++ l).

Definition secure_outcome (size : Z) (ok : bool) (asked : list Z) (out : bytes) : Prop :=
  Forall (fun n => 0 < n <= 256) asked /\
  if ok then filled asked out /\ zlen out = size
  else exists before n, asked = before ++ [n] /\ filled before out /\ getentropy before n = None.

Lemma secure_loop_fills fuel size asked out :
  filled asked out -> Forall (fun n => 0 < n <= 256) asked -> zlen out <= size -> size - zlen out <= Z.of_nat fuel ->
  exists ok asked' out', secure_loop getentropy fuel size asked out = Some (ok, asked', out') /\ secure_outcome size ok asked' out'.
Proof.
  revert asked out. induction fuel as [|fuel IH]; intros asked out Hf Ha Hle Hfuel; cbn [secure_loop];
    destruct (Z.ltb_spec (zlen out) size) as [Hlt|Hge]; cbn [negb]; try lia.
  1, 3: exists true, asked, out; split; [done|]; split; [done|]; split; [done|lia].
  set (chunk := if 256 <? size - zlen out then 256 else size - zlen out).
  assert (Hc : 0 < chunk <= 256 /\ chunk <= size - zlen out) by (unfold chunk; destruct (Z.ltb_spec 256 (size - zlen out)); lia).
  assert (Forall (fun n => 0 < n <= 256) (asked ++ [chunk])) by (apply Forall_app; split; [done|]; constructor; [lia|done]).
  destruct (getentropy asked chunk) as [l|] eqn:E.
  - pose proof (getentropy_fills _ _ _ E) as Hl. apply IH; [by constructor|done|unfold zlen in *; rewrite length_app; lia..].
  - exists false, (asked ++ [chunk]), out. split; [done|]. split; [done|]. by exists asked, chunk.
Qed.

(** Asking for random bytes always comes back, having asked the kernel for no more than
    256 bytes at a time. The answer is true only of a buffer every byte of which the kernel
    gave, in its order, and false only after the kernel refused; a null pointer with a
    length is refused without asking. *)
Theorem random_all_or_nothing out size :
  0 <= size ->
  exists ok asked data, secureRandom_at getentropy out size = Some (ok, asked, data) /\
    (secure_outcome size ok asked data \/ out = None /\ size <> 0 /\ ok = false /\ asked = [] /\ data = []).
Proof.
  intros Hs. destruct (secure_loop_fills (Z.to_nat size) size [] [] filled_nil (Forall_nil_2 _) Hs ltac:(change (zlen (@nil byte)) with 0; lia)) as (ok & asked & data & E & H).
  unfold secureRandom_at, secureRandom. destruct out as [u|]; [|destruct (Z.eqb_spec size 0) as [->|]; cbn [negb]].
  1, 2: exists ok, asked, data; split; [done|by left].
  exists false, [], []. split; [done|]. right. done.
Qed.
End kernel.

(** A kernel that answers twice. *)
Definition demo_kernel (asked : list Z) (n : Z) : option bytes :=
  if n <? 0 then None else if Nat.leb 2 (length asked) then None else Some (replicate (Z.to_nat n) (chr 7)).

Lemma demo_kernel_fills asked n l : demo_kernel asked n = Some l -> zlen l = n.
Proof.
  unfold demo_kernel. destruct (Z.ltb_spec n 0); [done|]. destruct (Nat.leb _ _); [done|]. intros [= <-].
  unfold zlen. rewrite length_replicate. lia.
Qed.

Lemma random_all_or_nothing_witness :
  exists asked data, secureRandom_at demo_kernel (Some tt) 300 = Some (true, asked, data) /\
    asked = [256; 44] /\ filled demo_kernel asked data /\ zlen data = 300.
Proof.
  destruct (random_all_or_nothing demo_kernel demo_kernel_fills (Some tt) 300 ltac:(lia)) as (ok & asked & data & E & H).
  exists asked, data. vm_compute in E. injection E as <- <- <-. split; [reflexivity|]. split; [reflexivity|].
  destruct H as [[_ H]|[H _]]; [exact H|discriminate H].
Defined.

(** The device in its place is opened once and closed once, last, whatever it says; an
    answer of true is a buffer filled by what it gave in its order, interruptions left
    out, and anything but an interruption ends the reading. *)
Definition device_data (reads : list ReadAnswer) : bytes :=
  concat (map (fun r => match r with Got l => l | _ => [] end) reads).

Lemma device_loop_closes reads size out calls :
  match device_loop reads size out calls with
  | Some (ok, calls', out') =>
      exists used asked, used `prefix_of` reads /\ calls' = calls ++ map DevRead asked ++ [DevClose] /\
        out' = out ++ device_data used /\
        (if ok then size <= zlen out'
         else zlen out' < size /\ length asked = S (length used) /\ exists r, reads !! length used = Some r /\ (r = Failed \/ r = Got []))
  | None => Forall (fun r => r <> Failed /\ r <> Got []) reads /\ zlen (out ++ device_data reads) < size
  end.
Proof.
  revert out calls. induction reads as [|r reads IH]; intros out calls; cbn [device_loop];
    destruct (Z.ltb_spec (zlen out) size); cbn [negb].
  - split; [done|]. cbn. by rewrite app_nil_r.
  - exists [], []. split; [done|]. cbn. rewrite app_nil_r. by split_and!.
  - destruct r as [[|c data]| |].
    + exists [], [size - zlen out]. split; [apply prefix_nil|]. split; [done|]. cbn. rewrite app_nil_r.
      split; [done|]. split; [done|]. split; [done|]. exists (Got []). by split; [|right].
    + specialize (IH (out ++ c :: data) (calls ++ [DevRead (size - zlen out)])). destruct (device_loop _ _ _ _) as [[[ok calls'] out']|].
      * destruct IH as (used & asked & Hp & -> & -> & Hok). exists (Got (c :: data) :: used), ((size - zlen out) :: asked).
        split; [by apply prefix_cons|]. split; [by rewrite <- app_assoc|]. split; [by rewrite <- app_assoc|].
        destruct ok; [by rewrite <- app_assoc in *|]. destruct Hok as (? & ? & Hr). split; [by rewrite <- app_assoc in *|].
        split; [cbn; lia|exact Hr].
      * destruct IH as [HF Hz]. split; [constructor; [done|done]|]. cbn. by rewrite <- app_assoc in Hz.
    + specialize (IH out (calls ++ [DevRead (size - zlen out)])). destruct (device_loop _ _ _ _) as [[[ok calls'] out']|].
      * destruct IH as (used & asked & Hp & -> & -> & Hok). exists (Interrupted :: used), ((size - zlen out) :: asked).
        split; [by apply prefix_cons|]. split; [by rewrite <- app_assoc|]. split; [done|].
        destruct ok; [done|]. destruct Hok as (? & ? & Hr). split; [done|]. split; [cbn; lia|exact Hr].
      * destruct IH as [HF Hz]. split; [by constructor|done].
    + exists [], [size - zlen out]. split; [apply prefix_nil|]. split; [done|]. cbn. rewrite app_nil_r.
      split; [done|]. split; [done|]. split; [done|]. exists Failed. by split; [|left].
  - exists [], []. split; [apply prefix_nil|]. split; [done|]. cbn. rewrite app_nil_r. by split.
Qed.

(** ** Secrets *)

Lemma xor_zero (x y : byte) : Z.lxor (code x) (code y) = 0 -> x = y.
Proof. revert x y. byte_decide. Qed.

Lemma xor_byte (x y : byte) : 0 <= Z.lxor (code x) (code y) < 256.
Proof. revert x y. byte_decide. Qed.

Lemma or_byte d e : 0 <= d < 256 -> 0 <= e < 256 -> 0 <= Z.lor d e < 256.
Proof.
  intros Hd He. split; [by apply Z.lor_nonneg; lia|]. change 256 with (2 ^ 8).
  destruct (Z.eq_dec (Z.lor d e) 0) as [->|Hn]; [lia|].
  assert (0 <= Z.lor d e) by (apply Z.lor_nonneg; lia). apply Z.log2_lt_pow2; [lia|]. rewrite Z.log2_lor by lia.
  assert (forall z, 0 <= z < 256 -> Z.log2 z < 8) as Hl; [|by apply Z.max_lub_lt; apply Hl].
  intros z Hz. destruct (Z.eq_dec z 0) as [->|]; [done|]. apply Z.log2_lt_pow2; lia.
Qed.

Lemma difference_spec a b d n :
  length a = length b -> 0 <= d < 256 ->
  let '(d', n') := difference_loop a b d n in
  0 <= d' < 256 /\ (d' = 0 <-> d = 0 /\ a = b) /\ n' = (n + length a)%nat.
Proof.
  revert b d n. induction a as [|x a IH]; intros [|y b] d n Hl Hd; try done; cbn [difference_loop].
  - split; [done|]. split; [intuition|cbn; lia].
  - pose proof (or_byte d _ Hd (xor_byte x y)) as Hb.
    assert (u8 (Z.lor d (Z.lxor (code x) (code y))) = Z.lor d (Z.lxor (code x) (code y))) as E by (unfold u8; by apply Z.mod_small).
    specialize (IH b _ (S n) ltac:(cbn in Hl; lia) Hb). rewrite E. destruct (difference_loop _ _ _ _) as [d' n'].
    destruct IH as (? & Hz & ->). split; [done|]. split; [|cbn; lia]. rewrite Hz, Z.lor_eq_0_iff. split.
    + intros [[-> Hx] ->]. split; [done|]. f_equal. by apply xor_zero.
    + intros [-> [= -> ->]]. by rewrite Z.lxor_nilpotent.
Qed.

(** Comparing secrets says whether they are the same, and over ranges of one length looks
    at all of it whatever they hold; texts are compared up to their terminators and the
    null pointer equals nothing, not even itself. *)
Theorem secrets_compared (a b : bytes) (ta tb : option bytes) :
  constantTimeEquals a b = bool_decide (a = b) /\
  (length a = length b -> snd (difference_loop a b 0 0) = length a) /\
  (constantTimeEquals_text ta tb = true <-> exists s, c_str <$> ta = Some s /\ c_str <$> tb = Some s).
Proof.
  assert (H : forall a b, constantTimeEquals a b = bool_decide (a = b)).
  { intros x y. unfold constantTimeEquals, zlen. destruct (Z.eqb_spec (Z.of_nat (length x)) (Z.of_nat (length y))) as [E|E]; cbn [negb].
    - pose proof (difference_spec x y 0 0 ltac:(lia) ltac:(lia)) as D. destruct (difference_loop x y 0 0) as [d n].
      destruct D as (_ & D & _). destruct (Z.eqb_spec d 0); symmetry; [apply bool_decide_eq_true_2|apply bool_decide_eq_false_2]; tauto.
    - symmetry. apply bool_decide_eq_false_2. by intros ->. }
  split; [apply H|]. split.
  - intros Hl. pose proof (difference_spec a b 0 0 Hl ltac:(lia)) as D. destruct (difference_loop a b 0 0) as [d n]. by destruct D as (_ & _ & ->).
  - unfold constantTimeEquals_text. destruct ta as [ta|], tb as [tb|]; cbn; [rewrite H, bool_decide_eq_true|..].
    + split; [intros E; exists (c_str ta); by rewrite E|]. intros (s & E1 & E2). congruence.
    + split; [done|]. by intros (s & ? & ?).
    + split; [done|]. by intros (s & ? & ?).
    + split; [done|]. by intros (s & ? & ?).
Qed.
