(* ===== verification/Notifier.v ===== *)
(** * Notifier: [src/io/net/notifier.cpp], waking the monitor from another thread

    The object with its two descriptors, the bytes that wait between them, the threads that
    are inside [notify] and whether the loop is inside the handler. A step is one call of
    the system, so any interleaving of the threads with the loop is a sequence of steps,
    and the kernel may interrupt a call or find the pair full. *)

From S2P Require Import Prelude.
From S2P Require MonitorBackends.
Abbreviation Read := MonitorBackends.Triggers.Read.

Definition INVALID_SOCKET : Z := -1.

(** ** The system *)

Inductive Direction := SHUT_RD | SHUT_WR.

(** Reading and changing the flags of a descriptor are one question: [fcntl] fails or not. *)
Inductive Call :=
  | SysSocketPair | SysShutdown (sd : Z) (how : Direction)
  | SysNonBlock (sd : Z) | SysGetFlags (sd : Z) | SysSetFlags (sd : Z)
  | SysSend (sd : Z) | SysRecv (sd : Z) | SysClose (sd : Z).

(** What is done, in order: calls, registrations, a thread back from [notify], a callback. *)
Inductive Entry :=
  | Called (c : Call)
  | Added (sd trigger : Z) | Removed (sd : Z)
  | Notified | CalledBack.

#[export] Instance Direction_eq_dec : EqDecision Direction.
Proof. solve_decision. Defined.
#[export] Instance Call_eq_dec : EqDecision Call.
Proof. solve_decision. Defined.
#[export] Instance Entry_eq_dec : EqDecision Entry.
Proof. solve_decision. Defined.

(** How the calls of the construction end: the pair, and which of the three that make the
    ends non-blocking succeed. *)
Record Setup := mkSetup { pair : option (Z * Z); nonblock : bool; getflags : bool; setflags : bool }.

(** ** The object *)

(* @src src/include/samurai/io/net/notifier.h:71-73 Samurai::IO::Net::Notifier *)
Record Notifier := mkNotifier { sd : Z; writer : Z; monitored : bool; callback : bool }.

(* @src src/src/io/net/notifier.cpp:20-30 set_nonblocking *)
Definition set_nonblocking (s : Setup) (d : Z) (w : list Entry) : bool * list Entry :=
  let w := w ++ [Called (SysGetFlags d)] in
  if getflags s then (setflags s, w ++ [Called (SysSetFlags d)]) else (false, w).

(* @src src/src/io/net/notifier.cpp:34-69 Samurai::IO::Net::Notifier::Notifier *)
Definition new_Notifier (on_notified : bool) (s : Setup) : Notifier * list Entry :=
  let w := [Called SysSocketPair] in
  match pair s with
  | None => (mkNotifier INVALID_SOCKET INVALID_SOCKET false on_notified, w)
  | Some (r, wr) =>
      let w := w ++ [Called (SysShutdown r SHUT_WR); Called (SysShutdown wr SHUT_RD); Called (SysNonBlock r)] in
      let '(ok, w) := if nonblock s then set_nonblocking s wr w else (false, w) in
      if ok then (mkNotifier r wr false on_notified, w)
      else (mkNotifier INVALID_SOCKET INVALID_SOCKET false on_notified, w ++ [Called (SysClose wr); Called (SysClose r)])
  end.

(* @src src/src/io/net/notifier.cpp:88-91 Samurai::IO::Net::Notifier::initialize *)
Definition initialize (n : Notifier) (w : list Entry) : Notifier * list Entry :=
  (mkNotifier (sd n) (writer n) true (callback n), w ++ [Added (sd n) Read]).

Definition disableMonitor (n : Notifier) (w : list Entry) : Notifier * list Entry :=
  if monitored n then (mkNotifier (sd n) (writer n) false (callback n), w ++ [Removed (sd n)]) else (n, w).

(* @src src/src/io/net/notifier.cpp:71-86 Samurai::IO::Net::Notifier::~Notifier *)
Definition destroy (n : Notifier) (w : list Entry) : Notifier * list Entry :=
  let '(n, w) := disableMonitor n w in
  let w := if writer n =? INVALID_SOCKET then w else w ++ [Called (SysClose (writer n))] in
  let w := if sd n =? INVALID_SOCKET then w else w ++ [Called (SysClose (sd n))] in
  (mkNotifier INVALID_SOCKET INVALID_SOCKET false (callback n), w).

(** ** The threads *)

(** [waiting]: bytes between the ends; [senders]: threads inside the loop of [notify];
    [draining]: the loop is inside the handler. *)
Record State := mkState {
  notifier : option Notifier;
  waiting : Z;
  senders : nat;
  draining : bool;
  trace : list Entry
}.

(* @src src/include/samurai/io/net/notifier.h:45-51 Samurai::IO::Net::Notifier::create *)
Definition create (on_notified : bool) (s : Setup) : State :=
  let '(n, w) := new_Notifier on_notified s in
  if sd n =? INVALID_SOCKET then let '(_, w) := destroy n w in mkState None 0 0 false w
  else let '(n, w) := initialize n w in mkState (Some n) 0 0 false w.

(** The bytes the kernel keeps between the ends at most. *)
Section threads.
Variable room : Z.

Inductive SendAnswer := Sent | Full | SendInterrupted.
(** [recv] brings bytes, or finds none and says so, or is interrupted. *)
Inductive RecvAnswer := Bytes (n : Z) | Nothing | RecvInterrupted.

Inductive Input :=
  | Notify
  | Send (a : SendAnswer)
  | Event (trig : Z)
  | Recv (a : RecvAnswer)
  | Destroy.

(** A thread enters [notify]: it is back at once if there is nothing to write to. *)
(* @src src/src/io/net/notifier.cpp:93-97 Samurai::IO::Net::Notifier::notify *)
Definition notify (n : Notifier) (s : State) : State :=
  if writer n =? INVALID_SOCKET then mkState (notifier s) (waiting s) (senders s) (draining s) (trace s ++ [Notified])
  else mkState (notifier s) (waiting s) (S (senders s)) (draining s) (trace s).

(** One round of its loop: only an interruption brings another. What the kernel cannot
    answer is [None]. *)
(* @src src/src/io/net/notifier.cpp:99-105 Samurai::IO::Net::Notifier::notify *)
Definition send (a : SendAnswer) (n : Notifier) (s : State) : option State :=
  match senders s with
  | O => None
  | S senders' =>
      let w := trace s ++ [Called (SysSend (writer n))] in
      match a with
      | SendInterrupted => Some (mkState (notifier s) (waiting s) (senders s) (draining s) w)
      | Full => if waiting s <? room then None
                else Some (mkState (notifier s) (waiting s) senders' (draining s) (w ++ [Notified]))
      | Sent => if waiting s <? room
                then Some (mkState (notifier s) (waiting s + 1) senders' (draining s) (w ++ [Notified]))
                else None
      end
  end.

(** The handler up to its loop. *)
(* @src src/src/io/net/notifier.cpp:108-115 Samurai::IO::Net::Notifier::handleMonitorEvent *)
Definition handleMonitorEvent (trig : Z) (n : Notifier) (s : State) : State :=
  if Z.land trig Read =? 0 then s
  else if sd n =? INVALID_SOCKET then s
  else mkState (notifier s) (waiting s) (senders s) true (trace s).

(** One round of the handler's loop, and the callback at the end of it. *)
(* @src src/src/io/net/notifier.cpp:115-121 Samurai::IO::Net::Notifier::handleMonitorEvent *)
Definition recv (a : RecvAnswer) (n : Notifier) (s : State) : option State :=
  let w := trace s ++ [Called (SysRecv (sd n))] in
  let leave := mkState (notifier s) (waiting s) (senders s) false (w ++ if callback n then [CalledBack] else []) in
  match a with
  | Bytes k => if (1 <=? k) && (k <=? 64) && (k <=? waiting s)
               then Some (mkState (notifier s) (waiting s - k) (senders s) true w) else None
  | Nothing => if waiting s =? 0 then Some leave else None
  | RecvInterrupted => Some leave
  end.

(** A step of a thread or of the loop. The monitor has events of what it was given only,
    one at a time; nobody is inside a call of what is destroyed. *)
Definition step (i : Input) (s : State) : option State :=
  match notifier s with
  | None => None
  | Some n =>
      match i with
      | Notify => Some (notify n s)
      | Send a => send a n s
      | Event trig => if monitored n && negb (draining s) then Some (handleMonitorEvent trig n s) else None
      | Recv a => if draining s then recv a n s else None
      | Destroy => if draining s || negb (Nat.eqb (senders s) 0) then None
                   else Some (mkState None 0 0 false (snd (destroy n (trace s))))
      end
  end.

Fixpoint run (l : list Input) (s : State) : option State :=
  match l with
  | [] => Some s
  | i :: l => match step i s with Some s => run l s | None => None end
  end.

(** ** No wakeup is lost *)

(** Whether somebody notified since the last callback. *)
Definition owed (w : list Entry) : bool :=
  foldl (fun o e => match e with Notified => true | CalledBack => false | _ => o end) false w.

(** The descriptors that are open, and those the monitor has. *)
Definition closes (d : Z) (w : list Entry) : nat :=
  foldl (fun k e => match e with Called (SysClose d') => if d' =? d then S k else k | _ => k end) 0%nat w.
Definition watched (d : Z) (w : list Entry) : bool :=
  foldl (fun on e => match e with Added d' _ => on || (d' =? d) | Removed d' => on && negb (d' =? d) | _ => on end) false w.

Definition alive (s : State) : bool := match notifier s with Some _ => true | None => false end.

Record inv (r wr : Z) (s : State) : Prop := mkInv {
  inv_object : forall n, notifier s = Some n -> n = mkNotifier r wr true true;
  inv_waiting : 0 <= waiting s <= room;
  inv_owed : alive s = true -> owed (trace s) = true -> 0 < waiting s \/ draining s = true;
  inv_closed : forall d, d = r \/ d = wr -> closes d (trace s) = if alive s then 0%nat else 1%nat;
  inv_watched : watched r (trace s) = alive s
}.

Lemma owed_snoc w e : owed (w ++ [e]) = match e with Notified => true | CalledBack => false | _ => owed w end.
Proof. unfold owed. rewrite foldl_app. by destruct e. Qed.

Lemma watched_snoc' d w e :
  watched d (w ++ [e]) = match e with Added d' _ => watched d w || (d' =? d) | Removed d' => watched d w && negb (d' =? d) | _ => watched d w end.
Proof. unfold watched. rewrite foldl_app. by destruct e. Qed.

Lemma closes_snoc d w e :
  closes d (w ++ [e]) = match e with Called (SysClose d') => if d' =? d then S (closes d w) else closes d w | _ => closes d w end.
Proof. unfold closes. rewrite foldl_app. by destruct e as [[]| | | |]. Qed.

Definition callbacks (w : list Entry) : nat := foldl (fun k e => match e with CalledBack => S k | _ => k end) 0%nat w.

Lemma callbacks_snoc w e : callbacks (w ++ [e]) = match e with CalledBack => S (callbacks w) | _ => callbacks w end.
Proof. unfold callbacks. rewrite foldl_app. by destruct e. Qed.

Hypothesis room_positive : 0 < room.

Section descriptors.
Variables r wr : Z.
Hypothesis r_valid : r <> INVALID_SOCKET.
Hypothesis wr_valid : wr <> INVALID_SOCKET.
Hypothesis distinct : r <> wr.

Ltac read_trace :=
  repeat (rewrite ?app_assoc, ?app_nil_r, ?owed_snoc, ?watched_snoc', ?closes_snoc, ?callbacks_snoc; cbn [app]).

Lemma close_pair d : d = r \/ d = wr -> (if r =? d then S (if (wr =? d)%Z then 1 else 0)%nat else if wr =? d then 1%nat else 0%nat) = 1%nat.
Proof. intros [->| ->]; rewrite Z.eqb_refl; [by rewrite (proj2 (Z.eqb_neq wr r))|by rewrite (proj2 (Z.eqb_neq r wr))]. Qed.

Lemma notifier_inv_create s : pair s = Some (r, wr) -> inv r wr (create true s).
Proof.
  intros E. unfold create, new_Notifier, set_nonblocking. rewrite E.
  destruct (nonblock s), (getflags s), (setflags s); cbn [sd];
    try (rewrite (proj2 (Z.eqb_neq r _)) by done);
    (constructor; [cbn; intros ? [= <-]; done || done|cbn; lia|done| |]); try done; cbn.
  all: try (intros d Hd; by apply close_pair). all: try by rewrite Z.eqb_refl.
Qed.

(** Ends a step that keeps the object. *)
Ltac keeps_object En :=
  constructor; unfold alive; cbn [notifier waiting draining trace]; rewrite ?En;
  [intros ? [= <-]; done | lia | intros _; read_trace; intuition lia
  | intros ? ?; read_trace; auto | read_trace; auto].

Lemma notifier_inv_step i s s' : inv r wr s -> step i s = Some s' -> inv r wr s'.
Proof.
  intros [Ho Hw Howed Hc Hwt] H. unfold step in H. destruct (notifier s) as [n|] eqn:En; [|done]. unfold alive in *. rewrite En in *.
  specialize (Ho n eq_refl). subst n. specialize (Howed eq_refl). destruct i as [|a|trig|a|].
  - injection H as <-. unfold notify. cbn [writer]. rewrite (proj2 (Z.eqb_neq wr _)) by done. keeps_object En.
  - unfold send in H. destruct (senders s) as [|k]; [done|]. cbn [writer] in H.
    destruct a; [destruct (Z.ltb_spec (waiting s) room)|destruct (Z.ltb_spec (waiting s) room)|]; try done; injection H as <-; keeps_object En.
  - destruct (draining s) eqn:Ed; [by destruct (monitored _)|]. injection H as <-. unfold handleMonitorEvent. cbn [sd].
    destruct (Z.land trig Read =? 0); [constructor; unfold alive; rewrite ?En, ?Ed; try done; by intros ? [= <-]|].
    rewrite (proj2 (Z.eqb_neq r _)) by done. keeps_object En.
  - destruct (draining s) eqn:Ed; [|done]. unfold recv in H. cbn [callback sd] in H. destruct a as [k| |].
    + destruct (_ && _) eqn:Ek; [|done]. injection H as <-. rewrite !andb_true_iff, !Z.leb_le in Ek. keeps_object En.
    + destruct (Z.eqb_spec (waiting s) 0); [|done]. injection H as <-. keeps_object En.
    + injection H as <-. keeps_object En.
  - destruct (draining s || _); [done|]. injection H as <-. unfold destroy, disableMonitor. cbn [monitored callback sd writer].
    rewrite (proj2 (Z.eqb_neq wr _)), (proj2 (Z.eqb_neq r _)) by done.
    constructor; unfold alive; cbn [notifier waiting draining trace snd]; try done; try lia.
    + intros d Hd. read_trace. rewrite (Hc d Hd). by apply close_pair.
    + read_trace. rewrite Z.eqb_refl. by destruct (watched r (trace s)).
Qed.

Lemma notifier_inv_run l s s' : inv r wr s -> run l s = Some s' -> inv r wr s'.
Proof.
  revert s. induction l as [|i l IH]; cbn; intros s I H; [by injection H as <-|].
  destruct (step i s) as [s1|] eqn:E; [|done]. eapply IH; [by eapply notifier_inv_step|done].
Qed.

(** ** A pass of the handler *)

Lemma recvs_end answers s s' :
  inv r wr s -> alive s = true -> draining s = true -> run (map Recv answers) s = Some s' ->
  Z.of_nat (length answers) <= waiting s + 1 /\
  (draining s' = false -> owed (trace s') = false /\ callbacks (trace s') = S (callbacks (trace s))).
Proof.
  revert s. induction answers as [|a answers IH]; intros s I Ha Hd H.
  - injection H as <-. split; [pose proof (inv_waiting _ _ _ I); cbn; lia|congruence].
  - cbn [map run] in H. destruct (step (Recv a) s) as [s1|] eqn:E; [|done].
    pose proof (notifier_inv_step _ _ _ I E) as I1. pose proof (inv_waiting _ _ _ I1) as W1.
    unfold step, alive in E, Ha. destruct (notifier s) as [n|] eqn:En; [|done]. rewrite Hd in E.
    rewrite (inv_object _ _ _ I n En) in E. unfold recv in E. cbn [callback sd] in E.
    assert (Hleave : forall w z, s1 = mkState (Some n) z (senders s) false (w ++ [CalledBack]) -> callbacks w = callbacks (trace s) -> z = waiting s ->
      Z.of_nat (length (a :: answers)) <= waiting s + 1 /\
      (draining s' = false -> owed (trace s') = false /\ callbacks (trace s') = S (callbacks (trace s)))).
    { intros w z -> Hc ->. destruct answers as [|a2 answers]; [|done]. injection H as <-. cbn [draining trace length waiting] in *.
      split; [lia|]. intros _. read_trace. by rewrite Hc. }
    destruct a as [k| |].
    + destruct (_ && _) eqn:Ek; [|done]. injection E as <-. rewrite !andb_true_iff, !Z.leb_le in Ek.
      destruct (IH _ I1 ltac:(unfold alive; cbn; by rewrite En) eq_refl H) as [Hl Hc]. cbn [waiting trace length] in *.
      split; [lia|]. intros Hd'. destruct (Hc Hd') as [Ho Hn]. split; [done|]. revert Hn. by read_trace.
    + destruct (_ =? _); [|done]. injection E as <-. rewrite En in *. eapply Hleave; [done| |done]. by read_trace.
    + injection E as <-. rewrite En in *. eapply Hleave; [done| |done]. by read_trace.
Qed.

Lemma recv_enabled s : inv r wr s -> alive s = true -> draining s = true -> exists a, is_Some (step (Recv a) s).
Proof.
  intros I Ha Hd. unfold step, alive in *. destruct (notifier s) as [n|] eqn:En; [|done]. rewrite Hd.
  exists RecvInterrupted. by eexists.
Qed.

Lemma send_enabled s :
  inv r wr s -> alive s = true -> senders s <> 0%nat -> exists a s', a <> SendInterrupted /\ step (Send a) s = Some s' /\ S (senders s') = senders s.
Proof.
  intros I Ha Hs. unfold step, alive, send in *. destruct (notifier s) as [n|] eqn:En; [|done]. destruct (senders s) as [|k]; [done|].
  destruct (Z.ltb_spec (waiting s) room) as [|Hf]; [exists Sent|exists Full]; eexists; (split; [done|]); by split.
Qed.

Lemma event_enabled s : inv r wr s -> alive s = true -> draining s = false -> exists s', step (Event Read) s = Some s' /\ draining s' = true.
Proof.
  intros I Ha Hd. unfold step, alive in *. destruct (notifier s) as [n|] eqn:En; [|done]. rewrite (inv_object _ _ _ I n En), Hd.
  eexists. split; [done|]. unfold handleMonitorEvent. cbn [sd]. by rewrite (proj2 (Z.eqb_neq r _)).
Qed.

(** However threads and loop interleave and whatever the kernel answers, a notification
    that no callback followed has left a byte that makes the monitor report the notifier,
    or the handler is running and has the callback before it. The handler ends after as
    many reads as bytes wait and one more, having called back once and owing nothing; a
    thread inside [notify] is never parked: its next call either is interrupted or is the
    last. The descriptor is with the monitor while the notifier lives, and each of the two
    is closed once, when it goes. *)
Theorem wakeups_kept setup l s :
  pair setup = Some (r, wr) -> run l (create true setup) = Some s ->
  (forall d, d = r \/ d = wr -> closes d (trace s) = if alive s then 0%nat else 1%nat) /\
  watched r (trace s) = alive s /\
  (alive s = true ->
    (owed (trace s) = true -> 0 < waiting s \/ draining s = true) /\
    (draining s = false -> exists s', step (Event Read) s = Some s' /\ draining s' = true) /\
    (draining s = true ->
       (exists a, is_Some (step (Recv a) s)) /\
       forall answers s', run (map Recv answers) s = Some s' ->
         Z.of_nat (length answers) <= waiting s + 1 /\
         (draining s' = false -> owed (trace s') = false /\ callbacks (trace s') = S (callbacks (trace s)))) /\
    (senders s <> 0%nat -> exists a s', a <> SendInterrupted /\ step (Send a) s = Some s' /\ S (senders s') = senders s)).
Proof.
  intros Hp H. pose proof (notifier_inv_run _ _ _ (notifier_inv_create _ Hp) H) as I.
  split; [exact (inv_closed _ _ _ I)|]. split; [exact (inv_watched _ _ _ I)|]. intros Ha.
  split; [exact (inv_owed _ _ _ I Ha)|]. split; [by apply event_enabled|]. split; [|by apply send_enabled].
  intros Hd. split; [by apply recv_enabled|]. intros answers s' Hr. by eapply recvs_end.
Qed.

End descriptors.

End threads.

(** Two threads notify, one of them while the handler reads: the pair holds one byte. *)
Definition demo_inputs : list Input :=
  [Notify; Send SendInterrupted; Notify; Send Sent; Send Full; Event Read; Recv (Bytes 1); Notify; Send Sent].

Definition demo_setup : Setup := mkSetup (Some (5, 6)) true true true.

Definition ran (l : list Input) (s : State) : State :=
  match run 1 l s with Some s' => s' | None => s end.
Definition demo_state : State := Eval vm_compute in ran demo_inputs (create true demo_setup).
Definition demo_after : State := Eval vm_compute in ran (map Recv [Bytes 1; Nothing]) demo_state.

Lemma demo_runs : run 1 demo_inputs (create true demo_setup) = Some demo_state /\ run 1 (map Recv [Bytes 1; Nothing]) demo_state = Some demo_after.
Proof. by split; vm_compute. Qed.

Lemma wakeups_kept_witness :
  owed (trace demo_state) = true /\ waiting demo_state = 1 /\
  owed (trace demo_after) = false /\ callbacks (trace demo_after) = S (callbacks (trace demo_state)).
Proof.
  split; [reflexivity|]. split; [reflexivity|].
  destruct (wakeups_kept 1 eq_refl 5 6 ltac:(discriminate) ltac:(discriminate) ltac:(discriminate) demo_setup demo_inputs demo_state eq_refl (proj1 demo_runs))
    as (_ & _ & H).
  destruct (H eq_refl) as (_ & _ & Hd & _). destruct (Hd eq_refl) as [_ Hr].
  destruct (Hr [Bytes 1; Nothing] demo_after (proj2 demo_runs)) as [_ Hc]. exact (Hc eq_refl).
Defined.
