(* ===== verification/PoolShutdown.v ===== *)
(** * PoolShutdown: the destructor of [src/io/net/dns/resolver-pool.cpp]

    The end of the pool of [ResolverPool]: from the moment [stopping] is set the loop's
    thread is inside the destructor, the workers leave as soon as they look for work, the
    scheduler returns when it wakes, and the destructor joins the one after the other before
    the notifier goes. A step is again what one thread does between two waits. *)

From stdpp Require Import gmap.
From S2P Require Import Prelude Inet ResolverPool.

Section shutdown.
Variables EAI_NONAME EAI_AGAIN EAI_FAIL EAI_NODATA EAI_MEMORY : Z.
Variable getaddrinfo : bytes -> Z + list Candidate.
Variable getnameinfo : InetAddress -> Z + bytes.
Variable can_start : nat -> bool.

Abbreviation work := (work EAI_NONAME EAI_AGAIN EAI_FAIL EAI_NODATA EAI_MEMORY getaddrinfo getnameinfo).
Abbreviation reached := (reached EAI_NONAME EAI_AGAIN EAI_FAIL EAI_NODATA EAI_MEMORY getaddrinfo getnameinfo can_start).

(** [returned]: the scheduler's thread is over, or there never was one; [joined]: how many
    workers the destructor has joined; then it joins the scheduler, then the notifier goes. *)
Record Closing := mkClosing {
  pool : Pool;
  returned : bool;
  joined : nat;
  sched_joined : bool;
  notifier_gone : bool
}.

Definition with_pool (p : Pool) (c : Closing) : Closing := mkClosing p (returned c) (joined c) (sched_joined c) (notifier_gone c).

(** The destructor up to its first wait. *)
(* @src src/src/io/net/dns/resolver-pool.cpp:150-158 Samurai::IO::Net::DNS::ResolverPool::~ResolverPool *)
Definition begin_shutdown (p : Pool) : Closing :=
  mkClosing (with_pending (pending p) true p) (negb (started p)) 0 false false.

(** A worker looking for work finds that it is over; one that has some hands it in and
    wakes the loop, which takes a notifier. *)
(* @src src/src/io/net/dns/resolver-pool.cpp:320-355 Samurai::IO::Net::DNS::ResolverPool::work *)
Definition work_stopping (i : nat) (c : Closing) : option Closing :=
  match workers (pool c) !! i with
  | Some Waiting => Some (with_pool (set_worker i Leaving (busy_workers (pool c)) (pool c)) c)
  | Some Notifying => if notifier_gone c then None else p ← work i (pool c); Some (with_pool p c)
  | _ => p ← work i (pool c); Some (with_pool p c)
  end.

(* @src src/src/io/net/dns/resolver-pool.cpp:276-282 Samurai::IO::Net::DNS::ResolverPool::schedule *)
Definition schedule_stopping (c : Closing) : option Closing :=
  if negb (returned c) && sched_wakeup (pool c)
  then Some (mkClosing (with_pending (pending (pool c)) false (pool c)) true (joined c) (sched_joined c) (notifier_gone c))
  else None.

(** The rest of the destructor, which waits for the next worker, then for the scheduler. *)
(* @src src/src/io/net/dns/resolver-pool.cpp:160-169 Samurai::IO::Net::DNS::ResolverPool::~ResolverPool *)
Definition join_next (c : Closing) : option Closing :=
  match workers (pool c) !! joined c with
  | Some Finished => Some (mkClosing (pool c) (returned c) (S (joined c)) (sched_joined c) (notifier_gone c))
  | Some _ => None
  | None =>
      if negb (sched_joined c) then
        if returned c then Some (mkClosing (pool c) (returned c) (joined c) true (notifier_gone c)) else None
      else if negb (notifier_gone c) then Some (mkClosing (pool c) (returned c) (joined c) (sched_joined c) true)
      else None
  end.

Inductive Turn := Worker_ (i : nat) | Scheduler | Destructor.

Definition turn (t : Turn) (c : Closing) : option Closing :=
  match t with Worker_ i => work_stopping i c | Scheduler => schedule_stopping c | Destructor => join_next c end.

Fixpoint run_closing (l : list Turn) (c : Closing) : option Closing :=
  match l with [] => Some c | t :: l => c' ← turn t c; run_closing l c' end.

(** ** What holds while it ends *)

Record closing_inv (p : Pool) (c : Closing) : Prop := mkClosingInv {
  ci_pool : inv (pool c);
  ci_woken : returned c = false -> sched_wakeup (pool c) = true;
  ci_joined : forall j, (j < joined c)%nat -> workers (pool c) !! j = Some Finished;
  ci_sched : sched_joined c = true -> joined c = length (workers (pool c)) /\ returned c = true;
  ci_gone : notifier_gone c = true -> sched_joined c = true;
  ci_told : answered (pool c) = answered p;
  ci_threads : length (workers (pool c)) = length (workers p)
}.

(** What is left to do until nothing is. *)
Definition left_to_close (c : Closing) : nat :=
  (sum_list (weight <$> workers (pool c)) + b2n (negb (returned c)) 1 + (length (workers (pool c)) - joined c)
   + b2n (negb (sched_joined c)) 1 + b2n (negb (notifier_gone c)) 1)%nat.

(** A worker's turn leaves everything but its own place, and less of it to do. *)
Lemma worker_turn i c c' :
  work_stopping i c = Some c' ->
  exists w w', workers (pool c) !! i = Some w /\ workers (pool c') = <[i := w']> (workers (pool c)) /\ w <> Finished /\ (weight w' < weight w)%nat /\
    answered (pool c') = answered (pool c) /\ sched_wakeup (pool c') = sched_wakeup (pool c) /\ c' = with_pool (pool c') c.
Proof.
  intros H. unfold work_stopping in H. destruct (workers (pool c) !! i) as [w|] eqn:Ei; [|unfold ResolverPool.work in H; by rewrite Ei in H].
  exists w. destruct w as [|id| | |]; [|unfold ResolverPool.work in H; rewrite Ei in H; cbn in H..]; try done.
  - injection H as <-. by exists Leaving; split_and!; try (cbn; lia).
  - injection H as <-. by exists Notifying; split_and!; try (cbn; lia).
  - destruct (notifier_gone c); [done|]. injection H as <-. by exists Waiting; split_and!; try (cbn; lia).
  - injection H as <-. by exists Finished; split_and!; try (cbn; lia).
Qed.

Lemma leave_inv i p : inv p -> workers p !! i = Some Waiting -> inv (set_worker i Leaving (busy_workers p) p).
Proof.
  intros I Hi. pose proof (held_insert (workers p) i Leaving Waiting Hi) as HP. cbn in HP.
  apply (inv_move p _ []); try done.
  - unfold places, in_flight. cbn. by rewrite HP.
  - intros id r H. by apply not_elem_of_nil in H.
  - cbn. rewrite (inv_busy _ I). by apply zlen_perm.
  - cbn. intros H. destruct (inv_woken _ I H) as [|Hn]; [by left|]. right. by eapply notifying_insert.
Qed.

Lemma closing_inv_turn p t c c' : closing_inv p c -> turn t c = Some c' -> closing_inv p c' /\ (left_to_close c' < left_to_close c)%nat.
Proof.
  intros [I Hw Hj Hs Hg Ht Hl] H. destruct t as [i| |]; cbn [turn] in H.
  - assert (inv (pool c')) as I'.
    { unfold work_stopping in H. destruct (workers (pool c) !! i) as [[| | | |]|] eqn:Ei;
        [injection H as <-; by apply leave_inv|..].
      all: try destruct (notifier_gone c); try done.
      all: destruct (work i (pool c)) as [q|] eqn:E; try done; injection H as <-; cbn; by eapply inv_work. }
    destruct (worker_turn _ _ _ H) as (w & w' & Ei & Ew & Hf & Hlt & Ha & Hk & ->). cbn [pool with_pool] in *.
    set (q := pool c') in *. clearbody q.
    split.
    + constructor; cbn [pool returned joined sched_joined notifier_gone with_pool]; rewrite ?Ew, ?length_insert, ?Ha, ?Hk; try done.
      intros j Hlj. rewrite list_lookup_insert_ne; [by apply Hj|]. intros <-. rewrite (Hj _ Hlj) in Ei. by injection Ei as <-.
    + unfold left_to_close. cbn [pool returned joined sched_joined notifier_gone with_pool]. rewrite Ew, length_insert.
      pose proof (weight_insert _ _ w' _ Ei). lia.
  - unfold schedule_stopping in H. destruct (returned c) eqn:Er; [done|]. destruct (sched_wakeup (pool c)); [|done]. injection H as <-. split.
    + constructor; cbn; try done; [|intros E; by destruct (Hs E)].
      eapply inv_keep; [exact I|..]; try done; apply I.
    + unfold left_to_close. cbn. rewrite Er. cbn. lia.
  - unfold join_next in H. destruct (workers (pool c) !! joined c) as [[]|] eqn:Ej; try done.
    + injection H as <-. pose proof (lookup_lt_Some _ _ _ Ej). split.
      * constructor; cbn; try done.
        -- intros j Hlj. destruct (Nat.eq_dec j (joined c)) as [->|]; [done|]. apply Hj. lia.
        -- intros E. destruct (Hs E). lia.
      * unfold left_to_close. cbn. lia.
    + apply lookup_ge_None in Ej.
      assert (joined c = length (workers (pool c))) as Hjl.
      { destruct (Nat.eq_dec (joined c) (length (workers (pool c)))) as [|Hne]; [done|].
        pose proof (lookup_lt_Some _ _ _ (Hj (length (workers (pool c))) ltac:(lia))). lia. }
      destruct (sched_joined c) eqn:Es; cbn [negb] in H.
      * destruct (notifier_gone c) eqn:Eg; [done|]. injection H as <-. split; [by constructor|]. unfold left_to_close. cbn. rewrite Eg. cbn. lia.
      * destruct (returned c) eqn:Er; [|done]. injection H as <-. split; [by constructor|]. unfold left_to_close. cbn. rewrite Es. cbn. lia.
Qed.

Lemma closing_inv_run p l c c' :
  closing_inv p c -> run_closing l c = Some c' -> closing_inv p c' /\ (length l + left_to_close c' <= left_to_close c)%nat.
Proof.
  revert c. induction l as [|t l IH]; cbn; intros c I H; [by injection H as <-|].
  destruct (turn t c) as [c1|] eqn:E; [|done]. destruct (closing_inv_turn _ _ _ _ I E) as [I1 Hlt].
  destruct (IH c1 I1 H). split; [done|lia].
Qed.

Lemma begin_inv p : inv p -> closing_inv p (begin_shutdown p).
Proof.
  intros I. constructor; cbn; try done; [|intros; lia].
  eapply inv_keep; [exact I|..]; try done; apply I.
Qed.

(** A thread that is not over can go on. *)
Lemma thread_goes_on p c i w :
  closing_inv p c -> workers (pool c) !! i = Some w -> w <> Finished -> is_Some (turn (Worker_ i) c).
Proof.
  intros I Ei Hf. cbn. unfold work_stopping. rewrite Ei. unfold ResolverPool.work. rewrite Ei.
  destruct w; [by eexists|by eexists| |by eexists|done]. destruct (notifier_gone c) eqn:Eg; [|by eexists].
  exfalso. destruct (ci_sched _ _ I (ci_gone _ _ I Eg)) as [Hj _].
  pose proof (lookup_lt_Some _ _ _ Ei). rewrite (ci_joined _ _ I i ltac:(lia)) in Ei. congruence.
Qed.

Lemma someone_goes_on p c : closing_inv p c -> notifier_gone c = false -> exists t, is_Some (turn t c).
Proof.
  intros I Hg. destruct (decide (Forall (fun w => w = Finished) (workers (pool c)))) as [HF|HF].
  - destruct (workers (pool c) !! joined c) as [w|] eqn:Ej.
    + exists Destructor. cbn. unfold join_next. rewrite Ej. rewrite Forall_lookup in HF. rewrite (HF _ _ Ej). by eexists.
    + destruct (returned c) eqn:Er.
      * exists Destructor. cbn. unfold join_next. rewrite Ej, Er, Hg. destruct (sched_joined c); by eexists.
      * exists Scheduler. cbn. unfold schedule_stopping. rewrite Er, (ci_woken _ _ I Er). by eexists.
  - apply not_Forall_Exists in HF; [|intros; apply _]. apply Exists_exists in HF as (w & Hw & Hn).
    apply list_elem_of_lookup in Hw as [i Ei]. exists (Worker_ i). by eapply thread_goes_on.
Qed.

(** Destroying a pool ends, whatever it was doing and however its threads are scheduled:
    after a number of turns bounded from the start; until then some thread can go on, and
    no worker that is still running is ever in need of a notifier that is gone. When it is
    over every thread has returned and been joined. No thread is started and nothing is
    reported meanwhile, and each lookup is in one place still. *)
Theorem shutdown_ends p l c :
  reached p -> run_closing l (begin_shutdown p) = Some c ->
  (length l <= sum_list (weight <$> workers p) + length (workers p) + 3)%nat /\
  (forall i w, workers (pool c) !! i = Some w -> w <> Finished -> is_Some (turn (Worker_ i) c)) /\
  (if notifier_gone c
   then Forall (fun w => w = Finished) (workers (pool c)) /\ joined c = length (workers p) /\ returned c = true /\ (forall t, turn t c = None)
   else exists t, is_Some (turn t c)) /\
  length (workers (pool c)) = length (workers p) /\ answered (pool c) = answered p /\
  NoDup (in_flight (pool c) ++ (answered (pool c)).*1).
Proof.
  intros Hp H. destruct (closing_inv_run _ _ _ _ (begin_inv _ (pool_inv _ _ _ _ _ _ _ _ _ Hp)) H) as [I Hl].
  split.
  { unfold left_to_close in Hl. cbn in Hl. unfold b2n in Hl. destruct (negb (negb (started p))); lia. }
  split; [by intros i w; apply thread_goes_on with p|]. split.
  - destruct (notifier_gone c) eqn:Eg; [|by eapply someone_goes_on].
    destruct (ci_sched _ _ I (ci_gone _ _ I Eg)) as [Hj Hr].
    assert (Forall (fun w => w = Finished) (workers (pool c))) as HF.
    { apply Forall_lookup. intros i w Ei. pose proof (lookup_lt_Some _ _ _ Ei). rewrite (ci_joined _ _ I i ltac:(lia)) in Ei. congruence. }
    split; [done|]. split; [by rewrite Hj, (ci_threads _ _ I)|]. split; [done|]. intros [i| |]; cbn.
    + unfold work_stopping, ResolverPool.work. destruct (workers (pool c) !! i) as [w|] eqn:Ei; [|done].
      rewrite Forall_lookup in HF. by rewrite (HF _ _ Ei).
    + unfold schedule_stopping. by rewrite Hr.
    + unfold join_next. rewrite lookup_ge_None_2 by lia. by rewrite (ci_gone _ _ I Eg), Eg.
  - split; [apply I|]. split; [apply I|]. apply (inv_once _ (ci_pool _ _ I)).
Qed.

End shutdown.

(** ** A pool that ends while a lookup is under way *)

Abbreviation demo_pool := (run (-2) (-3) (-4) (-5) (-10) demo_info demo_name (fun _ => true) demo_steps new_Pool).
Abbreviation demo_closing c l := (run_closing (-2) (-3) (-4) (-5) (-10) demo_info demo_name l c).
Definition demo_turns : list Turn :=
  [Worker_ 1; Scheduler; Worker_ 0; Worker_ 0; Worker_ 1; Worker_ 0; Worker_ 0; Destructor; Destructor; Destructor; Destructor].

Lemma demo_ends :
  (p ← demo_pool; c ← demo_closing (begin_shutdown p) demo_turns; Some (notifier_gone c, completed (pool c)))
  = Some (true, [2]%nat).
Proof. by vm_compute. Qed.

Lemma shutdown_ends_witness :
  exists p c, demo_pool = Some p /\ demo_closing (begin_shutdown p) demo_turns = Some c /\
    notifier_gone c = true /\ completed (pool c) = [2]%nat /\ answered (pool c) = answered p /\
    Forall (fun w => w = Finished) (workers (pool c)).
Proof.
  pose proof demo_ends as D. destruct (demo_pool) as [p|] eqn:E; [|discriminate D]. cbn [option_bind mbind] in D.
  destruct (demo_closing (begin_shutdown p) demo_turns) as [c|] eqn:F; [|discriminate D]. cbn [option_bind mbind] in D. injection D as Hg Hc.
  exists p, c. split; [reflexivity|]. split; [exact F|]. split; [exact Hg|]. split; [exact Hc|].
  assert (Hp : reached (-2) (-3) (-4) (-5) (-10) demo_info demo_name (fun _ => true) p).
  { eapply run_reaches; [apply reached_start|apply demo_permitted|exact E]. }
  destruct (shutdown_ends (-2) (-3) (-4) (-5) (-10) demo_info demo_name (fun _ => true) p demo_turns c Hp F) as (_ & _ & Hend & _ & Ha & _).
  rewrite Hg in Hend. destruct Hend as [HF _]. split; [exact Ha|exact HF].
Defined.
