(* ===== verification/PoolNotifier.v ===== *)
(** * PoolNotifier: the resolver's pool over its notifier

    [ResolverPool] has a flag where the code has a [Notifier]. Here both run together: a
    worker that has handed in a result goes through the calls of [notify], and the pool's
    [drain] is the callback of the handler. Whatever the kernel answers and however the
    threads interleave, what the pool does is a run of [ResolverPool], and its flag is only
    up while the notifier owes the loop a wakeup, so that no result is stranded. *)

From stdpp Require Import gmap.
From S2P Require Import Prelude Inet ResolverPool.
From S2P Require Notifier.

Section together.
Variables EAI_NONAME EAI_AGAIN EAI_FAIL EAI_NODATA EAI_MEMORY : Z.
Variable getaddrinfo : bytes -> Z + list Candidate.
Variable getnameinfo : InetAddress -> Z + bytes.
Variable can_start : nat -> bool.

Abbreviation work := (work EAI_NONAME EAI_AGAIN EAI_FAIL EAI_NODATA EAI_MEMORY getaddrinfo getnameinfo).
Abbreviation step := (step EAI_NONAME EAI_AGAIN EAI_FAIL EAI_NODATA EAI_MEMORY getaddrinfo getnameinfo can_start).
Abbreviation reached := (reached EAI_NONAME EAI_AGAIN EAI_FAIL EAI_NODATA EAI_MEMORY getaddrinfo getnameinfo can_start).

(** The room between the notifier's ends, and the ends. *)
Variables room r wr : Z.
Hypothesis room_positive : 0 < room.
Hypothesis r_valid : r <> Notifier.INVALID_SOCKET.
Hypothesis wr_valid : wr <> Notifier.INVALID_SOCKET.
Hypothesis distinct : r <> wr.

(** [inside]: the workers that are inside [notify]. *)
Record Both := mkBoth { pool : Pool; note : Notifier.State; inside : list nat }.

(** What is the pool's own: everything but waking the loop and being woken. *)
Definition own (s : Step) (p : Pool) : bool :=
  match s with
  | Work i => negb (bool_decide (workers p !! i = Some Notifying))
  | Drain => negb (bool_decide (draining p = []))
  | Wakeup => false
  | _ => true
  end.

Inductive Act :=
  | Own (s : Step)
  | Enter (i : nat) | SendBy (i : nat) (a : Notifier.SendAnswer)
  | LoopEvent (trig : Z) | LoopRecv (a : Notifier.RecvAnswer).

(** A worker calls [notify], which is back at once where there is nothing to write to. *)
(* @src src/src/io/net/dns/resolver-pool.cpp:350-350 Samurai::IO::Net::DNS::ResolverPool::work *)
Definition enter (i : nat) (c : Both) : option Both :=
  match workers (pool c) !! i, decide (i ∈ inside c), Notifier.step room Notifier.Notify (note c) with
  | Some Notifying, right _, Some n =>
      if Nat.eqb (Notifier.senders n) (Notifier.senders (note c))
      then p ← work i (pool c); Some (mkBoth p n (inside c))
      else Some (mkBoth (pool c) n (i :: inside c))
  | _, _, _ => None
  end.

(** One of the calls in its loop, and back to the pool after the last. *)
(* @src src/src/io/net/notifier.cpp:99-105 Samurai::IO::Net::Notifier::notify *)
Definition send_by (i : nat) (a : Notifier.SendAnswer) (c : Both) : option Both :=
  match decide (i ∈ inside c), Notifier.step room (Notifier.Send a) (note c) with
  | left _, Some n =>
      if Nat.eqb (Notifier.senders n) (Notifier.senders (note c)) then Some (mkBoth (pool c) n (inside c))
      else p ← work i (pool c); Some (mkBoth p n (List.filter (fun j => negb (Nat.eqb j i)) (inside c)))
  | _, _ => None
  end.

(** The loop's thread is in the handler or hands out what it took, not both. *)
(* @src src/src/io/net/notifier.cpp:108-111 Samurai::IO::Net::Notifier::handleMonitorEvent *)
Definition loop_event (trig : Z) (c : Both) : option Both :=
  match draining (pool c), Notifier.step room (Notifier.Event trig) (note c) with
  | [], Some n => Some (mkBoth (pool c) n (inside c))
  | _, _ => None
  end.

(** The end of the handler is its callback: the pool takes all that is completed. *)
(* @src src/src/io/net/dns/resolver-pool.cpp:358-365 Samurai::IO::Net::DNS::ResolverPool::drain *)
Definition loop_recv (a : Notifier.RecvAnswer) (c : Both) : option Both :=
  match draining (pool c), Notifier.step room (Notifier.Recv a) (note c) with
  | [], Some n =>
      Some (mkBoth (if Notifier.draining n then pool c else with_completed [] (completed (pool c)) false (pool c)) n (inside c))
  | _, _ => None
  end.

Definition act (x : Act) (c : Both) : option Both :=
  match x with
  | Own s => if own s (pool c) then p ← step s (pool c); Some (mkBoth p (note c) (inside c)) else None
  | Enter i => enter i c
  | SendBy i a => send_by i a c
  | LoopEvent trig => loop_event trig c
  | LoopRecv a => loop_recv a c
  end.

Definition allowed (x : Act) : Prop := match x with Own s => permitted s | _ => True end.

(** From the first request that is submitted, which makes the notifier. *)
Inductive together : Both -> Prop :=
  | together_start q setup :
      permitted (Submit q) -> can_start 0 = true -> Notifier.pair setup = Some (r, wr) -> Notifier.alive (Notifier.create true setup) = true ->
      together (mkBoth (submit can_start q new_Pool) (Notifier.create true setup) [])
  | together_act x c c' : together c -> allowed x -> act x c = Some c' -> together c'.

(** ** What the notifier does to its trace *)

Lemma notify_effect s s' : Notifier.step room Notifier.Notify s = Some s' ->
  Notifier.notifier s' = Notifier.notifier s /\
  (Notifier.senders s' = Notifier.senders s /\ Notifier.owed (Notifier.trace s') = true \/
   Notifier.senders s' = S (Notifier.senders s) /\ Notifier.trace s' = Notifier.trace s).
Proof.
  unfold Notifier.step, Notifier.notify. destruct (Notifier.notifier s) as [n|] eqn:En; [|done].
  destruct (Notifier.writer n =? _); intros [= <-]; cbn; (split; [done|]); [left|by right].
  by rewrite Notifier.owed_snoc.
Qed.

Lemma send_effect a s s' : Notifier.step room (Notifier.Send a) s = Some s' ->
  Notifier.notifier s' = Notifier.notifier s /\
  (Notifier.senders s' = Notifier.senders s /\ Notifier.owed (Notifier.trace s') = Notifier.owed (Notifier.trace s) \/
   S (Notifier.senders s') = Notifier.senders s /\ Notifier.owed (Notifier.trace s') = true).
Proof.
  unfold Notifier.step, Notifier.send. destruct (Notifier.notifier s) as [n|] eqn:En; [|done].
  destruct (Notifier.senders s) as [|k] eqn:Es; [done|].
  destruct a; try destruct (_ <? _); try done; intros [= <-]; cbn [Notifier.notifier Notifier.senders Notifier.trace];
    rewrite ?Notifier.owed_snoc; (split; [done|]); first [by left|by right].
Qed.

Lemma event_effect trig s s' : Notifier.step room (Notifier.Event trig) s = Some s' ->
  Notifier.notifier s' = Notifier.notifier s /\ Notifier.senders s' = Notifier.senders s /\ Notifier.trace s' = Notifier.trace s.
Proof.
  unfold Notifier.step, Notifier.handleMonitorEvent. destruct (Notifier.notifier s) as [n|] eqn:En; [|done].
  destruct (_ && _); [|done]. intros [= <-]. repeat case_match; done.
Qed.

Lemma recv_effect a s s' : Notifier.step room (Notifier.Recv a) s = Some s' ->
  Notifier.notifier s' = Notifier.notifier s /\ Notifier.senders s' = Notifier.senders s /\
  (Notifier.draining s' = true -> Notifier.owed (Notifier.trace s') = Notifier.owed (Notifier.trace s)).
Proof.
  unfold Notifier.step, Notifier.recv. destruct (Notifier.notifier s) as [n|] eqn:En; [|done].
  destruct (Notifier.draining s); [|done]. destruct a as [k| |].
  - destruct (_ && _); [|done]. intros [= <-]. cbn [Notifier.notifier Notifier.senders Notifier.trace]. by rewrite Notifier.owed_snoc.
  - destruct (_ =? _); [|done]. by intros [= <-].
  - by intros [= <-].
Qed.

(** ** What the pool's own steps leave alone *)

Lemma own_leaves s p p' : started p = true -> own s p = true -> step s p = Some p' ->
  notified p' = notified p /\ started p' = true /\
  (forall j, workers p !! j = Some Notifying -> workers p' !! j = Some Notifying).
Proof.
  intros Hs Ho H. destruct s as [q|id|n| | |i|]; cbn in Ho, H; try (injection H as <-).
  - unfold submit, startOnce. by rewrite !Hs.
  - done.
  - done.
  - done.
  - destruct (sched_wakeup p); [|done]. injection H as <-. unfold schedule. destruct (bool_decide _ || _ || _); [done|]. cbn.
    split; [done|]. split; [done|]. clear. intros j. revert j. induction (workers p) as [|w l IH]; intros j Hj; [done|].
    destruct w, j as [|j]; try done; cbn in *; by apply IH.
  - apply negb_true_iff, bool_decide_eq_false in Ho. unfold ResolverPool.work in H.
    assert (Hkeep : forall (l : list Worker) w, workers p = l -> forall j, l !! j = Some Notifying -> <[i := w]> l !! j = Some Notifying).
    { intros l w <- j Hj. rewrite list_lookup_insert_ne; [done|]. by intros <-. }
    destruct (workers p !! i) as [[|id| | |]|] eqn:Ei; try done; [destruct (pending p)| |]; injection H as <-; cbn;
      (split; [done|]); (split; [done|]); intros j; by apply Hkeep.
  - apply negb_true_iff, bool_decide_eq_false in Ho. unfold drain in H. destruct (draining p) as [|id l]; [done|].
    destruct (requests p !! id) as [q|]; [|done]. destruct (_ || _); by injection H as <-.
Qed.

(** ** Together *)

Record joint (c : Both) : Prop := mkJoint {
  j_pool : reached (pool c);
  j_note : Notifier.inv room r wr (note c);
  j_alive : Notifier.alive (note c) = true;
  j_started : started (pool c) = true;
  j_flag : notified (pool c) = true -> Notifier.owed (Notifier.trace (note c)) = true;
  j_inside : forall i, i ∈ inside c -> workers (pool c) !! i = Some Notifying;
  j_once : NoDup (inside c);
  j_count : Notifier.senders (note c) = length (inside c)
}.

Lemma alive_same s s' : Notifier.notifier s' = Notifier.notifier s -> Notifier.alive s = true -> Notifier.alive s' = true.
Proof. unfold Notifier.alive. by intros ->. Qed.

Lemma work_notifying i p : workers p !! i = Some Notifying ->
  work i p = Some (set_worker i Waiting (busy_workers p) (with_completed (completed p) (draining p) true p)).
Proof. intros H. unfold ResolverPool.work. by rewrite H. Qed.

Lemma notified_worker i p : reached p -> workers p !! i = Some Notifying ->
  reached (set_worker i Waiting (busy_workers p) (with_completed (completed p) (draining p) true p)).
Proof. intros Hr Hi. apply (reached_step _ _ _ _ _ _ _ _ (Work i) p); [done|done|]. by apply work_notifying. Qed.

Lemma filter_out i (l : list nat) : NoDup l -> i ∈ l ->
  NoDup (List.filter (fun j => negb (Nat.eqb j i)) l) /\ S (length (List.filter (fun j => negb (Nat.eqb j i)) l)) = length l.
Proof.
  induction 1 as [|x l Hx Hl IH]; [by intros ?%not_elem_of_nil|]. rewrite elem_of_cons. cbn. destruct (Nat.eqb_spec x i) as [->|Hne]; cbn.
  - intros _. assert (List.filter (fun j => negb (Nat.eqb j i)) l = l) as ->; [|by split].
    clear -Hx. induction l as [|y l IH]; [done|]. cbn. rewrite elem_of_cons in Hx. destruct (Nat.eqb_spec y i) as [->|]; cbn; [tauto|].
    f_equal. apply IH. tauto.
  - intros [->|Hi]; [done|]. destruct (IH Hi) as [Hn Hlen]. split; [|lia]. constructor; [|done].
    rewrite list_elem_of_In, List.filter_In, <- list_elem_of_In. tauto.
Qed.

Lemma joint_act x c c' : joint c -> allowed x -> act x c = Some c' -> joint c'.
Proof.
  intros J Hx H. destruct x as [s|i|i a|trig|a]; cbn in H.
  - destruct (own s (pool c)) eqn:Eo; [|done]. destruct (step s (pool c)) as [p|] eqn:Es; [|done]. injection H as <-.
    destruct (own_leaves _ _ _ (j_started _ J) Eo Es) as (Hn & Hst & Hw). destruct J. constructor; cbn; try done.
    + by eapply reached_step.
    + by rewrite Hn.
    + intros i Hi. by apply Hw, j_inside0.
  - unfold enter in H. destruct (workers (pool c) !! i) as [[]|] eqn:Ei; try done. destruct (decide (i ∈ inside c)) as [|Hni]; [done|].
    destruct (Notifier.step _ _ _) as [n|] eqn:En; [|done]. destruct (notify_effect _ _ En) as (Ho & He).
    pose proof (Notifier.notifier_inv_step room room_positive r wr r_valid wr_valid distinct _ _ _ (j_note _ J) En) as I'.
    pose proof (alive_same _ _ Ho (j_alive _ J)) as A'. destruct (Nat.eqb_spec (Notifier.senders n) (Notifier.senders (note c))) as [E|E].
    + rewrite (work_notifying _ _ Ei) in H. injection H as <-. destruct He as [[_ He]|[He _]]; [|lia].
      destruct J. constructor; cbn; try done; [by apply notified_worker| |by rewrite E].
      intros j Hj. rewrite list_lookup_insert_ne; [by apply j_inside0|]. by intros <-.
    + injection H as <-. destruct He as [[He _]|[He Ht]]; [lia|]. destruct J. constructor; cbn; try done.
      * by rewrite Ht.
      * intros j [->|Hj]%elem_of_cons; [done|by apply j_inside0].
      * by constructor.
      * by rewrite He, j_count0.
  - unfold send_by in H. destruct (decide (i ∈ inside c)) as [Hi|]; [|done]. destruct (Notifier.step _ _ _) as [n|] eqn:En; [|done].
    destruct (send_effect _ _ _ En) as (Ho & He).
    pose proof (Notifier.notifier_inv_step room room_positive r wr r_valid wr_valid distinct _ _ _ (j_note _ J) En) as I'.
    pose proof (alive_same _ _ Ho (j_alive _ J)) as A'. destruct (Nat.eqb_spec (Notifier.senders n) (Notifier.senders (note c))) as [E|E].
    + injection H as <-. destruct He as [[_ He]|[He _]]; [|lia]. destruct J. constructor; cbn; try done; [by rewrite He|by rewrite E].
    + pose proof (j_inside _ J i Hi) as Ei. rewrite (work_notifying _ _ Ei) in H. injection H as <-. destruct He as [[He _]|[He Ht]]; [lia|].
      destruct (filter_out i _ (j_once _ J) Hi) as [Hnd Hlen]. destruct J. constructor; cbn; try done; [by apply notified_worker| |lia].
      intros j Hj. rewrite list_elem_of_In, List.filter_In, <- list_elem_of_In, negb_true_iff, Nat.eqb_neq in Hj.
      destruct Hj as [Hj Hne]. rewrite list_lookup_insert_ne; [by apply j_inside0|]. by intros ->.
  - unfold loop_event in H. destruct (draining (pool c)); [|done]. destruct (Notifier.step _ _ _) as [n|] eqn:En; [|done]. injection H as <-.
    destruct (event_effect _ _ _ En) as (Ho & Hs & Ht).
    pose proof (Notifier.notifier_inv_step room room_positive r wr r_valid wr_valid distinct _ _ _ (j_note _ J) En) as I'.
    pose proof (alive_same _ _ Ho (j_alive _ J)) as A'. destruct J. constructor; cbn; try done; [by rewrite Ht|by rewrite Hs].
  - unfold loop_recv in H. destruct (draining (pool c)) eqn:Ed; [|done]. destruct (Notifier.step _ _ _) as [n|] eqn:En; [|done]. injection H as <-.
    destruct (recv_effect _ _ _ En) as (Ho & Hs & Ht).
    pose proof (Notifier.notifier_inv_step room room_positive r wr r_valid wr_valid distinct _ _ _ (j_note _ J) En) as I'.
    pose proof (alive_same _ _ Ho (j_alive _ J)) as A'. destruct (Notifier.draining n) eqn:Edn.
    + destruct J. constructor; cbn; try done; [by rewrite Ht|by rewrite Hs].
    + destruct J. constructor; cbn; try done; [|by rewrite Hs].
      apply (reached_step _ _ _ _ _ _ _ _ Drain (with_completed (completed (pool c)) (draining (pool c)) true (pool c)));
        [by apply (reached_step _ _ _ _ _ _ _ _ Wakeup (pool c))|done|].
      cbn. unfold drain. cbn. by rewrite Ed.
Qed.

Lemma together_joint c : together c -> joint c.
Proof.
  induction 1 as [q setup Hq Hc Hp Ha|x c c' _ IH Hx H]; [|by eapply joint_act].
  assert (Es : submit can_start q new_Pool = with_pending [0%nat] true (with_requests {[0%nat := q]} 1 (with_started true new_Pool))).
  { unfold submit, startOnce. cbn. by rewrite Hc. }
  constructor; cbn [pool note inside]; try done.
  - by apply (reached_step _ _ _ _ _ _ _ _ (Submit q) new_Pool); [constructor| |].
  - by apply Notifier.notifier_inv_create.
  - by rewrite Es.
  - by rewrite Es.
  - by intros i ?%not_elem_of_nil.
  - constructor.
  - unfold Notifier.create, Notifier.new_Notifier. rewrite Hp. repeat case_match; done.
Qed.

(** C17. The pool over its notifier does what the pool alone may do, so all that holds of that
    holds here. A result that is completed and not taken has a worker on its way through
    [notify], or a byte that makes the monitor report the notifier, or the handler already
    running, whose end takes it; a worker on its way can always go on, and the loop that
    has handed out what it took can always begin the handler or go on in it. *)
Theorem results_delivered c :
  together c ->
  reached (pool c) /\
  (completed (pool c) <> [] ->
     (exists i, workers (pool c) !! i = Some Notifying) \/ 0 < Notifier.waiting (note c) \/ Notifier.draining (note c) = true) /\
  (forall i, workers (pool c) !! i = Some Notifying ->
     exists x c', act x c = Some c' /\ (x = Enter i /\ i ∉ inside c \/ exists a, x = SendBy i a /\ a <> Notifier.SendInterrupted /\
        workers (pool c') !! i = Some Waiting)) /\
  (draining (pool c) = [] ->
     exists x c', act x c = Some c' /\
       if Notifier.draining (note c) then exists a, x = LoopRecv a else x = LoopEvent Notifier.Read /\ Notifier.draining (note c') = true).
Proof.
  intros T. pose proof (together_joint c T) as J. split; [apply J|]. split; [|split].
  - intros Hc. destruct (inv_woken _ (pool_inv _ _ _ _ _ _ _ _ _ (j_pool _ J)) Hc) as [Hn|Hn].
    + right. by apply (Notifier.inv_owed room r wr _ (j_note _ J) (j_alive _ J)), (j_flag _ J).
    + left. by apply list_elem_of_lookup in Hn.
  - intros i Hi. destruct (decide (i ∈ inside c)) as [Hin|Hni].
    + destruct (Notifier.send_enabled room r wr _ (j_note _ J) (j_alive _ J)) as (a & n & Ha & En & Hs).
      { rewrite (j_count _ J). destruct (inside c); [by apply not_elem_of_nil in Hin|done]. }
      exists (SendBy i a). cbn. unfold send_by. rewrite En. destruct (decide (i ∈ inside c)); [|done].
      destruct (Nat.eqb_spec (Notifier.senders n) (Notifier.senders (note c))) as [E|E]; [lia|].
      rewrite (work_notifying _ _ Hi). eexists. split; [done|]. right. exists a. split; [done|]. split; [done|]. cbn.
      apply list_lookup_insert_eq. by eapply lookup_lt_Some.
    + exists (Enter i). cbn. unfold enter. rewrite Hi. destruct (decide (i ∈ inside c)); [done|].
      pose proof (j_alive _ J) as Ha. unfold Notifier.alive, Notifier.step in *. destruct (Notifier.notifier (note c)) as [o|] eqn:En; [|done].
      destruct (Nat.eqb _ _); [rewrite (work_notifying _ _ Hi)|]; eexists; (split; [done|]); by left.
  - intros Hd. destruct (Notifier.draining (note c)) eqn:En.
    + destruct (Notifier.recv_enabled room r wr _ (j_note _ J) (j_alive _ J) En) as (a & n & Es).
      exists (LoopRecv a). cbn. unfold loop_recv. rewrite Hd, Es. eexists. split; [done|]. by exists a.
    + destruct (Notifier.event_enabled room r wr r_valid _ (j_note _ J) (j_alive _ J) En) as (n & Es & Hn).
      exists (LoopEvent Notifier.Read). cbn. unfold loop_event. rewrite Hd, Es. by eexists.
Qed.

End together.

(** ** A lookup from its request to its report *)

Definition demo_request : Request := mkRequest Forward (lit "host") false (mkInetAddress Unspecified zero_data [] Unresolved) [] Unknown true false.

Abbreviation demo_act := (act (-2) (-3) (-4) (-5) (-10) demo_info demo_name (fun _ => true) 1).
Fixpoint demo_acts (l : list Act) (c : Both) : option Both :=
  match l with [] => Some c | x :: l => c' ← demo_act x c; demo_acts l c' end.

Definition demo_together : Both -> Prop :=
  together (-2) (-3) (-4) (-5) (-10) demo_info demo_name (fun _ => true) 1 5 6.

Lemma demo_acts_together l c c' : demo_together c -> Forall allowed l -> demo_acts l c = Some c' -> demo_together c'.
Proof.
  revert c. induction l as [|x l IH]; cbn; intros c T HF H; [by injection H as <-|].
  apply Forall_cons in HF as [Hx HF]. destruct (demo_act x c) as [c1|] eqn:E; [|done]. eapply IH; [by eapply together_act|done|done].
Qed.

Definition demo_begin : Both := mkBoth (submit (fun _ => true) demo_request new_Pool) (Notifier.create true Notifier.demo_setup) [].
Definition demo_handed_in : list Act :=
  [Own Schedule; Own (Work 0); Own (Work 0); Enter 0; SendBy 0 Notifier.SendInterrupted; SendBy 0 Notifier.Sent].
Definition demo_reported : list Act :=
  [LoopEvent Notifier.Read; LoopRecv (Notifier.Bytes 1); LoopRecv Notifier.Nothing; Own Drain].

Lemma demo_delivers :
  (c ← demo_acts demo_handed_in demo_begin; c' ← demo_acts demo_reported c;
   Some (completed (pool c), map fst (answered (pool c')))) = Some ([0], [0])%nat.
Proof. by vm_compute. Qed.

Lemma results_delivered_witness :
  exists c, demo_acts demo_handed_in demo_begin = Some c /\ completed (pool c) = [0%nat] /\
    ((exists i, workers (pool c) !! i = Some Notifying) \/ 0 < Notifier.waiting (note c) \/ Notifier.draining (note c) = true) /\
    exists c', demo_acts demo_reported c = Some c' /\ map fst (answered (pool c')) = [0%nat].
Proof.
  pose proof demo_delivers as D. destruct (demo_acts demo_handed_in demo_begin) as [c|] eqn:E; [|discriminate D].
  cbn [mbind option_bind] in D. destruct (demo_acts demo_reported c) as [c'|] eqn:E'; [|discriminate D].
  cbn [mbind option_bind] in D. injection D as Hc Ha. exists c. split; [reflexivity|]. split; [exact Hc|].
  assert (T : demo_together c).
  { apply (demo_acts_together demo_handed_in demo_begin c); [|repeat constructor|exact E].
    by apply (together_start (-2) (-3) (-4) (-5) (-10) demo_info demo_name (fun _ => true) 1 5 6 demo_request Notifier.demo_setup). }
  split; [|exists c'; split; [exact E'|exact Ha]].
  refine (proj1 (proj2 (results_delivered (-2) (-3) (-4) (-5) (-10) demo_info demo_name (fun _ => true) 1 5 6 _ _ _ _ c T)) _);
    [lia|discriminate|discriminate|discriminate|by rewrite Hc].
Defined.
