(* ===== verification/Logging.v ===== *)
(** * Logging: [src/debug/dbg.cpp]

    Four logs and the standard error. What [vsnprintf] makes of a format and its arguments is
    the text each call is given; a log is a file that could be opened or not, and a write to
    one that could not is lost. *)

From S2P Require Import Prelude.
From S2P Require Strings.
Import Strings (c_str).

(** A log that was created: whether its file is open, and what is in it. *)
Record Log := mkLog { opened : bool; content : bytes }.

(* @src src/src/debug/dbg.cpp:30-35 samurai_dump_net *)
Record Logs := mkLogs {
  dump_net : option Log;
  dump_sch : option Log;
  dump_dbg : option Log;
  dump_hub : option Log;
  debug_stderr : bool;
  err : bytes
}.

Definition no_logs : Logs := mkLogs None None None None false [].

Definition with_err (l : bytes) (s : Logs) : Logs :=
  mkLogs (dump_net s) (dump_sch s) (dump_dbg s) (dump_hub s) (debug_stderr s) (err s ++ l).
Definition with_net (l : Log) (s : Logs) : Logs := mkLogs (Some l) (dump_sch s) (dump_dbg s) (dump_hub s) (debug_stderr s) (err s).
Definition with_sch (l : Log) (s : Logs) : Logs := mkLogs (dump_net s) (Some l) (dump_dbg s) (dump_hub s) (debug_stderr s) (err s).
Definition with_dbg (l : Log) (s : Logs) : Logs := mkLogs (dump_net s) (dump_sch s) (Some l) (dump_hub s) (debug_stderr s) (err s).
Definition with_hub (l : Log) (s : Logs) : Logs := mkLogs (dump_net s) (dump_sch s) (dump_dbg s) (Some l) (debug_stderr s) (err s).

Definition ENDLINE : bytes := [ch_lf].
Definition PREFIX : bytes := lit "../".

(** Which files can be opened; those opened to append keep what they hold. The flag is set
    where the environment asks for it and never cleared. *)
Record Files := mkFiles { net_ok : bool; sch_ok : option bytes; dbg_ok : bool; hub_ok : option bytes; env_debug : bool }.

(* @src src/src/debug/dbg.cpp:37-58 samurai_debug_init *)
Definition samurai_debug_init (f : Files) (s : Logs) : Logs :=
  let s := with_err (lit "Starting up with debug code enabled" ++ ENDLINE) s in
  let s := if env_debug f then with_err (lit "    (dumping debug messages to stderr)" ++ ENDLINE) s else s in
  let appended o := match o with Some before => mkLog true before | None => mkLog false [] end in
  mkLogs (Some (mkLog (net_ok f) [])) (Some (appended (sch_ok f))) (Some (mkLog (dbg_ok f) [])) (Some (appended (hub_ok f)))
    (env_debug f || debug_stderr s) (err s).

(* @src src/src/debug/dbg.cpp:60-65 samurai_debug_fini *)
Definition samurai_debug_fini (s : Logs) : Logs := mkLogs None None None None (debug_stderr s) (err s).

(** What a buffer of 1024 bytes holds of a text. *)
Definition clipped (text : bytes) : bytes := ztake 1023 (c_str text).

Definition write (data : bytes) (l : Log) : Log := if opened l then mkLog true (content l ++ data) else l.

(** A line of a log: the message, then its end. *)
Definition write_line (logmsg : bytes) (l : Log) : Log := write ENDLINE (write logmsg l).

(** The name without the way to it; [None] is a read past its end. *)
(* @src src/src/debug/dbg.cpp:75-78 samurai_debug *)
Definition short_file (file : bytes) : option bytes :=
  match find_sub PREFIX file with
  | Some i => if (i + 4 <=? length file)%nat then Some (drop (i + 4) file) else None
  | None => Some file
  end.

(** [%32s:%u] with a tab and a blank. *)
Definition location (shortfile : bytes) (line : Z) : bytes :=
  clipped (replicate (32 - length shortfile) " "%char ++ shortfile ++ ":"%char :: Strings.to_string (u32 line) ++ [ch_tab; " "%char]).

(* @src src/src/debug/dbg.cpp:67-91 samurai_debug *)
Definition samurai_debug (file : bytes) (line : Z) (text : bytes) (s : Logs) : option Logs :=
  let logmsg := clipped text in
  match short_file file with
  | None => None
  | Some shortfile =>
      match dump_dbg s, debug_stderr s with
      | Some l, false => Some (with_dbg (write_line logmsg l) s)
      | _, _ => Some (with_err (lit "DEBUG: " ++ location shortfile line ++ lit ": " ++ logmsg ++ [ch_lf]) s)
      end
  end.

(* @src src/src/debug/dbg.cpp:93-117 samurai_error *)
Definition samurai_error (file : bytes) (line : Z) (text : bytes) (s : Logs) : option Logs :=
  let logmsg := clipped text in
  match short_file file with
  | None => None
  | Some shortfile =>
      let loc := location shortfile line in
      let s := with_err (lit "ERROR: " ++ loc ++ lit ": " ++ logmsg ++ [ch_lf]) s in
      match dump_dbg s with
      | None => Some s
      | Some l => Some (with_dbg (write_line logmsg (write (lit ": ") (write loc (write (lit "ERROR: ") l)))) s)
      end
  end.

(** The copy of a line that goes to the debug log. *)
Definition duplicate (logmsg : bytes) (s : Logs) : Logs :=
  match dump_dbg s with None => s | Some l => with_dbg (write_line logmsg l) s end.

(* @src src/src/debug/dbg.cpp:119-143 samurai_net *)
Definition samurai_net (text : bytes) (s : Logs) : Logs :=
  match dump_net s with
  | None => s
  | Some l => duplicate (clipped text) (with_net (write_line (clipped text) l) s)
  end.

(* @src src/src/debug/dbg.cpp:145-170 samurai_search *)
Definition samurai_search (text : bytes) (s : Logs) : Logs :=
  match dump_sch s with
  | None => s
  | Some l => duplicate (clipped text) (with_sch (write_line (clipped text) l) s)
  end.

(* @src src/src/debug/dbg.cpp:172-196 samurai_hub *)
Definition samurai_hub (text : bytes) (s : Logs) : Logs :=
  match dump_hub s with
  | None => s
  | Some l => duplicate (clipped text) (with_hub (write_line (clipped text) l) s)
  end.

(** ** What the logs hold *)

Inductive Said :=
  | Debug (file : bytes) (line : Z) (text : bytes) | Error (file : bytes) (line : Z) (text : bytes)
  | Net (text : bytes) | Search (text : bytes) | Hub (text : bytes).

Definition say (x : Said) (s : Logs) : option Logs :=
  match x with
  | Debug f n t => samurai_debug f n t s
  | Error f n t => samurai_error f n t s
  | Net t => Some (samurai_net t s)
  | Search t => Some (samurai_search t s)
  | Hub t => Some (samurai_hub t s)
  end.

Fixpoint say_all (l : list Said) (s : Logs) : option Logs :=
  match l with [] => Some s | x :: l => match say x s with Some s => say_all l s | None => None end end.

Definition line_of (text : bytes) : bytes := clipped text ++ ENDLINE.
Definition net_line (x : Said) : bytes := match x with Net t => line_of t | _ => [] end.
Definition sch_line (x : Said) : bytes := match x with Search t => line_of t | _ => [] end.
Definition hub_line (x : Said) : bytes := match x with Hub t => line_of t | _ => [] end.
Definition dbg_line (x : Said) : bytes :=
  match x with
  | Debug _ _ t | Net t | Search t | Hub t => line_of t
  | Error f n t => lit "ERROR: " ++ location (default [] (short_file f)) n ++ lit ": " ++ line_of t
  end.

(** Every log is open, and messages go to them. *)
Definition running (s : Logs) : Prop :=
  debug_stderr s = false /\
  Forall (fun o => exists l, o = Some l /\ opened l = true) [dump_net s; dump_sch s; dump_dbg s; dump_hub s].

Definition text_of (o : option Log) : bytes := match o with Some l => content l | None => [] end.

(** The texts of all four logs. *)
Definition texts (s : Logs) : bytes * bytes * bytes * bytes :=
  (text_of (dump_net s), text_of (dump_sch s), text_of (dump_dbg s), text_of (dump_hub s)).

Lemma opened_write data l : opened (write data l) = opened l.
Proof. unfold write. by destruct (opened l) eqn:E. Qed.

Lemma content_write data l : opened l = true -> content (write data l) = content l ++ data.
Proof. unfold write. by intros ->. Qed.

Lemma say_running x s s' : running s -> say x s = Some s' ->
  running s' /\
  texts s' = (text_of (dump_net s) ++ net_line x, text_of (dump_sch s) ++ sch_line x,
              text_of (dump_dbg s) ++ dbg_line x, text_of (dump_hub s) ++ hub_line x).
Proof.
  intros [Hf Ho] H. destruct s as [n c d h b e]. cbn in Hf, Ho. subst b.
  apply Forall_cons in Ho as ((ln & -> & En) & Ho). apply Forall_cons in Ho as ((lc & -> & Ec) & Ho).
  apply Forall_cons in Ho as ((ld & -> & Ed) & Ho). apply Forall_cons in Ho as ((lh & -> & Eh) & _).
  assert (Hr : forall ln lc ld lh e, opened ln = true -> opened lc = true -> opened ld = true -> opened lh = true ->
            running (mkLogs (Some ln) (Some lc) (Some ld) (Some lh) false e)).
  { intros. split; [done|]. repeat constructor; by eexists. }
  destruct x as [f k t|f k t|t|t|t]; cbn in H;
    [unfold samurai_debug in H; cbn in H; destruct (short_file f) as [sf|] eqn:Esf; [|done]
    |unfold samurai_error in H; cbn in H; destruct (short_file f) as [sf|] eqn:Esf; [|done]|..];
    injection H as <-; unfold duplicate, write_line, texts, with_dbg, with_net, with_sch, with_hub; cbn;
    (split; [apply Hr; rewrite ?opened_write; done|]);
    rewrite ?content_write by (rewrite ?opened_write; done); rewrite ?Esf, ?app_nil_r, <- ?app_assoc; done.
Qed.

(** While the four logs are open each of them holds its messages, one to a line, clipped at
    1023 bytes, in order and complete; the debug log holds all of them, errors with where
    they were said. *)
Theorem logs_complete l s s' : running s -> say_all l s = Some s' ->
  running s' /\
  texts s' = (text_of (dump_net s) ++ concat (map net_line l), text_of (dump_sch s) ++ concat (map sch_line l),
              text_of (dump_dbg s) ++ concat (map dbg_line l), text_of (dump_hub s) ++ concat (map hub_line l)).
Proof.
  revert s. induction l as [|x l IH]; cbn; intros s R H.
  - injection H as <-. rewrite !app_nil_r. by split.
  - destruct (say x s) as [s1|] eqn:E; [|done]. destruct (say_running _ _ _ R E) as [R1 T1].
    destruct (IH s1 R1 H) as [R2 T2]. split; [done|]. rewrite T2. unfold texts in T1. injection T1 as -> -> -> ->.
    by rewrite <- !app_assoc.
Qed.

Definition demo_files : Files := mkFiles true (Some []) true (Some (lit "before ")) false.

Lemma logs_complete_witness :
  exists s, say_all [Net (lit "hello"); Error (lit "x.cpp") 7 (lit "oops"); Hub (lit "bye")] (samurai_debug_init demo_files no_logs) = Some s /\
    text_of (dump_net s) = lit "hello" ++ [ch_lf] /\ text_of (dump_hub s) = lit "before bye" ++ [ch_lf].
Proof.
  eexists. split; [reflexivity|].
  assert (R : running (samurai_debug_init demo_files no_logs)) by (split; [reflexivity|]; repeat constructor; by eexists).
  destruct (logs_complete [Net (lit "hello"); Error (lit "x.cpp") 7 (lit "oops"); Hub (lit "bye")] _ _ R eq_refl) as [_ T].
  split; [exact (f_equal (fun t => t.1.1.1) T)|exact (f_equal (fun t => t.2) T)].
Defined.

(** Closing the logs ends all writing but that to the standard error. *)
Lemma closed_logs_are_silent x s s' : say x (samurai_debug_fini s) = Some s' -> texts s' = ([], [], [], []).
Proof.
  destruct x as [f k t|f k t|t|t|t]; cbn; [unfold samurai_debug|unfold samurai_error|..];
    try (destruct (short_file f); [|done]); by intros [= <-].
Qed.

(** ** What does not hold *)

(** One character more than the separator is skipped: the name loses its first, and a name
    that ends in the separator is read past its end. *)
Lemma short_file_skips_one_more :
  short_file (lit "../src/timer.cpp") = Some (lit "rc/timer.cpp") /\ short_file (lit "../") = None.
Proof. done. Qed.
